(* ===== verification/_CoqProject ===== *)
-Q . S2P
Prelude.v
Double.v
Logic4.v
Variant.v
Node.v
Device.v
Gates.v
Arith.v
Sequential.v
LogicIO.v
Circuit.v
Engine.v
Settle.v
Codec.v
Archive.v
Netlist.v
VModule.v
VEval.v
VExec.v
VSim.v
VSettle.v
VElab.v
VLower.v
VBits.v
VLowerOk.v
VArithOk.v
VCompareOk.v
VConstOk.v
VShiftOk.v
VExpr.v
VLiteral.v
VLex.v
VLexOk.v
VPre.v
VPreOk.v
VSignals.v
VParse.v
VParseOk.v
VPrint.v
VMeaning.v
VStmt.v
VStmtOk.v
VStmtBuild.v
VStmtPrint.v
VDecl.v
VItems.v
VItemsOk.v
VCompile.v
VCompileOk.v
VInv.v
VRun.v
VDevice.v
