(* ===== verification/Prelude.v ===== *)
(** * Phy-Engine: a verification development of the circuit engine's core

    Phy-Engine is a header-only circuit simulator (src/include/phy_engine).  A
    netlist holds models (devices) and nodes; the pins of models point at nodes
    and nodes list the pins on them.  A circuit prepares a netlist for an
    analysis, solves its analog part as a system of equations and runs its
    digital part as an event loop: a tick updates the clocked models, then
    takes nodes from a queue and updates every digital model with a pin there,
    which may write its output nodes and queue them.  Netlists are stored in a
    binary format with its own codec and a single-file archive.  A Verilog
    front end (verilog/digital/digital.h) compiles modules to arenas of one-bit
    expression nodes and statement nodes, elaborates a tree of instances and
    simulates it tick by tick: due events, clocked blocks and initial blocks
    first, then combinational blocks, continuous assignments and ports until
    nothing changes.

    This development models the digital engine, the netlist, the storage format
    and the Verilog simulator with the whole of its front end, from the source
    text to compiled modules, and proves what makes each of them correct.

    ** Files and what they model

    - [Prelude]: hint database, loops that may fail, lemmas on maps and lists.
    - [Double]: [double] as the standard library's specification of binary64,
      with the comparisons and the subtraction the digital models use.
    - [Logic4]: the four-state levels and operators of model/node/node.h and
      the logic primitives of verilog/digital/digital.h.
    - [Variant]: the attribute values of model/model_refs/variant.h.
    - [Node]: nodes, pins and the update table (node.h, pin.h,
      circuits/digital/update_table.h), and how a digital model reads a pin and
      drives an output.  A [world] is the memory of nodes and the update table;
      [None] is undefined behaviour (a dangling node, an inactive union member,
      an [unreachable]).
    - [Device]: the class [DigitalDevice] (the virtual interface a digital model
      gives to the engine) and [DeviceSpec], the contract the engine relies on:
      on digital nodes an update is a pure function of the pin states
      ([dev_eval]) followed by writes to its output pins, it keeps the model in
      step with what it wrote ([dev_coh]), an update that has nothing to change
      changes nothing, and a [dev_prompt] model is done after one update.
    - [Gates], [Arith], [Sequential], [LogicIO]: the models under
      model/models/digital/, each with its attributes and its
      [update_digital_clk_define], and for each an instance of [DeviceSpec]:
      the detailed update refines the abstract evaluation.
    - [Circuit]: circuits/circuit.h as far as digital nodes and models go, over
      any [DeviceSpec]: [prepare], [digital_clk] with its three phases, [reset].
    - [Engine]: the sum of all digital models (model/model_refs/base.h), the
      [TR] case of [prepare], and theorems on concrete networks.
    - [Settle]: the settling time of circuits without feedback.
    - [Codec], [Archive]: pe_nl_fileformat/codec.h and archive.h.  The file
      system is the list of files of a directory in the order they are packed,
      and a predicate for the paths that can be created.
    - [Netlist]: netlist/netlist.h, netlist/operation.h and the parts of
      model_base and node_t that link pins and nodes.  Objects live in a store
      by address; the numbers of objects per chunk are parameters.

    The Verilog files model verilog/digital/digital.h; an index of the source is
    an [option nat] whose [None] is SIZE_MAX, and [None] as the result of a step
    is an access the code does not check.

    - [VModule]: the data of compiled modules, instances and module states.
    - [VEval]: [eval_expr] and the memoised [eval_expr_cached] over the
      expression arena, and the reference [ev] that evaluates each node once.
    - [VExec]: [exec_stmt] with its loops and control flow, scheduled events and
      non-blocking updates.
    - [VSim]: one tick ([simulate]): initial blocks, the sequential pass, the
      combinational pass with net drives and ports, [$urandom].
    - [VSettle]: what a settled instance tree satisfies, and two deviations.
    - [VElab]: [elaborate], port bindings with their width coercion, parameter
      overrides, and the states a design reaches.
    - [VLower]: the operators of [expr_parser]: [add_node] with folding and
      sharing, and the lowering of vector operations to one-bit nodes, in a
      state monad over the module under construction and the errors reported.
    - [VBits]: vectors of bits and the integers they stand for.
    - [VLowerOk]: the class [Denotes] (what a lowered result stands for under a
      valuation of the signals) and the relation [lowers] between a step of the
      builder and its value; every operator is proved against it.
    - [VArithOk], [VCompareOk], [VConstOk], [VShiftOk]: arithmetic, comparison,
      constant evaluation, shifts and conditional expressions.
    - [VExpr]: the theorems on lowered expressions and their examples.
    - [VLiteral]: number literals ([parse_literal_bits]) and decimal conversion.
    - [VLex], [VLexOk]: [lex], with positions, errors and the map of source
      positions; a lexical grammar written without the lexer, which the tokens
      and errors follow exactly.
    - [VPre], [VPreOk]: [preprocess]: directives, conditional blocks, macros with
      parameters, comments and strings, included files (the resolver is a
      parameter), and the position of every character of the output.
    - [VSignals]: the tables of signals, vectors, ports and parameters, and
      [proc_scope], the names of nested procedural blocks.
    - [VParse]: the methods of [parser] and those of [expr_parser] that consume
      tokens, from [parse_primary] to [parse_expr], in a monad over the position,
      the module under construction and the errors.  The inlining of a call
      ([inline_call]) is an argument, which [VStmt] gives.
    - [VParseOk]: steps that stay inside the tokens ([safe]).
    - [VPrint]: expression trees, their lowering and their printed form; the
      parser on the tokens of a printed tree builds what the lowering builds.
    - [VMeaning]: the value of an expression tree on the integers, and that its
      text compiles to nodes that compute it.
    - [VStmt]: [parse_lvalue_ref] and [parse_proc_stmt] with the declarations of
      procedural blocks, assignments to selections that are not constant, task
      calls and the inlining of functions, in a monad over the arena of
      statements and the scope; [proc_at] ties the knot between statements,
      expressions and the bodies of calls.
    - [VStmtOk]: statements take a token and the parser terminates.
    - [VStmtBuild]: the arena the parser builds can be run.
    - [VStmtPrint]: statement trees, what they build and their printed form.
    - [VDecl]: the declarations of a module: parameters, functions and tasks (kept
      as text), ports, nets and variables with their initial values.
    - [VItems]: continuous assignments, always and initial blocks with their
      sensitivity, instances with overrides and connections, generate blocks.
    - [VItemsOk]: the loops of declarations and items take tokens; the check of
      always_ff for blocking assignments is exact (lemma [blocking_inside_spec]).
    - [VCompile]: [parse_module] (header, items in the order they are tried,
      expansion of ports) and [compile], the front end as a whole.
    - [VCompileOk]: the compiler ends but for one loop, and on which sources that
      loop does not.
    - [VInv], [VRun]: the processes of a compiled module can be run, so that the
      simulator returns on whatever was compiled; a source compiled and run.
    - [VDevice]: model/models/digital/verilog_module.h and verilog_ports.h: a
      compiled design as a model of the circuit, through [DigitalDevice].  It has
      a state that the pins do not show, so it is no [DeviceSpec] and not in the
      sum of [Engine].

    Addresses are natural numbers; ordered sets of pointers are iterated in
    address order.  Machine integers are [Z] with the reduction modulo 2^64 (or
    2^8, 2^4) written out where the code can wrap.

    ** What the theorems show

    - Levels: the operators are the most precise ones (lemma [dns_ops_best]) and
      monotone; the Verilog primitives agree with them; the resolution of
      drivers does not depend on their order.
    - Models: what each update computes on digital nodes and when it queues
      its output; the analog threshold detector rejects short pulses; a
      flip-flop holds the data of the last edge; the counter, the generator,
      the delay line, the Schmitt trigger and the byte input and display over
      whole input sequences; no undefined behaviour of gates on any pins.
    - Event loop: a tick of a well-formed digital circuit is always defined and
      keeps its invariant ([digital_clk_safe], [reachable_in_order]); a tick
      that ends with an empty queue leaves every model settled
      ([digital_clk_quiescent]), so every gate equation holds
      ([settled_gate_equations]); and a circuit without feedback does empty its
      queue within the iteration budget ([acyclic_settles]).
    - Storage: round trips of varints, doubles, strings, vectors and archives;
      readers stay inside their input on any bytes (lemma [readers_stay_inside]); a damaged byte is noticed;
      unpacking never leaves its directory.
    - Netlist: any sequence of edits keeps pins and nodes, counters and chunks
      consistent and defined; the two model counts agree; positions are stable.
    - Verilog simulation: evaluation with the cache agrees with plain
      evaluation, also across the wrap of its 32-bit token
      ([eval_expr_cached_correct]); statements, ticks and the combinational pass
      always return (lemma [exec_stmt_total], [simulate_returns]); a block of
      non-blocking assignments reads the old values and writes them together
      ([nonblocking_block_atomic]); due events are applied in order
      ([process_due_events_correct]); a combinational pass that stops before its
      64 rounds leaves nets equal to the resolution of their drivers and ports
      equal to what they are bound to ([comb_resolve_consistent]), in every
      state a design reaches ([reachable_design_consistent]).
    - Verilog expressions: a node means its operator whether folded, shared or
      new ([add_node_meaning]); lowered sums, differences and products are those
      of the integers ([arithmetic_refines_integers]); comparisons decide the order and answer only
      what holds for every completion of unknown bits
      ([comparisons_decide_order]); shifts by less than the width move bits
      ([shifts_move_bits]); conditional expressions choose their branch
      (lemma [conditional_chooses_branch]); constant evaluation agrees with the
      running module ([const_evaluation_agrees]); and from its text to the bits
      of its nodes, an expression computes its value on the integers
      ([expression_text_computes]).
    - Verilog source: the preprocessor leaves text without directives and macros
      as it is ([preprocess_transparent]), chooses the branches of nested
      conditional blocks ([conditional_blocks_select]), expands macro calls
      ([macro_call_expands]) and gives every character a position
      ([preprocess_positions]); the lexer cuts the source into the lexemes of
      its grammar, each with the right line and column, and reports exactly the
      errors of the source ([lex_covers_source]); literals in every base denote
      their number ([literal_roundtrip]) and decimal conversion stops at 64 bits
      ([parse_dec_uint64_bounds]); any sequence of declarations keeps the symbol
      tables consistent ([declarations_keep_symbols]); leaving a block restores
      the names of the outer one (lemma [scope_restored]).
    - Verilog compiler: one loop of it only can go on forever, over the ports of
      a module header; on every other source it ends, with a result, at an
      undefined step or at calls nested too deep ([compile_terminates]; for statements and expressions lemma
      [parser_terminates]); a port list that no parenthesis closes is never left
      ([open_port_list_diverges]); every design of what it returns runs: in each
      state that is reached the next tick returns ([compiled_source_simulates]).
    - Verilog in the circuit: in every state of a model made from source an update
      on any nodes is defined, and writes and queues nodes of output ports only
      ([verilog_module_runs]); inputs get the levels of their nodes before the
      tick and nodes the values of their outputs after it
      ([verilog_ports_carry_values]).
    - Verilog parser: it inverts
      the printing of expressions, with the precedence and associativity of the
      code ([parse_print_roundtrip]), and of statements, with [else] at the
      nearest [if] ([parse_print_stmt_roundtrip]); whatever it builds can be run
      to an end by the simulator ([parsed_statement_runs]).
    - Deviations that are theorems: a tri-state buffer never lets the queue drain
      ([tri_never_settles]), a port list without an end keeps the compiler in its
      loop ([open_port_list_diverges]), a task that calls itself is never parsed
      ([recursive_task_not_parsed]).  Others are lemmas:
      [comment_at_line_end_hides_directives], [copy_runs_initial_again],
      [unknown_top_takes_first],
      [copies_lose_counts], [assign_to_variable_goes_stale],
      [dynamic_shift_wraps], [comparison_binds_loosely], [nested_use_rejected],
      [macro_at_line_start_rejected], [dynamic_index_read_again],
      [sum_loses_carry], [case_value_truncated], [partial_select_dropped],
      [initial_block_assigned_twice], [case_equality_folded],
      [unknown_literal_not_extended], [parameter_default_folded],
      [reset_keeps_stale_outputs], [toggle_loses_unknown], [merge_node_counts],
      [prepare_tr_first_sample], [uleb128_tenth_byte_truncated],
      [eight_bit_input_255_not_driven], [random_generator4_locks_at_15].

    ** Fuel

    - [settle_loop] takes the iteration budget of the source, 10,000,000, as
      its fuel: running out is a behaviour of the program ([break]), not of the
      model, and the theorems cover it.  [acyclic_settles] bounds the rounds by
      the nodes and the weights of the models.  For evaluation, [settle_fuel] shows
      that a run that empties the queue with less fuel has the same result.
    - The varint loops have ten rounds, as many as 64 bits need: the writer is
      shown to finish and the reader to return on every input.
    - [eval_memo] has one round per node and one more, since a node is marked
      before its operands; [exec_stmt] and the passes over the instance tree
      take the depth of the statements and of the tree, and the loops of the
      source their own limits (4096 and 64 rounds), which are behaviour of the
      program; [elaborate_children] has the source's depth limit.  Totality is
      proved for each.
    - [lex_loop] has one round per character and each round consumes one at
      least; the loops of the parser have one round per token left and one more,
      and running out ([OutOfFuel]) is shown impossible ([parser_terminates],
      [compile_terminates]), but for the loop over the ports of a header, which
      the code leaves by a closing parenthesis only.  A generate loop has the
      1,000,000 rounds of the source.  The depth [d] of [proc_at] and [expr_at] bounds how deep calls nest in the
      bodies of calls, where the code has no bound: beyond it the result is
      [TooDeep], which is told apart from running out, and the theorems hold for
      every [d].
    - [preprocess] nests included files and macros as deep as the source allows,
      and its loops have one round per character.
    - [copy_loop] has one round per buffer of 2^20 bytes and one more; the
      round-trip theorem shows that it finishes.

    ** What is not modelled

    The analog side: linear and non-linear devices, sources, the matrix, the
    solvers and the Newton iteration are floating-point numerics over Eigen and
    CUDA.  Of the Verilog front end, the errors of the parser keep their message
    and not their position, the formatting of diagnostics and
    [parse_connection_ref_legacy], which nothing calls, are left out; so are the
    optimisation passes of the synthesis (pe_synth.h).  Of the lowering, bit and part selects, division
    and powers are defined but have no theorem of their own.  Of netlists,
    [operator=] (the copy constructor again on a cleared netlist) and the general
    correctness of copies are left out.  LevelDB storage, Physics Lab files,
    layout, tools and bindings are glue over libraries. *)

From Stdlib Require Import ZArith Lia.
From Corelib Require Export SpecFloat.
From stdpp Require Export base list gmap sets option sorting strings.

#[global] Set Default Goal Selector "!".

(** ** Hint databases

    [phy] resolves side conditions of the node-update lemmas. *)
Create HintDb phy discriminated.

(** ** Loops that may fail *)

(** A loop whose body may be undefined, over the elements in order. *)
Definition fold_option {A B} (f : A -> B -> option A) : list B -> A -> option A :=
  fix go (l : list B) (a : A) : option A :=
    match l with [] => Some a | b :: l' => a' ← f a b; go l' a' end.

(** Evaluate a partial function on a closed input. *)
Lemma default_is_some {A} (x : A) (o : option A) :
  match o with Some _ => true | None => false end = true -> o = Some (default x o).
Proof. by destruct o. Qed.

Ltac eval_some := apply default_is_some; vm_compute; reflexivity.

(** ** Maps *)

Lemma insert_fresh_dom {A} (m : gmap nat A) (k : nat) (x : A) :
  (forall n, is_Some (m !! n) -> n < k) -> forall n, is_Some (<[k := x]> m !! n) -> n < S k.
Proof.
  intros Hm n. destruct (decide (n = k)) as [->|Hne]; [lia|]. rewrite lookup_insert_ne by done.
  intros Hs. apply Hm in Hs. lia.
Qed.

Lemma insert_dom_iff {A} (m : gmap nat A) (k : nat) (x : A) :
  is_Some (m !! k) -> forall n, is_Some (<[k := x]> m !! n) <-> is_Some (m !! n).
Proof.
  intros Hk n. destruct (decide (n = k)) as [->|Hne]; [|by rewrite lookup_insert_ne].
  rewrite lookup_insert_eq. split; [done|by eexists].
Qed.

(** ** Lists *)

Lemma mjoin_insert {A B} (f : A -> list B) (l : list A) (i : nat) (x : A) :
  is_Some (l !! i) -> mjoin (f <$> <[i := x]> l) = mjoin (f <$> take i l) ++ f x ++ mjoin (f <$> drop (S i) l).
Proof.
  intros [y Hy]. rewrite insert_take_drop by (by eapply lookup_lt_Some). by rewrite fmap_app, join_app.
Qed.

Lemma mjoin_lookup {A B} (f : A -> list B) (l : list A) (i : nat) (x : A) :
  l !! i = Some x -> mjoin (f <$> l) = mjoin (f <$> take i l) ++ f x ++ mjoin (f <$> drop (S i) l).
Proof. intros Hx. rewrite <- (mjoin_insert f l i x) by (by eexists). by rewrite list_insert_id. Qed.

Lemma removelast_take {A} (l : list A) (i : nat) : S i = length l -> removelast l = take i l.
Proof. intros Hi. rewrite removelast_firstn_len, <- Hi. done. Qed.

Lemma removelast_lookup {A} (l : list A) (i v : nat) (x : A) :
  S v = length l -> i <> v -> l !! i = Some x -> removelast l !! i = Some x.
Proof.
  intros Hv Hi Hx. rewrite (removelast_take l v Hv), lookup_take_lt; [done|]. apply lookup_lt_Some in Hx. lia.
Qed.
