(* ===== verification/Double.v ===== *)
(** * IEEE-754 binary64 arithmetic

    The engine's [double] is modelled by the executable specification floats
    of the core library at precision 53 and maximal exponent 1024.  Only the
    operations the digital models use are given names: the four comparisons
    (all false on a NaN operand, as in C++), subtraction and the literals that
    occur as default member initialisers. *)

From S2P Require Import Prelude.
From Stdlib Require Import ZArith Lia.

Definition double := spec_float.

#[global] Instance double_eq_dec : EqDecision double.
Proof. unfold double. solve_decision. Defined.

(** ** Operations *)

Definition dle (x y : double) : bool := SFleb x y.
Definition dge (x y : double) : bool := SFleb y x.
Definition dlt (x y : double) : bool := SFltb x y.
Definition dgt (x y : double) : bool := SFltb y x.
Definition dsub (x y : double) : double := SFsub 53 1024 x y.

(** ** Literals *)

(** [0.0] *)
Definition d0 : double := S754_zero false.

(** [5.0] *)
Definition d5 : double := S754_finite false 5629499534213120 (-50).

(** [1e-9], correctly rounded *)
Definition d1em9 : double := S754_finite false 4835703278458517 (-82).

(** [5e-10], correctly rounded *)
Definition d5em10 : double := S754_finite false 4835703278458517 (-83).

(** [1.6666666666666666666666], correctly rounded *)
Definition d5_3 : double := S754_finite false 7505999378950827 (-52).

(** [3.333333333333333333333], correctly rounded *)
Definition d10_3 : double := S754_finite false 7505999378950827 (-51).
