(* ===== verification/Logic4.v ===== *)
(** * Four-state logic

    [digital_node_statement_t] and its operators from model/node/node.h, the
    scalar operators the Verilog front end defines on the same type in
    verilog/digital/digital.h, and their relation to two-valued logic: every
    operator is the most precise four-state abstraction of its boolean
    counterpart, so an [X] in a result always stands for two possible values
    of the inputs. *)

From S2P Require Import Prelude.
From Stdlib Require Import Ascii Bool.

(** ** The states (node.h, [digital_node_statement_t]) *)

Inductive digital_node_statement_t :=
| false_state
| true_state
| indeterminate_state
| high_impedence_state.

Abbreviation dns := digital_node_statement_t.

#[global] Instance dns_eq_dec : EqDecision digital_node_statement_t.
Proof. solve_decision. Defined.

#[global] Instance dns_inhabited : Inhabited digital_node_statement_t := populate false_state.

(** The default value of the enumeration, [digital_node_statement_t{}]. *)
Definition dns_default : dns := false_state.

(** The enumerator values 0..3; [static_cast<bool>] tests the value against 0
    and [static_cast<digital_node_statement_t>] of a [bool] is 0 or 1. *)
Definition dns_to_bool (a : dns) : bool :=
  match a with false_state => false | _ => true end.

Definition dns_of_bool (b : bool) : dns := if b then true_state else false_state.

(** The character each state prints as. *)
Definition print_reserve_define (d : dns) : Ascii.ascii :=
  match d with
  | false_state => "L"%char
  | true_state => "H"%char
  | indeterminate_state => "X"%char
  | high_impedence_state => "Z"%char
  end.

(** ** Operators of node.h *)

(** [operator&] *)
Definition dns_and (a b : dns) : dns :=
  match a with
  | false_state => false_state
  | true_state =>
      match b with
      | false_state => false_state
      | true_state => true_state
      | indeterminate_state | high_impedence_state => indeterminate_state
      end
  | indeterminate_state | high_impedence_state =>
      match b with
      | false_state => false_state
      | true_state | indeterminate_state | high_impedence_state => indeterminate_state
      end
  end.

(** [operator|] *)
Definition dns_or (a b : dns) : dns :=
  match a with
  | false_state =>
      match b with
      | false_state => false_state
      | true_state => true_state
      | indeterminate_state | high_impedence_state => indeterminate_state
      end
  | true_state => true_state
  | indeterminate_state | high_impedence_state =>
      match b with
      | false_state => indeterminate_state
      | true_state => true_state
      | indeterminate_state | high_impedence_state => indeterminate_state
      end
  end.

(** [operator~] *)
Definition dns_not (a : dns) : dns :=
  match a with
  | false_state => true_state
  | true_state => false_state
  | indeterminate_state | high_impedence_state => indeterminate_state
  end.

(** [operator^] *)
Definition dns_xor (a b : dns) : dns :=
  match a with
  | false_state | true_state =>
      match b with
      | false_state | true_state => dns_of_bool (xorb (dns_to_bool a) (dns_to_bool b))
      | indeterminate_state | high_impedence_state => indeterminate_state
      end
  | indeterminate_state | high_impedence_state => indeterminate_state
  end.

(** ** Scalar operators of verilog/digital/digital.h *)

Definition normalize_z_to_x (v : dns) : dns :=
  match v with high_impedence_state => indeterminate_state | _ => v end.

Definition is_unknown (v : dns) : bool :=
  bool_decide (normalize_z_to_x v = indeterminate_state).

Definition logic_not (a : dns) : dns :=
  match normalize_z_to_x a with
  | false_state => true_state
  | true_state => false_state
  | indeterminate_state => indeterminate_state
  | _ => indeterminate_state
  end.

Definition logic_and (a b : dns) : dns :=
  let a := normalize_z_to_x a in
  let b := normalize_z_to_x b in
  if bool_decide (a = false_state) || bool_decide (b = false_state) then false_state
  else if is_unknown a || is_unknown b then indeterminate_state
  else true_state.

Definition logic_or (a b : dns) : dns :=
  let a := normalize_z_to_x a in
  let b := normalize_z_to_x b in
  if bool_decide (a = true_state) || bool_decide (b = true_state) then true_state
  else if is_unknown a || is_unknown b then indeterminate_state
  else false_state.

Definition logic_xor (a b : dns) : dns :=
  let a := normalize_z_to_x a in
  let b := normalize_z_to_x b in
  if is_unknown a || is_unknown b then indeterminate_state
  else dns_of_bool (xorb (dns_to_bool a) (dns_to_bool b)).

(** The resolution of two drivers of one net
    (verilog/digital/digital.h, [runtime_details::resolve_net_drivers]). *)
Definition resolve_net_drivers (a b : dns) : dns :=
  if bool_decide (b = high_impedence_state) then a
  else if bool_decide (a = high_impedence_state) then b
  else
    let a := normalize_z_to_x a in
    let b := normalize_z_to_x b in
    if is_unknown a || is_unknown b then indeterminate_state
    else if bool_decide (a = b) then a else indeterminate_state.

(** ** The abstract specification: sets of boolean values

    A state stands for the set of levels the wire may have: [L] and [H] for
    one, [X] and [Z] for both. *)

Definition gamma (a : dns) (b : bool) : Prop :=
  match a with
  | false_state => b = false
  | true_state => b = true
  | indeterminate_state | high_impedence_state => True
  end.

(** [d] is the best abstraction of the set [S] of levels: it is [L], [H] or
    [X], it covers [S], and it is [X] only when [S] has both levels. *)
Definition best (S : bool -> Prop) (d : dns) : Prop :=
  (forall b, S b -> gamma d b) /\
  match d with
  | false_state => S false
  | true_state => S true
  | indeterminate_state => S false /\ S true
  | high_impedence_state => False
  end.

(** The information order: [X] and [Z] know nothing, [L] and [H] everything. *)
Definition less_info (a b : dns) : Prop := forall l, gamma b l -> gamma a l.

Ltac dns_cases :=
  repeat match goal with
         | a : digital_node_statement_t |- _ => destruct a
         end.

(** ** Properties *)

Lemma gamma_known (a b : bool) : gamma (dns_of_bool a) b <-> b = a.
Proof. destruct a; simpl; reflexivity. Qed.

(** The image of the levels of [a] (and [b]) under a boolean function. *)
Definition image1 (f : bool -> bool) (a : dns) (r : bool) : Prop :=
  exists x, gamma a x /\ r = f x.
Definition image2 (f : bool -> bool -> bool) (a b : dns) (r : bool) : Prop :=
  exists x y, gamma a x /\ gamma b y /\ r = f x y.

(** [best] is decided by looking at the two levels of each input. *)
Ltac solve_image :=
  first [ exists true, true; repeat split; done
        | exists true, false; repeat split; done
        | exists false, true; repeat split; done
        | exists false, false; repeat split; done
        | exists true; repeat split; done
        | exists false; repeat split; done ].

Ltac solve_best :=
  split;
  [ intros r Hr; unfold image1, image2 in Hr;
    repeat match goal with H : ex _ |- _ => destruct H | H : _ /\ _ |- _ => destruct H end;
    simpl in *; subst;
    repeat match goal with x : bool |- _ => destruct x end; simpl; done
  | simpl; unfold image1, image2; try split; solve_image ].

(** The four operators of node.h are exact: on every pair of four-state
    operands [&], [|], [^] and [~] return the most precise state that covers
    every boolean result compatible with the operands.  In particular they
    never invent a level ([X] only if both results are possible) and never
    return [Z]. *)
Lemma dns_ops_best (a b : dns) :
  best (image2 andb a b) (dns_and a b) /\
  best (image2 orb a b) (dns_or a b) /\
  best (image2 xorb a b) (dns_xor a b) /\
  best (image1 negb a) (dns_not a).
Proof. destruct a, b; split_and!; solve_best. Qed.

(** The operators are monotone in the information order: making an
    unknown or floating operand known never changes a level already
    computed, it can only turn an [X] result into [L] or [H]. *)
Lemma dns_ops_monotone (a a' b b' : dns) :
  less_info a a' -> less_info b b' ->
  less_info (dns_and a b) (dns_and a' b') /\
  less_info (dns_or a b) (dns_or a' b') /\
  less_info (dns_xor a b) (dns_xor a' b') /\
  less_info (dns_not a) (dns_not a').
Proof.
  intros Ha Hb.
  pose proof (Ha true) as Ha1; pose proof (Ha false) as Ha0.
  pose proof (Hb true) as Hb1; pose proof (Hb false) as Hb0. clear Ha Hb.
  destruct a, a'; simpl in Ha1, Ha0;
    try (specialize (Ha1 ltac:(done))); try (specialize (Ha0 ltac:(done))); try done;
    destruct b, b'; simpl in Hb1, Hb0;
    try (specialize (Hb1 ltac:(done))); try (specialize (Hb0 ltac:(done))); try done;
    split_and!; intros l; simpl; done.
Qed.

Lemma dns_ops_monotone_witness :
  dns_and indeterminate_state false_state = false_state /\
  less_info (dns_and indeterminate_state false_state) (dns_and true_state false_state).
Proof.
  split; [reflexivity|].
  apply (dns_ops_monotone indeterminate_state true_state false_state false_state);
    intros l; simpl; done.
Defined.

(** The scalar operators the Verilog runtime defines for itself agree
    with the engine's operators on every operand, so a gate netlist and the
    Verilog expression it was compiled from are evaluated in one logic. *)
Lemma verilog_logic_agrees (a b : dns) :
  logic_and a b = dns_and a b /\ logic_or a b = dns_or a b /\
  logic_xor a b = dns_xor a b /\ logic_not a = dns_not a /\
  (is_unknown a = true <-> dns_not a = indeterminate_state).
Proof. destruct a, b; split_and!; done. Qed.

(** Folding the drivers of a net, as the runtime does one driver at a time. *)
Definition resolve_all (drivers : list dns) : dns :=
  foldr resolve_net_drivers high_impedence_state drivers.

Lemma resolve_comm (a b : dns) : resolve_net_drivers a b = resolve_net_drivers b a.
Proof. dns_cases; done. Qed.

Lemma resolve_assoc (a b c : dns) :
  resolve_net_drivers a (resolve_net_drivers b c) =
  resolve_net_drivers (resolve_net_drivers a b) c.
Proof. dns_cases; done. Qed.

Lemma resolve_idem (a : dns) : resolve_net_drivers a a = a.
Proof. dns_cases; done. Qed.

(** Net resolution does not depend on the order in which the drivers of
    a net are visited, and agreeing drivers do not disturb each other: it is
    a commutative idempotent monoid whose unit is [Z], in which any two
    orders of the same drivers give the same level. *)
Lemma resolve_order_independent (d1 d2 : list dns) :
  d1 ≡ₚ d2 ->
  resolve_all d1 = resolve_all d2 /\
  (forall a, resolve_all [a; a] = a /\ resolve_all [a; high_impedence_state] = a).
Proof.
  intros Hp. split.
  - induction Hp as [|x l1 l2 _ IH|x y l|l1 l2 l3 _ IH1 _ IH2]; simpl.
    + done.
    + by rewrite IH.
    + rewrite !resolve_assoc, (resolve_comm y x). done.
    + congruence.
  - intros a. split; destruct a; reflexivity.
Qed.

Lemma resolve_order_independent_witness :
  resolve_all [true_state; high_impedence_state; false_state] =
  resolve_all [false_state; true_state; high_impedence_state].
Proof.
  refine (proj1 (resolve_order_independent _ _ _)).
  apply (Permutation_app_comm [true_state; high_impedence_state] [false_state]).
Defined.
