(* ===== verification/Variant.v ===== *)
(** * Attribute values

    [variant] of model/model_refs/variant.h: a tagged union through which the
    attributes of a model are set and read. *)

From S2P Require Import Prelude Double Logic4.

Inductive variant :=
| v_invalid
| v_i8 (z : Z) | v_i16 (z : Z) | v_i32 (z : Z) | v_i64 (z : Z)
| v_ui8 (z : Z) | v_ui16 (z : Z) | v_ui32 (z : Z) | v_ui64 (z : Z)
| v_boolean (b : bool)
| v_f (x : double)
| v_d (x : double)
| v_digital (s : dns).

(** A variant that carries a [double] gives it to [k]; any other type makes
    [set_attribute_define] answer [false] and leave the model alone. *)
Definition with_d {A} (vi : variant) (clip : A) (k : double -> A) : bool * A :=
  match vi with v_d x => (true, k x) | _ => (false, clip) end.

Definition with_ui8 {A} (vi : variant) (clip : A) (k : Z -> A) : bool * A :=
  match vi with v_ui8 z => (true, k z) | _ => (false, clip) end.

Definition with_boolean {A} (vi : variant) (clip : A) (k : bool -> A) : bool * A :=
  match vi with v_boolean b => (true, k b) | _ => (false, clip) end.

Definition with_digital {A} (vi : variant) (clip : A) (k : dns -> A) : bool * A :=
  match vi with v_digital s => (true, k s) | _ => (false, clip) end.
