(* ===== verification/Node.v ===== *)
(** * Nodes, pins and the digital update table

    The data of model/node/node.h, model/pin/pin.h and
    circuits/digital/update_table.h as a store: node objects live in a finite
    map from their addresses, and a digital model's update reads and writes
    that store and the update table.

    An operation returns [None] exactly where the C++ has undefined behaviour:
    a dereference of a pointer to no object, a read of the inactive member of
    [node_information_union], or an executed [::fast_io::unreachable()].

    Addresses are natural numbers.  A pin is addressed by the object that
    holds it and its index in that object's pin array, which is the order in
    which pin pointers compare. *)

From S2P Require Import Prelude Double Logic4.

(** ** Data *)

(** [model_refs/node.h]: when in a tick a digital model is updated. *)
Inductive digital_update_method_t :=
| update_table
| before_all_clk
| after_all_clk.

#[global] Instance method_eq_dec : EqDecision digital_update_method_t.
Proof. solve_decision. Defined.

(** The enumerator values, for the bit tests of [circult::prepare]. *)
Definition method_code (m : digital_update_method_t) : N :=
  match m with update_table => 0 | before_all_clk => 1 | after_all_clk => 2 end.

(** The union with the member that is active. *)
Inductive node_information_union :=
| dn (state : dns)
| an (re im : double).

Record node_t := mk_node {
  node_information : node_information_union;
  node_pins : gset (nat * nat);
  num_of_analog_node : Z;
  node_index : Z
}.

#[global] Instance node_information_eq_dec : EqDecision node_information_union.
Proof. solve_decision. Defined.

#[global] Instance node_eq_dec : EqDecision node_t.
Proof. solve_decision. Defined.

(** [SIZE_MAX], the initial [node_index]. *)
Definition SIZE_MAX : Z := 18446744073709551615.

(** A default-constructed node. *)
Definition node_init : node_t := mk_node (dn dns_default) ∅ 0 SIZE_MAX.

Record pin := mk_pin {
  pin_nodes : option nat;
  pin_model : option nat
}.

Record digital_node_update_table := mk_table {
  always_tables : gset nat;
  tables : gset nat
}.

Record need_operate_analog_node_t := mk_drive {
  voltage : double;
  need_to_operate_analog_node : option nat
}.

(** The value-initialised result [return {};]. *)
Definition no_drive : need_operate_analog_node_t := mk_drive d0 None.

(** What an update can reach besides the model object itself. *)
Record world := mk_world {
  w_nodes : gmap nat node_t;
  w_table : digital_node_update_table
}.

(** ** Accesses *)

(** [clip.pins[i].nodes] *)
Definition pin_at (pins : list pin) (i : nat) : option nat := pins !! i ≫= pin_nodes.

Definition is_analog (nd : node_t) : bool := negb (num_of_analog_node nd =? 0)%Z.

(** [n->node_information.dn.state] *)
Definition dn_state (nd : node_t) : option dns :=
  match node_information nd with dn s => Some s | an _ _ => None end.

(** [n->node_information.an.voltage.real()] *)
Definition an_real (nd : node_t) : option double :=
  match node_information nd with an re _ => Some re | dn _ => None end.

Definition with_state (nd : node_t) (s : dns) : node_t :=
  mk_node (dn s) (node_pins nd) (num_of_analog_node nd) (node_index nd).

(** [n->node_information.dn.state = s] *)
Definition set_state (w : world) (n : nat) (s : dns) : option world :=
  nd ← w_nodes w !! n;
  Some (mk_world (<[n := with_state nd s]> (w_nodes w)) (w_table w)).

(** [table.tables.insert(n)] *)
Definition table_insert (w : world) (n : nat) : world :=
  mk_world (w_nodes w) (mk_table (always_tables (w_table w)) ({[n]} ∪ tables (w_table w))).

(** The threshold reading of an analog voltage. *)
Definition level_of (Ll Hl v : double) : dns :=
  if dge v Hl then true_state else if dle v Ll then false_state else indeterminate_state.

(** The [read_dn] lambda of the arithmetic and sequential models: a floating
    digital node reads as unknown. *)
Definition read_dn (Ll Hl : double) (w : world) (n : nat) : option dns :=
  nd ← w_nodes w !! n;
  if is_analog nd then level_of Ll Hl <$> an_real nd
  else normalize_z_to_x <$> dn_state nd.

(** The [read_dn] lambda of RESOLVE2, CASE_EQ and TICK_DELAY (and the inline
    read of IS_UNKNOWN and TRI): a digital node is read as it is. *)
Definition read_dn_raw (Ll Hl : double) (w : world) (n : nat) : option dns :=
  nd ← w_nodes w !! n;
  if is_analog nd then level_of Ll Hl <$> an_real nd else dn_state nd.

(** The drive returned for an analog output node: [L] and [H] drive their
    level, every other state drives the low level. *)
Definition drive_default (Ll Hl : double) (s : dns) (n : nat) : need_operate_analog_node_t :=
  match s with
  | false_state => mk_drive Ll (Some n)
  | true_state => mk_drive Hl (Some n)
  | _ => mk_drive Ll (Some n)
  end.

(** The output stage of the gates and INPUT: a digital output node is always
    written and announced when the output changed; an analog output node is
    driven unless the output floats. *)
Definition gate_output (Ll Hl : double) (w : world) (n : nat) (s : dns) (changed : bool)
  : option (need_operate_analog_node_t * world) :=
  nd ← w_nodes w !! n;
  if is_analog nd then
    match s with
    | false_state => Some (mk_drive Ll (Some n), w)
    | true_state => Some (mk_drive Hl (Some n), w)
    | indeterminate_state => Some (mk_drive Ll (Some n), w)
    | high_impedence_state => Some (no_drive, w)
    end
  else
    w' ← set_state w n s;
    Some (no_drive, if changed then table_insert w' n else w').

(** The output stage of the flip-flops and RESOLVE2: a digital output node is
    written and announced when it differs, an analog one is driven. *)
Definition reg_output (Ll Hl : double) (w : world) (n : nat) (s : dns)
  : option (need_operate_analog_node_t * world) :=
  nd ← w_nodes w !! n;
  if is_analog nd then Some (drive_default Ll Hl s n, w)
  else
    cur ← dn_state nd;
    if bool_decide (cur ≠ s) then
      w' ← set_state w n s; Some (no_drive, table_insert w' n)
    else Some (no_drive, w).

(** ** Digital nodes *)

(** [n] names a node object with no analog pin whose union holds [dn]. *)
Definition node_digital (nd : node_t) : Prop :=
  num_of_analog_node nd = 0%Z /\ exists s, node_information nd = dn s.

Definition digital_at (w : world) (n : nat) : Prop :=
  exists nd, w_nodes w !! n = Some nd /\ node_digital nd.

(** The state of a digital node. *)
Definition state_at (w : world) (n : nat) : option dns := w_nodes w !! n ≫= dn_state.

(** The part of a node no update touches. *)
Definition shape (nd : node_t) : gset (nat * nat) * Z * Z :=
  (node_pins nd, num_of_analog_node nd, node_index nd).

(** ** Lemmas on single accesses *)

Lemma with_state_same (nd : node_t) (s : dns) : dn_state nd = Some s -> with_state nd s = nd.
Proof.
  destruct nd as [info ps na ix]; unfold dn_state, with_state; simpl.
  destruct info; intros H; simplify_eq; reflexivity.
Qed.

Lemma with_state_digital (nd : node_t) (s : dns) : node_digital nd -> node_digital (with_state nd s).
Proof. intros [Hz _]. split; [done|]. by exists s. Qed.

Lemma digital_at_state (w : world) (n : nat) :
  digital_at w n -> exists s, state_at w n = Some s.
Proof.
  intros (nd & Hn & _ & s & Hs). exists s.
  unfold state_at, dn_state. rewrite Hn. simpl. by rewrite Hs.
Qed.

Lemma digital_not_analog (nd : node_t) : node_digital nd -> is_analog nd = false.
Proof. intros [Hz _]. unfold is_analog. rewrite Hz. reflexivity. Qed.

(** Accesses to a digital node, in the form the update functions have them. *)
Lemma read_dn_digital (Ll Hl : double) (w : world) (n : nat) :
  digital_at w n -> read_dn Ll Hl w n = normalize_z_to_x <$> state_at w n.
Proof.
  intros (nd & Hn & Hd). unfold read_dn, state_at. rewrite Hn. simpl.
  by rewrite digital_not_analog.
Qed.

Lemma read_dn_raw_digital (Ll Hl : double) (w : world) (n : nat) :
  digital_at w n -> read_dn_raw Ll Hl w n = state_at w n.
Proof.
  intros (nd & Hn & Hd). unfold read_dn_raw, state_at. rewrite Hn. simpl.
  by rewrite digital_not_analog.
Qed.

#[export] Hint Resolve with_state_digital digital_not_analog : phy.
