(* ===== verification/Device.v ===== *)
(** * The interface of digital models

    [model_base_impl::update_digital_clk] (model/model_refs/base.h) is the one
    operation through which the event loop reaches a digital model.  The class
    [DigitalDevice] is that operation with the static data beside it;
    [DeviceSpec] is the contract a model offers to the event loop.

    The contract is stated on an abstract specification.  On purely digital
    nodes an update is determined by the states of the model's pins: it gives
    a new model state and a list of output actions.  [dev_refines] says that
    the imperative update implements exactly that, and the remaining laws are
    about the pure function only. *)

From S2P Require Import Prelude Double Logic4 Node.

(** ** Output actions *)

(** [Put i s]: write [s] to the node of pin [i] and enqueue the node, unless
    the node has that state already.  [Write i s ann]: write [s]
    unconditionally and enqueue the node if [ann]. *)
Inductive act :=
| Put (i : nat) (s : dns)
| Write (i : nat) (s : dns) (announce : bool).

Definition act_pin (a : act) : nat := match a with Put i _ | Write i _ _ => i end.
Definition act_state (a : act) : dns := match a with Put _ s | Write _ s _ => s end.

Definition write_node (w : world) (n : nat) (s : dns) : world := default w (set_state w n s).

Definition run_act (pins : list pin) (w : world) (a : act) : world :=
  match pin_at pins (act_pin a) with
  | None => w
  | Some n =>
      match a with
      | Put _ s => if decide (state_at w n = Some s) then w else table_insert (write_node w n s) n
      | Write _ s ann => if ann then table_insert (write_node w n s) n else write_node w n s
      end
  end.

Definition run_acts (pins : list pin) : world -> list act -> world := foldl (run_act pins).

(** The states on a model's pins; [None] where nothing is connected. *)
Definition pin_states (pins : list pin) (w : world) (i : nat) : option dns :=
  pin_at pins i ≫= state_at w.

(** The action changes nothing and enqueues nothing when the pins are in [st]. *)
Definition noop (st : nat -> option dns) (a : act) : Prop :=
  match a with
  | Put i s => st i = None \/ st i = Some s
  | Write i s ann => st i = None \/ (ann = false /\ st i = Some s)
  end.

Definition quiet (st : nat -> option dns) (acts : list act) : Prop := Forall (noop st) acts.

(** The action repeats what one of [acts] wrote, without announcing it. *)
Definition repeats (acts : list act) (a : act) : Prop :=
  match a with Write _ _ true => False | _ => True end /\
  exists b, b ∈ acts /\ act_pin b = act_pin a /\ act_state b = act_state a.

(** ** Digital pins *)

(** Every connected pin is connected to a digital node. *)
Definition digital_pins (pins : list pin) (w : world) : Prop :=
  forall i n, pin_at pins i = Some n -> digital_at w n.

Definition connected (pins : list pin) : Prop := exists i n, pin_at pins i = Some n.

(** ** The classes *)

Class DigitalDevice (D : Type) := {
  update_digital_clk :
    list pin -> D -> world -> double -> digital_update_method_t ->
    option (need_operate_analog_node_t * D * world);
  digital_update_method : D -> digital_update_method_t;
  num_pins : D -> nat
}.

(** The pins a model drives, what it remembers of them, and its laws. *)
Class DeviceSpec (D : Type) `{DigitalDevice D} := {
  dev_eval : D -> digital_update_method_t -> (nat -> option dns) -> D * list act;
  dev_outs : D -> list nat;
  dev_coh : D -> (nat -> option dns) -> Prop;

  dev_refines pins d w t m :
    digital_pins pins w -> connected pins -> length pins = num_pins d ->
    update_digital_clk pins d w t m =
      Some (no_drive, (dev_eval d m (pin_states pins w)).1,
            run_acts pins w (dev_eval d m (pin_states pins w)).2);

  (* the pin count and the driven pins are static *)
  dev_static d m st :
    num_pins (dev_eval d m st).1 = num_pins d /\ dev_outs (dev_eval d m st).1 = dev_outs d;
  (* only output pins are written, each at most once *)
  dev_acts_out d m st a : a ∈ (dev_eval d m st).2 -> act_pin a ∈ dev_outs d;
  dev_acts_apart d m st : NoDup (act_pin <$> (dev_eval d m st).2);
  (* only input pins are read; of output pins only whether they are connected *)
  dev_local d m st st' :
    (forall i, i < num_pins d -> i ∉ dev_outs d -> st i = st' i) ->
    (forall i, i ∈ dev_outs d -> is_Some (st i) <-> is_Some (st' i)) ->
    dev_eval d m st = dev_eval d m st';

  (* coherence is about output pins and survives an update *)
  dev_coh_local d st st' :
    (forall i, i ∈ dev_outs d -> st i = st' i) -> dev_coh d st -> dev_coh d st';
  (* a silent write is the only action and rewrites the state the node has *)
  dev_silent d m st i s :
    dev_coh d st -> Write i s false ∈ (dev_eval d m st).2 ->
    (dev_eval d m st).2 = [Write i s false] /\ (st i = None \/ st i = Some s);
  dev_coh_post d m st st' :
    dev_coh d st ->
    (forall a, a ∈ (dev_eval d m st).2 -> st' (act_pin a) = None \/ st' (act_pin a) = Some (act_state a)) ->
    (forall i, i ∈ dev_outs d -> Forall (fun a => act_pin a ≠ i) (dev_eval d m st).2 -> st' i = st i) ->
    dev_coh (dev_eval d m st).1 st';

  (* an update that found nothing to do leaves nothing to do in the table phase *)
  dev_settle d m st :
    dev_coh d st -> quiet st (dev_eval d m st).2 ->
    let d' := (dev_eval d m st).1 in
    (dev_eval d' update_table st).1 = d' /\ quiet st (dev_eval d' update_table st).2;

  (* models that are done after one update of the table phase: a second one
     changes nothing and asks at most for states the first one wrote *)
  dev_prompt : D -> Prop;
  dev_prompt_post d m st : dev_prompt d -> dev_prompt (dev_eval d m st).1;
  dev_again d st :
    dev_prompt d ->
    let r := dev_eval d update_table st in
    let r' := dev_eval r.1 update_table st in
    r'.1 = r.1 /\ Forall (repeats r.2) r'.2
}.

(** A model is settled when one more update would change nothing. *)
Definition settled {D} `{DigitalDevice D} (pins : list pin) (d : D) (w : world) (t : double) : Prop :=
  update_digital_clk pins d w t update_table = Some (no_drive, d, w).

(** ** How an update changes the world *)

(** Nodes outside [outs] keep their value, every changed node is enqueued,
    and nothing else happens to the queue. *)
Record wstep (outs : gset nat) (w w' : world) : Prop := {
  ws_shape n : shape <$> w_nodes w' !! n = shape <$> w_nodes w !! n;
  ws_digital n : digital_at w n -> digital_at w' n;
  ws_frame n : n ∉ outs -> w_nodes w' !! n = w_nodes w !! n;
  ws_notify n : w_nodes w' !! n ≠ w_nodes w !! n -> n ∈ tables (w_table w');
  ws_grow : tables (w_table w) ⊆ tables (w_table w');
  ws_only : tables (w_table w') ⊆ tables (w_table w) ∪ outs;
  ws_always : always_tables (w_table w') = always_tables (w_table w)
}.

Lemma wstep_refl (outs : gset nat) (w : world) : wstep outs w w.
Proof. split; try done; set_solver. Qed.

Lemma wstep_trans (outs : gset nat) (w1 w2 w3 : world) :
  wstep outs w1 w2 -> wstep outs w2 w3 -> wstep outs w1 w3.
Proof.
  intros A B. split.
  - intros n. by rewrite (ws_shape _ _ _ B), (ws_shape _ _ _ A).
  - intros n Hn. apply (ws_digital _ _ _ B), (ws_digital _ _ _ A), Hn.
  - intros n Hn. by rewrite (ws_frame _ _ _ B), (ws_frame _ _ _ A).
  - intros n Hn. destruct (decide (w_nodes w3 !! n = w_nodes w2 !! n)) as [E|E].
    + apply (ws_grow _ _ _ B), (ws_notify _ _ _ A). congruence.
    + by apply (ws_notify _ _ _ B).
  - pose proof (ws_grow _ _ _ A). pose proof (ws_grow _ _ _ B). set_solver.
  - pose proof (ws_only _ _ _ A). pose proof (ws_only _ _ _ B). set_solver.
  - by rewrite (ws_always _ _ _ B), (ws_always _ _ _ A).
Qed.

(** ** Running actions *)

Lemma set_state_some (w : world) (n : nat) (s : dns) (nd : node_t) :
  w_nodes w !! n = Some nd ->
  set_state w n s = Some (mk_world (<[n := with_state nd s]> (w_nodes w)) (w_table w)).
Proof. intros H. unfold set_state. by rewrite H. Qed.

Lemma write_node_some (w : world) (n : nat) (s : dns) (nd : node_t) :
  w_nodes w !! n = Some nd ->
  write_node w n s = mk_world (<[n := with_state nd s]> (w_nodes w)) (w_table w).
Proof. intros H. unfold write_node. by rewrite (set_state_some _ _ _ _ H). Qed.

Lemma write_node_same (w : world) (n : nat) (s : dns) :
  state_at w n = Some s -> write_node w n s = w.
Proof.
  unfold state_at. intros H. destruct (w_nodes w !! n) as [nd|] eqn:E; [|done].
  simpl in H. rewrite (write_node_some _ _ _ _ E), with_state_same by done.
  rewrite insert_id by done. by destruct w.
Qed.

Lemma state_at_write (w : world) (n m : nat) (s : dns) :
  digital_at w n ->
  state_at (write_node w n s) m = if decide (m = n) then Some s else state_at w m.
Proof.
  intros (nd & Hn & _). rewrite (write_node_some _ _ _ _ Hn). unfold state_at; simpl.
  case_decide as E; subst.
  - by rewrite lookup_insert_eq.
  - by rewrite lookup_insert_ne.
Qed.

Lemma write_announce_wstep (outs : gset nat) (w : world) (n : nat) (s : dns) :
  digital_at w n -> n ∈ outs -> wstep outs w (table_insert (write_node w n s) n).
Proof.
  intros (nd & Hn & Hd) Ho. rewrite (write_node_some _ _ _ _ Hn).
  split; simpl.
  - intros m. destruct (decide (m = n)) as [->|Hne].
    + by rewrite lookup_insert_eq, Hn.
    + by rewrite lookup_insert_ne.
  - intros m (md & Hm & Hmd). unfold digital_at; simpl.
    destruct (decide (m = n)) as [->|Hne].
    + rewrite lookup_insert_eq. eauto with phy.
    + rewrite lookup_insert_ne by done. eauto.
  - intros m Hm. rewrite lookup_insert_ne by set_solver. done.
  - intros m Hm. destruct (decide (m = n)) as [->|Hne]; [set_solver|].
    by rewrite lookup_insert_ne in Hm.
  - set_solver.
  - set_solver.
  - done.
Qed.

(** The nodes on the pins of a model, and on its output pins. *)
Definition pin_nodes_of (pins : list pin) : gset nat := list_to_set (omap pin_nodes pins).

Definition out_nodes (pins : list pin) (outs : list nat) : gset nat :=
  list_to_set (omap (pin_at pins) outs).

Lemma elem_of_out_nodes (pins : list pin) (outs : list nat) (n : nat) :
  n ∈ out_nodes pins outs <-> exists i, i ∈ outs /\ pin_at pins i = Some n.
Proof.
  unfold out_nodes. rewrite elem_of_list_to_set, list_elem_of_omap. done.
Qed.

Lemma elem_of_pin_nodes_of (pins : list pin) (n : nat) :
  n ∈ pin_nodes_of pins <-> exists i, pin_at pins i = Some n.
Proof.
  unfold pin_nodes_of, pin_at. rewrite elem_of_list_to_set, list_elem_of_omap. split.
  - intros (p & Hp & Hn). apply list_elem_of_lookup in Hp as [i Hi].
    exists i. by rewrite Hi.
  - intros [i Hi]. destruct (pins !! i) as [p|] eqn:E; [|done].
    exists p. split; [|done]. apply list_elem_of_lookup. eauto.
Qed.

Lemma noop_run_act (pins : list pin) (w : world) (a : act) :
  digital_pins pins w -> noop (pin_states pins w) a -> run_act pins w a = w.
Proof.
  intros Hd Ha. unfold run_act, pin_states, noop in *.
  destruct a as [i s|i s ann]; simpl in *; destruct (pin_at pins i) as [n|] eqn:E; try done; simpl in *.
  - destruct (digital_at_state _ _ (Hd _ _ E)) as [s0 Hs0]. rewrite Hs0 in *.
    destruct Ha as [Ha|Ha]; [done|]. simplify_eq. by rewrite decide_True.
  - destruct (digital_at_state _ _ (Hd _ _ E)) as [s0 Hs0]. rewrite Hs0 in *.
    destruct Ha as [Ha|[-> Ha]]; [done|]. simplify_eq. by apply write_node_same.
Qed.

Lemma quiet_run_acts (pins : list pin) (w : world) (acts : list act) :
  digital_pins pins w -> quiet (pin_states pins w) acts -> run_acts pins w acts = w.
Proof.
  intros Hd Hq. unfold run_acts. induction Hq as [|a acts Ha Hq IH]; simpl; [done|].
  by rewrite noop_run_act.
Qed.

Definition is_silent (a : act) : bool := match a with Write _ _ false => true | _ => false end.

(** No silent write among the actions. *)
Definition loud (a : act) : Prop := forall i s, a ≠ Write i s false.

Lemma loud_run_act_wstep (pins : list pin) (outs : list nat) (w : world) (a : act) :
  digital_pins pins w -> loud a -> act_pin a ∈ outs ->
  wstep (out_nodes pins outs) w (run_act pins w a).
Proof.
  intros Hd Hl Ho. unfold run_act.
  destruct (pin_at pins (act_pin a)) as [n|] eqn:E; [|apply wstep_refl].
  assert (n ∈ out_nodes pins outs) by (apply elem_of_out_nodes; eauto).
  destruct a as [i s|i s [|]]; simpl in *.
  - case_decide; [apply wstep_refl|]. apply write_announce_wstep; eauto.
  - apply write_announce_wstep; eauto.
  - by destruct (Hl i s).
Qed.

Lemma digital_pins_wstep (pins : list pin) (outs : gset nat) (w w' : world) :
  wstep outs w w' -> digital_pins pins w -> digital_pins pins w'.
Proof. intros Hw Hd i n Hi. eapply ws_digital; eauto. Qed.

Lemma loud_run_acts_wstep (pins : list pin) (outs : list nat) (w : world) (acts : list act) :
  digital_pins pins w -> Forall loud acts -> Forall (fun a => act_pin a ∈ outs) acts ->
  wstep (out_nodes pins outs) w (run_acts pins w acts).
Proof.
  intros Hd Hl Ho. unfold run_acts. revert w Hd.
  induction Hl as [|a acts Ha Hl IH]; intros w Hd; simpl; [apply wstep_refl|].
  apply Forall_cons in Ho as [Ho Hos].
  pose proof (loud_run_act_wstep pins outs w a Hd Ha Ho) as Hw.
  eapply wstep_trans; [exact Hw|]. apply IH; [done|].
  by eapply digital_pins_wstep.
Qed.

#[global] Instance noop_dec (st : nat -> option dns) (a : act) : Decision (noop st a).
Proof. destruct a; simpl; apply _. Defined.

Lemma loud_busy_act_enqueues (pins : list pin) (w : world) (a : act) :
  digital_pins pins w -> loud a -> ~ noop (pin_states pins w) a ->
  exists n, n ∈ pin_nodes_of pins /\ n ∈ tables (w_table (run_act pins w a)).
Proof.
  intros Hd Hl Hn. unfold run_act, pin_states, noop in *.
  destruct a as [i s|i s [|]]; simpl in *; destruct (pin_at pins i) as [n|] eqn:E; simpl in *.
  - exists n. split; [apply elem_of_pin_nodes_of; eauto|].
    rewrite decide_False by tauto. simpl. set_solver.
  - tauto.
  - exists n. split; [apply elem_of_pin_nodes_of; eauto|]. simpl. set_solver.
  - tauto.
  - by destruct (Hl i s).
  - by destruct (Hl i s).
Qed.

Lemma loud_busy_enqueues (pins : list pin) (outs : list nat) (w : world) (acts : list act) :
  digital_pins pins w -> Forall loud acts -> Forall (fun a => act_pin a ∈ outs) acts ->
  (exists n, n ∈ pin_nodes_of pins /\ n ∈ tables (w_table (run_acts pins w acts))) \/
  quiet (pin_states pins w) acts.
Proof.
  intros Hd Hl Ho. revert w Hd.
  induction Hl as [|a acts Ha Hl IH]; intros w Hd; [right; constructor|].
  apply Forall_cons in Ho as [Ho Hos].
  destruct (decide (noop (pin_states pins w) a)) as [E|E].
  - simpl. rewrite noop_run_act by done.
    destruct (IH Hos w Hd) as [|Hq]; [by left|right; by constructor].
  - left. destruct (loud_busy_act_enqueues pins w a Hd Ha E) as (n & Hn & Ht).
    exists n. split; [done|]. simpl.
    pose proof (loud_run_act_wstep pins outs w a Hd Ha Ho) as Hw.
    eapply (ws_grow (out_nodes pins outs)); [|exact Ht].
    apply loud_run_acts_wstep; try done. by eapply digital_pins_wstep.
Qed.

(** ** What the contract gives the event loop *)

Section contract.
Context {D : Type} `{DeviceSpec D}.
Implicit Types (d : D) (w : world) (pins : list pin).

(** Distinct output pins of the model drive distinct nodes. *)
Definition outs_apart pins d : Prop :=
  forall i j n, i ∈ dev_outs d -> j ∈ dev_outs d ->
    pin_at pins i = Some n -> pin_at pins j = Some n -> i = j.

Lemma eval_silent_or_loud d m (st : nat -> option dns) :
  dev_coh d st ->
  Forall loud (dev_eval d m st).2 \/
  (exists i s, (dev_eval d m st).2 = [Write i s false] /\ (st i = None \/ st i = Some s)).
Proof.
  intros Hc.
  destruct (decide (Exists (fun a => is_silent a = true) (dev_eval d m st).2)) as [Hex|Hex].
  - right. apply Exists_exists in Hex as (a & Ha & Hb).
    destruct a as [|i s [|]]; try done. exists i, s. by eapply dev_silent.
  - left. apply Forall_forall. intros a Ha i s ->. apply Hex, Exists_exists.
    by exists (Write i s false).
Qed.

Lemma eval_acts_out d m (st : nat -> option dns) :
  Forall (fun a => act_pin a ∈ dev_outs d) (dev_eval d m st).2.
Proof. apply Forall_forall. intros a. apply dev_acts_out. Qed.

(** An update of a coherent model changes the world by announced writes to its
    output nodes, and leaves it with work announced or quiet. *)
Lemma update_wstep pins d w m :
  digital_pins pins w -> dev_coh d (pin_states pins w) ->
  wstep (out_nodes pins (dev_outs d)) w (run_acts pins w (dev_eval d m (pin_states pins w)).2).
Proof.
  intros Hd Hc. destruct (eval_silent_or_loud d m _ Hc) as [Hl|(i & s & Ha & Hs)].
  - apply loud_run_acts_wstep; auto using eval_acts_out.
  - rewrite Ha, quiet_run_acts; [apply wstep_refl|done|].
    constructor; [|constructor]. simpl. tauto.
Qed.

Lemma update_busy_or_quiet pins d w m :
  digital_pins pins w -> dev_coh d (pin_states pins w) ->
  let acts := (dev_eval d m (pin_states pins w)).2 in
  (exists n, n ∈ pin_nodes_of pins /\ n ∈ tables (w_table (run_acts pins w acts))) \/
  quiet (pin_states pins w) acts.
Proof.
  intros Hd Hc acts. destruct (eval_silent_or_loud d m _ Hc) as [Hl|(i & s & Ha & Hs)].
  - eapply loud_busy_enqueues; eauto using eval_acts_out.
  - right. subst acts. rewrite Ha. constructor; [|constructor]. simpl. tauto.
Qed.

Lemma settled_iff pins d w t :
  digital_pins pins w -> connected pins -> length pins = num_pins d ->
  dev_coh d (pin_states pins w) ->
  settled pins d w t <->
  (dev_eval d update_table (pin_states pins w)).1 = d /\
  run_acts pins w (dev_eval d update_table (pin_states pins w)).2 = w.
Proof.
  intros Hd Hk Hlen Hc. unfold settled.
  rewrite dev_refines by done. split; [intros; simplify_eq; split; congruence|].
  intros [-> ->]. done.
Qed.

End contract.

(** ** Refinement of the shared stages on digital nodes *)

Lemma pin_states_some (pins : list pin) (w : world) (i n : nat) :
  pin_at pins i = Some n -> pin_states pins w i = state_at w n.
Proof. intros H. unfold pin_states. by rewrite H. Qed.

Lemma pin_states_none (pins : list pin) (w : world) (i : nat) :
  pin_at pins i = None -> pin_states pins w i = None.
Proof. intros H. unfold pin_states. by rewrite H. Qed.

Lemma gate_output_digital (Ll Hl : double) (w : world) (n : nat) (s : dns) (ch : bool) :
  digital_at w n ->
  gate_output Ll Hl w n s ch =
  Some (no_drive, if ch then table_insert (write_node w n s) n else write_node w n s).
Proof.
  intros (nd & Hn & Hd). unfold gate_output. rewrite Hn. simpl.
  rewrite digital_not_analog by done.
  rewrite (set_state_some _ _ _ _ Hn), (write_node_some _ _ _ _ Hn). done.
Qed.

Lemma reg_output_digital (Ll Hl : double) (w : world) (n : nat) (s : dns) :
  digital_at w n ->
  reg_output Ll Hl w n s =
  Some (no_drive, if decide (state_at w n = Some s) then w else table_insert (write_node w n s) n).
Proof.
  intros (nd & Hn & Hd). unfold reg_output, state_at. rewrite Hn. simpl.
  rewrite digital_not_analog by done.
  destruct Hd as (_ & s0 & Hs0). unfold dn_state. rewrite Hs0. simpl.
  rewrite (set_state_some _ _ _ _ Hn), (write_node_some _ _ _ _ Hn). simpl.
  destruct (decide (Some s0 = Some s)) as [E|E]; simplify_eq.
  - by rewrite bool_decide_false by tauto.
  - by rewrite bool_decide_true by congruence.
Qed.

Lemma run_act_write (pins : list pin) (w : world) (i n : nat) (s : dns) (ann : bool) :
  pin_at pins i = Some n ->
  run_act pins w (Write i s ann) =
  if ann then table_insert (write_node w n s) n else write_node w n s.
Proof. intros H. unfold run_act. simpl. by rewrite H. Qed.

Lemma run_act_put (pins : list pin) (w : world) (i n : nat) (s : dns) :
  pin_at pins i = Some n ->
  run_act pins w (Put i s) =
  if decide (state_at w n = Some s) then w else table_insert (write_node w n s) n.
Proof. intros H. unfold run_act. simpl. by rewrite H. Qed.

Lemma run_act_unconnected (pins : list pin) (w : world) (a : act) :
  pin_at pins (act_pin a) = None -> run_act pins w a = w.
Proof. intros H. unfold run_act. by rewrite H. Qed.

(** Introduce the state of every pin of a model whose pins are digital: for
    each [pin_at pins i] in the goal, either it is unconnected or it names a
    digital node with a state. *)
Ltac digital_pin Hd i :=
  let n := fresh "n" in let E := fresh "Hpin" in let s := fresh "s" in
  let Hs := fresh "Hst" in let Hda := fresh "Hdig" in
  match type of Hd with
  | digital_pins ?pins ?w =>
      destruct (pin_at pins i) as [n|] eqn:E;
      [ rewrite ?(pin_states_some pins w i n E) in *;
        pose proof (Hd i n E) as Hda;
        destruct (digital_at_state w n Hda) as [s Hs]; rewrite ?Hs
      | rewrite ?(pin_states_none pins w i E) in * ]
  end.

(** Read every pin of the list. *)
Ltac digital_pins_cases Hd l :=
  match l with
  | nil => idtac
  | cons ?i ?l' => digital_pin Hd i; digital_pins_cases Hd l'
  end.

(** Case analysis for the laws of a pure evaluation: on the state of each of
    the given pins. *)
Ltac eval_cases st l :=
  match l with
  | nil => idtac
  | cons ?i ?l' => let E := fresh "Est" in destruct (st i) eqn:E; eval_cases st l'
  end.

(** An evaluation reads of the output pins [l] only whether they are connected,
    and of the others what [Hi] says. *)
Ltac same_outs st st' Ho l :=
  match l with
  | nil => idtac
  | cons ?i ?l' =>
      let H := fresh "Hout" in
      pose proof (Ho i ltac:(set_solver)) as H; revert H; destruct (st i), (st' i); intros H;
      [ clear H; same_outs st st' Ho l'
      | exfalso; destruct (proj1 H ltac:(by eexists)); done
      | exfalso; destruct (proj2 H ltac:(by eexists)); done
      | clear H; same_outs st st' Ho l' ]
  end.

Ltac solve_local st st' Hi Ho l :=
  same_outs st st' Ho l; try (rewrite !Hi by (lia || set_solver)); done.

(** Membership of an action in an explicit list. *)
Ltac act_in :=
  intros;
  repeat match goal with
         | H : _ ∈ [] |- _ => by apply not_elem_of_nil in H
         | H : _ ∈ _ :: _ |- _ => apply elem_of_cons in H as [H|H]
         end; simplify_eq; simpl in *.

Lemma run_acts_app (pins : list pin) (w : world) (l1 l2 : list act) :
  run_acts pins w (l1 ++ l2) = run_acts pins (run_acts pins w l1) l2.
Proof. apply foldl_app. Qed.

Lemma announced_digital (w : world) (n m : nat) (s : dns) :
  digital_at w n -> digital_at w m -> digital_at (table_insert (write_node w n s) n) m.
Proof.
  intros Hn Hm. eapply ws_digital; [|exact Hm].
  by apply (write_announce_wstep {[n]}); [|set_solver].
Qed.

Lemma run_act_other (pins : list pin) (w : world) (a : act) (n : nat) :
  pin_at pins (act_pin a) ≠ Some n -> w_nodes (run_act pins w a) !! n = w_nodes w !! n.
Proof.
  intros Hne. unfold run_act. destruct (pin_at pins (act_pin a)) as [m|]; [|done].
  assert (m ≠ n) by congruence.
  assert (Hw : forall s, w_nodes (write_node w m s) !! n = w_nodes w !! n).
  { intros s. unfold write_node, set_state. destruct (w_nodes w !! m); simpl; [|done].
    by rewrite lookup_insert_ne. }
  destruct a as [i s|i s [|]]; [case_decide|..]; simpl; auto.
Qed.

Lemma run_acts_other (pins : list pin) (w : world) (acts : list act) (n : nat) :
  (forall a, a ∈ acts -> pin_at pins (act_pin a) ≠ Some n) ->
  w_nodes (run_acts pins w acts) !! n = w_nodes w !! n.
Proof.
  revert w. induction acts as [|a acts IH]; intros w Hne; [done|].
  cbn [run_acts foldl]. rewrite IH by set_solver. apply run_act_other. set_solver.
Qed.

Lemma run_act_digital (pins : list pin) (w : world) (a : act) (m : nat) :
  digital_pins pins w -> digital_at w m -> digital_at (run_act pins w a) m.
Proof.
  intros Hd Hm. unfold run_act. destruct (pin_at pins (act_pin a)) as [n|] eqn:E; [|done].
  assert (Hw : forall s, digital_at (write_node w n s) m).
  { intros s. by apply (announced_digital w n m s); [eapply Hd|]. }
  destruct a as [i s|i s [|]]; [case_decide; [done|]|..]; apply Hw.
Qed.

(** Actions on separate digital nodes leave every node with its new state. *)
Lemma run_acts_result (pins : list pin) (w : world) (acts : list act) :
  digital_pins pins w -> NoDup (act_pin <$> acts) ->
  (forall i j n, i ∈ act_pin <$> acts -> j ∈ act_pin <$> acts ->
     pin_at pins i = Some n -> pin_at pins j = Some n -> i = j) ->
  forall a n, a ∈ acts -> pin_at pins (act_pin a) = Some n ->
  state_at (run_acts pins w acts) n = Some (act_state a).
Proof.
  revert w. induction acts as [|a0 acts IH]; intros w Hd Hnd Hap a n Hin Hp;
    [by apply not_elem_of_nil in Hin|].
  cbn [fmap list_fmap] in *. apply NoDup_cons in Hnd as [Hni Hnd].
  cbn [run_acts foldl]. fold (run_acts pins (run_act pins w a0) acts).
  apply elem_of_cons in Hin as [->|Hin].
  - unfold state_at. rewrite run_acts_other.
    + fold (state_at (run_act pins w a0) n). unfold run_act. rewrite Hp.
      assert (Hs : state_at (write_node w n (act_state a0)) n = Some (act_state a0)).
      { rewrite state_at_write by eauto. by rewrite decide_True. }
      destruct a0 as [i s|i s [|]]; simpl in *; [|exact Hs..]. case_decide; done.
    + intros b Hb Hpb. assert (act_pin b = act_pin a0) as Heq.
      { eapply (Hap _ _ n); [..|exact Hpb|exact Hp]; [|set_solver].
        apply elem_of_cons. right. apply list_elem_of_fmap. eauto. }
      apply Hni. rewrite <- Heq. apply list_elem_of_fmap. eauto.
  - eapply (IH (run_act pins w a0)); eauto.
    + intros i k Hi. apply run_act_digital; eauto.
    + intros ? ? ? ? ?. apply Hap; set_solver.
Qed.

(** Destruct the states of the pins [l] in order, closing at once every case
    in which one is unconnected. *)
Ltac eval_all st l tac :=
  match l with
  | nil => idtac
  | cons ?i ?l' =>
      let E := fresh "Est" in let s := fresh "s" in
      destruct (st i) as [s|] eqn:E; [eval_all st l' tac|solve [tac]]
  end.

(** The same for the pins of a model on digital nodes. *)
Ltac pins_all Hd l tac :=
  match l with
  | nil => idtac
  | cons ?i ?l' => digital_pin Hd i; [pins_all Hd l' tac|solve [tac]]
  end.

Ltac in_list := repeat first [apply list_elem_of_here | apply list_elem_of_further].

(** ** Register-like models

    A model whose only actions are [Put]s and whose evaluation asks for nothing
    new when it is repeated meets the contract with no coherence condition. *)

Definition puts (l : list (nat * dns)) : list act := (fun p => Put p.1 p.2) <$> l.

Lemma elem_of_puts (l : list (nat * dns)) (a : act) :
  a ∈ puts l -> exists i s, a = Put i s /\ (i, s) ∈ l.
Proof. intros ([i s] & -> & H)%list_elem_of_fmap. eauto. Qed.

Section register.
Context {D : Type} `{DigitalDevice D}.
Variable eval : D -> digital_update_method_t -> (nat -> option dns) -> D * list (nat * dns).
Variable outs : list nat.
Hypothesis refines : forall pins d w t m,
  digital_pins pins w -> connected pins -> length pins = num_pins d ->
  update_digital_clk pins d w t m =
    Some (no_drive, (eval d m (pin_states pins w)).1,
          run_acts pins w (puts (eval d m (pin_states pins w)).2)).
Hypothesis static : forall d m st, num_pins (eval d m st).1 = num_pins d.
Hypothesis acts_out : forall d m st i s, (i, s) ∈ (eval d m st).2 -> i ∈ outs.
Hypothesis acts_apart : forall d m st, NoDup ((eval d m st).2.*1).
Hypothesis local : forall d m st st',
  (forall i, i < num_pins d -> i ∉ outs -> st i = st' i) ->
  (forall i, i ∈ outs -> is_Some (st i) <-> is_Some (st' i)) -> eval d m st = eval d m st'.
Hypothesis settle : forall d m st,
  let r := eval d m st in let r' := eval r.1 update_table st in r'.1 = r.1 /\ r'.2 ⊆ r.2.

Program Definition register_spec : DeviceSpec D := {|
  dev_eval := fun d m st => ((eval d m st).1, puts (eval d m st).2);
  dev_outs := fun _ => outs;
  dev_coh := fun _ _ => True;
  dev_prompt := fun _ => True
|}.
Next Obligation. intros. simpl. by apply refines. Qed.
Next Obligation. intros. simpl. auto. Qed.
Next Obligation. intros d m st a (i & s & -> & Hin)%elem_of_puts. simpl. by eapply acts_out. Qed.
Next Obligation. intros d m st. simpl. unfold puts. rewrite <- list_fmap_compose. apply acts_apart. Qed.
Next Obligation. intros d m st st' Hi Ho. simpl. by rewrite (local d m st st'). Qed.
Next Obligation. done. Qed.
Next Obligation. intros d m st i s _ (? & ? & ? & _)%elem_of_puts. done. Qed.
Next Obligation. done. Qed.
Next Obligation.
  intros d m st _ Hq. simpl in *. destruct (settle d m st) as [Hd Hs]. split; [done|].
  apply Forall_forall. intros a Ha. apply (proj1 (Forall_forall _ _) Hq).
  apply list_elem_of_fmap in Ha as (p & -> & Hp). apply list_elem_of_fmap. eauto.
Qed.
Next Obligation. done. Qed.
Next Obligation.
  intros d st _. simpl. destruct (settle d update_table st) as [Hd Hs]. split; [done|].
  apply Forall_forall. intros a (i & s & -> & Hin)%elem_of_puts. split; [done|].
  exists (Put i s). split; [|done]. apply list_elem_of_fmap. exists (i, s). split; [done|]. by apply Hs.
Qed.
End register.

(** The settling condition for an evaluation that does not depend on the phase
    and repeats itself. *)
Lemma settle_idem {D} (eval : D -> digital_update_method_t -> (nat -> option dns) -> D * list (nat * dns)) :
  (forall d m st, eval (eval d m st).1 update_table st = eval d m st) ->
  forall d m st, let r := eval d m st in let r' := eval r.1 update_table st in r'.1 = r.1 /\ r'.2 ⊆ r.2.
Proof. intros Hi d m st r r'. subst r r'. by rewrite Hi. Qed.

(** Puts to separate digital nodes leave every node with its put state. *)
Lemma puts_result (pins : list pin) (w : world) (l : list (nat * dns)) :
  digital_pins pins w -> NoDup (l.*1) ->
  (forall i j n, i ∈ l.*1 -> j ∈ l.*1 -> pin_at pins i = Some n -> pin_at pins j = Some n -> i = j) ->
  forall i s n, (i, s) ∈ l -> pin_at pins i = Some n ->
  state_at (run_acts pins w (puts l)) n = Some s.
Proof.
  intros Hd Hnd Hap i s n Hin Hp.
  assert (Hf : act_pin <$> puts l = l.*1) by (unfold puts; by rewrite <- list_fmap_compose).
  apply (run_acts_result pins w (puts l) Hd ltac:(by rewrite Hf) ltac:(by rewrite Hf) (Put i s)); [|done].
  apply list_elem_of_fmap. by exists (i, s).
Qed.

(** ** Small concrete worlds *)

(** Digital nodes at addresses 0, 1, ... with the given states, and pins
    connected to the given nodes. *)
Definition world_of (l : list dns) : world :=
  mk_world (map_seq 0 ((fun s => mk_node (dn s) ∅ 0 SIZE_MAX) <$> l)) (mk_table ∅ ∅).

Definition pins_to (l : list (option nat)) : list pin := (fun n => mk_pin n None) <$> l.

Lemma world_of_state (l : list dns) (n : nat) : state_at (world_of l) n = l !! n.
Proof.
  unfold state_at, world_of; simpl. rewrite lookup_map_seq_0, list_lookup_fmap.
  by destruct (l !! n).
Qed.

Lemma world_of_digital (l : list dns) (ps : list (option nat)) :
  Forall (fun o => match o with Some n => n < length l | None => True end) ps ->
  digital_pins (pins_to ps) (world_of l).
Proof.
  intros HF i n Hi. unfold pin_at, pins_to in Hi. rewrite list_lookup_fmap in Hi.
  destruct (ps !! i) as [o|] eqn:E; simpl in Hi; [|done]. subst o.
  rewrite Forall_lookup in HF. specialize (HF _ _ E). simpl in HF.
  destruct (lookup_lt_is_Some_2 l n HF) as [s Hs].
  exists (mk_node (dn s) ∅ 0 SIZE_MAX). split; [|split; [done|by exists s]].
  unfold world_of; simpl. rewrite lookup_map_seq_0, list_lookup_fmap, Hs. done.
Qed.

Ltac solve_world_digital := apply world_of_digital; repeat constructor; simpl; lia.

Lemma world_of_digital_at (l : list dns) (n : nat) : n < length l -> digital_at (world_of l) n.
Proof.
  intros Hn. apply (world_of_digital l [Some n]) with (i := 0); [by repeat constructor|done].
Qed.
