(* ===== verification/Gates.v ===== *)
(** * Logic gates

    The ten gates under model/models/digital/logical/: AND, OR, XOR, NAND,
    NOR, XNOR, IMP, NIMP with two inputs, NOT and YES with one.  The eight
    two-input headers are the same program up to the output expression, and
    so are not.h and yes.h; the common text is translated once, with the
    output expression as a parameter.

    A gate input on a node with analog pins goes through a threshold detector
    with setup and hold times ([sample_analog]); on a digital node it is the
    node's state. *)

From S2P Require Import Prelude Double Logic4 Variant Node Device.

(** ** Data *)

(** The attributes of a gate. *)
Record levels := mk_levels { Ll : double; Hl : double; Tsu : double; Th : double }.

Definition levels_default : levels := mk_levels d0 d5 d1em9 d5em10.

(** One input: the level read so far, the level a pending transition is
    heading to ([USRA], [USRB]) and the time it started. *)
Record channel := mk_channel { ch_input : dns; ch_USR : dns; ch_duration : double }.

Definition channel_default : channel := mk_channel indeterminate_state indeterminate_state d0.

Inductive gate2_kind := k_and | k_or | k_xor | k_nand | k_nor | k_xnor | k_imp | k_nimp.
Inductive gate1_kind := k_not | k_yes.

Record gate2 (k : gate2_kind) := mk_gate2 {
  g2_levels : levels;
  g2_A : channel;
  g2_B : channel;
  g2_last_outputA : dns
}.
Arguments mk_gate2 {k}.
Arguments g2_levels {k}.
Arguments g2_A {k}.
Arguments g2_B {k}.
Arguments g2_last_outputA {k}.

Record gate1 (k : gate1_kind) := mk_gate1 {
  g1_levels : levels;
  g1_A : channel;
  g1_last_outputA : dns
}.
Arguments mk_gate1 {k}.
Arguments g1_levels {k}.
Arguments g1_A {k}.
Arguments g1_last_outputA {k}.

(** Default member initialisers. *)
Definition gate2_init (k : gate2_kind) : gate2 k :=
  mk_gate2 levels_default channel_default channel_default indeterminate_state.

Definition gate1_init (k : gate1_kind) : gate1 k :=
  mk_gate1 levels_default channel_default indeterminate_state.

(** ** Reading an input *)

(** The threshold detector, for a voltage [v] seen at time [t]. *)
Definition sample_analog (lv : levels) (t v : double) (c : channel) : option channel :=
  let settle s := mk_channel s (ch_USR c) (ch_duration c) in
  match ch_input c with
  | false_state =>
      if dge v (Hl lv) then
        if dgt (Tsu lv) d0 then Some (mk_channel indeterminate_state true_state t)
        else Some (settle true_state)
      else Some c
  | true_state =>
      if dle v (Ll lv) then
        if dgt (Th lv) d0 then Some (mk_channel indeterminate_state false_state t)
        else Some (settle false_state)
      else Some c
  | indeterminate_state =>
      match ch_USR c with
      | false_state =>
          if dle v (Ll lv) then
            if dge (dsub t (ch_duration c)) (Tsu lv) then Some (settle false_state) else Some c
          else Some (settle true_state)
      | true_state =>
          if dge v (Hl lv) then
            if dge (dsub t (ch_duration c)) (Th lv) then Some (settle true_state) else Some c
          else Some (settle false_state)
      | indeterminate_state =>
          if dge v (Hl lv) then
            if dge (dsub t (ch_duration c)) (Th lv) then Some (settle true_state) else Some c
          else if dle v (Ll lv) then
            if dge (dsub t (ch_duration c)) (Tsu lv) then Some (settle false_state) else Some c
          else Some (mk_channel (ch_input c) (ch_USR c) t)
      | high_impedence_state => None
      end
  | high_impedence_state => Some c
  end.

Definition sample (lv : levels) (t : double) (w : world) (n : nat) (c : channel) : option channel :=
  nd ← w_nodes w !! n;
  if is_analog nd then v ← an_real nd; sample_analog lv t v c
  else s ← dn_state nd; Some (mk_channel s (ch_USR c) (ch_duration c)).

(** ** Output expressions *)

(** The [inv] lambda of the inverting gates. *)
Definition inv (v : dns) : dns :=
  match v with
  | false_state => true_state
  | true_state => false_state
  | _ => indeterminate_state
  end.

Definition gate2_fn (k : gate2_kind) (a b : dns) : dns :=
  match k with
  | k_and => dns_and a b
  | k_or => dns_or a b
  | k_xor => dns_xor a b
  | k_nand => inv (dns_and a b)
  | k_nor => inv (dns_or a b)
  | k_xnor => inv (dns_xor a b)
  | k_imp => dns_or (inv a) b
  | k_nimp => dns_and a (inv b)
  end.

Definition gate1_fn (k : gate1_kind) (a : dns) : dns :=
  match k with k_not => dns_not a | k_yes => a end.

(** ** Updates *)

Definition gate2_update {k} (pins : list pin) (g : gate2 k) (w : world) (tr_duration : double)
  (method : digital_update_method_t) : option (need_operate_analog_node_t * gate2 k * world) :=
  match pin_at pins 0, pin_at pins 1, pin_at pins 2 with
  | Some node_ia, Some node_ib, Some node_o =>
      A ← sample (g2_levels g) tr_duration w node_ia (g2_A g);
      B ← sample (g2_levels g) tr_duration w node_ib (g2_B g);
      let output_res := gate2_fn k (ch_input A) (ch_input B) in
      let output_change := bool_decide (g2_last_outputA g ≠ output_res) in
      let g' := mk_gate2 (g2_levels g) A B output_res in
      '(rt, w') ← gate_output (Ll (g2_levels g)) (Hl (g2_levels g)) w node_o output_res output_change;
      Some (rt, g', w')
  | _, _, _ => Some (no_drive, g, w)
  end.

Definition gate1_update {k} (pins : list pin) (g : gate1 k) (w : world) (tr_duration : double)
  (method : digital_update_method_t) : option (need_operate_analog_node_t * gate1 k * world) :=
  match pin_at pins 0, pin_at pins 1 with
  | Some node_i, Some node_o =>
      A ← sample (g1_levels g) tr_duration w node_i (g1_A g);
      let output_res := gate1_fn k (ch_input A) in
      let output_change := bool_decide (g1_last_outputA g ≠ output_res) in
      let g' := mk_gate1 (g1_levels g) A output_res in
      '(rt, w') ← gate_output (Ll (g1_levels g)) (Hl (g1_levels g)) w node_o output_res output_change;
      Some (rt, g', w')
  | _, _ => Some (no_drive, g, w)
  end.

(** Start of a transient analysis: [input] becomes [X] and [USRA]/[USRB] the
    default enumerator, which is [false_state]. *)
Definition channel_prepare : channel := mk_channel indeterminate_state dns_default d0.

Definition gate2_prepare_tr {k} (g : gate2 k) : bool * gate2 k :=
  (true, mk_gate2 (g2_levels g) channel_prepare channel_prepare (g2_last_outputA g)).

Definition gate1_prepare_tr {k} (g : gate1 k) : bool * gate1 k :=
  (true, mk_gate1 (g1_levels g) channel_prepare (g1_last_outputA g)).

(** ** Attributes *)

Definition set_levels (lv : levels) (n : nat) (vi : variant) : bool * levels :=
  match n with
  | 0 => with_d vi lv (fun x => mk_levels x (Hl lv) (Tsu lv) (Th lv))
  | 1 => with_d vi lv (fun x => mk_levels (Ll lv) x (Tsu lv) (Th lv))
  | 2 => with_d vi lv (fun x => mk_levels (Ll lv) (Hl lv) x (Th lv))
  | 3 => with_d vi lv (fun x => mk_levels (Ll lv) (Hl lv) (Tsu lv) x)
  | _ => (false, lv)
  end.

Definition get_levels (lv : levels) (n : nat) : variant :=
  match n with
  | 0 => v_d (Ll lv)
  | 1 => v_d (Hl lv)
  | 2 => v_d (Tsu lv)
  | 3 => v_d (Th lv)
  | _ => v_invalid
  end.

Definition levels_name (n : nat) : string :=
  match n with 0 => "Ll" | 1 => "Hl" | 2 => "Tsu" | 3 => "Th" | _ => "" end.

Definition gate2_set_attribute {k} (g : gate2 k) (n : nat) (vi : variant) : bool * gate2 k :=
  let '(ok, lv) := set_levels (g2_levels g) n vi in
  (ok, mk_gate2 lv (g2_A g) (g2_B g) (g2_last_outputA g)).

Definition gate1_set_attribute {k} (g : gate1 k) (n : nat) (vi : variant) : bool * gate1 k :=
  let '(ok, lv) := set_levels (g1_levels g) n vi in
  (ok, mk_gate1 lv (g1_A g) (g1_last_outputA g)).

Definition gate2_get_attribute {k} (g : gate2 k) (n : nat) : variant := get_levels (g2_levels g) n.
Definition gate1_get_attribute {k} (g : gate1 k) (n : nat) : variant := get_levels (g1_levels g) n.

(** ** The ten models

    One block per header, in the names the headers use. *)

Definition AND : Type := gate2 k_and.
Definition AND_set_attribute_define : AND -> nat -> variant -> bool * AND := gate2_set_attribute.
Definition AND_get_attribute_define : AND -> nat -> variant := gate2_get_attribute.
Definition AND_get_attribute_name_define : nat -> string := levels_name.
Definition AND_prepare_tr_define : AND -> bool * AND := gate2_prepare_tr.
Definition AND_update_digital_clk_define :
  list pin -> AND -> world -> double -> digital_update_method_t ->
  option (need_operate_analog_node_t * AND * world) := gate2_update.

Definition OR : Type := gate2 k_or.
Definition OR_set_attribute_define : OR -> nat -> variant -> bool * OR := gate2_set_attribute.
Definition OR_get_attribute_define : OR -> nat -> variant := gate2_get_attribute.
Definition OR_get_attribute_name_define : nat -> string := levels_name.
Definition OR_prepare_tr_define : OR -> bool * OR := gate2_prepare_tr.
Definition OR_update_digital_clk_define :
  list pin -> OR -> world -> double -> digital_update_method_t ->
  option (need_operate_analog_node_t * OR * world) := gate2_update.

Definition XOR : Type := gate2 k_xor.
Definition XOR_set_attribute_define : XOR -> nat -> variant -> bool * XOR := gate2_set_attribute.
Definition XOR_get_attribute_define : XOR -> nat -> variant := gate2_get_attribute.
Definition XOR_get_attribute_name_define : nat -> string := levels_name.
Definition XOR_prepare_tr_define : XOR -> bool * XOR := gate2_prepare_tr.
Definition XOR_update_digital_clk_define :
  list pin -> XOR -> world -> double -> digital_update_method_t ->
  option (need_operate_analog_node_t * XOR * world) := gate2_update.

Definition NAND : Type := gate2 k_nand.
Definition NAND_set_attribute_define : NAND -> nat -> variant -> bool * NAND := gate2_set_attribute.
Definition NAND_get_attribute_define : NAND -> nat -> variant := gate2_get_attribute.
Definition NAND_get_attribute_name_define : nat -> string := levels_name.
Definition NAND_prepare_tr_define : NAND -> bool * NAND := gate2_prepare_tr.
Definition NAND_update_digital_clk_define :
  list pin -> NAND -> world -> double -> digital_update_method_t ->
  option (need_operate_analog_node_t * NAND * world) := gate2_update.

Definition NOR : Type := gate2 k_nor.
Definition NOR_set_attribute_define : NOR -> nat -> variant -> bool * NOR := gate2_set_attribute.
Definition NOR_get_attribute_define : NOR -> nat -> variant := gate2_get_attribute.
Definition NOR_get_attribute_name_define : nat -> string := levels_name.
Definition NOR_prepare_tr_define : NOR -> bool * NOR := gate2_prepare_tr.
Definition NOR_update_digital_clk_define :
  list pin -> NOR -> world -> double -> digital_update_method_t ->
  option (need_operate_analog_node_t * NOR * world) := gate2_update.

Definition XNOR : Type := gate2 k_xnor.
Definition XNOR_set_attribute_define : XNOR -> nat -> variant -> bool * XNOR := gate2_set_attribute.
Definition XNOR_get_attribute_define : XNOR -> nat -> variant := gate2_get_attribute.
Definition XNOR_get_attribute_name_define : nat -> string := levels_name.
Definition XNOR_prepare_tr_define : XNOR -> bool * XNOR := gate2_prepare_tr.
Definition XNOR_update_digital_clk_define :
  list pin -> XNOR -> world -> double -> digital_update_method_t ->
  option (need_operate_analog_node_t * XNOR * world) := gate2_update.

Definition IMP : Type := gate2 k_imp.
Definition IMP_set_attribute_define : IMP -> nat -> variant -> bool * IMP := gate2_set_attribute.
Definition IMP_get_attribute_define : IMP -> nat -> variant := gate2_get_attribute.
Definition IMP_get_attribute_name_define : nat -> string := levels_name.
Definition IMP_prepare_tr_define : IMP -> bool * IMP := gate2_prepare_tr.
Definition IMP_update_digital_clk_define :
  list pin -> IMP -> world -> double -> digital_update_method_t ->
  option (need_operate_analog_node_t * IMP * world) := gate2_update.

Definition NIMP : Type := gate2 k_nimp.
Definition NIMP_set_attribute_define : NIMP -> nat -> variant -> bool * NIMP := gate2_set_attribute.
Definition NIMP_get_attribute_define : NIMP -> nat -> variant := gate2_get_attribute.
Definition NIMP_get_attribute_name_define : nat -> string := levels_name.
Definition NIMP_prepare_tr_define : NIMP -> bool * NIMP := gate2_prepare_tr.
Definition NIMP_update_digital_clk_define :
  list pin -> NIMP -> world -> double -> digital_update_method_t ->
  option (need_operate_analog_node_t * NIMP * world) := gate2_update.

Definition NOT : Type := gate1 k_not.
Definition NOT_set_attribute_define : NOT -> nat -> variant -> bool * NOT := gate1_set_attribute.
Definition NOT_get_attribute_define : NOT -> nat -> variant := gate1_get_attribute.
Definition NOT_get_attribute_name_define : nat -> string := levels_name.
Definition NOT_prepare_tr_define : NOT -> bool * NOT := gate1_prepare_tr.
Definition NOT_update_digital_clk_define :
  list pin -> NOT -> world -> double -> digital_update_method_t ->
  option (need_operate_analog_node_t * NOT * world) := gate1_update.

Definition YES : Type := gate1 k_yes.
Definition YES_set_attribute_define : YES -> nat -> variant -> bool * YES := gate1_set_attribute.
Definition YES_get_attribute_define : YES -> nat -> variant := gate1_get_attribute.
Definition YES_get_attribute_name_define : nat -> string := levels_name.
Definition YES_prepare_tr_define : YES -> bool * YES := gate1_prepare_tr.
Definition YES_update_digital_clk_define :
  list pin -> YES -> world -> double -> digital_update_method_t ->
  option (need_operate_analog_node_t * YES * world) := gate1_update.


(** ** Gates implement the device interface *)

Lemma sample_digital (lv : levels) (t : double) (w : world) (n : nat) (c : channel) (s : dns) :
  digital_at w n -> state_at w n = Some s ->
  sample lv t w n c = Some (mk_channel s (ch_USR c) (ch_duration c)).
Proof.
  intros (nd & Hn & Hd) Hs. unfold sample, state_at in *. rewrite Hn in *. simpl in *.
  rewrite digital_not_analog by done. by rewrite Hs.
Qed.

Definition gate2_eval {k} (g : gate2 k) (m : digital_update_method_t) (st : nat -> option dns)
  : gate2 k * list act :=
  match st 0, st 1, st 2 with
  | Some a, Some b, Some _ =>
      let r := gate2_fn k a b in
      (mk_gate2 (g2_levels g) (mk_channel a (ch_USR (g2_A g)) (ch_duration (g2_A g)))
         (mk_channel b (ch_USR (g2_B g)) (ch_duration (g2_B g))) r,
       [Write 2 r (bool_decide (g2_last_outputA g ≠ r))])
  | _, _, _ => (g, [])
  end.

Definition gate1_eval {k} (g : gate1 k) (m : digital_update_method_t) (st : nat -> option dns)
  : gate1 k * list act :=
  match st 0, st 1 with
  | Some a, Some _ =>
      let r := gate1_fn k a in
      (mk_gate1 (g1_levels g) (mk_channel a (ch_USR (g1_A g)) (ch_duration (g1_A g))) r,
       [Write 1 r (bool_decide (g1_last_outputA g ≠ r))])
  | _, _ => (g, [])
  end.

#[global] Instance gate2_device k : DigitalDevice (gate2 k) := {|
  update_digital_clk := gate2_update;
  digital_update_method := fun _ => update_table;
  num_pins := fun _ => 3
|}.

#[global] Instance gate1_device k : DigitalDevice (gate1 k) := {|
  update_digital_clk := gate1_update;
  digital_update_method := fun _ => update_table;
  num_pins := fun _ => 2
|}.

#[global, program] Instance gate2_spec k : DeviceSpec (gate2 k) := {|
  dev_eval := gate2_eval;
  dev_outs := fun _ => [2];
  dev_coh := fun g st => st 2 = None \/ st 2 = Some (g2_last_outputA g);
  dev_prompt := fun _ => True
|}.
Next Obligation.
  intros k pins d w t m Hd _ _. simpl. unfold gate2_update, gate2_eval.
  digital_pins_cases Hd [0; 1; 2]; simpl; try done.
  erewrite !sample_digital by eassumption. simpl.
  rewrite gate_output_digital by done. by erewrite run_act_write.
Qed.
Next Obligation. done. Qed.
Next Obligation.
  intros k d m st a. simpl. unfold gate2_eval. eval_cases st [0; 1; 2]; simpl; act_in; set_solver.
Qed.
Next Obligation.
  intros k d m st. simpl. unfold gate2_eval. eval_cases st [0; 1; 2]; simpl; repeat constructor; set_solver.
Qed.
Next Obligation.
  intros k d m st st' Hi Ho. simpl in *. unfold gate2_eval. solve_local st st' Hi Ho [2].
Qed.
Next Obligation. intros k d st st' Heq; simpl in *. by rewrite (Heq 2) by set_solver. Qed.
Next Obligation.
  intros k d m st i s Hc; simpl in *. unfold gate2_eval.
  eval_cases st [0; 1; 2]; simpl; act_in. case_bool_decide as Hb; [done|].
  split; [done|]. right. destruct Hc as [Hc|Hc]; congruence.
Qed.
Next Obligation.
  intros k d m st st' Hc Ha Ho. simpl in *. unfold gate2_eval in *.
  eval_cases st [0; 1; 2]; simpl in *;
    first [ rewrite Ho by (constructor || set_solver); congruence || tauto
          | destruct (Ha _ (list_elem_of_here _ _)); tauto ].
Qed.
Next Obligation.
  intros k d m st Hc Hq. simpl in *. unfold gate2_eval in *.
  eval_cases st [0; 1; 2]; simpl in *; try by split.
  split; [done|]. rewrite bool_decide_false by tauto.
  apply Forall_cons in Hq as [Hq _]. constructor; [|done]. simpl in *. tauto.
Qed.
Next Obligation. done. Qed.
Next Obligation.
  intros k d st _. simpl. unfold gate2_eval. eval_cases st [0; 1; 2]; simpl; try by split.
  split; [done|]. rewrite (bool_decide_false (gate2_fn _ _ _ ≠ gate2_fn _ _ _)) by tauto. apply Forall_singleton. split; [done|].
  eexists. split; [apply list_elem_of_here|done].
Qed.

#[global, program] Instance gate1_spec k : DeviceSpec (gate1 k) := {|
  dev_eval := gate1_eval;
  dev_outs := fun _ => [1];
  dev_coh := fun g st => st 1 = None \/ st 1 = Some (g1_last_outputA g);
  dev_prompt := fun _ => True
|}.
Next Obligation.
  intros k pins d w t m Hd _ _. simpl. unfold gate1_update, gate1_eval.
  digital_pins_cases Hd [0; 1]; simpl; try done.
  erewrite !sample_digital by eassumption. simpl.
  rewrite gate_output_digital by done. by erewrite run_act_write.
Qed.
Next Obligation. done. Qed.
Next Obligation.
  intros k d m st a. simpl. unfold gate1_eval. eval_cases st [0; 1]; simpl; act_in; set_solver.
Qed.
Next Obligation.
  intros k d m st. simpl. unfold gate1_eval. eval_cases st [0; 1]; simpl; repeat constructor; set_solver.
Qed.
Next Obligation.
  intros k d m st st' Hi Ho. simpl in *. unfold gate1_eval. solve_local st st' Hi Ho [1].
Qed.
Next Obligation. intros k d st st' Heq; simpl in *. by rewrite (Heq 1) by set_solver. Qed.
Next Obligation.
  intros k d m st i s Hc; simpl in *. unfold gate1_eval.
  eval_cases st [0; 1]; simpl; act_in. case_bool_decide as Hb; [done|].
  split; [done|]. right. destruct Hc as [Hc|Hc]; congruence.
Qed.
Next Obligation.
  intros k d m st st' Hc Ha Ho. simpl in *. unfold gate1_eval in *.
  eval_cases st [0; 1]; simpl in *;
    first [ rewrite Ho by (constructor || set_solver); congruence || tauto
          | destruct (Ha _ (list_elem_of_here _ _)); tauto ].
Qed.
Next Obligation.
  intros k d m st Hc Hq. simpl in *. unfold gate1_eval in *.
  eval_cases st [0; 1]; simpl in *; try by split.
  split; [done|]. rewrite bool_decide_false by tauto.
  apply Forall_cons in Hq as [Hq _]. constructor; [|done]. simpl in *. tauto.
Qed.
Next Obligation. done. Qed.
Next Obligation.
  intros k d st _. simpl. unfold gate1_eval. eval_cases st [0; 1]; simpl; try by split.
  split; [done|]. rewrite (bool_decide_false (gate1_fn _ _ ≠ gate1_fn _ _)) by tauto. apply Forall_singleton. split; [done|].
  eexists. split; [apply list_elem_of_here|done].
Qed.

(** ** Output expressions against two-valued logic *)

Definition gate2_bool (k : gate2_kind) (a b : bool) : bool :=
  match k with
  | k_and => a && b
  | k_or => a || b
  | k_xor => xorb a b
  | k_nand => negb (a && b)
  | k_nor => negb (a || b)
  | k_xnor => negb (xorb a b)
  | k_imp => implb a b
  | k_nimp => a && negb b
  end.

Lemma gate2_fn_best (k : gate2_kind) (a b : dns) : best (image2 (gate2_bool k) a b) (gate2_fn k a b).
Proof. destruct k, a, b; solve_best. Qed.

(** C18. One update of a two-input gate on digital nodes writes to the output
    node the exact four-state value of the gate's boolean function on the two
    input nodes, changes no other node, returns no analog drive, and enqueues
    the output node exactly when the gate's output differs from the last one. *)
Theorem gate2_update_correct (k : gate2_kind) (pins : list pin) (g : gate2 k) (w : world)
  (t : double) (m : digital_update_method_t) (ia ib o : nat) (a b : dns) :
  pin_at pins 0 = Some ia -> pin_at pins 1 = Some ib -> pin_at pins 2 = Some o ->
  digital_pins pins w -> state_at w ia = Some a -> state_at w ib = Some b ->
  exists g' w' r,
    gate2_update pins g w t m = Some (no_drive, g', w') /\
    best (image2 (gate2_bool k) a b) r /\
    state_at w' o = Some r /\
    (forall n, n ≠ o -> w_nodes w' !! n = w_nodes w !! n) /\
    (o ∈ tables (w_table w') <-> o ∈ tables (w_table w) \/ g2_last_outputA g ≠ r) /\
    g2_last_outputA g' = r.
Proof.
  intros H0 H1 H2 Hd Ha Hb. unfold gate2_update. rewrite H0, H1, H2.
  erewrite (sample_digital _ _ w ia), (sample_digital _ _ w ib) by eauto. simpl.
  rewrite gate_output_digital by eauto. simpl.
  do 3 eexists. split; [reflexivity|].
  split; [apply gate2_fn_best|].
  assert (Ho := Hd 2 o H2). case_bool_decide as Hb'.
  - split; [unfold state_at, table_insert; simpl; fold (state_at (write_node w o (gate2_fn k a b)) o);
            rewrite state_at_write by done; by rewrite decide_True|].
    destruct Ho as (nd & Hn & _). rewrite (write_node_some _ _ _ _ Hn). simpl.
    split; [intros n Hne; by rewrite lookup_insert_ne|]. split; [set_solver|done].
  - split; [rewrite state_at_write by done; by rewrite decide_True|].
    destruct Ho as (nd & Hn & _). rewrite (write_node_some _ _ _ _ Hn). simpl.
    split; [intros n Hne; by rewrite lookup_insert_ne|]. split; [set_solver|done].
Qed.

(** ** The threshold detector *)

(** The members [::fast_io::unreachable()] relies on: a pending direction is
    never [Z]. *)
Definition channel_ok (c : channel) : Prop := ch_USR c ≠ high_impedence_state.

Lemma sample_analog_ok (lv : levels) (t v : double) (c : channel) :
  channel_ok c -> exists c', sample_analog lv t v c = Some c' /\ channel_ok c'.
Proof.
  destruct c as [i u d]; unfold channel_ok; intros Hu.
  unfold sample_analog; simpl in *.
  destruct i; [| |destruct u; [| | |done]|];
    repeat match goal with |- context [if ?b then _ else _] => destruct b end;
    eexists; (split; [reflexivity|]); simpl; done.
Qed.

(** The union member that is active is the one the node's analog count says. *)
Definition node_ok (nd : node_t) : Prop :=
  if is_analog nd then exists re im, node_information nd = an re im
  else exists s, node_information nd = dn s.

Definition pins_ok (pins : list pin) (w : world) : Prop :=
  forall i n, pin_at pins i = Some n -> exists nd, w_nodes w !! n = Some nd /\ node_ok nd.

Lemma sample_ok (lv : levels) (t : double) (w : world) (n : nat) (c : channel) (nd : node_t) :
  w_nodes w !! n = Some nd -> node_ok nd -> channel_ok c ->
  exists c', sample lv t w n c = Some c' /\ channel_ok c'.
Proof.
  intros Hn Hok Hc. unfold sample. rewrite Hn. simpl. unfold node_ok in Hok.
  destruct (is_analog nd).
  - destruct Hok as (re & im & E). unfold an_real. rewrite E. simpl. by apply sample_analog_ok.
  - destruct Hok as (s & E). unfold dn_state. rewrite E. simpl. by eexists.
Qed.

Lemma gate_output_ok (l h : double) (pins : list pin) (w : world) (n : nat) (s : dns) (ch : bool) (nd : node_t) :
  w_nodes w !! n = Some nd -> node_ok nd -> pins_ok pins w ->
  exists rt w', gate_output l h w n s ch = Some (rt, w') /\ pins_ok pins w'.
Proof.
  intros Hn Hok Hp. unfold gate_output. rewrite Hn. simpl. unfold node_ok in Hok.
  destruct (is_analog nd) eqn:Ea; [destruct s; by eauto|].
  rewrite (set_state_some _ _ _ _ Hn). simpl. do 2 eexists. split; [reflexivity|].
  assert (pins_ok pins (mk_world (<[n:=with_state nd s]> (w_nodes w)) (w_table w))) as Hp'.
  { intros i m Hi. destruct (Hp i m Hi) as (md & Hm & Hmd). simpl.
    destruct (decide (m = n)) as [->|Hne].
    - rewrite lookup_insert_eq. eexists; split; [done|]. unfold node_ok, is_analog in *. simpl.
      rewrite Ea. by eexists.
    - rewrite lookup_insert_ne by done. eauto. }
  destruct ch; done.
Qed.

Definition gate2_ok {k} (g : gate2 k) : Prop := channel_ok (g2_A g) /\ channel_ok (g2_B g).

(** A two-input gate has no undefined behaviour on any mix of analog,
    digital and unconnected pins: from any state whose pending directions are
    not [Z], updating never reaches an [unreachable()], a dangling node or an
    inactive union member, and the new state has the invariant again; the
    initial state, [prepare_tr] and attribute changes establish or keep it. *)
Lemma gate2_update_safe (k : gate2_kind) (pins : list pin) (g : gate2 k) (w : world)
  (t : double) (m : digital_update_method_t) :
  gate2_ok g -> pins_ok pins w ->
  (exists rt g' w', gate2_update pins g w t m = Some (rt, g', w') /\ gate2_ok g' /\ pins_ok pins w') /\
  gate2_ok (gate2_init k) /\ gate2_ok (gate2_prepare_tr g).2 /\
  (forall n vi, gate2_ok (gate2_set_attribute g n vi).2).
Proof.
  intros [HA HB] Hp. split; [|split; [done|split; [done|]]].
  - unfold gate2_update.
    destruct (pin_at pins 0) as [ia|] eqn:H0; [|by do 3 eexists; split; [reflexivity|]].
    destruct (pin_at pins 1) as [ib|] eqn:H1; [|by do 3 eexists; split; [reflexivity|]].
    destruct (pin_at pins 2) as [o|] eqn:H2; [|by do 3 eexists; split; [reflexivity|]].
    destruct (Hp _ _ H0) as (nda & Hna & Hoka). destruct (Hp _ _ H1) as (ndb & Hnb & Hokb).
    destruct (Hp _ _ H2) as (ndo & Hno & Hoko).
    destruct (sample_ok (g2_levels g) t w ia _ _ Hna Hoka HA) as (A & -> & HA'). simpl.
    destruct (sample_ok (g2_levels g) t w ib _ _ Hnb Hokb HB) as (B & -> & HB'). simpl.
    edestruct (gate_output_ok (Ll (g2_levels g)) (Hl (g2_levels g)) pins w o) as (rt & w' & -> & Hp');
      [eassumption..|]. simpl.
    do 3 eexists. split; [reflexivity|]. by split.
  - intros n vi. unfold gate2_set_attribute. by destruct (set_levels (g2_levels g) n vi).
Qed.

(** ** Rejection of short pulses *)

Fixpoint run_samples (lv : levels) (c : channel) (l : list (double * double)) : option channel :=
  match l with
  | [] => Some c
  | (t, v) :: l' => c' ← sample_analog lv t v c; run_samples lv c' l'
  end.

Lemma run_samples_app (lv : levels) (c : channel) (l1 l2 : list (double * double)) :
  run_samples lv c (l1 ++ l2) = (c' ← run_samples lv c l1; run_samples lv c' l2).
Proof.
  revert c. induction l1 as [|[t v] l1 IH]; intros c; simpl; [done|].
  destruct (sample_analog lv t v c); simpl; [apply IH|done].
Qed.

(** Consecutive samples, the first at time [t0] and the last at time [t1],
    all at or above the high level, spanning at least the hold time. *)
Definition held_high (lv : levels) (l : list (double * double)) : Prop :=
  exists l1 l2 l3 t0 v0 t1 v1,
    l = l1 ++ ((t0, v0) :: l2 ++ [(t1, v1)]) ++ l3 /\
    Forall (fun s => dge s.2 (Hl lv) = true) ((t0, v0) :: l2 ++ [(t1, v1)]) /\
    dge (dsub t1 t0) (Th lv) = true.

(** A rise is pending since [t0] and the voltage has been high ever since. *)
Definition rising_since (lv : levels) (c : channel) (l : list (double * double)) : Prop :=
  ch_input c = indeterminate_state /\ ch_USR c = true_state /\
  exists l1 l2 v0, l = l1 ++ (ch_duration c, v0) :: l2 /\
    Forall (fun s => dge s.2 (Hl lv) = true) ((ch_duration c, v0) :: l2).

Lemma held_high_app (lv : levels) (l l' : list (double * double)) :
  held_high lv l -> held_high lv (l ++ l').
Proof.
  intros (l1 & l2 & l3 & t0 & v0 & t1 & v1 & -> & HF & Hd).
  exists l1, l2, (l3 ++ l'), t0, v0, t1, v1. split; [|done].
  by rewrite <- !(assoc_L (++)).
Qed.

(** What the detector can know after the samples [l]. *)
Definition tracks (lv : levels) (c : channel) (l : list (double * double)) : Prop :=
  held_high lv l \/ ch_input c = false_state \/ rising_since lv c l.

Lemma tracks_step (lv : levels) (c c' : channel) (l : list (double * double)) (t v : double) :
  dgt (Tsu lv) Double.d0 = true -> tracks lv c l -> sample_analog lv t v c = Some c' ->
  tracks lv c' (l ++ [(t, v)]).
Proof.
  intros HTsu [Hh|[Hl|(Hi & Hu & l1 & l2 & v0 & -> & HF)]] Hs.
  - left. by apply held_high_app.
  - unfold sample_analog in Hs. rewrite Hl, HTsu in Hs.
    destruct (dge v (Gates.Hl lv)) eqn:Ev; simplify_eq; [|right; by left].
    right; right. split; [done|split; [done|]]. exists l, [], v. by repeat constructor.
  - unfold sample_analog in Hs. rewrite Hi, Hu in Hs.
    destruct (dge v (Gates.Hl lv)) eqn:Ev; simplify_eq; [|right; by left].
    apply Forall_cons in HF as [Hv0 HF].
    destruct (dge (dsub t (ch_duration c)) (Th lv)) eqn:Et; simplify_eq.
    + left. exists l1, l2, [], (ch_duration c), v0, t, v. split.
      { rewrite app_nil_r. by rewrite <- (assoc_L (++)). }
      split; [|done]. constructor; [done|]. apply Forall_app; split; [done|]. by constructor.
    + right; right. split; [done|split; [done|]]. exists l1, (l2 ++ [(t, v)]), v0.
      rewrite <- (assoc_L (++)). split; [done|].
      constructor; [done|]. apply Forall_app; split; [done|]. by constructor.
Qed.

(** The detector rejects short pulses: started from a settled low input
    with a positive setup time, it reports high only after some consecutive
    samples, all at or above the high level, that span at least the hold
    time. *)
Lemma sampler_rejects_short_pulses (lv : levels) (c0 c : channel) (l : list (double * double)) :
  dgt (Tsu lv) Double.d0 = true -> ch_input c0 = false_state ->
  run_samples lv c0 l = Some c -> ch_input c = true_state ->
  held_high lv l.
Proof.
  intros HT H0 Hr Hc. enough (tracks lv c l) as [H|[H|(H & _)]]; [done|congruence..|].
  clear Hc. revert c Hr. induction l as [|[t v] l IH] using rev_ind; intros c Hr.
  - simpl in Hr. simplify_eq. right; by left.
  - rewrite run_samples_app in Hr.
    destruct (run_samples lv c0 l) as [c1|] eqn:E; simpl in Hr; [|done].
    destruct (sample_analog lv t v c1) as [c2|] eqn:E2; simpl in Hr; simplify_eq.
    eapply tracks_step; eauto.
Qed.

(** After [prepare_tr] the first analog sample reads every voltage that is
    not at the low level as high, whatever the high level and the times are:
    [USRA = {}] names [false_state], whereas a freshly constructed channel
    (pending direction [X]) stays unknown between the two levels. *)
Lemma prepare_tr_first_sample (lv : levels) (t v : double) :
  dle v (Ll lv) = false ->
  option_map ch_input (sample_analog lv t v channel_prepare) = Some true_state /\
  (dge v (Hl lv) = false ->
   option_map ch_input (sample_analog lv t v channel_default) = Some indeterminate_state).
Proof.
  intros Hv. unfold sample_analog; simpl. rewrite Hv. split; [done|]. intros Hh. by rewrite Hh.
Qed.

(** Attributes of a gate: setting attribute [n] succeeds exactly for the
    four levels and times given as a [double]; it then reads back as set and
    the other attributes are unchanged; a refused call changes nothing; and
    the settable attributes are exactly those with a name. *)
Lemma levels_attributes (lv : levels) (n : nat) (vi : variant) :
  let '(ok, lv') := set_levels lv n vi in
  (ok = true -> get_levels lv' n = vi) /\
  (forall j, j ≠ n -> get_levels lv' j = get_levels lv j) /\
  (ok = false -> lv' = lv) /\
  (ok = true <-> (exists x, vi = v_d x) /\ levels_name n ≠ ""%string).
Proof.
  destruct n as [|[|[|[|n]]]]; simpl; destruct vi; simpl; split_and!; try done;
    try (intros [|[|[|[|j]]]]; simpl; done);
    try (split; [done|intros [[? ?] ?]; done]).
  all: split; [intros _; split; [by eexists|done]|done].
Qed.

(** ** Witnesses *)

Definition ex_and_world : world := world_of [true_state; false_state; indeterminate_state].
Definition ex_and_pins : list pin := pins_to [Some 0; Some 1; Some 2].

Lemma gate2_update_correct_witness :
  exists g' w' r,
    gate2_update ex_and_pins (gate2_init k_nand) ex_and_world Double.d0 update_table
      = Some (no_drive, g', w') /\ state_at w' 2 = Some r /\
    best (image2 (gate2_bool k_nand) true_state false_state) r.
Proof.
  destruct (gate2_update_correct k_nand ex_and_pins (gate2_init k_nand) ex_and_world Double.d0 update_table
              0 1 2 true_state false_state) as (g' & w' & r & H1 & H2 & H3 & _);
    [reflexivity|reflexivity|reflexivity|unfold ex_and_pins, ex_and_world; solve_world_digital
    |reflexivity|reflexivity|].
  exists g', w', r. exact (conj H1 (conj H3 H2)).
Defined.

Lemma gate2_update_safe_witness :
  exists rt g' w',
    gate2_update ex_and_pins (gate2_init k_and) ex_and_world Double.d0 update_table = Some (rt, g', w').
Proof.
  destruct (gate2_update_safe k_and ex_and_pins (gate2_init k_and) ex_and_world Double.d0 update_table)
    as [(rt & g' & w' & H & _) _].
  - split; done.
  - intros i n Hi. assert (Hd : digital_pins ex_and_pins ex_and_world)
      by (unfold ex_and_pins, ex_and_world; solve_world_digital).
    destruct (Hd i n Hi) as (nd & Hn & Hz & s & Hs). exists nd. split; [done|].
    unfold node_ok, is_analog. rewrite Hz. simpl. by exists s.
  - eauto.
Defined.

(** Two samples at 5 V, one nanosecond apart, after a settled low level. *)
Definition ex_rise : list (double * double) := [(Double.d0, d5); (d1em9, d5)].
Definition ex_low : channel := mk_channel false_state false_state Double.d0.

Lemma sampler_rejects_short_pulses_witness :
  option_map ch_input (run_samples levels_default ex_low ex_rise) = Some true_state /\
  held_high levels_default ex_rise.
Proof.
  split; [vm_compute; reflexivity|].
  eapply (sampler_rejects_short_pulses levels_default ex_low _ ex_rise);
    [vm_compute; reflexivity..].
Defined.

Lemma prepare_tr_first_sample_witness :
  dge d5_3 (Hl levels_default) = false /\
  option_map ch_input (sample_analog levels_default Double.d0 d5_3 channel_prepare) = Some true_state.
Proof.
  split; [vm_compute; reflexivity|].
  apply (prepare_tr_first_sample levels_default Double.d0 d5_3). vm_compute; reflexivity.
Defined.
