(* ===== verification/Arith.v ===== *)
(** * Adders, subtractors and the 2x2 multiplier

    HALF_ADDER, FULL_ADDER, HALF_SUB, FULL_SUB and MUL2 of
    model/models/digital/combinational/.  Each reads its inputs with [read_dn],
    gives up on every output when an input is unknown, and writes an output
    node only when the value differs from the one it remembers writing. *)

From S2P Require Import Prelude Double Logic4 Node Device Gates.

(** ** Data *)

Inductive half_kind := k_half_adder | k_half_sub.
Inductive full_kind := k_full_adder | k_full_sub.

(** [HALF_ADDER] ([last_s], [last_c]) and [HALF_SUB] ([last_d], [last_b]). *)
Record half_dev (k : half_kind) := mk_half {
  h_Ll : double; h_Hl : double; h_last1 : dns; h_last2 : dns
}.
Arguments mk_half {k}.
Arguments h_Ll {k}.
Arguments h_Hl {k}.
Arguments h_last1 {k}.
Arguments h_last2 {k}.

(** [FULL_ADDER] ([last_s], [last_c]) and [FULL_SUB] ([last_d], [last_b]). *)
Record full_dev (k : full_kind) := mk_full {
  f_Ll : double; f_Hl : double; f_last1 : dns; f_last2 : dns
}.
Arguments mk_full {k}.
Arguments f_Ll {k}.
Arguments f_Hl {k}.
Arguments f_last1 {k}.
Arguments f_last2 {k}.

(** The array [last_p[4]]. *)
Record quad := mk_quad { q0 : dns; q1 : dns; q2 : dns; q3 : dns }.

Definition quad_get (q : quad) (i : nat) : option dns :=
  match i with 0 => Some (q0 q) | 1 => Some (q1 q) | 2 => Some (q2 q) | 3 => Some (q3 q) | _ => None end.

Definition quad_set (q : quad) (i : nat) (s : dns) : quad :=
  match i with
  | 0 => mk_quad s (q1 q) (q2 q) (q3 q)
  | 1 => mk_quad (q0 q) s (q2 q) (q3 q)
  | 2 => mk_quad (q0 q) (q1 q) s (q3 q)
  | 3 => mk_quad (q0 q) (q1 q) (q2 q) s
  | _ => q
  end.

Record MUL2 := mk_mul2 { m_Ll : double; m_Hl : double; m_last_p : quad }.

Definition half_init (k : half_kind) : half_dev k := mk_half d0 d5 indeterminate_state indeterminate_state.
Definition full_init (k : full_kind) : full_dev k := mk_full d0 d5 indeterminate_state indeterminate_state.
Definition MUL2_init : MUL2 := mk_mul2 d0 d5
  (mk_quad indeterminate_state indeterminate_state indeterminate_state indeterminate_state).

(** ** Output values *)

Definition unknown_in (l : list dns) : bool := existsb (fun s => bool_decide (s = indeterminate_state)) l.

Definition half_fn (k : half_kind) (A B : dns) : dns * dns :=
  if unknown_in [A; B] then (indeterminate_state, indeterminate_state)
  else match k with
       | k_half_adder => (dns_xor A B, dns_and A B)
       | k_half_sub => (dns_xor A B, dns_and (inv A) B)
       end.

Definition full_fn (k : full_kind) (A B C : dns) : dns * dns :=
  if unknown_in [A; B; C] then (indeterminate_state, indeterminate_state)
  else match k with
       | k_full_adder =>
           (dns_xor (dns_xor A B) C, dns_or (dns_or (dns_and A B) (dns_and A C)) (dns_and B C))
       | k_full_sub =>
           (dns_xor (dns_xor A B) C,
            dns_or (dns_or (dns_and (inv A) B) (dns_and (inv A) C)) (dns_and B C))
       end.

Definition mul2_fn (A0 A1 B0 B1 : dns) : quad :=
  if unknown_in [A0; A1; B0; B1]
  then mk_quad indeterminate_state indeterminate_state indeterminate_state indeterminate_state
  else
    let p0vv := dns_and A0 B0 in
    let p1_t1 := dns_and A0 B1 in
    let p1_t2 := dns_and A1 B0 in
    let p1vv := dns_xor p1_t1 p1_t2 in
    let c1 := dns_and p1_t1 p1_t2 in
    let p2_t1 := dns_and A1 B1 in
    let p2vv := dns_xor p2_t1 c1 in
    let p3vv := dns_and p2_t1 c1 in
    mk_quad p0vv p1vv p2vv p3vv.

(** ** Updates *)

(** A digital output node is written and announced when the value differs from
    the remembered one; an analog output node is left to the drive. *)
Definition drive_last (w : world) (n : nat) (v last : dns) : option (dns * world) :=
  nd ← w_nodes w !! n;
  if is_analog nd then Some (last, w)
  else if bool_decide (last ≠ v) then w' ← set_state w n v; Some (v, table_insert w' n)
  else Some (last, w).

(** The two outputs of the adders and subtractors: both digital writes first,
    then at most one analog drive, the first output's before the second's. *)
Definition two_outputs (Ll Hl : double) (w : world) (n1 : nat) (v1 l1 : dns) (n2 : nat) (v2 l2 : dns)
  : option (need_operate_analog_node_t * (dns * dns) * world) :=
  '(l1', w1) ← drive_last w n1 v1 l1;
  '(l2', w2) ← drive_last w1 n2 v2 l2;
  nd1 ← w_nodes w2 !! n1;
  if is_analog nd1 then Some (drive_default Ll Hl v1 n1, (l1', l2'), w2)
  else
    nd2 ← w_nodes w2 !! n2;
    if is_analog nd2 then Some (drive_default Ll Hl v2 n2, (l1', l2'), w2)
    else Some (no_drive, (l1', l2'), w2).

Definition half_update {k} (pins : list pin) (clip : half_dev k) (w : world) (tr_duration : double)
  (method : digital_update_method_t) : option (need_operate_analog_node_t * half_dev k * world) :=
  match pin_at pins 0, pin_at pins 1, pin_at pins 2, pin_at pins 3 with
  | Some node_a, Some node_b, Some node_1, Some node_2 =>
      A ← read_dn (h_Ll clip) (h_Hl clip) w node_a;
      B ← read_dn (h_Ll clip) (h_Hl clip) w node_b;
      let '(v1, v2) := half_fn k A B in
      '(rt, (l1, l2), w') ← two_outputs (h_Ll clip) (h_Hl clip) w node_1 v1 (h_last1 clip)
                                        node_2 v2 (h_last2 clip);
      Some (rt, mk_half (h_Ll clip) (h_Hl clip) l1 l2, w')
  | _, _, _, _ => Some (no_drive, clip, w)
  end.

Definition full_update {k} (pins : list pin) (clip : full_dev k) (w : world) (tr_duration : double)
  (method : digital_update_method_t) : option (need_operate_analog_node_t * full_dev k * world) :=
  match pin_at pins 0, pin_at pins 1, pin_at pins 2, pin_at pins 3, pin_at pins 4 with
  | Some node_a, Some node_b, Some node_ci, Some node_1, Some node_2 =>
      A ← read_dn (f_Ll clip) (f_Hl clip) w node_a;
      B ← read_dn (f_Ll clip) (f_Hl clip) w node_b;
      CI ← read_dn (f_Ll clip) (f_Hl clip) w node_ci;
      let '(v1, v2) := full_fn k A B CI in
      '(rt, (l1, l2), w') ← two_outputs (f_Ll clip) (f_Hl clip) w node_1 v1 (f_last1 clip)
                                        node_2 v2 (f_last2 clip);
      Some (rt, mk_full (f_Ll clip) (f_Hl clip) l1 l2, w')
  | _, _, _, _, _ => Some (no_drive, clip, w)
  end.

(** The output loop of MUL2: digital outputs are written in order; the first
    analog output ends the update with its drive. *)
Fixpoint mul2_outputs (Ll Hl : double) (w : world) (last_p : quad) (i : nat)
  (outs : list nat) (vals : list dns) : option (need_operate_analog_node_t * quad * world) :=
  match outs, vals with
  | n :: outs', v :: vals' =>
      nd ← w_nodes w !! n;
      if is_analog nd then Some (drive_default Ll Hl v n, last_p, w)
      else
        last ← quad_get last_p i;
        if bool_decide (last ≠ v) then
          w' ← set_state w n v;
          mul2_outputs Ll Hl (table_insert w' n) (quad_set last_p i v) (S i) outs' vals'
        else mul2_outputs Ll Hl w last_p (S i) outs' vals'
  | _, _ => Some (no_drive, last_p, w)
  end.

Definition MUL2_update_digital_clk_define (pins : list pin) (clip : MUL2) (w : world)
  (tr_duration : double) (method : digital_update_method_t)
  : option (need_operate_analog_node_t * MUL2 * world) :=
  match pin_at pins 0, pin_at pins 1, pin_at pins 2, pin_at pins 3,
        pin_at pins 4, pin_at pins 5, pin_at pins 6, pin_at pins 7 with
  | Some a0, Some a1, Some b0, Some b1, Some p0, Some p1, Some p2, Some p3 =>
      A0 ← read_dn (m_Ll clip) (m_Hl clip) w a0;
      A1 ← read_dn (m_Ll clip) (m_Hl clip) w a1;
      B0 ← read_dn (m_Ll clip) (m_Hl clip) w b0;
      B1 ← read_dn (m_Ll clip) (m_Hl clip) w b1;
      let vals := mul2_fn A0 A1 B0 B1 in
      '(rt, last_p, w') ← mul2_outputs (m_Ll clip) (m_Hl clip) w (m_last_p clip) 0
                                       [p0; p1; p2; p3] [q0 vals; q1 vals; q2 vals; q3 vals];
      Some (rt, mk_mul2 (m_Ll clip) (m_Hl clip) last_p, w')
  | _, _, _, _, _, _, _, _ => Some (no_drive, clip, w)
  end.

(** ** The models by their names *)

Definition HALF_ADDER : Type := half_dev k_half_adder.
Definition HALF_SUB : Type := half_dev k_half_sub.
Definition FULL_ADDER : Type := full_dev k_full_adder.
Definition FULL_SUB : Type := full_dev k_full_sub.

Definition HALF_ADDER_update_digital_clk_define :
  list pin -> HALF_ADDER -> world -> double -> digital_update_method_t ->
  option (need_operate_analog_node_t * HALF_ADDER * world) := half_update.
Definition HALF_SUB_update_digital_clk_define :
  list pin -> HALF_SUB -> world -> double -> digital_update_method_t ->
  option (need_operate_analog_node_t * HALF_SUB * world) := half_update.
Definition FULL_ADDER_update_digital_clk_define :
  list pin -> FULL_ADDER -> world -> double -> digital_update_method_t ->
  option (need_operate_analog_node_t * FULL_ADDER * world) := full_update.
Definition FULL_SUB_update_digital_clk_define :
  list pin -> FULL_SUB -> world -> double -> digital_update_method_t ->
  option (need_operate_analog_node_t * FULL_SUB * world) := full_update.

(** ** The models implement the device interface *)

Lemma drive_last_digital (w : world) (n : nat) (v last : dns) :
  digital_at w n ->
  drive_last w n v last =
  Some (v, if bool_decide (last ≠ v) then table_insert (write_node w n v) n else w).
Proof.
  intros (nd & Hn & Hd). unfold drive_last. rewrite Hn. simpl.
  rewrite digital_not_analog by done. case_bool_decide as Hb.
  - by rewrite (set_state_some _ _ _ _ Hn), (write_node_some _ _ _ _ Hn).
  - by subst.
Qed.

Lemma digital_not_analog_at (w : world) (n : nat) :
  digital_at w n -> exists nd, w_nodes w !! n = Some nd /\ is_analog nd = false.
Proof. intros (nd & Hn & Hd). eauto using digital_not_analog. Qed.

Definition last_act (i : nat) (last v : dns) : list act :=
  if bool_decide (last ≠ v) then [Write i v true] else [].

(** The writes of outputs [(pin, remembered, new)]. *)
Definition last_acts (l : list (nat * dns * dns)) : list act :=
  mjoin ((fun '(i, last, v) => last_act i last v) <$> l).

Lemma run_last_act (pins : list pin) (w : world) (i n : nat) (last v : dns) :
  pin_at pins i = Some n ->
  run_acts pins w (last_act i last v) =
  if bool_decide (last ≠ v) then table_insert (write_node w n v) n else w.
Proof.
  intros Hp. unfold last_act. case_bool_decide; [|done]. simpl. by erewrite run_act_write.
Qed.

Lemma run_last_act_digital (pins : list pin) (w : world) (i n m : nat) (last v : dns) :
  pin_at pins i = Some n -> digital_at w n -> digital_at w m ->
  digital_at (run_acts pins w (last_act i last v)) m.
Proof.
  intros Hp Hn Hm. rewrite (run_last_act _ _ _ _ _ _ Hp). case_bool_decide; [|done].
  by apply announced_digital.
Qed.

Lemma two_outputs_digital (l h : double) (pins : list pin) (w : world) (i1 n1 i2 n2 : nat) (v1 l1 v2 l2 : dns) :
  pin_at pins i1 = Some n1 -> pin_at pins i2 = Some n2 -> digital_at w n1 -> digital_at w n2 ->
  two_outputs l h w n1 v1 l1 n2 v2 l2 =
  Some (no_drive, (v1, v2), run_acts pins w (last_acts [(i1, l1, v1); (i2, l2, v2)])).
Proof.
  intros P1 P2 H1 H2. unfold two_outputs.
  rewrite drive_last_digital by done. simpl. rewrite <- (run_last_act pins w i1 n1 l1 v1 P1).
  pose proof (run_last_act_digital pins w i1 n1 n1 l1 v1 P1 H1 H1) as H1'.
  pose proof (run_last_act_digital pins w i1 n1 n2 l1 v1 P1 H1 H2) as H2'.
  set (w1 := run_acts pins w (last_act i1 l1 v1)) in *.
  rewrite drive_last_digital by done. simpl. rewrite <- (run_last_act pins w1 i2 n2 l2 v2 P2).
  pose proof (run_last_act_digital pins w1 i2 n2 n1 l2 v2 P2 H2' H1') as H1''.
  pose proof (run_last_act_digital pins w1 i2 n2 n2 l2 v2 P2 H2' H2') as H2''.
  destruct (digital_not_analog_at _ _ H1'') as (nd1 & -> & Ha1). simpl. rewrite Ha1.
  destruct (digital_not_analog_at _ _ H2'') as (nd2 & -> & Ha2). simpl. rewrite Ha2.
  unfold last_acts; simpl. rewrite app_nil_r, run_acts_app. done.
Qed.

Section last_acts.
Implicit Types (l : list (nat * dns * dns)) (st : nat -> option dns).

Lemma elem_of_last_acts l (a : act) :
  a ∈ last_acts l <-> exists i last v, (i, last, v) ∈ l /\ last ≠ v /\ a = Write i v true.
Proof.
  unfold last_acts. rewrite list_elem_of_join. split.
  - intros (acts & Ha & Hin). apply list_elem_of_fmap in Hin as ([[i last] v] & -> & Hin).
    unfold last_act in Ha. case_bool_decide; set_solver.
  - intros (i & last & v & Hin & Hne & ->). exists (last_act i last v).
    split; [unfold last_act; rewrite bool_decide_true by done; set_solver|].
    apply list_elem_of_fmap. by exists (i, last, v).
Qed.

(** What the model remembers is what its output nodes have. *)
Definition remembers st (l : list (nat * dns)) : Prop :=
  Forall (fun p => st p.1 = None \/ st p.1 = Some p.2) l.

Lemma remembers_post l st st' :
  NoDup (l.*1.*1) -> remembers st (l.*1) ->
  (forall a, a ∈ last_acts l -> st' (act_pin a) = None \/ st' (act_pin a) = Some (act_state a)) ->
  (forall i, i ∈ l.*1.*1 -> Forall (fun a => act_pin a ≠ i) (last_acts l) -> st' i = st i) ->
  remembers st' ((fun p => (p.1.1, p.2)) <$> l).
Proof.
  intros Hnd Hr Ha Ho. apply Forall_fmap, Forall_forall. intros [[i last] v] Hin. simpl.
  destruct (decide (last = v)) as [<-|Hne].
  - rewrite Ho.
    + eapply (proj1 (Forall_forall _ _) Hr (i, last)).
      apply list_elem_of_fmap. by exists (i, last, last).
    + apply list_elem_of_fmap. exists (i, last). split; [done|].
      apply list_elem_of_fmap. by exists (i, last, last).
    + apply Forall_forall. intros a (j & last' & v' & Hj & Hne & ->)%elem_of_last_acts. simpl.
      intros ->. enough ((i, last', v') = (i, last, last)) by (simplify_eq; done).
      apply list_elem_of_lookup in Hin as [x Hx], Hj as [y Hy].
      assert (x = y) as ->; [|congruence].
      eapply (NoDup_lookup (l.*1.*1)); [exact Hnd|..];
        rewrite !list_lookup_fmap; [rewrite Hx|rewrite Hy]; done.
  - destruct (Ha (Write i v true)) as [H|H]; [|by left|by right].
    apply elem_of_last_acts. eauto 10.
Qed.

Lemma remembers_local st st' (l : list (nat * dns)) :
  (forall i, i ∈ l.*1 -> st' i = st i) -> remembers st l -> remembers st' l.
Proof.
  intros Heq HF. apply Forall_forall. intros p Hp. rewrite Heq.
  - by apply (proj1 (Forall_forall _ _) HF).
  - apply list_elem_of_fmap. eauto.
Qed.

Lemma last_acts_quiet l st :
  (forall i last v, (i, last, v) ∈ l -> is_Some (st i)) -> quiet st (last_acts l) ->
  Forall (fun p => p.1.2 = p.2) l.
Proof.
  intros Hs Hq. apply Forall_forall. intros [[i last] v] Hin. simpl.
  destruct (decide (last = v)) as [|Hne]; [done|].
  assert (Ha : Write i v true ∈ last_acts l) by (apply elem_of_last_acts; eauto 10).
  pose proof (proj1 (Forall_forall _ _) Hq _ Ha) as Hn. simpl in Hn.
  destruct (Hs _ _ _ Hin) as [s Hst]. destruct Hn as [Hn|[Hn _]]; congruence.
Qed.

End last_acts.

Definition half_eval {k} (d : half_dev k) (m : digital_update_method_t) (st : nat -> option dns)
  : half_dev k * list act :=
  match st 0, st 1, st 2, st 3 with
  | Some a, Some b, Some _, Some _ =>
      let v := half_fn k (normalize_z_to_x a) (normalize_z_to_x b) in
      (mk_half (h_Ll d) (h_Hl d) v.1 v.2, last_acts [(2, h_last1 d, v.1); (3, h_last2 d, v.2)])
  | _, _, _, _ => (d, [])
  end.

Definition full_eval {k} (d : full_dev k) (m : digital_update_method_t) (st : nat -> option dns)
  : full_dev k * list act :=
  match st 0, st 1, st 2, st 3, st 4 with
  | Some a, Some b, Some c, Some _, Some _ =>
      let v := full_fn k (normalize_z_to_x a) (normalize_z_to_x b) (normalize_z_to_x c) in
      (mk_full (f_Ll d) (f_Hl d) v.1 v.2, last_acts [(3, f_last1 d, v.1); (4, f_last2 d, v.2)])
  | _, _, _, _, _ => (d, [])
  end.

#[global] Instance half_device k : DigitalDevice (half_dev k) := {|
  update_digital_clk := half_update;
  digital_update_method := fun _ => update_table;
  num_pins := fun _ => 4
|}.

#[global] Instance full_device k : DigitalDevice (full_dev k) := {|
  update_digital_clk := full_update;
  digital_update_method := fun _ => update_table;
  num_pins := fun _ => 5
|}.

Lemma last_acts_out (l : list (nat * dns * dns)) (a : act) :
  a ∈ last_acts l -> act_pin a ∈ l.*1.*1.
Proof.
  intros (i & last & v & Hin & _ & ->)%elem_of_last_acts. simpl.
  apply list_elem_of_fmap. exists (i, last). split; [done|].
  apply list_elem_of_fmap. by exists (i, last, v).
Qed.

Lemma last_acts_announced (l : list (nat * dns * dns)) (i : nat) (s : dns) :
  Write i s false ∈ last_acts l -> False.
Proof. intros (? & ? & ? & _ & _ & ?)%elem_of_last_acts. done. Qed.

Lemma last_acts_same (l : list (nat * dns * dns)) :
  Forall (fun p => p.1.2 = p.2) l -> last_acts l = [].
Proof.
  intros HF. unfold last_acts. induction HF as [|[[i last] v] l Hp HF IH]; [done|].
  simpl in *. subst. unfold last_act. by rewrite bool_decide_false by tauto.
Qed.

Lemma last_acts_sublist (l : list (nat * dns * dns)) : sublist (act_pin <$> last_acts l) (l.*1.*1).
Proof.
  induction l as [|[[i last] v] l IH]; [constructor|].
  change (last_acts ((i, last, v) :: l)) with (last_act i last v ++ last_acts l).
  rewrite fmap_app. unfold last_act. simpl. case_bool_decide; simpl; by constructor.
Qed.

Lemma last_acts_apart (l : list (nat * dns * dns)) :
  NoDup (l.*1.*1) -> NoDup (act_pin <$> last_acts l).
Proof. intros H. eapply sublist_NoDup; [exact H|apply last_acts_sublist]. Qed.

#[global, program] Instance half_spec k : DeviceSpec (half_dev k) := {|
  dev_eval := half_eval;
  dev_outs := fun _ => [2; 3];
  dev_coh := fun d st => remembers st [(2, h_last1 d); (3, h_last2 d)];
  dev_prompt := fun _ => True
|}.
Next Obligation.
  intros k pins d w t m Hd _ _. simpl. unfold half_update, half_eval.
  pins_all Hd [0; 1; 2; 3] ltac:(simpl; done).
  rewrite !read_dn_digital, Hst, Hst0 by done. simpl. destruct (half_fn _ _ _) as [v1 v2].
  by erewrite two_outputs_digital by eassumption.
Qed.
Next Obligation. done. Qed.
Next Obligation.
  intros k d m st a. simpl. unfold half_eval.
  eval_all st [0; 1; 2; 3] ltac:(simpl; act_in). simpl. intros Ha%last_acts_out. set_solver.
Qed.
Next Obligation.
  intros k d m st. simpl. unfold half_eval.
  eval_all st [0; 1; 2; 3] ltac:(simpl; constructor). apply last_acts_apart. repeat constructor; set_solver.
Qed.
Next Obligation.
  intros k d m st st' Hi Ho. simpl in *. unfold half_eval. solve_local st st' Hi Ho [2; 3].
Qed.
Next Obligation.
  intros k d st st' Heq Hc; simpl in *. eapply remembers_local; [|exact Hc].
  intros i Hi. symmetry. by apply Heq.
Qed.
Next Obligation.
  intros k d m st i s Hc; simpl in *. unfold half_eval.
  eval_all st [0; 1; 2; 3] ltac:(simpl; act_in). simpl. intros Ha%last_acts_announced. done.
Qed.
Next Obligation.
  intros k d m st st' Hc Ha Ho. simpl in *. unfold half_eval in *.
  eval_all st [0; 1; 2; 3] ltac:(eapply remembers_local; [|exact Hc]; intros i Hi; apply Ho; [exact Hi|constructor]).
  simpl in *.
  apply (remembers_post [(2, h_last1 d, _); (3, h_last2 d, _)] st st'); simpl.
  - repeat constructor; set_solver.
  - done.
  - exact Ha.
  - exact Ho.
Qed.
Next Obligation.
  intros k d m st Hc Hq. simpl in *. unfold half_eval in *.
  eval_all st [0; 1; 2; 3] ltac:(simpl in *; split; done). simpl in *. split; [done|].
  rewrite last_acts_same; [constructor|by repeat constructor].
Qed.
Next Obligation. done. Qed.
Next Obligation.
  intros k d st _. simpl. unfold half_eval. eval_all st [0; 1; 2; 3] ltac:(simpl; rewrite ?Est; split; done). simpl.
  split; [done|].
  match goal with |- Forall _ ?l => assert (l = []) as -> by (apply last_acts_same; by repeat constructor) end.
  constructor.
Qed.

#[global, program] Instance full_spec k : DeviceSpec (full_dev k) := {|
  dev_eval := full_eval;
  dev_outs := fun _ => [3; 4];
  dev_coh := fun d st => remembers st [(3, f_last1 d); (4, f_last2 d)];
  dev_prompt := fun _ => True
|}.
Next Obligation.
  intros k pins d w t m Hd _ _. simpl. unfold full_update, full_eval.
  pins_all Hd [0; 1; 2; 3; 4] ltac:(simpl; done).
  rewrite !read_dn_digital, Hst, Hst0, Hst1 by done. simpl. destruct (full_fn _ _ _ _) as [v1 v2].
  by erewrite two_outputs_digital by eassumption.
Qed.
Next Obligation. done. Qed.
Next Obligation.
  intros k d m st a. simpl. unfold full_eval.
  eval_all st [0; 1; 2; 3; 4] ltac:(simpl; act_in). simpl. intros Ha%last_acts_out. set_solver.
Qed.
Next Obligation.
  intros k d m st. simpl. unfold full_eval.
  eval_all st [0; 1; 2; 3; 4] ltac:(simpl; constructor). apply last_acts_apart. repeat constructor; set_solver.
Qed.
Next Obligation.
  intros k d m st st' Hi Ho. simpl in *. unfold full_eval. solve_local st st' Hi Ho [3; 4].
Qed.
Next Obligation.
  intros k d st st' Heq Hc; simpl in *. eapply remembers_local; [|exact Hc].
  intros i Hi. symmetry. by apply Heq.
Qed.
Next Obligation.
  intros k d m st i s Hc; simpl in *. unfold full_eval.
  eval_all st [0; 1; 2; 3; 4] ltac:(simpl; act_in). simpl. intros Ha%last_acts_announced. done.
Qed.
Next Obligation.
  intros k d m st st' Hc Ha Ho. simpl in *. unfold full_eval in *.
  eval_all st [0; 1; 2; 3; 4] ltac:(eapply remembers_local; [|exact Hc]; intros i Hi; apply Ho; [exact Hi|constructor]).
  simpl in *.
  apply (remembers_post [(3, f_last1 d, _); (4, f_last2 d, _)] st st'); simpl.
  - repeat constructor; set_solver.
  - done.
  - exact Ha.
  - exact Ho.
Qed.
Next Obligation.
  intros k d m st Hc Hq. simpl in *. unfold full_eval in *.
  eval_all st [0; 1; 2; 3; 4] ltac:(simpl in *; split; done). simpl in *. split; [done|].
  rewrite last_acts_same; [constructor|by repeat constructor].
Qed.
Next Obligation. done. Qed.
Next Obligation.
  intros k d st _. simpl. unfold full_eval. eval_all st [0; 1; 2; 3; 4] ltac:(simpl; rewrite ?Est; split; done). simpl.
  split; [done|].
  match goal with |- Forall _ ?l => assert (l = []) as -> by (apply last_acts_same; by repeat constructor) end.
  constructor.
Qed.

Definition mul2_eval (d : MUL2) (m : digital_update_method_t) (st : nat -> option dns)
  : MUL2 * list act :=
  match st 0, st 1, st 2, st 3, st 4, st 5, st 6, st 7 with
  | Some a0, Some a1, Some b0, Some b1, Some _, Some _, Some _, Some _ =>
      let v := mul2_fn (normalize_z_to_x a0) (normalize_z_to_x a1)
                 (normalize_z_to_x b0) (normalize_z_to_x b1) in
      let q := m_last_p d in
      (mk_mul2 (m_Ll d) (m_Hl d) v,
       last_acts [(4, q0 q, q0 v); (5, q1 q, q1 v); (6, q2 q, q2 v); (7, q3 q, q3 v)])
  | _, _, _, _, _, _, _, _ => (d, [])
  end.

Lemma mul2_outputs_step (l h : double) (pins : list pin) (w : world) (q : quad) (i j n : nat)
  (last v : dns) (outs : list nat) (vals : list dns) :
  pin_at pins j = Some n -> digital_at w n -> quad_get q i = Some last ->
  mul2_outputs l h w q i (n :: outs) (v :: vals) =
  mul2_outputs l h (run_acts pins w (last_act j last v)) (quad_set q i v) (S i) outs vals.
Proof.
  intros Hp Hd Hq. rewrite (run_last_act _ _ _ _ _ _ Hp).
  destruct (digital_not_analog_at _ _ Hd) as (nd & Hn & Ha).
  simpl. rewrite Hn. simpl. rewrite Ha, Hq. simpl. case_bool_decide as Hb.
  - by rewrite (set_state_some _ _ _ _ Hn), (write_node_some _ _ _ _ Hn).
  - subst v. destruct q; destruct i as [|[|[|[|i]]]]; simpl in *; simplify_eq; done.
Qed.

#[global] Instance mul2_device : DigitalDevice MUL2 := {|
  update_digital_clk := MUL2_update_digital_clk_define;
  digital_update_method := fun _ => update_table;
  num_pins := fun _ => 8
|}.

Lemma last_acts_cons (i : nat) (last v : dns) (l : list (nat * dns * dns)) :
  last_acts ((i, last, v) :: l) = last_act i last v ++ last_acts l.
Proof. done. Qed.

#[global, program] Instance mul2_spec : DeviceSpec MUL2 := {|
  dev_eval := mul2_eval;
  dev_outs := fun _ => [4; 5; 6; 7];
  dev_coh := fun d st =>
    let q := m_last_p d in remembers st [(4, q0 q); (5, q1 q); (6, q2 q); (7, q3 q)];
  dev_prompt := fun _ => True
|}.
Next Obligation.
  intros pins d w t m Hd _ _. simpl. unfold MUL2_update_digital_clk_define, mul2_eval.
  pins_all Hd [0; 1; 2; 3; 4; 5; 6; 7] ltac:(simpl; done).
  rewrite !read_dn_digital, Hst, Hst0, Hst1, Hst2 by done.
  cbn [fmap option_fmap option_map mbind option_bind fst snd].
  generalize (mul2_fn (normalize_z_to_x s) (normalize_z_to_x s0) (normalize_z_to_x s1)
                (normalize_z_to_x s2)). intros v.
  rewrite !last_acts_cons, !run_acts_app.
  erewrite mul2_outputs_step by (eassumption || reflexivity).
  erewrite mul2_outputs_step by (eauto using run_last_act_digital || reflexivity).
  erewrite mul2_outputs_step by (eauto 6 using run_last_act_digital || reflexivity).
  erewrite mul2_outputs_step by (eauto 8 using run_last_act_digital || reflexivity).
  simpl. by destruct v.
Qed.
Next Obligation. done. Qed.
Next Obligation.
  intros d m st a. simpl. unfold mul2_eval.
  eval_all st [0; 1; 2; 3; 4; 5; 6; 7] ltac:(simpl; act_in). simpl.
  intros Ha%last_acts_out. set_solver.
Qed.
Next Obligation.
  intros d m st. simpl. unfold mul2_eval.
  eval_all st [0; 1; 2; 3; 4; 5; 6; 7] ltac:(simpl; constructor). apply last_acts_apart. repeat constructor; set_solver.
Qed.
Next Obligation.
  intros d m st st' Hi Ho. simpl in *. unfold mul2_eval. solve_local st st' Hi Ho [4; 5; 6; 7].
Qed.
Next Obligation.
  intros d st st' Heq Hc; simpl in *. eapply remembers_local; [|exact Hc].
  intros i Hi. symmetry. by apply Heq.
Qed.
Next Obligation.
  intros d m st i s Hc; simpl in *. unfold mul2_eval.
  eval_all st [0; 1; 2; 3; 4; 5; 6; 7] ltac:(simpl; act_in). simpl.
  intros Ha%last_acts_announced. done.
Qed.
Next Obligation.
  intros d m st st' Hc Ha Ho. simpl in *. unfold mul2_eval in *.
  eval_all st [0; 1; 2; 3; 4; 5; 6; 7]
    ltac:(eapply remembers_local; [|exact Hc]; intros i Hi; apply Ho; [exact Hi|constructor]).
  simpl in *.
  apply (remembers_post [(4, q0 (m_last_p d), _); (5, q1 (m_last_p d), _);
                         (6, q2 (m_last_p d), _); (7, q3 (m_last_p d), _)] st st'); simpl.
  - repeat constructor; set_solver.
  - done.
  - exact Ha.
  - exact Ho.
Qed.
Next Obligation.
  intros d m st Hc Hq. simpl in *. unfold mul2_eval in *.
  eval_all st [0; 1; 2; 3; 4; 5; 6; 7] ltac:(simpl in *; split; done). simpl in *.
  split; [done|]. rewrite last_acts_same; [constructor|by repeat constructor].
Qed.
Next Obligation. done. Qed.
Next Obligation.
  intros d st _. simpl. unfold mul2_eval. eval_all st [0; 1; 2; 3; 4; 5; 6; 7] ltac:(simpl; rewrite ?Est; split; done). simpl.
  split; [done|].
  match goal with |- Forall _ ?l => assert (l = []) as -> by (apply last_acts_same; by repeat constructor) end.
  constructor.
Qed.

(** ** Functional correctness *)

Lemma last_acts_result (pins : list pin) (w : world) (l : list (nat * dns * dns)) :
  NoDup (l.*1.*1) ->
  (forall i j n, i ∈ l.*1.*1 -> j ∈ l.*1.*1 -> pin_at pins i = Some n -> pin_at pins j = Some n -> i = j) ->
  (forall i, i ∈ l.*1.*1 -> exists n, pin_at pins i = Some n /\ digital_at w n) ->
  remembers (pin_states pins w) (l.*1) ->
  forall i last v n, (i, last, v) ∈ l -> pin_at pins i = Some n ->
  state_at (run_acts pins w (last_acts l)) n = Some v.
Proof.
  revert w. induction l as [|[[i0 last0] v0] l IH]; intros w Hnd Hap Hdig Hr i last v n Hin Hp;
    [by apply not_elem_of_nil in Hin|].
  cbn [fmap list_fmap fst] in *. apply NoDup_cons in Hnd as [Hni Hnd].
  apply Forall_cons in Hr as [Hr0 Hr]. simpl in Hr0.
  destruct (Hdig i0) as (n0 & Hp0 & Hd0); [set_solver|].
  rewrite last_acts_cons, run_acts_app.
  assert (Hw1 : forall m, m ≠ n0 ->
    w_nodes (run_acts pins w (last_act i0 last0 v0)) !! m = w_nodes w !! m).
  { intros m Hm. apply run_acts_other. unfold last_act. intros a Ha.
    case_bool_decide; [|set_solver]. apply list_elem_of_singleton in Ha as ->. simpl. congruence. }
  assert (Hs0 : state_at (run_acts pins w (last_act i0 last0 v0)) n0 = Some v0).
  { rewrite (run_last_act _ _ _ _ _ _ Hp0). case_bool_decide as Hb.
    - change (state_at (write_node w n0 v0) n0 = Some v0).
      by rewrite state_at_write, decide_True.
    - subst. rewrite (pin_states_some _ _ _ _ Hp0) in Hr0.
      destruct (digital_at_state _ _ Hd0) as [s Hs]. rewrite Hs in *.
      destruct Hr0; [done|congruence]. }
  apply elem_of_cons in Hin as [Heq|Hin].
  - injection Heq as -> -> ->. assert (n = n0) as -> by congruence.
    unfold state_at at 1. rewrite run_acts_other; [exact Hs0|].
    intros a Ha Hpa. apply last_acts_out in Ha.
    assert (act_pin a = i0) by (eapply (Hap _ _ n0); set_solver). set_solver.
  - assert (Hne : forall j m, j ∈ l.*1.*1 -> pin_at pins j = Some m -> m ≠ n0).
    { intros j m Hj Hjp ->. assert (j = i0) by (eapply (Hap _ _ n0); set_solver). set_solver. }
    eapply (IH (run_acts pins w (last_act i0 last0 v0))); eauto.
    + intros i1 i2 n1 Hi1 Hi2. apply Hap; set_solver.
    + intros j Hj. destruct (Hdig j) as (m & Hm & Hdm); [set_solver|]. exists m. split; [done|].
      unfold digital_at. rewrite Hw1; eauto.
    + eapply remembers_local; [|exact Hr]. intros j Hj. unfold pin_states.
      destruct (pin_at pins j) as [m|] eqn:Em; [|done]. simpl. unfold state_at.
      rewrite Hw1; eauto.
Qed.

(** Case analysis on the index in an explicit list of pins. *)
Ltac pin_cases H :=
  cbn in H; repeat (apply elem_of_cons in H as [->|H]); [..|by apply not_elem_of_nil in H].

(** [last_acts_result] for outputs at explicit pins on separate nodes: the side
    conditions follow from the [pin_at] equations in the context. *)
Ltac last_result Hd Hc l :=
  match type of Hd with
  | digital_pins ?pins ?w =>
      let H := fresh "Hres" in
      assert (H : forall i last v n, (i, last, v) ∈ l -> pin_at pins i = Some n ->
                state_at (run_acts pins w (last_acts l)) n = Some v);
      [ apply last_acts_result;
        [ cbn; repeat constructor; set_solver
        | intros ? ? ? Hi Hj; pin_cases Hi; pin_cases Hj; intros; congruence
        | intros ? Hi; pin_cases Hi; (eexists; split; [eassumption|eapply Hd; eassumption])
        | exact Hc ]
      | ]
  end.

Definition b2z (b : bool) : Z := if b then 1 else 0.

(** The arithmetic each model is for: sum and carry, difference and borrow. *)
Definition half_arith (k : half_kind) (a b v1 v2 : bool) : Prop :=
  match k with
  | k_half_adder => (b2z a + b2z b = b2z v1 + 2 * b2z v2)%Z
  | k_half_sub => (b2z a - b2z b = b2z v1 - 2 * b2z v2)%Z
  end.

Definition full_arith (k : full_kind) (a b c v1 v2 : bool) : Prop :=
  match k with
  | k_full_adder => (b2z a + b2z b + b2z c = b2z v1 + 2 * b2z v2)%Z
  | k_full_sub => (b2z a - b2z b - b2z c = b2z v1 - 2 * b2z v2)%Z
  end.

(** The boolean a state stands for, if it is known. *)
Definition bit_of (s : dns) : option bool :=
  match s with false_state => Some false | true_state => Some true | _ => None end.

(** HALF_ADDER and HALF_SUB compute: on digital nodes, for any model that
    remembers what it wrote to two separate output nodes, after an update the
    output nodes hold the sum and carry (difference and borrow) of the input
    bits, and are both unknown when an input is unknown or floating. *)
Lemma half_update_correct (k : half_kind) (pins : list pin) (d : half_dev k) (w : world)
  (t : double) (m : digital_update_method_t) (na nb n1 n2 : nat) (a b : dns) :
  length pins = 4 ->
  pin_at pins 0 = Some na -> pin_at pins 1 = Some nb ->
  pin_at pins 2 = Some n1 -> pin_at pins 3 = Some n2 -> n1 ≠ n2 ->
  digital_pins pins w -> dev_coh d (pin_states pins w) ->
  state_at w na = Some a -> state_at w nb = Some b ->
  exists d' w', half_update pins d w t m = Some (no_drive, d', w') /\
    match bit_of a, bit_of b with
    | Some x, Some y => exists v1 v2,
        state_at w' n1 = Some (dns_of_bool v1) /\ state_at w' n2 = Some (dns_of_bool v2) /\ half_arith k x y v1 v2
    | _, _ => state_at w' n1 = Some indeterminate_state /\ state_at w' n2 = Some indeterminate_state
    end.
Proof.
  intros Hlen P0 P1 P2 P3 Hne Hd Hc Ha Hb.
  pose proof (dev_refines pins d w t m Hd (ex_intro _ 0 (ex_intro _ na P0)) Hlen) as Hu.
  destruct (digital_at_state w n1 (Hd 2 n1 P2)) as [s1 Hs1].
  destruct (digital_at_state w n2 (Hd 3 n2 P3)) as [s2 Hs2].
  simpl in Hu. unfold half_eval, pin_states in Hu.
  rewrite P0, P1, P2, P3 in Hu. simpl in Hu. rewrite Ha, Hb, Hs1, Hs2 in Hu. simpl in Hu.
  pose (v := half_fn k (normalize_z_to_x a) (normalize_z_to_x b)).
  fold v in Hu. last_result Hd Hc [(2, h_last1 d, v.1); (3, h_last2 d, v.2)].
  do 2 eexists. split; [exact Hu|].
  rewrite (Hres 2 (h_last1 d) v.1 n1), (Hres 3 (h_last2 d) v.2 n2) by (done || in_list).
  destruct k, a, b; try done; exists (dns_to_bool v.1), (dns_to_bool v.2); done.
Qed.

(** FULL_ADDER and FULL_SUB compute: on digital nodes, for any model that
    remembers what it wrote to two separate output nodes, after an update the
    output nodes hold sum and carry (difference and borrow out) of the three
    input bits, and are both unknown when an input is unknown or floating. *)
Lemma full_update_correct (k : full_kind) (pins : list pin) (d : full_dev k) (w : world)
  (t : double) (m : digital_update_method_t) (na nb nc n1 n2 : nat) (a b c : dns) :
  length pins = 5 ->
  pin_at pins 0 = Some na -> pin_at pins 1 = Some nb -> pin_at pins 2 = Some nc ->
  pin_at pins 3 = Some n1 -> pin_at pins 4 = Some n2 -> n1 ≠ n2 ->
  digital_pins pins w -> dev_coh d (pin_states pins w) ->
  state_at w na = Some a -> state_at w nb = Some b -> state_at w nc = Some c ->
  exists d' w', full_update pins d w t m = Some (no_drive, d', w') /\
    match bit_of a, bit_of b, bit_of c with
    | Some x, Some y, Some z => exists v1 v2,
        state_at w' n1 = Some (dns_of_bool v1) /\ state_at w' n2 = Some (dns_of_bool v2) /\ full_arith k x y z v1 v2
    | _, _, _ => state_at w' n1 = Some indeterminate_state /\ state_at w' n2 = Some indeterminate_state
    end.
Proof.
  intros Hlen P0 P1 P2 P3 P4 Hne Hd Hc Ha Hb Hcc.
  pose proof (dev_refines pins d w t m Hd (ex_intro _ 0 (ex_intro _ na P0)) Hlen) as Hu.
  destruct (digital_at_state w n1 (Hd 3 n1 P3)) as [s1 Hs1].
  destruct (digital_at_state w n2 (Hd 4 n2 P4)) as [s2 Hs2].
  simpl in Hu. unfold full_eval, pin_states in Hu.
  rewrite P0, P1, P2, P3, P4 in Hu. simpl in Hu. rewrite Ha, Hb, Hcc, Hs1, Hs2 in Hu. simpl in Hu.
  pose (v := full_fn k (normalize_z_to_x a) (normalize_z_to_x b) (normalize_z_to_x c)).
  fold v in Hu. last_result Hd Hc [(3, f_last1 d, v.1); (4, f_last2 d, v.2)].
  do 2 eexists. split; [exact Hu|].
  rewrite (Hres 3 (f_last1 d) v.1 n1), (Hres 4 (f_last2 d) v.2 n2) by (done || in_list).
  destruct k, a, b, c; try done; exists (dns_to_bool v.1), (dns_to_bool v.2); done.
Qed.

(** The number on two and on four known wires, least significant first. *)
Definition num2 (b0 b1 : bool) : Z := (b2z b0 + 2 * b2z b1)%Z.
Definition num4 (b0 b1 b2 b3 : bool) : Z := (num2 b0 b1 + 4 * num2 b2 b3)%Z.

(** MUL2 multiplies: on digital nodes, for any model that remembers what
    it wrote to four separate output nodes, after an update the output nodes
    hold the four-bit product of the two-bit operands, and are all unknown when
    an input is unknown or floating. *)
Lemma mul2_update_correct (pins : list pin) (d : MUL2) (w : world) (t : double)
  (m : digital_update_method_t) (na0 na1 nb0 nb1 n0 n1 n2 n3 : nat) (a0 a1 b0 b1 : dns) :
  length pins = 8 ->
  pin_at pins 0 = Some na0 -> pin_at pins 1 = Some na1 ->
  pin_at pins 2 = Some nb0 -> pin_at pins 3 = Some nb1 ->
  pin_at pins 4 = Some n0 -> pin_at pins 5 = Some n1 ->
  pin_at pins 6 = Some n2 -> pin_at pins 7 = Some n3 ->
  NoDup [n0; n1; n2; n3] ->
  digital_pins pins w -> dev_coh d (pin_states pins w) ->
  state_at w na0 = Some a0 -> state_at w na1 = Some a1 ->
  state_at w nb0 = Some b0 -> state_at w nb1 = Some b1 ->
  exists d' w', MUL2_update_digital_clk_define pins d w t m = Some (no_drive, d', w') /\
    match bit_of a0, bit_of a1, bit_of b0, bit_of b1 with
    | Some x0, Some x1, Some y0, Some y1 => exists p0 p1 p2 p3,
        state_at w' n0 = Some (dns_of_bool p0) /\ state_at w' n1 = Some (dns_of_bool p1) /\
        state_at w' n2 = Some (dns_of_bool p2) /\ state_at w' n3 = Some (dns_of_bool p3) /\
        num4 p0 p1 p2 p3 = (num2 x0 x1 * num2 y0 y1)%Z
    | _, _, _, _ => forall n, n ∈ [n0; n1; n2; n3] -> state_at w' n = Some indeterminate_state
    end.
Proof.
  intros Hlen P0 P1 P2 P3 P4 P5 P6 P7 Hnd Hd Hc Ha0 Ha1 Hb0 Hb1.
  rewrite !NoDup_cons, !not_elem_of_cons in Hnd. destruct_and!.
  pose proof (dev_refines pins d w t m Hd (ex_intro _ 0 (ex_intro _ na0 P0)) Hlen) as Hu.
  destruct (digital_at_state w n0 (Hd 4 n0 P4)) as [s0 Hs0].
  destruct (digital_at_state w n1 (Hd 5 n1 P5)) as [s1 Hs1].
  destruct (digital_at_state w n2 (Hd 6 n2 P6)) as [s2 Hs2].
  destruct (digital_at_state w n3 (Hd 7 n3 P7)) as [s3 Hs3].
  simpl in Hu. unfold mul2_eval, pin_states in Hu.
  rewrite P0, P1, P2, P3, P4, P5, P6, P7 in Hu. simpl in Hu.
  rewrite Ha0, Ha1, Hb0, Hb1, Hs0, Hs1, Hs2, Hs3 in Hu. simpl in Hu.
  pose (v := mul2_fn (normalize_z_to_x a0) (normalize_z_to_x a1) (normalize_z_to_x b0) (normalize_z_to_x b1)).
  fold v in Hu. pose (q := m_last_p d). fold q in Hu.
  last_result Hd Hc [(4, Arith.q0 q, Arith.q0 v); (5, Arith.q1 q, Arith.q1 v);
                     (6, Arith.q2 q, Arith.q2 v); (7, Arith.q3 q, Arith.q3 v)].
  do 2 eexists. split; [exact Hu|].
  pose proof (Hres 4 (Arith.q0 q) (Arith.q0 v) n0 ltac:(in_list) P4) as R0.
  pose proof (Hres 5 (Arith.q1 q) (Arith.q1 v) n1 ltac:(in_list) P5) as R1.
  pose proof (Hres 6 (Arith.q2 q) (Arith.q2 v) n2 ltac:(in_list) P6) as R2.
  pose proof (Hres 7 (Arith.q3 q) (Arith.q3 v) n3 ltac:(in_list) P7) as R3.
  clear - R0 R1 R2 R3. revert R0 R1 R2 R3. generalize (run_acts pins w (last_acts [(4, q0 q, q0 v); (5, q1 q, q1 v);
    (6, q2 q, q2 v); (7, q3 q, q3 v)])). intros w' R0 R1 R2 R3.
  destruct a0, a1, b0, b1;
    first [ exists (dns_to_bool (q0 v)), (dns_to_bool (q1 v)), (dns_to_bool (q2 v)), (dns_to_bool (q3 v));
            split_and!; [exact R0|exact R1|exact R2|exact R3|reflexivity]
          | intros n Hn; repeat (apply elem_of_cons in Hn as [->|Hn]); [exact R0|exact R1|exact R2|exact R3|];
            by apply not_elem_of_nil in Hn ].
Qed.

(** ** Witnesses *)

Definition ex_full_world : world :=
  world_of [true_state; true_state; true_state; indeterminate_state; indeterminate_state].
Definition ex_full_pins : list pin := pins_to [Some 0; Some 1; Some 2; Some 3; Some 4].

Lemma full_update_correct_witness :
  exists d' w',
    full_update ex_full_pins (full_init k_full_adder) ex_full_world Double.d0 update_table
      = Some (no_drive, d', w') /\
    exists s co, state_at w' 3 = Some (dns_of_bool s) /\ state_at w' 4 = Some (dns_of_bool co) /\
    full_arith k_full_adder true true true s co.
Proof.
  apply (full_update_correct k_full_adder ex_full_pins (full_init k_full_adder) ex_full_world
           Double.d0 update_table 0 1 2 3 4 true_state true_state true_state); try reflexivity; try done.
  - unfold ex_full_pins, ex_full_world. solve_world_digital.
  - repeat constructor; right; reflexivity.
Defined.

Definition ex_half_world : world :=
  world_of [false_state; true_state; indeterminate_state; indeterminate_state].
Definition ex_half_pins : list pin := pins_to [Some 0; Some 1; Some 2; Some 3].

Lemma half_update_correct_witness :
  exists d' w',
    half_update ex_half_pins (half_init k_half_sub) ex_half_world Double.d0 update_table
      = Some (no_drive, d', w') /\
    exists v1 v2, state_at w' 2 = Some (dns_of_bool v1) /\ state_at w' 3 = Some (dns_of_bool v2) /\
    half_arith k_half_sub false true v1 v2.
Proof.
  apply (half_update_correct k_half_sub ex_half_pins (half_init k_half_sub) ex_half_world
           Double.d0 update_table 0 1 2 3 false_state true_state); try reflexivity; try done.
  - unfold ex_half_pins, ex_half_world. solve_world_digital.
  - repeat constructor; right; reflexivity.
Defined.

Definition ex_mul_world : world :=
  world_of [true_state; true_state; true_state; true_state; indeterminate_state;
            indeterminate_state; indeterminate_state; indeterminate_state].
Definition ex_mul_pins : list pin := pins_to (Some <$> seq 0 8).

Lemma mul2_update_correct_witness :
  exists d' w',
    MUL2_update_digital_clk_define ex_mul_pins MUL2_init ex_mul_world Double.d0 update_table
      = Some (no_drive, d', w') /\
    exists p0 p1 p2 p3, state_at w' 4 = Some (dns_of_bool p0) /\ state_at w' 5 = Some (dns_of_bool p1) /\
    state_at w' 6 = Some (dns_of_bool p2) /\ state_at w' 7 = Some (dns_of_bool p3) /\
    num4 p0 p1 p2 p3 = 9%Z.
Proof.
  apply (mul2_update_correct ex_mul_pins MUL2_init ex_mul_world Double.d0 update_table
           0 1 2 3 4 5 6 7 true_state true_state true_state true_state); try reflexivity.
  - repeat constructor; set_solver.
  - unfold ex_mul_pins, ex_mul_world. solve_world_digital.
  - repeat constructor; right; reflexivity.
Defined.
