(* ===== verification/Sequential.v ===== *)
(** * Flip-flops, latch, counter and shift-register generator

    DFF, TFF, T_BAR_FF, JKFF, DFF_ARSTN, DLATCH, COUNTER4 and
    RANDOM_GENERATOR4 of model/models/digital/combinational/.  The clocked
    models remember the last known clock level and act when a low level is
    followed by a high one. *)

From S2P Require Import Prelude Double Logic4 Variant Node Device.
From Stdlib Require Import ZArith Lia.

(** ** Data *)

Inductive ff_kind := k_dff | k_tff | k_t_bar_ff | k_jkff.

(** [DFF], [TFF], [T_BAR_FF] and [JKFF] have the same members. *)
Record ff (k : ff_kind) := mk_ff { ff_Ll : double; ff_Hl : double; ff_q : dns; ff_last_clk : dns }.
Arguments mk_ff {k}.
Arguments ff_Ll {k}.
Arguments ff_Hl {k}.
Arguments ff_q {k}.
Arguments ff_last_clk {k}.

Record DFF_ARSTN := mk_arstn {
  ar_Ll : double; ar_Hl : double; ar_q : dns; ar_reset_value : dns; ar_last_clk : dns
}.

Record DLATCH := mk_latch { la_Ll : double; la_Hl : double; la_q : dns }.

Record COUNTER4 := mk_counter {
  ct_Ll : double; ct_Hl : double;
  ct_value : Z; ct_unknown : bool;
  ct_last_clk : dns; ct_last_value : Z; ct_last_unknown : bool
}.

Record RANDOM_GENERATOR4 := mk_rng {
  rg_Ll : double; rg_Hl : double;
  rg_state : Z; rg_unknown : bool;
  rg_last_clk : dns; rg_last_state : Z; rg_last_unknown : bool
}.

Definition ff_init (k : ff_kind) : ff k := mk_ff d0 d5 false_state false_state.
Definition DFF_ARSTN_init : DFF_ARSTN := mk_arstn d0 d5 false_state false_state false_state.
Definition DLATCH_init : DLATCH := mk_latch d0 d5 indeterminate_state.
Definition COUNTER4_init : COUNTER4 := mk_counter d0 d5 0 false false_state 255 true.
Definition RANDOM_GENERATOR4_init : RANDOM_GENERATOR4 := mk_rng d0 d5 1 false false_state 255 true.

(** ** Steps on the levels read *)

(** A known low level followed by a known high level. *)
Definition rising (last_clk CLK : dns) : bool :=
  bool_decide (last_clk = false_state) && bool_decide (CLK = true_state).

(** The history keeps known clock levels only. *)
Definition clk_history (last_clk CLK : dns) : dns :=
  match CLK with false_state | true_state => CLK | _ => last_clk end.

(** [static_cast<digital_node_statement_t>(!static_cast<bool>(q))] *)
Definition toggle (q : dns) : dns := dns_of_bool (negb (dns_to_bool q)).

Definition dff_q (q last_clk D CLK : dns) : dns := if rising last_clk CLK then D else q.

Definition tff_q (q last_clk T CLK : dns) : dns :=
  if rising last_clk CLK then
    match T with
    | true_state => toggle q
    | indeterminate_state => indeterminate_state
    | _ => q
    end
  else q.

Definition t_bar_ff_q (q last_clk TB CLK : dns) : dns :=
  if rising last_clk CLK then
    match TB with
    | false_state => toggle q
    | indeterminate_state => indeterminate_state
    | _ => q
    end
  else q.

Definition jkff_q (q last_clk J K CLK : dns) : dns :=
  if rising last_clk CLK then
    match J, K with
    | true_state, false_state => true_state
    | false_state, true_state => false_state
    | true_state, true_state => toggle q
    | indeterminate_state, _ | _, indeterminate_state => indeterminate_state
    | _, _ => q
    end
  else q.

Definition ff3_q (k : ff_kind) (q last_clk I CLK : dns) : dns :=
  match k with
  | k_dff => dff_q q last_clk I CLK
  | k_tff => tff_q q last_clk I CLK
  | k_t_bar_ff => t_bar_ff_q q last_clk I CLK
  | k_jkff => q
  end.

Definition arstn_q (q reset_value last_clk D CLK ARSTN : dns) : dns :=
  match ARSTN with
  | indeterminate_state => indeterminate_state
  | false_state => reset_value
  | _ => if rising last_clk CLK then D else q
  end.

Definition latch_q (q d en : dns) : dns :=
  match en with
  | indeterminate_state => indeterminate_state
  | true_state => d
  | _ => q
  end.

(** ** Updates of the flip-flops and the latch *)

Definition ff3_update {k} (pins : list pin) (clip : ff k) (w : world) (tr_duration : double)
  (method : digital_update_method_t) : option (need_operate_analog_node_t * ff k * world) :=
  match pin_at pins 0, pin_at pins 1, pin_at pins 2 with
  | Some ni, Some nclk, Some nq =>
      I ← read_dn (ff_Ll clip) (ff_Hl clip) w ni;
      CLK ← read_dn (ff_Ll clip) (ff_Hl clip) w nclk;
      let q := ff3_q k (ff_q clip) (ff_last_clk clip) I CLK in
      let clip' := mk_ff (ff_Ll clip) (ff_Hl clip) q (clk_history (ff_last_clk clip) CLK) in
      '(rt, w') ← reg_output (ff_Ll clip) (ff_Hl clip) w nq q;
      Some (rt, clip', w')
  | _, _, _ => Some (no_drive, clip, w)
  end.

Definition JKFF : Type := ff k_jkff.

Definition JKFF_update_digital_clk_define (pins : list pin) (clip : JKFF) (w : world)
  (tr_duration : double) (method : digital_update_method_t)
  : option (need_operate_analog_node_t * JKFF * world) :=
  match pin_at pins 0, pin_at pins 1, pin_at pins 2, pin_at pins 3 with
  | Some nj, Some nk, Some nclk, Some nq =>
      J ← read_dn (ff_Ll clip) (ff_Hl clip) w nj;
      K ← read_dn (ff_Ll clip) (ff_Hl clip) w nk;
      CLK ← read_dn (ff_Ll clip) (ff_Hl clip) w nclk;
      let q := jkff_q (ff_q clip) (ff_last_clk clip) J K CLK in
      let clip' := mk_ff (ff_Ll clip) (ff_Hl clip) q (clk_history (ff_last_clk clip) CLK) in
      '(rt, w') ← reg_output (ff_Ll clip) (ff_Hl clip) w nq q;
      Some (rt, clip', w')
  | _, _, _, _ => Some (no_drive, clip, w)
  end.

Definition DFF_ARSTN_update_digital_clk_define (pins : list pin) (clip : DFF_ARSTN) (w : world)
  (tr_duration : double) (method : digital_update_method_t)
  : option (need_operate_analog_node_t * DFF_ARSTN * world) :=
  match pin_at pins 0, pin_at pins 1, pin_at pins 2, pin_at pins 3 with
  | Some nd, Some nclk, Some narst, Some nq =>
      D ← read_dn (ar_Ll clip) (ar_Hl clip) w nd;
      CLK ← read_dn (ar_Ll clip) (ar_Hl clip) w nclk;
      ARSTN ← read_dn (ar_Ll clip) (ar_Hl clip) w narst;
      let q := arstn_q (ar_q clip) (ar_reset_value clip) (ar_last_clk clip) D CLK ARSTN in
      let clip' := mk_arstn (ar_Ll clip) (ar_Hl clip) q (ar_reset_value clip)
                     (clk_history (ar_last_clk clip) CLK) in
      '(rt, w') ← reg_output (ar_Ll clip) (ar_Hl clip) w nq q;
      Some (rt, clip', w')
  | _, _, _, _ => Some (no_drive, clip, w)
  end.

Definition DLATCH_update_digital_clk_define (pins : list pin) (clip : DLATCH) (w : world)
  (tr_duration : double) (method : digital_update_method_t)
  : option (need_operate_analog_node_t * DLATCH * world) :=
  match pin_at pins 0, pin_at pins 1, pin_at pins 2 with
  | Some nd, Some nen, Some nq =>
      d ← read_dn (la_Ll clip) (la_Hl clip) w nd;
      en ← read_dn (la_Ll clip) (la_Hl clip) w nen;
      let q := latch_q (la_q clip) d en in
      '(rt, w') ← reg_output (la_Ll clip) (la_Hl clip) w nq q;
      Some (rt, mk_latch (la_Ll clip) (la_Hl clip) q, w')
  | _, _, _ => Some (no_drive, clip, w)
  end.

Definition DFF : Type := ff k_dff.
Definition TFF : Type := ff k_tff.
Definition T_BAR_FF : Type := ff k_t_bar_ff.

Definition DFF_update_digital_clk_define :
  list pin -> DFF -> world -> double -> digital_update_method_t ->
  option (need_operate_analog_node_t * DFF * world) := ff3_update.
Definition TFF_update_digital_clk_define :
  list pin -> TFF -> world -> double -> digital_update_method_t ->
  option (need_operate_analog_node_t * TFF * world) := ff3_update.
Definition T_BAR_FF_update_digital_clk_define :
  list pin -> T_BAR_FF -> world -> double -> digital_update_method_t ->
  option (need_operate_analog_node_t * T_BAR_FF * world) := ff3_update.

(** ** The four-bit counter and generator *)

(** An optional control pin ([en], [reset_n]): unconnected or floating reads
    as high; an analog level is thresholded. *)
Definition read_control (Ll Hl : double) (w : world) (n : option nat) : option dns :=
  s ← match n with
      | None => Some high_impedence_state
      | Some n =>
          nd ← w_nodes w !! n;
          if is_analog nd then level_of Ll Hl <$> an_real nd else dn_state nd
      end;
  Some (match s with high_impedence_state => true_state | _ => s end).

(** The state of bit [bit] of an unsigned value on a [q] pin. *)
Definition q_state (unknown : bool) (value : Z) (bit : nat) : dns :=
  if unknown then indeterminate_state
  else if (Z.land (Z.shiftr value (Z.of_nat bit)) 1 =? 0)%Z then false_state else true_state.

(** The output loop over pins 0..3, which carry bits 3..0. *)
Fixpoint q_outputs (Ll Hl : double) (changed unknown : bool) (value : Z) (pins : list pin)
  (l : list nat) (w : world) (analog_drive : need_operate_analog_node_t)
  : option (need_operate_analog_node_t * world) :=
  match l with
  | [] => Some (analog_drive, w)
  | pin :: l' =>
      match pin_at pins pin with
      | None => q_outputs Ll Hl changed unknown value pins l' w analog_drive
      | Some nq =>
          let out := q_state unknown value (3 - pin) in
          nd ← w_nodes w !! nq;
          if is_analog nd then
            let drive := match need_to_operate_analog_node analog_drive with
                         | None => drive_default Ll Hl out nq
                         | Some _ => analog_drive
                         end in
            q_outputs Ll Hl changed unknown value pins l' w drive
          else
            cur ← dn_state nd;
            if changed || bool_decide (cur ≠ out) then
              if bool_decide (cur ≠ out) then
                w' ← set_state w nq out;
                q_outputs Ll Hl changed unknown value pins l' (table_insert w' nq) analog_drive
              else q_outputs Ll Hl changed unknown value pins l' w analog_drive
            else q_outputs Ll Hl changed unknown value pins l' w analog_drive
      end
  end.

(** [value] and [unknown] after one update of COUNTER4. *)
Definition counter_step (last_clk : dns) (value : Z) (unknown : bool) (clk en : dns) : Z * bool :=
  if rising last_clk clk then
    match en with
    | true_state => if unknown then (value, unknown) else (Z.land (value + 1) 15, unknown)
    | false_state => (value, unknown)
    | _ => (value, true)
    end
  else (value, unknown).

Definition COUNTER4_update_digital_clk_define (pins : list pin) (clip : COUNTER4) (w : world)
  (tr_duration : double) (method : digital_update_method_t)
  : option (need_operate_analog_node_t * COUNTER4 * world) :=
  match pin_at pins 4 with
  | None => Some (no_drive, clip, w)
  | Some n_clk =>
      clk ← read_dn (ct_Ll clip) (ct_Hl clip) w n_clk;
      en ← read_control (ct_Ll clip) (ct_Hl clip) w (pin_at pins 5);
      let '(value, unknown) := counter_step (ct_last_clk clip) (ct_value clip) (ct_unknown clip) clk en in
      let value_changed := negb (ct_last_value clip =? value)%Z in
      let unknown_changed := negb (Bool.eqb (ct_last_unknown clip) unknown) in
      '(drive, w') ← q_outputs (ct_Ll clip) (ct_Hl clip) (value_changed || unknown_changed)
                               unknown value pins [0; 1; 2; 3] w no_drive;
      Some (drive, mk_counter (ct_Ll clip) (ct_Hl clip) value unknown
                     (clk_history (ct_last_clk clip) clk) value unknown, w')
  end.

(** The shift with feedback [(b3 ^ b2) ^ 1]. *)
Definition rng_shift (state : Z) : Z :=
  let b3 := negb (Z.land (Z.shiftr state 3) 1 =? 0)%Z in
  let b2 := negb (Z.land (Z.shiftr state 2) 1 =? 0)%Z in
  let feedback := xorb (xorb b3 b2) true in
  Z.lor (Z.land (Z.shiftl state 1) 14) (if feedback then 1 else 0).

Definition rng_step (last_clk : dns) (state : Z) (unknown : bool) (clk rstn : dns) : Z * bool :=
  match rstn with
  | false_state => (0%Z, false)
  | indeterminate_state => (state, true)
  | _ => if rising last_clk clk then (if unknown then state else rng_shift state, unknown)
         else (state, unknown)
  end.

Definition RANDOM_GENERATOR4_update_digital_clk_define (pins : list pin) (clip : RANDOM_GENERATOR4)
  (w : world) (tr_duration : double) (method : digital_update_method_t)
  : option (need_operate_analog_node_t * RANDOM_GENERATOR4 * world) :=
  match pin_at pins 4 with
  | None => Some (no_drive, clip, w)
  | Some n_clk =>
      clk ← read_dn (rg_Ll clip) (rg_Hl clip) w n_clk;
      rstn ← read_control (rg_Ll clip) (rg_Hl clip) w (pin_at pins 5);
      let '(state, unknown) := rng_step (rg_last_clk clip) (rg_state clip) (rg_unknown clip) clk rstn in
      let changed := negb (rg_last_state clip =? state)%Z
                     || negb (Bool.eqb (rg_last_unknown clip) unknown) in
      '(drive, w') ← q_outputs (rg_Ll clip) (rg_Hl clip) changed unknown state pins [0; 1; 2; 3] w no_drive;
      Some (drive, mk_rng (rg_Ll clip) (rg_Hl clip) state unknown
                     (clk_history (rg_last_clk clip) clk) state unknown, w')
  end.

(** ** Attributes of the counter and the generator *)

Definition COUNTER4_set_attribute_define (clip : COUNTER4) (n : nat) (vi : variant) : bool * COUNTER4 :=
  match n with
  | 0 => with_ui8 vi clip (fun z => mk_counter (ct_Ll clip) (ct_Hl clip) (Z.land z 15) false
                                     (ct_last_clk clip) (ct_last_value clip) (ct_last_unknown clip))
  | 1 => with_boolean vi clip (fun b => mk_counter (ct_Ll clip) (ct_Hl clip) (ct_value clip) b
                                     (ct_last_clk clip) (ct_last_value clip) (ct_last_unknown clip))
  | _ => (false, clip)
  end.

Definition COUNTER4_get_attribute_define (clip : COUNTER4) (n : nat) : variant :=
  match n with
  | 0 => v_ui8 (Z.land (ct_value clip) 15)
  | 1 => v_boolean (ct_unknown clip)
  | _ => v_invalid
  end.

Definition COUNTER4_get_attribute_name_define (n : nat) : string :=
  match n with 0 => "value" | 1 => "unknown" | _ => "" end.

Definition RANDOM_GENERATOR4_set_attribute_define (clip : RANDOM_GENERATOR4) (n : nat) (vi : variant)
  : bool * RANDOM_GENERATOR4 :=
  match n with
  | 0 => with_ui8 vi clip (fun z => mk_rng (rg_Ll clip) (rg_Hl clip) (Z.land z 15) false
                                     (rg_last_clk clip) (rg_last_state clip) (rg_last_unknown clip))
  | 1 => with_boolean vi clip (fun b => mk_rng (rg_Ll clip) (rg_Hl clip) (rg_state clip) b
                                     (rg_last_clk clip) (rg_last_state clip) (rg_last_unknown clip))
  | _ => (false, clip)
  end.

Definition RANDOM_GENERATOR4_get_attribute_define (clip : RANDOM_GENERATOR4) (n : nat) : variant :=
  match n with
  | 0 => v_ui8 (Z.land (rg_state clip) 15)
  | 1 => v_boolean (rg_unknown clip)
  | _ => v_invalid
  end.

Definition RANDOM_GENERATOR4_get_attribute_name_define (n : nat) : string :=
  match n with 0 => "state" | 1 => "unknown" | _ => "" end.

(** ** The models implement the device interface *)

Lemma rising_history (l c : dns) : rising (clk_history l c) c = false.
Proof. by destruct l, c. Qed.

Lemma clk_history_idem (l c : dns) : clk_history (clk_history l c) c = clk_history l c.
Proof. by destruct l, c. Qed.

Lemma reg_output_put (Ll Hl : double) (pins : list pin) (w : world) (i n : nat) (s : dns) :
  pin_at pins i = Some n -> digital_at w n ->
  reg_output Ll Hl w n s = Some (no_drive, run_acts pins w (puts [(i, s)])).
Proof. intros Hp Hd. rewrite reg_output_digital by done. simpl. by rewrite (run_act_put _ _ _ _ _ Hp). Qed.

Definition ff3_eval {k} (d : ff k) (m : digital_update_method_t) (st : nat -> option dns)
  : ff k * list (nat * dns) :=
  match st 0, st 1, st 2 with
  | Some i, Some c, Some _ =>
      let I := normalize_z_to_x i in let CLK := normalize_z_to_x c in
      let q := ff3_q k (ff_q d) (ff_last_clk d) I CLK in
      (mk_ff (ff_Ll d) (ff_Hl d) q (clk_history (ff_last_clk d) CLK), [(2, q)])
  | _, _, _ => (d, [])
  end.

Definition jkff_eval (d : JKFF) (m : digital_update_method_t) (st : nat -> option dns)
  : JKFF * list (nat * dns) :=
  match st 0, st 1, st 2, st 3 with
  | Some j, Some k, Some c, Some _ =>
      let CLK := normalize_z_to_x c in
      let q := jkff_q (ff_q d) (ff_last_clk d) (normalize_z_to_x j) (normalize_z_to_x k) CLK in
      (mk_ff (ff_Ll d) (ff_Hl d) q (clk_history (ff_last_clk d) CLK), [(3, q)])
  | _, _, _, _ => (d, [])
  end.

Definition arstn_eval (d : DFF_ARSTN) (m : digital_update_method_t) (st : nat -> option dns)
  : DFF_ARSTN * list (nat * dns) :=
  match st 0, st 1, st 2, st 3 with
  | Some di, Some c, Some r, Some _ =>
      let CLK := normalize_z_to_x c in
      let q := arstn_q (ar_q d) (ar_reset_value d) (ar_last_clk d) (normalize_z_to_x di) CLK
                 (normalize_z_to_x r) in
      (mk_arstn (ar_Ll d) (ar_Hl d) q (ar_reset_value d) (clk_history (ar_last_clk d) CLK), [(3, q)])
  | _, _, _, _ => (d, [])
  end.

Definition latch_eval (d : DLATCH) (m : digital_update_method_t) (st : nat -> option dns)
  : DLATCH * list (nat * dns) :=
  match st 0, st 1, st 2 with
  | Some di, Some e, Some _ =>
      let q := latch_q (la_q d) (normalize_z_to_x di) (normalize_z_to_x e) in
      (mk_latch (la_Ll d) (la_Hl d) q, [(2, q)])
  | _, _, _ => (d, [])
  end.

(** The control level of an optional pin on digital nodes. *)
Definition control (s : option dns) : dns :=
  match s with Some false_state => false_state | Some indeterminate_state => indeterminate_state | _ => true_state end.

Definition q_puts (unknown : bool) (value : Z) (l : list nat) : list (nat * dns) :=
  (fun p => (p, q_state unknown value (3 - p))) <$> l.

Definition counter_eval (d : COUNTER4) (m : digital_update_method_t) (st : nat -> option dns)
  : COUNTER4 * list (nat * dns) :=
  match st 4 with
  | Some c =>
      let clk := normalize_z_to_x c in
      let r := counter_step (ct_last_clk d) (ct_value d) (ct_unknown d) clk (control (st 5)) in
      (mk_counter (ct_Ll d) (ct_Hl d) r.1 r.2 (clk_history (ct_last_clk d) clk) r.1 r.2,
       q_puts r.2 r.1 [0; 1; 2; 3])
  | None => (d, [])
  end.

Definition rng_eval (d : RANDOM_GENERATOR4) (m : digital_update_method_t) (st : nat -> option dns)
  : RANDOM_GENERATOR4 * list (nat * dns) :=
  match st 4 with
  | Some c =>
      let clk := normalize_z_to_x c in
      let r := rng_step (rg_last_clk d) (rg_state d) (rg_unknown d) clk (control (st 5)) in
      (mk_rng (rg_Ll d) (rg_Hl d) r.1 r.2 (clk_history (rg_last_clk d) clk) r.1 r.2,
       q_puts r.2 r.1 [0; 1; 2; 3])
  | None => (d, [])
  end.

#[global] Instance ff_device k : DigitalDevice (ff k) := {|
  update_digital_clk :=
    match k return list pin -> ff k -> world -> double -> digital_update_method_t ->
                   option (need_operate_analog_node_t * ff k * world) with
    | k_dff => DFF_update_digital_clk_define
    | k_tff => TFF_update_digital_clk_define
    | k_t_bar_ff => T_BAR_FF_update_digital_clk_define
    | k_jkff => JKFF_update_digital_clk_define
    end;
  digital_update_method := fun _ => update_table;
  num_pins := fun _ => match k with k_jkff => 4 | _ => 3 end
|}.

#[global] Instance arstn_device : DigitalDevice DFF_ARSTN := {|
  update_digital_clk := DFF_ARSTN_update_digital_clk_define;
  digital_update_method := fun _ => update_table;
  num_pins := fun _ => 4
|}.

#[global] Instance latch_device : DigitalDevice DLATCH := {|
  update_digital_clk := DLATCH_update_digital_clk_define;
  digital_update_method := fun _ => update_table;
  num_pins := fun _ => 3
|}.

#[global] Instance counter_device : DigitalDevice COUNTER4 := {|
  update_digital_clk := COUNTER4_update_digital_clk_define;
  digital_update_method := fun _ => update_table;
  num_pins := fun _ => 6
|}.

#[global] Instance rng_device : DigitalDevice RANDOM_GENERATOR4 := {|
  update_digital_clk := RANDOM_GENERATOR4_update_digital_clk_define;
  digital_update_method := fun _ => update_table;
  num_pins := fun _ => 6
|}.

Definition ff_eval {k} : ff k -> digital_update_method_t -> (nat -> option dns) -> ff k * list (nat * dns) :=
  match k with k_jkff => jkff_eval | _ => ff3_eval end.

Lemma q_outputs_digital (Ll Hl : double) (ch u : bool) (v : Z) (pins : list pin) (l : list nat) (w : world) :
  digital_pins pins w ->
  q_outputs Ll Hl ch u v pins l w no_drive = Some (no_drive, run_acts pins w (puts (q_puts u v l))).
Proof.
  revert w. induction l as [|p l IH]; intros w Hd; [done|].
  cbn [q_outputs q_puts puts fmap list_fmap run_acts foldl fst snd].
  destruct (pin_at pins p) as [n|] eqn:E.
  2:{ rewrite run_act_unconnected by done. by apply IH. }
  rewrite (run_act_put _ _ _ _ _ E).
  destruct (Hd _ _ E) as (nd & Hn & Hnd). rewrite Hn. cbn [mbind option_bind].
  rewrite digital_not_analog by done. destruct Hnd as (Hz & s0 & Hs0).
  assert (Hdn : dn_state nd = Some s0) by (unfold dn_state; by rewrite Hs0).
  assert (Hst : state_at w n = Some s0) by (unfold state_at; rewrite Hn; exact Hdn).
  rewrite Hdn, Hst. cbn [mbind option_bind].
  destruct (decide (s0 = q_state u v (3 - p))) as [->|Hne].
  - rewrite (bool_decide_false (_ ≠ _)) by tauto. rewrite decide_True by done.
    rewrite orb_false_r. destruct ch; by apply IH.
  - rewrite bool_decide_true by done. rewrite decide_False by congruence.
    rewrite orb_true_r, (set_state_some _ _ _ _ Hn). cbn [mbind option_bind].
    rewrite <- (write_node_some _ _ _ _ Hn). apply IH.
    eapply digital_pins_wstep; [|exact Hd].
    by apply (write_announce_wstep {[n]}); [eapply Hd|set_solver].
Qed.

Lemma read_control_digital (Ll Hl : double) (pins : list pin) (w : world) (i : nat) :
  digital_pins pins w ->
  read_control Ll Hl w (pin_at pins i) = Some (control (pin_states pins w i)).
Proof.
  intros Hd. unfold read_control. digital_pin Hd i; [|done].
  destruct Hdig as (nd & Hn & Hnd). unfold state_at in Hst. rewrite Hn in *. simpl in *.
  rewrite digital_not_analog by done. rewrite Hst. by destruct s.
Qed.

Ltac ff_refines Hd l :=
  pins_all Hd l ltac:(done); rewrite !read_dn_digital by done;
  repeat match goal with H : state_at _ _ = Some _ |- _ => rewrite H; clear H end;
  cbn [fmap option_fmap option_map mbind option_bind];
  erewrite reg_output_put by eassumption; done.

Definition ff_outs (k : ff_kind) : list nat := match k with k_jkff => [3] | _ => [2] end.

#[global, program] Instance ff_spec k : DeviceSpec (ff k) :=
  register_spec ff_eval (ff_outs k) _ _ _ _ _ _.
Next Obligation.
  intros k pins d w t m Hd _ _. destruct k; simpl.
  1-3: unfold DFF_update_digital_clk_define, TFF_update_digital_clk_define,
    T_BAR_FF_update_digital_clk_define, ff3_update, ff3_eval; ff_refines Hd [0; 1; 2].
  unfold JKFF_update_digital_clk_define, jkff_eval. ff_refines Hd [0; 1; 2; 3].
Qed.
Next Obligation. done. Qed.
Next Obligation.
  intros k d m st i s. destruct k; simpl; unfold ff3_eval, jkff_eval;
    repeat case_match; set_solver.
Qed.
Next Obligation.
  intros k d m st. destruct k; simpl; unfold ff3_eval, jkff_eval; repeat case_match; repeat constructor; set_solver.
Qed.
Next Obligation.
  intros k d m st st' Hi Ho. destruct k; simpl in *; unfold ff3_eval, jkff_eval;
    [solve_local st st' Hi Ho [2]..|solve_local st st' Hi Ho [3]].
Qed.
Next Obligation.
  intros k. apply settle_idem. intros d m st.
  destruct k; simpl; unfold ff3_eval, jkff_eval; repeat case_match; simpl;
    simplify_eq; try done;
    unfold dff_q, tff_q, t_bar_ff_q, jkff_q; by rewrite rising_history, clk_history_idem.
Qed.

#[global, program] Instance arstn_spec : DeviceSpec DFF_ARSTN :=
  register_spec arstn_eval [3] _ _ _ _ _ _.
Next Obligation.
  intros pins d w t m Hd _ _. simpl. unfold DFF_ARSTN_update_digital_clk_define, arstn_eval.
  ff_refines Hd [0; 1; 2; 3].
Qed.
Next Obligation. done. Qed.
Next Obligation. intros d m st i s. unfold arstn_eval. repeat case_match; set_solver. Qed.
Next Obligation.
  intros d m st. unfold arstn_eval. repeat case_match; repeat constructor; set_solver.
Qed.
Next Obligation. intros d m st st' Hi Ho. simpl in *. unfold arstn_eval. solve_local st st' Hi Ho [3]. Qed.
Next Obligation.
  apply settle_idem. intros d m st. unfold arstn_eval. eval_all st [0; 1; 2; 3] ltac:(simpl; repeat case_match; congruence).
  simpl. unfold arstn_q. rewrite rising_history, clk_history_idem. by destruct (normalize_z_to_x _).
Qed.

#[global, program] Instance latch_spec : DeviceSpec DLATCH :=
  register_spec latch_eval [2] _ _ _ _ _ _.
Next Obligation.
  intros pins d w t m Hd _ _. simpl. unfold DLATCH_update_digital_clk_define, latch_eval.
  ff_refines Hd [0; 1; 2].
Qed.
Next Obligation. done. Qed.
Next Obligation. intros d m st i s. unfold latch_eval. repeat case_match; set_solver. Qed.
Next Obligation.
  intros d m st. unfold latch_eval. repeat case_match; repeat constructor; set_solver.
Qed.
Next Obligation. intros d m st st' Hi Ho. simpl in *. unfold latch_eval. solve_local st st' Hi Ho [2]. Qed.
Next Obligation.
  apply settle_idem. intros d m st. unfold latch_eval. eval_all st [0; 1; 2] ltac:(simpl; repeat case_match; congruence).
  simpl. unfold latch_q. by destruct (normalize_z_to_x s0).
Qed.

Lemma q_puts_out (u : bool) (v : Z) (l : list nat) (i : nat) (s : dns) :
  (i, s) ∈ q_puts u v l -> i ∈ l.
Proof. intros (p & Heq & Hp)%list_elem_of_fmap. by simplify_eq. Qed.

Lemma counter_step_held (l : dns) (v : Z) (u : bool) (c en : dns) :
  counter_step (clk_history l c) v u c en = (v, u).
Proof. unfold counter_step. by rewrite rising_history. Qed.

#[global, program] Instance counter_spec : DeviceSpec COUNTER4 :=
  register_spec counter_eval [0; 1; 2; 3] _ _ _ _ _ _.
Next Obligation.
  intros pins d w t m Hd _ _. simpl. unfold COUNTER4_update_digital_clk_define, counter_eval.
  digital_pin Hd 4; [|done]. rewrite read_dn_digital, Hst by done.
  cbn [fmap option_fmap option_map mbind option_bind].
  rewrite read_control_digital by done. cbn [mbind option_bind].
  destruct (counter_step _ _ _ _ _) as [v u]. by rewrite q_outputs_digital.
Qed.
Next Obligation. done. Qed.
Next Obligation.
  intros d m st i s. unfold counter_eval. case_match; [apply q_puts_out|set_solver].
Qed.
Next Obligation.
  intros d m st. unfold counter_eval. case_match; [|constructor]. change (NoDup [0; 1; 2; 3]). repeat constructor; set_solver.
Qed.
Next Obligation. intros d m st st' Hi Ho. simpl in *. unfold counter_eval. solve_local st st' Hi Ho (@nil nat). Qed.
Next Obligation.
  apply settle_idem. intros d m st. unfold counter_eval.
  eval_all st [4] ltac:(simpl; repeat case_match; congruence). simpl.
  destruct (counter_step (ct_last_clk d) (ct_value d) (ct_unknown d) _ _) as [v u]. simpl.
  by rewrite counter_step_held, clk_history_idem.
Qed.

#[global, program] Instance rng_spec : DeviceSpec RANDOM_GENERATOR4 :=
  register_spec rng_eval [0; 1; 2; 3] _ _ _ _ _ _.
Next Obligation.
  intros pins d w t m Hd _ _. simpl. unfold RANDOM_GENERATOR4_update_digital_clk_define, rng_eval.
  digital_pin Hd 4; [|done]. rewrite read_dn_digital, Hst by done.
  cbn [fmap option_fmap option_map mbind option_bind].
  rewrite read_control_digital by done. cbn [mbind option_bind].
  destruct (rng_step _ _ _ _ _) as [v u]. by rewrite q_outputs_digital.
Qed.
Next Obligation. done. Qed.
Next Obligation.
  intros d m st i s. unfold rng_eval. case_match; [apply q_puts_out|set_solver].
Qed.
Next Obligation.
  intros d m st. unfold rng_eval. case_match; [|constructor]. change (NoDup [0; 1; 2; 3]). repeat constructor; set_solver.
Qed.
Next Obligation. intros d m st st' Hi Ho. simpl in *. unfold rng_eval. solve_local st st' Hi Ho (@nil nat). Qed.
Next Obligation.
  apply settle_idem. intros d m st. unfold rng_eval.
  eval_all st [4] ltac:(simpl; repeat case_match; congruence). simpl.
  unfold rng_step. rewrite rising_history, clk_history_idem. by destruct (control (st 5)).
Qed.

(** ** Flip-flops *)

(** The next state of a flip-flop at a rising edge for known inputs: the
    textbook characteristic equations. *)
Definition characteristic (k : ff_kind) (q i1 i2 : bool) : bool :=
  match k with
  | k_dff => i1
  | k_tff => xorb q i1
  | k_t_bar_ff => xorb q (negb i1)
  | k_jkff => (i1 && negb q) || (negb i2 && q)
  end.

(** The pins of a flip-flop: one or two inputs, the clock, the output. *)
Definition ff_wiring (k : ff_kind) (i1 i2 clk q : nat) : list pin :=
  pins_to match k with
          | k_jkff => [Some i1; Some i2; Some clk; Some q]
          | _ => [Some i1; Some clk; Some q]
          end.

Lemma ff_update_result (k : ff_kind) (d : ff k) (w : world) (t : double) (m : digital_update_method_t)
  (n1 n2 nc nq : nat) (s1 s2 sc : dns) :
  digital_pins (ff_wiring k n1 n2 nc nq) w ->
  state_at w n1 = Some s1 -> state_at w n2 = Some s2 -> state_at w nc = Some sc ->
  let q' := match k with
            | k_jkff => jkff_q (ff_q d) (ff_last_clk d) (normalize_z_to_x s1) (normalize_z_to_x s2)
                          (normalize_z_to_x sc)
            | _ => ff3_q k (ff_q d) (ff_last_clk d) (normalize_z_to_x s1) (normalize_z_to_x sc)
            end in
  update_digital_clk (ff_wiring k n1 n2 nc nq) d w t m =
    Some (no_drive, mk_ff (ff_Ll d) (ff_Hl d) q' (clk_history (ff_last_clk d) (normalize_z_to_x sc)),
          if decide (state_at w nq = Some q') then w else table_insert (write_node w nq q') nq).
Proof.
  intros Hd H1 H2 Hc q'.
  rewrite (dev_refines (ff_wiring k n1 n2 nc nq) d w t m Hd); [|exists 0, n1; by destruct k|by destruct k].
  destruct k; simpl in *; unfold ff3_eval, jkff_eval, pin_states; simpl;
    rewrite ?H1, ?H2, ?Hc; simpl;
    [destruct (digital_at_state w nq (Hd 2 nq eq_refl)) as [sq Hsq] ..
    |destruct (digital_at_state w nq (Hd 3 nq eq_refl)) as [sq Hsq]];
    rewrite Hsq; cbn; unfold run_act; cbn; rewrite Hsq; reflexivity.
Qed.

(** DFF, TFF, T_BAR_FF and JKFF implement their characteristic equations:
    on digital nodes with known inputs, an update at a rising clock edge moves
    a known state [q] to [characteristic k q i1 i2]; an update at any other
    known clock level keeps it.  In both cases the output node carries the
    stored state afterwards and is enqueued for its readers exactly when its
    state changed. *)
Lemma ff_characteristic (k : ff_kind) (d : ff k) (w : world) (t : double)
  (m : digital_update_method_t) (n1 n2 nc nq : nat) (q i1 i2 c : bool) (sq : dns) :
  digital_pins (ff_wiring k n1 n2 nc nq) w ->
  state_at w n1 = Some (dns_of_bool i1) -> state_at w n2 = Some (dns_of_bool i2) ->
  state_at w nc = Some (dns_of_bool c) -> state_at w nq = Some sq ->
  ff_q d = dns_of_bool q ->
  let q' := if bool_decide (ff_last_clk d = false_state) && c then characteristic k q i1 i2 else q in
  exists d' w',
    update_digital_clk (ff_wiring k n1 n2 nc nq) d w t m = Some (no_drive, d', w') /\
    ff_q d' = dns_of_bool q' /\ ff_last_clk d' = dns_of_bool c /\
    state_at w' nq = Some (dns_of_bool q') /\
    tables (w_table w') = (if decide (sq = dns_of_bool q') then ∅ else {[nq]}) ∪ tables (w_table w).
Proof.
  intros Hd H1 H2 Hc Hnq Hq q'.
  rewrite (ff_update_result k d w t m n1 n2 nc nq _ _ _ Hd H1 H2 Hc). do 2 eexists. split; [done|].
  assert (Hdq : digital_at w nq) by (destruct k; [apply (Hd 2)..|apply (Hd 3)]; done).
  match goal with |- context [decide (state_at w nq = Some ?s)] => assert (Hs : s = dns_of_bool q') end.
  { subst q'. rewrite Hq. by destruct k, q, i1, i2, c, (ff_last_clk d). }
  rewrite Hs. cbn [ff_q ff_last_clk]. split_and!; [done|by destruct c, (ff_last_clk d)|..].
  - case_decide as E; [done|].
    change (state_at (write_node w nq (dns_of_bool q')) nq = Some (dns_of_bool q')).
    by rewrite state_at_write, decide_True.
  - rewrite Hnq. destruct (decide (Some sq = _)), (decide (sq = _)); try congruence; [set_solver|].
    simpl. unfold write_node. destruct Hdq as (nd & Hn & _). by rewrite (set_state_some _ _ _ _ Hn).
Qed.

Lemma ff_characteristic_witness :
  exists (d' : JKFF) (w' : world),
    update_digital_clk (ff_wiring k_jkff 0 1 2 3) (mk_ff d0 d5 true_state false_state)
      (world_of [true_state; true_state; true_state; true_state]) d0 update_table
      = Some (no_drive, d', w') /\
    ff_q d' = false_state /\ ff_last_clk d' = true_state /\ state_at w' 3 = Some false_state /\
    tables (w_table w') = {[3]} ∪ ∅.
Proof.
  apply (ff_characteristic k_jkff (mk_ff d0 d5 true_state false_state)
           (world_of [true_state; true_state; true_state; true_state]) d0 update_table
           0 1 2 3 true true true true true_state); try reflexivity.
  unfold ff_wiring. solve_world_digital.
Defined.

(** The inputs that ask a flip-flop to toggle. *)
Definition toggles (k : ff_kind) (i1 i2 : bool) : Prop :=
  match k with
  | k_dff => False
  | k_tff => i1 = true
  | k_t_bar_ff => i1 = false
  | k_jkff => i1 = true /\ i2 = true
  end.

(** A toggle does not propagate an unknown state: TFF, T_BAR_FF and JKFF
    told to toggle while they hold an unknown state move to a known low, since
    the unknown state converts to [true] before it is negated; the boolean
    the state stood for may have been either, so its negation is not what the
    output shows. *)
Lemma toggle_loses_unknown (k : ff_kind) (d : ff k) (w : world) (t : double)
  (m : digital_update_method_t) (n1 n2 nc nq : nat) (i1 i2 : bool) :
  toggles k i1 i2 ->
  digital_pins (ff_wiring k n1 n2 nc nq) w ->
  state_at w n1 = Some (dns_of_bool i1) -> state_at w n2 = Some (dns_of_bool i2) ->
  state_at w nc = Some true_state -> ff_last_clk d = false_state ->
  ff_q d = indeterminate_state ->
  exists d' w',
    update_digital_clk (ff_wiring k n1 n2 nc nq) d w t m = Some (no_drive, d', w') /\
    ff_q d' = false_state /\
    ~ (forall b, gamma (ff_q d) b -> gamma (ff_q d') (negb b)).
Proof.
  intros Ht Hd H1 H2 Hc Hl Hq.
  rewrite (ff_update_result k d w t m n1 n2 nc nq _ _ _ Hd H1 H2 Hc). do 2 eexists. split; [done|].
  rewrite Hl, Hq. destruct k; simpl in Ht; [done|subst..|destruct Ht; subst]; simpl;
    (split; [done|]); intros Hg; by specialize (Hg false I).
Qed.

Lemma toggle_loses_unknown_witness :
  exists (d' : TFF) (w' : world),
    update_digital_clk (ff_wiring k_tff 0 0 1 2) (mk_ff d0 d5 indeterminate_state false_state)
      (world_of [true_state; true_state; indeterminate_state]) d0 update_table
      = Some (no_drive, d', w') /\
    ff_q d' = false_state /\
    ~ (forall b, gamma indeterminate_state b -> gamma (ff_q d') (negb b)).
Proof.
  apply (toggle_loses_unknown k_tff (mk_ff d0 d5 indeterminate_state false_state)
           (world_of [true_state; true_state; indeterminate_state]) d0 update_table
           0 0 1 2 true true); try reflexivity.
  unfold ff_wiring. solve_world_digital.
Defined.

(** ** DFF over a sequence of samples *)

(** Drive the data and clock nodes with each sample in turn and update. *)
Fixpoint dff_stimulate (nd nc nq : nat) (t : double) (m : digital_update_method_t)
  (trace : list (dns * dns)) (d : DFF) (w : world) : option (DFF * world) :=
  match trace with
  | [] => Some (d, w)
  | (D, CLK) :: trace' =>
      '(_, d', w') ← DFF_update_digital_clk_define (ff_wiring k_dff nd nd nc nq) d
                       (write_node (write_node w nd D) nc CLK) t m;
      dff_stimulate nd nc nq t m trace' d' w'
  end.

(** The last known clock level of a trace that starts after level [c0]. *)
Definition last_level (c0 : dns) (trace : list (dns * dns)) : dns :=
  foldl clk_history c0 (normalize_z_to_x <$> trace.*2).

(** Sample [i] is a rising edge: the clock is high and the last known level
    before it is low.  Unknown and floating levels in between do not count. *)
Definition edge_at (c0 : dns) (trace : list (dns * dns)) (i : nat) (D : dns) : Prop :=
  trace !! i = Some (D, true_state) /\ last_level c0 (take i trace) = false_state.

(** The abstract flip-flop: the data at the last rising edge, if there was one. *)
Definition captured (q0 c0 : dns) (trace : list (dns * dns)) (q : dns) : Prop :=
  (q = q0 /\ forall i D, ~ edge_at c0 trace i D) \/
  (exists i D, edge_at c0 trace i D /\ q = normalize_z_to_x D /\
               forall j D', i < j -> ~ edge_at c0 trace j D').

Definition dff_trace (q0 c0 : dns) (trace : list (dns * dns)) : dns * dns :=
  foldl (fun qc s => (dff_q qc.1 qc.2 (normalize_z_to_x s.1) (normalize_z_to_x s.2),
                      clk_history qc.2 (normalize_z_to_x s.2))) (q0, c0) trace.

Lemma dff_trace_level (q0 c0 : dns) (trace : list (dns * dns)) :
  (dff_trace q0 c0 trace).2 = last_level c0 trace.
Proof.
  unfold dff_trace, last_level. revert q0 c0.
  induction trace as [|[D c] trace IH]; intros q0 c0; [done|]. simpl. apply IH.
Qed.

Lemma edge_at_app (c0 : dns) (trace : list (dns * dns)) (x : dns * dns) (i : nat) (D : dns) :
  i < length trace -> edge_at c0 (trace ++ [x]) i D <-> edge_at c0 trace i D.
Proof.
  intros Hi. unfold edge_at. rewrite lookup_app_l, take_app_le by lia. done.
Qed.

Lemma edge_at_lt (c0 : dns) (trace : list (dns * dns)) (i : nat) (D : dns) :
  edge_at c0 trace i D -> i < length trace.
Proof. intros [H _]. by apply lookup_lt_Some in H. Qed.

Lemma edge_at_last (c0 : dns) (trace : list (dns * dns)) (D0 c D : dns) :
  edge_at c0 (trace ++ [(D0, c)]) (length trace) D <->
  D = D0 /\ c = true_state /\ last_level c0 trace = false_state.
Proof.
  unfold edge_at. rewrite lookup_app_r, Nat.sub_diag, take_app_length by lia. simpl. split.
  - intros [H1 H2]. by simplify_eq.
  - by intros (-> & -> & ->).
Qed.

Lemma dff_trace_captured (q0 c0 : dns) (trace : list (dns * dns)) :
  captured q0 c0 trace (dff_trace q0 c0 trace).1.
Proof.
  induction trace as [|[D c] trace IH] using rev_ind.
  { left. split; [done|]. intros i D [H _]. done. }
  assert (Hs : (dff_trace q0 c0 (trace ++ [(D, c)])).1 =
    dff_q (dff_trace q0 c0 trace).1 (last_level c0 trace) (normalize_z_to_x D) (normalize_z_to_x c)).
  { rewrite <- (dff_trace_level q0 c0 trace). unfold dff_trace. by rewrite foldl_app. }
  rewrite Hs. unfold dff_q, rising.
  destruct (decide (last_level c0 trace = false_state /\ normalize_z_to_x c = true_state)) as [[Hl Hc]|Hno].
  - rewrite !bool_decide_true by done. simpl. right. exists (length trace), D.
    assert (c = true_state) by (by destruct c). split_and!; [by apply edge_at_last|done|].
    intros j D' Hj He%edge_at_lt. rewrite length_app in He. simpl in He. lia.
  - assert (Hold : forall j D', edge_at c0 (trace ++ [(D, c)]) j D' <-> edge_at c0 trace j D').
    { intros j D'. split; intros He; pose proof (edge_at_lt _ _ _ _ He) as Hj.
      - rewrite length_app in Hj. simpl in Hj.
        destruct (decide (j = length trace)) as [->|]; [|by apply (edge_at_app _ _ (D, c)); [lia|]].
        apply edge_at_last in He as (_ & -> & Hl). tauto.
      - by apply edge_at_app. }
    replace (bool_decide _ && bool_decide _) with false.
    2:{ repeat case_bool_decide; tauto. }
    destruct IH as [[Hq Hn]|(i & D' & He & Hq & Hn)]; [left|right].
    + split; [done|]. intros i D' He%Hold. by eapply Hn.
    + exists i, D'. rewrite Hold. split_and!; [done..|]. intros j D'' Hj He'%Hold. by eapply Hn.
Qed.

Lemma digital_write (w : world) (n k : nat) (s : dns) :
  digital_at w n -> digital_at w k -> digital_at (write_node w n s) k.
Proof.
  intros (nd & Hn & Hd) (kd & Hk & Hkd). rewrite (write_node_some _ _ _ _ Hn).
  unfold digital_at; simpl. destruct (decide (k = n)) as [->|Hne].
  - rewrite lookup_insert_eq. eauto with phy.
  - rewrite lookup_insert_ne by done. eauto.
Qed.

Lemma digital_pins_write (pins : list pin) (w : world) (n : nat) (s : dns) :
  digital_at w n -> digital_pins pins w -> digital_pins pins (write_node w n s).
Proof. intros Hn Hd i k Hi. apply digital_write; eauto. Qed.

Lemma dff_stimulate_run (nd nc nq : nat) (t : double) (m : digital_update_method_t)
  (trace : list (dns * dns)) (d : DFF) (w : world) :
  nd ≠ nc -> digital_pins (ff_wiring k_dff nd nd nc nq) w ->
  exists d' w',
    dff_stimulate nd nc nq t m trace d w = Some (d', w') /\
    (ff_q d', ff_last_clk d') = dff_trace (ff_q d) (ff_last_clk d) trace /\
    (trace ≠ [] -> state_at w' nq = Some (ff_q d')).
Proof.
  intros Hne. revert d w. induction trace as [|[D c] trace IH]; intros d w Hd.
  { exists d, w. split_and!; try done. }
  simpl. set (w1 := write_node (write_node w nd D) nc c).
  assert (Hnd : digital_at w nd) by (by apply (Hd 0)).
  assert (Hnc : digital_at w nc) by (by apply (Hd 1)).
  assert (Hd1 : digital_pins (ff_wiring k_dff nd nd nc nq) w1).
  { apply digital_pins_write; [by apply digital_write|]. by apply digital_pins_write. }
  assert (H1 : state_at w1 nd = Some D).
  { unfold w1. rewrite state_at_write by (by apply digital_write). rewrite decide_False by done.
    by rewrite state_at_write, decide_True. }
  assert (Hc : state_at w1 nc = Some c).
  { unfold w1. rewrite state_at_write by (by apply digital_write). by rewrite decide_True. }
  pose proof (ff_update_result k_dff d w1 t m nd nd nc nq D D c Hd1 H1 H1 Hc) as Hu.
  simpl in Hu. rewrite Hu. clear Hu. cbn [mbind option_bind].
  set (q' := dff_q _ _ _ _).
  set (w2 := if decide _ then _ else _).
  set (d2 := mk_ff _ _ q' _).
  assert (Hs2 : state_at w2 nq = Some q').
  { unfold w2. case_decide as E; [done|].
    change (state_at (write_node w1 nq q') nq = Some q').
    rewrite state_at_write, decide_True; [done|done|by apply (Hd1 2)]. }
  destruct (IH d2 w2) as (d' & w' & Hrun & Hq & Ho).
  { unfold w2. case_decide; [done|]. apply digital_pins_write; [by apply (Hd1 2)|done]. }
  exists d', w'. split_and!; [done|done|]. intros _.
  destruct trace as [|x trace]; [|by apply Ho]. simpl in Hrun. by simplify_eq.
Qed.

(** C36. DFF is an edge-triggered register: driven with any sequence of data and
    clock samples (unknown and floating ones included) on digital nodes, it
    always completes, holds the data of the last rising edge of the sequence
    (its initial state when there was none), and its output node shows it. *)
Theorem dff_captures_last_edge (nd nc nq : nat) (t : double) (m : digital_update_method_t)
  (trace : list (dns * dns)) (d : DFF) (w : world) :
  nd ≠ nc -> digital_pins (ff_wiring k_dff nd nd nc nq) w ->
  exists d' w',
    dff_stimulate nd nc nq t m trace d w = Some (d', w') /\
    captured (ff_q d) (ff_last_clk d) trace (ff_q d') /\
    (trace ≠ [] -> state_at w' nq = Some (ff_q d')).
Proof.
  intros Hne Hd. destruct (dff_stimulate_run nd nc nq t m trace d w Hne Hd) as (d' & w' & Hr & Hq & Ho).
  exists d', w'. split_and!; [done| |done].
  pose proof (dff_trace_captured (ff_q d) (ff_last_clk d) trace) as Hcap.
  by rewrite <- Hq in Hcap.
Qed.

Definition ex_trace : list (dns * dns) :=
  [(true_state, false_state); (true_state, indeterminate_state); (true_state, true_state);
   (false_state, true_state)].

Lemma dff_captures_last_edge_witness :
  exists d' w',
    dff_stimulate 0 1 2 d0 update_table ex_trace (ff_init k_dff)
      (world_of [false_state; false_state; false_state]) = Some (d', w') /\
    captured false_state false_state ex_trace (ff_q d') /\
    (ex_trace ≠ [] -> state_at w' 2 = Some (ff_q d')).
Proof.
  apply (dff_captures_last_edge 0 1 2 d0 update_table ex_trace (ff_init k_dff)
           (world_of [false_state; false_state; false_state])); [done|].
  unfold ff_wiring. solve_world_digital.
Defined.

(** ** Clock pulses *)

(** [n] low-high pulses on the clock node, an update after each level. *)
Fixpoint pulses {D} `{DigitalDevice D} (pins : list pin) (nc : nat) (t : double)
  (m : digital_update_method_t) (n : nat) (d : D) (w : world) : option (D * world) :=
  match n with
  | 0 => Some (d, w)
  | S n' =>
      '(_, d1, w1) ← update_digital_clk pins d (write_node w nc false_state) t m;
      '(_, d2, w2) ← update_digital_clk pins d1 (write_node w1 nc true_state) t m;
      pulses pins nc t m n' d2 w2
  end.

(** A four-bit model on digital nodes: clock on pin 4 at [nc], outputs on pins
    0 to 3 on nodes of their own, control pin 5 unconnected, floating or high. *)
Record four_bit_wiring (pins : list pin) (nc : nat) (w : world) : Prop := {
  fb_length : length pins = 6;
  fb_digital : digital_pins pins w;
  fb_clk : pin_at pins 4 = Some nc;
  fb_control : control (pin_states pins w 5) = true_state;
  fb_clk_apart i : i < 6 -> i ≠ 4 -> pin_at pins i ≠ Some nc;
  fb_out_apart i j n : i < 4 -> j < 6 -> pin_at pins i = Some n -> pin_at pins j = Some n -> i = j
}.

Definition shows (pins : list pin) (w : world) (v : Z) : Prop :=
  forall p n, p < 4 -> pin_at pins p = Some n ->
  state_at w n = Some (dns_of_bool (Z.testbit v (Z.of_nat (3 - p)))).

Lemma q_state_testbit (v : Z) (b : nat) : q_state false v b = dns_of_bool (Z.testbit v (Z.of_nat b)).
Proof.
  unfold q_state. rewrite (Z.land_ones _ 1), Z.shiftr_div_pow2 by lia.
  rewrite Z.testbit_eqb by lia. change (2 ^ 1)%Z with 2%Z.
  pose proof (Z.mod_pos_bound (v / 2 ^ Z.of_nat b) 2 ltac:(lia)).
  destruct (Z.eqb_spec ((v / 2 ^ Z.of_nat b) mod 2) 0), (Z.eqb_spec ((v / 2 ^ Z.of_nat b) mod 2) 1);
    try done; lia.
Qed.

Lemma puts_wstep (pins : list pin) (w : world) (l : list (nat * dns)) (outs : list nat) :
  digital_pins pins w -> (forall i s, (i, s) ∈ l -> i ∈ outs) ->
  wstep (out_nodes pins outs) w (run_acts pins w (puts l)).
Proof.
  intros Hd Ho. apply loud_run_acts_wstep; [done|..]; apply Forall_forall;
    intros a (i & s & -> & Hin)%elem_of_puts; simpl; [done|by eapply Ho].
Qed.

Lemma four_bit_write (pins : list pin) (nc : nat) (w : world) (s : dns) :
  four_bit_wiring pins nc w -> four_bit_wiring pins nc (write_node w nc s).
Proof.
  intros [Hl Hd Hc Hk Ha Ho]. split; try done.
  - apply digital_pins_write; eauto.
  - rewrite <- Hk. f_equal. unfold pin_states. destruct (pin_at pins 5) as [n|] eqn:E; [|done].
    simpl. rewrite state_at_write by eauto. rewrite decide_False; [done|].
    intros ->. by apply (Ha 5); [lia..|].
Qed.

Lemma four_bit_puts (pins : list pin) (nc : nat) (w : world) (l : list (nat * dns)) :
  four_bit_wiring pins nc w -> (forall i s, (i, s) ∈ l -> i < 4) ->
  four_bit_wiring pins nc (run_acts pins w (puts l)).
Proof.
  intros [Hlen Hd Hc Hk Ha Ho] Hl. split; try done.
  - eapply digital_pins_wstep; [|exact Hd]. apply (puts_wstep _ _ _ (l.*1)); [done|].
    intros i s Hin. apply list_elem_of_fmap. by exists (i, s).
  - rewrite <- Hk. f_equal. unfold pin_states. destruct (pin_at pins 5) as [n|] eqn:E; [|done].
    simpl. unfold state_at. rewrite run_acts_other; [done|].
    intros a (i & s & -> & Hin)%elem_of_puts Hp. simpl in Hp. apply Hl in Hin.
    enough (i = 5) by lia. by eapply Ho; [lia| |exact Hp|exact E]; lia.
Qed.

Lemma four_bit_shows (pins : list pin) (nc : nat) (w : world) (v : Z) :
  four_bit_wiring pins nc w -> shows pins (run_acts pins w (puts (q_puts false v [0; 1; 2; 3]))) v.
Proof.
  intros Hw p n Hp Hn. eapply puts_result; [by eapply fb_digital| | |
    |exact Hn].
  - change (NoDup [0; 1; 2; 3]). repeat constructor; set_solver.
  - change ((q_puts false v [0; 1; 2; 3]).*1) with [0; 1; 2; 3].
    intros i j k Hi Hj. apply (fb_out_apart pins nc w Hw); set_unfold; lia.
  - rewrite <- q_state_testbit. apply list_elem_of_fmap. exists p. split; [done|].
    do 4 (destruct p as [|p]; [set_solver|]). lia.
Qed.

(** A model that holds a four-bit value, advances it by [next] at a rising edge
    and shows it on its output pins. *)
Section four_bit.
Context {D : Type} `{DigitalDevice D}.
Variable eval : D -> digital_update_method_t -> (nat -> option dns) -> D * list (nat * dns).
Variables (value : D -> Z) (unknown : D -> bool) (last_clk : D -> dns) (next : Z -> Z).
Hypothesis refines : forall pins d w t m,
  digital_pins pins w -> connected pins -> length pins = 6 ->
  update_digital_clk pins d w t m =
    Some (no_drive, (eval d m (pin_states pins w)).1,
          run_acts pins w (puts (eval d m (pin_states pins w)).2)).
Hypothesis eval_four_bit : forall d m st c,
  st 4 = Some c -> control (st 5) = true_state -> unknown d = false ->
  let v := if rising (last_clk d) (normalize_z_to_x c) then next (value d) else value d in
  let r := eval d m st in
  value r.1 = v /\ unknown r.1 = false /\ last_clk r.1 = clk_history (last_clk d) (normalize_z_to_x c) /\
  r.2 = q_puts false v [0; 1; 2; 3].

Lemma four_bit_phase (pins : list pin) (nc : nat) (t : double) (m : digital_update_method_t)
  (c : bool) (d : D) (w : world) :
  four_bit_wiring pins nc w -> unknown d = false ->
  let s := dns_of_bool c in
  let v := if rising (last_clk d) s then next (value d) else value d in
  exists d' w',
    update_digital_clk pins d (write_node w nc s) t m = Some (no_drive, d', w') /\
    value d' = v /\ unknown d' = false /\ last_clk d' = s /\
    four_bit_wiring pins nc w' /\ shows pins w' v.
Proof.
  intros Hw Hu s v. pose proof (four_bit_write _ _ _ s Hw) as Hw1.
  pose proof (fb_clk _ _ _ Hw) as Hc.
  assert (H4 : pin_states pins (write_node w nc s) 4 = Some s).
  { rewrite (pin_states_some _ _ _ _ Hc), state_at_write; [by rewrite decide_True|].
    by eapply (fb_digital _ _ _ Hw). }
  destruct (eval_four_bit d m _ s H4 (fb_control _ _ _ Hw1) Hu) as (E1 & E2 & E3 & E4).
  assert (Hs : normalize_z_to_x s = s) by (by destruct c). rewrite Hs in *.
  rewrite refines; [|by eapply fb_digital|by exists 4, nc|by eapply fb_length].
  do 2 eexists. split; [done|]. rewrite E1, E2, E3, E4. split_and!; try done.
  - by destruct c.
  - apply four_bit_puts; [done|]. intros i s0 Hi%q_puts_out. set_unfold; lia.
  - by eapply four_bit_shows.
Qed.

Lemma four_bit_pulses (pins : list pin) (nc : nat) (t : double) (m : digital_update_method_t)
  (n : nat) (d : D) (w : world) :
  four_bit_wiring pins nc w -> unknown d = false ->
  exists d' w',
    pulses pins nc t m n d w = Some (d', w') /\
    value d' = Nat.iter n next (value d) /\ unknown d' = false /\
    four_bit_wiring pins nc w' /\ (n ≠ 0 -> shows pins w' (value d')).
Proof.
  revert d w. induction n as [|n IH]; intros d w Hw Hu.
  { exists d, w. split_and!; try done. }
  simpl pulses.
  destruct (four_bit_phase pins nc t m false d w Hw Hu) as (d1 & w1 & Hr1 & V1 & U1 & L1 & Hw1 & _).
  destruct (four_bit_phase pins nc t m true d1 w1 Hw1 U1) as (d2 & w2 & Hr2 & V2 & U2 & L2 & Hw2 & S2).
  simpl dns_of_bool in *. rewrite Hr1. cbn [mbind option_bind]. rewrite Hr2. cbn [mbind option_bind].
  assert (V2' : value d2 = next (value d)).
  { rewrite V2, V1, L1. by destruct (last_clk d). }
  destruct (IH d2 w2 Hw2 U2) as (d' & w' & Hr & V & U & Hw' & S).
  exists d', w'. split_and!; try done.
  - rewrite V, V2', <- Nat.iter_succ_r. done.
  - intros _. destruct n as [|n]; [|by apply S]. simpl in Hr. injection Hr as <- <-. by rewrite V2.
Qed.
End four_bit.

Lemma counter_eval_four_bit (d : COUNTER4) (m : digital_update_method_t) (st : nat -> option dns) (c : dns) :
  st 4 = Some c -> control (st 5) = true_state -> ct_unknown d = false ->
  let v := if rising (ct_last_clk d) (normalize_z_to_x c) then Z.land (ct_value d + 1) 15 else ct_value d in
  let r := counter_eval d m st in
  ct_value r.1 = v /\ ct_unknown r.1 = false /\
  ct_last_clk r.1 = clk_history (ct_last_clk d) (normalize_z_to_x c) /\
  r.2 = q_puts false v [0; 1; 2; 3].
Proof.
  intros H4 H5 Hu v r. subst v r. unfold counter_eval, counter_step. rewrite H4, H5, Hu.
  by destruct (rising _ _).
Qed.

Lemma rng_eval_four_bit (d : RANDOM_GENERATOR4) (m : digital_update_method_t) (st : nat -> option dns)
  (c : dns) :
  st 4 = Some c -> control (st 5) = true_state -> rg_unknown d = false ->
  let v := if rising (rg_last_clk d) (normalize_z_to_x c) then rng_shift (rg_state d) else rg_state d in
  let r := rng_eval d m st in
  rg_state r.1 = v /\ rg_unknown r.1 = false /\
  rg_last_clk r.1 = clk_history (rg_last_clk d) (normalize_z_to_x c) /\
  r.2 = q_puts false v [0; 1; 2; 3].
Proof.
  intros H4 H5 Hu v r. subst v r. unfold rng_eval, rng_step. rewrite H4, H5, Hu.
  by destruct (rising _ _).
Qed.

Lemma counter_iter (n : nat) (v : Z) :
  (0 <= v < 16)%Z -> Nat.iter n (fun v => Z.land (v + 1) 15) v = ((v + Z.of_nat n) mod 16)%Z.
Proof.
  intros Hv. induction n as [|n IH].
  - simpl. rewrite Z.add_0_r, Z.mod_small; lia.
  - rewrite Nat.iter_succ, IH. change 15%Z with (Z.ones 4). rewrite Z.land_ones by lia.
    change (2 ^ 4)%Z with 16%Z. rewrite Zplus_mod_idemp_l. f_equal. lia.
Qed.

(** COUNTER4 counts modulo 16: for any number of clock pulses on digital
    nodes with the enable pin high, floating or unconnected, the updates
    complete, the stored value advances by one per pulse modulo 16, and after
    at least one pulse the output pins carry its binary representation. *)
Lemma counter4_counts (pins : list pin) (nc : nat) (t : double) (m : digital_update_method_t)
  (n : nat) (d : COUNTER4) (w : world) :
  four_bit_wiring pins nc w -> ct_unknown d = false -> (0 <= ct_value d < 16)%Z ->
  exists d' w',
    pulses pins nc t m n d w = Some (d', w') /\
    ct_value d' = ((ct_value d + Z.of_nat n) mod 16)%Z /\ ct_unknown d' = false /\
    (n ≠ 0 -> shows pins w' (ct_value d')).
Proof.
  intros Hw Hu Hv.
  destruct (four_bit_pulses counter_eval ct_value ct_unknown ct_last_clk (fun v => Z.land (v + 1) 15)
              (@dev_refines COUNTER4 _ counter_spec) counter_eval_four_bit pins nc t m n d w Hw Hu)
    as (d' & w' & Hr & V & U & _ & S).
  exists d', w'. rewrite <- counter_iter by done. done.
Qed.

Definition ex_four_bit_pins : list pin :=
  pins_to [Some 0; Some 1; Some 2; Some 3; Some 4; None].
Definition ex_four_bit_world : world :=
  world_of [indeterminate_state; indeterminate_state; indeterminate_state; indeterminate_state;
            indeterminate_state].

Lemma ex_four_bit_wiring : four_bit_wiring ex_four_bit_pins 4 ex_four_bit_world.
Proof.
  split; try reflexivity.
  - unfold ex_four_bit_pins, ex_four_bit_world. solve_world_digital.
  - intros i Hi Hne. do 4 (destruct i as [|i]; [done|]). destruct i as [|[|i]]; [done|done|lia].
  - intros i j n Hi Hj. do 4 (destruct i as [|i]; [do 6 (destruct j as [|j]; [cbn; congruence|]); lia|]). lia.
Qed.

Lemma counter4_counts_witness :
  exists d' w',
    pulses ex_four_bit_pins 4 d0 update_table 21 COUNTER4_init ex_four_bit_world = Some (d', w') /\
    ct_value d' = 5%Z /\ ct_unknown d' = false /\ (21 ≠ 0 -> shows ex_four_bit_pins w' (ct_value d')).
Proof.
  apply (counter4_counts ex_four_bit_pins 4 d0 update_table 21 COUNTER4_init ex_four_bit_world).
  - apply ex_four_bit_wiring.
  - reflexivity.
  - simpl; lia.
Defined.

(** The 4-bit values other than 15. *)
Definition rng_live (s : Z) : Prop := (0 <= s < 15)%Z.

Lemma rng_live_cases (s : Z) : rng_live s -> s ∈ map Z.of_nat (seq 0 15).
Proof.
  unfold rng_live. intros H. apply list_elem_of_fmap. exists (Z.to_nat s).
  split; [lia|]. apply elem_of_seq. lia.
Qed.

Lemma rng_orbit (s : Z) :
  rng_live s ->
  Forall rng_live ((fun n => Nat.iter n rng_shift s) <$> seq 0 15) /\
  NoDup ((fun n => Nat.iter n rng_shift s) <$> seq 0 15) /\ Nat.iter 15 rng_shift s = s.
Proof.
  intros Hs%rng_live_cases. unfold rng_live.
  assert (HF : Forall (fun s => Forall (fun s => (0 <= s < 15)%Z) ((fun n => Nat.iter n rng_shift s) <$> seq 0 15) /\
      NoDup ((fun n => Nat.iter n rng_shift s) <$> seq 0 15) /\ Nat.iter 15 rng_shift s = s)
      (map Z.of_nat (seq 0 15))).
  { apply (bool_decide_unpack _). vm_compute. exact I. }
  rewrite Forall_forall in HF. by apply HF.
Qed.

Lemma rng_iter_stuck (n : nat) : Nat.iter n rng_shift 15%Z = 15%Z.
Proof. induction n as [|n IH]; [done|]. by rewrite Nat.iter_succ, IH. Qed.

(** RANDOM_GENERATOR4 has period 15 outside one state: clocked from any
    known state other than 15 with reset inactive, the 15 states it goes
    through are distinct and never 15, and the 15th pulse returns to the first
    one; after every pulse the output pins carry the state. *)
Lemma random_generator4_period (pins : list pin) (nc : nat) (t : double)
  (m : digital_update_method_t) (d : RANDOM_GENERATOR4) (w : world) :
  four_bit_wiring pins nc w -> rg_unknown d = false -> rng_live (rg_state d) ->
  exists states : list Z,
    length states = 15 /\ NoDup states /\ Forall rng_live states /\
    (forall n, n < 15 -> exists d' w',
       pulses pins nc t m n d w = Some (d', w') /\ states !! n = Some (rg_state d') /\
       (n ≠ 0 -> shows pins w' (rg_state d'))) /\
    exists d' w', pulses pins nc t m 15 d w = Some (d', w') /\ rg_state d' = rg_state d /\
       shows pins w' (rg_state d').
Proof.
  intros Hw Hu Hs. destruct (rng_orbit _ Hs) as (HF & Hnd & Hp).
  pose proof (fun n => four_bit_pulses rng_eval rg_state rg_unknown rg_last_clk rng_shift
    (@dev_refines RANDOM_GENERATOR4 _ rng_spec) rng_eval_four_bit pins nc t m n d w Hw Hu) as Hrun.
  exists ((fun n => Nat.iter n rng_shift (rg_state d)) <$> seq 0 15). split_and!; try done.
  - intros n Hn. destruct (Hrun n) as (d' & w' & Hr & V & _ & _ & S). exists d', w'.
    split_and!; [done| |done]. by rewrite list_lookup_fmap, lookup_seq_lt, V.
  - destruct (Hrun 15) as (d' & w' & Hr & V & _ & _ & S). exists d', w'.
    split_and!; [done|by rewrite V|by apply S].
Qed.

Lemma random_generator4_period_witness :
  exists states : list Z,
    length states = 15 /\ NoDup states /\ Forall rng_live states /\
    (forall n, n < 15 -> exists d' w',
       pulses ex_four_bit_pins 4 d0 update_table n RANDOM_GENERATOR4_init ex_four_bit_world = Some (d', w') /\
       states !! n = Some (rg_state d') /\ (n ≠ 0 -> shows ex_four_bit_pins w' (rg_state d'))) /\
    exists d' w',
      pulses ex_four_bit_pins 4 d0 update_table 15 RANDOM_GENERATOR4_init ex_four_bit_world = Some (d', w') /\
      rg_state d' = 1%Z /\ shows ex_four_bit_pins w' (rg_state d').
Proof.
  apply (random_generator4_period ex_four_bit_pins 4 d0 update_table RANDOM_GENERATOR4_init ex_four_bit_world).
  - apply ex_four_bit_wiring.
  - reflexivity.
  - unfold rng_live; simpl; lia.
Defined.

(** RANDOM_GENERATOR4 has a lock state: the [state] attribute accepts 15,
    and from there no number of clock pulses changes it. *)
Lemma random_generator4_locks_at_15 (pins : list pin) (nc : nat) (t : double)
  (m : digital_update_method_t) (n : nat) (d : RANDOM_GENERATOR4) (w : world) :
  four_bit_wiring pins nc w ->
  exists d0 d' w',
    RANDOM_GENERATOR4_set_attribute_define d 0 (v_ui8 15) = (true, d0) /\
    pulses pins nc t m n d0 w = Some (d', w') /\
    RANDOM_GENERATOR4_get_attribute_define d' 0 = v_ui8 15.
Proof.
  intros Hw. eexists. simpl.
  match goal with |- exists _ _, (true, ?x) = _ /\ _ => set (d1 := x) end.
  destruct (four_bit_pulses rng_eval rg_state rg_unknown rg_last_clk rng_shift
    (@dev_refines RANDOM_GENERATOR4 _ rng_spec) rng_eval_four_bit pins nc t m n d1 w Hw eq_refl)
    as (d' & w' & Hr & V & _).
  exists d', w'. split_and!; [done|exact Hr|].
  rewrite V. change (rg_state d1) with 15%Z. by rewrite rng_iter_stuck.
Qed.

Lemma random_generator4_locks_at_15_witness :
  exists d1 d' w',
    RANDOM_GENERATOR4_set_attribute_define RANDOM_GENERATOR4_init 0 (v_ui8 15) = (true, d1) /\
    pulses ex_four_bit_pins 4 d0 update_table 100 d1 ex_four_bit_world = Some (d', w') /\
    RANDOM_GENERATOR4_get_attribute_define d' 0 = v_ui8 15.
Proof.
  apply (random_generator4_locks_at_15 ex_four_bit_pins 4 d0 update_table 100 RANDOM_GENERATOR4_init
           ex_four_bit_world ex_four_bit_wiring).
Defined.

(** ** Asynchronous reset and latch *)

Lemma arstn_update_result (d : DFF_ARSTN) (w : world) (t : double) (m : digital_update_method_t)
  (nd nc nr nq : nat) (sd sc sr : dns) :
  digital_pins (pins_to [Some nd; Some nc; Some nr; Some nq]) w ->
  state_at w nd = Some sd -> state_at w nc = Some sc -> state_at w nr = Some sr ->
  let q' := arstn_q (ar_q d) (ar_reset_value d) (ar_last_clk d) (normalize_z_to_x sd)
              (normalize_z_to_x sc) (normalize_z_to_x sr) in
  DFF_ARSTN_update_digital_clk_define (pins_to [Some nd; Some nc; Some nr; Some nq]) d w t m =
    Some (no_drive, mk_arstn (ar_Ll d) (ar_Hl d) q' (ar_reset_value d)
                      (clk_history (ar_last_clk d) (normalize_z_to_x sc)),
          if decide (state_at w nq = Some q') then w else table_insert (write_node w nq q') nq).
Proof.
  intros Hd H1 Hc Hr q'.
  change (DFF_ARSTN_update_digital_clk_define) with (update_digital_clk (D := DFF_ARSTN)).
  rewrite (dev_refines (pins_to [Some nd; Some nc; Some nr; Some nq]) d w t m Hd); [|by exists 0, nd|done].
  destruct (digital_at_state w nq (Hd 3 nq eq_refl)) as [sq Hsq].
  simpl. unfold arstn_eval, pin_states. simpl. rewrite H1, Hc, Hr, Hsq.
  cbn. unfold run_act. cbn. rewrite Hsq. reflexivity.
Qed.

Lemma put_result (w : world) (n : nat) (s : dns) :
  digital_at w n ->
  state_at (if decide (state_at w n = Some s) then w else table_insert (write_node w n s) n) n = Some s.
Proof.
  intros Hd. case_decide as E; [done|].
  change (state_at (write_node w n s) n = Some s). by rewrite state_at_write, decide_True.
Qed.

(** The asynchronous reset of DFF_ARSTN dominates and releases cleanly: an
    update with the reset low moves output and state to the reset value
    whatever data and clock are, and when the reset is released at the same
    clock level, with any data, the next update keeps that value: a clock
    that is already high does not count as an edge. *)
Lemma arstn_reset_dominates (d : DFF_ARSTN) (w : world) (t : double) (m : digital_update_method_t)
  (nd nc nr nq : nat) (sd sd' : dns) (c : bool) :
  digital_pins (pins_to [Some nd; Some nc; Some nr; Some nq]) w -> NoDup [nd; nc; nr; nq] ->
  state_at w nd = Some sd -> state_at w nc = Some (dns_of_bool c) -> state_at w nr = Some false_state ->
  exists d1 w1 d2 w2,
    DFF_ARSTN_update_digital_clk_define (pins_to [Some nd; Some nc; Some nr; Some nq]) d w t m
      = Some (no_drive, d1, w1) /\
    ar_q d1 = ar_reset_value d /\ state_at w1 nq = Some (ar_reset_value d) /\
    DFF_ARSTN_update_digital_clk_define (pins_to [Some nd; Some nc; Some nr; Some nq]) d1
      (write_node (write_node w1 nd sd') nr true_state) t m = Some (no_drive, d2, w2) /\
    ar_q d2 = ar_reset_value d /\ state_at w2 nq = Some (ar_reset_value d).
Proof.
  intros Hd Hnd Hsd Hsc Hsr. rewrite !NoDup_cons, !not_elem_of_cons in Hnd. destruct_and!.
  set (pins := pins_to [Some nd; Some nc; Some nr; Some nq]) in *.
  set (w1 := if decide (state_at w nq = Some (ar_reset_value d)) then w
             else table_insert (write_node w nq (ar_reset_value d)) nq).
  assert (Hd1 : digital_pins pins w1).
  { unfold w1. case_decide; [done|]. apply digital_pins_write; [by apply (Hd 3)|done]. }
  assert (Hc1 : state_at w1 nc = Some (dns_of_bool c)).
  { unfold w1. case_decide; [done|]. rewrite <- Hsc.
    change (state_at (write_node w nq (ar_reset_value d)) nc = state_at w nc).
    rewrite state_at_write, decide_False by (done || by apply (Hd 3)). done. }
  set (w1' := write_node (write_node w1 nd sd') nr true_state).
  assert (Dnd : digital_at w1 nd) by (by apply (Hd1 0)).
  assert (Dnr : digital_at (write_node w1 nd sd') nr) by (apply digital_write; [done|by apply (Hd1 2)]).
  assert (Hd1' : digital_pins pins w1') by (by apply digital_pins_write; [|apply digital_pins_write]).
  assert (Hst : forall n, state_at w1' n =
    if decide (n = nr) then Some true_state else if decide (n = nd) then Some sd' else state_at w1 n).
  { intros n. unfold w1'. by rewrite !state_at_write. }
  do 2 eexists. exists (mk_arstn (ar_Ll d) (ar_Hl d) (ar_reset_value d) (ar_reset_value d)
                          (clk_history (clk_history (ar_last_clk d) (dns_of_bool c)) (dns_of_bool c))).
  exists (if decide (state_at w1' nq = Some (ar_reset_value d)) then w1'
          else table_insert (write_node w1' nq (ar_reset_value d)) nq).
  assert (Hcn : normalize_z_to_x (dns_of_bool c) = dns_of_bool c) by (by destruct c).
  split; [|split; [|split; [|split; [|split]]]].
  - pose proof (arstn_update_result d w t m nd nc nr nq _ _ _ Hd Hsd Hsc Hsr) as Hu.
    rewrite Hcn in Hu. exact Hu.
  - done.
  - apply put_result. by apply (Hd 3).
  - change (if decide (state_at w nq = Some _) then w else _) with w1. fold w1'.
    rewrite (arstn_update_result _ w1' t m nd nc nr nq sd' (dns_of_bool c) true_state Hd1').
    + rewrite Hcn. simpl. unfold arstn_q. by rewrite rising_history.
    + rewrite Hst, decide_False, decide_True by congruence. done.
    + rewrite Hst, !decide_False by congruence. done.
    + rewrite Hst, decide_True by congruence. done.
  - done.
  - apply put_result. by apply (Hd1' 3).
Qed.

Lemma arstn_reset_dominates_witness :
  exists d1 w1 d2 w2,
    DFF_ARSTN_update_digital_clk_define (pins_to [Some 0; Some 1; Some 2; Some 3])
      (mk_arstn d0 d5 true_state false_state false_state)
      (world_of [true_state; true_state; false_state; true_state]) d0 update_table
      = Some (no_drive, d1, w1) /\
    ar_q d1 = false_state /\ state_at w1 3 = Some false_state /\
    DFF_ARSTN_update_digital_clk_define (pins_to [Some 0; Some 1; Some 2; Some 3]) d1
      (write_node (write_node w1 0 true_state) 2 true_state) d0 update_table = Some (no_drive, d2, w2) /\
    ar_q d2 = false_state /\ state_at w2 3 = Some false_state.
Proof.
  apply (arstn_reset_dominates (mk_arstn d0 d5 true_state false_state false_state)
           (world_of [true_state; true_state; false_state; true_state]) d0 update_table
           0 1 2 3 true_state true_state true); try reflexivity.
  - solve_world_digital.
  - repeat constructor; set_solver.
Defined.
