(* ===== verification/LogicIO.v ===== *)
(** * Sources, sinks, wires and comparators

    INPUT, OUTPUT, TRI, TICK_DELAY, RESOLVE2, IS_UNKNOWN, CASE_EQ,
    SCHMITT_TRIGGER, EIGHT_BIT_INPUT and EIGHT_BIT_DISPLAY of
    model/models/digital/logical/. *)

From S2P Require Import Prelude Double Logic4 Variant Node Device Gates Sequential.
From Stdlib Require Import ZArith Lia.

(** ** Data *)

Record INPUT := mk_input { in_Ll : double; in_Hl : double; in_outputA : dns; in_last_outputA : dns }.

(** The members of OUTPUT are those of a gate with one input and no output. *)
Record OUTPUT := mk_output { out_levels : levels; out_A : channel }.

Record TRI := mk_tri { tri_Ll : double; tri_Hl : double }.

Record TICK_DELAY := mk_delay {
  td_Ll : double; td_Hl : double; td_ticks : nat; td_pipe : list dns; td_last_out : dns
}.

Record RESOLVE2 := mk_resolve2 { r2_Ll : double; r2_Hl : double }.

Record IS_UNKNOWN := mk_is_unknown { iu_Ll : double; iu_Hl : double; iu_last_out : dns }.

Record CASE_EQ := mk_case_eq { ce_Ll : double; ce_Hl : double; ce_last_out : dns }.

Record SCHMITT_TRIGGER := mk_schmitt {
  sm_Ll : double; sm_Hl : double; sm_Vth_low : double; sm_Vth_high : double;
  sm_inverted : bool; sm_last_out : dns; sm_last_driven : dns
}.

Record EIGHT_BIT_DISPLAY := mk_display {
  ed_Ll : double; ed_Hl : double; ed_value : Z; ed_unknown_mask : Z
}.

Record EIGHT_BIT_INPUT := mk_input8 {
  ei_Ll : double; ei_Hl : double; ei_value : Z; ei_last_value : Z
}.

Definition INPUT_init : INPUT := mk_input d0 d5 dns_default indeterminate_state.
Definition OUTPUT_init : OUTPUT := mk_output levels_default channel_default.
Definition TRI_init : TRI := mk_tri d0 d5.
Definition TICK_DELAY_init (t : nat) : TICK_DELAY := mk_delay d0 d5 t [] indeterminate_state.
Definition RESOLVE2_init : RESOLVE2 := mk_resolve2 d0 d5.
Definition IS_UNKNOWN_init : IS_UNKNOWN := mk_is_unknown d0 d5 indeterminate_state.
Definition CASE_EQ_init : CASE_EQ := mk_case_eq d0 d5 indeterminate_state.
Definition SCHMITT_TRIGGER_init : SCHMITT_TRIGGER :=
  mk_schmitt d0 d5 d5_3 d10_3 false false_state indeterminate_state.
Definition EIGHT_BIT_DISPLAY_init : EIGHT_BIT_DISPLAY := mk_display d0 d5 0 0.
Definition EIGHT_BIT_INPUT_init : EIGHT_BIT_INPUT := mk_input8 d0 d5 0 255.

(** ** INPUT and OUTPUT *)

Definition INPUT_set_attribute_define (clip : INPUT) (n : nat) (vi : variant) : bool * INPUT :=
  match n with
  | 0 => with_digital vi clip (fun s => mk_input (in_Ll clip) (in_Hl clip) s (in_last_outputA clip))
  | _ => (false, clip)
  end.

Definition INPUT_get_attribute_define (clip : INPUT) (n : nat) : variant :=
  match n with 0 => v_digital (in_outputA clip) | _ => v_invalid end.

Definition INPUT_get_attribute_name_define (n : nat) : string := match n with 0 => "boolean" | _ => "" end.

Definition INPUT_update_digital_clk_define (pins : list pin) (clip : INPUT) (w : world)
  (tr_duration : double) (method : digital_update_method_t)
  : option (need_operate_analog_node_t * INPUT * world) :=
  match pin_at pins 0 with
  | Some node_o =>
      let output_res := in_outputA clip in
      let output_change := bool_decide (in_last_outputA clip ≠ output_res) in
      let clip' := mk_input (in_Ll clip) (in_Hl clip) (in_outputA clip) output_res in
      '(rt, w') ← gate_output (in_Ll clip) (in_Hl clip) w node_o output_res output_change;
      Some (rt, clip', w')
  | None => Some (no_drive, clip, w)
  end.

Definition OUTPUT_set_attribute_define (clip : OUTPUT) (n : nat) (vi : variant) : bool * OUTPUT :=
  (false, clip).

Definition OUTPUT_get_attribute_define (clip : OUTPUT) (n : nat) : variant :=
  match n with 0 => v_digital (ch_input (out_A clip)) | _ => v_invalid end.

Definition OUTPUT_get_attribute_name_define (n : nat) : string := match n with 0 => "value" | _ => "" end.

(** The node is dereferenced without a null check. *)
Definition OUTPUT_update_digital_clk_define (pins : list pin) (clip : OUTPUT) (w : world)
  (tr_duration : double) (method : digital_update_method_t)
  : option (need_operate_analog_node_t * OUTPUT * world) :=
  node_i ← pin_at pins 0;
  A ← sample (out_levels clip) tr_duration w node_i (out_A clip);
  Some (no_drive, mk_output (out_levels clip) A, w).

(** ** TRI *)

Definition TRI_set_attribute_define (t : TRI) (idx : nat) (vi : variant) : bool * TRI :=
  match idx with
  | 0 => with_d vi t (fun x => mk_tri x (tri_Hl t))
  | 1 => with_d vi t (fun x => mk_tri (tri_Ll t) x)
  | _ => (false, t)
  end.

Definition TRI_get_attribute_define (t : TRI) (idx : nat) : variant :=
  match idx with 0 => v_d (tri_Ll t) | 1 => v_d (tri_Hl t) | _ => v_invalid end.

Definition TRI_get_attribute_name_define (idx : nat) : string :=
  match idx with 0 => "Ll" | 1 => "Hl" | _ => "" end.

Definition tri_enabled (t : TRI) (w : world) (node_en : nat) : option bool :=
  nd ← w_nodes w !! node_en;
  if is_analog nd then v ← an_real nd; Some (dge v (tri_Hl t))
  else s ← dn_state nd; Some (bool_decide (s = true_state)).

(** A digital output node is written and enqueued unconditionally. *)
Definition TRI_update_digital_clk_define (pins : list pin) (t : TRI) (w : world)
  (tr_duration : double) (method : digital_update_method_t)
  : option (need_operate_analog_node_t * TRI * world) :=
  match pin_at pins 0, pin_at pins 1, pin_at pins 2 with
  | Some node_i, Some node_en, Some node_o =>
      enabled ← tri_enabled t w node_en;
      nd_o ← w_nodes w !! node_o;
      if negb enabled then
        if is_analog nd_o then Some (no_drive, t, w)
        else w' ← set_state w node_o high_impedence_state; Some (no_drive, t, table_insert w' node_o)
      else
        inputState ← read_dn_raw (tri_Ll t) (tri_Hl t) w node_i;
        if is_analog nd_o then Some (drive_default (tri_Ll t) (tri_Hl t) inputState node_o, t, w)
        else w' ← set_state w node_o inputState; Some (no_drive, t, table_insert w' node_o)
  | _, _, _ => Some (no_drive, t, w)
  end.

(** ** TICK_DELAY *)

(** [for(i = i0; i > 0; --i) pipe[i] = pipe[i - 1];] *)
Fixpoint pipe_shift (i : nat) (pipe : list dns) : option (list dns) :=
  match i with
  | 0 => Some pipe
  | S j => v ← pipe !! j; pipe_shift j (<[S j := v]> pipe)
  end.

(** The output stage: a digital node is always written, and enqueued when the
    value differs from the one remembered; an analog node is driven by a known
    value. *)
Definition delay_output (m : TICK_DELAY) (w : world) (node_o : nat) (out : dns)
  : option (need_operate_analog_node_t * TICK_DELAY * world) :=
  nd ← w_nodes w !! node_o;
  if is_analog nd then
    match out with
    | false_state => Some (mk_drive (td_Ll m) (Some node_o), m, w)
    | true_state => Some (mk_drive (td_Hl m) (Some node_o), m, w)
    | _ => Some (no_drive, m, w)
    end
  else
    w' ← set_state w node_o out;
    if bool_decide (td_last_out m ≠ out) then
      Some (no_drive, mk_delay (td_Ll m) (td_Hl m) (td_ticks m) (td_pipe m) out, table_insert w' node_o)
    else Some (no_drive, m, w').

Definition TICK_DELAY_update_digital_clk_define (pins : list pin) (m : TICK_DELAY) (w : world)
  (tr_duration : double) (method : digital_update_method_t)
  : option (need_operate_analog_node_t * TICK_DELAY * world) :=
  if bool_decide (method ≠ before_all_clk) then Some (no_drive, m, w)
  else
    match pin_at pins 1 with
    | None => Some (no_drive, m, w)
    | Some node_o =>
        inp ← match pin_at pins 0 with
              | None => Some indeterminate_state
              | Some n => read_dn_raw (td_Ll m) (td_Hl m) w n
              end;
        let n_ticks := td_ticks m in
        if bool_decide (n_ticks = 0) then delay_output m w node_o inp
        else
          let '(pipe, last_out) :=
            if bool_decide (length (td_pipe m) ≠ n_ticks) then (replicate n_ticks inp, indeterminate_state)
            else (td_pipe m, td_last_out m) in
          out ← pipe !! (n_ticks - 1);
          pipe1 ← (if bool_decide (1 < n_ticks) then pipe_shift (n_ticks - 1) pipe else Some pipe);
          delay_output (mk_delay (td_Ll m) (td_Hl m) n_ticks (<[0 := inp]> pipe1) last_out) w node_o out
    end.

(** ** RESOLVE2, IS_UNKNOWN, CASE_EQ *)

Definition resolve (a0 b0 : dns) : dns :=
  if bool_decide (a0 = high_impedence_state) then b0
  else if bool_decide (b0 = high_impedence_state) then a0
  else if bool_decide (a0 = b0) then a0 else indeterminate_state.

Definition RESOLVE2_update_digital_clk_define (pins : list pin) (clip : RESOLVE2) (w : world)
  (tr_duration : double) (method : digital_update_method_t)
  : option (need_operate_analog_node_t * RESOLVE2 * world) :=
  match pin_at pins 0, pin_at pins 1, pin_at pins 2 with
  | Some na, Some nb, Some no =>
      a ← read_dn_raw (r2_Ll clip) (r2_Hl clip) w na;
      b ← read_dn_raw (r2_Ll clip) (r2_Hl clip) w nb;
      '(rt, w') ← reg_output (r2_Ll clip) (r2_Hl clip) w no (resolve a b);
      Some (rt, clip, w')
  | _, _, _ => Some (no_drive, clip, w)
  end.

(** The output stage with [last_out]: an analog node is driven when the value
    differs from the one remembered. *)
Definition flag_output (Ll Hl : double) (w : world) (n : nat) (out last_out : dns)
  : option (need_operate_analog_node_t * world) :=
  nd ← w_nodes w !! n;
  if is_analog nd then
    if bool_decide (last_out = out) then Some (no_drive, w) else Some (drive_default Ll Hl out n, w)
  else reg_output Ll Hl w n out.

Definition IS_UNKNOWN_update_digital_clk_define (pins : list pin) (clip : IS_UNKNOWN) (w : world)
  (tr_duration : double) (method : digital_update_method_t)
  : option (need_operate_analog_node_t * IS_UNKNOWN * world) :=
  match pin_at pins 0, pin_at pins 1 with
  | Some node_i, Some node_o =>
      inp ← read_dn_raw (iu_Ll clip) (iu_Hl clip) w node_i;
      let unknown := bool_decide (inp = indeterminate_state) || bool_decide (inp = high_impedence_state) in
      let out := if unknown then true_state else false_state in
      '(rt, w') ← flag_output (iu_Ll clip) (iu_Hl clip) w node_o out (iu_last_out clip);
      Some (rt, mk_is_unknown (iu_Ll clip) (iu_Hl clip) out, w')
  | _, _ => Some (no_drive, clip, w)
  end.

Definition CASE_EQ_update_digital_clk_define (pins : list pin) (clip : CASE_EQ) (w : world)
  (tr_duration : double) (method : digital_update_method_t)
  : option (need_operate_analog_node_t * CASE_EQ * world) :=
  match pin_at pins 0, pin_at pins 1, pin_at pins 2 with
  | Some node_a, Some node_b, Some node_o =>
      a ← read_dn_raw (ce_Ll clip) (ce_Hl clip) w node_a;
      b ← read_dn_raw (ce_Ll clip) (ce_Hl clip) w node_b;
      let out := if bool_decide (a = b) then true_state else false_state in
      '(rt, w') ← flag_output (ce_Ll clip) (ce_Hl clip) w node_o out (ce_last_out clip);
      Some (rt, mk_case_eq (ce_Ll clip) (ce_Hl clip) out, w')
  | _, _, _ => Some (no_drive, clip, w)
  end.

Definition IS_UNKNOWN_set_attribute_define (clip : IS_UNKNOWN) (n : nat) (vi : variant) : bool * IS_UNKNOWN :=
  match n with
  | 0 => with_d vi clip (fun x => mk_is_unknown x (iu_Hl clip) (iu_last_out clip))
  | 1 => with_d vi clip (fun x => mk_is_unknown (iu_Ll clip) x (iu_last_out clip))
  | _ => (false, clip)
  end.

Definition IS_UNKNOWN_get_attribute_define (clip : IS_UNKNOWN) (n : nat) : variant :=
  match n with 0 => v_d (iu_Ll clip) | 1 => v_d (iu_Hl clip) | _ => v_invalid end.

Definition CASE_EQ_set_attribute_define (clip : CASE_EQ) (n : nat) (vi : variant) : bool * CASE_EQ :=
  match n with
  | 0 => with_d vi clip (fun x => mk_case_eq x (ce_Hl clip) (ce_last_out clip))
  | 1 => with_d vi clip (fun x => mk_case_eq (ce_Ll clip) x (ce_last_out clip))
  | _ => (false, clip)
  end.

Definition CASE_EQ_get_attribute_define (clip : CASE_EQ) (n : nat) : variant :=
  match n with 0 => v_d (ce_Ll clip) | 1 => v_d (ce_Hl clip) | _ => v_invalid end.

(** ** SCHMITT_TRIGGER *)

Definition decide_from_digital (st : dns) : dns :=
  match st with
  | false_state => false_state
  | true_state => true_state
  | _ => indeterminate_state
  end.

(** [last_out] after a voltage [v]. *)
Definition schmitt_analog (Vth_low Vth_high : double) (last_out : dns) (v : double) : dns :=
  match last_out with
  | false_state => if dge v Vth_high then true_state else last_out
  | true_state => if dle v Vth_low then false_state else last_out
  | _ => if dge v Vth_high then true_state else if dle v Vth_low then false_state else last_out
  end.

Definition schmitt_driven (inverted : bool) (last_out : dns) : dns :=
  if inverted then
    match last_out with false_state => true_state | true_state => false_state | s => s end
  else last_out.

Definition SCHMITT_TRIGGER_update_digital_clk_define (pins : list pin) (clip : SCHMITT_TRIGGER)
  (w : world) (tr_duration : double) (method : digital_update_method_t)
  : option (need_operate_analog_node_t * SCHMITT_TRIGGER * world) :=
  match pin_at pins 0, pin_at pins 1 with
  | Some n_i, Some n_o =>
      nd ← w_nodes w !! n_i;
      last_out ← (if is_analog nd then
                    schmitt_analog (sm_Vth_low clip) (sm_Vth_high clip) (sm_last_out clip) <$> an_real nd
                  else decide_from_digital <$> dn_state nd);
      let driven := schmitt_driven (sm_inverted clip) last_out in
      '(rt, w') ← flag_output (sm_Ll clip) (sm_Hl clip) w n_o driven (sm_last_driven clip);
      Some (rt, mk_schmitt (sm_Ll clip) (sm_Hl clip) (sm_Vth_low clip) (sm_Vth_high clip)
                  (sm_inverted clip) last_out driven, w')
  | _, _ => Some (no_drive, clip, w)
  end.

Definition SCHMITT_TRIGGER_set_attribute_define (clip : SCHMITT_TRIGGER) (n : nat) (vi : variant)
  : bool * SCHMITT_TRIGGER :=
  match n with
  | 0 => with_boolean vi clip (fun b => mk_schmitt (sm_Ll clip) (sm_Hl clip) (sm_Vth_low clip)
                                 (sm_Vth_high clip) b (sm_last_out clip) (sm_last_driven clip))
  | 1 => with_d vi clip (fun x => mk_schmitt (sm_Ll clip) (sm_Hl clip) x
                                 (sm_Vth_high clip) (sm_inverted clip) (sm_last_out clip) (sm_last_driven clip))
  | 2 => with_d vi clip (fun x => mk_schmitt (sm_Ll clip) (sm_Hl clip) (sm_Vth_low clip)
                                 x (sm_inverted clip) (sm_last_out clip) (sm_last_driven clip))
  | _ => (false, clip)
  end.

Definition SCHMITT_TRIGGER_get_attribute_define (clip : SCHMITT_TRIGGER) (n : nat) : variant :=
  match n with
  | 0 => v_boolean (sm_inverted clip)
  | 1 => v_d (sm_Vth_low clip)
  | 2 => v_d (sm_Vth_high clip)
  | 3 => v_digital (sm_last_out clip)
  | _ => v_invalid
  end.

Definition SCHMITT_TRIGGER_get_attribute_name_define (n : nat) : string :=
  match n with 0 => "inverted" | 1 => "Vth_low" | 2 => "Vth_high" | 3 => "out" | _ => "" end.

(** ** EIGHT_BIT_INPUT and EIGHT_BIT_DISPLAY *)

(** The sampling loop over pins 0..7, which carry bits 7..0; [v] and [um] are
    the value and the mask of unknown bits so far. *)
Fixpoint display_loop (Ll Hl : double) (pins : list pin) (w : world) (l : list nat) (v um : Z)
  : option (Z * Z) :=
  match l with
  | [] => Some (v, um)
  | pin :: l' =>
      st ← match pin_at pins pin with
           | None => Some indeterminate_state
           | Some n => read_dn Ll Hl w n
           end;
      let m := Z.shiftl 1 (Z.of_nat (7 - pin)) in
      match st with
      | false_state => display_loop Ll Hl pins w l' v um
      | true_state => display_loop Ll Hl pins w l' (Z.lor v m) um
      | _ => display_loop Ll Hl pins w l' v (Z.lor um m)
      end
  end.

Definition EIGHT_BIT_DISPLAY_update_digital_clk_define (pins : list pin) (clip : EIGHT_BIT_DISPLAY)
  (w : world) (tr_duration : double) (method : digital_update_method_t)
  : option (need_operate_analog_node_t * EIGHT_BIT_DISPLAY * world) :=
  '(v, um) ← display_loop (ed_Ll clip) (ed_Hl clip) pins w (seq 0 8) 0 0;
  Some (no_drive, mk_display (ed_Ll clip) (ed_Hl clip) v um, w).

Definition EIGHT_BIT_DISPLAY_set_attribute_define (clip : EIGHT_BIT_DISPLAY) (n : nat) (vi : variant)
  : bool * EIGHT_BIT_DISPLAY := (false, clip).

Definition EIGHT_BIT_DISPLAY_get_attribute_define (clip : EIGHT_BIT_DISPLAY) (n : nat) : variant :=
  match n with 0 => v_ui8 (ed_value clip) | 1 => v_ui8 (ed_unknown_mask clip) | _ => v_invalid end.

Definition EIGHT_BIT_DISPLAY_get_attribute_name_define (n : nat) : string :=
  match n with 0 => "value" | 1 => "unknown_mask" | _ => "" end.

(** The level of bit [bit] of [value]. *)
Definition bit_state (value : Z) (bit : nat) : dns :=
  if (Z.land (Z.shiftr value (Z.of_nat bit)) 1 =? 0)%Z then false_state else true_state.

(** The output loop over pins 0..7. *)
Fixpoint input8_loop (Ll Hl : double) (changed : bool) (value : Z) (pins : list pin)
  (l : list nat) (w : world) (analog_drive : need_operate_analog_node_t)
  : option (need_operate_analog_node_t * world) :=
  match l with
  | [] => Some (analog_drive, w)
  | pin :: l' =>
      match pin_at pins pin with
      | None => input8_loop Ll Hl changed value pins l' w analog_drive
      | Some n =>
          let out := bit_state value (7 - pin) in
          nd ← w_nodes w !! n;
          if is_analog nd then
            let drive := match need_to_operate_analog_node analog_drive with
                         | None => mk_drive (if bool_decide (out = true_state) then Hl else Ll) (Some n)
                         | Some _ => analog_drive
                         end in
            input8_loop Ll Hl changed value pins l' w drive
          else if changed then
            cur ← dn_state nd;
            if bool_decide (cur ≠ out) then
              w' ← set_state w n out;
              input8_loop Ll Hl changed value pins l' (table_insert w' n) analog_drive
            else input8_loop Ll Hl changed value pins l' w analog_drive
          else input8_loop Ll Hl changed value pins l' w analog_drive
      end
  end.

Definition EIGHT_BIT_INPUT_update_digital_clk_define (pins : list pin) (clip : EIGHT_BIT_INPUT)
  (w : world) (tr_duration : double) (method : digital_update_method_t)
  : option (need_operate_analog_node_t * EIGHT_BIT_INPUT * world) :=
  let changed := negb (ei_last_value clip =? ei_value clip)%Z in
  '(drive, w') ← input8_loop (ei_Ll clip) (ei_Hl clip) changed (ei_value clip) pins (seq 0 8) w no_drive;
  Some (drive, mk_input8 (ei_Ll clip) (ei_Hl clip) (ei_value clip) (ei_value clip), w').

Definition EIGHT_BIT_INPUT_set_attribute_define (clip : EIGHT_BIT_INPUT) (n : nat) (vi : variant)
  : bool * EIGHT_BIT_INPUT :=
  match n with
  | 0 => with_ui8 vi clip (fun z => mk_input8 (ei_Ll clip) (ei_Hl clip) (Z.land z 255) (ei_last_value clip))
  | _ => (false, clip)
  end.

Definition EIGHT_BIT_INPUT_get_attribute_define (clip : EIGHT_BIT_INPUT) (n : nat) : variant :=
  match n with 0 => v_ui8 (ei_value clip) | _ => v_invalid end.

Definition EIGHT_BIT_INPUT_get_attribute_name_define (n : nat) : string :=
  match n with 0 => "value" | _ => "" end.

(** ** The models implement the device interface *)

Definition input_eval (d : INPUT) (m : digital_update_method_t) (st : nat -> option dns) : INPUT * list act :=
  match st 0 with
  | Some _ =>
      (mk_input (in_Ll d) (in_Hl d) (in_outputA d) (in_outputA d),
       [Write 0 (in_outputA d) (bool_decide (in_last_outputA d ≠ in_outputA d))])
  | None => (d, [])
  end.

#[global] Instance input_device : DigitalDevice INPUT := {|
  update_digital_clk := INPUT_update_digital_clk_define;
  digital_update_method := fun _ => before_all_clk;
  num_pins := fun _ => 1
|}.

#[global, program] Instance input_spec : DeviceSpec INPUT := {|
  dev_eval := input_eval;
  dev_outs := fun _ => [0];
  dev_coh := fun d st => st 0 = None \/ st 0 = Some (in_last_outputA d);
  dev_prompt := fun _ => True
|}.
Next Obligation.
  intros pins d w t m Hd _ _. simpl. unfold INPUT_update_digital_clk_define, input_eval.
  digital_pin Hd 0; [|done]. rewrite gate_output_digital by done. simpl. by erewrite run_act_write.
Qed.
Next Obligation. done. Qed.
Next Obligation. intros d m st a. simpl. unfold input_eval. eval_cases st [0]; simpl; act_in; set_solver. Qed.
Next Obligation.
  intros d m st. simpl. unfold input_eval. eval_cases st [0]; simpl; repeat constructor; set_solver.
Qed.
Next Obligation. intros d m st st' Hi Ho. simpl in *. unfold input_eval. solve_local st st' Hi Ho [0]. Qed.
Next Obligation. intros d st st' Heq; simpl in *. by rewrite (Heq 0) by set_solver. Qed.
Next Obligation.
  intros d m st i s Hc; simpl in *. unfold input_eval.
  eval_cases st [0]; simpl; act_in. case_bool_decide as Hb; [done|].
  split; [done|]. right. destruct Hc as [Hc|Hc]; congruence.
Qed.
Next Obligation.
  intros d m st st' Hc Ha Ho. simpl in *. unfold input_eval in *.
  eval_cases st [0]; simpl in *.
  - destruct (Ha _ (list_elem_of_here _ _)); tauto.
  - rewrite Ho by (constructor || set_solver). tauto.
Qed.
Next Obligation.
  intros d m st Hc Hq. simpl in *. unfold input_eval in *. eval_cases st [0]; simpl in *; [|by split].
  split; [done|]. rewrite bool_decide_false by tauto.
  apply Forall_cons in Hq as [Hq _]. constructor; [|done]. simpl in *. tauto.
Qed.
Next Obligation. done. Qed.
Next Obligation.
  intros d st _. simpl. unfold input_eval. eval_cases st [0]; simpl; [|by split].
  split; [done|]. rewrite (bool_decide_false (in_outputA _ ≠ in_outputA _)) by tauto. apply Forall_singleton. split; [done|].
  eexists. split; [apply list_elem_of_here|done].
Qed.

Definition output_eval (d : OUTPUT) (m : digital_update_method_t) (st : nat -> option dns)
  : OUTPUT * list (nat * dns) :=
  match st 0 with
  | Some s => (mk_output (out_levels d) (mk_channel s (ch_USR (out_A d)) (ch_duration (out_A d))), [])
  | None => (d, [])
  end.

#[global] Instance output_device : DigitalDevice OUTPUT := {|
  update_digital_clk := OUTPUT_update_digital_clk_define;
  digital_update_method := fun _ => update_table;
  num_pins := fun _ => 1
|}.

Lemma pin_at_lt (pins : list pin) (i n : nat) : pin_at pins i = Some n -> i < length pins.
Proof.
  unfold pin_at. destruct (pins !! i) eqn:E; [|done]. intros _. by apply lookup_lt_Some in E.
Qed.

#[global, program] Instance output_spec : DeviceSpec OUTPUT := register_spec output_eval [] _ _ _ _ _ _.
Next Obligation.
  intros pins d w t m Hd (i & n & Hi) Hlen. simpl in *.
  pose proof (pin_at_lt _ _ _ Hi). assert (i = 0) as -> by lia.
  unfold OUTPUT_update_digital_clk_define, output_eval.
  digital_pin Hd 0; [|done]. simpl. by erewrite sample_digital.
Qed.
Next Obligation. done. Qed.
Next Obligation. intros d m st i s. unfold output_eval. eval_cases st [0]; set_solver. Qed.
Next Obligation.
  intros d m st. unfold output_eval. repeat case_match; repeat constructor; set_solver.
Qed.
Next Obligation. intros d m st st' Hi Ho. simpl in *. unfold output_eval. solve_local st st' Hi Ho (@nil nat). Qed.
Next Obligation. apply settle_idem. intros d m st. unfold output_eval. eval_cases st [0]; simpl; by rewrite ?Est. Qed.

Definition tri_out (i e : dns) : dns := if bool_decide (e = true_state) then i else high_impedence_state.

Definition tri_eval (d : TRI) (m : digital_update_method_t) (st : nat -> option dns) : TRI * list act :=
  match st 0, st 1, st 2 with
  | Some i, Some e, Some _ => (d, [Write 2 (tri_out i e) true])
  | _, _, _ => (d, [])
  end.

#[global] Instance tri_device : DigitalDevice TRI := {|
  update_digital_clk := TRI_update_digital_clk_define;
  digital_update_method := fun _ => update_table;
  num_pins := fun _ => 3
|}.

#[global, program] Instance tri_spec : DeviceSpec TRI := {|
  dev_eval := tri_eval;
  dev_outs := fun _ => [2];
  dev_coh := fun _ _ => True;
  dev_prompt := fun _ => False
|}.
Next Obligation.
  intros pins d w t m Hd _ _. simpl. unfold TRI_update_digital_clk_define, tri_eval.
  pins_all Hd [0; 1; 2] ltac:(done). simpl. erewrite run_act_write by done.
  unfold tri_enabled. destruct Hdig0 as (nd & Hn & Hnd). unfold state_at in Hst0. rewrite Hn in *. simpl in *.
  rewrite digital_not_analog, Hst0 by done. simpl.
  destruct Hdig1 as (nd1 & Hn1 & Hnd1). rewrite Hn1. simpl. rewrite digital_not_analog by done.
  unfold tri_out. case_bool_decide as He; simpl.
  - rewrite read_dn_raw_digital, Hst by done. simpl.
    by rewrite (set_state_some _ _ _ _ Hn1), (write_node_some _ _ _ _ Hn1).
  - by rewrite (set_state_some _ _ _ _ Hn1), (write_node_some _ _ _ _ Hn1).
Qed.
Next Obligation. intros d m st. simpl. unfold tri_eval. eval_cases st [0; 1; 2]; done. Qed.
Next Obligation. intros d m st a. simpl. unfold tri_eval. eval_cases st [0; 1; 2]; simpl; act_in; set_solver. Qed.
Next Obligation.
  intros d m st. simpl. unfold tri_eval. eval_cases st [0; 1; 2]; simpl; repeat constructor; set_solver.
Qed.
Next Obligation. intros d m st st' Hi Ho. simpl in *. unfold tri_eval. solve_local st st' Hi Ho [2]. Qed.
Next Obligation. done. Qed.
Next Obligation. intros d m st i s _. simpl. unfold tri_eval. eval_cases st [0; 1; 2]; simpl; act_in. Qed.
Next Obligation. done. Qed.
Next Obligation.
  intros d m st _. simpl. unfold tri_eval. eval_cases st [0; 1; 2]; simpl; rewrite ?Est, ?Est0, ?Est1; simpl; try done.
Qed.
Next Obligation. done. Qed.
Next Obligation. done. Qed.

(** *** The delay line *)

Lemma pipe_shift_spec (k : nat) (p : list dns) :
  k < length p -> pipe_shift k p = Some (take 1 p ++ take k p ++ drop (S k) p).
Proof.
  revert p. induction k as [|j IH]; intros p Hk.
  - simpl. by destruct p.
  - simpl pipe_shift. destruct (lookup_lt_is_Some_2 p j ltac:(lia)) as [v Hv]. rewrite Hv. simpl.
    rewrite IH by (rewrite length_insert; lia).
    rewrite !take_insert_ge by lia. f_equal. f_equal.
    rewrite (take_S_r p j v Hv), <- app_assoc. f_equal.
    rewrite (drop_S _ v (S j)) by (apply list_lookup_insert_eq; lia).
    simpl. f_equal. by rewrite drop_insert_lt by lia.
Qed.

Lemma pipe_shift_push (n : nat) (p : list dns) (x : dns) :
  length p = S n -> exists p1,
  (if bool_decide (1 < S n) then pipe_shift (S n - 1) p else Some p) = Some p1 /\
  <[0 := x]> p1 = x :: take n p.
Proof.
  intros Hlen. case_bool_decide as Hb.
  - replace (S n - 1) with n by lia. rewrite pipe_shift_spec by lia. eexists. split; [done|].
    rewrite (drop_ge p (S n)), app_nil_r by lia. by destruct p.
  - assert (n = 0) as -> by lia. exists p. split; [done|].
    destruct p as [|y [|]]; try done.
Qed.

(** The register contents the shift starts from. *)
Definition delay_pipe (d : TICK_DELAY) (inp : dns) : list dns * dns :=
  if bool_decide (length (td_pipe d) ≠ td_ticks d) then (replicate (td_ticks d) inp, indeterminate_state)
  else (td_pipe d, td_last_out d).

Definition delay_eval (d : TICK_DELAY) (m : digital_update_method_t) (st : nat -> option dns)
  : TICK_DELAY * list act :=
  match m, st 1 with
  | before_all_clk, Some _ =>
      let inp := default indeterminate_state (st 0) in
      match td_ticks d with
      | 0 => (mk_delay (td_Ll d) (td_Hl d) 0 (td_pipe d) inp, [Write 1 inp (bool_decide (td_last_out d ≠ inp))])
      | S n =>
          let pl := delay_pipe d inp in
          let out := default indeterminate_state (pl.1 !! n) in
          (mk_delay (td_Ll d) (td_Hl d) (S n) (inp :: take n pl.1) out, [Write 1 out (bool_decide (pl.2 ≠ out))])
      end
  | _, _ => (d, [])
  end.

#[global] Instance delay_device : DigitalDevice TICK_DELAY := {|
  update_digital_clk := TICK_DELAY_update_digital_clk_define;
  digital_update_method := fun _ => before_all_clk;
  num_pins := fun _ => 2
|}.

Lemma delay_output_digital (d : TICK_DELAY) (pins : list pin) (w : world) (i n : nat) (s : dns) :
  pin_at pins i = Some n -> digital_at w n ->
  delay_output d w n s =
  Some (no_drive, mk_delay (td_Ll d) (td_Hl d) (td_ticks d) (td_pipe d) s,
        run_acts pins w [Write i s (bool_decide (td_last_out d ≠ s))]).
Proof.
  intros Hp (nd & Hn & Hd). unfold delay_output. rewrite Hn. simpl. rewrite digital_not_analog by done.
  rewrite (set_state_some _ _ _ _ Hn). simpl. rewrite (run_act_write _ _ _ _ _ _ Hp).
  rewrite (write_node_some _ _ _ _ Hn). case_bool_decide as Hb; [done|].
  destruct d; simpl in *. assert (td_last_out0 = s) as -> by (destruct (decide (td_last_out0 = s)); tauto). done.
Qed.

Lemma delay_pipe_length (d : TICK_DELAY) (inp : dns) : length (delay_pipe d inp).1 = td_ticks d.
Proof. unfold delay_pipe. case_bool_decide; simpl; [apply length_replicate|]. lia. Qed.

#[global, program] Instance delay_spec : DeviceSpec TICK_DELAY := {|
  dev_eval := delay_eval;
  dev_outs := fun _ => [1];
  dev_coh := fun d st => (st 1 = None \/ st 1 = Some (td_last_out d)) /\
    (length (td_pipe d) = td_ticks d \/ td_ticks d = 0 \/ td_last_out d = indeterminate_state);
  dev_prompt := fun _ => True
|}.
Next Obligation.
  intros pins d w t m Hd _ _. simpl. unfold TICK_DELAY_update_digital_clk_define, delay_eval.
  destruct m; [done| |done]. rewrite bool_decide_false by tauto.
  digital_pin Hd 1; [|done].
  set (inp := default indeterminate_state (pin_states pins w 0)).
  replace (match pin_at pins 0 with None => _ | Some _ => _ end) with (Some inp).
  2:{ subst inp. digital_pin Hd 0; [|done]. by rewrite read_dn_raw_digital. }
  cbn [mbind option_bind]. destruct (td_ticks d) as [|k] eqn:Et.
  - rewrite bool_decide_true by done. erewrite delay_output_digital by eassumption. by rewrite Et.
  - rewrite bool_decide_false by done. pose proof (delay_pipe_length d inp) as Hl. unfold delay_pipe in *.
    rewrite Et in *. destruct (if bool_decide _ then _ else _) as [pipe lo]. simpl in Hl.
    destruct (lookup_lt_is_Some_2 pipe k ltac:(lia)) as [out Ho].
    replace (S k - 1) with k by lia. rewrite Ho. cbn [mbind option_bind].
    destruct (pipe_shift_push k pipe inp Hl) as (p1 & Hp1 & Hp). replace (S k - 1) with k in Hp1 by lia.
    rewrite Hp1. cbn [mbind option_bind]. rewrite Hp.
    erewrite delay_output_digital by eassumption. simpl. by rewrite Ho.
Qed.
Next Obligation. done. Qed.
Next Obligation.
  intros d m st a. simpl. unfold delay_eval. destruct m; try set_solver.
  eval_cases st [1]; [|set_solver]. destruct (td_ticks d); simpl; act_in; set_solver.
Qed.
Next Obligation.
  intros d m st. simpl. unfold delay_eval. destruct m; try constructor.
  eval_cases st [1]; [|constructor]. destruct (td_ticks d); simpl; repeat constructor; set_solver.
Qed.
Next Obligation.
  intros d m st st' Hi Ho. simpl in *. unfold delay_eval. solve_local st st' Hi Ho [1].
Qed.
Next Obligation. intros d st st' Heq; simpl in *. by rewrite (Heq 1) by set_solver. Qed.
Next Obligation.
  intros d m st i s [Hc Hp]; simpl in *. unfold delay_eval. destruct m; try set_solver.
  eval_cases st [1]; [|set_solver]. destruct (td_ticks d) as [|n] eqn:Et; simpl; act_in;
    case_bool_decide as Hb; try done; (split; [done|]); right.
  - destruct Hc as [Hc|Hc]; congruence.
  - unfold delay_pipe in *. rewrite Et in *. case_bool_decide as Hl; simpl in *; [|destruct Hc; congruence].
    assert (td_last_out d = indeterminate_state) by (destruct Hp as [|[|]]; [tauto|lia|done]).
    destruct Hc as [Hc|Hc]; [done|].
    congruence.
Qed.
Next Obligation.
  intros d m st st' [Hc Hp] Ha Ho. simpl in *. unfold delay_eval in *.
  assert (Hkeep : st' 1 = st 1 -> (st' 1 = None \/ st' 1 = Some (td_last_out d)) /\
    (length (td_pipe d) = td_ticks d \/ td_ticks d = 0 \/ td_last_out d = indeterminate_state))
    by (intros ->; by split).
  destruct m; try (apply Hkeep, Ho; [set_solver|constructor]).
  destruct (st 1) eqn:Est; [|apply Hkeep; rewrite Ho; [done|set_solver|constructor]].
  destruct (td_ticks d) as [|n] eqn:Et; simpl in *.
  - destruct (Ha _ (list_elem_of_here _ _)); tauto.
  - split; [destruct (Ha _ (list_elem_of_here _ _)); tauto|]. left.
    rewrite length_take, delay_pipe_length, Et. lia.
Qed.
Next Obligation. intros d m st Hc Hq d'. split; [done|constructor]. Qed.
Next Obligation. done. Qed.
Next Obligation. intros d st _. split; [done|constructor]. Qed.

(** *** Wires, comparators and displays *)

Lemma flag_output_put (Ll Hl : double) (pins : list pin) (w : world) (i n : nat) (s last : dns) :
  pin_at pins i = Some n -> digital_at w n ->
  flag_output Ll Hl w n s last = Some (no_drive, run_acts pins w (puts [(i, s)])).
Proof.
  intros Hp Hd. unfold flag_output. pose proof Hd as (nd & Hn & Hnd). rewrite Hn. simpl.
  rewrite digital_not_analog by done. by apply reg_output_put.
Qed.

Definition resolve2_eval (d : RESOLVE2) (m : digital_update_method_t) (st : nat -> option dns)
  : RESOLVE2 * list (nat * dns) :=
  match st 0, st 1, st 2 with
  | Some a, Some b, Some _ => (d, [(2, resolve a b)])
  | _, _, _ => (d, [])
  end.

Definition is_unknown_eval (d : IS_UNKNOWN) (m : digital_update_method_t) (st : nat -> option dns)
  : IS_UNKNOWN * list (nat * dns) :=
  match st 0, st 1 with
  | Some a, Some _ =>
      let out := if bool_decide (a = indeterminate_state) || bool_decide (a = high_impedence_state)
                 then true_state else false_state in
      (mk_is_unknown (iu_Ll d) (iu_Hl d) out, [(1, out)])
  | _, _ => (d, [])
  end.

Definition case_eq_eval (d : CASE_EQ) (m : digital_update_method_t) (st : nat -> option dns)
  : CASE_EQ * list (nat * dns) :=
  match st 0, st 1, st 2 with
  | Some a, Some b, Some _ =>
      let out := if bool_decide (a = b) then true_state else false_state in
      (mk_case_eq (ce_Ll d) (ce_Hl d) out, [(2, out)])
  | _, _, _ => (d, [])
  end.

Definition schmitt_eval (d : SCHMITT_TRIGGER) (m : digital_update_method_t) (st : nat -> option dns)
  : SCHMITT_TRIGGER * list (nat * dns) :=
  match st 0, st 1 with
  | Some a, Some _ =>
      let lo := decide_from_digital a in
      let driven := schmitt_driven (sm_inverted d) lo in
      (mk_schmitt (sm_Ll d) (sm_Hl d) (sm_Vth_low d) (sm_Vth_high d) (sm_inverted d) lo driven,
       [(1, driven)])
  | _, _ => (d, [])
  end.

(** The value and the unknown mask of the states on pins [l]. *)
Fixpoint display_value (st : nat -> option dns) (l : list nat) (v um : Z) : Z * Z :=
  match l with
  | [] => (v, um)
  | pin :: l' =>
      let m := Z.shiftl 1 (Z.of_nat (7 - pin)) in
      match st pin with
      | Some false_state => display_value st l' v um
      | Some true_state => display_value st l' (Z.lor v m) um
      | _ => display_value st l' v (Z.lor um m)
      end
  end.

Definition display_eval (d : EIGHT_BIT_DISPLAY) (m : digital_update_method_t) (st : nat -> option dns)
  : EIGHT_BIT_DISPLAY * list (nat * dns) :=
  let r := display_value st (seq 0 8) 0 0 in
  (mk_display (ed_Ll d) (ed_Hl d) r.1 r.2, []).

Definition bit_puts (value : Z) (l : list nat) : list (nat * dns) :=
  (fun p => (p, bit_state value (7 - p))) <$> l.

Definition input8_eval (d : EIGHT_BIT_INPUT) (m : digital_update_method_t) (st : nat -> option dns)
  : EIGHT_BIT_INPUT * list (nat * dns) :=
  (mk_input8 (ei_Ll d) (ei_Hl d) (ei_value d) (ei_value d),
   if (ei_last_value d =? ei_value d)%Z then [] else bit_puts (ei_value d) (seq 0 8)).

#[global] Instance resolve2_device : DigitalDevice RESOLVE2 := {|
  update_digital_clk := RESOLVE2_update_digital_clk_define;
  digital_update_method := fun _ => update_table;
  num_pins := fun _ => 3
|}.
#[global] Instance is_unknown_device : DigitalDevice IS_UNKNOWN := {|
  update_digital_clk := IS_UNKNOWN_update_digital_clk_define;
  digital_update_method := fun _ => update_table;
  num_pins := fun _ => 2
|}.
#[global] Instance case_eq_device : DigitalDevice CASE_EQ := {|
  update_digital_clk := CASE_EQ_update_digital_clk_define;
  digital_update_method := fun _ => update_table;
  num_pins := fun _ => 3
|}.
#[global] Instance schmitt_device : DigitalDevice SCHMITT_TRIGGER := {|
  update_digital_clk := SCHMITT_TRIGGER_update_digital_clk_define;
  digital_update_method := fun _ => update_table;
  num_pins := fun _ => 2
|}.
#[global] Instance display_device : DigitalDevice EIGHT_BIT_DISPLAY := {|
  update_digital_clk := EIGHT_BIT_DISPLAY_update_digital_clk_define;
  digital_update_method := fun _ => update_table;
  num_pins := fun _ => 8
|}.
#[global] Instance input8_device : DigitalDevice EIGHT_BIT_INPUT := {|
  update_digital_clk := EIGHT_BIT_INPUT_update_digital_clk_define;
  digital_update_method := fun _ => before_all_clk;
  num_pins := fun _ => 8
|}.

#[global, program] Instance resolve2_spec : DeviceSpec RESOLVE2 := register_spec resolve2_eval [2] _ _ _ _ _ _.
Next Obligation.
  intros pins d w t m Hd _ _. simpl. unfold RESOLVE2_update_digital_clk_define, resolve2_eval.
  pins_all Hd [0; 1; 2] ltac:(done). rewrite !read_dn_raw_digital, Hst, Hst0 by done. simpl.
  by erewrite reg_output_put by eassumption.
Qed.
Next Obligation. done. Qed.
Next Obligation. intros d m st i s. unfold resolve2_eval. repeat case_match; set_solver. Qed.
Next Obligation.
  intros d m st. unfold resolve2_eval. repeat case_match; repeat constructor; set_solver.
Qed.
Next Obligation. intros d m st st' Hi Ho. simpl in *. unfold resolve2_eval. solve_local st st' Hi Ho [2]. Qed.
Next Obligation.
  apply settle_idem. intros d m st. unfold resolve2_eval.
  eval_all st [0; 1; 2] ltac:(simpl; repeat case_match; congruence). done.
Qed.

#[global, program] Instance is_unknown_spec : DeviceSpec IS_UNKNOWN := register_spec is_unknown_eval [1] _ _ _ _ _ _.
Next Obligation.
  intros pins d w t m Hd _ _. simpl. unfold IS_UNKNOWN_update_digital_clk_define, is_unknown_eval.
  pins_all Hd [0; 1] ltac:(done). rewrite !read_dn_raw_digital, Hst by done. simpl.
  by erewrite flag_output_put by eassumption.
Qed.
Next Obligation. done. Qed.
Next Obligation. intros d m st i s. unfold is_unknown_eval. repeat case_match; set_solver. Qed.
Next Obligation.
  intros d m st. unfold is_unknown_eval. repeat case_match; repeat constructor; set_solver.
Qed.
Next Obligation. intros d m st st' Hi Ho. simpl in *. unfold is_unknown_eval. solve_local st st' Hi Ho [1]. Qed.
Next Obligation.
  apply settle_idem. intros d m st. unfold is_unknown_eval.
  eval_all st [0; 1] ltac:(simpl; repeat case_match; congruence). done.
Qed.

#[global, program] Instance case_eq_spec : DeviceSpec CASE_EQ := register_spec case_eq_eval [2] _ _ _ _ _ _.
Next Obligation.
  intros pins d w t m Hd _ _. simpl. unfold CASE_EQ_update_digital_clk_define, case_eq_eval.
  pins_all Hd [0; 1; 2] ltac:(done). rewrite !read_dn_raw_digital, Hst, Hst0 by done. simpl.
  by erewrite flag_output_put by eassumption.
Qed.
Next Obligation. done. Qed.
Next Obligation. intros d m st i s. unfold case_eq_eval. repeat case_match; set_solver. Qed.
Next Obligation.
  intros d m st. unfold case_eq_eval. repeat case_match; repeat constructor; set_solver.
Qed.
Next Obligation. intros d m st st' Hi Ho. simpl in *. unfold case_eq_eval. solve_local st st' Hi Ho [2]. Qed.
Next Obligation.
  apply settle_idem. intros d m st. unfold case_eq_eval.
  eval_all st [0; 1; 2] ltac:(simpl; repeat case_match; congruence). done.
Qed.

#[global, program] Instance schmitt_spec : DeviceSpec SCHMITT_TRIGGER := register_spec schmitt_eval [1] _ _ _ _ _ _.
Next Obligation.
  intros pins d w t m Hd _ _. simpl. unfold SCHMITT_TRIGGER_update_digital_clk_define, schmitt_eval.
  pins_all Hd [0; 1] ltac:(done). destruct Hdig as (nd & Hn & Hnd). unfold state_at in Hst.
  rewrite Hn in *. simpl in *. rewrite digital_not_analog, Hst by done. simpl.
  by erewrite flag_output_put by eassumption.
Qed.
Next Obligation. done. Qed.
Next Obligation. intros d m st i s. unfold schmitt_eval. repeat case_match; set_solver. Qed.
Next Obligation.
  intros d m st. unfold schmitt_eval. repeat case_match; repeat constructor; set_solver.
Qed.
Next Obligation. intros d m st st' Hi Ho. simpl in *. unfold schmitt_eval. solve_local st st' Hi Ho [1]. Qed.
Next Obligation.
  apply settle_idem. intros d m st. unfold schmitt_eval.
  eval_all st [0; 1] ltac:(simpl; repeat case_match; congruence). done.
Qed.

Lemma display_loop_digital (Ll Hl : double) (pins : list pin) (w : world) (l : list nat) (v um : Z) :
  digital_pins pins w ->
  display_loop Ll Hl pins w l v um = Some (display_value (pin_states pins w) l v um).
Proof.
  intros Hd. revert v um. induction l as [|p l IH]; intros v um; [done|]. simpl.
  digital_pin Hd p; [|apply IH]. rewrite read_dn_digital, Hst by done. simpl. destruct s; apply IH.
Qed.

Lemma display_value_local (st st' : nat -> option dns) (l : list nat) (v um : Z) :
  (forall i, i ∈ l -> st i = st' i) -> display_value st l v um = display_value st' l v um.
Proof.
  revert v um. induction l as [|p l IH]; intros v um Heq; [done|]. simpl. rewrite (Heq p) by set_solver.
  assert (forall i, i ∈ l -> st i = st' i) by set_solver.
  destruct (st' p) as [[]|]; by apply IH.
Qed.

#[global, program] Instance display_spec : DeviceSpec EIGHT_BIT_DISPLAY := register_spec display_eval [] _ _ _ _ _ _.
Next Obligation.
  intros pins d w t m Hd _ _. unfold update_digital_clk, display_device,
    EIGHT_BIT_DISPLAY_update_digital_clk_define. rewrite display_loop_digital by done.
  unfold display_eval. by destruct (display_value _ _ _ _).
Qed.
Next Obligation. done. Qed.
Next Obligation. intros d m st i s. unfold display_eval. set_solver. Qed.
Next Obligation.
  intros d m st. constructor.
Qed.
Next Obligation.
  intros d m st st' Hi _. unfold display_eval. rewrite (display_value_local st st'); [done|].
  intros i Hin. apply Hi; [|set_solver]. apply elem_of_seq in Hin. simpl. lia.
Qed.
Next Obligation. by apply settle_idem. Qed.

Lemma input8_loop_digital (Ll Hl : double) (ch : bool) (v : Z) (pins : list pin) (l : list nat) (w : world) :
  digital_pins pins w ->
  input8_loop Ll Hl ch v pins l w no_drive =
  Some (no_drive, run_acts pins w (puts (if ch then bit_puts v l else []))).
Proof.
  revert w. induction l as [|p l IH]; intros w Hd; [by destruct ch|].
  cbn [input8_loop]. destruct (pin_at pins p) as [n|] eqn:E.
  2:{ rewrite IH by done. destruct ch; [|done]. simpl. by rewrite run_act_unconnected. }
  destruct (Hd _ _ E) as (nd & Hn & Hnd). rewrite Hn. cbn [mbind option_bind].
  rewrite digital_not_analog by done. destruct ch; [|by rewrite IH].
  destruct Hnd as (Hz & s0 & Hs0).
  assert (Hdn : dn_state nd = Some s0) by (unfold dn_state; by rewrite Hs0).
  assert (Hst : state_at w n = Some s0) by (unfold state_at; rewrite Hn; exact Hdn).
  cbn [bit_puts puts fmap list_fmap run_acts foldl fst snd]. rewrite (run_act_put _ _ _ _ _ E).
  rewrite Hdn, Hst. cbn [mbind option_bind].
  destruct (decide (s0 = bit_state v (7 - p))) as [->|Hne].
  - rewrite (bool_decide_false (_ ≠ _)) by tauto. rewrite decide_True by done. by apply IH.
  - rewrite bool_decide_true by done. rewrite decide_False by congruence.
    rewrite (set_state_some _ _ _ _ Hn). cbn [mbind option_bind].
    rewrite <- (write_node_some _ _ _ _ Hn). apply IH.
    eapply digital_pins_wstep; [|exact Hd].
    by apply (write_announce_wstep {[n]}); [eapply Hd|set_solver].
Qed.

#[global, program] Instance input8_spec : DeviceSpec EIGHT_BIT_INPUT :=
  register_spec input8_eval (seq 0 8) _ _ _ _ _ _.
Next Obligation.
  intros pins d w t m Hd _ _. unfold update_digital_clk, input8_device,
    EIGHT_BIT_INPUT_update_digital_clk_define. rewrite input8_loop_digital by done.
  unfold input8_eval. cbn [mbind option_bind fst snd]. by destruct (Z.eqb _ _).
Qed.
Next Obligation. done. Qed.
Next Obligation.
  intros d m st i s. unfold input8_eval. case_match; [set_solver|].
  intros (p & Heq & Hp)%list_elem_of_fmap. by simplify_eq.
Qed.
Next Obligation.
  intros d m st. unfold input8_eval. simpl snd. case_match; [constructor|]. change (NoDup (seq 0 8)). apply NoDup_seq.
Qed.
Next Obligation. done. Qed.
Next Obligation.
  intros d m st r r'. subst r r'. unfold input8_eval. simpl. rewrite Z.eqb_refl. split; [done|set_solver].
Qed.

(** ** Properties *)

Lemma input_update_result (d : INPUT) (w : world) (t : double) (m : digital_update_method_t) (n : nat) :
  digital_at w n ->
  INPUT_update_digital_clk_define (pins_to [Some n]) d w t m =
  Some (no_drive, mk_input (in_Ll d) (in_Hl d) (in_outputA d) (in_outputA d),
        if bool_decide (in_last_outputA d ≠ in_outputA d) then table_insert (write_node w n (in_outputA d)) n
        else write_node w n (in_outputA d)).
Proof.
  intros Hd. unfold INPUT_update_digital_clk_define. simpl. by rewrite gate_output_digital.
Qed.

(** A level set on an INPUT is the level an OUTPUT on the same digital node
    reports: for each of the four states, setting attribute 0 of the INPUT,
    updating it and then the OUTPUT, attribute 0 of the OUTPUT is that state;
    other attribute types and indices are refused and change nothing. *)
Lemma input_output_roundtrip (d : INPUT) (o : OUTPUT) (w : world) (t : double)
  (m1 m2 : digital_update_method_t) (n : nat) (s : dns) :
  digital_at w n ->
  exists d1 d2 w1 o1,
    INPUT_set_attribute_define d 0 (v_digital s) = (true, d1) /\
    INPUT_get_attribute_define d1 0 = v_digital s /\
    INPUT_update_digital_clk_define (pins_to [Some n]) d1 w t m1 = Some (no_drive, d2, w1) /\
    OUTPUT_update_digital_clk_define (pins_to [Some n]) o w1 t m2 = Some (no_drive, o1, w1) /\
    OUTPUT_get_attribute_define o1 0 = v_digital s /\
    (forall k vi, INPUT_set_attribute_define d k vi = (false, d) \/ (k = 0 /\ exists s', vi = v_digital s')).
Proof.
  intros Hd. set (d1 := mk_input (in_Ll d) (in_Hl d) s (in_last_outputA d)).
  pose proof (input_update_result d1 w t m1 n Hd) as Hu.
  assert (Hdw : digital_at (write_node w n s) n) by (by apply digital_write).
  assert (Hsw : state_at (write_node w n s) n = Some s) by (by rewrite state_at_write, decide_True).
  exists d1. do 3 eexists. split_and!; [done|done|exact Hu|..].
  - unfold OUTPUT_update_digital_clk_define. simpl.
    rewrite (sample_digital _ _ _ _ _ s); [reflexivity|..]; by destruct (bool_decide _).
  - done.
  - intros [|k] vi; [|by left]. destruct vi; simpl; eauto.
Qed.

Lemma input_output_roundtrip_witness :
  exists d1 d2 w1 o1,
    INPUT_set_attribute_define INPUT_init 0 (v_digital true_state) = (true, d1) /\
    INPUT_get_attribute_define d1 0 = v_digital true_state /\
    INPUT_update_digital_clk_define (pins_to [Some 0]) d1 (world_of [false_state]) d0 before_all_clk
      = Some (no_drive, d2, w1) /\
    OUTPUT_update_digital_clk_define (pins_to [Some 0]) OUTPUT_init w1 d0 update_table
      = Some (no_drive, o1, w1) /\
    OUTPUT_get_attribute_define o1 0 = v_digital true_state /\
    (forall k vi, INPUT_set_attribute_define INPUT_init k vi = (false, INPUT_init) \/
                  (k = 0 /\ exists s', vi = v_digital s')).
Proof.
  apply (input_output_roundtrip INPUT_init OUTPUT_init (world_of [false_state]) d0
           before_all_clk update_table 0 true_state).
  apply world_of_digital_at. simpl. lia.
Defined.

(** *** TICK_DELAY *)

(** One [before_all_clk] update per input, the input node driven first; the
    levels seen on the output node after each. *)
Fixpoint delay_stimulate (ni no : nat) (t : double) (ins : list dns) (d : TICK_DELAY) (w : world)
  : option (list dns) :=
  match ins with
  | [] => Some []
  | x :: ins' =>
      '(_, d', w') ← TICK_DELAY_update_digital_clk_define (pins_to [Some ni; Some no]) d
                       (write_node w ni x) t before_all_clk;
      o ← state_at w' no;
      os ← delay_stimulate ni no t ins' d' w';
      Some (o :: os)
  end.

Lemma delay_update_result (d : TICK_DELAY) (w : world) (t : double) (ni no : nat) (x : dns) (n : nat) :
  ni ≠ no -> digital_at w ni -> digital_at w no ->
  td_ticks d = S n ->
  let pl := delay_pipe d x in
  exists w' o,
    TICK_DELAY_update_digital_clk_define (pins_to [Some ni; Some no]) d (write_node w ni x) t before_all_clk
      = Some (no_drive, mk_delay (td_Ll d) (td_Hl d) (S n) (x :: take n pl.1) o, w') /\
    pl.1 !! n = Some o /\ state_at w' no = Some o /\ digital_at w' ni /\ digital_at w' no.
Proof.
  intros Hne Hi Ho Ht pl. set (pins := pins_to [Some ni; Some no]).
  set (w1 := write_node w ni x).
  assert (Hi1 : digital_at w1 ni) by (by apply digital_write).
  assert (Ho1 : digital_at w1 no) by (by apply digital_write).
  assert (Hd : digital_pins pins w1).
  { intros [|[|i]] k Hk; cbn in Hk; simplify_eq; done. }
  change (TICK_DELAY_update_digital_clk_define) with (update_digital_clk (D := TICK_DELAY)).
  rewrite (dev_refines pins d w1 t before_all_clk Hd); [|by exists 0, ni|done].
  assert (H0 : pin_states pins w1 0 = Some x).
  { unfold pin_states. simpl. unfold w1. by rewrite state_at_write, decide_True. }
  destruct (digital_at_state _ _ Ho1) as [so Hso].
  assert (H1 : pin_states pins w1 1 = Some so) by done.
  pose proof (delay_pipe_length d x) as Hl. rewrite Ht in Hl.
  destruct (lookup_lt_is_Some_2 (delay_pipe d x).1 n ltac:(lia)) as [o Hlo].
  do 2 eexists. unfold dev_eval, delay_spec, delay_eval. rewrite H0, H1, Ht. cbn [default fst snd].
  simpl default. fold pl in Hlo. fold pl. rewrite Hlo. cbn [default fst snd].
  split; [reflexivity|]. split; [done|].
  cbn [run_acts foldl]. rewrite (run_act_write pins w1 1 no o _ eq_refl).
  assert (Hwo : forall k, digital_at w1 k -> digital_at (write_node w1 no o) k) by (intros; by apply digital_write).
  assert (Hso' : state_at (write_node w1 no o) no = Some o) by (by rewrite state_at_write, decide_True).
  case_bool_decide; split_and!; try done; by apply Hwo.
Qed.

Lemma delay_run (ni no : nat) (t : double) (n : nat) (ins : list dns) (d : TICK_DELAY) (w : world) :
  ni ≠ no -> digital_at w ni -> digital_at w no ->
  td_ticks d = S n -> length (td_pipe d) = S n ->
  delay_stimulate ni no t ins d w = Some (take (length ins) (reverse (td_pipe d) ++ ins)).
Proof.
  intros Hne. revert d w. induction ins as [|x ins IH]; intros d w Hi Ho Ht Hp; [done|].
  destruct (delay_update_result d w t ni no x n Hne Hi Ho Ht) as (w' & o & Hu & Hlo & Hs & Hi' & Ho').
  cbn [delay_stimulate]. rewrite Hu. cbn [mbind option_bind]. rewrite Hs. cbn [mbind option_bind].
  assert (Hpl : delay_pipe d x = (td_pipe d, td_last_out d)).
  { unfold delay_pipe. by rewrite bool_decide_false by lia. }
  rewrite Hpl in *. cbn [fst] in *.
  assert (Hr : td_pipe d = take n (td_pipe d) ++ [o]).
  { rewrite <- (take_drop n (td_pipe d)) at 1. f_equal.
    rewrite (drop_S _ _ _ Hlo), drop_ge by lia. done. }
  rewrite IH; try done.
  - simpl. rewrite Hr at 2. rewrite reverse_app. simpl. f_equal. f_equal.
    by rewrite reverse_cons, <- app_assoc.
  - simpl. rewrite length_take. lia.
Qed.

(** TICK_DELAY is a delay line: started from a fresh model with a delay of
    [n + 1] ticks, for any sequence of inputs (one per tick) the updates
    complete, and the output at tick [i] is the input of tick [i - (n + 1)];
    before that it is the first input, with which the line is pre-filled. *)
Lemma tick_delay_line (ni no : nat) (t : double) (n : nat) (x : dns) (ins : list dns) (w : world) :
  ni ≠ no -> digital_at w ni -> digital_at w no ->
  delay_stimulate ni no t (x :: ins) (TICK_DELAY_init (S n)) w =
  Some (take (S (length ins)) (replicate (S n) x ++ x :: ins)).
Proof.
  intros Hne Hi Ho.
  destruct (delay_update_result (TICK_DELAY_init (S n)) w t ni no x n Hne Hi Ho eq_refl)
    as (w' & o & Hu & Hlo & Hs & Hi' & Ho').
  cbn [delay_stimulate]. rewrite Hu. cbn [mbind option_bind]. rewrite Hs. cbn [mbind option_bind].
  change (delay_pipe (TICK_DELAY_init (S n)) x).1 with (replicate (S n) x) in *.
  apply lookup_replicate in Hlo as [-> _].
  rewrite (delay_run ni no t n); try done.
  - cbn [td_pipe]. rewrite take_replicate, Nat.min_l by lia.
    change (x :: replicate n x) with (replicate (S n) x).
    cbn [mbind option_bind]. rewrite reverse_replicate. simpl. do 3 f_equal.
    clear. revert x ins. induction n as [|n IH]; intros x ins; [done|].
    simpl. by rewrite <- IH.
  - cbn [td_pipe length]. rewrite length_take, length_replicate. lia.
Qed.

Lemma tick_delay_line_witness :
  delay_stimulate 0 1 d0 [true_state; false_state; false_state; true_state] (TICK_DELAY_init 2)
    (world_of [false_state; false_state])
  = Some [true_state; true_state; true_state; false_state].
Proof.
  apply (tick_delay_line 0 1 d0 1 true_state [false_state; false_state; true_state]
           (world_of [false_state; false_state])); [done|..].
  - apply world_of_digital_at. simpl. lia.
  - apply world_of_digital_at. simpl. lia.
Defined.

(** *** SCHMITT_TRIGGER *)

(** Set the voltage of an analog node. *)
Definition set_voltage (w : world) (n : nat) (v : double) : world :=
  match w_nodes w !! n with
  | Some nd => mk_world (<[n := mk_node (an v d0) (node_pins nd) (num_of_analog_node nd) (node_index nd)]>
                           (w_nodes w)) (w_table w)
  | None => w
  end.

Fixpoint schmitt_stimulate (ni no : nat) (t : double) (vs : list double) (d : SCHMITT_TRIGGER) (w : world)
  : option (SCHMITT_TRIGGER * world) :=
  match vs with
  | [] => Some (d, w)
  | v :: vs' =>
      '(_, d', w') ← SCHMITT_TRIGGER_update_digital_clk_define (pins_to [Some ni; Some no]) d
                       (set_voltage w ni v) t update_table;
      schmitt_stimulate ni no t vs' d' w'
  end.

(** The side of the hysteresis window a voltage is on; [None] inside it. *)
Definition zone (low high v : double) : option bool :=
  if dge v high then Some true else if dle v low then Some false else None.

(** The level after a sequence of voltages: that of the last one outside the
    window. *)
Definition hysteresis (low high : double) (s : dns) (vs : list double) : dns :=
  match last (omap (zone low high) vs) with Some b => dns_of_bool b | None => s end.

Definition analog_at (w : world) (n : nat) : Prop :=
  exists nd, w_nodes w !! n = Some nd /\ is_analog nd = true.

Lemma schmitt_analog_zone (low high v : double) (s : dns) :
  ~ (dge v high = true /\ dle v low = true) ->
  schmitt_analog low high s v = hysteresis low high s [v].
Proof.
  intros Hv. unfold hysteresis, schmitt_analog, zone. simpl.
  destruct s, (dge v high), (dle v low); simpl; tauto.
Qed.

Lemma hysteresis_cons (low high v : double) (s : dns) (vs : list double) :
  hysteresis low high s (v :: vs) = hysteresis low high (hysteresis low high s [v]) vs.
Proof.
  unfold hysteresis. change (omap (zone low high) (v :: vs))
    with (match zone low high v with Some b => b :: omap (zone low high) vs | None => omap (zone low high) vs end).
  simpl. destruct (zone low high v) as [b|]; [|done]. simpl.
  rewrite last_cons. by destruct (last _).
Qed.

Lemma schmitt_update_result (d : SCHMITT_TRIGGER) (w : world) (t : double) (ni no : nat) (v : double) :
  ni ≠ no -> analog_at w ni -> digital_at w no ->
  let lo := schmitt_analog (sm_Vth_low d) (sm_Vth_high d) (sm_last_out d) v in
  exists w',
    SCHMITT_TRIGGER_update_digital_clk_define (pins_to [Some ni; Some no]) d (set_voltage w ni v) t update_table
      = Some (no_drive, mk_schmitt (sm_Ll d) (sm_Hl d) (sm_Vth_low d) (sm_Vth_high d) (sm_inverted d) lo
                          (schmitt_driven (sm_inverted d) lo), w') /\
    state_at w' no = Some (schmitt_driven (sm_inverted d) lo) /\ analog_at w' ni /\ digital_at w' no.
Proof.
  intros Hne (nd & Hn & Ha) Hdo lo.
  set (nd1 := mk_node (an v d0) (node_pins nd) (num_of_analog_node nd) (node_index nd)).
  assert (Hw1 : set_voltage w ni v = mk_world (<[ni := nd1]> (w_nodes w)) (w_table w)).
  { unfold set_voltage. by rewrite Hn. }
  rewrite Hw1. set (w1 := mk_world _ _).
  assert (Hd1 : digital_at w1 no).
  { destruct Hdo as (ndo & Ho & Hdo). exists ndo. split; [|done]. simpl. by rewrite lookup_insert_ne. }
  unfold SCHMITT_TRIGGER_update_digital_clk_define.
  assert (Hl1 : w_nodes w1 !! ni = Some nd1) by (simpl; by rewrite lookup_insert_eq).
  change (pin_at (pins_to [Some ni; Some no]) 0) with (Some ni).
  change (pin_at (pins_to [Some ni; Some no]) 1) with (Some no). cbv iota.
  rewrite Hl1. cbn [mbind option_bind].
  assert (Ha1 : is_analog nd1 = true) by done. rewrite Ha1.
  change (an_real nd1) with (Some v). cbn [fmap option_fmap option_map mbind option_bind]. fold lo.
  rewrite (flag_output_put _ _ (pins_to [Some ni; Some no]) w1 1 no); [|done|done].
  cbn [mbind option_bind]. eexists. split; [reflexivity|].
  cbn [puts fmap list_fmap run_acts foldl fst snd]. erewrite run_act_put by reflexivity.
  set (s := schmitt_driven (sm_inverted d) lo).
  split; [by apply put_result|].
  case_decide; (split; [|first [done | by apply digital_write]]).
  - by exists nd1.
  - exists nd1. split; [|done]. simpl. destruct Hd1 as (ndo & Ho & _).
    rewrite (write_node_some _ _ _ _ Ho). simpl. by rewrite lookup_insert_ne.
Qed.

(** SCHMITT_TRIGGER has hysteresis: for any sequence of voltages on an
    analog input (none of them on both sides of the window at once), the
    updates complete and the level ends at the side of the last voltage that
    was outside the window between the thresholds; voltages inside the window
    never change it.  The digital output node carries the level, inverted if
    the model is. *)
Lemma schmitt_hysteresis (ni no : nat) (t : double) (vs : list double) (d : SCHMITT_TRIGGER) (w : world) :
  ni ≠ no -> analog_at w ni -> digital_at w no ->
  Forall (fun v => ~ (dge v (sm_Vth_high d) = true /\ dle v (sm_Vth_low d) = true)) vs ->
  exists d' w',
    schmitt_stimulate ni no t vs d w = Some (d', w') /\
    sm_last_out d' = hysteresis (sm_Vth_low d) (sm_Vth_high d) (sm_last_out d) vs /\
    (vs ≠ [] -> state_at w' no = Some (schmitt_driven (sm_inverted d) (sm_last_out d'))).
Proof.
  intros Hne. revert d w. induction vs as [|v vs IH]; intros d w Hi Ho HF.
  { exists d, w. split_and!; done. }
  apply Forall_cons in HF as [Hv HF].
  destruct (schmitt_update_result d w t ni no v Hne Hi Ho) as (w1 & Hu & Hs & Hi1 & Ho1).
  cbn [schmitt_stimulate]. rewrite Hu. cbn [mbind option_bind].
  set (lo := schmitt_analog _ _ _ _) in *. set (d1 := mk_schmitt _ _ _ _ _ _ _).
  destruct (IH d1 w1 Hi1 Ho1 HF) as (d' & w' & Hr & Hl & Hout). exists d', w'. split; [done|].
  cbn [sm_Vth_low sm_Vth_high sm_last_out sm_inverted d1] in *. split.
  - rewrite Hl, hysteresis_cons. unfold lo. by rewrite schmitt_analog_zone.
  - intros _. destruct vs as [|v' vs]; [|by apply Hout].
    simpl in Hr. injection Hr as <- <-. done.
Qed.

Definition ex_schmitt_world : world :=
  mk_world {[0 := mk_node (an d0 d0) ∅ 1 0; 1 := mk_node (dn false_state) ∅ 0 SIZE_MAX]} (mk_table ∅ ∅).

(** 5 V, then a dip to 2 V that stays inside the window. *)
Definition d2 : double := S754_finite false 4503599627370496 (-51).

Lemma schmitt_hysteresis_witness :
  exists d' w',
    schmitt_stimulate 0 1 d0 [d5; d2] SCHMITT_TRIGGER_init ex_schmitt_world = Some (d', w') /\
    sm_last_out d' = true_state /\
    ([d5; d2] ≠ [] -> state_at w' 1 = Some (schmitt_driven false (sm_last_out d'))).
Proof.
  apply (schmitt_hysteresis 0 1 d0 [d5; d2] SCHMITT_TRIGGER_init ex_schmitt_world).
  - done.
  - eexists. split; [reflexivity|reflexivity].
  - eexists. split; [reflexivity|]. split; [reflexivity|by exists false_state].
  - constructor; [|constructor; [|constructor]]; vm_compute; intros [? ?]; congruence.
Defined.

(** *** EIGHT_BIT_INPUT and EIGHT_BIT_DISPLAY *)

Lemma display_of_bits (v : Z) :
  (0 <= v < 256)%Z -> display_value (fun i => Some (bit_state v (7 - i))) (seq 0 8) 0 0 = (v, 0%Z).
Proof.
  intros Hv. replace v with (Z.of_nat (Z.to_nat v)) by lia.
  assert (HF : Forall (fun k => display_value (fun i => Some (bit_state (Z.of_nat k) (7 - i))) (seq 0 8) 0 0
                                = (Z.of_nat k, 0%Z)) (seq 0 256)).
  { apply (bool_decide_unpack _). vm_compute. exact I. }
  apply (proj1 (Forall_forall _ _) HF), elem_of_seq. lia.
Qed.

(** A value on an EIGHT_BIT_INPUT is what an EIGHT_BIT_DISPLAY on the same
    eight digital nodes reads, with no unknown bit: for every byte that
    differs from the one the input drove last, updating the input and then
    the display, attribute 0 of the display is the byte and attribute 1 is 0. *)
Lemma eight_bit_roundtrip (ns : list nat) (d : EIGHT_BIT_INPUT) (e : EIGHT_BIT_DISPLAY) (w : world)
  (t : double) (m1 m2 : digital_update_method_t) (z : Z) :
  length ns = 8 -> NoDup ns -> digital_pins (pins_to (Some <$> ns)) w ->
  (0 <= z < 256)%Z -> ei_last_value d ≠ z ->
  exists d1 d2 w1 e1,
    EIGHT_BIT_INPUT_set_attribute_define d 0 (v_ui8 z) = (true, d1) /\
    EIGHT_BIT_INPUT_update_digital_clk_define (pins_to (Some <$> ns)) d1 w t m1 = Some (no_drive, d2, w1) /\
    EIGHT_BIT_DISPLAY_update_digital_clk_define (pins_to (Some <$> ns)) e w1 t m2 = Some (no_drive, e1, w1) /\
    EIGHT_BIT_DISPLAY_get_attribute_define e1 0 = v_ui8 z /\
    EIGHT_BIT_DISPLAY_get_attribute_define e1 1 = v_ui8 0.
Proof.
  intros Hlen Hnd Hd Hz Hlast. set (pins := pins_to (Some <$> ns)) in *.
  set (d1 := mk_input8 (ei_Ll d) (ei_Hl d) z (ei_last_value d)).
  assert (Hpin : forall i, pin_at pins i = ns !! i).
  { intros i. unfold pin_at, pins, pins_to. rewrite !list_lookup_fmap. by destruct (ns !! i). }
  set (w1 := run_acts pins w (puts (bit_puts z (seq 0 8)))).
  assert (Hd1 : digital_pins pins w1).
  { eapply digital_pins_wstep; [|exact Hd]. apply (puts_wstep _ _ _ (seq 0 8)); [done|].
    intros i s (p & Heq & Hp)%list_elem_of_fmap. by simplify_eq. }
  assert (Hst : forall i, i ∈ seq 0 8 -> pin_states pins w1 i = Some (bit_state z (7 - i))).
  { intros i Hi. pose proof Hi as Hi'. apply elem_of_seq in Hi'.
    destruct (lookup_lt_is_Some_2 ns i ltac:(lia)) as [n Hn].
    rewrite (pin_states_some pins w1 i n) by (by rewrite Hpin).
    assert (Hf : (bit_puts z (seq 0 8)).*1 = seq 0 8) by done.
    eapply (puts_result pins w); [done| | | |by rewrite Hpin]; rewrite ?Hf; [apply NoDup_seq| |].
    - intros i1 i2 n' _ _. rewrite !Hpin. intros H1 H2. by eapply NoDup_lookup.
    - apply list_elem_of_fmap. by exists i. }
  exists d1, (mk_input8 (ei_Ll d) (ei_Hl d) z z), w1,
    (mk_display (ed_Ll e) (ed_Hl e) z 0).
  split_and!; try done.
  - cbn [EIGHT_BIT_INPUT_set_attribute_define with_ui8]. unfold d1.
    change 255%Z with (Z.ones 8). rewrite Z.land_ones by lia. by rewrite Z.mod_small.
  - unfold EIGHT_BIT_INPUT_update_digital_clk_define. rewrite input8_loop_digital by done.
    cbn [mbind option_bind ei_last_value ei_value d1 ei_Ll ei_Hl].
    by rewrite (proj2 (Z.eqb_neq _ _) Hlast).
  - unfold EIGHT_BIT_DISPLAY_update_digital_clk_define. rewrite display_loop_digital by done.
    rewrite (display_value_local _ (fun i => Some (bit_state z (7 - i)))) by done.
    by rewrite display_of_bits.
Qed.

Definition ex_byte_world : world := world_of (replicate 8 indeterminate_state).

Lemma eight_bit_roundtrip_witness :
  exists d1 d2 w1 e1,
    EIGHT_BIT_INPUT_set_attribute_define EIGHT_BIT_INPUT_init 0 (v_ui8 165) = (true, d1) /\
    EIGHT_BIT_INPUT_update_digital_clk_define (pins_to (Some <$> seq 0 8)) d1 ex_byte_world d0 before_all_clk
      = Some (no_drive, d2, w1) /\
    EIGHT_BIT_DISPLAY_update_digital_clk_define (pins_to (Some <$> seq 0 8)) EIGHT_BIT_DISPLAY_init w1 d0
      update_table = Some (no_drive, e1, w1) /\
    EIGHT_BIT_DISPLAY_get_attribute_define e1 0 = v_ui8 165 /\
    EIGHT_BIT_DISPLAY_get_attribute_define e1 1 = v_ui8 0.
Proof.
  apply (eight_bit_roundtrip (seq 0 8) EIGHT_BIT_INPUT_init EIGHT_BIT_DISPLAY_init ex_byte_world d0
           before_all_clk update_table 165).
  - reflexivity.
  - apply NoDup_seq.
  - unfold ex_byte_world. solve_world_digital.
  - lia.
  - simpl. lia.
Defined.

(** The byte 255 never leaves a fresh EIGHT_BIT_INPUT: the remembered value
    starts at 255, so after setting the attribute to 255 the first and every
    later update writes and enqueues nothing on digital nodes, whatever the
    nodes hold. *)
Lemma eight_bit_input_255_not_driven (pins : list pin) (w : world) (t : double)
  (m : digital_update_method_t) :
  digital_pins pins w ->
  exists d1,
    EIGHT_BIT_INPUT_set_attribute_define EIGHT_BIT_INPUT_init 0 (v_ui8 255) = (true, d1) /\
    EIGHT_BIT_INPUT_update_digital_clk_define pins d1 w t m = Some (no_drive, d1, w).
Proof.
  intros Hd. eexists. split; [reflexivity|].
  unfold EIGHT_BIT_INPUT_update_digital_clk_define. rewrite input8_loop_digital by done. reflexivity.
Qed.

Lemma eight_bit_input_255_not_driven_witness :
  exists d1,
    EIGHT_BIT_INPUT_set_attribute_define EIGHT_BIT_INPUT_init 0 (v_ui8 255) = (true, d1) /\
    EIGHT_BIT_INPUT_update_digital_clk_define (pins_to (Some <$> seq 0 8)) d1 ex_byte_world d0 before_all_clk
      = Some (no_drive, d1, ex_byte_world).
Proof.
  apply (eight_bit_input_255_not_driven (pins_to (Some <$> seq 0 8)) ex_byte_world d0 before_all_clk).
  unfold ex_byte_world. solve_world_digital.
Defined.

(** *** Resolution and comparison *)

Lemma resolve_agrees (a b : dns) : resolve a b = resolve_net_drivers a b.
Proof. by destruct a, b. Qed.

(** RESOLVE2 joins two drivers as the Verilog simulator joins the drivers of
    a net, and CASE_EQ is exact identity of states: on digital nodes, after an
    update the RESOLVE2 output node holds [resolve_net_drivers] of the two
    inputs, and the CASE_EQ output node holds a known level, high exactly when
    the inputs are the same state, [X] and [Z] included. *)
Lemma resolve2_case_eq_correct (r : RESOLVE2) (e : CASE_EQ) (w : world) (t : double)
  (m : digital_update_method_t) (na nb no : nat) (a b : dns) :
  digital_pins (pins_to [Some na; Some nb; Some no]) w ->
  state_at w na = Some a -> state_at w nb = Some b ->
  (exists w', RESOLVE2_update_digital_clk_define (pins_to [Some na; Some nb; Some no]) r w t m
                = Some (no_drive, r, w') /\
              state_at w' no = Some (resolve_net_drivers a b)) /\
  (exists e' w' (q : bool), CASE_EQ_update_digital_clk_define (pins_to [Some na; Some nb; Some no]) e w t m
                = Some (no_drive, e', w') /\
              state_at w' no = Some (dns_of_bool q) /\ (q = true <-> a = b)).
Proof.
  intros Hd Ha Hb. set (pins := pins_to [Some na; Some nb; Some no]) in *.
  assert (Ho : digital_at w no) by (by apply (Hd 2)).
  assert (Hra : forall l h, read_dn_raw l h w na = Some a) by
    (intros; rewrite read_dn_raw_digital; [done|by apply (Hd 0)]).
  assert (Hrb : forall l h, read_dn_raw l h w nb = Some b) by
    (intros; rewrite read_dn_raw_digital; [done|by apply (Hd 1)]).
  split.
  - eexists. unfold RESOLVE2_update_digital_clk_define. cbn [pin_at].
    change (pin_at pins 0) with (Some na). change (pin_at pins 1) with (Some nb).
    change (pin_at pins 2) with (Some no). cbv iota. rewrite Hra, Hrb. cbn [mbind option_bind].
    rewrite reg_output_digital by done. cbn [mbind option_bind]. split; [reflexivity|].
    rewrite resolve_agrees. by apply put_result.
  - do 2 eexists. exists (bool_decide (a = b)). unfold CASE_EQ_update_digital_clk_define.
    change (pin_at pins 0) with (Some na). change (pin_at pins 1) with (Some nb).
    change (pin_at pins 2) with (Some no). cbv iota. rewrite Hra, Hrb. cbn [mbind option_bind].
    rewrite (flag_output_put _ _ pins w 2 no) by done. cbn [mbind option_bind]. split; [reflexivity|].
    cbn [puts fmap list_fmap run_acts foldl fst snd]. erewrite run_act_put by reflexivity.
    rewrite put_result by done. rewrite bool_decide_eq_true. by case_bool_decide.
Qed.

Lemma resolve2_case_eq_correct_witness :
  (exists w', RESOLVE2_update_digital_clk_define (pins_to [Some 0; Some 1; Some 2]) RESOLVE2_init
                (world_of [high_impedence_state; true_state; false_state]) d0 update_table
                = Some (no_drive, RESOLVE2_init, w') /\ state_at w' 2 = Some true_state) /\
  (exists e' w' (q : bool), CASE_EQ_update_digital_clk_define (pins_to [Some 0; Some 1; Some 2]) CASE_EQ_init
                (world_of [high_impedence_state; true_state; false_state]) d0 update_table
                = Some (no_drive, e', w') /\
              state_at w' 2 = Some (dns_of_bool q) /\ (q = true <-> high_impedence_state = true_state)).
Proof.
  apply (resolve2_case_eq_correct RESOLVE2_init CASE_EQ_init
           (world_of [high_impedence_state; true_state; false_state]) d0 update_table 0 1 2
           high_impedence_state true_state); try reflexivity.
  solve_world_digital.
Defined.
