(* ===== verification/Circuit.v ===== *)
(** * The digital event loop

    The part of [circult] (circuits/circuit.h) that drives digital models: the
    digital part of [prepare], [reset], and one tick [digital_clk], which is
    [before_digital_clk], [update_table_digital_clk] (a worklist over nodes
    with an iteration budget) and [after_table_digital_clk].

    Everything here is parametric in the digital models: it is proved against
    the interface [DeviceSpec].  Models of other device types take part in the
    netlist but are never updated by a tick.

    A model is named by the address of its implementation object, so that the
    address order of pins is the lexicographic order of model and pin index.
    [None] is undefined behaviour or [fast_terminate]. *)

From S2P Require Import Prelude Double Logic4 Node Device.
From Stdlib Require Import ZArith Lia.

(** ** Ordered iteration over sets of pointers *)

Definition pin_le (p q : nat * nat) : Prop := p.1 < q.1 \/ (p.1 = q.1 /\ p.2 <= q.2).

#[global] Instance pin_le_dec : RelDecision pin_le.
Proof. intros p q. unfold pin_le. apply _. Defined.

(** [for(auto p: node->pins)]: in address order. *)
Definition ordered_pins (s : gset (nat * nat)) : list (nat * nat) := merge_sort pin_le (elements s).

(** [*tables.begin()]: the lowest address. *)
Definition first_node (s : gset nat) : option nat := head (merge_sort le (elements s)).

Lemma elem_of_ordered_pins (s : gset (nat * nat)) (p : nat * nat) : p ∈ ordered_pins s <-> p ∈ s.
Proof. unfold ordered_pins. by rewrite merge_sort_Permutation, elem_of_elements. Qed.

Lemma first_node_elem (s : gset nat) (n : nat) : first_node s = Some n -> n ∈ s.
Proof.
  unfold first_node. intros H. apply elem_of_elements. rewrite <- (merge_sort_Permutation le).
  apply head_Some_elem_of in H. done.
Qed.

Lemma first_node_some (s : gset nat) : s ≠ ∅ -> exists n, first_node s = Some n.
Proof.
  intros Hs. unfold first_node. destruct (merge_sort le (elements s)) as [|n l] eqn:E; [|by exists n].
  exfalso. apply Hs, leibniz_equiv, elements_empty_inv, Permutation_nil_r.
  rewrite <- E. symmetry. apply merge_sort_Permutation.
Qed.

Section circuit.
Context {D : Type} `{DeviceSpec D}.

(** ** State *)

(** [mb_ptr] is [Some] for a model of device type [digital]. *)
Record model_base := mk_model { mb_pins : list pin; mb_ptr : option D }.

Record circult := mk_circult {
  nl_nodes : list nat;
  nl_models : list nat;
  c_models : gmap nat model_base;
  c_world : world;
  tr_duration : double;
  digital_out : list need_operate_analog_node_t;
  before_all_clk_digital_model : list nat;
  after_all_clk_digital_model : list nat;
  size_t_to_node_p : list nat;
  node_counter : Z;
  has_prepare : bool
}.

Definition with_model (c : circult) (mid : nat) (mb : model_base) (w : world)
  (out : list need_operate_analog_node_t) : circult :=
  mk_circult (nl_nodes c) (nl_models c) (<[mid := mb]> (c_models c)) w (tr_duration c) out
    (before_all_clk_digital_model c) (after_all_clk_digital_model c)
    (size_t_to_node_p c) (node_counter c) (has_prepare c).

Definition with_world (c : circult) (w : world) : circult :=
  mk_circult (nl_nodes c) (nl_models c) (c_models c) w (tr_duration c) (digital_out c)
    (before_all_clk_digital_model c) (after_all_clk_digital_model c)
    (size_t_to_node_p c) (node_counter c) (has_prepare c).

Definition with_out (c : circult) (out : list need_operate_analog_node_t) : circult :=
  mk_circult (nl_nodes c) (nl_models c) (c_models c) (c_world c) (tr_duration c) out
    (before_all_clk_digital_model c) (after_all_clk_digital_model c)
    (size_t_to_node_p c) (node_counter c) (has_prepare c).

Definition with_tables (w : world) (t : gset nat) : world :=
  mk_world (w_nodes w) (mk_table (always_tables (w_table w)) t).

(** ** One tick *)

(** [i->ptr->update_digital_clk(...)] and the collection of its drive. *)
Definition update_model (method : digital_update_method_t) (c : circult) (mid : nat) : option circult :=
  mb ← c_models c !! mid;
  d ← mb_ptr mb;
  '(rt, d', w') ← update_digital_clk (mb_pins mb) d (c_world c) (tr_duration c) method;
  let out := match need_to_operate_analog_node rt with
             | Some _ => digital_out c ++ [rt]
             | None => digital_out c
             end in
  Some (with_model c mid (mk_model (mb_pins mb) (Some d')) w' out).

Definition before_digital_clk (c : circult) : option circult :=
  fold_option (update_model before_all_clk) (before_all_clk_digital_model c) c.

(** The body of the loop over [node->pins]. *)
Definition visit_pin (c : circult) (p : nat * nat) : option circult :=
  owner ← c_models c !! p.1;
  pn ← mb_pins owner !! p.2;
  model ← pin_model pn;
  mb ← c_models c !! model;
  match mb_ptr mb with
  | Some _ => update_model update_table c model
  | None => Some c
  end.

Definition process_node (c : circult) (node : nat) : option circult :=
  nd ← w_nodes (c_world c) !! node;
  fold_option visit_pin (ordered_pins (node_pins nd)) c.

(** [while(!tables.empty()) { if(iter_budget-- == 0) break; ... }] *)
Fixpoint settle_loop (iter_budget : nat) (c : circult) : option circult :=
  match first_node (tables (w_table (c_world c))) with
  | None => Some c
  | Some node =>
      match iter_budget with
      | 0 => Some c
      | S b =>
          let c1 := with_world c (with_tables (c_world c) (tables (w_table (c_world c)) ∖ {[node]})) in
          c2 ← process_node c1 node;
          settle_loop b c2
      end
  end.

Definition iter_budget : nat := N.to_nat 10000000.

Lemma iter_budget_large : 1000 <= iter_budget.
Proof. unfold iter_budget. lia. Qed.

#[global] Opaque iter_budget.

Definition seed_tables (c : circult) : circult :=
  with_world c (with_tables (c_world c)
    (tables (w_table (c_world c)) ∪ always_tables (w_table (c_world c)))).

Definition update_table_digital_clk (c : circult) : option circult :=
  settle_loop iter_budget (seed_tables c).

Definition after_table_digital_clk (c : circult) : option circult :=
  fold_option (update_model after_all_clk) (after_all_clk_digital_model c) c.

Definition digital_clk (c : circult) : option circult :=
  c1 ← before_digital_clk (with_out c []);
  c2 ← update_table_digital_clk c1;
  after_table_digital_clk c2.

(** ** [prepare] (without the analog equation system) and [reset] *)

(** The first loop of [prepare] for one node. *)
Definition prepare_node (has_prep : bool) (acc : gmap nat node_t * gset nat * list nat * Z) (n : nat)
  : option (gmap nat node_t * gset nat * list nat * Z) :=
  let '(nodes, always, idx, counter) := acc in
  nd ← nodes !! n;
  if (num_of_analog_node nd =? 0)%Z then
    if bool_decide (node_pins nd = ∅) then Some (nodes, always, idx, counter)
    else if has_prep then Some (nodes, always, idx, counter)
    else Some (<[n := with_state nd indeterminate_state]> nodes, always, idx, counter)
  else
    let always' := if (num_of_analog_node nd =? Z.of_nat (size (node_pins nd)))%Z then always
                   else {[n]} ∪ always in
    let nd' := mk_node (node_information nd) (node_pins nd) (num_of_analog_node nd) counter in
    Some (<[n := nd']> nodes, always', idx ++ [n], (counter + 1)%Z).

(** The loop over models: pins point back to their model, and the models that
    run before or after the table are collected by the bits of their method. *)
Definition prepare_model (acc : gmap nat model_base * list nat * list nat) (mid : nat)
  : option (gmap nat model_base * list nat * list nat) :=
  let '(models, before, after) := acc in
  mb ← models !! mid;
  let mb' := mk_model ((fun p => mk_pin (pin_nodes p) (Some mid)) <$> mb_pins mb) (mb_ptr mb) in
  let models' := <[mid := mb']> models in
  match mb_ptr mb with
  | None => Some (models', before, after)
  | Some d =>
      let method := method_code (digital_update_method d) in
      if (N.land method (method_code before_all_clk) =? method_code before_all_clk)%N
      then Some (models', before ++ [mid], after)
      else if (N.land method (method_code after_all_clk) =? method_code after_all_clk)%N
      then Some (models', before, after ++ [mid])
      else Some (models', before, after)
  end.

Definition prepare (c : circult) : option circult :=
  '(nodes, always, idx, counter) ←
    fold_option (prepare_node (has_prepare c)) (nl_nodes c) (w_nodes (c_world c), ∅, [], 0%Z);
  '(models, before, after) ← fold_option prepare_model (nl_models c) (c_models c, [], []);
  Some (mk_circult (nl_nodes c) (nl_models c) models (mk_world nodes (mk_table always ∅))
          (tr_duration c) (digital_out c) before after idx counter true).

(** [i->node_information.an.voltage = {}] for every analog node. *)
Definition clear_voltage (nodes : gmap nat node_t) (n : nat) : option (gmap nat node_t) :=
  nd ← nodes !! n;
  Some (<[n := mk_node (an d0 d0) (node_pins nd) (num_of_analog_node nd) (node_index nd)]> nodes).

Definition reset (c : circult) : option circult :=
  nodes ← fold_option clear_voltage (size_t_to_node_p c) (w_nodes (c_world c));
  Some (mk_circult (nl_nodes c) (nl_models c) (c_models c) (mk_world nodes (mk_table ∅ ∅))
          d0 [] (before_all_clk_digital_model c) (after_all_clk_digital_model c) [] 0 false).

End circuit.
Arguments model_base : clear implicits.
Arguments circult : clear implicits.

Section theory.
Context {D : Type} `{DeviceSpec D}.
Implicit Types (c : circult D) (pins : list pin) (d : D) (mid n : nat).

(** ** Well-formed digital circuits *)

(** Pins and nodes point at each other, every connected node is digital, and
    every node has at most one driver. *)
Record wf c : Prop := {
  wf_pin mid mb i n :
    c_models c !! mid = Some mb -> pin_at (mb_pins mb) i = Some n ->
    exists nd, w_nodes (c_world c) !! n = Some nd /\ node_digital nd /\ (mid, i) ∈ node_pins nd;
  wf_back n nd p :
    w_nodes (c_world c) !! n = Some nd -> p ∈ node_pins nd ->
    exists mb pn, c_models c !! p.1 = Some mb /\ mb_pins mb !! p.2 = Some pn /\
                  pin_nodes pn = Some n /\ pin_model pn = Some p.1;
  wf_queue n :
    n ∈ tables (w_table (c_world c)) ∪ always_tables (w_table (c_world c)) ->
    is_Some (w_nodes (c_world c) !! n);
  wf_len mid pins d : c_models c !! mid = Some (mk_model pins (Some d)) -> length pins = num_pins d;
  wf_apart mid pins d : c_models c !! mid = Some (mk_model pins (Some d)) -> outs_apart pins d;
  wf_driver m1 pins1 d1 m2 pins2 d2 :
    m1 ≠ m2 -> c_models c !! m1 = Some (mk_model pins1 (Some d1)) ->
    c_models c !! m2 = Some (mk_model pins2 (Some d2)) ->
    out_nodes pins1 (dev_outs d1) ## out_nodes pins2 (dev_outs d2);
  wf_clocked mid :
    mid ∈ before_all_clk_digital_model c ++ after_all_clk_digital_model c ->
    exists pins d, c_models c !! mid = Some (mk_model pins (Some d)) /\ connected pins
}.

(** What every model remembers of its outputs is what the nodes hold. *)
Definition coherent c : Prop :=
  forall mid pins d, c_models c !! mid = Some (mk_model pins (Some d)) ->
  dev_coh d (pin_states pins (c_world c)).

(** One more update would change neither the model nor the world. *)
Definition at_rest pins d (w : world) : Prop :=
  (dev_eval d update_table (pin_states pins w)).1 = d /\
  quiet (pin_states pins w) (dev_eval d update_table (pin_states pins w)).2.

Definition rest c mid : Prop :=
  exists pins d, c_models c !! mid = Some (mk_model pins (Some d)) /\ at_rest pins d (c_world c).

(** A node of the model is in the queue. *)
Definition pending c mid : Prop :=
  exists pins d n, c_models c !! mid = Some (mk_model pins (Some d)) /\
    n ∈ pin_nodes_of pins /\ n ∈ tables (w_table (c_world c)).

(** No work of the model is lost. *)
Definition covered c mid : Prop := rest c mid \/ pending c mid.

Definition model_static (mb : model_base D) : list pin * bool :=
  (mb_pins mb, match mb_ptr mb with Some _ => true | None => false end).

(** A model changes only by updates. *)
Definition evolves : relation D := rtc (fun d d' => exists m st, d' = (dev_eval d m st).1).

Definition evolved (o o' : option (model_base D)) : Prop :=
  match o with
  | Some (mk_model pins (Some d)) => exists d', o' = Some (mk_model pins (Some d')) /\ evolves d d'
  | _ => o' = o
  end.

Lemma evolved_refl o : evolved o o.
Proof. destruct o as [[pins [d|]]|]; simpl; try done. by exists d. Qed.

Lemma evolved_trans o1 o2 o3 : evolved o1 o2 -> evolved o2 o3 -> evolved o1 o3.
Proof.
  destruct o1 as [[pins [d|]]|]; simpl; [|intros ->; done..].
  intros (d' & -> & H1) (d'' & -> & H2). exists d''. split; [done|]. by etrans.
Qed.

Lemma evolved_static o o' : evolved o o' -> model_static <$> o' = model_static <$> o.
Proof. destruct o as [[pins [d|]]|]; simpl; [intros (d' & -> & _)|intros ->..]; done. Qed.

(** How the steps of a tick change a circuit. *)
Record frame c c' : Prop := {
  fr_wf : wf c';
  fr_coh : coherent c';
  fr_out : digital_out c' = digital_out c;
  fr_before : before_all_clk_digital_model c' = before_all_clk_digital_model c;
  fr_after : after_all_clk_digital_model c' = after_all_clk_digital_model c;
  fr_evolved mid : evolved (c_models c !! mid) (c_models c' !! mid);
  fr_shape n : shape <$> w_nodes (c_world c') !! n = shape <$> w_nodes (c_world c) !! n;
  fr_grow : tables (w_table (c_world c)) ⊆ tables (w_table (c_world c'));
  fr_always : always_tables (w_table (c_world c')) = always_tables (w_table (c_world c));
  fr_covered mid : covered c mid -> covered c' mid
}.

Lemma frame_refl c : wf c -> coherent c -> frame c c.
Proof. intros. split; try done. intros. apply evolved_refl. Qed.

Lemma frame_trans c1 c2 c3 : frame c1 c2 -> frame c2 c3 -> frame c1 c3.
Proof.
  intros A B. split.
  - apply B.
  - apply B.
  - by rewrite (fr_out _ _ B), (fr_out _ _ A).
  - by rewrite (fr_before _ _ B), (fr_before _ _ A).
  - by rewrite (fr_after _ _ B), (fr_after _ _ A).
  - intros m. eapply evolved_trans; [apply A|apply B].
  - intros n. by rewrite (fr_shape _ _ B), (fr_shape _ _ A).
  - etrans; [apply A|apply B].
  - by rewrite (fr_always _ _ B), (fr_always _ _ A).
  - intros m Hm. by apply B, A.
Qed.

Lemma frame_model c c' mid pins d :
  frame c c' -> c_models c !! mid = Some (mk_model pins (Some d)) ->
  exists d', c_models c' !! mid = Some (mk_model pins (Some d')).
Proof.
  intros Hf Hm. pose proof (fr_evolved _ _ Hf mid) as Hs. rewrite Hm in Hs. simpl in Hs.
  destruct Hs as (d' & -> & _). by exists d'.
Qed.

Lemma wf_digital_pins c mid mb : wf c -> c_models c !! mid = Some mb -> digital_pins (mb_pins mb) (c_world c).
Proof.
  intros Hw Hm i n Hi. destruct (wf_pin _ Hw _ _ _ _ Hm Hi) as (nd & Hn & Hd & _). by exists nd.
Qed.

(** ** One update *)

Section update.
Variables (c : circult D) (method : digital_update_method_t) (mid : nat) (pins : list pin) (d : D).
Hypothesis Hwf : wf c.
Hypothesis Hcoh : coherent c.
Hypothesis Hm : c_models c !! mid = Some (mk_model pins (Some d)).
Hypothesis Hk : connected pins.

Let st := pin_states pins (c_world c).
Let d' : D := (dev_eval d method st).1.
Let acts : list act := (dev_eval d method st).2.
Let w' : world := run_acts pins (c_world c) acts.
Let c' : circult D := with_model c mid (mk_model pins (Some d')) w' (digital_out c).

Lemma update_digital : digital_pins pins (c_world c).
Proof. apply (wf_digital_pins c mid _ Hwf Hm). Qed.

Lemma update_model_eq : update_model method c mid = Some c'.
Proof.
  unfold update_model. rewrite Hm. simpl.
  rewrite dev_refines; [done|apply update_digital|done|by eapply wf_len].
Qed.

Lemma update_world : wstep (out_nodes pins (dev_outs d)) (c_world c) w'.
Proof. apply update_wstep; [apply update_digital|by eapply Hcoh]. Qed.

Lemma update_models m pins1 d1 :
  c_models c' !! m = Some (mk_model pins1 (Some d1)) ->
  (m = mid /\ pins1 = pins /\ d1 = d') \/
  (m ≠ mid /\ c_models c !! m = Some (mk_model pins1 (Some d1))).
Proof.
  simpl. destruct (decide (m = mid)) as [->|Hne].
  - rewrite lookup_insert_eq. intros ?. simplify_eq. by left.
  - rewrite lookup_insert_ne by done. by right.
Qed.

Lemma update_old_model m pins1 d1 :
  c_models c' !! m = Some (mk_model pins1 (Some d1)) ->
  exists d0, c_models c !! m = Some (mk_model pins1 (Some d0)) /\
             num_pins d1 = num_pins d0 /\ dev_outs d1 = dev_outs d0.
Proof.
  intros [(-> & -> & ->)|[_ Hm1]]%update_models; [|by exists d1].
  exists d. split; [done|]. apply dev_static.
Qed.

Lemma update_models_any m mb : c_models c' !! m = Some mb -> exists mb0, c_models c !! m = Some mb0 /\ mb_pins mb = mb_pins mb0.
Proof.
  simpl. destruct (decide (m = mid)) as [->|Hne].
  - rewrite lookup_insert_eq. intros ?. simplify_eq. by eexists.
  - rewrite lookup_insert_ne by done. intros ?. by eexists.
Qed.

Lemma shape_lookup n nd' :
  w_nodes w' !! n = Some nd' -> exists nd, w_nodes (c_world c) !! n = Some nd /\ node_pins nd' = node_pins nd.
Proof.
  intros Hn. pose proof (ws_shape _ _ _ update_world n) as Hs. rewrite Hn in Hs.
  destruct (w_nodes (c_world c) !! n) as [nd|]; simpl in Hs; [|done]. exists nd. split; [done|].
  by injection Hs.
Qed.

Lemma shape_lookup_back n nd :
  w_nodes (c_world c) !! n = Some nd -> exists nd', w_nodes w' !! n = Some nd' /\ node_pins nd' = node_pins nd.
Proof.
  intros Hn. pose proof (ws_shape _ _ _ update_world n) as Hs. rewrite Hn in Hs.
  destruct (w_nodes w' !! n) as [nd'|]; simpl in Hs; [|done]. exists nd'. split; [done|].
  by injection Hs.
Qed.

Lemma update_wf : wf c'.
Proof.
  split.
  - intros m mb i n (mb0 & Hm0 & Hp)%update_models_any. rewrite Hp. intros Hi.
    destruct (wf_pin _ Hwf _ _ _ _ Hm0 Hi) as (nd & Hn & Hd & Hin).
    destruct (shape_lookup_back _ _ Hn) as (nd' & Hn' & Hp').
    destruct (ws_digital _ _ _ update_world n ltac:(by exists nd)) as (nd2 & Hn2 & Hd2).
    exists nd'. split; [done|]. rewrite Hp'. split; [|done]. congruence.
  - intros n nd' p Hn' Hp. destruct (shape_lookup _ _ Hn') as (nd & Hn & Heq). rewrite Heq in Hp.
    destruct (wf_back _ Hwf _ _ _ Hn Hp) as (mb & pn & Hm1 & Hpn & Hrest).
    simpl. destruct (decide (p.1 = mid)) as [Hpm|Hne].
    + rewrite Hpm in Hm1. rewrite Hm in Hm1. simplify_eq/=. rewrite lookup_insert_eq.
      eexists _, pn. split; [done|]. done.
    + rewrite lookup_insert_ne by done. by exists mb, pn.
  - intros n Hn. simpl in *.
    assert (is_Some (w_nodes (c_world c) !! n)) as [nd Hnd].
    { pose proof (ws_only _ _ _ update_world). rewrite (ws_always _ _ _ update_world) in Hn.
      destruct (decide (n ∈ out_nodes pins (dev_outs d))) as [Ho|Ho].
      - apply elem_of_out_nodes in Ho as (i & _ & Hi).
        destruct (wf_pin _ Hwf _ _ _ _ Hm Hi) as (nd & Hnd & _). by exists nd.
      - apply (wf_queue _ Hwf). set_solver. }
    destruct (shape_lookup_back _ _ Hnd) as (nd' & -> & _). by eexists.
  - intros m pins1 d1 (d0 & Hm1 & -> & _)%update_old_model. by eapply wf_len.
  - intros m pins1 d1 (d0 & Hm1 & _ & Ho)%update_old_model. intros i j n. rewrite Ho.
    by eapply (wf_apart _ Hwf).
  - intros m1 pins1 d1 m2 pins2 d2 Hne (e1 & Hm1 & _ & ->)%update_old_model
      (e2 & Hm2 & _ & ->)%update_old_model. by eapply (wf_driver _ Hwf).
  - intros m Hin. destruct (wf_clocked _ Hwf m Hin) as (pins1 & d1 & Hm1 & Hk1).
    simpl. destruct (decide (m = mid)) as [->|Hne].
    + rewrite lookup_insert_eq. rewrite Hm in Hm1. simplify_eq. by eexists _, _.
    + rewrite lookup_insert_ne by done. by exists pins1, d1.
Qed.

(** The states an update leaves on the model's own pins. *)
Lemma update_own_state (a : act) :
  a ∈ acts -> pin_states pins w' (act_pin a) = None \/ pin_states pins w' (act_pin a) = Some (act_state a).
Proof.
  intros Ha. unfold pin_states. destruct (pin_at pins (act_pin a)) as [n|] eqn:E; [|by left].
  right. simpl. eapply run_acts_result; eauto.
  - apply update_digital.
  - apply dev_acts_apart.
  - intros i j k (b & -> & Hb)%list_elem_of_fmap (b' & -> & Hb')%list_elem_of_fmap.
    apply (wf_apart _ Hwf _ _ _ Hm); by eapply dev_acts_out.
Qed.

Lemma update_own_frame (i : nat) :
  i ∈ dev_outs d -> Forall (fun a => act_pin a ≠ i) acts -> pin_states pins w' i = st i.
Proof.
  intros Hi HF. unfold st, pin_states. destruct (pin_at pins i) as [n|] eqn:E; [|done]. simpl.
  unfold state_at. unfold w'. rewrite run_acts_other; [done|].
  intros a Ha Hpa. rewrite Forall_forall in HF. apply (HF a Ha).
  eapply (wf_apart _ Hwf _ _ _ Hm); [by eapply dev_acts_out|done|done|done].
Qed.

Lemma update_coherent : coherent c'.
Proof.
  intros m pins1 d1 [(-> & -> & ->)|[Hne Hm1]]%update_models; simpl.
  - eapply (dev_coh_post d method st); [by eapply Hcoh|apply update_own_state|apply update_own_frame].
  - eapply (dev_coh_local _ (pin_states pins1 (c_world c))); [|by eapply Hcoh].
    intros i Hi. unfold pin_states. destruct (pin_at pins1 i) as [n|] eqn:E; [|done]. simpl.
    unfold state_at. rewrite (ws_frame _ _ _ update_world); [done|].
    intros Hin. eapply (wf_driver _ Hwf mid pins d m pins1 d1); [done..|exact Hin|].
    apply elem_of_out_nodes. by exists i.
Qed.

Lemma at_rest_stable pins1 d1 (w1 w2 : world) :
  (forall n, n ∈ pin_nodes_of pins1 -> w_nodes w2 !! n = w_nodes w1 !! n) ->
  at_rest pins1 d1 w1 -> at_rest pins1 d1 w2.
Proof.
  intros Heq [Hd Hq].
  assert (Hst : forall i, pin_states pins1 w2 i = pin_states pins1 w1 i).
  { intros i. unfold pin_states, state_at. destruct (pin_at pins1 i) as [n|] eqn:E; [|done]. simpl.
    rewrite Heq; [done|]. apply elem_of_pin_nodes_of. by exists i. }
  unfold at_rest. rewrite (dev_local d1 update_table (pin_states pins1 w2) (pin_states pins1 w1))
    by (intros; by rewrite Hst).
  split; [done|]. eapply Forall_impl; [exact Hq|]. intros a. unfold noop. destruct a; by rewrite Hst.
Qed.

Lemma update_covers_self : covered c' mid.
Proof.
  destruct (update_busy_or_quiet pins d (c_world c) method update_digital ltac:(by eapply Hcoh))
    as [(n & Hn & Ht)|Hq].
  - right. exists pins, d', n. split_and!; [simpl; by rewrite lookup_insert_eq|done|done].
  - left. exists pins, d'. split; [simpl; by rewrite lookup_insert_eq|]. simpl.
    assert (Hw' : w' = c_world c) by (by apply quiet_run_acts; [apply update_digital|]).
    rewrite Hw'. eapply (dev_settle d method st); [by eapply Hcoh|done].
Qed.

Lemma update_covers m : covered c m -> covered c' m.
Proof.
  destruct (decide (m = mid)) as [->|Hne]; [intros _; apply update_covers_self|].
  intros [(pins1 & d1 & Hm1 & Hr)|(pins1 & d1 & n & Hm1 & Hn & Ht)].
  - destruct (decide (set_Exists (fun n => w_nodes w' !! n ≠ w_nodes (c_world c) !! n) (pin_nodes_of pins1)))
      as [(n & Hn & Hch)|Hno].
    + right. exists pins1, d1, n. split_and!; [simpl; by rewrite lookup_insert_ne|done|].
      by apply (ws_notify _ _ _ update_world).
    + left. exists pins1, d1. split; [simpl; by rewrite lookup_insert_ne|].
      eapply at_rest_stable; [|exact Hr]. intros n Hn. simpl.
      apply dec_stable. intros Hch. apply Hno. by exists n.
  - right. exists pins1, d1, n. split_and!; [simpl; by rewrite lookup_insert_ne|done|].
    by apply (ws_grow _ _ _ update_world).
Qed.

Lemma update_model_frame : exists c1, update_model method c mid = Some c1 /\ frame c c1 /\ covered c1 mid.
Proof.
  exists c'. split; [apply update_model_eq|]. split; [|apply update_covers_self]. split.
  - apply update_wf.
  - apply update_coherent.
  - done.
  - done.
  - done.
  - intros m. simpl. destruct (decide (m = mid)) as [->|Hne].
    + rewrite lookup_insert_eq, Hm. exists d'. split; [done|]. apply rtc_once. by eexists _, _.
    + rewrite lookup_insert_ne by done. apply evolved_refl.
  - intros n. apply update_world.
  - apply update_world.
  - apply update_world.
  - apply update_covers.
Qed.
End update.

(** ** Loops *)

Definition is_digital c mid : Prop := exists pins d, c_models c !! mid = Some (mk_model pins (Some d)).

Lemma clocked_frame (method : digital_update_method_t) (l : list nat) c :
  wf c -> coherent c ->
  (forall mid, mid ∈ l -> exists pins d, c_models c !! mid = Some (mk_model pins (Some d)) /\ connected pins) ->
  exists c', fold_option (update_model method) l c = Some c' /\ frame c c' /\
             forall mid, mid ∈ l -> covered c' mid.
Proof.
  revert c. induction l as [|m l IH]; intros c Hw Hc Hl.
  { exists c. split; [done|]. split; [by apply frame_refl|]. intros mid Hin. by apply not_elem_of_nil in Hin. }
  destruct (Hl m) as (pins & d & Hm & Hk); [by apply list_elem_of_here|].
  destruct (update_model_frame c method m pins d Hw Hc Hm Hk) as (c1 & Hu & Hf & Hcov).
  simpl. rewrite Hu. simpl.
  destruct (IH c1 (fr_wf _ _ Hf) (fr_coh _ _ Hf)) as (c' & Hr & Hf' & Hcov').
  { intros m' Hin. destruct (Hl m') as (pins' & d' & Hm' & Hk'); [by apply list_elem_of_further|].
    destruct (frame_model _ _ _ _ _ Hf Hm') as [d'' Hd'']. by exists pins', d''. }
  exists c'. split; [done|]. split; [by eapply frame_trans|].
  intros mid [->|Hin]%elem_of_cons; [by apply (fr_covered _ _ Hf')|by apply Hcov'].
Qed.

(** [p] is connected and points back at the model that owns it. *)
Definition pin_ok c (p : nat * nat) : Prop :=
  exists mb pn n, c_models c !! p.1 = Some mb /\ mb_pins mb !! p.2 = Some pn /\
                  pin_nodes pn = Some n /\ pin_model pn = Some p.1.

Lemma pin_ok_frame c c' p : frame c c' -> pin_ok c p -> pin_ok c' p.
Proof.
  intros Hf (mb & pn & n & Hm & Hrest). pose proof (evolved_static _ _ (fr_evolved _ _ Hf p.1)) as Hs.
  rewrite Hm in Hs. destruct (c_models c' !! p.1) as [mb'|] eqn:E; simplify_eq/=.
  exists mb', pn, n. split; [done|]. assert (mb_pins mb' = mb_pins mb) as -> by (unfold model_static in Hs; congruence). done.
Qed.

Lemma is_digital_frame c c' mid : frame c c' -> is_digital c mid -> is_digital c' mid.
Proof. intros Hf (pins & d & Hm). destruct (frame_model _ _ _ _ _ Hf Hm) as [d' Hd']. by exists pins, d'. Qed.

Lemma visit_frame c p :
  wf c -> coherent c -> pin_ok c p ->
  exists c', visit_pin c p = Some c' /\ frame c c' /\ (is_digital c p.1 -> covered c' p.1).
Proof.
  intros Hw Hc (mb & pn & n & Hm & Hpn & Hn & Hmod). unfold visit_pin.
  rewrite Hm. simpl. rewrite Hpn. simpl. rewrite Hmod. simpl. rewrite Hm. simpl.
  destruct mb as [pins [d|]]; simpl in *.
  - destruct (update_model_frame c update_table p.1 pins d Hw Hc Hm) as (c' & Hu & Hf & Hcov).
    { exists p.2, n. unfold pin_at. by rewrite Hpn. }
    exists c'. done.
  - exists c. split; [done|]. split; [by apply frame_refl|]. intros (pins' & d' & Hd'). congruence.
Qed.

Lemma visits_frame (l : list (nat * nat)) c :
  wf c -> coherent c -> (forall p, p ∈ l -> pin_ok c p) ->
  exists c', fold_option visit_pin l c = Some c' /\ frame c c' /\
             forall p, p ∈ l -> is_digital c p.1 -> covered c' p.1.
Proof.
  revert c. induction l as [|p l IH]; intros c Hw Hc Hl.
  { exists c. split; [done|]. split; [by apply frame_refl|]. intros p Hin. by apply not_elem_of_nil in Hin. }
  destruct (visit_frame c p Hw Hc) as (c1 & Hu & Hf & Hcov); [apply Hl, list_elem_of_here|].
  simpl. rewrite Hu. simpl.
  destruct (IH c1 (fr_wf _ _ Hf) (fr_coh _ _ Hf)) as (c' & Hr & Hf' & Hcov').
  { intros q Hin. eapply pin_ok_frame; [exact Hf|]. apply Hl. by apply list_elem_of_further. }
  exists c'. split; [done|]. split; [by eapply frame_trans|].
  intros q [->|Hin]%elem_of_cons Hd.
  - by apply (fr_covered _ _ Hf'), Hcov.
  - apply Hcov'; [done|]. by eapply is_digital_frame.
Qed.

(** A whole tick: [frame] without the growth of the queue. *)
Record ticked c c' : Prop := {
  tk_wf : wf c';
  tk_coh : coherent c';
  tk_out : digital_out c' = digital_out c;
  tk_before : before_all_clk_digital_model c' = before_all_clk_digital_model c;
  tk_after : after_all_clk_digital_model c' = after_all_clk_digital_model c;
  tk_evolved mid : evolved (c_models c !! mid) (c_models c' !! mid);
  tk_shape n : shape <$> w_nodes (c_world c') !! n = shape <$> w_nodes (c_world c) !! n;
  tk_covered mid : covered c mid -> covered c' mid
}.

Lemma frame_ticked c c' : frame c c' -> ticked c c'.
Proof. by intros []. Qed.

Lemma ticked_refl c : wf c -> coherent c -> ticked c c.
Proof. intros. split; try done. intros. apply evolved_refl. Qed.

Lemma ticked_trans c1 c2 c3 : ticked c1 c2 -> ticked c2 c3 -> ticked c1 c3.
Proof.
  intros A B. split.
  - apply B.
  - apply B.
  - by rewrite (tk_out _ _ B), (tk_out _ _ A).
  - by rewrite (tk_before _ _ B), (tk_before _ _ A).
  - by rewrite (tk_after _ _ B), (tk_after _ _ A).
  - intros m. eapply evolved_trans; [apply A|apply B].
  - intros n. by rewrite (tk_shape _ _ B), (tk_shape _ _ A).
  - intros m Hm. by apply B, A.
Qed.

Definition queue c : gset nat := tables (w_table (c_world c)).

Lemma with_tables_wf c (t : gset nat) :
  wf c -> coherent c -> (forall n, n ∈ t -> is_Some (w_nodes (c_world c) !! n)) ->
  wf (with_world c (with_tables (c_world c) t)) /\ coherent (with_world c (with_tables (c_world c) t)).
Proof.
  intros Hw Hc Ht. split; [|exact Hc]. destruct Hw as [W1 W2 W3 W4 W5 W6 W7]. split; try done.
  intros n Hn. simpl in *. apply elem_of_union in Hn as [Hn|Hn]; [by apply Ht|]. apply W3. set_solver.
Qed.

Lemma process_ticked c n :
  wf c -> coherent c -> n ∈ queue c ->
  exists c', process_node (with_world c (with_tables (c_world c) (queue c ∖ {[n]}))) n = Some c' /\ ticked c c'.
Proof.
  intros Hw Hc Hn. set (c1 := with_world c (with_tables (c_world c) (queue c ∖ {[n]}))).
  destruct (with_tables_wf c (queue c ∖ {[n]}) Hw Hc) as [Hw1 Hc1].
  { intros k Hk. apply (wf_queue _ Hw). unfold queue in Hk. set_solver. }
  fold c1 in Hw1, Hc1.
  destruct (wf_queue _ Hw n) as [nd Hnd]; [unfold queue in Hn; set_solver|].
  unfold process_node. change (w_nodes (c_world c1)) with (w_nodes (c_world c)). rewrite Hnd. simpl.
  destruct (visits_frame (ordered_pins (node_pins nd)) c1 Hw1 Hc1) as (c' & Hr & Hf & Hcov).
  { intros p Hp. apply elem_of_ordered_pins in Hp.
    destruct (wf_back _ Hw _ _ _ Hnd Hp) as (mb & pn & ? & ? & ? & ?). by exists mb, pn, n. }
  exists c'. split; [done|]. destruct (frame_ticked _ _ Hf) as [T1 T2 T3 T4 T5 T6 T7 T8]. split; try done.
  intros m [Hrest|(pins & d & k & Hm & Hk & Ht)]; [by apply T8; left|].
  destruct (decide (k = n)) as [->|Hne].
  - apply elem_of_pin_nodes_of in Hk as [i Hi].
    destruct (wf_pin _ Hw _ _ _ _ Hm Hi) as (nd' & Hnd' & _ & Hin).
    assert (nd' = nd) as -> by congruence.
    apply (Hcov (m, i)); [by apply elem_of_ordered_pins|]. by exists pins, d.
  - apply T8. right. exists pins, d, k. split_and!; [done|done|]. simpl. unfold queue. set_solver.
Qed.

Lemma settle_ticked (b : nat) c :
  wf c -> coherent c -> exists c', settle_loop b c = Some c' /\ ticked c c'.
Proof.
  revert c. induction b as [|b IH]; intros c Hw Hc; simpl; unfold queue;
    destruct (first_node (tables (w_table (c_world c)))) as [n|] eqn:E;
    try (exists c; split; [done|by apply ticked_refl]).
  destruct (process_ticked c n Hw Hc (first_node_elem _ _ E)) as (c2 & Hp & Ht). unfold queue in Hp.
  rewrite Hp. simpl. destruct (IH c2 (tk_wf _ _ Ht) (tk_coh _ _ Ht)) as (c' & Hr & Ht').
  exists c'. split; [done|]. by eapply ticked_trans.
Qed.

(** A loop that ran dry gives the same result with any larger budget. *)
Lemma settle_fuel (b k : nat) c c' :
  settle_loop b c = Some c' -> queue c' = ∅ -> settle_loop (b + k) c = Some c'.
Proof.
  revert c. induction b as [|b IH]; intros c; simpl; unfold queue in *;
    destruct (first_node (tables (w_table (c_world c)))) as [n|] eqn:E.
  - intros [= ->] He. apply first_node_elem in E. set_solver.
  - intros [= ->] _. destruct k; simpl; by rewrite E.
  - intros Hr He. destruct (process_node _ n) as [c2|]; simpl in *; [|done]. by apply IH.
  - done.
Qed.

(** Evaluation of a tick with a small budget. *)
Lemma digital_clk_eval (b : nat) c c1 c2 :
  b <= 1000 -> before_digital_clk (with_out c []) = Some c1 ->
  settle_loop b (seed_tables c1) = Some c2 -> queue c2 = ∅ ->
  digital_clk c = after_table_digital_clk c2.
Proof.
  intros Hb H1 H2 He. unfold digital_clk. rewrite H1. simpl. unfold update_table_digital_clk.
  pose proof iter_budget_large. replace iter_budget with (b + (iter_budget - b)) by lia.
  by rewrite (settle_fuel b _ _ _ H2 He).
Qed.

Lemma seed_ticked c : wf c -> coherent c -> ticked c (seed_tables c).
Proof.
  intros Hw Hc. unfold seed_tables.
  destruct (with_tables_wf c (tables (w_table (c_world c)) ∪ always_tables (w_table (c_world c))) Hw Hc)
    as [Hw1 Hc1]; [apply (wf_queue _ Hw)|].
  split; try done; [intros; apply evolved_refl|].
  intros m [Hr|(pins & d & k & Hm & Hk & Ht)]; [by left|]. right. exists pins, d, k.
  split_and!; [done|done|]. simpl. set_solver.
Qed.

Lemma with_out_ticked c out : wf c -> coherent c -> wf (with_out c out) /\ coherent (with_out c out).
Proof. intros [] Hc. split; [by split|exact Hc]. Qed.

(** A tick of a well-formed digital circuit. *)
Lemma digital_clk_ticked c :
  wf c -> coherent c ->
  exists c', digital_clk c = Some c' /\ ticked (with_out c []) c' /\
    forall mid, mid ∈ before_all_clk_digital_model c -> covered c' mid.
Proof.
  intros Hw Hc. destruct (with_out_ticked c [] Hw Hc) as [Hw0 Hc0]. unfold digital_clk.
  destruct (clocked_frame before_all_clk (before_all_clk_digital_model c) (with_out c []) Hw0 Hc0)
    as (c1 & H1 & F1 & Cov1).
  { intros m Hm. apply (wf_clocked _ Hw). set_solver. }
  unfold before_digital_clk. simpl before_all_clk_digital_model. rewrite H1. simpl.
  pose proof (seed_ticked c1 (fr_wf _ _ F1) (fr_coh _ _ F1)) as T1.
  destruct (settle_ticked iter_budget (seed_tables c1) (tk_wf _ _ T1) (tk_coh _ _ T1)) as (c2 & H2 & T2).
  unfold update_table_digital_clk. rewrite H2. simpl.
  destruct (clocked_frame after_all_clk (after_all_clk_digital_model c2) c2 (tk_wf _ _ T2) (tk_coh _ _ T2))
    as (c3 & H3 & F3 & _).
  { intros m Hm. apply (wf_clocked _ (tk_wf _ _ T2)). set_solver. }
  unfold after_table_digital_clk. exists c3. split; [done|].
  assert (T : ticked c1 c3) by (eapply ticked_trans; [exact T1|]; eapply ticked_trans; [exact T2|by apply frame_ticked]).
  split; [eapply ticked_trans; [by apply frame_ticked|exact T]|].
  intros m Hm. by apply (tk_covered _ _ T), Cov1.
Qed.

Lemma ticked_model (K : D -> Prop) c c' mid pins d :
  (forall d m st, K d -> K (dev_eval d m st).1) ->
  ticked c c' -> c_models c !! mid = Some (mk_model pins (Some d)) -> K d ->
  exists d', c_models c' !! mid = Some (mk_model pins (Some d')) /\ K d'.
Proof.
  intros HK T Hm Hd. pose proof (tk_evolved _ _ T mid) as He. rewrite Hm in He. simpl in He.
  destruct He as (d' & Hd' & He). exists d'. split; [done|].
  clear Hm Hd'. induction He as [|d1 d2 d3 (m & st & ->) _ IH]; [done|]. by apply IH, HK.
Qed.

Lemma covered_empty_rest c mid : queue c = ∅ -> covered c mid -> rest c mid.
Proof. intros He [Hr|(pins & d & n & _ & _ & Ht)]; [done|]. unfold queue in He. set_solver. Qed.

Lemma rest_settled c mid pins d :
  wf c -> rest c mid -> c_models c !! mid = Some (mk_model pins (Some d)) -> connected pins ->
  settled pins d (c_world c) (tr_duration c).
Proof.
  intros Hw (pins' & d' & Hm & Hd & Hq) Hm' Hk. rewrite Hm in Hm'. simplify_eq.
  pose proof (wf_digital_pins _ _ _ Hw Hm) as Hdig. simpl in Hdig. unfold settled.
  rewrite dev_refines; [|done|done|by eapply wf_len]. rewrite Hd.
  by rewrite (quiet_run_acts _ _ _ Hdig Hq).
Qed.

(** ** Preparation *)

(** A netlist of digital nodes before its first [prepare]: pins and nodes point
    at each other, one driver per node, and models in a state that remembers
    nothing but [X]. *)
Definition fresh d : Prop :=
  forall st, (forall i, st i = None \/ st i = Some indeterminate_state) -> dev_coh d st.

Record netlist_ok c : Prop := {
  no_unprepared : has_prepare c = false;
  no_nodes n : n ∈ nl_nodes c -> is_Some (w_nodes (c_world c) !! n);
  no_digital n nd : w_nodes (c_world c) !! n = Some nd -> node_digital nd;
  no_models mid : mid ∈ nl_models c <-> is_Some (c_models c !! mid);
  no_nodup : NoDup (nl_models c);
  no_pin mid mb i n :
    c_models c !! mid = Some mb -> pin_at (mb_pins mb) i = Some n ->
    exists nd, w_nodes (c_world c) !! n = Some nd /\ (mid, i) ∈ node_pins nd /\ n ∈ nl_nodes c;
  no_back n nd p :
    w_nodes (c_world c) !! n = Some nd -> p ∈ node_pins nd ->
    exists mb pn, c_models c !! p.1 = Some mb /\ mb_pins mb !! p.2 = Some pn /\ pin_nodes pn = Some n;
  no_len mid pins d : c_models c !! mid = Some (mk_model pins (Some d)) -> length pins = num_pins d;
  no_apart mid pins d : c_models c !! mid = Some (mk_model pins (Some d)) -> outs_apart pins d;
  no_driver m1 pins1 d1 m2 pins2 d2 :
    m1 ≠ m2 -> c_models c !! m1 = Some (mk_model pins1 (Some d1)) ->
    c_models c !! m2 = Some (mk_model pins2 (Some d2)) ->
    out_nodes pins1 (dev_outs d1) ## out_nodes pins2 (dev_outs d2);
  no_connected mid pins d :
    c_models c !! mid = Some (mk_model pins (Some d)) -> digital_update_method d ≠ update_table ->
    connected pins;
  no_fresh mid pins d : c_models c !! mid = Some (mk_model pins (Some d)) -> fresh d
}.

Definition prepared_node (nd : node_t) : node_t :=
  if bool_decide (node_pins nd = ∅) then nd else with_state nd indeterminate_state.

Lemma prepare_nodes_digital (l : list nat) (nodes : gmap nat node_t) :
  (forall n, n ∈ l -> is_Some (nodes !! n)) ->
  (forall n nd, nodes !! n = Some nd -> node_digital nd) ->
  exists nodes', fold_option (prepare_node false) l (nodes, ∅, [], 0%Z) = Some (nodes', ∅, [], 0%Z) /\
    forall n, nodes' !! n = (if decide (n ∈ l) then prepared_node else id) <$> nodes !! n.
Proof.
  revert nodes. induction l as [|n l IH]; intros nodes Hl Hd.
  { exists nodes. split; [done|]. intros n. rewrite decide_False by set_solver. by rewrite option_fmap_id. }
  destruct (Hl n) as [nd Hn]; [by apply list_elem_of_here|]. pose proof (Hd _ _ Hn) as Hdn.
  set (nodes1 := <[n := prepared_node nd]> nodes).
  assert (Hstep : prepare_node false (nodes, ∅, [], 0%Z) n = Some (nodes1, ∅, [], 0%Z)).
  { unfold prepare_node. rewrite Hn. simpl. destruct Hdn as [Hz _]. rewrite Hz. simpl.
    unfold nodes1, prepared_node. case_bool_decide; [|done]. by rewrite insert_id. }
  cbn [fold_option]. rewrite Hstep. cbn [mbind option_bind].
  assert (Hpd : node_digital (prepared_node nd)).
  { unfold prepared_node. case_bool_decide; [done|]. by apply with_state_digital. }
  destruct (IH nodes1) as (nodes' & Hr & Hn').
  - intros k Hk. unfold nodes1. destruct (decide (k = n)) as [->|Hne].
    + rewrite lookup_insert_eq. by eexists.
    + rewrite lookup_insert_ne by done. apply Hl. set_solver.
  - intros k kd. unfold nodes1. destruct (decide (k = n)) as [->|Hne].
    + rewrite lookup_insert_eq. intros ?. by simplify_eq.
    + rewrite lookup_insert_ne by done. apply Hd.
  - exists nodes'. split; [done|]. intros k. rewrite Hn'. unfold nodes1.
    destruct (decide (k = n)) as [->|Hne].
    + rewrite lookup_insert_eq, Hn. rewrite (decide_True (P := n ∈ n :: l)) by set_solver. simpl.
      case_decide; [|done]. f_equal. unfold prepared_node.
      destruct (decide (node_pins nd = ∅)) as [He|He].
      * rewrite (bool_decide_true (node_pins nd = ∅)) by done. by rewrite bool_decide_true.
      * rewrite (bool_decide_false (node_pins nd = ∅)) by done. by rewrite bool_decide_false.
    + rewrite lookup_insert_ne by done. destruct (decide (k ∈ l)), (decide (k ∈ n :: l)); try done; set_solver.
Qed.

Definition rewire mid (mb : model_base D) : model_base D :=
  mk_model ((fun p => mk_pin (pin_nodes p) (Some mid)) <$> mb_pins mb) (mb_ptr mb).

Lemma prepare_models_spec (l : list nat) (models : gmap nat (model_base D)) (before after : list nat) :
  (forall m, m ∈ l -> is_Some (models !! m)) -> NoDup l ->
  exists models' b a, fold_option prepare_model l (models, before, after) = Some (models', before ++ b, after ++ a) /\
    (forall m, models' !! m = (if decide (m ∈ l) then rewire m else id) <$> models !! m) /\
    (forall m, m ∈ b ++ a -> exists pins d,
       models !! m = Some (mk_model pins (Some d)) /\ m ∈ l /\ digital_update_method d ≠ update_table).
Proof.
  revert models before after. induction l as [|m l IH]; intros models before after Hl Hnd.
  { exists models, [], []. rewrite !app_nil_r. split_and!; [done| |set_solver].
    intros m. rewrite decide_False by set_solver. by rewrite option_fmap_id. }
  apply NoDup_cons in Hnd as [Hni Hnd].
  destruct (Hl m) as [mb Hm]; [by apply list_elem_of_here|].
  assert (Hstep : exists b0 a0, prepare_model (models, before, after) m =
      Some (<[m := rewire m mb]> models, before ++ b0, after ++ a0) /\
      forall k, k ∈ b0 ++ a0 -> exists pins d,
        models !! k = Some (mk_model pins (Some d)) /\ k = m /\ digital_update_method d ≠ update_table).
  { unfold prepare_model. rewrite Hm. simpl. destruct mb as [pins [d|]]; simpl.
    - destruct (digital_update_method d) eqn:Em; simpl.
      + exists [], []. rewrite !app_nil_r. split; [done|set_solver].
      + exists [m], []. rewrite !app_nil_r. split; [done|].
        intros k ->%list_elem_of_singleton. exists pins, d. split_and!; [done|done|congruence].
      + exists [], [m]. rewrite !app_nil_r. split; [done|].
        intros k Hk. simpl in Hk. apply list_elem_of_singleton in Hk as ->.
        exists pins, d. split_and!; [done|done|congruence].
    - exists [], []. rewrite !app_nil_r. split; [done|set_solver]. }
  destruct Hstep as (b0 & a0 & Hs & Hb0). cbn [fold_option]. rewrite Hs. cbn [mbind option_bind].
  destruct (IH (<[m := rewire m mb]> models) (before ++ b0) (after ++ a0)) as (models' & b & a & Hr & Hm' & Hb).
  - intros k Hk. destruct (decide (k = m)) as [->|Hne]; [rewrite lookup_insert_eq; by eexists|].
    rewrite lookup_insert_ne by done. apply Hl. set_solver.
  - done.
  - exists models', (b0 ++ b), (a0 ++ a). rewrite Hr, !app_assoc. split_and!; [done|..].
    + intros k. rewrite Hm'. destruct (decide (k = m)) as [->|Hne].
      * rewrite lookup_insert_eq, Hm. rewrite (decide_True (P := m ∈ m :: l)) by set_solver.
        by rewrite decide_False.
      * rewrite lookup_insert_ne by done. destruct (decide (k ∈ l)), (decide (k ∈ m :: l)); try done; set_solver.
    + intros k Hk. assert (k ∈ b0 ++ a0 \/ k ∈ b ++ a) as [Hk'|Hk'] by set_solver.
      * destruct (Hb0 k Hk') as (pins & d & ? & -> & ?). exists pins, d. split_and!; [done|set_solver|done].
      * destruct (Hb k Hk') as (pins & d & Hmk & Hkl & ?). exists pins, d.
        assert (k ≠ m) by (intros ->; done). rewrite lookup_insert_ne in Hmk by done.
        split_and!; [done|set_solver|done].
Qed.

Lemma pin_at_rewire mid (mb : model_base D) (i : nat) : pin_at (mb_pins (rewire mid mb)) i = pin_at (mb_pins mb) i.
Proof. unfold pin_at. simpl. rewrite list_lookup_fmap. by destruct (mb_pins mb !! i). Qed.

Lemma out_nodes_rewire mid pins (o : option D) outs :
  out_nodes (mb_pins (rewire mid (mk_model pins o))) outs = out_nodes pins outs.
Proof.
  apply set_eq. intros n. rewrite !elem_of_out_nodes. by setoid_rewrite pin_at_rewire.
Qed.

Lemma prepare_base c :
  netlist_ok c -> exists c', prepare c = Some c' /\ wf c' /\ coherent c' /\
    (forall mid pins d, c_models c !! mid = Some (mk_model pins (Some d)) -> is_digital c' mid).
Proof.
  intros Hok. unfold prepare. rewrite (no_unprepared _ Hok).
  destruct (prepare_nodes_digital (nl_nodes c) (w_nodes (c_world c)) (no_nodes _ Hok) (no_digital _ Hok))
    as (nodes' & -> & Hn). cbn [mbind option_bind].
  destruct (prepare_models_spec (nl_models c) (c_models c) [] []) as (models' & b & a & -> & Hm & Hb).
  { intros m. apply (no_models _ Hok). }
  { apply Hok. }
  cbn [mbind option_bind]. eexists. split; [reflexivity|]. simpl.
  assert (Hm' : forall m, models' !! m = rewire m <$> c_models c !! m).
  { intros m. rewrite Hm. case_decide as Hin; [done|].
    destruct (c_models c !! m) as [mb|] eqn:E; [|done]. exfalso. apply Hin, (no_models _ Hok). by rewrite E. }
  assert (Hold : forall m pins d, models' !! m = Some (mk_model pins (Some d)) ->
    exists pins0, c_models c !! m = Some (mk_model pins0 (Some d)) /\ pins = mb_pins (rewire m (mk_model pins0 (Some d)))).
  { intros m pins d. rewrite Hm'. destruct (c_models c !! m) as [[pins0 o]|]; [|done].
    unfold rewire. intros ?. simplify_eq/=. by exists pins0. }
  assert (Hx : forall n nd, nodes' !! n = Some nd -> exists nd0, w_nodes (c_world c) !! n = Some nd0 /\
    node_pins nd = node_pins nd0 /\ node_digital nd /\
    (n ∈ nl_nodes c -> node_pins nd0 ≠ ∅ -> dn_state nd = Some indeterminate_state)).
  { intros n nd. rewrite Hn. destruct (w_nodes (c_world c) !! n) as [nd0|] eqn:E; [|done].
    pose proof (no_digital _ Hok _ _ E). intros ?. exists nd0. split; [done|].
    destruct (decide (n ∈ nl_nodes c)); simplify_eq/=; [|tauto].
    unfold prepared_node. case_bool_decide; split_and!; try done. by apply with_state_digital. }
  assert (Hx' : forall n nd0, w_nodes (c_world c) !! n = Some nd0 -> exists nd, nodes' !! n = Some nd).
  { intros n nd0 E. rewrite Hn, E. simpl. by eexists. }
  split_and!; [split|..].
  - intros m mb i n Hmb Hi. simpl in *. rewrite Hm' in Hmb.
    destruct (c_models c !! m) as [mb0|] eqn:E; [|done]. injection Hmb as <-. rewrite pin_at_rewire in Hi.
    destruct (no_pin _ Hok _ _ _ _ E Hi) as (nd0 & Hnd0 & Hin & _).
    destruct (Hx' _ _ Hnd0) as [nd Hnd]. destruct (Hx _ _ Hnd) as (nd1 & Hnd1 & Hp & Hd & _).
    exists nd. split_and!; [done|done|]. rewrite Hp. congruence.
  - intros n nd p Hnd Hp. simpl in *. destruct (Hx _ _ Hnd) as (nd0 & Hnd0 & Hpp & _). rewrite Hpp in Hp.
    destruct (no_back _ Hok _ _ _ Hnd0 Hp) as (mb & pn & Hmb & Hpn & Hpnn).
    exists (rewire p.1 mb), (mk_pin (pin_nodes pn) (Some p.1)). rewrite Hm', Hmb. simpl.
    rewrite list_lookup_fmap, Hpn. done.
  - intros n Hin. simpl in Hin. set_solver.
  - intros m pins d (pins0 & Hmd & ->)%Hold. simpl. rewrite length_fmap. by eapply no_len.
  - intros m pins d (pins0 & Hmd & ->)%Hold i j n Hi Hj. rewrite !pin_at_rewire. by eapply (no_apart _ Hok).
  - intros m1 pins1 d1 m2 pins2 d2 Hne (p1 & Hm1 & ->)%Hold (p2 & Hm2 & ->)%Hold.
    rewrite !out_nodes_rewire. by eapply (no_driver _ Hok).
  - intros m Hin. simpl in *. destruct (Hb m Hin) as (pins & d & Hmd & _ & Hmet).
    exists (mb_pins (rewire m (mk_model pins (Some d)))), d. rewrite Hm', Hmd. split; [done|].
    destruct (no_connected _ Hok _ _ _ Hmd Hmet) as (i & n & Hi). exists i, n. by rewrite pin_at_rewire.
  - intros m pins d (pins0 & Hmd & ->)%Hold. apply (no_fresh _ Hok _ _ _ Hmd). intros i.
    simpl c_world. unfold pin_states. rewrite pin_at_rewire.
    destruct (pin_at (mb_pins (mk_model pins0 (Some d))) i) as [n|] eqn:E; [|by left]. right. simpl.
    destruct (no_pin _ Hok _ _ _ _ Hmd E) as (nd0 & Hnd0 & Hin & Hnl).
    destruct (Hx' _ _ Hnd0) as [nd Hnd]. destruct (Hx _ _ Hnd) as (nd1 & Hnd1 & _ & _ & Hs).
    unfold state_at. simpl. rewrite Hnd. simpl. apply Hs; [done|]. assert (nd1 = nd0) as -> by congruence. set_solver.
  - intros m pins d Hmd. unfold is_digital. simpl. rewrite Hm', Hmd. by eexists _, _.
Qed.

(** ** Reachable circuits *)

(** A change of a model's settings between ticks: any change that leaves what
    the model remembers of its outputs alone. *)
Inductive reachable : circult D -> Prop :=
| reach_prepare c c' : netlist_ok c -> prepare c = Some c' -> reachable c'
| reach_tick c c' : reachable c -> digital_clk c = Some c' -> reachable c'
| reach_set c mid pins d d' :
    reachable c -> c_models c !! mid = Some (mk_model pins (Some d)) ->
    num_pins d' = num_pins d -> dev_outs d' = dev_outs d ->
    (forall st, dev_coh d st -> dev_coh d' st) ->
    reachable (with_model c mid (mk_model pins (Some d')) (c_world c) (digital_out c)).

Lemma set_model_inv c mid pins d d' :
  wf c -> coherent c -> c_models c !! mid = Some (mk_model pins (Some d)) ->
  num_pins d' = num_pins d -> dev_outs d' = dev_outs d -> (forall st, dev_coh d st -> dev_coh d' st) ->
  let c' := with_model c mid (mk_model pins (Some d')) (c_world c) (digital_out c) in
  wf c' /\ coherent c'.
Proof.
  intros Hw Hc Hm Hnum Houts Hcoh c'.
  assert (Hold : forall m pins1 d1, c_models c' !! m = Some (mk_model pins1 (Some d1)) ->
    exists d0, c_models c !! m = Some (mk_model pins1 (Some d0)) /\ num_pins d1 = num_pins d0 /\
      dev_outs d1 = dev_outs d0 /\ (forall st, dev_coh d0 st -> dev_coh d1 st)).
  { intros m pins1 d1. simpl. destruct (decide (m = mid)) as [->|Hne].
    - rewrite lookup_insert_eq. intros ?. simplify_eq. by exists d.
    - rewrite lookup_insert_ne by done. intros ?. by exists d1. }
  assert (Hany : forall m mb, c_models c' !! m = Some mb -> exists mb0, c_models c !! m = Some mb0 /\ mb_pins mb = mb_pins mb0).
  { intros m mb. simpl. destruct (decide (m = mid)) as [->|Hne].
    - rewrite lookup_insert_eq. intros ?. simplify_eq. by eexists.
    - rewrite lookup_insert_ne by done. intros ?. by eexists. }
  assert (Hback : forall m mb0, c_models c !! m = Some mb0 -> exists mb, c_models c' !! m = Some mb /\ mb_pins mb = mb_pins mb0 /\
     (mb_ptr mb0 ≠ None -> mb_ptr mb ≠ None)).
  { intros m mb0 Hm0. simpl. destruct (decide (m = mid)) as [->|Hne].
    - rewrite lookup_insert_eq. rewrite Hm in Hm0. simplify_eq. by eexists.
    - rewrite lookup_insert_ne by done. by eexists. }
  split; [split|].
  - intros m mb i n (mb0 & Hm0 & ->)%Hany. by apply (wf_pin _ Hw).
  - intros n nd p Hn Hp. destruct (wf_back _ Hw _ _ _ Hn Hp) as (mb0 & pn & Hm0 & Hpn & Hr).
    destruct (Hback _ _ Hm0) as (mb & Hmb & Hpp & _). exists mb, pn. rewrite Hpp. done.
  - apply (wf_queue _ Hw).
  - intros m pins1 d1 (d0 & Hm0 & -> & _)%Hold. by eapply wf_len.
  - intros m pins1 d1 (d0 & Hm0 & _ & Ho & _)%Hold i j n. rewrite Ho. by eapply (wf_apart _ Hw).
  - intros m1 pins1 d1 m2 pins2 d2 Hne (e1 & Hm1 & _ & -> & _)%Hold (e2 & Hm2 & _ & -> & _)%Hold.
    by eapply (wf_driver _ Hw).
  - intros m Hin. destruct (wf_clocked _ Hw m Hin) as (pins1 & d1 & Hm1 & Hk1).
    destruct (Hback _ _ Hm1) as ([pins2 [d2|]] & Hmb & Hpp & Hptr); simpl in *.
    + exists pins2, d2. subst. done.
    + by destruct Hptr.
  - intros m pins1 d1 (d0 & Hm0 & _ & _ & Hcc)%Hold. by eapply Hcc, Hc.
Qed.

(** C16. A tick of a digital circuit is safe and keeps its invariant: for a
    well-formed circuit of digital nodes whose models remember what they wrote,
    [digital_clk] always returns (no undefined behaviour, within the iteration
    budget), collects no analog drive, and the resulting circuit is again
    well formed and coherent, with the same wiring. *)
Theorem digital_clk_safe c :
  wf c -> coherent c ->
  exists c', digital_clk c = Some c' /\ digital_out c' = [] /\ wf c' /\ coherent c' /\
    (forall mid, model_static <$> c_models c' !! mid = model_static <$> c_models c !! mid) /\
    (forall n, shape <$> w_nodes (c_world c') !! n = shape <$> w_nodes (c_world c) !! n).
Proof.
  intros Hw Hc. destruct (digital_clk_ticked c Hw Hc) as (c' & Hr & T & _).
  exists c'. split_and!; [done|by rewrite (tk_out _ _ T)|apply T|apply T| |apply T].
  intros mid. apply evolved_static, (tk_evolved _ _ T).
Qed.

(** C1. The event loop loses no work.  In a digital circuit that is well formed
    (pins and nodes point at each other, connected nodes are digital, at most one
    output drives a node, models updated before or after the table are connected)
    and in which every model remembers what its output nodes hold: when a tick
    ends with an empty queue, every connected model that is updated before the
    table, or had a pin on a queued node, or was at rest before the tick, is
    settled: one more update of it would change neither its own state nor any
    node nor the queue.  The property carries over from tick to tick. *)
Theorem digital_clk_quiescent c mid :
  wf c -> coherent c -> covered c mid \/ mid ∈ before_all_clk_digital_model c ->
  exists c', digital_clk c = Some c' /\ covered c' mid /\
    (queue c' = ∅ -> forall pins d, c_models c' !! mid = Some (mk_model pins (Some d)) -> connected pins ->
       settled pins d (c_world c') (tr_duration c')).
Proof.
  intros Hw Hc Hcov. destruct (digital_clk_ticked c Hw Hc) as (c' & Hr & T & Hb).
  assert (Hcov' : covered c' mid).
  { destruct Hcov as [Hcov|Hin]; [by apply (tk_covered _ _ T)|by apply Hb]. }
  exists c'. split_and!; [done|done|]. intros He pins d Hm Hk.
  eapply rest_settled; [apply T|by apply covered_empty_rest|exact Hm|done].
Qed.

(** C17. Every reachable digital circuit is in order.  Take a netlist that is not
    prepared, of models that remember nothing but X on digital nodes, whose pins and
    nodes point at each other, with at most one output on a node, and whose models
    updated before or after the table are connected.  Whatever sequence of ticks
    and changes of settings (which keep the pins, the outputs and what a model
    remembers of them) follows its first [prepare], pins and nodes still point at
    each other, queued nodes exist, and every model remembers exactly what its
    output nodes hold; so the next [digital_clk] succeeds again and drives no
    analog node. *)
Theorem reachable_in_order c :
  reachable c -> wf c /\ coherent c /\ exists c', digital_clk c = Some c' /\ digital_out c' = [].
Proof.
  intros Hr. assert (Hi : wf c /\ coherent c).
  { induction Hr as [c c' Hok Hp|c c' Hr [Hw Hc] Ht|c mid pins d d' Hr [Hw Hc] Hm Hn Ho Hcoh].
    - destruct (prepare_base c Hok) as (c1 & Hp1 & Hw & Hc & _). simplify_eq. done.
    - destruct (digital_clk_ticked c Hw Hc) as (c1 & Ht1 & T & _). simplify_eq. split; apply T.
    - by eapply set_model_inv. }
  destruct Hi as [Hw Hc]. destruct (digital_clk_ticked c Hw Hc) as (c' & Ht & T & _).
  split_and!; [done|done|]. exists c'. split; [done|]. by rewrite (tk_out _ _ T).
Qed.

End theory.
