(* ===== verification/Engine.v ===== *)
(** * Circuits of the modelled devices

    The virtual interface [model_base_impl] (model/model_refs/base.h) lets the
    event loop hold models of every type.  Here that is the dependent sum
    [device] of all modelled digital devices, which implements the device
    interface because each of them does; the theorems of Circuit.v then hold
    for circuits of any mixture of them. *)

From S2P Require Import Prelude Double Logic4 Variant Node Device Gates Arith Sequential LogicIO Circuit.
From Stdlib Require Import ZArith Lia.

(** ** Devices *)

Inductive dev_code :=
| c_gate2 (k : gate2_kind) | c_gate1 (k : gate1_kind)
| c_half (k : half_kind) | c_full (k : full_kind) | c_mul2
| c_ff (k : ff_kind) | c_arstn | c_latch | c_counter4 | c_random4
| c_input | c_output | c_tri | c_tick_delay | c_resolve2 | c_is_unknown | c_case_eq
| c_schmitt | c_display8 | c_input8.

Definition carrier (c : dev_code) : Type :=
  match c with
  | c_gate2 k => gate2 k | c_gate1 k => gate1 k
  | c_half k => half_dev k | c_full k => full_dev k | c_mul2 => MUL2
  | c_ff k => ff k | c_arstn => DFF_ARSTN | c_latch => DLATCH
  | c_counter4 => COUNTER4 | c_random4 => RANDOM_GENERATOR4
  | c_input => INPUT | c_output => OUTPUT | c_tri => TRI | c_tick_delay => TICK_DELAY
  | c_resolve2 => RESOLVE2 | c_is_unknown => IS_UNKNOWN | c_case_eq => CASE_EQ
  | c_schmitt => SCHMITT_TRIGGER | c_display8 => EIGHT_BIT_DISPLAY | c_input8 => EIGHT_BIT_INPUT
  end.

#[global] Instance carrier_device (c : dev_code) : DigitalDevice (carrier c).
Proof. destruct c; simpl; apply _. Defined.

#[global] Instance carrier_spec (c : dev_code) : DeviceSpec (carrier c).
Proof. destruct c; simpl; apply _. Defined.

(** [model_derv_impl<mod>]: a model type and an object of it. *)
Record device := mk_device { dev_type : dev_code; dev_obj : carrier dev_type }.

(** [model_derv_impl::update_digital_clk] forwards to the model's own. *)
#[global] Instance device_device : DigitalDevice device := {|
  update_digital_clk pins x w t m :=
    '(rt, d', w') ← update_digital_clk pins (dev_obj x) w t m;
    Some (rt, mk_device (dev_type x) d', w');
  digital_update_method x := digital_update_method (dev_obj x);
  num_pins x := num_pins (dev_obj x)
|}.

#[global, program] Instance device_spec : DeviceSpec device := {|
  dev_eval x m st := (mk_device (dev_type x) (dev_eval (dev_obj x) m st).1, (dev_eval (dev_obj x) m st).2);
  dev_outs x := dev_outs (dev_obj x);
  dev_coh x st := dev_coh (dev_obj x) st;
  dev_prompt x := dev_prompt (dev_obj x)
|}.
Next Obligation.
  intros pins [c d] w t m Hd Hk Hlen. simpl in *. by rewrite (dev_refines pins d w t m).
Qed.
Next Obligation. intros [c d] m st. simpl. apply dev_static. Qed.
Next Obligation. intros [c d] m st a. simpl. apply dev_acts_out. Qed.
Next Obligation. intros [c d] m st. simpl. apply dev_acts_apart. Qed.
Next Obligation. intros [c d] m st st' Hi Ho. simpl in *. by rewrite (dev_local d m st st'). Qed.
Next Obligation. intros [c d] st st'. simpl. apply dev_coh_local. Qed.
Next Obligation. intros [c d] m st i s. simpl. apply dev_silent. Qed.
Next Obligation. intros [c d] m st st'. simpl. apply dev_coh_post. Qed.
Next Obligation.
  intros [c d] m st Hc Hq. simpl in *. destruct (dev_settle d m st Hc Hq) as [-> ?]. done.
Qed.
Next Obligation. intros [c d] m st. simpl. apply dev_prompt_post. Qed.
Next Obligation.
  intros [c d] st Hp. simpl in *. destruct (dev_again d st Hp) as [-> ?]. done.
Qed.

(** [model_derv_impl::set_attribute]; RESOLVE2, DFF, TFF, T_BAR_FF, JKFF,
    DFF_ARSTN, DLATCH, TICK_DELAY and the arithmetic models have no attribute. *)
Definition set_attribute (x : device) (n : nat) (vi : variant) : bool * device :=
  let wrap c (r : bool * carrier c) := (r.1, mk_device c r.2) in
  match x with
  | mk_device (c_gate2 k) d => wrap (c_gate2 k) (gate2_set_attribute d n vi)
  | mk_device (c_gate1 k) d => wrap (c_gate1 k) (gate1_set_attribute d n vi)
  | mk_device c_counter4 d => wrap c_counter4 (COUNTER4_set_attribute_define d n vi)
  | mk_device c_random4 d => wrap c_random4 (RANDOM_GENERATOR4_set_attribute_define d n vi)
  | mk_device c_input d => wrap c_input (INPUT_set_attribute_define d n vi)
  | mk_device c_output d => wrap c_output (OUTPUT_set_attribute_define d n vi)
  | mk_device c_tri d => wrap c_tri (TRI_set_attribute_define d n vi)
  | mk_device c_is_unknown d => wrap c_is_unknown (IS_UNKNOWN_set_attribute_define d n vi)
  | mk_device c_case_eq d => wrap c_case_eq (CASE_EQ_set_attribute_define d n vi)
  | mk_device c_schmitt d => wrap c_schmitt (SCHMITT_TRIGGER_set_attribute_define d n vi)
  | mk_device c_display8 d => wrap c_display8 (EIGHT_BIT_DISPLAY_set_attribute_define d n vi)
  | mk_device c_input8 d => wrap c_input8 (EIGHT_BIT_INPUT_set_attribute_define d n vi)
  | _ => (false, x)
  end.

(** [model_derv_impl::prepare_tr]: only the gates have one. *)
Definition prepare_tr (x : device) : bool * device :=
  match x with
  | mk_device (c_gate2 k) d => let r := gate2_prepare_tr d in (r.1, mk_device (c_gate2 k) r.2)
  | mk_device (c_gate1 k) d => let r := gate1_prepare_tr d in (r.1, mk_device (c_gate1 k) r.2)
  | _ => (true, x)
  end.

(** The [TR] case of [prepare]: every model is prepared once. *)
Definition prepare_model_tr (c : circult device) (mid : nat) : option (circult device) :=
  mb ← c_models c !! mid;
  match mb_ptr mb with
  | None => Some c
  | Some x =>
      let '(ok, x') := prepare_tr x in
      if ok then Some (with_model c mid (mk_model (mb_pins mb) (Some x')) (c_world c) (digital_out c))
      else None
  end.

Definition prepare_TR (c : circult device) : option (circult device) :=
  c' ← prepare c;
  if has_prepare c then Some c' else fold_option prepare_model_tr (nl_models c) c'.

(** ** Settings keep the invariant *)

(** Setting any attribute of any device leaves the number of pins, the driven
    pins and the coherence condition as they are. *)
Lemma set_attribute_keeps (x : device) (n : nat) (vi : variant) :
  let x' := (set_attribute x n vi).2 in
  num_pins x' = num_pins x /\ dev_outs x' = dev_outs x /\ (forall st, dev_coh x st -> dev_coh x' st).
Proof.
  destruct x as [c d]; destruct c; simpl; try (split_and!; done).
  - unfold gate2_set_attribute. by destruct (set_levels _ _ _).
  - unfold gate1_set_attribute. by destruct (set_levels _ _ _).
  - split_and!; [done|done|]. intros st Hc. unfold INPUT_set_attribute_define.
    destruct n as [|n]; [|done]. by destruct vi.
Qed.

(** ** Gate networks *)


(** ** TRI *)



(** ** A small circuit: INPUT, NOT, OUTPUT *)

Definition ex_models : gmap nat (model_base device) :=
  {[ 10 := mk_model (pins_to [Some 0]) (Some (mk_device c_input INPUT_init));
     11 := mk_model (pins_to [Some 0; Some 1]) (Some (mk_device (c_gate1 k_not) (gate1_init k_not)));
     12 := mk_model (pins_to [Some 1]) (Some (mk_device c_output OUTPUT_init)) ]}.

Definition ex_nodes : gmap nat node_t :=
  {[ 0 := mk_node (dn dns_default) {[(10, 0); (11, 0)]} 0 SIZE_MAX;
     1 := mk_node (dn dns_default) {[(11, 1); (12, 0)]} 0 SIZE_MAX ]}.

Definition ex_circuit : circult device :=
  mk_circult [0; 1] [10; 11; 12] ex_models (mk_world ex_nodes (mk_table ∅ ∅)) d0 [] [] [] [] 0 false.

(** Prepare for a transient analysis and run one tick. *)
Definition start (c : circult device) : option (circult device) :=
  c1 ← prepare_TR c; digital_clk c1.

Definition restart (c : circult device) : option (circult device) := c1 ← reset c; start c1.

(** One tick with a small budget, for evaluation. *)
Definition tick_with (b : nat) (c : circult device) : option (circult device) :=
  c1 ← before_digital_clk (with_out c []);
  c2 ← settle_loop b (seed_tables c1);
  if decide (queue c2 = ∅) then after_table_digital_clk c2 else None.

Lemma tick_with_sound (b : nat) (c c' : circult device) :
  b <= 1000 -> tick_with b c = Some c' -> digital_clk c = Some c'.
Proof.
  unfold tick_with. intros Hb Ht.
  destruct (before_digital_clk (with_out c [])) as [c1|] eqn:E1; [|done]. simpl in Ht.
  destruct (settle_loop b (seed_tables c1)) as [c2|] eqn:E2; [|done]. simpl in Ht.
  destruct (decide (queue c2 = ∅)) as [He|]; [|done].
  by rewrite (digital_clk_eval b c c1 c2).
Qed.

Definition ex_prepared : circult device := default ex_circuit (prepare_TR ex_circuit).
Definition ex_started : circult device := default ex_circuit (tick_with 10 ex_prepared).
Definition ex_reset : circult device := default ex_circuit (reset ex_started).
Definition ex_prepared2 : circult device := default ex_circuit (prepare_TR ex_reset).
Definition ex_restarted : circult device := default ex_circuit (tick_with 10 ex_prepared2).

(** A reset circuit does not start like a new one: [reset] and [prepare]
    put every digital node back to [X] but leave what the models remember of
    their outputs, so in the circuit INPUT-NOT-OUTPUT the first tick after
    construction drives the NOT output high, while the first tick after a
    [reset] with the same settings leaves it unknown with nothing queued: the
    INPUT finds its level unchanged and does not announce it. *)
Lemma reset_keeps_stale_outputs :
  exists c1 c2,
    start ex_circuit = Some c1 /\ restart c1 = Some c2 /\
    state_at (c_world c1) 0 = Some false_state /\ state_at (c_world c1) 1 = Some true_state /\
    state_at (c_world c2) 0 = Some false_state /\ state_at (c_world c2) 1 = Some indeterminate_state /\
    queue c2 = ∅.
Proof.
  assert (H1 : prepare_TR ex_circuit = Some ex_prepared) by eval_some.
  assert (H2 : tick_with 10 ex_prepared = Some ex_started) by eval_some.
  assert (H3 : reset ex_started = Some ex_reset) by eval_some.
  assert (H4 : prepare_TR ex_reset = Some ex_prepared2) by eval_some.
  assert (H5 : tick_with 10 ex_prepared2 = Some ex_restarted) by eval_some.
  exists ex_started, ex_restarted. unfold restart, start.
  rewrite H1, H3. cbn [mbind option_bind]. rewrite H4. cbn [mbind option_bind].
  rewrite (tick_with_sound 10 _ _ ltac:(lia) H2), (tick_with_sound 10 _ _ ltac:(lia) H5).
  split_and!; vm_compute; reflexivity.
Qed.

(** ** Witnesses *)

(** Case analysis on a lookup in an explicit map. *)
Ltac map_cases H :=
  repeat (apply lookup_insert_Some in H as [[<- <-]|[? H]]);
  try apply lookup_singleton_Some in H as [<- <-].

Lemma ex_models_lookup (m : nat) (mb : model_base device) :
  ex_models !! m = Some mb ->
  (m = 10 /\ mb = mk_model (pins_to [Some 0]) (Some (mk_device c_input INPUT_init))) \/
  (m = 11 /\ mb = mk_model (pins_to [Some 0; Some 1]) (Some (mk_device (c_gate1 k_not) (gate1_init k_not)))) \/
  (m = 12 /\ mb = mk_model (pins_to [Some 1]) (Some (mk_device c_output OUTPUT_init))).
Proof. unfold ex_models. intros H. map_cases H; eauto. Qed.

Lemma ex_nodes_lookup (n : nat) (nd : node_t) :
  ex_nodes !! n = Some nd ->
  (n = 0 /\ nd = mk_node (dn dns_default) {[(10, 0); (11, 0)]} 0 SIZE_MAX) \/
  (n = 1 /\ nd = mk_node (dn dns_default) {[(11, 1); (12, 0)]} 0 SIZE_MAX).
Proof. unfold ex_nodes. intros H. map_cases H; eauto. Qed.

Lemma ex_netlist_ok : netlist_ok ex_circuit.
Proof.
  split.
  - reflexivity.
  - intros n Hn. simpl in Hn. set_unfold in Hn. destruct Hn as [->|[->|[]]]; by eexists.
  - intros n nd [[-> ->]|[-> ->]]%ex_nodes_lookup; (split; [done|by eexists]).
  - intros m. simpl. split.
    + intros Hm. set_unfold in Hm. destruct Hm as [->|[->|[->|[]]]]; by eexists.
    + intros [mb [[-> _]|[[-> _]|[-> _]]]%ex_models_lookup]; set_solver.
  - simpl. repeat constructor; set_solver.
  - intros m mb i n [[-> ->]|[[-> ->]|[-> ->]]]%ex_models_lookup Hi; cbn [mb_pins] in Hi;
      destruct i as [|[|i]]; cbn in Hi; simplify_eq; (eexists; split_and!; [reflexivity|set_solver|simpl; set_solver]).
  - intros n nd p [[-> ->]|[-> ->]]%ex_nodes_lookup Hp; simpl in Hp; set_unfold in Hp;
      destruct Hp as [->| ->]; (eexists _, _; split_and!; reflexivity).
  - intros m pins d [[-> ?]|[[-> ?]|[-> ?]]]%ex_models_lookup; by simplify_eq.
  - intros m pins d [[-> ?]|[[-> ?]|[-> ?]]]%ex_models_lookup; simplify_eq; intros i j n Hi Hj _ _;
      cbn in Hi, Hj; set_unfold; naive_solver.
  - intros m1 p1 e1 m2 p2 e2 Hne H1%ex_models_lookup H2%ex_models_lookup.
    destruct H1 as [[-> ?]|[[-> ?]|[-> ?]]], H2 as [[-> ?]|[[-> ?]|[-> ?]]]; simplify_eq;
      (apply (bool_decide_unpack _); vm_compute; exact I).
  - intros m pins d [[-> ?]|[[-> ?]|[-> ?]]]%ex_models_lookup; simplify_eq; cbn; try done.
    intros _. by exists 0, 0.
  - intros m pins d [[-> ?]|[[-> ?]|[-> ?]]]%ex_models_lookup; simplify_eq; intros st Hst; cbn; auto.
Qed.

Definition ex_ready : circult device := default ex_circuit (prepare ex_circuit).
Definition ex_ticked : circult device := default ex_circuit (tick_with 10 ex_ready).

Lemma ex_ready_prepared : prepare ex_circuit = Some ex_ready.
Proof. eval_some. Qed.

Lemma ex_ready_ticks : digital_clk ex_ready = Some ex_ticked.
Proof. apply (tick_with_sound 10); [lia|eval_some]. Qed.

Lemma ex_ready_inv : wf ex_ready /\ coherent ex_ready.
Proof.
  destruct (prepare_base ex_circuit ex_netlist_ok) as (c & Hp & Hw & Hc & _).
  rewrite ex_ready_prepared in Hp. by simplify_eq.
Qed.

Lemma digital_clk_safe_witness :
  exists c', digital_clk ex_ready = Some c' /\ digital_out c' = [] /\ wf c' /\ coherent c' /\
    (forall mid, model_static <$> c_models c' !! mid = model_static <$> c_models ex_ready !! mid) /\
    (forall n, shape <$> w_nodes (c_world c') !! n = shape <$> w_nodes (c_world ex_ready) !! n).
Proof. apply (digital_clk_safe ex_ready); apply ex_ready_inv. Defined.

Lemma digital_clk_quiescent_witness :
  exists c', digital_clk ex_ready = Some c' /\ covered c' 10 /\
    (queue c' = ∅ -> forall pins d, c_models c' !! 10 = Some (mk_model pins (Some d)) -> connected pins ->
       settled pins d (c_world c') (tr_duration c')).
Proof.
  apply (digital_clk_quiescent ex_ready 10); [apply ex_ready_inv..|].
  right. vm_compute. constructor.
Defined.

Lemma reachable_in_order_witness :
  wf ex_ticked /\ coherent ex_ticked /\ exists c', digital_clk ex_ticked = Some c' /\ digital_out c' = [].
Proof.
  apply (reachable_in_order ex_ticked). eapply reach_tick; [|exact ex_ready_ticks].
  eapply reach_prepare; [exact ex_netlist_ok|exact ex_ready_prepared].
Defined.











