(* ===== verification/Settle.v ===== *)
(** * Circuits without feedback settle

    The event loop of circuits/circuit.h ends a tick by emptying its queue, not
    by its iteration budget, when the models read each other without a cycle
    and each of them is done after one update.

    Freedom from cycles is given by weights: the weight of a model is at least
    the number of its outputs plus the weights of the models that read them.
    The loop then has a measure: the nodes in the queue plus the weights of the
    models that are not at rest.  Updating a model at rest changes nothing;
    updating another one queues at most its outputs and disturbs at most its
    readers; taking a node from the queue takes one away. *)

From S2P Require Import Prelude Double Logic4 Variant Node Device Gates Arith Sequential LogicIO Circuit Engine.
From Stdlib Require Import Lia.

(** ** Sums over sets *)

Definition wsum (V : nat -> nat) (s : gset nat) : nat := sum_list_with V (elements s).

Lemma sum_list_with_perm (V : nat -> nat) (l k : list nat) : l ≡ₚ k -> sum_list_with V l = sum_list_with V k.
Proof. induction 1; simpl; lia. Qed.

Lemma wsum_insert (V : nat -> nat) (s : gset nat) (x : nat) : x ∉ s -> wsum V ({[x]} ∪ s) = V x + wsum V s.
Proof. intros Hx. unfold wsum. by rewrite (sum_list_with_perm _ _ _ (elements_union_singleton s x Hx)). Qed.

Lemma wsum_delete (V : nat -> nat) (s : gset nat) (x : nat) : x ∈ s -> wsum V s = V x + wsum V (s ∖ {[x]}).
Proof.
  intros Hx. rewrite <- wsum_insert by set_solver. f_equal. apply set_eq. intros y.
  destruct (decide (y = x)); set_solver.
Qed.

Lemma wsum_union (V : nat -> nat) (s t : gset nat) : wsum V (s ∪ t) <= wsum V s + wsum V t.
Proof.
  induction s as [|x s Hx IH] using set_ind_L; [rewrite (left_id_L ∅ (∪)); lia|].
  rewrite wsum_insert by done. destruct (decide (x ∈ t)) as [Ht|Ht].
  - replace ({[x]} ∪ s ∪ t) with (s ∪ t) by set_solver. lia.
  - rewrite <- (assoc_L (∪)), wsum_insert by set_solver. lia.
Qed.

Lemma wsum_elem (V : nat -> nat) (s : gset nat) (x : nat) : x ∈ s -> V x <= wsum V s.
Proof. intros Hx. rewrite (wsum_delete V s x Hx). lia. Qed.

Section settle.
Context {D : Type} `{DeviceSpec D}.
Implicit Types (c : circult D) (pins : list pin) (d : D) (mid n : nat) (B : gset nat).

(** ** Who reads whom *)

(** The nodes on the pins of a model other than its outputs. *)
Definition in_nodes (pins : list pin) (outs : list nat) : gset nat :=
  list_to_set (omap (pin_at pins) (filter (fun i => i ∉ outs) (seq 0 (length pins)))).

Definition reads (a b : model_base D) : Prop :=
  match mb_ptr a, mb_ptr b with
  | Some d, Some e => in_nodes (mb_pins b) (dev_outs e) ∩ out_nodes (mb_pins a) (dev_outs d) ≠ ∅
  | _, _ => False
  end.

#[global] Instance reads_dec (a b : model_base D) : Decision (reads a b).
Proof. unfold reads. destruct (mb_ptr a), (mb_ptr b); apply _. Defined.

Definition readers c mid : gset nat :=
  match c_models c !! mid with
  | None => ∅
  | Some a => dom (filter (fun kb => reads a kb.2) (c_models c))
  end.

(** Weights: a certificate that the circuit has no feedback. *)
Definition weights c (V : nat -> nat) : Prop :=
  forall mid pins d, c_models c !! mid = Some (mk_model pins (Some d)) ->
  length (dev_outs d) + wsum V (readers c mid) <= V mid.

Definition prompt c : Prop :=
  forall mid pins d, c_models c !! mid = Some (mk_model pins (Some d)) -> dev_prompt d.

Lemma elem_of_in_nodes pins (outs : list nat) n :
  n ∈ in_nodes pins outs <-> (exists i, (i ∉ outs) /\ pin_at pins i = Some n).
Proof.
  unfold in_nodes. rewrite elem_of_list_to_set, list_elem_of_omap. split.
  - intros (i & Hi & Hn). apply list_elem_of_filter in Hi as [Hi _]. eauto.
  - intros (i & Hi & Hn). exists i. split; [|done]. apply list_elem_of_filter. split; [done|].
    apply elem_of_seq. pose proof (pin_at_lt _ _ _ Hn). lia.
Qed.

Lemma elem_of_readers c mid m pins d :
  c_models c !! mid = Some (mk_model pins (Some d)) ->
  m ∈ readers c mid <-> (exists pins' e i n, c_models c !! m = Some (mk_model pins' (Some e)) /\
    (i ∉ dev_outs e) /\ pin_at pins' i = Some n /\ n ∈ out_nodes pins (dev_outs d)).
Proof.
  intros Hm. unfold readers. rewrite Hm, elem_of_dom. split.
  - intros [[pins' [e|]] Hb]; apply map_lookup_filter_Some in Hb as [Hb Hr]; unfold reads in Hr; simpl in Hr; [|done].
    apply set_choose_L in Hr as [n Hn]. apply elem_of_intersection in Hn as [Hi Ho].
    apply elem_of_in_nodes in Hi as (i & Hi & Hp). by exists pins', e, i, n.
  - intros (pins' & e & i & n & Hb & Hi & Hp & Ho). exists (mk_model pins' (Some e)).
    apply map_lookup_filter_Some. split; [done|]. unfold reads. simpl. intros He.
    assert (n ∈ (∅ : gset nat)); [|set_solver]. rewrite <- He. apply elem_of_intersection. split; [|done].
    apply elem_of_in_nodes. eauto.
Qed.

(** Weights leave no room for a model that reads its own output. *)
Lemma weights_irreflexive c V mid pins d :
  weights c V -> c_models c !! mid = Some (mk_model pins (Some d)) -> mid ∉ readers c mid.
Proof.
  intros HV Hm Hin. pose proof (HV _ _ _ Hm) as Hw. pose proof (wsum_elem V _ _ Hin) as Hs.
  apply (elem_of_readers _ _ _ _ _ Hm) in Hin as (pins' & e & i & n & _ & _ & _ & Hn).
  apply elem_of_out_nodes in Hn as (j & Hj & _). destruct (dev_outs d); [by apply not_elem_of_nil in Hj|].
  simpl in Hw. lia.
Qed.

Lemma out_nodes_size pins (outs : list nat) : size (out_nodes pins outs) <= length outs.
Proof.
  unfold out_nodes. induction outs as [|i outs IH]; simpl; [done|]. destruct (pin_at pins i) as [n|]; simpl; [|by apply Nat.le_le_succ_r].
  rewrite size_union_alt, size_singleton. apply le_n_S. etrans; [|exact IH]. apply subseteq_size. set_solver.
Qed.

(** ** Updates do not change who reads whom *)

Lemma evolves_static d e : evolves d e -> dev_outs e = dev_outs d /\ (dev_prompt d -> dev_prompt e).
Proof.
  induction 1 as [|d1 d2 d3 (m & st & ->) _ [IH1 IH2]]; [done|]. split.
  - rewrite IH1. apply dev_static.
  - intros Hp. apply IH2. by apply dev_prompt_post.
Qed.

Section evolved.
Variables (c c' : circult D).
Hypothesis Hev : forall mid, evolved (c_models c !! mid) (c_models c' !! mid).

Lemma evolved_forth mid pins d :
  c_models c !! mid = Some (mk_model pins (Some d)) ->
  exists e, c_models c' !! mid = Some (mk_model pins (Some e)) /\ dev_outs e = dev_outs d /\ (dev_prompt d -> dev_prompt e).
Proof.
  intros Hm. specialize (Hev mid). rewrite Hm in Hev. simpl in Hev. destruct Hev as (e & He & Hd).
  exists e. split; [done|]. by apply evolves_static.
Qed.

Lemma evolved_back mid pins e :
  c_models c' !! mid = Some (mk_model pins (Some e)) ->
  exists d, c_models c !! mid = Some (mk_model pins (Some d)) /\ dev_outs e = dev_outs d /\ (dev_prompt d -> dev_prompt e).
Proof.
  intros Hm. pose proof (Hev mid) as He. destruct (c_models c !! mid) as [[pins0 [d|]]|] eqn:E; simpl in He; [|congruence..].
  destruct He as (e' & He & Hd). rewrite Hm in He. simplify_eq. exists d. split; [done|]. by apply evolves_static.
Qed.

Lemma evolved_readers mid pins d :
  c_models c !! mid = Some (mk_model pins (Some d)) -> readers c' mid = readers c mid.
Proof.
  intros Hm. destruct (evolved_forth _ _ _ Hm) as (e & He & Ho & _). apply set_eq. intros m.
  rewrite (elem_of_readers c' mid m pins e He), (elem_of_readers c mid m pins d Hm), Ho. split.
  - intros (pins' & f & i & n & Hb & Hi & Hr). destruct (evolved_back _ _ _ Hb) as (f' & Hb' & Hf & _).
    exists pins', f', i, n. by rewrite <- Hf.
  - intros (pins' & f & i & n & Hb & Hi & Hr). destruct (evolved_forth _ _ _ Hb) as (f' & Hb' & Hf & _).
    exists pins', f', i, n. by rewrite Hf.
Qed.

Lemma evolved_weights V : weights c V -> weights c' V.
Proof.
  intros HV mid pins e He. destruct (evolved_back _ _ _ He) as (d & Hm & Ho & _).
  rewrite Ho, (evolved_readers _ _ _ Hm). by eapply HV.
Qed.

Lemma evolved_prompt : prompt c -> prompt c'.
Proof. intros Hp mid pins e He. destruct (evolved_back _ _ _ He) as (d & Hm & _ & Hpp). by eapply Hpp, Hp. Qed.
End evolved.

(** ** The measure *)

(** Every model outside [B] is at rest. *)
Definition calm c B : Prop :=
  forall mid pins d, c_models c !! mid = Some (mk_model pins (Some d)) -> mid ∉ B -> at_rest pins d (c_world c).

Definition measure (V : nat -> nat) c B : nat := size (queue c) + wsum V B.

(** Updating a model at rest changes nothing. *)
Lemma rest_update c mid pins d :
  wf c -> coherent c -> c_models c !! mid = Some (mk_model pins (Some d)) -> connected pins ->
  at_rest pins d (c_world c) -> update_model update_table c mid = Some c.
Proof.
  intros Hw Hc Hm Hk [Hd Hq]. rewrite (update_model_eq c update_table mid pins d Hw Hm Hk). f_equal.
  rewrite Hd, quiet_run_acts by (done || by apply (wf_digital_pins c mid _ Hw Hm)).
  unfold with_model. rewrite insert_id by done. by destruct c.
Qed.

Section busy.
Variables (V : nat -> nat) (c : circult D) (B : gset nat) (mid : nat) (pins : list pin) (d : D).
Hypothesis Hwf : wf c.
Hypothesis Hcoh : coherent c.
Hypothesis HV : weights c V.
Hypothesis Hprompt : prompt c.
Hypothesis Hm : c_models c !! mid = Some (mk_model pins (Some d)).
Hypothesis Hk : connected pins.

Let st := pin_states pins (c_world c).
Let d' : D := (dev_eval d update_table st).1.
Let w' : world := run_acts pins (c_world c) (dev_eval d update_table st).2.
Let c' : circult D := with_model c mid (mk_model pins (Some d')) w' (digital_out c).

Lemma busy_world : wstep (out_nodes pins (dev_outs d)) (c_world c) w'.
Proof. by apply (update_world c update_table mid pins d Hwf Hcoh Hm). Qed.

(** The inputs of the updated model have not changed. *)
Lemma busy_inputs (i : nat) : i ∉ dev_outs d -> pin_states pins w' i = st i.
Proof.
  intros Hi. unfold st, pin_states. destruct (pin_at pins i) as [n|] eqn:E; [|done]. simpl. unfold state_at.
  rewrite (ws_frame _ _ _ busy_world); [done|]. intros Hn. apply (weights_irreflexive c V mid pins d HV Hm).
  apply (elem_of_readers c mid mid pins d Hm). by exists pins, d, i, n.
Qed.

Lemma busy_at_rest : at_rest pins d' w'.
Proof.
  destruct (dev_static d update_table st) as [Hnum Houts]. destruct (dev_again d st) as [Hd Hr]; [by eapply Hprompt|].
  unfold at_rest. rewrite (dev_local d' update_table (pin_states pins w') st).
  - split; [exact Hd|]. eapply Forall_impl; [exact Hr|]. intros a (Hf & b & Hb & Hpin & Hst).
    destruct (update_own_state c update_table mid pins d Hwf Hm b Hb) as [Ho|Ho]; fold st w' in Ho;
      rewrite Hpin, ?Hst in Ho; destruct a as [i s|i s []]; simpl in *; tauto.
  - unfold d'. rewrite Houts. intros i _ Hi. by apply busy_inputs.
  - intros i _. unfold st, pin_states. destruct (pin_at pins i) as [n|] eqn:E; [|done]. simpl.
    pose proof (wf_digital_pins c mid _ Hwf Hm i n E) as Hdig.
    destruct (digital_at_state _ _ Hdig) as [s ->]. destruct (digital_at_state _ _ (ws_digital _ _ _ busy_world n Hdig)) as [s' ->].
    split; by eexists.
Qed.

(** Only readers of the updated model are disturbed. *)
Lemma busy_calm : calm c B -> calm c' ((B ∖ {[mid]}) ∪ readers c mid).
Proof.
  intros Hcalm m pins1 d1 Hm1 Hb. simpl. apply not_elem_of_union in Hb as [Hb Hnr].
  destruct (update_models c update_table mid pins d Hm Hk m pins1 d1 Hm1) as [(-> & -> & ->)|[Hne Hm0]]; [apply busy_at_rest|].
  eapply at_rest_stable; [|apply (Hcalm m pins1 d1 Hm0); set_solver].
  intros n Hn. apply (ws_frame _ _ _ busy_world). intros Ho. apply elem_of_pin_nodes_of in Hn as [i Hi].
  destruct (decide (i ∈ dev_outs d1)) as [Hout|Hin].
  - eapply (wf_driver _ Hwf mid pins d m pins1 d1); [done..|exact Ho|]. apply elem_of_out_nodes. eauto.
  - apply Hnr. apply (elem_of_readers c mid m pins d Hm). by exists pins1, d1, i, n.
Qed.

Lemma busy_measure : mid ∈ B -> measure V c' ((B ∖ {[mid]}) ∪ readers c mid) <= measure V c B.
Proof.
  intros HB. unfold measure, queue. simpl. pose proof (HV _ _ _ Hm) as Hw. rewrite (wsum_delete V B mid HB).
  pose proof (wsum_union V (B ∖ {[mid]}) (readers c mid)).
  assert (size (tables (w_table w')) <= size (tables (w_table (c_world c))) + length (dev_outs d)); [|lia].
  etrans; [apply subseteq_size, (ws_only _ _ _ busy_world)|]. rewrite size_union_alt.
  apply Nat.add_le_mono_l. etrans; [|apply (out_nodes_size pins)]. apply subseteq_size. set_solver.
Qed.
End busy.

(** ** The loop *)

(** What the loop keeps, with the set of models that may be disturbed. *)
Definition bounded (V : nat -> nat) (b : nat) c : Prop := exists B, calm c B /\ measure V c B <= b.

Lemma visit_bounded (V : nat -> nat) (b : nat) c p :
  wf c -> coherent c -> weights c V -> prompt c -> pin_ok c p -> bounded V b c ->
  exists c', visit_pin c p = Some c' /\ frame c c' /\ bounded V b c'.
Proof.
  intros Hw Hc HV Hp Hpin (B & Hcalm & Hb). destruct (visit_frame c p Hw Hc Hpin) as (c' & Hv & Hf & _).
  exists c'. split; [done|]. split; [done|].
  destruct Hpin as (mb & pn & n & Hm & Hpn & Hn & Hmod). unfold visit_pin in Hv.
  rewrite Hm in Hv. simpl in Hv. rewrite Hpn in Hv. simpl in Hv. rewrite Hmod in Hv. simpl in Hv. rewrite Hm in Hv. simpl in Hv.
  destruct mb as [pins [d|]]; simpl in *; [|simplify_eq; by exists B].
  assert (Hk : connected pins) by (exists p.2, n; unfold pin_at; by rewrite Hpn).
  destruct (decide (p.1 ∈ B)) as [HB|HB].
  - rewrite (update_model_eq c update_table p.1 pins d Hw Hm Hk) in Hv. injection Hv as <-.
    exists ((B ∖ {[p.1]}) ∪ readers c p.1). split; [by eapply busy_calm|]. etrans; [|exact Hb]. by eapply busy_measure.
  - rewrite (rest_update c p.1 pins d Hw Hc Hm Hk) in Hv by (by eapply Hcalm). injection Hv as <-. by exists B.
Qed.

Lemma visits_bounded (V : nat -> nat) (b : nat) (l : list (nat * nat)) c :
  wf c -> coherent c -> weights c V -> prompt c -> (forall p, p ∈ l -> pin_ok c p) -> bounded V b c ->
  exists c', fold_option visit_pin l c = Some c' /\ bounded V b c'.
Proof.
  revert c. induction l as [|p l IH]; intros c Hw Hc HV Hp Hl Hb; [by exists c|].
  destruct (visit_bounded V b c p) as (c1 & Hv & Hf & Hb1); [done..|apply Hl, list_elem_of_here|done|].
  simpl. rewrite Hv. simpl. apply IH.
  - apply Hf.
  - apply Hf.
  - eapply evolved_weights; [apply Hf|done].
  - eapply evolved_prompt; [apply Hf|done].
  - intros q Hq. eapply pin_ok_frame; [exact Hf|]. apply Hl. by apply list_elem_of_further.
  - done.
Qed.

Lemma process_bounded (V : nat -> nat) (b : nat) c n :
  wf c -> coherent c -> weights c V -> prompt c -> n ∈ queue c -> bounded V (S b) c ->
  exists c', process_node (with_world c (with_tables (c_world c) (queue c ∖ {[n]}))) n = Some c' /\ ticked c c' /\ bounded V b c'.
Proof.
  intros Hw Hc HV Hp Hn (B & Hcalm & Hb). destruct (process_ticked c n Hw Hc Hn) as (c' & Hr & T).
  exists c'. split; [done|]. split; [done|]. unfold process_node in Hr.
  destruct (wf_queue _ Hw n) as [nd Hnd]; [unfold queue in Hn; set_solver|]. simpl in Hr. rewrite Hnd in Hr. simpl in Hr.
  destruct (with_tables_wf c (queue c ∖ {[n]}) Hw Hc) as [Hw1 Hc1].
  { intros k Hk. apply (wf_queue _ Hw). unfold queue in Hk. set_solver. }
  destruct (visits_bounded V b (ordered_pins (node_pins nd)) (with_world c (with_tables (c_world c) (queue c ∖ {[n]}))))
    as (c2 & Hr2 & Hb2); try done; [| |congruence].
  - intros p Hpp. apply elem_of_ordered_pins in Hpp.
    destruct (wf_back _ Hw _ _ _ Hnd Hpp) as (mb & pn & ? & ? & ? & ?). by exists mb, pn, n.
  - exists B. split; [exact Hcalm|]. unfold measure in *. unfold queue at 1. simpl.
    assert (size (queue c) = S (size (queue c ∖ {[n]}))) as Hsz; [|lia].
    rewrite (union_difference_singleton_L n (queue c) Hn) at 1. rewrite size_union by set_solver. by rewrite size_singleton.
Qed.

(** Enough fuel empties the queue. *)
Lemma settle_bounded (V : nat -> nat) (b : nat) c :
  wf c -> coherent c -> weights c V -> prompt c -> bounded V b c ->
  exists c', settle_loop b c = Some c' /\ ticked c c' /\ queue c' = ∅.
Proof.
  revert c. induction b as [|b IH]; intros c Hw Hc HV Hp Hb; simpl;
    destruct (first_node (tables (w_table (c_world c)))) as [n|] eqn:E.
  - destruct Hb as (B & _ & Hb). unfold measure in Hb. apply first_node_elem in E. change (n ∈ queue c) in E.
    assert (size (queue c) = 0) as H0' by lia. apply size_empty_inv in H0'. set_solver.
  - exists c. split; [done|]. split; [by apply ticked_refl|]. apply dec_stable. intros Hne.
    destruct (first_node_some _ Hne) as [n Hn]. unfold queue in Hn. congruence.
  - destruct (process_bounded V b c n Hw Hc HV Hp (first_node_elem _ _ E) Hb) as (c2 & Hr & T & Hb2). unfold queue in Hr.
    rewrite Hr. simpl. destruct (IH c2) as (c' & Hs & T' & He); [apply T|apply T| | |done|].
    + eapply evolved_weights; [apply T|done].
    + eapply evolved_prompt; [apply T|done].
    + exists c'. split; [done|]. split; [by eapply ticked_trans|done].
  - exists c. split; [done|]. split; [by apply ticked_refl|]. apply dec_stable. intros Hne.
    destruct (first_node_some _ Hne) as [n Hn]. unfold queue in Hn. congruence.
Qed.

Lemma evolved_dom c c' : (forall mid, evolved (c_models c !! mid) (c_models c' !! mid)) -> dom (c_models c') = dom (c_models c).
Proof.
  intros Hev. apply set_eq. intros mid. rewrite !elem_of_dom. specialize (Hev mid).
  destruct (c_models c !! mid) as [[pins [d|]]|]; simpl in Hev; [destruct Hev as (e & -> & _); split; by eexists|by rewrite Hev..].
Qed.

Lemma shape_dom (m m' : gmap nat node_t) : (forall n, shape <$> m' !! n = shape <$> m !! n) -> dom m' = dom m.
Proof.
  intros Hs. apply set_eq. intros n. rewrite !elem_of_dom. specialize (Hs n).
  destruct (m !! n), (m' !! n); simpl in Hs; try done; split; by eexists.
Qed.

(** At the start every model may be disturbed and every node queued. *)
Lemma bounded_start (V : nat -> nat) c :
  wf c -> bounded V (size (w_nodes (c_world c)) + wsum V (dom (c_models c))) c.
Proof.
  intros Hw. exists (dom (c_models c)). split.
  - intros mid pins d Hm Hn. destruct Hn. apply elem_of_dom. by eexists.
  - unfold measure. apply Nat.add_le_mono_r. rewrite <- (size_dom (D := gset nat)). apply subseteq_size. intros n Hn.
    apply elem_of_dom, (wf_queue _ Hw). unfold queue in Hn. set_solver.
Qed.

Lemma bounded_mono (V : nat -> nat) (b b' : nat) c : b <= b' -> bounded V b c -> bounded V b' c.
Proof. intros Hb (B & Hc & Hm). exists B. split; [done|lia]. Qed.

(** C2. A circuit without feedback settles in every tick.  Take a digital circuit
    that is well formed (pins and nodes point at each other, connected nodes are
    digital, at most one output drives a node, models updated before the table are
    connected), in which every model remembers what its output nodes hold, and in
    which no model is updated after the table.  When the models are done after one
    update each (of the models of [Engine], all but TRI are) and there are weights
    that certify that no model depends on its own output, and the number of nodes
    and the weights together are within the iteration budget, then [digital_clk]
    ends with an empty queue, and every connected model that was at rest, had a pin
    on a queued node or is updated before the table is settled. *)
Theorem acyclic_settles c (V : nat -> nat) :
  wf c -> coherent c -> prompt c -> weights c V -> after_all_clk_digital_model c = [] ->
  size (w_nodes (c_world c)) + wsum V (dom (c_models c)) <= iter_budget ->
  exists c', digital_clk c = Some c' /\ queue c' = ∅ /\
    forall mid pins d, covered c mid \/ mid ∈ before_all_clk_digital_model c ->
      c_models c' !! mid = Some (mk_model pins (Some d)) -> connected pins ->
      settled pins d (c_world c') (tr_duration c').
Proof.
  intros Hw Hc Hp HV Ha Hbud. destruct (with_out_ticked c [] Hw Hc) as [Hw0 Hc0]. unfold digital_clk.
  destruct (clocked_frame before_all_clk (before_all_clk_digital_model c) (with_out c []) Hw0 Hc0) as (c1 & H1 & F1 & Cov1).
  { intros m Hm. apply (wf_clocked _ Hw). set_solver. }
  unfold before_digital_clk. simpl before_all_clk_digital_model. rewrite H1. simpl.
  pose proof (ticked_trans _ _ _ (frame_ticked _ _ F1) (seed_ticked c1 (fr_wf _ _ F1) (fr_coh _ _ F1))) as T1.
  destruct (settle_bounded V iter_budget (seed_tables c1)) as (c2 & H2 & T2 & He); [apply T1|apply T1| | | |].
  { eapply evolved_weights; [apply (tk_evolved _ _ T1)|exact HV]. }
  { eapply evolved_prompt; [apply (tk_evolved _ _ T1)|exact Hp]. }
  { eapply bounded_mono; [|apply bounded_start, T1]. etrans; [|exact Hbud].
    rewrite <- !(size_dom (D := gset nat)), (shape_dom _ _ (tk_shape _ _ T1)), (evolved_dom _ _ (tk_evolved _ _ T1)). done. }
  pose proof (ticked_trans _ _ _ T1 T2) as T. unfold update_table_digital_clk. rewrite H2. simpl.
  unfold after_table_digital_clk. rewrite (tk_after _ _ T). simpl. rewrite Ha. exists c2. split; [done|]. split; [done|].
  intros mid pins d Hcov Hm Hk. eapply rest_settled; [apply T| |exact Hm|done]. apply covered_empty_rest; [done|].
  destruct Hcov as [Hcov|Hin]; [by apply (tk_covered _ _ T)|]. apply (tk_covered _ _ T2).
  by apply (tk_covered _ _ (seed_ticked c1 (fr_wf _ _ F1) (fr_coh _ _ F1))), Cov1.
Qed.

(** ** Checking a certificate *)

Definition weightsb c (V : nat -> nat) : bool :=
  forallb (fun kb => match mb_ptr kb.2 with
                     | Some d => bool_decide (length (dev_outs d) + wsum V (readers c kb.1) <= V kb.1)
                     | None => true
                     end) (map_to_list (c_models c)).

Lemma weightsb_sound c V : weightsb c V = true -> weights c V.
Proof.
  unfold weightsb. rewrite forallb_forall. intros Hall mid pins d Hm.
  specialize (Hall (mid, mk_model pins (Some d))). simpl in Hall. eapply bool_decide_eq_true_1, Hall.
  apply list_elem_of_In, elem_of_map_to_list, Hm.
Qed.

Definition promptb (P : D -> bool) c : bool :=
  forallb (fun kb => match mb_ptr kb.2 with Some d => P d | None => true end) (map_to_list (c_models c)).

Lemma promptb_sound (P : D -> bool) c : (forall d, P d = true -> dev_prompt d) -> promptb P c = true -> prompt c.
Proof.
  intros HP. unfold promptb. rewrite forallb_forall. intros Hall mid pins d Hm.
  specialize (Hall (mid, mk_model pins (Some d))). simpl in Hall. apply HP, Hall.
  apply list_elem_of_In, elem_of_map_to_list, Hm.
Qed.
End settle.

(** ** The digital models *)

Definition is_prompt (x : device) : bool := match dev_type x with c_tri => false | _ => true end.

Lemma is_prompt_sound (x : device) : is_prompt x = true -> dev_prompt x.
Proof. destruct x as [[] d]; simpl; done. Qed.

(** INPUT, NOT and OUTPUT in a row. *)
Definition ex_weights (mid : nat) : nat := match mid with 10 => 2 | 11 => 1 | _ => 0 end.

Lemma acyclic_settles_witness :
  exists c', digital_clk ex_ready = Some c' /\ queue c' = ∅ /\
    forall mid pins d, covered ex_ready mid \/ mid ∈ before_all_clk_digital_model ex_ready ->
      c_models c' !! mid = Some (mk_model pins (Some d)) -> connected pins ->
      settled pins d (c_world c') (tr_duration c').
Proof.
  apply (acyclic_settles ex_ready ex_weights).
  - apply ex_ready_inv.
  - apply ex_ready_inv.
  - apply (promptb_sound is_prompt); [exact is_prompt_sound|vm_compute; reflexivity].
  - apply weightsb_sound. vm_compute. reflexivity.
  - vm_compute. reflexivity.
  - etrans; [|exact iter_budget_large]. apply (bool_decide_unpack _). vm_compute. exact I.
Defined.
