(* ===== verification/Codec.v ===== *)
(** * The netlist file codec

    pe_nl_fileformat/codec.h and status.h: variable-length integers, fixed-size
    values, IEEE doubles, strings and vectors appended to a byte string and
    read back at an offset.

    A byte is an integer in [0, 256), a [std::string] a list of bytes.  Readers
    return the status, the offset and the value as the C++ leaves them, errors
    included; [None] is a read outside the input.  A [double] is its 64-bit
    pattern: both sides only copy it. *)

From S2P Require Import Prelude.
From Stdlib Require Import ZArith Lia.

#[local] Open Scope Z_scope.

(** ** status.h *)

Inductive errc := ok | invalid_argument | io_error | db_error | corrupt | unsupported | not_found.

#[global] Instance errc_eq_dec : EqDecision errc.
Proof. solve_decision. Defined.

Record status := mk_status { code : errc; message : string }.

#[global] Instance status_eq_dec : EqDecision status.
Proof. solve_decision. Defined.

Definition success : status := mk_status ok "".

Definition status_ok (s : status) : bool := bool_decide (code s = ok).

(** ** Machine integers and bytes *)

Definition u64 (z : Z) : Z := z mod 2 ^ 64.

Definition is_byte (b : Z) : Prop := 0 <= b < 256.

(** [in.size() - off] in [size_t]. *)
Definition remaining (inp : list Z) (off : nat) : Z := u64 (Z.of_nat (length inp) - Z.of_nat off).

(** [in.data() + off] for [n] bytes; [None] outside the string. *)
Definition slice (inp : list Z) (off n : nat) : option (list Z) :=
  if bool_decide (off + n <= length inp)%nat then Some (take n (drop off inp)) else None.

(** ** Writers *)

Definition append_bytes (out : list Z) (p : list Z) : list Z := out ++ p.

(** A trivially copyable value is its object representation. *)
Definition append_trivial (out : list Z) (v : list Z) : list Z := append_bytes out v.

Definition append_u8 (out : list Z) (v : Z) : list Z := out ++ [v mod 256].

Fixpoint uleb_loop (fuel : nat) (out : list Z) (v : Z) : option (list Z) :=
  match fuel with
  | O => None
  | S f =>
      if 128 <=? v then uleb_loop f (append_u8 out (Z.lor (v mod 256) 128)) (Z.shiftr v 7)
      else Some (append_u8 out (v mod 256))
  end.

(** Ten rounds of seven bits cover 64 bits. *)
Definition append_uleb128 (out : list Z) (v : Z) : option (list Z) := uleb_loop 10 out v.

Definition append_string (out s : list Z) : option (list Z) :=
  out' ← append_uleb128 out (Z.of_nat (length s)); Some (append_bytes out' s).

(** Elements of a vector are object representations of the same size. *)
Definition append_trivial_vector (out : list Z) (v : list (list Z)) : option (list Z) :=
  out' ← append_uleb128 out (Z.of_nat (length v));
  Some (if bool_decide (v = []) then out' else append_bytes out' (mjoin v)).

(** ** Readers *)

Fixpoint read_uleb_loop (fuel : nat) (inp : list Z) (off : nat) (v shift : Z) : option (status * nat * Z) :=
  match fuel with
  | O => None
  | S f =>
      if bool_decide (length inp <= off)%nat
      then Some (mk_status corrupt "unexpected EOF while reading varint", off, v)
      else
        b ← inp !! off;
        let off := S off in
        let v := Z.lor v (u64 (Z.shiftl (Z.land b 127) shift)) in
        if Z.land b 128 =? 0 then Some (success, off, v)
        else
          let shift := shift + 7 in
          if 64 <=? shift then Some (mk_status corrupt "varint overflow", off, v)
          else read_uleb_loop f inp off v shift
  end.

Definition read_uleb128 (inp : list Z) (off : nat) : option (status * nat * Z) :=
  read_uleb_loop 10 inp off 0 0.

Definition read_trivial (sizeof : nat) (inp : list Z) (off : nat) (v : list Z) : option (status * nat * list Z) :=
  if remaining inp off <? Z.of_nat sizeof
  then Some (mk_status corrupt "unexpected EOF while reading fixed-size value", off, v)
  else b ← slice inp off sizeof; Some (success, (off + sizeof)%nat, b).

Definition read_string (inp : list Z) (off : nat) (s : list Z) : option (status * nat * list Z) :=
  '(st, off, n) ← read_uleb128 inp off;
  if negb (status_ok st) then Some (st, off, s)
  else if remaining inp off <? n then Some (mk_status corrupt "invalid string length", off, s)
  else b ← slice inp off (Z.to_nat n); Some (success, (off + Z.to_nat n)%nat, b).

Fixpoint chunks (k n : nat) (l : list Z) : list (list Z) :=
  match n with O => [] | S n' => take k l :: chunks k n' (drop k l) end.

Definition read_trivial_vector (sizeof : nat) (inp : list Z) (off : nat) (v : list (list Z))
  : option (status * nat * list (list Z)) :=
  '(st, off, n) ← read_uleb128 inp off;
  if negb (status_ok st) then Some (st, off, v)
  else if (2 ^ 64 - 1) / Z.of_nat sizeof <? n then Some (mk_status corrupt "vector length overflow", off, v)
  else
    let bytes := u64 (n * Z.of_nat sizeof) in
    if remaining inp off <? bytes then Some (mk_status corrupt "unexpected EOF while reading vector", off, v)
    else b ← slice inp off (Z.to_nat bytes);
         Some (success, (off + Z.to_nat bytes)%nat, chunks sizeof (Z.to_nat n) b).

(** ** Doubles

    [little] is [std::endian::native == std::endian::little]. *)

(** The [n] low bytes of [u], least significant first. *)
Fixpoint le_bytes (n : nat) (u : Z) : list Z :=
  match n with O => [] | S n' => u mod 256 :: le_bytes n' (u / 256) end.

Fixpoint le_value (l : list Z) : Z :=
  match l with [] => 0 | b :: l' => b + 256 * le_value l' end.

(** The object representation of a [uint64_t] and back. *)
Definition repr_u64 (little : bool) (u : Z) : list Z :=
  if little then le_bytes 8 u else rev (le_bytes 8 u).
Definition value_u64 (little : bool) (l : list Z) : Z :=
  if little then le_value l else le_value (rev l).

(** [for(i = 0; i < 8; ++i) r = (r << 8) | ((u >> (8 * i)) & 0xff);] *)
Definition byteswap_loop (u : Z) : Z :=
  foldl (fun r i => Z.lor (u64 (Z.shiftl r 8)) (Z.land (Z.shiftr u (8 * Z.of_nat i)) 255)) 0 (seq 0 8).

Definition append_f64 (little : bool) (out : list Z) (u : Z) : list Z :=
  if little then append_trivial out (repr_u64 little u)
  else append_trivial out (repr_u64 little (byteswap_loop u)).

Definition read_f64 (little : bool) (inp : list Z) (off : nat) (x : Z) : option (status * nat * Z) :=
  '(st, off, b) ← read_trivial 8 inp off (repr_u64 little 0);
  if negb (status_ok st) then Some (st, off, x)
  else
    let u := value_u64 little b in
    Some (success, off, if little then u else byteswap_loop u).

(** ** Bit arithmetic *)

Lemma lor_shiftl_add (a c s : Z) : 0 <= s -> 0 <= a < 2 ^ s -> Z.lor a (Z.shiftl c s) = a + c * 2 ^ s.
Proof.
  intros Hs Ha. rewrite <- Z.shiftl_mul_pow2 by done. symmetry. apply Z.add_nocarry_lor.
  apply Z.bits_inj'. intros n Hn. rewrite Z.land_spec, Z.bits_0.
  destruct (Z.lt_ge_cases n s) as [Hlt|Hge].
  - rewrite (Z.shiftl_spec_low c s n Hlt). apply andb_false_r.
  - replace a with (a mod 2 ^ s) by (by apply Z.mod_small).
    by rewrite Z.mod_pow2_bits_high.
Qed.

Lemma u64_small (z : Z) : 0 <= z < 2 ^ 64 -> u64 z = z.
Proof. apply Z.mod_small. Qed.

Lemma u64_range (z : Z) : 0 <= u64 z < 2 ^ 64.
Proof. by apply Z.mod_pos_bound. Qed.

(** A fact about bytes, by evaluation. *)
Lemma byte_cases (n : nat) (P : Z -> Prop) `{forall b, Decision (P b)} :
  bool_decide (Forall P (Z.of_nat <$> seq 0 n)) = true -> forall b, 0 <= b < Z.of_nat n -> P b.
Proof.
  intros HF%bool_decide_eq_true b Hb. rewrite Forall_forall in HF. apply HF.
  apply list_elem_of_fmap. exists (Z.to_nat b). split; [lia|]. apply elem_of_seq. lia.
Qed.

Lemma uleb_byte (x : Z) :
  0 <= x < 256 ->
  let b := Z.lor x 128 mod 256 in
  is_byte b /\ Z.land b 127 = x mod 128 /\ Z.land b 128 = 128.
Proof.
  revert x. apply (byte_cases 256 (fun x => let b := Z.lor x 128 mod 256 in
    (0 <= b < 256) /\ Z.land b 127 = x mod 128 /\ Z.land b 128 = 128)).
  vm_compute. reflexivity.
Qed.

Lemma byte_masks (x : Z) :
  0 <= x < 256 -> 0 <= Z.land x 127 < 128 /\ (x < 128 -> Z.land x 127 = x /\ Z.land x 128 = 0).
Proof.
  revert x. apply (byte_cases 256 (fun x => (0 <= Z.land x 127 < 128) /\ (x < 128 -> Z.land x 127 = x /\ Z.land x 128 = 0))).
  vm_compute. reflexivity.
Qed.

Lemma mod_byte (v : Z) : is_byte (v mod 256).
Proof. apply Z.mod_pos_bound. lia. Qed.

(** ** Variable-length integers *)

(** The bytes written for [v]. *)
Fixpoint uleb_bytes (fuel : nat) (v : Z) : list Z :=
  match fuel with
  | O => []
  | S f => if 128 <=? v then (Z.lor (v mod 256) 128) mod 256 :: uleb_bytes f (Z.shiftr v 7)
           else [v mod 256]
  end.

Lemma shiftr7 (v : Z) : Z.shiftr v 7 = v / 128.
Proof. by rewrite Z.shiftr_div_pow2. Qed.

Lemma uleb_loop_bytes (f : nat) (out : list Z) (v : Z) :
  0 <= v < 2 ^ (7 * Z.of_nat f) -> (0 < f)%nat -> uleb_loop f out v = Some (out ++ uleb_bytes f v).
Proof.
  revert out v. induction f as [|f IH]; intros out v Hv Hf; [lia|]. cbn [uleb_loop uleb_bytes].
  destruct (Z.leb_spec 128 v) as [Hge|Hlt].
  - rewrite shiftr7. destruct f as [|f].
    + simpl in Hv. change (2 ^ 7) with 128 in Hv. lia.
    + rewrite IH; [|split|lia].
      * unfold append_u8. by rewrite <- app_assoc.
      * apply Z.div_pos; lia.
      * apply Z.div_lt_upper_bound; [lia|].
        replace (7 * Z.of_nat (S (S f))) with (7 + 7 * Z.of_nat (S f)) in Hv by lia.
        rewrite Z.pow_add_r in Hv by lia. change (2 ^ 7) with 128 in Hv. lia.
  - unfold append_u8. by rewrite Z.mod_mod.
Qed.

Lemma append_uleb128_bytes (out : list Z) (v : Z) :
  0 <= v < 2 ^ 64 -> append_uleb128 out v = Some (out ++ uleb_bytes 10 v).
Proof. intros Hv. apply uleb_loop_bytes; [|lia]. change (2 ^ 64) with 18446744073709551616 in Hv. simpl. lia. Qed.

Lemma uleb_bytes_length (f : nat) (v : Z) : (0 < f)%nat -> (1 <= length (uleb_bytes f v) <= f)%nat.
Proof.
  revert v. induction f as [|f IH]; intros v Hf; [lia|]. cbn [uleb_bytes].
  destruct (128 <=? v); cbn [length]; [|lia]. destruct f; [simpl; lia|]. specialize (IH (Z.shiftr v 7)). lia.
Qed.

Lemma uleb_bytes_range (f : nat) (v : Z) : Forall is_byte (uleb_bytes f v).
Proof.
  revert v. induction f as [|f IH]; intros v; cbn [uleb_bytes]; [constructor|].
  destruct (128 <=? v); constructor; auto using mod_byte.
Qed.

Lemma read_uleb_bytes (f : nat) (pre rest : list Z) (v v0 shift : Z) :
  0 <= shift -> 0 <= v0 < 2 ^ shift -> 0 <= v < 2 ^ (7 * Z.of_nat f) -> (0 < f)%nat ->
  v0 + v * 2 ^ shift < 2 ^ 64 ->
  read_uleb_loop f (pre ++ uleb_bytes f v ++ rest) (length pre) v0 shift =
  Some (success, (length pre + length (uleb_bytes f v))%nat, v0 + v * 2 ^ shift).
Proof.
  revert pre v v0 shift. induction f as [|f IH]; intros pre v v0 shift Hs Hv0 Hv Hf Hmax; [lia|].
  assert (Hp : 0 < 2 ^ shift) by (by apply Z.pow_pos_nonneg).
  cbn [read_uleb_loop uleb_bytes]. pose proof (mod_byte v) as Hm.
  destruct (Z.leb_spec 128 v) as [Hge|Hlt].
  - destruct (uleb_byte (v mod 256) Hm) as (Hb & Hb7 & Hb8).
    set (b := Z.lor (v mod 256) 128 mod 256) in *.
    rewrite bool_decide_false by (rewrite !length_app; cbn [length]; lia).
    rewrite lookup_app_r, Nat.sub_diag by lia. cbn [lookup list_lookup app mbind option_bind].
    rewrite Hb8. change (128 =? 0) with false. cbv iota.
    assert (Hmod : (v mod 256) mod 128 = v mod 128).
    { apply Z.mod_mod_divide. by exists 2. }
    rewrite Hb7, Hmod. pose proof (Z.mod_pos_bound v 128 ltac:(lia)) as Hvm.
    pose proof (Z.div_mod v 128 ltac:(lia)) as Hdm. pose proof (Z.div_le_lower_bound v 128 1 ltac:(lia) ltac:(lia)).
    assert (Hsh : shift + 7 < 64).
    { destruct (Z.lt_ge_cases (shift + 7) 64) as [|Hbig]; [done|exfalso].
      pose proof (Z.pow_le_mono_r 2 64 (shift + 7) ltac:(lia) Hbig) as Hpw.
      rewrite Z.pow_add_r in Hpw by lia. change (2 ^ 7) with 128 in Hpw. nia. }
    assert (Hlow : v0 + v mod 128 * 2 ^ shift < 2 ^ shift * 128) by nia.
    assert (Hsmall : 0 <= v mod 128 * 2 ^ shift < 2 ^ 64) by nia.
    rewrite (u64_small (Z.shiftl _ _)) by (by rewrite Z.shiftl_mul_pow2).
    rewrite lor_shiftl_add by done. rewrite shiftr7.
    destruct (Z.leb_spec 64 (shift + 7)) as [|_]; [lia|].
    destruct f as [|f]; [simpl in Hv; change (2 ^ 7) with 128 in Hv; lia|].
    replace (pre ++ b :: uleb_bytes (S f) (v / 128) ++ rest)
      with ((pre ++ [b]) ++ uleb_bytes (S f) (v / 128) ++ rest) by (by rewrite <- app_assoc).
    replace (S (length pre)) with (length (pre ++ [b])) by (rewrite length_app; simpl; lia).
    assert (Hp7 : 2 ^ (shift + 7) = 2 ^ shift * 128) by (rewrite Z.pow_add_r by lia; done).
    rewrite IH; [|lia| | |lia|].
    + rewrite length_app. cbn [length]. do 2 f_equal; [f_equal; lia|]. rewrite Hp7. nia.
    + rewrite Hp7. nia.
    + split; [apply Z.div_pos; lia|]. apply Z.div_lt_upper_bound; [lia|].
      replace (7 * Z.of_nat (S (S f))) with (7 + 7 * Z.of_nat (S f)) in Hv by lia.
      rewrite Z.pow_add_r in Hv by lia. change (2 ^ 7) with 128 in Hv. lia.
    + rewrite Hp7. nia.
  - rewrite bool_decide_false by (rewrite !length_app; cbn [length]; lia).
    rewrite lookup_app_r, Nat.sub_diag by lia. cbn [lookup list_lookup app mbind option_bind length].
    rewrite (Z.mod_small v 256) by lia.
    destruct (byte_masks v ltac:(lia)) as [_ [H7 H8]]; [lia|]. rewrite H7, H8. simpl (0 =? 0). cbv iota.
    rewrite (u64_small (Z.shiftl _ _)) by (rewrite Z.shiftl_mul_pow2 by done; nia).
    rewrite lor_shiftl_add by done. do 2 f_equal. f_equal. lia.
Qed.

Lemma read_uleb128_bytes (pre rest : list Z) (v : Z) :
  0 <= v < 2 ^ 64 ->
  read_uleb128 (pre ++ uleb_bytes 10 v ++ rest) (length pre) =
  Some (success, length (pre ++ uleb_bytes 10 v), v).
Proof.
  intros Hv. unfold read_uleb128. rewrite (read_uleb_bytes 10 pre rest v 0 0).
  - rewrite length_app. do 2 f_equal. lia.
  - lia.
  - simpl. lia.
  - change (2 ^ 64) with 18446744073709551616 in Hv. simpl. lia.
  - lia.
  - lia.
Qed.

Lemma remaining_le (inp : list Z) (off : nat) :
  (off <= length inp)%nat -> Z.of_nat (length inp) < 2 ^ 64 ->
  remaining inp off = Z.of_nat (length inp) - Z.of_nat off.
Proof. intros Ho Hl. apply u64_small. lia. Qed.

Lemma slice_app (pre b rest : list Z) : slice (pre ++ b ++ rest) (length pre) (length b) = Some b.
Proof.
  unfold slice. rewrite bool_decide_true by (rewrite !length_app; lia).
  by rewrite drop_app_length, take_app_length.
Qed.

Lemma chunks_join (k : nat) (v : list (list Z)) :
  Forall (fun e => length e = k) v -> chunks k (length v) (mjoin v) = v.
Proof.
  induction 1 as [|e v He Hv IH]; [done|]. change (mjoin (e :: v)) with (e ++ mjoin v).
  cbn [length chunks]. rewrite take_app_length' by done. by rewrite drop_app_length', IH.
Qed.

Lemma join_length (k : nat) (v : list (list Z)) :
  Forall (fun e => length e = k) v -> length (mjoin v) = (length v * k)%nat.
Proof. induction 1 as [|e v He Hv IH]; [done|].
  change (mjoin (e :: v)) with (e ++ mjoin v). cbn [length]. rewrite length_app, IH. lia. Qed.

(** *** Little-endian *)

Lemma le_bytes_length (n : nat) (u : Z) : length (le_bytes n u) = n.
Proof. revert u. induction n as [|n IH]; intros u; simpl; [done|]. by rewrite IH. Qed.

Lemma le_bytes_range (n : nat) (u : Z) : Forall is_byte (le_bytes n u).
Proof. revert u. induction n as [|n IH]; intros u; simpl; constructor; auto using mod_byte. Qed.

Lemma le_value_bytes (n : nat) (u : Z) : 0 <= u < 256 ^ Z.of_nat n -> le_value (le_bytes n u) = u.
Proof.
  revert u. induction n as [|n IH]; intros u Hu; cbn [le_bytes le_value].
  - simpl in Hu. lia.
  - rewrite Nat2Z.inj_succ, Z.pow_succ_r in Hu by lia.
    rewrite IH; [pose proof (Z.div_mod u 256); lia|].
    split; [apply Z.div_pos; lia|]. apply Z.div_lt_upper_bound; lia.
Qed.

Lemma le_value_range (l : list Z) : Forall is_byte l -> 0 <= le_value l < 256 ^ Z.of_nat (length l).
Proof.
  induction 1 as [|b l Hb Hl IH]; [simpl; lia|]. cbn [le_value length].
  rewrite Nat2Z.inj_succ, Z.pow_succ_r by lia. unfold is_byte in Hb. nia.
Qed.

Lemma le_bytes_value (l : list Z) : Forall is_byte l -> le_bytes (length l) (le_value l) = l.
Proof.
  induction 1 as [|b l Hb Hl IH]; [done|]. cbn [length le_value le_bytes]. unfold is_byte in Hb.
  rewrite (Z.mul_comm 256). rewrite Z.mod_add, Z.mod_small by lia.
  rewrite Z.div_add, (Z.div_small b), Z.add_0_l by lia. by rewrite IH.
Qed.

(** The swap loop reverses the eight bytes. *)
Lemma byteswap_step (u r : Z) (i : nat) :
  0 <= u -> 0 <= r < 2 ^ (8 * Z.of_nat i) -> (i < 8)%nat ->
  Z.lor (u64 (Z.shiftl r 8)) (Z.land (Z.shiftr u (8 * Z.of_nat i)) 255) =
  r * 256 + (u / 256 ^ Z.of_nat i) mod 256.
Proof.
  intros Hu Hr Hi.
  assert (Hp : 2 ^ (8 * Z.of_nat i) * 256 <= 2 ^ 64).
  { change 256 with (2 ^ 8). rewrite <- Z.pow_add_r by lia. apply Z.pow_le_mono_r; lia. }
  rewrite u64_small by (rewrite Z.shiftl_mul_pow2 by lia; change (2 ^ 8) with 256; nia).
  change 255 with (Z.ones 8). rewrite Z.land_ones, Z.shiftr_div_pow2 by lia.
  change (2 ^ 8) with 256. rewrite (Z.pow_mul_r 2 8) by lia. change (2 ^ 8) with 256.
  pose proof (Z.mod_pos_bound (u / 256 ^ Z.of_nat i) 256 ltac:(lia)).
  rewrite Z.lor_comm, lor_shiftl_add by (change (2 ^ 8) with 256; lia). change (2 ^ 8) with 256. lia.
Qed.

Lemma le_bytes_app (n m : nat) (u : Z) : le_bytes (n + m) u = le_bytes n u ++ le_bytes m (u / 256 ^ Z.of_nat n).
Proof.
  revert u. induction n as [|n IH]; intros u.
  - simpl. by rewrite Z.div_1_r.
  - cbn [Nat.add le_bytes]. rewrite IH. simpl. do 3 f_equal.
    rewrite Z.div_div by lia. f_equal. rewrite Nat2Z.inj_succ, Z.pow_succ_r by lia. lia.
Qed.

Lemma le_value_app (l1 l2 : list Z) : le_value (l1 ++ l2) = le_value l1 + 256 ^ Z.of_nat (length l1) * le_value l2.
Proof.
  induction l1 as [|b l1 IH]; [simpl; lia|]. cbn [le_value length app].
  rewrite IH, Nat2Z.inj_succ, Z.pow_succ_r by lia. lia.
Qed.

Lemma rev_byte (l : list Z) : Forall is_byte l -> Forall is_byte (rev l).
Proof. intros Hl. apply Forall_forall. intros x Hx. rewrite Forall_forall in Hl. apply Hl.
  apply list_elem_of_In. apply in_rev. by apply list_elem_of_In. Qed.

Lemma byteswap_rev (u : Z) : 0 <= u -> byteswap_loop u = le_value (rev (le_bytes 8 u)).
Proof.
  intros Hu. unfold byteswap_loop.
  assert (Hgen : forall n, (n <= 8)%nat ->
    foldl (fun r i => Z.lor (u64 (Z.shiftl r 8)) (Z.land (Z.shiftr u (8 * Z.of_nat i)) 255)) 0 (seq 0 n)
    = le_value (rev (le_bytes n u))).
  { induction n as [|n IH]; intros Hn; [done|].
    rewrite seq_S, foldl_app. cbn [foldl Nat.add]. rewrite IH by lia.
    pose proof (le_value_range (rev (le_bytes n u)) (rev_byte _ (le_bytes_range n u))) as Hr.
    rewrite length_rev, le_bytes_length in Hr.
    rewrite byteswap_step; [|done| |lia].
    - replace (S n) with (n + 1)%nat by lia. rewrite le_bytes_app, rev_app_distr. cbn [le_bytes rev app le_value]. lia.
    - rewrite (Z.pow_mul_r 2 8) by lia. exact Hr. }
  by apply Hgen.
Qed.

Lemma byteswap_involutive (u : Z) : 0 <= u < 2 ^ 64 -> byteswap_loop (byteswap_loop u) = u.
Proof.
  intros Hu. rewrite (byteswap_rev u) by lia.
  pose proof (rev_byte _ (le_bytes_range 8 u)) as Hb. pose proof (le_value_range _ Hb) as Hr.
  rewrite byteswap_rev by lia. pose proof (le_bytes_value _ Hb) as He.
  rewrite length_rev, le_bytes_length in He. rewrite He, rev_involutive. by apply le_value_bytes.
Qed.

(** ** Properties *)

(** Variable-length integers round trip: for every 64-bit value the writer
    appends between one and ten bytes to whatever was written before, and the
    reader placed at that offset, with anything following, returns the value,
    success, and the offset of the first byte after it. *)
Lemma uleb128_roundtrip (pre rest : list Z) (v : Z) :
  0 <= v < 2 ^ 64 ->
  exists e, append_uleb128 pre v = Some (pre ++ e) /\ (1 <= length e <= 10)%nat /\ Forall is_byte e /\
    read_uleb128 (pre ++ e ++ rest) (length pre) = Some (success, length (pre ++ e), v).
Proof.
  intros Hv. exists (uleb_bytes 10 v). split_and!.
  - by apply append_uleb128_bytes.
  - apply uleb_bytes_length. lia.
  - apply uleb_bytes_length. lia.
  - apply uleb_bytes_range.
  - by apply read_uleb128_bytes.
Qed.

Lemma uleb128_roundtrip_witness :
  exists e, append_uleb128 [7] 624485 = Some ([7] ++ e) /\ (1 <= length e <= 10)%nat /\ Forall is_byte e /\
    read_uleb128 ([7] ++ e ++ [9]) (length [7]) = Some (success, length ([7] ++ e), 624485).
Proof. apply (uleb128_roundtrip [7] [9] 624485). lia. Defined.

(** Strings and vectors of fixed-size elements round trip: at any offset
    and before any further data, reading back what [append_string] or
    [append_trivial_vector] wrote gives the same string or vector and the
    offset just after it. *)
Lemma string_vector_roundtrip (pre rest s : list Z) (k : nat) (v : list (list Z)) (s0 : list Z) (v0 : list (list Z)) :
  (0 < k)%nat -> Forall (fun e => length e = k) v ->
  Z.of_nat (length pre + length s + length v * k + length rest + 10) < 2 ^ 64 ->
  (exists out, append_string pre s = Some out /\
     read_string (out ++ rest) (length pre) s0 = Some (success, length out, s)) /\
  (exists out, append_trivial_vector pre v = Some out /\
     read_trivial_vector k (out ++ rest) (length pre) v0 = Some (success, length out, v)).
Proof.
  intros Hk Hv Hmax.
  assert (Hlv : Z.of_nat (length v) <= Z.of_nat (length v * k)) by nia.
  split.
  - assert (Hs : 0 <= Z.of_nat (length s) < 2 ^ 64) by lia.
    pose proof (uleb_bytes_length 10 (Z.of_nat (length s)) ltac:(lia)) as Hlen.
    eexists. unfold append_string. rewrite append_uleb128_bytes by done. split; [reflexivity|].
    unfold append_bytes, read_string. rewrite <- !app_assoc, read_uleb128_bytes by done.
    cbn [mbind option_bind]. change (status_ok success) with true. cbn [negb].
    rewrite remaining_le by (rewrite !length_app; lia).
    destruct (Z.ltb_spec (Z.of_nat (length (pre ++ uleb_bytes 10 (Z.of_nat (length s)) ++ s ++ rest)) -
       Z.of_nat (length (pre ++ uleb_bytes 10 (Z.of_nat (length s))))) (Z.of_nat (length s))) as [Hlt|_].
    { rewrite !length_app in Hlt. lia. }
    rewrite Nat2Z.id, app_assoc, slice_app. cbn [mbind option_bind].
    by rewrite !length_app, Nat.add_assoc.
  - assert (Hn : 0 <= Z.of_nat (length v) < 2 ^ 64) by lia.
    pose proof (uleb_bytes_length 10 (Z.of_nat (length v)) ltac:(lia)) as Hlen.
    pose proof (join_length k v Hv) as Hj.
    exists (pre ++ uleb_bytes 10 (Z.of_nat (length v)) ++ mjoin v).
    unfold append_trivial_vector. rewrite append_uleb128_bytes by done. cbn [mbind option_bind]. split.
    { case_bool_decide as He; [subst v; by rewrite app_nil_r|]. unfold append_bytes. by rewrite <- app_assoc. }
    unfold read_trivial_vector. rewrite <- !app_assoc, read_uleb128_bytes by done.
    cbn [mbind option_bind]. change (status_ok success) with true. cbn [negb].
    destruct (Z.ltb_spec ((2 ^ 64 - 1) / Z.of_nat k) (Z.of_nat (length v))) as [Hlt|_].
    { pose proof (Z.div_le_lower_bound (2 ^ 64 - 1) (Z.of_nat k) (Z.of_nat (length v)) ltac:(lia) ltac:(lia)). lia. }
    rewrite u64_small by nia. rewrite <- Nat2Z.inj_mul.
    rewrite remaining_le by (rewrite !length_app; lia).
    destruct (Z.ltb_spec (Z.of_nat (length (pre ++ uleb_bytes 10 (Z.of_nat (length v)) ++ mjoin v ++ rest)) -
       Z.of_nat (length (pre ++ uleb_bytes 10 (Z.of_nat (length v))))) (Z.of_nat (length v * k))) as [Hlt|_].
    { rewrite !length_app in Hlt. lia. }
    rewrite !Nat2Z.id, app_assoc, <- Hj, slice_app. cbn [mbind option_bind].
    rewrite chunks_join by done. by rewrite !length_app, Nat.add_assoc.
Qed.

Lemma string_vector_roundtrip_witness :
  (exists out, append_string [1] [80; 69] = Some out /\
     read_string (out ++ [5]) (length [1]) [] = Some (success, length out, [80; 69])) /\
  (exists out, append_trivial_vector [1] [[1; 2]; [3; 4]; [5; 6]] = Some out /\
     read_trivial_vector 2 (out ++ [5]) (length [1]) [] = Some (success, length out, [[1; 2]; [3; 4]; [5; 6]])).
Proof.
  apply (string_vector_roundtrip [1] [5] [80; 69] 2 [[1; 2]; [3; 4]; [5; 6]] [] []).
  - lia.
  - repeat constructor.
  - simpl. lia.
Defined.

(** Doubles are stored portably: whatever the byte order of the writing and
    of the reading machine, the eight bytes in the file are the pattern's
    bytes from the least significant on, and every 64-bit pattern (NaN
    payloads included) is read back unchanged. *)
Lemma f64_portable_roundtrip (lw lr : bool) (pre rest : list Z) (u x : Z) :
  0 <= u < 2 ^ 64 -> Z.of_nat (length pre + 8 + length rest) < 2 ^ 64 ->
  append_f64 lw pre u = pre ++ le_bytes 8 u /\
  read_f64 lr (append_f64 lw pre u ++ rest) (length pre) x = Some (success, (length pre + 8)%nat, u).
Proof.
  intros Hu Hmax.
  assert (Hw : append_f64 lw pre u = pre ++ le_bytes 8 u).
  { unfold append_f64, append_trivial, append_bytes, repr_u64. destruct lw; [done|].
    rewrite byteswap_rev by lia. f_equal.
    pose proof (le_bytes_value _ (rev_byte _ (le_bytes_range 8 u))) as He.
    rewrite length_rev, le_bytes_length in He. by rewrite He, rev_involutive. }
  split; [done|]. rewrite Hw. unfold read_f64, read_trivial.
  rewrite remaining_le by (rewrite !length_app, le_bytes_length; lia).
  destruct (Z.ltb_spec (Z.of_nat (length ((pre ++ le_bytes 8 u) ++ rest)) - Z.of_nat (length pre)) (Z.of_nat 8)) as [Hlt|_].
  { rewrite !length_app, le_bytes_length in Hlt. lia. }
  pose proof (slice_app pre (le_bytes 8 u) rest) as Hsl. rewrite le_bytes_length in Hsl.
  rewrite <- app_assoc, Hsl. cbn [mbind option_bind]. change (status_ok success) with true. cbn [negb].
  do 2 f_equal. unfold value_u64. destruct lr; [by apply le_value_bytes|].
  rewrite <- byteswap_rev by lia. by apply byteswap_involutive.
Qed.

Lemma f64_portable_roundtrip_witness :
  append_f64 false [1; 2] 4617315517961601024 = [1; 2] ++ le_bytes 8 4617315517961601024 /\
  read_f64 true (append_f64 false [1; 2] 4617315517961601024 ++ [3]) (length [1; 2]) 0
    = Some (success, (length [1; 2] + 8)%nat, 4617315517961601024).
Proof. apply (f64_portable_roundtrip false true [1; 2] [3] 4617315517961601024 0); simpl; lia. Defined.

(** *** Arbitrary input *)

Lemma lor_range (a b : Z) : 0 <= a < 2 ^ 64 -> 0 <= b < 2 ^ 64 -> 0 <= Z.lor a b < 2 ^ 64.
Proof.
  intros Ha Hb. split; [apply Z.lor_nonneg; lia|].
  destruct (Z.eq_dec (Z.lor a b) 0) as [->|Hne]; [lia|].
  assert (Hn : 0 <= Z.lor a b) by (apply Z.lor_nonneg; lia).
  apply Z.log2_lt_pow2; [lia|]. rewrite Z.log2_lor by lia.
  apply Z.max_lub_lt.
  - destruct (Z.eq_dec a 0) as [->|]; [simpl; lia|]. apply Z.log2_lt_pow2; lia.
  - destruct (Z.eq_dec b 0) as [->|]; [simpl; lia|]. apply Z.log2_lt_pow2; lia.
Qed.

Lemma read_uleb_safe (f : nat) (inp : list Z) (off : nat) (v shift : Z) :
  (0 < f)%nat -> 70 <= shift + 7 * Z.of_nat f -> (off <= length inp)%nat -> 0 <= v < 2 ^ 64 ->
  exists st off' v', read_uleb_loop f inp off v shift = Some (st, off', v') /\
    (off <= off' <= length inp)%nat /\ 0 <= v' < 2 ^ 64 /\ (status_ok st = true -> (off < off')%nat).
Proof.
  revert off v shift. induction f as [|f IH]; intros off v shift Hf Hs Ho Hv; [lia|]. cbn [read_uleb_loop].
  case_bool_decide as Hend; [do 3 eexists; split; [done|]; done|].
  destruct (lookup_lt_is_Some_2 inp off ltac:(lia)) as [b Hb]. rewrite Hb. cbn [mbind option_bind].
  pose proof (lor_range v _ Hv (u64_range (Z.shiftl (Z.land b 127) shift))) as Hv'.
  destruct (Z.land b 128 =? 0); [do 3 eexists; split; [done|]; split_and!; try done; lia|].
  destruct (Z.leb_spec 64 (shift + 7)) as [|Hlt].
  - do 3 eexists. split; [done|]. split_and!; try done; lia.
  - destruct (IH (S off) _ (shift + 7) ltac:(lia) ltac:(lia) ltac:(lia) Hv') as (st & off' & v' & Hr & Hoff & Hrange & Hok).
    exists st, off', v'. split_and!; try done; lia.
Qed.

(** The readers are safe on arbitrary input: with the offset inside the
    input, for any bytes (truncated and malicious ones included) every reader
    stays inside the input, ends with the offset between where it was and the
    end, and on success has read a value of the right size from bytes that
    were there; element sizes are those of the format's types. *)
Lemma readers_stay_inside (inp : list Z) (off k : nat) (s0 b0 : list Z) (v0 : list (list Z)) :
  (off <= length inp)%nat -> Z.of_nat (length inp) < 2 ^ 64 -> (0 < k)%nat -> Z.of_nat k < 2 ^ 64 ->
  (exists st off' n, read_uleb128 inp off = Some (st, off', n) /\ (off <= off' <= length inp)%nat /\
     0 <= n < 2 ^ 64) /\
  (exists st off' b, read_trivial k inp off b0 = Some (st, off', b) /\ (off <= off' <= length inp)%nat /\
     (status_ok st = true -> length b = k)) /\
  (exists st off' s, read_string inp off s0 = Some (st, off', s) /\ (off <= off' <= length inp)%nat /\
     (status_ok st = true -> s = take (length s) (drop (off' - length s) inp) /\ (length s < off')%nat)) /\
  (exists st off' v, read_trivial_vector k inp off v0 = Some (st, off', v) /\ (off <= off' <= length inp)%nat /\
     (status_ok st = true -> Forall (fun e => length e = k) v)).
Proof.
  intros Ho Hlen Hk Hk64.
  destruct (read_uleb_safe 10 inp off 0 0 ltac:(lia) ltac:(simpl; lia) Ho ltac:(lia))
    as (st & off' & n & Hr & Hoff & Hn & Hok).
  fold (read_uleb128 inp off) in Hr.
  assert (Hrem : remaining inp off' = Z.of_nat (length inp) - Z.of_nat off') by (apply remaining_le; lia).
  split_and!.
  - by exists st, off', n.
  - unfold read_trivial. rewrite remaining_le by done.
    destruct (Z.ltb_spec (Z.of_nat (length inp) - Z.of_nat off) (Z.of_nat k)) as [|Hge].
    { do 3 eexists. split; [done|]. done. }
    unfold slice. rewrite bool_decide_true by lia. cbn [mbind option_bind]. do 3 eexists. split; [done|].
    split; [lia|]. intros _. rewrite length_take, length_drop. lia.
  - unfold read_string. rewrite Hr. cbn [mbind option_bind].
    destruct (status_ok st) eqn:Est; cbn [negb];
      [|exists st, off'; eexists; split; [done|]; split; [lia|]; by rewrite Est].
    rewrite Hrem. destruct (Z.ltb_spec (Z.of_nat (length inp) - Z.of_nat off') n) as [|Hge].
    { do 3 eexists. split; [done|]. done. }
    unfold slice. rewrite bool_decide_true by lia. cbn [mbind option_bind]. do 3 eexists. split; [done|].
    split; [lia|]. intros _. specialize (Hok eq_refl). rewrite length_take, length_drop.
    split; [f_equal; [lia|f_equal; lia]|lia].
  - unfold read_trivial_vector. rewrite Hr. cbn [mbind option_bind].
    destruct (status_ok st) eqn:Est; cbn [negb];
      [|exists st, off'; eexists; split; [done|]; split; [lia|]; by rewrite Est].
    destruct (Z.ltb_spec ((2 ^ 64 - 1) / Z.of_nat k) n) as [|Hdiv]; [do 3 eexists; split; [done|]; done|].
    assert (Hnk : 0 <= n * Z.of_nat k < 2 ^ 64).
    { split; [lia|]. pose proof (Z.mul_div_le (2 ^ 64 - 1) (Z.of_nat k) ltac:(lia)). nia. }
    rewrite u64_small by done. rewrite Hrem.
    destruct (Z.ltb_spec (Z.of_nat (length inp) - Z.of_nat off') (n * Z.of_nat k)) as [|Hge].
    { do 3 eexists. split; [done|]. done. }
    unfold slice. rewrite bool_decide_true by lia. cbn [mbind option_bind]. do 3 eexists. split; [done|].
    split; [lia|]. intros _.
    assert (Hc : forall m (l : list Z), (m * k <= length l)%nat -> Forall (fun e => length e = k) (chunks k m l)).
    { clear. induction m as [|m IH]; intros l Hl; cbn [chunks]; constructor.
      - rewrite length_take. lia.
      - apply IH. rewrite length_drop. lia. }
    apply Hc. rewrite length_take, length_drop. nia.
Qed.

(** The same on a truncated varint. *)
Lemma readers_on_truncated_varint :
  (exists st off' n, read_uleb128 [255; 255; 3] 0 = Some (st, off', n) /\ (0 <= off' <= 3)%nat /\ 0 <= n < 2 ^ 64) /\
  (exists st off' b, read_trivial 4 [255; 255; 3] 0 [] = Some (st, off', b) /\ (0 <= off' <= 3)%nat /\
     (status_ok st = true -> length b = 4%nat)) /\
  (exists st off' s, read_string [255; 255; 3] 0 [] = Some (st, off', s) /\ (0 <= off' <= 3)%nat /\
     (status_ok st = true -> s = take (length s) (drop (off' - length s) [255; 255; 3]) /\ (length s < off')%nat)) /\
  (exists st off' v, read_trivial_vector 4 [255; 255; 3] 0 [] = Some (st, off', v) /\ (0 <= off' <= 3)%nat /\
     (status_ok st = true -> Forall (fun e => length e = 4%nat) v)).
Proof. apply (readers_stay_inside [255; 255; 3] 0 4 [] [] []); simpl; lia. Qed.

(** The overflow check of the varint reader comes one bit late: a tenth
    byte is accepted whatever its seven bits are, and the six that do not fit
    are dropped, so for every such byte the reader reports success with a
    value that depends only on the byte's lowest bit. *)
Lemma uleb128_tenth_byte_truncated (b : Z) :
  0 <= b < 128 ->
  read_uleb128 (replicate 9 128 ++ [b]) 0 = Some (success, 10%nat, (b mod 2) * 2 ^ 63).
Proof.
  revert b. apply (byte_cases 128 (fun b =>
    read_uleb128 (replicate 9 128 ++ [b]) 0 = Some (success, 10%nat, (b mod 2) * 2 ^ 63))).
  vm_compute. reflexivity.
Qed.

Lemma uleb128_tenth_byte_truncated_witness :
  read_uleb128 (replicate 9 128 ++ [126]) 0 = Some (success, 10%nat, (126 mod 2) * 2 ^ 63).
Proof. apply (uleb128_tenth_byte_truncated 126). lia. Defined.
