(* ===== verification/Archive.v ===== *)
(** * The single-file archive

    pe_nl_fileformat/archive.h: the FNV-1a checksum, packing a directory into
    one file and unpacking it again.

    A directory is the list of its regular files in iteration order, each with
    its relative path and content; an archive is its bytes.  Input streams are
    the bytes left to read.  [little] is the byte order of the machine, whose
    object representation of integers goes to the file.  [creatable] tells for
    which paths the operating system lets an output file be opened; other
    output errors and exceptions of the file system are not modelled.  Paths
    are POSIX paths: components separated by slashes. *)

From S2P Require Import Prelude Codec.
From Stdlib Require Import ZArith Lia.

#[local] Open Scope Z_scope.

(** ** Checksum *)

Definition fnv1a_basis : Z := 14695981039346656037.
Definition fnv1a_prime : Z := 1099511628211.

Definition fnv1a_update (h : Z) (data : list Z) : Z :=
  foldl (fun h b => u64 (Z.lxor h b * fnv1a_prime)) h data.

(** ** Streams *)

Definition read_exact (s : list Z) (n : nat) : option (list Z * list Z) :=
  if bool_decide (n <= length s)%nat then Some (take n s, drop n s) else None.

(** [write_u32] and [write_u64] append the object representation. *)
Definition repr_u32 (little : bool) (u : Z) : list Z := if little then le_bytes 4 u else rev (le_bytes 4 u).
Definition value_u32 (little : bool) (l : list Z) : Z := if little then le_value l else le_value (rev l).

Definition read_u32 (little : bool) (s : list Z) : option (Z * list Z) :=
  '(b, s') ← read_exact s 4; Some (value_u32 little b, s').
Definition read_u64 (little : bool) (s : list Z) : option (Z * list Z) :=
  '(b, s') ← read_exact s 8; Some (value_u64 little b, s').

(** ** Paths *)

Definition slash : Z := 47.
Definition dot : list Z := [46].
Definition dotdot : list Z := [46; 46].

(** The pieces between slashes, the empty ones included. *)
Fixpoint split_path (cur rel : list Z) : list (list Z) :=
  match rel with
  | [] => [cur]
  | c :: rel' => if c =? slash then cur :: split_path [] rel' else split_path (cur ++ [c]) rel'
  end.

Definition is_absolute (rel : list Z) : bool := bool_decide (head rel = Some slash).

(** [lexically_normal] of a relative path, by its names: empty names and dots
    go, a dot-dot removes the name before it unless that is a dot-dot.  The
    stack has the last name first. *)
Definition normal_step (stack : list (list Z)) (name : list Z) : list (list Z) :=
  if bool_decide (name = []) || bool_decide (name = dot) then stack
  else if bool_decide (name = dotdot) then
    match stack with
    | top :: stack' => if bool_decide (top = dotdot) then name :: stack else stack'
    | [] => [name]
    end
  else name :: stack.

Definition normal_names (rel : list Z) : list (list Z) := foldl normal_step [] (split_path [] rel).

Definition ensure_safe_relative_path (rel : list Z) : status :=
  if bool_decide (rel = []) then mk_status corrupt "empty path in archive"
  else if is_absolute rel then mk_status corrupt "absolute paths not allowed in archive"
  else if bool_decide (dotdot ∈ normal_names rel)
  then mk_status corrupt "parent path (..) not allowed in archive"
  else success.

(** ** Copying file bytes *)

Definition kBuf : Z := 1048576.

(** [while(remaining != 0) { n = min(remaining, kBuf); read; hash; write; }]:
    [None] when the input ends early, with what was written until then. *)
Fixpoint copy_loop (fuel : nat) (s : list Z) (remaining hash : Z) (out : list Z)
  : option (list Z * Z) * list Z :=
  if remaining =? 0 then (Some (s, hash), out)
  else
    match fuel with
    | O => (None, out)
    | S f =>
        let n := Z.to_nat (Z.min remaining kBuf) in
        match read_exact s n with
        | None => (None, out)
        | Some (buf, s') => copy_loop f s' (remaining - Z.of_nat n) (fnv1a_update hash buf) (out ++ buf)
        end
    end.

(** Enough rounds for [remaining] bytes. *)
Definition copy_fuel (remaining : Z) : nat := S (Z.to_nat (remaining / kBuf)).

(** ** Packing *)

Definition magic : list Z := [80; 69; 78; 76; 68; 66; 65; 49].

(** One file: its record is appended and hashed; the error leaves the output
    as far as it got. *)
Definition pack_file (little : bool) (out : list Z) (hash : Z) (f : list Z * list Z)
  : status * list Z * Z :=
  let '(rel, content) := f in
  let st := ensure_safe_relative_path rel in
  if negb (status_ok st) then (st, out, hash)
  else
    let path_len := repr_u64 little (Z.of_nat (length rel)) in
    let out := out ++ path_len in
    let hash := fnv1a_update hash path_len in
    let '(out, hash) := if bool_decide (length rel = O) then (out, hash)
                        else (out ++ rel, fnv1a_update hash rel) in
    let sz := Z.of_nat (length content) in
    let file_sz := repr_u64 little sz in
    let out := out ++ file_sz in
    let hash := fnv1a_update hash file_sz in
    match copy_loop (copy_fuel sz) content sz hash out with
    | (None, out) => (mk_status io_error "failed reading file bytes while packing", out, hash)
    | (Some (_, hash), out) => (success, out, hash)
    end.

Fixpoint pack_files (little : bool) (out : list Z) (hash : Z) (files : list (list Z * list Z))
  : status * list Z * Z :=
  match files with
  | [] => (success, out, hash)
  | f :: files' =>
      let '(st, out, hash) := pack_file little out hash f in
      if status_ok st then pack_files little out hash files' else (st, out, hash)
  end.

Definition pack_directory_to_file (little : bool) (files : list (list Z * list Z)) : status * list Z :=
  let out := magic ++ repr_u32 little 1 ++ repr_u64 little (Z.of_nat (length files)) in
  let '(st, out, hash) := pack_files little out fnv1a_basis files in
  if status_ok st then (success, out ++ repr_u64 little hash) else (st, out).

(** ** Unpacking *)

(** The files written so far, in order; a file that was cut short is there
    with what it got. *)
Definition written := list (list Z * list Z).

Fixpoint unpack_files (little : bool) (creatable : list Z -> bool) (file_count : nat) (s : list Z)
  (hash : Z) (done : written) : (status * written) + (list Z * Z * written) :=
  match file_count with
  | O => inr (s, hash, done)
  | S count =>
      match read_u64 little s with
      | None => inl (mk_status io_error "failed reading u64", done)
      | Some (path_len, s) =>
          let hash := fnv1a_update hash (repr_u64 little path_len) in
          if 4096 <? path_len then inl (mk_status corrupt "archive path too long", done)
          else
            match read_exact s (Z.to_nat path_len) with
            | None => inl (mk_status io_error "failed reading path bytes", done)
            | Some (rel, s) =>
                let hash := if path_len =? 0 then hash else fnv1a_update hash rel in
                let st := ensure_safe_relative_path rel in
                if negb (status_ok st) then inl (st, done)
                else
                  match read_u64 little s with
                  | None => inl (mk_status io_error "failed reading u64", done)
                  | Some (file_sz, s) =>
                      let hash := fnv1a_update hash (repr_u64 little file_sz) in
                      if negb (creatable rel)
                      then inl (mk_status io_error "failed to create output file while unpacking", done)
                      else
                        match copy_loop (copy_fuel file_sz) s file_sz hash [] with
                        | (None, content) =>
                            inl (mk_status io_error "failed reading file bytes while unpacking",
                                 done ++ [(rel, content)])
                        | (Some (s, hash), content) =>
                            unpack_files little creatable count s hash (done ++ [(rel, content)])
                        end
                  end
            end
      end
  end.

Definition unpack_file_to_directory (little : bool) (creatable : list Z -> bool) (s : list Z)
  : status * written :=
  match read_exact s 8 with
  | None => (mk_status io_error "failed reading magic", [])
  | Some (m, s) =>
      if negb (bool_decide (m = magic)) then (mk_status unsupported "not a pe_nl single-file archive", [])
      else
        match read_u32 little s with
        | None => (mk_status io_error "failed reading u32", [])
        | Some (ver, s) =>
            if negb (ver =? 1) then (mk_status unsupported "unsupported archive version", [])
            else
              match read_u64 little s with
              | None => (mk_status io_error "failed reading u64", [])
              | Some (file_count, s) =>
                  if 10000000 <? file_count then (mk_status corrupt "archive file_count too large", [])
                  else
                    match unpack_files little creatable (Z.to_nat file_count) s fnv1a_basis [] with
                    | inl r => r
                    | inr (s, hash, done) =>
                        match read_u64 little s with
                        | None => (mk_status io_error "failed reading u64", done)
                        | Some (stored_hash, _) =>
                            if stored_hash =? hash then (success, done)
                            else (mk_status corrupt "archive checksum mismatch", done)
                        end
                    end
              end
        end
  end.

(** ** The checksum *)

Lemma fnv_app (h : Z) (a b : list Z) : fnv1a_update h (a ++ b) = fnv1a_update (fnv1a_update h a) b.
Proof. apply foldl_app. Qed.

(** The inverse of the prime modulo 2^64. *)
Definition fnv1a_inverse : Z := 14886173955864302971.

Lemma mul_prime_inj (x y : Z) :
  0 <= x < 2 ^ 64 -> 0 <= y < 2 ^ 64 -> u64 (x * fnv1a_prime) = u64 (y * fnv1a_prime) -> x = y.
Proof.
  intros Hx Hy Heq.
  assert (Hinv : forall z, 0 <= z < 2 ^ 64 -> u64 (u64 (z * fnv1a_prime) * fnv1a_inverse) = z).
  { intros z Hz. unfold u64. rewrite Zmult_mod_idemp_l, <- Z.mul_assoc.
    rewrite <- Zmult_mod_idemp_r. change ((fnv1a_prime * fnv1a_inverse) mod 2 ^ 64) with 1.
    rewrite Z.mul_1_r. by apply Z.mod_small. }
  rewrite <- (Hinv x Hx), <- (Hinv y Hy). by rewrite Heq.
Qed.

Lemma lxor_range (h b : Z) : 0 <= h < 2 ^ 64 -> 0 <= b < 2 ^ 64 -> 0 <= Z.lxor h b < 2 ^ 64.
Proof.
  intros Hh Hb. split; [apply Z.lxor_nonneg; lia|].
  destruct (Z.eq_dec (Z.lxor h b) 0) as [->|Hne]; [lia|].
  assert (Hn : 0 <= Z.lxor h b) by (apply Z.lxor_nonneg; lia).
  apply Z.log2_lt_pow2; [lia|]. pose proof (Z.log2_lxor h b ltac:(lia) ltac:(lia)) as Hl.
  eapply Z.le_lt_trans; [exact Hl|]. apply Z.max_lub_lt.
  - destruct (Z.eq_dec h 0) as [->|]; [simpl; lia|]. apply Z.log2_lt_pow2; lia.
  - destruct (Z.eq_dec b 0) as [->|]; [simpl; lia|]. apply Z.log2_lt_pow2; lia.
Qed.

Lemma lxor_inj_r (h a b : Z) : Z.lxor h a = Z.lxor h b -> a = b.
Proof.
  intros Heq. rewrite <- (Z.lxor_0_l a), <- (Z.lxor_0_l b), <- (Z.lxor_nilpotent h), !Z.lxor_assoc. by rewrite Heq.
Qed.

Lemma lxor_inj_l (a b h : Z) : Z.lxor a h = Z.lxor b h -> a = b.
Proof. rewrite (Z.lxor_comm a), (Z.lxor_comm b). apply lxor_inj_r. Qed.

Lemma byte_u64 (b : Z) : is_byte b -> 0 <= b < 2 ^ 64.
Proof. unfold is_byte. intros H. change (2 ^ 64) with 18446744073709551616. lia. Qed.

Lemma fnv_range (h : Z) (l : list Z) : 0 <= h < 2 ^ 64 -> 0 <= fnv1a_update h l < 2 ^ 64.
Proof.
  revert h. induction l as [|b l IH]; intros h Hh; [done|]. simpl. apply IH, u64_range.
Qed.

(** Different states stay different over the same bytes. *)
Lemma fnv_inj (l : list Z) (h h' : Z) :
  0 <= h < 2 ^ 64 -> 0 <= h' < 2 ^ 64 -> Forall is_byte l ->
  fnv1a_update h l = fnv1a_update h' l -> h = h'.
Proof.
  revert h h'. induction l as [|b l IH]; intros h h' Hh Hh' HF Heq; [done|].
  apply Forall_cons in HF as [Hb HF]. simpl in Heq. apply IH in Heq; [|apply u64_range|apply u64_range|done].
  pose proof (byte_u64 b Hb) as Hb64.
  apply mul_prime_inj in Heq; [by eapply lxor_inj_l|by apply lxor_range|by apply lxor_range].
Qed.

Lemma fnv_detects (h : Z) (l1 l2 : list Z) (b b' : Z) :
  0 <= h < 2 ^ 64 -> is_byte b -> is_byte b' -> b ≠ b' -> Forall is_byte l2 ->
  fnv1a_update h (l1 ++ b :: l2) ≠ fnv1a_update h (l1 ++ b' :: l2).
Proof.
  intros Hh Hb Hb' Hne Hl2. rewrite !fnv_app. simpl. intros Heq.
  apply fnv_inj in Heq; [|apply u64_range|apply u64_range|done].
  pose proof (byte_u64 b Hb). pose proof (byte_u64 b' Hb'). pose proof (fnv_range h l1 Hh).
  apply mul_prime_inj in Heq; [|by apply lxor_range|by apply lxor_range].
  apply Hne. by eapply lxor_inj_r.
Qed.

(** ** Streams and copying *)

Lemma read_exact_app (a s : list Z) : read_exact (a ++ s) (length a) = Some (a, s).
Proof.
  unfold read_exact. rewrite bool_decide_true by (rewrite length_app; lia).
  by rewrite take_app_length, drop_app_length.
Qed.

Lemma repr_u64_length (little : bool) (u : Z) : length (repr_u64 little u) = 8%nat.
Proof. unfold repr_u64. destruct little; [|rewrite length_rev]; apply le_bytes_length. Qed.

Lemma repr_u64_range (little : bool) (u : Z) : Forall is_byte (repr_u64 little u).
Proof. unfold repr_u64. destruct little; [|apply rev_byte]; apply le_bytes_range. Qed.

Lemma value_repr_u64 (little : bool) (u : Z) : 0 <= u < 2 ^ 64 -> value_u64 little (repr_u64 little u) = u.
Proof.
  intros Hu. unfold value_u64, repr_u64. destruct little; [|rewrite rev_involutive]; by apply le_value_bytes.
Qed.

Lemma read_u64_repr (little : bool) (u : Z) (s : list Z) :
  0 <= u < 2 ^ 64 -> read_u64 little (repr_u64 little u ++ s) = Some (u, s).
Proof.
  intros Hu. unfold read_u64. rewrite <- (repr_u64_length little u) at 1. rewrite read_exact_app.
  cbn [mbind option_bind]. by rewrite value_repr_u64.
Qed.

Lemma read_u32_one (little : bool) (s : list Z) : read_u32 little (repr_u32 little 1 ++ s) = Some (1, s).
Proof. by destruct little. Qed.

Lemma copy_loop_all (fuel : nat) (content rest : list Z) (hash : Z) (out : list Z) :
  Z.of_nat (length content) <= Z.of_nat fuel * kBuf ->
  copy_loop fuel (content ++ rest) (Z.of_nat (length content)) hash out =
  (Some (rest, fnv1a_update hash content), out ++ content).
Proof.
  revert content hash out. induction fuel as [|fuel IH]; intros content hash out Hf; cbn [copy_loop];
    (destruct (Z.eqb_spec (Z.of_nat (length content)) 0) as [He|Hne];
     [destruct content; [simpl; by rewrite app_nil_r|simpl in He; lia]|]); [lia|].
  set (n := Z.to_nat (Z.min (Z.of_nat (length content)) kBuf)).
  assert (Hn : (0 < n <= length content)%nat) by (unfold n, kBuf; lia).
  assert (Ht : length (take n content) = n) by (rewrite length_take; lia).
  pose proof (read_exact_app (take n content) (drop n content ++ rest)) as Hr.
  rewrite Ht, app_assoc, take_drop in Hr. rewrite Hr. cbv iota.
  replace (Z.of_nat (length content) - Z.of_nat n) with (Z.of_nat (length (drop n content)))
    by (rewrite length_drop; lia).
  rewrite IH.
  - by rewrite <- fnv_app, <- app_assoc, take_drop.
  - rewrite length_drop. unfold n, kBuf in *. lia.
Qed.

Lemma copy_fuel_enough (content rest : list Z) (hash : Z) (out : list Z) :
  copy_loop (copy_fuel (Z.of_nat (length content))) (content ++ rest) (Z.of_nat (length content)) hash out =
  (Some (rest, fnv1a_update hash content), out ++ content).
Proof.
  apply copy_loop_all. unfold copy_fuel.
  pose proof (Z.div_mod (Z.of_nat (length content)) kBuf ltac:(done)).
  pose proof (Z.mod_pos_bound (Z.of_nat (length content)) kBuf ltac:(done)).
  pose proof (Z.div_pos (Z.of_nat (length content)) kBuf ltac:(lia) ltac:(done)). unfold kBuf in *. lia.
Qed.

(** ** The layout of an archive *)

(** The record of one file, which is what is hashed. *)
Definition record (little : bool) (f : list Z * list Z) : list Z :=
  repr_u64 little (Z.of_nat (length f.1)) ++ f.1 ++ repr_u64 little (Z.of_nat (length f.2)) ++ f.2.

Definition body (little : bool) (files : list (list Z * list Z)) : list Z := mjoin (record little <$> files).

Definition header (little : bool) (count : Z) : list Z := magic ++ repr_u32 little 1 ++ repr_u64 little count.

(** Files an archive can hold and an unpacker accepts. *)
Definition packable (f : list Z * list Z) : Prop :=
  status_ok (ensure_safe_relative_path f.1) = true /\ (length f.1 <= 4096)%nat /\
  Z.of_nat (length f.2) < 2 ^ 64 /\ Forall is_byte f.1 /\ Forall is_byte f.2.

Lemma pack_file_record (little : bool) (out : list Z) (hash : Z) (f : list Z * list Z) :
  packable f ->
  pack_file little out hash f = (success, out ++ record little f, fnv1a_update hash (record little f)).
Proof.
  intros (Hs & _). destruct f as [rel content]. cbn [fst snd] in *. unfold pack_file. rewrite Hs. cbn [negb].
  assert (Hrel : (length rel ≠ 0)%nat).
  { intros He. destruct rel; [|done]. done. }
  rewrite bool_decide_false by done.
  pose proof (copy_fuel_enough content [] (fnv1a_update (fnv1a_update (fnv1a_update hash
    (repr_u64 little (Z.of_nat (length rel)))) rel) (repr_u64 little (Z.of_nat (length content))))
    (((out ++ repr_u64 little (Z.of_nat (length rel))) ++ rel) ++ repr_u64 little (Z.of_nat (length content)))) as Hc.
  rewrite app_nil_r in Hc. rewrite Hc. unfold record. cbn [fst snd].
  by rewrite !fnv_app, <- !app_assoc.
Qed.

Lemma pack_files_body (little : bool) (files : list (list Z * list Z)) (out : list Z) (hash : Z) :
  Forall packable files ->
  pack_files little out hash files = (success, out ++ body little files, fnv1a_update hash (body little files)).
Proof.
  intros HF. revert out hash. induction HF as [|f files Hf HF IH]; intros out hash.
  - simpl. by rewrite app_nil_r.
  - cbn [pack_files]. rewrite pack_file_record by done. change (status_ok success) with true. cbv iota.
    rewrite IH. change (body little (f :: files)) with (record little f ++ body little files).
    by rewrite fnv_app, <- app_assoc.
Qed.

Lemma pack_layout (little : bool) (files : list (list Z * list Z)) :
  Forall packable files ->
  pack_directory_to_file little files =
  (success, header little (Z.of_nat (length files)) ++ body little files ++
            repr_u64 little (fnv1a_update fnv1a_basis (body little files))).
Proof.
  intros HF. unfold pack_directory_to_file. rewrite pack_files_body by done.
  change (status_ok success) with true. cbv iota. unfold header. by rewrite <- !app_assoc.
Qed.

Lemma unpack_files_body (little : bool) (creatable : list Z -> bool) (files : list (list Z * list Z))
  (rest : list Z) (hash : Z) (acc : written) :
  Forall packable files -> Forall (fun f => creatable f.1 = true) files ->
  unpack_files little creatable (length files) (body little files ++ rest) hash acc =
  inr (rest, fnv1a_update hash (body little files), acc ++ files).
Proof.
  intros HF. revert hash acc. induction HF as [|[rel content] files Hf HF IH]; intros hash acc Hc.
  { simpl. by rewrite app_nil_r. }
  apply Forall_cons in Hc as [Hc1 Hc]. cbn [fst] in Hc1. destruct Hf as (Hs & Hlen & Hsz & _ & _).
  cbn [fst snd] in *. cbn [length unpack_files].
  change (body little ((rel, content) :: files)) with (record little (rel, content) ++ body little files).
  unfold record at 1. cbn [fst snd]. rewrite <- !app_assoc.
  rewrite read_u64_repr by (change (2 ^ 64) with 18446744073709551616; lia).
  destruct (Z.ltb_spec 4096 (Z.of_nat (length rel))) as [|_]; [lia|].
  rewrite Nat2Z.id, read_exact_app, Hs. cbn [negb].
  destruct (Z.eqb_spec (Z.of_nat (length rel)) 0) as [He|_].
  { destruct rel; [done|simpl in He; lia]. }
  rewrite read_u64_repr by lia. rewrite Hc1. cbn [negb].
  rewrite copy_fuel_enough. rewrite IH by done. unfold record. cbn [fst snd].
  by rewrite !fnv_app, <- app_assoc.
Qed.

(** Unpacking an archive with these files and this trailer. *)
Lemma unpack_layout (little : bool) (creatable : list Z -> bool) (files : list (list Z * list Z))
  (h : Z) (rest : list Z) :
  Forall packable files -> Forall (fun f => creatable f.1 = true) files ->
  Z.of_nat (length files) <= 10000000 -> 0 <= h < 2 ^ 64 ->
  unpack_file_to_directory little creatable
    (header little (Z.of_nat (length files)) ++ body little files ++ repr_u64 little h ++ rest) =
  (if h =? fnv1a_update fnv1a_basis (body little files) then success
   else mk_status corrupt "archive checksum mismatch", files).
Proof.
  intros HF Hc Hn Hh. unfold unpack_file_to_directory, header. rewrite <- !app_assoc.
  change 8%nat with (length magic) at 1. rewrite read_exact_app. rewrite bool_decide_true by done. cbn [negb].
  rewrite read_u32_one. change (negb (1 =? 1)) with false. cbv iota.
  rewrite read_u64_repr by (change (2 ^ 64) with 18446744073709551616; lia).
  destruct (Z.ltb_spec 10000000 (Z.of_nat (length files))) as [|_]; [lia|].
  rewrite Nat2Z.id, unpack_files_body by done. rewrite read_u64_repr by done.
  by destruct (h =? _).
Qed.

(** ** Properties *)

(** C20. Packing and unpacking a directory is the identity: for any list of at
    most ten million files with safe relative paths of at most 4096 bytes that
    the file system lets unpacking create, packing succeeds, and unpacking the
    archive (with anything appended to it) succeeds and writes exactly those
    files, in order. *)
Theorem archive_roundtrip (little : bool) (creatable : list Z -> bool) (files : list (list Z * list Z))
  (rest : list Z) :
  Forall packable files -> Forall (fun f => creatable f.1 = true) files ->
  Z.of_nat (length files) <= 10000000 ->
  exists a, pack_directory_to_file little files = (success, a) /\
    unpack_file_to_directory little creatable (a ++ rest) = (success, files).
Proof.
  intros HF Hc Hn. eexists. split; [by apply pack_layout|].
  rewrite <- !app_assoc, unpack_layout; [by rewrite Z.eqb_refl|done|done|done|].
  apply fnv_range. unfold fnv1a_basis. lia.
Qed.

Lemma body_app (little : bool) (f1 f2 : list (list Z * list Z)) :
  body little (f1 ++ f2) = body little f1 ++ body little f2.
Proof. unfold body. by rewrite fmap_app, join_app. Qed.

Lemma record_range (little : bool) (f : list Z * list Z) : packable f -> Forall is_byte (record little f).
Proof.
  intros (_ & _ & _ & H1 & H2). unfold record. repeat apply Forall_app_2; auto using repr_u64_range.
Qed.

Lemma body_range (little : bool) (files : list (list Z * list Z)) :
  Forall packable files -> Forall is_byte (body little files).
Proof.
  induction 1 as [|f files Hf HF IH]; [constructor|].
  change (body little (f :: files)) with (record little f ++ body little files).
  apply Forall_app_2; [by apply record_range|done].
Qed.

(** C35. A damaged byte in a packed file is always noticed: when one byte of the
    content of one file in an archive is replaced by a different one, the
    checksum of the archive no longer fits, whatever the other files are, and
    unpacking reports the mismatch. *)
Theorem archive_detects_byte_damage (little : bool) (creatable : list Z -> bool)
  (f1 f2 : list (list Z * list Z)) (rel c1 c2 : list Z) (b b' : Z) :
  Forall packable (f1 ++ (rel, c1 ++ b :: c2) :: f2) ->
  Forall (fun f => creatable f.1 = true) (f1 ++ (rel, c1 ++ b :: c2) :: f2) ->
  Z.of_nat (length (f1 ++ (rel, c1 ++ b :: c2) :: f2)) <= 10000000 ->
  is_byte b' -> b ≠ b' ->
  let damage (a : list Z) :=
    header little (Z.of_nat (length (f1 ++ (rel, c1 ++ b :: c2) :: f2))) ++
    body little (f1 ++ (rel, c1 ++ b' :: c2) :: f2) ++ drop (length a - 8) a in
  exists a, pack_directory_to_file little (f1 ++ (rel, c1 ++ b :: c2) :: f2) = (success, a) /\
    length (damage a) = length a /\
    unpack_file_to_directory little creatable (damage a) =
      (mk_status corrupt "archive checksum mismatch", f1 ++ (rel, c1 ++ b' :: c2) :: f2).
Proof.
  intros HF Hc Hn Hb' Hne damage.
  set (files := f1 ++ (rel, c1 ++ b :: c2) :: f2) in *.
  set (files' := f1 ++ (rel, c1 ++ b' :: c2) :: f2) in *.
  pose proof HF as HFa. apply Forall_app in HFa as [HF1 HFa]. apply Forall_cons in HFa as [Hf HF2].
  assert (Hfb := Hf). destruct Hfb as (Hs & Hl & Hsz & Hr & Hcb). cbn [fst snd] in *.
  apply Forall_app in Hcb as [Hc1 Hc2]. apply Forall_cons in Hc2 as [Hb Hc2].
  assert (Hlen : length (c1 ++ b' :: c2) = length (c1 ++ b :: c2)) by (rewrite !length_app; done).
  assert (Hf' : packable (rel, c1 ++ b' :: c2)).
  { split_and!; cbn [fst snd]; try done; [by rewrite Hlen|]. apply Forall_app_2; [done|by constructor]. }
  assert (HF' : Forall packable files') by (apply Forall_app_2; [done|by constructor]).
  assert (Hc' : Forall (fun f => creatable f.1 = true) files').
  { apply Forall_app in Hc as [A B]. apply Forall_cons in B as [B C]. apply Forall_app_2; [done|by constructor]. }
  assert (Hcount : length files' = length files) by (unfold files, files'; rewrite !length_app; done).
  set (pre := body little f1 ++ repr_u64 little (Z.of_nat (length rel)) ++ rel ++
              repr_u64 little (Z.of_nat (length (c1 ++ b :: c2))) ++ c1).
  assert (Hbody : body little files = pre ++ b :: (c2 ++ body little f2)).
  { unfold files, pre. rewrite body_app. change (body little (?x :: f2)) with (record little x ++ body little f2).
    unfold record. cbn [fst snd]. rewrite <- !app_assoc. cbn [app]. done. }
  assert (Hbody' : body little files' = pre ++ b' :: (c2 ++ body little f2)).
  { unfold files', pre. rewrite body_app. change (body little (?x :: f2)) with (record little x ++ body little f2).
    unfold record. cbn [fst snd]. rewrite Hlen, <- !app_assoc. cbn [app]. done. }
  set (h := fnv1a_update fnv1a_basis (body little files)).
  eexists. split; [by apply pack_layout|]. fold h.
  assert (Hdrop : forall x y : list Z,
    drop (length (x ++ y ++ repr_u64 little h) - 8) (x ++ y ++ repr_u64 little h) = repr_u64 little h).
  { intros x y. rewrite app_assoc, length_app, repr_u64_length.
    replace (length (x ++ y) + 8 - 8)%nat with (length (x ++ y)) by lia. apply drop_app_length. }
  unfold damage. rewrite Hdrop. split.
  - rewrite !length_app, Hbody, Hbody', !length_app. cbn [length]. lia.
  - rewrite <- Hcount. rewrite <- (app_nil_r (repr_u64 little h)).
    rewrite unpack_layout; [|done|done|by rewrite Hcount|apply fnv_range; unfold fnv1a_basis; lia].
    destruct (Z.eqb_spec h (fnv1a_update fnv1a_basis (body little files'))) as [Heq|_]; [exfalso|done].
    unfold h in Heq. rewrite Hbody, Hbody' in Heq. revert Heq.
    apply fnv_detects; try done. apply Forall_app_2; [done|by apply body_range].
Qed.

(** *** Paths *)

(** Where a walk along names ends, counted in directories below its start. *)
Definition walk (depth : Z) (name : list Z) : Z :=
  if bool_decide (name = []) || bool_decide (name = dot) then depth
  else if bool_decide (name = dotdot) then depth - 1 else depth + 1.

(** A relative path no prefix of which leaves the directory it starts from. *)
Definition stays_inside (rel : list Z) : Prop :=
  rel ≠ [] /\ head rel ≠ Some slash /\
  forall names, names `prefix_of` split_path [] rel -> 0 <= foldl walk 0 names.

Lemma normal_step_dotdot (stack : list (list Z)) (name : list Z) :
  dotdot ∈ stack -> dotdot ∈ normal_step stack name.
Proof.
  intros Hin. unfold normal_step. destruct (_ || _); [done|]. case_bool_decide as Hn; [|set_solver].
  destruct stack as [|top stack']; [set_solver|]. case_bool_decide; set_solver.
Qed.

Lemma normal_names_dotdot (names : list (list Z)) (stack : list (list Z)) :
  dotdot ∈ stack -> dotdot ∈ foldl normal_step stack names.
Proof.
  revert stack. induction names as [|n names IH]; intros stack Hin; [done|]. simpl.
  by apply IH, normal_step_dotdot.
Qed.

Lemma walk_depth (names : list (list Z)) (stack : list (list Z)) :
  dotdot ∉ foldl normal_step stack names ->
  Z.of_nat (length (foldl normal_step stack names)) = foldl walk (Z.of_nat (length stack)) names.
Proof.
  revert stack. induction names as [|n names IH]; intros stack Hno; [done|]. cbn [foldl] in *.
  rewrite IH by done. f_equal.
  assert (Hs : dotdot ∉ normal_step stack n) by (intros Hin; by apply Hno, normal_names_dotdot).
  unfold normal_step, walk in *. destruct (_ || _); [done|]. case_bool_decide as Hn.
  - destruct stack as [|top stack']; [set_solver|]. case_bool_decide as Ht; [set_solver|]. cbn [length]. lia.
  - cbn [length]. lia.
Qed.

Lemma safe_path_stays_inside (rel : list Z) :
  status_ok (ensure_safe_relative_path rel) = true -> stays_inside rel.
Proof.
  unfold ensure_safe_relative_path. case_bool_decide as H1; [done|].
  unfold is_absolute. case_bool_decide as H2; [done|]. case_bool_decide as H3; [done|]. intros _.
  split_and!; [done|done|]. intros names [k Hk].
  unfold normal_names in H3. rewrite Hk, foldl_app in H3.
  assert (Hno : dotdot ∉ foldl normal_step [] names) by (intros Hin; by apply H3, normal_names_dotdot).
  pose proof (walk_depth names [] Hno) as Hw. change (Z.of_nat (length (A := list Z) [])) with 0 in Hw. lia.
Qed.

Lemma unpack_files_safe (little : bool) (creatable : list Z -> bool) (count : nat) (s : list Z) (hash : Z)
  (acc : written) :
  Forall (fun f => stays_inside f.1) acc ->
  match unpack_files little creatable count s hash acc with
  | inl (_, out) | inr (_, _, out) => Forall (fun f => stays_inside f.1) out
  end.
Proof.
  revert s hash acc. induction count as [|count IH]; intros s hash acc Hacc; [done|]. cbn [unpack_files].
  destruct (read_u64 little s) as [[path_len s1]|]; [|done].
  destruct (4096 <? path_len); [done|].
  destruct (read_exact s1 (Z.to_nat path_len)) as [[rel s2]|]; [|done].
  destruct (status_ok (ensure_safe_relative_path rel)) eqn:Hs; cbn [negb]; [|done].
  apply safe_path_stays_inside in Hs.
  destruct (read_u64 little s2) as [[file_sz s3]|]; [|done].
  destruct (creatable rel); cbn [negb]; [|done].
  assert (Hadd : forall content, Forall (fun f : list Z * list Z => stays_inside f.1) (acc ++ [(rel, content)])).
  { intros content. apply Forall_app_2; [done|]. by constructor. }
  destruct (copy_loop _ _ _ _ _) as [[[s4 hash']|] content]; [|apply Hadd]. by apply IH, Hadd.
Qed.

(** C37. Unpacking never writes outside the target directory: for any bytes
    given as an archive, every file it writes (also when it fails later, or on
    a checksum mismatch) has a relative path no prefix of which climbs above
    the target directory. *)
Theorem unpack_writes_inside (little : bool) (creatable : list Z -> bool) (archive : list Z) :
  Forall (fun f => stays_inside f.1) (unpack_file_to_directory little creatable archive).2.
Proof.
  unfold unpack_file_to_directory.
  destruct (read_exact archive 8) as [[m s]|]; [|constructor].
  destruct (negb _); [constructor|].
  destruct (read_u32 little s) as [[ver s1]|]; [|constructor].
  destruct (negb _); [constructor|].
  destruct (read_u64 little s1) as [[count s2]|]; [|constructor].
  destruct (10000000 <? count); [constructor|].
  pose proof (unpack_files_safe little creatable (Z.to_nat count) s2 fnv1a_basis [] ltac:(constructor)) as Hs.
  destruct (unpack_files _ _ _ _ _ _) as [[st out]|[[s3 hash] out]]; [done|].
  destruct (read_u64 little s3) as [[h s4]|]; [|done]. by destruct (h =? hash).
Qed.

(** ** Witnesses *)

Definition ex_files : list (list Z * list Z) := [([97; 47; 98], [1; 2; 3]); ([99], [])].

Lemma ex_files_packable : Forall packable ex_files.
Proof.
  unfold packable, is_byte. apply (bool_decide_unpack _). vm_compute. exact I.
Qed.

Lemma archive_roundtrip_witness :
  exists a, pack_directory_to_file true ex_files = (success, a) /\
    unpack_file_to_directory true (fun _ => true) (a ++ [0]) = (success, ex_files).
Proof.
  apply (archive_roundtrip true (fun _ => true) ex_files [0]).
  - apply ex_files_packable.
  - repeat constructor.
  - simpl. lia.
Defined.

Lemma archive_detects_byte_damage_witness :
  let damage (a : list Z) :=
    header true 2 ++ body true [([97; 47; 98], [1; 7; 3]); ([99], [])] ++ drop (length a - 8) a in
  exists a, pack_directory_to_file true ex_files = (success, a) /\ length (damage a) = length a /\
    unpack_file_to_directory true (fun _ => true) (damage a) =
      (mk_status corrupt "archive checksum mismatch", [([97; 47; 98], [1; 7; 3]); ([99], [])]).
Proof.
  apply (archive_detects_byte_damage true (fun _ => true) [] [([99], [])] [97; 47; 98] [1] [3] 2 7).
  - apply ex_files_packable.
  - repeat constructor.
  - simpl. lia.
  - unfold is_byte. lia.
  - lia.
Defined.
