(* ===== verification/Netlist.v ===== *)
(** * The netlist and its editing operations

    netlist/netlist.h and netlist/operation.h, with the parts of
    model/model_refs/base.h and model/node/node.h they use: models and nodes
    live in chunks, pins of models point at nodes and nodes keep the set of
    pins that point at them.

    Objects live in a store: nodes and model implementations by address, with
    a supply of fresh addresses in place of the allocator.  A pin is named by
    the implementation that holds it and its index.  The numbers of models and
    nodes per chunk depend on [sizeof] and are parameters.  [None] is undefined
    behaviour: a null or dangling pointer is dereferenced. *)

From S2P Require Import Prelude Double Logic4 Node Circuit.
From Stdlib Require Import ZArith Lia.

(** ** Data *)

Inductive model_type := mt_null | mt_invalid | mt_normal.

#[global] Instance model_type_eq_dec : EqDecision model_type.
Proof. solve_decision. Defined.

(** What the netlist sees of a [model_base_impl]: the nodes of its pins and
    whether its device type is other than [digital]. *)
Record impl := mk_impl { im_pins : list (option nat); im_analog : bool }.

(** A [model_base]. *)
Record slot := mk_slot { sl_type : model_type; sl_ptr : option nat }.

Record netlist_model_base_block := mk_block { bk_slots : list slot; num_of_null_model : Z }.

(** Node chunks hold the addresses of their nodes. *)
Record netlist := mk_netlist {
  models : list netlist_model_base_block;
  nodes : list (list nat);
  ground_node : nat
}.

Record store := mk_store { st_nodes : gmap nat node_t; st_impls : gmap nat impl; st_next : nat }.

(** Arithmetic of [std::size_t]. *)
Definition size_t (z : Z) : Z := (z mod 2 ^ 64)%Z.

Definition set_node (st : store) (n : nat) (nd : node_t) : store :=
  mk_store (<[n := nd]> (st_nodes st)) (st_impls st) (st_next st).

Definition set_impl (st : store) (a : nat) (im : impl) : store :=
  mk_store (st_nodes st) (<[a := im]> (st_impls st)) (st_next st).

(** ** Counting *)

Definition is_null (s : slot) : bool := bool_decide (sl_type s = mt_null).

(** [get_num_of_model<true>]: count the models that are not null. *)
Definition get_num_of_model_checked (nl : netlist) : Z :=
  foldl (fun res b => foldl (fun r s => if is_null s then r else size_t (r + 1)) res (bk_slots b)) 0%Z (models nl).

Definition block_get_num_of_model (b : netlist_model_base_block) : Z :=
  size_t (Z.of_nat (length (bk_slots b)) - num_of_null_model b).

(** [get_num_of_model<false>]: trust the counters. *)
Definition get_num_of_model (nl : netlist) : Z :=
  foldl (fun res b => size_t (res + block_get_num_of_model b)) 0%Z (models nl).

(** ** Positions *)

Record model_pos := mk_pos { vec_pos : nat; chunk_pos : nat }.

Definition get_model (nl : netlist) (p : model_pos) : option slot :=
  b ← models nl !! chunk_pos p; bk_slots b !! vec_pos p.

Section chunks.
Variables model_chunk node_chunk : nat.

(** Place a model in the last chunk, or in a new one when that is full. *)
Definition push_slot (ms : list netlist_model_base_block) (s : slot) : list netlist_model_base_block * model_pos :=
  match last ms with
  | None => ([mk_block [s] 0], mk_pos 0 0)
  | Some b =>
      if bool_decide (length (bk_slots b) = model_chunk)
      then (ms ++ [mk_block [s] 0], mk_pos 0 (length ms))
      else (removelast ms ++ [mk_block (bk_slots b ++ [s]) (num_of_null_model b)],
            mk_pos (length (bk_slots b)) (length ms - 1))
  end.

Definition add_model (st : store) (nl : netlist) (im : impl) : store * netlist * nat * model_pos :=
  let a := st_next st in
  let st' := mk_store (st_nodes st) (<[a := im]> (st_impls st)) (S a) in
  let '(ms, pos) := push_slot (models nl) (mk_slot mt_normal (Some a)) in
  (st', mk_netlist ms (nodes nl) (ground_node nl), a, pos).

Definition push_node (ns : list (list nat)) (n : nat) : list (list nat) :=
  match last ns with
  | None => [[n]]
  | Some b => if bool_decide (length b = node_chunk) then ns ++ [[n]] else removelast ns ++ [b ++ [n]]
  end.

Definition create_node (st : store) (nl : netlist) : store * netlist * nat :=
  let n := st_next st in
  (mk_store (<[n := node_init]> (st_nodes st)) (st_impls st) (S n),
   mk_netlist (models nl) (push_node (nodes nl) n) (ground_node nl), n).

(** ** Destroying a model *)

(** The loop of [model_base::remove_from_node] over the pins of [a]. *)
Fixpoint unlink_pins (a : nat) (analog : bool) (k : nat) (pins : list (option nat)) (ns : gmap nat node_t)
  : option (gmap nat node_t) :=
  match pins with
  | [] => Some ns
  | None :: pins' => unlink_pins a analog (S k) pins' ns
  | Some n :: pins' =>
      nd ← ns !! n;
      let cnt := if analog then size_t (num_of_analog_node nd - 1) else num_of_analog_node nd in
      unlink_pins a analog (S k) pins'
        (<[n := mk_node (node_information nd) (node_pins nd ∖ {[(a, k)]}) cnt (node_index nd)]> ns)
  end.

(** [model_base::clear]: disconnect a normal model, free its implementation. *)
Definition clear_model (st : store) (s : slot) : option store :=
  match sl_ptr s with
  | None => Some st
  | Some a =>
      im ← st_impls st !! a;
      ns ← (if bool_decide (sl_type s = mt_normal) then unlink_pins a (im_analog im) 0 (im_pins im) (st_nodes st)
            else Some (st_nodes st));
      Some (mk_store ns (delete a (st_impls st)) (st_next st))
  end.

Definition set_block (nl : netlist) (i : nat) (b : netlist_model_base_block) : netlist :=
  mk_netlist (<[i := b]> (models nl)) (nodes nl) (ground_node nl).

Definition delete_model (st : store) (nl : netlist) (p : model_pos) : option (bool * store * netlist) :=
  match models nl !! chunk_pos p with
  | None => Some (false, st, nl)
  | Some b =>
      match bk_slots b !! vec_pos p with
      | None => Some (false, st, nl)
      | Some s =>
          if bool_decide (S (vec_pos p) = length (bk_slots b)) then
            st' ← clear_model st s;
            let slots' := removelast (bk_slots b) in
            if is_null s
            then Some (false, st', set_block nl (chunk_pos p) (mk_block slots' (size_t (num_of_null_model b - 1))))
            else Some (true, st', set_block nl (chunk_pos p) (mk_block slots' (num_of_null_model b)))
          else if is_null s then Some (false, st, nl)
          else
            st' ← clear_model st s;
            Some (true, st', set_block nl (chunk_pos p)
                    (mk_block (<[vec_pos p := mk_slot mt_null None]> (bk_slots b))
                              (size_t (num_of_null_model b + 1))))
      end
  end.

(** ** Connecting pins *)

(** The common body of the two [add_to_node]; [a] is the implementation. *)
Definition connect (st : store) (a n1 node : nat) : option (bool * store) :=
  im ← st_impls st !! a;
  if bool_decide (length (im_pins im) <= n1) then Some (false, st)
  else
    nd ← st_nodes st !! node;
    let im' := mk_impl (<[n1 := Some node]> (im_pins im)) (im_analog im) in
    let cnt := if im_analog im then size_t (num_of_analog_node nd + 1) else num_of_analog_node nd in
    let nd' := mk_node (node_information nd) ({[(a, n1)]} ∪ node_pins nd) cnt (node_index nd) in
    Some (true, set_node (set_impl st a im') node nd').

Definition add_to_node (st : store) (nl : netlist) (mp1 : model_pos) (n1 node : nat) : option (bool * store) :=
  match get_model nl mp1 with
  | None => Some (false, st)
  | Some s => a ← sl_ptr s; connect st a n1 node
  end.

(** The common body of the two [remove_from_node]. *)
Definition disconnect (st : store) (a n1 node : nat) : option (bool * store) :=
  im ← st_impls st !! a;
  if bool_decide (length (im_pins im) <= n1) then Some (false, st)
  else
    nd ← st_nodes st !! node;
    let im' := mk_impl (<[n1 := None]> (im_pins im)) (im_analog im) in
    let cnt := if im_analog im then size_t (num_of_analog_node nd - 1) else num_of_analog_node nd in
    let nd' := mk_node (node_information nd) (node_pins nd ∖ {[(a, n1)]}) cnt (node_index nd) in
    Some (true, set_node (set_impl st a im') node nd').

Definition remove_from_node (st : store) (nl : netlist) (mp1 : model_pos) (n1 node : nat) : option (bool * store) :=
  match get_model nl mp1 with
  | None => Some (false, st)
  | Some s => a ← sl_ptr s; disconnect st a n1 node
  end.

(** [i->nodes = v] for a pin. *)
Definition set_pin (v : option nat) (ims : gmap nat impl) (p : nat * nat) : option (gmap nat impl) :=
  im ← ims !! p.1;
  if bool_decide (p.2 < length (im_pins im))
  then Some (<[p.1 := mk_impl (<[p.2 := v]> (im_pins im)) (im_analog im)]> ims)
  else None.

(** [node_t::destroy] and [node_t::clear]. *)
Definition destroyed (nd : node_t) : node_t := mk_node (node_information nd) ∅ 0 SIZE_MAX.

Definition delete_node (st : store) (node : nat) : option store :=
  nd ← st_nodes st !! node;
  ims ← fold_option (set_pin None) (ordered_pins (node_pins nd)) (st_impls st);
  Some (mk_store (<[node := with_state (destroyed nd) dns_default]> (st_nodes st)) ims (st_next st)).

Definition merge_node (st : store) (node other : nat) : option store :=
  nd ← st_nodes st !! node;
  od ← st_nodes st !! other;
  ims ← fold_option (set_pin (Some node)) (ordered_pins (node_pins od)) (st_impls st);
  let nd' := mk_node (node_information nd) (node_pins od ∪ node_pins nd) (num_of_analog_node nd) (node_index nd) in
  let st1 := mk_store (<[node := nd']> (st_nodes st)) ims (st_next st) in
  od' ← st_nodes st1 !! other;
  Some (set_node st1 other (destroyed od')).

(** ** Copying *)

(** [node_t(node_t const&)]: the value, without pins, count and index. *)
Definition copied_node (nd : node_t) : node_t := mk_node (node_information nd) ∅ 0 SIZE_MAX.

(** Copy the nodes of a netlist to the end of [ns], recording where each went. *)
Definition copy_nodes (acc : store * list (list nat) * gmap nat nat) (c : nat)
  : option (store * list (list nat) * gmap nat nat) :=
  let '(st, ns, node_map) := acc in
  nd ← st_nodes st !! c;
  let n := st_next st in
  Some (mk_store (<[n := copied_node nd]> (st_nodes st)) (st_impls st) (S n), push_node ns n, <[c := n]> node_map).

(** Redirect the pins of a copied implementation and enter them in the new
    nodes; a node that is not in the map is a dereference of [end()]. *)
Fixpoint relink_pins (a : nat) (node_map : gmap nat nat) (k : nat) (pins : list (option nat)) (ns : gmap nat node_t)
  : option (list (option nat) * gmap nat node_t) :=
  match pins with
  | [] => Some ([], ns)
  | None :: pins' => '(r, ns') ← relink_pins a node_map (S k) pins' ns; Some (None :: r, ns')
  | Some c :: pins' =>
      n ← node_map !! c;
      nd ← ns !! n;
      let nd' := mk_node (node_information nd) ({[(a, k)]} ∪ node_pins nd) (num_of_analog_node nd) (node_index nd) in
      '(r, ns') ← relink_pins a node_map (S k) pins' (<[n := nd']> ns);
      Some (Some n :: r, ns')
  end.

(** Copy one model; [guard] is the test for a normal model, which the copy
    constructor has and [add_netlist] has not. *)
Definition copy_model (guard : bool) (node_map : gmap nat nat) (acc : store * list netlist_model_base_block) (s : slot)
  : option (store * list netlist_model_base_block) :=
  let '(st, ms) := acc in
  match sl_ptr s with
  | None =>
      if guard then Some (st, (push_slot ms (mk_slot (sl_type s) None)).1)
      else None (* copy.ptr->generate_pin_view() *)
  | Some c =>
      im ← st_impls st !! c;
      let a := st_next st in
      if guard && negb (bool_decide (sl_type s = mt_normal))
      then Some (mk_store (st_nodes st) (<[a := im]> (st_impls st)) (S a), (push_slot ms (mk_slot (sl_type s) (Some a))).1)
      else
        '(pins', ns') ← relink_pins a node_map 0 (im_pins im) (st_nodes st);
        Some (mk_store ns' (<[a := mk_impl pins' (im_analog im)]> (st_impls st)) (S a),
              (push_slot ms (mk_slot (sl_type s) (Some a))).1)
  end.

Definition all_slots (nl : netlist) : list slot := mjoin (bk_slots <$> models nl).

(** [add_netlist(nl, other)] *)
Definition add_netlist (st : store) (nl other : netlist) : option (store * netlist) :=
  '(st1, ns, node_map) ← fold_option copy_nodes (mjoin (nodes other)) (st, nodes nl, ∅);
  '(st2, ms) ← fold_option (copy_model false node_map) (all_slots other) (st1, models nl);
  Some (st2, mk_netlist ms ns (ground_node nl)).

(** [netlist(netlist const& other)] *)
Definition copy_netlist (st : store) (other : netlist) : option (store * netlist) :=
  let g := st_next st in
  let st0 := mk_store (<[g := node_init]> (st_nodes st)) (st_impls st) (S g) in
  '(st1, ns, node_map) ← fold_option copy_nodes (mjoin (nodes other)) (st0, [], {[ground_node other := g]});
  '(st2, ms) ← fold_option (copy_model true node_map) (all_slots other) (st1, []);
  Some (st2, mk_netlist ms ns g).

End chunks.

(** ** The pin graph *)

(** The node a pin points at. *)
Definition pin_of (ims : gmap nat impl) (a k : nat) : option nat := im ← ims !! a; mjoin (im_pins im !! k).

(** Pins [P] and the pin sets of the nodes agree. *)
Definition graph (ns : gmap nat node_t) (P : nat -> nat -> option nat) : Prop :=
  forall a k n, P a k = Some n <-> exists nd, ns !! n = Some nd /\ (a, k) ∈ node_pins nd.

Definition analog_of (ims : gmap nat impl) (a : nat) : bool :=
  match ims !! a with Some im => im_analog im | None => false end.

(** The number of pins of analog models in a set. *)
Definition analog_pins (an : nat -> bool) (s : gset (nat * nat)) : Z :=
  Z.of_nat (size (filter (fun p => an p.1 = true) s)).

(** [num_of_analog_node] is the number of analog pins. *)
Definition counted (ns : gmap nat node_t) (an : nat -> bool) : Prop :=
  forall n nd, ns !! n = Some nd -> num_of_analog_node nd = size_t (analog_pins an (node_pins nd)).

Definition graph_ok (st : store) : Prop := graph (st_nodes st) (pin_of (st_impls st)).
Definition counted_ok (st : store) : Prop := counted (st_nodes st) (analog_of (st_impls st)).

(** Fresh addresses are not in use. *)
Definition fresh_ok (st : store) : Prop :=
  (forall n, is_Some (st_nodes st !! n) -> n < st_next st) /\ (forall a, is_Some (st_impls st !! a) -> a < st_next st).

Lemma graph_ext ns P P' : (forall a k, P a k = P' a k) -> graph ns P -> graph ns P'.
Proof. intros He Hg a k n. rewrite <- He. apply Hg. Qed.

Lemma counted_ext ns an an' :
  (forall n nd a k, ns !! n = Some nd -> (a, k) ∈ node_pins nd -> an a = an' a) -> counted ns an -> counted ns an'.
Proof.
  intros He Hc n nd Hn. rewrite (Hc n nd Hn). unfold analog_pins. do 3 f_equal.
  apply set_eq. intros [a k]. rewrite !elem_of_filter. simpl. split; intros [H1 H2]; (split; [|done]).
  - by rewrite <- (He n nd a k Hn H2).
  - by rewrite (He n nd a k Hn H2).
Qed.

Lemma size_t_add (a b : Z) : size_t (size_t a + b) = size_t (a + b).
Proof. unfold size_t. by rewrite Zplus_mod_idemp_l. Qed.

Lemma size_t_sub (a b : Z) : size_t (size_t a - b) = size_t (a - b).
Proof. unfold size_t. by rewrite Zminus_mod_idemp_l. Qed.

Lemma analog_pins_insert (an : nat -> bool) (s : gset (nat * nat)) (p : nat * nat) :
  p ∉ s -> analog_pins an ({[p]} ∪ s) = (analog_pins an s + if an p.1 then 1 else 0)%Z.
Proof.
  intros Hp. unfold analog_pins. destruct (an p.1) eqn:E.
  - assert (filter (fun q : nat * nat => an q.1 = true) ({[p]} ∪ s) =
            {[p]} ∪ filter (fun q : nat * nat => an q.1 = true) s) as -> by set_solver.
    rewrite size_union by set_solver. rewrite size_singleton. lia.
  - assert (filter (fun q : nat * nat => an q.1 = true) ({[p]} ∪ s) = filter (fun q : nat * nat => an q.1 = true) s)
      as -> by (apply set_eq; intros q; rewrite !elem_of_filter, elem_of_union, elem_of_singleton; naive_solver congruence).
    lia.
Qed.

Lemma analog_pins_delete (an : nat -> bool) (s : gset (nat * nat)) (p : nat * nat) :
  p ∈ s -> analog_pins an (s ∖ {[p]}) = (analog_pins an s - if an p.1 then 1 else 0)%Z.
Proof.
  intros Hp. pose proof (analog_pins_insert an (s ∖ {[p]}) p ltac:(set_solver)) as He.
  rewrite <- (union_difference_L {[p]} s) in He by set_solver. lia.
Qed.

(** Change of one pin. *)
Definition upd (P : nat -> nat -> option nat) (a k : nat) (v : option nat) (a' k' : nat) : option nat :=
  if decide (a' = a /\ k' = k) then v else P a' k'.

Lemma pin_of_insert (ims : gmap nat impl) (a k : nat) (v : option nat) (im : impl) :
  ims !! a = Some im -> k < length (im_pins im) ->
  forall a' k', pin_of (<[a := mk_impl (<[k := v]> (im_pins im)) (im_analog im)]> ims) a' k' = upd (pin_of ims) a k v a' k'.
Proof.
  intros Hi Hk a' k'. unfold pin_of, upd. destruct (decide (a' = a)) as [->|Hne].
  - rewrite lookup_insert_eq, Hi. simpl. destruct (decide (k' = k)) as [->|Hnk].
    + rewrite list_lookup_insert_eq by done. by rewrite decide_True.
    + rewrite list_lookup_insert_ne by done. by rewrite decide_False by tauto.
  - rewrite lookup_insert_ne by done. by rewrite decide_False by tauto.
Qed.

Lemma graph_link ns P (a k n : nat) nd cnt :
  graph ns P -> P a k = None -> ns !! n = Some nd ->
  graph (<[n := mk_node (node_information nd) ({[(a, k)]} ∪ node_pins nd) cnt (node_index nd)]> ns) (upd P a k (Some n)).
Proof.
  intros Hg Hp Hn a' k' n'. unfold upd. destruct (decide (a' = a /\ k' = k)) as [[-> ->]|Hne].
  - split.
    + intros [= <-]. rewrite lookup_insert_eq. eexists. split; [done|]. simpl. set_solver.
    + intros (nd' & Hn' & Hin). destruct (decide (n' = n)) as [->|Hne']; [done|].
      rewrite lookup_insert_ne in Hn' by done.
      assert (P a k = Some n') by (apply Hg; eauto). congruence.
  - rewrite (Hg a' k' n'). destruct (decide (n' = n)) as [->|Hne'].
    + rewrite lookup_insert_eq. split.
      * intros (nd' & Hn' & Hin). simplify_eq. eexists. split; [done|]. simpl. set_solver.
      * intros (nd' & Hn' & Hin). simplify_eq. simpl in Hin. exists nd. split; [done|]. set_solver.
    + by rewrite lookup_insert_ne.
Qed.

Lemma graph_unlink ns P (a k n : nat) nd cnt :
  graph ns P -> P a k = Some n -> ns !! n = Some nd ->
  graph (<[n := mk_node (node_information nd) (node_pins nd ∖ {[(a, k)]}) cnt (node_index nd)]> ns) (upd P a k None).
Proof.
  intros Hg Hp Hn a' k' n'. unfold upd. destruct (decide (a' = a /\ k' = k)) as [[-> ->]|Hne].
  - split; [done|]. intros (nd' & Hn' & Hin). destruct (decide (n' = n)) as [->|Hne'].
    + rewrite lookup_insert_eq in Hn'. simplify_eq. simpl in Hin. set_solver.
    + rewrite lookup_insert_ne in Hn' by done. assert (P a k = Some n') by (apply Hg; eauto). congruence.
  - rewrite (Hg a' k' n'). destruct (decide (n' = n)) as [->|Hne'].
    + rewrite lookup_insert_eq. split.
      * intros (nd' & Hn' & Hin). simplify_eq. eexists. split; [done|]. simpl. set_solver.
      * intros (nd' & Hn' & Hin). simplify_eq. simpl in Hin. exists nd. split; [done|]. set_solver.
    + by rewrite lookup_insert_ne.
Qed.

Lemma counted_insert ns an n nd' :
  counted ns an -> num_of_analog_node nd' = size_t (analog_pins an (node_pins nd')) -> counted (<[n := nd']> ns) an.
Proof.
  intros Hc Hn m md. destruct (decide (m = n)) as [->|Hne].
  - rewrite lookup_insert_eq. intros ?. by simplify_eq.
  - rewrite lookup_insert_ne by done. apply Hc.
Qed.

Lemma counted_link ns an (a k n : nat) nd :
  counted ns an -> ns !! n = Some nd -> (a, k) ∉ node_pins nd ->
  counted (<[n := mk_node (node_information nd) ({[(a, k)]} ∪ node_pins nd)
             (if an a then size_t (num_of_analog_node nd + 1) else num_of_analog_node nd) (node_index nd)]> ns) an.
Proof.
  intros Hc Hn Hin. apply counted_insert; [done|]. simpl. rewrite analog_pins_insert by done. simpl.
  rewrite (Hc n nd Hn). destruct (an a); [by rewrite size_t_add|by rewrite Z.add_0_r].
Qed.

Lemma counted_unlink ns an (a k n : nat) nd :
  counted ns an -> ns !! n = Some nd -> (a, k) ∈ node_pins nd ->
  counted (<[n := mk_node (node_information nd) (node_pins nd ∖ {[(a, k)]})
             (if an a then size_t (num_of_analog_node nd - 1) else num_of_analog_node nd) (node_index nd)]> ns) an.
Proof.
  intros Hc Hn Hin. apply counted_insert; [done|]. simpl. rewrite analog_pins_delete by done. simpl.
  rewrite (Hc n nd Hn). destruct (an a); [by rewrite size_t_sub|by rewrite Z.sub_0_r].
Qed.

(** Unlinking all pins of a model from the [k]th on. *)
Lemma unlink_pins_ok (a : nat) (an : nat -> bool) (pins : list (option nat)) (k : nat) ns P :
  graph ns P -> (forall j, P a (k + j) = mjoin (pins !! j)) ->
  exists ns', unlink_pins a (an a) k pins ns = Some ns' /\
    graph ns' (fun a' k' => if decide (a' = a /\ k <= k') then None else P a' k') /\
    (counted ns an -> counted ns' an) /\
    (forall n, is_Some (ns' !! n) <-> is_Some (ns !! n)).
Proof.
  revert k ns P. induction pins as [|[n|] pins IH]; intros k ns P Hg Hp.
  - exists ns. split_and!; [done| |done|done]. eapply graph_ext; [|exact Hg]. intros a' k'. simpl.
    case_decide as Hd; [|done]. destruct Hd as [-> Hk]. replace k' with (k + (k' - k)) by lia. by rewrite Hp.
  - assert (Hpk : P a k = Some n) by (rewrite <- (Nat.add_0_r k), Hp; done).
    destruct (proj1 (Hg a k n) Hpk) as (nd & Hn & Hin). cbn [unlink_pins]. rewrite Hn. cbn [mbind option_bind].
    set (nd' := mk_node _ _ _ _).
    pose proof (graph_unlink ns P a k n nd (num_of_analog_node nd') Hg Hpk Hn) as Hg1.
    destruct (IH (S k) (<[n := nd']> ns) (upd P a k None)) as (ns' & Hr & Hg' & Hc' & Hdom).
    + exact Hg1.
    + intros j. unfold upd. rewrite decide_False by lia. specialize (Hp (S j)).
      replace (S k + j) with (k + S j) by lia. by rewrite Hp.
    + exists ns'. split_and!; [done|..].
      * eapply graph_ext; [|exact Hg']. intros a' k'. simpl. unfold upd.
        repeat case_decide; try done; try (exfalso; lia); destruct_and?; subst; exfalso; lia.
      * intros Hc. apply Hc'. by apply counted_unlink.
      * intros m. rewrite Hdom. destruct (decide (m = n)) as [->|Hne].
        -- rewrite lookup_insert_eq, Hn. split; intros _; by eexists.
        -- by rewrite lookup_insert_ne.
  - cbn [unlink_pins]. assert (Hpk : P a k = None) by (rewrite <- (Nat.add_0_r k), Hp; done).
    destruct (IH (S k) ns P Hg) as (ns' & Hr & Hg' & Hc' & Hdom).
    { intros j. specialize (Hp (S j)). replace (S k + j) with (k + S j) by lia. by rewrite Hp. }
    exists ns'. split_and!; [done| |done|done]. eapply graph_ext; [|exact Hg']. intros a' k'. simpl.
    destruct (decide (a' = a /\ S k <= k')), (decide (a' = a /\ k <= k')); try done; try lia.
    destruct_and!. assert (k' = k) as -> by lia. by subst.
Qed.

(** ** Edits of the store keep the graph *)

(** The pins and counts of the store are consistent and its addresses fresh. *)
Definition store_ok (st : store) : Prop := graph_ok st /\ counted_ok st /\ fresh_ok st.

(** Adding a pin-free entry does not change the pins. *)
Lemma pin_of_fresh (ims : gmap nat impl) (a k : nat) (an : bool) :
  ims !! a = None -> forall a' k', pin_of ims a' k' = pin_of (<[a := mk_impl (replicate k None) an]> ims) a' k'.
Proof.
  intros Ha a' k'. unfold pin_of. destruct (decide (a' = a)) as [->|Hne].
  - rewrite Ha, lookup_insert_eq. simpl. destruct (replicate k (None (A := nat)) !! k') as [o|] eqn:E; [|done].
    by apply lookup_replicate in E as [-> _].
  - by rewrite lookup_insert_ne.
Qed.

Lemma graph_pin_impl (st : store) n nd a k :
  graph_ok st -> st_nodes st !! n = Some nd -> (a, k) ∈ node_pins nd ->
  exists im, st_impls st !! a = Some im /\ im_pins im !! k = Some (Some n).
Proof.
  intros Hg Hn Hin. assert (Hp : pin_of (st_impls st) a k = Some n) by (apply Hg; eauto).
  unfold pin_of in Hp. destruct (st_impls st !! a) as [im|] eqn:E; [|done]. exists im. split; [done|].
  simpl in Hp. destruct (im_pins im !! k) as [[m|]|] eqn:Ek; simpl in Hp; by simplify_eq.
Qed.

Lemma fresh_node (st : store) : fresh_ok st -> st_nodes st !! st_next st = None.
Proof. intros [Hf _]. apply eq_None_not_Some. intros Hs. apply Hf in Hs. lia. Qed.

Lemma fresh_impl (st : store) : fresh_ok st -> st_impls st !! st_next st = None.
Proof. intros [_ Hf]. apply eq_None_not_Some. intros Hs. apply Hf in Hs. lia. Qed.

Lemma add_impl_ok (st : store) (k : nat) (an : bool) :
  store_ok st ->
  store_ok (mk_store (st_nodes st) (<[st_next st := mk_impl (replicate k None) an]> (st_impls st)) (S (st_next st))).
Proof.
  intros (Hg & Hc & Hf). pose proof (fresh_impl st Hf) as Hfi. split_and!.
  - unfold graph_ok. simpl. eapply graph_ext; [|exact Hg]. by apply pin_of_fresh.
  - unfold counted_ok. simpl. eapply counted_ext; [|exact Hc]. intros n nd a k' Hn Hin.
    destruct (graph_pin_impl st n nd a k' Hg Hn Hin) as (im & Hi & _). unfold analog_of.
    rewrite lookup_insert_ne; [done|]. intros <-. congruence.
  - destruct Hf as [Hf1 Hf2]. split; simpl.
    + intros n Hs. apply Hf1 in Hs. lia.
    + by apply insert_fresh_dom.
Qed.

Lemma add_node_ok (st : store) :
  store_ok st -> store_ok (mk_store (<[st_next st := node_init]> (st_nodes st)) (st_impls st) (S (st_next st))).
Proof.
  intros (Hg & Hc & Hf). pose proof (fresh_node st Hf) as Hfn. split_and!.
  - intros a k n. simpl. rewrite (Hg a k n). destruct (decide (n = st_next st)) as [->|Hne].
    + rewrite lookup_insert_eq. split; intros (nd & Hn & Hin); simplify_eq. simpl in Hin. set_solver.
    + by rewrite lookup_insert_ne.
  - by apply counted_insert.
  - destruct Hf as [Hf1 Hf2]. split; simpl; [by apply insert_fresh_dom|].
    intros a Hs. apply Hf2 in Hs. lia.
Qed.

Lemma analog_of_insert (ims : gmap nat impl) (a : nat) (im : impl) pins :
  ims !! a = Some im -> forall a', analog_of ims a' = analog_of (<[a := mk_impl pins (im_analog im)]> ims) a'.
Proof.
  intros Hi a'. unfold analog_of. destruct (decide (a' = a)) as [->|Hne].
  - by rewrite Hi, lookup_insert_eq.
  - by rewrite lookup_insert_ne.
Qed.

Lemma analog_of_some (ims : gmap nat impl) (a : nat) (im : impl) : ims !! a = Some im -> analog_of ims a = im_analog im.
Proof. intros Hi. unfold analog_of. by rewrite Hi. Qed.

(** Connecting a free pin is total and keeps the store consistent. *)
Lemma connect_ok (st : store) (a n1 n : nat) :
  store_ok st -> is_Some (st_impls st !! a) -> is_Some (st_nodes st !! n) -> pin_of (st_impls st) a n1 = None ->
  exists r st', connect st a n1 n = Some (r, st') /\ store_ok st' /\
    (forall b, is_Some (st_impls st' !! b) <-> is_Some (st_impls st !! b)) /\
    (forall m, is_Some (st_nodes st' !! m) <-> is_Some (st_nodes st !! m)).
Proof.
  intros (Hg & Hc & Hf) [im Hi] [nd Hn] Hp. unfold connect. rewrite Hi. cbn [mbind option_bind].
  case_bool_decide as Hb; [exists false, st; split; [done|]; split; [done|]; by split|].
  rewrite Hn. cbn [mbind option_bind]. eexists true, _. split; [done|].
  assert (Hin : (a, n1) ∉ node_pins nd).
  { intros Hin. assert (pin_of (st_impls st) a n1 = Some n) by (apply Hg; eauto). congruence. }
  unfold store_ok. split_and!.
  - unfold graph_ok, set_node, set_impl. simpl. eapply graph_ext.
    + intros a' k'. symmetry. apply (pin_of_insert (st_impls st) a n1 (Some n) im Hi). lia.
    + by apply graph_link.
  - unfold counted_ok, set_node, set_impl. simpl.
    eapply counted_ext; [intros m md a' k' _ _; by apply analog_of_insert|].
    rewrite <- (analog_of_some _ _ _ Hi). by apply counted_link.
  - destruct Hf as [Hf1 Hf2]. split; simpl; intros m; rewrite insert_dom_iff by (by eexists); auto.
  - simpl. apply insert_dom_iff. by eexists.
  - simpl. apply insert_dom_iff. by eexists.
Qed.

Lemma disconnect_ok (st : store) (a n1 n : nat) :
  store_ok st -> pin_of (st_impls st) a n1 = Some n ->
  exists r st', disconnect st a n1 n = Some (r, st') /\ store_ok st' /\
    (forall b, is_Some (st_impls st' !! b) <-> is_Some (st_impls st !! b)) /\
    (forall m, is_Some (st_nodes st' !! m) <-> is_Some (st_nodes st !! m)).
Proof.
  intros (Hg & Hc & Hf) Hp. destruct (proj1 (Hg a n1 n) Hp) as (nd & Hn & Hin).
  destruct (graph_pin_impl st n nd a n1 Hg Hn Hin) as (im & Hi & Hpin).
  pose proof (lookup_lt_Some _ _ _ Hpin) as Hlt.
  unfold disconnect. rewrite Hi. cbn [mbind option_bind]. rewrite bool_decide_false by lia.
  rewrite Hn. cbn [mbind option_bind]. eexists true, _. split; [done|]. unfold store_ok. split_and!.
  - unfold graph_ok, set_node, set_impl. simpl. eapply graph_ext.
    + intros a' k'. symmetry. by apply (pin_of_insert (st_impls st) a n1 None im Hi).
    + by apply graph_unlink.
  - unfold counted_ok, set_node, set_impl. simpl.
    eapply counted_ext; [intros m md a' k' _ _; by apply analog_of_insert|].
    rewrite <- (analog_of_some _ _ _ Hi). by apply counted_unlink.
  - destruct Hf as [Hf1 Hf2]. split; simpl; intros m; rewrite insert_dom_iff by (by eexists); auto.
  - simpl. apply insert_dom_iff. by eexists.
  - simpl. apply insert_dom_iff. by eexists.
Qed.

(** Clearing a live model removes its pins and its implementation. *)
Lemma clear_model_ok (st : store) (a : nat) :
  store_ok st -> is_Some (st_impls st !! a) ->
  exists st', clear_model st (mk_slot mt_normal (Some a)) = Some st' /\ store_ok st' /\
    st_impls st' = delete a (st_impls st) /\
    (forall m, is_Some (st_nodes st' !! m) <-> is_Some (st_nodes st !! m)).
Proof.
  intros (Hg & Hc & Hf) [im Hi].
  destruct (unlink_pins_ok a (analog_of (st_impls st)) (im_pins im) 0 _ _ Hg) as (ns' & Hr & Hg' & Hc' & Hdom).
  { intros j. unfold pin_of. by rewrite Hi. }
  unfold clear_model. cbn [sl_ptr sl_type]. rewrite Hi. cbn [mbind option_bind]. rewrite bool_decide_true by done.
  rewrite (analog_of_some _ _ _ Hi) in Hr. rewrite Hr. cbn [mbind option_bind].
  eexists. split; [done|]. split; [|done].
  assert (Hpin : forall a' k', (if decide (a' = a /\ 0 <= k') then None else pin_of (st_impls st) a' k') =
                         pin_of (delete a (st_impls st)) a' k').
  { intros a' k'. unfold pin_of. destruct (decide (a' = a)) as [->|Hne].
    - rewrite lookup_delete_eq, decide_True by lia. done.
    - rewrite lookup_delete_ne by done. by rewrite decide_False by tauto. }
  unfold store_ok. split_and!.
  - eapply graph_ext; [exact Hpin|exact Hg'].
  - eapply counted_ext; [|by apply Hc'].
    intros n nd b k Hn Hin. assert (Hb : pin_of (delete a (st_impls st)) b k = Some n) by (rewrite <- Hpin; apply Hg'; eauto).
    unfold pin_of in Hb. unfold analog_of. simpl. destruct (decide (b = a)) as [->|Hne]; [by rewrite lookup_delete_eq in Hb|].
    by rewrite lookup_delete_ne.
  - destruct Hf as [Hf1 Hf2]. split; simpl; intros m.
    + rewrite Hdom. apply Hf1.
    + intros [x Hx]. apply lookup_delete_Some in Hx as [_ Hx]. apply Hf2. by eexists.
Qed.

(** What writing pins leaves of an implementation. *)
Definition impl_shape (ims : gmap nat impl) (a : nat) : option (nat * bool) :=
  (fun im => (length (im_pins im), im_analog im)) <$> ims !! a.

Lemma impl_shape_analog (ims ims' : gmap nat impl) (a : nat) : impl_shape ims a = impl_shape ims' a -> analog_of ims a = analog_of ims' a.
Proof. unfold impl_shape, analog_of. destruct (ims !! a), (ims' !! a); simpl; congruence. Qed.

Lemma impl_shape_dom (ims ims' : gmap nat impl) (a : nat) :
  impl_shape ims a = impl_shape ims' a -> is_Some (ims !! a) <-> is_Some (ims' !! a).
Proof.
  intros He. assert (Hs : forall m : gmap nat impl, is_Some (impl_shape m a) <-> is_Some (m !! a)) by (intros m; apply fmap_is_Some).
  by rewrite <- !Hs, He.
Qed.

(** Writing [v] to a list of existing pins. *)
Lemma set_pins_ok (v : option nat) (l : list (nat * nat)) (ims : gmap nat impl) :
  (forall p, p ∈ l -> exists im, ims !! p.1 = Some im /\ p.2 < length (im_pins im)) ->
  exists ims', fold_option (set_pin v) l ims = Some ims' /\
    (forall a k, pin_of ims' a k = if decide ((a, k) ∈ l) then v else pin_of ims a k) /\
    (forall a, impl_shape ims' a = impl_shape ims a).
Proof.
  revert ims. induction l as [|[a k] l IH]; intros ims Hl; [by exists ims|].
  destruct (Hl (a, k)) as (im & Hi & Hk); [set_solver|]. simpl in Hi, Hk.
  set (ims1 := <[a := mk_impl (<[k := v]> (im_pins im)) (im_analog im)]> ims).
  assert (Hsh : forall b, impl_shape ims1 b = impl_shape ims b).
  { intros b. unfold impl_shape, ims1. destruct (decide (b = a)) as [->|Hne]; [|by rewrite lookup_insert_ne].
    rewrite lookup_insert_eq, Hi. simpl. by rewrite length_insert. }
  destruct (IH ims1) as (ims' & Hr & Hp & Hs).
  { intros p Hin. destruct (Hl p) as (im1 & Hi1 & Hk1); [set_solver|]. pose proof (Hsh p.1) as He.
    unfold impl_shape in He. rewrite Hi1 in He. destruct (ims1 !! p.1) as [im2|]; [|done]. exists im2. split; [done|].
    simpl in He. injection He as He _. lia. }
  exists ims'. split_and!.
  - assert (set_pin v ims (a, k) = Some ims1) as Hset.
    { unfold set_pin. cbn [fst snd]. rewrite Hi. cbn [mbind option_bind]. by rewrite bool_decide_true. }
    cbn [fold_option]. rewrite Hset. exact Hr.
  - intros b j. rewrite Hp. unfold ims1. rewrite (pin_of_insert ims a k v im Hi Hk). unfold upd.
    repeat case_decide; try done; set_solver.
  - intros b. by rewrite Hs, Hsh.
Qed.

Lemma node_pins_exist (st : store) n nd :
  graph_ok st -> st_nodes st !! n = Some nd ->
  forall p, p ∈ ordered_pins (node_pins nd) -> exists im, st_impls st !! p.1 = Some im /\ p.2 < length (im_pins im).
Proof.
  intros Hg Hn [a k] Hin. apply elem_of_ordered_pins in Hin.
  destruct (graph_pin_impl st n nd a k Hg Hn Hin) as (im & Hi & Hk). exists im. split; [done|].
  by apply lookup_lt_Some in Hk.
Qed.

Lemma delete_node_ok (st : store) (n : nat) :
  store_ok st -> is_Some (st_nodes st !! n) ->
  exists st', delete_node st n = Some st' /\ store_ok st' /\
    (forall b, is_Some (st_impls st' !! b) <-> is_Some (st_impls st !! b)) /\
    (forall m, is_Some (st_nodes st' !! m) <-> is_Some (st_nodes st !! m)) /\
    (forall a k, pin_of (st_impls st') a k <> Some n).
Proof.
  intros (Hg & Hc & Hf) [nd Hn].
  destruct (set_pins_ok None (ordered_pins (node_pins nd)) (st_impls st)) as (ims & Hr & Hp & Hs).
  { by apply (node_pins_exist st n). }
  unfold delete_node. rewrite Hn. cbn [mbind option_bind]. rewrite Hr. cbn [mbind option_bind].
  eexists. split; [done|]. set (nd' := with_state _ _).
  assert (Hnd : node_pins nd' = ∅ /\ num_of_analog_node nd' = 0%Z) by done. destruct Hnd as [Hnd1 Hnd2]. clearbody nd'.
  assert (Hgone : forall a k, pin_of ims a k <> Some n).
  { intros a k. rewrite Hp. case_decide as Hd; [done|]. intros Hs'. apply Hd, elem_of_ordered_pins.
    apply Hg in Hs' as (nd1 & Hn1 & Hin). by simplify_eq. }
  unfold store_ok. split_and!.
  - intros a k m. simpl. destruct (decide (m = n)) as [->|Hne].
    + rewrite lookup_insert_eq. split; [by intros ?%Hgone|]. intros (nd1 & Hn1 & Hin). simplify_eq. set_solver.
    + rewrite lookup_insert_ne by done. rewrite Hp. case_decide as Hd; [|apply Hg]. split; [done|].
      intros Hm. apply Hg in Hm. apply elem_of_ordered_pins in Hd.
      assert (pin_of (st_impls st) a k = Some n) by (apply Hg; eauto). congruence.
  - unfold counted_ok. simpl. apply counted_insert; [|by rewrite Hnd1, Hnd2].
    eapply counted_ext; [|exact Hc]. intros m md a k _ _. symmetry. by apply impl_shape_analog.
  - destruct Hf as [Hf1 Hf2]. split; simpl; intros m; [rewrite insert_dom_iff by (by eexists); auto|].
    rewrite (impl_shape_dom _ _ _ (Hs m)). auto.
  - intros b. simpl. by apply impl_shape_dom.
  - simpl. apply insert_dom_iff. by eexists.
  - exact Hgone.
Qed.

(** ** The netlist invariant *)

(** The slots of a netlist own distinct live implementations. *)
Definition slot_ok (ims : gmap nat impl) (s : slot) : Prop :=
  match sl_ptr s with None => sl_type s = mt_null | Some a => sl_type s = mt_normal /\ is_Some (ims !! a) end.

Definition slots_ok (ims : gmap nat impl) (l : list slot) : Prop := Forall (slot_ok ims) l /\ NoDup (omap sl_ptr l).

Definition nulls (l : list slot) : nat := length (filter (fun s => is_null s = true) l).

(** A chunk does not overflow its storage and its counter is right. *)
Definition block_ok (chunk : nat) (b : netlist_model_base_block) : Prop :=
  length (bk_slots b) <= chunk /\ num_of_null_model b = size_t (Z.of_nat (nulls (bk_slots b))).

Record consistent (model_chunk node_chunk : nat) (st : store) (nl : netlist) : Prop := {
  ok_store : store_ok st;
  ok_slots : slots_ok (st_impls st) (all_slots nl);
  ok_blocks : Forall (block_ok model_chunk) (models nl);
  ok_chunks : Forall (fun c => length c <= node_chunk) (nodes nl);
  ok_nodes : Forall (fun n => is_Some (st_nodes st !! n)) (ground_node nl :: mjoin (nodes nl))
}.

Lemma slots_ok_ext (ims ims' : gmap nat impl) l :
  (forall a, is_Some (ims !! a) -> is_Some (ims' !! a)) -> slots_ok ims l -> slots_ok ims' l.
Proof.
  intros He [Hs Hd]. split; [|done]. eapply Forall_impl; [exact Hs|]. intros [t [a|]]; unfold slot_ok; simpl; [|done].
  intros [-> Ha]. auto.
Qed.

Lemma slots_ok_get (ims : gmap nat impl) nl p s a :
  slots_ok ims (all_slots nl) -> get_model nl p = Some s -> sl_ptr s = Some a -> s = mk_slot mt_normal (Some a) /\ is_Some (ims !! a).
Proof.
  intros [Hs _] Hg Ha. unfold get_model in Hg. destruct (models nl !! chunk_pos p) as [b|] eqn:Eb; [|done]. simpl in Hg.
  rewrite Forall_forall in Hs. assert (Hin : s ∈ all_slots nl).
  { unfold all_slots. apply list_elem_of_join. exists (bk_slots b). split; [by eapply list_elem_of_lookup_2|].
    apply list_elem_of_fmap. exists b. split; [done|]. by eapply list_elem_of_lookup_2. }
  apply Hs in Hin. unfold slot_ok in Hin. rewrite Ha in Hin. destruct s as [t q]. simpl in *. destruct Hin as [-> Hi]. by subst.
Qed.

Lemma nulls_app (l k : list slot) : nulls (l ++ k) = nulls l + nulls k.
Proof. unfold nulls. by rewrite filter_app, length_app. Qed.

Lemma nulls_cons (s : slot) (l : list slot) : nulls (s :: l) = (if is_null s then 1 else 0) + nulls l.
Proof. unfold nulls. rewrite filter_cons. by destruct (is_null s). Qed.

(** *** Adding at the end *)

Lemma push_slot_slots (chunk : nat) (ms : list netlist_model_base_block) (s : slot) :
  mjoin (bk_slots <$> (push_slot chunk ms s).1) = mjoin (bk_slots <$> ms) ++ [s].
Proof.
  unfold push_slot. destruct ms as [|b ms' _] using rev_ind; [done|]. rewrite last_snoc, removelast_last.
  case_bool_decide; simpl; rewrite !fmap_app, !join_app; simpl; rewrite ?(right_id_L [] _); [done|by rewrite (assoc_L (++))].
Qed.

Lemma push_slot_blocks (chunk : nat) (ms : list netlist_model_base_block) (s : slot) :
  0 < chunk -> is_null s = false -> Forall (block_ok chunk) ms -> Forall (block_ok chunk) (push_slot chunk ms s).1.
Proof.
  intros Hc Hs Hms. assert (Hnew : block_ok chunk (mk_block [s] 0)).
  { split; simpl; [lia|]. by rewrite nulls_cons, Hs. }
  unfold push_slot. destruct ms as [|b ms' _] using rev_ind; [by constructor|]. rewrite last_snoc, removelast_last.
  case_bool_decide as Hb; simpl; [by apply Forall_app; split; [done|constructor]|].
  apply Forall_app in Hms as [Hms Hbk]. apply Forall_app. split; [done|]. apply Forall_singleton in Hbk as [Hl Hn].
  apply Forall_singleton. split; simpl; [rewrite length_app; simpl; lia|]. rewrite nulls_app, nulls_cons, Hs, Hn.
  do 2 f_equal. unfold nulls. simpl. lia.
Qed.

Lemma push_node_nodes (chunk : nat) (ns : list (list nat)) (n : nat) : mjoin (push_node chunk ns n) = mjoin ns ++ [n].
Proof.
  unfold push_node. destruct ns as [|b ns' _] using rev_ind; [done|]. rewrite last_snoc, removelast_last.
  case_bool_decide; rewrite !join_app; simpl; rewrite ?(right_id_L [] _); [done|by rewrite (assoc_L (++))].
Qed.

Lemma push_node_chunks (chunk : nat) (ns : list (list nat)) (n : nat) :
  0 < chunk -> Forall (fun c => length c <= chunk) ns -> Forall (fun c => length c <= chunk) (push_node chunk ns n).
Proof.
  intros Hc Hns. unfold push_node. destruct ns as [|b ns' _] using rev_ind; [by constructor|].
  rewrite last_snoc, removelast_last. case_bool_decide as Hb; [by apply Forall_app; split; [done|constructor]|].
  apply Forall_app in Hns as [Hns Hbk]. apply Forall_app. split; [done|]. pose proof (Forall_inv Hbk) as Hl.
  apply Forall_singleton. rewrite length_app. simpl in *. lia.
Qed.

(** *** Replacing one slot *)

Lemma all_slots_at (nl : netlist) (c v : nat) b s :
  models nl !! c = Some b -> bk_slots b !! v = Some s ->
  exists A B, all_slots nl = A ++ s :: B /\
    (forall x m, all_slots (set_block nl c (mk_block (<[v := x]> (bk_slots b)) m)) = A ++ x :: B) /\
    (S v = length (bk_slots b) -> forall m, all_slots (set_block nl c (mk_block (removelast (bk_slots b)) m)) = A ++ B).
Proof.
  intros Hb Hs. exists (mjoin (bk_slots <$> take c (models nl)) ++ take v (bk_slots b)),
    (drop (S v) (bk_slots b) ++ mjoin (bk_slots <$> drop (S c) (models nl))).
  unfold all_slots, set_block. cbn [models]. split_and!.
  - rewrite (mjoin_lookup bk_slots (models nl) c b Hb). rewrite <- (take_drop_middle (bk_slots b) v s Hs) at 1.
    by rewrite <- !(assoc_L (++)).
  - intros x m. rewrite mjoin_insert by (by eexists). cbn [bk_slots].
    rewrite insert_take_drop by (by eapply lookup_lt_Some). by rewrite <- !(assoc_L (++)).
  - intros Hv m. rewrite mjoin_insert by (by eexists). cbn [bk_slots].
    rewrite (removelast_take _ v Hv), (drop_ge (bk_slots b)) by lia. by rewrite <- !(assoc_L (++)).
Qed.

Lemma nulls_at (l : list slot) (v : nat) s :
  l !! v = Some s ->
  (forall x, nulls (<[v := x]> l) + (if is_null s then 1 else 0) = nulls l + (if is_null x then 1 else 0)) /\
  (S v = length l -> nulls (removelast l) + (if is_null s then 1 else 0) = nulls l).
Proof.
  intros Hs. pose proof (take_drop_middle l v s Hs) as Hl. split.
  - intros x. rewrite insert_take_drop by (by eapply lookup_lt_Some). rewrite <- Hl at 3.
    rewrite !nulls_app, !nulls_cons. lia.
  - intros Hv. rewrite (removelast_take l v Hv). rewrite <- Hl at 2. rewrite nulls_app, nulls_cons.
    rewrite (drop_ge l) by lia. unfold nulls at 3. simpl. lia.
Qed.

(** Deleting the implementation of one slot leaves the others alive. *)
Lemma slots_ok_delete (ims : gmap nat impl) A B a :
  slots_ok ims (A ++ mk_slot mt_normal (Some a) :: B) ->
  slots_ok (delete a ims) (A ++ B) /\ slots_ok (delete a ims) (A ++ mk_slot mt_null None :: B).
Proof.
  intros [Hs Hd]. rewrite omap_app in Hd. simpl in Hd.
  assert (Hd' : NoDup (a :: omap sl_ptr A ++ omap sl_ptr B)) by (eapply NoDup_Permutation_proper; [|exact Hd]; by rewrite Permutation_middle).
  apply NoDup_cons in Hd' as [Hna Hnd]. rewrite <- omap_app in Hna, Hnd.
  apply Forall_app in Hs as [HA HB]. apply Forall_cons in HB as [_ HB].
  assert (Hall : Forall (slot_ok (delete a ims)) (A ++ B)).
  { rewrite Forall_forall. intros [t [b|]] Hin.
    - assert (Hok : slot_ok ims (mk_slot t (Some b))) by (apply elem_of_app in Hin as [Hin|Hin]; [rewrite Forall_forall in HA|rewrite Forall_forall in HB]; auto).
      destruct Hok as [Ht Hb]. split; [done|]. rewrite lookup_delete_ne; [done|]. intros ->. apply Hna.
      apply list_elem_of_omap. by eexists.
    - assert (Hok : slot_ok ims (mk_slot t None)) by (apply elem_of_app in Hin as [Hin|Hin]; [rewrite Forall_forall in HA|rewrite Forall_forall in HB]; auto).
      exact Hok. }
  split; [done|]. apply Forall_app in Hall as [HA' HB']. split; [by apply Forall_app; split; [|constructor]|].
  rewrite omap_app in *. exact Hnd.
Qed.

Lemma slots_ok_drop (ims : gmap nat impl) A s B : sl_ptr s = None -> slots_ok ims (A ++ s :: B) -> slots_ok ims (A ++ B).
Proof.
  intros Hs [HF Hd]. apply Forall_app in HF as [HA HB]. apply Forall_cons in HB as [_ HB].
  split; [by apply Forall_app|]. rewrite omap_app in *. simpl in Hd. by rewrite Hs in Hd.
Qed.

(** ** Editing a netlist *)

Inductive edit :=
| edit_add_model (pins : nat) (analog : bool)
| edit_create_node
| edit_add_to_node (p : model_pos) (n1 n : nat)
| edit_remove_from_node (p : model_pos) (n1 n : nat)
| edit_delete_model (p : model_pos)
| edit_delete_node (n : nat).

Section edits.
Variables model_chunk node_chunk : nat.
Hypothesis model_chunk_pos : 0 < model_chunk.
Hypothesis node_chunk_pos : 0 < node_chunk.

Definition run_edit (st : store) (nl : netlist) (e : edit) : option (store * netlist) :=
  match e with
  | edit_add_model k analog =>
      let '(st', nl', _, _) := add_model model_chunk st nl (mk_impl (replicate k None) analog) in Some (st', nl')
  | edit_create_node => let '(st', nl', _) := create_node node_chunk st nl in Some (st', nl')
  | edit_add_to_node p n1 n => '(_, st') ← add_to_node st nl p n1 n; Some (st', nl)
  | edit_remove_from_node p n1 n => '(_, st') ← remove_from_node st nl p n1 n; Some (st', nl)
  | edit_delete_model p => '(_, st', nl') ← delete_model st nl p; Some (st', nl')
  | edit_delete_node n => st' ← delete_node st n; Some (st', nl)
  end.

(** What the caller of an operation has to ensure: pins of live models only, a
    connected pin is not connected again, and a pin is removed from the node it
    is on. *)
Definition allowed (st : store) (nl : netlist) (e : edit) : Prop :=
  match e with
  | edit_add_model _ _ | edit_create_node | edit_delete_model _ => True
  | edit_add_to_node p n1 n =>
      forall s, get_model nl p = Some s ->
        exists a, sl_ptr s = Some a /\ is_Some (st_nodes st !! n) /\ pin_of (st_impls st) a n1 = None
  | edit_remove_from_node p n1 n =>
      forall s, get_model nl p = Some s -> exists a, sl_ptr s = Some a /\ pin_of (st_impls st) a n1 = Some n
  | edit_delete_node n => is_Some (st_nodes st !! n)
  end.

(** The empty netlist, its ground node at address 0. *)
Definition empty_store : store := mk_store {[0 := node_init]} ∅ 1.
Definition empty_netlist : netlist := mk_netlist [] [] 0.

Inductive edited : store -> netlist -> Prop :=
| edited_empty : edited empty_store empty_netlist
| edited_step st nl e st' nl' :
    edited st nl -> allowed st nl e -> run_edit st nl e = Some (st', nl') -> edited st' nl'.

Abbreviation ok := (consistent model_chunk node_chunk).

Lemma add_model_edit st nl k analog :
  ok st nl -> exists st' nl', run_edit st nl (edit_add_model k analog) = Some (st', nl') /\ ok st' nl'.
Proof.
  intros [Hst [Hs Hd] Hb Hc Hn]. cbn [run_edit]. unfold add_model.
  pose proof (push_slot_slots model_chunk (models nl) (mk_slot mt_normal (Some (st_next st)))) as Hp.
  pose proof (push_slot_blocks model_chunk (models nl) (mk_slot mt_normal (Some (st_next st))) model_chunk_pos eq_refl Hb) as Hpb.
  destruct (push_slot _ _ _) as [ms pos]. simpl in Hp, Hpb. eexists _, _. split; [done|].
  pose proof (fresh_impl st (proj2 (proj2 Hst))) as Hfr. split; simpl; try done.
  - by apply add_impl_ok.
  - unfold all_slots. simpl. rewrite Hp. split.
    + apply Forall_app. split.
      * eapply Forall_impl; [exact Hs|]. intros [t [b|]]; unfold slot_ok; simpl; [|done]. intros [-> Hi]. split; [done|].
        rewrite lookup_insert_ne; [done|]. intros <-. rewrite Hfr in Hi. by destruct Hi.
      * apply Forall_singleton. split; [done|]. rewrite lookup_insert_eq. by eexists.
    + rewrite omap_app. simpl. apply NoDup_app. split; [done|]. split; [|apply NoDup_singleton].
      intros x Hx ->%list_elem_of_singleton. apply list_elem_of_omap in Hx as ([t q] & Hin & Hq). simpl in Hq. subst q.
      rewrite Forall_forall in Hs. apply Hs in Hin as [_ Hi]. rewrite Hfr in Hi. by destruct Hi.
Qed.

Lemma create_node_edit st nl : ok st nl -> exists st' nl', run_edit st nl edit_create_node = Some (st', nl') /\ ok st' nl'.
Proof.
  intros [Hst Hs Hb Hc Hn]. cbn [run_edit]. unfold create_node. eexists _, _. split; [done|]. split; simpl; try done.
  - by apply add_node_ok.
  - by apply push_node_chunks.
  - rewrite push_node_nodes. rewrite app_comm_cons. apply Forall_app. split.
    + eapply Forall_impl; [exact Hn|]. intros m Hm. simpl in Hm. destruct (decide (m = st_next st)) as [->|Hne].
      * rewrite lookup_insert_eq. by eexists.
      * by rewrite lookup_insert_ne.
    + apply Forall_singleton. rewrite lookup_insert_eq. by eexists.
Qed.

(** An edit that keeps the objects keeps the netlist. *)
Lemma ok_same_objects st st' nl :
  ok st nl -> store_ok st' -> (forall b, is_Some (st_impls st' !! b) <-> is_Some (st_impls st !! b)) ->
  (forall m, is_Some (st_nodes st' !! m) <-> is_Some (st_nodes st !! m)) -> ok st' nl.
Proof.
  intros [Hst Hs Hb Hc Hn] Hst' Hi Hd. split; try done.
  - eapply slots_ok_ext; [|exact Hs]. intros a. apply Hi.
  - eapply Forall_impl; [exact Hn|]. intros m. apply Hd.
Qed.

Lemma connect_edit st nl e :
  (exists p n1 n, e = edit_add_to_node p n1 n \/ e = edit_remove_from_node p n1 n) ->
  ok st nl -> allowed st nl e -> exists st' nl', run_edit st nl e = Some (st', nl') /\ ok st' nl'.
Proof.
  intros (p & n1 & n & He) Hok Ha. destruct Hok as [Hst Hs Hb Hc Hn] eqn:E. clear E. destruct He as [->| ->]; cbn [run_edit allowed] in *.
  - unfold add_to_node. destruct (get_model nl p) as [s|] eqn:Eg; [|by exists st, nl].
    destruct (Ha s eq_refl) as (a & Hp & Hnd & Hfree). destruct (slots_ok_get _ _ _ _ _ Hs Eg Hp) as [_ Hi].
    destruct (connect_ok st a n1 n Hst Hi Hnd Hfree) as (r & st' & Hr & Hst' & Hi' & Hn').
    rewrite Hp. cbn [mbind option_bind]. rewrite Hr. eexists _, _. split; [done|]. by apply (ok_same_objects st).
  - unfold remove_from_node. destruct (get_model nl p) as [s|] eqn:Eg; [|by exists st, nl].
    destruct (Ha s eq_refl) as (a & Hp & Hpin).
    destruct (disconnect_ok st a n1 n Hst Hpin) as (r & st' & Hr & Hst' & Hi' & Hn').
    rewrite Hp. cbn [mbind option_bind]. rewrite Hr. eexists _, _. split; [done|]. by apply (ok_same_objects st).
Qed.

Lemma delete_node_edit st nl n :
  ok st nl -> is_Some (st_nodes st !! n) -> exists st' nl', run_edit st nl (edit_delete_node n) = Some (st', nl') /\ ok st' nl'.
Proof.
  intros Hok Hn. destruct (delete_node_ok st n (ok_store _ _ _ _ Hok) Hn) as (st' & Hr & Hst & Hi & Hd & _).
  cbn [run_edit]. rewrite Hr. eexists _, _. split; [done|]. by apply (ok_same_objects st).
Qed.

(** Deleting a live model at a slot. *)
Lemma ok_drop_model st nl (c : nat) b st' b' a A B L :
  ok st nl -> models nl !! c = Some b -> all_slots nl = A ++ mk_slot mt_normal (Some a) :: B ->
  store_ok st' -> st_impls st' = delete a (st_impls st) ->
  (forall m, is_Some (st_nodes st' !! m) <-> is_Some (st_nodes st !! m)) ->
  block_ok model_chunk b' -> all_slots (set_block nl c b') = A ++ L ++ B -> L = [] \/ L = [mk_slot mt_null None] ->
  ok st' (set_block nl c b').
Proof.
  intros [Hst Hs Hb Hc Hn] Hbl HA Hst' Hi Hd Hb' HA' HL. rewrite HA in Hs. apply slots_ok_delete in Hs as [Hs1 Hs2].
  split; simpl; try done.
  - rewrite HA', Hi. by destruct HL as [-> | ->].
  - by apply Forall_insert.
  - eapply Forall_impl; [exact Hn|]. intros m. apply Hd.
Qed.

Lemma delete_model_edit st nl p :
  ok st nl -> exists st' nl', run_edit st nl (edit_delete_model p) = Some (st', nl') /\ ok st' nl'.
Proof.
  intros Hok. cbn [run_edit]. unfold delete_model.
  destruct (models nl !! chunk_pos p) as [b|] eqn:Eb; [|by exists st, nl].
  destruct (bk_slots b !! vec_pos p) as [s|] eqn:Es; [|by exists st, nl].
  destruct (all_slots_at nl _ _ _ _ Eb Es) as (A & B & HA & HAi & HAr). destruct (nulls_at _ _ _ Es) as [Hni Hnr].
  pose proof (Forall_lookup_1 _ _ _ _ (ok_blocks _ _ _ _ Hok) Eb) as [Hlen Hnull].
  pose proof (ok_slots _ _ _ _ Hok) as Hs. rewrite HA in Hs.
  assert (Hsl : slot_ok (st_impls st) s) by (destruct Hs as [Hs _]; apply Forall_app in Hs as [_ Hs]; by apply Forall_inv in Hs).
  destruct s as [t [a|]]; cbv [slot_ok sl_ptr sl_type] in Hsl; [destruct Hsl as [-> Hi]|subst t].
  - destruct (clear_model_ok st a (ok_store _ _ _ _ Hok) Hi) as (st' & Hr & Hst & Hi' & Hd). rewrite Hr.
    change (is_null (mk_slot mt_normal (Some a))) with false in *. cbn [mbind option_bind].
    case_bool_decide as Hv; eexists _, _; (split; [done|]).
    + eapply (ok_drop_model st nl _ b st' _ a A B []); try done; [|exact (HAr Hv _)|by left].
      split; simpl; [rewrite (removelast_take _ _ Hv), length_take; lia|]. specialize (Hnr Hv). cbn iota in Hnr.
      rewrite Hnull. do 2 f_equal. lia.
    + eapply (ok_drop_model st nl _ b st' _ a A B [mk_slot mt_null None]); try done; [|by right].
      split; simpl; [by rewrite length_insert|]. specialize (Hni (mk_slot mt_null None)). simpl in Hni.
      rewrite Hnull, size_t_add. f_equal. lia.
  - change (is_null (mk_slot mt_null None)) with true in *.
    case_bool_decide as Hv; [|by exists st, nl]. simpl. eexists _, _. split; [done|].
    destruct Hok as [Hst _ Hb Hc Hn]. split; simpl; try done.
    + rewrite (HAr Hv). apply (slots_ok_drop _ A (mk_slot mt_null None) B); done.
    + apply Forall_insert; [done|]. split; simpl; [rewrite (removelast_take _ _ Hv), length_take; lia|].
      specialize (Hnr Hv). cbn iota in Hnr. rewrite Hnull, size_t_sub. f_equal. lia.
Qed.

Lemma run_edit_ok st nl e :
  ok st nl -> allowed st nl e -> exists st' nl', run_edit st nl e = Some (st', nl') /\ ok st' nl'.
Proof.
  intros Hok Ha. destruct e; eauto using add_model_edit, create_node_edit, delete_model_edit, delete_node_edit, connect_edit.
  - eapply connect_edit; eauto 6.
  - eapply connect_edit; eauto 6.
Qed.

Lemma empty_ok : ok empty_store empty_netlist.
Proof.
  split.
  - unfold store_ok. split_and!.
    + intros a k n. split; [done|]. intros (nd & Hn & Hin). simpl in Hn. apply lookup_singleton_Some in Hn as [_ <-]. by apply not_elem_of_empty in Hin.
    + intros n nd Hn. simpl in Hn. by apply lookup_singleton_Some in Hn as [_ <-].
    + split; simpl; intros n; [|by intros [? ?]]. intros [x Hx]. apply lookup_singleton_Some in Hx as [<- _]. lia.
  - split; [constructor|constructor].
  - constructor.
  - constructor.
  - constructor; [by eexists|constructor].
Qed.

Lemma edited_ok st nl : edited st nl -> ok st nl.
Proof.
  induction 1 as [|st nl e st' nl' _ IH Ha Hr]; [exact empty_ok|].
  destruct (run_edit_ok _ _ _ IH Ha) as (st1 & nl1 & Hr1 & Hok). by simplify_eq.
Qed.

End edits.

(** C19. Every netlist built from the empty one by [add_model], [create_node],
    [add_to_node] of a free pin, [remove_from_node] of a pin from its node,
    [delete_model] and [delete_node], in any order, is consistent: a pin points
    at a node exactly when the node lists the pin, [num_of_analog_node] is the
    number of pins of non-digital models, no slot dangles and no two slots share
    an implementation, no chunk overflows its storage and the null counters are
    right.  And no further such edit dereferences a null or dangling pointer. *)
Theorem edits_keep_netlist_consistent (model_chunk node_chunk : nat) (st : store) (nl : netlist) :
  0 < model_chunk -> 0 < node_chunk -> edited model_chunk node_chunk st nl ->
  consistent model_chunk node_chunk st nl /\
  forall e, allowed st nl e ->
    exists st' nl', run_edit model_chunk node_chunk st nl e = Some (st', nl') /\ consistent model_chunk node_chunk st' nl'.
Proof.
  intros Hm Hn He. pose proof (edited_ok model_chunk node_chunk Hm Hn st nl He) as Hok. split; [done|].
  intros e Ha. by apply run_edit_ok.
Qed.

(** ** Counting models *)

(** The number of models a netlist holds. *)
Definition live (l : list slot) : Z := Z.of_nat (length l - nulls l).

Lemma nulls_le (l : list slot) : nulls l <= length l.
Proof. apply length_filter. Qed.

Lemma count_slots (l : list slot) (r : Z) :
  size_t r = r -> foldl (fun r s => if is_null s then r else size_t (r + 1)) r l = size_t (r + live l).
Proof.
  revert r. induction l as [|s l IH]; intros r Hr; [by rewrite Z.add_0_r|]. simpl.
  unfold live. rewrite nulls_cons. pose proof (nulls_le l). destruct (is_null s).
  - rewrite IH by done. reflexivity.
  - rewrite IH by (unfold size_t; by rewrite Z.mod_mod). rewrite size_t_add. f_equal. unfold live. simpl length. lia.
Qed.

Lemma live_app (l k : list slot) : live (l ++ k) = (live l + live k)%Z.
Proof. unfold live. rewrite length_app, nulls_app. pose proof (nulls_le l). pose proof (nulls_le k). lia. Qed.

Lemma join_slots b ms : mjoin (bk_slots <$> b :: ms) = bk_slots b ++ mjoin (bk_slots <$> ms).
Proof. done. Qed.

Lemma count_checked (ms : list netlist_model_base_block) (r : Z) :
  size_t r = r ->
  foldl (fun res b => foldl (fun r s => if is_null s then r else size_t (r + 1)) res (bk_slots b)) r ms =
  size_t (r + live (mjoin (bk_slots <$> ms))).
Proof.
  revert r. induction ms as [|b ms IH]; intros r Hr; [by rewrite Z.add_0_r|]. rewrite join_slots. cbn [foldl]. rewrite count_slots by done.
  rewrite IH by (unfold size_t; by rewrite Z.mod_mod). rewrite size_t_add, live_app. f_equal. lia.
Qed.

Lemma count_fast (chunk : nat) (ms : list netlist_model_base_block) (r : Z) :
  Forall (block_ok chunk) ms -> size_t r = r ->
  foldl (fun res b => size_t (res + block_get_num_of_model b)) r ms = size_t (r + live (mjoin (bk_slots <$> ms))).
Proof.
  intros Hms. revert r. induction Hms as [|b ms [_ Hb] _ IH]; intros r Hr; [by rewrite Z.add_0_r|].
  rewrite join_slots. cbn [foldl].
  rewrite IH by (unfold size_t; by rewrite Z.mod_mod). rewrite size_t_add, live_app.
  assert (block_get_num_of_model b = size_t (live (bk_slots b))) as ->.
  { unfold block_get_num_of_model, live. rewrite Hb. unfold size_t. rewrite Zminus_mod_idemp_r. f_equal.
    pose proof (nulls_le (bk_slots b)). lia. }
  replace (r + size_t (live (bk_slots b)) + live (mjoin (bk_slots <$> ms)))%Z
    with (size_t (live (bk_slots b)) + (r + live (mjoin (bk_slots <$> ms))))%Z by lia.
  rewrite size_t_add. f_equal. lia.
Qed.

(** On every netlist built by those edits the two counts of models agree:
    [get_num_of_model<false>], which trusts the counters of the chunks, returns
    what [get_num_of_model<true>] finds by looking at every slot, the number of
    models added and not deleted, modulo 2^64. *)
Lemma model_counts_agree (model_chunk node_chunk : nat) (st : store) (nl : netlist) :
  0 < model_chunk -> 0 < node_chunk -> edited model_chunk node_chunk st nl ->
  get_num_of_model nl = get_num_of_model_checked nl /\ get_num_of_model_checked nl = size_t (live (all_slots nl)).
Proof.
  intros Hm Hn He. pose proof (edited_ok model_chunk node_chunk Hm Hn st nl He) as Hok.
  unfold get_num_of_model, get_num_of_model_checked.
  by rewrite (count_fast model_chunk), count_checked by (done || apply Hok).
Qed.

(** ** Positions *)

(** Positions are stable.  [add_model] returns the position of the new model
    and every position that named a model before names it still; [delete_model]
    leaves every other position as it was. *)
Lemma positions_stable (model_chunk : nat) (st : store) (nl : netlist) :
  (forall im, let '(st', nl', a, pos) := add_model model_chunk st nl im in
    get_model nl' pos = Some (mk_slot mt_normal (Some a)) /\ st_impls st' !! a = Some im /\
    forall p s, get_model nl p = Some s -> get_model nl' p = Some s) /\
  (forall pos r st' nl' p s, delete_model st nl pos = Some (r, st', nl') -> p <> pos ->
    get_model nl p = Some s -> get_model nl' p = Some s).
Proof.
  split.
  - intros im. unfold add_model, push_slot. destruct nl as [ms ns g]. simpl.
    destruct ms as [|b ms' _] using rev_ind; [split_and!; [done|by apply lookup_insert_eq|done]|].
    rewrite last_snoc, removelast_last. case_bool_decide as Hb; unfold get_model; simpl.
    + split_and!; [by rewrite list_lookup_middle|by apply lookup_insert_eq|].
      intros p s. destruct ((ms' ++ [b]) !! chunk_pos p) as [c|] eqn:Ec; [|done]. by erewrite lookup_app_l_Some.
    + rewrite length_app. simpl. rewrite Nat.add_sub. split_and!.
      * rewrite list_lookup_middle by done. simpl. by rewrite list_lookup_middle.
      * by apply lookup_insert_eq.
      * intros p s. destruct ((ms' ++ [b]) !! chunk_pos p) as [c|] eqn:Ec; [|done].
        apply lookup_snoc_Some in Ec as [[Hlt Hc]|[-> ->]].
        -- by erewrite lookup_app_l_Some.
        -- rewrite list_lookup_middle by done. simpl. intros Hs. by apply lookup_app_l_Some.
  - intros [v c] r st' nl' [v' c'] s. unfold delete_model, get_model. simpl.
    destruct (models nl !! c) as [b|] eqn:Eb; [|by intros [= <- <- <-]].
    destruct (bk_slots b !! v) as [s0|] eqn:Es; [|by intros [= <- <- <-]].
    assert (Hset : forall b', (forall i x, i <> v -> bk_slots b !! i = Some x -> bk_slots b' !! i = Some x) ->
              mk_pos v' c' <> mk_pos v c -> (models nl !! c' ≫= fun b => bk_slots b !! v') = Some s ->
              (models (set_block nl c b') !! c' ≫= fun b => bk_slots b !! v') = Some s).
    { intros b' Hb' Hne. simpl. destruct (decide (c' = c)) as [->|Hc]; [|by rewrite list_lookup_insert_ne].
      rewrite Eb, list_lookup_insert_eq by (by eapply lookup_lt_Some). simpl. apply Hb'. congruence. }
    case_bool_decide as Hv.
    + destruct (clear_model st s0) as [st1|]; [|done]. simpl.
      destruct (is_null s0); intros [= <- <- <-]; apply Hset; simpl; intros i x; by apply removelast_lookup.
    + destruct (is_null s0); [by intros [= <- <- <-]|]. destruct (clear_model st s0) as [st1|]; [|done]. simpl.
      intros [= <- <- <-]. apply Hset. simpl. intros i x Hi Hx. by rewrite list_lookup_insert_ne.
Qed.

(** ** Merging nodes *)

Lemma analog_pins_union (f : nat -> bool) (s t : gset (nat * nat)) :
  s ## t -> analog_pins f (s ∪ t) = (analog_pins f s + analog_pins f t)%Z.
Proof.
  intros Hd. unfold analog_pins. set (g := fun q : nat * nat => f q.1 = true).
  assert (filter g (s ∪ t) = filter g s ∪ filter g t) as -> by set_solver. rewrite size_union by set_solver. lia.
Qed.

Lemma size_t_cancel (x y : Z) : size_t y = size_t (x + y) <-> size_t x = 0%Z.
Proof.
  unfold size_t. split; intros H.
  - replace x with (x + y - y)%Z by lia. rewrite Zminus_mod, <- H, Z.sub_diag. done.
  - by rewrite <- Zplus_mod_idemp_l, H.
Qed.

Lemma graph_merge ns (P P' : nat -> nat -> option nat) (node other : nat) (nd od nd' od' : node_t) :
  graph ns P -> node <> other -> ns !! node = Some nd -> ns !! other = Some od ->
  (forall a k, P' a k = if decide (P a k = Some other) then Some node else P a k) ->
  node_pins nd' = node_pins od ∪ node_pins nd -> node_pins od' = ∅ ->
  graph (<[other := od']> (<[node := nd']> ns)) P'.
Proof.
  intros Hg Hne Hn Ho Hp Hnd Hod a k m. rewrite Hp. destruct (decide (m = other)) as [->|Hmo].
  - rewrite lookup_insert_eq. split; [case_decide; congruence|]. intros (x & Hx & Hin). simplify_eq. set_solver.
  - rewrite lookup_insert_ne by done. destruct (decide (m = node)) as [->|Hmn].
    + rewrite lookup_insert_eq. split.
      * intros Hx. exists nd'. split; [done|]. rewrite Hnd. apply elem_of_union. case_decide as Hd.
        -- apply Hg in Hd as (x & Hx' & Hin). simplify_eq. by left.
        -- apply Hg in Hx as (x & Hx' & Hin). simplify_eq. by right.
      * intros (x & Hx & Hin). simplify_eq. rewrite Hnd in Hin. case_decide as Hd; [done|].
        apply elem_of_union in Hin as [Hin|Hin]; [destruct Hd|]; apply Hg; by eauto.
    + rewrite lookup_insert_ne by done. rewrite <- (Hg a k m). case_decide as Hd; [|done]. rewrite Hd. split; congruence.
Qed.

(** [merge_node] moves every pin of the other node to the node and keeps the
    pin graph consistent.  It does not add up the counts of analog pins, so
    [num_of_analog_node] is right afterwards exactly when the other node had no
    pin of a non-digital model (modulo 2^64). *)
Lemma merge_node_counts (st : store) (node other : nat) (nd od : node_t) :
  store_ok st -> node <> other -> st_nodes st !! node = Some nd -> st_nodes st !! other = Some od ->
  exists st', merge_node st node other = Some st' /\ graph_ok st' /\
    (forall a k, pin_of (st_impls st') a k =
       if decide (pin_of (st_impls st) a k = Some other) then Some node else pin_of (st_impls st) a k) /\
    (counted_ok st' <-> size_t (analog_pins (analog_of (st_impls st)) (node_pins od)) = 0%Z).
Proof.
  intros (Hg & Hc & Hf) Hne Hn Ho.
  destruct (set_pins_ok (Some node) (ordered_pins (node_pins od)) (st_impls st)) as (ims & Hr & Hp & Hs).
  { by apply (node_pins_exist st other). }
  unfold merge_node. rewrite Hn, Ho. cbn [mbind option_bind]. rewrite Hr. cbn [mbind option_bind st_nodes].
  rewrite lookup_insert_ne, Ho by done. cbn [mbind option_bind]. eexists. split; [done|].
  assert (Hpin : forall a k, pin_of ims a k =
            if decide (pin_of (st_impls st) a k = Some other) then Some node else pin_of (st_impls st) a k).
  { intros a k. rewrite Hp. assert (Hiff : (a, k) ∈ ordered_pins (node_pins od) <-> pin_of (st_impls st) a k = Some other).
    { rewrite elem_of_ordered_pins, (Hg a k other). split; [by eauto|]. intros (od' & Ho' & Hin). by simplify_eq. }
    repeat case_decide; tauto || done. }
  assert (Hdisj : node_pins od ## node_pins nd).
  { intros [a k] Hx Hy. assert (pin_of (st_impls st) a k = Some other) by (apply Hg; eauto).
    assert (pin_of (st_impls st) a k = Some node) by (apply Hg; eauto). congruence. }
  split; [by apply (graph_merge (st_nodes st) (pin_of (st_impls st)) _ node other nd od)|]. split; [exact Hpin|].
  rewrite <- (size_t_cancel _ (analog_pins (analog_of (st_impls st)) (node_pins nd))), <- analog_pins_union by done.
  assert (Hext : forall ns, counted ns (analog_of ims) <-> counted ns (analog_of (st_impls st))).
  { intros ns. split; apply counted_ext; intros m md a k _ _; [|symmetry]; by apply impl_shape_analog. }
  unfold counted_ok. simpl. rewrite Hext, <- (Hc node nd Hn). split.
  - intros Hcc. specialize (Hcc node). rewrite lookup_insert_ne, lookup_insert_eq in Hcc by done. exact (Hcc _ eq_refl).
  - intros He. apply counted_insert; [|done]. by apply counted_insert.
Qed.

(** ** Copying a netlist *)

(** A resistor between a node and ground, beside a model that was deleted. *)
Definition resistor_edits : list edit :=
  [edit_create_node; edit_add_model 2 true; edit_add_model 2 true; edit_add_model 2 false;
   edit_add_to_node (mk_pos 0 0) 0 1; edit_add_to_node (mk_pos 0 0) 1 0; edit_delete_model (mk_pos 1 0)].

(** A test for [allowed]. *)
Definition allowedb (st : store) (nl : netlist) (e : edit) : bool :=
  match e with
  | edit_add_model _ _ | edit_create_node | edit_delete_model _ => true
  | edit_add_to_node p n1 n =>
      match get_model nl p with
      | None => true
      | Some s =>
          match sl_ptr s with
          | None => false
          | Some a => bool_decide (is_Some (st_nodes st !! n)) && bool_decide (pin_of (st_impls st) a n1 = None)
          end
      end
  | edit_remove_from_node p n1 n =>
      match get_model nl p with
      | None => true
      | Some s => match sl_ptr s with None => false | Some a => bool_decide (pin_of (st_impls st) a n1 = Some n) end
      end
  | edit_delete_node n => bool_decide (is_Some (st_nodes st !! n))
  end.

Lemma allowedb_sound st nl e : allowedb st nl e = true -> allowed st nl e.
Proof.
  destruct e as [| |p n1 n|p n1 n| |n]; simpl; try done.
  - destruct (get_model nl p) as [s|]; [|done]. intros Hb s' [= <-]. destruct (sl_ptr s) as [a|]; [|done]. exists a.
    apply andb_prop in Hb as [H1 H2]. by split_and!; [|eapply bool_decide_eq_true_1|eapply bool_decide_eq_true_1].
  - destruct (get_model nl p) as [s|]; [|done]. intros Hb s' [= <-]. destruct (sl_ptr s) as [a|]; [|done]. exists a.
    split; [done|]. by eapply bool_decide_eq_true_1.
  - apply bool_decide_eq_true_1.
Qed.

(** Run a list of edits from the empty netlist, each if it is allowed. *)
Definition run_edits (l : list edit) : option (store * netlist) :=
  fold_option (fun s e => if allowedb s.1 s.2 e then run_edit 16 16 s.1 s.2 e else None) l (empty_store, empty_netlist).

Lemma run_edits_edited l st nl : run_edits l = Some (st, nl) -> edited 16 16 st nl.
Proof.
  unfold run_edits. assert (Hgen : forall s0 nl0, edited 16 16 s0 nl0 ->
    fold_option (fun s e => if allowedb s.1 s.2 e then run_edit 16 16 s.1 s.2 e else None) l (s0, nl0) = Some (st, nl) ->
    edited 16 16 st nl); [|apply Hgen; constructor].
  induction l as [|e l IH]; intros s0 nl0 H0; cbn [fold_option]; [by intros [= <- <-]|]. cbn [fst snd].
  destruct (allowedb s0 nl0 e) eqn:Ea; [|done]. destruct (run_edit 16 16 s0 nl0 e) as [[s1 nl1]|] eqn:Er; [|done].
  apply IH. eapply edited_step; [exact H0| |exact Er]. by apply allowedb_sound.
Qed.

(** The copies lose the counters.  A netlist with a resistor from a node to
    ground and a deleted model is consistent; its copy by the copy constructor
    has the pins of the copied resistor on nodes with [num_of_analog_node] 0,
    and counts one model more than it has.  [add_netlist] of the same netlist
    dereferences the end of its map for the pin on ground. *)
Lemma copies_lose_counts :
  exists st nl st' nl' n nd, run_edits resistor_edits = Some (st, nl) /\ edited 16 16 st nl /\
    copy_netlist 16 16 st nl = Some (st', nl') /\ nodes nl' = [[n]] /\ st_nodes st' !! n = Some nd /\
    analog_pins (analog_of (st_impls st')) (node_pins nd) = 1%Z /\ num_of_analog_node nd = 0%Z /\
    get_num_of_model nl' = 3%Z /\ get_num_of_model_checked nl' = 2%Z /\
    add_netlist 16 16 st empty_netlist nl = None.
Proof.
  destruct (run_edits resistor_edits) as [[st nl]|] eqn:E; [|by vm_compute in E].
  pose proof (run_edits_edited _ _ _ E) as Hed. exists st, nl. vm_compute in E. injection E as <- <-.
  eexists _, _, _, _. split; [done|]. split; [exact Hed|]. split; [vm_compute; reflexivity|].
  split; [reflexivity|]. split; [vm_compute; reflexivity|]. by vm_compute.
Qed.

(** ** Witnesses *)

Lemma edits_keep_netlist_consistent_witness :
  exists st nl, run_edits resistor_edits = Some (st, nl) /\ consistent 16 16 st nl.
Proof.
  destruct (run_edits resistor_edits) as [[st nl]|] eqn:E; [|by vm_compute in E]. exists st, nl. split; [done|].
  apply (edits_keep_netlist_consistent 16 16 st nl); [lia|lia|by eapply run_edits_edited].
Defined.

Lemma model_counts_agree_witness :
  exists st nl, run_edits resistor_edits = Some (st, nl) /\ get_num_of_model nl = get_num_of_model_checked nl /\
    get_num_of_model nl = 2%Z.
Proof.
  destruct (run_edits resistor_edits) as [[st nl]|] eqn:E; [|by vm_compute in E]. exists st, nl. split; [done|].
  split; [apply (model_counts_agree 16 16 st nl); [lia|lia|by eapply run_edits_edited]|].
  vm_compute in E. by injection E as <- <-.
Defined.

Lemma positions_stable_witness :
  exists st nl st' nl', run_edits resistor_edits = Some (st, nl) /\
    delete_model st nl (mk_pos 0 0) = Some (true, st', nl') /\
    get_model nl' (mk_pos 2 0) = get_model nl (mk_pos 2 0) /\ is_Some (get_model nl (mk_pos 2 0)).
Proof.
  destruct (run_edits resistor_edits) as [[st nl]|] eqn:E; [|by vm_compute in E]. exists st, nl.
  assert (Hn : exists st' nl', delete_model st nl (mk_pos 0 0) = Some (true, st', nl')).
  { vm_compute in E. injection E as <- <-. by eexists _, _. }
  assert (Hg : exists s, get_model nl (mk_pos 2 0) = Some s).
  { vm_compute in E. injection E as <- <-. by eexists. }
  destruct Hn as (st' & nl' & Hd), Hg as (s & Hs). exists st', nl'. split_and!; [done|done| |by eexists].
  rewrite Hs. by apply (proj2 (positions_stable 16 st nl) _ _ _ _ (mk_pos 2 0) s Hd).
Defined.

Lemma merge_node_counts_witness :
  exists st nl st', run_edits resistor_edits = Some (st, nl) /\ merge_node st 0 1 = Some st' /\ ~ counted_ok st'.
Proof.
  destruct (run_edits resistor_edits) as [[st nl]|] eqn:E; [|by vm_compute in E]. exists st, nl.
  assert (Hok : store_ok st) by (apply (edited_ok 16 16 ltac:(lia) ltac:(lia) st nl); by eapply run_edits_edited).
  vm_compute in E. injection E as <- <-.
  destruct (merge_node_counts _ 0 1 _ _ Hok ltac:(done) eq_refl eq_refl) as (st' & Hr & _ & _ & Hc).
  exists st'. split_and!; [done|exact Hr|]. rewrite Hc. by vm_compute.
Defined.
