(* ===== verification/VModule.v ===== *)
(** * Verilog: the compiled module and the state of an instance

    The data of verilog/digital/digital.h that the front end produces and the
    simulator runs on: the expression DAG, statements, sensitivity lists,
    ports, vectors, instances, [compiled_module]; and the data the simulator
    keeps per instance, [module_state] and [instance_state].

    A [size_t] index is an [index]: [None] stands for [SIZE_MAX], the value
    the code uses for 'no index'.  No vector has [SIZE_MAX] elements, so every
    test [i >= v.size()] holds of it; [vget] is the checked access.  A pointer
    to a [compiled_module] is an [option]; modules are constant once compiled,
    so the pointee is kept by value.  A [btree_map] is a [gmap]; where the
    code iterates over one it is the list of its entries in key order. *)

From S2P Require Import Prelude Logic4.

(** ** Indices *)

Definition index := option nat.

Definition SIZE_MAX : index := None.

(** [v.index_unchecked(i)] under the guard [i < v.size()]. *)
Definition vget {A} (l : list A) (i : index) : option A := j ← i; l !! j.

(** [v.resize(n, x)] where the code only ever grows a vector. *)
Definition grow {A} (n : nat) (x : A) (l : list A) : list A := l ++ replicate (n - length l) x.

#[global] Arguments grow : simpl never.

(** ** Expressions *)

#[global] Instance dns_countable : Countable dns.
Proof.
  apply (inj_countable
    (fun d => match d with false_state => 0 | true_state => 1 | indeterminate_state => 2
                         | high_impedence_state => 3 end)
    (fun n => [false_state; true_state; indeterminate_state; high_impedence_state] !! n)).
  by intros [].
Defined.

Inductive port_dir := dir_unknown | dir_input | dir_output | dir_inout.

#[global] Instance port_dir_eq_dec : EqDecision port_dir.
Proof. solve_decision. Defined.

Inductive expr_kind :=
| ek_literal | ek_signal | ek_is_unknown | ek_unary_not | ek_binary_and | ek_binary_or
| ek_binary_xor | ek_binary_eq | ek_binary_neq | ek_binary_case_eq.

#[global] Instance expr_kind_eq_dec : EqDecision expr_kind.
Proof. solve_decision. Defined.

(** One node of the expression DAG; [expr_node_key], the key of the interning
    table, has the same five fields and is the same type here. *)
Record expr_node := mk_node {
  en_kind : expr_kind;
  en_literal : dns;
  en_a : index;
  en_b : index;
  en_signal : index;
}.

#[global] Instance expr_node_eq_dec : EqDecision expr_node.
Proof. solve_decision. Defined.

Definition expr_kind_num (k : expr_kind) : nat :=
  match k with
  | ek_literal => 0 | ek_signal => 1 | ek_is_unknown => 2 | ek_unary_not => 3 | ek_binary_and => 4
  | ek_binary_or => 5 | ek_binary_xor => 6 | ek_binary_eq => 7 | ek_binary_neq => 8
  | ek_binary_case_eq => 9
  end.

Definition expr_kind_of_num (n : nat) : option expr_kind :=
  [ek_literal; ek_signal; ek_is_unknown; ek_unary_not; ek_binary_and; ek_binary_or; ek_binary_xor;
   ek_binary_eq; ek_binary_neq; ek_binary_case_eq] !! n.

#[global] Instance expr_kind_countable : Countable expr_kind.
Proof. apply (inj_countable expr_kind_num expr_kind_of_num). by intros []. Defined.

#[global] Instance expr_node_countable : Countable expr_node.
Proof.
  apply (inj_countable' (fun n => (en_kind n, en_literal n, en_a n, en_b n, en_signal n))
           (fun '(k, l, a, b, s) => mk_node k l a b s)).
  by intros [].
Defined.

Record continuous_assign := mk_assign {
  ca_lhs_signal : index;
  ca_expr_root : index;
  ca_guard_root : index;
}.

(** ** Statements *)

Record case_item := mk_case_item {
  ci_is_default : bool;
  ci_match_roots : list index;
  ci_stmts : list index;
}.

Inductive stmt_kind :=
| sk_empty | sk_block | sk_subprogram_block | sk_blocking_assign | sk_blocking_assign_vec
| sk_nonblocking_assign | sk_nonblocking_assign_vec | sk_if_stmt | sk_case_stmt | sk_for_stmt
| sk_while_stmt | sk_do_while_stmt | sk_return_stmt | sk_break_stmt | sk_continue_stmt.

Inductive case_kind := ck_normal | ck_casez | ck_casex.

Record stmt_node := mk_stmt {
  sn_k : stmt_kind;
  sn_ck : case_kind;
  sn_delay_ticks : Z;
  sn_lhs_signal : index;
  sn_expr_root : index;
  sn_lhs_signals : list index;
  sn_rhs_roots : list index;
  sn_stmts : list index;
  sn_else_stmts : list index;
  sn_case_expr_roots : list index;
  sn_case_items : list case_item;
  sn_init_stmt : index;
  sn_step_stmt : index;
  sn_body_stmt : index;
}.

(** [stmt_node{}] *)
Definition stmt_node_default : stmt_node :=
  mk_stmt sk_empty ck_normal 0 SIZE_MAX SIZE_MAX [] [] [] [] [] [] SIZE_MAX SIZE_MAX SIZE_MAX.

Inductive sens_kind := sens_level | sens_posedge | sens_negedge.

Record sensitivity_event := mk_sens { se_k : sens_kind; se_signal : index }.

Record always_ff := mk_always_ff {
  ff_events : list sensitivity_event;
  ff_stmt_nodes : list stmt_node;
  ff_roots : list index;
}.

Record always_comb := mk_always_comb {
  ac_is_star : bool;
  ac_sens_signals : list index;
  ac_stmt_nodes : list stmt_node;
  ac_roots : list index;
}.

Record initial_block := mk_initial {
  ib_stmt_nodes : list stmt_node;
  ib_roots : list index;
}.

(** ** Ports, vectors and instances *)

Record port_decl := mk_port_decl {
  pd_dir : port_dir;
  pd_has_range : bool;
  pd_msb : Z;
  pd_lsb : Z;
  pd_is_reg : bool;
  pd_is_signed : bool;
}.

Definition port_decl_default : port_decl := mk_port_decl dir_unknown false 0 0 false false.

(** [vd_bits] is msb first. *)
Record vector_desc := mk_vector {
  vd_msb : Z;
  vd_lsb : Z;
  vd_is_reg : bool;
  vd_is_signed : bool;
  vd_bits : list index;
}.

Inductive connection_kind :=
| cn_unconnected | cn_scalar | cn_vector | cn_literal | cn_literal_vector | cn_bit_list | cn_expr.

Record connection_bit := mk_connection_bit {
  cb_is_literal : bool;
  cb_signal : index;
  cb_literal : dns;
}.

Record connection_ref := mk_connection {
  cr_kind : connection_kind;
  cr_is_signed : bool;
  cr_scalar_signal : index;
  cr_vector_base : string;
  cr_literal : dns;
  cr_literal_bits : list dns;
  cr_bit_list : list connection_bit;
  cr_expr_roots : list index;
}.

Definition connection_ref_default : connection_ref :=
  mk_connection cn_unconnected false SIZE_MAX "" indeterminate_state [] [] [].

Record instance_connection := mk_instance_connection {
  ic_port_name : string;
  ic_ref : connection_ref;
}.

(** [inst_param_named_values] lists the entries of the map in key order. *)
Record instance := mk_instance {
  inst_module_name : string;
  inst_instance_name : string;
  inst_has_implicit_named_connections : bool;
  inst_param_positional_values : list Z;
  inst_param_named_values : list (string * Z);
  inst_connections : list instance_connection;
}.

Record port := mk_port {
  port_name : string;
  port_direction : port_dir;
  port_signal : index;
}.

(** ** Subprograms (inlined by the front end) *)

Record function_param := mk_function_param {
  fp_name : string;
  fp_has_range : bool;
  fp_msb : Z;
  fp_lsb : Z;
  fp_is_signed : bool;
  fp_width : nat;
}.

Record function_def := mk_function {
  fd_ret_has_range : bool;
  fd_ret_msb : Z;
  fd_ret_lsb : Z;
  fd_ret_is_signed : bool;
  fd_ret_width : nat;
  fd_params : list function_param;
  fd_locals : list string;
  fd_body_text : string;
}.

Inductive param_dir := pdir_input | pdir_output | pdir_inout.

Record task_param := mk_task_param {
  tp_name : string;
  tp_dir : param_dir;
  tp_has_range : bool;
  tp_msb : Z;
  tp_lsb : Z;
  tp_is_signed : bool;
  tp_width : nat;
}.

Record task_def := mk_task {
  td_params : list task_param;
  td_body_text : string;
}.

(** ** The compiled module *)

Record compiled_module := mk_module {
  cm_name : string;
  cm_ports : list port;
  cm_port_order : list string;
  cm_port_decls : gmap string port_decl;
  cm_vectors : gmap string vector_desc;
  cm_signal_names : list string;
  cm_signal_is_reg : list bool;
  cm_signal_is_signed : list bool;
  cm_signal_is_const : list bool;
  cm_signal_is_const_foldable : list bool;
  cm_signal_const_value : list dns;
  cm_signal_index : gmap string nat;
  cm_param_order : list string;
  cm_param_default_values : gmap string Z;
  cm_param_is_local : gmap string bool;
  cm_expr_nodes : list expr_node;
  cm_expr_intern : gmap expr_node nat;
  cm_assigns : list continuous_assign;
  cm_always_ffs : list always_ff;
  cm_always_combs : list always_comb;
  cm_initials : list initial_block;
  cm_instances : list instance;
  cm_functions : gmap string function_def;
  cm_tasks : gmap string task_def;
  cm_inline_counter : Z;
}.

(** [compiled_module{}] *)
Definition compiled_module_default : compiled_module :=
  mk_module "" [] [] ∅ ∅ [] [] [] [] [] [] ∅ [] ∅ ∅ [] ∅ [] [] [] [] [] ∅ ∅ 0.

(** ** Simulation state *)

(** An assignment that is due at a tick. *)
Record scheduled_event := mk_event {
  ev_due_tick : Z;
  ev_nonblocking : bool;
  ev_lhs_signal : index;
  ev_expr_root : index;
  ev_is_vector : bool;
  ev_lhs_signals : list index;
  ev_expr_roots : list index;
}.

Record module_state := mk_state {
  st_mod : option compiled_module;
  st_values : list dns;
  st_prev_values : list dns;
  st_comb_prev_values : list dns;
  st_comb_initialized : bool;
  st_initial_ran : bool;
  st_initial_base_tick : Z;
  st_events : list scheduled_event;
  st_nba_queue : list (index * dns);
  st_next_net_values : list dns;
  st_change_mark : list Z;
  st_changed_signals : list index;
  st_change_token : Z;
  st_expr_eval_cache : list dns;
  st_expr_eval_mark : list Z;
  st_expr_eval_token : Z;
}.

(** [module_state{}] *)
Definition module_state_default : module_state :=
  mk_state None [] [] [] false false 0 [] [] [] [] [] 1 [] [] 1.

(** Updates of the fields the code assigns together. *)
Definition with_eval (st : module_state) (cache : list dns) (mark : list Z) (token : Z) : module_state :=
  mk_state (st_mod st) (st_values st) (st_prev_values st) (st_comb_prev_values st)
    (st_comb_initialized st) (st_initial_ran st) (st_initial_base_tick st) (st_events st)
    (st_nba_queue st) (st_next_net_values st) (st_change_mark st) (st_changed_signals st)
    (st_change_token st) cache mark token.

Definition with_change (st : module_state) (values : list dns) (mark : list Z) (changed : list index)
  (token : Z) : module_state :=
  mk_state (st_mod st) values (st_prev_values st) (st_comb_prev_values st)
    (st_comb_initialized st) (st_initial_ran st) (st_initial_base_tick st) (st_events st)
    (st_nba_queue st) (st_next_net_values st) mark changed token (st_expr_eval_cache st)
    (st_expr_eval_mark st) (st_expr_eval_token st).

Definition with_events (st : module_state) (events : list scheduled_event) : module_state :=
  mk_state (st_mod st) (st_values st) (st_prev_values st) (st_comb_prev_values st)
    (st_comb_initialized st) (st_initial_ran st) (st_initial_base_tick st) events
    (st_nba_queue st) (st_next_net_values st) (st_change_mark st) (st_changed_signals st)
    (st_change_token st) (st_expr_eval_cache st) (st_expr_eval_mark st) (st_expr_eval_token st).

Definition with_nba (st : module_state) (queue : list (index * dns)) : module_state :=
  mk_state (st_mod st) (st_values st) (st_prev_values st) (st_comb_prev_values st)
    (st_comb_initialized st) (st_initial_ran st) (st_initial_base_tick st) (st_events st) queue
    (st_next_net_values st) (st_change_mark st) (st_changed_signals st) (st_change_token st)
    (st_expr_eval_cache st) (st_expr_eval_mark st) (st_expr_eval_token st).

Definition with_next_net (st : module_state) (next : list dns) : module_state :=
  mk_state (st_mod st) (st_values st) (st_prev_values st) (st_comb_prev_values st)
    (st_comb_initialized st) (st_initial_ran st) (st_initial_base_tick st) (st_events st)
    (st_nba_queue st) next (st_change_mark st) (st_changed_signals st) (st_change_token st)
    (st_expr_eval_cache st) (st_expr_eval_mark st) (st_expr_eval_token st).

Definition with_prev (st : module_state) (prev comb_prev : list dns) : module_state :=
  mk_state (st_mod st) (st_values st) prev comb_prev (st_comb_initialized st) (st_initial_ran st)
    (st_initial_base_tick st) (st_events st) (st_nba_queue st) (st_next_net_values st)
    (st_change_mark st) (st_changed_signals st) (st_change_token st) (st_expr_eval_cache st)
    (st_expr_eval_mark st) (st_expr_eval_token st).

Definition with_comb_initialized (st : module_state) : module_state :=
  mk_state (st_mod st) (st_values st) (st_prev_values st) (st_comb_prev_values st) true
    (st_initial_ran st) (st_initial_base_tick st) (st_events st) (st_nba_queue st)
    (st_next_net_values st) (st_change_mark st) (st_changed_signals st) (st_change_token st)
    (st_expr_eval_cache st) (st_expr_eval_mark st) (st_expr_eval_token st).

Definition with_initial_ran (st : module_state) (base : Z) : module_state :=
  mk_state (st_mod st) (st_values st) (st_prev_values st) (st_comb_prev_values st)
    (st_comb_initialized st) true base (st_events st) (st_nba_queue st) (st_next_net_values st)
    (st_change_mark st) (st_changed_signals st) (st_change_token st) (st_expr_eval_cache st)
    (st_expr_eval_mark st) (st_expr_eval_token st).

Definition with_values (st : module_state) (values : list dns) : module_state :=
  mk_state (st_mod st) values (st_prev_values st) (st_comb_prev_values st)
    (st_comb_initialized st) (st_initial_ran st) (st_initial_base_tick st) (st_events st)
    (st_nba_queue st) (st_next_net_values st) (st_change_mark st) (st_changed_signals st)
    (st_change_token st) (st_expr_eval_cache st) (st_expr_eval_mark st) (st_expr_eval_token st).

(** ** Instances *)

Inductive binding_kind := pb_unconnected | pb_parent_signal | pb_literal | pb_parent_expr_root.

#[global] Instance binding_kind_eq_dec : EqDecision binding_kind.
Proof. solve_decision. Defined.

Record port_binding := mk_binding {
  pb_k : binding_kind;
  pb_signal : index;
  pb_expr_root : index;
  pb_lit : dns;
}.

Definition port_binding_default : port_binding :=
  mk_binding pb_unconnected SIZE_MAX SIZE_MAX indeterminate_state.

Record port_drive := mk_drive {
  dr_parent_signal : index;
  dr_src_is_literal : bool;
  dr_child_signal : index;
  dr_literal : dns;
}.

(** The children are owned pointers that are never null. *)
#[warnings="-register-all"]
Inductive instance_state := mk_inst {
  is_mod : option compiled_module;
  is_instance_name : string;
  is_state : module_state;
  is_driven_nets : list bool;
  is_bindings : list port_binding;
  is_output_drives : list port_drive;
  is_children : list instance_state;
}.

Definition with_inst_state (i : instance_state) (st : module_state) : instance_state :=
  mk_inst (is_mod i) (is_instance_name i) st (is_driven_nets i) (is_bindings i) (is_output_drives i) (is_children i).

Definition with_driven (i : instance_state) (driven : list bool) : instance_state :=
  mk_inst (is_mod i) (is_instance_name i) (is_state i) driven (is_bindings i) (is_output_drives i) (is_children i).

Definition with_children (i : instance_state) (children : list instance_state) : instance_state :=
  mk_inst (is_mod i) (is_instance_name i) (is_state i) (is_driven_nets i) (is_bindings i) (is_output_drives i) children.

Record compiled_design := mk_design {
  cd_modules : list compiled_module;
  cd_module_index : gmap string nat;
}.
