(* ===== verification/VEval.v ===== *)
(** * Verilog: evaluation of expressions

    [eval_expr], the plain recursion over the expression DAG, and
    [eval_expr_cached], the memoised evaluation the simulator uses, from
    verilog/digital/digital.h.  Both are related to [arena_values], which
    evaluates the nodes of an arena once each in index order: on an arena
    whose operands point to earlier nodes, the only arenas the front end
    builds, the three agree.  The memoised evaluation returns on every arena,
    cyclic ones included, because a node is marked before its operands are
    visited. *)

From S2P Require Import Prelude Logic4 VModule.
From Stdlib Require Import ZArith Lia.

(** ** Operators *)

(** The unary and binary cases of the [switch] over [expr_kind]. *)
Definition eval_op1 (k : expr_kind) (a : dns) : dns :=
  match k with
  | ek_is_unknown => dns_of_bool (is_unknown (normalize_z_to_x a))
  | _ => logic_not a
  end.

Definition eval_op2 (k : expr_kind) (a b : dns) : dns :=
  match k with
  | ek_binary_and => logic_and a b
  | ek_binary_or => logic_or a b
  | ek_binary_xor => logic_xor a b
  | ek_binary_eq =>
      let a := normalize_z_to_x a in
      let b := normalize_z_to_x b in
      if is_unknown a || is_unknown b then indeterminate_state else dns_of_bool (bool_decide (a = b))
  | ek_binary_neq =>
      let a := normalize_z_to_x a in
      let b := normalize_z_to_x b in
      if is_unknown a || is_unknown b then indeterminate_state else dns_of_bool (bool_decide (a ≠ b))
  | _ => dns_of_bool (bool_decide (a = b))
  end.

(** The value a [signal] node reads. *)
Definition read_signal (values : list dns) (sig : index) : dns :=
  default indeterminate_state (vget values sig).

(** ** Plain recursion

    [None] is an access outside the arena, which the code does not check, or
    too little fuel. *)
Fixpoint eval_expr (fuel : nat) (nodes : list expr_node) (root : index) (values : list dns) : option dns :=
  match fuel with
  | O => None
  | S fuel =>
      n ← vget nodes root;
      match en_kind n with
      | ek_literal => Some (en_literal n)
      | ek_signal => Some (read_signal values (en_signal n))
      | ek_is_unknown | ek_unary_not =>
          a ← eval_expr fuel nodes (en_a n) values;
          Some (eval_op1 (en_kind n) a)
      | _ =>
          a ← eval_expr fuel nodes (en_a n) values;
          b ← eval_expr fuel nodes (en_b n) values;
          Some (eval_op2 (en_kind n) a b)
      end
  end.

(** ** Memoised recursion *)

(** The [switch] of [eval_expr_cached], its recursive calls threading cache and
    marks through. *)
Definition eval_switch {M : Type} (self : index -> M -> option (dns * M)) (values : list dns) (n : expr_node)
  (cm : M) : option (dns * M) :=
  match en_kind n with
  | ek_literal => Some (en_literal n, cm)
  | ek_signal => Some (read_signal values (en_signal n), cm)
  | ek_is_unknown | ek_unary_not =>
      '(a, cm) ← self (en_a n) cm;
      Some (eval_op1 (en_kind n) a, cm)
  | _ =>
      '(a, cm) ← self (en_a n) cm;
      '(b, cm) ← self (en_b n) cm;
      Some (eval_op2 (en_kind n) a b, cm)
  end.

(** The lambda [eval] of [eval_expr_cached]; [None] is an access outside the
    cache or the marks, or too little fuel. *)
Fixpoint eval_memo (fuel : nat) (nodes : list expr_node) (values : list dns) (token : Z) (r : index)
  (cm : list dns * list Z) : option (dns * (list dns * list Z)) :=
  match fuel with
  | O => None
  | S fuel =>
      match r, vget nodes r with
      | Some i, Some n =>
          k ← snd cm !! i;
          c ← fst cm !! i;
          if Z.eqb k token then Some (c, cm)
          else
            '(v, cm) ← eval_switch (eval_memo fuel nodes values token) values n (fst cm, <[i := token]> (snd cm));
            Some (v, (<[i := v]> (fst cm), snd cm))
      | _, _ => Some (indeterminate_state, cm)
      end
  end.

(** Unsigned 32-bit increment. *)
Definition u32_succ (x : Z) : Z := (x + 1) mod 2 ^ 32.

(** [++token; if(token == 0) { token = 1; fill(marks, 0); }] *)
Definition next_token (token : Z) (marks : list Z) : Z * list Z :=
  let token := u32_succ token in
  if Z.eqb token 0 then (1%Z, (fun _ => 0%Z) <$> marks) else (token, marks).

Definition eval_expr_cached (m : compiled_module) (root : index) (st : module_state)
  : option (dns * module_state) :=
  let nodes := cm_expr_nodes m in
  match vget nodes root with
  | None => Some (indeterminate_state, st)
  | Some _ =>
      let small := bool_decide (length (st_expr_eval_cache st) < length nodes) in
      let cache := if small then grow (length nodes) dns_default (st_expr_eval_cache st) else st_expr_eval_cache st in
      let mark := if small then grow (length nodes) 0%Z (st_expr_eval_mark st) else st_expr_eval_mark st in
      let '(token, mark) := next_token (st_expr_eval_token st) mark in
      '(v, (cache, mark)) ← eval_memo (S (length mark)) nodes (st_values st) token root (cache, mark);
      Some (v, with_eval st cache mark token)
  end.

(** ** Reference semantics *)

(** The operands a kind of node reads. *)
Definition operands (n : expr_node) : list index :=
  match en_kind n with
  | ek_literal | ek_signal => []
  | ek_is_unknown | ek_unary_not => [en_a n]
  | _ => [en_a n; en_b n]
  end.

(** The value of a node from the values of the nodes before it. *)
Definition node_value (values : list dns) (n : expr_node) (vs : list dns) : dns :=
  match en_kind n with
  | ek_literal => en_literal n
  | ek_signal => read_signal values (en_signal n)
  | ek_is_unknown | ek_unary_not => eval_op1 (en_kind n) (read_signal vs (en_a n))
  | _ => eval_op2 (en_kind n) (read_signal vs (en_a n)) (read_signal vs (en_b n))
  end.

(** Every node evaluated once, in order. *)
Definition arena_values (values : list dns) (nodes : list expr_node) : list dns :=
  foldl (fun vs n => vs ++ [node_value values n vs]) [] nodes.

(** The value of a root; an index outside the arena reads [X]. *)
Definition ev (values : list dns) (nodes : list expr_node) (r : index) : dns :=
  read_signal (arena_values values nodes) r.

(** Operands point to earlier nodes. *)
Definition acyclic (nodes : list expr_node) : Prop :=
  forall i n j, nodes !! i = Some n -> Some j ∈ operands n -> j < i.

(** Operands exist. *)
Definition closed (nodes : list expr_node) : Prop :=
  forall i n r, nodes !! i = Some n -> r ∈ operands n -> is_Some (vget nodes r).

(** What the memoised evaluation relies on between calls. *)
Record eval_inv (st : module_state) : Prop := {
  ei_length : length (st_expr_eval_mark st) = length (st_expr_eval_cache st);
  ei_token : (1 <= st_expr_eval_token st < 2 ^ 32)%Z;
  ei_marks : Forall (fun k => (0 <= k <= st_expr_eval_token st)%Z) (st_expr_eval_mark st);
}.

(** ** Lemmas on the reference semantics *)

Lemma arena_values_snoc values nodes n :
  arena_values values (nodes ++ [n])
  = arena_values values nodes ++ [node_value values n (arena_values values nodes)].
Proof. unfold arena_values. by rewrite foldl_app. Qed.

Lemma length_arena_values values nodes : length (arena_values values nodes) = length nodes.
Proof.
  induction nodes as [|n nodes IH] using rev_ind; [done|].
  rewrite arena_values_snoc, !length_app, IH. done.
Qed.

Lemma arena_values_app values nodes more :
  exists vs, arena_values values (nodes ++ more) = arena_values values nodes ++ vs.
Proof.
  induction more as [|n more [vs IH]] using rev_ind; [exists []; by rewrite !app_nil_r|].
  rewrite app_assoc, arena_values_snoc, IH. rewrite <- app_assoc. by eexists.
Qed.

Lemma ev_app values nodes more r :
  is_Some (vget nodes r) -> ev values (nodes ++ more) r = ev values nodes r.
Proof.
  destruct r as [i|]; intros [n Hn]; [|done]. simpl in Hn. apply lookup_lt_Some in Hn.
  destruct (arena_values_app values nodes more) as [vs Hvs].
  unfold ev, read_signal. rewrite Hvs. simpl. by rewrite lookup_app_l by (by rewrite length_arena_values).
Qed.

Lemma acyclic_app_l nodes more : acyclic (nodes ++ more) -> acyclic nodes.
Proof. intros H i n j Hn. apply H. by apply lookup_app_l_Some. Qed.

(** The value of an in-range root unfolds to the operator applied to the
    values of the operands. *)
Lemma ev_node values nodes i n :
  acyclic nodes -> nodes !! i = Some n ->
  ev values nodes (Some i) = node_value values n (arena_values values nodes).
Proof.
  induction nodes as [|x nodes IH] using rev_ind; intros Hac Hi; [done|].
  assert (Hrd : forall j, Some j ∈ operands n ->
    read_signal (arena_values values (nodes ++ [x])) (Some j) = read_signal (arena_values values nodes) (Some j)).
  { intros j Hj. specialize (Hac i n j Hi Hj). apply lookup_lt_Some in Hi. rewrite length_app in Hi. simpl in Hi.
    rewrite arena_values_snoc. unfold read_signal. simpl.
    rewrite lookup_app_l; [done|]. rewrite length_arena_values. lia. }
  assert (Hnv : node_value values n (arena_values values (nodes ++ [x])) = node_value values n (arena_values values nodes)).
  { unfold node_value. unfold operands in Hrd.
    assert (Hn : forall vs, read_signal vs None = indeterminate_state) by done.
    assert (Hab : forall r, r ∈ operands n ->
      read_signal (arena_values values (nodes ++ [x])) r = read_signal (arena_values values nodes) r).
    { intros [j|] Hr; [|done]. by apply Hrd. }
    unfold operands in Hab. destruct (en_kind n); try done; rewrite !Hab by set_solver; done. }
  rewrite Hnv. destruct (decide (i = length nodes)) as [->|Hne].
  - rewrite list_lookup_middle in Hi by done. injection Hi as ->.
    unfold ev. rewrite arena_values_snoc. unfold read_signal. simpl.
    by rewrite list_lookup_middle by (by rewrite length_arena_values).
  - assert (Hlt : i < length nodes).
    { apply lookup_lt_Some in Hi. rewrite length_app in Hi. simpl in Hi. lia. }
    rewrite lookup_app_l in Hi by done.
    rewrite ev_app by (by eexists). apply IH; [by eapply acyclic_app_l|done].
Qed.

(** ** Plain recursion computes the reference value *)

Lemma eval_expr_ev fuel nodes values i :
  acyclic nodes -> closed nodes -> i < length nodes -> i < fuel ->
  eval_expr fuel nodes (Some i) values = Some (ev values nodes (Some i)).
Proof.
  intros Hac Hcl. revert i. induction fuel as [|fuel IH]; intros i Hi Hf; [lia|].
  destruct (lookup_lt_is_Some_2 _ _ Hi) as [n Hn].
  rewrite (ev_node values nodes i n) by done. simpl. rewrite Hn. simpl.
  assert (Hop : forall r, r ∈ operands n ->
    eval_expr fuel nodes r values = Some (read_signal (arena_values values nodes) r)).
  { intros r Hr. destruct (Hcl i n r Hn Hr) as [nr Hnr]. destruct r as [j|]; [|done].
    simpl in Hnr. specialize (Hac i n j Hn Hr). rewrite IH; [done| |lia]. by eapply lookup_lt_Some. }
  unfold node_value. unfold operands in Hop.
  destruct (en_kind n) eqn:Ek; try done; rewrite !Hop by set_solver; done.
Qed.

(** ** The memoised recursion returns *)

(** The nodes not yet visited in this evaluation bound the depth. *)
Definition unmarked (token : Z) (mark : list Z) : nat := length (filter (fun k => k ≠ token) mark).

(** Marks only ever become the current token. *)
Definition marked_more (token : Z) : list Z -> list Z -> Prop := Forall2 (fun k k' => k' = k \/ k' = token).

#[global] Instance marked_more_preorder token : PreOrder (marked_more token).
Proof.
  split.
  - intros l. induction l; constructor; auto.
  - intros l1 l2 l3 H12. revert l3. induction H12 as [|a b l1 l2 Hab _ IH]; intros l3 H23; inversion H23; subst; [done|].
    constructor; [naive_solver|by apply IH].
Qed.

Lemma marked_more_unmarked token l l' : marked_more token l l' -> unmarked token l' <= unmarked token l.
Proof.
  unfold unmarked. induction 1 as [|a b l l' Hab _ IH]; [done|].
  rewrite !filter_cons. repeat case_decide; simpl; naive_solver lia.
Qed.

Lemma mark_insert token l i k :
  l !! i = Some k -> k ≠ token ->
  marked_more token l (<[i := token]> l) /\ unmarked token l = S (unmarked token (<[i := token]> l)).
Proof.
  intros Hi Hk. split.
  - apply Forall2_same_length_lookup_2; [by rewrite length_insert|]. intros j x y Hx Hy.
    destruct (decide (j = i)) as [->|Hne].
    + rewrite list_lookup_insert_eq in Hy by (by eapply lookup_lt_Some). naive_solver.
    + rewrite list_lookup_insert_ne in Hy by done. naive_solver.
  - rewrite <- (take_drop_middle l i k Hi) at 1. rewrite (insert_take_drop l i token) by (by eapply lookup_lt_Some).
    unfold unmarked. rewrite !filter_app, !filter_cons, !length_app.
    rewrite decide_True by done. rewrite decide_False by (intros H; by apply H). simpl. lia.
Qed.

Lemma eval_switch_total {M} self values n (P : M -> Prop) cm :
  (forall r cm, P cm -> exists v cm', self r cm = Some (v, cm') /\ P cm') -> P cm ->
  exists v cm', eval_switch self values n cm = Some (v, cm') /\ P cm'.
Proof.
  intros Hself HP. unfold eval_switch.
  destruct (Hself (en_a n) cm HP) as (a & cm1 & Ha & HP1).
  destruct (Hself (en_b n) cm1 HP1) as (b & cm2 & Hb & HP2).
  destruct (en_kind n); rewrite ?Ha; simpl; rewrite ?Hb; simpl; eauto.
Qed.

Lemma eval_memo_total nodes values token fuel r cache mark :
  length mark = length cache -> length nodes <= length cache -> unmarked token mark < fuel ->
  exists v cm',
    eval_memo fuel nodes values token r (cache, mark) = Some (v, cm')
    /\ length (fst cm') = length cache /\ marked_more token mark (snd cm').
Proof.
  revert r cache mark. induction fuel as [|fuel IH]; intros r cache mark Hl Hn Hf; [lia|].
  simpl. destruct r as [i|]; [|naive_solver]. simpl.
  destruct (nodes !! i) as [n|] eqn:Hi; [|naive_solver].
  pose proof (lookup_lt_Some _ _ _ Hi) as Hlt.
  destruct (lookup_lt_is_Some_2 mark i) as [k Hk]; [lia|].
  destruct (lookup_lt_is_Some_2 cache i) as [c Hc]; [lia|].
  rewrite Hk, Hc. simpl. destruct (Z.eqb_spec k token) as [->|Hkt]; [naive_solver|].
  destruct (mark_insert token mark i k Hk Hkt) as [Hmm Hum].
  destruct (eval_switch_total (eval_memo fuel nodes values token) values n
    (fun cm => length (fst cm) = length cache /\ marked_more token (<[i := token]> mark) (snd cm))
    (cache, <[i := token]> mark)) as (v & [c1 m1] & -> & Hc1 & Hm1); [|done|].
  - intros r [c1 m1] [Hc1 Hm1]. simpl in *.
    pose proof (Forall2_length _ _ _ Hm1) as Hlm. rewrite length_insert in Hlm.
    pose proof (marked_more_unmarked _ _ _ Hm1).
    destruct (IH r c1 m1) as (v & cm' & ? & ? & ?); [lia|lia|lia|].
    exists v, cm'. split_and!; [done|lia|by etrans].
  - simpl in *. do 2 eexists. split_and!; [done| |by etrans]. simpl. by rewrite length_insert.
Qed.

(** ** The memoised recursion computes the reference value *)

Lemma eval_switch_value {M} self values n vs (P : M -> Prop) cm v cm' :
  (forall r cm v cm', r ∈ operands n -> P cm -> self r cm = Some (v, cm') -> v = read_signal vs r /\ P cm') ->
  P cm -> eval_switch self values n cm = Some (v, cm') -> v = node_value values n vs /\ P cm'.
Proof.
  intros Hself HP. unfold eval_switch, node_value, operands in *.
  assert (Hun : forall k, (forall r, r ∈ [en_a n] -> r ∈ operands n) ->
    ('(a, cm) ← self (en_a n) cm; Some (eval_op1 k a, cm)) = Some (v, cm') ->
    v = eval_op1 k (read_signal vs (en_a n)) /\ P cm').
  { intros k Hin. destruct (self (en_a n) cm) as [[a cm1]|] eqn:Ha; simpl; [|done].
    apply Hself in Ha as [-> HP1]; [naive_solver| |done]. apply Hin. set_solver. }
  assert (Hbi : forall k, (forall r, r ∈ [en_a n; en_b n] -> r ∈ operands n) ->
    ('(a, cm) ← self (en_a n) cm; '(b, cm) ← self (en_b n) cm; Some (eval_op2 k a b, cm)) = Some (v, cm') ->
    v = eval_op2 k (read_signal vs (en_a n)) (read_signal vs (en_b n)) /\ P cm').
  { intros k Hin. destruct (self (en_a n) cm) as [[a cm1]|] eqn:Ha; simpl; [|done].
    apply Hself in Ha as [-> HP1]; [|apply Hin; set_solver|done].
    destruct (self (en_b n) cm1) as [[b cm2]|] eqn:Hb; simpl; [|done].
    apply Hself in Hb as [-> HP2]; [naive_solver| |done]. apply Hin. set_solver. }
  unfold operands in Hun, Hbi.
  destruct (en_kind n); first [by intros [= <- <-] | by apply Hun | by apply Hbi].
Qed.

(** After visiting [r]: everything above [r] is untouched and what is marked up
    to [r] holds its value. *)
Definition memo_ok (values : list dns) (nodes : list expr_node) (token : Z) (r : nat) (cm : list dns * list Z) : Prop :=
  forall i, i < r -> snd cm !! i = Some token -> fst cm !! i = Some (ev values nodes (Some i)).

Definition memo_frame (r : nat) (cm cm' : list dns * list Z) : Prop :=
  forall i, r <= i -> fst cm' !! i = fst cm !! i /\ snd cm' !! i = snd cm !! i.

Lemma memo_ok_frame values nodes token r r' cm cm' :
  memo_ok values nodes token r' cm' -> memo_frame r' cm cm' -> memo_ok values nodes token r cm ->
  memo_ok values nodes token r cm'.
Proof.
  intros Hok Hfr Hok0 i Hi Hm. destruct (decide (i < r')) as [Hlt|Hge]; [by apply Hok|].
  destruct (Hfr i) as [Hf Hs]; [lia|]. rewrite Hf. apply Hok0; [done|]. by rewrite <- Hs.
Qed.

Lemma memo_frame_trans r r' r'' cm cm' cm'' :
  memo_frame r' cm cm' -> memo_frame r'' cm' cm'' -> r' <= r -> r'' <= r -> memo_frame r cm cm''.
Proof. intros H1 H2 Hr Hr' i Hi. destruct (H1 i), (H2 i); [lia..|]. by split; etrans. Qed.

Lemma eval_memo_value nodes values token fuel i cm v cm' :
  acyclic nodes -> memo_ok values nodes token (S i) cm ->
  eval_memo fuel nodes values token (Some i) cm = Some (v, cm') ->
  v = ev values nodes (Some i) /\ memo_ok values nodes token (S i) cm' /\ memo_frame (S i) cm cm'.
Proof.
  intros Hac. revert i cm v cm'. induction fuel as [|fuel IH]; intros i cm v cm' Hok; [done|].
  simpl. destruct (nodes !! i) as [n|] eqn:Hi.
  2:{ intros [= <- <-]. split_and!; [|done|by intros].
      unfold ev, read_signal. simpl. by rewrite lookup_ge_None_2 by (rewrite length_arena_values; by apply lookup_ge_None). }
  destruct (snd cm !! i) as [k|] eqn:Hk; [|done]. destruct (fst cm !! i) as [c|] eqn:Hc; [|done].
  simpl. destruct (Z.eqb_spec k token) as [->|Hkt].
  { intros [= <- <-]. split_and!; [|done|by intros].
    assert (fst cm !! i = Some (ev values nodes (Some i))) by (apply Hok; [lia|done]). congruence. }
  set (cm1 := (fst cm, <[i := token]> (snd cm))).
  destruct (eval_switch _ values n cm1) as [[v1 cm2]|] eqn:Es; [|done]. intros [= <- <-].
  apply (eval_switch_value _ values n (arena_values values nodes)
    (fun cm => memo_ok values nodes token i cm /\ memo_frame i cm1 cm)) in Es as (-> & Hok2 & Hfr2).
  - rewrite <- (ev_node values nodes i n) by done.
    assert (Hci : fst cm2 !! i = Some c) by (destruct (Hfr2 i) as [-> _]; [lia|done]).
    split_and!; [done| |].
    + intros j Hj. simpl. intros Hmj. destruct (decide (j = i)) as [->|Hne].
      * by rewrite list_lookup_insert_eq by (by eapply lookup_lt_Some).
      * rewrite list_lookup_insert_ne by done. apply Hok2; [lia|done].
    + intros j Hj. simpl. rewrite list_lookup_insert_ne by lia. destruct (Hfr2 j) as [-> ->]; [lia|].
      simpl. by rewrite list_lookup_insert_ne by lia.
  - intros r cma va cmb Hr [Hoka Hfra] Ha. destruct r as [j|].
    + specialize (Hac i n j Hi Hr). apply IH in Ha as (-> & Hokb & Hfrb); [|intros x Hx; apply Hoka; lia].
      split_and!; [done|by eapply memo_ok_frame|by eapply memo_frame_trans].
    + destruct fuel; [done|]. simpl in Ha. injection Ha as <- <-. by split_and!.
  - split; [|by intros]. intros j Hj. simpl. rewrite list_lookup_insert_ne by lia. apply Hok. lia.
Qed.

(** ** [eval_expr_cached] *)

(** The states differ in the evaluation cache only. *)
Definition eval_only (st st' : module_state) : Prop :=
  st' = with_eval st (st_expr_eval_cache st') (st_expr_eval_mark st') (st_expr_eval_token st').

#[global] Instance eval_only_preorder : PreOrder eval_only.
Proof.
  split.
  - intros []. done.
  - intros st1 st2 st3 H12 H23. unfold eval_only in *. rewrite H23 at 1. rewrite H12. done.
Qed.

Lemma eval_only_with st cache mark token : eval_only st (with_eval st cache mark token).
Proof. done. Qed.

Lemma next_token_ok token marks :
  (1 <= token < 2 ^ 32)%Z -> Forall (fun k => (0 <= k <= token)%Z) marks ->
  let '(token', marks') := next_token token marks in
  (1 <= token' < 2 ^ 32)%Z /\ Forall (fun k => (0 <= k < token')%Z) marks' /\ length marks' = length marks.
Proof.
  intros Ht Hm. unfold next_token, u32_succ.
  destruct (Z.eqb_spec ((token + 1) mod 2 ^ 32) 0) as [He|Hne].
  - split; [lia|]. split; [|by rewrite length_fmap]. apply Forall_fmap, Forall_true. intros. simpl. lia.
  - assert (token + 1 ≠ 2 ^ 32)%Z by (intros He; apply Hne; rewrite He; by rewrite Z.mod_same).
    rewrite Z.mod_small by lia. split; [lia|]. split; [|done]. eapply Forall_impl; [done|]. simpl. lia.
Qed.

Lemma unmarked_le token mark : unmarked token mark <= length mark.
Proof. apply length_filter. Qed.

Lemma length_grow {A} n (x : A) l : length (grow n x l) = Nat.max n (length l).
Proof. unfold grow. rewrite length_app, length_replicate. lia. Qed.

Lemma Forall_grow {A} (P : A -> Prop) n x l : P x -> Forall P l -> Forall P (grow n x l).
Proof. intros Hx Hl. apply Forall_app. split; [done|]. by apply Forall_replicate. Qed.

Lemma Forall_marked_more (P : Z -> Prop) token l l' :
  P token -> marked_more token l l' -> Forall P l -> Forall P l'.
Proof. intros Ht H. induction H; inversion 1; subst; constructor; naive_solver. Qed.


Lemma eval_expr_cached_ok m root st :
  eval_inv st ->
  exists v st', eval_expr_cached m root st = Some (v, st') /\ eval_only st st' /\ eval_inv st'
    /\ (acyclic (cm_expr_nodes m) -> v = ev (st_values st) (cm_expr_nodes m) root).
Proof.
  intros [Hl Ht Hm]. unfold eval_expr_cached. set (nodes := cm_expr_nodes m).
  destruct (vget nodes root) as [n|] eqn:Hr.
  2:{ exists indeterminate_state, st. split_and!; [done|done|done|]. intros _. unfold ev, read_signal.
      destruct root as [i|]; [|done]. simpl in *.
      by rewrite lookup_ge_None_2 by (rewrite length_arena_values; by apply lookup_ge_None). }
  set (cache := if bool_decide _ then _ else st_expr_eval_cache st).
  set (mark := if bool_decide _ then _ else st_expr_eval_mark st).
  assert (Hcm : length mark = length cache /\ length nodes <= length cache
                /\ Forall (fun k => (0 <= k <= st_expr_eval_token st)%Z) mark).
  { unfold mark, cache. case_bool_decide; [|split_and!; [done|lia|done]].
    rewrite !length_grow. split_and!; [lia|lia|]. apply Forall_grow; [lia|done]. }
  destruct Hcm as (Hlm & Hln & Hfm). pose proof (next_token_ok _ mark Ht Hfm) as Hnt.
  destruct (next_token (st_expr_eval_token st) mark) as [token mark1]. destruct Hnt as (Ht1 & Hf1 & Hl1).
  destruct (eval_memo_total nodes (st_values st) token (S (length mark1)) root cache mark1)
    as (v & [cache' mark'] & He & Hc' & Hm'); [lia|lia|pose proof (unmarked_le token mark1); lia|].
  rewrite He. simpl. eexists _, _. split; [done|]. split; [done|]. simpl in Hc', Hm'. split.
  - pose proof (Forall2_length _ _ _ Hm'). split; simpl; [lia|done|].
    eapply (Forall_marked_more _ token mark1); [lia|done|]. eapply Forall_impl; [done|]. simpl. lia.
  - intros Hac. destruct root as [i|]; [|done].
    apply eval_memo_value in He as [-> _]; [done|done|].
    intros j _ Hj. simpl in Hj. rewrite Forall_lookup in Hf1. apply Hf1 in Hj. lia.
Qed.

(** ** Theorems *)

(** C14. The memoised evaluation of an expression agrees with the plain recursion.  From any state whose
    cache invariant holds, also when the 32-bit token wraps around, [eval_expr_cached] returns, on an arena
    whose operands are earlier nodes, the value [eval_expr] computes for a root inside the arena and [X] for one
    outside; it changes nothing of the state but the cache, whose invariant it keeps. *)
Theorem eval_expr_cached_correct (m : compiled_module) (root : index) (st : module_state) :
  eval_inv st -> acyclic (cm_expr_nodes m) -> closed (cm_expr_nodes m) ->
  exists v st', eval_expr_cached m root st = Some (v, st')
    /\ (vget (cm_expr_nodes m) root = None -> v = indeterminate_state)
    /\ (is_Some (vget (cm_expr_nodes m) root) ->
        eval_expr (length (cm_expr_nodes m)) (cm_expr_nodes m) root (st_values st) = Some v)
    /\ eval_only st st' /\ eval_inv st'.
Proof.
  intros Hinv Hac Hcl. destruct (eval_expr_cached_ok m root st Hinv) as (v & st' & He & Ho & Hi & Hv).
  exists v, st'. specialize (Hv Hac). split_and!; [done| | |done|done].
  - intros Hn. unfold eval_expr_cached in He. rewrite Hn in He. by injection He.
  - intros [n Hn]. rewrite Hv. destruct root as [i|]; [|done]. simpl in Hn. apply lookup_lt_Some in Hn. by apply eval_expr_ev.
Qed.

(** [a & (a ^ 1)] over signal 0, in an arena that shares node 0. *)
Definition shared_module : compiled_module :=
  mk_module "m" [] [] ∅ ∅ ["a"] [false] [false] [false] [false] [indeterminate_state] ∅ [] ∅ ∅
    [mk_node ek_signal indeterminate_state None None (Some 0);
     mk_node ek_literal true_state None None None;
     mk_node ek_binary_xor indeterminate_state (Some 0) (Some 1) None;
     mk_node ek_binary_and indeterminate_state (Some 0) (Some 2) None]
    ∅ [] [] [] [] [] ∅ ∅ 0.

(** The token is about to wrap around and the marks are stale. *)
Definition shared_state : module_state :=
  with_eval (with_values module_state_default [true_state]) [true_state; true_state] [5%Z; 4294967295%Z] 4294967295.

Lemma eval_expr_cached_correct_witness :
  exists v st', eval_expr_cached shared_module (Some 3) shared_state = Some (v, st') /\ v = false_state /\ eval_inv st'.
Proof.
  destruct (eval_expr_cached_correct shared_module (Some 3) shared_state) as (v & st' & He & _ & Hv & _ & Hi).
  - split; [done|done|]. repeat constructor; simpl; lia.
  - intros i n j Hn Hj. do 4 (destruct i as [|i]; [simplify_eq/=; set_solver by lia|]). done.
  - intros i n r Hn Hr.
    do 4 (destruct i as [|i]; [simplify_eq/=; repeat (apply elem_of_cons in Hr as [->|Hr]; [by eexists|]); by apply elem_of_nil in Hr|]).
    done.
  - exists v, st'. split_and!; [done| |done]. specialize (Hv ltac:(by eexists)). vm_compute in Hv. congruence.
Defined.

(** The memoised evaluation of an expression returns on every arena, cyclic ones included: no access
    leaves the cache and the recursion is at most as deep as there are nodes.  Only the cache changes, and its
    invariant is kept. *)
Lemma eval_expr_cached_total (m : compiled_module) (root : index) (st : module_state) :
  eval_inv st ->
  exists v st', eval_expr_cached m root st = Some (v, st') /\ eval_only st st' /\ eval_inv st'.
Proof. intros Hi. destruct (eval_expr_cached_ok m root st Hi) as (v & st' & ? & ? & ? & _). eauto. Qed.

(** A node that is its own operand. *)
Definition cyclic_module : compiled_module :=
  mk_module "m" [] [] ∅ ∅ [] [] [] [] [] [] ∅ [] ∅ ∅
    [mk_node ek_unary_not indeterminate_state (Some 0) None None] ∅ [] [] [] [] [] ∅ ∅ 0.

Lemma eval_expr_cached_total_witness :
  exists v st', eval_expr_cached cyclic_module (Some 0) module_state_default = Some (v, st')
    /\ eval_only module_state_default st' /\ eval_inv st'.
Proof. apply eval_expr_cached_total. split; [done|done|by constructor]. Defined.
