(* ===== verification/VExec.v ===== *)
(** * Verilog: execution of statements

    The per-instance operations of the simulator in verilog/digital/digital.h:
    [init_state], the change tracking ([begin_change_epoch],
    [assign_signal]), [exec_stmt] over an arena of statements, the event
    list ([process_due_events]) and the nonblocking queue ([apply_nba]).

    [exec_stmt] takes fuel; it returns [None] only when the fuel is used up.
    Statements point to earlier statements of their arena, so the index of
    the statement bounds the recursion; the loops of the language are bounded
    by [max_iter] in the code. *)

From S2P Require Import Prelude Logic4 VModule VEval.
From Stdlib Require Import ZArith Lia.

(** ** State *)

(** The loop that copies the constants into one of the value vectors. *)
Definition init_consts (m : compiled_module) (values : list dns) : list dns :=
  imap (fun i v =>
    match cm_signal_is_const m !! i, cm_signal_const_value m !! i with
    | Some true, Some c => c
    | _, _ => v
    end) values.

Definition init_state (m : compiled_module) : module_state :=
  let values := init_consts m (replicate (length (cm_signal_names m)) indeterminate_state) in
  mk_state (Some m) values values values false false 0 [] [] [] [] [] 1 [] [] 1.

(** The marks of a state, long enough for every signal. *)
Definition sized_marks (values : list dns) (mark : list Z) : list Z :=
  if bool_decide (length mark < length values) then grow (length values) 0%Z mark else mark.

Definition begin_change_epoch (st : module_state) : Z * module_state :=
  let '(token, mark) := next_token (st_change_token st) (st_change_mark st) in
  (token, with_change st (st_values st) (sized_marks (st_values st) mark) [] token).

Definition assign_signal (st : module_state) (sig : index) (v : dns) : bool * module_state :=
  match sig, vget (st_values st) sig with
  | Some i, Some dst =>
      if bool_decide (dst = v) then (false, st)
      else
        let mark := sized_marks (st_values st) (st_change_mark st) in
        if bool_decide (mark !! i = Some (st_change_token st))
        then (true, with_change st (<[i := v]> (st_values st)) mark (st_changed_signals st) (st_change_token st))
        else (true, with_change st (<[i := v]> (st_values st)) (<[i := st_change_token st]> mark)
                      (st_changed_signals st ++ [sig]) (st_change_token st))
  | _, _ => (false, st)
  end.

(** ** Statements *)

Inductive flow_kind := fl_none | fl_ret | fl_brk | fl_cont.

#[global] Instance flow_kind_eq_dec : EqDecision flow_kind.
Proof. solve_decision. Defined.

(** The pointer [fs]: [None] is the null pointer. *)
Abbreviation flow := (option flow_kind).

(** [if(fs) { fs->k = k; }] *)
Definition set_flow (fs : flow) (k : flow_kind) : flow := (fun _ => k) <$> fs.

(** [fs && fs->k != flow_kind::none] *)
Definition interrupted (fs : flow) : bool := bool_decide (default fl_none fs ≠ fl_none).

(** Unsigned 64-bit addition. *)
Definition u64_add (x y : Z) : Z := (x + y) mod 2 ^ 64.

(** [sampled[i] = eval_expr_cached(m, roots[i], st)] for all [i]. *)
Fixpoint eval_roots (m : compiled_module) (roots : list index) (st : module_state)
  : option (list dns * module_state) :=
  match roots with
  | [] => Some ([], st)
  | r :: roots =>
      '(v, st) ← eval_expr_cached m r st;
      '(vs, st) ← eval_roots m roots st;
      Some (v :: vs, st)
  end.

(** Assign the sampled values; an index outside the values is skipped. *)
Fixpoint assign_all (st : module_state) (l : list (index * dns)) (changed : bool) : bool * module_state :=
  match l with
  | [] => (changed, st)
  | (sig, v) :: l => let '(c, st) := assign_signal st sig v in assign_all st l (c || changed)
  end.

(** The loop of [nonblocking_assign_vec]: a target outside the values is
    skipped before its right-hand side is evaluated. *)
Fixpoint queue_all (m : compiled_module) (st : module_state) (l : list (index * index)) : option module_state :=
  match l with
  | [] => Some st
  | (sig, r) :: l =>
      match vget (st_values st) sig with
      | None => queue_all m st l
      | Some _ =>
          '(v, st) ← eval_expr_cached m r st;
          queue_all m (with_nba st (st_nba_queue st ++ [(sig, v)])) l
      end
  end.

(** [bit_matches] of [case_stmt] *)
Definition bit_matches (ck : case_kind) (a b : dns) : bool :=
  match ck with
  | ck_normal => bool_decide (a = b)
  | ck_casez =>
      if bool_decide (a = high_impedence_state) || bool_decide (b = high_impedence_state) then true
      else bool_decide (a = b)
  | ck_casex =>
      if is_unknown (normalize_z_to_x a) || is_unknown (normalize_z_to_x b) then true else bool_decide (a = b)
  end.

(** The bits of one item, up to the first that does not match. *)
Fixpoint item_matches (m : compiled_module) (ck : case_kind) (l : list (dns * index)) (st : module_state)
  : option (bool * module_state) :=
  match l with
  | [] => Some (true, st)
  | (key, r) :: l =>
      '(mb, st) ← eval_expr_cached m r st;
      if bit_matches ck key mb then item_matches m ck l st else Some (false, st)
  end.

(** The first matching item, else the last default. *)
Fixpoint select_case (m : compiled_module) (ck : case_kind) (keys : list dns) (items : list case_item)
  (def : option case_item) (st : module_state) : option (option case_item * module_state) :=
  match items with
  | [] => Some (def, st)
  | ci :: items =>
      if ci_is_default ci then select_case m ck keys items (Some ci) st
      else if bool_decide (length (ci_match_roots ci) ≠ length keys) then select_case m ck keys items def st
      else
        '(ok, st) ← item_matches m ck (zip keys (ci_match_roots ci)) st;
        if ok : bool then Some (Some ci, st) else select_case m ck keys items def st
  end.

Definition max_iter : nat := Z.to_nat 4096.

Definition scalar_event (tick : Z) (n : stmt_node) (nonblocking : bool) : scheduled_event :=
  mk_event (u64_add tick (sn_delay_ticks n)) nonblocking (sn_lhs_signal n) (sn_expr_root n) false [] [].

Definition vector_event (tick : Z) (n : stmt_node) (nonblocking : bool) : scheduled_event :=
  mk_event (u64_add tick (sn_delay_ticks n)) nonblocking SIZE_MAX SIZE_MAX true (sn_lhs_signals n) (sn_rhs_roots n).

Definition push_event (st : module_state) (ev : scheduled_event) : module_state :=
  with_events st (st_events st ++ [ev]).

Section exec.
Context (m : compiled_module).

Definition exec_result : Type := option (bool * module_state * flow).

(** The recursive call. *)
Context (exec : index -> module_state -> flow -> exec_result).

(** The statements of a block or branch. *)
Fixpoint exec_list (l : list index) (changed : bool) (st : module_state) (fs : flow) : exec_result :=
  match l with
  | [] => Some (changed, st, fs)
  | sub :: l =>
      if interrupted fs then Some (changed, st, fs)
      else
        '(c, st, fs) ← exec sub st fs;
        exec_list l (c || changed) st fs
  end.

(** [if(s != SIZE_MAX) { changed = exec_stmt(s) || changed; }] *)
Definition exec_opt (s : index) (changed : bool) (st : module_state) (fs : flow) : exec_result :=
  match s with
  | None => Some (changed, st, fs)
  | Some _ =>
      '(c, st, fs) ← exec s st fs;
      Some (c || changed, st, fs)
  end.

(** [normalize_z_to_x(eval_expr_cached(cond)) == true_state] *)
Definition test (r : index) (st : module_state) : option (bool * module_state) :=
  '(v, st) ← eval_expr_cached m r st;
  Some (bool_decide (normalize_z_to_x v = true_state), st).

(** The tests of [fs] at the head of a loop and after its body: the flow, and
    whether the loop goes on. *)
Definition after_body (fs : flow) : flow * bool :=
  match fs with
  | Some fl_ret => (fs, false)
  | Some fl_brk => (Some fl_none, false)
  | Some fl_cont => (Some fl_none, true)
  | _ => (fs, true)
  end.

Fixpoint for_loop (cond step body : index) (iters : nat) (changed : bool) (st : module_state) (fs : flow)
  : exec_result :=
  match iters with
  | O => Some (changed, st, fs)
  | S iters =>
      match fs with
      | Some fl_ret => Some (changed, st, fs)
      | Some fl_brk => Some (changed, st, Some fl_none)
      | Some fl_cont =>
          '(changed, st, fs) ← exec_opt step changed st (Some fl_none);
          for_loop cond step body iters changed st fs
      | _ =>
          '(t, st) ← test cond st;
          if negb t then Some (changed, st, fs)
          else
            '(changed, st, fs) ← exec_opt body changed st fs;
            let '(fs, go) := after_body fs in
            if negb go then Some (changed, st, fs)
            else
              '(changed, st, fs) ← exec_opt step changed st fs;
              for_loop cond step body iters changed st fs
      end
  end.

Fixpoint while_loop (cond body : index) (iters : nat) (changed : bool) (st : module_state) (fs : flow)
  : exec_result :=
  match iters with
  | O => Some (changed, st, fs)
  | S iters =>
      let '(fs, go) := after_body fs in
      if negb go then Some (changed, st, fs)
      else
        '(t, st) ← test cond st;
        if negb t then Some (changed, st, fs)
        else
          '(changed, st, fs) ← exec_opt body changed st fs;
          let '(fs, go) := after_body fs in
          if negb go then Some (changed, st, fs)
          else while_loop cond body iters changed st fs
  end.

Fixpoint do_while_loop (cond body : index) (iters : nat) (changed : bool) (st : module_state) (fs : flow)
  : exec_result :=
  match iters with
  | O => Some (changed, st, fs)
  | S iters =>
      let '(fs, go) := after_body fs in
      if negb go then Some (changed, st, fs)
      else
        '(changed, st, fs) ← exec_opt body changed st fs;
        let '(fs, go) := after_body fs in
        if negb go then Some (changed, st, fs)
        else
          '(t, st) ← test cond st;
          if negb t then Some (changed, st, fs)
          else do_while_loop cond body iters changed st fs
  end.

(** The assignments, scalar and vector; [blocking] is true for a blocking
    assignment and for a nonblocking one that is treated as blocking. *)
Definition exec_assign (n : stmt_node) (tick : Z) (blocking : bool) (st : module_state) (fs : flow) : exec_result :=
  match vget (st_values st) (sn_lhs_signal n) with
  | None => Some (false, st, fs)
  | Some _ =>
      if negb (Z.eqb (sn_delay_ticks n) 0)
      then Some (false, push_event st (scalar_event tick n (negb blocking)), fs)
      else
        '(v, st) ← eval_expr_cached m (sn_expr_root n) st;
        if blocking then let '(c, st) := assign_signal st (sn_lhs_signal n) v in Some (c, st, fs)
        else Some (false, with_nba st (st_nba_queue st ++ [(sn_lhs_signal n, v)]), fs)
  end.

Definition exec_assign_vec (n : stmt_node) (tick : Z) (blocking : bool) (st : module_state) (fs : flow)
  : exec_result :=
  if bool_decide (length (sn_lhs_signals n) ≠ length (sn_rhs_roots n)) then Some (false, st, fs)
  else if bool_decide (sn_lhs_signals n = []) then Some (false, st, fs)
  else if negb (Z.eqb (sn_delay_ticks n) 0)
  then Some (false, push_event st (vector_event tick n (negb blocking)), fs)
  else if blocking
  then
    '(sampled, st) ← eval_roots m (sn_rhs_roots n) st;
    let '(c, st) := assign_all st (zip (sn_lhs_signals n) sampled) false in
    Some (c, st, fs)
  else
    st ← queue_all m st (zip (sn_lhs_signals n) (sn_rhs_roots n));
    Some (false, st, fs).

Definition exec_case (n : stmt_node) (st : module_state) (fs : flow) : exec_result :=
  '(keys, st) ← match sn_case_expr_roots n with
                | [] => Some ([indeterminate_state], st)
                | roots => eval_roots m roots st
                end;
  '(chosen, st) ← select_case m (sn_ck n) keys (sn_case_items n) None st;
  match chosen with
  | None => Some (false, st, fs)
  | Some ci => exec_list (ci_stmts ci) false st fs
  end.

Definition exec_subprogram (n : stmt_node) (st : module_state) (fs : flow) : exec_result :=
  '(c, st, local) ← exec_list (sn_stmts n) false st (Some fl_none);
  Some (c, st, match local with
               | Some fl_brk => set_flow fs fl_brk
               | Some fl_cont => set_flow fs fl_cont
               | _ => fs
               end).

(** The body of [exec_stmt]. *)
Definition exec_node (n : stmt_node) (tick : Z) (treat_nonblocking_as_blocking : bool) (st : module_state) (fs : flow)
  : exec_result :=
  match sn_k n with
  | sk_empty => Some (false, st, fs)
  | sk_block => exec_list (sn_stmts n) false st fs
  | sk_subprogram_block => exec_subprogram n st fs
  | sk_blocking_assign => exec_assign n tick true st fs
  | sk_blocking_assign_vec => exec_assign_vec n tick true st fs
  | sk_nonblocking_assign => exec_assign n tick treat_nonblocking_as_blocking st fs
  | sk_nonblocking_assign_vec => exec_assign_vec n tick treat_nonblocking_as_blocking st fs
  | sk_if_stmt =>
      '(take, st) ← test (sn_expr_root n) st;
      exec_list (if take : bool then sn_stmts n else sn_else_stmts n) false st fs
  | sk_case_stmt => exec_case n st fs
  | sk_for_stmt =>
      '(changed, st, fs) ← exec_opt (sn_init_stmt n) false st fs;
      for_loop (sn_expr_root n) (sn_step_stmt n) (sn_body_stmt n) max_iter changed st fs
  | sk_while_stmt => while_loop (sn_expr_root n) (sn_body_stmt n) max_iter false st fs
  | sk_do_while_stmt => do_while_loop (sn_expr_root n) (sn_body_stmt n) max_iter false st fs
  | sk_return_stmt => Some (false, st, set_flow fs fl_ret)
  | sk_break_stmt => Some (false, st, set_flow fs fl_brk)
  | sk_continue_stmt => Some (false, st, set_flow fs fl_cont)
  end.

End exec.

Fixpoint exec_stmt (fuel : nat) (m : compiled_module) (arena : list stmt_node) (stmt_idx : index)
  (st : module_state) (tick : Z) (treat_nonblocking_as_blocking : bool) (fs : flow) : exec_result :=
  match fuel with
  | O => None
  | S fuel =>
      match vget arena stmt_idx with
      | None => Some (false, st, fs)
      | Some n =>
          exec_node m (fun i st fs => exec_stmt fuel m arena i st tick treat_nonblocking_as_blocking fs)
            n tick treat_nonblocking_as_blocking st fs
      end
  end.

(** ** Events and the nonblocking queue *)

(** One event that is due. *)
Definition run_event (m : compiled_module) (st : module_state) (ev : scheduled_event) : option module_state :=
  if ev_is_vector ev then
    if bool_decide (length (ev_lhs_signals ev) ≠ length (ev_expr_roots ev)) then Some st
    else if bool_decide (ev_lhs_signals ev = []) then Some st
    else
      '(sampled, st) ← eval_roots m (ev_expr_roots ev) st;
      if ev_nonblocking ev
      then Some (with_nba st (st_nba_queue st ++
             filter (fun p => is_Some (vget (st_values st) (fst p))) (zip (ev_lhs_signals ev) sampled)))
      else Some (snd (assign_all st (zip (ev_lhs_signals ev) sampled) false))
  else
    match vget (st_values st) (ev_lhs_signal ev) with
    | None => Some st
    | Some _ =>
        '(v, st) ← eval_expr_cached m (ev_expr_root ev) st;
        if ev_nonblocking ev then Some (with_nba st (st_nba_queue st ++ [(ev_lhs_signal ev, v)]))
        else Some (snd (assign_signal st (ev_lhs_signal ev) v))
    end.

(** The loop of [process_due_events]; it visits the events that were
    scheduled before it started and collects the ones to keep. *)
Fixpoint run_events (m : compiled_module) (tick : Z) (l keep : list scheduled_event) (st : module_state)
  : option (list scheduled_event * module_state) :=
  match l with
  | [] => Some (keep, st)
  | ev :: l =>
      if bool_decide (tick < ev_due_tick ev)%Z then run_events m tick l (keep ++ [ev]) st
      else
        st ← run_event m st ev;
        run_events m tick l keep st
  end.

Definition process_due_events (st : module_state) (tick : Z) : option module_state :=
  match st_mod st with
  | None => Some st
  | Some m =>
      '(keep, st) ← run_events m tick (st_events st) [] st;
      Some (with_events st keep)
  end.

Definition apply_nba (st : module_state) : bool * module_state :=
  let '(changed, st) := assign_all st (st_nba_queue st) false in
  (changed, with_nba st []).

(** ** Invariants *)

(** Change tracking: the signals marked with the current token are the ones
    listed, each once. *)
Record change_inv (st : module_state) : Prop := {
  ch_token : (1 <= st_change_token st < 2 ^ 32)%Z;
  ch_marks : Forall (fun k => (0 <= k <= st_change_token st)%Z) (st_change_mark st);
  ch_tracked : forall i, st_change_mark st !! i = Some (st_change_token st) <-> Some i ∈ st_changed_signals st;
  ch_nodup : NoDup (st_changed_signals st);
  ch_range : forall r, r ∈ st_changed_signals st -> is_Some (vget (st_values st) r);
}.

Record state_inv (st : module_state) : Prop := {
  si_eval : eval_inv st;
  si_change : change_inv st;
}.

(** What running statements may change: values, the tracking of changes within
    the epoch, events, the nonblocking queue and the evaluation cache.  A
    signal whose value differs is listed as changed. *)
Record runs (st st' : module_state) : Prop := {
  rn_mod : st_mod st' = st_mod st;
  rn_length : length (st_values st') = length (st_values st);
  rn_prev : st_prev_values st' = st_prev_values st;
  rn_comb_prev : st_comb_prev_values st' = st_comb_prev_values st;
  rn_comb_initialized : st_comb_initialized st' = st_comb_initialized st;
  rn_initial_ran : st_initial_ran st' = st_initial_ran st;
  rn_base : st_initial_base_tick st' = st_initial_base_tick st;
  rn_next_net : st_next_net_values st' = st_next_net_values st;
  rn_token : st_change_token st' = st_change_token st;
  rn_changed : st_changed_signals st `prefix_of` st_changed_signals st';
  rn_diff : forall i, st_values st' !! i ≠ st_values st !! i -> Some i ∈ st_changed_signals st';
}.

#[global] Instance runs_preorder : PreOrder runs.
Proof.
  split; [by intros st; split|].
  intros s1 s2 s3 H1 H2. destruct H1, H2. split; try congruence; [by etrans|].
  intros i Hi. destruct (decide (st_values s2 !! i = st_values s1 !! i)) as [He|Hne].
  - apply rn_diff1. congruence.
  - eapply elem_of_prefix; [by apply rn_diff0|done].
Qed.

(** The states differ in the values and the change tracking only. *)
Definition change_only (st st' : module_state) : Prop :=
  st' = with_change st (st_values st') (st_change_mark st') (st_changed_signals st') (st_change_token st').

#[global] Instance change_only_preorder : PreOrder change_only.
Proof.
  split; [by intros []|].
  intros st1 st2 st3 H12 H23. unfold change_only in *. rewrite H23 at 1. rewrite H12. done.
Qed.

Lemma change_only_eval st st' : change_only st st' -> eval_inv st -> eval_inv st'.
Proof. intros ->. by intros []. Qed.

Lemma eval_only_change st st' : eval_only st st' -> change_inv st -> change_inv st'.
Proof. intros ->. by intros []. Qed.

Lemma eval_only_runs st st' : eval_only st st' -> runs st st'.
Proof. intros ->. by split. Qed.

Lemma eval_only_values st st' : eval_only st st' -> st_values st' = st_values st.
Proof. by intros ->. Qed.

(** The value vector after an assignment. *)
Definition set_value (values : list dns) (sig : index) (v : dns) : list dns :=
  match sig with Some i => <[i := v]> values | None => values end.

Lemma length_set_value values sig v : length (set_value values sig v) = length values.
Proof. destruct sig; simpl; [by rewrite length_insert|done]. Qed.

Lemma vget_set_value_is_Some values sig v r :
  is_Some (vget (set_value values sig v) r) <-> is_Some (vget values r).
Proof.
  destruct r as [j|]; [|done]. simpl. rewrite !lookup_lt_is_Some. by rewrite length_set_value.
Qed.

Lemma length_sized_marks values mark : length (sized_marks values mark) = Nat.max (length values) (length mark).
Proof. unfold sized_marks. case_bool_decide; [rewrite length_grow; lia|lia]. Qed.

Lemma lookup_sized_marks values mark i k :
  k ≠ 0%Z -> sized_marks values mark !! i = Some k <-> mark !! i = Some k.
Proof.
  intros Hk. unfold sized_marks. case_bool_decide; [|done]. unfold grow.
  destruct (decide (i < length mark)) as [Hlt|Hge]; [by rewrite lookup_app_l|].
  rewrite lookup_app_r by lia. rewrite (lookup_ge_None_2 mark) by lia.
  rewrite lookup_replicate. naive_solver.
Qed.

Lemma assign_signal_noop st sig v :
  vget (st_values st) sig = None \/ vget (st_values st) sig = Some v -> assign_signal st sig v = (false, st).
Proof.
  unfold assign_signal. destruct sig as [i|]; [|done]. simpl. intros [->| ->]; [done|].
  by rewrite bool_decide_true.
Qed.

Lemma assign_signal_values st sig v : st_values (snd (assign_signal st sig v)) = set_value (st_values st) sig v.
Proof.
  unfold assign_signal. destruct sig as [i|]; [|done]. simpl.
  destruct (st_values st !! i) as [d|] eqn:Hd.
  - case_bool_decide; [subst; simpl; by rewrite list_insert_id|]. by case_bool_decide.
  - simpl. by rewrite list_insert_ge by (by apply lookup_ge_None).
Qed.

Lemma assign_signal_only st sig v : change_only st (snd (assign_signal st sig v)).
Proof.
  unfold assign_signal. destruct sig as [i|]; [|done]. simpl. destruct (st_values st !! i); [|done].
  repeat case_bool_decide; done.
Qed.

Lemma assign_signal_changed st sig v :
  fst (assign_signal st sig v) = false <-> set_value (st_values st) sig v = st_values st.
Proof.
  unfold assign_signal. destruct sig as [i|]; [|done]. simpl. destruct (st_values st !! i) as [d|] eqn:Hd.
  - case_bool_decide as He.
    + subst. simpl. by rewrite list_insert_id.
    + assert (<[i := v]> (st_values st) ≠ st_values st).
      { intros Heq. apply He. assert (<[i := v]> (st_values st) !! i = Some v) as Hv.
        { apply list_lookup_insert_eq. by eapply lookup_lt_Some. }
        rewrite Heq in Hv. congruence. }
      by case_bool_decide.
  - simpl. rewrite list_insert_ge by (by apply lookup_ge_None). done.
Qed.

Lemma assign_signal_change st sig v : change_inv st -> change_inv (snd (assign_signal st sig v)).
Proof.
  intros [Ht Hm Htr Hnd Hr]. unfold assign_signal. destruct sig as [i|]; [|done].
  simpl. destruct (st_values st !! i) as [d|] eqn:Hd; [|done].
  case_bool_decide; [done|]. set (mark := sized_marks _ _).
  assert (Hmk : Forall (fun k => (0 <= k <= st_change_token st)%Z) mark).
  { unfold mark, sized_marks. case_bool_decide; [apply Forall_grow; [lia|done]|done]. }
  assert (Hlk : forall j, mark !! j = Some (st_change_token st) <-> Some j ∈ st_changed_signals st).
  { intros j. unfold mark. rewrite lookup_sized_marks by lia. apply Htr. }
  assert (Hrng : forall r, is_Some (vget (st_values st) r) -> is_Some (vget (<[i := v]> (st_values st)) r)).
  { intros r. apply (vget_set_value_is_Some _ (Some i)). }
  case_bool_decide as Hi; split; simpl; auto.
  - apply Forall_insert; [done|lia].
  - intros j. rewrite elem_of_app, list_elem_of_singleton. destruct (decide (j = i)) as [->|Hne].
    + rewrite list_lookup_insert_eq; [naive_solver|]. unfold mark. rewrite length_sized_marks.
      apply lookup_lt_Some in Hd. lia.
    + rewrite list_lookup_insert_ne by done. rewrite Hlk. naive_solver.
  - apply NoDup_app. split_and!; [done| |apply NoDup_singleton].
    intros r Hin Hs. apply list_elem_of_singleton in Hs as ->. apply Hi. by apply Hlk.
  - intros r Hin. apply elem_of_app in Hin as [Hin|Hin]; [by apply Hrng, Hr|].
    apply list_elem_of_singleton in Hin as ->. apply Hrng. by eexists.
Qed.

Lemma assign_signal_runs st sig v : change_inv st -> runs st (snd (assign_signal st sig v)).
Proof.
  intros Hc. pose proof (assign_signal_change st sig v Hc) as Hc'.
  pose proof (assign_signal_values st sig v) as Hv. pose proof (assign_signal_only st sig v) as Ho.
  assert (Hd : st_change_token (snd (assign_signal st sig v)) = st_change_token st
    /\ st_changed_signals st `prefix_of` st_changed_signals (snd (assign_signal st sig v))
    /\ forall i, st_values (snd (assign_signal st sig v)) !! i ≠ st_values st !! i ->
         Some i ∈ st_changed_signals (snd (assign_signal st sig v))).
  { clear Ho Hv Hc'. unfold assign_signal. destruct sig as [i|]; [|done].
    simpl. destruct (st_values st !! i) as [d|] eqn:Hd; [|done]. case_bool_decide; [done|].
    case_bool_decide as Hi; simpl; (split; [done|]); (split; [by try apply prefix_app_r|]); intros j Hj.
    - destruct (decide (j = i)) as [->|Hne]; [|by rewrite list_lookup_insert_ne in Hj].
      apply (ch_tracked _ Hc). rewrite lookup_sized_marks in Hi; [done|]. destruct (ch_token _ Hc). lia.
    - destruct (decide (j = i)) as [->|Hne]; [|by rewrite list_lookup_insert_ne in Hj]. set_solver. }
  destruct Hd as (Ht & Hp & Hd). unfold change_only in Ho.
  split; try (by rewrite Ho); [|done..]. by rewrite Hv, length_set_value.
Qed.

(** ** The expressions a statement evaluates *)

Lemma eval_cached_step m r st :
  state_inv st ->
  exists v st', eval_expr_cached m r st = Some (v, st') /\ eval_only st st' /\ state_inv st'
    /\ (acyclic (cm_expr_nodes m) -> v = ev (st_values st) (cm_expr_nodes m) r).
Proof.
  intros [He Hc]. destruct (eval_expr_cached_ok m r st He) as (v & st' & ? & Ho & ? & ?).
  exists v, st'. split_and!; [done|done| |done]. split; [done|by eapply eval_only_change].
Qed.

Lemma eval_roots_step m roots st :
  state_inv st ->
  exists vs st', eval_roots m roots st = Some (vs, st') /\ eval_only st st' /\ state_inv st'
    /\ length vs = length roots
    /\ (acyclic (cm_expr_nodes m) -> vs = ev (st_values st) (cm_expr_nodes m) <$> roots).
Proof.
  revert st. induction roots as [|r roots IH]; intros st Hi; simpl.
  { exists [], st. by split_and!. }
  destruct (eval_cached_step m r st Hi) as (v & st1 & -> & Ho1 & Hi1 & Hv). simpl.
  destruct (IH st1 Hi1) as (vs & st2 & -> & Ho2 & Hi2 & Hl & Hvs). simpl.
  exists (v :: vs), st2. split_and!; [done|by etrans|done|simpl; by f_equal|].
  intros Hac. rewrite (eval_only_values _ _ Ho1) in Hvs. rewrite (Hv Hac), (Hvs Hac). done.
Qed.

Lemma item_matches_step m ck l st :
  state_inv st ->
  exists b st', item_matches m ck l st = Some (b, st') /\ eval_only st st' /\ state_inv st'
    /\ (acyclic (cm_expr_nodes m) ->
        b = forallb (fun '(key, r) => bit_matches ck key (ev (st_values st) (cm_expr_nodes m) r)) l).
Proof.
  revert st. induction l as [|[key r] l IH]; intros st Hi; simpl.
  { exists true, st. by split_and!. }
  destruct (eval_cached_step m r st Hi) as (v & st1 & -> & Ho1 & Hi1 & Hv). simpl.
  destruct (bit_matches ck key v) eqn:Hb.
  - destruct (IH st1 Hi1) as (b & st2 & -> & Ho2 & Hi2 & Hbs).
    exists b, st2. split_and!; [done|by etrans|done|]. intros Hac. rewrite <- (Hv Hac), Hb. simpl.
    rewrite (eval_only_values _ _ Ho1) in Hbs. by apply Hbs.
  - exists false, st1. split_and!; [done|done|done|]. intros Hac. by rewrite <- (Hv Hac), Hb.
Qed.

(** The choice of a case item as a function of the values. *)
Definition item_chosen (m : compiled_module) (ck : case_kind) (keys : list dns) (values : list dns) (ci : case_item) : bool :=
  negb (ci_is_default ci) && bool_decide (length (ci_match_roots ci) = length keys)
  && forallb (fun '(key, r) => bit_matches ck key (ev values (cm_expr_nodes m) r)) (zip keys (ci_match_roots ci)).

Definition case_choice (m : compiled_module) (ck : case_kind) (keys : list dns) (values : list dns) (items : list case_item)
  : option case_item :=
  match List.find (item_chosen m ck keys values) items with
  | Some ci => Some ci
  | None => last (filter ci_is_default items)
  end.

Lemma select_case_step m ck keys items def st :
  state_inv st ->
  exists c st', select_case m ck keys items def st = Some (c, st') /\ eval_only st st' /\ state_inv st'
    /\ (forall ci, c = Some ci -> ci ∈ items \/ def = Some ci)
    /\ (acyclic (cm_expr_nodes m) ->
        c = match List.find (item_chosen m ck keys (st_values st)) items with
            | Some ci => Some ci
            | None => match last (filter ci_is_default items) with Some ci => Some ci | None => def end
            end).
Proof.
  revert def st. induction items as [|ci items IH]; intros def st Hi; simpl.
  { exists def, st. split_and!; [done|done|done|naive_solver|done]. }
  unfold item_chosen at 1. rewrite filter_cons.
  destruct (ci_is_default ci) eqn:Hd; simpl.
  - destruct (IH (Some ci) st Hi) as (c & st' & -> & ? & ? & Hin & Hc).
    exists c, st'. split_and!; [done|done|done|set_solver|].
    intros Hac. rewrite (Hc Hac). destruct (List.find _ items); [done|]. rewrite last_cons.
    by destruct (last (filter _ items)).
  - case_bool_decide as Hl.
    + rewrite (bool_decide_false (_ = _)) by done. simpl.
      destruct (IH def st Hi) as (c & st' & -> & ? & ? & Hin & Hc).
      exists c, st'. split_and!; [done|done|done|set_solver|done].
    + rewrite (bool_decide_true (_ = _)) by lia. simpl.
      destruct (item_matches_step m ck (zip keys (ci_match_roots ci)) st Hi) as (b & st1 & -> & Ho1 & Hi1 & Hb). simpl.
      destruct b.
      * exists (Some ci), st1. split_and!; [done|done|done|set_solver|]. intros Hac. by rewrite <- (Hb Hac).
      * destruct (IH def st1 Hi1) as (c & st' & -> & ? & ? & Hin & Hc).
        exists c, st'. split_and!; [done|by etrans|done|set_solver|].
        intros Hac. rewrite <- (Hb Hac). rewrite (eval_only_values _ _ Ho1) in Hc. by apply Hc.
Qed.

(** ** Assignments *)

(** The values after a list of assignments, in order. *)
Definition assign_values (values : list dns) (l : list (index * dns)) : list dns :=
  foldl (fun vs '(sig, v) => set_value vs sig v) values l.

Lemma change_only_state st st' : change_only st st' -> change_inv st' -> state_inv st -> state_inv st'.
Proof. intros Ho Hc [He _]. split; [by eapply change_only_eval|done]. Qed.

Lemma assign_all_step st l changed :
  state_inv st ->
  let res := assign_all st l changed in
  change_only st (snd res) /\ runs st (snd res) /\ state_inv (snd res)
  /\ st_values (snd res) = assign_values (st_values st) l
  /\ (fst res = false -> changed = false /\ st_values (snd res) = st_values st).
Proof.
  revert st changed. induction l as [|[sig v] l IH]; intros st changed Hi; simpl; [by split_and!|].
  pose proof (assign_signal_only st sig v) as Ho. pose proof (assign_signal_values st sig v) as Hv.
  pose proof (assign_signal_change st sig v (si_change _ Hi)) as Hc.
  pose proof (assign_signal_runs st sig v (si_change _ Hi)) as Hr.
  pose proof (proj1 (assign_signal_changed st sig v)) as Hch.
  destruct (assign_signal st sig v) as [c st1]. simpl in *.
  destruct (IH st1 (c || changed)) as (Ho' & Hr' & Hi' & Hv' & Hc'); [by eapply change_only_state|].
  split_and!; [by etrans|by etrans|done|by rewrite Hv', Hv|].
  intros Hf. apply Hc' in Hf as [Hf Hvs]. apply orb_false_iff in Hf as [-> ->]. rewrite Hvs, Hv. auto.
Qed.

Lemma with_nba_ok st q : state_inv st -> runs st (with_nba st q) /\ state_inv (with_nba st q).
Proof. intros [[] []]. split; [by split|]. split; by split. Qed.

Lemma push_event_ok st ev : state_inv st -> runs st (push_event st ev) /\ state_inv (push_event st ev).
Proof. intros [[] []]. split; [by split|]. split; by split. Qed.

Lemma queue_all_step m l st :
  state_inv st ->
  exists st', queue_all m st l = Some st' /\ runs st st' /\ state_inv st' /\ st_values st' = st_values st
    /\ st_events st' = st_events st
    /\ (acyclic (cm_expr_nodes m) -> st_nba_queue st' = st_nba_queue st
          ++ (prod_map id (ev (st_values st) (cm_expr_nodes m)) <$> filter (fun p => is_Some (vget (st_values st) (fst p))) l)).
Proof.
  revert st. induction l as [|[sig r] l IH]; intros st Hi; simpl.
  { exists st. split_and!; try done. intros _. by rewrite app_nil_r. }
  rewrite filter_cons. simpl. destruct (vget (st_values st) sig) eqn:Hs.
  2:{ rewrite decide_False by (intros [? [=]]). by apply IH. }
  rewrite decide_True by (by eexists).
  destruct (eval_cached_step m r st Hi) as (v & st1 & -> & Ho & Hi1 & Hv). simpl.
  destruct (with_nba_ok st1 (st_nba_queue st1 ++ [(sig, v)]) Hi1) as [Hr2 Hi2].
  destruct (IH _ Hi2) as (st' & -> & Hr' & Hi' & Hvs & Hev & Hq). simpl in *.
  exists st'. assert (Hq1 : st_nba_queue st1 = st_nba_queue st /\ st_events st1 = st_events st) by (by rewrite Ho).
  destruct Hq1 as [Hq1 He1]. rewrite (eval_only_values _ _ Ho) in *. split_and!; [done| |done|done|congruence|].
  - etrans; [by apply eval_only_runs|]. by etrans.
  - intros Hac. rewrite (Hq Hac), (Hv Hac), Hq1, <- app_assoc. done.
Qed.

(** ** Every statement returns

    The argument is the same for every relation between the states before and
    after a run that is closed under the steps a run makes; [can_assign] says
    whether blocking assignments are among them. *)

Class run_relation (can_assign : Prop) (R : relation module_state) := {
  rr_preorder :: PreOrder R;
  rr_eval : forall st st', eval_only st st' -> R st st';
  rr_event : forall st e, R st (push_event st e);
  rr_nba : forall st q, R st (with_nba st q);
  rr_assign : can_assign -> forall st sig v, state_inv st -> R st (snd (assign_signal st sig v));
}.

#[global] Instance runs_relation : run_relation True runs.
Proof.
  split; [apply _|apply eval_only_runs|done|done|]. intros _ st sig v Hi. by apply assign_signal_runs, Hi.
Qed.

(** Runs that do not touch the values. *)
Definition keeps_values (st st' : module_state) : Prop := runs st st' /\ st_values st' = st_values st.

#[global] Instance keeps_values_relation : run_relation False keeps_values.
Proof.
  split; [split| | | |done].
  - by intros st.
  - intros s1 s2 s3 [H1 E1] [H2 E2]. split; [by etrans|congruence].
  - intros st st' Ho. split; [by apply eval_only_runs|by apply eval_only_values].
  - done.
  - done.
Qed.

Section relation.
Context {can_assign : Prop} {R : relation module_state} `{!run_relation can_assign R}.

Lemma assign_all_relation st l changed :
  can_assign -> state_inv st -> R st (snd (assign_all st l changed)).
Proof.
  intros Hca. revert st changed. induction l as [|[sig v] l IH]; intros st changed Hi; simpl; [done|].
  pose proof (rr_assign (R := R) Hca st sig v Hi) as Hr. pose proof (assign_signal_only st sig v) as Ho.
  pose proof (assign_signal_change st sig v (si_change _ Hi)) as Hc.
  destruct (assign_signal st sig v) as [c st1]. simpl in *. etrans; [done|]. apply IH. by eapply change_only_state.
Qed.

Lemma queue_all_relation m st l st' : state_inv st -> queue_all m st l = Some st' -> R st st'.
Proof.
  revert st. induction l as [|[sig r] l IH]; intros st Hi; simpl; [by intros [= ->]|].
  destruct (vget (st_values st) sig); [|by apply IH].
  destruct (eval_cached_step m r st Hi) as (v & st1 & -> & Ho & Hi1 & _). simpl. intros Hq.
  etrans; [by apply rr_eval|]. etrans; [by apply rr_nba|]. eapply IH; [|done]. by apply with_nba_ok.
Qed.

(** A run from [st] with the flag [changed] so far: it returns, keeps the
    invariants, and reports a change whenever a value differs. *)
Definition returns (changed : bool) (st : module_state) (fs : flow) (res : exec_result) : Prop :=
  exists c st' fs', res = Some (c, st', fs') /\ R st st' /\ state_inv st'
    /\ (c = false -> changed = false /\ st_values st' = st_values st) /\ (is_Some fs' <-> is_Some fs).

Lemma returns_here (c changed : bool) st fs fs' :
  state_inv st -> (c = false -> changed = false) -> (is_Some fs' <-> is_Some fs) -> returns changed st fs (Some (c, st, fs')).
Proof. intros Hi Hc Hf. exists c, st, fs'. split_and!; [done|done|done|auto|done]. Qed.

Lemma returns_bind changed st fs res k :
  returns changed st fs res ->
  (forall c st' fs', state_inv st' -> returns c st' fs' (k c st' fs')) ->
  returns changed st fs ('(c, st, fs) ← res; k c st fs).
Proof.
  intros (c & st1 & fs1 & -> & Hr & Hi & Hc & Hf) Hk. simpl.
  destruct (Hk c st1 fs1 Hi) as (c2 & st2 & fs2 & -> & Hr2 & Hi2 & Hc2 & Hf2).
  exists c2, st2, fs2. split_and!; [done|by etrans|done| |by rewrite Hf2].
  intros Hz. apply Hc2 in Hz as [Hz Hv]. apply Hc in Hz as [Hz Hv']. split; [done|congruence].
Qed.

Lemma returns_after changed st st1 fs fs1 res :
  R st st1 -> st_values st1 = st_values st -> (is_Some fs1 <-> is_Some fs) ->
  returns changed st1 fs1 res -> returns changed st fs res.
Proof.
  intros Hr Hv Hf (c & st2 & fs2 & -> & Hr2 & Hi2 & Hc2 & Hf2). exists c, st2, fs2.
  split_and!; [done|by etrans|done| |by rewrite Hf2]. rewrite <- Hv. done.
Qed.

(** The induction hypothesis of [exec_stmt]. *)
Definition exec_returns (exec : index -> module_state -> flow -> exec_result) (l : list index) : Prop :=
  forall i st fs, i ∈ l -> state_inv st -> returns false st fs (exec i st fs).

(** Evaluating before going on. *)
Lemma returns_eval changed st st1 fs res :
  eval_only st st1 -> returns changed st1 fs res -> returns changed st fs res.
Proof. intros Ho. apply returns_after; [by apply rr_eval|by apply eval_only_values|done]. Qed.

Lemma test_step m r st :
  state_inv st ->
  exists b st', test m r st = Some (b, st') /\ eval_only st st' /\ state_inv st'
    /\ (acyclic (cm_expr_nodes m) ->
        b = bool_decide (normalize_z_to_x (ev (st_values st) (cm_expr_nodes m) r) = true_state)).
Proof.
  intros Hi. unfold test. destruct (eval_cached_step m r st Hi) as (v & st1 & -> & Ho & Hi1 & Hv). simpl.
  eexists _, st1. split_and!; [done|done|done|]. intros Hac. by rewrite (Hv Hac).
Qed.

Context (m : compiled_module) (exec : index -> module_state -> flow -> exec_result).

Lemma exec_sub_returns (l : list index) sub changed st fs k :
  exec_returns exec l -> sub ∈ l -> state_inv st ->
  (forall c st' fs', state_inv st' -> returns (c || changed) st' fs' (k (c || changed) st' fs')) ->
  returns changed st fs ('(c, st, fs) ← exec sub st fs; k (c || changed) st fs).
Proof.
  intros Hex Hin Hi Hk. destruct (Hex sub st fs Hin Hi) as (c & st1 & fs1 & -> & Hr & Hi1 & Hc & Hf). simpl.
  destruct (Hk c st1 fs1 Hi1) as (c2 & st2 & fs2 & -> & Hr2 & Hi2 & Hc2 & Hf2).
  exists c2, st2, fs2. split_and!; [done|by etrans|done| |by rewrite Hf2].
  intros Hz. apply Hc2 in Hz as [Hz Hv]. apply orb_false_iff in Hz as [-> ->].
  destruct (Hc eq_refl) as [_ Hv']. split; [done|congruence].
Qed.

Lemma exec_list_returns l changed st fs :
  exec_returns exec l -> state_inv st -> returns changed st fs (exec_list exec l changed st fs).
Proof.
  intros Hex. revert changed st fs. induction l as [|sub l IH]; intros changed st fs Hi; simpl; [by apply returns_here|].
  destruct (interrupted fs); [by apply returns_here|].
  apply (exec_sub_returns (sub :: l)); [done|set_solver|done|]. intros. apply IH; [|done].
  intros i s f Hin. apply Hex. set_solver.
Qed.

Lemma exec_opt_returns s changed st fs :
  exec_returns exec [s] -> state_inv st -> returns changed st fs (exec_opt exec s changed st fs).
Proof.
  intros Hex Hi. destruct s as [i|]; [|by apply returns_here]. unfold exec_opt.
  apply (exec_sub_returns [Some i] _ _ _ _ (fun c st fs => Some (c, st, fs))); [done|set_solver|done|].
  intros. by apply returns_here.
Qed.

Lemma after_body_flow fs : is_Some (fst (after_body fs)) <-> is_Some fs.
Proof. destruct fs as [[]|]; simpl; [naive_solver..|done]. Qed.

Lemma test_returns cond changed st fs k :
  state_inv st ->
  (forall b st', state_inv st' -> returns changed st' fs (k b st')) ->
  returns changed st fs ('(t, st) ← test m cond st; k t st).
Proof.
  intros Hi Hk. destruct (test_step m cond st Hi) as (b & st1 & -> & Ho & Hi1 & _). simpl.
  eapply returns_eval; [done|by apply Hk].
Qed.

(** Leaving or continuing a loop after its body. *)
Lemma after_body_returns changed st fs k :
  state_inv st ->
  (forall fs', (is_Some fs' <-> is_Some fs) -> returns changed st fs' (k fs')) ->
  returns changed st fs (let '(fs, go) := after_body fs in if negb go then Some (changed, st, fs) else k fs).
Proof.
  intros Hi Hk. pose proof (after_body_flow fs) as Hf. destruct (after_body fs) as [fs' go]. simpl in Hf.
  destruct go; simpl; [|by apply returns_here]. eapply returns_after; [done|done|done|]. by apply Hk.
Qed.

Lemma for_loop_returns cond step body iters changed st fs :
  exec_returns exec [step] -> exec_returns exec [body] -> state_inv st ->
  returns changed st fs (for_loop m exec cond step body iters changed st fs).
Proof.
  intros Hs Hb. revert changed st fs. induction iters as [|iters IH]; intros changed st fs Hi; simpl; [by apply returns_here|].
  assert (Hgo : returns changed st fs
    ('(t, st) ← test m cond st;
     if negb t then Some (changed, st, fs)
     else '(changed, st, fs) ← exec_opt exec body changed st fs;
       let '(fs, go) := after_body fs in
       if negb go then Some (changed, st, fs)
       else '(changed, st, fs) ← exec_opt exec step changed st fs; for_loop m exec cond step body iters changed st fs)).
  { apply test_returns; [done|]. intros b st1 Hi1. destruct b; simpl; [|by apply returns_here].
    apply returns_bind; [by apply exec_opt_returns|]. intros c2 st2 fs2 Hi2.
    apply after_body_returns; [done|]. intros fs3 _.
    apply returns_bind; [by apply exec_opt_returns|]. intros. by apply IH. }
  destruct fs as [[]|]; [done|by apply returns_here|by apply returns_here| |done].
  eapply returns_after; [done|done| |]; [|apply returns_bind; [by apply (exec_opt_returns _ _ _ (Some fl_none))|]].
  - done.
  - intros. by apply IH.
Qed.

Lemma while_loop_returns cond body iters changed st fs :
  exec_returns exec [body] -> state_inv st ->
  returns changed st fs (while_loop m exec cond body iters changed st fs).
Proof.
  intros Hb. revert changed st fs. induction iters as [|iters IH]; intros changed st fs Hi; simpl; [by apply returns_here|].
  apply after_body_returns; [done|]. intros fs1 _. apply test_returns; [done|]. intros b st1 Hi1.
  destruct b; simpl; [|by apply returns_here]. apply returns_bind; [by apply exec_opt_returns|].
  intros c2 st2 fs2 Hi2. apply after_body_returns; [done|]. intros. by apply IH.
Qed.

Lemma do_while_loop_returns cond body iters changed st fs :
  exec_returns exec [body] -> state_inv st ->
  returns changed st fs (do_while_loop m exec cond body iters changed st fs).
Proof.
  intros Hb. revert changed st fs. induction iters as [|iters IH]; intros changed st fs Hi; simpl; [by apply returns_here|].
  apply after_body_returns; [done|]. intros fs1 _. apply returns_bind; [by apply exec_opt_returns|].
  intros c2 st2 fs2 Hi2. apply after_body_returns; [done|]. intros fs3 _.
  apply test_returns; [done|]. intros b st3 Hi3. destruct b; simpl; [by apply IH|by apply returns_here].
Qed.

Lemma exec_assign_returns n tick blocking st fs :
  (blocking = true -> can_assign) -> state_inv st -> returns false st fs (exec_assign m n tick blocking st fs).
Proof.
  intros Hca Hi. unfold exec_assign. destruct (vget (st_values st) (sn_lhs_signal n)); [|by apply returns_here].
  destruct (negb _).
  - destruct (push_event_ok st (scalar_event tick n (negb blocking)) Hi) as [_ Hi'].
    eapply returns_after; [by apply rr_event|done|done|by apply returns_here].
  - destruct (eval_cached_step m (sn_expr_root n) st Hi) as (v & st1 & -> & Ho & Hi1 & _). simpl.
    eapply returns_eval; [done|]. destruct blocking.
    + pose proof (rr_assign (R := R) (Hca eq_refl) st1 (sn_lhs_signal n) v Hi1) as Hr.
      pose proof (assign_signal_change st1 (sn_lhs_signal n) v (si_change _ Hi1)) as Hc.
      pose proof (assign_signal_only st1 (sn_lhs_signal n) v) as Ho1.
      pose proof (assign_signal_values st1 (sn_lhs_signal n) v) as Hv.
      pose proof (proj1 (assign_signal_changed st1 (sn_lhs_signal n) v)) as Hch.
      destruct (assign_signal _ _ v) as [c st2]. simpl in *. exists c, st2, fs.
      split_and!; [done|done|by eapply change_only_state| |done]. intros Hf. rewrite Hv. auto.
    + destruct (with_nba_ok st1 (st_nba_queue st1 ++ [(sn_lhs_signal n, v)]) Hi1) as [_ Hi2].
      eapply returns_after; [by apply rr_nba|done|done|by apply returns_here].
Qed.

Lemma exec_assign_vec_returns n tick blocking st fs :
  (blocking = true -> can_assign) -> state_inv st -> returns false st fs (exec_assign_vec m n tick blocking st fs).
Proof.
  intros Hca Hi. unfold exec_assign_vec. repeat case_bool_decide; try by apply returns_here.
  destruct (negb _); [|destruct blocking].
  - destruct (push_event_ok st (vector_event tick n (negb blocking)) Hi) as [_ Hi'].
    eapply returns_after; [by apply rr_event|done|done|by apply returns_here].
  - destruct (eval_roots_step m (sn_rhs_roots n) st Hi) as (vs & st1 & -> & Ho & Hi1 & _). simpl.
    eapply returns_eval; [done|].
    pose proof (assign_all_relation st1 (zip (sn_lhs_signals n) vs) false (Hca eq_refl) Hi1) as Hr.
    pose proof (assign_all_step st1 (zip (sn_lhs_signals n) vs) false Hi1) as (_ & _ & Hi2 & _ & Hc).
    destruct (assign_all st1 _ false) as [c st2]. simpl in *. by exists c, st2, fs.
  - destruct (queue_all_step m (zip (sn_lhs_signals n) (sn_rhs_roots n)) st Hi) as (st' & Hq & _ & Hi' & Hv & _).
    pose proof (queue_all_relation m st _ st' Hi Hq) as Hr. rewrite Hq. simpl.
    eapply returns_after; [done|done|done|by apply returns_here].
Qed.

Lemma exec_case_returns n st fs :
  exec_returns exec (mjoin (ci_stmts <$> sn_case_items n)) -> state_inv st -> returns false st fs (exec_case m exec n st fs).
Proof.
  intros Hex Hi. unfold exec_case.
  assert (Hk : exists keys st1, match sn_case_expr_roots n with
                | [] => Some ([indeterminate_state], st) | _ :: _ => eval_roots m (sn_case_expr_roots n) st end
                = Some (keys, st1) /\ eval_only st st1 /\ state_inv st1).
  { destruct (sn_case_expr_roots n) as [|r l] eqn:E; [eexists _, st; by split_and!|].
    destruct (eval_roots_step m (r :: l) st Hi) as (vs & st1 & ? & ? & ? & _). eauto. }
  destruct Hk as (keys & st1 & Hk & Ho1 & Hi1). destruct (sn_case_expr_roots n); rewrite Hk; simpl; clear Hk.
  all: destruct (select_case_step m (sn_ck n) keys (sn_case_items n) None st1 Hi1)
         as (c & st2 & -> & Ho2 & Hi2 & Hin & _); simpl.
  all: assert (Ho : eval_only st st2) by (by etrans).
  all: eapply returns_eval; [done|].
  all: destruct c as [ci|]; [|by apply returns_here]; apply exec_list_returns; [|done].
  all: intros x s f Hs; apply Hex; destruct (Hin ci eq_refl) as [Hci|]; [|done].
  all: apply list_elem_of_join; exists (ci_stmts ci); split; [done|]; apply list_elem_of_fmap; eauto.
Qed.

Lemma exec_subprogram_returns n st fs :
  exec_returns exec (sn_stmts n) -> state_inv st -> returns false st fs (exec_subprogram exec n st fs).
Proof.
  intros Hex Hi. unfold exec_subprogram.
  destruct (exec_list_returns (sn_stmts n) false st (Some fl_none) Hex Hi) as (c & st1 & lf & -> & Hr & Hi1 & Hc & _).
  simpl. eexists c, st1, _. split_and!; [done|done|done|done|].
  destruct lf as [[]|]; try done; unfold set_flow; by rewrite fmap_is_Some.
Qed.

End relation.

#[global] Arguments returns R changed st fs res : clear implicits.
#[global] Arguments exec_returns R exec l : clear implicits.

(** The statements a statement may run. *)
Definition stmt_children (n : stmt_node) : list index :=
  sn_stmts n ++ sn_else_stmts n ++ mjoin (ci_stmts <$> sn_case_items n)
  ++ [sn_init_stmt n; sn_step_stmt n; sn_body_stmt n].

(** Statements point to earlier statements, the order in which [add_stmt]
    stores them. *)
Definition stmts_acyclic (arena : list stmt_node) : Prop :=
  forall i n j, arena !! i = Some n -> Some j ∈ stmt_children n -> j < i.

(** A blocking assignment, or a nonblocking one treated as blocking. *)
Definition assigns_at_once (nb : bool) (n : stmt_node) : bool :=
  match sn_k n with
  | sk_blocking_assign | sk_blocking_assign_vec => true
  | sk_nonblocking_assign | sk_nonblocking_assign_vec => nb
  | _ => false
  end.

Lemma exec_node_returns {can_assign R} `{!run_relation can_assign R} m exec n tick nb st fs :
  (assigns_at_once nb n = true -> can_assign) -> exec_returns R exec (stmt_children n) -> state_inv st ->
  returns R false st fs (exec_node m exec n tick nb st fs).
Proof.
  intros Hca Hex Hi. assert (Hsub : forall l, (forall i, i ∈ l -> i ∈ stmt_children n) -> exec_returns R exec l).
  { intros l Hl i s f Hin. apply Hex. by apply Hl. }
  unfold stmt_children in Hsub. unfold exec_node, assigns_at_once in *. destruct (sn_k n).
  - by apply returns_here.
  - apply exec_list_returns; [apply Hsub; set_solver|done].
  - apply exec_subprogram_returns; [apply Hsub; set_solver|done].
  - by apply exec_assign_returns.
  - by apply exec_assign_vec_returns.
  - by apply exec_assign_returns.
  - by apply exec_assign_vec_returns.
  - apply test_returns; [done|]. intros b st1 Hi1. apply exec_list_returns; [|done].
    destruct b; apply Hsub; set_solver.
  - apply exec_case_returns; [|done]. apply Hsub. intros i. rewrite !elem_of_app. auto.
  - apply returns_bind; [apply exec_opt_returns; [apply Hsub; set_solver|done]|].
    intros c st1 fs1 Hi1. apply for_loop_returns; [apply Hsub; set_solver..|done].
  - apply while_loop_returns; [apply Hsub; set_solver|done].
  - apply do_while_loop_returns; [apply Hsub; set_solver|done].
  - apply returns_here; [done|done|]. unfold set_flow. by rewrite fmap_is_Some.
  - apply returns_here; [done|done|]. unfold set_flow. by rewrite fmap_is_Some.
  - apply returns_here; [done|done|]. unfold set_flow. by rewrite fmap_is_Some.
Qed.

(** Fuel for a statement: one more than the depth below it. *)
Definition enough_fuel (arena : list stmt_node) (i : index) (fuel : nat) : Prop :=
  0 < fuel /\ forall j, i = Some j -> j < length arena -> S j < fuel.

Lemma enough_fuel_arena arena i : enough_fuel arena i (S (S (length arena))).
Proof. split; [lia|]. intros. lia. Qed.

Lemma exec_stmt_returns {can_assign R} `{!run_relation can_assign R} fuel m arena i st tick nb fs :
  (forall n, n ∈ arena -> assigns_at_once nb n = true -> can_assign) ->
  stmts_acyclic arena -> state_inv st -> enough_fuel arena i fuel ->
  returns R false st fs (exec_stmt fuel m arena i st tick nb fs).
Proof.
  intros Hca Hac. revert i st fs. induction fuel as [|fuel IH]; intros i st fs Hi [Hf Hfi]; [lia|]. simpl.
  destruct i as [i|]; simpl; [|by apply returns_here].
  destruct (arena !! i) as [n|] eqn:Hn; [|by apply returns_here].
  pose proof (lookup_lt_Some _ _ _ Hn) as Hlt. specialize (Hfi i eq_refl Hlt).
  apply exec_node_returns; [by apply Hca; eapply list_elem_of_lookup_2| |done].
  intros r s f Hr Hs. apply IH; [done|]. split; [lia|].
  intros j -> Hj. specialize (Hac i n j Hn Hr). lia.
Qed.

(** ** Events *)

Lemma run_event_step m st e :
  state_inv st -> exists st', run_event m st e = Some st' /\ runs st st' /\ state_inv st' /\ st_events st' = st_events st.
Proof.
  intros Hi. unfold run_event. destruct (ev_is_vector e).
  - repeat case_bool_decide; [by exists st..|].
    destruct (eval_roots_step m (ev_expr_roots e) st Hi) as (vs & st1 & -> & Ho & Hi1 & _). simpl.
    assert (He : st_events st1 = st_events st) by (by rewrite Ho). apply eval_only_runs in Ho.
    destruct (ev_nonblocking e); eexists; (split; [done|]).
    + destruct (with_nba_ok st1 (st_nba_queue st1 ++
        filter (fun p => is_Some (vget (st_values st1) (fst p))) (zip (ev_lhs_signals e) vs)) Hi1).
      split_and!; [by etrans|done|done].
    + destruct (assign_all_step st1 (zip (ev_lhs_signals e) vs) false Hi1) as (Hco & Hr & Hi2 & _).
      split_and!; [by etrans|done|]. by rewrite Hco.
  - destruct (vget (st_values st) (ev_lhs_signal e)); [|by exists st].
    destruct (eval_cached_step m (ev_expr_root e) st Hi) as (v & st1 & -> & Ho & Hi1 & _). simpl.
    assert (He : st_events st1 = st_events st) by (by rewrite Ho). apply eval_only_runs in Ho.
    destruct (ev_nonblocking e); eexists; (split; [done|]).
    + destruct (with_nba_ok st1 (st_nba_queue st1 ++ [(ev_lhs_signal e, v)]) Hi1). split_and!; [by etrans|done|done].
    + pose proof (assign_signal_only st1 (ev_lhs_signal e) v) as Hco.
      pose proof (assign_signal_change st1 (ev_lhs_signal e) v (si_change _ Hi1)).
      split_and!; [|by eapply change_only_state|by rewrite Hco].
      etrans; [done|]. apply assign_signal_runs, Hi1.
Qed.

Definition due (tick : Z) (e : scheduled_event) : Prop := (ev_due_tick e <= tick)%Z.

#[global] Instance due_dec tick e : Decision (due tick e) := Z_le_dec (ev_due_tick e) tick.

(** The loop runs the due events in order and keeps the others in order. *)
Lemma run_events_split m tick l keep st :
  run_events m tick l keep st
  = (st' ← fold_option (run_event m) (filter (due tick) l) st;
     Some (keep ++ filter (fun e => ~ due tick e) l, st')).
Proof.
  revert keep st. induction l as [|e l IH]; intros keep st; simpl; [by rewrite app_nil_r|].
  rewrite !filter_cons. case_bool_decide as Ht.
  - rewrite (decide_False (P := due tick e)), decide_True by (unfold due; lia).
    rewrite IH. by rewrite <- app_assoc.
  - rewrite (decide_True (P := due tick e)), decide_False by (unfold due; naive_solver lia). simpl.
    destruct (run_event m st e) as [st1|]; simpl; [by rewrite IH|done].
Qed.

Lemma run_event_list_step m l st :
  state_inv st -> exists st', fold_option (run_event m) l st = Some st' /\ runs st st' /\ state_inv st'.
Proof.
  revert st. induction l as [|e l IH]; intros st Hi; simpl; [by exists st|].
  destruct (run_event_step m st e Hi) as (st1 & -> & Hr & Hi1 & _). simpl.
  destruct (IH st1 Hi1) as (st2 & -> & Hr2 & Hi2). exists st2. split_and!; [done|by etrans|done].
Qed.

Lemma with_events_ok st l : state_inv st -> runs st (with_events st l) /\ state_inv (with_events st l).
Proof. intros [[] []]. split; [by split|]. split; by split. Qed.

(** What an epoch starts from: the marks may be out of step with the list. *)
Record epoch_inv (st : module_state) : Prop := {
  ep_eval : eval_inv st;
  ep_token : (1 <= st_change_token st < 2 ^ 32)%Z;
  ep_marks : Forall (fun k => (0 <= k <= st_change_token st)%Z) (st_change_mark st);
}.

Lemma state_epoch_inv st : state_inv st -> epoch_inv st.
Proof. intros [He []]. by split. Qed.

Lemma begin_change_epoch_ok st :
  epoch_inv st ->
  let '(token, st') := begin_change_epoch st in
  state_inv st' /\ token = st_change_token st' /\ st_changed_signals st' = [] /\ change_only st st'
  /\ st_values st' = st_values st /\ length (st_values st) <= length (st_change_mark st').
Proof.
  intros [He Ht Hm]. unfold begin_change_epoch.
  pose proof (next_token_ok _ _ Ht Hm) as Hn. destruct (next_token _ _) as [token mark]. destruct Hn as (Ht' & Hm' & Hl).
  split_and!; try done; [|simpl; rewrite length_sized_marks; lia].
  split; [by destruct He|]. split; simpl; [done| | |by constructor|by intros r Hr%elem_of_nil].
  - unfold sized_marks. case_bool_decide; [apply Forall_grow; [lia|]|]; (eapply Forall_impl; [done|]; simpl; lia).
  - intros i. rewrite lookup_sized_marks by lia. split; [|by intros Hr%elem_of_nil].
    intros Hi. rewrite Forall_lookup in Hm'. apply Hm' in Hi. lia.
Qed.

Lemma apply_nba_ok st :
  state_inv st ->
  let '(c, st') := apply_nba st in
  runs st st' /\ state_inv st' /\ st_nba_queue st' = [] /\ st_values st' = assign_values (st_values st) (st_nba_queue st)
  /\ (c = false -> st_values st' = st_values st).
Proof.
  intros Hi. unfold apply_nba. destruct (assign_all_step st (st_nba_queue st) false Hi) as (_ & Hr & Hi' & Hv & Hc).
  destruct (assign_all st (st_nba_queue st) false) as [c st1]. simpl in *.
  destruct (with_nba_ok st1 [] Hi') as [Hr2 Hi2]. split_and!; [by etrans|done|done|done|naive_solver].
Qed.

Lemma init_state_inv m : state_inv (init_state m).
Proof.
  split; split; simpl; try done; try by constructor.
  - intros i. split; [done|by intros ?%elem_of_nil].
  - by intros r ?%elem_of_nil.
Qed.

(** The value of a signal after a list of assignments: the last one counts. *)
Lemma assign_values_lookup values l i :
  assign_values values l !! i
  = match last (filter (fun p => fst p = Some i) l) with
    | Some (_, v) => (fun _ => v) <$> values !! i
    | None => values !! i
    end.
Proof.
  induction l as [|[sig v] l IH] using rev_ind; [done|].
  unfold assign_values in *. rewrite foldl_app, filter_app, last_app. simpl. rewrite filter_cons. simpl.
  destruct sig as [j|]; simpl; [|done].
  destruct (decide (j = i)) as [->|Hne].
  - rewrite decide_True by done. simpl.
    set (vs := foldl _ values l) in *.
    assert (Hl : length vs = length values).
    { unfold vs. clear. revert values. induction l as [|[s w] l IH]; intros values; simpl; [done|].
      by rewrite IH, length_set_value. }
    destruct (values !! i) as [w|] eqn:Hw; simpl.
    + apply list_lookup_insert_eq. rewrite Hl. by eapply lookup_lt_Some.
    + apply lookup_ge_None. rewrite length_insert, Hl. by apply lookup_ge_None.
  - rewrite decide_False by congruence. simpl. by rewrite list_lookup_insert_ne.
Qed.

(** ** Theorems *)

(** Decidable forms of the shape conditions, for closed arenas. *)
Definition all_below {A} (children : A -> list index) (l : list A) : bool :=
  forallb (fun '(i, n) => forallb (fun r => match r with Some j => bool_decide (j < i) | None => true end) (children n))
    (imap pair l).

Lemma all_below_spec {A} (children : A -> list index) (l : list A) :
  all_below children l = true -> forall i n j, l !! i = Some n -> Some j ∈ children n -> j < i.
Proof.
  unfold all_below. intros Hb i n j Hi Hj. rewrite forallb_forall in Hb.
  specialize (Hb (i, n)). rewrite <- list_elem_of_In in Hb.
  assert (Hin : (i, n) ∈ imap pair l).
  { apply list_elem_of_lookup. exists i. by rewrite list_lookup_imap, Hi. }
  specialize (Hb Hin). simpl in Hb. rewrite forallb_forall in Hb. specialize (Hb (Some j)).
  rewrite <- list_elem_of_In in Hb. specialize (Hb Hj). simpl in Hb. by apply bool_decide_eq_true in Hb.
Qed.

(** Executing a statement always returns.  From a state whose invariants hold, and on an arena in which
    statements refer to earlier statements, [exec_stmt] with fuel for the length of the arena returns for every
    statement, loops included; it keeps the invariants of the evaluation cache and of the change tracking, leaves
    the scheduler's snapshots alone, lists every signal whose value it changed, and returns [false] only when no
    value changed. *)
Lemma exec_stmt_total (m : compiled_module) (arena : list stmt_node) (i : index) (st : module_state) (tick : Z)
  (nb : bool) (fs : flow) :
  stmts_acyclic arena -> state_inv st ->
  exists changed st' fs',
    exec_stmt (S (S (length arena))) m arena i st tick nb fs = Some (changed, st', fs')
    /\ state_inv st' /\ runs st st' /\ (changed = false -> st_values st' = st_values st).
Proof.
  intros Hac Hi.
  destruct (exec_stmt_returns (R := runs) (S (S (length arena))) m arena i st tick nb fs)
    as (c & st' & fs' & ? & ? & ? & Hc & _); [done|done|done|apply enough_fuel_arena|].
  exists c, st', fs'. split_and!; [done|done|done|naive_solver].
Qed.

(** [while(1) a = ~a;] on a one-bit signal: the loop is cut after 4096 rounds. *)
Definition toggle_module : compiled_module :=
  mk_module "m" [] [] ∅ ∅ ["a"] [true] [false] [false] [false] [indeterminate_state] ∅ [] ∅ ∅
    [mk_node ek_signal indeterminate_state None None (Some 0);
     mk_node ek_unary_not indeterminate_state (Some 0) None None;
     mk_node ek_literal true_state None None None] ∅ [] [] [] [] [] ∅ ∅ 0.

Definition toggle_arena : list stmt_node :=
  [mk_stmt sk_blocking_assign ck_normal 0 (Some 0) (Some 1) [] [] [] [] [] [] None None None;
   mk_stmt sk_while_stmt ck_normal 0 None (Some 2) [] [] [] [] [] [] None None (Some 0)].

Lemma exec_stmt_total_witness :
  exists changed st' fs',
    exec_stmt 4 toggle_module toggle_arena (Some 1) (init_state toggle_module) 0 false (Some fl_none)
    = Some (changed, st', fs') /\ state_inv st' /\ runs (init_state toggle_module) st'
    /\ (changed = false -> st_values st' = st_values (init_state toggle_module)).
Proof.
  apply (exec_stmt_total toggle_module toggle_arena); [|apply init_state_inv].
  exact (all_below_spec stmt_children toggle_arena eq_refl).
Defined.

(** C15. Nonblocking assignments take effect together.  Running a procedural block without blocking assignments
    leaves every value as it was, so all its right-hand sides and conditions read the values from before the block;
    [apply_nba] then gives every signal the last value queued for it, or its old value when there is none. *)
Theorem nonblocking_block_atomic (m : compiled_module) (arena : list stmt_node) (i : index) (st : module_state)
  (tick : Z) (fs : flow) :
  stmts_acyclic arena -> (forall n, n ∈ arena -> assigns_at_once false n = false) -> state_inv st ->
  exists changed st' fs',
    exec_stmt (S (S (length arena))) m arena i st tick false fs = Some (changed, st', fs')
    /\ st_values st' = st_values st
    /\ forall s, st_values (snd (apply_nba st')) !! s
        = match last (filter (fun p => fst p = Some s) (st_nba_queue st')) with
          | Some (_, v) => (fun _ => v) <$> st_values st !! s
          | None => st_values st !! s
          end.
Proof.
  intros Hac Hnb Hi.
  destruct (exec_stmt_returns (R := keeps_values) (S (S (length arena))) m arena i st tick false fs)
    as (c & st' & fs' & ? & [_ Hv] & Hi' & _ & _); [|done|done|apply enough_fuel_arena|].
  { intros n Hn Ha. rewrite (Hnb n Hn) in Ha. done. }
  exists c, st', fs'. split_and!; [done|done|]. intros s.
  pose proof (apply_nba_ok st' Hi') as Ha. destruct (apply_nba st') as [c2 st2]. destruct Ha as (_ & _ & _ & Hn & _).
  simpl. rewrite Hn, assign_values_lookup, Hv. done.
Qed.

(** [begin a <= b; b <= a; end] *)
Definition swap_module : compiled_module :=
  mk_module "m" [] [] ∅ ∅ ["a"; "b"] [true; true] [false; false] [true; true] [false; false]
    [true_state; false_state] ∅ [] ∅ ∅
    [mk_node ek_signal indeterminate_state None None (Some 0);
     mk_node ek_signal indeterminate_state None None (Some 1)] ∅ [] [] [] [] [] ∅ ∅ 0.

Definition swap_arena : list stmt_node :=
  [mk_stmt sk_nonblocking_assign ck_normal 0 (Some 0) (Some 1) [] [] [] [] [] [] None None None;
   mk_stmt sk_nonblocking_assign ck_normal 0 (Some 1) (Some 0) [] [] [] [] [] [] None None None;
   mk_stmt sk_block ck_normal 0 None None [] [] [Some 0; Some 1] [] [] [] None None None].

Lemma nonblocking_block_atomic_witness :
  exists changed st' fs',
    exec_stmt 5 swap_module swap_arena (Some 2) (init_state swap_module) 0 false (Some fl_none)
    = Some (changed, st', fs')
    /\ st_values st' = [true_state; false_state] /\ st_values (snd (apply_nba st')) !! 0 = Some false_state
    /\ st_values (snd (apply_nba st')) !! 1 = Some true_state.
Proof.
  destruct (nonblocking_block_atomic swap_module swap_arena (Some 2) (init_state swap_module) 0 (Some fl_none))
    as (c & st' & fs' & He & Hv & Hl).
  - exact (all_below_spec stmt_children swap_arena eq_refl).
  - intros n Hn. unfold swap_arena in Hn.
    repeat (apply elem_of_cons in Hn as [->|Hn]; [reflexivity|]). by apply elem_of_nil in Hn.
  - apply init_state_inv.
  - exists c, st', fs'. rewrite !Hl. vm_compute in He. injection He as <- <- <-. done.
Defined.

(** C23. [process_due_events] runs every event that is due exactly once, in the order of scheduling, each seeing
    the values the earlier ones left, and keeps the later events in their order.  It returns from every state
    whose invariants hold, and keeps them. *)
Theorem process_due_events_correct (m : compiled_module) (st : module_state) (tick : Z) :
  state_inv st -> st_mod st = Some m ->
  exists st1 st', fold_option (run_event m) (filter (due tick) (st_events st)) st = Some st1
    /\ process_due_events st tick = Some st' /\ st' = with_events st1 (filter (fun e => ~ due tick e) (st_events st))
    /\ state_inv st' /\ runs st st'.
Proof.
  intros Hi Hm. unfold process_due_events. rewrite Hm, run_events_split.
  destruct (run_event_list_step m (filter (due tick) (st_events st)) st Hi) as (st1 & -> & Hr & Hi1). simpl.
  destruct (with_events_ok st1 (filter (fun e => ~ due tick e) (st_events st)) Hi1) as [Hr2 Hi2].
  exists st1. eexists. split_and!; [done|done|done|done|by etrans].
Qed.

Definition scheduled_state : module_state :=
  with_events (init_state swap_module)
    [mk_event 3 false (Some 0) (Some 1) false [] []; mk_event 9 false (Some 1) (Some 0) false [] [];
     mk_event 5 true (Some 1) (Some 0) false [] []].

Lemma process_due_events_correct_witness :
  exists st', process_due_events scheduled_state 5 = Some st'
    /\ st_events st' = [mk_event 9 false (Some 1) (Some 0) false [] []] /\ state_inv st'.
Proof.
  destruct (process_due_events_correct swap_module scheduled_state 5) as (st1 & st' & _ & He & Hs & Hi & _).
  - apply with_events_ok, init_state_inv.
  - reflexivity.
  - exists st'. split_and!; [done| |done]. rewrite Hs. vm_compute. reflexivity.
Defined.
