(* ===== verification/VSim.v ===== *)
(** * Verilog: simulation of an instance tree

    The operations of verilog/digital/digital.h on [instance_state]: the
    resolution of nets with several drivers, clocked blocks, combinational
    blocks and continuous assignments, the exchange of port values between an
    instance and its children, and [simulate], one tick of the whole tree.

    The recursion over the tree takes fuel for its height; [None] is too
    little fuel.  The combinational loop of the code is bounded by 64 deltas
    per instance. *)

From S2P Require Import Prelude Logic4 VModule VEval VExec.
From Stdlib Require Import ZArith Lia.

(** ** Nets with drivers *)

(** [sig < signal_is_reg.size() && signal_is_reg[sig]] *)
Definition is_reg (m : compiled_module) (sig : index) : bool := default false (vget (cm_signal_is_reg m) sig).

Definition set_flag (l : list bool) (sig : index) : list bool :=
  match sig with Some i => <[i := true]> l | None => l end.

Definition init_driven_nets_from_assigns (inst : instance_state) : instance_state :=
  match is_mod inst with
  | None => inst
  | Some m =>
      with_driven inst
        (foldl (fun driven a => if is_reg m (ca_lhs_signal a) then driven else set_flag driven (ca_lhs_signal a))
           (replicate (length (cm_signal_names m)) false) (cm_assigns m))
  end.

(** [driven[i]], false outside the vector. *)
Definition is_driven (driven : list bool) (sig : index) : bool := default false (vget driven sig).

Definition prepare_net_drives (inst : instance_state) : instance_state :=
  match is_mod inst with
  | None => inst
  | Some _ =>
      let st := is_state inst in
      let n := length (st_values st) in
      let next := if bool_decide (length (st_next_net_values st) < n)
                  then grow n high_impedence_state (st_next_net_values st) else st_next_net_values st in
      let driven := if bool_decide (length (is_driven_nets inst) < n)
                    then grow n false (is_driven_nets inst) else is_driven_nets inst in
      let next := imap (fun i v => if bool_decide (i < n) && is_driven driven (Some i)
                                   then high_impedence_state else v) next in
      with_driven (with_inst_state inst (with_next_net st next)) driven
  end.

Definition drive_signal_next (inst : instance_state) (sig : index) (v : dns) : instance_state :=
  match is_mod inst with
  | None => inst
  | Some m =>
      let st := is_state inst in
      match sig, vget (st_values st) sig with
      | Some i, Some _ =>
          if is_reg m sig then with_inst_state inst (snd (assign_signal st sig v))
          else if negb (is_driven (is_driven_nets inst) sig)
          then with_inst_state inst (snd (assign_signal st sig v))
          else
            let next := if bool_decide (length (st_next_net_values st) < length (st_values st))
                        then grow (length (st_values st)) high_impedence_state (st_next_net_values st)
                        else st_next_net_values st in
            with_inst_state inst (with_next_net st (alter (fun dst => resolve_net_drivers dst v) i next))
      | _, _ => inst
      end
  end.

Definition apply_net_drives (inst : instance_state) : bool * instance_state :=
  match is_mod inst with
  | None => (false, inst)
  | Some m =>
      let st := is_state inst in
      let n := length (st_values st) in
      if bool_decide (length (st_next_net_values st) < n) || bool_decide (length (is_driven_nets inst) < n)
      then (false, inst)
      else
        let l := omap (fun i => if is_driven (is_driven_nets inst) (Some i) && negb (is_reg m (Some i))
                                then pair (Some i) <$> st_next_net_values st !! i else None) (seq 0 n) in
        let '(changed, st) := assign_all st l false in
        (changed, with_inst_state inst st)
  end.

(** ** Clocked blocks *)

(** One entry of a sensitivity list. *)
Definition event_fires (st : module_state) (ev : sensitivity_event) : bool :=
  match vget (st_values st) (se_signal ev), vget (st_prev_values st) (se_signal ev) with
  | Some now, Some prev =>
      let a := normalize_z_to_x prev in
      let b := normalize_z_to_x now in
      match se_k ev with
      | sens_posedge => bool_decide (a = false_state) && bool_decide (b = true_state)
      | sens_negedge => bool_decide (a = true_state) && bool_decide (b = false_state)
      | sens_level => bool_decide (prev ≠ now)
      end
  | _, _ => false
  end.

(** [for(root : roots) { flow_state fs{}; exec_stmt(root, &fs); }], with the
    disjunction of the results. *)
Fixpoint exec_roots (m : compiled_module) (arena : list stmt_node) (roots : list index) (tick : Z) (changed : bool)
  (st : module_state) : option (bool * module_state) :=
  match roots with
  | [] => Some (changed, st)
  | root :: roots =>
      '(c, st, _) ← exec_stmt (S (S (length arena))) m arena root st tick false (Some fl_none);
      exec_roots m arena roots tick (c || changed) st
  end.

(** [set_bus] and the write of the next state: values are written without
    recording a change. *)
Definition write_bits (values : list dns) (bits : list index) (vs : list dns) : list dns :=
  assign_values values (zip bits vs).

(** The state of the [$urandom] bus, [None] when a bit is unknown or missing. *)
Definition urandom_state (values : list dns) (bits : list index) : option Z :=
  foldl (fun acc '(i, sig) =>
    s ← acc;
    v ← vget values sig;
    let v := normalize_z_to_x v in
    if is_unknown v then None
    else Some (if bool_decide (v = true_state) then Z.lor s (Z.shiftl 1 (3 - Z.of_nat i)) else s))
    (Some 0%Z) (imap pair bits).

Definition urandom_next (state_u : Z) : Z :=
  let b3 := negb (Z.eqb (Z.land (Z.shiftr state_u 3) 1) 0) in
  let b2 := negb (Z.eqb (Z.land (Z.shiftr state_u 2) 1) 0) in
  let feedback := xorb (xorb b3 b2) true in
  Z.lor (Z.land (Z.shiftl state_u 1) 14) (Z.b2z feedback).

Definition urandom_bits (next_u : Z) : list dns :=
  (fun i => dns_of_bool (negb (Z.eqb (Z.land (Z.shiftr next_u (3 - Z.of_nat i)) 1) 0))) <$> seq 0 4.

(** The update of the [$urandom] bus at the head of [run_sequential]. *)
Definition urandom_update (m : compiled_module) (st : module_state) : module_state :=
  match cm_vectors m !! "$urandom" with
  | None => st
  | Some vd =>
      let bits := vd_bits vd in
      if bool_decide (length bits ≠ 4) then st
      else
        let values := st_values st in
        let set_bus v := with_values st (write_bits values bits (replicate 4 v)) in
        let rst := match cm_signal_index m !! "rst_n" with
                   | Some s => Some s
                   | None => cm_signal_index m !! "reset_n"
                   end in
        let rstn := match vget values rst with
                    | Some high_impedence_state | None => true_state
                    | Some v => v
                    end in
        let rstn := normalize_z_to_x rstn in
        if bool_decide (rstn = false_state) then set_bus false_state
        else if is_unknown rstn then set_bus indeterminate_state
        else
          let clk := cm_signal_index m !! "clk" in
          match vget values clk, vget (st_prev_values st) clk with
          | Some now, Some prev =>
              if bool_decide (normalize_z_to_x prev = false_state) && bool_decide (normalize_z_to_x now = true_state)
              then match urandom_state values bits with
                   | None => set_bus indeterminate_state
                   | Some s => with_values st (write_bits values bits (urandom_bits (urandom_next s)))
                   end
              else st
          | _, _ => st
          end
  end.

Definition run_sequential (inst : instance_state) (tick : Z) : option instance_state :=
  match is_mod inst with
  | None => Some inst
  | Some m =>
      st ← fold_option (fun st ff =>
             if existsb (event_fires st) (ff_events ff)
             then '(_, st) ← exec_roots m (ff_stmt_nodes ff) (ff_roots ff) tick false st; Some st
             else Some st)
           (cm_always_ffs m) (urandom_update m (is_state inst));
      Some (with_inst_state inst st)
  end.

(** ** Combinational blocks and continuous assignments *)

Definition comb_triggered (st : module_state) (trigger_token : Z) (any_triggered : bool) (ac : always_comb) : bool :=
  if ac_is_star ac then any_triggered
  else existsb (fun sig => bool_decide (vget (st_change_mark st) sig = Some trigger_token)) (ac_sens_signals ac).

(** The always blocks. *)
Fixpoint run_combs (m : compiled_module) (tick trigger_token : Z) (any_triggered : bool) (l : list always_comb)
  (changed : bool) (st : module_state) : option (bool * module_state) :=
  match l with
  | [] => Some (changed, st)
  | ac :: l =>
      if comb_triggered st trigger_token any_triggered ac
      then
        '(changed, st) ← exec_roots m (ac_stmt_nodes ac) (ac_roots ac) tick changed st;
        run_combs m tick trigger_token any_triggered l changed st
      else run_combs m tick trigger_token any_triggered l changed st
  end.

(** One continuous assignment. *)
Definition run_assign (m : compiled_module) (inst : instance_state) (a : continuous_assign) : option instance_state :=
  '(go, inst) ← match ca_guard_root a with
                | None => Some (true, inst)
                | Some _ =>
                    '(t, st) ← test m (ca_guard_root a) (is_state inst);
                    Some (t, with_inst_state inst st)
                end;
  if negb go then Some inst
  else
    '(v, st) ← eval_expr_cached m (ca_expr_root a) (is_state inst);
    Some (drive_signal_next (with_inst_state inst st) (ca_lhs_signal a) v).

Definition run_comb_local (inst : instance_state) (tick trigger_token : Z) (any_triggered : bool)
  : option (bool * instance_state) :=
  match is_mod inst with
  | None => Some (false, inst)
  | Some m =>
      '(changed, st) ← run_combs m tick trigger_token any_triggered (cm_always_combs m) false (is_state inst);
      inst ← fold_option (run_assign m) (cm_assigns m) (with_inst_state inst st);
      Some (changed, inst)
  end.

(** ** Ports *)

(** The value an input port takes from the parent; evaluating an expression
    uses the parent's cache. *)
Definition binding_value (parent : instance_state) (b : port_binding) : option (dns * instance_state) :=
  match pb_k b with
  | pb_parent_signal => Some (read_signal (st_values (is_state parent)) (pb_signal b), parent)
  | pb_literal => Some (pb_lit b, parent)
  | pb_parent_expr_root =>
      match is_mod parent, pb_expr_root b with
      | Some pm, Some _ =>
          '(v, st) ← eval_expr_cached pm (pb_expr_root b) (is_state parent);
          Some (v, with_inst_state parent st)
      | _, _ => Some (indeterminate_state, parent)
      end
  | pb_unconnected => Some (indeterminate_state, parent)
  end.

Fixpoint propagate_ports (l : list (port * port_binding)) (changed : bool) (parent : instance_state) (cst : module_state)
  : option (bool * instance_state * module_state) :=
  match l with
  | [] => Some (changed, parent, cst)
  | (p, b) :: l =>
      if bool_decide (port_direction p = dir_output) then propagate_ports l changed parent cst
      else
        '(v, parent) ← binding_value parent b;
        let '(c, cst) := assign_signal cst (port_signal p) v in
        propagate_ports l (c || changed) parent cst
  end.

Definition propagate_parent_to_child (parent child : instance_state) : option (bool * instance_state * instance_state) :=
  match is_mod child with
  | None => Some (false, parent, child)
  | Some cm =>
      if bool_decide (length (is_bindings child) < length (cm_ports cm)) then Some (false, parent, child)
      else
        '(changed, parent, cst) ← propagate_ports (zip (cm_ports cm) (is_bindings child)) false parent (is_state child);
        Some (changed, parent, with_inst_state child cst)
  end.

Definition drive_parent (cst : module_state) (parent : instance_state) (d : port_drive) : instance_state :=
  match dr_parent_signal d with
  | None => parent
  | Some _ =>
      if dr_src_is_literal d then drive_signal_next parent (dr_parent_signal d) (dr_literal d)
      else match vget (st_values cst) (dr_child_signal d) with
           | None => parent
           | Some v => drive_signal_next parent (dr_parent_signal d) v
           end
  end.

Definition propagate_child_to_parent (child parent : instance_state) : instance_state :=
  match is_mod child with
  | None => parent
  | Some _ => foldl (drive_parent (is_state child)) parent (is_output_drives child)
  end.

(** ** One tick: initial blocks, events and clocked blocks *)

(** [try_schedule_linear]: a straight-line statement becomes events at the
    times its delays add up to.  It returns whether the statement was of that
    form; the events pushed before the answer is known stay. *)
Fixpoint try_schedule_linear (fuel : nat) (arena : list stmt_node) (root : index) (cursor : Z) (st : module_state)
  : option (bool * Z * module_state) :=
  match fuel with
  | O => None
  | S fuel =>
      match vget arena root with
      | None => Some (false, cursor, st)
      | Some n =>
          let cursor' := u64_add cursor (sn_delay_ticks n) in
          let due := u64_add (st_initial_base_tick st) cursor' in
          let scalar nonblocking :=
            Some (true, cursor', push_event st
              (mk_event due nonblocking (sn_lhs_signal n) (sn_expr_root n) false [] [])) in
          let vector nonblocking :=
            Some (true, cursor', push_event st
              (mk_event due nonblocking SIZE_MAX SIZE_MAX true (sn_lhs_signals n) (sn_rhs_roots n))) in
          match sn_k n with
          | sk_empty => Some (true, cursor, st)
          | sk_block | sk_subprogram_block =>
              (fix go (l : list index) (cursor : Z) (st : module_state) :=
                 match l with
                 | [] => Some (true, cursor, st)
                 | sub :: l =>
                     '(ok, cursor, st) ← try_schedule_linear fuel arena sub cursor st;
                     if ok : bool then go l cursor st else Some (false, cursor, st)
                 end) (sn_stmts n) cursor st
          | sk_blocking_assign => scalar false
          | sk_blocking_assign_vec => vector false
          | sk_nonblocking_assign => scalar true
          | sk_nonblocking_assign_vec => vector true
          | _ => Some (false, cursor, st)
          end
      end
  end.

(** The loop over the roots of one block: the value of [linear]. *)
Fixpoint schedule_roots (arena : list stmt_node) (roots : list index) (linear : bool) (cursor : Z) (st : module_state)
  : option (bool * module_state) :=
  match roots with
  | [] => Some (linear, st)
  | root :: roots =>
      '(ok, cursor, st) ← try_schedule_linear (S (S (length arena))) arena root cursor st;
      if ok : bool then schedule_roots arena roots true cursor st else Some (false, st)
  end.

Definition run_initial (m : compiled_module) (st : module_state) (ib : initial_block) : option module_state :=
  '(linear, st) ← schedule_roots (ib_stmt_nodes ib) (ib_roots ib) false 0 st;
  if linear : bool then Some st
  else
    '(_, st) ← exec_roots m (ib_stmt_nodes ib) (ib_roots ib) (st_initial_base_tick st) false st;
    Some st.

Definition run_initials (inst : instance_state) (tick : Z) : option instance_state :=
  let st := with_nba (is_state inst) [] in
  match is_mod inst, st_mod st with
  | Some m, Some _ =>
      if st_initial_ran st then Some (with_inst_state inst st)
      else
        st ← fold_option (run_initial m) (cm_initials m) (with_initial_ran st tick);
        Some (with_inst_state inst st)
  | _, _ => Some (with_inst_state inst st)
  end.

(** The loop over the children: each takes its inputs and is passed on. *)
Fixpoint pass_children (pass : instance_state -> option instance_state) (parent : instance_state)
  (l : list instance_state) : option (instance_state * list instance_state) :=
  match l with
  | [] => Some (parent, [])
  | child :: l =>
      '(_, parent, child) ← propagate_parent_to_child parent child;
      child ← pass child;
      '(parent, l) ← pass_children pass parent l;
      Some (parent, child :: l)
  end.

Fixpoint sequential_pass (fuel : nat) (inst : instance_state) (tick : Z) (process_sequential : bool)
  : option instance_state :=
  match fuel with
  | O => None
  | S fuel =>
      inst ← run_initials inst tick;
      st ← process_due_events (is_state inst) tick;
      let inst := with_inst_state inst st in
      inst ← (if process_sequential then run_sequential inst tick else Some inst);
      '(inst, children) ← pass_children (fun c => sequential_pass fuel c tick process_sequential) inst (is_children inst);
      Some (with_children inst children)
  end.

(** ** One tick: combinational resolution *)

(** The three loops over the children of one delta. *)
Fixpoint propagate_inputs (parent : instance_state) (l : list instance_state) (changed : bool)
  : option (bool * instance_state * list instance_state) :=
  match l with
  | [] => Some (changed, parent, [])
  | child :: l =>
      '(c, parent, child) ← propagate_parent_to_child parent child;
      '(changed, parent, l) ← propagate_inputs parent l (c || changed);
      Some (changed, parent, child :: l)
  end.

Fixpoint resolve_children (resolve : instance_state -> option (bool * instance_state)) (l : list instance_state)
  (changed : bool) : option (bool * list instance_state) :=
  match l with
  | [] => Some (changed, [])
  | child :: l =>
      '(c, child) ← resolve child;
      '(changed, l) ← resolve_children resolve l (c || changed);
      Some (changed, child :: l)
  end.

Definition drive_outputs (parent : instance_state) (l : list instance_state) : instance_state :=
  foldl (fun parent child => propagate_child_to_parent child parent) parent l.

(** One delta after [begin_change_epoch]: the body of the loop of
    [comb_resolve] up to the test of [changed]. *)
Definition comb_delta (resolve : instance_state -> option (bool * instance_state)) (inst : instance_state) (tick : Z)
  (trigger_token : Z) (any_triggered : bool) : option (bool * instance_state) :=
  let inst := prepare_net_drives inst in
  '(changed, inst, children) ← propagate_inputs inst (is_children inst) false;
  '(changed, children) ← resolve_children resolve children changed;
  let inst := with_children (drive_outputs inst children) children in
  '(c, inst) ← run_comb_local inst tick trigger_token any_triggered;
  let changed := c || changed in
  let '(c, inst) := apply_net_drives inst in
  let changed := c || changed in
  let '(c, st) := apply_nba (is_state inst) in
  Some (c || changed, with_inst_state inst st).

Fixpoint comb_loop (resolve : instance_state -> option (bool * instance_state)) (iters : nat) (inst : instance_state)
  (tick trigger_token : Z) (any_triggered any_changed : bool) : option (bool * instance_state) :=
  match iters with
  | O => Some (any_changed, inst)
  | S iters =>
      let '(record_token, st) := begin_change_epoch (is_state inst) in
      '(changed, inst) ← comb_delta resolve (with_inst_state inst st) tick trigger_token any_triggered;
      if negb changed then Some (any_changed, inst)
      else comb_loop resolve iters inst tick record_token
             (negb (bool_decide (st_changed_signals (is_state inst) = []))) true
  end.

Definition comb_max_iter : nat := 64.

(** The trigger set of the first delta: the signals that changed since the
    last resolution are marked. *)
Definition initial_triggers (st : module_state) : Z * bool * module_state :=
  let st := if bool_decide (length (st_comb_prev_values st) ≠ length (st_values st))
            then with_prev st (st_prev_values st) (st_prev_values st) else st in
  let st := with_change st (st_values st) (sized_marks (st_values st) (st_change_mark st)) (st_changed_signals st)
              (st_change_token st) in
  let '(token, st) := begin_change_epoch st in
  let differs i := match st_values st !! i, st_comb_prev_values st !! i with
                   | Some v, Some p => bool_decide (v ≠ p)
                   | _, _ => false
                   end in
  let mark := imap (fun i k => if differs i then token else k) (st_change_mark st) in
  let any_triggered := existsb differs (seq 0 (length (st_values st))) in
  let st := with_change st (st_values st) mark (st_changed_signals st) (st_change_token st) in
  if st_comb_initialized st then (token, any_triggered, st)
  else (token, true, with_comb_initialized st).

Fixpoint comb_resolve (fuel : nat) (inst : instance_state) (tick : Z) : option (bool * instance_state) :=
  match fuel with
  | O => None
  | S fuel =>
      match is_mod inst with
      | None => Some (false, inst)
      | Some _ =>
          let '(trigger_token, any_triggered, st) := initial_triggers (is_state inst) in
          '(any_changed, inst) ← comb_loop (fun c => comb_resolve fuel c tick) comb_max_iter (with_inst_state inst st)
                                   tick trigger_token any_triggered false;
          let st := is_state inst in
          Some (any_changed, with_inst_state inst (with_prev st (st_prev_values st) (st_values st)))
      end
  end.

(** [apply_nba_recursive], defined in the code next to the above and not
    called by it. *)
Fixpoint apply_nba_recursive (inst : instance_state) : bool * instance_state :=
  let 'mk_inst m n st d b o c := inst in
  let '(changed, st) := apply_nba st in
  let res := map apply_nba_recursive c in
  (foldl (fun changed r => fst r || changed) changed res, mk_inst m n st d b o (snd <$> res)).

Fixpoint update_prev_recursive (inst : instance_state) : instance_state :=
  let 'mk_inst m n st d b o c := inst in
  mk_inst m n (with_prev st (st_values st) (st_values st)) d b o (map update_prev_recursive c).

(** The height of the tree, the fuel of the recursions over it. *)
Fixpoint height (inst : instance_state) : nat :=
  let 'mk_inst _ _ _ _ _ _ c := inst in S (list_max (map height c)).

Definition simulate (top : instance_state) (tick : Z) (process_sequential : bool) : option instance_state :=
  let fuel := height top in
  top ← sequential_pass fuel top tick process_sequential;
  '(_, top) ← comb_resolve fuel top tick;
  Some (update_prev_recursive top).

(** ** Invariants of an instance *)

(** The statement arenas of a module are acyclic. *)
Record module_ok (m : compiled_module) : Prop := {
  mo_ffs : forall ff, ff ∈ cm_always_ffs m -> stmts_acyclic (ff_stmt_nodes ff);
  mo_combs : forall ac, ac ∈ cm_always_combs m -> stmts_acyclic (ac_stmt_nodes ac);
  mo_initials : forall ib, ib ∈ cm_initials m -> stmts_acyclic (ib_stmt_nodes ib);
}.

Record node_ok (inst : instance_state) : Prop := {
  no_state : state_inv (is_state inst);
  no_module : forall m, is_mod inst = Some m -> module_ok m;
}.

(** A property of every instance of a tree of height at most [n]. *)
Fixpoint tree_all (P : instance_state -> Prop) (n : nat) (inst : instance_state) : Prop :=
  match n with
  | O => False
  | S n => P inst /\ Forall (tree_all P n) (is_children inst)
  end.

(** A well-formed tree of height at most [n]. *)
Definition tree_ok : nat -> instance_state -> Prop := tree_all node_ok.

(** The nets of an instance that have internal drivers. *)
Definition driven_flags (inst : instance_state) : list bool :=
  (fun i => is_driven (is_driven_nets inst) (Some i)) <$> seq 0 (length (st_values (is_state inst))).

(** A step of an instance that keeps what the tree is made of and the
    invariants of its state. *)
Record frame (inst inst' : instance_state) : Prop := {
  fr_mod : is_mod inst' = is_mod inst;
  fr_bindings : is_bindings inst' = is_bindings inst;
  fr_drives : is_output_drives inst' = is_output_drives inst;
  fr_children : is_children inst' = is_children inst;
  fr_flags : driven_flags inst' = driven_flags inst;
  fr_st_mod : st_mod (is_state inst') = st_mod (is_state inst);
  fr_length : length (st_values (is_state inst')) = length (st_values (is_state inst));
  fr_inv : state_inv (is_state inst) -> state_inv (is_state inst');
}.

#[global] Instance frame_preorder : PreOrder frame.
Proof.
  split; [by intros i; split|]. intros i1 i2 i3 [] []. split; try congruence. auto.
Qed.

Lemma frame_state inst st :
  st_mod st = st_mod (is_state inst) -> length (st_values st) = length (st_values (is_state inst)) ->
  (state_inv (is_state inst) -> state_inv st) -> frame inst (with_inst_state inst st).
Proof. intros ? Hl ?. split; try done. unfold driven_flags. simpl. by rewrite Hl. Qed.

Lemma runs_frame inst st : runs (is_state inst) st -> state_inv st -> frame inst (with_inst_state inst st).
Proof. intros [] Hi. by apply frame_state. Qed.

Lemma frame_node inst inst' : frame inst inst' -> node_ok inst -> node_ok inst'.
Proof. intros [] [Hs Hm]. split; [auto|]. intros m Hm'. apply Hm. congruence. Qed.

(** A state that differs in fields the invariants do not mention. *)
Lemma with_next_net_inv st next : state_inv st -> state_inv (with_next_net st next).
Proof. intros [[] []]. split; by split. Qed.

Lemma with_prev_inv st p c : state_inv st -> state_inv (with_prev st p c).
Proof. intros [[] []]. split; by split. Qed.

Lemma with_comb_initialized_inv st : state_inv st -> state_inv (with_comb_initialized st).
Proof. intros [[] []]. split; by split. Qed.

Lemma with_initial_ran_inv st base : state_inv st -> state_inv (with_initial_ran st base).
Proof. intros [[] []]. split; by split. Qed.

Lemma with_values_inv st values :
  length values = length (st_values st) -> state_inv st -> state_inv (with_values st values).
Proof.
  intros Hl [[] [Ht Hm Htr Hnd Hr]]. split; split; simpl; try done. intros r Hin. specialize (Hr r Hin).
  destruct r as [i|]; [|done]. simpl in *. rewrite lookup_lt_is_Some in *. lia.
Qed.

Lemma length_assign_values values l : length (assign_values values l) = length values.
Proof.
  revert values. induction l as [|[sig v] l IH]; intros values; simpl; [done|]. by rewrite IH, length_set_value.
Qed.

Lemma assign_signal_frame inst sig v : frame inst (with_inst_state inst (snd (assign_signal (is_state inst) sig v))).
Proof.
  pose proof (assign_signal_only (is_state inst) sig v) as Ho. apply frame_state.
  - by rewrite Ho.
  - by rewrite assign_signal_values, length_set_value.
  - intros Hi. eapply change_only_state; [done| |done]. by apply assign_signal_change, Hi.
Qed.

Lemma prepare_net_drives_frame inst : frame inst (prepare_net_drives inst).
Proof.
  unfold prepare_net_drives. destruct (is_mod inst) as [m|] eqn:Hm; [|done].
  split; try done; [|simpl; apply with_next_net_inv].
  unfold driven_flags, is_driven. simpl. apply list_fmap_ext. intros _ i _. case_bool_decide; [|done]. unfold grow.
  destruct (decide (i < length (is_driven_nets inst))) as [Hlt|Hge]; [by rewrite lookup_app_l|].
  rewrite lookup_app_r by lia. rewrite (lookup_ge_None_2 (is_driven_nets inst)) by lia.
  destruct (replicate _ false !! _) as [x|] eqn:Hx; [|done]. by apply lookup_replicate in Hx as [-> _].
Qed.

Lemma drive_signal_next_frame inst sig v : frame inst (drive_signal_next inst sig v).
Proof.
  unfold drive_signal_next. destruct (is_mod inst) as [m|] eqn:Hm; [|done]. destruct sig as [i|]; [|done].
  destruct (vget _ _); [|done]. destruct (is_reg m (Some i)); [apply assign_signal_frame|].
  destruct (negb _); [apply assign_signal_frame|]. apply frame_state; [done|done|apply with_next_net_inv].
Qed.

Lemma apply_net_drives_frame inst : state_inv (is_state inst) -> frame inst (snd (apply_net_drives inst)).
Proof.
  intros Hi. unfold apply_net_drives. destruct (is_mod inst) as [m|]; [|done]. destruct (_ || _); [done|].
  set (l := omap _ _). destruct (assign_all_step (is_state inst) l false Hi) as (_ & Hr & Hi' & _).
  destruct (assign_all _ l false) as [c st]. by apply runs_frame.
Qed.

(** ** Every operation returns *)

Lemma exec_roots_step m arena roots tick changed st :
  stmts_acyclic arena -> state_inv st ->
  exists c st', exec_roots m arena roots tick changed st = Some (c, st') /\ runs st st' /\ state_inv st'
    /\ (c = false -> changed = false /\ st_values st' = st_values st).
Proof.
  intros Hac. revert changed st. induction roots as [|r roots IH]; intros changed st Hi; [by exists changed, st|].
  destruct (exec_stmt_returns (R := runs) (S (S (length arena))) m arena r st tick false (Some fl_none))
    as (c & st1 & fs1 & He & Hr & Hi1 & Hc & _); [done|done|done|apply enough_fuel_arena|].
  cbn [exec_roots]. rewrite He. cbn [mbind option_bind].
  destruct (IH (c || changed) st1 Hi1) as (c2 & st2 & -> & Hr2 & Hi2 & Hc2).
  exists c2, st2. split_and!; [done|by etrans|done|]. intros Hz. apply Hc2 in Hz as [Hz Hv].
  apply orb_false_iff in Hz as [-> ->]. destruct (Hc eq_refl) as [_ Hv']. split; [done|congruence].
Qed.

Lemma urandom_update_inv m st :
  state_inv st -> state_inv (urandom_update m st) /\ length (st_values (urandom_update m st)) = length (st_values st)
    /\ st_mod (urandom_update m st) = st_mod st.
Proof.
  intros Hi. unfold urandom_update.
  assert (Hw : forall bits vs, let st' := with_values st (write_bits (st_values st) bits vs) in
    state_inv st' /\ length (st_values st') = length (st_values st) /\ st_mod st' = st_mod st).
  { intros bits vs. assert (length (write_bits (st_values st) bits vs) = length (st_values st)) by apply length_assign_values.
    split_and!; [by apply with_values_inv|done|done]. }
  repeat (case_match || case_bool_decide); first [by split_and!|apply Hw].
Qed.

Lemma fold_runs {B} (f : module_state -> B -> option module_state) (l : list B) st :
  (forall b st, b ∈ l -> state_inv st -> exists st', f st b = Some st' /\ runs st st' /\ state_inv st') ->
  state_inv st -> exists st', fold_option f l st = Some st' /\ runs st st' /\ state_inv st'.
Proof.
  revert st. induction l as [|b l IH]; intros st Hf Hi; [by exists st|]. simpl.
  destruct (Hf b st) as (st1 & -> & Hr & Hi1); [set_solver|done|]. simpl.
  destruct (IH st1) as (st2 & -> & Hr2 & Hi2); [intros; apply Hf; set_solver|done|].
  exists st2. split_and!; [done|by etrans|done].
Qed.

Lemma run_sequential_ok inst tick :
  node_ok inst -> exists inst', run_sequential inst tick = Some inst' /\ frame inst inst'.
Proof.
  intros [Hi Hm]. unfold run_sequential. destruct (is_mod inst) as [m|]; [|by exists inst].
  destruct (urandom_update_inv m (is_state inst) Hi) as (Hiu & Hlu & Hmu).
  destruct (fold_runs (fun st ff => if existsb (event_fires st) (ff_events ff)
             then '(_, st) ← exec_roots m (ff_stmt_nodes ff) (ff_roots ff) tick false st; Some st
             else Some st) (cm_always_ffs m) (urandom_update m (is_state inst))) as (st' & -> & [] & Hi'); [|done|].
  - intros ff st Hin Hs. destruct (existsb _ _); [|by exists st].
    destruct (exec_roots_step m (ff_stmt_nodes ff) (ff_roots ff) tick false st) as (c & st' & -> & ? & ? & _);
      [by apply (mo_ffs m (Hm m eq_refl))|done|]. simpl. by exists st'.
  - simpl. eexists. split; [done|]. apply frame_state; [congruence|congruence|done].
Qed.

Lemma run_combs_step m tick token any l changed st :
  (forall ac, ac ∈ l -> stmts_acyclic (ac_stmt_nodes ac)) -> state_inv st ->
  exists c st', run_combs m tick token any l changed st = Some (c, st') /\ runs st st' /\ state_inv st'
    /\ (c = false -> changed = false /\ st_values st' = st_values st).
Proof.
  revert changed st. induction l as [|ac l IH]; intros changed st Hl Hi; simpl; [by exists changed, st|].
  destruct (comb_triggered st token any ac); [|apply IH; [set_solver|done]].
  destruct (exec_roots_step m (ac_stmt_nodes ac) (ac_roots ac) tick changed st) as (c & st1 & -> & Hr & Hi1 & Hc);
    [apply Hl; set_solver|done|]. simpl.
  destruct (IH c st1) as (c2 & st2 & -> & Hr2 & Hi2 & Hc2); [set_solver|done|].
  exists c2, st2. split_and!; [done|by etrans|done|]. intros Hz. apply Hc2 in Hz as [Hz Hv].
  apply Hc in Hz as [Hz Hv']. split; [done|congruence].
Qed.

Lemma eval_only_frame inst st : eval_only (is_state inst) st -> state_inv st -> frame inst (with_inst_state inst st).
Proof. intros Ho. apply runs_frame. by apply eval_only_runs. Qed.

Lemma run_assign_ok m inst a :
  state_inv (is_state inst) ->
  exists inst', run_assign m inst a = Some inst' /\ frame inst inst'.
Proof.
  intros Hi. unfold run_assign.
  assert (Hg : exists go st1, match ca_guard_root a with
      | None => Some (true, inst)
      | Some _ => '(t, st) ← test m (ca_guard_root a) (is_state inst); Some (t, with_inst_state inst st)
      end = Some (go, with_inst_state inst st1) /\ eval_only (is_state inst) st1 /\ state_inv st1).
  { destruct (ca_guard_root a) as [g|].
    - destruct (test_step m (Some g) (is_state inst) Hi) as (t & st1 & -> & ? & ? & _). simpl. eauto 6.
    - exists true, (is_state inst). split_and!; [by destruct inst|done|done]. }
  destruct Hg as (go & st1 & -> & Ho & Hi1). simpl.
  destruct go; simpl; [|eexists; split; [done|by apply eval_only_frame]].
  destruct (eval_cached_step m (ca_expr_root a) st1 Hi1) as (v & st2 & -> & Ho2 & Hi2 & _). simpl.
  eexists. split; [done|]. etrans; [|apply drive_signal_next_frame].
  apply (eval_only_frame inst st2); [by etrans|done].
Qed.

Lemma fold_frame {B} (f : instance_state -> B -> option instance_state) (l : list B) inst :
  (forall b inst, state_inv (is_state inst) -> exists inst', f inst b = Some inst' /\ frame inst inst') ->
  state_inv (is_state inst) -> exists inst', fold_option f l inst = Some inst' /\ frame inst inst'.
Proof.
  intros Hf. revert inst. induction l as [|b l IH]; intros inst Hi; [by exists inst|]. simpl.
  destruct (Hf b inst Hi) as (i1 & -> & Hr). simpl.
  destruct (IH i1) as (i2 & -> & Hr2); [by apply (fr_inv _ _ Hr)|]. exists i2. split; [done|by etrans].
Qed.

Lemma run_comb_local_ok inst tick token any :
  node_ok inst -> exists c inst', run_comb_local inst tick token any = Some (c, inst') /\ frame inst inst'.
Proof.
  intros [Hi Hm]. unfold run_comb_local. destruct (is_mod inst) as [m|]; [|by exists false, inst].
  destruct (run_combs_step m tick token any (cm_always_combs m) false (is_state inst))
    as (c & st & -> & Hr & Hi1 & _); [apply (mo_combs m (Hm m eq_refl))|done|]. simpl.
  destruct (fold_frame (run_assign m) (cm_assigns m) (with_inst_state inst st)) as (i2 & -> & Hf);
    [intros a i Hs; by apply run_assign_ok|done|]. simpl.
  exists c, i2. split; [done|]. etrans; [by apply runs_frame|done].
Qed.

Lemma binding_value_ok parent b :
  state_inv (is_state parent) ->
  exists v st, binding_value parent b = Some (v, with_inst_state parent st)
    /\ eval_only (is_state parent) st /\ state_inv st.
Proof.
  intros Hi. unfold binding_value.
  assert (Hid : with_inst_state parent (is_state parent) = parent) by (by destruct parent).
  destruct (pb_k b); [eexists _, (is_state parent); rewrite Hid; by split_and!..|].
  destruct (is_mod parent) as [pm|] eqn:Hp; [|eexists _, (is_state parent); rewrite Hid; by split_and!].
  destruct (pb_expr_root b) as [r|]; [|eexists _, (is_state parent); rewrite Hid; by split_and!].
  destruct (eval_cached_step pm (Some r) (is_state parent) Hi) as (v & st & -> & ? & ? & _). simpl. eauto 6.
Qed.

Lemma propagate_ports_ok l changed parent cst :
  state_inv (is_state parent) -> state_inv cst ->
  exists c st cst', propagate_ports l changed parent cst = Some (c, with_inst_state parent st, cst')
    /\ eval_only (is_state parent) st /\ state_inv st /\ change_only cst cst' /\ runs cst cst' /\ state_inv cst'
    /\ (c = false -> changed = false /\ st_values cst' = st_values cst).
Proof.
  revert changed parent cst. induction l as [|[p b] l IH]; intros changed parent cst Hp Hc; cbn [propagate_ports].
  { exists changed, (is_state parent), cst. split_and!; [by destruct parent|done..]. }
  case_bool_decide; [by apply IH|].
  destruct (binding_value_ok parent b Hp) as (v & st1 & -> & Ho1 & Hi1). cbn [mbind option_bind].
  pose proof (assign_signal_only cst (port_signal p) v) as Ho2.
  pose proof (assign_signal_values cst (port_signal p) v) as Hv.
  pose proof (assign_signal_change cst (port_signal p) v (si_change _ Hc)) as Hc2.
  pose proof (assign_signal_runs cst (port_signal p) v (si_change _ Hc)) as Hr2.
  pose proof (proj1 (assign_signal_changed cst (port_signal p) v)) as Hch.
  destruct (assign_signal cst (port_signal p) v) as [c cst1]. simpl in *.
  destruct (IH (c || changed) (with_inst_state parent st1) cst1 Hi1) as (c3 & st3 & cst3 & -> & Ho3 & Hi3 & Ho4 & Hr4 & Hi4 & Hz);
    [by eapply change_only_state|]. simpl in *.
  exists c3, st3, cst3. split_and!; [done|by etrans|done|by etrans|by etrans|done|].
  intros Hf. apply Hz in Hf as [Hf Hvs]. apply orb_false_iff in Hf as [-> ->]. rewrite Hvs, Hv. auto.
Qed.

Lemma propagate_parent_to_child_ok parent child :
  state_inv (is_state parent) -> state_inv (is_state child) ->
  exists c st cst, propagate_parent_to_child parent child = Some (c, with_inst_state parent st, with_inst_state child cst)
    /\ eval_only (is_state parent) st /\ state_inv st /\ change_only (is_state child) cst
    /\ runs (is_state child) cst /\ state_inv cst
    /\ (c = false -> st_values cst = st_values (is_state child)).
Proof.
  intros Hp Hc. unfold propagate_parent_to_child.
  assert (Hid : forall i, with_inst_state i (is_state i) = i) by (by intros []).
  destruct (is_mod child) as [cm|];
    [|exists false, (is_state parent), (is_state child); rewrite !Hid; by split_and!].
  case_bool_decide; [exists false, (is_state parent), (is_state child); rewrite !Hid; by split_and!|].
  destruct (propagate_ports_ok (zip (cm_ports cm) (is_bindings child)) false parent (is_state child) Hp Hc)
    as (c & st & cst & -> & ? & ? & ? & ? & ? & Hz). simpl. exists c, st, cst. split_and!; try done. naive_solver.
Qed.

Lemma drive_parent_frame cst parent d : frame parent (drive_parent cst parent d).
Proof.
  unfold drive_parent. destruct (dr_parent_signal d) as [i|]; [|done].
  destruct (dr_src_is_literal d); [apply drive_signal_next_frame|].
  destruct (vget _ _); [apply drive_signal_next_frame|done].
Qed.

Lemma propagate_child_to_parent_frame child parent : frame parent (propagate_child_to_parent child parent).
Proof.
  unfold propagate_child_to_parent. destruct (is_mod child); [|done].
  generalize (is_output_drives child). intros l. revert parent.
  induction l as [|d l IH]; intros parent; simpl; [done|]. etrans; [apply drive_parent_frame|apply IH].
Qed.

Lemma drive_outputs_frame parent l : frame parent (drive_outputs parent l).
Proof.
  revert parent. induction l as [|c l IH]; intros parent; simpl; [done|].
  etrans; [apply propagate_child_to_parent_frame|apply IH].
Qed.

(** *** Initial blocks *)

Lemma try_schedule_linear_ok fuel arena root cursor st :
  stmts_acyclic arena -> state_inv st -> enough_fuel arena root fuel ->
  exists ok cursor' st', try_schedule_linear fuel arena root cursor st = Some (ok, cursor', st')
    /\ runs st st' /\ state_inv st'.
Proof.
  intros Hac. revert root cursor st. induction fuel as [|fuel IH]; intros root cursor st Hi [Hf Hfi]; [lia|].
  simpl. destruct root as [i|]; simpl; [|by do 3 eexists].
  destruct (arena !! i) as [n|] eqn:Hn; [|by do 3 eexists].
  pose proof (lookup_lt_Some _ _ _ Hn) as Hlt. specialize (Hfi i eq_refl Hlt).
  assert (Hblock : forall l, (forall r, r ∈ l -> r ∈ stmt_children n) -> forall cursor st, state_inv st ->
    exists ok cursor' st', (fix go (l : list index) (cursor : Z) (st : module_state) :=
                 match l with
                 | [] => Some (true, cursor, st)
                 | sub :: l =>
                     '(ok, cursor, st) ← try_schedule_linear fuel arena sub cursor st;
                     if ok : bool then go l cursor st else Some (false, cursor, st)
                 end) l cursor st = Some (ok, cursor', st') /\ runs st st' /\ state_inv st').
  { induction l as [|r l IHl]; intros Hl cur s Hs; [by do 3 eexists|].
    destruct (IH r cur s Hs) as (ok & cur1 & s1 & -> & Hr1 & Hs1).
    { split; [lia|]. intros j -> Hj. assert (j < i) by (apply (Hac i n j Hn), Hl; set_solver). lia. }
    simpl. destruct ok; [|by do 3 eexists].
    destruct (IHl ltac:(set_solver) cur1 s1 Hs1) as (ok2 & cur2 & s2 & -> & Hr2 & Hs2).
    do 3 eexists. split_and!; [done|by etrans|done]. }
  assert (Hch : forall r, r ∈ sn_stmts n -> r ∈ stmt_children n) by (unfold stmt_children; set_solver).
  destruct (sn_k n); try (by do 3 eexists); try (by apply Hblock);
    (do 3 eexists; split; [done|]; by apply push_event_ok).
Qed.

Lemma schedule_roots_ok arena roots linear cursor st :
  stmts_acyclic arena -> state_inv st ->
  exists ok st', schedule_roots arena roots linear cursor st = Some (ok, st') /\ runs st st' /\ state_inv st'.
Proof.
  intros Hac. revert linear cursor st. induction roots as [|r roots IH]; intros linear cursor st Hi; [by do 2 eexists|].
  cbn [schedule_roots].
  destruct (try_schedule_linear_ok (S (S (length arena))) arena r cursor st Hac Hi (enough_fuel_arena arena r))
    as (ok & cur & st1 & -> & Hr & Hi1). cbn [mbind option_bind].
  destruct ok; [|by do 2 eexists]. destruct (IH true cur st1 Hi1) as (ok & st2 & -> & Hr2 & Hi2).
  do 2 eexists. split_and!; [done|by etrans|done].
Qed.

Lemma run_initial_ok m st ib :
  stmts_acyclic (ib_stmt_nodes ib) -> state_inv st ->
  exists st', run_initial m st ib = Some st' /\ runs st st' /\ state_inv st'.
Proof.
  intros Hac Hi. unfold run_initial.
  destruct (schedule_roots_ok (ib_stmt_nodes ib) (ib_roots ib) false 0 st Hac Hi) as (ok & st1 & -> & Hr & Hi1). simpl.
  destruct ok; [by exists st1|].
  destruct (exec_roots_step m (ib_stmt_nodes ib) (ib_roots ib) (st_initial_base_tick st1) false st1 Hac Hi1)
    as (c & st2 & -> & Hr2 & Hi2 & _). simpl. exists st2. split_and!; [done|by etrans|done].
Qed.

Lemma run_initials_ok inst tick :
  node_ok inst -> exists inst', run_initials inst tick = Some inst' /\ frame inst inst'.
Proof.
  intros [Hi Hm]. unfold run_initials. destruct (with_nba_ok (is_state inst) [] Hi) as [Hr0 Hi0].
  assert (Hid : frame inst (with_inst_state inst (with_nba (is_state inst) []))) by (by apply runs_frame).
  destruct (is_mod inst) as [m|]; [|by eexists]. destruct (st_mod _) as [sm|]; [|by eexists].
  destruct (st_initial_ran _); [by eexists|].
  destruct (fold_runs (run_initial m) (cm_initials m) (with_initial_ran (with_nba (is_state inst) []) tick))
    as (st & -> & [] & Hi'); [|by apply with_initial_ran_inv|].
  - intros ib st Hin Hs. apply run_initial_ok; [|done]. by apply (mo_initials m (Hm m eq_refl)).
  - simpl. eexists. split; [done|]. by apply frame_state.
Qed.

Lemma process_due_events_ok st tick :
  state_inv st -> exists st', process_due_events st tick = Some st' /\ runs st st' /\ state_inv st'.
Proof.
  intros Hi. unfold process_due_events. destruct (st_mod st) as [m|]; [|by exists st]. rewrite run_events_split.
  destruct (run_event_list_step m (filter (due tick) (st_events st)) st Hi) as (st1 & -> & Hr & Hi1). simpl.
  destruct (with_events_ok st1 (filter (fun e => ~ due tick e) (st_events st)) Hi1) as [Hr2 Hi2].
  eexists. split_and!; [done|by etrans|done].
Qed.

(** *** The shape of a tree, which no operation changes *)

#[warnings="-register-all"]
Inductive shape := mk_shape {
  sh_mod : option compiled_module;
  sh_bindings : list port_binding;
  sh_outputs : list port_drive;
  sh_flags : list bool;
  sh_children : list shape;
}.

Fixpoint shape_of (inst : instance_state) : shape :=
  let 'mk_inst m _ st d b o c := inst in
  mk_shape m b o ((fun i => is_driven d (Some i)) <$> seq 0 (length (st_values st))) (map shape_of c).

Lemma shape_of_eq inst :
  shape_of inst = mk_shape (is_mod inst) (is_bindings inst) (is_output_drives inst) (driven_flags inst) (map shape_of (is_children inst)).
Proof. by destruct inst. Qed.

Lemma frame_shape inst inst' : frame inst inst' -> shape_of inst' = shape_of inst.
Proof. intros []. rewrite !shape_of_eq. congruence. Qed.

Lemma with_inst_state_shape c st :
  length (st_values st) = length (st_values (is_state c)) -> shape_of (with_inst_state c st) = shape_of c.
Proof. intros Hl. rewrite !shape_of_eq. unfold driven_flags. simpl. by rewrite Hl. Qed.

(** *** The tree *)

Lemma tree_ok_state n inst st : tree_ok n inst -> state_inv st -> tree_ok n (with_inst_state inst st).
Proof. destruct n; [done|]. intros [[_ Hm] Hc] Hi. by split. Qed.

Lemma tree_ok_inv n inst : tree_ok n inst -> state_inv (is_state inst).
Proof. destruct n; [done|]. by intros [[] _]. Qed.

Lemma pass_children_ok pass n parent l :
  (forall c, tree_ok n c -> exists c', pass c = Some c' /\ tree_ok n c' /\ shape_of c' = shape_of c) ->
  state_inv (is_state parent) -> Forall (tree_ok n) l ->
  exists st l', pass_children pass parent l = Some (with_inst_state parent st, l') /\ Forall (tree_ok n) l'
    /\ eval_only (is_state parent) st /\ state_inv st /\ map shape_of l' = map shape_of l.
Proof.
  intros Hpass. revert parent. induction l as [|c l IH]; intros parent Hp Hl; cbn [pass_children].
  { exists (is_state parent), []. split_and!; [by destruct parent|done..]. }
  apply Forall_cons in Hl as [Hc Hl]. pose proof (tree_ok_inv _ _ Hc) as Hci.
  destruct (propagate_parent_to_child_ok parent c Hp Hci) as (ch & st1 & cst & -> & Ho1 & Hi1 & _ & Hr & Hci1 & _).
  cbn [mbind option_bind].
  destruct (Hpass (with_inst_state c cst)) as (c' & -> & Hc' & Hs'); [by apply tree_ok_state|]. cbn [mbind option_bind].
  rewrite with_inst_state_shape in Hs' by apply Hr.
  destruct (IH (with_inst_state parent st1) Hi1 Hl) as (st2 & l' & -> & Hl' & Ho2 & Hi2 & Hsl). simpl in *.
  exists st2, (c' :: l'). split_and!; [done|by constructor|by etrans|done|].
  simpl. by rewrite Hsl, Hs'.
Qed.

Lemma sequential_pass_ok fuel inst tick ps :
  tree_ok fuel inst ->
  exists inst', sequential_pass fuel inst tick ps = Some inst' /\ tree_ok fuel inst' /\ shape_of inst' = shape_of inst.
Proof.
  revert inst. induction fuel as [|fuel IH]; intros inst; [done|]. intros [Hn Hc]. cbn [sequential_pass].
  destruct (run_initials_ok inst tick Hn) as (i1 & -> & Hf1). cbn [mbind option_bind].
  pose proof (frame_node _ _ Hf1 Hn) as Hn1.
  destruct (process_due_events_ok (is_state i1) tick (no_state _ Hn1)) as (st2 & -> & Hr2 & Hi2). cbn [mbind option_bind].
  assert (Hf2 : frame inst (with_inst_state i1 st2)) by (etrans; [done|by apply runs_frame]).
  pose proof (frame_node _ _ Hf2 Hn) as Hn2.
  assert (Hs : exists i3, (if ps then run_sequential (with_inst_state i1 st2) tick else Some (with_inst_state i1 st2)) = Some i3
    /\ frame inst i3).
  { destruct ps; [|by eexists]. destruct (run_sequential_ok _ tick Hn2) as (i3 & -> & Hf3). exists i3. split; [done|by etrans]. }
  destruct Hs as (i3 & -> & Hf3). cbn [mbind option_bind]. pose proof (frame_node _ _ Hf3 Hn) as Hn3.
  destruct (pass_children_ok (fun c => sequential_pass fuel c tick ps) fuel i3 (is_children i3))
    as (st4 & l' & -> & Hl' & Ho4 & Hi4 & Hsl); [by intros; apply IH|by apply Hn3|by rewrite (fr_children _ _ Hf3)|].
  cbn [mbind option_bind]. eexists. split; [done|]. split; [split; [split; [done|by apply (no_module _ Hn3)]|done]|].
  rewrite <- (frame_shape _ _ Hf3), !shape_of_eq. unfold driven_flags. simpl.
  by rewrite Hsl, (eval_only_values _ _ Ho4).
Qed.

Lemma propagate_inputs_ok n parent l changed :
  state_inv (is_state parent) -> Forall (tree_ok n) l ->
  exists c st l', propagate_inputs parent l changed = Some (c, with_inst_state parent st, l') /\ Forall (tree_ok n) l'
    /\ eval_only (is_state parent) st /\ state_inv st.
Proof.
  revert parent changed. induction l as [|x l IH]; intros parent changed Hp Hl; cbn [propagate_inputs].
  { exists changed, (is_state parent), []. split_and!; [by destruct parent|done..]. }
  apply Forall_cons in Hl as [Hx Hl]. pose proof (tree_ok_inv _ _ Hx) as Hxi.
  destruct (propagate_parent_to_child_ok parent x Hp Hxi) as (c1 & st1 & cst & -> & Ho1 & Hi1 & _ & _ & Hci & _).
  cbn [mbind option_bind].
  destruct (IH (with_inst_state parent st1) (c1 || changed) Hi1 Hl) as (c2 & st2 & l' & -> & Hl' & Ho2 & Hi2).
  simpl in *. exists c2, st2, (with_inst_state x cst :: l'). split_and!; [done| |by etrans|done].
  constructor; [|done]. by apply tree_ok_state.
Qed.

Lemma resolve_children_ok resolve n l changed :
  (forall c, tree_ok n c -> exists b c', resolve c = Some (b, c') /\ tree_ok n c') -> Forall (tree_ok n) l ->
  exists b l', resolve_children resolve l changed = Some (b, l') /\ Forall (tree_ok n) l'.
Proof.
  intros Hres. revert changed. induction l as [|x l IH]; intros changed Hl; cbn [resolve_children]; [by exists changed, []|].
  apply Forall_cons in Hl as [Hx Hl]. destruct (Hres x Hx) as (b & x' & -> & Hx'). cbn [mbind option_bind].
  destruct (IH (b || changed) Hl) as (b2 & l' & -> & Hl'). simpl. exists b2, (x' :: l'). split; [done|by constructor].
Qed.

Lemma apply_nba_frame inst :
  state_inv (is_state inst) -> frame inst (with_inst_state inst (snd (apply_nba (is_state inst)))).
Proof.
  intros Hi. pose proof (apply_nba_ok (is_state inst) Hi) as Ha. destruct (apply_nba (is_state inst)) as [c st].
  destruct Ha as (Hr & Hi' & _). by apply runs_frame.
Qed.

(** The module of an instance and the number of its signals. *)
Definition kind_of (inst : instance_state) : option compiled_module * nat := (is_mod inst, length (st_values (is_state inst))).

Lemma frame_kind inst inst' : frame inst inst' -> kind_of inst' = kind_of inst.
Proof. intros []. unfold kind_of. congruence. Qed.

(** The parts of a node that a delta keeps. *)
Lemma comb_delta_ok resolve n inst tick token any :
  (forall c, tree_ok n c -> exists b c', resolve c = Some (b, c') /\ tree_ok n c') ->
  node_ok inst -> Forall (tree_ok n) (is_children inst) ->
  exists b inst', comb_delta resolve inst tick token any = Some (b, inst') /\ node_ok inst'
    /\ Forall (tree_ok n) (is_children inst') /\ kind_of inst' = kind_of inst.
Proof.
  intros Hres Hn Hc. unfold comb_delta. pose proof (prepare_net_drives_frame inst) as Hf1.
  set (i1 := prepare_net_drives inst) in *. pose proof (frame_node _ _ Hf1 Hn) as Hn1.
  destruct (propagate_inputs_ok n i1 (is_children i1) false) as (c2 & st2 & l2 & -> & Hl2 & Ho2 & Hi2);
    [apply Hn1|by rewrite (fr_children _ _ Hf1)|]. cbn [mbind option_bind].
  destruct (resolve_children_ok resolve n l2 c2 Hres Hl2) as (c3 & l3 & -> & Hl3). cbn [mbind option_bind].
  set (i3 := with_children _ l3).
  assert (Hn3 : node_ok i3 /\ is_children i3 = l3 /\ kind_of i3 = kind_of inst).
  { pose proof (drive_outputs_frame (with_inst_state i1 st2) l3) as Hf3. split; [|split; [done|]].
    2:{ rewrite <- (frame_kind _ _ Hf1). change (kind_of i3) with (kind_of (drive_outputs (with_inst_state i1 st2) l3)).
        rewrite (frame_kind _ _ Hf3). unfold kind_of. simpl. by rewrite (eval_only_values _ _ Ho2). }
    assert (Hn2 : node_ok (with_inst_state i1 st2)) by (split; [done|apply Hn1]).
    apply (frame_node _ _ Hf3) in Hn2 as [Hs Hm]. by split. }
  destruct Hn3 as (Hn3 & Hc3 & Hk3). destruct (run_comb_local_ok i3 tick token any Hn3) as (c4 & i4 & -> & Hf4).
  cbn [mbind option_bind]. pose proof (frame_node _ _ Hf4 Hn3) as Hn4.
  pose proof (apply_net_drives_frame i4 (no_state _ Hn4)) as Hf5. destruct (apply_net_drives i4) as [c5 i5]. simpl in Hf5.
  pose proof (frame_node _ _ Hf5 Hn4) as Hn5. pose proof (apply_nba_frame i5 (no_state _ Hn5)) as Hf6.
  destruct (apply_nba (is_state i5)) as [c6 st6]. simpl in Hf6. eexists _, _. split; [done|].
  split; [by eapply frame_node|].
  split; [rewrite (fr_children _ _ Hf6), (fr_children _ _ Hf5), (fr_children _ _ Hf4); by rewrite Hc3|].
  by rewrite (frame_kind _ _ Hf6), (frame_kind _ _ Hf5), (frame_kind _ _ Hf4).
Qed.

Lemma comb_loop_ok resolve n iters inst tick token any changed :
  (forall c, tree_ok n c -> exists b c', resolve c = Some (b, c') /\ tree_ok n c') ->
  epoch_inv (is_state inst) -> (forall m, is_mod inst = Some m -> module_ok m) -> Forall (tree_ok n) (is_children inst) ->
  0 < iters ->
  exists b inst', comb_loop resolve iters inst tick token any changed = Some (b, inst') /\ node_ok inst'
    /\ Forall (tree_ok n) (is_children inst') /\ kind_of inst' = kind_of inst.
Proof.
  intros Hres. revert inst token any changed. induction iters as [|iters IH]; intros inst token any changed He Hm Hc Hlt; [lia|].
  cbn [comb_loop]. pose proof (begin_change_epoch_ok (is_state inst) He) as Hb.
  destruct (begin_change_epoch (is_state inst)) as [rec st]. destruct Hb as (Hi & _ & _ & _ & Hv & _).
  destruct (comb_delta_ok resolve n (with_inst_state inst st) tick token any Hres) as (b & i2 & -> & Hn2 & Hc2 & Hk2);
    [by split|done|]. cbn [mbind option_bind].
  assert (Hk : kind_of i2 = kind_of inst) by (rewrite Hk2; unfold kind_of; simpl; by rewrite Hv).
  destruct b; simpl; [|by eexists _, i2]. destruct iters as [|iters]; [by eexists _, i2|]. rewrite <- Hk.
  apply IH; [by apply state_epoch_inv, Hn2|apply Hn2|done|lia].
Qed.

Lemma initial_triggers_ok st :
  state_inv st ->
  let '(_, _, st') := initial_triggers st in
  epoch_inv st' /\ st_values st' = st_values st /\ st_mod st' = st_mod st.
Proof.
  intros Hi. unfold initial_triggers.
  set (st1 := if bool_decide _ then _ else st).
  assert (Hi1 : state_inv st1) by (unfold st1; case_bool_decide; [by apply with_prev_inv|done]).
  assert (Hv1 : st_values st1 = st_values st /\ st_mod st1 = st_mod st) by (unfold st1; by case_bool_decide).
  destruct Hv1 as [Hv1 Hm1]. set (st2 := with_change st1 _ _ _ _).
  assert (He2 : epoch_inv st2).
  { destruct Hi1 as [He1 [Ht Hm _ _ _]]. split; [by destruct He1|done|]. simpl. unfold sized_marks.
    case_bool_decide; [apply Forall_grow; [lia|done]|done]. }
  pose proof (begin_change_epoch_ok st2 He2) as Hb. destruct (begin_change_epoch st2) as [token st3].
  destruct Hb as (Hi3 & Ht3 & _ & Ho3 & Hv3 & _).
  assert (Hm3 : st_mod st3 = st_mod st) by (by rewrite Ho3).
  set (st4 := with_change st3 _ _ _ _).
  assert (He4 : epoch_inv st4).
  { destruct Hi3 as [He3 [Ht Hm _ _ _]]. split; [by destruct He3|done|]. simpl.
    apply Forall_lookup. intros i k. rewrite list_lookup_imap.
    destruct (st_change_mark st3 !! i) as [k0|] eqn:Hk; simpl; [|done]. intros [= <-].
    rewrite Forall_lookup in Hm. match goal with |- context [if ?b then _ else _] => destruct b end; [subst; lia|by eapply Hm]. }
  change (st_comb_initialized st4) with (st_comb_initialized st3).
  destruct (st_comb_initialized st3); (split_and!; [|by simpl; rewrite Hv3|done]); [done|].
  destruct He4 as [[] ? ?]. split; [by split|done|done].
Qed.

Lemma comb_resolve_ok fuel inst tick :
  tree_ok fuel inst ->
  exists b inst', comb_resolve fuel inst tick = Some (b, inst') /\ tree_ok fuel inst' /\ kind_of inst' = kind_of inst.
Proof.
  revert inst. induction fuel as [|fuel IH]; intros inst; [done|]. intros [Hn Hc]. cbn [comb_resolve].
  destruct (is_mod inst) as [m|] eqn:Hm; [|by exists false, inst].
  pose proof (initial_triggers_ok (is_state inst) (no_state _ Hn)) as Ht.
  destruct (initial_triggers (is_state inst)) as [[token any] st]. destruct Ht as (He & Hv & _).
  destruct (comb_loop_ok (fun c => comb_resolve fuel c tick) fuel comb_max_iter (with_inst_state inst st) tick token any false)
    as (b & i2 & -> & Hn2 & Hc2 & Hk2); [intros c Hcok; destruct (IH c Hcok) as (b & c' & ? & ? & _); eauto|done|by apply (no_module _ Hn)|done|unfold comb_max_iter; lia|].
  cbn [mbind option_bind]. eexists _, _. split; [done|]. split.
  { split; [|done]. split; [apply with_prev_inv, Hn2|]. by apply (no_module _ Hn2). }
  change (kind_of i2 = kind_of inst). rewrite Hk2. unfold kind_of. simpl. by rewrite Hv.
Qed.

Lemma update_prev_ok n inst : tree_ok n inst -> tree_ok n (update_prev_recursive inst).
Proof.
  revert inst. induction n as [|n IH]; intros [m nm st d b o c]; [done|]. intros [[Hs Hm] Hc]. simpl.
  split; [split; [by apply with_prev_inv|done]|]. apply Forall_fmap. eapply Forall_impl; [done|]. by intros x; apply IH.
Qed.
