(* ===== verification/VSettle.v ===== *)
(** * Verilog: what a settled design satisfies

    [comb_resolve] iterates deltas until one changes nothing or 64 have run.
    A tree of instances whose last delta changed nothing is consistent: every
    net with internal drivers has the resolution of its drivers, continuous
    assignments and outputs of children, evaluated in the final values, and
    every input port of every child has the value its binding has in the
    parent.  The tree has to drive nets only: a continuous assignment to a
    variable is performed without being reported as a change, and the loop
    may then stop too early, which is shown at the end. *)

From S2P Require Import Prelude Logic4 VModule VEval VExec VSim.
From Stdlib Require Import ZArith Lia.

(** ** Drivers of a net *)

(** What one output of a child drives. *)
Definition child_drive (cst : module_state) (d : port_drive) : option (nat * dns) :=
  i ← dr_parent_signal d;
  v ← (if dr_src_is_literal d then Some (dr_literal d) else vget (st_values cst) (dr_child_signal d));
  Some (i, v).

Definition child_drives (c : instance_state) : list (nat * dns) :=
  match is_mod c with None => [] | Some _ => omap (child_drive (is_state c)) (is_output_drives c) end.

(** What one continuous assignment drives, given the values. *)
Definition assign_drive (m : compiled_module) (values : list dns) (a : continuous_assign) : option (nat * dns) :=
  i ← ca_lhs_signal a;
  let go := match ca_guard_root a with
            | None => true
            | Some _ => bool_decide (normalize_z_to_x (ev values (cm_expr_nodes m) (ca_guard_root a)) = true_state)
            end in
  if go then Some (i, ev values (cm_expr_nodes m) (ca_expr_root a)) else None.

Definition all_drives (m : compiled_module) (inst : instance_state) : list (nat * dns) :=
  mjoin (child_drives <$> is_children inst) ++ omap (assign_drive m (st_values (is_state inst))) (cm_assigns m).

(** The values driven on one net. *)
Definition net_drivers (l : list (nat * dns)) (i : nat) : list dns := snd <$> filter (fun p => fst p = i) l.

(** ** Consistency *)

(** A net the instance drives. *)
Definition driven_net (m : compiled_module) (inst : instance_state) (i : nat) : Prop :=
  i < length (st_values (is_state inst)) /\ is_driven (is_driven_nets inst) (Some i) = true /\ is_reg m (Some i) = false.

Definition nets_consistent (inst : instance_state) : Prop :=
  forall m i, is_mod inst = Some m -> driven_net m inst i ->
    st_values (is_state inst) !! i = Some (resolve_all (net_drivers (all_drives m inst) i)).

(** The value a binding has in the parent. *)
Definition bound_value (parent : instance_state) (b : port_binding) : dns :=
  match pb_k b with
  | pb_parent_signal => read_signal (st_values (is_state parent)) (pb_signal b)
  | pb_literal => pb_lit b
  | pb_parent_expr_root =>
      match is_mod parent with
      | Some pm => ev (st_values (is_state parent)) (cm_expr_nodes pm) (pb_expr_root b)
      | None => indeterminate_state
      end
  | pb_unconnected => indeterminate_state
  end.

Definition ports_consistent (parent child : instance_state) : Prop :=
  forall cm p b, is_mod child = Some cm -> length (cm_ports cm) <= length (is_bindings child) ->
    (p, b) ∈ zip (cm_ports cm) (is_bindings child) -> port_direction p ≠ dir_output ->
    is_Some (vget (st_values (is_state child)) (port_signal p)) ->
    vget (st_values (is_state child)) (port_signal p) = Some (bound_value parent b).

(** The whole tree, of height at most [n]. *)
Fixpoint consistent (n : nat) (inst : instance_state) : Prop :=
  match n with
  | O => False
  | S n =>
      is_mod inst = None \/
      nets_consistent inst /\ Forall (fun c => ports_consistent inst c /\ consistent n c) (is_children inst)
  end.

(** ** Trees that drive nets only *)

Record nets_only (inst : instance_state) : Prop := {
  nn_acyclic : forall m, is_mod inst = Some m -> acyclic (cm_expr_nodes m);
  nn_assigns : forall m a i, is_mod inst = Some m -> a ∈ cm_assigns m -> ca_lhs_signal a = Some i ->
    i < length (st_values (is_state inst)) -> driven_net m inst i;
  nn_outputs : forall m c d i, is_mod inst = Some m -> c ∈ is_children inst -> d ∈ is_output_drives c ->
    dr_parent_signal d = Some i -> i < length (st_values (is_state inst)) -> driven_net m inst i;
}.

Definition tree_nets : nat -> instance_state -> Prop := tree_all nets_only.

(** ** The drives of one delta *)

Lemma resolve_all_snoc l v : resolve_all (l ++ [v]) = resolve_net_drivers (resolve_all l) v.
Proof.
  induction l as [|a l IH]; [by destruct v|]. simpl in *. rewrite IH. by rewrite resolve_assoc.
Qed.

Lemma net_drivers_app l1 l2 i : net_drivers (l1 ++ l2) i = net_drivers l1 i ++ net_drivers l2 i.
Proof. unfold net_drivers. by rewrite filter_app, fmap_app. Qed.

(** [inst] is [base] after the drives [l], the first of them being the reset
    of the nets to [Z]. *)
Record driven_by (l : list (nat * dns)) (base inst : instance_state) : Prop := {
  db_mod : is_mod inst = is_mod base;
  db_bindings : is_bindings inst = is_bindings base;
  db_outputs : is_output_drives inst = is_output_drives base;
  db_children : is_children inst = is_children base;
  db_driven : is_driven_nets inst = is_driven_nets base;
  db_values : st_values (is_state inst) = st_values (is_state base);
  db_inv : state_inv (is_state inst);
  db_next_length : length (st_values (is_state base)) <= length (st_next_net_values (is_state inst));
  db_driven_length : length (st_values (is_state base)) <= length (is_driven_nets base);
  db_next : forall i, i < length (st_values (is_state base)) -> is_driven (is_driven_nets base) (Some i) = true ->
    st_next_net_values (is_state inst) !! i = Some (resolve_all (net_drivers l i));
}.

Lemma prepare_driven_by inst :
  state_inv (is_state inst) -> is_Some (is_mod inst) -> driven_by [] (prepare_net_drives inst) (prepare_net_drives inst).
Proof.
  intros Hi [m Hm]. pose proof (fr_inv _ _ (prepare_net_drives_frame inst) Hi) as Hi'.
  unfold prepare_net_drives in *. rewrite Hm in *. split; simpl; try done.
  - clear. rewrite length_imap. case_bool_decide; [rewrite length_grow; lia|lia].
  - clear. case_bool_decide; [rewrite length_grow; lia|lia].
  - clear Hi'. intros i Hlt Hd. rewrite list_lookup_imap. set (next := if bool_decide _ then _ else st_next_net_values _).
    destruct (lookup_lt_is_Some_2 next i) as [v ->].
    { clear Hd. unfold next. case_bool_decide; [rewrite length_grow; lia|lia]. }
    simpl. rewrite Hd, bool_decide_true by done. done.
Qed.

Lemma driven_by_state l base inst st :
  driven_by l base inst -> runs (is_state inst) st -> state_inv st -> st_values st = st_values (is_state inst) ->
  driven_by l base (with_inst_state inst st).
Proof.
  intros [] Hr Hi Hv. split; simpl; try done; [congruence| |].
  - by rewrite (rn_next_net _ _ Hr).
  - intros i Hlt Hd. rewrite (rn_next_net _ _ Hr). by apply db_next0.
Qed.

Lemma driven_by_drive l base inst m i v :
  driven_by l base inst -> is_mod base = Some m ->
  (i < length (st_values (is_state base)) -> driven_net m base i) ->
  driven_by (l ++ [(i, v)]) base (drive_signal_next inst (Some i) v).
Proof.
  intros Hdb Hm Hnet. destruct Hdb. unfold drive_signal_next. rewrite db_mod0, Hm. simpl. rewrite db_values0.
  destruct (st_values (is_state base) !! i) as [x|] eqn:Hx.
  - destruct Hnet as (Hlt & Hd & Hr); [by eapply lookup_lt_Some|]. rewrite Hr. rewrite db_driven0, Hd. simpl.
    rewrite bool_decide_false by lia. split; simpl; try done; [by apply with_next_net_inv|by rewrite length_alter|].
    intros j Hj Hdj. rewrite net_drivers_app. unfold net_drivers at 2. rewrite filter_cons. simpl.
    destruct (decide (i = j)) as [->|Hne].
    + rewrite list_lookup_alter_eq, db_next0 by done. simpl. by rewrite resolve_all_snoc.
    + rewrite list_lookup_alter_ne by done. simpl. rewrite app_nil_r. by apply db_next0.
  - split; try done. intros j Hj Hdj. rewrite net_drivers_app. unfold net_drivers at 2. rewrite filter_cons. simpl.
    apply lookup_ge_None in Hx. rewrite decide_False by lia. simpl. rewrite app_nil_r. by apply db_next0.
Qed.

Lemma drive_parent_driven l base inst m c d :
  driven_by l base inst -> is_mod base = Some m ->
  (forall i, dr_parent_signal d = Some i -> i < length (st_values (is_state base)) -> driven_net m base i) ->
  driven_by (l ++ option_list (child_drive (is_state c) d)) base (drive_parent (is_state c) inst d).
Proof.
  intros Hdb Hm Hnet. unfold drive_parent, child_drive. destruct (dr_parent_signal d) as [i|]; simpl; [|by rewrite app_nil_r].
  destruct (dr_src_is_literal d); simpl; [by eapply driven_by_drive; auto|].
  destruct (vget _ _) as [v|]; simpl; [by eapply driven_by_drive; auto|by rewrite app_nil_r].
Qed.

Lemma omap_cons_app {A B} (f : A -> option B) x l : omap f (x :: l) = option_list (f x) ++ omap f l.
Proof. simpl. by destruct (f x). Qed.

Lemma drive_child_driven l base inst m c :
  driven_by l base inst -> is_mod base = Some m ->
  (forall d i, d ∈ is_output_drives c -> dr_parent_signal d = Some i ->
     i < length (st_values (is_state base)) -> driven_net m base i) ->
  driven_by (l ++ child_drives c) base (propagate_child_to_parent c inst).
Proof.
  intros Hdb Hm. unfold propagate_child_to_parent, child_drives. destruct (is_mod c); [|by rewrite app_nil_r].
  generalize (is_output_drives c). intros ds. revert l inst Hdb.
  induction ds as [|d ds IH]; intros l inst Hdb Hnet; [by rewrite app_nil_r|].
  rewrite omap_cons_app, app_assoc. simpl. apply IH; [|intros x j Hx; apply Hnet; set_solver].
  eapply drive_parent_driven; [done|done|]. intros i. apply Hnet. set_solver.
Qed.

Lemma drive_outputs_driven l base inst m cs :
  driven_by l base inst -> is_mod base = Some m ->
  (forall c d i, c ∈ cs -> d ∈ is_output_drives c -> dr_parent_signal d = Some i ->
     i < length (st_values (is_state base)) -> driven_net m base i) ->
  driven_by (l ++ mjoin (child_drives <$> cs)) base (drive_outputs inst cs).
Proof.
  intros Hdb Hm. revert l inst Hdb. induction cs as [|c cs IH]; intros l inst Hdb Hnet; simpl; [by rewrite app_nil_r|].
  rewrite app_assoc. apply IH; [|intros x y j Hx; apply Hnet; set_solver].
  eapply drive_child_driven; [done|done|]. intros d i. apply Hnet. set_solver.
Qed.

Lemma run_assign_driven l base inst m a :
  driven_by l base inst -> is_mod base = Some m -> acyclic (cm_expr_nodes m) ->
  (forall i, ca_lhs_signal a = Some i -> i < length (st_values (is_state base)) -> driven_net m base i) ->
  exists inst', run_assign m inst a = Some inst'
    /\ driven_by (l ++ option_list (assign_drive m (st_values (is_state base)) a)) base inst'.
Proof.
  intros Hdb Hm Hac Hnet. unfold run_assign. set (values := st_values (is_state base)).
  set (go := match ca_guard_root a with
             | None => true
             | Some _ => bool_decide (normalize_z_to_x (ev values (cm_expr_nodes m) (ca_guard_root a)) = true_state)
             end).
  assert (Hg : exists st1, match ca_guard_root a with
      | None => Some (true, inst)
      | Some _ => '(t, st) ← test m (ca_guard_root a) (is_state inst); Some (t, with_inst_state inst st)
      end = Some (go, with_inst_state inst st1) /\ eval_only (is_state inst) st1 /\ state_inv st1).
  { unfold go. destruct (ca_guard_root a) as [g|].
    - destruct (test_step m (Some g) (is_state inst) (db_inv _ _ _ Hdb)) as (t & st1 & -> & ? & ? & Ht). simpl.
      rewrite (Ht Hac), (db_values _ _ _ Hdb). eauto 6.
    - exists (is_state inst). split_and!; [by destruct inst|done|apply Hdb]. }
  destruct Hg as (st1 & -> & Ho & Hi1). simpl.
  assert (Hdb1 : driven_by l base (with_inst_state inst st1)).
  { apply driven_by_state; [done|by apply eval_only_runs|done|by apply eval_only_values]. }
  assert (Had : assign_drive m values a
    = (i ← ca_lhs_signal a; if go then Some (i, ev values (cm_expr_nodes m) (ca_expr_root a)) else None)) by done.
  destruct go; simpl.
  - destruct (eval_cached_step m (ca_expr_root a) st1 Hi1) as (v & st2 & -> & Ho2 & Hi2 & Hv). simpl.
    rewrite (eval_only_values _ _ Ho), (db_values _ _ _ Hdb) in Hv. rewrite (Hv Hac) in *.
    eexists. split; [done|].
    assert (Hdb2 : driven_by l base (with_inst_state (with_inst_state inst st1) st2)).
    { apply driven_by_state; [done|by apply eval_only_runs|done|by apply eval_only_values]. }
    rewrite Had. destruct (ca_lhs_signal a) as [i|]; simpl.
    + eapply (driven_by_drive l base); [done|done|]. by apply Hnet.
    + rewrite app_nil_r. unfold drive_signal_next. simpl. by destruct (is_mod inst).
  - eexists. split; [done|]. rewrite Had. destruct (ca_lhs_signal a); simpl; by rewrite app_nil_r.
Qed.

Lemma run_assigns_driven l base inst m assigns :
  driven_by l base inst -> is_mod base = Some m -> acyclic (cm_expr_nodes m) ->
  (forall a i, a ∈ assigns -> ca_lhs_signal a = Some i -> i < length (st_values (is_state base)) -> driven_net m base i) ->
  exists inst', fold_option (run_assign m) assigns inst = Some inst'
    /\ driven_by (l ++ omap (assign_drive m (st_values (is_state base))) assigns) base inst'.
Proof.
  intros Hdb Hm Hac. revert l inst Hdb. induction assigns as [|a assigns IH]; intros l inst Hdb Hnet.
  { exists inst. simpl. by rewrite app_nil_r. }
  destruct (run_assign_driven l base inst m a Hdb Hm Hac) as (i1 & He & Hdb1).
  { intros i. apply Hnet. set_solver. }
  simpl fold_option. rewrite He. simpl fold_option. rewrite omap_cons_app, app_assoc. simpl.
  apply IH; [done|]. intros x j Hx. apply Hnet. set_solver.
Qed.

(** ** The nets a shape drives *)

Lemma length_driven_flags inst : length (driven_flags inst) = length (st_values (is_state inst)).
Proof. unfold driven_flags. by rewrite length_fmap, length_seq. Qed.

Lemma driven_net_flags m inst i :
  driven_net m inst i <-> driven_flags inst !! i = Some true /\ is_reg m (Some i) = false.
Proof.
  unfold driven_net, driven_flags. rewrite list_lookup_fmap. split.
  - intros (Hlt & Hd & Hr). split; [|done]. rewrite lookup_seq_lt by done. simpl. by f_equal.
  - intros [Hf Hr]. destruct (decide (i < length (st_values (is_state inst)))) as [Hlt|Hge].
    + rewrite lookup_seq_lt in Hf by done. simpl in Hf. naive_solver.
    + rewrite lookup_seq_ge in Hf by lia. done.
Qed.

Lemma shape_driven_net inst inst' m i : driven_flags inst' = driven_flags inst -> driven_net m inst i <-> driven_net m inst' i.
Proof. intros H. by rewrite !driven_net_flags, H. Qed.

Lemma nets_only_shape inst inst' : shape_of inst' = shape_of inst -> nets_only inst -> nets_only inst'.
Proof.
  rewrite !shape_of_eq. intros [= Hm _ _ Hf Hc] [Ha Has Ho].
  assert (Hl : length (st_values (is_state inst')) = length (st_values (is_state inst))) by (rewrite <- !length_driven_flags; by rewrite Hf).
  split; rewrite ?Hm, ?Hl; [done| |].
  - intros m a i Hmm Hin Hs Hi. apply (shape_driven_net inst inst'); [done|]. by eapply Has.
  - intros m c d i Hmm Hin Hd Hs Hi. apply (shape_driven_net inst inst'); [done|].
    assert (Hex : exists c0, c0 ∈ is_children inst /\ is_output_drives c0 = is_output_drives c).
    { assert (Hsc : shape_of c ∈ map shape_of (is_children inst)).
      { rewrite <- Hc. apply list_elem_of_fmap. eauto. }
      apply list_elem_of_fmap in Hsc as (c0 & He & Hin0). exists c0. split; [done|].
      rewrite !shape_of_eq in He. by injection He. }
    destruct Hex as (c0 & Hin0 & He0). eapply Ho; [done|done|by rewrite He0|done|done].
Qed.

Lemma map_shape_Forall n (P : nat -> instance_state -> Prop) cs cs' :
  (forall i i', shape_of i' = shape_of i -> P n i -> P n i') ->
  map shape_of cs' = map shape_of cs -> Forall (P n) cs -> Forall (P n) cs'.
Proof.
  intros HP. revert cs'. induction cs as [|c cs IH]; intros [|c' cs']; simpl; try done.
  intros [= Hc Hcs] Hf. apply Forall_cons in Hf as [Hx Hf]. constructor; [by eapply HP|by apply IH].
Qed.

Lemma tree_nets_shape n inst inst' : shape_of inst' = shape_of inst -> tree_nets n inst -> tree_nets n inst'.
Proof.
  revert inst inst'. induction n as [|n IH]; intros inst inst' Hs; [done|]. intros [Hn Hc].
  split; [by eapply nets_only_shape|]. rewrite !shape_of_eq in Hs. injection Hs as _ _ _ _ Hcs.
  by eapply map_shape_Forall.
Qed.

(** ** A delta that changes nothing *)

Lemma binding_value_bound parent b v parent' :
  state_inv (is_state parent) -> (forall pm, is_mod parent = Some pm -> acyclic (cm_expr_nodes pm)) ->
  binding_value parent b = Some (v, parent') -> v = bound_value parent b.
Proof.
  intros Hi Hac. unfold binding_value, bound_value. destruct (pb_k b); try (by intros [= <- _]).
  destruct (is_mod parent) as [pm|]; [|by intros [= <- _]]. destruct (pb_expr_root b) as [r|]; [|by intros [= <- _]].
  destruct (eval_cached_step pm (Some r) (is_state parent) Hi) as (v' & st & -> & _ & _ & Hv). simpl.
  intros [= <- _]. apply Hv. by apply Hac.
Qed.

Lemma bound_value_eq parent parent' b :
  is_mod parent' = is_mod parent -> st_values (is_state parent') = st_values (is_state parent) ->
  bound_value parent' b = bound_value parent b.
Proof. intros Hm Hv. unfold bound_value. by rewrite Hm, Hv. Qed.

Lemma assign_signal_quiet st sig v :
  fst (assign_signal st sig v) = false -> is_Some (vget (st_values st) sig) -> vget (st_values st) sig = Some v.
Proof.
  intros Hf [d Hd]. unfold assign_signal in Hf. destruct sig as [i|]; [|done]. simpl in *. rewrite Hd in *.
  case_bool_decide; [by subst|]. by case_bool_decide.
Qed.

Lemma propagate_ports_quiet l changed parent cst parent' cst' :
  state_inv (is_state parent) -> state_inv cst -> (forall pm, is_mod parent = Some pm -> acyclic (cm_expr_nodes pm)) ->
  propagate_ports l changed parent cst = Some (false, parent', cst') ->
  forall p b, (p, b) ∈ l -> port_direction p ≠ dir_output -> is_Some (vget (st_values cst) (port_signal p)) ->
    vget (st_values cst) (port_signal p) = Some (bound_value parent b).
Proof.
  revert changed parent cst. induction l as [|[p0 b0] l IH]; intros changed parent cst Hp Hc Hac He p b Hin Hdir Hs;
    [by apply elem_of_nil in Hin|]. cbn [propagate_ports] in He.
  case_bool_decide as Hd0.
  { apply elem_of_cons in Hin as [[= -> ->]|Hin]; [done|]. by eapply IH. }
  destruct (binding_value_ok parent b0 Hp) as (v & st1 & Hb & Ho1 & Hi1). rewrite Hb in He. cbn [mbind option_bind] in He.
  apply binding_value_bound in Hb; [|done|done]. subst v.
  pose proof (assign_signal_only cst (port_signal p0) (bound_value parent b0)) as Ho2.
  pose proof (assign_signal_change cst (port_signal p0) (bound_value parent b0) (si_change _ Hc)) as Hc2.
  pose proof (assign_signal_values cst (port_signal p0) (bound_value parent b0)) as Hv2.
  pose proof (assign_signal_quiet cst (port_signal p0) (bound_value parent b0)) as Hq.
  pose proof (proj1 (assign_signal_changed cst (port_signal p0) (bound_value parent b0))) as Hch.
  destruct (assign_signal cst (port_signal p0) (bound_value parent b0)) as [c cst1]. simpl in *.
  assert (Hi2 : state_inv cst1) by (by eapply change_only_state).
  destruct (propagate_ports_ok l (c || changed) (with_inst_state parent st1) cst1 Hi1 Hi2)
    as (c3 & st3 & cst3 & He3 & _ & _ & _ & _ & _ & Hz). rewrite He3 in He. injection He as -> <- <-.
  destruct (Hz eq_refl) as [Hz1 _]. apply orb_false_iff in Hz1 as [-> ->].
  apply elem_of_cons in Hin as [[= -> ->]|Hin]; [by apply Hq|].
  rewrite Hch in Hv2 by done. rewrite <- Hv2. rewrite <- (bound_value_eq parent (with_inst_state parent st1)); [|done|by apply eval_only_values].
  eapply IH; [| |done|exact He3|done|done|by rewrite Hv2]; [done|done].
Qed.

Lemma propagate_parent_to_child_quiet parent child parent' child' :
  state_inv (is_state parent) -> state_inv (is_state child) ->
  (forall pm, is_mod parent = Some pm -> acyclic (cm_expr_nodes pm)) ->
  propagate_parent_to_child parent child = Some (false, parent', child') -> ports_consistent parent child.
Proof.
  intros Hp Hc Hac. unfold propagate_parent_to_child, ports_consistent. intros He cm p b Hm Hl. rewrite Hm in He.
  rewrite bool_decide_false in He by lia.
  destruct (propagate_ports_ok (zip (cm_ports cm) (is_bindings child)) false parent (is_state child) Hp Hc)
    as (c & st & cst & He3 & _). rewrite He3 in He. simpl in He. injection He as -> _ _.
  by eapply propagate_ports_quiet.
Qed.

(** Two instances with the same values and the same ports. *)
Definition same_ports (c c' : instance_state) : Prop :=
  st_values (is_state c') = st_values (is_state c) /\ shape_of c' = shape_of c.

Lemma ports_consistent_eq parent parent' c c' :
  is_mod parent' = is_mod parent -> st_values (is_state parent') = st_values (is_state parent) ->
  same_ports c c' -> ports_consistent parent c -> ports_consistent parent' c'.
Proof.
  intros Hm Hv [Hcv Hcs] Hpc cm p b. rewrite !shape_of_eq in Hcs. injection Hcs as -> -> _ _ _. rewrite Hcv.
  rewrite (bound_value_eq parent parent') by done. apply Hpc.
Qed.

Lemma propagate_inputs_detail n parent l changed :
  state_inv (is_state parent) -> Forall (tree_ok n) l -> (forall pm, is_mod parent = Some pm -> acyclic (cm_expr_nodes pm)) ->
  exists c st l', propagate_inputs parent l changed = Some (c, with_inst_state parent st, l')
    /\ eval_only (is_state parent) st /\ state_inv st /\ Forall (tree_ok n) l' /\ map shape_of l' = map shape_of l
    /\ (c = false -> changed = false /\ Forall2 same_ports l l' /\ Forall (ports_consistent parent) l).
Proof.
  intros Hp Hl Hac. revert parent changed Hp Hac.
  induction l as [|x l IH]; intros parent changed Hp Hac; cbn [propagate_inputs].
  { exists changed, (is_state parent), []. split_and!; [by destruct parent|done..]. }
  apply Forall_cons in Hl as [Hx Hl]. pose proof (tree_ok_inv _ _ Hx) as Hxi.
  pose proof (propagate_parent_to_child_quiet parent x) as Hq.
  destruct (propagate_parent_to_child_ok parent x Hp Hxi) as (c1 & st1 & cst & He & Ho1 & Hi1 & _ & Hr & Hci & Hz).
  rewrite He in *. cbn [mbind option_bind].
  destruct (IH Hl (with_inst_state parent st1) (c1 || changed) Hi1 Hac)
    as (c2 & st2 & l' & -> & Ho2 & Hi2 & Hl' & Hs' & Hq').
  assert (Hsx : shape_of (with_inst_state x cst) = shape_of x) by (apply with_inst_state_shape, Hr).
  simpl in *. exists c2, st2, (with_inst_state x cst :: l'). split_and!; [done|by etrans|done| |simpl; by rewrite Hs', Hsx|].
  - constructor; [|done]. by apply tree_ok_state.
  - intros ->. destruct (Hq' eq_refl) as (Hor & Hsame & Hpc). apply orb_false_iff in Hor as [-> ->].
    split_and!; [done| |].
    + constructor; [|done]. split; [by apply Hz|done].
    + constructor; [by eapply Hq|]. eapply Forall_impl; [done|]. intros c. apply ports_consistent_eq; [done| |done].
      symmetry. by apply eval_only_values.
Qed.

(** The induction hypothesis on the children. *)
Definition resolves (n : nat) (resolve : instance_state -> option (bool * instance_state)) : Prop :=
  forall c, tree_ok n c -> tree_nets n c ->
    exists b c', resolve c = Some (b, c') /\ tree_ok n c' /\ shape_of c' = shape_of c
      /\ (b = false -> same_ports c c' /\ consistent n c').

Lemma resolve_children_detail resolve n l changed :
  resolves n resolve -> Forall (tree_ok n) l -> Forall (tree_nets n) l ->
  exists b l', resolve_children resolve l changed = Some (b, l') /\ Forall (tree_ok n) l'
    /\ map shape_of l' = map shape_of l
    /\ (b = false -> changed = false /\ Forall2 same_ports l l' /\ Forall (consistent n) l').
Proof.
  intros Hres. revert changed. induction l as [|x l IH]; intros changed Hl Hn; cbn [resolve_children]; [by exists changed, []|].
  apply Forall_cons in Hl as [Hx Hl]. apply Forall_cons in Hn as [Hnx Hn].
  destruct (Hres x Hx Hnx) as (b & x' & -> & Hx' & Hsx & Hbx). cbn [mbind option_bind].
  destruct (IH (b || changed) Hl Hn) as (b2 & l' & -> & Hl' & Hs' & Hq). simpl. exists b2, (x' :: l').
  split_and!; [done|by constructor|simpl; by rewrite Hsx, Hs'|]. intros ->.
  destruct (Hq eq_refl) as (Hor & Hsame & Hcons). apply orb_false_iff in Hor as [-> ->].
  destruct (Hbx eq_refl) as [Hsp Hc]. split_and!; [done|by constructor|by constructor].
Qed.

Lemma driven_by_children l base inst cs :
  driven_by l base inst -> driven_by l (with_children base cs) (with_children inst cs).
Proof. intros []. by split. Qed.

(** The nets after [apply_net_drives] reports no change. *)
Lemma apply_net_drives_quiet l base inst m inst' :
  driven_by l base inst -> is_mod base = Some m -> apply_net_drives inst = (false, inst') ->
  (forall i, driven_net m base i -> st_values (is_state base) !! i = Some (resolve_all (net_drivers l i)))
  /\ st_values (is_state inst') = st_values (is_state base).
Proof.
  intros [] Hm. unfold apply_net_drives. rewrite db_mod0, Hm, db_values0, db_driven0.
  rewrite !bool_decide_false by lia. simpl. set (L := omap _ _).
  destruct (assign_all_step (is_state inst) L false db_inv0) as (_ & _ & _ & Hv & Hc).
  destruct (assign_all (is_state inst) L false) as [c st]. simpl in *. intros [= -> <-].
  destruct (Hc eq_refl) as [_ Hvs]. split; [|simpl; congruence]. intros i (Hlt & Hd & Hr).
  assert (Hin : forall s v, (s, v) ∈ L <-> exists j, s = Some j /\ j < length (st_values (is_state base))
      /\ is_driven (is_driven_nets base) (Some j) = true /\ is_reg m (Some j) = false
      /\ st_next_net_values (is_state inst) !! j = Some v).
  { intros s v. unfold L. rewrite list_elem_of_omap. split.
    - intros (j & Hj & He). apply elem_of_seq in Hj.
      destruct (is_driven _ (Some j)) eqn:Ed, (is_reg m (Some j)) eqn:Er; simpl in He; try done.
      destruct (st_next_net_values _ !! j) as [w|] eqn:Ew; [|done]. injection He as <- <-. exists j. split_and!; [done|lia|done..].
    - intros (j & -> & Hj & Ed & Er & Ew). exists j. rewrite elem_of_seq. split; [lia|]. rewrite Ed, Er, Ew. done. }
  assert (Hmem : (Some i, resolve_all (net_drivers l i)) ∈ L).
  { apply Hin. exists i. split_and!; auto. }
  assert (Hall : forall v, (Some i, v) ∈ L -> v = resolve_all (net_drivers l i)).
  { intros v Hv'. apply Hin in Hv' as (j & [= <-] & _ & _ & _ & Ew). rewrite db_next0 in Ew by done. by injection Ew. }
  pose proof (assign_values_lookup (st_values (is_state inst)) L i) as Hlk. rewrite <- Hv, Hvs, db_values0 in Hlk.
  match type of Hlk with _ = match ?x with _ => _ end => destruct x as [[s v]|] eqn:Hlast end.
  - apply last_Some_elem_of in Hlast. apply list_elem_of_filter in Hlast as [Hs Hin']. simpl in Hs. subst s.
    apply Hall in Hin' as ->. destruct (lookup_lt_is_Some_2 _ _ Hlt) as [w Hw].
    rewrite Hw in Hlk. rewrite Hw. exact Hlk.
  - apply last_None in Hlast. exfalso.
    apply (not_elem_of_nil (A := index * dns) (Some i, resolve_all (net_drivers l i))).
    rewrite <- Hlast. by apply list_elem_of_filter.
Qed.

Lemma run_comb_local_detail l base inst tick token any m :
  driven_by l base inst -> node_ok inst -> is_mod base = Some m -> acyclic (cm_expr_nodes m) ->
  (forall a i, a ∈ cm_assigns m -> ca_lhs_signal a = Some i -> i < length (st_values (is_state base)) -> driven_net m base i) ->
  exists c inst', run_comb_local inst tick token any = Some (c, inst') /\ frame inst inst'
    /\ (c = false -> driven_by (l ++ omap (assign_drive m (st_values (is_state base))) (cm_assigns m)) base inst').
Proof.
  intros Hdb Hn Hm Hac Hnet. destruct (run_comb_local_ok inst tick token any Hn) as (c & inst' & He & Hf).
  exists c, inst'. split_and!; [done|done|]. intros ->. unfold run_comb_local in He. rewrite (db_mod _ _ _ Hdb), Hm in He.
  destruct (run_combs_step m tick token any (cm_always_combs m) false (is_state inst))
    as (c & st & Hc & Hr & Hi1 & Hz); [|apply Hdb|].
  { apply (mo_combs m), (no_module _ Hn). by rewrite (db_mod _ _ _ Hdb). }
  rewrite Hc in He. simpl in He.
  destruct c; [destruct (fold_option _ _ _); simpl in He; by simplify_eq|]. destruct (Hz eq_refl) as [_ Hv].
  destruct (run_assigns_driven l base (with_inst_state inst st) m (cm_assigns m)) as (i2 & He2 & Hdb2);
    [by apply driven_by_state|done|done|done|]. rewrite He2 in He. simpl in He. by injection He as <-.
Qed.

#[global] Instance same_ports_preorder : PreOrder same_ports.
Proof. split; [done|]. intros x y z [] []. split; congruence. Qed.

Lemma ports_consistent_all parent parent' l l' :
  is_mod parent' = is_mod parent -> st_values (is_state parent') = st_values (is_state parent) ->
  Forall2 same_ports l l' -> Forall (ports_consistent parent) l -> Forall (ports_consistent parent') l'.
Proof.
  intros Hm Hv Hsame. induction Hsame as [|x y l l' Hxy _ IH]; intros Hp; [done|].
  apply Forall_cons in Hp as [Hx Hp]. constructor; [by eapply ports_consistent_eq|by apply IH].
Qed.

(** The first half of a delta: the nets are reset, the children take their
    inputs, are resolved and drive their outputs. *)
Lemma delta_children resolve n inst m :
  resolves n resolve -> node_ok inst -> nets_only inst -> is_mod inst = Some m ->
  Forall (tree_ok n) (is_children inst) -> Forall (tree_nets n) (is_children inst) ->
  exists c st l2 b l3, propagate_inputs (prepare_net_drives inst) (is_children inst) false
      = Some (c, with_inst_state (prepare_net_drives inst) st, l2)
    /\ resolve_children resolve l2 c = Some (b, l3)
    /\ shape_of (with_children (prepare_net_drives inst) l3) = shape_of inst /\ Forall (tree_ok n) l3
    /\ driven_by (mjoin (child_drives <$> l3)) (with_children (prepare_net_drives inst) l3)
         (with_children (drive_outputs (with_inst_state (prepare_net_drives inst) st) l3) l3)
    /\ (b = false -> Forall (consistent n) l3 /\ Forall (ports_consistent (prepare_net_drives inst)) l3).
Proof.
  intros Hres Hn Hnets Hm Hc Hcn. pose proof (prepare_net_drives_frame inst) as Hf1.
  pose proof (prepare_driven_by inst (no_state _ Hn)) as Hdb1. set (i1 := prepare_net_drives inst) in *.
  pose proof (frame_node _ _ Hf1 Hn) as Hn1. assert (Hm1 : is_mod i1 = Some m) by (by rewrite (fr_mod _ _ Hf1)).
  destruct (propagate_inputs_detail n i1 (is_children inst) false) as (c & st & l2 & -> & Ho2 & Hi2 & Hl2 & Hs2 & Hq2);
    [apply Hn1|done|intros pm; rewrite Hm1; intros [= <-]; by apply (nn_acyclic _ Hnets)|].
  destruct (resolve_children_detail resolve n l2 c Hres Hl2) as (b & l3 & Hrc & Hl3 & Hs3 & Hq3);
    [eapply map_shape_Forall; [apply tree_nets_shape|done|done]|].
  exists c, st, l2, b, l3.
  assert (Hsc : shape_of (with_children i1 l3) = shape_of inst).
  { rewrite <- (frame_shape _ _ Hf1), !shape_of_eq. simpl. by rewrite Hs3, Hs2, (fr_children _ _ Hf1). }
  split_and!; [done|done|done|done| |].
  - apply driven_by_children, (drive_outputs_driven [] i1 (with_inst_state i1 st) m l3); [|done|].
    + apply driven_by_state; [by apply Hdb1|by apply eval_only_runs|done|by apply eval_only_values].
    + intros x d i Hx Hd Hs Hlt. apply (nn_outputs (with_children i1 l3)) with (c := x) (d := d); try done.
      by eapply nets_only_shape.
  - intros ->. destruct (Hq3 eq_refl) as (-> & Hsame3 & Hcons). destruct (Hq2 eq_refl) as (_ & Hsame2 & Hports).
    split; [done|]. eapply ports_consistent_all; [done|done| |done]. by etrans.
Qed.

(** The second half: always blocks, continuous assignments, nets and the
    nonblocking queue. *)
Lemma delta_local l base inst tick token any m :
  driven_by l base inst -> node_ok inst -> nets_only base -> is_mod base = Some m ->
  exists c4 i4 c5 i5 c6 st6, run_comb_local inst tick token any = Some (c4, i4) /\ apply_net_drives i4 = (c5, i5)
    /\ apply_nba (is_state i5) = (c6, st6) /\ frame inst (with_inst_state i5 st6)
    /\ shape_of (with_inst_state i5 st6) = shape_of base
    /\ (c4 = false -> c5 = false -> c6 = false -> st_values st6 = st_values (is_state base)
        /\ forall i, driven_net m base i -> st_values (is_state base) !! i
             = Some (resolve_all (net_drivers (l ++ omap (assign_drive m (st_values (is_state base))) (cm_assigns m)) i))).
Proof.
  intros Hdb Hn Hnets Hm.
  destruct (run_comb_local_detail l base inst tick token any m Hdb Hn Hm) as (c4 & i4 & -> & Hf4 & Hq4).
  { by apply (nn_acyclic _ Hnets). }
  { intros a i Ha Hs Hlt. by eapply (nn_assigns _ Hnets). }
  pose proof (frame_node _ _ Hf4 Hn) as Hn4. pose proof (apply_net_drives_frame i4 (no_state _ Hn4)) as Hf5.
  destruct (apply_net_drives i4) as [c5 i5] eqn:H5. simpl in Hf5. pose proof (frame_node _ _ Hf5 Hn4) as Hn5.
  pose proof (apply_nba_frame i5 (no_state _ Hn5)) as Hf6. pose proof (apply_nba_ok (is_state i5) (no_state _ Hn5)) as H6.
  destruct (apply_nba (is_state i5)) as [c6 st6] eqn:E6. simpl in Hf6. destruct H6 as (_ & _ & _ & _ & Hq6).
  assert (Hf : frame inst (with_inst_state i5 st6)) by (etrans; [done|]; by etrans).
  exists c4, i4, c5, i5, c6, st6. split; [done|]. split; [done|]. split; [done|]. split; [done|]. split.
  - rewrite (frame_shape _ _ Hf), !shape_of_eq. unfold driven_flags.
    by rewrite (db_mod _ _ _ Hdb), (db_bindings _ _ _ Hdb), (db_outputs _ _ _ Hdb), (db_children _ _ _ Hdb),
      (db_driven _ _ _ Hdb), (db_values _ _ _ Hdb).
  - intros -> -> ->. destruct (apply_net_drives_quiet _ base i4 m i5 (Hq4 eq_refl) Hm H5) as [Hnet Hv5].
    split; [by rewrite (Hq6 eq_refl), Hv5|done].
Qed.

Lemma comb_delta_detail resolve n inst tick token any m :
  resolves n resolve -> node_ok inst -> nets_only inst -> is_mod inst = Some m ->
  Forall (tree_ok n) (is_children inst) -> Forall (tree_nets n) (is_children inst) ->
  exists b inst', comb_delta resolve inst tick token any = Some (b, inst') /\ node_ok inst'
    /\ Forall (tree_ok n) (is_children inst') /\ shape_of inst' = shape_of inst
    /\ (b = false -> same_ports inst inst' /\ nets_consistent inst'
        /\ Forall (fun c => ports_consistent inst' c /\ consistent n c) (is_children inst')).
Proof.
  intros Hres Hn Hnets Hm Hc Hcn. unfold comb_delta. pose proof (prepare_net_drives_frame inst) as Hf1.
  assert (Hv1 : st_values (is_state (prepare_net_drives inst)) = st_values (is_state inst)).
  { unfold prepare_net_drives. by rewrite Hm. }
  destruct (delta_children resolve n inst m Hres Hn Hnets Hm Hc Hcn) as (c2 & st2 & l2 & c3 & l3 & H2 & H3 & Hsc & Hl3 & Hdb & Hq).
  rewrite (fr_children _ _ Hf1), H2. cbn [mbind option_bind]. rewrite H3. cbn [mbind option_bind]. clear H2 H3.
  set (base := with_children (prepare_net_drives inst) l3) in *. set (i3 := with_children (drive_outputs _ l3) l3) in *.
  assert (Hn3 : node_ok i3).
  { split; [apply Hdb|]. intros m'. rewrite (db_mod _ _ _ Hdb). simpl. rewrite (fr_mod _ _ Hf1). apply Hn. }
  assert (Hmb : is_mod base = Some m) by (simpl; by rewrite (fr_mod _ _ Hf1)).
  destruct (delta_local _ base i3 tick token any m Hdb Hn3) as (c4 & i4 & c5 & i5 & c6 & st6 & -> & H5 & H6 & Hf & Hsh & Hql);
    [by eapply nets_only_shape|done|]. cbn [mbind option_bind]. rewrite H5, H6. clear H5 H6.
  assert (Hch : is_children (with_inst_state i5 st6) = l3) by (rewrite (fr_children _ _ Hf); done).
  assert (Hm6 : is_mod (with_inst_state i5 st6) = Some m) by (rewrite (fr_mod _ _ Hf), (db_mod _ _ _ Hdb); done).
  eexists _, _. split; [done|]. split; [by eapply frame_node|]. rewrite Hch.
  split_and!; [done|congruence|]. intros Hz.
  apply orb_false_iff in Hz as [-> Hz]. apply orb_false_iff in Hz as [-> Hz]. apply orb_false_iff in Hz as [-> ->].
  destruct (Hq eq_refl) as [Hcons Hports]. destruct (Hql eq_refl eq_refl eq_refl) as [Hv6 Hnet]. split_and!.
  - split; [simpl; by rewrite Hv6|congruence].
  - intros m' i Hm' Hdn. rewrite Hm6 in Hm'. injection Hm' as <-. unfold all_drives. rewrite Hch. simpl. rewrite Hv6.
    apply (Hnet i). apply (shape_driven_net base (with_inst_state i5 st6)); [|done].
    rewrite !shape_of_eq in Hsh. by injection Hsh.
  - apply Forall_and. split; [|done].
    eapply ports_consistent_all; [|simpl; exact Hv6|reflexivity|exact Hports]. rewrite Hm6. symmetry. exact Hmb.
Qed.

(** ** The loop and the tree *)

(** An instance after a delta that changed nothing. *)
Definition settled (n : nat) (inst : instance_state) : Prop :=
  nets_consistent inst /\ Forall (fun c => ports_consistent inst c /\ consistent n c) (is_children inst).

(** [k] more deltas that each change something. *)
Fixpoint still_changing (resolve : instance_state -> option (bool * instance_state)) (k : nat) (inst : instance_state)
  (tick token : Z) (any : bool) : Prop :=
  match k with
  | O => True
  | S k =>
      let '(record_token, st) := begin_change_epoch (is_state inst) in
      match comb_delta resolve (with_inst_state inst st) tick token any with
      | Some (true, inst') =>
          still_changing resolve k inst' tick record_token (negb (bool_decide (st_changed_signals (is_state inst') = [])))
      | _ => False
      end
  end.

Lemma comb_loop_detail resolve n iters inst tick token any changed m :
  resolves n resolve -> epoch_inv (is_state inst) -> module_ok m -> nets_only inst -> is_mod inst = Some m ->
  Forall (tree_ok n) (is_children inst) -> Forall (tree_nets n) (is_children inst) -> 0 < iters ->
  exists b inst', comb_loop resolve iters inst tick token any changed = Some (b, inst') /\ node_ok inst'
    /\ Forall (tree_ok n) (is_children inst') /\ shape_of inst' = shape_of inst
    /\ (b = false -> same_ports inst inst' /\ settled n inst')
    /\ (settled n inst' \/ still_changing resolve iters inst tick token any).
Proof.
  intros Hres. revert inst token any changed.
  induction iters as [|iters IH]; intros inst token any changed He Hmo Hnets Hm Hc Hcn Hlt; [lia|].
  cbn [comb_loop still_changing]. pose proof (begin_change_epoch_ok (is_state inst) He) as Hb.
  destruct (begin_change_epoch (is_state inst)) as [rec st]. destruct Hb as (Hi & _ & _ & _ & Hv & _).
  assert (Hsh0 : shape_of (with_inst_state inst st) = shape_of inst) by (apply with_inst_state_shape; by rewrite Hv).
  destruct (comb_delta_detail resolve n (with_inst_state inst st) tick token any m)
    as (b & i2 & Hd & Hn2 & Hc2 & Hs2 & Hq2);
    [done|split; [done|]; simpl; rewrite Hm; by intros ? [= <-]|by eapply nets_only_shape|done|done|done|].
  rewrite Hd. cbn [mbind option_bind]. destruct b; simpl.
  - assert (Hsh : shape_of i2 = shape_of inst) by congruence. destruct iters as [|iters].
    { exists true, i2. split_and!; [done|done|done|done|done|]. by right. }
    destruct (IH i2 rec (negb (bool_decide (st_changed_signals (is_state i2) = []))) true)
      as (b & i3 & He3 & Hn3 & Hc3 & Hs3 & Hq3 & Hor3).
    + by apply state_epoch_inv, Hn2.
    + done.
    + by eapply nets_only_shape.
    + rewrite !shape_of_eq in Hsh. injection Hsh as ->. done.
    + done.
    + eapply map_shape_Forall; [apply tree_nets_shape| |exact Hcn]. rewrite !shape_of_eq in Hsh. by injection Hsh.
    + lia.
    + exists b, i3. split_and!; [done|done|done|congruence| |].
      * intros ->. exfalso. clear -He3.
        assert (Hmono : forall k i t a b i', comb_loop resolve k i tick t a true = Some (b, i') -> b = true).
        { induction k as [|k IHk]; intros i t a b i'; cbn [comb_loop]; [by intros [= <- _]|].
          destruct (begin_change_epoch (is_state i)) as [r s]. destruct (comb_delta _ _ _ _ _) as [[c j]|]; [|done].
          cbn [mbind option_bind]. destruct c; simpl; [apply IHk|by intros [= <- _]]. }
        by apply Hmono in He3.
      * destruct Hor3 as [Hst|Hbusy]; [by left|by right].
  - destruct (Hq2 eq_refl) as (Hsame & Hnc & Hcc). exists changed, i2.
    split_and!; [done|done|done|congruence| |by left]. intros _. split; [|done].
    destruct Hsame as [Hv2 _]. split; [by rewrite Hv2|congruence].
Qed.

Lemma comb_resolve_detail n inst tick :
  tree_ok n inst -> tree_nets n inst ->
  exists b inst', comb_resolve n inst tick = Some (b, inst') /\ tree_ok n inst' /\ shape_of inst' = shape_of inst
    /\ (b = false -> same_ports inst inst' /\ consistent n inst')
    /\ (consistent n inst' \/
        let '(token, any, st) := initial_triggers (is_state inst) in
        still_changing (fun c => comb_resolve (pred n) c tick) comb_max_iter (with_inst_state inst st) tick token any).
Proof.
  revert inst. induction n as [|n IH]; intros inst; [done|]. intros [Hn Hc] [Hnets Hcn]. cbn [comb_resolve pred].
  destruct (is_mod inst) as [m|] eqn:Hm.
  2:{ exists false, inst. split; [done|]. split; [by split|]. split; [done|].
      split; [intros _; split; [done|by left]|left; by left]. }
  pose proof (initial_triggers_ok (is_state inst) (no_state _ Hn)) as Ht.
  destruct (initial_triggers (is_state inst)) as [[token any] st]. destruct Ht as (He & Hv & _).
  assert (Hsh0 : shape_of (with_inst_state inst st) = shape_of inst) by (apply with_inst_state_shape; by rewrite Hv).
  destruct (comb_loop_detail (fun c => comb_resolve n c tick) n comb_max_iter (with_inst_state inst st) tick token any false m)
    as (b & i2 & -> & Hn2 & Hc2 & Hs2 & Hq2 & Hor2);
    [|done|by apply (no_module _ Hn)|by eapply nets_only_shape|done|done|done|unfold comb_max_iter; lia|].
  { intros c Hc1 Hc2. destruct (IH c Hc1 Hc2) as (b & c' & ? & ? & ? & ? & _). eauto 8. }
  cbn [mbind option_bind]. set (st2 := with_prev _ _ _).
  assert (Hset : settled n i2 -> consistent (S n) (with_inst_state i2 st2)) by (intros [H1 H2]; right; by split).
  eexists _, _. split; [done|]. split; [|split; [|split]].
  - split; [|done]. split; [apply with_prev_inv, Hn2|by apply (no_module _ Hn2)].
  - rewrite with_inst_state_shape by done. congruence.
  - intros ->. destruct (Hq2 eq_refl) as [[Hv2 _] Hs]. split; [|by apply Hset].
    split; [simpl; rewrite Hv2; simpl; done|]. rewrite with_inst_state_shape by done. congruence.
  - destruct Hor2 as [Hs|Hb]; [left; by apply Hset|by right].
Qed.

(** ** Theorems *)

(** C4. Combinational resolution of a design always returns, and leaves it consistent once it settles.  For a
    well-formed tree of instances that drives nets only, [comb_resolve] returns; then either 64 deltas in a row
    each changed something, or in the whole tree every driven net has the resolution of its drivers (the
    continuous assignments whose guard holds and the outputs of the children, all evaluated in the final values)
    and every input port has the value bound to it in the parent. *)
Theorem comb_resolve_consistent (n : nat) (inst : instance_state) (tick : Z) :
  tree_ok n inst -> tree_nets n inst ->
  exists changed inst', comb_resolve n inst tick = Some (changed, inst')
    /\ (consistent n inst' \/
        let '(token, any, st) := initial_triggers (is_state inst) in
        still_changing (fun c => comb_resolve (pred n) c tick) comb_max_iter (with_inst_state inst st) tick token any).
Proof.
  intros Hok Hnets. destruct (comb_resolve_detail n inst tick Hok Hnets) as (b & i & ? & _ & _ & _ & ?). eauto.
Qed.

(** A module [inv] with [assign o = ~i], and a parent that connects it between
    two of its nets. *)
Definition inv_module : compiled_module :=
  mk_module "inv" [mk_port "i" dir_input (Some 0); mk_port "o" dir_output (Some 1)] ["i"; "o"] ∅ ∅
    ["i"; "o"] [false; false] [false; false] [false; false] [false; false] [indeterminate_state; indeterminate_state] ∅
    [] ∅ ∅
    [mk_node ek_signal indeterminate_state None None (Some 0);
     mk_node ek_unary_not indeterminate_state (Some 0) None None] ∅
    [mk_assign (Some 1) (Some 1) None] [] [] [] [] ∅ ∅ 0.

Definition pair_module : compiled_module :=
  mk_module "pair" [] [] ∅ ∅ ["a"; "y"] [false; false] [false; false] [true; false] [false; false]
    [true_state; indeterminate_state] ∅ [] ∅ ∅ [] ∅ [] [] [] [] [] ∅ ∅ 0.

Definition inv_instance : instance_state :=
  mk_inst (Some inv_module) "u" (init_state inv_module) [false; true]
    [mk_binding pb_parent_signal (Some 0) None indeterminate_state; port_binding_default]
    [mk_drive (Some 1) false (Some 1) indeterminate_state] [].

Definition pair_instance : instance_state :=
  mk_inst (Some pair_module) "top" (init_state pair_module) [false; true] [] [] [inv_instance].

Lemma no_statements_ok m : cm_always_ffs m = [] -> cm_always_combs m = [] -> cm_initials m = [] -> module_ok m.
Proof. intros H1 H2 H3. split; rewrite ?H1, ?H2, ?H3; by intros x Hx%elem_of_nil. Qed.

Lemma pair_tree_ok : tree_ok 2 pair_instance.
Proof.
  split; [|constructor; [|done]; split; [|done]].
  all: split; [apply init_state_inv|intros m [= <-]; by apply no_statements_ok].
Qed.

Lemma pair_tree_nets : tree_nets 2 pair_instance.
Proof.
  split; [|constructor; [|done]; split; [|done]]; split; simpl.
  - intros m [= <-]. exact (all_below_spec operands (cm_expr_nodes pair_module) eq_refl).
  - intros m a i [= <-] Ha. by apply elem_of_nil in Ha.
  - intros m c d i [= <-] Hc Hd Hi Hlt. apply list_elem_of_singleton in Hc as ->. simpl in Hd.
    apply list_elem_of_singleton in Hd as ->. injection Hi as <-. by split_and!.
  - intros m [= <-]. exact (all_below_spec operands (cm_expr_nodes inv_module) eq_refl).
  - intros m a i [= <-] Ha Hi Hlt. simpl in Ha. apply list_elem_of_singleton in Ha as ->. injection Hi as <-. by split_and!.
  - intros m c d i _ Hc. by apply elem_of_nil in Hc.
Qed.

Lemma comb_resolve_consistent_witness :
  exists inst', comb_resolve 2 pair_instance 0 = Some (true, inst') /\ consistent 2 inst'
    /\ st_values (is_state inst') = [true_state; false_state].
Proof.
  destruct (comb_resolve_consistent 2 pair_instance 0 pair_tree_ok pair_tree_nets) as (b & inst' & He & Hor).
  destruct Hor as [Hc|Hb]; [|vm_compute in Hb; destruct Hb]. exists inst'. vm_compute in He. injection He as <- <-.
  split; [vm_compute; reflexivity|]. split; [exact Hc|reflexivity].
Defined.

Lemma shape_kind inst inst' : shape_of inst' = shape_of inst -> kind_of inst' = kind_of inst.
Proof.
  rewrite !shape_of_eq. intros [= Hm _ _ Hf _]. apply (f_equal length) in Hf. unfold driven_flags in Hf.
  rewrite !length_fmap, !length_seq in Hf. unfold kind_of. congruence.
Qed.

(** One tick of the simulation always returns.  For every well-formed tree of instances [simulate] returns
    a well-formed tree of the same module, whatever the module texts, the values and the tick: the recursion over the tree, the
    statements, their loops, the events and the combinational loop all end, and no access leaves a vector. *)
Lemma simulate_returns (top : instance_state) (tick : Z) (process_sequential : bool) :
  tree_ok (height top) top ->
  exists top', simulate top tick process_sequential = Some top' /\ tree_ok (height top) top' /\ kind_of top' = kind_of top.
Proof.
  intros Hok. unfold simulate.
  destruct (sequential_pass_ok (height top) top tick process_sequential Hok) as (t1 & -> & Hok1 & Hs1). cbn [mbind option_bind].
  destruct (comb_resolve_ok (height top) t1 tick Hok1) as (b & t2 & -> & Hok2 & Hk2). cbn [mbind option_bind].
  eexists. split; [done|]. split; [by apply update_prev_ok|]. rewrite <- (shape_kind _ _ Hs1), <- Hk2. by destruct t2.
Qed.

(** *** A continuous assignment to a variable is not reported as a change *)

(** [logic y; wire z; assign z = ~y; assign y = a;] *)
Definition stale_module : compiled_module :=
  mk_module "stale" [] [] ∅ ∅ ["a"; "y"; "z"] [false; true; false] [false; false; false] [false; false; false]
    [false; false; false] [indeterminate_state; indeterminate_state; indeterminate_state] ∅ [] ∅ ∅
    [mk_node ek_signal indeterminate_state None None (Some 0);
     mk_node ek_signal indeterminate_state None None (Some 1);
     mk_node ek_unary_not indeterminate_state (Some 1) None None] ∅
    [mk_assign (Some 2) (Some 2) None; mk_assign (Some 1) (Some 0) None] [] [] [] [] ∅ ∅ 0.

(** The design with the input [a] set from outside, as the engine does it. *)
Definition stale_instance (st : module_state) (a : dns) : instance_state :=
  init_driven_nets_from_assigns
    (mk_inst (Some stale_module) "top" (with_values st (<[0 := a]> (st_values st))) [] [] [] []).

(** An assignment to a variable leaves its readers behind.  With [logic y; wire z; assign z = ~y;
    assign y = a;] and [a = 0] the design settles at [y = 0], [z = 1]; after [a] rises one tick ends with [y = 1]
    and still [z = 1], although resolution stopped because it saw no change; the next tick repairs it. *)
Lemma assign_to_variable_goes_stale :
  exists t0 t1 t2, simulate (stale_instance (init_state stale_module) false_state) 0 true = Some t0
    /\ simulate t0 1 true = Some t1 /\ st_values (is_state t1) = [false_state; false_state; true_state]
    /\ simulate (stale_instance (is_state t1) true_state) 2 true = Some t2
    /\ st_values (is_state t2) = [true_state; true_state; true_state]
    /\ (st_values ∘ is_state) <$> simulate t2 3 true = Some [true_state; true_state; false_state].
Proof.
  eexists _, _, _. split; [vm_compute; reflexivity|]. split; [vm_compute; reflexivity|].
  split; [reflexivity|]. split; [vm_compute; reflexivity|]. split; [reflexivity|]. vm_compute. reflexivity.
Qed.

(** *** Initial blocks that are not straight lines *)

(** [initial begin a = 0; if(1) a = 1; end] *)
Definition initial_module : compiled_module :=
  mk_module "init" [] [] ∅ ∅ ["a"] [true] [false] [false] [false] [indeterminate_state] ∅ [] ∅ ∅
    [mk_node ek_literal false_state None None None; mk_node ek_literal true_state None None None] ∅ [] [] []
    [mk_initial
       [mk_stmt sk_blocking_assign ck_normal 0 (Some 0) (Some 0) [] [] [] [] [] [] None None None;
        mk_stmt sk_blocking_assign ck_normal 0 (Some 0) (Some 1) [] [] [] [] [] [] None None None;
        mk_stmt sk_if_stmt ck_normal 0 None (Some 1) [] [] [Some 1] [] [] [] None None None;
        mk_stmt sk_block ck_normal 0 None None [] [] [Some 0; Some 2] [] [] [] None None None]
       [Some 3]] [] ∅ ∅ 0.

Definition initial_instance : instance_state :=
  mk_inst (Some initial_module) "top" (init_state initial_module) [false] [] [] [].

(** An initial block that is not a straight line runs part of itself twice.  [initial begin a = 0;
    if(1) a = 1; end] executed as statements sets [a] to 1; in the simulation the assignment [a = 0], scheduled
    before the block was found not to be a straight line, runs once more after it and [a] ends at 0. *)
Lemma initial_block_assigned_twice :
  (st_values ∘ snd) <$> exec_roots initial_module (ib_stmt_nodes (default (mk_initial [] []) (cm_initials initial_module !! 0)))
      [Some 3] 0 false (init_state initial_module) = Some [true_state]
  /\ (st_values ∘ is_state) <$> simulate initial_instance 0 true = Some [false_state].
Proof. split; vm_compute; reflexivity. Qed.
