(* ===== verification/VElab.v ===== *)
(** * Verilog: elaboration

    [build_design], [fill_bindings] and [elaborate] of
    verilog/digital/digital.h: the tree of instances below a top module, each
    child with its state, its parameter overrides, the binding of every bit
    of its input ports and the nets its outputs drive, width-coerced.

    [elaborate_children] stops below depth 64; [fuel] is the number of levels
    left, 65 minus the depth. *)

From S2P Require Import Prelude Logic4 VModule VEval VExec VSim VSettle.
From Stdlib Require Import ZArith Lia.

(** ** Designs *)

Definition build_design (modules : list compiled_module) : compiled_design :=
  mk_design modules
    (foldl (fun idx '(i, m) => match idx !! cm_name m with Some _ => idx | None => <[cm_name m := i]> idx end)
       ∅ (imap pair modules)).

Definition find_module (d : compiled_design) (name : string) : option compiled_module :=
  i ← cd_module_index d !! name; cd_modules d !! i.

(** ** Connections *)

Definition make_parent_signal (sig : index) : port_binding := mk_binding pb_parent_signal sig SIZE_MAX dns_default.

Definition make_literal_binding (v : dns) : port_binding := mk_binding pb_literal SIZE_MAX SIZE_MAX v.

Definition make_expr_root (root : index) : port_binding := mk_binding pb_parent_expr_root SIZE_MAX root dns_default.

(** [connection_bits]: the bits of a connection, msb first, and whether it is
    signed. *)
Definition connection_bits (pm : compiled_module) (ref : connection_ref) : list port_binding * bool :=
  match cr_kind ref with
  | cn_unconnected => ([], cr_is_signed ref)
  | cn_scalar =>
      match cr_scalar_signal ref with
      | None => ([], cr_is_signed ref)
      | Some _ => ([make_parent_signal (cr_scalar_signal ref)],
                   default false (vget (cm_signal_is_signed pm) (cr_scalar_signal ref)))
      end
  | cn_vector =>
      match cm_vectors pm !! cr_vector_base ref with
      | None => ([], cr_is_signed ref)
      | Some vd => (make_parent_signal <$> vd_bits vd, vd_is_signed vd)
      end
  | cn_literal => ([make_literal_binding (cr_literal ref)], cr_is_signed ref)
  | cn_literal_vector => (make_literal_binding <$> cr_literal_bits ref, cr_is_signed ref)
  | cn_bit_list =>
      ((fun b => if cb_is_literal b then make_literal_binding (cb_literal b) else make_parent_signal (cb_signal b))
         <$> cr_bit_list ref, cr_is_signed ref)
  | cn_expr => (make_expr_root <$> cr_expr_roots ref, cr_is_signed ref)
  end.

(** [resize_bits] and [resize_rhs]: both keep the low bits of a list stored
    msb first, or extend it on the left; [unconnected] fills an empty source
    and [zero] an unsigned one. *)
Definition resize_msb_first {A} (unconnected zero : A) (src : list A) (w : nat) (sign_extend : bool) : list A :=
  match w, src with
  | O, _ => []
  | _, [] => replicate w unconnected
  | 1, s :: src => [default s (last src)]
  | _, msb :: _ =>
      if bool_decide (length src = w) then src
      else if bool_decide (w < length src) then drop (length src - w) src
      else replicate (w - length src) (if sign_extend then msb else zero) ++ src
  end.

Definition resize_bits : list port_binding -> nat -> bool -> list port_binding :=
  resize_msb_first port_binding_default (make_literal_binding false_state).

(** [connection_dest_bits]: the parent signals an output may drive. *)
Definition connection_dest_bits (pm : compiled_module) (ref : connection_ref) : list index :=
  match cr_kind ref with
  | cn_scalar => match cr_scalar_signal ref with None => [] | Some _ => [cr_scalar_signal ref] end
  | cn_vector => match cm_vectors pm !! cr_vector_base ref with None => [] | Some vd => vd_bits vd end
  | cn_bit_list => (fun b => if cb_is_literal b then SIZE_MAX else cb_signal b) <$> cr_bit_list ref
  | _ => []
  end.

Record rhs_bit := mk_rhs { rb_is_literal : bool; rb_child_signal : index; rb_literal : dns }.

Definition resize_rhs : list rhs_bit -> nat -> bool -> list rhs_bit :=
  resize_msb_first (mk_rhs true SIZE_MAX indeterminate_state) (mk_rhs true SIZE_MAX false_state).

(** The width of a declared port. *)
Definition port_width (pd : port_decl) : nat :=
  if pd_has_range pd
  then Z.to_nat (if bool_decide (0 <= pd_msb pd - pd_lsb pd)%Z then pd_msb pd - pd_lsb pd + 1 else pd_lsb pd - pd_msb pd + 1)
  else 1.

(** The drives of one output port. *)
Definition output_drives_of (cm : compiled_module) (pd : port_decl) (dst_bits : list index) (port_offset : nat)
  : list port_drive :=
  let width := port_width pd in
  let dw := length dst_bits in
  if negb (bool_decide (dw = 0)) && bool_decide (port_offset + width <= length (cm_ports cm)) then
    let rhs := (fun p => mk_rhs false (port_signal p) dns_default) <$> take width (drop port_offset (cm_ports cm)) in
    omap (fun '(dst, src) =>
            match dst : index with
            | None => None
            | Some _ =>
                if negb (rb_is_literal src) && bool_decide (rb_child_signal src = SIZE_MAX) then None
                else Some (mk_drive dst (rb_is_literal src) (rb_child_signal src) (rb_literal src))
            end) (zip dst_bits (resize_rhs rhs dw (pd_is_signed pd)))
  else [].

(** The loop over the ports of the child; [positional_idx] and [port_offset]
    advance with it. *)
Fixpoint fill_ports (pm cm : compiled_module) (conns : list instance_connection) (named : option (gmap string connection_ref))
  (ports : list string) (positional_idx port_offset : nat) (bindings : list port_binding) (drives : list port_drive)
  : list port_binding * list port_drive :=
  match ports with
  | [] => (bindings, drives)
  | base :: ports =>
      let ref := match named with
                 | Some named => default connection_ref_default (named !! base)
                 | None => default connection_ref_default (ic_ref <$> conns !! positional_idx)
                 end in
      let pd := default port_decl_default (cm_port_decls cm !! base) in
      let width := port_width pd in
      let bindings :=
        match pd_dir pd with
        | dir_output => bindings
        | _ => let '(src, signed) := connection_bits pm ref in
               list_inserts port_offset (resize_bits src width signed) bindings
        end in
      let drives :=
        match pd_dir pd with
        | dir_output | dir_inout => drives ++ output_drives_of cm pd (connection_dest_bits pm ref) port_offset
        | _ => drives
        end in
      fill_ports pm cm conns named ports (S positional_idx) (port_offset + width) bindings drives
  end.

Definition fill_bindings (pm cm : compiled_module) (idef : instance) (bindings : list port_binding)
  : list port_binding * list port_drive :=
  let conns := inst_connections idef in
  let any_named := existsb (fun c => bool_decide (ic_port_name c ≠ "")) conns in
  let named := foldl (fun named c => if bool_decide (ic_port_name c = "") then named
                                     else <[ic_port_name c := ic_ref c]> named) ∅ conns in
  fill_ports pm cm conns (if any_named then Some named else None) (cm_port_order cm) 0 0 bindings [].

(** ** Parameters *)

(** [apply_param_value]: bit [k] from the lsb of a 32-bit vector is bit [k] of
    the value. *)
Definition param_bits (value : Z) : list dns :=
  (fun pos_from_msb => dns_of_bool (Z.testbit value (31 - Z.of_nat pos_from_msb))) <$> seq 0 32.

Definition apply_param_value (cm : compiled_module) (st : module_state) (pname : string) (value : Z) : module_state :=
  match cm_vectors cm !! pname with
  | None => st
  | Some vd =>
      if bool_decide (length (vd_bits vd) ≠ 32) then st
      else
        let writes := filter (fun p => is_Some (vget (st_values st) (fst p))) (zip (vd_bits vd) (param_bits value)) in
        with_prev (with_values st (assign_values (st_values st) writes))
          (assign_values (st_prev_values st) writes) (st_comb_prev_values st)
  end.

Definition apply_params (cm : compiled_module) (idef : instance) (st : module_state) : module_state :=
  let is_local pname := default false (cm_param_is_local cm !! pname) in
  let override st '(pname, value) := if is_local pname : bool then st else apply_param_value cm st pname value in
  let st := foldl override st (zip (cm_param_order cm) (inst_param_positional_values idef)) in
  foldl override st (inst_param_named_values idef).

(** ** The tree *)

(** A fresh child of a module, before its own children. *)
Definition new_child (pm cm : compiled_module) (idef : instance) : instance_state :=
  let '(bindings, drives) := fill_bindings pm cm idef (replicate (length (cm_ports cm)) port_binding_default) in
  let child := init_driven_nets_from_assigns
                 (mk_inst (Some cm) (inst_instance_name idef) (init_state cm) [] [] [] []) in
  mk_inst (Some cm) (inst_instance_name idef) (apply_params cm idef (init_state cm)) (is_driven_nets child) bindings drives [].

(** The nets of the parent that the outputs of a child drive. *)
Definition mark_driven (pm : compiled_module) (drives : list port_drive) (driven : list bool) : list bool :=
  foldl (fun driven d => if is_reg pm (dr_parent_signal d) then driven else set_flag driven (dr_parent_signal d)) driven drives.

Definition mark_outputs (pm : compiled_module) (parent child : instance_state) : instance_state :=
  let parent := if bool_decide (is_driven_nets parent = []) then init_driven_nets_from_assigns parent else parent in
  with_driven parent (mark_driven pm (is_output_drives child) (is_driven_nets parent)).

Fixpoint elaborate_children (fuel : nat) (d : compiled_design) (parent : instance_state) : instance_state :=
  match is_mod parent, fuel with
  | Some pm, S fuel =>
      foldl (fun parent idef =>
               match find_module d (inst_module_name idef) with
               | None => parent
               | Some cm =>
                   let child := new_child pm cm idef in
                   let parent := mark_outputs pm parent child in
                   with_children parent (is_children parent ++ [elaborate_children fuel d child])
               end) parent (cm_instances pm)
  | _, _ => parent
  end.

Definition max_depth : nat := 65.

Definition elaborate (d : compiled_design) (top : compiled_module) : instance_state :=
  elaborate_children max_depth d
    (init_driven_nets_from_assigns (mk_inst (Some top) (cm_name top) (init_state top) [] [] [] [])).

(** ** Width coercion *)

Lemma length_resize {A} (u z : A) src w s : length (resize_msb_first u z src w s) = w.
Proof.
  unfold resize_msb_first. destruct w as [|[|w]], src as [|a src]; try done; [by rewrite length_replicate|].
  repeat case_bool_decide; [done|rewrite length_drop; lia|].
  rewrite length_app, length_replicate. lia.
Qed.

(** Bit [k] from the lsb. *)
Definition from_lsb {A} (l : list A) (k : nat) : option A := if bool_decide (k < length l) then l !! (length l - 1 - k) else None.

Lemma resize_from_lsb {A} (u z msb : A) src w s k :
  k < w ->
  from_lsb (resize_msb_first u z (msb :: src) w s) k
  = match from_lsb (msb :: src) k with Some b => Some b | None => Some (if s then msb else z) end.
Proof.
  intros Hk. unfold from_lsb. rewrite length_resize, bool_decide_true by done.
  unfold resize_msb_first. destruct w as [|[|w]]; [lia| |].
  - assert (k = 0) as -> by lia. rewrite bool_decide_true by (simpl; lia). simpl. rewrite Nat.sub_0_r.
    destruct (last src) as [x|] eqn:E; [|by apply last_None in E as ->].
    rewrite last_lookup in E. destruct src as [|b src]; [done|]. simpl in *. by rewrite E.
  - cbn iota. set (l := msb :: src). assert (Hget : forall F, k < length l ->
      match l !! (length l - 1 - k) with Some b => Some b | None => F end = l !! (length l - 1 - k)).
    { intros F Hlt. destruct (lookup_lt_is_Some_2 l (length l - 1 - k)) as [x Hx]; [lia|]. by rewrite Hx. }
    case_bool_decide as H1; [|case_bool_decide as H2].
    + rewrite bool_decide_true, Hget by lia. by rewrite H1.
    + rewrite bool_decide_true, Hget by lia. rewrite lookup_drop. f_equal. lia.
    + case_bool_decide as H3.
      * rewrite Hget by done. rewrite lookup_app_r by (rewrite length_replicate; lia). rewrite length_replicate. f_equal. lia.
      * rewrite lookup_app_l by (rewrite length_replicate; lia). apply lookup_replicate. split; [done|lia].
Qed.


(** ** Elaborated trees are well formed *)

(** What elaboration relies on: the arenas of a module refer backwards, and
    neither its continuous assignments nor the outputs of its instances are
    connected to variables. *)
Record module_wf (d : compiled_design) (m : compiled_module) : Prop := {
  mw_ok : module_ok m;
  mw_acyclic : acyclic (cm_expr_nodes m);
  mw_assigns : forall a, a ∈ cm_assigns m -> is_reg m (ca_lhs_signal a) = false;
  mw_outputs : forall idef cm dr, idef ∈ cm_instances m -> find_module d (inst_module_name idef) = Some cm ->
    dr ∈ is_output_drives (new_child m cm idef) -> is_reg m (dr_parent_signal dr) = false;
}.

Definition design_wf (d : compiled_design) : Prop := forall name m, find_module d name = Some m -> module_wf d m.

Lemma length_set_flag l sig : length (set_flag l sig) = length l.
Proof. destruct sig; simpl; [by rewrite length_insert|done]. Qed.

Lemma is_driven_set_flag l sig s : is_driven l s = true -> is_driven (set_flag l sig) s = true.
Proof.
  unfold is_driven. destruct sig as [i|], s as [j|]; simpl; try done.
  destruct (decide (i = j)) as [->|Hne]; [|by rewrite list_lookup_insert_ne].
  destruct (l !! j) as [b|] eqn:Hj; [|done]. by rewrite list_lookup_insert_eq by (by eapply lookup_lt_Some).
Qed.

(** Flags set in a loop that skips variables. *)
Lemma flag_loop {B} (m : compiled_module) (sig : B -> index) (l : list B) (driven : list bool) :
  let driven' := foldl (fun driven b => if is_reg m (sig b) then driven else set_flag driven (sig b)) driven l in
  length driven' = length driven
  /\ (forall s, is_driven driven s = true -> is_driven driven' s = true)
  /\ (forall b i, b ∈ l -> sig b = Some i -> is_reg m (Some i) = false -> i < length driven -> is_driven driven' (Some i) = true).
Proof.
  revert driven. induction l as [|b l IH]; intros driven; simpl; [split_and!; [done|done|]; by intros x i Hx%elem_of_nil|].
  destruct (IH (if is_reg m (sig b) then driven else set_flag driven (sig b))) as (Hl & Hmono & Hset).
  assert (Hl1 : length (if is_reg m (sig b) then driven else set_flag driven (sig b)) = length driven).
  { destruct (is_reg _ _); [done|apply length_set_flag]. }
  split_and!; [by rewrite Hl, Hl1| |].
  - intros s Hs. apply Hmono. destruct (is_reg _ _); [done|by apply is_driven_set_flag].
  - intros x i Hx Hsx Hr Hi. apply elem_of_cons in Hx as [->|Hx]; [|apply (Hset x); [done|done|done|lia]].
    apply Hmono. rewrite Hsx, Hr. unfold is_driven. simpl. by rewrite list_lookup_insert_eq.
Qed.

Lemma length_init_state m : length (st_values (init_state m)) = length (cm_signal_names m).
Proof. simpl. unfold init_consts. by rewrite length_imap, length_replicate. Qed.

(** An instance as elaboration leaves it, with [n] levels below it at most. *)
Record elaborated (n : nat) (pm : compiled_module) (inst : instance_state) : Prop := {
  el_mod : is_mod inst = Some pm;
  el_ok : tree_ok (S n) inst;
  el_nets : tree_nets (S n) inst;
  el_values : length (st_values (is_state inst)) = length (cm_signal_names pm);
  el_driven : length (is_driven_nets inst) = length (cm_signal_names pm);
}.

Lemma apply_param_value_ok cm st pname value :
  state_inv st -> let st' := apply_param_value cm st pname value in
  state_inv st' /\ length (st_values st') = length (st_values st).
Proof.
  intros Hi. unfold apply_param_value. destruct (cm_vectors cm !! pname) as [vd|]; [|done].
  case_bool_decide; [done|]. set (writes := filter _ _). simpl.
  assert (Hl : length (assign_values (st_values st) writes) = length (st_values st)) by apply length_assign_values.
  split; [|done]. by apply with_prev_inv, with_values_inv.
Qed.

Lemma apply_params_ok cm idef st :
  state_inv st -> state_inv (apply_params cm idef st)
    /\ length (st_values (apply_params cm idef st)) = length (st_values st).
Proof.
  unfold apply_params. set (override := fun st '(pname, value) => _).
  assert (Hfold : forall l st, state_inv st -> state_inv (foldl override st l)
    /\ length (st_values (foldl override st l)) = length (st_values st)).
  { induction l as [|[p v] l IH]; intros s Hs; simpl; [done|].
    destruct (default false (cm_param_is_local cm !! p)); [by apply IH|].
    destruct (apply_param_value_ok cm s p v Hs) as [Hs' Hl]. destruct (IH _ Hs') as [? Hl2]. split; [done|congruence]. }
  intros Hi. destruct (Hfold (zip (cm_param_order cm) (inst_param_positional_values idef)) st Hi) as [Hi1 Hl1].
  destruct (Hfold (inst_param_named_values idef) _ Hi1) as [Hi2 Hl2]. split; [done|congruence].
Qed.

(** The flags of the continuous assignments. *)
Lemma assign_flags m inst :
  is_mod inst = Some m ->
  let driven := is_driven_nets (init_driven_nets_from_assigns inst) in
  length driven = length (cm_signal_names m)
  /\ forall a i, a ∈ cm_assigns m -> ca_lhs_signal a = Some i -> is_reg m (Some i) = false ->
       i < length (cm_signal_names m) -> is_driven driven (Some i) = true.
Proof.
  intros Hm. unfold init_driven_nets_from_assigns. rewrite Hm. simpl.
  destruct (flag_loop m ca_lhs_signal (cm_assigns m) (replicate (length (cm_signal_names m)) false)) as (Hl & _ & Hset).
  rewrite length_replicate in *. split; [done|]. intros a i. apply Hset.
Qed.

(** A fresh instance without children. *)
Lemma elaborated_leaf n d m name st bindings drives :
  module_wf d m -> state_inv st -> length (st_values st) = length (cm_signal_names m) ->
  elaborated n m (mk_inst (Some m) name st
    (is_driven_nets (init_driven_nets_from_assigns (mk_inst (Some m) name (init_state m) [] [] [] []))) bindings drives []).
Proof.
  intros Hwf Hi Hl.
  destruct (assign_flags m (mk_inst (Some m) name (init_state m) [] [] [] []) eq_refl) as [Hdl Hset].
  split; try done.
  - split; [|done]. split; [done|]. intros m' [= <-]. apply Hwf.
  - split; [|done]. split; simpl.
    + intros m' [= <-]. apply Hwf.
    + intros m' a i [= <-] Ha Hs Hlt. pose proof (mw_assigns _ _ Hwf a Ha) as Hr. rewrite Hs in Hr.
      split_and!; [done| |done]. simpl. apply (Hset a); [done|done|done|lia].
    + by intros m' c dr i _ Hc%elem_of_nil.
Qed.

(** Marking the outputs of a child only adds driven nets. *)
Lemma mark_outputs_flags n pm parent child :
  elaborated n pm parent ->
  let parent' := mark_outputs pm parent child in
  is_mod parent' = Some pm /\ is_state parent' = is_state parent /\ is_children parent' = is_children parent
  /\ is_bindings parent' = is_bindings parent /\ is_output_drives parent' = is_output_drives parent
  /\ length (is_driven_nets parent') = length (cm_signal_names pm)
  /\ (forall s, is_driven (is_driven_nets parent) s = true -> is_driven (is_driven_nets parent') s = true)
  /\ (forall dr i, dr ∈ is_output_drives child -> dr_parent_signal dr = Some i -> is_reg pm (Some i) = false ->
       i < length (cm_signal_names pm) -> is_driven (is_driven_nets parent') (Some i) = true).
Proof.
  intros [Hm _ _ Hv Hd]. unfold mark_outputs.
  set (p1 := if bool_decide _ then _ else parent).
  assert (Hp1 : is_mod p1 = Some pm /\ is_state p1 = is_state parent /\ is_children p1 = is_children parent
    /\ is_bindings p1 = is_bindings parent /\ is_output_drives p1 = is_output_drives parent
    /\ length (is_driven_nets p1) = length (cm_signal_names pm)
    /\ (forall s, is_driven (is_driven_nets parent) s = true -> is_driven (is_driven_nets p1) s = true)).
  { unfold p1. case_bool_decide as He; [|by split_and!].
    destruct (assign_flags pm parent Hm) as [Hl _]. unfold init_driven_nets_from_assigns in *. rewrite Hm in *. simpl in *.
    split_and!; try done. intros s. rewrite He. by destruct s. }
  destruct Hp1 as (H1 & H2 & H3 & H4 & H5 & H6 & H7). simpl.
  destruct (flag_loop pm dr_parent_signal (is_output_drives child) (is_driven_nets p1)) as (Hl & Hmono & Hset).
  rewrite H6 in *. split_and!; try done. intros s Hs. by apply Hmono, H7.
Qed.

Lemma driven_net_mono m inst inst' i :
  length (st_values (is_state inst')) = length (st_values (is_state inst)) ->
  (forall s, is_driven (is_driven_nets inst) s = true -> is_driven (is_driven_nets inst') s = true) ->
  driven_net m inst i -> driven_net m inst' i.
Proof. intros Hl Hmono (? & ? & ?). split_and!; [lia|auto|done]. Qed.

Lemma elaborated_add n d pm parent child child' :
  module_wf d pm -> elaborated n pm parent ->
  tree_ok n child' -> tree_nets n child' -> is_output_drives child' = is_output_drives child ->
  (forall dr, dr ∈ is_output_drives child -> is_reg pm (dr_parent_signal dr) = false) ->
  let parent' := mark_outputs pm parent child in
  elaborated n pm (with_children parent' (is_children parent' ++ [child'])).
Proof.
  intros Hwf Hel Hok Hnets Hdr Hreg. cbv zeta.
  destruct (mark_outputs_flags n pm parent child Hel) as (Hm & Hs & Hc & Hb & Ho & Hdl & Hmono & Hset).
  destruct Hel as [Hpm [[Hpi Hpo] Hpc] [Hpn Hpcn] Hpv Hpd]. set (p1 := mark_outputs pm parent child) in *. clearbody p1.
  split; simpl.
  - done.
  - split; [split; simpl; [by rewrite Hs|rewrite Hm; by intros m [= <-]; apply Hwf]|].
    simpl. rewrite Hc. apply Forall_app. split; [done|by constructor].
  - split; [|simpl; rewrite Hc; apply Forall_app; split; [done|by constructor]].
    assert (Hmn : forall m i, driven_net m parent i -> driven_net m (with_children p1 (is_children p1 ++ [child'])) i).
    { intros m i. apply driven_net_mono; simpl; [by rewrite Hs|done]. }
    split; simpl; rewrite ?Hm, ?Hs.
    + intros m [= <-]. apply Hwf.
    + intros m a i [= <-] Ha Hsa Hlt. apply Hmn. by eapply (nn_assigns _ Hpn).
    + intros m c dr i [= <-] Hin Hd Hsd Hlt. rewrite Hc in Hin. apply elem_of_app in Hin as [Hin|Hin].
      * apply Hmn. by eapply (nn_outputs _ Hpn).
      * apply list_elem_of_singleton in Hin as ->. rewrite Hdr in Hd. specialize (Hreg dr Hd). rewrite Hsd in Hreg.
        split_and!; simpl; [by rewrite Hs| |done]. apply (Hset dr); [done|done|done|lia].
  - by rewrite Hs.
  - done.
Qed.

Lemma new_child_elaborated n d pm cm idef : module_wf d cm -> elaborated n cm (new_child pm cm idef).
Proof.
  intros Hwf. unfold new_child. destruct (fill_bindings pm cm idef _) as [bindings drives].
  destruct (apply_params_ok cm idef (init_state cm) (init_state_inv cm)) as [Hi Hl].
  apply (elaborated_leaf n d); [done|done|]. rewrite Hl. apply length_init_state.
Qed.

Lemma elaborate_children_ok fuel d pm parent :
  design_wf d -> module_wf d pm -> (forall n, elaborated n pm parent) -> is_children parent = [] ->
  elaborated fuel pm (elaborate_children fuel d parent)
  /\ is_output_drives (elaborate_children fuel d parent) = is_output_drives parent.
Proof.
  intros Hd. revert pm parent. induction fuel as [|fuel IH]; intros pm parent Hwf Hel Hc.
  { simpl. rewrite (el_mod 0 _ _ (Hel 0)). done. }
  simpl. rewrite (el_mod 0 _ _ (Hel 0)). specialize (Hel (S fuel)). clear Hc. set (add := fun parent idef => _).
  assert (Hfold : forall l parent, (forall idef, idef ∈ l -> idef ∈ cm_instances pm) -> elaborated (S fuel) pm parent ->
    elaborated (S fuel) pm (foldl add parent l) /\ is_output_drives (foldl add parent l) = is_output_drives parent).
  2:{ by apply Hfold. }
  clear parent Hel. induction l as [|idef l IHl]; intros parent Hin Hel; [done|]. simpl.
  assert (Hl : forall idef, idef ∈ l -> idef ∈ cm_instances pm) by (intros x Hx; apply Hin; set_solver).
  assert (Hadd : elaborated (S fuel) pm (add parent idef) /\ is_output_drives (add parent idef) = is_output_drives parent).
  { unfold add. destruct (find_module d (inst_module_name idef)) as [cm|] eqn:Hf; [|done].
    destruct (IH cm (new_child pm cm idef)) as [Hce Hco].
    - by eapply Hd.
    - intros n. apply (new_child_elaborated n d). by eapply Hd.
    - unfold new_child. by destruct (fill_bindings pm cm idef _).
    - destruct (mark_outputs_flags _ pm parent (new_child pm cm idef) Hel) as (_ & _ & _ & _ & Ho & _).
      split; [|done]. eapply (elaborated_add (S fuel) d); [done|done|apply Hce|apply Hce|done|].
      intros dr Hdr. apply (mw_outputs _ _ Hwf idef cm); [apply Hin; set_solver|done|done]. }
  destruct Hadd as [Ha Hao]. destruct (IHl (add parent idef) Hl Ha) as [? ->]. done.
Qed.

Lemma elaborate_ok d top :
  design_wf d -> module_wf d top -> tree_ok (S max_depth) (elaborate d top) /\ tree_nets (S max_depth) (elaborate d top).
Proof.
  intros Hd Ht. unfold elaborate.
  destruct (elaborate_children_ok max_depth d top
    (init_driven_nets_from_assigns (mk_inst (Some top) (cm_name top) (init_state top) [] [] [] []))) as [[_ Hok Hn _ _] _];
    [done|done| |done|done].
  intros n. apply (elaborated_leaf n d); [done|apply init_state_inv|apply length_init_state].
Qed.

(** ** Running a design *)

(** Setting a signal from outside, the way the embedding engine sets the
    inputs of the top instance. *)
Definition set_input (inst : instance_state) (sig : index) (v : dns) : instance_state :=
  with_inst_state inst (with_values (is_state inst) (set_value (st_values (is_state inst)) sig v)).

(** The states of a design: elaborated, with inputs set and ticks simulated in
    any order. *)
Inductive reachable (d : compiled_design) (top : compiled_module) : instance_state -> Prop :=
| reach_elaborate : reachable d top (elaborate d top)
| reach_input inst sig v : reachable d top inst -> reachable d top (set_input inst sig v)
| reach_tick inst inst' tick ps : reachable d top inst -> simulate inst tick ps = Some inst' -> reachable d top inst'.

Lemma tree_all_height P n inst : tree_all P n inst -> tree_all P (height inst) inst.
Proof.
  revert inst. induction n as [|n IH]; intros [m nm st dr b o c]; [done|]. intros [Hn Hc]. simpl in *.
  split; [done|]. apply Forall_forall. intros x Hx. rewrite Forall_forall in Hc.
  assert (Hmono : forall k k' i, tree_all P k i -> k <= k' -> tree_all P k' i).
  { clear. induction k as [|k IHk]; intros [|k'] i; simpl; try done; [lia|]. intros [? Hc] ?. split; [done|].
    eapply Forall_impl; [done|]. intros y Hy. apply IHk; [done|lia]. }
  apply (Hmono (height x)); [apply IH, Hc, Hx|].
  assert (Hall : Forall (fun k => k <= list_max (map height c)) (map height c)) by (apply list_max_le; done).
  rewrite Forall_forall in Hall. apply Hall. apply list_elem_of_fmap. eauto.
Qed.

(** [update_prev_recursive] keeps values, shapes and consistency. *)
Lemma update_prev_shape n inst : tree_ok n inst -> shape_of (update_prev_recursive inst) = shape_of inst.
Proof.
  revert inst. induction n as [|n IH]; intros [m nm st dr b o c]; [done|]. intros [_ Hc]. simpl in *. f_equal.
  rewrite map_map. apply map_ext_in. intros x Hx. apply IH. rewrite Forall_forall in Hc. apply Hc. by apply list_elem_of_In.
Qed.

Lemma update_prev_drives c : child_drives (update_prev_recursive c) = child_drives c.
Proof. by destruct c. Qed.

Lemma update_prev_consistent n inst : tree_ok n inst -> consistent n inst -> consistent n (update_prev_recursive inst).
Proof.
  revert inst. induction n as [|n IH]; intros inst; [done|]. intros [_ Hok] [Hm|[Hn Hc]]; [left; by destruct inst|].
  right. destruct inst as [m nm st dr b o c]. cbn [update_prev_recursive]. split.
  - intros m' i Hm' Hdn. specialize (Hn m' i Hm'). simpl in *. unfold all_drives in *. simpl in *.
    assert (Hcd : child_drives <$> map update_prev_recursive c = child_drives <$> c).
    { clear. induction c as [|x c IHc]; simpl; [done|]. f_equal; [apply update_prev_drives|done]. }
    rewrite Hcd. by apply Hn.
  - simpl in *. apply Forall_fmap. rewrite Forall_forall in *. intros x Hx. simpl. destruct (Hc x Hx) as [Hp Hcx]. split.
    + eapply ports_consistent_eq; [| | |exact Hp]; [done|done|]. split; [by destruct x|].
      eapply update_prev_shape. by apply Hok.
    + apply IH; [by apply Hok|done].
Qed.

(** One tick of a well-formed tree that drives nets only. *)
Lemma simulate_detail inst tick ps n :
  tree_ok n inst -> tree_nets n inst ->
  exists t1 inst', sequential_pass (height inst) inst tick ps = Some t1 /\ simulate inst tick ps = Some inst'
    /\ tree_ok (height inst) inst' /\ tree_nets (height inst) inst'
    /\ (consistent (height inst) inst' \/
        let '(token, any, st) := initial_triggers (is_state t1) in
        still_changing (fun c => comb_resolve (pred (height inst)) c tick) comb_max_iter (with_inst_state t1 st) tick token any).
Proof.
  intros Hok Hnets. apply tree_all_height in Hok, Hnets. fold tree_ok tree_nets in *. unfold simulate.
  destruct (sequential_pass_ok (height inst) inst tick ps Hok) as (t1 & -> & Hok1 & Hs1). cbn [mbind option_bind].
  assert (Hn1 : tree_nets (height inst) t1) by (by eapply tree_nets_shape).
  destruct (comb_resolve_detail (height inst) t1 tick Hok1 Hn1) as (b & t2 & -> & Hok2 & Hs2 & _ & Hor). cbn [mbind option_bind].
  eexists t1, _. split; [done|]. split; [done|]. split; [by apply update_prev_ok|]. split.
  - eapply tree_nets_shape; [|exact Hn1]. etrans; [by eapply update_prev_shape|done].
  - destruct Hor as [Hc|Hb]; [left; by apply update_prev_consistent|by right].
Qed.

Lemma set_input_ok inst sig v n :
  tree_ok n inst -> tree_nets n inst -> tree_ok n (set_input inst sig v) /\ tree_nets n (set_input inst sig v).
Proof.
  intros Hok Hnets. split.
  - apply tree_ok_state; [done|]. apply with_values_inv; [apply length_set_value|by eapply tree_ok_inv].
  - eapply tree_nets_shape; [|done]. apply with_inst_state_shape. apply length_set_value.
Qed.

Lemma reachable_ok d top inst :
  design_wf d -> module_wf d top -> reachable d top inst -> exists n, tree_ok n inst /\ tree_nets n inst.
Proof.
  intros Hd Ht. induction 1 as [|inst sig v _ [n [Hok Hn]]|inst inst' tick ps _ [n [Hok Hn]] Hs].
  - exists (S max_depth). by apply elaborate_ok.
  - exists n. by apply set_input_ok.
  - destruct (simulate_detail inst tick ps n Hok Hn) as (t1 & i2 & _ & He & Hok2 & Hn2 & _). rewrite He in Hs.
    injection Hs as <-. eauto.
Qed.

(** ** Theorems *)

(** C5. A running design stays well formed and every tick leaves it consistent once it settles.  Take a design whose
    expressions and statements refer only to earlier ones, and in which no continuous assignment and no output
    of an instance drives a variable (else a net can be left stale, see [assign_to_variable_goes_stale]).  In
    every state reachable from its elaboration by setting signals from outside and simulating ticks, the next
    tick returns, and in its result every net of the whole instance tree has the resolution of its drivers and
    every input port the value bound to it, unless 64 deltas in a row each changed something. *)
Theorem reachable_design_consistent (d : compiled_design) (top : compiled_module) (inst : instance_state) (tick : Z)
  (process_sequential : bool) :
  design_wf d -> module_wf d top -> reachable d top inst ->
  exists t1 inst', sequential_pass (height inst) inst tick process_sequential = Some t1
    /\ simulate inst tick process_sequential = Some inst'
    /\ (consistent (height inst) inst' \/
        let '(token, any, st) := initial_triggers (is_state t1) in
        still_changing (fun c => comb_resolve (pred (height inst)) c tick) comb_max_iter (with_inst_state t1 st) tick token any).
Proof.
  intros Hd Ht Hr. destruct (reachable_ok d top inst Hd Ht Hr) as (n & Hok & Hn).
  destruct (simulate_detail inst tick process_sequential n Hok Hn) as (t1 & i2 & ? & ? & _ & _ & ?). eauto 6.
Qed.

Lemma find_module_elem d name m : find_module d name = Some m -> m ∈ cd_modules d.
Proof.
  unfold find_module. destruct (cd_module_index d !! name); simpl; [|done]. apply list_elem_of_lookup_2.
Qed.

(** [module inv(input i, output o); assign o = ~i; endmodule
     module top; wire a, b, c; inv u(.i(a), .o(b)); inv v(b, c); endmodule] *)
Definition inv_design_module : compiled_module :=
  mk_module "inv" [mk_port "i" dir_input (Some 0); mk_port "o" dir_output (Some 1)] ["i"; "o"]
    {["i" := mk_port_decl dir_input false 0 0 false false; "o" := mk_port_decl dir_output false 0 0 false false]} ∅
    ["i"; "o"] [false; false] [false; false] [false; false] [false; false] [indeterminate_state; indeterminate_state]
    {["i" := 0; "o" := 1]} [] ∅ ∅
    [mk_node ek_signal indeterminate_state None None (Some 0);
     mk_node ek_unary_not indeterminate_state (Some 0) None None] ∅
    [mk_assign (Some 1) (Some 1) None] [] [] [] [] ∅ ∅ 0.

Definition scalar_ref (sig : nat) : connection_ref := mk_connection cn_scalar false (Some sig) "" indeterminate_state [] [] [].

Definition chain_module : compiled_module :=
  mk_module "top" [] [] ∅ ∅ ["a"; "b"; "c"] [false; false; false] [false; false; false] [false; false; false]
    [false; false; false] [indeterminate_state; indeterminate_state; indeterminate_state]
    {["a" := 0; "b" := 1; "c" := 2]} [] ∅ ∅ [] ∅ [] [] [] []
    [mk_instance "inv" "u" false [] [] [mk_instance_connection "o" (scalar_ref 1); mk_instance_connection "i" (scalar_ref 0)];
     mk_instance "inv" "v" false [] [] [mk_instance_connection "" (scalar_ref 1); mk_instance_connection "" (scalar_ref 2)]]
    ∅ ∅ 0.

Definition chain_design : compiled_design := build_design [inv_design_module; chain_module].

Lemma chain_modules_wf m : m ∈ cd_modules chain_design -> module_wf chain_design m.
Proof.
  intros Hm. simpl in Hm. apply elem_of_cons in Hm as [->|Hm]; [|apply list_elem_of_singleton in Hm as ->].
  - split; [by apply no_statements_ok|exact (all_below_spec operands (cm_expr_nodes inv_design_module) eq_refl)| |].
    + intros a Ha. simpl in Ha. by apply list_elem_of_singleton in Ha as ->.
    + by intros idef cm dr Hi%elem_of_nil.
  - split; [by apply no_statements_ok|exact (all_below_spec operands [] eq_refl)|by intros a Ha%elem_of_nil|].
    intros idef cm dr Hi Hf Hdr. simpl in Hi.
    repeat (apply elem_of_cons in Hi as [->|Hi]; [vm_compute in Hf; injection Hf as <-; vm_compute in Hdr;
      apply list_elem_of_singleton in Hdr as ->; reflexivity|]). by apply elem_of_nil in Hi.
Qed.

Lemma reachable_design_consistent_witness :
  exists inst', simulate (set_input (elaborate chain_design chain_module) (Some 0) true_state) 0 true = Some inst'
    /\ consistent 2 inst' /\ st_values (is_state inst') = [true_state; false_state; true_state].
Proof.
  destruct (reachable_design_consistent chain_design chain_module
    (set_input (elaborate chain_design chain_module) (Some 0) true_state) 0 true) as (t1 & inst' & H1 & H2 & Hor).
  - intros name m Hf. apply chain_modules_wf. by eapply find_module_elem.
  - apply chain_modules_wf. right. left.
  - apply reach_input, reach_elaborate.
  - vm_compute in H1. injection H1 as <-.
    destruct Hor as [Hc|Hb]; [|vm_compute in Hb; destruct Hb]. exists inst'. vm_compute in H2. injection H2 as <-.
    split; [vm_compute; reflexivity|]. split; [exact Hc|reflexivity].
Defined.
