(* ===== verification/VLower.v ===== *)
(** * Verilog: lowering of expressions to bits

    The expression builder of verilog/digital/digital.h ([expr_parser]):
    [add_node], which folds constants and shares equal nodes, and the
    lowering of vector arithmetic, comparison, shifts and selects to one-bit
    nodes.

    A lowering step runs in the monad [L]: it takes the module under
    construction and the errors reported so far and returns a result with
    the new state, or [None] where the code reads past the end of a vector
    or divides with overflow.  The position of an error is not modelled, its
    message is. *)

From S2P Require Import Prelude Logic4 VModule VEval VExec.
From Stdlib Require Import ZArith Lia.

(** ** The state of the builder *)

Record pstate := mk_pstate { ps_m : compiled_module; ps_errors : list string }.

Definition with_nodes (m : compiled_module) (nodes : list expr_node) (intern : gmap expr_node nat) : compiled_module :=
  mk_module (cm_name m) (cm_ports m) (cm_port_order m) (cm_port_decls m) (cm_vectors m) (cm_signal_names m)
    (cm_signal_is_reg m) (cm_signal_is_signed m) (cm_signal_is_const m) (cm_signal_is_const_foldable m)
    (cm_signal_const_value m) (cm_signal_index m) (cm_param_order m) (cm_param_default_values m) (cm_param_is_local m)
    nodes intern (cm_assigns m) (cm_always_ffs m) (cm_always_combs m) (cm_initials m) (cm_instances m) (cm_functions m)
    (cm_tasks m) (cm_inline_counter m).

Definition L (A : Type) : Type := pstate -> option (A * pstate).

#[global] Instance L_ret : MRet L := fun A a s => Some (a, s).

#[global] Instance L_bind : MBind L := fun A B f c s => '(a, s) ← c s; f a s.

(** [p->err(...)] *)
Definition report (msg : string) : L () := fun s => Some ((), mk_pstate (ps_m s) (ps_errors s ++ [msg])).

(** The module as it is now. *)
Definition get_module : L compiled_module := fun s => Some (ps_m s, s).

(** An access the code does not check. *)
Definition unchecked {A} (x : option A) : L A := fun s => a ← x; Some (a, s).

(** [for(x : l) out.push_back(f(x))] *)
Fixpoint lmap {A B} (f : A -> L B) (l : list A) : L (list B) :=
  match l with
  | [] => mret []
  | x :: l => y ← f x; ys ← lmap f l; mret (y :: ys)
  end.

(** A loop that updates one value. *)
Fixpoint lfold {A B} (f : B -> A -> L B) (b : B) (l : list A) : L B :=
  match l with [] => mret b | x :: l => b ← f b x; lfold f b l end.

(** ** Nodes *)

Definition max_expr_nodes : nat := Z.to_nat 100000.

Definition max_concat_bits : nat := Z.to_nat 4096.

(** [{.kind = expr_kind::literal, .literal = v}] and the like. *)
Definition literal_node (v : dns) : expr_node := mk_node ek_literal v SIZE_MAX SIZE_MAX SIZE_MAX.

Definition signal_node (sig : index) : expr_node := mk_node ek_signal indeterminate_state SIZE_MAX SIZE_MAX sig.

Definition op1_node (k : expr_kind) (a : index) : expr_node := mk_node k indeterminate_state a SIZE_MAX SIZE_MAX.

Definition op2_node (k : expr_kind) (a b : index) : expr_node := mk_node k indeterminate_state a b SIZE_MAX.

(** The constant a signal may be replaced by: only [localparam]s are
    foldable. *)
Definition foldable_const (m : compiled_module) (sig : index) : option dns :=
  match vget (cm_signal_is_const m) sig, vget (cm_signal_const_value m) sig, vget (cm_signal_is_const_foldable m) sig with
  | Some true, Some v, Some true => Some v
  | _, _, _ => None
  end.

(** [try_get_literal] *)
Definition try_get_literal (m : compiled_module) (root : index) : option dns :=
  n ← vget (cm_expr_nodes m) root;
  if bool_decide (en_kind n = ek_literal) then Some (en_literal n) else None.

(** The literal a node folds to. *)
Definition fold_node (m : compiled_module) (n : expr_node) : option dns :=
  match en_kind n with
  | ek_literal | ek_signal => None
  | ek_unary_not | ek_is_unknown => eval_op1 (en_kind n) <$> try_get_literal m (en_a n)
  | _ => a ← try_get_literal m (en_a n); b ← try_get_literal m (en_b n); Some (eval_op2 (en_kind n) a b)
  end.

(** The tail of [add_node]: interning and the node limit. *)
Definition intern_node (n : expr_node) : L index := fun s =>
  let m := ps_m s in
  match cm_expr_intern m !! n with
  | Some i => Some (Some i, s)
  | None =>
      let idx := length (cm_expr_nodes m) in
      if bool_decide (max_expr_nodes <= idx)
      then (_ ← report "expression too large (node limit exceeded)"; mret SIZE_MAX) s
      else Some (Some idx, mk_pstate (with_nodes m (cm_expr_nodes m ++ [n]) (<[n := idx]> (cm_expr_intern m))) (ps_errors s))
  end.

(** [add_node]; the recursive call on a folded literal folds no further. *)
Definition add_node (n : expr_node) : L index :=
  m ← get_module;
  let n := match en_kind n with
           | ek_signal => match foldable_const m (en_signal n) with Some v => literal_node v | None => n end
           | _ => n
           end in
  match fold_node m n with
  | Some v => intern_node (literal_node v)
  | None => intern_node n
  end.

Definition make_literal (v : dns) : L index := add_node (literal_node v).

Definition make_signal_root (sig : index) : L index := add_node (signal_node sig).

Definition make_not (a : index) : L index := add_node (op1_node ek_unary_not a).

Definition make_is_unknown (a : index) : L index := add_node (op1_node ek_is_unknown a).

Definition make_and (a b : index) : L index := add_node (op2_node ek_binary_and a b).

Definition make_or (a b : index) : L index := add_node (op2_node ek_binary_or a b).

Definition make_xor (a b : index) : L index := add_node (op2_node ek_binary_xor a b).

Definition make_mux (sel t f : index) : L index :=
  nsel ← make_not sel;
  a ← make_and sel t;
  b ← make_and nsel f;
  make_or a b.

(** ** Values *)

Record expr_value := mk_value {
  xv_is_vector : bool;
  xv_is_signed : bool;
  xv_scalar_root : index;
  xv_vector_roots : list index;
  xv_msb : Z;
  xv_lsb : Z;
}.

Definition make_scalar (root : index) (msb lsb : Z) (is_signed : bool) : expr_value :=
  mk_value false is_signed root [] msb lsb.

Definition make_vector_with_range (roots : list index) (msb lsb : Z) (is_signed : bool) : L expr_value :=
  match roots with
  | [] => x ← make_literal indeterminate_state; mret (make_scalar x 0 0 is_signed)
  | [r] => mret (make_scalar r msb lsb is_signed)
  | _ => mret (mk_value true is_signed SIZE_MAX roots msb lsb)
  end.

Definition make_vector (roots : list index) (is_signed : bool) : L expr_value :=
  roots ← (if bool_decide (max_concat_bits < length roots)
           then _ ← report "vector expression too wide (limit exceeded)"; mret (take max_concat_bits roots)
           else mret roots);
  match roots with
  | [] => x ← make_literal indeterminate_state; mret (make_scalar x 0 0 is_signed)
  | _ => make_vector_with_range roots (Z.of_nat (length roots) - 1) 0 is_signed
  end.

(** The roots of a value, msb first. *)
Definition roots_of (v : expr_value) : list index :=
  if xv_is_vector v then xv_vector_roots v else [xv_scalar_root v].

Definition width (v : expr_value) : nat := if xv_is_vector v then length (xv_vector_roots v) else 1.

Definition resize_to_vector (v : expr_value) (w : nat) (sign_extend : bool) : L (list index) :=
  let src := roots_of v in
  if bool_decide (w <= 1) then (lsb ← unchecked (last src); mret [lsb])
  else if bool_decide (length src = w) then mret src
  else if bool_decide (w < length src) then mret (drop (length src - w) src)
  else
    z ← make_literal false_state;
    let s := match src with [] => z | msb :: _ => msb end in
    mret (replicate (w - length src) (if sign_extend then s else z) ++ src).

Definition resize (v : expr_value) (w : nat) (sign_extend : bool) : L expr_value :=
  if bool_decide (w <= 1)
  then vv ← resize_to_vector v 1 sign_extend; r ← unchecked (head vv); mret (make_scalar r 0 0 (xv_is_signed v))
  else vv ← resize_to_vector v w sign_extend; make_vector vv (xv_is_signed v).

Definition to_bool_root (v : expr_value) : L index :=
  if negb (xv_is_vector v) then mret (xv_scalar_root v)
  else match xv_vector_roots v with
       | [] => make_literal indeterminate_state
       | r :: l => lfold make_or r l
       end.

(** [compare_eq] and [compare_case_eq], which differ in the node they use. *)
Definition compare_bits (k : expr_kind) (a b : expr_value) : L index :=
  let w := Nat.max (width a) (width b) in
  let signed_op := xv_is_signed a && xv_is_signed b in
  av ← resize_to_vector a w signed_op;
  bv ← resize_to_vector b w signed_op;
  match zip av bv with
  | [] => unchecked None
  | (a0, b0) :: l =>
      r ← add_node (op2_node k a0 b0);
      lfold (fun r '(ai, bi) => x ← add_node (op2_node k ai bi); make_and r x) r l
  end.

Definition compare_eq : expr_value -> expr_value -> L index := compare_bits ek_binary_eq.

Definition compare_case_eq : expr_value -> expr_value -> L index := compare_bits ek_binary_case_eq.

Definition bitwise_unary (a : expr_value) (k : expr_kind) : L expr_value :=
  if negb (xv_is_vector a)
  then r ← add_node (op1_node k (xv_scalar_root a)); mret (make_scalar r 0 0 (xv_is_signed a))
  else out ← lmap (fun r => add_node (op1_node k r)) (xv_vector_roots a); make_vector out (xv_is_signed a).

Definition bitwise_binary (a b : expr_value) (k : expr_kind) : L expr_value :=
  let w := Nat.max (width a) (width b) in
  let signed_op := xv_is_signed a && xv_is_signed b in
  av ← resize_to_vector a w signed_op;
  bv ← resize_to_vector b w signed_op;
  if bool_decide (w = 1)
  then
    a0 ← unchecked (head av); b0 ← unchecked (head bv);
    r ← add_node (op2_node k a0 b0); mret (make_scalar r 0 0 signed_op)
  else
    out ← lmap (fun '(ai, bi) => add_node (op2_node k ai bi)) (zip av bv);
    make_vector out signed_op.

(** ** Constants *)

(** What [eval_const_root] reads for a signal: the value of a constant, also
    of a [parameter] that an instance may override. *)
Definition const_values (m : compiled_module) : list dns :=
  imap (fun i (c : bool) => if c then default indeterminate_state (cm_signal_const_value m !! i) else indeterminate_state)
    (cm_signal_is_const m).

Definition eval_const_root (fuel : nat) (m : compiled_module) (root : index) : option dns :=
  eval_expr fuel (cm_expr_nodes m) root (const_values m).

(** [eval_const_root_cached]; a node that is ready carries the mark 1. *)
Definition eval_const_root_cached (m : compiled_module) (root : index) (cm : list dns * list Z)
  : option (dns * (list dns * list Z)) :=
  eval_memo (S (length (snd cm))) (cm_expr_nodes m) (const_values m) 1 root cm.

(** The cache and the ready flags as [try_eval_const_uint64] allocates them. *)
Definition fresh_cache (m : compiled_module) : list dns * list Z :=
  (replicate (length (cm_expr_nodes m)) dns_default, replicate (length (cm_expr_nodes m)) 0%Z).

(** The loop of [try_eval_const_uint64] over the roots, lsb first; the result
    [Some None] is [false]. *)
Fixpoint uint64_loop (m : compiled_module) (roots : list index) (bit_from_lsb : Z) (value : Z) (cm : list dns * list Z)
  : option (option Z) :=
  match roots with
  | [] => Some (Some value)
  | r :: roots =>
      '(b, cm) ← eval_const_root_cached m r cm;
      let b := normalize_z_to_x b in
      if is_unknown b then Some None
      else if bool_decide (64 <= bit_from_lsb)%Z then
        if bool_decide (b = true_state) then Some None else uint64_loop m roots (bit_from_lsb + 1) value cm
      else
        uint64_loop m roots (bit_from_lsb + 1)
          (if bool_decide (b = true_state) then Z.lor value (Z.shiftl 1 bit_from_lsb) else value) cm
  end.

Definition try_eval_const_uint64 (v : expr_value) : L (option Z) :=
  m ← get_module;
  match roots_of v with
  | [] => mret None
  | roots => unchecked (uint64_loop m (rev roots) 0 0 (fresh_cache m))
  end.

(** The loop of [try_eval_const_int64]. *)
Fixpoint int64_loop (m : compiled_module) (signed_value sign_bit : bool) (roots : list index) (bit_from_lsb : Z) (value : Z)
  (cm : list dns * list Z) : option (option Z) :=
  match roots with
  | [] => Some (Some value)
  | r :: roots =>
      '(b, cm) ← eval_const_root_cached m r cm;
      let b := normalize_z_to_x b in
      if is_unknown b then Some None
      else
        let bit_is_one := bool_decide (b = true_state) in
        if bool_decide (64 <= bit_from_lsb)%Z then
          if (if signed_value then negb (Bool.eqb bit_is_one sign_bit) else bit_is_one) then Some None
          else int64_loop m signed_value sign_bit roots (bit_from_lsb + 1) value cm
        else
          int64_loop m signed_value sign_bit roots (bit_from_lsb + 1)
            (if bit_is_one then Z.lor value (Z.shiftl 1 bit_from_lsb) else value) cm
  end.

(** [static_cast<std::int64_t>] of an unsigned 64-bit value *)
Definition to_int64 (u : Z) : Z := if bool_decide (u < 2 ^ 63)%Z then u else u - 2 ^ 64.

Definition try_eval_const_int64 (v : expr_value) (signed_value : bool) : L (option Z) :=
  m ← get_module;
  match roots_of v with
  | [] => mret None
  | msb :: rest =>
      let w := Z.of_nat (length (msb :: rest)) in
      '(b, cm) ← unchecked (eval_const_root_cached m msb (fresh_cache m));
      let msb_raw := normalize_z_to_x b in
      if is_unknown msb_raw then mret None
      else
        let sign_bit := bool_decide (msb_raw = true_state) in
        r ← unchecked (int64_loop m signed_value sign_bit (rev (msb :: rest)) 0 0 cm);
        match r with
        | None => mret None
        | Some value =>
            if signed_value then
              if bool_decide (64 < w)%Z then
                if negb (Bool.eqb (Z.testbit value 63) sign_bit) then mret None else mret (Some (to_int64 value))
              else if bool_decide (w < 64)%Z && sign_bit
              then mret (Some (to_int64 (Z.lor value (Z.shiftl (2 ^ 64 - 1) w mod 2 ^ 64))))
              else mret (Some (to_int64 value))
            else if bool_decide (2 ^ 63 - 1 < value)%Z then mret None
            else mret (Some value)
        end
  end.

Definition try_eval_const_int (v : expr_value) : L (option Z) :=
  u ← try_eval_const_uint64 v;
  mret (match u with Some u => if bool_decide (2 ^ 31 - 1 < u)%Z then None else Some u | None => None end).

(** [make_uint_literal] and [make_int_literal]: bit [k] of the value for
    [k < 64], [high] above. *)
Definition literal_bits (value : Z) (high : bool) (w : nat) : list bool :=
  (fun pos_from_msb => let k := Z.of_nat (w - 1 - pos_from_msb) in
                       if bool_decide (k < 64)%Z then Z.testbit value k else high) <$> seq 0 w.

Definition make_bits (bits : list bool) : L (list index) :=
  lits ← lmap (fun b => make_literal (dns_of_bool b)) (rev bits);
  mret (rev lits).

Definition make_uint_literal (value : Z) (w : nat) : L expr_value :=
  if bool_decide (w <= 1)
  then r ← make_literal (dns_of_bool (Z.testbit value 0)); mret (make_scalar r 0 0 false)
  else roots ← make_bits (literal_bits value false w); make_vector roots false.

Definition make_int_literal (value : Z) (w : nat) : L expr_value :=
  if bool_decide (w <= 1)
  then r ← make_literal (dns_of_bool (Z.testbit value 0)); mret (make_scalar r 0 0 false)
  else roots ← make_bits (literal_bits value (bool_decide (value < 0)%Z) w); make_vector roots true.

Definition any_unknown_root (v : expr_value) : L index :=
  if negb (xv_is_vector v) then make_is_unknown (xv_scalar_root v)
  else match xv_vector_roots v with
       | [] => make_literal true_state
       | l =>
           r ← make_literal false_state;
           lfold (fun r bit => u ← make_is_unknown bit; make_or r u) r l
       end.

Definition make_unknown_vector (w : nat) (is_signed : bool) : L expr_value :=
  x ← make_literal indeterminate_state;
  if bool_decide (w <= 1) then mret (make_scalar x 0 0 is_signed) else make_vector (replicate w x) is_signed.

(** ** Arithmetic *)

(** The width of a result, cut at the limit with an error. *)
Definition limit_width (w : nat) (msg : string) : L nat :=
  if bool_decide (max_concat_bits < w) then _ ← report msg; mret max_concat_bits else mret w.

(** [make_or(any_unknown_root(a), any_unknown_root(b))]; the language leaves
    the order of the two calls open. *)
Definition unknown_either (a b : expr_value) : L index :=
  ua ← any_unknown_root a;
  ub ← any_unknown_root b;
  make_or ua ub.

(** [out[i] = make_mux(unknown_sel, x, out[i])] for all [i]. *)
Definition mask_unknown (unknown_sel : index) (out : list index) : L (list index) :=
  x ← make_literal indeterminate_state;
  lmap (fun r => make_mux unknown_sel x r) out.

(** The ripple-carry loop over the operand bits, lsb first. *)
Fixpoint ripple (invert_b : bool) (l : list (index * index)) (carry : index) : L (list index) :=
  match l with
  | [] => mret []
  | (ai, bi) :: l =>
      bi ← (if invert_b then make_not bi else mret bi);
      axb ← make_xor ai bi;
      s ← make_xor axb carry;
      t1 ← make_and ai bi;
      t2 ← make_and ai carry;
      t3 ← make_and bi carry;
      t12 ← make_or t1 t2;
      carry ← make_or t12 t3;
      out ← ripple invert_b l carry;
      mret (s :: out)
  end.

(** [arith_add] and [arith_sub]: the latter inverts the second operand and
    starts with a carry. *)
Definition arith_add_sub (sub : bool) (msg : string) (a b : expr_value) : L expr_value :=
  let signed_op := xv_is_signed a && xv_is_signed b in
  w ← limit_width (Nat.max (width a) (width b)) msg;
  unknown_sel ← unknown_either a b;
  if bool_decide (w <= 1) then
    av ← resize_to_vector a 1 signed_op; av ← unchecked (head av);
    bv ← resize_to_vector b 1 signed_op; bv ← unchecked (head bv);
    r ← make_xor av bv;
    x ← make_literal indeterminate_state;
    r ← make_mux unknown_sel x r;
    mret (make_scalar r 0 0 signed_op)
  else
    av ← resize_to_vector a w signed_op;
    bv ← resize_to_vector b w signed_op;
    carry ← make_literal (dns_of_bool sub);
    out ← ripple sub (rev (zip av bv)) carry;
    out ← mask_unknown unknown_sel (rev out);
    make_vector out signed_op.

Definition arith_add : expr_value -> expr_value -> L expr_value :=
  arith_add_sub false "addition result too wide (limit exceeded)".

Definition arith_sub : expr_value -> expr_value -> L expr_value :=
  arith_add_sub true "subtraction result too wide (limit exceeded)".

(** [mul2_tile]: the product of two 2-bit numbers, msb first. *)
Definition mul2_tile (a0 a1 b0 b1 : index) : L (list index) :=
  p0 ← make_and a0 b0;
  t1 ← make_and a0 b1;
  t2 ← make_and a1 b0;
  p1 ← make_xor t1 t2;
  c1 ← make_and t1 t2;
  t3 ← make_and a1 b1;
  p2 ← make_xor t3 c1;
  p3 ← make_and t3 c1;
  mret [p3; p2; p1; p0].

(** [bit_from_lsb] of the 8 by 8 case, [z] outside. *)
Definition bit_or_zero (z : index) (v : list index) (bit : nat) : index :=
  if bool_decide (length v <= bit) then z else default SIZE_MAX (v !! (length v - 1 - bit)).

(** [w] bits with [prod], msb first, placed [shift] bits from the lsb. *)
Definition place (z : index) (w shift : nat) (prod : list index) : list index :=
  rev (take w (replicate shift z ++ rev prod ++ replicate w z)).

(** The pairs [(ai, bi)] of the two loops. *)
Definition tiles : list (nat * nat) := ai ← seq 0 4; bi ← seq 0 4; [(ai, bi)].

Definition mul8_tile (z : index) (av bv : list index) (acc : expr_value) (t : nat * nat) : L expr_value :=
  let '(ai, bi) := t in
  prod ← mul2_tile (bit_or_zero z av (2 * ai)) (bit_or_zero z av (2 * ai + 1))
                   (bit_or_zero z bv (2 * bi)) (bit_or_zero z bv (2 * bi + 1));
  p ← make_vector (place z 16 (2 * (ai + bi)) prod) false;
  arith_add acc p.

(** One partial product of the general case: [a] shifted left by the bit's
    position, masked with the bit. *)
Definition partial_product (z : index) (av : list index) (shift : nat) (bbit : index) : L (list index) :=
  l ← lmap (fun a => make_and a bbit) (drop shift av);
  mret (l ++ replicate (length av - length l) z).

Fixpoint mul_loop (z : index) (av : list index) (signed_op : bool) (bs : list index) (bit_from_lsb : nat) (acc : expr_value)
  : L expr_value :=
  match bs with
  | [] => mret acc
  | bbit :: bs =>
      partial ← partial_product z av bit_from_lsb bbit;
      p ← make_vector partial signed_op;
      acc ← arith_add acc p;
      mul_loop z av signed_op bs (S bit_from_lsb) acc
  end.

(** The mask of the product and its sign. *)
Definition mask_value (unknown_sel : index) (is_signed : bool) (acc : expr_value) : L expr_value :=
  roots ← mask_unknown unknown_sel (xv_vector_roots acc);
  mret (mk_value (xv_is_vector acc) is_signed (xv_scalar_root acc) roots (xv_msb acc) (xv_lsb acc)).

Definition arith_mul (a b : expr_value) : L expr_value :=
  let signed_op := xv_is_signed a && xv_is_signed b in
  let wa := width a in
  let wb := width b in
  w ← limit_width (wa + wb) "multiplication result too wide (limit exceeded)";
  unknown_sel ← unknown_either a b;
  if negb signed_op && bool_decide (wa = 8) && bool_decide (wb = 8) && bool_decide (w = 16) then
    av ← resize_to_vector a wa false;
    bv ← resize_to_vector b wb false;
    z ← make_literal false_state;
    acc ← make_uint_literal 0 w;
    acc ← lfold (mul8_tile z av bv) acc tiles;
    if xv_is_vector acc then mask_value unknown_sel false acc
    else mret (mk_value (xv_is_vector acc) false (xv_scalar_root acc) (xv_vector_roots acc) (xv_msb acc) (xv_lsb acc))
  else if bool_decide (w <= 1) then
    av ← resize_to_vector a 1 signed_op; av ← unchecked (head av);
    bv ← resize_to_vector b 1 signed_op; bv ← unchecked (head bv);
    r ← make_and av bv;
    x ← make_literal indeterminate_state;
    r ← make_mux unknown_sel x r;
    mret (make_scalar r 0 0 signed_op)
  else
    av ← resize_to_vector a w signed_op;
    bv ← resize_to_vector b w signed_op;
    acc ← (if signed_op then make_int_literal 0 w else make_uint_literal 0 w);
    z ← make_literal false_state;
    acc ← mul_loop z av signed_op (rev bv) 0 acc;
    if xv_is_vector acc then mask_value unknown_sel signed_op acc else mret acc.

(** [av / bv] and [av % bv] of [std::int64_t], undefined on overflow. *)
Definition int64_div (x y : Z) : option Z := if bool_decide (x = -2 ^ 63 /\ y = -1)%Z then None else Some (Z.quot x y).

Definition int64_rem (x y : Z) : option Z := if bool_decide (x = -2 ^ 63 /\ y = -1)%Z then None else Some (Z.rem x y).

(** [arith_div] and [arith_mod]: constant operands only, else unknown. *)
Definition arith_div_mod (sdiv : Z -> Z -> option Z) (udiv : Z -> Z -> Z) (a b : expr_value) : L expr_value :=
  let signed_op := xv_is_signed a && xv_is_signed b in
  let w := Nat.max (width a) (width b) in
  avv ← resize a w signed_op;
  bvv ← resize b w signed_op;
  if signed_op then
    av ← try_eval_const_int64 avv true;
    bv ← match av with Some _ => try_eval_const_int64 bvv true | None => mret None end;
    match av, bv with
    | Some av, Some bv =>
        if bool_decide (bv = 0)%Z then make_unknown_vector w true
        else q ← unchecked (sdiv av bv); make_int_literal q w
    | _, _ => make_unknown_vector w true
    end
  else
    av ← try_eval_const_uint64 avv;
    bv ← match av with Some _ => try_eval_const_uint64 bvv | None => mret None end;
    match av, bv with
    | Some av, Some bv =>
        if bool_decide (bv = 0)%Z then make_unknown_vector w false else make_uint_literal (udiv av bv) w
    | _, _ => make_unknown_vector w false
    end.

Definition arith_div : expr_value -> expr_value -> L expr_value := arith_div_mod int64_div Z.div.

Definition arith_mod : expr_value -> expr_value -> L expr_value := arith_div_mod int64_rem Z.modulo.

(** The square-and-multiply loop of [arith_pow], for an exponent below 2^64. *)
Fixpoint pow_loop (fuel : nat) (mask : Z) (exp base result : Z) : Z :=
  match fuel with
  | O => result
  | S fuel =>
      if bool_decide (exp = 0)%Z then result
      else
        let result := if Z.odd exp then Z.land (result * base) mask else result in
        let exp := Z.shiftr exp 1 in
        if bool_decide (exp = 0)%Z then result
        else pow_loop fuel mask exp (Z.land (base * base) mask) result
  end.

Definition arith_pow (a b : expr_value) : L expr_value :=
  let signed_op := xv_is_signed a && xv_is_signed b in
  let w := Nat.max (width a) (width b) in
  if bool_decide (64 < w) then make_unknown_vector w signed_op
  else
    avv ← resize a w signed_op;
    bvv ← resize b w false;
    e ← try_eval_const_int64 bvv (xv_is_signed b);
    match e with
    | None => make_unknown_vector w signed_op
    | Some exp_i =>
        if bool_decide (exp_i < 0)%Z then make_unknown_vector w signed_op
        else
          base ← try_eval_const_uint64 avv;
          match base with
          | None => make_unknown_vector w signed_op
          | Some base =>
              let mask := (2 ^ Z.of_nat w - 1)%Z in
              let result := pow_loop 64 mask exp_i (Z.land base mask) (Z.land 1 mask) in
              if signed_op then make_int_literal (to_int64 result) w else make_uint_literal result w
          end
    end.

(** ** Shifts *)

(** The bits of a list, msb first, moved by [s] with [z] shifted in. *)
Definition shifted_left (z : index) (l : list index) (s : nat) : list index :=
  drop s l ++ replicate (Nat.min s (length l)) z.

Definition shifted_right (z : index) (l : list index) (s : nat) : list index :=
  replicate (Nat.min s (length l)) z ++ take (length l - s) l.

(** [while((1ull << nbits) < w && nbits < 64) { ++nbits; }] *)
Fixpoint count_bits (fuel : nat) (w : Z) (nbits : nat) : nat :=
  match fuel with
  | O => nbits
  | S fuel => if bool_decide (2 ^ Z.of_nat nbits < w)%Z then count_bits fuel w (S nbits) else nbits
  end.

(** The stages of the barrel shifter, selected by the bits of the amount, lsb
    first. *)
Fixpoint shift_stages (shifted : index -> list index -> nat -> list index) (z : index) (sels : list index) (k : nat)
  (cur : list index) : L (list index) :=
  match sels with
  | [] => mret cur
  | sel :: sels =>
      cur ← lmap (fun '(s, c) => make_mux sel s c) (zip (shifted z cur (2 ^ k)) cur);
      shift_stages shifted z sels (S k) cur
  end.

(** [shift_left] and [shift_right] *)
Definition shift_by (shifted : index -> list index -> nat -> list index) (v sh : expr_value) : L expr_value :=
  let w := width v in
  if bool_decide (w <= 1) then resize v 1 false
  else
    unknown_sel ← any_unknown_root sh;
    sh_const ← try_eval_const_int sh;
    match sh_const with
    | Some s =>
        cur ← resize_to_vector v w false;
        z ← make_literal false_state;
        out ← mask_unknown unknown_sel (shifted z cur (Z.to_nat s));
        make_vector out (xv_is_signed v)
    | None =>
        let nbits := count_bits 64 (Z.of_nat w) 0 in
        if bool_decide (nbits = 0) then resize v w false
        else
          cur ← resize_to_vector v w false;
          shv ← resize_to_vector sh nbits false;
          z ← make_literal false_state;
          cur ← shift_stages shifted z (rev shv) 0 cur;
          out ← mask_unknown unknown_sel cur;
          make_vector out (xv_is_signed v)
    end.

Definition shift_left : expr_value -> expr_value -> L expr_value := shift_by shifted_left.

Definition shift_right : expr_value -> expr_value -> L expr_value := shift_by shifted_right.

(** ** Order *)

(** The loop of [compare_lt] over the bits, msb first. *)
Fixpoint lt_loop (l : list (index * index)) (eq_prefix lt : index) : L index :=
  match l with
  | [] => mret lt
  | (ai, bi) :: l =>
      eq_bit ← add_node (op2_node ek_binary_eq ai bi);
      na ← make_not ai;
      lt_bit ← make_and na bi;
      t ← make_and eq_prefix lt_bit;
      lt ← make_or lt t;
      eq_prefix ← make_and eq_prefix eq_bit;
      lt_loop l eq_prefix lt
  end.

Definition compare_lt (a b : expr_value) : L index :=
  let w := Nat.max (width a) (width b) in
  let signed_op := xv_is_signed a && xv_is_signed b in
  av ← resize_to_vector a w signed_op;
  bv ← resize_to_vector b w signed_op;
  if signed_op then
    sa ← unchecked (head av);
    sb ← unchecked (head bv);
    if bool_decide (w <= 1) then nb ← make_not sb; make_and sa nb
    else
      diff ← make_xor sa sb;
      nb ← make_not sb;
      lt_sign ← make_and sa nb;
      eq_prefix ← make_literal true_state;
      lt ← make_literal false_state;
      lt_mag ← lt_loop (zip (tail av) (tail bv)) eq_prefix lt;
      make_mux diff lt_sign lt_mag
  else
    eq_prefix ← make_literal true_state;
    lt ← make_literal false_state;
    lt_loop (zip av bv) eq_prefix lt.

Definition compare_le (a b : expr_value) : L index :=
  lt ← compare_lt a b;
  eq ← compare_eq a b;
  make_or lt eq.

Definition compare_gt (a b : expr_value) : L index := compare_lt b a.

Definition compare_ge (a b : expr_value) : L index :=
  gt ← compare_lt b a;
  eq ← compare_eq a b;
  make_or gt eq.

Definition make_conditional (cond t f : expr_value) : L expr_value :=
  sel ← to_bool_root cond;
  let w := Nat.max (width t) (width f) in
  let signed_op := xv_is_signed t && xv_is_signed f in
  if bool_decide (w <= 1) then
    tv ← resize_to_vector t 1 signed_op; tv ← unchecked (head tv);
    fv ← resize_to_vector f 1 signed_op; fv ← unchecked (head fv);
    r ← make_mux sel tv fv;
    mret (make_scalar r 0 0 signed_op)
  else
    tv ← resize_to_vector t w signed_op;
    fv ← resize_to_vector f w signed_op;
    out ← lmap (fun '(ti, fi) => make_mux sel ti fi) (zip tv fv);
    make_vector out signed_op.

(** ** Selects *)

(** [vector_contains], [vector_pos] and [vector_index_at] on the range
    [msb:lsb]. *)
Definition vector_contains (msb lsb idx : Z) : bool :=
  if bool_decide (lsb <= msb)%Z then bool_decide (idx <= msb)%Z && bool_decide (lsb <= idx)%Z
  else bool_decide (msb <= idx)%Z && bool_decide (idx <= lsb)%Z.

Definition vector_pos (msb lsb idx : Z) : index :=
  if negb (vector_contains msb lsb idx) then SIZE_MAX
  else if bool_decide (lsb <= msb)%Z then Some (Z.to_nat (msb - idx)) else Some (Z.to_nat (idx - msb)).

Definition vector_index_at (msb lsb : Z) (pos : nat) : Z :=
  if bool_decide (lsb <= msb)%Z then msb - Z.of_nat pos else msb + Z.of_nat pos.

(** [while((1ull << need_bits) <= base_max && need_bits < 64) { ++need_bits; }]; the shift comes before the test, so
    that a [base_max] of 64 bits, which a negative index is cast to, ends in a shift by 64. *)
Fixpoint need_bits (fuel : nat) (base_max : Z) (n : nat) : option nat :=
  match fuel with
  | O => None
  | S fuel => if bool_decide (2 ^ Z.of_nat n <= base_max)%Z then need_bits fuel base_max (S n) else Some n
  end.

(** [static_cast<std::size_t>] and [static_cast<std::uint64_t>] of an [int] *)
Definition to_u64 (x : Z) : Z := x mod 2 ^ 64.

Definition apply_bit_select (base idx_expr : expr_value) : L expr_value :=
  let base_bits := roots_of base in
  idx_const ← try_eval_const_int idx_expr;
  match idx_const with
  | Some idx =>
      match vector_pos (xv_msb base) (xv_lsb base) idx with
      | None => x ← make_literal indeterminate_state; mret (make_scalar x 0 0 (xv_is_signed base))
      | Some pos => r ← unchecked (base_bits !! pos); mret (make_scalar r idx idx (xv_is_signed base))
      end
  | None =>
      let base_max := to_u64 (Z.max (xv_msb base) (xv_lsb base)) in
      need ← unchecked (need_bits 63 base_max 1);
      let cmp_w := Nat.max (width idx_expr) need in
      idx_norm ← resize idx_expr cmp_w false;
      out ← make_literal indeterminate_state;
      out ← lfold (fun out '(pos, bit) =>
              idx_lit ← make_uint_literal (to_u64 (vector_index_at (xv_msb base) (xv_lsb base) pos)) cmp_w;
              cond ← compare_eq idx_norm idx_lit;
              make_mux cond bit out) out (imap pair base_bits);
      mret (make_scalar out 0 0 (xv_is_signed base))
  end.

(** The indices from [sel_msb] to [sel_lsb]. *)
Definition index_range (sel_msb sel_lsb : Z) : list Z :=
  if bool_decide (sel_lsb <= sel_msb)%Z
  then (fun k => sel_msb - Z.of_nat k)%Z <$> seq 0 (Z.to_nat (sel_msb - sel_lsb + 1))
  else (fun k => sel_msb + Z.of_nat k)%Z <$> seq 0 (Z.to_nat (sel_lsb - sel_msb + 1)).

Definition apply_part_select (base msb_expr lsb_expr : expr_value) : L expr_value :=
  m ← try_eval_const_int msb_expr;
  l ← match m with Some _ => try_eval_const_int lsb_expr | None => mret None end;
  match m, l with
  | Some sel_msb, Some sel_lsb =>
      let base_bits := roots_of base in
      bits ← lmap (fun idx => match vector_pos (xv_msb base) (xv_lsb base) idx with
                              | None => make_literal indeterminate_state
                              | Some pos => unchecked (base_bits !! pos)
                              end) (index_range sel_msb sel_lsb);
      make_vector_with_range bits sel_msb sel_lsb (xv_is_signed base)
  | _, _ =>
      _ ← report "part-select indices must be constant integer expressions in this subset";
      x ← make_literal indeterminate_state;
      mret (make_scalar x 0 0 (xv_is_signed base))
  end.

(** [compute_bounds]; the overflow of [int] for bounds near its limits is not
    modelled. *)
Definition select_bounds (msb lsb w start : Z) (plus : bool) : Z * Z :=
  if plus
  then if bool_decide (lsb <= msb)%Z then (start + (w - 1), start)%Z else (start, start + (w - 1))%Z
  else if bool_decide (lsb <= msb)%Z then (start, start - (w - 1))%Z else (start - (w - 1), start)%Z.

(** [slice_bits_for_start] *)
Definition slice_bits (base : expr_value) (w start : Z) (plus : bool) : L (list index) :=
  let '(sel_msb, sel_lsb) := select_bounds (xv_msb base) (xv_lsb base) w start plus in
  x ← make_literal indeterminate_state;
  lmap (fun idx => match vector_pos (xv_msb base) (xv_lsb base) idx with
                   | None => mret x
                   | Some pos => unchecked (roots_of base !! pos)
                   end) (index_range sel_msb sel_lsb).

Definition apply_indexed_part_select (base start_expr width_expr : expr_value) (plus : bool) : L expr_value :=
  wc ← try_eval_const_int width_expr;
  match wc with
  | Some w =>
      if bool_decide (w <= 0)%Z then
        _ ← report "indexed part-select width must be a positive constant integer expression in this subset";
        x ← make_literal indeterminate_state;
        mret (make_scalar x 0 0 (xv_is_signed base))
      else
        start_const ← try_eval_const_int start_expr;
        match start_const with
        | Some start =>
            bits ← slice_bits base w start plus;
            let '(sel_msb, sel_lsb) := select_bounds (xv_msb base) (xv_lsb base) w start plus in
            make_vector_with_range bits sel_msb sel_lsb (xv_is_signed base)
        | None =>
            let min_idx := Z.min (xv_msb base) (xv_lsb base) in
            let max_idx := Z.max (xv_msb base) (xv_lsb base) in
            if bool_decide (max_idx < 0)%Z then make_unknown_vector (Z.to_nat w) false
            else
              need ← unchecked (need_bits 63 max_idx 1);
              let cmp_w := Nat.max (width start_expr) need in
              idx_norm ← resize start_expr cmp_w false;
              x ← make_literal indeterminate_state;
              out ← lfold (fun out s =>
                      if bool_decide (s < 0)%Z then mret out
                      else
                        bits ← slice_bits base w s plus;
                        if bool_decide (length bits ≠ length out) then mret out
                        else
                          idx_lit ← make_uint_literal (to_u64 s) cmp_w;
                          cond ← compare_eq idx_norm idx_lit;
                          lmap (fun '(b, o) => make_mux cond b o) (zip bits out))
                    (replicate (Z.to_nat w) x) (rev (index_range max_idx min_idx));
              make_vector out (xv_is_signed base)
        end
  | None =>
      _ ← report "indexed part-select width must be a positive constant integer expression in this subset";
      x ← make_literal indeterminate_state;
      mret (make_scalar x 0 0 (xv_is_signed base))
  end.
