(* ===== verification/VBits.v ===== *)
(** * Vectors of bits and the integers they stand for

    Four-state vectors, msb first, as the expression builder of
    verilog/digital/digital.h sees them: [as_Z] reads a vector without unknown
    bits as an unsigned or a two's complement integer, [bits] writes an integer
    to a width.  The lemmas relate the two, bit by bit from the lsb. *)

From S2P Require Import Prelude Logic4.
From Stdlib Require Import ZArith Lia Zquot.

#[local] Open Scope Z_scope.

(** ** Bits of an integer *)

(** The [w] lowest bits, lsb first. *)
Fixpoint lbits (w : nat) (z : Z) : list bool :=
  match w with O => [] | S w => Z.odd z :: lbits w (Z.div2 z) end.

(** The [w] lowest bits as a vector, msb first. *)
Definition bits (w : nat) (z : Z) : list dns := dns_of_bool <$> rev (lbits w z).

(** The unsigned value of bits, lsb first. *)
Fixpoint uval (l : list bool) : Z :=
  match l with [] => 0 | b :: l => Z.b2z b + 2 * uval l end.

(** The two's complement value of bits, lsb first. *)
Definition sval (l : list bool) : Z :=
  uval l - (if default false (last l) then 2 ^ Z.of_nat (length l) else 0).

(** ** Vectors *)

Definition to_bool (d : dns) : option bool :=
  match d with false_state => Some false | true_state => Some true | _ => None end.

(** The bits of a vector, if all are known. *)
Definition known (l : list dns) : option (list bool) := mapM to_bool l.

(** The integer a vector stands for. *)
Definition as_Z (sx : bool) (l : list dns) : option Z :=
  (fun bs => if sx then sval (rev bs) else uval (rev bs)) <$> known l.

Definition unknown (l : list dns) : bool := existsb is_unknown l.

(** ** Bits *)

Lemma rev_replicate {A} n (x : A) : rev (replicate n x) = replicate n x.
Proof. induction n as [|n IH]; [done|]. cbn [replicate rev]. rewrite IH. symmetry. apply replicate_cons_app. Qed.

Lemma fmap_rev {A B} (f : A -> B) (l : list A) : f <$> rev l = rev (f <$> l).
Proof. induction l as [|x l IH]; [done|]. cbn [rev]. rewrite fmap_app, IH. done. Qed.

Lemma length_lbits w z : length (lbits w z) = w.
Proof. revert z. induction w as [|w IH]; intros z; simpl; [done|]. by rewrite IH. Qed.

Lemma length_bits w z : length (bits w z) = w.
Proof. unfold bits. by rewrite length_fmap, length_rev, length_lbits. Qed.

Lemma lbits_lookup w z k : (k < w)%nat -> lbits w z !! k = Some (Z.testbit z (Z.of_nat k)).
Proof.
  revert z k. induction w as [|w IH]; intros z k Hk; [lia|]. destruct k as [|k].
  - simpl. by rewrite <- Z.bit0_odd.
  - change (lbits w (Z.div2 z) !! k = Some (Z.testbit z (Z.of_nat (S k)))).
    rewrite IH, Z.div2_spec, Z.shiftr_spec by lia. do 2 f_equal. lia.
Qed.

Lemma lbits_ext w x y : (forall k, 0 <= k < Z.of_nat w -> Z.testbit x k = Z.testbit y k) -> lbits w x = lbits w y.
Proof.
  intros H. apply list_eq. intros k. destruct (decide (k < w)%nat) as [Hk|Hk].
  - rewrite !lbits_lookup by done. rewrite H by lia. done.
  - by rewrite !lookup_ge_None_2 by (rewrite length_lbits; lia).
Qed.

Lemma lbits_mod w x y : x mod 2 ^ Z.of_nat w = y mod 2 ^ Z.of_nat w -> lbits w x = lbits w y.
Proof.
  intros H. apply lbits_ext. intros k Hk.
  rewrite <- (Z.mod_pow2_bits_low x (Z.of_nat w)), <- (Z.mod_pow2_bits_low y (Z.of_nat w)) by lia. by rewrite H.
Qed.

Lemma bits_mod w x y : x mod 2 ^ Z.of_nat w = y mod 2 ^ Z.of_nat w -> bits w x = bits w y.
Proof. intros H. unfold bits. by rewrite (lbits_mod w x y). Qed.

Lemma uval_bounds l : 0 <= uval l < 2 ^ Z.of_nat (length l).
Proof.
  induction l as [|b l IH]; [simpl; lia|]. cbn [length uval]. rewrite Nat2Z.inj_succ, Z.pow_succ_r by lia.
  destruct b; simpl Z.b2z; lia.
Qed.

Lemma uval_app l k : uval (l ++ k) = uval l + 2 ^ Z.of_nat (length l) * uval k.
Proof.
  induction l as [|b l IH]; [simpl; lia|]. cbn [length uval app].
  rewrite IH, Nat2Z.inj_succ, Z.pow_succ_r by lia. lia.
Qed.

Lemma testbit_uval l k : Z.testbit (uval l) (Z.of_nat k) = default false (l !! k).
Proof.
  revert k. induction l as [|b l IH]; intros k; [by rewrite Z.testbit_0_l|]. cbn [uval].
  replace (Z.b2z b + 2 * uval l) with (2 * uval l + Z.b2z b) by lia. destruct k as [|k].
  - by rewrite Z.testbit_0_r.
  - rewrite Nat2Z.inj_succ, Z.testbit_succ_r by lia. simpl. apply IH.
Qed.

Lemma lbits_uval l : lbits (length l) (uval l) = l.
Proof.
  apply list_eq. intros k. destruct (decide (k < length l)%nat) as [Hk|Hk].
  - rewrite lbits_lookup, testbit_uval by done. destruct (lookup_lt_is_Some_2 l k Hk) as [b ->]. done.
  - by rewrite !lookup_ge_None_2 by (rewrite ?length_lbits; lia).
Qed.

Lemma uval_lbits w z : uval (lbits w z) = z mod 2 ^ Z.of_nat w.
Proof.
  revert z. induction w as [|w IH]; intros z; [simpl; by rewrite Z.mod_1_r|].
  cbn [lbits uval]. rewrite IH, Nat2Z.inj_succ, Z.pow_succ_r by lia.
  pose proof (Z.pow_pos_nonneg 2 (Z.of_nat w)).
  rewrite Z.rem_mul_r, Zmod_odd, Z.div2_div by lia. by destruct (Z.odd z).
Qed.

(** The signed and the unsigned reading agree modulo the width. *)
Lemma sval_mod l : sval l mod 2 ^ Z.of_nat (length l) = uval l mod 2 ^ Z.of_nat (length l).
Proof.
  unfold sval. destruct (default false (last l)); [|by rewrite Z.sub_0_r].
  rewrite <- Zminus_mod_idemp_r, Z.mod_same, Z.sub_0_r by (apply Z.pow_nonzero; lia). done.
Qed.

Lemma sval_bounds l :
  l ≠ [] -> - 2 ^ (Z.of_nat (length l) - 1) <= sval l < 2 ^ (Z.of_nat (length l) - 1).
Proof.
  destruct l as [|b l _] using rev_ind; [done|]. intros _. unfold sval. rewrite last_snoc, uval_app, length_app. simpl.
  pose proof (uval_bounds l). replace (Z.of_nat (length l + 1)) with (Z.succ (Z.of_nat (length l))) by lia.
  rewrite Z.pow_succ_r by lia. replace (Z.succ (Z.of_nat (length l)) - 1) with (Z.of_nat (length l)) by lia.
  destruct b; simpl; lia.
Qed.

(** ** Known vectors *)

Lemma known_spec l bs : known l = Some bs <-> l = dns_of_bool <$> bs.
Proof.
  unfold known. rewrite mapM_Some. split.
  - induction 1 as [|d b l bs Hd _ IH]; [done|]. rewrite IH, fmap_cons. f_equal. by destruct d; inversion Hd.
  - intros ->. induction bs as [|b bs IH]; simpl; [constructor|]. constructor; [by destruct b|done].
Qed.

Lemma known_bits w z : known (bits w z) = Some (rev (lbits w z)).
Proof. by apply known_spec. Qed.

Lemma unknown_known l : unknown l = negb (bool_decide (is_Some (known l))).
Proof.
  induction l as [|d l IH]; [done|]. unfold unknown in *. simpl. rewrite IH. unfold known. simpl.
  destruct d; simpl; try done; by destruct (mapM to_bool l).
Qed.

Lemma known_replicate_unknown w : (0 < w)%nat -> known (replicate w indeterminate_state) = None.
Proof. by destruct w; [lia|]. Qed.

(** ** Widths *)

(** A vector of another width: truncated at the msb or extended. *)
Definition resize_bits_to (w : nat) (sx : bool) (l : list dns) : list dns :=
  if bool_decide (w <= length l)%nat then drop (length l - w) l
  else replicate (w - length l) (if sx then default false_state (head l) else false_state) ++ l.

Lemma length_resize_bits_to w sx l : length (resize_bits_to w sx l) = w.
Proof.
  unfold resize_bits_to. case_bool_decide; [rewrite length_drop; lia|]. rewrite length_app, length_replicate. lia.
Qed.

Lemma resize_bits_same sx l : resize_bits_to (length l) sx l = l.
Proof. unfold resize_bits_to. by rewrite bool_decide_eq_true_2, Nat.sub_diag by lia. Qed.

Lemma resize_bits_one sx l : l ≠ [] -> resize_bits_to 1 sx l = [default indeterminate_state (last l)].
Proof.
  destruct l as [|x l _] using rev_ind; [done|]. intros _. unfold resize_bits_to. rewrite last_snoc, length_app.
  rewrite bool_decide_eq_true_2 by (simpl; lia). by rewrite drop_app_length' by (simpl; lia).
Qed.

Lemma testbit_sval l k :
  l ≠ [] -> Z.testbit (sval l) (Z.of_nat k) = default (default false (last l)) (l !! k).
Proof.
  intros Hl. destruct (decide (k < length l)%nat) as [Hk|Hk].
  - rewrite <- (Z.mod_pow2_bits_low (sval l) (Z.of_nat (length l))) by lia.
    rewrite sval_mod, Z.mod_pow2_bits_low, testbit_uval by lia. destruct (lookup_lt_is_Some_2 l k Hk) as [b ->]. done.
  - rewrite lookup_ge_None_2 by lia. simpl. assert (0 < length l)%nat by (by destruct l; [|simpl; lia]).
    pose proof (sval_bounds l Hl) as Hb. pose proof (uval_bounds l) as Hu. unfold sval in *.
    assert (Hp : 2 ^ (Z.of_nat (length l) - 1) <= 2 ^ Z.of_nat k).
    { apply Z.pow_le_mono_r; lia. }
    destruct (default false (last l)).
    + rewrite Z.bits_above_log2_neg; [done|lia|].
      destruct (decide (Z.pred (- (uval l - 2 ^ Z.of_nat (length l))) = 0)) as [->|]; [simpl; lia|].
      apply Z.log2_lt_pow2; lia.
    + rewrite Z.sub_0_r. destruct (decide (uval l = 0)) as [->|]; [by rewrite Z.testbit_0_l|].
      apply Z.bits_above_log2; [lia|]. apply Z.log2_lt_pow2; lia.
Qed.

(** Resizing a known vector keeps the integer, modulo the new width. *)
Lemma resize_as_Z w sx l x :
  l ≠ [] -> as_Z sx l = Some x -> resize_bits_to w sx l = bits w x.
Proof.
  unfold as_Z. destruct (known l) as [bs|] eqn:Hk; [|done]. simpl. intros Hl [= <-].
  apply known_spec in Hk as ->. unfold bits, resize_bits_to. rewrite length_fmap.
  assert (exists bs', bs = rev bs') as [bs' ->] by (exists (rev bs); by rewrite rev_involutive).
  rewrite !rev_involutive.
  assert (Hne : bs' ≠ []). { intros E. rewrite E in Hl. by apply Hl. }
  set (z := if sx then sval bs' else uval bs').
  assert (Hhead : (if sx then default false_state (head (dns_of_bool <$> rev bs')) else false_state)
    = dns_of_bool (if sx then default false (last bs') else false)).
  { destruct sx; [|done]. destruct bs' as [|b l' _] using rev_ind; [done|].
    by rewrite last_snoc, rev_app_distr. }
  assert (Hz : forall k, Z.testbit z (Z.of_nat k) = default (if sx then default false (last bs') else false) (bs' !! k)).
  { intros k. unfold z. destruct sx; [by apply testbit_sval|apply testbit_uval]. }
  rewrite length_rev, Hhead. set (h := if sx then default false (last bs') else false) in *.
  assert (Hlb : lbits w z = if bool_decide (w <= length bs')%nat then take w bs' else bs' ++ replicate (w - length bs') h).
  { apply list_eq. intros k. destruct (decide (k < w)%nat) as [Hkw|Hkw].
    - rewrite lbits_lookup, Hz by done. case_bool_decide.
      + rewrite lookup_take_lt by done. by destruct (lookup_lt_is_Some_2 bs' k) as [b ->]; [lia|].
      + destruct (decide (k < length bs')%nat) as [Hkb|Hkb].
        * rewrite lookup_app_l by done. by destruct (lookup_lt_is_Some_2 bs' k Hkb) as [b ->].
        * rewrite lookup_app_r, lookup_replicate_2 by lia. by rewrite lookup_ge_None_2 by lia.
    - rewrite (lookup_ge_None_2 (lbits w z)) by (rewrite length_lbits; lia). symmetry. apply lookup_ge_None_2.
      case_bool_decide; [rewrite length_take|rewrite length_app, length_replicate]; lia. }
  rewrite Hlb. case_bool_decide.
  - rewrite <- (take_drop w bs') at 2. rewrite rev_app_distr, fmap_app, drop_app_length'; [done|].
    rewrite length_fmap, length_rev, length_drop. lia.
  - rewrite rev_app_distr, fmap_app, rev_replicate, fmap_replicate. done.
Qed.

(** ** Reading back *)

Lemma as_Z_bits sx w z :
  exists z', as_Z sx (bits w z) = Some z' /\ z' mod 2 ^ Z.of_nat w = z mod 2 ^ Z.of_nat w.
Proof.
  unfold as_Z. rewrite known_bits. simpl. rewrite rev_involutive. eexists. split; [done|].
  assert (Hu : uval (lbits w z) mod 2 ^ Z.of_nat w = z mod 2 ^ Z.of_nat w).
  { by rewrite uval_lbits, Zmod_mod. }
  destruct sx; [|done]. rewrite <- Hu. pose proof (sval_mod (lbits w z)) as Hs. by rewrite length_lbits in Hs.
Qed.

(** An unsigned vector is the bits of its value. *)
Lemma as_Z_unsigned l x : as_Z false l = Some x -> l = bits (length l) x /\ 0 <= x < 2 ^ Z.of_nat (length l).
Proof.
  unfold as_Z. destruct (known l) as [bs|] eqn:Hk; [|done]. simpl. intros [= <-]. apply known_spec in Hk as ->.
  rewrite length_fmap. split; [|rewrite <- (length_rev bs); apply uval_bounds].
  unfold bits. rewrite <- (length_rev bs), lbits_uval, rev_involutive. done.
Qed.

(** ** Positions *)

Lemma lookup_rev {A} (l : list A) k : (k < length l)%nat -> rev l !! k = l !! (length l - 1 - k)%nat.
Proof.
  intros Hk. rewrite rev_alt. change (rev_append l []) with (reverse l). rewrite reverse_lookup by done. f_equal. lia.
Qed.

(** Bits moved towards the msb, zeros moved in. *)
Lemma lbits_shiftl w z k :
  lbits w (z * 2 ^ Z.of_nat k) = replicate (Nat.min k w) false ++ take (w - k) (lbits w z).
Proof.
  apply list_eq. intros i. destruct (decide (i < w)%nat) as [Hi|Hi].
  - rewrite lbits_lookup by done. destruct (decide (i < k)%nat) as [Hik|Hik].
    + rewrite lookup_app_l, lookup_replicate_2 by (rewrite ?length_replicate; lia).
      by rewrite Z.mul_pow2_bits_low by lia.
    + rewrite lookup_app_r by (rewrite length_replicate; lia). rewrite length_replicate, lookup_take_lt by lia.
      rewrite lbits_lookup by lia. rewrite Z.mul_pow2_bits by lia. do 2 f_equal. lia.
  - rewrite !lookup_ge_None_2; [done| |]; rewrite ?length_app, ?length_replicate, ?length_take, ?length_lbits; lia.
Qed.

Lemma bits_shiftl w z k :
  bits w (z * 2 ^ Z.of_nat k) = drop k (bits w z) ++ replicate (Nat.min k w) false_state.
Proof.
  unfold bits. rewrite lbits_shiftl, rev_app_distr, rev_replicate, fmap_app, fmap_replicate. f_equal.
  rewrite <- fmap_drop. f_equal. apply list_eq. intros i.
  pose proof (length_lbits w z). rewrite lookup_drop. destruct (decide (i < w - k)%nat) as [Hi|Hi].
  - rewrite !lookup_rev by (rewrite ?length_take; lia). rewrite length_take, lookup_take_lt by lia. f_equal. lia.
  - rewrite !lookup_ge_None_2; [done| |]; rewrite ?length_rev, ?length_take; lia.
Qed.

Lemma bits_zero w : bits w 0 = replicate w false_state.
Proof.
  unfold bits. replace (lbits w 0) with (replicate w false); [by rewrite rev_replicate, fmap_replicate|].
  apply list_eq. intros i. destruct (decide (i < w)%nat) as [Hi|Hi].
  - by rewrite lbits_lookup, lookup_replicate_2, Z.testbit_0_l by done.
  - rewrite !lookup_ge_None_2; [done| |]; rewrite ?length_lbits, ?length_replicate; lia.
Qed.

(** A value fits its width: written to a width at least as large it reads
    back. *)
Lemma as_Z_fits sx l x w :
  as_Z sx l = Some x -> l ≠ [] -> (length l <= w)%nat ->
  (if sx then sval (lbits w x) else uval (lbits w x)) = x.
Proof.
  unfold as_Z. destruct (known l) as [bs|] eqn:Hk; [|done]. intros [= Hx] Hl Hw.
  apply known_spec in Hk as ->. rewrite length_fmap in Hw.
  assert (Hlen : (1 <= length bs)%nat) by (destruct bs; [done|simpl; lia]).
  assert (Hmono : forall e f, 0 <= e <= f -> 2 ^ e <= 2 ^ f) by (intros; apply Z.pow_le_mono_r; lia).
  destruct sx; simpl in Hx.
  - assert (Hr : rev bs ≠ []) by (intros E; apply (f_equal length) in E; rewrite length_rev in E; simpl in E; lia).
    pose proof (sval_bounds (rev bs) Hr) as Hb. rewrite length_rev, Hx in Hb.
    assert (Hr' : lbits w x ≠ []) by (intros E; apply (f_equal length) in E; rewrite length_lbits in E; simpl in E; lia).
    pose proof (sval_bounds (lbits w x) Hr') as Hb'. pose proof (sval_mod (lbits w x)) as Hm.
    rewrite length_lbits in Hb', Hm. rewrite uval_lbits, Zmod_mod in Hm.
    specialize (Hmono (Z.of_nat (length bs) - 1) (Z.of_nat w - 1)).
    assert (Hp : 2 ^ Z.of_nat w = 2 * 2 ^ (Z.of_nat w - 1)) by (rewrite <- Z.pow_succ_r by lia; f_equal; lia).
    rewrite Hp in Hm. set (p := 2 ^ (Z.of_nat w - 1)) in *. assert (0 < p) by (apply Z.pow_pos_nonneg; lia).
    rewrite !Z.mod_eq in Hm by lia.
    set (k := sval (lbits w x) / (2 * p) - x / (2 * p)). assert (sval (lbits w x) - x = 2 * p * k) by (unfold k; lia).
    clearbody k p. clear Hm. assert (k = 0) by nia. nia.
  - pose proof (uval_bounds (rev bs)) as Hb. rewrite length_rev, Hx in Hb. rewrite uval_lbits.
    apply Z.mod_small. specialize (Hmono (Z.of_nat (length bs)) (Z.of_nat w)). lia.
Qed.
