(* ===== verification/VLowerOk.v ===== *)
(** * Verilog: what lowered expressions compute

    Every step of the expression builder ([VLower]) is related to the value
    its result has under a valuation of the signals: [lowers s c v] states that
    the step [c], run in the state [s], returns a result that denotes [v] and
    only adds nodes to the arena.  Results are bits, lists of bits and
    expression values; the class [Denotes] gives each its meaning and the fact
    that later steps do not change it.

    The node limit of the code is part of the statements: a state whose arena
    is [full] promises nothing, and a step reports an error only when it leaves
    the arena full.

    On top of this: sums, differences, products and comparisons of vectors
    agree with the integers their operands stand for ([VBits]), and are unknown
    when an operand is. *)

From S2P Require Import Prelude Logic4 VModule VEval VExec VLower VBits.
From Stdlib Require Import ZArith Lia.

#[global] Opaque max_expr_nodes max_concat_bits.

(** ** States of the builder *)

Abbreviation nodes_of s := (cm_expr_nodes (ps_m s)).

Definition full (s : pstate) : Prop := max_expr_nodes <= length (nodes_of s).

(** A root points into the arena or is the error value, which reads [X]. *)
Definition root_ok (s : pstate) (r : index) : Prop :=
  match r with Some i => i < length (nodes_of s) | None => True end.

(** The invariant of the arena: operands come first and the table of known
    nodes points at equal nodes. *)
Record arena_ok (m : compiled_module) : Prop := {
  ao_acyclic : acyclic (cm_expr_nodes m);
  ao_intern : forall n i, cm_expr_intern m !! n = Some i -> cm_expr_nodes m !! i = Some n;
}.

(** A later state: more nodes, nothing else changed, and errors only when the
    arena has been filled. *)
Record ext (s s' : pstate) : Prop := {
  ext_module : exists more intern, ps_m s' = with_nodes (ps_m s) (nodes_of s ++ more) intern;
  ext_errors : ps_errors s' = ps_errors s \/ full s';
}.

(** The valuation gives every folded constant its value. *)
Definition consts_agree (m : compiled_module) (values : list dns) : Prop :=
  forall sig v, foldable_const m sig = Some v -> read_signal values sig = v.

Lemma nodes_with_nodes m nodes intern : cm_expr_nodes (with_nodes m nodes intern) = nodes.
Proof. done. Qed.

Lemma with_nodes_twice m nodes intern nodes' intern' :
  with_nodes (with_nodes m nodes intern) nodes' intern' = with_nodes m nodes' intern'.
Proof. done. Qed.

Lemma with_nodes_id m : with_nodes m (cm_expr_nodes m) (cm_expr_intern m) = m.
Proof. by destruct m. Qed.

Lemma ext_nodes s s' : ext s s' -> exists more, nodes_of s' = nodes_of s ++ more.
Proof. intros [(more & intern & ->) _]. by exists more. Qed.

Lemma full_ext s s' : ext s s' -> full s -> full s'.
Proof. intros (more & Hm)%ext_nodes. unfold full. rewrite Hm, length_app. lia. Qed.

#[global] Instance ext_preorder : PreOrder ext.
Proof.
  split.
  - intros s. split; [|by left]. exists [], (cm_expr_intern (ps_m s)). by rewrite app_nil_r, with_nodes_id.
  - intros s1 s2 s3 H12 H23. pose proof H23 as H23'.
    destruct H12 as [(more & intern & H12) He12], H23 as [(more' & intern' & H23) He23]. split.
    + exists (more ++ more'), intern'. rewrite H23, H12, nodes_with_nodes, with_nodes_twice. by rewrite <- app_assoc.
    + destruct He23 as [->|?]; [|by right]. destruct He12 as [->|?]; [by left|right]. by eapply full_ext.
Qed.

Lemma root_ok_ext s s' r : ext s s' -> root_ok s r -> root_ok s' r.
Proof.
  intros (more & Hm)%ext_nodes. destruct r as [i|]; [|done]. unfold root_ok. rewrite Hm, length_app. lia.
Qed.

Lemma root_ok_vget s r : root_ok s r -> r = None \/ is_Some (vget (nodes_of s) r).
Proof. destruct r as [i|]; [|by left]. right. simpl. by apply lookup_lt_is_Some_2. Qed.

Lemma foldable_const_ext s s' sig : ext s s' -> foldable_const (ps_m s') sig = foldable_const (ps_m s) sig.
Proof. intros [(more & intern & ->) _]. done. Qed.

Lemma consts_agree_ext s s' values : ext s s' -> consts_agree (ps_m s) values -> consts_agree (ps_m s') values.
Proof. intros He H sig v. rewrite (foldable_const_ext s s') by done. apply H. Qed.

(** ** Meaning of results *)

(** The values the signals have. *)
Class Valuation := signal_values : list dns.

Section Denote.

Context `{values : Valuation}.

(** What a result of type [A] stands for, stable under later steps. *)
Class Denotes (A V : Type) := {
  denotes : pstate -> A -> V -> Prop;
  denotes_ext s s' a v : ext s s' -> denotes s a v -> denotes s' a v;
}.

(** A root stands for the value of its expression. *)
#[export, refine] Instance denotes_root : Denotes index dns := {|
  denotes s r v := root_ok s r /\ (~ full s -> ev values (nodes_of s) r = v)
|}.
Proof.
  intros s s' r v He [Hr Hv]. split; [by eapply root_ok_ext|]. intros Hf.
  assert (Hf' : ~ full s) by (intros ?; apply Hf; by eapply full_ext).
  rewrite <- Hv by done. destruct (root_ok_vget s r Hr) as [->|Hg]; [done|].
  destruct (ext_nodes s s' He) as [more ->]. by apply ev_app.
Defined.

#[export, refine] Instance denotes_list `{Denotes A V} : Denotes (list A) (list V) := {|
  denotes s := Forall2 (denotes s)
|}.
Proof. intros s s' l v He Hl. eapply Forall2_impl; [done|]. intros. by eapply denotes_ext. Defined.

#[export, refine] Instance denotes_pair : Denotes (index * index) (dns * dns) := {|
  denotes s p v := denotes s p.1 v.1 /\ denotes s p.2 v.2
|}.
Proof. intros s s' [] [] He []. split; by eapply denotes_ext. Defined.

(** A value of the source language: its bits, msb first, and its sign. *)
Record bitval := mk_bitval { bv_signed : bool; bv_bits : list dns }.

#[export, refine] Instance denotes_value : Denotes expr_value bitval := {|
  denotes s a v := xv_is_signed a = bv_signed v /\ denotes s (roots_of a) (bv_bits v)
|}.
Proof. intros s s' a v He [? ?]. split; [done|]. by eapply denotes_ext. Defined.

(** The state of the builder at any point. *)
Record builder (s : pstate) : Prop := {
  b_arena : arena_ok (ps_m s);
  b_consts : consts_agree (ps_m s) values;
}.

(** The step [c] from [s] returns a result and leads to a state that satisfies
    [Q]. *)
Definition leads {A} (s : pstate) (c : L A) (Q : pstate -> A -> Prop) : Prop :=
  exists a s', c s = Some (a, s') /\ ext s s' /\ builder s' /\ Q s' a.

(** The step returns a result that stands for [v]. *)
Definition lowers {A V} `{Denotes A V} (s : pstate) (c : L A) (v : V) : Prop :=
  leads s c (fun s' a => denotes s' a v).

Lemma leads_ret {A} s (a : A) (Q : pstate -> A -> Prop) : builder s -> Q s a -> leads s (mret a) Q.
Proof. intros Hb HQ. exists a, s. split_and!; done. Qed.

Lemma leads_bind {A B} s (c : L A) (f : A -> L B) (Q : pstate -> A -> Prop) (R : pstate -> B -> Prop) :
  leads s c Q -> (forall s' a, ext s s' -> builder s' -> Q s' a -> leads s' (f a) R) -> leads s (c ≫= f) R.
Proof.
  intros (a & s1 & Hc & He & Hb & HQ) Hf. destruct (Hf s1 a He Hb HQ) as (b & s2 & Hb2 & He2 & Hb2' & HR).
  exists b, s2. split_and!; [|by etrans|done|done]. unfold mbind, L_bind. rewrite Hc. done.
Qed.

Lemma leads_assoc {A B C} s (c : L A) (f : A -> L B) (g : B -> L C) (Q : pstate -> C -> Prop) :
  leads s ((c ≫= f) ≫= g) Q -> leads s (c ≫= fun x => f x ≫= g) Q.
Proof. intros (r & s' & Hc & H). exists r, s'. split; [|done]. revert Hc. unfold mbind, L_bind. by destruct (c s) as [[]|]. Qed.

Lemma leads_weaken {A} s (c : L A) (Q R : pstate -> A -> Prop) :
  leads s c Q -> (forall s' a, ext s s' -> Q s' a -> R s' a) -> leads s c R.
Proof. intros (a & s1 & Hc & He & Hb & HQ) HR. exists a, s1. split_and!; try done. by apply HR. Qed.

Lemma leads_unchecked {A} s (x : option A) a (Q : pstate -> A -> Prop) :
  builder s -> x = Some a -> Q s a -> leads s (unchecked x) Q.
Proof. intros Hb -> HQ. exists a, s. split_and!; done. Qed.

(** ** Adding nodes *)

(** The value of a node over the arena. *)
Definition node_ev (s : pstate) (n : expr_node) : dns := node_value values n (arena_values values (nodes_of s)).

Lemma literal_value s r v : arena_ok (ps_m s) -> try_get_literal (ps_m s) r = Some v -> ev values (nodes_of s) r = v.
Proof.
  intros [Hac _]. unfold try_get_literal. destruct r as [i|]; [|done]. simpl.
  destruct (nodes_of s !! i) as [n|] eqn:Hi; [|done]. simpl.
  case_bool_decide as Hk; [|done]. intros [= <-]. rewrite (ev_node values _ i n) by done.
  unfold node_value. by rewrite Hk.
Qed.

Lemma intern_node_leads s n :
  builder s -> Forall (root_ok s) (operands n) ->
  leads s (intern_node n) (fun s' r => denotes s' r (node_ev s n)).
Proof.
  intros [[Hac Hin] Hc] Hop. unfold intern_node.
  destruct (cm_expr_intern (ps_m s) !! n) as [i|] eqn:Hi.
  { exists (Some i), s. rewrite Hi. split_and!; [done|done|by repeat split|].
    apply Hin in Hi. pose proof (lookup_lt_Some _ _ _ Hi) as Hlt. split; [done|]. intros _. by rewrite (ev_node values _ i n). }
  destruct (decide (max_expr_nodes <= length (nodes_of s))) as [Hf|Hf].
  { eexists None, _. rewrite Hi, bool_decide_eq_true_2 by done. split; [reflexivity|]. split_and!.
    - split; [|by right]. exists [], (cm_expr_intern (ps_m s)). simpl. by rewrite app_nil_r, with_nodes_id.
    - by repeat split.
    - split; [done|]. intros Hnf. by destruct Hnf. }
  eexists (Some _), _. rewrite Hi, bool_decide_eq_false_2 by done. split; [reflexivity|].
  assert (Hac' : acyclic (nodes_of s ++ [n])).
  { intros i x j Hx Hj. apply lookup_app_Some in Hx as [Hx|[Hge Hx]]; [by eapply Hac|].
    apply list_lookup_singleton_Some in Hx as [Hz ->]. assert (i = length (nodes_of s)) as -> by lia.
    rewrite Forall_forall in Hop. apply (Hop (Some j) Hj). }
  split_and!.
  - split; [|by left]. by exists [n], (<[n := length (nodes_of s)]> (cm_expr_intern (ps_m s))).
  - split; [|done]. split; simpl; [done|]. intros x i Hx. destruct (decide (x = n)) as [->|Hne].
    + rewrite lookup_insert_eq in Hx. injection Hx as <-. by apply list_lookup_middle.
    + rewrite lookup_insert_ne in Hx by done. apply lookup_app_l_Some. by apply Hin.
  - split; [unfold root_ok; simpl; rewrite length_app; simpl; lia|]. intros _. simpl.
    unfold ev. rewrite arena_values_snoc. unfold read_signal. simpl.
    by rewrite list_lookup_middle by (by rewrite length_arena_values).
Qed.

(** A node added to the arena reads as its operator applied to the values of
    its operands, whether it is folded, shared or new. *)
Lemma add_node_leads s n :
  builder s -> Forall (root_ok s) (operands n) ->
  leads s (add_node n) (fun s' r => denotes s' r (node_ev s n)).
Proof.
  intros Hb Hop. unfold add_node. eapply leads_bind with (Q := fun s' m => s' = s /\ m = ps_m s).
  { exists (ps_m s), s. split_and!; done. }
  intros s' m _ _ [-> ->].
  assert (Hsig : forall v, en_kind n = ek_signal -> foldable_const (ps_m s) (en_signal n) = Some v ->
    node_ev s n = node_ev s (literal_node v)).
  { intros v Hk Hf. unfold node_ev, node_value. rewrite Hk. simpl. by apply (b_consts s Hb). }
  assert (Hlit : forall v, leads s (intern_node (literal_node v)) (fun s' r => denotes s' r v)).
  { intros v. apply intern_node_leads; [done|]. constructor. }
  assert (Hfold : forall v, fold_node (ps_m s) n = Some v -> node_ev s n = v).
  { intros v. unfold fold_node, node_ev, node_value.
    pose proof (fun v => literal_value s (en_a n) v (b_arena s Hb)) as Ha. unfold ev in Ha.
    pose proof (fun v => literal_value s (en_b n) v (b_arena s Hb)) as Hb'. unfold ev in Hb'.
    destruct (try_get_literal (ps_m s) (en_a n)) as [a|]; simpl.
    - rewrite (Ha a) by done. destruct (try_get_literal (ps_m s) (en_b n)) as [b|]; simpl.
      + rewrite (Hb' b) by done. by destruct (en_kind n); intros [= <-].
      + by destruct (en_kind n); intros [= <-].
    - by destruct (en_kind n). }
  destruct (en_kind n) eqn:Hk; try (destruct (fold_node (ps_m s) n) as [v|] eqn:Hf; [rewrite (Hfold v) by done; apply Hlit|by apply intern_node_leads]).
  destruct (foldable_const (ps_m s) (en_signal n)) as [v|] eqn:Hf.
  - simpl. rewrite (Hsig v) by done. apply Hlit.
  - unfold fold_node. rewrite Hk. by apply intern_node_leads.
Qed.

(** ** Steps *)

Lemma operand_value s r v : ~ full s -> denotes s r v -> read_signal (arena_values values (nodes_of s)) r = v.
Proof. intros Hf [_ H]. by apply H. Qed.

(** A node reads as its operator applied to what its operands denote. *)
Lemma add_node_lowers s n v :
  builder s -> Forall (root_ok s) (operands n) -> (~ full s -> node_ev s n = v) -> lowers s (add_node n) v.
Proof.
  intros Hb Hop Hv. eapply leads_weaken; [by apply add_node_leads|]. intros s' r He [Hr Hd]. split; [done|].
  intros Hf. rewrite Hd by done. apply Hv. intros Hf'. apply Hf. by eapply full_ext.
Qed.

Lemma make_literal_lowers s v : builder s -> lowers s (make_literal v) v.
Proof. intros Hb. apply add_node_lowers; [done|constructor|done]. Qed.

Lemma op1_lowers s k a x :
  builder s -> k ∈ [ek_unary_not; ek_is_unknown] -> denotes s a x -> lowers s (add_node (op1_node k a)) (eval_op1 k x).
Proof.
  intros Hb Hk Ha. apply add_node_lowers; [done| |].
  - destruct Ha as [Ha _]. unfold operands. destruct k; set_unfold; try tauto; by repeat constructor.
  - intros Hf. unfold node_ev, node_value. simpl. rewrite (operand_value s a x) by done. destruct k; set_solver.
Qed.

Definition is_op2 (k : expr_kind) : Prop :=
  k ∉ [ek_literal; ek_signal; ek_unary_not; ek_is_unknown].

Lemma op2_lowers s k a b x y :
  builder s -> is_op2 k -> denotes s a x -> denotes s b y -> lowers s (add_node (op2_node k a b)) (eval_op2 k x y).
Proof.
  intros Hb Hk Ha Hb'. apply add_node_lowers; [done| |].
  - destruct Ha as [Ha _], Hb' as [Hb' _]. unfold operands. destruct k; by repeat constructor.
  - intros Hf. unfold node_ev, node_value. simpl. rewrite (operand_value s a x), (operand_value s b y) by done.
    unfold is_op2 in Hk. destruct k; set_solver.
Qed.

Lemma make_not_lowers s a x : builder s -> denotes s a x -> lowers s (make_not a) (logic_not x).
Proof. intros Hb Ha. apply (op1_lowers s ek_unary_not a x Hb); [set_solver|done]. Qed.

Lemma make_is_unknown_lowers s a x : builder s -> denotes s a x -> lowers s (make_is_unknown a) (dns_of_bool (is_unknown x)).
Proof.
  intros Hb Ha. replace (is_unknown x) with (is_unknown (normalize_z_to_x x)) by (by destruct x).
  apply (op1_lowers s ek_is_unknown a x Hb); [set_solver|done].
Qed.

Lemma make_and_lowers s a b x y : builder s -> denotes s a x -> denotes s b y -> lowers s (make_and a b) (logic_and x y).
Proof. intros Hb Ha Hb'. apply (op2_lowers s ek_binary_and a b x y Hb); [unfold is_op2; set_solver|done..]. Qed.

Lemma make_or_lowers s a b x y : builder s -> denotes s a x -> denotes s b y -> lowers s (make_or a b) (logic_or x y).
Proof. intros Hb Ha Hb'. apply (op2_lowers s ek_binary_or a b x y Hb); [unfold is_op2; set_solver|done..]. Qed.

Lemma make_xor_lowers s a b x y : builder s -> denotes s a x -> denotes s b y -> lowers s (make_xor a b) (logic_xor x y).
Proof. intros Hb Ha Hb'. apply (op2_lowers s ek_binary_xor a b x y Hb); [unfold is_op2; set_solver|done..]. Qed.

End Denote.

(** Move what is known of one state to the next. *)
Ltac lift He :=
  lazymatch type of He with
  | ext ?s ?s' => repeat match goal with D : denotes s ?a ?v |- _ => apply (denotes_ext s s' a v He) in D end
  end.

(** One step of a lowering: [lem] gives the meaning of its first call. *)
Tactic Notation "lstep" uconstr(lem) :=
  eapply leads_bind; [eapply lem; try done|
  let s := fresh "s" in let r := fresh "r" in let He := fresh "He" in let Hb := fresh "Hb" in let Hd := fresh "Hd" in
  intros s r He Hb Hd; cbv beta in Hd; lift He].

Tactic Notation "lstep" uconstr(lem) "as" ident(Hd) :=
  eapply leads_bind; [eapply lem; try done|
  let s := fresh "s" in let r := fresh "r" in let He := fresh "He" in let Hb := fresh "Hb" in
  intros s r He Hb Hd; cbv beta in Hd; lift He].

Section Combinators.

Context `{values : Valuation}.

(** The value of [make_mux]. *)
Definition mux (c t f : dns) : dns := logic_or (logic_and c t) (logic_and (logic_not c) f).

Lemma make_mux_lowers s c t f x y z :
  builder s -> denotes s c x -> denotes s t y -> denotes s f z -> lowers s (make_mux c t f) (mux x y z).
Proof.
  intros Hb Hc Ht Hf. unfold make_mux. lstep make_not_lowers. lstep make_and_lowers. lstep make_and_lowers.
  by apply make_or_lowers.
Qed.

Lemma lmap_lowers `{Denotes A V, Denotes B W} (f : A -> L B) (g : V -> W) s l vs :
  builder s -> denotes s l vs ->
  (forall s' a v, ext s s' -> builder s' -> denotes s' a v -> lowers s' (f a) (g v)) ->
  lowers s (lmap f l) (g <$> vs).
Proof.
  revert s vs. induction l as [|a l IH]; intros s vs Hb Hl Hf; inversion Hl as [|? v ? vs' Hv Hvs]; subst.
  { apply leads_ret; [done|constructor]. }
  change (denotes s l vs') in Hvs. cbn [lmap].
  lstep Hf. lstep IH.
  { intros. apply Hf; [by etrans|done|done]. }
  apply leads_ret; [done|]. by constructor.
Qed.

Lemma lfold_lowers `{Denotes A V, Denotes B W} (f : B -> A -> L B) (g : W -> V -> W) s b w l vs :
  builder s -> denotes s b w -> denotes s l vs ->
  (forall s' a v b w, ext s s' -> builder s' -> denotes s' a v -> denotes s' b w -> lowers s' (f b a) (g w v)) ->
  lowers s (lfold f b l) (foldl g w vs).
Proof.
  revert s b w vs. induction l as [|a l IH]; intros s b w vs Hb Hw Hl Hf; inversion Hl as [|? v ? vs' Hv Hvs]; subst.
  { by apply leads_ret. }
  change (denotes s l vs') in Hvs. cbn [lfold foldl].
  lstep Hf. eapply IH; try done. intros. apply Hf; [by etrans|done..].
Qed.

End Combinators.

(** ** Vectors *)

Section Vectors.

Context `{values : Valuation}.

Lemma denotes_length `{Denotes A V} s (l : list A) (vs : list V) : denotes s l vs -> length l = length vs.
Proof. apply Forall2_length. Qed.

Lemma denotes_width s a v : denotes s a v -> width a = length (bv_bits v).
Proof.
  intros [_ Hl]. apply denotes_length in Hl. rewrite <- Hl. unfold width, roots_of. by destruct (xv_is_vector a).
Qed.

Lemma denotes_roots s a v : denotes s a v -> denotes s (roots_of a) (bv_bits v).
Proof. by intros [_ ?]. Qed.

Lemma denotes_signed s a v : denotes s a v -> xv_is_signed a = bv_signed v.
Proof. by intros [? _]. Qed.

Lemma denotes_rev `{Denotes A V} s (l : list A) (vs : list V) : denotes s l vs -> denotes s (rev l) (rev vs).
Proof. intros Hl. apply Forall2_reverse in Hl. unfold reverse in Hl. by rewrite !rev_append_rev, !app_nil_r in Hl. Qed.

Lemma denotes_zip s l1 l2 (v1 v2 : list dns) :
  denotes s l1 v1 -> denotes s l2 v2 -> denotes s (zip l1 l2) (zip v1 v2).
Proof.
  intros H1. revert l2 v2. induction H1 as [|a x l1 v1 Hx _ IH]; intros l2 v2 H2; [constructor|].
  destruct H2 as [|b y l2 v2 Hy H2]; [constructor|]. constructor; [by split|by apply IH].
Qed.

Lemma denotes_replicate `{Denotes A V} s n (a : A) (v : V) :
  denotes s a v -> denotes s (replicate n a) (replicate n v).
Proof. intros. by apply Forall2_replicate. Qed.

Lemma denotes_app `{Denotes A V} s (l l' : list A) (vs vs' : list V) :
  denotes s l vs -> denotes s l' vs' -> denotes s (l ++ l') (vs ++ vs').
Proof. apply Forall2_app. Qed.

Lemma denotes_cons `{Denotes A V} s (a : A) (v : V) l vs :
  denotes s a v -> denotes s l vs -> denotes s (a :: l) (v :: vs).
Proof. by constructor. Qed.

Lemma denotes_nil `{Denotes A V} s : denotes s (@nil A) (@nil V).
Proof. constructor. Qed.

Lemma make_scalar_denotes s r v msb lsb sg : denotes s r v -> denotes s (make_scalar r msb lsb sg) (mk_bitval sg [v]).
Proof. intros. split; [done|]. apply denotes_cons; [done|apply denotes_nil]. Qed.

Lemma make_vector_lowers s roots vs sg :
  builder s -> denotes s roots vs -> vs ≠ [] -> length vs <= max_concat_bits ->
  lowers s (make_vector roots sg) (mk_bitval sg vs).
Proof.
  intros Hb Hl Hne Hmax. pose proof (denotes_length _ _ _ Hl) as Hlen. unfold make_vector.
  rewrite bool_decide_eq_false_2 by lia. change (mret ?x ≫= ?f) with (f x).
  destruct Hl as [|r v roots vs Hv Hl]; [done|]. destruct Hl as [|r' v' roots vs Hv' Hl].
  - apply leads_ret; [done|]. by apply make_scalar_denotes.
  - apply leads_ret; [done|]. split; [done|]. by do 2 (apply denotes_cons; [done|]).
Qed.

(** The value of [resize_to_vector]. *)
Lemma resize_to_vector_lowers s a v w sx :
  builder s -> denotes s a v -> bv_bits v ≠ [] -> 1 <= w ->
  lowers s (resize_to_vector a w sx) (resize_bits_to w sx (bv_bits v)).
Proof.
  intros Hb Ha Hne Hw. apply denotes_roots in Ha. pose proof (denotes_length _ _ _ Ha) as Hlen.
  unfold resize_to_vector, resize_bits_to. set (src := roots_of a) in *. clearbody src.
  assert (1 <= length (bv_bits v)) by (destruct (bv_bits v); [done|simpl; lia]).
  case_bool_decide as Hw1.
  { assert (w = 1) as -> by lia. rewrite bool_decide_eq_true_2 by lia.
    destruct (bv_bits v) as [|x l _] using rev_ind; [done|]. apply Forall2_app_inv_r in Ha as (l1 & l2 & H1 & H2 & ->).
    inversion H2 as [|r ? ? ? Hr Hnil]; subst. inversion Hnil; subst. rewrite last_snoc.
    eapply leads_bind; [by eapply leads_unchecked with (Q := fun s' r' => s' = s /\ r' = r)|].
    intros ? ? _ _ [-> ->]. apply leads_ret; [done|]. rewrite length_app, drop_app_length' by (simpl; lia).
    apply denotes_cons; [done|apply denotes_nil]. }
  case_bool_decide as Hweq.
  { rewrite bool_decide_eq_true_2 by lia. replace (length (bv_bits v) - w) with 0 by lia. by apply leads_ret. }
  case_bool_decide as Hwlt.
  { rewrite bool_decide_eq_true_2 by lia. apply leads_ret; [done|]. rewrite Hlen. by apply Forall2_drop. }
  rewrite bool_decide_eq_false_2 by lia. lstep make_literal_lowers. apply leads_ret; [done|]. rewrite Hlen.
  apply denotes_app; [|done]. apply denotes_replicate. destruct sx; [|done].
  by destruct Ha.
Qed.

Lemma foldl_or_unknown l b :
  foldl (fun r x => logic_or r (dns_of_bool (is_unknown x))) (dns_of_bool b) l = dns_of_bool (b || unknown l).
Proof.
  revert b. induction l as [|x l IH]; intros b; [by rewrite orb_false_r|]. cbn [foldl].
  replace (logic_or (dns_of_bool b) (dns_of_bool (is_unknown x))) with (dns_of_bool (b || is_unknown x))
    by (by destruct b, (is_unknown x)).
  rewrite IH. cbn [unknown existsb]. by rewrite orb_assoc.
Qed.

Lemma any_unknown_root_lowers s a v :
  builder s -> denotes s a v -> bv_bits v ≠ [] -> lowers s (any_unknown_root a) (dns_of_bool (unknown (bv_bits v))).
Proof.
  intros Hb Ha Hne. apply denotes_roots in Ha. unfold any_unknown_root, roots_of in *.
  destruct (xv_is_vector a); cbn [negb].
  - destruct (xv_vector_roots a) as [|r l]; [by inversion Ha; subst; destruct (bv_bits v)|].
    lstep make_literal_lowers. rewrite <- (orb_false_l (unknown _)), <- foldl_or_unknown.
    eapply lfold_lowers; try done.
    intros s' x vx b w He' Hbs Hx Hw. lstep make_is_unknown_lowers. by apply make_or_lowers.
  - inversion Ha as [|? x ? l Hx Hnil Heq]; subst. inversion Hnil; subst. unfold unknown. simpl. rewrite orb_false_r.
    by apply make_is_unknown_lowers.
Qed.

Lemma unknown_either_lowers s a b va vb :
  builder s -> denotes s a va -> denotes s b vb -> bv_bits va ≠ [] -> bv_bits vb ≠ [] ->
  lowers s (unknown_either a b) (dns_of_bool (unknown (bv_bits va) || unknown (bv_bits vb))).
Proof.
  intros Hb Ha Hb' Hna Hnb. unfold unknown_either. lstep any_unknown_root_lowers. lstep any_unknown_root_lowers.
  eapply leads_weaken; [by apply make_or_lowers|]. intros s' r' _ Hr. cbv beta in Hr.
  by destruct (unknown (bv_bits va)), (unknown (bv_bits vb)).
Qed.

(** A masked vector: unknown throughout, or its bits with [Z] read as [X]. *)
Definition masked (u : bool) (l : list dns) : list dns :=
  if u then replicate (length l) indeterminate_state else normalize_z_to_x <$> l.

Lemma mux_unknown u x : mux (dns_of_bool u) indeterminate_state x = if u then indeterminate_state else normalize_z_to_x x.
Proof. by destruct u, x. Qed.

Lemma mask_unknown_lowers s u l b vs :
  builder s -> denotes s u (dns_of_bool b) -> denotes s l vs -> lowers s (mask_unknown u l) (masked b vs).
Proof.
  intros Hb Hu Hl. unfold mask_unknown. lstep make_literal_lowers.
  replace (masked b vs) with (mux (dns_of_bool b) indeterminate_state <$> vs).
  - eapply lmap_lowers; try done. intros s' a v He' Hb' Ha. lift He'. by apply make_mux_lowers.
  - unfold masked. destruct b.
    + apply const_fmap. intros i x _. apply (mux_unknown true).
    + apply list_fmap_ext. intros i x _. apply (mux_unknown false).
Qed.

End Vectors.
