(* ===== verification/VArithOk.v ===== *)
(** * Verilog: lowered arithmetic and comparison

    The bit-level circuits that [arith_add], [arith_sub], [arith_mul] and the
    comparisons of verilog/digital/digital.h build compute the integer
    operations on the values of their operands, modulo the width of the result,
    and are unknown in every bit when an operand has an unknown bit. *)

From S2P Require Import Prelude Logic4 VModule VEval VExec VLower VBits VLowerOk.
From Stdlib Require Import ZArith Lia.

(** ** Reference *)

(** An operation [f] on integers as an operation on vectors: the result has
    [w] bits, all unknown if an operand has an unknown bit. *)
Definition ref_arith (f : Z -> Z -> Z) (w : nat) (va vb : bitval) : bitval :=
  let sx := bv_signed va && bv_signed vb in
  mk_bitval sx (match as_Z sx (bv_bits va), as_Z sx (bv_bits vb) with
                | Some x, Some y => bits w (f x y)
                | _, _ => replicate w indeterminate_state
                end).

(** The bits of the ripple-carry adder, lsb first. *)
Fixpoint ripple_val (invert_b : bool) (l : list (dns * dns)) (c : dns) : list dns :=
  match l with
  | [] => []
  | (x, y) :: l =>
      let y := if invert_b then logic_not y else y in
      logic_xor (logic_xor x y) c
        :: ripple_val invert_b l (logic_or (logic_or (logic_and x y) (logic_and x c)) (logic_and y c))
  end.

Lemma length_ripple_val inv l c : length (ripple_val inv l c) = length l.
Proof. revert c. induction l as [|[x y] l IH]; intros c; simpl; [done|]. by rewrite IH. Qed.

(** One step of the adder on integers. *)
Lemma adder_step (x y : Z) (c : bool) :
  Z.odd (x + y + Z.b2z c) = xorb (xorb (Z.odd x) (Z.odd y)) c
  /\ Z.div2 (x + y + Z.b2z c)
     = (Z.div2 x + Z.div2 y + Z.b2z ((Z.odd x && Z.odd y) || (Z.odd x && c) || (Z.odd y && c)))%Z.
Proof.
  split.
  - rewrite !Z.odd_add. by destruct c.
  - pose proof (Z.div2_odd x) as Hx. pose proof (Z.div2_odd y) as Hy.
    rewrite (Z.div2_div (x + y + Z.b2z c)). symmetry.
    apply Z.div_unique with (r := Z.b2z (xorb (xorb (Z.odd x) (Z.odd y)) c)).
    + left. destruct (xorb _ _); simpl; lia.
    + rewrite Hx, Hy at 1. destruct (Z.odd x), (Z.odd y), c; simpl Z.b2z; lia.
Qed.

Lemma ripple_val_add (inv : bool) w x y c :
  ripple_val inv (zip (dns_of_bool <$> lbits w x) (dns_of_bool <$> lbits w y)) (dns_of_bool c)
  = dns_of_bool <$> lbits w (x + (if inv then Z.lnot y else y) + Z.b2z c).
Proof.
  revert x y c. induction w as [|w IH]; intros x y c; [done|]. cbn [lbits fmap list_fmap zip zip_with ripple_val].
  set (y' := if inv then Z.lnot y else y).
  assert (Hodd : (if inv then logic_not (dns_of_bool (Z.odd y)) else dns_of_bool (Z.odd y)) = dns_of_bool (Z.odd y')).
  { unfold y'. destruct inv; [|done]. unfold Z.lnot. rewrite <- Z.sub_1_r, Z.odd_sub, Z.odd_opp. by destruct (Z.odd y). }
  assert (Hdiv : Z.div2 y' = if inv then Z.lnot (Z.div2 y) else Z.div2 y).
  { unfold y'. destruct inv; [|done]. by rewrite !Z.div2_spec, Z.lnot_shiftr by lia. }
  rewrite Hodd. destruct (adder_step x y' c) as [Ho Hd]. rewrite Ho, Hd, Hdiv, <- IH. f_equal.
  - by destruct (Z.odd x), (Z.odd y'), c.
  - f_equal. by destruct (Z.odd x), (Z.odd y'), c.
Qed.

Lemma rev_zip {A B} (l : list A) (k : list B) : length l = length k -> rev (zip l k) = zip (rev l) (rev k).
Proof.
  revert k. induction l as [|x l IH]; intros [|y k]; [done..|]. simpl. intros [= Hl].
  rewrite IH by done. rewrite zip_with_app by (by rewrite !length_rev). done.
Qed.

(** The adder on vectors, msb first. *)
Lemma ripple_val_bits (inv : bool) w x y c :
  rev (ripple_val inv (rev (zip (bits w x) (bits w y))) (dns_of_bool c))
  = bits w (x + (if inv then Z.lnot y else y) + Z.b2z c).
Proof.
  unfold bits. rewrite !fmap_rev, rev_zip by (by rewrite !length_rev, !length_fmap, !length_lbits).
  by rewrite !rev_involutive, ripple_val_add.
Qed.

(** ** Sums and differences *)

Section Arith.

Context `{values : Valuation}.

Lemma ripple_lowers s inv l c vl vc :
  builder s -> denotes s l vl -> denotes s c vc -> lowers s (ripple inv l c) (ripple_val inv vl vc).
Proof.
  revert s c vl vc. induction l as [|[a b] l IH]; intros s c vl vc Hb Hl Hc; inversion Hl as [|? [x y] ? vl' [Ha Hy] Hl'];
    subst; [by apply leads_ret; [|constructor]|].
  change (denotes s l vl') in Hl'. cbn [ripple ripple_val fst snd] in *.
  assert (Hinv : lowers s (if inv then make_not b else mret b) (if inv then logic_not y else y)).
  { destruct inv; [by apply make_not_lowers|by apply leads_ret]. }
  lstep Hinv. lstep make_xor_lowers. lstep make_xor_lowers. lstep make_and_lowers. lstep make_and_lowers.
  lstep make_and_lowers. lstep make_or_lowers. lstep make_or_lowers. lstep IH.
  apply leads_ret; [done|]. by apply denotes_cons.
Qed.

Lemma limit_width_leads s w msg :
  builder s -> w <= max_concat_bits -> leads s (limit_width w msg) (fun s' w' => s' = s /\ w' = w).
Proof. intros Hb Hw. unfold limit_width. rewrite bool_decide_eq_false_2 by lia. by apply leads_ret. Qed.

Lemma unchecked_head_lowers s (l : list index) (v : dns) (vs : list dns) : builder s -> denotes s l (v :: vs) -> lowers s (unchecked (head l)) v.
Proof. intros Hb Hl. inversion Hl; subst. by eapply leads_unchecked. Qed.

(** The lsb of a value, as the one-bit cases read it. *)
Lemma resize_head_lowers s a v sx :
  builder s -> denotes s a v -> bv_bits v ≠ [] ->
  lowers s (resize_to_vector a 1 sx ≫= fun l => unchecked (head l)) (default indeterminate_state (last (bv_bits v))).
Proof.
  intros Hb Ha Hne. lstep resize_to_vector_lowers as Hl. rewrite resize_bits_one in Hl by done.
  by eapply unchecked_head_lowers.
Qed.

(** The masked result agrees with the reference if the bits do for known
    operands. *)
Lemma masked_ref f w va vb l :
  let sx := bv_signed va && bv_signed vb in
  length l = w ->
  (forall x y, as_Z sx (bv_bits va) = Some x -> as_Z sx (bv_bits vb) = Some y -> l = bits w (f x y)) ->
  masked (unknown (bv_bits va) || unknown (bv_bits vb)) l = bv_bits (ref_arith f w va vb).
Proof.
  intros sx Hl Hf. unfold ref_arith, masked. cbn [bv_bits]. fold sx. rewrite !unknown_known. unfold as_Z in *.
  destruct (known (bv_bits va)) as [xs|]; simpl; [|by rewrite Hl].
  destruct (known (bv_bits vb)) as [ys|]; simpl; [|by rewrite Hl].
  erewrite Hf at 1 by reflexivity. unfold bits. rewrite <- list_fmap_compose. apply list_fmap_ext. by intros _ [] _.
Qed.

Lemma masked_scalar s r f va vb v :
  let sx := bv_signed va && bv_signed vb in
  denotes s r (mux (dns_of_bool (unknown (bv_bits va) || unknown (bv_bits vb))) indeterminate_state v) ->
  (forall x y, as_Z sx (bv_bits va) = Some x -> as_Z sx (bv_bits vb) = Some y -> [v] = bits 1 (f x y)) ->
  denotes s (make_scalar r 0 0 sx) (ref_arith f 1 va vb).
Proof.
  intros sx Hr Hf. change (ref_arith f 1 va vb) with (mk_bitval sx (bv_bits (ref_arith f 1 va vb))).
  rewrite <- (masked_ref f 1 va vb [v]) by done. rewrite mux_unknown in Hr.
  replace (masked _ [v]) with [if unknown (bv_bits va) || unknown (bv_bits vb) then indeterminate_state else normalize_z_to_x v].
  - by apply make_scalar_denotes.
  - by destruct (unknown (bv_bits va) || unknown (bv_bits vb)).
Qed.

Lemma length_ref_arith f w va vb : length (bv_bits (ref_arith f w va vb)) = w.
Proof. unfold ref_arith. simpl. destruct (as_Z _ _); [destruct (as_Z _ _)|]; by rewrite ?length_bits, ?length_replicate. Qed.

Lemma arith_add_sub_lowers s sub msg a b va vb :
  builder s -> denotes s a va -> denotes s b vb -> bv_bits va ≠ [] -> bv_bits vb ≠ [] ->
  let w := Nat.max (length (bv_bits va)) (length (bv_bits vb)) in
  w <= max_concat_bits ->
  lowers s (arith_add_sub sub msg a b) (ref_arith (if sub then Z.sub else Z.add) w va vb).
Proof.
  intros Hb Ha Hb' Hna Hnb w Hw. unfold arith_add_sub.
  rewrite (denotes_width s a va), (denotes_width s b vb), (denotes_signed s a va), (denotes_signed s b vb) by done. fold w.
  set (sx := bv_signed va && bv_signed vb).
  assert (Hw1 : 1 <= w) by (unfold w; destruct (bv_bits va); [done|simpl; lia]).
  eapply leads_bind; [by apply limit_width_leads|]. intros ? ? _ _ [-> ->].
  lstep unknown_either_lowers.
  assert (Hrez : forall x y, as_Z sx (bv_bits va) = Some x -> as_Z sx (bv_bits vb) = Some y ->
    resize_bits_to w sx (bv_bits va) = bits w x /\ resize_bits_to w sx (bv_bits vb) = bits w y).
  { intros. split; by apply resize_as_Z. }
  case_bool_decide as Hcase.
  - assert (w = 1) as E by lia. rewrite E in *. clear E.
    apply leads_assoc. lstep resize_head_lowers as Hx. apply leads_assoc. lstep resize_head_lowers as Hy.
    lstep make_xor_lowers. lstep make_literal_lowers. lstep make_mux_lowers as Hm. apply leads_ret; [done|].
    apply (masked_scalar _ _ (if sub then Z.sub else Z.add) va vb _ Hm). intros x y Hvx Hvy.
    destruct (Hrez x y Hvx Hvy) as [Hx1 Hy1]. rewrite resize_bits_one in Hx1, Hy1 by done.
    injection Hx1 as ->. injection Hy1 as ->. unfold bits. simpl.
    destruct sub; rewrite ?Z.odd_add, ?Z.odd_sub; by destruct (Z.odd x), (Z.odd y).
  - lstep resize_to_vector_lowers. lstep resize_to_vector_lowers. lstep make_literal_lowers.
    lstep ripple_lowers.
    { by apply denotes_rev, denotes_zip. }
    lstep mask_unknown_lowers as Hm. { by apply denotes_rev. }
    rewrite (masked_ref (if sub then Z.sub else Z.add) w) in Hm.
    + pose proof (length_ref_arith (if sub then Z.sub else Z.add) w va vb) as Hlen.
      apply (make_vector_lowers _ _ (bv_bits (ref_arith _ w va vb)) sx); [done|done| |lia]. intros E. rewrite E in Hlen. simpl in Hlen. lia.
    + rewrite length_rev, length_ripple_val, length_rev, length_zip_with, !length_resize_bits_to. lia.
    + intros x y Hx Hy. destruct (Hrez x y Hx Hy) as [-> ->]. rewrite ripple_val_bits. f_equal.
      destruct sub; simpl; unfold Z.lnot; lia.
Qed.

(** ** Literals *)

Lemma make_bits_lowers s bs : builder s -> lowers s (make_bits bs) (dns_of_bool <$> bs).
Proof.
  intros Hb. unfold make_bits.
  assert (Hm : lowers s (lmap (fun b => make_literal (dns_of_bool b)) (rev bs)) (dns_of_bool <$> rev bs)).
  { generalize (rev bs) as l. intros l. revert s Hb. induction l as [|b l IH]; intros s Hb.
    - apply leads_ret; [done|]. apply denotes_nil.
    - cbn [lmap]. lstep make_literal_lowers. lstep IH. apply leads_ret; [done|]. by apply denotes_cons. }
  lstep Hm as Hr. apply leads_ret; [done|]. apply denotes_rev in Hr. by rewrite fmap_rev, rev_involutive in Hr.
Qed.

Lemma literal_bits_spec value high w :
  (forall k, (64 <= k)%Z -> Z.testbit value k = high) -> literal_bits value high w = rev (lbits w value).
Proof.
  intros Hh. unfold literal_bits. apply list_eq. intros i. rewrite list_lookup_fmap.
  destruct (decide (i < w)) as [Hi|Hi].
  - rewrite lookup_seq_lt by done. rewrite lookup_rev by (by rewrite length_lbits).
    rewrite length_lbits, lbits_lookup by lia. simpl. case_bool_decide; [done|]. by rewrite Hh by lia.
  - rewrite lookup_seq_ge by lia. symmetry. apply lookup_ge_None_2. rewrite length_rev, length_lbits. lia.
Qed.

Lemma make_uint_literal_lowers s value w :
  builder s -> 1 <= w <= max_concat_bits -> (0 <= value < 2 ^ 64)%Z ->
  lowers s (make_uint_literal value w) (mk_bitval false (bits w value)).
Proof.
  intros Hb Hw Hv. unfold make_uint_literal. case_bool_decide as Hw1.
  - assert (w = 1) as -> by lia. lstep make_literal_lowers. apply leads_ret; [done|].
    apply make_scalar_denotes. by rewrite <- Z.bit0_odd.
  - lstep make_bits_lowers as Hr. rewrite literal_bits_spec in Hr.
    + pose proof (length_bits w value). apply make_vector_lowers; [done|done| |lia].
      intros E. rewrite E in H. simpl in H. lia.
    + intros k Hk. destruct (decide (value = 0)%Z) as [->|]; [by rewrite Z.testbit_0_l|].
      apply Z.bits_above_log2; [lia|]. pose proof (proj1 (Z.log2_lt_pow2 value 64 ltac:(lia))). lia.
Qed.

Lemma make_int_literal_lowers s value w :
  builder s -> 1 <= w <= max_concat_bits -> (- 2 ^ 63 <= value < 2 ^ 63)%Z ->
  lowers s (make_int_literal value w) (mk_bitval (bool_decide (1 < w)) (bits w value)).
Proof.
  intros Hb Hw Hv. unfold make_int_literal. case_bool_decide as Hw1.
  - assert (w = 1) as -> by lia. lstep make_literal_lowers. apply leads_ret; [done|].
    apply make_scalar_denotes. by rewrite <- Z.bit0_odd.
  - lstep make_bits_lowers as Hr. rewrite literal_bits_spec in Hr.
    + pose proof (length_bits w value). rewrite bool_decide_eq_true_2 by lia.
      apply make_vector_lowers; [done|done| |lia]. intros E. rewrite E in H. simpl in H. lia.
    + intros k Hk. case_bool_decide as Hneg.
      * apply Z.bits_above_log2_neg; [lia|]. destruct (decide (Z.pred (- value) = 0)%Z) as [->|]; [simpl; lia|].
        pose proof (proj1 (Z.log2_lt_pow2 (Z.pred (- value)) 63 ltac:(lia))). lia.
      * destruct (decide (value = 0)%Z) as [->|]; [by rewrite Z.testbit_0_l|].
        apply Z.bits_above_log2; [lia|]. pose proof (proj1 (Z.log2_lt_pow2 value 63 ltac:(lia))). lia.
Qed.

(** ** Products *)

(** The value of [partial_product]. *)
Definition partial_val (va : list dns) (shift : nat) (b : dns) : list dns :=
  let l := (fun x => logic_and x b) <$> drop shift va in
  l ++ replicate (length va - length l) false_state.

Lemma length_partial_val va k b : length (partial_val va k b) = length va.
Proof. unfold partial_val. rewrite length_app, length_replicate, length_fmap, length_drop. lia. Qed.

Lemma partial_product_lowers s z av va k b vb :
  builder s -> denotes s z false_state -> denotes s av va -> denotes s b vb ->
  lowers s (partial_product z av k b) (partial_val va k vb).
Proof.
  intros Hb Hz Ha Hbb. unfold partial_product, partial_val.
  pose proof (denotes_length s av va Ha) as Hlen.
  lstep (lmap_lowers _ (fun x => logic_and x vb)) as Hl.
  { apply Forall2_drop. exact Ha. }
  { intros s' a v He' Hb' Hav. lift He'. by apply make_and_lowers. }
  pose proof (denotes_length _ _ _ Hl) as Hlen'. apply leads_ret; [done|]. apply denotes_app; [done|].
  rewrite Hlen, Hlen'. by apply denotes_replicate.
Qed.

(** A partial product of a known vector. *)
Lemma partial_val_bits w x k b :
  partial_val (bits w x) k (dns_of_bool b) = bits w (x * 2 ^ Z.of_nat k * Z.b2z b).
Proof.
  unfold partial_val. rewrite length_fmap, length_drop, length_bits.
  replace (w - (w - k)) with (Nat.min k w) by lia. destruct b; simpl Z.b2z.
  - rewrite Z.mul_1_r, bits_shiftl. f_equal. unfold bits. rewrite <- fmap_drop, <- list_fmap_compose.
    apply list_fmap_ext. by intros _ [] _.
  - rewrite Z.mul_0_r, bits_zero. rewrite (const_fmap _ _ false_state) by (by intros _ [] _).
    rewrite length_drop, length_bits, <- replicate_add. f_equal. lia.
Qed.

(** The sum of two vectors of one width. *)
Lemma ref_add_bits sx w x y :
  ref_arith Z.add w (mk_bitval sx (bits w x)) (mk_bitval sx (bits w y)) = mk_bitval sx (bits w (x + y)).
Proof.
  unfold ref_arith. simpl. rewrite andb_diag.
  destruct (as_Z_bits sx w x) as (x' & -> & Hx), (as_Z_bits sx w y) as (y' & -> & Hy).
  f_equal. apply bits_mod. by rewrite Zplus_mod, Hx, Hy, <- Zplus_mod.
Qed.

(** The value of [mul_loop]. *)
Fixpoint mul_val (va : list dns) (sx : bool) (bs : list dns) (k : nat) (acc : bitval) : bitval :=
  match bs with
  | [] => acc
  | b :: bs => mul_val va sx bs (S k) (ref_arith Z.add (length va) acc (mk_bitval sx (partial_val va k b)))
  end.

Lemma mul_val_shape va sx bs k acc :
  bv_signed acc = sx -> length (bv_bits acc) = length va ->
  bv_signed (mul_val va sx bs k acc) = sx /\ length (bv_bits (mul_val va sx bs k acc)) = length va.
Proof.
  revert k acc. induction bs as [|b bs IH]; intros k acc Hs Hl; [done|]. apply IH; [|apply length_ref_arith].
  simpl. by rewrite Hs, andb_diag.
Qed.

Lemma mul_val_bits w x sx bs k p :
  mul_val (bits w x) sx (dns_of_bool <$> bs) k (mk_bitval sx (bits w (x * p)))
  = mk_bitval sx (bits w (x * (p + 2 ^ Z.of_nat k * uval bs))).
Proof.
  revert k p. induction bs as [|b bs IH]; intros k p; cbn [fmap list_fmap mul_val uval].
  - do 3 f_equal. lia.
  - rewrite length_bits, partial_val_bits, ref_add_bits.
    replace (x * p + x * 2 ^ Z.of_nat k * Z.b2z b)%Z with (x * (p + 2 ^ Z.of_nat k * Z.b2z b))%Z by ring.
    rewrite IH. do 3 f_equal. rewrite Nat2Z.inj_succ, Z.pow_succ_r by lia. ring.
Qed.

Lemma mul_loop_lowers s z av sx bs k acc va vbs vacc :
  builder s -> denotes s z false_state -> denotes s av va -> denotes s bs vbs -> denotes s acc vacc ->
  bv_signed vacc = sx -> length (bv_bits vacc) = length va -> 1 <= length va <= max_concat_bits ->
  lowers s (mul_loop z av sx bs k acc) (mul_val va sx vbs k vacc).
Proof.
  revert s k acc vbs vacc. induction bs as [|b bs IH]; intros s k acc vbs vacc Hb Hz Ha Hbs Hacc Hs Hl Hw;
    inversion Hbs as [|? vb ? vbs' Hvb Hvbs]; subst; [by apply leads_ret|].
  change (denotes s bs vbs') in Hvbs. cbn [mul_loop mul_val].
  pose proof (length_partial_val va k vb) as Hlp.
  assert (Hne : forall l : list dns, length l = length va -> l ≠ []) by (intros l ? ->; simpl in *; lia).
  lstep partial_product_lowers. lstep make_vector_lowers; [by apply Hne|lia|].
  lstep arith_add_sub_lowers as Hsum; [by apply Hne|by apply Hne|simpl; lia|].
  cbn [bv_bits] in Hsum. rewrite Hl, Hlp, Nat.max_id in Hsum.
  apply IH; try done; [|apply length_ref_arith]. simpl. by rewrite andb_diag.
Qed.

(** *** The 8 by 8 case *)

(** The values of [bit_or_zero], [mul2_tile] and [place]. *)
Definition bit_val (v : list dns) (bit : nat) : dns :=
  if bool_decide (length v <= bit) then false_state else default indeterminate_state (v !! (length v - 1 - bit)).

Definition mul2_val (a0 a1 b0 b1 : dns) : list dns :=
  let t1 := logic_and a0 b1 in
  let t2 := logic_and a1 b0 in
  let c1 := logic_and t1 t2 in
  let t3 := logic_and a1 b1 in
  [logic_and t3 c1; logic_xor t3 c1; logic_xor t1 t2; logic_and a0 b0].

Definition place_val (w shift : nat) (prod : list dns) : list dns :=
  rev (take w (replicate shift false_state ++ rev prod ++ replicate w false_state)).

Definition tile_val (va vb : list dns) (t : nat * nat) : list dns :=
  place_val 16 (2 * (t.1 + t.2))
    (mul2_val (bit_val va (2 * t.1)) (bit_val va (2 * t.1 + 1)) (bit_val vb (2 * t.2)) (bit_val vb (2 * t.2 + 1))).

Lemma length_place_val w shift prod : length (place_val w shift prod) = w.
Proof. unfold place_val. rewrite length_rev, length_take, !length_app, !length_replicate. lia. Qed.

Lemma bit_or_zero_denotes s z v vs k : denotes s z false_state -> denotes s v vs -> denotes s (bit_or_zero z v k) (bit_val vs k).
Proof.
  intros Hz Hv. unfold bit_or_zero, bit_val. rewrite (denotes_length s v vs Hv). case_bool_decide; [done|].
  destruct (v !! (length vs - 1 - k)) as [r|] eqn:Hr.
  - destruct (Forall2_lookup_l _ _ _ _ _ Hv Hr) as (x & -> & Hx). done.
  - apply lookup_ge_None in Hr. rewrite (denotes_length s v vs Hv) in Hr. lia.
Qed.

Lemma mul2_tile_lowers s a0 a1 b0 b1 x0 x1 y0 y1 :
  builder s -> denotes s a0 x0 -> denotes s a1 x1 -> denotes s b0 y0 -> denotes s b1 y1 ->
  lowers s (mul2_tile a0 a1 b0 b1) (mul2_val x0 x1 y0 y1).
Proof.
  intros Hb H0 H1 H2 H3. unfold mul2_tile. do 3 lstep make_and_lowers. lstep make_xor_lowers. do 2 lstep make_and_lowers.
  lstep make_xor_lowers. lstep make_and_lowers. apply leads_ret; [done|].
  do 4 (apply denotes_cons; [done|]). apply denotes_nil.
Qed.

Lemma place_denotes s z w shift prod vs :
  denotes s z false_state -> denotes s prod vs -> denotes s (place z w shift prod) (place_val w shift vs).
Proof.
  intros Hz Hp. unfold place, place_val. apply denotes_rev, Forall2_take. change (Forall2 (denotes s)) with (denotes s (A := list index) (V := list dns)).
  repeat apply denotes_app; try by apply denotes_replicate. by apply denotes_rev.
Qed.

Lemma max_concat_bits_16 : 16 <= max_concat_bits.
Proof. with_strategy transparent [max_concat_bits] unfold max_concat_bits. lia. Qed.

Lemma mul8_tile_lowers s z av bv acc va vb vacc t :
  builder s -> denotes s z false_state -> denotes s av va -> denotes s bv vb -> denotes s acc vacc ->
  length (bv_bits vacc) = 16 ->
  lowers s (mul8_tile z av bv acc t) (ref_arith Z.add 16 vacc (mk_bitval false (tile_val va vb t))).
Proof.
  intros Hb Hz Ha Hbv Hacc Hl. destruct t as [ai bi]. unfold mul8_tile. pose proof max_concat_bits_16.
  assert (Hne : forall l : list dns, length l = 16 -> l ≠ []) by (by intros l ? ->).
  lstep mul2_tile_lowers as Hp; [by apply bit_or_zero_denotes..|].
  lstep make_vector_lowers as Hv; [by apply place_denotes|apply Hne, length_place_val|rewrite length_place_val; lia|].
  eapply leads_weaken; [eapply arith_add_sub_lowers; try done|].
  - by apply Hne.
  - apply Hne, length_place_val.
  - cbn [bv_bits]. rewrite Hl, length_place_val. lia.
  - intros s' r' _ Hsum. cbn [bv_bits] in Hsum. by rewrite Hl, length_place_val, Nat.max_id in Hsum.
Qed.

Lemma mul8_tiles_lowers s z av bv acc va vb vacc ts :
  builder s -> denotes s z false_state -> denotes s av va -> denotes s bv vb -> denotes s acc vacc ->
  length (bv_bits vacc) = 16 ->
  lowers s (lfold (mul8_tile z av bv) acc ts)
    (foldl (fun acc t => ref_arith Z.add 16 acc (mk_bitval false (tile_val va vb t))) vacc ts).
Proof.
  revert s acc vacc. induction ts as [|t ts IH]; intros s acc vacc Hb Hz Ha Hbv Hacc Hl; [by apply leads_ret|].
  cbn [lfold foldl]. lstep mul8_tile_lowers. apply IH; try done. apply length_ref_arith.
Qed.

(** A placed product of known bits. *)
Lemma place_val_bits w shift bs :
  place_val w shift (dns_of_bool <$> rev bs) = bits w (uval bs * 2 ^ Z.of_nat shift).
Proof.
  unfold place_val, bits. rewrite fmap_rev, rev_involutive, fmap_rev. f_equal.
  change false_state with (dns_of_bool false). rewrite <- !fmap_replicate, <- !fmap_app, <- fmap_take. f_equal.
  apply list_eq. intros i. destruct (decide (i < w)) as [Hi|Hi].
  - rewrite lookup_take_lt, lbits_lookup by done. destruct (decide (i < shift)) as [His|His].
    + by rewrite lookup_app_l, lookup_replicate_2, Z.mul_pow2_bits_low by (rewrite ?length_replicate; lia).
    + rewrite lookup_app_r, length_replicate by (rewrite length_replicate; lia).
      rewrite Z.mul_pow2_bits by lia. replace (Z.of_nat i - Z.of_nat shift)%Z with (Z.of_nat (i - shift)) by lia.
      rewrite testbit_uval. destruct (bs !! (i - shift)) as [b|] eqn:Eb.
      * by rewrite lookup_app_l by (by eapply lookup_lt_Some).
      * apply lookup_ge_None in Eb. by rewrite lookup_app_r, lookup_replicate_2 by lia.
  - rewrite !lookup_ge_None_2; [done| |]; rewrite ?length_take, ?length_lbits; lia.
Qed.

(** The integer of a tile: two bits of each operand at their positions. *)
Definition tile_Z (xs ys : list bool) (t : nat * nat) : Z :=
  let bit l k := Z.b2z (default false (l !! k)) in
  (bit xs (2 * t.1)%nat + 2 * bit xs (2 * t.1 + 1)%nat) * (bit ys (2 * t.2)%nat + 2 * bit ys (2 * t.2 + 1)%nat)
    * 2 ^ Z.of_nat (2 * (t.1 + t.2)).

Lemma bit_val_known xs k : bit_val (dns_of_bool <$> rev xs) k = dns_of_bool (default false (xs !! k)).
Proof.
  unfold bit_val. rewrite length_fmap, length_rev. case_bool_decide as Hk; [by rewrite lookup_ge_None_2|].
  rewrite list_lookup_fmap, lookup_rev by lia. replace (length xs - 1 - (length xs - 1 - k)) with k by lia.
  by destruct (lookup_lt_is_Some_2 xs k) as [b ->]; [lia|].
Qed.

Lemma tile_val_bits xs ys t :
  tile_val (dns_of_bool <$> rev xs) (dns_of_bool <$> rev ys) t = bits 16 (tile_Z xs ys t).
Proof.
  unfold tile_val, tile_Z. rewrite !bit_val_known. set (n := 2 * (t.1 + t.2)).
  generalize (default false (xs !! (2 * t.1))), (default false (xs !! (2 * t.1 + 1))).
  generalize (default false (ys !! (2 * t.2))), (default false (ys !! (2 * t.2 + 1))). clearbody n.
  intros y0 y1 x0 x1.
  set (p := lbits 4 ((Z.b2z x0 + 2 * Z.b2z x1) * (Z.b2z y0 + 2 * Z.b2z y1))).
  replace (mul2_val _ _ _ _) with (dns_of_bool <$> rev p) by (by destruct x0, x1, y0, y1).
  rewrite place_val_bits. f_equal. f_equal. by destruct x0, x1, y0, y1.
Qed.

(** The sixteen tiles of an 8 by 8 product add up. *)
Lemma tiles_val_bits xs ys :
  length xs = 8 -> length ys = 8 ->
  foldl (fun acc t => ref_arith Z.add 16 acc (mk_bitval false (tile_val (dns_of_bool <$> rev xs) (dns_of_bool <$> rev ys) t)))
    (mk_bitval false (bits 16 0)) tiles
  = mk_bitval false (bits 16 (uval xs * uval ys)).
Proof.
  intros Hx Hy.
  assert (Hsum : forall ts z,
    foldl (fun acc t => ref_arith Z.add 16 acc (mk_bitval false (tile_val (dns_of_bool <$> rev xs) (dns_of_bool <$> rev ys) t)))
      (mk_bitval false (bits 16 z)) ts
    = mk_bitval false (bits 16 (foldl (fun z t => z + tile_Z xs ys t)%Z z ts))).
  { induction ts as [|t ts IH]; intros z; [done|]. cbn [foldl]. by rewrite tile_val_bits, ref_add_bits, IH. }
  rewrite Hsum. do 2 f_equal.
  do 8 (destruct xs as [|? xs]; [done|]). destruct xs; [|done].
  do 8 (destruct ys as [|? ys]; [done|]). destruct ys; [|done].
  cbv -[Z.mul Z.add Z.b2z]. ring.
Qed.

Lemma denotes_vector s a v : denotes s a v -> 2 <= length (bv_bits v) -> xv_is_vector a = true.
Proof.
  intros Ha Hl. apply denotes_width in Ha. unfold width in Ha. destruct (xv_is_vector a); [done|lia].
Qed.

Lemma mask_value_lowers s u f w va vb acc vacc sx :
  bv_signed va && bv_signed vb = sx ->
  builder s -> denotes s u (dns_of_bool (unknown (bv_bits va) || unknown (bv_bits vb))) -> denotes s acc vacc ->
  length (bv_bits vacc) = w -> 2 <= w ->
  (forall x y, as_Z sx (bv_bits va) = Some x -> as_Z sx (bv_bits vb) = Some y -> bv_bits vacc = bits w (f x y)) ->
  lowers s (mask_value u sx acc) (ref_arith f w va vb).
Proof.
  intros <- Hb Hu Hacc Hl Hw Hf. pose proof (denotes_vector s acc vacc Hacc) as Hv. unfold mask_value.
  pose proof (denotes_roots s acc vacc Hacc) as Hr. unfold roots_of in Hr. rewrite Hv in Hr by lia.
  lstep mask_unknown_lowers as Hm. rewrite (masked_ref f w) in Hm by done.
  apply leads_ret; [done|]. split; [done|]. unfold roots_of. simpl. by rewrite Hv by lia.
Qed.

Lemma mul8_value va vb :
  length (bv_bits va) = 8 -> length (bv_bits vb) = 8 ->
  let acc := foldl (fun acc t => ref_arith Z.add 16 acc (mk_bitval false (tile_val (bv_bits va) (bv_bits vb) t)))
               (mk_bitval false (bits 16 0)) tiles in
  length (bv_bits acc) = 16
  /\ forall x y, as_Z false (bv_bits va) = Some x -> as_Z false (bv_bits vb) = Some y -> bv_bits acc = bits 16 (x * y).
Proof.
  intros Ha Hb acc. split.
  - unfold acc. cbn -[ref_arith Z.add tile_val]. apply length_ref_arith.
  - intros x y [Hx Hx']%as_Z_unsigned [Hy Hy']%as_Z_unsigned. unfold acc. rewrite Hx, Hy, Ha, Hb. rewrite Ha in Hx'. rewrite Hb in Hy'.
    unfold bits at 1 2. rewrite tiles_val_bits by apply length_lbits. cbn [bv_bits].
    by rewrite !uval_lbits, !Z.mod_small.
Qed.

Lemma mul_value va vb :
  let sx := bv_signed va && bv_signed vb in
  let w := length (bv_bits va) + length (bv_bits vb) in
  let acc := mul_val (resize_bits_to w sx (bv_bits va)) sx (rev (resize_bits_to w sx (bv_bits vb))) 0 (mk_bitval sx (bits w 0)) in
  bv_bits va ≠ [] -> bv_bits vb ≠ [] ->
  length (bv_bits acc) = w
  /\ forall x y, as_Z sx (bv_bits va) = Some x -> as_Z sx (bv_bits vb) = Some y -> bv_bits acc = bits w (x * y).
Proof.
  intros sx w acc Hna Hnb. unfold acc. split.
  - destruct (mul_val_shape (resize_bits_to w sx (bv_bits va)) sx (rev (resize_bits_to w sx (bv_bits vb))) 0
      (mk_bitval sx (bits w 0))) as [_ ->]; [done| |]; cbn [bv_bits];
      by rewrite ?length_bits, length_resize_bits_to.
  - intros x y Hx Hy. rewrite (resize_as_Z w sx (bv_bits va) x), (resize_as_Z w sx (bv_bits vb) y) by done.
    unfold bits at 2. rewrite fmap_rev, rev_involutive, <- (Z.mul_0_r x), mul_val_bits. cbn [bv_bits].
    apply bits_mod. rewrite uval_lbits, Z.add_0_l, Z.mul_1_l. apply Zmult_mod_idemp_r.
Qed.

(** The branch for two unsigned bytes. *)
Lemma arith_mul8_lowers s u a b va vb w :
  w = 16 ->
  builder s -> denotes s a va -> denotes s b vb -> bv_signed va && bv_signed vb = false ->
  length (bv_bits va) = 8 -> length (bv_bits vb) = 8 ->
  denotes s u (dns_of_bool (unknown (bv_bits va) || unknown (bv_bits vb))) ->
  lowers s
    (av ← resize_to_vector a (length (bv_bits va)) false;
     bv ← resize_to_vector b (length (bv_bits vb)) false;
     z ← make_literal false_state;
     acc ← make_uint_literal 0 w;
     acc ← lfold (mul8_tile z av bv) acc tiles;
     if xv_is_vector acc then mask_value u false acc
     else mret (mk_value (xv_is_vector acc) false (xv_scalar_root acc) (xv_vector_roots acc) (xv_msb acc) (xv_lsb acc)))
    (ref_arith Z.mul w va vb).
Proof.
  intros -> Hb Ha Hb' Hsx Ha8 Hb8 Hu. rewrite Ha8, Hb8. pose proof max_concat_bits_16.
  assert (Hre : forall l : list dns, length l = 8 -> resize_bits_to 8 false l = l).
  { intros l Hl. unfold resize_bits_to. by rewrite Hl. }
  assert (Hne : forall l : list dns, length l = 8 -> l ≠ []) by (by intros l ? ->).
  destruct (mul8_value va vb) as [Hlen Hval]; [done..|].
  lstep resize_to_vector_lowers as Hav; [by apply Hne|lia|]. rewrite Hre in Hav by done.
  lstep resize_to_vector_lowers as Hbv; [by apply Hne|lia|]. rewrite Hre in Hbv by done.
  lstep make_literal_lowers as Hz. lstep make_uint_literal_lowers as Hl; [lia|].
  lstep mul8_tiles_lowers as Hacc.
  rewrite (denotes_vector _ _ _ Hacc) by (rewrite Hlen; lia). 
  eapply mask_value_lowers; try done. lia.
Qed.

Lemma arith_mul_lowers s a b va vb :
  builder s -> denotes s a va -> denotes s b vb -> bv_bits va ≠ [] -> bv_bits vb ≠ [] ->
  let w := length (bv_bits va) + length (bv_bits vb) in
  w <= max_concat_bits ->
  lowers s (arith_mul a b) (ref_arith Z.mul w va vb).
Proof.
  intros Hb Ha Hb' Hna Hnb w Hw. unfold arith_mul.
  rewrite (denotes_width s a va), (denotes_width s b vb), (denotes_signed s a va), (denotes_signed s b vb) by done. fold w.
  set (sx := bv_signed va && bv_signed vb).
  assert (Hw2 : 2 <= w) by (unfold w; destruct (bv_bits va), (bv_bits vb); [done..|simpl; lia]).
  eapply leads_bind; [by apply limit_width_leads|]. intros ? ? _ _ [-> ->].
  lstep unknown_either_lowers as Hu.
  destruct (negb sx && _ && _ && _) eqn:H8.
  - rewrite !andb_true_iff, negb_true_iff, !bool_decide_eq_true in H8. destruct H8 as [[[Hsx Ha8] Hb8] Hw16].
    by apply arith_mul8_lowers.
  - rewrite bool_decide_eq_false_2 by lia.
    lstep resize_to_vector_lowers as Hav; [lia|]. lstep resize_to_vector_lowers as Hbv; [lia|].
    assert (Hlit : forall s, builder s -> lowers s (if sx then make_int_literal 0 w else make_uint_literal 0 w) (mk_bitval sx (bits w 0))).
    { intros s' Hs'. destruct sx; [|by apply make_uint_literal_lowers; [|lia|lia]].
      pose proof (make_int_literal_lowers s' 0 w) as Hl. rewrite bool_decide_eq_true_2 in Hl by lia. apply Hl; [done|lia|lia]. }
    destruct (mul_value va vb Hna Hnb) as [Hlen Hval]. fold w sx in Hlen, Hval.
    lstep Hlit as Hl. lstep make_literal_lowers as Hz. lstep mul_loop_lowers as Hacc.
    { by apply denotes_rev. } { cbn [bv_bits]. by rewrite length_bits, length_resize_bits_to. } { rewrite length_resize_bits_to. lia. }
    rewrite (denotes_vector _ _ _ Hacc) by (rewrite Hlen; lia).
    by eapply mask_value_lowers.
Qed.

End Arith.
