(* ===== verification/VCompareOk.v ===== *)
(** * Verilog: lowered comparisons, selections and shifts

    The comparison circuits of verilog/digital/digital.h decide the order of
    the integers their operands stand for; on operands with unknown bits they
    answer only what holds for every completion of these bits.  Conditional
    expressions choose the branch the condition names, and a shift moves the
    bits of its operand by the amount. *)

From S2P Require Import Prelude Logic4 VModule VEval VExec VLower VBits VLowerOk VArithOk.
From Stdlib Require Import ZArith Lia.

(** ** Reference *)

(** The value of [lt_loop]. *)
Fixpoint lt_val (l : list (dns * dns)) (eq_prefix lt : dns) : dns :=
  match l with
  | [] => lt
  | (x, y) :: l =>
      lt_val l (logic_and eq_prefix (eval_op2 ek_binary_eq x y))
        (logic_or lt (logic_and eq_prefix (logic_and (logic_not x) y)))
  end.

(** The value of [compare_lt] on operands of one width. *)
Definition less_val (sx : bool) (l : list (dns * dns)) : dns :=
  if sx then
    match l with
    | [] => indeterminate_state
    | [(x, y)] => logic_and x (logic_not y)
    | (x, y) :: l => mux (logic_xor x y) (logic_and x (logic_not y)) (lt_val l true_state false_state)
    end
  else lt_val l true_state false_state.

(** The value of [compare_eq] and [compare_case_eq]. *)
Definition equal_val (k : expr_kind) (l : list (dns * dns)) : dns :=
  match l with
  | [] => indeterminate_state
  | (x, y) :: l => foldl (fun r p => logic_and r (eval_op2 k p.1 p.2)) (eval_op2 k x y) l
  end.

(** The two operands at their common width. *)
Definition aligned (va vb : bitval) : list (dns * dns) :=
  let w := Nat.max (length (bv_bits va)) (length (bv_bits vb)) in
  let sx := bv_signed va && bv_signed vb in
  zip (resize_bits_to w sx (bv_bits va)) (resize_bits_to w sx (bv_bits vb)).

Definition ref_less (va vb : bitval) : dns := less_val (bv_signed va && bv_signed vb) (aligned va vb).

Definition ref_equal (va vb : bitval) : dns := equal_val ek_binary_eq (aligned va vb).

(** ** Known operands *)

Abbreviation known_pairs l := ((fun p : bool * bool => (dns_of_bool p.1, dns_of_bool p.2)) <$> l).

(** The unsigned value of bits, msb first. *)
Abbreviation mval l := (uval (rev l)).

Lemma mval_cons b l : mval (b :: l) = (mval l + 2 ^ Z.of_nat (length l) * Z.b2z b)%Z.
Proof. cbn [rev]. rewrite uval_app, length_rev. simpl. lia. Qed.

Lemma mval_bounds l : (0 <= mval l < 2 ^ Z.of_nat (length l))%Z.
Proof. rewrite <- (length_rev l). apply uval_bounds. Qed.

Lemma sval_cons b l : sval (rev (b :: l)) = (mval l - 2 ^ Z.of_nat (length l) * Z.b2z b)%Z.
Proof.
  unfold sval. rewrite mval_cons, length_rev. cbn [rev length]. rewrite last_snoc. cbn [default].
  rewrite Nat2Z.inj_succ, Z.pow_succ_r by lia. destruct b; simpl Z.b2z; cbn [id]; lia.
Qed.

Ltac solve_ltb := repeat case Z.ltb_spec; intros; try done; lia.

Lemma lt_val_known l e t :
  lt_val (known_pairs l) (dns_of_bool e) (dns_of_bool t)
  = dns_of_bool (t || (e && (mval l.*1 <? mval l.*2)%Z)).
Proof.
  revert e t. induction l as [|[x y] l IH]; intros e t; [by destruct t, e|].
  rewrite !fmap_cons. cbn [lt_val fst snd].
  replace (logic_and (dns_of_bool e) (eval_op2 ek_binary_eq (dns_of_bool x) (dns_of_bool y)))
    with (dns_of_bool (e && Bool.eqb x y)) by (by destruct e, x, y).
  replace (logic_or _ _) with (dns_of_bool (t || (e && (negb x && y)))) by (by destruct t, e, x, y).
  rewrite IH. f_equal. rewrite !mval_cons, !length_fmap.
  pose proof (mval_bounds l.*1) as H1. pose proof (mval_bounds l.*2) as H2. rewrite !length_fmap in H1, H2.
  destruct t, e; try done. cbn [orb andb]. destruct x, y; cbn [negb andb orb Bool.eqb Z.b2z]; solve_ltb.
Qed.

(** The integer of bits, msb first. *)
Definition int_of (sx : bool) (l : list bool) : Z := if sx then sval (rev l) else mval l.

Lemma less_val_known sx l :
  l ≠ [] -> less_val sx (known_pairs l) = dns_of_bool (int_of sx l.*1 <? int_of sx l.*2)%Z.
Proof.
  intros Hl. unfold less_val, int_of. destruct sx; [|apply (lt_val_known l true false)].
  destruct l as [|[x y] l]; [done|]. rewrite !fmap_cons. cbn [fst snd]. rewrite !sval_cons, !length_fmap.
  pose proof (mval_bounds l.*1) as H1. pose proof (mval_bounds l.*2) as H2. rewrite !length_fmap in H1, H2.
  assert (Hs : (mval l.*1 - 2 ^ Z.of_nat (length l) * Z.b2z x <? mval l.*2 - 2 ^ Z.of_nat (length l) * Z.b2z y)%Z
    = if xorb x y then x && negb y else (mval l.*1 <? mval l.*2)%Z).
  { destruct x, y; cbn [xorb negb andb Z.b2z]; solve_ltb. }
  rewrite Hs. destruct l as [|p l]; [by destruct x, y|].
  pose proof (lt_val_known (p :: l) true false) as Hlt. cbn [orb andb dns_of_bool] in Hlt.
  change (known_pairs (p :: l)) with ((dns_of_bool p.1, dns_of_bool p.2) :: known_pairs l) in *.
  rewrite Hlt. destruct x, y; cbn [xorb negb andb]; by destruct (mval _ <? mval _)%Z.
Qed.

Lemma cons_eq_bool (x y : bool) l k : bool_decide (x :: l = y :: k) = Bool.eqb x y && bool_decide (l = k).
Proof.
  destruct (Bool.eqb_spec x y) as [->|Hne]; simpl.
  - apply bool_decide_ext. split; [by intros [= ->]|by intros ->].
  - apply bool_decide_eq_false_2. by intros [= ? _].
Qed.

Lemma equal_val_known l :
  l ≠ [] -> equal_val ek_binary_eq (known_pairs l) = dns_of_bool (bool_decide (l.*1 = l.*2)).
Proof.
  destruct l as [|[x y] l]; [done|]. intros _. rewrite fmap_cons. cbn [equal_val fst snd].
  assert (H : forall b, foldl (fun r (p : dns * dns) => logic_and r (eval_op2 ek_binary_eq p.1 p.2)) (dns_of_bool b) (known_pairs l)
    = dns_of_bool (b && bool_decide (l.*1 = l.*2))).
  { clear. induction l as [|[x y] l IH]; intros b; [by destruct b|]. rewrite !fmap_cons. cbn [foldl fst snd].
    replace (logic_and _ _) with (dns_of_bool (b && Bool.eqb x y)) by (by destruct b, x, y).
    by rewrite IH, cons_eq_bool, <- andb_assoc. }
  replace (eval_op2 _ _ _) with (dns_of_bool (Bool.eqb x y)) by (by destruct x, y).
  by rewrite H, !fmap_cons, cons_eq_bool.
Qed.

(** The operands of a comparison, both known, at their common width. *)
Lemma aligned_known va vb x y :
  let sx := bv_signed va && bv_signed vb in
  bv_bits va ≠ [] -> bv_bits vb ≠ [] -> as_Z sx (bv_bits va) = Some x -> as_Z sx (bv_bits vb) = Some y ->
  exists l, l ≠ [] /\ aligned va vb = known_pairs l /\ int_of sx l.*1 = x /\ int_of sx l.*2 = y.
Proof.
  intros sx Hna Hnb Hx Hy. unfold aligned. fold sx. set (w := Nat.max _ _).
  rewrite (resize_as_Z w sx (bv_bits va) x), (resize_as_Z w sx (bv_bits vb) y) by done.
  exists (zip (rev (lbits w x)) (rev (lbits w y))).
  assert (Hw : 1 <= w) by (unfold w; destruct (bv_bits va); [done|simpl; lia]).
  assert (Hlen : forall z, length (rev (lbits w z)) = w) by (intros; by rewrite length_rev, length_lbits).
  rewrite fst_zip, snd_zip by (by rewrite !Hlen). split_and!.
  - intros E. apply (f_equal length) in E. rewrite length_zip_with, !Hlen in E. simpl in E. lia.
  - unfold bits. rewrite zip_with_fmap_l, zip_with_fmap_r.
    rewrite (zip_with_zip (fun x y => (dns_of_bool x, dns_of_bool y))). apply list_fmap_ext. by intros _ [] _.
  - unfold int_of. rewrite rev_involutive. apply (as_Z_fits sx (bv_bits va)); [done|done|unfold w; lia].
  - unfold int_of. rewrite rev_involutive. apply (as_Z_fits sx (bv_bits vb)); [done|done|unfold w; lia].
Qed.

Lemma int_of_inj sx l k : length l = length k -> int_of sx l = int_of sx k -> l = k.
Proof.
  intros Hl Hi. assert (Hu : mval l = mval k).
  { unfold int_of in Hi. destruct sx; [|done]. destruct l as [|x l], k as [|y k]; [done..|]. injection Hl as Hl.
    pose proof (mval_bounds l) as H1. pose proof (mval_bounds k) as H2.
    rewrite !sval_cons in Hi. rewrite !mval_cons. rewrite Hl in *. destruct x, y; simpl Z.b2z in *; lia. }
  rewrite <- (rev_involutive l), <- (rev_involutive k). f_equal.
  rewrite <- (lbits_uval (rev l)), <- (lbits_uval (rev k)), Hu, !length_rev, Hl. done.
Qed.

Lemma ref_less_known va vb x y :
  let sx := bv_signed va && bv_signed vb in
  bv_bits va ≠ [] -> bv_bits vb ≠ [] -> as_Z sx (bv_bits va) = Some x -> as_Z sx (bv_bits vb) = Some y ->
  ref_less va vb = dns_of_bool (x <? y)%Z.
Proof.
  intros sx Hna Hnb Hx Hy. destruct (aligned_known va vb x y) as (l & Hl & Ha & <- & <-); [done..|].
  unfold ref_less. rewrite Ha. by apply less_val_known.
Qed.

Lemma ref_equal_known va vb x y :
  let sx := bv_signed va && bv_signed vb in
  bv_bits va ≠ [] -> bv_bits vb ≠ [] -> as_Z sx (bv_bits va) = Some x -> as_Z sx (bv_bits vb) = Some y ->
  ref_equal va vb = dns_of_bool (x =? y)%Z.
Proof.
  intros sx Hna Hnb Hx Hy. destruct (aligned_known va vb x y) as (l & Hl & Ha & <- & <-); [done..|].
  unfold ref_equal. rewrite Ha, equal_val_known by done. f_equal. fold sx.
  destruct (Z.eqb_spec (int_of sx l.*1) (int_of sx l.*2)) as [E|E].
  - apply bool_decide_eq_true_2. apply (int_of_inj sx); [by rewrite !length_fmap|done].
  - apply bool_decide_eq_false_2. intros Heq. by rewrite Heq in E.
Qed.

(** ** Unknown operands *)

(** The same answer, or none. *)
Definition below (x y : dns) : Prop := is_unknown x = true \/ x = y.

Definition below_pair (p q : dns * dns) : Prop := below p.1 q.1 /\ below p.2 q.2.

(** Monotone operators, by cases. *)
Ltac below_cases := unfold below; intros; repeat match goal with d : dns |- _ => destruct d end; simpl in *; intuition discriminate.

Lemma below_not x y : below x y -> below (logic_not x) (logic_not y).
Proof. below_cases. Qed.

Lemma below_and x y x' y' : below x x' -> below y y' -> below (logic_and x y) (logic_and x' y').
Proof. below_cases. Qed.

Lemma below_or x y x' y' : below x x' -> below y y' -> below (logic_or x y) (logic_or x' y').
Proof. below_cases. Qed.

Lemma below_xor x y x' y' : below x x' -> below y y' -> below (logic_xor x y) (logic_xor x' y').
Proof. below_cases. Qed.

Lemma below_eq x y x' y' : below x x' -> below y y' -> below (eval_op2 ek_binary_eq x y) (eval_op2 ek_binary_eq x' y').
Proof. below_cases. Qed.

Create HintDb below discriminated.
#[export] Hint Resolve below_not below_and below_or below_xor below_eq : below.

#[export] Instance below_refl : Reflexive below.
Proof. by right. Qed.

#[export] Hint Extern 1 (below _ _) => reflexivity : below.

Lemma below_mux c t f c' t' f' : below c c' -> below t t' -> below f f' -> below (mux c t f) (mux c' t' f').
Proof. unfold mux. auto 6 with below. Qed.

Lemma lt_val_below l l' e e' t t' :
  Forall2 below_pair l l' -> below e e' -> below t t' -> below (lt_val l e t) (lt_val l' e' t').
Proof.
  intros Hl. revert e e' t t'. induction Hl as [|[x y] [x' y'] l l' [Hx Hy] _ IH]; intros e e' t t' He Ht; [done|].
  simpl in Hx, Hy. cbn [lt_val]. apply IH; auto 6 with below.
Qed.

Lemma less_val_below sx l l' : Forall2 below_pair l l' -> below (less_val sx l) (less_val sx l').
Proof.
  intros Hl. unfold less_val. destruct sx; [|apply lt_val_below; auto with below].
  destruct Hl as [|[x y] [x' y'] l l' [Hx Hy] Hl]; [done|]. simpl in Hx, Hy.
  destruct Hl as [|p p' l l' Hp Hl]; [auto with below|].
  apply below_mux; [auto with below..|]. apply lt_val_below; [by constructor|auto with below..].
Qed.

Lemma equal_val_below l l' : Forall2 below_pair l l' -> below (equal_val ek_binary_eq l) (equal_val ek_binary_eq l').
Proof.
  destruct 1 as [|[x y] [x' y'] l l' [Hx Hy] Hl]; [done|]. simpl in Hx, Hy. cbn [equal_val].
  assert (H : below (eval_op2 ek_binary_eq x y) (eval_op2 ek_binary_eq x' y')) by auto with below.
  revert H. generalize (eval_op2 ek_binary_eq x y), (eval_op2 ek_binary_eq x' y').
  induction Hl as [|[u v] [u' v'] l l' [Hu Hv] _ IH]; intros r r' Hr; [done|]. cbn [foldl fst snd].
  simpl in Hu, Hv. apply IH. auto with below.
Qed.


(** [vb] is [va] with some unknown bits decided. *)
Definition completes (va vb : bitval) : Prop :=
  bv_signed va = bv_signed vb /\ Forall2 below (bv_bits va) (bv_bits vb).

Lemma resize_below w sx l l' :
  Forall2 below l l' -> Forall2 below (resize_bits_to w sx l) (resize_bits_to w sx l').
Proof.
  intros Hl. unfold resize_bits_to. rewrite <- (Forall2_length _ _ _ Hl). case_bool_decide; [by apply Forall2_drop|].
  apply Forall2_app; [|done]. apply Forall2_replicate. destruct sx; [|auto with below].
  destruct Hl; [auto with below|done].
Qed.

Lemma zip_below l1 l2 l1' l2' :
  Forall2 below l1 l1' -> Forall2 below l2 l2' -> Forall2 below_pair (zip l1 l2) (zip l1' l2').
Proof.
  intros H1. revert l2 l2'. induction H1; intros l2 l2' H2; [constructor|]. destruct H2; [constructor|].
  constructor; [done|auto].
Qed.

Lemma aligned_below va vb ca cb :
  completes va ca -> completes vb cb ->
  bv_signed va && bv_signed vb = bv_signed ca && bv_signed cb /\ Forall2 below_pair (aligned va vb) (aligned ca cb).
Proof.
  intros [Hsa Ha] [Hsb Hb]. split; [by rewrite Hsa, Hsb|]. unfold aligned.
  rewrite <- (Forall2_length _ _ _ Ha), <- (Forall2_length _ _ _ Hb), <- Hsa, <- Hsb.
  by apply zip_below; apply resize_below.
Qed.

Lemma ref_less_below va vb ca cb : completes va ca -> completes vb cb -> below (ref_less va vb) (ref_less ca cb).
Proof.
  intros Ha Hb. destruct (aligned_below va vb ca cb Ha Hb) as [Hs Hl]. unfold ref_less. rewrite <- Hs. by apply less_val_below.
Qed.

Lemma ref_equal_below va vb ca cb : completes va ca -> completes vb cb -> below (ref_equal va vb) (ref_equal ca cb).
Proof. intros Ha Hb. apply equal_val_below. by apply aligned_below. Qed.

(** ** The lowered comparisons *)

Section Compare.

Context `{values : Valuation}.

Lemma lt_loop_lowers s l e t vl ve vt :
  builder s -> denotes s l vl -> denotes s e ve -> denotes s t vt -> lowers s (lt_loop l e t) (lt_val vl ve vt).
Proof.
  revert s e t vl ve vt. induction l as [|[a b] l IH]; intros s e t vl ve vt Hb Hl He Ht;
    inversion Hl as [|? [x y] ? vl' [Ha Hy] Hl']; subst; [by apply leads_ret|].
  change (denotes s l vl') in Hl'. cbn [lt_loop lt_val fst snd] in *.
  lstep (op2_lowers _ ek_binary_eq); [unfold is_op2; set_solver|].
  lstep make_not_lowers. lstep make_and_lowers. lstep make_and_lowers. lstep make_or_lowers. lstep make_and_lowers.
  by apply IH.
Qed.

(** Both operands of a comparison at their common width. *)
Lemma aligned_leads {A} s a b va vb (f : list index -> list index -> L A) (Q : pstate -> A -> Prop) :
  let w := Nat.max (width a) (width b) in
  let sx := xv_is_signed a && xv_is_signed b in
  builder s -> denotes s a va -> denotes s b vb -> bv_bits va ≠ [] -> bv_bits vb ≠ [] ->
  (forall s' av bv, ext s s' -> builder s' -> length av = w -> length bv = w -> 1 <= w ->
     sx = bv_signed va && bv_signed vb -> denotes s' (zip av bv) (aligned va vb) -> leads s' (f av bv) Q) ->
  leads s (av ← resize_to_vector a w sx; bv ← resize_to_vector b w sx; f av bv) Q.
Proof.
  intros w sx Hb Ha Hb' Hna Hnb Hf.
  assert (Ew : w = Nat.max (length (bv_bits va)) (length (bv_bits vb))).
  { unfold w. by rewrite (denotes_width s a va), (denotes_width s b vb). }
  assert (Esx : sx = bv_signed va && bv_signed vb).
  { unfold sx. by rewrite (denotes_signed s a va), (denotes_signed s b vb). }
  assert (1 <= w) by (rewrite Ew; destruct (bv_bits va); [done|simpl; lia]). clearbody w sx.
  lstep resize_to_vector_lowers as Hav. lstep resize_to_vector_lowers as Hbv.
  pose proof (denotes_length _ _ _ Hav) as Hla. pose proof (denotes_length _ _ _ Hbv) as Hlb.
  rewrite length_resize_bits_to in Hla, Hlb.
  apply Hf; try done; [by etrans|]. unfold aligned. rewrite <- Ew, <- Esx. by apply denotes_zip.
Qed.

Lemma compare_lt_lowers s a b va vb :
  builder s -> denotes s a va -> denotes s b vb -> bv_bits va ≠ [] -> bv_bits vb ≠ [] ->
  lowers s (compare_lt a b) (ref_less va vb).
Proof.
  intros Hb Ha Hb' Hna Hnb. unfold compare_lt, ref_less. apply (aligned_leads s a b va vb); try done.
  intros s' av bv He Hb1 Hla Hlb Hw Hsx Hl. rewrite <- Hsx. unfold less_val.
  destruct (xv_is_signed a && xv_is_signed b).
  - destruct av as [|ra av], bv as [|rb bv]; simpl in Hla, Hlb; try lia.
    inversion Hl as [|? [x y] ? l [Hx Hy] Hl' E1 E2]. change (denotes s' (zip av bv) l) in Hl'.
    cbn [fst snd head tail] in *. clear Hl E1 E2.
    eapply leads_bind; [by eapply leads_unchecked with (Q := fun s1 r => s1 = s' /\ r = ra)|]. intros ? ? _ _ [-> ->].
    eapply leads_bind; [by eapply leads_unchecked with (Q := fun s1 r => s1 = s' /\ r = rb)|]. intros ? ? _ _ [-> ->].
    pose proof (denotes_length _ _ _ Hl') as Hlen. rewrite length_zip_with in Hlen. case_bool_decide as Hw1.
    + assert (l = []) as -> by (apply length_zero_iff_nil; lia). lstep make_not_lowers. by apply make_and_lowers.
    + destruct l as [|p l]; [simpl in Hlen; lia|].
      lstep make_xor_lowers. lstep make_not_lowers. lstep make_and_lowers. lstep make_literal_lowers.
      lstep make_literal_lowers. lstep lt_loop_lowers. by apply make_mux_lowers.
  - lstep make_literal_lowers. lstep make_literal_lowers. by apply lt_loop_lowers.
Qed.

Lemma compare_bits_lowers s k a b va vb :
  builder s -> is_op2 k -> denotes s a va -> denotes s b vb -> bv_bits va ≠ [] -> bv_bits vb ≠ [] ->
  lowers s (compare_bits k a b) (equal_val k (aligned va vb)).
Proof.
  intros Hb Hk Ha Hb' Hna Hnb. unfold compare_bits. apply (aligned_leads s a b va vb); try done.
  intros s' av bv He Hb1 Hla Hlb Hw _ Hl. unfold equal_val.
  assert (Hne : zip av bv ≠ []) by (destruct av, bv; simpl in *; first [lia|done]).
  revert Hl Hne. generalize (zip av bv), (aligned va vb). intros l vl Hl Hne.
  destruct Hl as [|[ra rb] [x y] l vl [Hx Hy] Hl]; [done|]. change (denotes s' l vl) in Hl. cbn [fst snd] in *.
  lstep op2_lowers. eapply lfold_lowers; try done. intros s1 [r1 r2] [x1 y1] r0 w0 He1 Hb2 [H1 H2] Hr.
  cbn [fst snd] in *. change (denotes s1 r1 x1) in H1. change (denotes s1 r2 y1) in H2. lstep op2_lowers. by apply make_and_lowers.
Qed.

(** The comparisons with the order on integers each decides. *)
Definition comparisons : list ((expr_value -> expr_value -> L index) * (Z -> Z -> bool)) :=
  [(compare_lt, Z.ltb); (compare_le, Z.leb); (compare_gt, Z.gtb); (compare_ge, Z.geb); (compare_eq, Z.eqb)].

(** The value of a comparison: monotone in what is known of the operands and
    right on known ones. *)
Record decides (g : bitval -> bitval -> dns) (f : Z -> Z -> bool) : Prop := {
  dc_below va vb ca cb : completes va ca -> completes vb cb -> below (g va vb) (g ca cb);
  dc_known va vb x y : bv_bits va ≠ [] -> bv_bits vb ≠ [] ->
    as_Z (bv_signed va && bv_signed vb) (bv_bits va) = Some x ->
    as_Z (bv_signed va && bv_signed vb) (bv_bits vb) = Some y -> g va vb = dns_of_bool (f x y);
}.

Lemma decides_less : decides ref_less Z.ltb.
Proof. split; [apply ref_less_below|apply ref_less_known]. Qed.

Lemma decides_equal : decides ref_equal Z.eqb.
Proof. split; [apply ref_equal_below|apply ref_equal_known]. Qed.

Lemma decides_flip g f : decides g f -> decides (fun va vb => g vb va) (fun x y => f y x).
Proof.
  intros [Hb Hk]. split; [intros; by apply Hb|]. intros va vb x y Ha Hv Hx Hy.
  apply Hk; try done; by rewrite andb_comm.
Qed.

Lemma decides_or g f g' f' :
  decides g f -> decides g' f' -> decides (fun va vb => logic_or (g va vb) (g' va vb)) (fun x y => f x y || f' x y).
Proof.
  intros [Hb Hk] [Hb' Hk']. split; [auto with below|]. intros va vb x y Ha Hv Hx Hy.
  rewrite (Hk va vb x y), (Hk' va vb x y) by done. by destruct (f x y), (f' x y).
Qed.

Lemma decides_ext g f f' : (forall x y, f x y = f' x y) -> decides g f -> decides g f'.
Proof. intros Hf [Hb Hk]. split; [done|]. intros. rewrite <- Hf. by apply Hk. Qed.

(** Every comparison lowers to a value that decides its order. *)
Lemma comparison_lowers s op f a b va vb :
  (op, f) ∈ comparisons -> builder s -> denotes s a va -> denotes s b vb -> bv_bits va ≠ [] -> bv_bits vb ≠ [] ->
  exists g, decides g f /\ lowers s (op a b) (g va vb).
Proof.
  intros Hop Hb Ha Hb' Hna Hnb.
  assert (Hk : is_op2 ek_binary_eq) by (unfold is_op2; set_solver).
  unfold comparisons in Hop. rewrite !elem_of_cons in Hop.
  destruct Hop as [[= -> ->]|[[= -> ->]|[[= -> ->]|[[= -> ->]|[[= -> ->]|Hop%elem_of_nil]]]]]; [..|done].
  - exists ref_less. split; [apply decides_less|by apply compare_lt_lowers].
  - exists (fun va vb => logic_or (ref_less va vb) (ref_equal va vb)). split.
    + eapply decides_ext; [|apply decides_or; [apply decides_less|apply decides_equal]]. intros x y. cbv beta. lia.
    + unfold compare_le. lstep compare_lt_lowers. lstep compare_bits_lowers. by apply make_or_lowers.
  - exists (fun va vb => ref_less vb va). split.
    + eapply decides_ext; [|apply decides_flip, decides_less]. intros x y. cbv beta. lia.
    + by apply compare_lt_lowers.
  - exists (fun va vb => logic_or (ref_less vb va) (ref_equal va vb)). split.
    + eapply decides_ext; [|apply (decides_or (fun va vb => ref_less vb va)); [apply decides_flip, decides_less|apply decides_equal]].
      intros x y. cbv beta. lia.
    + unfold compare_ge. lstep compare_lt_lowers. lstep compare_bits_lowers. by apply make_or_lowers.
  - exists ref_equal. split; [apply decides_equal|by apply compare_bits_lowers].
Qed.

End Compare.
