(* ===== verification/VConstOk.v ===== *)
(** * Verilog: constant evaluation

    [try_eval_const_uint64] of verilog/digital/digital.h evaluates an expression
    with every signal that is not a constant read as unknown.  It computes the
    integer the constants give, and that is the value of the expression in the
    running module whenever no [===] and no test for unknown bits looks at a
    signal that can change. *)

From S2P Require Import Prelude Logic4 VModule VEval VExec VLower VBits VLowerOk VArithOk VCompareOk.
From Stdlib Require Import ZArith Lia.

(** ** The cache *)

Section Cache.

Context (m : compiled_module).
#[local] Abbreviation nodes := (cm_expr_nodes m).
#[local] Abbreviation consts := (const_values m).

Record cache_ok (cm : list dns * list Z) : Prop := {
  co_memo : memo_ok consts nodes 1 (length nodes) cm;
  co_cache : length cm.1 = length nodes;
  co_marks : length cm.2 = length nodes;
}.

Lemma fresh_cache_ok : cache_ok (fresh_cache m).
Proof.
  split; simpl; [|by rewrite length_replicate..]. intros i Hi. simpl. by rewrite lookup_replicate_2.
Qed.

Lemma ev_outside values r : vget nodes r = None -> ev values nodes r = indeterminate_state.
Proof.
  unfold ev, read_signal. destruct r as [i|]; [|done]. simpl. intros Hi.
  by rewrite lookup_ge_None_2 by (rewrite length_arena_values; by apply lookup_ge_None).
Qed.

Lemma eval_const_root_cached_ok r cm :
  acyclic nodes -> cache_ok cm ->
  exists cm', eval_const_root_cached m r cm = Some (ev consts nodes r, cm') /\ cache_ok cm'.
Proof.
  intros Hac [Hmemo Hc Hm]. unfold eval_const_root_cached. destruct cm as [cache mark]. cbn [fst snd] in *.
  destruct (vget nodes r) as [n|] eqn:Hr.
  2:{ exists (cache, mark). rewrite ev_outside by done. split; [|by split].
      cbn [eval_memo]. destruct r as [i|]; [|done]. by rewrite Hr. }
  destruct (eval_memo_total nodes consts 1 (S (length mark)) r cache mark) as (v & cm' & He & Hc' & Hm');
    [lia|lia|pose proof (unmarked_le 1 mark); lia|].
  destruct r as [i|]; [|done]. simpl in Hr. pose proof (lookup_lt_Some _ _ _ Hr).
  pose proof He as He'. apply eval_memo_value in He' as (-> & Hok & Hfr); [|done|].
  - exists cm'. split; [done|]. split; [|lia|pose proof (Forall2_length _ _ _ Hm'); lia].
    by eapply memo_ok_frame.
  - intros j Hj. apply Hmemo. lia.
Qed.

(** ** The value of a vector of constants *)

Definition below_64 (x : Z) : option Z := if (x <? 2 ^ 64)%Z then Some x else None.

(** What the constants make of the roots. *)
Definition const_uint64 (l : list dns) : option Z := as_Z false l ≫= below_64.

Lemma lor_bit value k : (0 <= value < 2 ^ k)%Z -> (0 <= k)%Z -> Z.lor value (Z.shiftl 1 k) = (value + 2 ^ k)%Z.
Proof.
  intros Hv Hk. rewrite Z.shiftl_1_l. rewrite <- Z.lxor_lor; [rewrite <- Z.add_nocarry_lxor; [done|]|];
    apply Z.bits_inj'; intros j Hj; rewrite Z.land_spec, Z.bits_0, Z.pow2_bits_eqb by lia;
    destruct (Z.eqb_spec k j) as [->|]; rewrite ?andb_false_r; try done; rewrite andb_true_r;
    (destruct (decide (value = 0)%Z) as [->|]; [by rewrite Z.testbit_0_l|]);
    apply Z.bits_above_log2; try lia; apply Z.log2_lt_pow2; lia.
Qed.

Lemma uint64_loop_spec roots k value cm :
  acyclic nodes -> cache_ok cm -> (0 <= value < 2 ^ Z.min (Z.of_nat k) 64)%Z ->
  uint64_loop m roots (Z.of_nat k) value cm
  = Some (bs ← known (ev consts nodes <$> roots); below_64 (value + 2 ^ Z.of_nat k * uval bs)).
Proof.
  intros Hac. revert k value cm. induction roots as [|r roots IH]; intros k value cm Hcm Hv.
  { simpl. f_equal. unfold below_64. rewrite Z.mul_0_r, Z.add_0_r.
    assert (2 ^ Z.min (Z.of_nat k) 64 <= 2 ^ 64)%Z by (apply Z.pow_le_mono_r; lia).
    destruct (Z.ltb_spec value (2 ^ 64)); [done|lia]. }
  cbn [uint64_loop]. destruct (eval_const_root_cached_ok r cm Hac Hcm) as (cm' & -> & Hcm').
  cbn [mbind option_bind]. rewrite fmap_cons.
  assert (Hk : (Z.of_nat k + 1)%Z = Z.of_nat (S k)) by lia. rewrite Hk.
  assert (Hmono : forall e f, (0 <= e <= f)%Z -> (2 ^ e <= 2 ^ f)%Z) by (intros; apply Z.pow_le_mono_r; lia).
  assert (Hstep : forall b (value' : Z) cm', cache_ok cm' -> (0 <= value' < 2 ^ Z.min (Z.of_nat (S k)) 64)%Z ->
    value' = (value + 2 ^ Z.of_nat k * Z.b2z b)%Z ->
    uint64_loop m roots (Z.of_nat (S k)) value' cm'
    = Some (bs ← known (ev consts nodes <$> roots); below_64 (value + 2 ^ Z.of_nat k * uval (b :: bs)))).
  { intros b value' cm'' Hcm'' Hv' ->. rewrite IH by done. f_equal.
    destruct (known (ev consts nodes <$> roots)) as [bs|]; [|done]. simpl. f_equal.
    rewrite Nat2Z.inj_succ, Z.pow_succ_r by lia. ring. }
  unfold known at 1. simpl mapM. fold (known (ev consts nodes <$> roots)).
  destruct (ev consts nodes r) eqn:Ev; try done; cbn [normalize_z_to_x is_unknown to_bool].
  - assert (Hz : uint64_loop m roots (Z.of_nat (S k)) value cm'
      = Some (bs ← known (ev consts nodes <$> roots); below_64 (value + 2 ^ Z.of_nat k * uval (false :: bs)))).
    { apply Hstep; [done| |simpl; lia]. specialize (Hmono (Z.min (Z.of_nat k) 64) (Z.min (Z.of_nat (S k)) 64)). lia. }
    change (is_unknown false_state) with false. cbv iota.
    rewrite (bool_decide_eq_false_2 (false_state = true_state)) by done. case_bool_decide; rewrite Hz; f_equal;
      by destruct (known (ev consts nodes <$> roots)).
  - change (is_unknown true_state) with false. cbv iota.
    rewrite (bool_decide_eq_true_2 (true_state = true_state)) by done. case_bool_decide as Hk64.
    + f_equal. destruct (known (ev consts nodes <$> roots)) as [bs|]; [|done]. simpl. unfold below_64.
      pose proof (uval_bounds bs). specialize (Hmono 64%Z (Z.of_nat k)).
      destruct (Z.ltb_spec (value + 2 ^ Z.of_nat k * (1 + 2 * uval bs)) (2 ^ 64)); [|done]. nia.
    + rewrite Z.min_l in Hv by lia. rewrite lor_bit by lia. rewrite (Hstep true); [|done| |simpl; lia].
      2:{ rewrite Z.min_l, Nat2Z.inj_succ, Z.pow_succ_r by lia. lia. }
      f_equal. by destruct (known (ev consts nodes <$> roots)).
Qed.

(** ** What the running module makes of them *)

(** Every signal the expression reads is a constant. *)
Inductive fixed : index -> Prop :=
| fixed_none : fixed None
| fixed_node i n :
    nodes !! i = Some n ->
    (en_kind n = ek_signal -> vget (cm_signal_is_const m) (en_signal n) = Some true) ->
    (forall r, r ∈ operands n -> fixed r) -> fixed (Some i).

(** Only constants are compared with [===] or tested for unknown bits. *)
Inductive plain : index -> Prop :=
| plain_none : plain None
| plain_fixed r : fixed r -> plain r
| plain_node i n :
    nodes !! i = Some n -> en_kind n ≠ ek_is_unknown -> en_kind n ≠ ek_binary_case_eq ->
    (forall r, r ∈ operands n -> plain r) -> plain (Some i).

(** The valuation gives every constant its value. *)
Definition consts_hold (values : list dns) : Prop :=
  forall sig, vget (cm_signal_is_const m) sig = Some true -> read_signal values sig = read_signal consts sig.

Context (values : list dns) (Hac : acyclic nodes) (Hconsts : consts_hold values).

Lemma read_const_other sig :
  vget (cm_signal_is_const m) sig ≠ Some true -> read_signal consts sig = indeterminate_state.
Proof.
  unfold read_signal, const_values. destruct sig as [i|]; [|done]. simpl. rewrite list_lookup_imap.
  by destruct (cm_signal_is_const m !! i) as [[]|].
Qed.

Lemma fixed_value r : fixed r -> ev values nodes r = ev consts nodes r.
Proof.
  induction 1 as [|i n Hi Hs _ Hops]; [done|]. rewrite !(ev_node _ nodes i n) by done.
  unfold node_value, operands in *. unfold ev in Hops.
  destruct (en_kind n) eqn:Hk; try done; try (rewrite !Hops by set_solver; done). by apply Hconsts, Hs.
Qed.

Lemma below_neq x y x' y' : below x x' -> below y y' -> below (eval_op2 ek_binary_neq x y) (eval_op2 ek_binary_neq x' y').
Proof. below_cases. Qed.

(** Where the constants decide the value, the running module agrees. *)
Lemma plain_value r : plain r -> below (ev consts nodes r) (ev values nodes r).
Proof.
  induction 1 as [|r Hf|i n Hi Hu Hc _ Hops]; [done|rewrite fixed_value by done; done|].
  rewrite !(ev_node _ nodes i n) by done. unfold node_value, operands in *. unfold ev in Hops.
  destruct (en_kind n) eqn:Hk; try done.
  - destruct (decide (vget (cm_signal_is_const m) (en_signal n) = Some true)) as [E|E].
    + rewrite Hconsts by done. done.
    + left. by rewrite read_const_other.
  - apply below_not. apply Hops. set_solver.
  - apply below_and; apply Hops; set_solver.
  - apply below_or; apply Hops; set_solver.
  - apply below_xor; apply Hops; set_solver.
  - apply below_eq; apply Hops; set_solver.
  - apply below_neq; apply Hops; set_solver.
Qed.

Lemma below_known l l' bs : Forall2 below l l' -> known l = Some bs -> known l' = Some bs.
Proof.
  rewrite !known_spec. intros Hl ->. revert l' Hl. induction bs as [|b bs IH]; intros l' Hl; inversion Hl as [|? ? ? l1 Hb Hl1]; subst; [done|].
  rewrite fmap_cons. f_equal; [|by apply IH]. destruct Hb as [Hb|<-]; [by destruct b|done].
Qed.

Lemma plain_as_Z sx roots x :
  Forall plain roots -> as_Z sx (ev consts nodes <$> roots) = Some x -> as_Z sx (ev values nodes <$> roots) = Some x.
Proof.
  intros Hp. unfold as_Z. destruct (known (ev consts nodes <$> roots)) as [bs|] eqn:Hk; [|done].
  rewrite (below_known (ev consts nodes <$> roots) (ev values nodes <$> roots) bs); [done| |done].
  clear Hk. induction Hp; constructor; [by apply plain_value|done].
Qed.

End Cache.

(** ** Constant expressions *)

Lemma known_rev l : known (rev l) = rev (A := bool) <$> known l.
Proof.
  destruct (known l) as [bs|] eqn:E.
  - apply known_spec in E as ->. apply known_spec. by rewrite fmap_rev.
  - destruct (known (rev l)) as [bs|] eqn:E'; [|done]. apply known_spec in E'.
    apply (f_equal (rev (A := dns))) in E'. rewrite rev_involutive, <- fmap_rev in E'. apply known_spec in E'. congruence.
Qed.

Lemma try_eval_const_uint64_spec s v :
  acyclic (nodes_of s) -> roots_of v ≠ [] ->
  try_eval_const_uint64 v s = Some (const_uint64 (ev (const_values (ps_m s)) (nodes_of s) <$> roots_of v), s).
Proof.
  intros Hac Hne. unfold try_eval_const_uint64, get_module. unfold mbind at 1, L_bind at 1. cbn [mbind option_bind].
  pose proof (fun roots => uint64_loop_spec (ps_m s) roots 0 0 (fresh_cache (ps_m s)) Hac (fresh_cache_ok _)) as Hl.
  destruct (roots_of v) as [|r l]; [done|]. unfold unchecked. revert Hl. generalize (r :: l). clear. intros l Hl.
  change (Z.of_nat 0) with 0%Z in Hl. rewrite Hl by (simpl; lia). cbn [mbind option_bind]. do 2 f_equal.
  unfold const_uint64, as_Z. rewrite fmap_rev, known_rev.
  destruct (known (ev (const_values (ps_m s)) (nodes_of s) <$> l)) as [bs|]; [|done].
  cbn [fmap option_fmap option_map mbind option_bind]. f_equal. lia.
Qed.
