(* ===== verification/VShiftOk.v ===== *)
(** * Verilog: lowered shifts and conditional expressions

    [shift_left], [shift_right] and [make_conditional] of
    verilog/digital/digital.h: a shift by less than the width moves the bits,
    by constant amounts and through the barrel shifter alike; a conditional
    expression chooses the branch its condition names. *)

From S2P Require Import Prelude Logic4 VModule VEval VExec VLower VBits VLowerOk VArithOk VCompareOk VConstOk.
From Stdlib Require Import ZArith Lia.

(** ** Moving bits *)

Definition shl_val (l : list dns) (k : nat) : list dns := drop k l ++ replicate (Nat.min k (length l)) false_state.

Definition shr_val (l : list dns) (k : nat) : list dns := replicate (Nat.min k (length l)) false_state ++ take (length l - k) l.

(** A way to move the roots of a vector and what it does to their values. *)
Record shifter `{values : Valuation} (roots : index -> list index -> nat -> list index) (val : list dns -> nat -> list dns) : Prop := {
  sh_denotes s z l vl k : denotes s z false_state -> denotes s l vl -> denotes s (roots z l k) (val vl k);
  sh_length l k : length (val l k) = length l;
  sh_zero l : val l 0 = l;
  sh_add l j k : val (val l j) k = val l (j + k);
  sh_fmap (f : dns -> dns) l k : f false_state = false_state -> f <$> val l k = val (f <$> l) k;
}.

Arguments sh_denotes {_ _ _} _.
Arguments sh_length {_ _ _} _.
Arguments sh_zero {_ _ _} _.
Arguments sh_add {_ _ _} _.
Arguments sh_fmap {_ _ _} _.

Lemma shl_shifter `{values : Valuation} : shifter shifted_left shl_val.
Proof.
  split.
  - intros s z l vl k Hz Hl. unfold shifted_left, shl_val. rewrite (denotes_length s l vl Hl).
    apply denotes_app; [by apply Forall2_drop|by apply denotes_replicate].
  - intros l k. unfold shl_val. rewrite length_app, length_drop, length_replicate. lia.
  - intros l. unfold shl_val. by rewrite app_nil_r.
  - intros l j k. unfold shl_val. rewrite length_app, length_drop, length_replicate.
    destruct (decide (k <= length l - j)) as [Hk|Hk].
    + rewrite drop_app_le by (rewrite length_drop; lia). rewrite drop_drop, <- app_assoc, <- replicate_add. do 2 f_equal. lia.
    + rewrite drop_app_ge, (drop_ge l (j + k)) by (rewrite ?length_drop; lia). rewrite drop_replicate, <- replicate_add. simpl.
      f_equal. rewrite length_drop. lia.
  - intros f l k Hf. unfold shl_val. by rewrite fmap_app, fmap_replicate, Hf, fmap_drop, length_fmap.
Qed.

Lemma shr_shifter `{values : Valuation} : shifter shifted_right shr_val.
Proof.
  split.
  - intros s z l vl k Hz Hl. unfold shifted_right, shr_val. rewrite (denotes_length s l vl Hl).
    apply denotes_app; [by apply denotes_replicate|by apply Forall2_take].
  - intros l k. unfold shr_val. rewrite length_app, length_take, length_replicate. lia.
  - intros l. unfold shr_val. rewrite Nat.sub_0_r, take_ge by lia. done.
  - intros l j k. unfold shr_val. rewrite length_app, length_take, length_replicate.
    destruct (decide (j + k <= length l)) as [Hk|Hk].
    + rewrite take_app_ge by (rewrite length_replicate; lia). rewrite length_replicate, take_take, app_assoc, <- replicate_add.
      f_equal; f_equal; lia.
    + replace (length l - (j + k)) with 0 by lia. rewrite take_0, app_nil_r.
      rewrite take_app_le by (rewrite length_replicate; lia). rewrite take_replicate, <- replicate_add. f_equal. lia.
  - intros f l k Hf. unfold shr_val. by rewrite fmap_app, fmap_replicate, Hf, fmap_take, length_fmap.
Qed.

(** Integers: multiplication and division by powers of two. *)
Lemma shl_val_bits w x k : shl_val (bits w x) k = bits w (x * 2 ^ Z.of_nat k).
Proof. unfold shl_val. by rewrite bits_shiftl, length_bits. Qed.

Lemma shr_val_bits w x k : (0 <= x < 2 ^ Z.of_nat w)%Z -> shr_val (bits w x) k = bits w (x / 2 ^ Z.of_nat k).
Proof.
  intros Hx. unfold shr_val. rewrite length_bits. apply list_eq. intros i.
  assert (Hb : forall z i, i < w -> bits w z !! i = Some (dns_of_bool (Z.testbit z (Z.of_nat (w - 1 - i))))).
  { intros z j Hj. unfold bits. rewrite list_lookup_fmap, lookup_rev by (by rewrite length_lbits).
    by rewrite length_lbits, lbits_lookup by lia. }
  destruct (decide (i < w)) as [Hi|Hi].
  - rewrite Hb by done. rewrite Z.div_pow2_bits by lia. destruct (decide (i < k)) as [Hk|Hk].
    + rewrite lookup_app_l, lookup_replicate_2 by (rewrite ?length_replicate; lia).
      replace (Z.testbit x (Z.of_nat (w - 1 - i) + Z.of_nat k)) with false; [done|]. symmetry.
      destruct (decide (x = 0)%Z) as [->|]; [by rewrite Z.testbit_0_l|]. apply Z.bits_above_log2; [lia|].
      pose proof (proj1 (Z.log2_lt_pow2 x (Z.of_nat w) ltac:(lia))). lia.
    + rewrite lookup_app_r by (rewrite length_replicate; lia). rewrite length_replicate, lookup_take_lt by lia.
      rewrite Hb by lia. do 3 f_equal. lia.
  - rewrite !lookup_ge_None_2; [done| |]; rewrite ?length_app, ?length_replicate, ?length_take, ?length_bits; lia.
Qed.

(** ** The barrel shifter *)

Abbreviation norm l := (normalize_z_to_x <$> l).

(** A vector of multiplexers chooses one of two vectors. *)
Lemma mux_zip b l l' :
  length l = length l' ->
  norm ((fun p => mux (dns_of_bool b) p.1 p.2) <$> zip l l') = norm (if b then l else l').
Proof.
  intros Hl. rewrite <- list_fmap_compose. transitivity (norm (if b then (zip l l').*1 else (zip l l').*2)).
  - destruct b; rewrite <- list_fmap_compose; apply list_fmap_ext; intros _ [x y] _; simpl; by destruct x, y.
  - by rewrite fst_zip, snd_zip by lia.
Qed.

Section Shift.

Context `{values : Valuation} {roots val} (S : shifter roots val).

(** The value of [shift_stages]. *)
Fixpoint stages_val (sels : list dns) (k : nat) (cur : list dns) : list dns :=
  match sels with
  | [] => cur
  | sel :: sels => stages_val sels (Datatypes.S k) ((fun p => mux sel p.1 p.2) <$> zip (val cur (2 ^ k)) cur)
  end.

Lemma shift_stages_lowers s z sels k cur vs vcur :
  builder s -> denotes s z false_state -> denotes s sels vs -> denotes s cur vcur ->
  lowers s (shift_stages roots z sels k cur) (stages_val vs k vcur).
Proof.
  revert s k cur vs vcur. induction sels as [|sel sels IH]; intros s k cur vs vcur Hb Hz Hs Hc;
    inversion Hs as [|? v ? vs' Hv Hs']; subst; [by apply leads_ret|].
  change (denotes s sels vs') in Hs'. cbn [shift_stages stages_val].
  lstep (lmap_lowers _ (fun p : dns * dns => mux v p.1 p.2)) as Hcur.
  - apply denotes_zip; [by apply (sh_denotes S)|done].
  - intros s' [r1 r2] [x1 x2] He Hb' [H1 H2]. lift He. by apply make_mux_lowers.
  - by apply IH.
Qed.

Lemma length_stages_val sels k l : length (stages_val sels k l) = length l.
Proof.
  revert k l. induction sels as [|x sels IH]; intros k l; [done|]. cbn [stages_val].
  rewrite IH, length_fmap, length_zip_with, (sh_length S). lia.
Qed.

(** The stages add up to one shift by the amount. *)
Lemma stages_val_known bs k l :
  norm (stages_val (dns_of_bool <$> bs) k l) = norm (val l (2 ^ k * Z.to_nat (uval bs))).
Proof.
  revert k l. induction bs as [|b bs IH]; intros k l.
  { simpl. by rewrite Nat.mul_0_r, (sh_zero S). }
  rewrite fmap_cons. cbn [stages_val uval]. rewrite IH.
  rewrite !(sh_fmap S) by done. rewrite mux_zip by apply (sh_length S). pose proof (uval_bounds bs).
  assert (Hsum : 2 ^ k * Z.to_nat (Z.b2z b + 2 * uval bs) = (if b then 2 ^ k else 0) + 2 ^ Datatypes.S k * Z.to_nat (uval bs)).
  { rewrite Nat.pow_succ_r'. rewrite Z2Nat.inj_add, Z2Nat.inj_mul by (destruct b; simpl; lia). destruct b; simpl; lia. }
  rewrite Hsum, <- (sh_add S). destruct b.
  - by rewrite (sh_fmap S) by done.
  - by rewrite (sh_zero S).
Qed.

Lemma count_bits_spec fuel w n :
  (w <= 2 ^ Z.of_nat (n + fuel))%Z -> (w <= 2 ^ Z.of_nat (count_bits fuel w n))%Z.
Proof.
  revert n. induction fuel as [|fuel IH]; intros n Hw; cbn [count_bits]; [by rewrite Nat.add_0_r in Hw|].
  case_bool_decide as Hn; [|lia]. apply IH. by rewrite Nat.add_succ_comm.
Qed.

(** ** Amounts *)

Lemma denotes_full s (l : list index) (vs vs' : list dns) :
  full s -> length vs = length vs' -> denotes s l vs -> denotes s l vs'.
Proof.
  intros Hf Hlen Hl. apply Forall2_same_length_lookup_2; [by rewrite (denotes_length s l vs Hl)|].
  intros i r v Hr Hv. destruct (Forall2_lookup_l _ _ _ _ _ Hl Hr) as (x & _ & Hx & _). split; [done|]. by intros [].
Qed.

Lemma plain_ext s s' r : ext s s' -> plain (ps_m s) r -> plain (ps_m s') r.
Proof.
  intros He. assert (Hn : forall i n, nodes_of s !! i = Some n -> nodes_of s' !! i = Some n).
  { intros i n Hi. destruct (ext_nodes s s' He) as [more ->]. by apply lookup_app_l_Some. }
  assert (Hc : cm_signal_is_const (ps_m s') = cm_signal_is_const (ps_m s)).
  { by destruct He as [(more & intern & ->) _]. }
  assert (Hf : forall r, fixed (ps_m s) r -> fixed (ps_m s') r).
  { induction 1 as [|i n Hi Hs _ IH]; [constructor|]. apply (fixed_node _ i n); [by apply Hn|by rewrite Hc|done]. }
  induction 1 as [|r Hr|i n Hi Hu Hc' _ IH]; [constructor|by apply plain_fixed, Hf|].
  apply (plain_node _ i n); [by apply Hn|done..].
Qed.

Lemma consts_hold_ext s s' : ext s s' -> consts_hold (ps_m s) values -> consts_hold (ps_m s') values.
Proof. intros [(more & intern & ->) _]. done. Qed.

(** An amount the constants decide is the amount. *)
Lemma const_amount s a va u :
  builder s -> consts_hold (ps_m s) values -> denotes s a va -> Forall (plain (ps_m s)) (roots_of a) -> ~ full s ->
  const_uint64 (ev (const_values (ps_m s)) (nodes_of s) <$> roots_of a) = Some u -> as_Z false (bv_bits va) = Some u.
Proof.
  intros Hb Hc Ha Hp Hf Hu. unfold const_uint64 in Hu.
  destruct (as_Z false (ev (const_values (ps_m s)) (nodes_of s) <$> roots_of a)) as [x|] eqn:Hx; [|done].
  simpl in Hu. unfold below_64 in Hu. destruct (x <? 2 ^ 64)%Z; [|done]. injection Hu as ->.
  apply (plain_as_Z (ps_m s) values (ao_acyclic _ (b_arena s Hb)) Hc false _ u Hp) in Hx. rewrite <- Hx. f_equal.
  apply denotes_roots in Ha. clear -Ha Hf. induction Ha as [|r v l vs [_ Hv] _ IH]; [done|].
  rewrite fmap_cons, IH. f_equal. by rewrite Hv.
Qed.

Lemma try_eval_const_int_leads s a va :
  builder s -> consts_hold (ps_m s) values -> denotes s a va -> Forall (plain (ps_m s)) (roots_of a) -> bv_bits va ≠ [] ->
  leads s (try_eval_const_int a)
    (fun s' o => s' = s /\ forall u, o = Some u -> ~ full s -> as_Z false (bv_bits va) = Some u).
Proof.
  intros Hb Hc Ha Hp Hne. unfold try_eval_const_int.
  assert (Hr : roots_of a ≠ []).
  { intros E. apply denotes_roots, denotes_length in Ha. rewrite E in Ha. by destruct (bv_bits va). }
  pose proof (try_eval_const_uint64_spec s a (ao_acyclic _ (b_arena s Hb)) Hr) as Hu.
  eexists _, s. split; [unfold mbind, L_bind; by rewrite Hu|]. split_and!; [done|done|done|].
  intros u Ho Hf. apply (const_amount s a va u); try done.
  destruct (const_uint64 _) as [x|]; [|done]. case_bool_decide; [done|]. by injection Ho as ->.
Qed.

Lemma count_bits_width w : (w <= max_concat_bits)%nat -> (Z.of_nat w <= 2 ^ Z.of_nat (count_bits 64 (Z.of_nat w) 0))%Z.
Proof.
  intros Hw. apply count_bits_spec. with_strategy transparent [max_concat_bits] unfold max_concat_bits in Hw.
  etrans; [apply (inj_le w); exact Hw|]. rewrite Z2Nat.id by lia. vm_compute. discriminate.
Qed.

(** ** A shift by less than the width *)

(** The last steps of a shift: the mask for an unknown amount, which is known
    here. *)
Lemma shift_finish s u out vout va sg :
  builder s -> denotes s u (dns_of_bool (unknown (bv_bits va))) -> denotes s out vout ->
  is_Some (as_Z false (bv_bits va)) -> 1 <= length vout <= max_concat_bits ->
  lowers s (out ← mask_unknown u out; make_vector out sg) (mk_bitval sg (norm vout)).
Proof.
  intros Hb Hu Ho [y Hy] Hl. assert (Hk : unknown (bv_bits va) = false).
  { rewrite unknown_known. apply negb_false_iff, bool_decide_eq_true_2. unfold as_Z in Hy.
    by destruct (known (bv_bits va)); [eexists|]. }
  rewrite Hk in Hu. lstep mask_unknown_lowers as Hm. unfold masked in Hm.
  apply make_vector_lowers; [done|done| |rewrite length_fmap; lia].
  intros E. apply (f_equal length) in E. rewrite length_fmap in E. simpl in E. lia.
Qed.

Lemma shift_by_lowers s v a vv va y :
  builder s -> consts_hold (ps_m s) values -> denotes s v vv -> denotes s a va ->
  bv_bits vv ≠ [] -> bv_bits va ≠ [] -> length (bv_bits vv) <= max_concat_bits ->
  Forall (plain (ps_m s)) (roots_of a) ->
  as_Z false (bv_bits va) = Some y -> (y < Z.of_nat (length (bv_bits vv)))%Z ->
  exists l, lowers s (shift_by roots v a) (mk_bitval (bv_signed vv) l) /\ norm l = norm (val (bv_bits vv) (Z.to_nat y)).
Proof.
  intros Hb Hc Hv Ha Hnv Hna Hmax Hp Hy Hlt. unfold shift_by. rewrite (denotes_width s v vv) by done.
  set (w := length (bv_bits vv)) in *. assert (1 <= w) by (unfold w; destruct (bv_bits vv); [done|simpl; lia]).
  pose proof (as_Z_unsigned _ _ Hy) as [_ Hy0].
  case_bool_decide as Hw1.
  { exists (bv_bits vv). assert (Hx : length (bv_bits vv) = 1) by (unfold w in *; lia).
    assert (y = 0)%Z as -> by lia. split; [|by rewrite (sh_zero S)].
    unfold resize. rewrite bool_decide_eq_true_2 by lia. apply leads_assoc.
    lstep resize_head_lowers as Hr. apply leads_ret; [done|]. rewrite (denotes_signed _ v vv) by done.
    destruct (bv_bits vv) as [|x []]; [done| |done]. by apply make_scalar_denotes. }
  exists (norm (val (bv_bits vv) (Z.to_nat y))). split.
  2:{ rewrite <- list_fmap_compose. apply list_fmap_ext. by intros _ [] _. }
  lstep any_unknown_root_lowers as Hu.
  assert (Hp' : Forall (plain (ps_m s0)) (roots_of a)) by (eapply Forall_impl; [done|]; intros; by eapply plain_ext).
  eapply leads_bind; [by eapply try_eval_const_int_leads; try done; eapply consts_hold_ext|]. intros s1 o _ Hb1 [-> Ho].
  destruct o as [u|].
  - specialize (Ho u eq_refl). lstep resize_to_vector_lowers as Hcur. unfold w in Hcur. rewrite resize_bits_same in Hcur.
    lstep make_literal_lowers as Hz. rewrite (denotes_signed _ v vv) by done.
    eapply leads_weaken; [apply (shift_finish _ _ _ (val (bv_bits vv) (Z.to_nat u)) va); try done|].
    + by apply (sh_denotes S).
    + rewrite (sh_length S). lia.
    + intros s' r' He' [Hs' Hr']. split; [done|]. destruct (decide (full s')) as [Hf|Hf].
      * eapply denotes_full; [done| |exact Hr']. simpl. by rewrite !length_fmap, !(sh_length S).
      * enough (as_Z false (bv_bits va) = Some u) by congruence.
        apply Ho. intros Hf0. apply Hf. eapply full_ext; [|exact Hf0]. by repeat (etrans; [done|]).
  - assert (Hn := count_bits_width w Hmax). set (nbits := count_bits 64 (Z.of_nat w) 0) in *.
    assert (nbits ≠ 0). { intros E. rewrite E in Hn. simpl in Hn. lia. }
    rewrite bool_decide_eq_false_2 by done.
    lstep resize_to_vector_lowers as Hcur. unfold w in Hcur. rewrite resize_bits_same in Hcur.
    lstep resize_to_vector_lowers as Hsh; [lia|]. rewrite (resize_as_Z nbits false _ y) in Hsh by done.
    lstep make_literal_lowers as Hz. lstep shift_stages_lowers as Hst. { by apply denotes_rev. }
    rewrite (denotes_signed _ v vv) by done.
    eapply leads_weaken; [eapply (shift_finish _ _ _ _ va); try done|].
    + rewrite length_stages_val. lia.
    + intros s' r' He' Hr'. cbv beta in Hr'. unfold bits in Hr'. rewrite fmap_rev, rev_involutive, stages_val_known, uval_lbits in Hr'.
      rewrite Z.mod_small in Hr' by lia. by rewrite Nat.mul_1_l in Hr'.
Qed.

End Shift.

(** ** Conditional expressions *)

Section Conditional.

Context `{values : Valuation}.

Lemma foldl_or_bits b bs : foldl logic_or (dns_of_bool b) (dns_of_bool <$> bs) = dns_of_bool (b || existsb id bs).
Proof.
  revert b. induction bs as [|x bs IH]; intros b; [by rewrite orb_false_r|]. rewrite fmap_cons. cbn [foldl existsb id].
  replace (logic_or _ _) with (dns_of_bool (b || x)) by (by destruct b, x). by rewrite IH, orb_assoc.
Qed.

Lemma existsb_uval bs : existsb id bs = negb (uval bs =? 0)%Z.
Proof.
  induction bs as [|b bs IH]; [done|]. cbn [existsb uval]. rewrite IH. pose proof (uval_bounds bs).
  destruct b; simpl; repeat case Z.eqb_spec; intros; try done; lia.
Qed.

Lemma existsb_rev (bs : list bool) : existsb id (rev bs) = existsb id bs.
Proof.
  induction bs as [|b bs IH]; [done|]. cbn [rev]. rewrite existsb_app, IH. simpl. by destruct b, (existsb id bs).
Qed.

(** A known condition holds if its value is not zero. *)
Lemma to_bool_root_lowers s a va y :
  builder s -> denotes s a va -> bv_bits va ≠ [] -> as_Z false (bv_bits va) = Some y ->
  lowers s (to_bool_root a) (dns_of_bool (negb (y =? 0)%Z)).
Proof.
  intros Hb Ha Hne Hy. apply denotes_roots in Ha. unfold as_Z in Hy.
  destruct (known (bv_bits va)) as [bs|] eqn:Hk; [|done]. injection Hy as <-.
  rewrite <- existsb_uval, existsb_rev. apply known_spec in Hk. rewrite Hk in *. clear Hk.
  destruct bs as [|b bs]; [done|]. rewrite fmap_cons in Ha. unfold to_bool_root, roots_of in *.
  destruct (xv_is_vector a); cbn [negb].
  - inversion Ha as [|r ? l ? Hr Hl]; subst. cbn [existsb id].
    rewrite <- foldl_or_bits. eapply lfold_lowers; try done.
    intros. by apply make_or_lowers.
  - inversion Ha as [|r ? l ? Hr Hl]; subst. destruct bs as [|b' bs]; [|by inversion Hl].
    apply leads_ret; [done|]. simpl. by rewrite orb_false_r.
Qed.

Lemma make_conditional_lowers s c t f vc vt vf y :
  let w := Nat.max (length (bv_bits vt)) (length (bv_bits vf)) in
  let sx := bv_signed vt && bv_signed vf in
  builder s -> denotes s c vc -> denotes s t vt -> denotes s f vf ->
  bv_bits vc ≠ [] -> bv_bits vt ≠ [] -> bv_bits vf ≠ [] -> w <= max_concat_bits ->
  as_Z false (bv_bits vc) = Some y ->
  exists l, lowers s (make_conditional c t f) (mk_bitval sx l)
    /\ norm l = norm (resize_bits_to w sx (bv_bits (if (y =? 0)%Z then vf else vt))).
Proof.
  intros w sx Hb Hc Ht Hf Hnc Hnt Hnf Hw Hy. unfold make_conditional.
  set (b := negb (y =? 0)%Z).
  exists ((fun p => mux (dns_of_bool b) p.1 p.2) <$> zip (resize_bits_to w sx (bv_bits vt)) (resize_bits_to w sx (bv_bits vf))).
  split; [|rewrite mux_zip by (by rewrite !length_resize_bits_to); unfold b; by destruct (y =? 0)%Z].
  lstep to_bool_root_lowers as Hsel.
  rewrite (denotes_width _ t vt), (denotes_width _ f vf), (denotes_signed _ t vt), (denotes_signed _ f vf) by done. fold w sx.
  assert (1 <= w) by (unfold w; destruct (bv_bits vt); [done|simpl; lia]).
  case_bool_decide as Hw1.
  - assert (w = 1) as -> by lia. apply leads_assoc. lstep resize_head_lowers as Htv. apply leads_assoc. lstep resize_head_lowers as Hfv.
    lstep make_mux_lowers as Hm. apply leads_ret; [done|]. rewrite !resize_bits_one by done. by apply make_scalar_denotes.
  - lstep resize_to_vector_lowers as Htv. lstep resize_to_vector_lowers as Hfv.
    lstep (lmap_lowers _ (fun p : dns * dns => mux (dns_of_bool b) p.1 p.2)) as Hm; [by apply denotes_zip| |].
    + intros s' [rt rf] [x1 x2] He' Hb' [H1 H2]. lift He'. by apply make_mux_lowers.
    + pose proof (denotes_length _ _ _ Hm) as Hlen. rewrite length_fmap, length_zip_with, !length_resize_bits_to in Hlen.
      apply make_vector_lowers; [done|done| |].
      * intros E. apply (f_equal length) in E. rewrite length_fmap, length_zip_with, !length_resize_bits_to in E. simpl in E. lia.
      * rewrite length_fmap, length_zip_with, !length_resize_bits_to. lia.
Qed.

End Conditional.
