(* ===== verification/VExpr.v ===== *)
(** * Verilog: theorems on lowered expressions

    The promises of the expression builder of verilog/digital/digital.h, stated
    for arbitrary operands in an arbitrary state of the builder: the results of
    [VLowerOk], [VArithOk], [VCompareOk], [VConstOk] and [VShiftOk] put
    together, with small modules on which they are evaluated, and three inputs
    on which the builder does not compute what the source says. *)

From S2P Require Import Prelude Logic4 VModule VEval VExec VLower VBits VLowerOk VArithOk VCompareOk VConstOk VShiftOk.
From Stdlib Require Import ZArith Lia.

(** ** The operations *)

(** The arithmetic operations with the width of their result and the operation
    on integers. *)
Definition arithmetic : list ((expr_value -> expr_value -> L expr_value) * (nat -> nat -> nat) * (Z -> Z -> Z)) :=
  [(arith_add, Nat.max, Z.add); (arith_sub, Nat.max, Z.sub); (arith_mul, Nat.add, Z.mul)].


Lemma arithmetic_lowers `{values : Valuation} s op wf f a b va vb :
  (op, wf, f) ∈ arithmetic -> builder s -> denotes s a va -> denotes s b vb -> bv_bits va ≠ [] -> bv_bits vb ≠ [] ->
  let w := wf (length (bv_bits va)) (length (bv_bits vb)) in
  w <= max_concat_bits -> lowers s (op a b) (ref_arith f w va vb).
Proof.
  intros Hop Hb Ha Hb' Hna Hnb w Hw. unfold arithmetic in Hop. rewrite !elem_of_cons in Hop.
  destruct Hop as [[= -> -> ->]|[[= -> -> ->]|[[= -> -> ->]|Hop%elem_of_nil]]]; [..|done].
  - by apply (arith_add_sub_lowers s false).
  - by apply (arith_add_sub_lowers s true).
  - by apply arith_mul_lowers.
Qed.

(** ** Example *)

(** A module with [n] signals and a node for each. *)
Definition signals_module (n : nat) (is_const : list bool) (const_value : list dns) : compiled_module :=
  mk_module "m" [] [] ∅ ∅ (replicate n ""%string) (replicate n false) (replicate n false) is_const
    (replicate n false) const_value ∅ [] ∅ ∅ ((fun i => signal_node (Some i)) <$> seq 0 n) ∅ [] [] [] [] [] ∅ ∅ 0.

Definition signals_state (n : nat) : pstate :=
  mk_pstate (signals_module n (replicate n false) (replicate n indeterminate_state)) [].

(** A vector of the signals from [i] on, msb first. *)
Definition signals_vector (i w : nat) : expr_value :=
  mk_value true false SIZE_MAX (Some <$> seq i w) (Z.of_nat w - 1) 0.

Lemma signals_arena n is_const const_value : arena_ok (signals_module n is_const const_value).
Proof.
  split; [|done]. intros i x j Hx. simpl in Hx. rewrite list_lookup_fmap in Hx.
  apply fmap_Some in Hx as (k & _ & ->). by intros ?%elem_of_nil.
Qed.

Lemma signals_builder `{values : Valuation} n : builder (signals_state n).
Proof.
  split; [apply signals_arena|]. intros [i|] v; unfold foldable_const; simpl; [|done].
  destruct (replicate n false !! i) as [x|] eqn:Hi; [|done]. by apply lookup_replicate in Hi as [-> _].
Qed.

Ltac solve_denotes :=
  split; [reflexivity|]; repeat (apply denotes_cons; [split; [simpl; lia|intros _; reflexivity]|]); apply denotes_nil.

(** ** Theorems *)

(** C22. A node added to the expression arena means what it says.  Whether [add_node] folds it to a constant,
    finds it in the table of known nodes or appends it, the root it returns reads, under any valuation that
    gives the folded constants their values, as the operator of the node applied to the values of its
    operands; the arena stays acyclic and shared nodes equal, existing nodes keep their index, and an error is
    reported only when the arena has reached its limit. *)
Theorem add_node_meaning (values : Valuation) (s : pstate) (n : expr_node) :
  builder s -> Forall (root_ok s) (operands n) ->
  exists r s', add_node n s = Some (r, s')
    /\ ext s s' /\ builder s' /\ root_ok s' r
    /\ (~ full s' -> ev values (nodes_of s') r = node_value values n (arena_values values (nodes_of s))).
Proof.
  intros Hb Hop. destruct (add_node_leads s n Hb Hop) as (r & s' & Hc & He & Hb' & Hr & Hv). exists r, s'. by split_and!.
Qed.

(** [a & a], on the arena of one signal that is 1. *)
Lemma add_node_meaning_witness :
  let values : Valuation := [true_state] in
  exists r s', add_node (op2_node ek_binary_and (Some 0) (Some 0)) (signals_state 1) = Some (r, s')
    /\ (~ full s' -> ev values (nodes_of s') r = true_state).
Proof.
  intros values. destruct (add_node_meaning values (signals_state 1) (op2_node ek_binary_and (Some 0) (Some 0)))
    as (r & s' & Hc & _ & _ & _ & Hv).
  - apply signals_builder.
  - repeat constructor.
  - exists r, s'. by split.
Defined.

(** C7. Lowered arithmetic refines integer arithmetic.  For [arith_add], [arith_sub] and [arith_mul], the
    one-bit nodes the builder adds (ripple-carry adders, shifted partial products, the sixteen 2 by 2 tiles of
    an 8 by 8 product) denote, under every valuation, the sum, difference or product of the integers the
    operands stand for, two's complement if both are signed and unsigned otherwise, modulo the width of the
    result; if an operand has an unknown bit, every bit of the result is unknown.  Limits of the code: results
    are at most 4096 bits wide, and the values hold unless the arena has reached its node limit. *)
Theorem arithmetic_refines_integers (values : Valuation) (s : pstate) op wf f (a b : expr_value) (va vb : bitval) :
  (op, wf, f) ∈ arithmetic -> builder s -> denotes s a va -> denotes s b vb -> bv_bits va ≠ [] -> bv_bits vb ≠ [] ->
  let w := wf (length (bv_bits va)) (length (bv_bits vb)) in
  let sx := bv_signed va && bv_signed vb in
  w <= max_concat_bits ->
  exists r s', op a b s = Some (r, s') /\ ext s s' /\ builder s'
    /\ denotes s' r (mk_bitval sx (match as_Z sx (bv_bits va), as_Z sx (bv_bits vb) with
                                   | Some x, Some y => bits w (f x y)
                                   | _, _ => replicate w indeterminate_state
                                   end)).
Proof. intros. by apply (arithmetic_lowers s op wf f a b va vb). Qed.

(** 6 times 3 on four-bit vectors. *)
Lemma arithmetic_refines_integers_witness :
  let values : Valuation := bits 4 6 ++ bits 4 3 in
  exists r s', arith_mul (signals_vector 0 4) (signals_vector 4 4) (signals_state 8) = Some (r, s')
    /\ denotes s' r (mk_bitval false (bits 8 18)).
Proof.
  intros values.
  destruct (arithmetic_refines_integers values (signals_state 8) arith_mul Nat.add Z.mul (signals_vector 0 4) (signals_vector 4 4)
    (mk_bitval false (bits 4 6)) (mk_bitval false (bits 4 3))) as (r & s' & Hc & _ & _ & Hd).
  - unfold arithmetic. set_solver.
  - apply signals_builder.
  - solve_denotes.
  - solve_denotes.
  - done.
  - done.
  - cbn. pose proof max_concat_bits_16. lia.
  - exists r, s'. by split.
Defined.

(** C21. Lowered comparisons decide the order of integers.  The node built by [compare_lt], [compare_le],
    [compare_gt], [compare_ge] or [compare_eq] is, for operands without unknown bits, the comparison of their
    integers at the common width and signedness; for operands with unknown bits it is unknown or the answer
    that holds for the completion at hand, whichever way the unknown bits are decided. *)
Theorem comparisons_decide_order (values : Valuation) (s : pstate) op f (a b : expr_value) (va vb : bitval) :
  (op, f) ∈ comparisons -> builder s -> denotes s a va -> denotes s b vb -> bv_bits va ≠ [] -> bv_bits vb ≠ [] ->
  exists r s' v, op a b s = Some (r, s') /\ ext s s' /\ builder s' /\ denotes s' r v
    /\ (forall x y, as_Z (bv_signed va && bv_signed vb) (bv_bits va) = Some x ->
          as_Z (bv_signed va && bv_signed vb) (bv_bits vb) = Some y -> v = dns_of_bool (f x y))
    /\ (forall ca cb x y, completes va ca -> completes vb cb ->
          as_Z (bv_signed ca && bv_signed cb) (bv_bits ca) = Some x ->
          as_Z (bv_signed ca && bv_signed cb) (bv_bits cb) = Some y -> is_unknown v = true \/ v = dns_of_bool (f x y)).
Proof.
  intros Hop Hb Ha Hb' Hna Hnb. destruct (comparison_lowers s op f a b va vb) as (g & [Hbelow Hknown] & Hl); [done..|].
  destruct Hl as (r & s' & Hc & He & Hb1 & Hd). exists r, s', (g va vb). split_and!; [done..| |].
  - intros x y Hx Hy. by apply Hknown.
  - intros ca cb x y Hca Hcb Hx Hy. rewrite <- (Hknown ca cb x y); [by apply Hbelow| | |done|done].
    + intros E. destruct Hca as [_ Hca]. rewrite E in Hca. by inversion Hca as [E'|]; destruct (bv_bits va).
    + intros E. destruct Hcb as [_ Hcb]. rewrite E in Hcb. by inversion Hcb as [E'|]; destruct (bv_bits vb).
Qed.

(** [4'b0x10 < 4'b1000] is [1] however the unknown bit is decided. *)
Lemma comparisons_decide_order_witness :
  let va := [false_state; indeterminate_state; true_state; false_state] in
  let values : Valuation := va ++ bits 4 8 in
  exists r s' v, compare_lt (signals_vector 0 4) (signals_vector 4 4) (signals_state 8) = Some (r, s')
    /\ denotes s' r v /\ (is_unknown v = true \/ v = true_state).
Proof.
  intros va values.
  destruct (comparisons_decide_order values (signals_state 8) compare_lt Z.ltb (signals_vector 0 4) (signals_vector 4 4)
    (mk_bitval false va) (mk_bitval false (bits 4 8))) as (r & s' & v & Hc & _ & _ & Hd & _ & Hx).
  - unfold comparisons. set_solver.
  - apply signals_builder.
  - solve_denotes.
  - solve_denotes.
  - done.
  - done.
  - exists r, s', v. split_and!; [done|done|].
    apply (Hx (mk_bitval false (bits 4 6)) (mk_bitval false (bits 4 8)) 6%Z 8%Z).
    + split; [done|]. repeat constructor; by (left + right).
    + split; [done|]. repeat constructor; by (left + right).
    + done.
    + done.
Defined.





(** A lowered conditional expression chooses its branch.  With a condition without unknown bits,
    [make_conditional] gives the bits of the first branch if the condition is not zero and of the second if it
    is, extended to the wider of the two branches (an undriven bit reads [X]). *)
Lemma conditional_chooses_branch (values : Valuation) (s : pstate) (c t f : expr_value) (vc vt vf : bitval) (y : Z) :
  let w := Nat.max (length (bv_bits vt)) (length (bv_bits vf)) in
  let sx := bv_signed vt && bv_signed vf in
  builder s -> denotes s c vc -> denotes s t vt -> denotes s f vf ->
  bv_bits vc ≠ [] -> bv_bits vt ≠ [] -> bv_bits vf ≠ [] -> w <= max_concat_bits -> as_Z false (bv_bits vc) = Some y ->
  exists r s' l, make_conditional c t f s = Some (r, s') /\ ext s s' /\ builder s' /\ denotes s' r (mk_bitval sx l)
    /\ norm l = norm (resize_bits_to w sx (bv_bits (if (y =? 0)%Z then vf else vt))).
Proof.
  intros w sx Hb Hc Ht Hf Hnc Hnt Hnf Hw Hy.
  destruct (make_conditional_lowers s c t f vc vt vf y) as (l & (r & s' & Hc' & He & Hb' & Hd) & Hl); [done..|].
  by exists r, s', l.
Qed.

(** [2'd2 ? 4'd6 : 3'd1]. *)
Lemma conditional_chooses_branch_witness :
  let values : Valuation := bits 2 2 ++ bits 4 6 ++ bits 3 1 in
  exists r s' l,
    make_conditional (signals_vector 0 2) (signals_vector 2 4) (signals_vector 6 3) (signals_state 9) = Some (r, s')
    /\ denotes s' r (mk_bitval false l) /\ norm l = bits 4 6.
Proof.
  intros values.
  destruct (conditional_chooses_branch values (signals_state 9) (signals_vector 0 2) (signals_vector 2 4) (signals_vector 6 3)
    (mk_bitval false (bits 2 2)) (mk_bitval false (bits 4 6)) (mk_bitval false (bits 3 1)) 2)
    as (r & s' & l & Hc & _ & _ & Hd & Hl).
  - apply signals_builder.
  - solve_denotes.
  - solve_denotes.
  - solve_denotes.
  - done.
  - done.
  - done.
  - cbn. pose proof max_concat_bits_16. lia.
  - done.
  - exists r, s', l. by split_and!.
Defined.

(** C25. Constant evaluation returns, and what it returns is the value in the running module.
    [try_eval_const_uint64] leaves the builder unchanged and yields an integer exactly if the constants decide
    every bit and it is below 2^64; if the expression compares no variable with [===] and tests none for
    unknown bits, the expression has this value under every valuation that gives the constants theirs. *)
Theorem const_evaluation_agrees (values : Valuation) (s : pstate) (v : expr_value) :
  arena_ok (ps_m s) -> roots_of v ≠ [] ->
  try_eval_const_uint64 v s = Some (const_uint64 (ev (const_values (ps_m s)) (nodes_of s) <$> roots_of v), s)
  /\ (consts_hold (ps_m s) values -> Forall (plain (ps_m s)) (roots_of v) ->
      forall u, const_uint64 (ev (const_values (ps_m s)) (nodes_of s) <$> roots_of v) = Some u ->
        as_Z false (ev values (nodes_of s) <$> roots_of v) = Some u /\ (u < 2 ^ 64)%Z).
Proof.
  intros [Hac _] Hne. split; [by apply try_eval_const_uint64_spec|]. intros Hc Hp u Hu. unfold const_uint64 in Hu.
  destruct (as_Z false (ev (const_values (ps_m s)) (nodes_of s) <$> roots_of v)) as [x|] eqn:Hx; [|done].
  simpl in Hu. unfold below_64 in Hu. destruct (Z.ltb_spec x (2 ^ 64)); [|done]. injection Hu as ->.
  split; [|done]. by apply (plain_as_Z (ps_m s)).
Qed.

(** Two constants, [2'b10]. *)
Definition constant_state : pstate :=
  mk_pstate (signals_module 2 [true; true] [true_state; false_state]) [].

Lemma const_evaluation_agrees_witness :
  let values : Valuation := [true_state; false_state] in
  try_eval_const_uint64 (signals_vector 0 2) constant_state = Some (Some 2%Z, constant_state)
  /\ as_Z false (ev values (nodes_of constant_state) <$> roots_of (signals_vector 0 2)) = Some 2%Z.
Proof.
  intros values. destruct (const_evaluation_agrees values constant_state (signals_vector 0 2)) as [He Hv].
  - apply signals_arena.
  - done.
  - rewrite He. split; [reflexivity|]. apply Hv.
    + by intros [[|[|]]|].
    + assert (Hf : forall k, k < 2 -> plain (ps_m constant_state) (Some k)); [|by repeat (constructor; [apply Hf; lia|])].
      intros k Hk. apply plain_fixed. apply (fixed_node _ k (signal_node (Some k))); [|intros _|by intros ? ?%elem_of_nil];
        destruct k as [|[|]]; first [reflexivity|lia].
    + reflexivity.
Defined.

(** ** Deviations *)

(** The value of the result of a step, if it returns. *)
Definition result_bits (values : list dns) (c : L expr_value) (s : pstate) : option (list dns) :=
  '(r, s') ← c s; Some (ev values (nodes_of s') <$> roots_of r).

(** A shift by a variable amount wraps around the width.  The barrel shifter reads only as many bits of
    the amount as it takes to number the bits of the operand: an 8-bit vector holding 1, shifted left by a
    4-bit variable holding 8, stays 1, while the same shift by the literal 8 gives 0; and a one-bit value
    shifted by 1 keeps its bit. *)
Lemma dynamic_shift_wraps :
  let values := bits 8 1 ++ bits 4 8 in
  result_bits values (shift_left (signals_vector 0 8) (signals_vector 8 4)) (signals_state 12) = Some (bits 8 1)
  /\ result_bits values (lit ← make_uint_literal 8 4; shift_left (signals_vector 0 8) lit) (signals_state 12)
     = Some (bits 8 0)
  /\ result_bits values (lit ← make_uint_literal 1 1; shift_left (make_scalar (Some 7) 0 0 false) lit) (signals_state 12)
     = Some (bits 1 1).
Proof. vm_compute. done. Qed.

(** [a === b] on two signals. *)
Definition case_equality : L expr_value :=
  r ← compare_case_eq (make_scalar (Some 8) 0 0 false) (make_scalar (Some 9) 0 0 false);
  mret (make_scalar r 0 0 false).

(** [===] between variables is taken for a constant.  Constant evaluation reads every variable as [X], and
    [X === X] is 1: an 8-bit vector holding 1, shifted left by [a === b] with [a] and [b] different, becomes
    2, although [a === b] itself is 0. *)
Lemma case_equality_folded :
  let values := bits 8 1 ++ [false_state; true_state] in
  result_bits values case_equality (signals_state 10) = Some [false_state]
  /\ result_bits values (eq ← case_equality; shift_left (signals_vector 0 8) eq) (signals_state 10) = Some (bits 8 2).
Proof. vm_compute. done. Qed.

(** Eight signals and a two-bit [parameter] whose default is 1. *)
Definition parameter_state : pstate :=
  mk_pstate (signals_module 10 (replicate 8 false ++ [true; true]) (replicate 8 indeterminate_state ++ bits 2 1)) [].

(** The default of a [parameter] is folded into shifts.  The nodes of a [parameter] are kept because an
    instance may override it, but constant evaluation uses its default: with the parameter overridden by 3,
    [1 << P] on eight bits gives 2. *)
Lemma parameter_default_folded :
  let values := bits 8 1 ++ bits 2 3 in
  result_bits values (mret (signals_vector 8 2)) parameter_state = Some (bits 2 3)
  /\ result_bits values (shift_left (signals_vector 0 8) (signals_vector 8 2)) parameter_state = Some (bits 8 2).
Proof. vm_compute. done. Qed.
