(* ===== verification/VLiteral.v ===== *)
(** * Verilog: number literals

    The readers of numbers of verilog/digital/digital.h: [parse_dec_uint64],
    [parse_dec_int64], [parse_dec_int] and [parse_literal_bits], which turns the
    text of a number token into bits, msb first, and a sign.  Texts are lists of
    characters; a failing reader returns [None]. *)

From S2P Require Import Prelude Logic4 VBits.
From Stdlib Require Import ZArith Lia Ascii.

#[local] Open Scope Z_scope.

Abbreviation text := (list ascii).

#[global] Instance ascii_eq_dec : EqDecision ascii := Ascii.ascii_dec.

(** ** Characters *)

Definition code (c : ascii) : Z := Z.of_nat (nat_of_ascii c).

(** [c - u8'0'] for a decimal digit. *)
Definition digit_of (c : ascii) : option Z :=
  if bool_decide (48 <= code c <= 57) then Some (code c - 48) else None.

Definition hex_digit_value (c : ascii) : option Z :=
  if bool_decide (48 <= code c <= 57) then Some (code c - 48)
  else if bool_decide (97 <= code c <= 102) then Some (10 + (code c - 97))
  else if bool_decide (65 <= code c <= 70) then Some (10 + (code c - 65))
  else None.

Definition oct_digit_value (c : ascii) : option Z :=
  if bool_decide (48 <= code c <= 55) then Some (code c - 48) else None.

Definition is_one_of (c : ascii) (l : list ascii) : bool := bool_decide (c ∈ l).

(** ** Decimal numbers *)

(** The loop of [parse_dec_uint64] and [parse_dec_int64]. *)
Fixpoint dec_loop (v : Z) (t : text) : option Z :=
  match t with
  | [] => Some v
  | c :: t =>
      if bool_decide (c = "_"%char) then dec_loop v t
      else
        digit ← digit_of c;
        if bool_decide ((2 ^ 64 - 1 - digit) / 10 < v) then None else dec_loop (v * 10 + digit) t
  end.

Definition parse_dec_uint64 (t : text) : option Z :=
  match t with [] => None | _ => dec_loop 0 t end.

Definition parse_dec_int64 (t : text) : option Z :=
  match t with
  | [] => None
  | c :: rest =>
      let neg := bool_decide (c = "-"%char) in
      if neg && bool_decide (rest = []) then None
      else
        v ← dec_loop 0 (if neg then rest else t);
        (* -2^63 is the wrapped negation of the smallest value *)
        if neg then if bool_decide (2 ^ 63 < v) then None else Some (- v)
        else if bool_decide (2 ^ 63 - 1 < v) then None else Some v
  end.

(** The loop of [parse_dec_int], in [std::int64_t]. *)
Fixpoint dec_int_loop (value : Z) (t : text) : option Z :=
  match t with
  | [] => Some value
  | c :: t =>
      if bool_decide (c = "_"%char) then dec_int_loop value t
      else
        digit ← digit_of c;
        let value := value * 10 + digit in
        if bool_decide (2 ^ 31 - 1 < value) then None else dec_int_loop value t
  end.

Definition parse_dec_int (t : text) : option Z :=
  match t with
  | [] => None
  | c :: rest =>
      let neg := bool_decide (c = "-"%char) in
      v ← dec_int_loop 0 (if neg then rest else t);
      Some (if neg then - v else v)
  end.

(** ** Sized literals *)

(** [write_bit]: the position moves towards the msb; [None] is SIZE_MAX. *)
Definition write_bit (st : list dns * option nat) (v : dns) : list dns * option nat :=
  let '(bits_out, pos) := st in
  match pos with
  | None => st
  | Some p => (<[p := v]> bits_out, match p with O => None | S p => Some p end)
  end.

(** The bits of one digit of [k] bits, lsb first. *)
Definition unknown_digit (c : ascii) : option dns :=
  if is_one_of c ["x"; "X"]%char then Some indeterminate_state
  else if is_one_of c ["z"; "Z"]%char then Some high_impedence_state
  else None.

Definition digit_bits (k : nat) (value : ascii -> option Z) (c : ascii) : option (list dns) :=
  match unknown_digit c with
  | Some v => Some (replicate k v)
  | None => v ← value c; Some (dns_of_bool <$> lbits k v)
  end.

Definition bin_digit_value (c : ascii) : option Z :=
  if bool_decide (c = "0"%char) then Some 0 else if bool_decide (c = "1"%char) then Some 1 else None.

(** The loops over the digits, from the last to the first. *)
Fixpoint write_digits (k : nat) (value : ascii -> option Z) (st : list dns * option nat) (digits : text)
  : option (list dns) :=
  match digits with
  | [] => Some st.1
  | c :: digits =>
      if bool_decide (c = "_"%char) then write_digits k value st digits
      else l ← digit_bits k value c; write_digits k value (foldl write_bit st l) digits
  end.

(** [bits_out[pos_from_msb]] from the bits of a 64-bit value, [high] above. *)
Definition value_bits (width : nat) (value : Z) (high : bool) : list dns :=
  (fun pos_from_msb => let k := Z.of_nat (width - 1 - pos_from_msb)%nat in
     dns_of_bool (if bool_decide (k < 64) then Z.testbit value k else high)) <$> seq 0 width.

Definition parse_digits (width : nat) (signed_lit : bool) (base : ascii) (digits : text) : option (list dns) :=
  let st := (replicate width false_state, Some (width - 1)%nat) in
  if is_one_of base ["b"; "B"]%char then write_digits 1 bin_digit_value st (rev digits)
  else if is_one_of base ["h"; "H"]%char then write_digits 4 hex_digit_value st (rev digits)
  else if is_one_of base ["o"; "O"]%char then write_digits 3 oct_digit_value st (rev digits)
  else if is_one_of base ["d"; "D"]%char then
    if bool_decide (head digits = Some "-"%char) then
      if negb signed_lit then None
      else iv ← parse_dec_int64 digits; Some (value_bits width (iv mod 2 ^ 64) (bool_decide (iv < 0)))
    else value ← parse_dec_uint64 digits; Some (value_bits width value false)
  else None.

(** The part after the apostrophe: sign, base and digits. *)
Definition parse_based (width : nat) (t : text) : option (list dns * bool) :=
  match t with
  | [] => None
  | c :: rest =>
      let signed_lit := is_one_of c ["s"; "S"]%char in
      '(base, digits) ← (if signed_lit then match rest with [] => None | b :: d => Some (b, d) end else Some (c, rest));
      bits_out ← parse_digits width signed_lit base digits;
      Some (bits_out, signed_lit)
  end.

Definition fill_value (v : ascii) : option dns :=
  if bool_decide (v = "0"%char) then Some false_state
  else if bool_decide (v = "1"%char) then Some true_state
  else if is_one_of v ["x"; "X"]%char then Some indeterminate_state
  else if is_one_of v ["z"; "Z"]%char then Some high_impedence_state
  else None.

(** One-bit literals; anything else is unknown. *)
Definition parse_1bit_literal (t : text) : dns :=
  match t with
  | ["0"%char] => false_state
  | ["1"%char] => true_state
  | ["'"%char; v] => default indeterminate_state (fill_value v)
  | _ :: "'"%char :: b :: _ :: _ =>
      if is_one_of b ["b"; "B"]%char then default indeterminate_state (last t ≫= fill_value) else indeterminate_state
  | _ => indeterminate_state
  end.

(** The position of the first apostrophe splits the text. *)
Fixpoint split_apos (t : text) : option (text * text) :=
  match t with
  | [] => None
  | c :: t => if bool_decide (c = "'"%char) then Some ([], t) else '(a, b) ← split_apos t; Some (c :: a, b)
  end.

Definition parse_literal_bits (t : text) : option (list dns * bool) :=
  match t with
  | ["'"%char; v] => fill ← fill_value v; Some ([fill], true)
  | _ =>
      match split_apos t with
      | Some ([], rest) => parse_based 32 rest
      | Some (w, rest) =>
          width ← parse_dec_uint64 w;
          if bool_decide (width = 0) || bool_decide (2 ^ 31 - 1 < width) then None
          else parse_based (Z.to_nat width) rest
      | None => value ← parse_dec_uint64 t; Some (value_bits 32 value false, true)
      end
  end.

(** ** Printing *)

(** [std::to_chars] of an unsigned number. *)
Fixpoint dec_digits (fuel : nat) (n : Z) (acc : text) : text :=
  match fuel with
  | O => acc
  | S fuel =>
      let acc := ascii_of_nat (Z.to_nat (48 + n mod 10)) :: acc in
      if n <? 10 then acc else dec_digits fuel (n / 10) acc
  end.

Definition decimal (n : Z) : text := dec_digits 20 n [].

(** [append_decimal] *)
Definition append_decimal (s : text) (v : Z) : text :=
  s ++ (if v <? 0 then "-"%char :: decimal (- v) else decimal v).

(** One character per bit, msb first. *)
Definition bit_char (d : dns) : ascii :=
  match d with
  | false_state => "0"
  | true_state => "1"
  | indeterminate_state => "x"
  | high_impedence_state => "z"
  end%char.

(** Hexadecimal digits, msb first. *)
Definition hex_char (v : Z) : ascii := ascii_of_nat (Z.to_nat (if v <? 10 then 48 + v else 87 + v)).

Fixpoint hex_digits (n : nat) (v : Z) : text :=
  match n with O => [] | S n => hex_digits n (v / 16) ++ [hex_char (v mod 16)] end.

(** ** Decimal numbers are read exactly *)

(** The number a text stands for. *)
Fixpoint dec_value (v : Z) (t : text) : option Z :=
  match t with
  | [] => Some v
  | c :: t => if bool_decide (c = "_"%char) then dec_value v t else digit ← digit_of c; dec_value (v * 10 + digit) t
  end.

Definition below_uint64 (x : Z) : option Z := if x <? 2 ^ 64 then Some x else None.

Lemma digit_of_bounds c d : digit_of c = Some d -> 0 <= d <= 9.
Proof. unfold digit_of. case_bool_decide; [|done]. intros [= <-]. lia. Qed.

Lemma dec_value_mono t v x : 0 <= v -> dec_value v t = Some x -> v <= x.
Proof.
  revert v. induction t as [|c t IH]; intros v Hv; cbn [dec_value]; [intros [= <-]; lia|].
  case_bool_decide; [by apply IH|]. destruct (digit_of c) as [d|] eqn:Hd; [|done]. simpl.
  apply digit_of_bounds in Hd. intros Hx. apply IH in Hx; lia.
Qed.

Lemma dec_loop_exact t v : 0 <= v < 2 ^ 64 -> dec_loop v t = dec_value v t ≫= below_uint64.
Proof.
  revert v. induction t as [|c t IH]; intros v Hv; cbn [dec_loop dec_value].
  { simpl. unfold below_uint64. destruct (Z.ltb_spec v (2 ^ 64)); [done|lia]. }
  case_bool_decide; [by apply IH|]. destruct (digit_of c) as [d|] eqn:Hd; [|done]. simpl.
  apply digit_of_bounds in Hd.
  assert (Hdiv : (2 ^ 64 - 1 - d) / 10 < v <-> 2 ^ 64 <= v * 10 + d).
  { pose proof (Z.mul_div_le (2 ^ 64 - 1 - d) 10). pose proof (Z.mul_succ_div_gt (2 ^ 64 - 1 - d) 10). lia. }
  case_bool_decide as Hov.
  - destruct (dec_value (v * 10 + d) t) as [x|] eqn:Hx; [|done]. apply dec_value_mono in Hx; [|lia].
    simpl. unfold below_uint64. destruct (Z.ltb_spec x (2 ^ 64)); [lia|done].
  - apply IH. lia.
Qed.

Lemma parse_dec_uint64_exact t : t ≠ [] -> parse_dec_uint64 t = dec_value 0 t ≫= below_uint64.
Proof. intros Ht. destruct t as [|c t]; [done|]. by apply dec_loop_exact. Qed.

(** ** Printed numbers are read back *)

Lemma digit_char_code d : 0 <= d <= 9 -> digit_of (ascii_of_nat (Z.to_nat (48 + d))) = Some d.
Proof.
  intros Hd. assert (Hc : code (ascii_of_nat (Z.to_nat (48 + d))) = 48 + d).
  { unfold code. rewrite nat_ascii_embedding by lia. lia. }
  unfold digit_of. rewrite Hc, bool_decide_eq_true_2 by lia. f_equal. lia.
Qed.

Lemma digit_char_not d c : 0 <= d <= 9 -> digit_of c = None -> ascii_of_nat (Z.to_nat (48 + d)) ≠ c.
Proof. intros Hd Hc E. pose proof (digit_char_code d Hd) as Hd'. rewrite E in Hd'. congruence. Qed.

Lemma dec_digits_value f n acc :
  0 <= n < 10 ^ Z.of_nat (S f) -> dec_value 0 (dec_digits (S f) n acc) = dec_value n acc.
Proof.
  revert n acc. induction f as [|f IH]; intros n acc Hn.
  - cbn [dec_digits]. change (10 ^ Z.of_nat 1) with 10 in Hn.
    assert (Hd : dec_value 0 (ascii_of_nat (Z.to_nat (48 + n mod 10)) :: acc) = dec_value n acc).
    { cbn [dec_value]. rewrite Z.mod_small by lia. rewrite bool_decide_eq_false_2 by (apply digit_char_not; [lia|done]).
      rewrite digit_char_code by lia. done. }
    by destruct (n <? 10).
  - remember (S f) as g. cbn [dec_digits]. subst g. pose proof (Z.mod_pos_bound n 10).
    assert (Hchar : forall v, dec_value v (ascii_of_nat (Z.to_nat (48 + n mod 10)) :: acc) = dec_value (v * 10 + n mod 10) acc).
    { intros v. cbn [dec_value]. rewrite bool_decide_eq_false_2 by (apply digit_char_not; [lia|done]).
      by rewrite digit_char_code by lia. }
    destruct (Z.ltb_spec n 10) as [Hlt|Hge].
    + rewrite Hchar, Z.mod_small by lia. done.
    + rewrite IH, Hchar.
      * f_equal. pose proof (Z.div_mod n 10). lia.
      * rewrite (Nat2Z.inj_succ (S f)), Z.pow_succ_r in Hn by lia. split; [apply Z.div_pos; lia|].
        apply Z.div_lt_upper_bound; lia.
Qed.

Lemma decimal_value n acc : 0 <= n < 2 ^ 64 -> dec_value 0 (dec_digits 20 n acc) = dec_value n acc.
Proof. intros Hn. apply dec_digits_value. change (10 ^ Z.of_nat 20) with 100000000000000000000. lia. Qed.

Lemma dec_digits_chars f n acc :
  Forall (fun c => is_Some (digit_of c)) acc -> Forall (fun c => is_Some (digit_of c)) (dec_digits f n acc).
Proof.
  revert n acc. induction f as [|f IH]; intros n acc Hacc; [done|]. cbn [dec_digits].
  assert (Hc : Forall (fun c => is_Some (digit_of c)) (ascii_of_nat (Z.to_nat (48 + n mod 10)) :: acc)).
  { constructor; [|done]. rewrite digit_char_code; [by eexists|]. pose proof (Z.mod_pos_bound n 10). lia. }
  destruct (n <? 10); [done|by apply IH].
Qed.

Lemma dec_digits_cons f n acc : exists c l, dec_digits (S f) n acc = c :: l.
Proof.
  revert n acc. induction f as [|f IH]; intros n acc; cbn [dec_digits].
  - destruct (n <? 10); by do 2 eexists.
  - destruct (n <? 10); [by do 2 eexists|]. apply IH.
Qed.

Lemma parse_decimal n : 0 <= n < 2 ^ 64 -> parse_dec_uint64 (decimal n) = Some n.
Proof.
  intros Hn. rewrite parse_dec_uint64_exact.
  - unfold decimal. rewrite decimal_value by done. simpl. unfold below_uint64. by destruct (Z.ltb_spec n (2 ^ 64)); [|lia].
  - unfold decimal. by destruct (dec_digits_cons 19 n []) as (c & l & ->).
Qed.

(** ** Writing digits *)

(** The position above the [n] lowest bits still to be written. *)
Definition top (n : nat) : option nat := match n with O => None | S n => Some n end.

Lemma write_bits_spec l pre suf :
  foldl write_bit (pre ++ suf, top (length pre)) l
  = (take (length pre - length l) pre ++ rev (take (length pre) l) ++ suf, top (length pre - length l)).
Proof.
  revert pre suf. induction l as [|v l IH]; intros pre suf.
  - cbn [foldl length]. rewrite take_nil, Nat.sub_0_r, take_ge by lia. done.
  - cbn [foldl length]. destruct pre as [|x pre _] using rev_ind.
    + cbn [length top]. unfold write_bit at 2. specialize (IH [] suf). cbn [length top app] in *. rewrite IH.
      by rewrite !take_0.
    + rewrite length_app. cbn [length]. replace (length pre + 1)%nat with (S (length pre)) by lia. cbn [top].
      unfold write_bit at 2. replace ((pre ++ [x]) ++ suf) with (pre ++ x :: suf) by (by rewrite <- app_assoc).
      rewrite (insert_app_r_alt pre) by lia. rewrite Nat.sub_diag. cbn [insert list_insert].
      change (match length pre with O => None | S p => Some p end) with (top (length pre)). rewrite IH.
      rewrite Nat.sub_succ. f_equal. rewrite take_app_le by lia. f_equal. cbn [take rev]. by rewrite <- app_assoc.
Qed.

(** All bits of the digits, lsb first; the digits come from the last to the
    first. *)
Fixpoint all_bits (k : nat) (value : ascii -> option Z) (digits : text) : option (list dns) :=
  match digits with
  | [] => Some []
  | c :: digits =>
      if bool_decide (c = "_"%char) then all_bits k value digits
      else l ← digit_bits k value c; ls ← all_bits k value digits; Some (l ++ ls)
  end.

Lemma write_digits_spec k value digits l pre suf :
  all_bits k value digits = Some l ->
  write_digits k value (pre ++ suf, top (length pre)) digits
  = Some (take (length pre - length l) pre ++ rev (take (length pre) l) ++ suf).
Proof.
  revert l pre suf. induction digits as [|c digits IH]; intros l pre suf; cbn [all_bits write_digits].
  { intros [= <-]. cbn [fst length]. rewrite Nat.sub_0_r, take_nil, take_ge by lia. done. }
  case_bool_decide; [apply IH|]. destruct (digit_bits k value c) as [lc|]; [|done]. simpl.
  destruct (all_bits k value digits) as [ls|]; [|done]. simpl. intros [= <-].
  rewrite write_bits_spec. set (n := (length pre - length lc)%nat).
  assert (Hn : length (take n pre) = n) by (rewrite length_take; lia). rewrite <- Hn at 2.
  rewrite (IH ls) by done. rewrite Hn. f_equal. rewrite length_app, take_take. unfold n.
  rewrite take_app, rev_app_distr, <- app_assoc. f_equal. f_equal. lia.
Qed.

(** The digits, right-justified in the width. *)
Lemma write_digits_bits k value digits l w :
  all_bits k value (rev digits) = Some l ->
  write_digits k value (replicate w false_state, top w) (rev digits) = Some (resize_bits_to w false (rev l)).
Proof.
  intros Hl. pose proof (write_digits_spec k value (rev digits) l (replicate w false_state) [] Hl) as Hw.
  rewrite length_replicate, !app_nil_r in Hw. rewrite Hw. f_equal. unfold resize_bits_to. rewrite length_rev.
  rewrite take_replicate. case_bool_decide as Hle.
  - replace (Nat.min (w - length l) w) with 0%nat by lia. simpl.
    rewrite <- (take_drop w l) at 3. rewrite rev_app_distr, drop_app_length'; [done|]. rewrite length_rev, length_drop. lia.
  - rewrite (take_ge l) by lia. f_equal. f_equal. lia.
Qed.

Lemma top_width w : (0 < w)%nat -> Some (w - 1)%nat = top w.
Proof. destruct w; [lia|]. intros _. simpl. f_equal. lia. Qed.

(** ** Printed literals *)

Lemma all_bits_app k value d1 d2 l1 l2 :
  all_bits k value d1 = Some l1 -> all_bits k value d2 = Some l2 -> all_bits k value (d1 ++ d2) = Some (l1 ++ l2).
Proof.
  revert l1. induction d1 as [|c d1 IH]; intros l1; cbn [all_bits app]; [by intros [= <-]|].
  case_bool_decide; [apply IH|]. destruct (digit_bits k value c) as [lc|]; [|done]. simpl.
  destruct (all_bits k value d1) as [ls|]; [|done]. simpl. intros [= <-] H2. rewrite (IH ls) by done. simpl.
  by rewrite app_assoc.
Qed.

Lemma all_bits_bin l : all_bits 1 bin_digit_value (rev (bit_char <$> l)) = Some (rev l).
Proof.
  induction l as [|d l IH]; [done|]. rewrite fmap_cons. cbn [rev].
  apply (all_bits_app 1 bin_digit_value _ [bit_char d] (rev l) [d]); [done|]. by destruct d.
Qed.

Lemma hex_char_value v : 0 <= v < 16 -> digit_bits 4 hex_digit_value (hex_char v) = Some (dns_of_bool <$> lbits 4 v)
  /\ hex_char v ≠ "_"%char.
Proof.
  intros Hv. assert (Hcases : v ∈ seqZ 0 16) by (apply elem_of_seqZ; lia). revert Hcases. clear Hv. vm_compute seqZ.
  intros Hv. repeat (apply elem_of_cons in Hv as [->|Hv]; [by split|]). by apply elem_of_nil in Hv.
Qed.

Lemma lbits_add w1 w2 z : lbits (w1 + w2) z = lbits w1 z ++ lbits w2 (z / 2 ^ Z.of_nat w1).
Proof.
  revert z. induction w1 as [|w1 IH]; intros z; [simpl; by rewrite Z.div_1_r|]. cbn [Nat.add lbits app]. f_equal.
  rewrite IH. do 2 f_equal. rewrite Nat2Z.inj_succ, Z.pow_succ_r by lia. rewrite Z.div2_div, Z.div_div by lia. done.
Qed.

Lemma all_bits_hex n v : 0 <= v -> all_bits 4 hex_digit_value (rev (hex_digits n v)) = Some (dns_of_bool <$> lbits (4 * n) v).
Proof.
  revert v. induction n as [|n IH]; intros v Hv; [done|]. cbn [hex_digits]. rewrite rev_app_distr. cbn [rev app all_bits].
  pose proof (Z.mod_pos_bound v 16). destruct (hex_char_value (v mod 16)) as [Hd Hne]; [lia|].
  rewrite bool_decide_eq_false_2 by done. rewrite Hd. cbn [mbind option_bind]. rewrite IH by (apply Z.div_pos; lia).
  cbn [mbind option_bind]. replace (4 * S n)%nat with (4 + 4 * n)%nat by lia. rewrite (lbits_add 4), fmap_app.
  change (2 ^ Z.of_nat 4) with 16. do 3 f_equal. apply (lbits_mod 4). change (2 ^ Z.of_nat 4) with 16. by rewrite Zmod_mod.
Qed.

Lemma split_digits w rest :
  Forall (fun c => is_Some (digit_of c)) w -> split_apos (w ++ "'"%char :: rest) = Some (w, rest).
Proof.
  induction 1 as [|c w Hc _ IH]; cbn [app split_apos]; [by rewrite bool_decide_eq_true_2|].
  rewrite bool_decide_eq_false_2 by (by intros ->; destruct Hc). by rewrite IH.
Qed.

(** A sized literal reduces to its base and digits. *)
Lemma parse_sized w rest :
  0 < w < 2 ^ 31 -> parse_literal_bits (decimal w ++ "'"%char :: rest) = parse_based (Z.to_nat w) rest.
Proof.
  intros Hw. assert (Hsplit : split_apos (decimal w ++ "'"%char :: rest) = Some (decimal w, rest)).
  { apply split_digits, dec_digits_chars. constructor. }
  assert (Hchars : Forall (fun c => is_Some (digit_of c)) (decimal w)) by (apply dec_digits_chars; constructor).
  unfold parse_literal_bits. rewrite Hsplit.
  destruct (decimal w) as [|c t] eqn:Hd.
  { unfold decimal in Hd. destruct (dec_digits_cons 19 w []) as (c & l & E). congruence. }
  assert (Hparse : parse_dec_uint64 (c :: t) = Some w) by (rewrite <- Hd; apply parse_decimal; lia).
  assert (Hres : (width ← parse_dec_uint64 (c :: t);
    if bool_decide (width = 0) || bool_decide (2 ^ 31 - 1 < width) then None else parse_based (Z.to_nat width) rest)
    = parse_based (Z.to_nat w) rest).
  { rewrite Hparse. simpl mbind. by rewrite !bool_decide_eq_false_2 by lia. }
  inversion Hchars as [|? ? Hc _]; subst.
  assert (c ≠ "'"%char) by (by intros ->; destruct Hc).
  rewrite Hres. destruct c as [[] [] [] [] [] [] [] []]; try done.
Qed.

Lemma value_bits_spec w v high : (forall k, 64 <= k -> Z.testbit v k = high) -> value_bits w v high = bits w v.
Proof.
  intros Hh. unfold value_bits, bits. apply list_eq. intros i. rewrite !list_lookup_fmap.
  destruct (decide (i < w)%nat) as [Hi|Hi].
  - rewrite lookup_seq_lt by done. rewrite lookup_rev by (by rewrite length_lbits).
    rewrite length_lbits, lbits_lookup by lia. simpl. case_bool_decide; [done|]. by rewrite Hh by lia.
  - rewrite lookup_seq_ge by lia. rewrite (lookup_ge_None_2 (rev _)); [done|]. rewrite length_rev, length_lbits. lia.
Qed.

(** The branches of [parse_digits]. *)
Lemma parse_based_bin w ds :
  parse_based w ("b"%char :: ds)
  = (l ← write_digits 1 bin_digit_value (replicate w false_state, Some (w - 1)%nat) (rev ds); Some (l, false)).
Proof. done. Qed.

Lemma parse_based_hex w ds :
  parse_based w ("h"%char :: ds)
  = (l ← write_digits 4 hex_digit_value (replicate w false_state, Some (w - 1)%nat) (rev ds); Some (l, false)).
Proof. done. Qed.

Lemma parse_based_dec w ds v :
  head ds ≠ Some "-"%char -> parse_dec_uint64 ds = Some v ->
  parse_based w ("d"%char :: ds) = Some (value_bits w v false, false).
Proof.
  intros Hh Hv. transitivity
    (l ← (if bool_decide (head ds = Some "-"%char) then None else value ← parse_dec_uint64 ds; Some (value_bits w value false));
     Some (l, false)); [done|].
  by rewrite bool_decide_eq_false_2, Hv by done.
Qed.

Lemma as_Z_bits_small w u : 0 <= u < 2 ^ Z.of_nat w -> as_Z false (bits w u) = Some u.
Proof.
  intros Hu. unfold as_Z. rewrite known_bits. simpl. by rewrite rev_involutive, uval_lbits, Z.mod_small.
Qed.

Lemma decimal_chars v : Forall (fun c => is_Some (digit_of c)) (decimal v).
Proof. apply dec_digits_chars. constructor. Qed.

Lemma decimal_head v : head (decimal v) ≠ Some "-"%char.
Proof.
  pose proof (decimal_chars v) as Hc. destruct (decimal v) as [|c t]; [done|]. intros [= ->].
  inversion Hc as [|? ? [d Hd] _]. done.
Qed.

Lemma split_apos_decimal v : split_apos (decimal v) = None.
Proof.
  induction (decimal_chars v) as [|c t Hc _ IH]; cbn [split_apos]; [done|].
  rewrite bool_decide_eq_false_2 by (by intros ->; destruct Hc). by rewrite IH.
Qed.

(** A number below 2^64 has no bit from 64 on. *)
Lemma uint64_high v : 0 <= v < 2 ^ 64 -> forall k, 64 <= k -> Z.testbit v k = false.
Proof.
  intros Hv k Hk. destruct (decide (v = 0)) as [->|]; [by rewrite Z.testbit_0_l|].
  apply Z.bits_above_log2; [lia|]. pose proof (proj1 (Z.log2_lt_pow2 v 64 ltac:(lia))). lia.
Qed.

Lemma parse_unsized v : 0 <= v < 2 ^ 64 -> parse_literal_bits (decimal v) = Some (bits 32 v, true).
Proof.
  intros Hv. pose proof (decimal_chars v) as Hc. pose proof (split_apos_decimal v) as Hs.
  pose proof (parse_decimal v Hv) as Hp. unfold parse_literal_bits. destruct (decimal v) as [|c t]; [done|].
  rewrite Hs, Hp. cbn [mbind option_bind]. rewrite value_bits_spec by (by apply uint64_high).
  inversion Hc as [|? ? [d Hd] _]; subst. destruct c as [[] [] [] [] [] [] [] []]; done.
Qed.

(** ** Theorems *)

(** C28. Number literals are read back.  A vector of four-state bits printed as a sized binary literal is read
    as the same bits, unsigned; a number below 2^64 printed as a sized decimal literal, and a number printed as a
    sized hexadecimal literal, is read as its bits at the declared width, truncated or extended with zeros; an
    unsized decimal number is read as its low 32 bits, signed. *)
Theorem literal_roundtrip (l : list dns) (w v u : Z) (n : nat) :
  0 < Z.of_nat (length l) < 2 ^ 31 -> 0 < w < 2 ^ 31 -> 0 <= v < 2 ^ 64 -> (0 < n)%nat -> 0 <= u < 2 ^ Z.of_nat (4 * n) ->
  parse_literal_bits (decimal (Z.of_nat (length l)) ++ "'"%char :: "b"%char :: (bit_char <$> l)) = Some (l, false)
  /\ parse_literal_bits (decimal w ++ "'"%char :: "d"%char :: decimal v) = Some (bits (Z.to_nat w) v, false)
  /\ parse_literal_bits (decimal w ++ "'"%char :: "h"%char :: hex_digits n u) = Some (bits (Z.to_nat w) u, false)
  /\ parse_literal_bits (decimal v) = Some (bits 32 v, true).
Proof.
  intros Hl Hw Hv Hn Hu. split_and!; [..|by apply parse_unsized]; rewrite parse_sized by done.
  - rewrite Nat2Z.id, parse_based_bin, top_width by lia.
    rewrite (write_digits_bits _ _ _ (rev l)) by apply all_bits_bin. cbn [mbind option_bind].
    by rewrite rev_involutive, resize_bits_same.
  - rewrite (parse_based_dec _ _ v) by (apply decimal_head || by apply parse_decimal).
    by rewrite value_bits_spec by (by apply uint64_high).
  - rewrite parse_based_hex, top_width by lia. rewrite (write_digits_bits _ _ _ _ _ (all_bits_hex n u ltac:(lia))).
    cbn [mbind option_bind]. rewrite <- fmap_rev. change (dns_of_bool <$> rev (lbits (4 * n) u)) with (bits (4 * n) u).
    rewrite (resize_as_Z _ false (bits (4 * n) u) u); [done| |by apply as_Z_bits_small].
    intros E. apply (f_equal length) in E. rewrite length_bits in E. simpl in E. lia.
Qed.

(** [4'b1x0z], [8'd200], [12'hc8] and [200]. *)
Lemma literal_roundtrip_witness :
  let l := [true_state; indeterminate_state; false_state; high_impedence_state] in
  parse_literal_bits (decimal 4 ++ "'"%char :: "b"%char :: (bit_char <$> l)) = Some (l, false)
  /\ parse_literal_bits (decimal 8 ++ "'"%char :: "d"%char :: decimal 200) = Some (bits 8 200, false).
Proof.
  intros l. destruct (literal_roundtrip l 8 200 200 2) as (H1 & H2 & _).
  - simpl. lia.
  - lia.
  - lia.
  - lia.
  - simpl. lia.
  - by split.
Defined.

(** C34. Decimal numbers are read exactly or not at all.  [parse_dec_uint64] succeeds on a text of digits and
    underscores exactly if the number it stands for is below 2^64, and returns that number: the overflow test
    before each step never lets the accumulator wrap. *)
Theorem parse_dec_uint64_bounds (t : text) :
  t ≠ [] -> parse_dec_uint64 t = (x ← dec_value 0 t; if x <? 2 ^ 64 then Some x else None).
Proof. apply parse_dec_uint64_exact. Qed.

(** 2^64 - 1 is read, 2^64 is not. *)
Lemma parse_dec_uint64_bounds_witness :
  parse_dec_uint64 (decimal 18446744073709551615) = Some (2 ^ 64 - 1) /\ parse_dec_uint64 (decimal 18446744073709551616) = None.
Proof. split; (rewrite parse_dec_uint64_bounds; [vm_compute; reflexivity|vm_compute; discriminate]). Defined.

(** An unknown digit is not extended: [8'bx] has seven zeros and [8'bz] drives
    seven bits low, where the language extends the leftmost [x] or [z]. *)
Lemma unknown_literal_not_extended :
  parse_literal_bits (decimal 8 ++ ["'"; "b"; "x"]%char) = Some (replicate 7 false_state ++ [indeterminate_state], false)
  /\ parse_literal_bits (decimal 8 ++ ["'"; "b"; "z"]%char) = Some (replicate 7 false_state ++ [high_impedence_state], false).
Proof. done. Qed.

(** The two readers of one-bit literals agree. *)
Lemma parse_1bit_agrees d :
  parse_literal_bits ["1"; "'"; "b"; bit_char d]%char = Some ([parse_1bit_literal ["1"; "'"; "b"; bit_char d]%char], false).
Proof. by destruct d. Qed.
