(* ===== verification/VLex.v ===== *)
(** * Verilog: the lexer

    [lex] of verilog/digital/digital.h: the source text is split into
    identifiers, numbers and symbols; white space and comments are skipped; every
    token has its line and column, through the source map of the preprocessor
    when there is one.

    One round of the loop is [lex_one]: how many characters it takes and what
    they are.  Every character taken moves the position by [bump]. *)

From S2P Require Import Prelude VLiteral.
From Stdlib Require Import ZArith Lia Ascii.

#[local] Open Scope Z_scope.
#[local] Open Scope list_scope.

(** ** Data *)

Inductive token_kind := tk_eof | tk_identifier | tk_number | tk_symbol.

#[global] Instance token_kind_eq_dec : EqDecision token_kind.
Proof. solve_decision. Defined.

Record token := mk_token {
  tok_kind : token_kind;
  tok_text : string;
  tok_line : Z;
  tok_column : Z;
}.

Record compile_error := mk_error {
  ce_message : string;
  ce_offset : nat;
  ce_line : Z;
  ce_column : Z;
}.

Record lex_result := mk_lex { lr_tokens : list token; lr_errors : list compile_error }.

(** ** Characters *)

Definition newline : ascii := "010"%char.
Definition quote : ascii := "034"%char.
Definition backslash : ascii := "092"%char.

Definition is_space (c : ascii) : bool := is_one_of c [" "; "009"; newline; "013"; "012"; "011"]%char.

Definition is_digit (c : ascii) : bool := bool_decide (48 <= code c <= 57).

Definition is_alpha (c : ascii) : bool :=
  bool_decide (97 <= code c <= 122) || bool_decide (65 <= code c <= 90) || bool_decide (c = "_"%char).

Definition is_ident_continue (c : ascii) : bool := is_alpha c || is_digit c || bool_decide (c = "$"%char).

(** ** Positions *)

Definition bump (lc : Z * Z) (c : ascii) : Z * Z :=
  if bool_decide (c = newline) then (lc.1 + 1, 1) else (lc.1, lc.2 + 1).

(** The position after a piece of text. *)
Definition bumps (lc : Z * Z) (b : text) : Z * Z := foldl bump lc b.

Definition remap_line_col (smap : option (list (Z * Z))) (off : nat) (lc : Z * Z) : Z * Z :=
  match smap with None => lc | Some sp => default lc (sp !! off) end.

(** ** Scanning *)

(** The characters up to the first one that fails [f]. *)
Fixpoint span (f : ascii -> bool) (p : text) : nat :=
  match p with [] => 0 | c :: p => if f c then S (span f p) else 0 end.

(** The body of a block comment with its end, if it has one. *)
Fixpoint block_len (p : text) : nat :=
  match p with
  | [] => 0
  | c :: p => if bool_decide (c = "*"%char) && bool_decide (head p = Some "/"%char) then 2 else S (block_len p)
  end.

(** The body of a string literal with its closing quote; [false]: there is
    none. *)
Fixpoint string_len (p : text) : nat * bool :=
  match p with
  | [] => (0%nat, false)
  | c :: p =>
      if bool_decide (c = backslash) then
        match p with
        | [] => (1%nat, false)
        | _ :: p => let '(n, closed) := string_len p in (S (S n), closed)
        end
      else if bool_decide (c = quote) then (1%nat, true)
      else let '(n, closed) := string_len p in (S n, closed)
  end.

Definition is_dec_base (c : ascii) : bool := is_one_of c ["d"; "D"]%char.

(** The digits of a literal without size, [prev] the last character taken. *)
Fixpoint based_len (base prev : ascii) (p : text) : nat :=
  match p with
  | [] => 0
  | nc :: p =>
      let ok := is_alpha nc || is_digit nc || bool_decide (nc = "_"%char) in
      if ok || (bool_decide (nc = "-"%char) && is_dec_base base && bool_decide (prev = base))
      then S (based_len base nc p) else 0
  end.

(** The rest of a number: [after_apos], [after_base] and [allow_minus] follow
    where the characters of [8'sd-1] are. *)
Fixpoint number_len (after_apos after_base allow_minus : bool) (base prev : ascii) (p : text) : nat :=
  match p with
  | [] => 0
  | nc :: p =>
      let ok := is_digit nc || is_alpha nc || is_one_of nc ["'"; "_"]%char in
      if ok || (bool_decide (nc = "-"%char) && allow_minus && bool_decide (prev = base)) then
        S (if bool_decide (nc = "'"%char) then number_len true false false "000"%char nc p
           else if after_apos && negb after_base then
             if is_one_of nc ["s"; "S"]%char then number_len after_apos after_base allow_minus base nc p
             else number_len after_apos true (is_dec_base nc) nc nc p
           else number_len after_apos after_base allow_minus base nc p)
      else 0
  end.

(** A literal that starts with an apostrophe: [r] is what follows it. *)
Definition apos_len (r : text) : option nat :=
  match r with
  | [] => None
  | v0 :: r' =>
      if is_one_of v0 ["0"; "1"; "x"; "X"; "z"; "Z"]%char then Some 2%nat
      else
        base ← head (if is_one_of v0 ["s"; "S"]%char then r' else r);
        if is_one_of base ["b"; "B"; "o"; "O"; "d"; "D"; "h"; "H"]%char then Some (S (based_len base "'"%char r)) else None
  end.

Definition symbols3 : list text := [["="; "="; "="]; ["!"; "="; "="]]%char.

Definition symbols2 : list text :=
  [["*"; "*"]; ["~"; "&"]; ["~"; "|"]; ["~"; "^"]; ["^"; "~"]; ["="; "="]; ["!"; "="]; ["&"; "&"]; ["|"; "|"];
   ["<"; "="]; [">"; "="]; ["<"; "<"]; [">"; ">"]; ["+"; ":"]; ["-"; ":"]]%char.

Definition symbol_len (p : text) : nat :=
  if bool_decide (take 3 p ∈ symbols3) then 3 else if bool_decide (take 2 p ∈ symbols2) then 2 else 1.

(** What one round of the loop makes of the characters it takes. *)
Inductive outcome := o_skip | o_token (k : token_kind) | o_unterminated.

Definition lex_one (p : text) : nat * outcome :=
  match p with
  | [] => (0%nat, o_skip)
  | c :: r =>
      if is_space c then (1%nat, o_skip)
      else if bool_decide (c = "/"%char) && bool_decide (head r = Some "/"%char)
      then (span (fun c => negb (bool_decide (c = newline))) p, o_skip)
      else if bool_decide (c = "/"%char) && bool_decide (head r = Some "*"%char)
      then (S (S (block_len (tail r))), o_skip)
      else if bool_decide (c = quote)
      then let '(n, closed) := string_len r in (S n, if closed then o_token tk_symbol else o_unterminated)
      else if is_alpha c || bool_decide (c = "$"%char) then (S (span is_ident_continue r), o_token tk_identifier)
      else
        match (if bool_decide (c = "'"%char) then apos_len r else None) with
        | Some n => (n, o_token tk_number)
        | None =>
            if is_digit c then (S (number_len false false false "000"%char c r), o_token tk_number)
            else (symbol_len p, o_token tk_symbol)
        end
  end.

(** ** The loop *)

(** The loop from offset [off] and position [lc] on; every round takes at least
    one character. *)
Fixpoint lex_loop (fuel : nat) (smap : option (list (Z * Z))) (off : nat) (lc : Z * Z) (p : text)
  (out : lex_result) : lex_result :=
  match fuel, p with
  | _, [] | O, _ => mk_lex (lr_tokens out ++ [mk_token tk_eof "" lc.1 lc.2]) (lr_errors out)
  | S fuel, _ =>
      let '(n, o) := lex_one p in
      let b := take n p in
      let rlc := remap_line_col smap off lc in
      let tok k := mk_token k (String.string_of_list_ascii b) rlc.1 rlc.2 in
      lex_loop fuel smap (off + n) (bumps lc b) (drop n p)
        match o with
        | o_skip => out
        | o_token k => mk_lex (lr_tokens out ++ [tok k]) (lr_errors out)
        | o_unterminated =>
            mk_lex (lr_tokens out ++ [tok tk_symbol])
              (lr_errors out ++ [mk_error "unterminated string literal" off rlc.1 rlc.2])
        end
  end.

Definition lex (src : text) (smap : option (list (Z * Z))) : lex_result :=
  lex_loop (length src) smap 0 (1, 1) src (mk_lex [] []).

(** ** Every round takes characters of the text *)

Lemma span_le f p : (span f p <= length p)%nat.
Proof. induction p as [|c p IH]; simpl; [lia|]. destruct (f c); lia. Qed.

Lemma span_sat f p : Forall (fun c => f c = true) (take (span f p) p).
Proof. induction p as [|c p IH]; simpl; [constructor|]. destruct (f c) eqn:Hc; [by constructor|constructor]. Qed.

Lemma block_len_le p : (block_len p <= length p)%nat.
Proof.
  induction p as [|c p IH]; simpl; [lia|]. case_bool_decide; simpl; [|lia]. case_bool_decide; [|lia].
  destruct p; [done|simpl; lia].
Qed.

Lemma based_len_le base prev p : (based_len base prev p <= length p)%nat.
Proof.
  revert prev. induction p as [|c p IH]; intros prev; cbn [based_len length]; [lia|].
  match goal with |- context [if ?b then _ else _] => destruct b end; [specialize (IH c)|]; lia.
Qed.

Lemma number_len_le aa ab am base prev p : (number_len aa ab am base prev p <= length p)%nat.
Proof.
  revert aa ab am base prev. induction p as [|c p IH]; intros aa ab am base prev; cbn [number_len length]; [lia|].
  repeat match goal with |- context [if ?b then _ else _] => destruct b end; rewrite <- ?Nat.succ_le_mono; try apply IH; lia.
Qed.

(** Two steps at a time, as an escaped character needs. *)
Lemma two_step_ind {A} (Q : list A -> Prop) :
  Q [] -> (forall x, Q [x]) -> (forall x y l, Q l -> Q (y :: l) -> Q (x :: y :: l)) -> forall l, Q l.
Proof.
  intros H0 H1 H2 l. assert (Q l /\ forall x, Q (x :: l)) as [? _]; [|done].
  induction l as [|y l [IH IHc]]; split; auto.
Qed.

Lemma string_len_cons2 x y p :
  string_len (x :: y :: p)
  = (if bool_decide (x = backslash) then let '(n, closed) := string_len p in (S (S n), closed)
     else if bool_decide (x = quote) then (1%nat, true)
     else let '(n, closed) := string_len (y :: p) in (S n, closed)).
Proof. done. Qed.

Lemma string_len_le p : ((string_len p).1 <= length p)%nat.
Proof.
  induction p as [|x|x y p IH1 IH2] using two_step_ind; [done| |].
  - cbn [string_len]. repeat case_bool_decide; simpl; lia.
  - rewrite string_len_cons2. destruct (string_len (y :: p)) as [n2 c2]. destruct (string_len p) as [n c].
    repeat case_bool_decide; simpl in *; lia.
Qed.

Lemma symbols_length b :
  (b ∈ symbols3 -> length b = 3%nat /\ " "%char ∉ b) /\ (b ∈ symbols2 -> length b = 2%nat /\ " "%char ∉ b).
Proof.
  assert (H : Forall (fun b => length b = 3%nat /\ " "%char ∉ b) symbols3
    /\ Forall (fun b => length b = 2%nat /\ " "%char ∉ b) symbols2) by (split; apply (bool_decide_unpack _); by vm_compute).
  destruct H as [H3 H2]. split; intros Hb; [by apply (proj1 (Forall_forall _ _) H3)|by apply (proj1 (Forall_forall _ _) H2)].
Qed.

Lemma symbol_len_le p : p ≠ [] -> (1 <= symbol_len p <= length p)%nat.
Proof.
  intros Hp. unfold symbol_len. case_bool_decide as H; [|clear H; case_bool_decide as H].
  - apply symbols_length in H as [H _]. rewrite length_take in H. lia.
  - apply symbols_length in H as [H _]. rewrite length_take in H. lia.
  - destruct p; [done|simpl; lia].
Qed.

Lemma apos_len_le r n : apos_len r = Some n -> (1 <= n <= S (length r))%nat.
Proof.
  destruct r as [|v0 r]; [done|]. cbn [apos_len].
  destruct (is_one_of v0 ["0"; "1"; "x"; "X"; "z"; "Z"]%char); [intros [= <-]; simpl; lia|].
  destruct (head _) as [base|]; [|done]. cbn [mbind option_bind]. destruct (is_one_of base _); [|done]. intros [= <-].
  pose proof (based_len_le base "'"%char (v0 :: r)) as Hb. cbn [based_len] in Hb. lia.
Qed.

Lemma lex_one_len p : p ≠ [] -> (1 <= (lex_one p).1 <= length p)%nat.
Proof.
  intros Hp. destruct p as [|c r]; [done|]. unfold lex_one.
  destruct (is_space c); [simpl; lia|]. destruct (bool_decide (c = "/"%char)) eqn:Hs; cbn [andb].
  - apply bool_decide_eq_true in Hs as ->. case_bool_decide.
    + simpl. pose proof (span_le (fun c => negb (bool_decide (c = newline))) r). lia.
    + case_bool_decide; [destruct r as [|d r]; [done|]; pose proof (block_len_le r); simpl; lia|].
      apply (symbol_len_le ("/"%char :: r)). done.
  - destruct (bool_decide (c = quote)); [pose proof (string_len_le r); destruct (string_len r) as [n []]; simpl in *; lia|].
    destruct (is_alpha c || _); [pose proof (span_le is_ident_continue r); simpl; lia|].
    destruct (if bool_decide (c = "'"%char) then apos_len r else None) as [n|] eqn:Ha.
    + destruct (bool_decide (c = "'"%char)); [|done]. apply apos_len_le in Ha. simpl. lia.
    + destruct (is_digit c); [|by apply (symbol_len_le (c :: r))].
      pose proof (number_len_le false false false "000"%char c r). simpl. lia.
Qed.

(** ** Tokens that are printed with a space after each are read back *)

(** The text is a token of its own when a space follows. *)
Definition lexable (k : token_kind) (t : text) : Prop := lex_one (t ++ [" "%char]) = (length t, o_token k).

#[global] Instance outcome_eq_dec : EqDecision outcome.
Proof. solve_decision. Defined.

#[global] Instance lexable_dec k t : Decision (lexable k t).
Proof. unfold lexable. apply _. Defined.

Section Locality.
(** [s] is what follows the space. *)
Context (s : text).

Lemma head_local (r : text) : head (r ++ " "%char :: s) = head (r ++ [" "%char]).
Proof. by destruct r. Qed.

Lemma span_local r : span is_ident_continue (r ++ " "%char :: s) = span is_ident_continue (r ++ [" "%char]).
Proof. induction r as [|c r IH]; [done|]. cbn [app span]. by rewrite IH. Qed.

Lemma based_len_local base prev r :
  based_len base prev (r ++ " "%char :: s) = based_len base prev (r ++ [" "%char]).
Proof.
  revert prev. induction r as [|c r IH]; intros prev; [done|]. cbn [app based_len]. by rewrite IH.
Qed.

Lemma number_len_local aa ab am base prev r :
  number_len aa ab am base prev (r ++ " "%char :: s) = number_len aa ab am base prev (r ++ [" "%char]).
Proof.
  revert aa ab am base prev. induction r as [|c r IH]; intros aa ab am base prev; [done|]. cbn [app number_len]. by rewrite !IH.
Qed.

Lemma string_len_app p q n : string_len p = (n, true) -> string_len (p ++ q) = (n, true).
Proof.
  revert n. induction p as [|x|x y p IH1 IH2] using two_step_ind; intros n; [done| |].
  - cbn [string_len app]. by repeat case_bool_decide.
  - cbn [app] in *. rewrite !string_len_cons2. case_bool_decide.
    + destruct (string_len p) as [m c]. intros [= <- ->]. by rewrite (IH1 m).
    + case_bool_decide; [done|]. destruct (string_len (y :: p)) as [m c]. intros [= <- ->]. by rewrite (IH2 m).
Qed.

Lemma apos_len_local r : apos_len (r ++ " "%char :: s) = apos_len (r ++ [" "%char]).
Proof.
  destruct r as [|v0 r]; [done|]. cbn [app apos_len].
  destruct (is_one_of v0 ["0"; "1"; "x"; "X"; "z"; "Z"]%char); [done|].
  assert (Hh : head (if is_one_of v0 ["s"; "S"]%char then r ++ " "%char :: s else v0 :: r ++ " "%char :: s)
    = head (if is_one_of v0 ["s"; "S"]%char then r ++ [" "%char] else v0 :: r ++ [" "%char])).
  { destruct (is_one_of v0 _); [apply head_local|done]. }
  rewrite Hh. clear Hh. set (h := head _). clearbody h. destruct h as [base|]; [|done]. cbn [mbind option_bind].
  pose proof (based_len_local base "'"%char (v0 :: r)) as Hb. cbn [app based_len] in Hb |- *. by rewrite Hb.
Qed.

Lemma symbol_len_local t : t ≠ [] -> symbol_len (t ++ " "%char :: s) = symbol_len (t ++ [" "%char]).
Proof.
  assert (H3 : forall b, " "%char ∈ b -> bool_decide (b ∈ symbols3) = false).
  { intros b Hb. apply bool_decide_eq_false. intros H. by apply symbols_length in H as [_ ?]. }
  intros Ht. unfold symbol_len. destruct t as [|a [|b [|c t]]]; [done|..|done]; cbn [app take].
  - rewrite !H3 by (rewrite !elem_of_cons; auto). done.
  - done.
Qed.

(** What follows the space does not matter to the token before it. *)
Lemma lex_one_local k t : lexable k t -> lex_one (t ++ " "%char :: s) = (length t, o_token k).
Proof.
  unfold lexable. destruct t as [|c r]; [done|]. cbn [app lex_one].
  destruct (is_space c); [done|]. rewrite head_local.
  destruct (bool_decide (c = "/"%char) && bool_decide (head _ = Some "/"%char)); [done|].
  destruct (bool_decide (c = "/"%char) && bool_decide (head _ = Some "*"%char)); [done|].
  case_bool_decide.
  - destruct (string_len (r ++ [" "%char])) as [n []] eqn:Hn; [|done]. intros [= -> <-].
    replace (r ++ " "%char :: s) with ((r ++ [" "%char]) ++ s) by (by rewrite <- app_assoc).
    by rewrite (string_len_app _ _ _ Hn).
  - rewrite span_local, apos_len_local, number_len_local. destruct (is_alpha c || _); [done|].
    destruct (if bool_decide (c = "'"%char) then _ else _); [done|]. destruct (is_digit c); [done|].
    pose proof (symbol_len_local (c :: r) ltac:(done)) as Hs. cbn [app] in Hs. by rewrite Hs.
Qed.
End Locality.

(** The texts with a space after each. *)
Definition spaced (ts : list (token_kind * string)) : text :=
  mjoin ((fun t => String.list_ascii_of_string t.2 ++ [" "%char]) <$> ts).

Definition kind_text (t : token) : token_kind * string := (tok_kind t, tok_text t).

(** A token and the space after it are two rounds. *)
Lemma lex_loop_token f smap off lc k t p out :
  lexable k t ->
  exists off' lc' rlc,
    lex_loop (S (S f)) smap off lc (t ++ " "%char :: p) out
    = lex_loop f smap off' lc' p
        (mk_lex (lr_tokens out ++ [mk_token k (String.string_of_list_ascii t) rlc.1 rlc.2]) (lr_errors out)).
Proof.
  intros Ht. pose proof (lex_one_local p k t Ht) as Ho.
  assert (Hc : exists c r, t = c :: r). { destruct t as [|c r]; [done|by do 2 eexists]. }
  destruct Hc as (c & r & Hc). do 3 eexists.
  replace (lex_loop (S (S f)) smap off lc (t ++ " "%char :: p) out) with
    (let '(n, o) := lex_one (t ++ " "%char :: p) in
      let b := take n (t ++ " "%char :: p) in
      let rlc := remap_line_col smap off lc in
      let tok k := mk_token k (String.string_of_list_ascii b) rlc.1 rlc.2 in
      lex_loop (S f) smap (off + n) (bumps lc b) (drop n (t ++ " "%char :: p))
        match o with
        | o_skip => out
        | o_token k => mk_lex (lr_tokens out ++ [tok k]) (lr_errors out)
        | o_unterminated =>
            mk_lex (lr_tokens out ++ [tok tk_symbol])
              (lr_errors out ++ [mk_error "unterminated string literal" off rlc.1 rlc.2])
        end) by (by rewrite Hc).
  rewrite Ho. cbv zeta. rewrite take_app_length, drop_app_length. reflexivity.
Qed.

Lemma lex_loop_spaced f smap off lc ts out :
  Forall (fun t => lexable t.1 (String.list_ascii_of_string t.2)) ts -> (length (spaced ts) <= f)%nat ->
  let r := lex_loop f smap off lc (spaced ts) out in
  kind_text <$> lr_tokens r = (kind_text <$> lr_tokens out) ++ ts ++ [(tk_eof, "")] /\ lr_errors r = lr_errors out.
Proof.
  intros Hts. revert f off lc out. induction Hts as [|[k t] ts Ht _ IH]; intros f off lc out Hf r.
  { unfold r. destruct f; cbn [lex_loop spaced mjoin list_join fmap list_fmap lr_tokens lr_errors]; by rewrite fmap_app. }
  assert (Hsp : spaced ((k, t) :: ts) = String.list_ascii_of_string t ++ " "%char :: spaced ts)
    by (unfold spaced; rewrite fmap_cons; cbn [mjoin list_join snd]; by rewrite <- app_assoc).
  rewrite Hsp, length_app in Hf. cbn [length] in Hf.
  assert (Hlen : (1 <= length (String.list_ascii_of_string t))%nat).
  { cbn [fst snd] in Ht. destruct (String.list_ascii_of_string t); [done|simpl; lia]. }
  destruct f as [|[|f]]; [lia|lia|]. unfold r. rewrite Hsp.
  destruct (lex_loop_token f smap off lc k (String.list_ascii_of_string t) (spaced ts) out Ht) as (off' & lc' & rlc & ->).
  edestruct (IH f) as [Htok Herr]; [lia|]. rewrite Htok, Herr. split; [|done]. cbn [lr_tokens]. rewrite fmap_app, <- app_assoc.
  cbn [fmap list_fmap app]. unfold kind_text at 2. cbn [tok_kind tok_text]. by rewrite String.string_of_list_ascii_of_string.
Qed.

(** ** Theorems *)

(** Tokens are read back.  Token texts that the lexer takes as a whole when a space follows, printed one after the
    other with spaces, are read as the same tokens without errors. *)
Lemma lex_roundtrip (ts : list (token_kind * string)) (smap : option (list (Z * Z))) :
  Forall (fun t => lexable t.1 (String.list_ascii_of_string t.2)) ts ->
  kind_text <$> lr_tokens (lex (spaced ts) smap) = ts ++ [(tk_eof, "")] /\ lr_errors (lex (spaced ts) smap) = [].
Proof. intros Hts. by apply lex_loop_spaced. Qed.

(** [a <= 8'sd-1 === $urandom ;] *)
Lemma lex_roundtrip_witness :
  let ts := [(tk_identifier, "a"); (tk_symbol, "<="); (tk_number, "8'sd-1"); (tk_symbol, "===");
             (tk_identifier, "$urandom"); (tk_symbol, ";")] in
  kind_text <$> lr_tokens (lex (spaced ts) None) = ts ++ [(tk_eof, "")] /\ lr_errors (lex (spaced ts) None) = [].
Proof. intros ts. apply lex_roundtrip. unfold ts. repeat (constructor; [vm_compute; reflexivity|]). constructor. Defined.
