(* ===== verification/VLexOk.v ===== *)
(** * Verilog: what the tokens of a source are

    The lexical grammar that [lex] of verilog/digital/digital.h follows, as a
    relation between a piece of text, the text after it and what the piece is
    ([lexeme]): identifiers, numbers and line comments are as long as they can be,
    a block comment goes to its first end, a string to its first quote that is not
    escaped, a symbol is the longest operator.  The lexer cuts every source into
    such pieces. *)

From S2P Require Import Prelude VLiteral VLex.
From Stdlib Require Import ZArith Lia Ascii.

#[local] Open Scope list_scope.

(** ** The grammar *)

(** [b] is [start] and as many of the characters that follow as [ok] allows after what was read. *)
Definition maximal (ok : text -> ascii -> Prop) (start b rest : text) : Prop :=
  exists body, b = start ++ body
    /\ (forall l c r, body = l ++ c :: r -> ok (start ++ l) c)
    /\ (forall c r, rest = c :: r -> ~ ok b c).

Definition occurs (x t : text) : Prop := exists l r, t = l ++ x ++ r.

Definition comment_end : text := ["*"; "/"]%char.

(** Characters of a string up to a quote; a backslash escapes the next one. *)
Inductive string_body : text -> Prop :=
| sb_nil : string_body []
| sb_plain c r : c <> backslash -> c <> quote -> string_body r -> string_body (c :: r)
| sb_escape c r : string_body r -> string_body (backslash :: c :: r).

(** What follows the last apostrophe. *)
Fixpoint after_apos (t : text) : option text :=
  match t with
  | [] => None
  | c :: t => match after_apos t with Some r => Some r | None => if decide (c = "'"%char) then Some t else None end
  end.

(** The letter that names the base: the first one that is no sign letter. *)
Fixpoint base_of (t : text) : option ascii :=
  match t with [] => None | c :: t => if decide (c ∈ ["s"; "S"]%char) then base_of t else Some c end.

(** A minus may follow: the last character is the letter of a decimal base, as in [8'sd-1]. *)
Definition minus_allowed (t : text) : Prop :=
  exists r base, after_apos t = Some r /\ base_of r = Some base /\ base ∈ ["d"; "D"]%char /\ last r = Some base.

Definition based_char (t : text) (c : ascii) : Prop :=
  is_digit c = true \/ is_alpha c = true \/ c = "-"%char /\ minus_allowed t.

Definition number_char (t : text) (c : ascii) : Prop := based_char t c \/ c = "'"%char.

(** What may follow an apostrophe in a number: one bit, or a base. *)
Definition bit_chars : list ascii := ["0"; "1"; "x"; "X"; "z"; "Z"]%char.

Definition starts_base (r : text) : Prop :=
  exists sign base r', r = sign ++ base :: r' /\ base ∈ ["b"; "B"; "o"; "O"; "d"; "D"; "h"; "H"]%char
    /\ (sign = [] \/ exists c, sign = [c] /\ c ∈ ["s"; "S"]%char).

Definition starts_number (r : text) : Prop := (exists v r', r = v :: r' /\ v ∈ bit_chars) \/ starts_base r.

Definition operators : list text :=
  String.list_ascii_of_string <$>
    ["==="; "!=="; "**"; "~&"; "~|"; "~^"; "^~"; "=="; "!="; "&&"; "||"; "<="; ">="; "<<"; ">>"; "+:"; "-:"]%string.

(** The longest operator at the start of [p], or else its first character. *)
Definition longest_operator (b p : text) : Prop :=
  (b ∈ operators /\ forall x, x ∈ operators -> x `prefix_of` p -> length x <= length b)
  \/ (length b = 1 /\ forall x, x ∈ operators -> ~ x `prefix_of` p).

(** A character that starts a symbol, and nothing else. *)
Definition starts_symbol (c : ascii) (r : text) : Prop :=
  is_space c = false /\ is_alpha c = false /\ is_digit c = false /\ c <> "$"%char /\ c <> quote
  /\ ~ (c = "/"%char /\ (head r = Some "/"%char \/ head r = Some "*"%char))
  /\ ~ (c = "'"%char /\ starts_number r).

(** [b] is a piece of the source with [rest] after it. *)
Inductive lexeme : text -> text -> outcome -> Prop :=
| lx_space c rest : is_space c = true -> lexeme [c] rest o_skip
| lx_line b rest : maximal (fun _ c => c <> newline) ["/"; "/"]%char b rest -> lexeme b rest o_skip
| lx_block body rest :
    ~ occurs comment_end (body ++ ["*"%char]) -> lexeme ("/"%char :: "*"%char :: body ++ comment_end) rest o_skip
| lx_open_block body : ~ occurs comment_end body -> lexeme ("/"%char :: "*"%char :: body) [] o_skip
| lx_string body rest : string_body body -> lexeme (quote :: body ++ [quote]) rest (o_token tk_symbol)
| lx_open_string body tail :
    string_body body -> tail = [] \/ tail = [backslash] -> lexeme (quote :: body ++ tail) [] o_unterminated
| lx_identifier c b rest :
    is_alpha c = true \/ c = "$"%char -> maximal (fun _ c => is_ident_continue c = true) [c] b rest ->
    lexeme b rest (o_token tk_identifier)
| lx_number c b rest : is_digit c = true -> maximal number_char [c] b rest -> lexeme b rest (o_token tk_number)
| lx_bit v rest : v ∈ bit_chars -> lexeme ["'"%char; v] rest (o_token tk_number)
| lx_based b r rest :
    b ++ rest = "'"%char :: r -> starts_base r -> maximal based_char ["'"%char] b rest -> lexeme b rest (o_token tk_number)
| lx_symbol c r b rest :
    b ++ rest = c :: r -> starts_symbol c r -> longest_operator b (c :: r) -> lexeme b rest (o_token tk_symbol).

(** A source cut into pieces. *)
Inductive cut : text -> list (text * outcome) -> Prop :=
| cut_nil : cut [] []
| cut_cons b rest o pieces : b <> [] -> lexeme b rest o -> cut rest pieces -> cut (b ++ rest) ((b, o) :: pieces).

(** ** Pieces that are as long as they can be *)

Lemma one_of_spec c l : is_one_of c l = bool_decide (c ∈ l).
Proof. done. Qed.

(** A step over the first character of the body. *)
Lemma body_cons (ok : text -> ascii -> Prop) start c body :
  ok start c -> (forall l x r, body = l ++ x :: r -> ok ((start ++ [c]) ++ l) x) ->
  forall l x r, c :: body = l ++ x :: r -> ok (start ++ l) x.
Proof.
  intros Hc Hb [|y l] x r E; [injection E as <- _; by rewrite app_nil_r|]. injection E as -> E.
  specialize (Hb l x r E). by rewrite <- app_assoc in Hb.
Qed.

(** A test that looks at the next character only. *)
Lemma span_maximal (f : ascii -> bool) (ok : ascii -> Prop) start p :
  (forall c, f c = true <-> ok c) -> maximal (fun _ c => ok c) start (start ++ take (span f p) p) (drop (span f p) p).
Proof.
  intros Hf. exists (take (span f p) p). split_and!; [done| |].
  - intros l c r E. apply Hf. pose proof (span_sat f p) as Hs. rewrite E in Hs. apply Forall_app in Hs as [_ Hs].
    by apply Forall_cons in Hs as [? _].
  - intros c r. induction p as [|d p IH]; [done|]. cbn [span]. destruct (f d) eqn:Hd; [exact IH|]. intros [= -> _] Hc%Hf. congruence.
Qed.

(** *** Numbers *)

Lemma after_apos_snoc t c :
  after_apos (t ++ [c]) = if decide (c = "'"%char) then Some [] else (fun r => r ++ [c]) <$> after_apos t.
Proof.
  induction t as [|x t IH]; cbn [app after_apos]; [by destruct (decide _)|]. rewrite IH. destruct (decide (c = "'"%char)); [done|].
  destruct (after_apos t); [done|]. cbn. by destruct (decide (x = "'"%char)).
Qed.

Lemma base_of_snoc t c :
  base_of (t ++ [c]) = match base_of t with Some b => Some b | None => if decide (c ∈ ["s"; "S"]%char) then None else Some c end.
Proof. induction t as [|x t IH]; cbn [app base_of]; [done|]. by destruct (decide (x ∈ _)). Qed.

(** The state of [number_len] after [t]. *)
Definition number_state (t : text) (after_apos' after_base allow_minus : bool) (base prev : ascii) : Prop :=
  match after_apos t with
  | None => after_apos' = false /\ allow_minus = false
  | Some r =>
      after_apos' = true /\ (r <> [] -> last r = Some prev)
      /\ match base_of r with
         | None => after_base = false /\ allow_minus = false
         | Some b => after_base = true /\ base = b /\ allow_minus = is_dec_base b
         end
  end.

Lemma base_of_nonempty r b : base_of r = Some b -> r <> [].
Proof. by destruct r. Qed.

Lemma number_state_minus t aa ab am base prev :
  number_state t aa ab am base prev -> am && bool_decide (prev = base) = true <-> minus_allowed t.
Proof.
  unfold number_state, minus_allowed. destruct (after_apos t) as [r|]; [|intros [_ ->]; naive_solver].
  intros (_ & Hl & Hb). destruct (base_of r) as [b|] eqn:Eb; [|destruct Hb as [_ ->]; naive_solver].
  destruct Hb as (_ & -> & ->). specialize (Hl (base_of_nonempty _ _ Eb)). unfold is_dec_base. rewrite one_of_spec, andb_true_iff, !bool_decide_eq_true.
  split; [intros [Hb ->]; by exists r, b|]. intros (r' & b' & [= <-] & Hb' & Hb & Hl'). assert (b' = b) as -> by congruence. split; [done|congruence].
Qed.

(** One character more. *)
Lemma number_state_step t aa ab am base prev c :
  number_state t aa ab am base prev ->
  number_state (t ++ [c])
    (if bool_decide (c = "'"%char) then true else aa)
    (if bool_decide (c = "'"%char) then false else if aa && negb ab then negb (is_one_of c ["s"; "S"]%char) else ab)
    (if bool_decide (c = "'"%char) then false else if aa && negb ab then (if is_one_of c ["s"; "S"]%char then am else is_dec_base c) else am)
    (if bool_decide (c = "'"%char) then "000"%char else if aa && negb ab then (if is_one_of c ["s"; "S"]%char then base else c) else base) c.
Proof.
  unfold number_state. rewrite after_apos_snoc. destruct (decide (c = "'"%char)) as [->|Hc]; [done|].
  rewrite (bool_decide_eq_false_2 (c = "'"%char)) by done. destruct (after_apos t) as [r|]; cbn [fmap option_fmap option_map]; [|by intros [-> ->]].
  intros (-> & Hl & Hb). split; [done|]. split; [intros _; apply last_snoc|]. rewrite base_of_snoc, one_of_spec.
  destruct (base_of r) as [b|]; [by destruct Hb as (-> & -> & ->)|]. destruct Hb as (-> & ->). cbn [andb negb].
  destruct (decide (c ∈ ["s"; "S"]%char)); [by rewrite bool_decide_eq_true_2|by rewrite bool_decide_eq_false_2].
Qed.

Lemma number_len_step aa ab am base prev c p :
  number_len aa ab am base prev (c :: p)
  = if is_digit c || is_alpha c || is_one_of c ["'"; "_"]%char || (bool_decide (c = "-"%char) && am && bool_decide (prev = base)) then
      S (number_len
        (if bool_decide (c = "'"%char) then true else aa)
        (if bool_decide (c = "'"%char) then false else if aa && negb ab then negb (is_one_of c ["s"; "S"]%char) else ab)
        (if bool_decide (c = "'"%char) then false else if aa && negb ab then (if is_one_of c ["s"; "S"]%char then am else is_dec_base c) else am)
        (if bool_decide (c = "'"%char) then "000"%char else if aa && negb ab then (if is_one_of c ["s"; "S"]%char then base else c) else base) c p)
    else 0.
Proof.
  cbn [number_len]. destruct (is_digit c || _ || _ || _); [|done]. f_equal. case_bool_decide; [done|]. destruct aa, ab; cbn [andb negb]; try done.
  by destruct (is_one_of c ["s"; "S"]%char).
Qed.

Lemma number_char_spec t aa ab am base prev c :
  number_state t aa ab am base prev ->
  is_digit c || is_alpha c || is_one_of c ["'"; "_"]%char || (bool_decide (c = "-"%char) && am && bool_decide (prev = base)) = true
  <-> number_char t c.
Proof.
  intros Hs%number_state_minus. unfold number_char, based_char. rewrite <- Hs, one_of_spec, !orb_true_iff, !andb_true_iff, !bool_decide_eq_true.
  assert (Hu : c = "_"%char -> is_alpha c = true) by (by intros ->). rewrite !elem_of_cons, elem_of_nil. naive_solver.
Qed.

Lemma number_len_maximal p : forall t aa ab am base prev,
  number_state t aa ab am base prev ->
  let n := number_len aa ab am base prev p in
  (forall l c r, take n p = l ++ c :: r -> number_char (t ++ l) c)
  /\ (forall c r, drop n p = c :: r -> ~ number_char (t ++ take n p) c).
Proof.
  induction p as [|c p IH]; intros t aa ab am base prev Hs n; [split; [intros []|]; done|]. unfold n. clear n. rewrite number_len_step.
  pose proof (number_char_spec t aa ab am base prev c Hs) as Hc. destruct (is_digit c || _ || _ || _) eqn:Hok.
  - destruct (IH _ _ _ _ _ _ (number_state_step t aa ab am base prev c Hs)) as [H1 H2]. split.
    + cbn [take]. apply body_cons; [by apply Hc|exact H1].
    + cbn [take drop]. intros x r E. specialize (H2 x r E). by rewrite <- app_assoc in H2.
  - split; [intros []; done|]. intros x r [= <- _]. rewrite app_nil_r. by intros H%Hc.
Qed.

(** The state of [based_len] after [t]. *)
Definition based_state (t : text) (base prev : ascii) : Prop :=
  exists r, after_apos t = Some r /\ base_of r = Some base /\ last r = Some prev.

Lemma based_char_spec t base prev c :
  based_state t base prev ->
  is_alpha c || is_digit c || bool_decide (c = "_"%char) || (bool_decide (c = "-"%char) && is_dec_base base && bool_decide (prev = base)) = true
  <-> based_char t c.
Proof.
  intros (r & Hr & Hb & Hl). assert (Hm : minus_allowed t <-> is_dec_base base = true /\ prev = base).
  { unfold minus_allowed, is_dec_base. rewrite one_of_spec, bool_decide_eq_true. split; [|intros [? ->]; eauto 6].
    intros (r' & b' & Hr' & Hb' & ? & Hl'). split; congruence. }
  unfold based_char. rewrite Hm, !orb_true_iff, !andb_true_iff, !bool_decide_eq_true.
  assert (Hu : c = "_"%char -> is_alpha c = true) by (by intros ->). naive_solver.
Qed.

Lemma based_state_step t base prev c : c <> "'"%char -> based_state t base prev -> based_state (t ++ [c]) base c.
Proof.
  intros Hc (r & Hr & Hb & Hl). exists (r ++ [c]). rewrite after_apos_snoc, base_of_snoc, last_snoc, Hr, Hb.
  by destruct (decide _).
Qed.

Lemma based_len_maximal base p : forall t prev,
  based_state t base prev ->
  let n := based_len base prev p in
  (forall l c r, take n p = l ++ c :: r -> based_char (t ++ l) c)
  /\ (forall c r, drop n p = c :: r -> ~ based_char (t ++ take n p) c).
Proof.
  induction p as [|c p IH]; intros t prev Hs n; [split; [intros []|]; done|]. unfold n. clear n. cbn [based_len].
  pose proof (based_char_spec t base prev c Hs) as Hc.
  destruct (is_alpha c || _ || _ || _) eqn:Hok.
  - assert (Hne : c <> "'"%char) by (intros ->; vm_compute in Hok; done).
    destruct (IH _ _ (based_state_step t base prev c Hne Hs)) as [H1 H2]. split.
    + cbn [take]. apply body_cons; [by apply Hc|exact H1].
    + cbn [take drop]. intros x r E. specialize (H2 x r E). by rewrite <- app_assoc in H2.
  - split; [intros []; done|]. intros x r [= <- _]. rewrite app_nil_r. by intros H%Hc.
Qed.

(** *** Comments and strings *)

Lemma occurs_cons x c t : occurs x (c :: t) <-> x `prefix_of` c :: t \/ occurs x t.
Proof.
  split.
  - intros ([|y l] & r & E); [left; by exists r|]. injection E as -> E. right. by exists l, r.
  - intros [[r E]|(l & r & ->)]; [by exists [], r|by exists (c :: l), r].
Qed.

Lemma comment_end_prefix c t : comment_end `prefix_of` c :: t <-> c = "*"%char /\ head t = Some "/"%char.
Proof.
  split; [intros [r [= -> ->]]; done|]. intros [-> Ht]. destruct t as [|d t]; [done|]. injection Ht as ->. by exists t.
Qed.

Lemma block_len_spec p :
  (exists body, take (block_len p) p = body ++ comment_end /\ ~ occurs comment_end (body ++ ["*"%char]))
  \/ block_len p = length p /\ ~ occurs comment_end p.
Proof.
  assert (Hnil : ~ occurs comment_end []) by (by intros ([] & r & ?)).
  induction p as [|c p IH]; [by right|]. cbn [block_len].
  destruct (bool_decide (c = "*"%char) && bool_decide (head p = Some "/"%char)) eqn:E.
  - left. apply andb_true_iff in E as [->%bool_decide_eq_true Hp%bool_decide_eq_true]. destruct p as [|d p]; [done|]. injection Hp as ->.
    exists []. split; [done|]. cbn [app]. rewrite occurs_cons, comment_end_prefix. naive_solver.
  - assert (Hc : ~ comment_end `prefix_of` c :: p).
    { rewrite comment_end_prefix. intros [-> Hp]. by rewrite !bool_decide_eq_true_2 in E. }
    destruct IH as [(body & Hb & Ho)|[Hn Ho]]; [left|right; cbn [length]; rewrite occurs_cons; naive_solver].
    exists (c :: body). cbn [take app]. split; [by rewrite Hb|]. rewrite occurs_cons. intros [Hp|Hp]; [|done]. apply Hc.
    rewrite comment_end_prefix in Hp |- *. destruct Hp as [-> Hp]. split; [done|]. destruct body as [|x body]; [done|].
    destruct (block_len p), p; try done. cbn in Hb. by injection Hb as -> _.
Qed.

Lemma string_len_spec p :
  match string_len p with
  | (n, true) => exists body, string_body body /\ take n p = body ++ [quote]
  | (n, false) => n = length p /\ exists body tail, string_body body /\ (tail = [] \/ tail = [backslash]) /\ p = body ++ tail
  end.
Proof.
  induction p as [|x|x y p IH1 IH2] using two_step_ind.
  - split; [done|]. exists [], []. split_and!; [constructor|by left|done].
  - cbn [string_len]. case_bool_decide as Hb; [subst; split; [done|]; exists [], [backslash]; split_and!; [constructor|by right|done]|].
    case_bool_decide as Hq; [subst; exists []; by split; [constructor|]|]. split; [done|]. exists [x], [].
    split_and!; [constructor; [done|done|constructor]|by left|done].
  - rewrite string_len_cons2. case_bool_decide as Hb; [|case_bool_decide as Hq].
    + subst. destruct (string_len p) as [n []].
      * destruct IH1 as (body & Hs & Ht). exists (backslash :: y :: body). split; [by constructor|]. cbn [take app]. by rewrite Ht.
      * destruct IH1 as (-> & body & tail & Hs & Ht & ->). split; [done|]. exists (backslash :: y :: body), tail.
        split_and!; [by constructor|done|done].
    + subst. exists []. split; [constructor|done].
    + destruct (string_len (y :: p)) as [n []].
      * destruct IH2 as (body & Hs & Ht). exists (x :: body). split; [by constructor|]. cbn [app]. by rewrite <- Ht.
      * destruct IH2 as (-> & body & tail & Hs & Ht & E). split; [done|]. exists (x :: body), tail.
        split_and!; [by constructor|done|]. by rewrite E.
Qed.

(** *** Symbols *)

Lemma operators_symbols : operators = symbols3 ++ symbols2.
Proof. reflexivity. Qed.

Lemma operator_prefix (x p : text) : x `prefix_of` p -> x = take (length x) p.
Proof. intros [r ->]. by rewrite take_app_length. Qed.

Lemma symbol_longest p : p <> [] -> longest_operator (take (symbol_len p) p) p.
Proof.
  intros Hp. unfold longest_operator, symbol_len. rewrite operators_symbols.
  assert (Hx : forall x, x ∈ symbols3 ++ symbols2 -> x `prefix_of` p ->
    (length x = 3 /\ take 3 p ∈ symbols3) \/ (length x = 2 /\ take 2 p ∈ symbols2)).
  { intros x [Hx|Hx]%elem_of_app Ht%operator_prefix; apply symbols_length in Hx as Hl; destruct Hl as [Hl _];
      rewrite Hl in Ht; [left|right]; (split; [done|]); by rewrite <- Ht. }
  case_bool_decide as H3; [left|case_bool_decide as H2; [left|right]].
  - pose proof (proj1 (symbols_length _) H3) as [Hl _]. split; [by apply elem_of_app; left|]. intros x Ho Ht. rewrite Hl.
    destruct (Hx x Ho Ht) as [[-> _]|[-> _]]; lia.
  - pose proof (proj2 (symbols_length _) H2) as [Hl _]. split; [by apply elem_of_app; right|]. intros x Ho Ht. rewrite Hl.
    destruct (Hx x Ho Ht) as [[_ ?]|[-> _]]; [done|lia].
  - split; [by destruct p|]. intros x Ho Ht. by destruct (Hx x Ho Ht) as [[_ ?]|[_ ?]].
Qed.

(** ** One round *)

(** *** Literals that start with an apostrophe *)

Lemma base_letter c : c ∈ ["b"; "B"; "o"; "O"; "d"; "D"; "h"; "H"]%char -> is_alpha c = true /\ (c ∉ ["s"; "S"]%char) /\ c <> "'"%char.
Proof.
  intros Hc. assert (H : Forall (fun c => is_alpha c = true /\ (c ∉ ["s"; "S"]%char) /\ c <> "'"%char) ["b"; "B"; "o"; "O"; "d"; "D"; "h"; "H"]%char)
    by (apply (bool_decide_unpack _); by vm_compute). rewrite Forall_forall in H. by apply H.
Qed.

Lemma sign_letter c : c ∈ ["s"; "S"]%char -> is_alpha c = true /\ c <> "'"%char.
Proof.
  intros Hc. assert (H : Forall (fun c => is_alpha c = true /\ c <> "'"%char) ["s"; "S"]%char) by (apply (bool_decide_unpack _); by vm_compute).
  rewrite Forall_forall in H. by apply H.
Qed.

(** The sign and the base are read. *)
Lemma based_prefix sign base r :
  base ∈ ["b"; "B"; "o"; "O"; "d"; "D"; "h"; "H"]%char -> (sign = [] \/ exists c, sign = [c] /\ c ∈ ["s"; "S"]%char) ->
  based_len base "'"%char (sign ++ base :: r) = length (sign ++ [base]) + based_len base base r
  /\ based_state ("'"%char :: sign ++ [base]) base base
  /\ forall l c u, sign ++ [base] = l ++ c :: u -> based_char ("'"%char :: l) c.
Proof.
  intros (Ha & Hns & Hna)%base_letter Hs. destruct Hs as [->|(c & -> & Hc)]; cbn [app based_len]; rewrite Ha.
  - cbn [orb]. split_and!; [done| |].
    + exists [base]. cbn [after_apos base_of]. rewrite (decide_False _ _ Hna), (decide_False _ _ Hns). done.
    + intros [|? [|? ?]] x u E; try discriminate E. injection E as <- _. right; by left.
  - destruct (sign_letter c Hc) as [Hca Hcq]. rewrite Hca. cbn [orb]. split_and!; [done| |].
    + exists [c; base]. cbn [after_apos base_of]. rewrite (decide_False _ _ Hna), (decide_False _ _ Hcq), (decide_True _ _ Hc), (decide_False _ _ Hns). done.
    + intros [|? [|? [|? ?]]] x u E; try discriminate E; [injection E as <- _|injection E as _ <- _]; right; by left.
Qed.

Lemma based_lexeme sign base r :
  base ∈ ["b"; "B"; "o"; "O"; "d"; "D"; "h"; "H"]%char -> (sign = [] \/ exists c, sign = [c] /\ c ∈ ["s"; "S"]%char) ->
  let p := "'"%char :: sign ++ base :: r in let n := S (based_len base "'"%char (sign ++ base :: r)) in
  lexeme (take n p) (drop n p) (o_token tk_number).
Proof.
  intros Hb Hs p n. eapply lx_based; [apply take_drop|by exists sign, base, r; split_and!|].
  destruct (based_prefix sign base r Hb Hs) as (En & Hst & Ht). destruct (based_len_maximal base r _ _ Hst) as [H1 H2].
  assert (Ep : sign ++ base :: r = (sign ++ [base]) ++ r) by (by rewrite <- app_assoc).
  unfold n, p. rewrite En, Ep. clear n p En Ep. set (t := sign ++ [base]) in *. cbn [take drop]. rewrite take_app_add, drop_app_add.
  exists (t ++ take (based_len base base r) r). split_and!; [done| |exact H2].
  intros l c u Hl. apply app_eq_inv in Hl as [(k & El & Hk)|(k & -> & Hk)]; [|exact (H1 k c u Hk)].
  destruct k as [|x k]; cbn [app] in Hk; [|injection Hk as <- _; by apply (Ht l c k)].
  rewrite app_nil_r in El. subst l. specialize (H1 [] c u (eq_sym Hk)). by rewrite app_nil_r in H1.
Qed.

Lemma apos_lexeme r :
  match apos_len r with
  | Some n => lexeme (take n ("'"%char :: r)) (drop n ("'"%char :: r)) (o_token tk_number)
  | None => ~ starts_number r
  end.
Proof.
  destruct r as [|v0 r]; [intros [(? & ? & ? & _)|([|? ?] & ? & ? & ? & _)]; done|]. cbn [apos_len]. rewrite one_of_spec.
  case_bool_decide as Hv; [by apply lx_bit|].
  assert (Hno : (forall sign base r', v0 :: r = sign ++ base :: r' -> base ∈ ["b"; "B"; "o"; "O"; "d"; "D"; "h"; "H"]%char ->
    (sign = [] \/ exists c, sign = [c] /\ c ∈ ["s"; "S"]%char) -> False) -> ~ starts_number (v0 :: r)).
  { intros Hno [(v & r' & [= <- _] & ?)|(sign & base & r' & E & Hb & Hs)]; [done|by eapply Hno]. }
  rewrite one_of_spec. case_bool_decide as Hs.
  - assert (Hns : v0 ∉ ["b"; "B"; "o"; "O"; "d"; "D"; "h"; "H"]%char) by (by intros (_ & ? & _)%base_letter).
    destruct r as [|base r]; cbn [head mbind option_bind].
    + apply Hno. intros sign base r' E Hb [->|(c & -> & _)]; [injection E as -> _; done|discriminate E].
    + rewrite one_of_spec. case_bool_decide as Hb; [apply (based_lexeme [v0]); eauto|].
      apply Hno. intros sign b r' E Hb' [->|(c & -> & _)]; [injection E as -> _; done|injection E as _ -> _; done].
  - cbn [head mbind option_bind]. rewrite one_of_spec. case_bool_decide as Hb; [apply (based_lexeme []); eauto|].
    apply Hno. intros sign b r' E Hb' [->|(c & -> & Hc)]; [injection E as -> _; done|injection E as -> _; done].
Qed.

(** *** The kinds in the order they are tried *)

Lemma lex_one_lexeme p : p <> [] -> lexeme (take (lex_one p).1 p) (drop (lex_one p).1 p) (lex_one p).2.
Proof.
  intros Hp. destruct p as [|c r]; [done|]. unfold lex_one. destruct (is_space c) eqn:Hsp; [by apply lx_space|].
  destruct (decide (c = "/"%char /\ head r = Some "/"%char)) as [[-> Hr]|Hline].
  { rewrite !bool_decide_eq_true_2 by done. destruct r as [|d r]; [done|]. injection Hr as ->. cbn [andb fst snd]. apply lx_line.
    apply (span_maximal (fun c => negb (bool_decide (c = newline))) _ ["/"; "/"]%char r). intros c. by rewrite negb_true_iff, bool_decide_eq_false. }
  assert (E1 : bool_decide (c = "/"%char) && bool_decide (head r = Some "/"%char) = false).
  { apply not_true_is_false. rewrite andb_true_iff, !bool_decide_eq_true. done. }
  rewrite E1. destruct (decide (c = "/"%char /\ head r = Some "*"%char)) as [[-> Hr]|Hblock].
  { rewrite !bool_decide_eq_true_2 by done. destruct r as [|d r]; [done|]. injection Hr as ->. cbn [andb fst snd tail take drop].
    destruct (block_len_spec r) as [(body & -> & Hb)|[-> Ho]]; [by apply lx_block|]. rewrite take_ge, drop_ge by done. by apply lx_open_block. }
  assert (E2 : bool_decide (c = "/"%char) && bool_decide (head r = Some "*"%char) = false).
  { apply not_true_is_false. rewrite andb_true_iff, !bool_decide_eq_true. done. }
  rewrite E2. clear E1 E2. case_bool_decide as Hq.
  { subst c. pose proof (string_len_spec r) as Hs. destruct (string_len r) as [n []]; cbn [fst snd take drop].
    - destruct Hs as (body & Hb & ->). by apply lx_string.
    - destruct Hs as (-> & body & tail & Hb & Ht & ->). rewrite take_ge, drop_ge by done. by apply lx_open_string. }
  destruct (is_alpha c || bool_decide (c = "$"%char)) eqn:Hid.
  { cbn [fst snd]. apply (lx_identifier c); [by rewrite orb_true_iff, bool_decide_eq_true in Hid|].
    by apply (span_maximal is_ident_continue _ [c] r). }
  apply orb_false_iff in Hid as [Ha Hd%bool_decide_eq_false].
  assert (Hsym : is_digit c = false -> ~ (c = "'"%char /\ starts_number r) ->
    lexeme (take (symbol_len (c :: r)) (c :: r)) (drop (symbol_len (c :: r)) (c :: r)) (o_token tk_symbol)).
  { intros Hdig Hn. eapply lx_symbol; [apply take_drop| |by apply symbol_longest]. split_and!; try done. naive_solver. }
  pose proof (apos_lexeme r) as Hapos. case_bool_decide as Hc.
  - subst c. destruct (apos_len r) as [n|]; [exact Hapos|]. apply Hsym; [done|naive_solver].
  - destruct (is_digit c) eqn:Hdig; [|apply Hsym; naive_solver]. cbn [fst snd]. apply (lx_number c); [done|].
    destruct (number_len_maximal r [c] false false false "000"%char c) as [H1 H2].
    { unfold number_state. cbn [after_apos]. by rewrite decide_False. }
    exists (take (number_len false false false "000"%char c r) r). by split_and!.
Qed.

(** ** The source *)

(** The tokens of a list of pieces, each with the position of its first
    character. *)
Fixpoint placed (smap : option (list (Z * Z))) (off : nat) (lc : Z * Z) (pieces : list (text * outcome)) : list token :=
  match pieces with
  | [] => [mk_token tk_eof "" lc.1 lc.2]
  | (b, o) :: pieces =>
      let rlc := remap_line_col smap off lc in
      let tok k := [mk_token k (String.string_of_list_ascii b) rlc.1 rlc.2] in
      match o with o_skip => [] | o_token k => tok k | o_unterminated => tok tk_symbol end
      ++ placed smap (off + length b) (bumps lc b) pieces
  end.

(** The errors: one for each string that is not closed, where it starts. *)
Fixpoint placed_errors (smap : option (list (Z * Z))) (off : nat) (lc : Z * Z) (pieces : list (text * outcome)) : list compile_error :=
  match pieces with
  | [] => []
  | (b, o) :: pieces =>
      let rlc := remap_line_col smap off lc in
      match o with o_unterminated => [mk_error "unterminated string literal" off rlc.1 rlc.2] | _ => [] end
      ++ placed_errors smap (off + length b) (bumps lc b) pieces
  end.

Lemma lex_loop_cut f smap off lc p out :
  length p <= f ->
  exists pieces, cut p pieces
    /\ lr_tokens (lex_loop f smap off lc p out) = lr_tokens out ++ placed smap off lc pieces
    /\ lr_errors (lex_loop f smap off lc p out) = lr_errors out ++ placed_errors smap off lc pieces.
Proof.
  revert off lc p out. induction f as [|f IH]; intros off lc p out Hf; destruct p as [|c p]; [|simpl in Hf; lia| |].
  1, 2: exists []; cbn [placed_errors]; rewrite app_nil_r; by split; [constructor|].
  pose proof (lex_one_len (c :: p) ltac:(done)) as Hn. pose proof (lex_one_lexeme (c :: p) ltac:(done)) as Hs. cbn [lex_loop].
  destruct (lex_one (c :: p)) as [n o]. cbn [fst snd] in Hn, Hs.
  assert (Hb : length (take n (c :: p)) = n) by (rewrite length_take; lia).
  match goal with |- context [lex_loop f smap ?off' ?lc' ?p' ?out'] =>
    destruct (IH off' lc' p' out') as (pieces & Hcut & Ht & He) end; [rewrite length_drop; simpl in *; lia|].
  exists ((take n (c :: p), o) :: pieces). cbn [placed placed_errors]. rewrite Hb, Ht, He. split_and!.
  - rewrite <- (take_drop n (c :: p)) at 1. apply cut_cons; [|done|done]. intros E. rewrite E in Hb. simpl in Hb. lia.
  - destruct o; cbn [lr_tokens app]; by rewrite <- ?app_assoc.
  - destruct o; cbn [lr_errors app]; by rewrite <- ?app_assoc.
Qed.

(** C33. The lexer cuts a source by the lexical grammar.  Every source is the sequence of its pieces: a blank; a line
    comment, up to the end of the line; a block comment, up to its first end, or to the end of the source if it has none;
    a string, up to its first quote that no backslash escapes, or to the end of the source; an identifier or a number, as
    long as its characters go on (a minus only after the letter of a decimal base, as in [8'sd-1]); or a symbol, the
    longest operator there is, else one character.  The tokens are exactly the pieces that are not blanks or comments, in
    order, with their kind, their text and the line and column of their first character (through the source map where it
    has an entry), followed by one end token; the errors are exactly the strings that are not closed, each with the
    position where it starts. *)
Theorem lex_covers_source (src : text) (smap : option (list (Z * Z))) :
  exists pieces : list (text * outcome),
    cut src pieces
    /\ lr_tokens (lex src smap) = placed smap 0 (1, 1)%Z pieces
    /\ lr_errors (lex src smap) = placed_errors smap 0 (1, 1)%Z pieces.
Proof. by apply (lex_loop_cut (length src) smap 0 (1, 1)%Z src (mk_lex [] [])). Qed.
