(* ===== verification/VPre.v ===== *)
(** * Verilog: the preprocessor

    [preprocess] of verilog/digital/digital.h: line by line, directives change
    the table of macros and the stack of conditional blocks, other lines are
    copied with their macros expanded, and lines of inactive blocks are left
    blank.  The output has for each character the line and column it comes from
    ([pr_source_map]), which the lexer uses for its tokens.

    The lambdas of [preprocess] are definitions here; what they share by
    reference is passed: the table of macros, the stack of names under expansion
    (a lambda pops what it pushed on each of its paths, so that it is an
    argument) and the errors, which are returned in the order in which they are
    pushed.  A pointer into a text is the rest of the text with its offset. *)

From S2P Require Import Prelude VLiteral VLex.
From Stdlib Require Import ZArith Lia Ascii.

#[local] Open Scope Z_scope.
#[local] Open Scope list_scope.

#[global] Instance ascii_countable : Countable ascii :=
  inj_countable' N_of_ascii ascii_of_N ascii_N_embedding.

(** ** Data *)

Record macro_def := mk_macro {
  md_function_like : bool;
  md_params : list text;
  md_body : text;
}.

Record if_frame := mk_if_frame {
  fr_parent_active : bool;
  fr_cond : bool;
  fr_active : bool;
  fr_seen_else : bool;
}.

(** Text with the position each character comes from. *)
Record expand_result := mk_expanded { er_text : text; er_map : list (Z * Z) }.

(** [preprocess_result] with the local state of [preprocess]; the innermost
    conditional block is the head of [pr_ifs]. *)
Record pre_state := mk_pre {
  pr_output : text;
  pr_source_map : list (Z * Z);
  pr_errors : list compile_error;
  pr_macros : gmap text macro_def;
  pr_ifs : list if_frame;
}.

Definition with_macros (s : pre_state) (macros : gmap text macro_def) : pre_state :=
  mk_pre (pr_output s) (pr_source_map s) (pr_errors s) macros (pr_ifs s).
Definition with_ifs (s : pre_state) (ifs : list if_frame) : pre_state :=
  mk_pre (pr_output s) (pr_source_map s) (pr_errors s) (pr_macros s) ifs.
Definition with_errors (s : pre_state) (errs : list compile_error) : pre_state :=
  mk_pre (pr_output s) (pr_source_map s) (pr_errors s ++ errs) (pr_macros s) (pr_ifs s).

Definition carriage_return : ascii := "013"%char.
Definition backquote : ascii := "096"%char.

Definition is_char (c d : ascii) : bool := bool_decide (c = d).

(** A conversion to [uint32_t]. *)
Definition u32 (z : Z) : Z := z mod 2 ^ 32.

(** ** Scanning *)

Definition current_active (s : pre_state) : bool :=
  match pr_ifs s with [] => true | fr :: _ => fr_active fr end.

(** The name at [p] (empty if there is none) and what follows. *)
Definition parse_ident (p : text) : text * text :=
  match p with
  | c :: r =>
      if is_alpha c || is_char c "$" then
        let n := S (span is_ident_continue r) in (take n p, drop n p)
      else ([], p)
  | [] => ([], [])
  end.

(** A space that does not end a line. *)
Definition is_blank (c : ascii) : bool := is_space c && negb (is_char c newline) && negb (is_char c carriage_return).

Definition skip_spaces (p : text) : text := drop (span is_blank p) p.

(** The text without blanks at its ends, and its offset in the text. *)
Definition trim_spaces (v : text) : nat * text :=
  let b := span is_blank v in
  let t := drop b v in
  (b, take (length t - span is_blank (rev t)) t).

(** The loop over the parameters of a macro: whether the list is right, the
    parameters and the place where reading stops. *)
Fixpoint param_list_loop (fuel : nat) (p : text) (params : list text) : bool * list text * text :=
  match fuel with
  | O => (false, params, p)
  | S fuel =>
      let '(id, p) := parse_ident (skip_spaces p) in
      if bool_decide (id = []) then (false, params, p)
      else
        let params := params ++ [id] in
        let p := skip_spaces p in
        match p with
        | c :: r =>
            if is_char c "," then param_list_loop fuel r params
            else if is_char c ")" then (true, params, r)
            else (false, params, p)
        | [] => (false, params, p)
        end
  end.

Definition parse_param_list_after_lparen (p : text) : bool * list text * text :=
  match p with
  | c :: r =>
      if is_char c "(" then
        let p := skip_spaces r in
        match p with
        | d :: r' => if is_char d ")" then (true, [], r') else param_list_loop (length p) p []
        | [] => (false, [], p)
        end
      else (false, [], p)
  | [] => (false, [], p)
  end.

(** The first parameter with this name that has an argument. *)
Fixpoint find_arg (tok : text) (params args : list text) : option text :=
  match params, args with
  | x :: params, a :: args => if bool_decide (tok = x) then Some a else find_arg tok params args
  | _, _ => None
  end.

Fixpoint substitute_loop (fuel : nat) (params args : list text) (p : text) : text :=
  match fuel, p with
  | _, [] | O, _ => []
  | S fuel, c :: r =>
      if is_alpha c || is_char c "_" || is_char c "$" then
        let n := S (span is_ident_continue r) in
        default (take n p) (find_arg (take n p) params args) ++ substitute_loop fuel params args (drop n p)
      else c :: substitute_loop fuel params args r
  end.

Definition substitute_params (body : text) (params args : list text) : text :=
  substitute_loop (length body) params args body.

(** *** The arguments of a macro *)

(** The locals of [parse_macro_call_args]; an argument is its offset and its
    text, the last one ([ms_begin], [ms_arg]) still growing. *)
Record macro_scan := mk_scan {
  ms_views : list (nat * text);
  ms_begin : nat;
  ms_arg : text;
  ms_paren_depth : nat;
  ms_brace_depth : nat;
  ms_bracket_depth : nat;
  ms_in_string : bool;
  ms_saw_comma : bool;
}.

(** [c] belongs to the argument that is being read. *)
Definition scan_take (cs : text) (s : macro_scan) : macro_scan :=
  mk_scan (ms_views s) (ms_begin s) (ms_arg s ++ cs) (ms_paren_depth s) (ms_brace_depth s) (ms_bracket_depth s)
    (ms_in_string s) (ms_saw_comma s).
Definition scan_depths (paren brace bracket : nat) (s : macro_scan) : macro_scan :=
  mk_scan (ms_views s) (ms_begin s) (ms_arg s) paren brace bracket (ms_in_string s) (ms_saw_comma s).
Definition scan_string (b : bool) (s : macro_scan) : macro_scan :=
  mk_scan (ms_views s) (ms_begin s) (ms_arg s) (ms_paren_depth s) (ms_brace_depth s) (ms_bracket_depth s) b
    (ms_saw_comma s).
(** The argument ends at a comma at offset [off]. *)
Definition scan_comma (off : nat) (s : macro_scan) : macro_scan :=
  mk_scan (ms_views s ++ [(ms_begin s, ms_arg s)]) (S off) [] (ms_paren_depth s) (ms_brace_depth s)
    (ms_bracket_depth s) (ms_in_string s) true.

Definition at_top (s : macro_scan) : bool :=
  bool_decide (ms_paren_depth s = 0%nat) && bool_decide (ms_brace_depth s = 0%nat)
  && bool_decide (ms_bracket_depth s = 0%nat).

(** The arguments when the closing parenthesis is found: [NAME()] has none. *)
Definition scan_close (s : macro_scan) : list (nat * text) :=
  if bool_decide (ms_views s = []) && negb (ms_saw_comma s) && bool_decide ((trim_spaces (ms_arg s)).2 = [])
  then ms_views s else ms_views s ++ [(ms_begin s, ms_arg s)].

(** From offset [off] on: the arguments and what follows the closing
    parenthesis; [None] if there is none. *)
Fixpoint scan_args (p : text) (off : nat) (s : macro_scan) : option (list (nat * text) * nat * text) :=
  match p with
  | [] => None
  | c :: r =>
      let '(paren, brace, bracket) := (ms_paren_depth s, ms_brace_depth s, ms_bracket_depth s) in
      let go s := scan_args r (S off) (scan_take [c] s) in
      if ms_in_string s then
        if is_char c backslash then
          match r with
          | d :: r' => scan_args r' (S (S off)) (scan_take [c; d] s)
          | [] => go s
          end
        else if is_char c quote then go (scan_string false s)
        else go s
      else if is_char c quote then go (scan_string true s)
      else if is_char c "(" then go (scan_depths (S paren) brace bracket s)
      else if is_char c ")" then
        if at_top s then Some (scan_close s, S off, r) else go (scan_depths (pred paren) brace bracket s)
      else if is_char c "{" then go (scan_depths paren (S brace) bracket s)
      else if is_char c "}" then go (scan_depths paren (pred brace) bracket s)
      else if is_char c "[" then go (scan_depths paren brace (S bracket) s)
      else if is_char c "]" then go (scan_depths paren brace (pred bracket) s)
      else if is_char c "," && at_top s then scan_args r (S off) (scan_comma off s)
      else go s
  end.

(** [p] at offset [off] is the opening parenthesis. *)
Definition parse_macro_call_args (p : text) (off : nat) : option (list (nat * text) * nat * text) :=
  match p with
  | c :: r => if is_char c "(" then scan_args r (S off) (mk_scan [] (S off) [] 0 0 0 false false) else None
  | [] => None
  end.

(** ** Expansion of macros *)

Definition max_macro_depth : nat := 32.

Definition append_char (r : expand_result) (ch : ascii) (l c : Z) : expand_result :=
  mk_expanded (er_text r ++ [ch]) (er_map r ++ [(u32 l, u32 c)]).

Definition append_passthrough (r : expand_result) (v : text) (l c0 : Z) : expand_result :=
  mk_expanded (er_text r ++ v) (er_map r ++ imap (fun i _ => (u32 l, u32 (c0 + Z.of_nat i))) v).

Definition append_expanded (r er : expand_result) : expand_result :=
  mk_expanded (er_text r ++ er_text er) (er_map r ++ er_map er).

Definition expanded : Type := expand_result * list compile_error.

Definition no_text : expand_result := mk_expanded [] [].

Section Expand.
Context (macros : gmap text macro_def).
(** The recursive call one level deeper: stack of names, text, line, column. *)
Context (self : list text -> text -> Z -> Z -> expanded).

(** The arguments of a call, trimmed and expanded in turn. *)
Fixpoint expand_args (stack : list text) (line_no col_base : Z) (views : list (nat * text)) : list text * list compile_error :=
  match views with
  | [] => ([], [])
  | (o, v) :: views =>
      let '(b, tv) := trim_spaces v in
      let '(er, errs) := self stack tv line_no (col_base + Z.of_nat (o + b)) in
      let '(args, errs') := expand_args stack line_no col_base views in
      (er_text er :: args, errs ++ errs')
  end.

(** The loop from offset [off] of the text on. *)
Fixpoint expand_loop (fuel : nat) (stack : list text) (line_no col_base : Z) (off : nat) (p : text)
  (r : expand_result) (errs : list compile_error) : expanded :=
  match fuel, p with
  | _, [] | O, _ => (r, errs)
  | S fuel, c :: rest =>
      let col := col_base + Z.of_nat off in
      let literally := expand_loop fuel stack line_no col_base (S off) rest (append_char r c line_no col) errs in
      if negb (is_char c backquote) then literally
      else
        let '(name, q) := parse_ident rest in
        if bool_decide (name = []) then literally
        else
          let qoff := (S off + length name)%nat in
          let skip msg := expand_loop fuel stack line_no col_base qoff q r (errs ++ [mk_error msg 0 line_no col]) in
          match macros !! name with
          | None => skip "undefined Verilog macro"
          | Some md =>
              if bool_decide (name ∈ stack) then skip "recursive macro expansion"
              else
                let stack' := stack ++ [name] in
                if md_function_like md then
                  if negb (bool_decide (head q = Some "("%char)) then skip "function-like macro requires '('"
                  else
                    match parse_macro_call_args q qoff with
                    | None => skip "unterminated macro argument list"
                    | Some (views, call_off, call_p) =>
                        let '(args, errs_a) := expand_args stack' line_no col_base views in
                        let errs_n :=
                          if bool_decide (length args = length (md_params md)) then []
                          else [mk_error "macro argument count mismatch" 0 line_no col] in
                        let '(repl, errs_r) :=
                          self stack' (substitute_params (md_body md) (md_params md) args) line_no col in
                        expand_loop fuel stack line_no col_base call_off call_p (append_expanded r repl)
                          (errs ++ errs_a ++ errs_n ++ errs_r)
                    end
                else
                  let '(repl, errs_r) := self stack' (md_body md) line_no col in
                  expand_loop fuel stack line_no col_base qoff q (append_expanded r repl) (errs ++ errs_r)
          end
  end.
End Expand.

(** [levels] is [max_macro_depth + 1 - depth]. *)
Fixpoint expand_text (macros : gmap text macro_def) (levels : nat) (stack : list text) (t : text) (line_no col_base : Z) :
  expanded :=
  match levels with
  | O =>
      (append_passthrough no_text t line_no col_base, [mk_error "macro expansion depth exceeded" 0 line_no col_base])
  | S levels => expand_loop macros (expand_text macros levels) (length t) stack line_no col_base 0 t no_text []
  end.

(** *** Lines with strings and comments *)

(** The characters up to a string or a comment. *)
Fixpoint plain_len (p : text) : nat :=
  match p with
  | [] => 0
  | c :: r =>
      if is_char c quote
         || (is_char c "/" && (bool_decide (head r = Some "/"%char) || bool_decide (head r = Some "*"%char)))
      then 0 else S (plain_len r)
  end.

(** The loop at offset [i] of the line; [in_block]: inside a block comment. *)
Fixpoint line_loop (fuel : nat) (macros : gmap text macro_def) (line_no : Z) (i : nat) (p : text) (in_block : bool)
  (r : expand_result) (errs : list compile_error) : expanded * bool :=
  match fuel, p with
  | _, [] | O, _ => ((r, errs), in_block)
  | S fuel, c :: rest =>
      let col := 1 + Z.of_nat i in
      let next n in_block r errs := line_loop fuel macros line_no (i + n) (drop n p) in_block r errs in
      let copy n := append_passthrough r (take n p) line_no col in
      if in_block then
        let n := block_len p in next n (negb (bool_decide (n < length p)%nat)) (copy n) errs
      else
        let n := plain_len p in
        if bool_decide (0 < n)%nat then
          let '(er, errs') := expand_text macros (S max_macro_depth) [] (take n p) line_no col in
          next n in_block (append_expanded r er) (errs ++ errs')
        else if is_char c quote then
          let n := S (string_len rest).1 in next n in_block (copy n) errs
        else if is_char c "/" && bool_decide (head rest = Some "/"%char) then ((copy (length p), errs), in_block)
        else if is_char c "/" && bool_decide (head rest = Some "*"%char) then
          let n := S (S (block_len (tail rest))) in next n (bool_decide (length p <= n)%nat) (copy n) errs
        else next 1%nat in_block (append_char r c line_no col) errs
  end.

Definition expand_line_with_comments (macros : gmap text macro_def) (line_text : text) (line_no : Z) (in_block : bool) :
  expanded * bool :=
  line_loop (length line_text) macros line_no 0 line_text in_block no_text [].

(** ** Directives *)

Definition do_error (s : pre_state) (msg : string) (line col : Z) : pre_state :=
  with_errors s [mk_error msg 0 line col].

(** A character of the output that ends line [line]. *)
Definition emit_newline (s : pre_state) (line : Z) : pre_state :=
  mk_pre (pr_output s ++ [newline]) (pr_source_map s ++ [(u32 line, 1)]) (pr_errors s) (pr_macros s) (pr_ifs s).

Definition emit (s : pre_state) (er : expand_result) : pre_state :=
  mk_pre (pr_output s ++ er_text er) (pr_source_map s ++ er_map er) (pr_errors s) (pr_macros s) (pr_ifs s).

Definition do_define (s : pre_state) (line col0 : Z) (t : text) : pre_state :=
  if negb (current_active s) then s
  else
    let '(name, t) := parse_ident (skip_spaces t) in
    if bool_decide (name = []) then do_error s "expected macro name after `define" line col0
    else if bool_decide (head t = Some "("%char) then
      let '(ok, params, t) := parse_param_list_after_lparen t in
      let s' := if ok then s else do_error s "invalid macro parameter list in `define" line col0 in
      with_macros s' (<[name := mk_macro true (if ok then params else []) (skip_spaces t)]> (pr_macros s'))
    else with_macros s (<[name := mk_macro false [] (skip_spaces t)]> (pr_macros s)).

Definition do_undef (s : pre_state) (line col0 : Z) (t : text) : pre_state :=
  if current_active s then
    let name := (parse_ident (skip_spaces t)).1 in
    if bool_decide (name = []) then do_error s "expected macro name after `undef" line col0
    else with_macros s (delete name (pr_macros s))
  else s.

(** [`ifdef] when [sense], [`ifndef] otherwise. *)
Definition do_ifdef (s : pre_state) (sense : bool) (t : text) : pre_state :=
  let name := (parse_ident (skip_spaces t)).1 in
  let defined := if bool_decide (name = []) then false else bool_decide (is_Some (pr_macros s !! name)) in
  let cond := if sense then defined else negb defined in
  let parent := current_active s in
  with_ifs s (mk_if_frame parent cond (parent && cond) false :: pr_ifs s).

Definition do_else (s : pre_state) (line col0 : Z) : pre_state :=
  match pr_ifs s with
  | [] => do_error s "`else without matching `ifdef/`ifndef" line col0
  | fr :: ifs =>
      if fr_seen_else fr then do_error s "multiple `else in the same conditional block" line col0
      else
        with_ifs s (mk_if_frame (fr_parent_active fr) (fr_cond fr) (fr_parent_active fr && negb (fr_cond fr)) true :: ifs)
  end.

Definition do_endif (s : pre_state) (line col0 : Z) : pre_state :=
  match pr_ifs s with
  | [] => do_error s "`endif without matching `ifdef/`ifndef" line col0
  | _ :: ifs => with_ifs s ifs
  end.

Section Process.
(** [opt.include_resolver], a function of the caller: the text of a file. *)
Context (include_resolver : option (text -> option text)).
(** [process_text] one level deeper; [None] at the depth limit. *)
Context (self : option (text -> pre_state -> pre_state)).

(** The state and whether the line is to be replaced by a line end. *)
Definition do_include (s : pre_state) (line col0 : Z) (t : text) : pre_state * bool :=
  let fail msg := (do_error s msg line col0, true) in
  if negb (current_active s) then (s, true)
  else
    match self, include_resolver with
    | None, _ => fail "`include depth limit exceeded"
    | _, None => fail "`include requires an include_resolver"
    | Some process, Some resolve =>
        match skip_spaces t with
        | [] => fail "expected path after `include"
        | open :: t =>
            let close := if is_char open "<" then ">"%char else quote in
            if negb (is_char open quote) && negb (is_char open "<") then 
              fail ("expected `include " +:+ String.String quote ("path" +:+ String.String quote " or `include <path>"))%string
            else
              let n := span (fun c => negb (is_char c close)) t in
              if bool_decide (drop n t = []) then fail "unterminated `include path"
              else
                match resolve (take n t) with
                | None => fail "failed to resolve `include"
                | Some included => (process included s, false)
                end
        end
    end.

(** The directive [kw] with the rest [t] of its line. *)
Definition run_directive (s : pre_state) (line col0 : Z) (kw t : text) : pre_state * bool :=
  let kw_eq k := bool_decide (kw = String.list_ascii_of_string k) in
  if kw_eq "define"%string then (do_define s line col0 t, true)
  else if kw_eq "undef"%string then (do_undef s line col0 t, true)
  else if kw_eq "ifdef"%string || kw_eq "ifndef"%string then (do_ifdef s (kw_eq "ifdef"%string) t, true)
  else if kw_eq "else"%string then (do_else s line col0, true)
  else if kw_eq "endif"%string then (do_endif s line col0, true)
  else if kw_eq "include"%string then do_include s line col0 t
  else if kw_eq "timescale"%string || kw_eq "default_nettype"%string then (s, true)
  else (do_error s "unsupported Verilog preprocessor directive" line col0, true).

(** A line whose first character is a backquote: [t] is what follows it. *)
Definition do_directive (s : pre_state) (line col0 : Z) (t : text) : pre_state * bool :=
  let '(kw, t) := parse_ident (drop (span is_space t) t) in run_directive s line col0 kw t.

(** The line without a carriage return at its end. *)
Definition strip_cr (l : text) : text :=
  if bool_decide (last l = Some carriage_return) then take (length l - 1) l else l.

(** A line that is not a directive. *)
Definition copy_line (s : pre_state) (line : Z) (in_block : bool) (l : text) : pre_state * bool :=
  if current_active s then
    let '((er, errs), in_block) := expand_line_with_comments (pr_macros s) l line in_block in
    (emit_newline (emit (with_errors s errs) er) line, in_block)
  else (emit_newline s line, in_block).

(** One line; [in_block] is [in_block_comment]. *)
Definition process_line (s : pre_state) (line : Z) (in_block : bool) (l : text) : pre_state * bool :=
  let l := strip_cr l in
  let n := span is_blank l in
  match drop n l with
  | c :: t =>
      if negb in_block && is_char c backquote then
        let '(s, nl) := do_directive s line (Z.of_nat n + 1) t in
        (if nl then emit_newline s line else s, in_block)
      else copy_line s line in_block l
  | [] => copy_line s line in_block l
  end.

Fixpoint process_loop (fuel : nat) (line : Z) (in_block : bool) (p : text) (s : pre_state) : pre_state :=
  match fuel, p with
  | _, [] | O, _ => s
  | S fuel, _ =>
      let n := span (fun c => negb (is_char c newline)) p in
      let '(s, in_block) := process_line s line in_block (take n p) in
      process_loop fuel (line + 1) in_block (drop (S n) p) s
  end.
End Process.

(** [levels] is [include_depth_limit - depth]. *)
Fixpoint process_text (include_resolver : option (text -> option text)) (levels : nat) (t : text) (s : pre_state) : pre_state :=
  process_loop include_resolver
    match levels with O => None | S levels => Some (process_text include_resolver levels) end
    (length t) 1 false t s.

Record preprocess_options := mk_pre_options {
  po_include_resolver : option (text -> option text);
  po_include_depth_limit : nat;
}.

Definition empty_pre : pre_state := mk_pre [] [] [] ∅ [].

Definition preprocess (src : text) (opt : preprocess_options) : pre_state :=
  process_text (po_include_resolver opt) (po_include_depth_limit opt) src empty_pre.

Definition default_options : preprocess_options := mk_pre_options None 32.

(** ** Lines stay lines *)

(** A text inside a line. *)
Definition one_line (t : text) : Prop := newline ∉ t.

Definition macros_one_line (macros : gmap text macro_def) : Prop := map_Forall (fun _ md => one_line (md_body md)) macros.

(** Every character has a position, all in line [l]. *)
Definition in_line (l : Z) (r : expand_result) : Prop := one_line (er_text r) /\ fst <$> er_map r = replicate (length (er_text r)) (u32 l).

Lemma one_line_app t u : one_line (t ++ u) <-> one_line t /\ one_line u.
Proof. unfold one_line. rewrite elem_of_app. tauto. Qed.

Lemma one_line_take n t : one_line t -> one_line (take n t).
Proof. intros H Hin. apply H. rewrite <- (take_drop n t). apply elem_of_app. by left. Qed.

Lemma one_line_drop n t : one_line t -> one_line (drop n t).
Proof. intros H Hin. apply H. rewrite <- (take_drop n t). apply elem_of_app. by right. Qed.

Lemma one_line_cons c t : one_line (c :: t) <-> c ≠ newline /\ one_line t.
Proof. unfold one_line. rewrite elem_of_cons. naive_solver. Qed.

#[local] Hint Resolve one_line_take one_line_drop : core.

Lemma parse_ident_drop p : exists n, (parse_ident p).1 = take n p /\ (parse_ident p).2 = drop n p.
Proof.
  destruct p as [|c r]; cbn [parse_ident]; [by exists 0%nat|].
  destruct (is_alpha c || _); [by eexists|by exists 0%nat].
Qed.

Lemma one_line_ident p : one_line p -> one_line (parse_ident p).1 /\ one_line (parse_ident p).2.
Proof. intros Hp. destruct (parse_ident_drop p) as (n & -> & ->). auto. Qed.

Lemma one_line_trim v : one_line v -> one_line (trim_spaces v).2.
Proof. unfold trim_spaces. cbn [snd]. auto. Qed.

Lemma one_line_skip v : one_line v -> one_line (skip_spaces v).
Proof. unfold skip_spaces. auto. Qed.

Lemma find_arg_one_line tok params args a : Forall one_line args -> find_arg tok params args = Some a -> one_line a.
Proof.
  intros Hargs. revert params. induction Hargs as [|b args Hb _ IH]; intros [|x params]; cbn [find_arg]; try done.
  case_bool_decide; [naive_solver|apply IH].
Qed.

Lemma substitute_one_line fuel params args p :
  Forall one_line args -> one_line p -> one_line (substitute_loop fuel params args p).
Proof.
  intros Hargs. revert p. induction fuel as [|fuel IH]; intros [|c r] Hp; cbn [substitute_loop]; try apply not_elem_of_nil.
  destruct (is_alpha c || _ || _).
  - rewrite one_line_app. split; [|by apply IH, (one_line_drop _ (c :: r))].
    destruct (find_arg _ _ _) as [a|] eqn:Ha; cbn [default]; [by eapply find_arg_one_line|].
    by apply (one_line_take (S (span is_ident_continue r)) (c :: r)).
  - apply one_line_cons in Hp as [Hc Hr]. apply one_line_cons. auto.
Qed.

(** The arguments that were found and the one being read are in one line. *)
Definition scan_one_line (s : macro_scan) : Prop :=
  Forall (fun v => one_line v.2) (ms_views s) /\ one_line (ms_arg s).

Lemma scan_args_one_line p off s views n q :
  one_line p -> scan_one_line s -> scan_args p off s = Some (views, n, q) ->
  Forall (fun v => one_line v.2) views /\ one_line q.
Proof.
  revert off s. induction p as [|c|c d p IH1 IH2] using two_step_ind; intros off s Hp [Hv Ha]; [done|..].
  all: assert (Hgo : forall s', ms_views s' = ms_views s -> ms_arg s' = ms_arg s -> scan_one_line (scan_take [c] s'))
    by (intros s' Hs1 Hs2; split; cbn [scan_take ms_views ms_arg];
      [by rewrite Hs1|rewrite Hs2; apply one_line_app; split; [done|]; apply one_line_cons in Hp as [? _];
        apply one_line_cons; split; [done|apply not_elem_of_nil]]).
  all: assert (Hcl : Forall (fun v => one_line v.2) (scan_close s))
    by (unfold scan_close; destruct (_ && _); [done|]; apply Forall_app; auto).
  all: apply one_line_cons in Hp as Hp'; destruct Hp' as [_ Hp'].
  - cbn [scan_args].
    repeat match goal with |- context [if ?b then _ else _] => destruct b end; try done; by intros [= <- _ <-].
  - apply one_line_cons in Hp' as Hp2; destruct Hp2 as [Hd Hp2].
    change (scan_args (c :: d :: p) off s) with
      (let '(paren, brace, bracket) := (ms_paren_depth s, ms_brace_depth s, ms_bracket_depth s) in
       let go s := scan_args (d :: p) (S off) (scan_take [c] s) in
       if ms_in_string s then
         if is_char c backslash then scan_args p (S (S off)) (scan_take [c; d] s)
         else if is_char c quote then go (scan_string false s) else go s
       else if is_char c quote then go (scan_string true s)
       else if is_char c "(" then go (scan_depths (S paren) brace bracket s)
       else if is_char c ")" then
         if at_top s then Some (scan_close s, S off, d :: p) else go (scan_depths (pred paren) brace bracket s)
       else if is_char c "{" then go (scan_depths paren (S brace) bracket s)
       else if is_char c "}" then go (scan_depths paren (pred brace) bracket s)
       else if is_char c "[" then go (scan_depths paren brace (S bracket) s)
       else if is_char c "]" then go (scan_depths paren brace (pred bracket) s)
       else if is_char c "," && at_top s then scan_args (d :: p) (S off) (scan_comma off s)
       else go s).
    cbv zeta beta iota.
    repeat match goal with |- context [if ?b then _ else _] => destruct b end;
      try (by apply IH2; [|apply Hgo]); try (by intros [= <- _ <-]).
    + apply IH1; [done|]. split; [done|]. cbn [scan_take ms_arg]. apply one_line_app. split; [done|].
      apply one_line_cons in Hp as [? _]. rewrite !one_line_cons. split_and!; [done..|apply not_elem_of_nil].
    + apply IH2; [done|]. split; [|apply not_elem_of_nil]. cbn [scan_comma ms_views]. apply Forall_app; auto.
Qed.

Lemma append_char_in_line l r ch c : in_line l r -> ch ≠ newline -> in_line l (append_char r ch l c).
Proof.
  intros [Hr Hm] Hch. split; cbn [append_char er_text er_map].
  - apply one_line_app. split; [done|]. by apply not_elem_of_cons; split; [|apply not_elem_of_nil].
  - by rewrite fmap_app, Hm, length_app, replicate_add.
Qed.

Lemma append_expanded_in_line l r er : in_line l r -> in_line l er -> in_line l (append_expanded r er).
Proof.
  intros [Hr Hm] [Hr' Hm']. split; cbn [append_expanded er_text er_map]; [by apply one_line_app|].
  by rewrite fmap_app, Hm, Hm', length_app, replicate_add.
Qed.

Lemma append_passthrough_in_line l r v c : in_line l r -> one_line v -> in_line l (append_passthrough r v l c).
Proof.
  intros [Hr Hm] Hv. split; cbn [append_passthrough er_text er_map]; [by apply one_line_app|].
  rewrite fmap_app, Hm, length_app, replicate_add. f_equal. rewrite fmap_imap. cbn [compose fst].
  clear. generalize dependent c. induction v as [|x v IH]; intros c; [done|].
  rewrite imap_cons. cbn [length replicate]. f_equal. rewrite <- (IH (c + 1)). apply imap_ext. done.
Qed.

Lemma no_text_in_line l : in_line l no_text.
Proof. split; [apply not_elem_of_nil|done]. Qed.

Lemma expand_args_one_line self l stack c views :
  (forall stack t c, one_line t -> in_line l (self stack t l c).1) -> Forall (fun v => one_line v.2) views ->
  Forall one_line (expand_args self stack l c views).1.
Proof.
  intros Hself. induction 1 as [|[o v] views Hv _ IH]; cbn [expand_args]; [constructor|].
  pose proof (one_line_trim v Hv) as Ht. destruct (trim_spaces v) as [b tv]. cbn [snd] in Ht.
  pose proof (Hself stack tv (c + Z.of_nat (o + b)) Ht) as [Hs _].
  destruct (self stack tv l _) as [er errs], (expand_args self stack l c views) as [args errs']. cbn [fst] in *. by constructor.
Qed.

Lemma expand_loop_in_line macros self fuel stack l c off p r errs :
  macros_one_line macros -> (forall stack t c, one_line t -> in_line l (self stack t l c).1) ->
  one_line p -> in_line l r -> in_line l (expand_loop macros self fuel stack l c off p r errs).1.
Proof.
  intros Hmac Hself. revert off p r errs. induction fuel as [|fuel IH]; intros off [|x p] r errs Hp Hr; cbn [expand_loop]; [done..|].
  apply one_line_cons in Hp as [Hx Hp]. destruct (one_line_ident p Hp) as [Hname Hq].
  destruct (negb _); [by apply IH; [|apply append_char_in_line]|].
  destruct (parse_ident p) as [name q]. cbn [fst snd] in *. case_bool_decide; [by apply IH; [|apply append_char_in_line]|].
  destruct (macros !! name) as [md|] eqn:Hmd; [|by apply IH]. apply Hmac in Hmd.
  case_bool_decide; [by apply IH|]. destruct (md_function_like md).
  - destruct (negb _); [by apply IH|].
    destruct (parse_macro_call_args q _) as [[[views n] q']|] eqn:Hargs; [|by apply IH].
    assert (Hv : Forall (fun v => one_line v.2) views /\ one_line q').
    { destruct q as [|y q]; [done|]. cbn [parse_macro_call_args] in Hargs. destruct (is_char y "("); [|done].
      apply one_line_cons in Hq as [_ Hq]. eapply scan_args_one_line in Hargs; [done..|]. split; [constructor|apply not_elem_of_nil]. }
    destruct Hv as [Hv Hq']. pose proof (expand_args_one_line self l (stack ++ [name]) c views Hself Hv) as Hargs'.
    destruct (expand_args self _ l c views) as [args errs_a]. cbn [fst] in Hargs'.
    pose proof (Hself (stack ++ [name]) _ (c + Z.of_nat off) (substitute_one_line (length (md_body md)) (md_params md) args _ Hargs' Hmd)) as Hrepl.
    unfold substitute_params. destruct (self _ (substitute_loop _ _ _ _) l _) as [repl errs_r]. cbn [fst] in Hrepl.
    by apply IH; [|apply append_expanded_in_line].
  - pose proof (Hself (stack ++ [name]) _ (c + Z.of_nat off) Hmd) as Hrepl.
    destruct (self _ (md_body md) l _) as [repl errs_r]. by apply IH; [|apply append_expanded_in_line].
Qed.

Lemma expand_text_in_line macros levels stack t l c :
  macros_one_line macros -> one_line t -> in_line l (expand_text macros levels stack t l c).1.
Proof.
  intros Hmac. revert stack t c. induction levels as [|levels IH]; intros stack t c Ht; cbn [expand_text fst].
  - apply append_passthrough_in_line; [apply no_text_in_line|done].
  - apply expand_loop_in_line; [done..|]. apply no_text_in_line.
Qed.

Lemma line_loop_in_line fuel macros l i p in_block r errs :
  macros_one_line macros -> one_line p -> in_line l r -> in_line l (line_loop fuel macros l i p in_block r errs).1.1.
Proof.
  intros Hmac. revert i p in_block r errs.
  induction fuel as [|fuel IH]; intros i [|c p] in_block r errs Hp Hr; cbn [line_loop]; [done..|].
  assert (Hcopy : forall n, in_line l (append_passthrough r (take n (c :: p)) l (1 + Z.of_nat i))).
  { intros n. apply append_passthrough_in_line; [done|]. by apply one_line_take. }
  assert (Hdrop : forall n, one_line (drop n (c :: p))) by (intros n; by apply one_line_drop).
  destruct in_block; [by apply IH|]. case_bool_decide.
  - pose proof (expand_text_in_line macros (S max_macro_depth) [] _ l (1 + Z.of_nat i) Hmac (one_line_take (plain_len (c :: p)) _ Hp)) as He.
    destruct (expand_text _ _ _ _ _ _) as [er errs']. apply IH; [done|]. by apply append_expanded_in_line.
  - destruct (is_char c quote); [by apply IH|]. destruct (_ && _); [apply Hcopy|]. destruct (_ && _); [by apply IH|].
    apply IH; [done|]. apply append_char_in_line; [done|]. by apply one_line_cons in Hp as [? _].
Qed.

(** ** The lines of a text *)

Fixpoint split_lines (p : text) : list text :=
  match p with
  | [] => []
  | c :: p =>
      if is_char c newline then [] :: split_lines p
      else match split_lines p with [] => [[c]] | l :: ls => (c :: l) :: ls end
  end.

Fixpoint process_lines (resolver : option (text -> option text)) (self : option (text -> pre_state -> pre_state))
  (line : Z) (in_block : bool) (ls : list text) (s : pre_state) : pre_state :=
  match ls with
  | [] => s
  | l :: ls =>
      let '(s, in_block) := process_line resolver self s line in_block l in
      process_lines resolver self (line + 1) in_block ls s
  end.

Lemma split_lines_one_line p : Forall one_line (split_lines p).
Proof.
  induction p as [|c p IH]; cbn [split_lines]; [constructor|]. unfold is_char.
  case_bool_decide; [constructor; [apply not_elem_of_nil|done]|].
  destruct (split_lines p) as [|l ls]; [|inversion_clear IH]; repeat constructor; try done; apply one_line_cons; split; try done;
    apply not_elem_of_nil.
Qed.

Lemma split_lines_first c p (n := span (fun c => negb (is_char c newline)) (c :: p)) :
  split_lines (c :: p) = take n (c :: p) :: split_lines (drop (S n) (c :: p)).
Proof.
  unfold n. clear n. revert c. induction p as [|d p IH]; intros c; cbn [split_lines span].
  { by destruct (is_char c newline). }
  destruct (is_char c newline); [done|]. cbn [negb take drop]. cbn [split_lines] in IH. by rewrite (IH d).
Qed.

Lemma process_loop_lines resolver self fuel line in_block p s :
  (length p <= fuel)%nat ->
  process_loop resolver self fuel line in_block p s = process_lines resolver self line in_block (split_lines p) s.
Proof.
  revert line in_block p s. induction fuel as [|fuel IH]; intros line in_block [|c p] s Hf; [done|simpl in Hf; lia|done|].
  rewrite split_lines_first. cbn [process_loop process_lines].
  destruct (process_line _ _ _ _ _ _) as [s' b']. apply IH. rewrite length_drop. simpl in *. lia.
Qed.

(** ** The positions of the output *)

Definition pre_ok (s : pre_state) : Prop :=
  length (pr_source_map s) = length (pr_output s) /\ macros_one_line (pr_macros s).

(** A directive other than [`include] changes neither output nor positions. *)
Definition same_output (s s' : pre_state) : Prop :=
  pr_output s' = pr_output s /\ pr_source_map s' = pr_source_map s
  /\ (macros_one_line (pr_macros s) -> macros_one_line (pr_macros s')).

Lemma same_output_refl s : same_output s s.
Proof. done. Qed.

Lemma do_error_same s msg line col : same_output s (do_error s msg line col).
Proof. done. Qed.

Lemma do_define_same s line col t : one_line t -> same_output s (do_define s line col t).
Proof.
  intros Ht. unfold do_define. destruct (negb _); [done|].
  pose proof (one_line_ident _ (one_line_skip _ Ht)) as [_ Hq]. destruct (parse_ident _) as [name q]. cbn [snd] in Hq.
  case_bool_decide; [done|]. case_bool_decide as Hh.
  - assert (Hp : one_line (parse_param_list_after_lparen q).2).
    { assert (Hloop : forall fuel p params, one_line p -> one_line (param_list_loop fuel p params).2).
      { clear. intros fuel. induction fuel as [|fuel IH]; intros p params Hp; cbn [param_list_loop snd]; [done|].
        pose proof (one_line_ident _ (one_line_skip _ Hp)) as [_ Hq]. destruct (parse_ident _) as [id q]. cbn [snd] in Hq.
        case_bool_decide; [done|]. apply one_line_skip in Hq. destruct (skip_spaces q) as [|c r]; [done|].
        apply one_line_cons in Hq as Hr. destruct Hr as [_ Hr]. destruct (is_char c ","); [by apply IH|]. by destruct (is_char c ")"). }
      destruct q as [|c r]; [done|]. cbn [parse_param_list_after_lparen]. destruct (is_char c "("); [|done].
      apply one_line_cons in Hq as [_ Hr]. apply one_line_skip in Hr. destruct (skip_spaces r) as [|d r']; [done|].
      destruct (is_char d ")"); [by apply one_line_cons in Hr as [_ ?]|by apply Hloop]. }
    destruct (parse_param_list_after_lparen q) as [[ok params] t']. cbn [snd] in Hp.
    split_and!; [by destruct ok..|]. intros Hm. destruct ok; apply map_Forall_insert_2; try done; by apply one_line_skip.
  - split_and!; [done..|]. intros Hm. apply map_Forall_insert_2; [|done]. by apply one_line_skip.
Qed.

Lemma do_undef_same s line col t : same_output s (do_undef s line col t).
Proof.
  unfold do_undef. destruct (current_active s); [|done]. case_bool_decide; [done|]. split_and!; [done..|].
  by apply map_Forall_delete.
Qed.

Lemma do_else_same s line col : same_output s (do_else s line col).
Proof. unfold do_else. destruct (pr_ifs s) as [|fr ifs]; [done|]. by destruct (fr_seen_else fr). Qed.

Lemma do_endif_same s line col : same_output s (do_endif s line col).
Proof. unfold do_endif. by destruct (pr_ifs s). Qed.

#[local] Hint Resolve same_output_refl do_error_same do_undef_same do_else_same do_endif_same : core.

(** What a directive does to the output: nothing, unless it includes a file. *)
Lemma do_directive_cases resolver self s line col t :
  one_line t ->
  (exists s', do_directive resolver self s line col t = (s', true) /\ same_output s s')
  \/ exists path included process resolve,
       resolver = Some resolve /\ self = Some process /\ resolve path = Some included
       /\ do_directive resolver self s line col t = (process included s, false).
Proof.
  intros Ht. unfold do_directive.
  pose proof (one_line_ident _ (one_line_drop (span is_space t) _ Ht)) as [_ Hq].
  destruct (parse_ident _) as [kw q]. cbn [snd] in Hq. unfold run_directive.
  repeat match goal with
    | |- (exists s', (?x, true) = (s', true) /\ _) \/ _ => left; exists x; split; [done|]; auto using do_define_same; done
    | |- context [if ?b then _ else _] => lazymatch b with context [current_active] => fail | _ => destruct b end
    end.
  unfold do_include. destruct (negb _); [left; by eexists|].
  destruct self as [process|]; [|left; by eexists]. destruct resolver as [resolve|]; [|left; by eexists].
  destruct (skip_spaces q) as [|open q']; [left; by eexists|].
  destruct (_ && _); [left; by eexists|]. case_bool_decide; [left; by eexists|].
  destruct (resolve _) as [included|] eqn:Hr; [|left; by eexists]. right. do 4 eexists. split_and!; done.
Qed.

(** One line of output with its positions is added. *)
Definition adds_line (line : Z) (s s' : pre_state) : Prop :=
  exists er, in_line line er
    /\ pr_output s' = pr_output s ++ er_text er ++ [newline]
    /\ pr_source_map s' = pr_source_map s ++ er_map er ++ [(u32 line, 1)]
    /\ macros_one_line (pr_macros s').

Lemma adds_blank line s s' : same_output s s' -> macros_one_line (pr_macros s) -> adds_line line s (emit_newline s' line).
Proof.
  intros (Ho & Hs & Hm) Hmac. exists no_text. split; [apply no_text_in_line|]. cbn [emit_newline pr_output pr_source_map pr_macros].
  rewrite Ho, Hs. auto.
Qed.

Lemma copy_line_adds s line in_block l :
  one_line l -> macros_one_line (pr_macros s) -> adds_line line s (copy_line s line in_block l).1.
Proof.
  intros Hl Hmac. unfold copy_line. destruct (current_active s); [|by apply adds_blank].
  pose proof (line_loop_in_line (length l) (pr_macros s) line 0 l in_block no_text [] Hmac Hl (no_text_in_line line)) as Hin.
  unfold expand_line_with_comments. destruct (line_loop _ _ _ _ _ _ _ _) as [[er errs] b]. exists er. cbn [fst] in *.
  split_and!; [done|..]; [cbn; by rewrite <- app_assoc..|done].
Qed.

Lemma process_line_cases resolver self s line in_block l s' b' :
  one_line l -> macros_one_line (pr_macros s) -> process_line resolver self s line in_block l = (s', b') ->
  adds_line line s s'
  \/ exists path included process resolve,
       resolver = Some resolve /\ self = Some process /\ resolve path = Some included /\ s' = process included s.
Proof.
  intros Hl Hmac. unfold process_line.
  assert (Hcr : one_line (strip_cr l)) by (unfold strip_cr; case_bool_decide; auto).
  set (l' := strip_cr l) in *. clearbody l'. clear l Hl.
  assert (Hcopy : copy_line s line in_block l' = (s', b') -> adds_line line s s').
  { intros E. pose proof (copy_line_adds s line in_block l' Hcr Hmac) as H. by rewrite E in H. }
  pose proof (one_line_drop (span is_blank l') _ Hcr) as Ht. destruct (drop _ l') as [|c t]; [by left; apply Hcopy|].
  apply one_line_cons in Ht as [_ Ht]. destruct (negb in_block && _); [|by left; apply Hcopy].
  destruct (do_directive_cases resolver self s line (Z.of_nat (span is_blank l') + 1) t Ht)
    as [(s1 & -> & Hs1)|(path & included & process & resolve & -> & -> & Hr & ->)]; intros [= <- <-].
  - left. by apply adds_blank.
  - right. do 4 eexists. split_and!; done.
Qed.

Lemma adds_line_ok line s s' : pre_ok s -> adds_line line s s' -> pre_ok s'.
Proof.
  intros [Hlen _] (er & [_ Her] & Ho & Hs & Hm). split; [|done].
  apply (f_equal length) in Her. rewrite length_fmap, length_replicate in Her.
  rewrite Ho, Hs, !length_app, Her. simpl. lia.
Qed.

Lemma process_lines_ok resolver self line in_block ls s :
  (forall process t s, self = Some process -> pre_ok s -> pre_ok (process t s)) ->
  Forall one_line ls -> pre_ok s -> pre_ok (process_lines resolver self line in_block ls s).
Proof.
  intros Hself Hls. revert line in_block s. induction Hls as [|l ls Hl _ IH]; intros line in_block s Hs; [done|].
  cbn [process_lines]. destruct (process_line _ _ _ _ _ _) as [s' b'] eqn:Hp. apply IH.
  apply process_line_cases in Hp as [Hp|(path & included & process & resolve & -> & Hself' & Hr & ->)]; [..|done|apply Hs].
  - by eapply adds_line_ok.
  - by eapply Hself.
Qed.

Lemma process_text_ok resolver levels t s : pre_ok s -> pre_ok (process_text resolver levels t s).
Proof.
  revert t s. induction levels as [|levels IH]; intros t s Hs; cbn [process_text]; rewrite process_loop_lines by done;
    (apply process_lines_ok; [|apply split_lines_one_line|done]); [done|]. intros process t' s' [= <-]. apply IH.
Qed.

Lemma empty_pre_ok : pre_ok empty_pre.
Proof. split; [done|]. apply map_Forall_empty. Qed.

(** The output from line [line] on: lines of text, and the source line of each
    of their characters. *)
Fixpoint output_lines (line : Z) (outs : list text) : text * list Z :=
  match outs with
  | [] => ([], [])
  | out :: outs =>
      let '(t, m) := output_lines (line + 1) outs in
      ((out ++ [newline]) ++ t, replicate (S (length out)) (u32 line) ++ m)
  end.

Lemma process_lines_outputs self line in_block ls s :
  Forall one_line ls -> macros_one_line (pr_macros s) ->
  exists outs, let s' := process_lines None self line in_block ls s in
    length outs = length ls /\ Forall one_line outs
    /\ pr_output s' = pr_output s ++ (output_lines line outs).1
    /\ fst <$> pr_source_map s' = (fst <$> pr_source_map s) ++ (output_lines line outs).2.
Proof.
  intros Hls. revert line in_block s. induction Hls as [|l ls Hl _ IH]; intros line in_block s Hmac.
  { exists []. cbn [process_lines output_lines fst snd]. by rewrite !app_nil_r. }
  cbn [process_lines]. destruct (process_line _ _ _ _ _ _) as [s' b'] eqn:Hp.
  apply process_line_cases in Hp as [(er & [Her Hmap] & Ho & Hs & Hm)|(? & ? & ? & ? & [=] & _)]; [|done..].
  destruct (IH (line + 1) b' s' Hm) as (outs & Hlen & Hone & Hout & Hsrc). exists (er_text er :: outs).
  cbv zeta. rewrite Hout, Hsrc, Ho, Hs, !fmap_app, Hmap. cbn [output_lines length].
  destruct (output_lines (line + 1) outs) as [t m]. cbn [fst snd fmap list_fmap].
  rewrite <- !app_assoc. split_and!; [by f_equal|by constructor|done|].
  change (replicate (S (length (er_text er))) (u32 line)) with (u32 line :: replicate (length (er_text er)) (u32 line)).
  by rewrite replicate_cons_app, <- app_assoc.
Qed.
