(* ===== verification/VPreOk.v ===== *)
(** * Verilog: what the preprocessor does to a text

    The theorems on [preprocess] (VPre): output positions, text without macros,
    conditional blocks, calls of macros, and the line comment deviation. *)

From S2P Require Import Prelude VLiteral VLex VPre.
From Stdlib Require Import ZArith Lia Ascii.

#[local] Open Scope Z_scope.
#[local] Open Scope list_scope.

(** ** Text without macros is copied *)

Lemma append_passthrough_nil r l c : append_passthrough r [] l c = r.
Proof. destruct r. unfold append_passthrough. cbn. by rewrite !app_nil_r. Qed.

Lemma append_passthrough_app r v w l c :
  append_passthrough (append_passthrough r v l c) w l (c + Z.of_nat (length v)) = append_passthrough r (v ++ w) l c.
Proof.
  unfold append_passthrough. cbn [er_text er_map]. rewrite imap_app, <- !app_assoc. do 2 f_equal.
  f_equal. apply imap_ext. intros i x _. do 2 f_equal. lia.
Qed.

Lemma append_char_passthrough r ch l c : append_char r ch l c = append_passthrough r [ch] l c.
Proof. unfold append_char, append_passthrough. cbn. by rewrite Z.add_0_r. Qed.

Lemma append_expanded_passthrough r v l c :
  append_expanded r (append_passthrough no_text v l c) = append_passthrough r v l c.
Proof. done. Qed.

Lemma expand_loop_plain macros self fuel stack l c off p r errs :
  backquote ∉ p -> (length p <= fuel)%nat ->
  expand_loop macros self fuel stack l c off p r errs = (append_passthrough r p l (c + Z.of_nat off), errs).
Proof.
  revert off p r. induction fuel as [|fuel IH]; intros off [|x p] r Hp Hf; cbn [expand_loop];
    [by rewrite append_passthrough_nil|simpl in Hf; lia|by rewrite append_passthrough_nil|].
  apply not_elem_of_cons in Hp as [Hx Hp]. unfold is_char. rewrite bool_decide_eq_false_2 by congruence. cbn [negb].
  rewrite IH by (done || simpl in Hf; lia). rewrite append_char_passthrough. f_equal.
  rewrite <- (append_passthrough_app r [x] p). f_equal. cbn [length]. lia.
Qed.

Lemma expand_text_plain macros levels stack t l c :
  backquote ∉ t -> expand_text macros (S levels) stack t l c = (append_passthrough no_text t l c, []).
Proof. intros Ht. cbn [expand_text]. rewrite expand_loop_plain by done. do 2 f_equal. lia. Qed.

Lemma elem_of_take_drop (x : ascii) n p : x ∉ p -> (x ∉ take n p) /\ (x ∉ drop n p).
Proof. rewrite <- (take_drop n p) at 1. rewrite elem_of_app. tauto. Qed.

Lemma plain_len_le p : (plain_len p <= length p)%nat.
Proof. induction p as [|c p IH]; cbn [plain_len length]; [lia|]. destruct (_ || _); lia. Qed.

Lemma line_loop_plain fuel macros l i p in_block r errs :
  backquote ∉ p -> (length p <= fuel)%nat ->
  (line_loop fuel macros l i p in_block r errs).1 = (append_passthrough r p l (1 + Z.of_nat i), errs).
Proof.
  revert i p in_block r. induction fuel as [|fuel IH]; intros i [|c p] in_block r Hp Hf; cbn [line_loop];
    [by rewrite append_passthrough_nil|simpl in Hf; lia|by rewrite append_passthrough_nil|].
  assert (Hnext : forall n b, (1 <= n <= length (c :: p))%nat ->
    (line_loop fuel macros l (i + n) (drop n (c :: p)) b
       (append_passthrough r (take n (c :: p)) l (1 + Z.of_nat i)) errs).1
    = (append_passthrough r (c :: p) l (1 + Z.of_nat i), errs)).
  { intros n b Hn. rewrite IH; [|by apply elem_of_take_drop|rewrite length_drop; simpl in *; lia]. f_equal.
    rewrite <- (take_drop n (c :: p)) at 3. rewrite <- append_passthrough_app. f_equal. rewrite length_take. lia. }
  destruct in_block.
  { apply Hnext. pose proof (block_len_le (c :: p)). cbn [block_len]. destruct (_ && _) eqn:E; [|simpl; pose proof (block_len_le p); lia].
    cbn [block_len] in H. rewrite E in H. lia. }
  case_bool_decide as Hpl.
  { rewrite expand_text_plain by (by apply elem_of_take_drop). rewrite append_expanded_passthrough, app_nil_r.
    apply Hnext. pose proof (plain_len_le (c :: p)). lia. }
  destruct (is_char c quote); [apply (Hnext (S (string_len p).1)); pose proof (string_len_le p); simpl; lia|].
  destruct (is_char c "/" && bool_decide (head p = Some "/"%char)); [by rewrite firstn_all|].
  destruct (is_char c "/" && bool_decide (head p = Some "*"%char)) eqn:Hc.
  { apply (Hnext (S (S (block_len (tail p))))). apply andb_true_iff in Hc as [_ Hc]. apply bool_decide_eq_true in Hc.
    destruct p as [|d p]; [done|]. pose proof (block_len_le p). simpl. lia. }
  rewrite append_char_passthrough. apply (Hnext 1%nat). simpl. lia.
Qed.

(** The position of each character; a line end is at column 1 of its line. *)
Fixpoint positions (lc : Z * Z) (p : text) : list (Z * Z) :=
  match p with
  | [] => []
  | c :: p => (u32 lc.1, if is_char c newline then 1 else u32 lc.2) :: positions (bump lc c) p
  end.

Lemma positions_line l c t rest :
  one_line t ->
  positions (l, c) (t ++ newline :: rest)
  = imap (fun i _ => (u32 l, u32 (c + Z.of_nat i))) t ++ (u32 l, 1) :: positions (l + 1, 1) rest.
Proof.
  revert c. induction t as [|x t IH]; intros c Ht; [done|]. apply one_line_cons in Ht as [Hx Ht].
  cbn [app positions fst snd]. unfold is_char, bump. rewrite !bool_decide_eq_false_2 by done. cbn [fst snd].
  rewrite IH by done. rewrite imap_cons. cbn [app]. rewrite Z.add_0_r. do 2 f_equal. apply imap_ext. intros i y _. cbn [compose]. do 2 f_equal. lia.
Qed.

Definition unlines (ls : list text) : text := mjoin ((fun l => l ++ [newline]) <$> ls).

Lemma unlines_split p : p = [] \/ last p = Some newline -> unlines (split_lines p) = p.
Proof.
  induction p as [|c p IH]; intros Hp; [done|]. destruct Hp as [Hp|Hp]; [done|]. cbn [split_lines]. unfold is_char.
  case_bool_decide as Hc.
  - subst c. rewrite <- IH at 2; [done|]. destruct p; [by left|right; done].
  - destruct p as [|d p]; [cbn in Hp; congruence|]. rewrite last_cons_cons in Hp.
    specialize (IH (or_intror Hp)). pose proof (split_lines_first d p) as E. cbv zeta in E.
    destruct (split_lines (d :: p)) as [|l ls]; [done|]. rewrite <- IH. done.
Qed.

Lemma process_line_plain resolver self s line in_block l :
  backquote ∉ l -> carriage_return ∉ l -> pr_ifs s = [] ->
  (process_line resolver self s line in_block l).1
  = emit_newline (emit s (append_passthrough no_text l line 1)) line.
Proof.
  intros Hl Hcr Hifs. unfold process_line.
  assert (Hs : strip_cr l = l).
  { unfold strip_cr. case_bool_decide as Hlast; [|done]. destruct Hcr. by apply last_Some_elem_of in Hlast. }
  rewrite Hs. assert (Hcopy : (copy_line s line in_block l).1 = emit_newline (emit s (append_passthrough no_text l line 1)) line).
  { unfold copy_line, current_active, expand_line_with_comments. rewrite Hifs.
    pose proof (line_loop_plain (length l) (pr_macros s) line 0 l in_block no_text [] Hl ltac:(done)) as E.
    destruct (line_loop _ _ _ _ _ _ _ _) as [er b]. cbn [fst] in E. rewrite E. cbn [fst]. f_equal.
    destruct s. unfold emit, with_errors. cbn. by rewrite app_nil_r. }
  pose proof (proj2 (elem_of_take_drop backquote (span is_blank l) l Hl)) as Hd. destruct (drop _ l) as [|c t]; [done|].
  unfold is_char. rewrite bool_decide_eq_false_2 by set_solver. by rewrite andb_false_r.
Qed.

Lemma process_lines_plain resolver self line in_block ls s :
  Forall (fun l => (backquote ∉ l) /\ (carriage_return ∉ l) /\ one_line l) ls -> pr_ifs s = [] ->
  let s' := process_lines resolver self line in_block ls s in
  pr_output s' = pr_output s ++ unlines ls /\ pr_source_map s' = pr_source_map s ++ positions (line, 1) (unlines ls)
  /\ pr_errors s' = pr_errors s.
Proof.
  intros Hls. revert line in_block s. induction Hls as [|l ls (Hl & Hcr & Hone) _ IH]; intros line in_block s Hifs.
  { cbn [process_lines unlines fmap list_fmap mjoin list_join positions]. by rewrite !app_nil_r. }
  pose proof (process_line_plain resolver self s line in_block l Hl Hcr Hifs) as E. cbn [process_lines].
  destruct (process_line _ _ _ _ _ _) as [s1 b1]. cbn [fst] in E. cbv zeta.
  destruct (IH (line + 1) b1 s1) as (Ho & Hs & He); [by rewrite E|]. rewrite Ho, Hs, He, E.
  assert (Hu : unlines (l :: ls) = l ++ newline :: unlines ls) by (unfold unlines; cbn; by rewrite <- app_assoc).
  rewrite Hu, positions_line by done. cbn. rewrite <- !app_assoc. done.
Qed.

(** [process_text] one level deeper. *)
Definition deeper (resolver : option (text -> option text)) (levels : nat) : option (text -> pre_state -> pre_state) :=
  match levels with O => None | S levels => Some (process_text resolver levels) end.

Lemma process_text_lines resolver levels t s :
  process_text resolver levels t s = process_lines resolver (deeper resolver levels) 1 false (split_lines t) s.
Proof. destruct levels; cbn [process_text deeper]; by rewrite process_loop_lines. Qed.

(** ** The lexer after the preprocessor *)

Lemma bumps_app lc t u : bumps lc (t ++ u) = bumps (bumps lc t) u.
Proof. unfold bumps. by rewrite foldl_app. Qed.

Lemma bumps_bound t (lc : Z * Z) :
  1 <= lc.1 -> 1 <= lc.2 ->
  1 <= (bumps lc t).1 <= lc.1 + Z.of_nat (length t) /\ 1 <= (bumps lc t).2 <= lc.2 + Z.of_nat (length t).
Proof.
  revert lc. induction t as [|c t IH]; intros [l c0] H1 H2; [cbn in *; lia|].
  cbn [bumps foldl] in *. change (foldl bump (bump (l, c0) c) t) with (bumps (bump (l, c0) c) t).
  assert (Hb : (bump (l, c0) c).1 <= l + 1 /\ 1 <= (bump (l, c0) c).1 /\ 1 <= (bump (l, c0) c).2 <= c0 + 1).
  { unfold bump. cbn [fst snd] in *. case_bool_decide; cbn [fst snd]; lia. }
  destruct (IH (bump (l, c0) c)); [lia..|]. cbn [fst snd length] in *. lia.
Qed.

Lemma positions_lookup p lc k c :
  p !! k = Some c -> c ≠ newline ->
  positions lc p !! k = Some (u32 (bumps lc (take k p)).1, u32 (bumps lc (take k p)).2).
Proof.
  revert p lc. induction k as [|k IH]; intros [|x p] lc; [done| |done|]; cbn [lookup list_lookup positions take].
  - intros [= ->] Hc. unfold is_char. by rewrite bool_decide_eq_false_2.
  - intros Hk Hc. by rewrite IH.
Qed.

(** The map gives each character that can start a token its own position. *)
Definition true_map (sp : list (Z * Z)) (off : nat) (lc : Z * Z) (p : text) : Prop :=
  forall k c, p !! k = Some c -> c ≠ newline -> sp !! (off + k)%nat = Some (bumps lc (take k p)).

Lemma lex_loop_true_map fuel sp off lc p out :
  true_map sp off lc p -> lex_loop fuel (Some sp) off lc p out = lex_loop fuel None off lc p out.
Proof.
  revert off lc p out. induction fuel as [|fuel IH]; intros off lc [|c p] out Hsp; [done..|].
  cbn [lex_loop]. destruct (lex_one (c :: p)) as [n o] eqn:Ho.
  assert (Hrec : true_map sp (off + n) (bumps lc (take n (c :: p))) (drop n (c :: p))).
  { intros k d Hk Hd. rewrite lookup_drop in Hk. rewrite <- bumps_app, take_take_drop, <- Nat.add_assoc. by apply (Hsp _ d). }
  assert (Hhere : o = o_skip \/ remap_line_col (Some sp) off lc = lc).
  { destruct (decide (c = newline)) as [->|Hc]; [left; cbn [lex_one] in Ho; vm_compute is_space in Ho; congruence|right].
    cbn [remap_line_col]. specialize (Hsp 0%nat c eq_refl Hc). rewrite Nat.add_0_r in Hsp. by rewrite Hsp. }
  destruct Hhere as [->|Hhere]; [by apply IH|]. rewrite Hhere. cbn [remap_line_col]. by apply IH.
Qed.

(** ** Conditional blocks *)



(** The directive of a line outside block comments: its keyword, its column and
    what follows the keyword. *)
Definition directive_of (l : text) : option (text * Z * text) :=
  match drop (span is_blank l) l with
  | c :: t =>
      if is_char c backquote
      then let '(kw, q) := parse_ident (drop (span is_space t) t) in Some (kw, Z.of_nat (span is_blank l) + 1, q) else None
  | [] => None
  end.


(** A name a directive can test. *)
Definition macro_name (name : text) : bool := bool_decide (parse_ident name = (name, [])) && negb (bool_decide (name = [])).







(** *** One line *)

Lemma process_line_directive resolver self s line l kw col q :
  directive_of (strip_cr l) = Some (kw, col, q) ->
  process_line resolver self s line false l =
    let '(s, nl) := run_directive resolver self s line col kw q in (if nl then emit_newline s line else s, false).
Proof.
  unfold process_line, directive_of, do_directive. destruct (drop _ (strip_cr l)) as [|c t]; [done|].
  destruct (is_char c backquote); [|done]. cbn [negb andb]. destruct (parse_ident _) as [kw' q']. by intros [= -> <- ->].
Qed.

Lemma process_line_text resolver self s line l :
  directive_of (strip_cr l) = None -> process_line resolver self s line false l = copy_line s line false (strip_cr l).
Proof.
  unfold process_line, directive_of. destruct (drop _ (strip_cr l)) as [|c t]; [done|].
  destruct (is_char c backquote); [|done]. by destruct (parse_ident _).
Qed.







(** *** The directives of a block *)

Lemma macro_name_chars name c : macro_name name = true -> c ∈ name -> is_ident_continue c = true.
Proof.
  unfold macro_name. rewrite andb_true_iff, bool_decide_eq_true. intros [Hn _] Hc. destruct name as [|x r]; [by apply elem_of_nil in Hc|].
  cbn [parse_ident] in Hn. destruct (is_alpha x || is_char x "$") eqn:Hx; [|done]. injection Hn as Hn _.
  apply elem_of_cons in Hc as [->|Hc].
  - unfold is_ident_continue, is_char in *. destruct (is_alpha x); [done|]. cbn [orb] in *. rewrite Hx. by rewrite orb_true_r.
  - pose proof (span_sat is_ident_continue r) as Hs. rewrite Hn in Hs. rewrite Forall_forall in Hs. by apply Hs.
Qed.






(** *** Whole blocks *)





Section Blocks.
Context (resolver : option (text -> option text)) (self : option (text -> pre_state -> pre_state)).










End Blocks.

(** ** Calls of macros *)

(** Texts with commas between them. *)
Fixpoint commas (l : list text) : text :=
  match l with [] => [] | [a] => a | a :: l => a ++ ","%char :: commas l end.

(** A line that defines a macro with parameters, and a call of it. *)
Definition define_line (name : text) (params : list text) (body : text) : text :=
  String.list_ascii_of_string "`define "%string ++ name ++ "("%char :: commas params ++ ")"%char :: " "%char :: body.
Definition macro_call (name : text) (args : list text) : text :=
  backquote :: name ++ "("%char :: commas args ++ [")"%char].

(** A body as words, which may be parameters, and other characters. *)
Inductive piece := pc_word (w : text) | pc_char (c : ascii).

Definition piece_text (x : piece) : text := match x with pc_word w => w | pc_char c => [c] end.
Definition render (ps : list piece) : text := mjoin (piece_text <$> ps).

(** The body with its parameters replaced. *)
Definition expansion (params args : list text) (ps : list piece) : text :=
  mjoin ((fun x => match x with pc_word w => default w (find_arg w params args) | pc_char c => [c] end) <$> ps).

(** Words are identifiers and end where they end. *)
Fixpoint pieces_ok (ps : list piece) : bool :=
  match ps with
  | [] => true
  | pc_char c :: ps => negb (is_alpha c || is_char c "_" || is_char c "$") && pieces_ok ps
  | pc_word w :: ps =>
      macro_name w
      && match ps with
         | [] => true
         | pc_char c :: _ => negb (is_ident_continue c)
         | pc_word _ :: _ => false
         end
      && pieces_ok ps
  end.

(** A character without meaning in the text of an argument. *)
Definition arg_char (c : ascii) : bool := negb (is_one_of c ["("; ")"; "{"; "}"; "["; "]"; ","; quote; backquote]%char).

Definition arg_ok (a : text) : bool := forallb arg_char a && negb (bool_decide ((trim_spaces a).2 = [])).

Lemma span_app_stop f t c r : Forall (fun x => f x = true) t -> f c = false -> span f (t ++ c :: r) = length t.
Proof. intros Ht Hc. induction Ht as [|x t Hx _ IH]; cbn [app span length]; [by rewrite Hc|]. by rewrite Hx, IH. Qed.

Lemma macro_name_cons name :
  macro_name name = true -> exists x r, name = x :: r /\ is_alpha x || is_char x "$" = true /\ Forall (fun c => is_ident_continue c = true) r.
Proof.
  intros Hn. pose proof (fun c => macro_name_chars name c Hn) as Hc. unfold macro_name in Hn.
  rewrite andb_true_iff, bool_decide_eq_true in Hn. destruct Hn as [Hn Hne]. destruct name as [|x r]; [done|].
  exists x, r. split; [done|]. cbn [parse_ident] in Hn. destruct (is_alpha x || is_char x "$"); [|done]. split; [done|].
  apply Forall_forall. intros y Hy. apply Hc. by right.
Qed.

Lemma parse_ident_app name c r :
  macro_name name = true -> is_ident_continue c = false -> parse_ident (name ++ c :: r) = (name, c :: r).
Proof.
  intros Hn Hc. destruct (macro_name_cons name Hn) as (x & n & -> & Hx & Hr). cbn [app parse_ident]. rewrite Hx.
  rewrite span_app_stop by done. cbn [take drop]. by rewrite take_app_length, drop_app_length.
Qed.

Lemma blank_not_name x : is_alpha x || is_char x "$" = true -> is_blank x = false.
Proof.
  intros Hx. unfold is_blank. destruct (is_space x) eqn:Hsp; [|done]. exfalso. unfold is_space, is_one_of in Hsp.
  apply bool_decide_eq_true in Hsp. rewrite !elem_of_cons in Hsp.
  destruct Hsp as [->|[->|[->|[->|[->|[->|Hsp]]]]]]; [by vm_compute in Hx..|by apply elem_of_nil in Hsp].
Qed.

Lemma skip_spaces_start name r : macro_name name = true -> skip_spaces (name ++ r) = name ++ r.
Proof.
  intros Hn. destruct (macro_name_cons name Hn) as (x & n & -> & Hx & _). unfold skip_spaces. cbn [app span].
  by rewrite (blank_not_name x).
Qed.

Lemma skip_spaces_stop c r : is_blank c = false -> skip_spaces (c :: r) = c :: r.
Proof. intros Hc. unfold skip_spaces. cbn [span]. by rewrite Hc. Qed.

(** *** Definitions *)

Lemma param_list_loop_commas fuel params acc rest :
  params ≠ [] -> Forall (fun x => macro_name x = true) params -> (length params <= fuel)%nat ->
  param_list_loop fuel (commas params ++ ")"%char :: rest) acc = (true, acc ++ params, rest).
Proof.
  intros Hne Hp. revert fuel acc. induction Hp as [|x params Hx Hp IH]; intros fuel acc Hf; [done|].
  destruct fuel as [|fuel]; [simpl in Hf; lia|]. assert (Hxne : x ≠ []) by (by intros ->).
  destruct params as [|y params]; cbn [param_list_loop commas].
  - rewrite skip_spaces_start, parse_ident_app, bool_decide_eq_false_2, skip_spaces_stop by done. done.
  - rewrite <- app_assoc. cbn [app]. rewrite skip_spaces_start, parse_ident_app, bool_decide_eq_false_2, skip_spaces_stop by done.
    change (is_char "," ",") with true. cbn iota. rewrite IH by (done || simpl in *; lia). by rewrite <- app_assoc.
Qed.

Lemma length_commas params : Forall (fun x => macro_name x = true) params -> (length params <= length (commas params))%nat.
Proof.
  induction 1 as [|x params Hx Hp IH]; [done|]. destruct x as [|c x]; [done|].
  destruct params as [|y params]; [simpl; lia|]. change (commas ((c :: x) :: y :: params)) with ((c :: x) ++ ","%char :: commas (y :: params)).
  rewrite length_app. cbn [length] in *. lia.
Qed.

Lemma parse_param_list_commas params rest :
  Forall (fun x => macro_name x = true) params ->
  parse_param_list_after_lparen ("("%char :: commas params ++ ")"%char :: rest) = (true, params, rest).
Proof.
  intros Hp. cbn [parse_param_list_after_lparen]. change (is_char "(" "(") with true. cbn iota.
  destruct params as [|x params]; [done|]. inversion_clear Hp as [|? ? Hx Hp'].
  assert (Hs : forall r, skip_spaces (commas (x :: params) ++ r) = commas (x :: params) ++ r).
  { intros r. destruct params as [|y params]; cbn [commas]; [by apply skip_spaces_start|].
    rewrite <- app_assoc. by apply skip_spaces_start. }
  rewrite Hs. destruct (macro_name_cons x Hx) as (c & n & Hc & Hh & _).
  assert (Hcp : exists r, commas (x :: params) ++ ")"%char :: rest = c :: r).
  { subst x. destruct params; cbn [commas app]; by eexists. }
  assert (Hl : (length (x :: params) <= length (commas (x :: params) ++ ")"%char :: rest))%nat).
  { rewrite length_app. pose proof (length_commas (x :: params)) as Hlc. specialize (Hlc ltac:(by constructor)). lia. }
  assert (Hloop := param_list_loop_commas _ (x :: params) [] rest ltac:(done) ltac:(by constructor) Hl).
  destruct Hcp as [r Hr]. rewrite Hr in Hloop |- *.
  assert (Hcl : is_char c ")" = false).
  { unfold is_char. apply bool_decide_eq_false_2. intros ->. by vm_compute in Hh. }
  by rewrite Hcl.
Qed.

Lemma strip_cr_free l : carriage_return ∉ l -> strip_cr l = l.
Proof. intros Hl. unfold strip_cr. case_bool_decide as E; [|done]. destruct Hl. by apply last_Some_elem_of in E. Qed.

Lemma process_define_line resolver self s line name params body :
  current_active s = true -> macro_name name = true -> Forall (fun x => macro_name x = true) params ->
  carriage_return ∉ define_line name params body -> skip_spaces body = body ->
  process_line resolver self s line false (define_line name params body)
  = (emit_newline (with_macros s (<[name := mk_macro true params body]> (pr_macros s))) line, false).
Proof.
  intros Hact Hn Hp Hcr Hbody.
  set (q := " "%char :: name ++ "("%char :: commas params ++ ")"%char :: " "%char :: body).
  assert (Hd : directive_of (strip_cr (define_line name params body)) = Some (String.list_ascii_of_string "define"%string, 1, q)).
  { by rewrite strip_cr_free. }
  rewrite (process_line_directive _ _ _ _ _ _ _ _ Hd).
  change (run_directive _ _ s _ _ _ _) with (do_define s line 1 q, true). cbn iota. do 2 f_equal.
  unfold do_define. rewrite Hact. cbn [negb].
  assert (Hq : parse_ident (skip_spaces q) = (name, "("%char :: commas params ++ ")"%char :: " "%char :: body)).
  { unfold q. unfold skip_spaces at 1. cbn [span]. change (is_blank " ") with true. cbn iota. cbn [drop].
    change (drop (span is_blank ?t) ?t) with (skip_spaces t). rewrite skip_spaces_start by done. by apply parse_ident_app. }
  rewrite Hq, bool_decide_eq_false_2 by (by intros ->). cbn [head]. rewrite bool_decide_eq_true_2 by done.
  rewrite parse_param_list_commas by done. do 4 f_equal. unfold skip_spaces at 1. cbn [span]. change (is_blank " ") with true.
  cbn iota. cbn [drop]. exact Hbody.
Qed.

(** *** Arguments *)

Lemma scan_plain a p off s :
  forallb arg_char a = true -> ms_in_string s = false ->
  scan_args (a ++ p) off s = scan_args p (off + length a) (scan_take a s).
Proof.
  revert off s. induction a as [|c a IH]; intros off s Ha Hs; cbn [app length].
  { rewrite Nat.add_0_r. destruct s. unfold scan_take. cbn. by rewrite app_nil_r. }
  cbn [forallb] in Ha. apply andb_true_iff in Ha as [Hc Ha]. unfold arg_char, is_one_of in Hc.
  apply negb_true_iff, bool_decide_eq_false in Hc. rewrite !not_elem_of_cons in Hc. destruct_and! Hc.
  cbn [scan_args]. rewrite Hs. unfold is_char. rewrite !bool_decide_eq_false_2 by done. cbn [andb].
  rewrite IH by done. f_equal; [lia|]. unfold scan_take. cbn. by rewrite <- app_assoc.
Qed.

(** The views of the arguments [args] that start at offset [off]. *)
Fixpoint arg_views (off : nat) (args : list text) : list (nat * text) :=
  match args with [] => [] | a :: args => (off, a) :: arg_views (off + length a + 1) args end.

Lemma scan_args_commas args views off saw rest :
  args ≠ [] -> Forall (fun a => arg_ok a = true) args ->
  scan_args (commas args ++ ")"%char :: rest) off (mk_scan views off [] 0 0 0 false saw)
  = Some (views ++ arg_views off args, S (off + length (commas args)), rest).
Proof.
  intros Hne Ha. revert views off saw. induction Ha as [|a args Ha Hargs IH]; intros views off saw; [done|].
  unfold arg_ok in Ha. apply andb_true_iff in Ha as [Hc Ht]. apply negb_true_iff, bool_decide_eq_false in Ht.
  destruct args as [|b args]; cbn [commas].
  - rewrite scan_plain by done. cbn [scan_take ms_arg app]. cbn [scan_args].
    change (is_char ")" quote) with false. change (is_char ")" "(") with false. change (is_char ")" ")") with true.
    cbn [ms_in_string scan_take]. unfold at_top. cbn [ms_paren_depth ms_brace_depth ms_bracket_depth scan_take].
    rewrite !bool_decide_eq_true_2 by done. cbn [andb]. unfold scan_close. cbn [scan_take ms_views ms_saw_comma ms_begin ms_arg app].
    rewrite (bool_decide_eq_false_2 ((trim_spaces a).2 = [])) by done. by rewrite andb_false_r.
  - rewrite <- app_assoc. cbn [app]. rewrite scan_plain by done. cbn [scan_args].
    change (is_char "," quote) with false. change (is_char "," "(") with false. change (is_char "," ")") with false.
    change (is_char "," "{") with false. change (is_char "," "}") with false. change (is_char "," "[") with false.
    change (is_char "," "]") with false. change (is_char "," ",") with true.
    cbn [ms_in_string scan_take]. unfold at_top. cbn [ms_paren_depth ms_brace_depth ms_bracket_depth scan_take].
    rewrite !bool_decide_eq_true_2 by done. cbn [andb]. unfold scan_comma. cbn [scan_take ms_views ms_saw_comma ms_begin ms_arg app
      ms_paren_depth ms_brace_depth ms_bracket_depth ms_in_string].
    rewrite IH by done. cbn [arg_views]. rewrite <- app_assoc, length_app. cbn [length app].
    replace (off + length a + 1)%nat with (S (off + length a)) by lia. do 3 f_equal. cbn [commas]. lia.
Qed.

Lemma parse_call_args args off rest :
  Forall (fun a => arg_ok a = true) args ->
  parse_macro_call_args ("("%char :: commas args ++ ")"%char :: rest) off
  = Some (arg_views (S off) args, (off + 2 + length (commas args))%nat, rest).
Proof.
  intros Ha. cbn [parse_macro_call_args]. change (is_char "(" "(") with true. cbn iota. destruct args as [|a args].
  - cbn. do 2 f_equal. f_equal. lia.
  - rewrite scan_args_commas by done. do 2 f_equal. f_equal. lia.
Qed.

Lemma trim_spaces_sub c v : c ∈ (trim_spaces v).2 -> c ∈ v.
Proof.
  unfold trim_spaces. cbn [snd]. intros Hc. rewrite <- (take_drop (span is_blank v) v). apply elem_of_app. right.
  rewrite <- (take_drop (length (drop (span is_blank v) v) - span is_blank (rev (drop (span is_blank v) v))) (drop (span is_blank v) v)).
  apply elem_of_app. by left.
Qed.

Lemma arg_ok_plain a : arg_ok a = true -> backquote ∉ (trim_spaces a).2.
Proof.
  unfold arg_ok. rewrite andb_true_iff. intros [Ha _] Hin. apply trim_spaces_sub in Hin.
  rewrite forallb_forall in Ha. apply list_elem_of_In, Ha in Hin. by vm_compute in Hin.
Qed.

Lemma expand_args_plain macros levels stack l c off args :
  Forall (fun a => arg_ok a = true) args ->
  expand_args (expand_text macros (S levels)) stack l c (arg_views off args) = ((fun a => (trim_spaces a).2) <$> args, []).
Proof.
  intros Ha. revert off. induction Ha as [|a args Ha _ IH]; intros off; [done|]. cbn [arg_views expand_args].
  pose proof (arg_ok_plain a Ha) as Hp. destruct (trim_spaces a) as [b tv] eqn:E. cbn [snd] in Hp.
  rewrite expand_text_plain, IH by done. cbn [fmap list_fmap]. by rewrite E.
Qed.

(** *** Bodies *)

Lemma substitute_render params args ps :
  pieces_ok ps = true -> substitute_params (render ps) params args = expansion params args ps.
Proof.
  unfold substitute_params. intros Hps.
  assert (Hgen : forall fuel, (length (render ps) <= fuel)%nat -> substitute_loop fuel params args (render ps) = expansion params args ps); [|by apply Hgen].
  induction ps as [|[w|c] ps IH]; intros fuel Hf; [by destruct fuel|..]; cbn [pieces_ok] in Hps.
  - rewrite !andb_true_iff in Hps. destruct Hps as [[Hw Hnext] Hps]. destruct (macro_name_cons w Hw) as (x & r & Hwx & Hx & Hr).
    assert (Hrend : render (pc_word w :: ps) = w ++ render ps) by done. rewrite Hrend in Hf |- *. rewrite Hwx, length_app in Hf.
    destruct fuel as [|fuel]; [cbn in Hf; lia|]. rewrite Hwx. cbn [app substitute_loop].
    assert (Hx' : is_alpha x || is_char x "_" || is_char x "$" = true) by (destruct (is_alpha x), (is_char x "_"), (is_char x "$"); done).
    rewrite Hx'. assert (Hspan : span is_ident_continue (r ++ render ps) = length r).
    { destruct ps as [|[w'|c] ps]; [|done|].
      - cbn. rewrite app_nil_r. clear -Hr. induction Hr as [|y r Hy _ IHr]; cbn [span length]; [done|]. by rewrite Hy, IHr.
      - apply (span_app_stop _ _ c); [done|]. by apply negb_true_iff. }
    rewrite Hspan. cbn [take drop]. rewrite take_app_length, drop_app_length, IH by (done || cbn in Hf; lia). by rewrite <- Hwx.
  - rewrite andb_true_iff in Hps. destruct Hps as [Hc Hps]. change (render (pc_char c :: ps)) with (c :: render ps) in *.
    destruct fuel as [|fuel]; [cbn in Hf; lia|]. cbn [substitute_loop]. apply negb_true_iff in Hc. rewrite Hc.
    rewrite IH by (done || cbn in Hf; lia). done.
Qed.

(** *** Lines with a call *)

(** A text in which the preprocessor has nothing to do. *)
Definition inert (t : text) : bool :=
  forallb (fun c => negb (is_one_of c [backquote; quote; "/"; newline; carriage_return]%char)) t.

Lemma inert_spec t c : inert t = true -> c ∈ [backquote; quote; "/"; newline; carriage_return]%char -> c ∉ t.
Proof.
  unfold inert. rewrite forallb_forall. intros Ht Hc Hin. apply list_elem_of_In, Ht in Hin. unfold is_one_of in Hin.
  by rewrite bool_decide_eq_true_2 in Hin.
Qed.

Lemma find_arg_elem w params args a : find_arg w params args = Some a -> a ∈ args.
Proof.
  revert params. induction args as [|b args IH]; intros [|x params]; cbn [find_arg]; try done.
  case_bool_decide; [intros [= ->]; by left|intros H1; right; by eapply IH].
Qed.

Lemma expansion_free c params args ps :
  c ∉ render ps -> Forall (fun a => c ∉ a) args -> c ∉ expansion params args ps.
Proof.
  intros Hps Ha. induction ps as [|x ps IH]; [apply not_elem_of_nil|].
  change (render (x :: ps)) with (piece_text x ++ render ps) in Hps. rewrite elem_of_app in Hps.
  assert (E : expansion params args (x :: ps)
    = match x with pc_word w => default w (find_arg w params args) | pc_char c => [c] end ++ expansion params args ps) by done.
  rewrite E, elem_of_app. intros [Hin|Hin]; [|apply IH; tauto]. destruct x as [w|d]; [|tauto]. cbn [piece_text] in Hps.
  destruct (find_arg w params args) as [a|] eqn:Hf; [|tauto]. apply find_arg_elem in Hf. rewrite Forall_forall in Ha.
  by apply (Ha a).
Qed.

Lemma expand_loop_pre macros self fuel stack l c off pre q r errs :
  backquote ∉ pre ->
  expand_loop macros self (length pre + fuel) stack l c off (pre ++ q) r errs
  = expand_loop macros self fuel stack l c (off + length pre) q (append_passthrough r pre l (c + Z.of_nat off)) errs.
Proof.
  revert off r. induction pre as [|x pre IH]; intros off r Hp; cbn [app length Nat.add].
  { by rewrite append_passthrough_nil, Nat.add_0_r. }
  apply not_elem_of_cons in Hp as [Hx Hp]. cbn [expand_loop]. unfold is_char. rewrite bool_decide_eq_false_2 by congruence.
  cbn [negb]. rewrite IH by done. rewrite append_char_passthrough. f_equal; [lia|].
  rewrite <- (append_passthrough_app r [x] pre). f_equal. cbn [length]. lia.
Qed.

(** A call of a macro between texts without macros. *)
Lemma expand_text_call macros levels stack l c name md pre args post :
  macros !! name = Some md -> md_function_like md = true -> name ∉ stack -> macro_name name = true ->
  backquote ∉ pre -> backquote ∉ post -> Forall (fun a => arg_ok a = true) args -> length args = length (md_params md) ->
  (backquote ∉ substitute_params (md_body md) (md_params md) ((fun a => (trim_spaces a).2) <$> args)) ->
  exists r, expand_text macros (S (S levels)) stack (pre ++ macro_call name args ++ post) l c = (r, [])
    /\ er_text r = pre ++ substitute_params (md_body md) (md_params md) ((fun a => (trim_spaces a).2) <$> args) ++ post.
Proof.
  intros Hmd Hfl Hst Hn Hpre Hpost Ha Hlen Hsub.
  set (args' := (fun a => (trim_spaces a).2) <$> args) in *. set (body' := substitute_params _ _ _) in *.
  set (t := macro_call name args ++ post).
  assert (Ht : t = backquote :: name ++ "("%char :: commas args ++ ")"%char :: post).
  { unfold t, macro_call. rewrite <- app_comm_cons, <- app_assoc. cbn [app]. by rewrite <- app_assoc. }
  assert (Hl : length (pre ++ t) = (length pre + S (length (commas args) + length name + 2 + length post))%nat).
  { rewrite Ht, length_app. cbn [length]. rewrite length_app. cbn [length]. rewrite length_app. cbn [length]. lia. }
  change (expand_text macros (S (S levels)) stack (pre ++ t) l c)
    with (expand_loop macros (expand_text macros (S levels)) (length (pre ++ t)) stack l c 0 (pre ++ t) no_text []).
  rewrite Hl, expand_loop_pre by done. rewrite Ht. cbn [expand_loop]. change (is_char backquote backquote) with true. cbn [negb].
  rewrite parse_ident_app, bool_decide_eq_false_2, Hmd, bool_decide_eq_false_2, Hfl by (done || by intros ->).
  cbn [head]. rewrite bool_decide_eq_true_2 by done. cbn [negb]. rewrite parse_call_args, expand_args_plain by done.
  fold args'. rewrite bool_decide_eq_true_2 by (unfold args'; by rewrite length_fmap). fold body'.
  rewrite expand_text_plain, expand_loop_plain by (done || lia). eexists. split; [done|]. cbn. by rewrite <- !app_assoc.
Qed.

Lemma plain_len_all t : quote ∉ t -> "/"%char ∉ t -> plain_len t = length t.
Proof.
  induction t as [|c t IH]; intros Hq Hs; [done|]. apply not_elem_of_cons in Hq as [Hq Hq'], Hs as [Hs Hs'].
  cbn [plain_len length]. unfold is_char. rewrite !bool_decide_eq_false_2 by congruence. cbn [orb andb]. by rewrite IH.
Qed.

(** A line without strings and comments is expanded as a whole. *)
Lemma expand_line_plain macros t l :
  quote ∉ t -> "/"%char ∉ t ->
  expand_line_with_comments macros t l false
  = (let '(r, errs) := expand_text macros (S max_macro_depth) [] t l 1 in (r, errs), false).
Proof.
  intros Hq Hs. unfold expand_line_with_comments. destruct t as [|c t]; [done|]. pose proof (plain_len_all _ Hq Hs) as Hp.
  cbn [length line_loop]. rewrite Hp. rewrite bool_decide_eq_true_2 by (cbn [length]; lia). rewrite firstn_all, drop_all.
  destruct (expand_text _ _ _ _ _ _) as [[rt rm] errs]. by destruct (length t).
Qed.

Lemma split_unlines ls : Forall one_line ls -> split_lines (unlines ls) = ls.
Proof.
  induction 1 as [|l ls Hl _ IH]; [done|].
  assert (Hu : unlines (l :: ls) = l ++ newline :: unlines ls) by (unfold unlines; cbn; by rewrite <- app_assoc). rewrite Hu.
  clear Hu. induction l as [|c l IHl]; cbn [app split_lines]; [by rewrite IH|].
  apply one_line_cons in Hl as [Hc Hl]. rewrite (IHl Hl). unfold is_char. by rewrite bool_decide_eq_false_2.
Qed.



(** *** The characters of a definition and of a call *)

Lemma commas_free c l : c ≠ ","%char -> Forall (fun x => c ∉ x) l -> c ∉ commas l.
Proof.
  intros Hc. induction 1 as [|x l Hx Hl IH]; [apply not_elem_of_nil|]. destruct l as [|y l]; [done|].
  change (commas (x :: y :: l)) with (x ++ ","%char :: commas (y :: l)). rewrite elem_of_app, elem_of_cons. tauto.
Qed.

Lemma name_free c name : is_ident_continue c = false -> macro_name name = true -> c ∉ name.
Proof. intros Hc Hn Hin. apply (macro_name_chars _ _ Hn) in Hin. congruence. Qed.

Lemma define_line_free c name params body :
  c ∈ [newline; carriage_return] -> macro_name name = true -> Forall (fun x => macro_name x = true) params -> c ∉ body ->
  c ∉ define_line name params body.
Proof.
  intros Hc Hn Hp Hb. assert (Hi : is_ident_continue c = false /\ (c ∉ String.list_ascii_of_string "`define "%string)
    /\ c ≠ "("%char /\ c ≠ ","%char /\ c ≠ ")"%char /\ c ≠ " "%char).
  { rewrite !elem_of_cons in Hc. destruct Hc as [->|[->|Hc]]; [..|by apply elem_of_nil in Hc];
      (split_and!; [done|apply (bool_decide_unpack _); vm_compute; exact I|done..]). }
  destruct Hi as (Hi & Hd & H1 & H2 & H3 & H4). unfold define_line.
  rewrite elem_of_app, elem_of_app, elem_of_cons, elem_of_app, !elem_of_cons.
  pose proof (name_free c name Hi Hn) as Hname.
  assert (c ∉ commas params); [|tauto]. apply commas_free; [done|]. eapply Forall_impl; [exact Hp|]. intros x Hx. by apply name_free.
Qed.

Lemma call_line_free c name pre args post :
  c ∈ [quote; "/"; newline; carriage_return]%char -> macro_name name = true -> c ∉ pre ++ commas args ++ post ->
  c ∉ pre ++ macro_call name args ++ post.
Proof.
  intros Hc Hn Hin. assert (Hi : is_ident_continue c = false /\ c ≠ backquote /\ c ≠ "("%char /\ c ≠ ")"%char).
  { rewrite !elem_of_cons in Hc. by destruct Hc as [->|[->|[->|[->|Hc]]]]; [..|apply elem_of_nil in Hc]. }
  destruct Hi as (Hi & H1 & H2 & H3). pose proof (name_free c name Hi Hn) as Hname. unfold macro_call.
  rewrite !elem_of_app in *. cbn [app]. rewrite !elem_of_cons, !elem_of_app, !elem_of_cons, !elem_of_app, !elem_of_cons, elem_of_nil. tauto.
Qed.

Lemma span_pre f pre t : (span f pre < length pre)%nat -> exists c r, drop (span f pre) pre = c :: r /\ span f (pre ++ t) = span f pre.
Proof.
  induction pre as [|x pre IH]; cbn [span length app]; [lia|]. destruct (f x) eqn:Hx; intros Hl.
  - destruct IH as (c & r & E & Hs); [lia|]. exists c, r. cbn [drop]. by rewrite Hs.
  - exists x, pre. by split.
Qed.

(** A line that starts with text is not a directive. *)
Lemma directive_of_pre pre t : (span is_blank pre < length pre)%nat -> backquote ∉ pre -> directive_of (pre ++ t) = None.
Proof.
  intros Hl Hb. destruct (span_pre is_blank pre t Hl) as (c & r & E & Hs). unfold directive_of. rewrite Hs, drop_app_le, E by lia.
  cbn [app]. unfold is_char. rewrite bool_decide_eq_false_2; [done|]. intros ->. apply Hb. rewrite <- (take_drop (span is_blank pre) pre), E.
  apply elem_of_app. right. by left.
Qed.

(** ** Lines inside a block comment *)

Lemma line_loop_nil fuel macros l i b r errs : line_loop fuel macros l i [] b r errs = ((r, errs), b).
Proof. by destruct fuel. Qed.

(** A comment that ends with the line. *)
Lemma line_loop_comment_line fuel macros l i t r errs :
  block_len t = length t ->
  line_loop (S fuel) macros l i (["/"; "*"]%char ++ t) false r errs
  = ((append_passthrough r (["/"; "*"]%char ++ t) l (1 + Z.of_nat i), errs), true).
Proof.
  intros Ht. cbn [app line_loop plain_len head tail].
  change (is_char "/" quote) with false. change (is_char "/" "/") with true. cbn [orb andb].
  rewrite (bool_decide_eq_true_2 (Some "*"%char = Some "*"%char)), (bool_decide_eq_false_2 (Some "*"%char = Some "/"%char)) by done.
  cbn [orb]. rewrite (bool_decide_eq_false_2 (0 < 0)%nat) by lia. rewrite Ht, bool_decide_eq_true_2 by (cbn; lia).
  cbn [take drop]. by rewrite firstn_all, drop_all, line_loop_nil.
Qed.

Lemma process_line_comment resolver self s line l :
  block_len l = length l -> carriage_return ∉ l -> pr_ifs s = [] -> l ≠ [] ->
  process_line resolver self s line true l = (emit_newline (emit s (append_passthrough no_text l line 1)) line, true).
Proof.
  intros Hl Hcr Hifs Hne. unfold process_line. rewrite strip_cr_free by done.
  assert (Hcopy : copy_line s line true l = (emit_newline (emit s (append_passthrough no_text l line 1)) line, true)).
  { unfold copy_line, current_active, expand_line_with_comments. rewrite Hifs. destruct l as [|c l]; [done|].
    cbn [length line_loop]. rewrite Hl, firstn_all, drop_all. rewrite bool_decide_eq_false_2 by (cbn [length]; lia). cbn [negb].
    rewrite line_loop_nil. cbn. destruct s. unfold emit, with_errors. cbn. by rewrite app_nil_r. }
  by destruct (drop _ l).
Qed.

(** ** Theorems *)

(** C32. Positions survive preprocessing.  For every character of the output there is one source position, whatever the
    text and the included files; and when nothing is included the output has exactly one line for each line of the
    source, whose characters all have that line as their position, whatever directives and macros are in it. *)
Theorem preprocess_positions (src : text) (opt : preprocess_options) :
  let r := preprocess src opt in
  length (pr_source_map r) = length (pr_output r)
  /\ (po_include_resolver opt = None ->
      exists outs, length outs = length (split_lines src) /\ Forall one_line outs
        /\ pr_output r = (output_lines 1 outs).1 /\ fst <$> pr_source_map r = (output_lines 1 outs).2).
Proof.
  intros r. split; [apply process_text_ok, empty_pre_ok|]. intros Hnone. unfold r, preprocess. rewrite Hnone.
  rewrite process_text_lines.
  destruct (process_lines_outputs (deeper None (po_include_depth_limit opt)) 1 false (split_lines src) empty_pre
    (split_lines_one_line src) (map_Forall_empty _)) as (outs & ? & ? & Ho & Hs).
  exists outs. by rewrite Ho, Hs.
Qed.

(** C31. Without macros the preprocessor changes nothing.  A source of complete lines in which no backquote and no carriage
    return occurs, of fewer than 2^32 - 1 characters, is copied without errors, and the lexer with the source map of the
    preprocessor finds in it the same tokens at the same positions, and the same errors, as in the source itself. *)
Theorem preprocess_transparent (src : text) (opt : preprocess_options) :
  backquote ∉ src -> carriage_return ∉ src -> last src = Some newline -> Z.of_nat (length src) < 2 ^ 32 - 1 ->
  let r := preprocess src opt in
  pr_output r = src /\ pr_errors r = []
  /\ lex (pr_output r) (Some (pr_source_map r)) = lex src None.
Proof.
  intros Hbq Hcr Hlast Hlen r. unfold r, preprocess. rewrite process_text_lines.
  assert (Hu : unlines (split_lines src) = src) by (apply unlines_split; by right).
  destruct (process_lines_plain (po_include_resolver opt) (deeper (po_include_resolver opt) (po_include_depth_limit opt)) 1 false
    (split_lines src) empty_pre) as (Ho & Hs & He); [|done|].
  { apply Forall_forall. intros l Hl.
    assert (Hsub : forall c, c ∈ l -> c ∈ src).
    { intros c Hc. rewrite <- Hu. unfold unlines. apply list_elem_of_join. eexists. split; [|by apply list_elem_of_fmap_2].
      apply elem_of_app. by left. }
    split_and!; [by intros ?%Hsub..|]. pose proof (split_lines_one_line src) as Hall. by rewrite Forall_forall in Hall; apply Hall. }
  rewrite Ho, Hs, He. cbn [empty_pre pr_output pr_source_map pr_errors app]. rewrite Hu. split_and!; [done..|].
  unfold lex. apply lex_loop_true_map. intros k c Hk Hc. cbn [Nat.add]. rewrite (positions_lookup _ _ _ c) by done.
  destruct (bumps_bound (take k src) (1, 1)) as [H1 H2]; [cbn; lia..|]. cbn [fst snd] in *.
  assert (length (take k src) <= length src)%nat by (rewrite length_take; lia).
  unfold u32. rewrite !Z.mod_small by lia. by destruct (bumps _ _).
Qed.

Lemma preprocess_transparent_witness :
  let src := String.list_ascii_of_string "wire a; // b" ++ [newline] in
  let r := preprocess src default_options in
  pr_output r = src /\ pr_errors r = [] /\ lex (pr_output r) (Some (pr_source_map r)) = lex src None.
Proof.
  intros src. apply preprocess_transparent.
  - refine (bool_decide_unpack (backquote ∉ src) _). vm_compute. exact I.
  - refine (bool_decide_unpack (carriage_return ∉ src) _). vm_compute. exact I.
  - reflexivity.
  - vm_compute. reflexivity.
Defined.



(** C30. A macro with parameters stands for its body.  After [`define NAME(p, ...) body], a call [`NAME(a, ...)] with as many
    arguments is replaced by the body in which each word that is a parameter is replaced by its argument without the
    spaces around it; the text around it stays as it is, and no error is reported.  Conditions: the name and the
    parameters are identifiers; the body is on the one line, starts with no space and has no backquote; the arguments are
    not blank and have no bracket, comma, quote or backquote; the text of the line has no other backquote, no quote and no
    slash; and something other than blanks stands before the call on its line (a call that starts a line is taken for a
    directive, see [macro_at_line_start_rejected]). *)
Theorem macro_call_expands (name : text) (params : list text) (ps : list piece) (pre : text) (args : list text) (post : text)
  (opt : preprocess_options) :
  macro_name name = true -> Forall (fun x => macro_name x = true) params -> pieces_ok ps = true ->
  skip_spaces (render ps) = render ps -> (forall c, c ∈ render ps -> c ∉ [backquote; newline; carriage_return]) ->
  length args = length params -> Forall (fun a => arg_ok a = true) args ->
  inert (pre ++ commas args ++ post) = true -> (span is_blank pre < length pre)%nat ->
  let r := preprocess (unlines [define_line name params (render ps); pre ++ macro_call name args ++ post]) opt in
  pr_output r = unlines [[]; pre ++ expansion params ((fun a => (trim_spaces a).2) <$> args) ps ++ post] /\ pr_errors r = [].
Proof.
  intros Hn Hp Hps Hsk Hbody Hlen Ha Hin Hpre r.
  assert (Hbody' : forall c, c ∈ [backquote; newline; carriage_return] -> c ∉ render ps) by (intros c Hc Hc'; by apply (Hbody c)).
  pose proof (fun c => inert_spec _ c Hin) as Hfree. set (l1 := define_line _ _ _) in r. set (l2 := pre ++ _) in r.
  assert (Hl1 : forall c, c ∈ [newline; carriage_return] -> c ∉ l1).
  { intros c Hc. apply define_line_free; [done..|]. apply Hbody'. set_solver. }
  assert (Hl2 : forall c, c ∈ [quote; "/"; newline; carriage_return]%char -> c ∉ l2).
  { intros c Hc. apply call_line_free; [done..|]. apply Hfree. set_solver. }
  assert (Hbq : (backquote ∉ pre) /\ (backquote ∉ commas args) /\ (backquote ∉ post)).
  { assert (Hb : backquote ∉ pre ++ commas args ++ post) by (apply Hfree; by left). rewrite !elem_of_app in Hb. tauto. }
  unfold r, preprocess. rewrite process_text_lines, split_unlines.
  2: { repeat constructor; [apply Hl1|apply Hl2]; set_solver. }
  cbn [process_lines]. unfold l1. rewrite process_define_line by (done || (apply Hl1; set_solver)).
  rewrite process_line_text; rewrite strip_cr_free by (apply Hl2; set_solver); [|apply directive_of_pre; [done|apply Hbq]].
  unfold copy_line. cbn [emit_newline with_macros current_active pr_ifs empty_pre pr_macros].
  rewrite expand_line_plain by (apply Hl2; set_solver).
  edestruct (expand_text_call (<[name := mk_macro true params (render ps)]> ∅) 31 [] (1 + 1) 1 name (mk_macro true params (render ps)) pre args post)
    as (res & E & Htext); try done.
  { apply lookup_insert_eq. } { apply not_elem_of_nil. } { apply Hbq. } { apply Hbq. }
  { cbn [md_body md_params]. rewrite substitute_render by done. apply expansion_free; [apply Hbody'; by left|].
    apply Forall_fmap. eapply Forall_impl; [exact Ha|]. intros a. apply arg_ok_plain. }
  cbn [md_body md_params] in Htext. rewrite substitute_render in Htext by done.
  unfold l2, max_macro_depth. cbv zeta. rewrite E. cbn. rewrite Htext. split; [|done]. by rewrite !app_nil_r.
Qed.

(** [`define MAX(a,b) a>b] and [x = `MAX(p, q );] *)
Lemma macro_call_expands_witness :
  let str := String.list_ascii_of_string in
  let r := preprocess (unlines [str "`define MAX(a,b) a>b"%string; str "x = `MAX(p, q );"%string]) default_options in
  pr_output r = unlines [[]; str "x = p>q;"%string] /\ pr_errors r = [].
Proof.
  intros str. refine (macro_call_expands (str "MAX") [str "a"; str "b"] [pc_word (str "a"); pc_char ">"; pc_word (str "b")]
    (str "x = ") [str "p"; str " q "] (str ";") default_options _ _ _ _ _ _ _ _ _)%string.
  - reflexivity.
  - repeat constructor.
  - reflexivity.
  - reflexivity.
  - intros c Hc. apply (bool_decide_unpack _). cbn in Hc. rewrite !elem_of_cons in Hc.
    destruct Hc as [->|[->|[->|Hc]]]; [vm_compute; exact I..|by apply elem_of_nil in Hc].
  - reflexivity.
  - repeat constructor.
  - reflexivity.
  - vm_compute. lia.
Defined.

(** A block comment that ends a line is not closed.  When the last characters of a line are the [*/] of a block comment, the
    preprocessor believes to be in the comment still: as long as no line has a [*/] before its end, every line is copied as it
    is, so that no directive takes effect, no macro is defined or expanded and no error is reported, while the lexer sees
    the lines as code. *)
Lemma comment_at_line_end_hides_directives (c : text) (ls : list text) (opt : preprocess_options) :
  block_len (c ++ ["*"; "/"]%char) = length (c ++ ["*"; "/"]%char) -> Forall (fun l => block_len l = length l /\ l ≠ []) ls ->
  Forall (fun l => one_line l /\ (carriage_return ∉ l)) (c :: ls) ->
  let src := unlines ((["/"; "*"] ++ c ++ ["*"; "/"])%char :: ls) in
  let r := preprocess src opt in
  pr_output r = src /\ pr_macros r = ∅ /\ pr_errors r = [].
Proof.
  intros Hc Hls Hone src r. inversion_clear Hone as [|? ? [Hc1 Hc2] Hone']. set (l := (["/"; "*"] ++ _)%char) in src.
  assert (Hl : one_line l /\ (carriage_return ∉ l)).
  { split; unfold l; cbn [app]; unfold one_line; rewrite !elem_of_cons, !elem_of_app, !elem_of_cons, elem_of_nil;
      intros [H|[H|[H|[H|[H|H]]]]]; done || by apply Hc1 in H || by apply Hc2 in H. }
  unfold r, preprocess, src. rewrite process_text_lines, split_unlines.
  2: { constructor; [apply Hl|]. eapply Forall_impl; [exact Hone'|]. by intros ? [? _]. }
  cbn [process_lines].
  assert (E : forall resolver self, process_line resolver self empty_pre 1 false l
    = (emit_newline (emit empty_pre (append_passthrough no_text l 1 1)) 1, true)).
  { intros resolver self. rewrite process_line_text by (rewrite strip_cr_free by apply Hl; done). rewrite strip_cr_free by apply Hl.
    unfold copy_line, expand_line_with_comments. cbn [current_active empty_pre pr_ifs pr_macros].
    assert (El : line_loop (length l) ∅ 1 0 l false no_text [] = ((append_passthrough no_text l 1 1, []), true))
      by exact (line_loop_comment_line _ ∅ 1 0 _ no_text [] Hc).
    by rewrite El. }
  rewrite E. clear E. cbn [Z.add].
  assert (Hrun : forall resolver self line s, pr_ifs s = [] ->
    let s' := process_lines resolver self line true ls s in
    pr_output s' = pr_output s ++ unlines ls /\ pr_macros s' = pr_macros s /\ pr_errors s' = pr_errors s).
  { clear -Hls Hone'. intros resolver self. induction Hls as [|l ls [Hl Hne] _ IH]; intros line s Hs.
    { cbn. by rewrite app_nil_r. }
    inversion_clear Hone' as [|? ? [H1 H2] Hone]. cbn [process_lines]. rewrite process_line_comment by done.
    edestruct (IH Hone (line + 1) (emit_newline (emit s (append_passthrough no_text l line 1)) line)) as (Ho & Hm & He); [done|].
    cbv zeta. rewrite Ho, Hm, He. split_and!; [|done..]. unfold unlines. cbn. by rewrite <- !app_assoc. }
  edestruct Hrun as (Ho & Hm & He); [|rewrite Ho, Hm, He]; [done|]. split_and!; [|done..]. unfold unlines. cbn. by rewrite <- !app_assoc.
Qed.

(** [/* header */], [`define W 8] and [wire [`W:0] a;] come out unchanged. *)
(** A header comment in front of a definition. *)
Lemma header_comment_hides_definition :
  let str := String.list_ascii_of_string in
  let src := unlines [str "/* header */"; str "`define W 8"; str "wire [`W:0] a;"]%string in
  let r := preprocess src default_options in
  pr_output r = src /\ pr_macros r = ∅ /\ pr_errors r = [].
Proof.
  intros str. refine (comment_at_line_end_hides_directives (str " header ") [str "`define W 8"; str "wire [`W:0] a;"] default_options _ _ _)%string.
  - reflexivity.
  - repeat constructor; discriminate.
  - repeat constructor; apply (bool_decide_unpack _); vm_compute; exact I.
Defined.

(** A macro in an argument of itself is taken for recursion. *)
Lemma nested_use_rejected :
  let str := String.list_ascii_of_string in
  let r := preprocess (unlines [str "`define ID(a) a"; str "x = `ID(`ID(1));"]%string) default_options in
  pr_output r = unlines [[]; str "x = (1);"%string] /\ length (pr_errors r) = 1%nat.
Proof. vm_compute. split; reflexivity. Qed.

(** A macro that starts a line is taken for a directive. *)
Lemma macro_at_line_start_rejected :
  let str := String.list_ascii_of_string in
  let r := preprocess (unlines [str "`define X a"; str "`X = 1;"]%string) default_options in
  pr_output r = unlines [[]; []] /\ length (pr_errors r) = 1%nat.
Proof. vm_compute. split; reflexivity. Qed.
