(* ===== verification/VSignals.v ===== *)
(** * Verilog: signals, vectors, parameters and scopes

    The symbol tables of verilog/digital/digital.h.  A module under construction
    numbers its one-bit signals and keeps for each its name and five flags;
    a vector lists the signals of its bits, named [base[idx]]; a parameter is a
    32-bit vector of constants; [proc_scope] holds the names bound in procedural
    blocks with an undo log.

    The operations run in the monad [L] of the builder: [None] is an unchecked
    access out of range or a signed overflow. *)

From S2P Require Import Prelude Logic4 VModule VLower VBits VLiteral.
From Stdlib Require Import ZArith Lia Ascii.

#[local] Open Scope Z_scope.

(** ** Updates of the module *)

Definition with_symbols (m : compiled_module) (vectors : gmap string vector_desc) (names : list string)
  (is_reg is_signed is_const foldable : list bool) (const_value : list dns) (index : gmap string nat) : compiled_module :=
  mk_module (cm_name m) (cm_ports m) (cm_port_order m) (cm_port_decls m) vectors names is_reg is_signed is_const
    foldable const_value index (cm_param_order m) (cm_param_default_values m) (cm_param_is_local m) (cm_expr_nodes m)
    (cm_expr_intern m) (cm_assigns m) (cm_always_ffs m) (cm_always_combs m) (cm_initials m) (cm_instances m)
    (cm_functions m) (cm_tasks m) (cm_inline_counter m).

Definition with_is_reg (m : compiled_module) (is_reg : list bool) : compiled_module :=
  with_symbols m (cm_vectors m) (cm_signal_names m) is_reg (cm_signal_is_signed m) (cm_signal_is_const m)
    (cm_signal_is_const_foldable m) (cm_signal_const_value m) (cm_signal_index m).

Definition with_is_signed (m : compiled_module) (is_signed : list bool) : compiled_module :=
  with_symbols m (cm_vectors m) (cm_signal_names m) (cm_signal_is_reg m) is_signed (cm_signal_is_const m)
    (cm_signal_is_const_foldable m) (cm_signal_const_value m) (cm_signal_index m).

Definition with_vectors (m : compiled_module) (vectors : gmap string vector_desc) : compiled_module :=
  with_symbols m vectors (cm_signal_names m) (cm_signal_is_reg m) (cm_signal_is_signed m) (cm_signal_is_const m)
    (cm_signal_is_const_foldable m) (cm_signal_const_value m) (cm_signal_index m).

Definition with_consts (m : compiled_module) (is_const foldable : list bool) (const_value : list dns) : compiled_module :=
  with_symbols m (cm_vectors m) (cm_signal_names m) (cm_signal_is_reg m) (cm_signal_is_signed m) is_const foldable
    const_value (cm_signal_index m).

Definition with_decls (m : compiled_module) (port_order : list string) (port_decls : gmap string port_decl)
  (param_order : list string) (defaults : gmap string Z) (is_local : gmap string bool) (counter : Z) : compiled_module :=
  mk_module (cm_name m) (cm_ports m) port_order port_decls (cm_vectors m) (cm_signal_names m) (cm_signal_is_reg m)
    (cm_signal_is_signed m) (cm_signal_is_const m) (cm_signal_is_const_foldable m) (cm_signal_const_value m)
    (cm_signal_index m) param_order defaults is_local (cm_expr_nodes m) (cm_expr_intern m) (cm_assigns m)
    (cm_always_ffs m) (cm_always_combs m) (cm_initials m) (cm_instances m) (cm_functions m) (cm_tasks m) counter.

(** An update of the module that may be undefined. *)
Definition update_module (f : compiled_module -> option compiled_module) : L () :=
  fun s => m ← f (ps_m s); Some ((), mk_pstate m (ps_errors s)).

(** [v.index_unchecked(i) = x] *)
Definition set_unchecked {A} (i : nat) (x : A) (l : list A) : option (list A) :=
  if bool_decide (i < length l)%nat then Some (<[i := x]> l) else None.

(** ** Signals *)

(** The new entry of every table. *)
Definition add_signal (m : compiled_module) (name : string) : compiled_module :=
  with_symbols m (cm_vectors m) (cm_signal_names m ++ [name]) (cm_signal_is_reg m ++ [false])
    (cm_signal_is_signed m ++ [false]) (cm_signal_is_const m ++ [false]) (cm_signal_is_const_foldable m ++ [false])
    (cm_signal_const_value m ++ [indeterminate_state]) (<[name := length (cm_signal_names m)]> (cm_signal_index m)).

Definition get_or_create_signal (name : string) : L nat := fun s =>
  match cm_signal_index (ps_m s) !! name with
  | Some idx => Some (idx, s)
  | None => Some (length (cm_signal_names (ps_m s)), mk_pstate (add_signal (ps_m s) name) (ps_errors s))
  end.

Definition set_is_reg (sig : nat) : L () :=
  update_module (fun m => with_is_reg m <$> set_unchecked sig true (cm_signal_is_reg m)).

Definition set_is_signed (sig : nat) : L () :=
  update_module (fun m => with_is_signed m <$> set_unchecked sig true (cm_signal_is_signed m)).

(** ** Names *)

Definition make_bit_name (base : string) (idx : Z) : string :=
  String.string_of_list_ascii (append_decimal (String.list_ascii_of_string base ++ ["["%char]) idx ++ ["]"%char]).

(** [$blk<n>__<visible>] with a number of its own. *)
Definition make_scoped_local_name (visible : string) : L string := fun s =>
  let m := ps_m s in
  let n := cm_inline_counter m in
  Some (String.string_of_list_ascii (["$"; "b"; "l"; "k"]%char ++ decimal n ++ ["_"; "_"]%char
          ++ String.list_ascii_of_string visible),
        mk_pstate (with_decls m (cm_port_order m) (cm_port_decls m) (cm_param_order m) (cm_param_default_values m)
          (cm_param_is_local m) ((n + 1) mod 2 ^ 64)) (ps_errors s)).

(** ** Vectors *)

Definition int_ok (z : Z) : bool := bool_decide (- 2 ^ 31 <= z < 2 ^ 31).

(** [vector_width] in [int]. *)
Definition vector_width (msb lsb : Z) : option nat :=
  let d := msb - lsb in
  if negb (int_ok d) then None
  else
    let w := if 0 <=? d then d + 1 else - d + 1 in
    if int_ok w then Some (Z.to_nat w) else None.

(** The loop over the bits of a new vector. *)
Definition declare_bit (base : string) (msb lsb : Z) (is_reg is_signed : bool) (pos : nat) : L index :=
  sig ← get_or_create_signal (make_bit_name base (vector_index_at msb lsb pos));
  _ ← (if is_reg then set_is_reg sig else mret ());
  _ ← (if is_signed then set_is_signed sig else mret ());
  mret (Some sig).

(** [with_parser] tells whether a parser is there to report to. *)
Definition declare_vector_range (with_parser : bool) (base : string) (msb lsb : Z) (is_reg is_signed : bool)
  : L vector_desc :=
  m ← get_module;
  match cm_vectors m !! base with
  | Some vd =>
      _ ← (if with_parser && negb (bool_decide (vd_msb vd = msb) && bool_decide (vd_lsb vd = lsb))
           then report "redeclared vector with a different range is not supported" else mret ());
      let to_reg := is_reg && negb (vd_is_reg vd) in
      let vd' := mk_vector (vd_msb vd) (vd_lsb vd) (vd_is_reg vd || is_reg) (vd_is_signed vd || is_signed) (vd_bits vd) in
      _ ← update_module (fun m => Some (with_vectors m (<[base := vd']> (cm_vectors m))));
      _ ← (if to_reg
           then update_module (fun m => Some (with_is_reg m
                  (foldl (fun l sig => match sig with Some i => <[i := true]> l | None => l end) (cm_signal_is_reg m) (vd_bits vd))))
           else mret ());
      mret vd'
  | None =>
      w ← unchecked (vector_width msb lsb);
      bits ← lmap (declare_bit base msb lsb is_reg is_signed) (seq 0 w);
      let vd := mk_vector msb lsb is_reg is_signed bits in
      _ ← update_module (fun m => Some (with_vectors m (<[base := vd]> (cm_vectors m))));
      mret vd
  end.

Definition get_or_create_vector_bit (base : string) (idx : Z) (is_reg : bool) : L index :=
  m ← get_module;
  match (vd ← cm_vectors m !! base; pos ← vector_pos (vd_msb vd) (vd_lsb vd) idx; Some (vd, pos)) with
  | Some (vd, pos) => unchecked (vd_bits vd !! pos)
  | None =>
      sig ← get_or_create_signal (make_bit_name base idx);
      _ ← (if is_reg then set_is_reg sig else mret ());
      mret (Some sig)
  end.

(** ** Ports *)

Definition ensure_port_decl (base : string) : L port_decl := fun s =>
  let m := ps_m s in
  match cm_port_decls m !! base with
  | Some pd => Some (pd, s)
  | None =>
      Some (port_decl_default,
        mk_pstate (with_decls m (cm_port_order m ++ [base]) (<[base := port_decl_default]> (cm_port_decls m))
          (cm_param_order m) (cm_param_default_values m) (cm_param_is_local m) (cm_inline_counter m)) (ps_errors s))
  end.

(** ** Parameters *)

Definition set_const_signal (sig : index) (v : dns) : L () :=
  update_module (fun m =>
    match sig with
    | Some i =>
        let n := length (cm_signal_names m) in
        if bool_decide (n <= i)%nat then Some m
        else
          let short := bool_decide (length (cm_signal_is_const m) < n)%nat in
          let is_const := if short then grow n false (cm_signal_is_const m) else cm_signal_is_const m in
          let foldable := if short then grow n false (cm_signal_is_const_foldable m) else cm_signal_is_const_foldable m in
          let value := if short then grow n false_state (cm_signal_const_value m) else cm_signal_const_value m in
          is_const ← set_unchecked i true is_const;
          value ← set_unchecked i v value;
          Some (with_consts m is_const foldable value)
    | None => Some m
    end).

(** [if(sig < signal_is_const_foldable.size()) ... = is_local] *)
Definition set_foldable (sig : index) (is_local : bool) : L () :=
  update_module (fun m =>
    Some (with_consts m (cm_signal_is_const m)
      (match sig with Some i => <[i := is_local]> (cm_signal_is_const_foldable m) | None => cm_signal_is_const_foldable m end)
      (cm_signal_const_value m))).

(** One bit of a parameter. *)
Definition set_param_bit (is_local : bool) (bit : index * dns) : L () :=
  _ ← set_const_signal bit.1 bit.2; set_foldable bit.1 is_local.

(** The bits of a parameter with their values, in the order of the loops: from
    the lsb for 32 bits, unknown for any other width. *)
Definition define_param_bits (bits : list index) (value : Z) : list (index * dns) :=
  if bool_decide (length bits = 32%nat)
  then zip (rev bits) (dns_of_bool <$> lbits 32 value)
  else (fun sig => (sig, indeterminate_state)) <$> bits.

Definition add_param (name : string) (value : Z) (is_local : bool) (m : compiled_module) : compiled_module :=
  with_decls m (cm_port_order m) (cm_port_decls m)
    (if is_local then cm_param_order m else cm_param_order m ++ [name])
    (<[name := value]> (cm_param_default_values m))
    (match cm_param_is_local m !! name with Some _ => cm_param_is_local m | None => <[name := is_local]> (cm_param_is_local m) end)
    (cm_inline_counter m).

Definition define_param (with_parser : bool) (name : string) (value : Z) (is_local : bool) : L () :=
  if bool_decide (name = ""%string) then mret ()
  else
    m ← get_module;
    match cm_param_default_values m !! name with
    | Some _ => if with_parser then report "redeclared parameter/localparam is not supported" else mret ()
    | None =>
        vd ← declare_vector_range with_parser name 31 0 false false;
        _ ← lmap (set_param_bit is_local) (define_param_bits (vd_bits vd) value);
        update_module (fun m => Some (add_param name value is_local m))
    end.

(** ** Scopes of procedural blocks *)

Record undo_entry := mk_undo {
  ue_name : string;
  ue_prev_alias : option string;
  ue_prev_subst : option expr_value;
}.

Record proc_scope := mk_scope {
  ps_aliases : gmap string string;
  ps_subst : gmap string expr_value;
  ps_undo_stack : list undo_entry;
  ps_frame_marks : list nat;
}.

Definition scope_default : proc_scope := mk_scope ∅ ∅ [] [].

Definition push_frame (sc : proc_scope) : proc_scope :=
  mk_scope (ps_aliases sc) (ps_subst sc) (ps_undo_stack sc) (ps_frame_marks sc ++ [length (ps_undo_stack sc)]).

(** One entry of the log is undone. *)
Definition undo_one (sc : proc_scope) (u : undo_entry) : proc_scope :=
  mk_scope
    (match ue_prev_alias u with Some a => <[ue_name u := a]> (ps_aliases sc) | None => delete (ue_name u) (ps_aliases sc) end)
    (match ue_prev_subst u with Some v => <[ue_name u := v]> (ps_subst sc) | None => delete (ue_name u) (ps_subst sc) end)
    (removelast (ps_undo_stack sc)) (ps_frame_marks sc).

Definition pop_frame (sc : proc_scope) : proc_scope :=
  match last (ps_frame_marks sc) with
  | None => sc
  | Some mark =>
      foldl undo_one (mk_scope (ps_aliases sc) (ps_subst sc) (ps_undo_stack sc) (removelast (ps_frame_marks sc)))
        (rev (drop mark (ps_undo_stack sc)))
  end.

Definition bind (sc : proc_scope) (visible internal : string) (ev : expr_value) : proc_scope :=
  mk_scope (<[visible := internal]> (ps_aliases sc)) (<[visible := ev]> (ps_subst sc))
    (ps_undo_stack sc ++ [mk_undo visible (ps_aliases sc !! visible) (ps_subst sc !! visible)]) (ps_frame_marks sc).

(** ** Frames restore the scope *)

Inductive scope_op := so_push | so_pop | so_bind (visible internal : string) (ev : expr_value).

Definition scope_step (sc : proc_scope) (op : scope_op) : proc_scope :=
  match op with
  | so_push => push_frame sc
  | so_pop => pop_frame sc
  | so_bind visible internal ev => bind sc visible internal ev
  end.

(** What a block does to its scope: it binds names and enters inner blocks,
    which it leaves. *)
Inductive block_ops : list scope_op -> Prop :=
| bo_nil : block_ops []
| bo_bind visible internal ev ops : block_ops ops -> block_ops (so_bind visible internal ev :: ops)
| bo_block inner ops : block_ops inner -> block_ops ops -> block_ops (so_push :: inner ++ so_pop :: ops).

(** [log] undoes what leads from [sc] to [sc']. *)
Definition undoes (sc sc' : proc_scope) (log : list undo_entry) : Prop :=
  ps_undo_stack sc' = ps_undo_stack sc ++ log /\ ps_frame_marks sc' = ps_frame_marks sc
  /\ foldl undo_one sc' (rev log) = sc.

Lemma undo_bind sc visible internal ev :
  undo_one (bind sc visible internal ev) (mk_undo visible (ps_aliases sc !! visible) (ps_subst sc !! visible)) = sc.
Proof.
  destruct sc as [al su st ma]. unfold undo_one, bind. cbn [ps_aliases ps_subst ps_undo_stack ps_frame_marks ue_prev_alias ue_prev_subst ue_name].
  rewrite removelast_last. f_equal.
  - destruct (al !! visible) eqn:E; [by rewrite insert_insert_eq, insert_id|by rewrite delete_insert_id].
  - destruct (su !! visible) eqn:E; [by rewrite insert_insert_eq, insert_id|by rewrite delete_insert_id].
Qed.

Lemma undoes_bind sc sc' log visible internal ev :
  undoes (bind sc visible internal ev) sc' log ->
  undoes sc sc' (mk_undo visible (ps_aliases sc !! visible) (ps_subst sc !! visible) :: log).
Proof.
  intros (Hst & Hma & Hun). split_and!.
  - rewrite Hst. unfold bind. cbn [ps_undo_stack]. by rewrite <- app_assoc.
  - by rewrite Hma.
  - cbn [rev]. rewrite foldl_app, Hun. apply undo_bind.
Qed.

(** Leaving a frame undoes what was logged in it. *)
Lemma pop_undoes sc sc' log : undoes (push_frame sc) sc' log -> pop_frame sc' = sc.
Proof.
  intros (Hst & Hma & Hun). unfold pop_frame. rewrite Hma. unfold push_frame in *. cbn [ps_frame_marks ps_undo_stack] in *.
  rewrite last_snoc, removelast_last. replace (drop _ (ps_undo_stack sc')) with log by (by rewrite Hst, drop_app_length).
  assert (Hfr : forall l x, foldl undo_one (mk_scope (ps_aliases x) (ps_subst x) (ps_undo_stack x) (ps_frame_marks sc)) l
    = let y := foldl undo_one x l in mk_scope (ps_aliases y) (ps_subst y) (ps_undo_stack y) (ps_frame_marks sc)).
  { induction l as [|u l IH]; intros x; [done|]. cbn [foldl]. by rewrite <- IH. }
  rewrite Hfr, Hun. by destruct sc.
Qed.

Lemma block_undoes ops sc : block_ops ops -> exists log, undoes sc (foldl scope_step sc ops) log.
Proof.
  intros Hops. revert sc. induction Hops as [|visible internal ev ops _ IH|inner ops _ IHi _ IH]; intros sc.
  - exists []. by split_and!; [rewrite app_nil_r|..].
  - destruct (IH (bind sc visible internal ev)) as [log Hlog]. eexists.
    by apply (undoes_bind sc _ log visible internal ev).
  - cbn [foldl scope_step]. rewrite foldl_app. cbn [foldl scope_step]. destruct (IHi (push_frame sc)) as [log Hlog].
    rewrite (pop_undoes sc _ log Hlog). apply IH.
Qed.

(** ** Names of bits *)

Lemma app_cons_inj {A} (x : A) l1 k1 l2 k2 : x ∉ k1 -> x ∉ k2 -> l1 ++ x :: k1 = l2 ++ x :: k2 -> l1 = l2 /\ k1 = k2.
Proof.
  intros H1 H2. revert l2. induction l1 as [|y l1 IH]; intros [|z l2]; cbn [app].
  - by intros [= ->].
  - intros [= -> ->]. exfalso. apply H1. rewrite elem_of_app, elem_of_cons. by right; left.
  - intros [= <- <-]. exfalso. apply H2. rewrite elem_of_app, elem_of_cons. by right; left.
  - intros [= -> E]. by destruct (IH _ E) as [-> ->].
Qed.

(** The text [append_decimal] appends. *)
Definition int_text (v : Z) : text := append_decimal [] v.

Lemma append_decimal_app s v : append_decimal s v = s ++ int_text v.
Proof. done. Qed.

Lemma decimal_not_digit c v : digit_of c = None -> c ∉ decimal v.
Proof. intros Hc Hin. pose proof (proj1 (Forall_forall _ _) (decimal_chars v) _ Hin) as [d Hd]. congruence. Qed.

Lemma int_text_bracket v : "["%char ∉ int_text v.
Proof.
  unfold int_text, append_decimal. rewrite app_nil_l. destruct (v <? 0); [apply not_elem_of_cons; split; [done|]|];
    by apply decimal_not_digit.
Qed.

Lemma decimal_inj v u : 0 <= v < 2 ^ 64 -> 0 <= u < 2 ^ 64 -> decimal v = decimal u -> v = u.
Proof. intros Hv Hu E. pose proof (parse_decimal v Hv) as H1. rewrite E, parse_decimal in H1 by done. congruence. Qed.

Lemma int_text_inj v u : int_ok v = true -> int_ok u = true -> int_text v = int_text u -> v = u.
Proof.
  unfold int_ok. rewrite !bool_decide_eq_true. intros Hv Hu. unfold int_text, append_decimal. rewrite !app_nil_l.
  assert (Hd : forall x, "-"%char ∉ decimal x) by (intros x; by apply decimal_not_digit).
  destruct (Z.ltb_spec v 0), (Z.ltb_spec u 0); intros E.
  - injection E as E. apply decimal_inj in E; lia.
  - destruct (Hd u). rewrite <- E. apply elem_of_cons. by left.
  - destruct (Hd v). rewrite E. apply elem_of_cons. by left.
  - apply decimal_inj in E; lia.
Qed.

Lemma string_of_list_inj l k : String.string_of_list_ascii l = String.string_of_list_ascii k -> l = k.
Proof. intros E. by rewrite <- (String.list_ascii_of_string_of_list_ascii l), E, String.list_ascii_of_string_of_list_ascii. Qed.

Lemma list_of_string_inj s t : String.list_ascii_of_string s = String.list_ascii_of_string t -> s = t.
Proof. intros E. by rewrite <- (String.string_of_list_ascii_of_string s), E, String.string_of_list_ascii_of_string. Qed.

(** Different bits have different names. *)
Lemma make_bit_name_inj b1 i1 b2 i2 :
  int_ok i1 = true -> int_ok i2 = true -> make_bit_name b1 i1 = make_bit_name b2 i2 -> b1 = b2 /\ i1 = i2.
Proof.
  intros H1 H2 E. apply string_of_list_inj in E. rewrite !append_decimal_app in E. apply app_inj_2 in E as [E _]; [|done].
  rewrite <- !app_assoc in E. cbn [app] in E. apply app_cons_inj in E as [Eb Ei]; [|apply int_text_bracket..].
  split; [by apply list_of_string_inj|by apply int_text_inj].
Qed.

(** ** Ranges *)

Lemma vector_width_spec msb lsb w :
  vector_width msb lsb = Some w -> Z.of_nat w = Z.abs (msb - lsb) + 1 /\ (0 < w)%nat.
Proof.
  unfold vector_width. destruct (int_ok (msb - lsb)); [|done]. cbn [negb].
  destruct (Z.leb_spec 0 (msb - lsb)); (destruct (int_ok _); [|done]); intros [= <-]; lia.
Qed.

Lemma vector_index_at_int msb lsb w pos :
  int_ok msb = true -> int_ok lsb = true -> vector_width msb lsb = Some w -> (pos < w)%nat ->
  int_ok (vector_index_at msb lsb pos) = true.
Proof.
  unfold int_ok, vector_index_at. rewrite !bool_decide_eq_true. intros Hm Hl Hw%vector_width_spec Hp.
  case_bool_decide; lia.
Qed.

Lemma vector_index_at_inj msb lsb p q : vector_index_at msb lsb p = vector_index_at msb lsb q -> p = q.
Proof. unfold vector_index_at. case_bool_decide; lia. Qed.

(** [vector_pos] inverts [vector_index_at]. *)
Lemma vector_pos_index_at msb lsb w idx pos :
  vector_width msb lsb = Some w -> vector_pos msb lsb idx = Some pos -> (pos < w)%nat /\ vector_index_at msb lsb pos = idx.
Proof.
  intros Hw%vector_width_spec. unfold vector_pos, vector_contains, vector_index_at.
  case_bool_decide; case_bool_decide; try done; case_bool_decide; try done; cbn [andb negb]; intros [= <-]; lia.
Qed.

(** ** The invariant of the symbol tables *)

(** A vector lists one signal per index of its range, under the name of the
    bit. *)
Definition vector_ok (m : compiled_module) (base : string) (vd : vector_desc) : Prop :=
  int_ok (vd_msb vd) = true /\ int_ok (vd_lsb vd) = true
  /\ vector_width (vd_msb vd) (vd_lsb vd) = Some (length (vd_bits vd))
  /\ forall pos, (pos < length (vd_bits vd))%nat -> exists sig,
       vd_bits vd !! pos = Some (Some sig)
       /\ cm_signal_names m !! sig = Some (make_bit_name base (vector_index_at (vd_msb vd) (vd_lsb vd) pos))
       /\ (vd_is_reg vd = true -> cm_signal_is_reg m !! sig = Some true).

(** The tables are as long as the names, names and indices are inverse, vectors
    are in order. *)
Record tables_ok (m : compiled_module) : Prop := {
  to_is_reg : length (cm_signal_is_reg m) = length (cm_signal_names m);
  to_is_signed : length (cm_signal_is_signed m) = length (cm_signal_names m);
  to_is_const : length (cm_signal_is_const m) = length (cm_signal_names m);
  to_foldable : length (cm_signal_is_const_foldable m) = length (cm_signal_names m);
  to_const_value : length (cm_signal_const_value m) = length (cm_signal_names m);
  to_index : forall name i, cm_signal_index m !! name = Some i <-> cm_signal_names m !! i = Some name;
  to_vectors : forall base vd, cm_vectors m !! base = Some vd -> vector_ok m base vd;
}.

(** A signal is the constant [d], replaceable exactly in a [localparam]. *)
Definition bit_const (m : compiled_module) (is_local : bool) (bit : index * dns) : Prop :=
  exists i, bit.1 = Some i /\ cm_signal_is_const m !! i = Some true
    /\ cm_signal_is_const_foldable m !! i = Some is_local /\ cm_signal_const_value m !! i = Some bit.2.

(** The bit of a parameter at a position from the msb on: a parameter has the 32 bits of its value; where its name was
    declared as a vector of another width before, its bits are unknown. *)
Definition param_bit (w : nat) (v : Z) (pos : nat) : dns :=
  if decide (w = 32%nat) then dns_of_bool (Z.testbit v (31 - Z.of_nat pos)) else indeterminate_state.

(** The parameters are vectors of constants with the bits of their values, and
    no other signal is constant. *)
Record params_ok (m : compiled_module) : Prop := {
  po_dom : forall name, is_Some (cm_param_default_values m !! name) <-> is_Some (cm_param_is_local m !! name);
  po_nodup : NoDup (cm_param_order m);
  po_order : forall name, name ∈ cm_param_order m <-> cm_param_is_local m !! name = Some false;
  po_bits : forall name v loc, cm_param_default_values m !! name = Some v -> cm_param_is_local m !! name = Some loc ->
    exists vd, cm_vectors m !! name = Some vd
      /\ forall pos sig, vd_bits vd !! pos = Some (Some sig) -> bit_const m loc (Some sig, param_bit (length (vd_bits vd)) v pos);
  po_only : forall i, cm_signal_is_const m !! i = Some true ->
    exists name vd, is_Some (cm_param_default_values m !! name) /\ cm_vectors m !! name = Some vd /\ Some i ∈ vd_bits vd;
}.

Record ports_ok (m : compiled_module) : Prop := {
  pt_nodup : NoDup (cm_port_order m);
  pt_order : forall name, name ∈ cm_port_order m <-> is_Some (cm_port_decls m !! name);
}.

Definition symbols_ok (m : compiled_module) : Prop := tables_ok m /\ params_ok m /\ ports_ok m.

(** The module grew by signals that are no constants; vectors kept their
    bits. *)
Record grows (m m' : compiled_module) : Prop := {
  gr_names : exists l, cm_signal_names m' = cm_signal_names m ++ l;
  gr_is_const : exists k, cm_signal_is_const m' = cm_signal_is_const m ++ replicate k false;
  gr_foldable : exists l, cm_signal_is_const_foldable m' = cm_signal_is_const_foldable m ++ l;
  gr_const_value : exists l, cm_signal_const_value m' = cm_signal_const_value m ++ l;
  gr_vectors : forall base vd, cm_vectors m !! base = Some vd ->
    exists vd', cm_vectors m' !! base = Some vd' /\ vd_bits vd' = vd_bits vd /\ vd_msb vd' = vd_msb vd /\ vd_lsb vd' = vd_lsb vd;
  gr_params : cm_param_order m' = cm_param_order m /\ cm_param_default_values m' = cm_param_default_values m
    /\ cm_param_is_local m' = cm_param_is_local m;
  gr_ports : cm_port_order m' = cm_port_order m /\ cm_port_decls m' = cm_port_decls m;
}.

#[global] Instance grows_preorder : PreOrder grows.
Proof.
  split.
  - intros m. split; try (exists []; by rewrite app_nil_r); [|eauto|done|done]. exists 0%nat. by rewrite app_nil_r.
  - intros m1 m2 m3 [[n1 N1] [k1 K1] [f1 F1] [c1 C1] V1 P1 Q1] [[n2 N2] [k2 K2] [f2 F2] [c2 C2] V2 P2 Q2]. split.
    + exists (n1 ++ n2). by rewrite N2, N1, app_assoc.
    + exists (k1 + k2)%nat. by rewrite K2, K1, replicate_add, app_assoc.
    + exists (f1 ++ f2). by rewrite F2, F1, app_assoc.
    + exists (c1 ++ c2). by rewrite C2, C1, app_assoc.
    + intros base vd Hvd. destruct (V1 base vd Hvd) as (vd1 & H1 & B1 & M1 & L1).
      destruct (V2 base vd1 H1) as (vd2 & H2 & B2 & M2 & L2). exists vd2. split_and!; [done|congruence..].
    + destruct P1 as (? & ? & ?), P2 as (? & ? & ?). split_and!; congruence.
    + destruct Q1, Q2. split; congruence.
Qed.

Lemma bit_const_grows m m' loc bit : grows m m' -> bit_const m loc bit -> bit_const m' loc bit.
Proof.
  intros G (i & Hi & Hc & Hf & Hv). exists i. destruct (gr_is_const _ _ G) as [k ->], (gr_foldable _ _ G) as [lf ->],
    (gr_const_value _ _ G) as [lv ->]. split_and!; [done|by apply lookup_app_l_Some..].
Qed.

Lemma params_grow m m' : grows m m' -> params_ok m -> params_ok m'.
Proof.
  intros G P. pose proof (gr_params _ _ G) as (Eo & Ed & El). split; rewrite ?Eo, ?Ed, ?El; try apply P.
  - intros name v loc Hv Hloc. destruct (po_bits _ P name v loc Hv Hloc) as (vd & Hvd & Hbits).
    destruct (gr_vectors _ _ G name vd Hvd) as (vd' & Hvd' & Eb & _). exists vd'. split; [done|]. rewrite Eb.
    intros pos sig Hp. eapply bit_const_grows; [done|]. by apply Hbits.
  - intros i Hi. destruct (gr_is_const _ _ G) as [k Ek]. rewrite Ek in Hi. apply lookup_app_Some in Hi as [Hi|[_ Hi]].
    + destruct (po_only _ P i Hi) as (name & vd & Hd & Hvd & Hin). destruct (gr_vectors _ _ G name vd Hvd) as (vd' & ? & Eb & _).
      exists name, vd'. by rewrite Eb.
    + by apply lookup_replicate in Hi as [? _].
Qed.

Lemma ports_grow m m' : grows m m' -> ports_ok m -> ports_ok m'.
Proof. intros G [P1 P2]. pose proof (gr_ports _ _ G) as [Eo Ed]. split; by rewrite ?Eo, ?Ed. Qed.

(** ** Steps that return *)

(** The step returns, and [Q] holds of the result and the new module. *)
Definition returns {A} (c : L A) (m : compiled_module) (Q : A -> compiled_module -> Prop) : Prop :=
  forall errs, exists a m' errs', c (mk_pstate m errs) = Some (a, mk_pstate m' errs') /\ Q a m'.

Lemma returns_ret {A} (a : A) m (Q : A -> compiled_module -> Prop) : Q a m -> returns (mret a) m Q.
Proof. intros HQ errs. by exists a, m, errs. Qed.

Lemma returns_then {A B} (c : L A) (f : A -> L B) m Q (R : B -> compiled_module -> Prop) :
  returns c m Q -> (forall a m', Q a m' -> returns (f a) m' R) -> returns (c ≫= f) m R.
Proof.
  intros Hc Hf errs. destruct (Hc errs) as (a & m1 & e1 & E & HQ). destruct (Hf a m1 HQ e1) as (b & m2 & e2 & E2 & HR).
  exists b, m2, e2. split; [|done]. unfold mbind, L_bind. rewrite E. exact E2.
Qed.

Lemma returns_get m (Q : compiled_module -> compiled_module -> Prop) : Q m m -> returns get_module m Q.
Proof. intros HQ errs. by exists m, m, errs. Qed.

Lemma returns_report msg m (Q : () -> compiled_module -> Prop) : Q () m -> returns (report msg) m Q.
Proof. intros HQ errs. by do 3 eexists. Qed.

Lemma returns_unchecked {A} (x : option A) a m (Q : A -> compiled_module -> Prop) :
  x = Some a -> Q a m -> returns (unchecked x) m Q.
Proof. intros -> HQ errs. by do 3 eexists. Qed.

Lemma returns_update f m m' (Q : () -> compiled_module -> Prop) : f m = Some m' -> Q () m' -> returns (update_module f) m Q.
Proof. intros E HQ errs. exists (), m', errs. split; [|done]. unfold update_module. cbn [ps_m]. by rewrite E. Qed.

(** The steps whose result is known. *)
Lemma bind_ret {A B} (a : A) (f : A -> L B) m R : returns (f a) m R -> returns (mret a ≫= f) m R.
Proof. intros Hf. by apply (returns_then _ _ _ (fun x m' => x = a /\ m' = m)); [apply returns_ret|intros ? ? [-> ->]]. Qed.

Lemma bind_get {B} (f : compiled_module -> L B) m R : returns (f m) m R -> returns (get_module ≫= f) m R.
Proof. intros Hf. by apply (returns_then _ _ _ (fun x m' => x = m /\ m' = m)); [apply returns_get|intros ? ? [-> ->]]. Qed.

Lemma bind_report {B} msg (f : () -> L B) m R : returns (f ()) m R -> returns (report msg ≫= f) m R.
Proof. intros Hf. by apply (returns_then _ _ _ (fun _ m' => m' = m)); [apply returns_report|intros [] ? ->]. Qed.

Lemma bind_unchecked {A B} (x : option A) a (f : A -> L B) m R :
  x = Some a -> returns (f a) m R -> returns (unchecked x ≫= f) m R.
Proof.
  intros Hx Hf. by apply (returns_then _ _ _ (fun b m' => b = a /\ m' = m)); [apply (returns_unchecked _ a)|intros ? ? [-> ->]].
Qed.

Lemma bind_update {B} g m m' (f : () -> L B) R :
  g m = Some m' -> returns (f ()) m' R -> returns (update_module g ≫= f) m R.
Proof.
  intros Hg Hf. by apply (returns_then _ _ _ (fun _ m1 => m1 = m')); [apply (returns_update _ _ m')|intros [] ? ->].
Qed.

Lemma returns_weaken {A} (c : L A) m (Q R : A -> compiled_module -> Prop) :
  returns c m Q -> (forall a m', Q a m' -> R a m') -> returns c m R.
Proof. intros Hc HQ errs. destruct (Hc errs) as (a & m' & e & E & H). exists a, m', e. auto. Qed.

(** A table step: it keeps the tables in order, and the module grows. *)
Definition table_step (m m' : compiled_module) : Prop := grows m m' /\ (tables_ok m -> tables_ok m').

#[global] Instance table_step_preorder : PreOrder table_step.
Proof.
  split; [intros m; by split|]. intros m1 m2 m3 [G1 T1] [G2 T2]. split; [by transitivity m2|auto].
Qed.

(** ** Creating signals *)

Lemma vector_ok_names m m' base vd l :
  cm_signal_names m' = cm_signal_names m ++ l ->
  (forall sig, cm_signal_is_reg m !! sig = Some true -> cm_signal_is_reg m' !! sig = Some true) ->
  vector_ok m base vd -> vector_ok m' base vd.
Proof.
  intros En Hreg (Hm & Hl & Hw & Hbits). split_and!; [done..|]. intros pos Hp. destruct (Hbits pos Hp) as (sig & Hs & Hn & Hr).
  exists sig. split_and!; [done|rewrite En; by apply lookup_app_l_Some|auto].
Qed.

Lemma add_signal_step m name : cm_signal_index m !! name = None -> table_step m (add_signal m name).
Proof.
  intros Hnew. split.
  { split; cbn; eauto. by exists 1%nat. }
  intros T. split; cbn; rewrite ?length_app; try (by destruct T; lia).
  - by rewrite (to_is_reg _ T).
  - by rewrite (to_is_signed _ T).
  - by rewrite (to_is_const _ T).
  - by rewrite (to_foldable _ T).
  - by rewrite (to_const_value _ T).
  - intros n i. rewrite lookup_insert_Some, lookup_app_Some. rewrite !(to_index _ T). split.
    + intros [[<- <-]|[Hne Hn]]; [right|by left]. by rewrite Nat.sub_diag.
    + intros [Hn|[Hge Hn]].
      * right. split; [|done]. intros <-. apply (to_index _ T) in Hn. congruence.
      * left. apply list_lookup_singleton_Some in Hn as [Hi ->]. split; [done|lia].
  - intros base vd Hvd. eapply vector_ok_names; [done| |by apply (to_vectors _ T)]. intros sig Hs. by apply lookup_app_l_Some.
Qed.

(** ** Flags *)

(** The registers are still registers. *)
Definition regs_kept (l l' : list bool) : Prop :=
  length l' = length l /\ forall sig, l !! sig = Some true -> l' !! sig = Some true.

Lemma regs_kept_insert l i : regs_kept l (<[i := true]> l).
Proof.
  split; [apply length_insert|]. intros sig Hs. destruct (decide (i = sig)) as [->|Hne].
  - rewrite list_lookup_insert_eq; [done|]. by apply lookup_lt_Some in Hs.
  - by rewrite list_lookup_insert_ne.
Qed.

#[global] Instance regs_kept_preorder : PreOrder regs_kept.
Proof. split; [intros l; by split|]. intros l1 l2 l3 [E1 H1] [E2 H2]. split; [congruence|auto]. Qed.

Lemma with_is_reg_step m l : regs_kept (cm_signal_is_reg m) l -> table_step m (with_is_reg m l).
Proof.
  intros [El Hl]. split.
  { split; cbn; eauto; try (exists []; by rewrite app_nil_r). exists 0%nat. by rewrite app_nil_r. }
  intros T. split; cbn; try apply T; [rewrite El; apply T|]. intros base vd Hvd.
  apply (vector_ok_names m _ base vd []); [by rewrite app_nil_r|done|by apply T].
Qed.

Lemma with_is_signed_step m l : length l = length (cm_signal_is_signed m) -> table_step m (with_is_signed m l).
Proof.
  intros El. split.
  { split; cbn; eauto; try (exists []; by rewrite app_nil_r). exists 0%nat. by rewrite app_nil_r. }
  intros T. split; cbn; try apply T. rewrite El; apply T.
Qed.

Lemma with_vector_step m base vd :
  vector_ok m base vd ->
  (forall old, cm_vectors m !! base = Some old -> vd_bits vd = vd_bits old /\ vd_msb vd = vd_msb old /\ vd_lsb vd = vd_lsb old) ->
  table_step m (with_vectors m (<[base := vd]> (cm_vectors m))).
Proof.
  intros Hok Hold. split.
  { split; cbn; eauto; try (exists []; by rewrite app_nil_r); [exists 0%nat; by rewrite app_nil_r|].
    intros b vd0 Hvd0. destruct (decide (base = b)) as [<-|Hne].
    - exists vd. rewrite lookup_insert_eq. split; [done|by apply Hold].
    - exists vd0. by rewrite lookup_insert_ne. }
  intros T. split; cbn; try apply T. intros b vd0. rewrite lookup_insert_Some. intros [[<- <-]|[_ Hvd0]]; [done|].
  by apply (to_vectors _ T) in Hvd0.
Qed.

(** ** Steps on one bit *)

(** The steps on a bit keep the tables in order, the registers and the
    vectors. *)
Record bit_step (m m' : compiled_module) : Prop := {
  bs_table : table_step m m';
  bs_regs : forall sig, cm_signal_is_reg m !! sig = Some true -> cm_signal_is_reg m' !! sig = Some true;
  bs_vectors : cm_vectors m' = cm_vectors m;
}.

#[global] Instance bit_step_preorder : PreOrder bit_step.
Proof.
  split; [intros m; by split|]. intros m1 m2 m3 [T1 R1 V1] [T2 R2 V2]. split; [by transitivity m2|auto|congruence].
Qed.

Lemma bit_step_tables m m' : bit_step m m' -> tables_ok m -> tables_ok m'.
Proof. intros [[_ T] _ _]. done. Qed.

Lemma bit_step_name m m' i name : bit_step m m' -> cm_signal_names m !! i = Some name -> cm_signal_names m' !! i = Some name.
Proof. intros [[G _] _ _] Hi. destruct (gr_names _ _ G) as [l ->]. by apply lookup_app_l_Some. Qed.

#[global] Hint Resolve bit_step_tables bit_step_name : phy.

Lemma get_or_create_signal_returns m name :
  tables_ok m ->
  returns (get_or_create_signal name) m (fun sig m' => bit_step m m' /\ cm_signal_names m' !! sig = Some name).
Proof.
  intros T errs. unfold get_or_create_signal. cbn [ps_m ps_errors]. destruct (cm_signal_index m !! name) as [i|] eqn:Hi.
  - exists i, m, errs. split; [done|]. split; [done|]. by apply (to_index _ T).
  - do 3 eexists. split; [done|]. split; [split; [by apply add_signal_step| |done]|].
    + intros sig Hs. by apply lookup_app_l_Some.
    + cbn. by rewrite lookup_app_r, Nat.sub_diag by lia.
Qed.

Lemma set_is_reg_returns m sig name :
  tables_ok m -> cm_signal_names m !! sig = Some name ->
  returns (set_is_reg sig) m (fun _ m' => bit_step m m' /\ cm_signal_is_reg m' !! sig = Some true).
Proof.
  intros T Hs%lookup_lt_Some. rewrite <- (to_is_reg _ T) in Hs. eapply returns_update.
  { unfold set_unchecked. rewrite bool_decide_eq_true_2 by done. reflexivity. }
  split; [split; [apply with_is_reg_step, regs_kept_insert|apply regs_kept_insert|done]|]. by apply list_lookup_insert_eq.
Qed.

Lemma set_is_signed_returns m sig name :
  tables_ok m -> cm_signal_names m !! sig = Some name -> returns (set_is_signed sig) m (fun _ m' => bit_step m m').
Proof.
  intros T Hs%lookup_lt_Some. rewrite <- (to_is_signed _ T) in Hs. eapply returns_update.
  { unfold set_unchecked. rewrite bool_decide_eq_true_2 by done. reflexivity. }
  split; [|done|done]. apply with_is_signed_step. by rewrite length_insert.
Qed.

(** ** Declaring vectors *)

(** What is known of one declared bit. *)
Definition bit_declared (m : compiled_module) (base : string) (msb lsb : Z) (is_reg : bool) (pos : nat) (bit : index) : Prop :=
  exists sig, bit = Some sig /\ cm_signal_names m !! sig = Some (make_bit_name base (vector_index_at msb lsb pos))
    /\ (is_reg = true -> cm_signal_is_reg m !! sig = Some true).

Lemma bit_declared_step m m' base msb lsb is_reg pos bit :
  bit_step m m' -> bit_declared m base msb lsb is_reg pos bit -> bit_declared m' base msb lsb is_reg pos bit.
Proof.
  intros S (sig & -> & Hn & Hreg). exists sig. split_and!; [done|by eapply bit_step_name|]. intros Hr. by apply (bs_regs _ _ S), Hreg.
Qed.

Lemma declare_bit_returns m base msb lsb is_reg is_signed pos :
  tables_ok m ->
  returns (declare_bit base msb lsb is_reg is_signed pos) m
    (fun bit m' => bit_step m m' /\ bit_declared m' base msb lsb is_reg pos bit).
Proof.
  intros T. unfold declare_bit. eapply returns_then; [by apply get_or_create_signal_returns|]. intros sig m1 [S1 N1].
  apply (returns_then _ _ _ (fun _ m2 => bit_step m1 m2 /\ (is_reg = true -> cm_signal_is_reg m2 !! sig = Some true))).
  { destruct is_reg; [|by apply returns_ret]. eapply returns_weaken; [eapply set_is_reg_returns; eauto with phy|].
    intros _ m2 [? ?]. by split. }
  intros _ m2 [S2 R2]. apply (returns_then _ _ _ (fun _ m3 => bit_step m2 m3)).
  { destruct is_signed; [|by apply returns_ret]. eapply set_is_signed_returns; eauto with phy. }
  intros _ m3 S3. apply returns_ret. split; [by transitivity m1; [|transitivity m2]|].
  eapply bit_declared_step; [done|]. exists sig. eauto with phy.
Qed.

Lemma declare_bits_returns m base msb lsb is_reg is_signed ps :
  tables_ok m ->
  returns (lmap (declare_bit base msb lsb is_reg is_signed) ps) m
    (fun bits m' => bit_step m m' /\ Forall2 (bit_declared m' base msb lsb is_reg) ps bits).
Proof.
  revert m. induction ps as [|pos ps IH]; intros m T; cbn [lmap]; [apply returns_ret; by split|].
  eapply returns_then; [by apply declare_bit_returns|]. intros bit m1 [S1 B1].
  eapply returns_then; [eapply IH; eauto with phy|]. intros bits m2 [S2 B2]. apply returns_ret. split; [by transitivity m1|].
  constructor; [by eapply bit_declared_step|done].
Qed.

Lemma declared_vector_ok m base msb lsb is_reg is_signed w bits :
  int_ok msb = true -> int_ok lsb = true -> vector_width msb lsb = Some w ->
  Forall2 (bit_declared m base msb lsb is_reg) (seq 0 w) bits -> vector_ok m base (mk_vector msb lsb is_reg is_signed bits).
Proof.
  intros Hm Hl Hw Hbits. pose proof (Forall2_length _ _ _ Hbits) as Hlen. rewrite length_seq in Hlen. subst w.
  split_and!; [done..|]. cbn [vd_bits vd_msb vd_lsb vd_is_reg]. intros pos Hp.
  destruct (lookup_lt_is_Some_2 bits pos Hp) as [bit Hbit]. destruct (Forall2_lookup_r _ _ _ _ _ Hbits Hbit) as (p & Hpos & sig & -> & Hn & Hr).
  rewrite lookup_seq_lt in Hpos by done. injection Hpos as <-. by exists sig.
Qed.

(** The loop that marks the bits of a vector as registers. *)
Definition mark_regs (l : list bool) (bits : list index) : list bool :=
  foldl (fun l sig => match sig with Some i => <[i := true]> l | None => l end) l bits.

Lemma mark_regs_kept l bits : regs_kept l (mark_regs l bits).
Proof.
  revert l. induction bits as [|[i|] bits IH]; intros l; [done|cbn [mark_regs foldl]..]; [|apply IH].
  transitivity (<[i := true]> l); [apply regs_kept_insert|apply IH].
Qed.

Lemma mark_regs_all l bits sig : Some sig ∈ bits -> (sig < length l)%nat -> mark_regs l bits !! sig = Some true.
Proof.
  revert l. induction bits as [|b bits IH]; intros l Hin Hs; [by apply elem_of_nil in Hin|]. cbn [mark_regs foldl].
  apply elem_of_cons in Hin as [<-|Hin].
  - apply mark_regs_kept. by apply list_lookup_insert_eq.
  - apply IH; [done|]. destruct b; [by rewrite length_insert|done].
Qed.

Lemma redeclare_step m base vd is_reg is_signed :
  tables_ok m -> cm_vectors m !! base = Some vd ->
  let to_reg := is_reg && negb (vd_is_reg vd) in
  let vd' := mk_vector (vd_msb vd) (vd_lsb vd) (vd_is_reg vd || is_reg) (vd_is_signed vd || is_signed) (vd_bits vd) in
  let regs := if to_reg then mark_regs (cm_signal_is_reg m) (vd_bits vd) else cm_signal_is_reg m in
  table_step m (with_vectors (with_is_reg m regs) (<[base := vd']> (cm_vectors m))).
Proof.
  intros T Hvd to_reg vd' regs. pose proof (to_vectors _ T _ _ Hvd) as (Hm & Hl & Hw & Hbits).
  assert (Hkept : regs_kept (cm_signal_is_reg m) regs) by (unfold regs; destruct to_reg; [apply mark_regs_kept|done]).
  transitivity (with_is_reg m regs); [by apply with_is_reg_step|]. apply (with_vector_step (with_is_reg m regs)).
  - split_and!; [done..|]. unfold vd'. cbn [vd_bits vd_msb vd_lsb vd_is_reg]. intros pos Hp.
    destruct (Hbits pos Hp) as (sig & Hs & Hn & Hr). exists sig. split_and!; [done|done|]. cbn. intros Hor. unfold regs, to_reg.
    destruct (vd_is_reg vd); [rewrite andb_false_r; by apply Hr|]. cbn [orb] in Hor. rewrite Hor. cbn [andb negb].
    apply mark_regs_all; [by apply list_elem_of_lookup_2 with pos|]. rewrite (to_is_reg _ T). by apply lookup_lt_Some in Hn.
  - intros old Hold. cbn in Hold. rewrite Hvd in Hold. by injection Hold as <-.
Qed.

Lemma declare_vector_range_returns m p base msb lsb is_reg is_signed :
  tables_ok m -> int_ok msb = true -> int_ok lsb = true -> is_Some (vector_width msb lsb) ->
  returns (declare_vector_range p base msb lsb is_reg is_signed) m
    (fun vd m' => table_step m m' /\ cm_vectors m' !! base = Some vd).
Proof.
  intros T Hm Hl [w Hw]. unfold declare_vector_range. apply bind_get. destruct (cm_vectors m !! base) as [vd|] eqn:Hvd.
  - pose proof (redeclare_step m base vd is_reg is_signed T Hvd) as Hstep.
    assert (Hskip : forall (b : bool) msg R (f : () -> L vector_desc), returns (f ()) m R -> returns ((if b then report msg else mret ()) ≫= f) m R)
      by (intros []; intros; [by apply bind_report|by apply bind_ret]).
    apply Hskip. eapply bind_update; [done|].
    destruct (is_reg && negb (vd_is_reg vd)); [eapply bind_update; [done|]|apply bind_ret];
      (apply returns_ret; split; [exact Hstep|apply lookup_insert_eq]).
  - eapply bind_unchecked; [done|]. eapply returns_then; [by apply declare_bits_returns|]. intros bits m1 [S1 B1].
    eapply bind_update; [done|]. apply returns_ret. split; [|apply lookup_insert_eq]. transitivity m1; [apply S1|].
    apply with_vector_step; [by eapply declared_vector_ok|]. intros old. by rewrite (bs_vectors _ _ S1), Hvd.
Qed.

(** ** Bits of vectors *)

Lemma vector_bit_name m base vd pos sig :
  vector_ok m base vd -> vd_bits vd !! pos = Some (Some sig) ->
  cm_signal_names m !! sig = Some (make_bit_name base (vector_index_at (vd_msb vd) (vd_lsb vd) pos))
  /\ int_ok (vector_index_at (vd_msb vd) (vd_lsb vd) pos) = true.
Proof.
  intros (Hm & Hl & Hw & Hbits) Hpos. pose proof (lookup_lt_Some _ _ _ Hpos) as Hp.
  destruct (Hbits pos Hp) as (s & Hs & Hn & _). rewrite Hpos in Hs. injection Hs as <-. split; [done|].
  by apply (vector_index_at_int _ _ (length (vd_bits vd))).
Qed.

(** A signal is the bit of at most one vector, at one position. *)
Lemma vector_bits_distinct m b1 vd1 p1 b2 vd2 p2 sig :
  tables_ok m -> cm_vectors m !! b1 = Some vd1 -> cm_vectors m !! b2 = Some vd2 ->
  vd_bits vd1 !! p1 = Some (Some sig) -> vd_bits vd2 !! p2 = Some (Some sig) -> b1 = b2 /\ p1 = p2.
Proof.
  intros T H1 H2 Hp1 Hp2. destruct (vector_bit_name m b1 vd1 p1 sig) as [N1 I1]; [by apply T|done|].
  destruct (vector_bit_name m b2 vd2 p2 sig) as [N2 I2]; [by apply T|done|]. rewrite N1 in N2. injection N2 as E.
  apply make_bit_name_inj in E as [-> E]; [|done..]. split; [done|]. rewrite H1 in H2. injection H2 as <-.
  by apply vector_index_at_inj in E.
Qed.

Lemma vector_bits_some m base vd (b : index) :
  vector_ok m base vd -> b ∈ vd_bits vd -> exists sig, b = Some sig /\ (sig < length (cm_signal_names m))%nat.
Proof.
  intros Hok [pos Hpos]%list_elem_of_lookup. pose proof (lookup_lt_Some _ _ _ Hpos) as Hp.
  destruct Hok as (_ & _ & _ & Hbits). destruct (Hbits pos Hp) as (sig & Hs & Hn & _). exists sig.
  assert (E : Some b = Some (Some sig)) by (rewrite <- Hpos; exact Hs). injection E as ->.
  split; [done|by apply lookup_lt_Some in Hn].
Qed.

Lemma vector_bits_nodup m base vd : tables_ok m -> cm_vectors m !! base = Some vd -> NoDup (vd_bits vd).
Proof.
  intros T Hvd. apply NoDup_alt. intros i j b Hi Hj. destruct (vector_bits_some m base vd b) as (sig & -> & _).
  - by apply T.
  - by apply list_elem_of_lookup_2 with i.
  - by eapply vector_bits_distinct.
Qed.

Lemma get_or_create_vector_bit_returns m base idx is_reg :
  tables_ok m ->
  returns (get_or_create_vector_bit base idx is_reg) m (fun b m' => table_step m m' /\ exists sig, b = Some sig
    /\ cm_signal_names m' !! sig = Some (make_bit_name base idx)).
Proof.
  intros T. unfold get_or_create_vector_bit. apply bind_get.
  destruct (vd ← cm_vectors m !! base; pos ← vector_pos (vd_msb vd) (vd_lsb vd) idx; Some (vd, pos)) as [[vd pos]|] eqn:Hb.
  - apply bind_Some in Hb as (vd' & Hvd & Hb). apply bind_Some in Hb as (pos' & Hpos & [= -> ->]).
    pose proof (to_vectors _ T _ _ Hvd) as Hok. destruct Hok as (Hm & Hl & Hw & Hbits).
    destruct (vector_pos_index_at _ _ _ _ _ Hw Hpos) as [Hlt Hidx]. destruct (Hbits pos Hlt) as (sig & Hs & Hn & _).
    apply (returns_unchecked _ (Some sig)); [done|]. split; [done|]. exists sig. by rewrite <- Hidx.
  - eapply returns_then; [by apply get_or_create_signal_returns|]. intros sig m1 [S1 N1].
    apply (returns_then _ _ _ (fun _ m2 => bit_step m1 m2)).
    { destruct is_reg; [|by apply returns_ret]. eapply returns_weaken; [eapply set_is_reg_returns; eauto with phy|]. by intros _ m2 [? ?]. }
    intros _ m2 S2. apply returns_ret. split; [transitivity m1; [apply S1|apply S2]|]. exists sig. eauto with phy.
Qed.

(** ** Parameters *)

(** The constants of [l] were set, everything else is as before. *)
Record consts_set (m m' : compiled_module) (loc : bool) (l : list (index * dns)) : Prop := {
  cs_module : m' = with_consts m (cm_signal_is_const m') (cm_signal_is_const_foldable m') (cm_signal_const_value m');
  cs_tables : tables_ok m';
  cs_set : Forall (bit_const m' loc) l;
  cs_other : forall i, Some i ∉ l.*1 ->
    cm_signal_is_const m' !! i = cm_signal_is_const m !! i
    /\ cm_signal_is_const_foldable m' !! i = cm_signal_is_const_foldable m !! i
    /\ cm_signal_const_value m' !! i = cm_signal_const_value m !! i;
}.

Lemma set_param_bit_returns m loc i d :
  tables_ok m -> (i < length (cm_signal_names m))%nat ->
  returns (set_param_bit loc (Some i, d)) m (fun _ m' => consts_set m m' loc [(Some i, d)]).
Proof.
  intros T Hi. pose proof (to_is_const _ T) as Lc. pose proof (to_foldable _ T) as Lf. pose proof (to_const_value _ T) as Lv.
  unfold set_param_bit, set_const_signal, set_foldable. cbn [fst snd]. eapply bind_update.
  { rewrite (bool_decide_eq_false_2 (_ <= _)%nat) by lia. rewrite (bool_decide_eq_false_2 (_ < _)%nat) by lia.
    unfold set_unchecked. rewrite !bool_decide_eq_true_2 by lia. reflexivity. }
  eapply returns_update; [done|]. split; [done| | |].
  - split; cbn; rewrite ?length_insert; try apply T.
  - constructor; [|constructor]. exists i. cbn. by rewrite !list_lookup_insert_eq by lia.
  - intros j Hj. cbn. rewrite fmap_cons, not_elem_of_cons in Hj. cbn in Hj.
    assert (i ≠ j) by (intros ->; by destruct Hj). by rewrite !list_lookup_insert_ne by done.
Qed.

Lemma param_loop_returns m loc l :
  tables_ok m -> NoDup l.*1 -> Forall (fun b => exists i, b.1 = Some i /\ (i < length (cm_signal_names m))%nat) l ->
  returns (lmap (set_param_bit loc) l) m (fun _ m' => consts_set m m' loc l).
Proof.
  revert m. induction l as [|[b d] l IH]; intros m T Hnd Hin; cbn [lmap]; [apply returns_ret; split; [by destruct m|done|constructor|done]|].
  rewrite fmap_cons, NoDup_cons in Hnd. destruct Hnd as [Hnot Hnd]. inversion Hin as [|? ? (i & Hb & Hi) Hin']; subst.
  cbn [fst] in Hb. subst b. eapply returns_then; [by apply set_param_bit_returns|]. intros ? m1 [M1 T1 S1 O1].
  eapply returns_then; [apply IH; [done|done|by rewrite M1]|].
  intros ? m2 [M2 T2 S2 O2]. apply returns_ret. split; [by rewrite M2, M1|done| |].
  - constructor; [|done]. inversion S1 as [|? ? (j & Hj & Hc & Hf & Hv) _]; subst. cbn [fst] in Hj. injection Hj as <-.
    exists i. destruct (O2 i Hnot) as (-> & -> & ->). done.
  - intros j Hj. rewrite fmap_cons, not_elem_of_cons in Hj. destruct Hj as [Hne Hj]. destruct (O2 j Hj) as (-> & -> & ->).
    apply O1. rewrite fmap_cons, not_elem_of_cons. split; [done|]. apply not_elem_of_nil.
Qed.

Lemma param_bits_fst bits v : (define_param_bits bits v).*1 ≡ₚ bits.
Proof.
  unfold define_param_bits. case_bool_decide as Hlen.
  - rewrite fst_zip by (rewrite length_fmap, length_lbits, length_rev; lia). by rewrite <- Permutation_rev.
  - rewrite <- list_fmap_compose. by rewrite list_fmap_id.
Qed.

(** What the loops over the bits of a parameter set. *)
Lemma define_param_bits_lookup m loc bits v pos sig :
  Forall (bit_const m loc) (define_param_bits bits v) -> bits !! pos = Some (Some sig) ->
  bit_const m loc (Some sig, param_bit (length bits) v pos).
Proof.
  intros Hall Hpos. pose proof (lookup_lt_Some _ _ _ Hpos) as Hlt. unfold define_param_bits, param_bit in *.
  destruct (decide (length bits = 32%nat)) as [Hw|Hw].
  - rewrite bool_decide_eq_true_2 in Hall by done. apply (Forall_lookup_1 _ _ (31 - pos) _ Hall). apply lookup_zip_Some. split.
    + rewrite lookup_rev by lia. etransitivity; [|exact Hpos]. f_equal. unfold index in *. lia.
    + unfold index in *. rewrite list_lookup_fmap, lbits_lookup by lia. cbn. f_equal. f_equal. f_equal. lia.
  - rewrite bool_decide_eq_false_2 in Hall by done. apply (Forall_lookup_1 _ _ pos _ Hall). rewrite list_lookup_fmap. apply fmap_Some. by exists (Some sig).
Qed.

(** A parameter is added to its constants. *)
Lemma add_param_ok m m2 name value loc vd :
  tables_ok m -> params_ok m -> cm_vectors m !! name = Some vd -> cm_param_default_values m !! name = None ->
  consts_set m m2 loc (define_param_bits (vd_bits vd) value) -> params_ok (add_param name value loc m2).
Proof.
  intros T P Hvd Hnew [M2 T2 S2 O2]. set (l := define_param_bits (vd_bits vd) value) in *.
  assert (Hloc : cm_param_is_local m !! name = None).
  { destruct (cm_param_is_local m !! name) eqn:E; [|done]. destruct (proj2 (po_dom _ P name)) as [x Hx]; [by eexists|]. congruence. }
  assert (Hin : forall b, b ∈ l.*1 <-> b ∈ vd_bits vd) by (intros b; unfold l; by rewrite param_bits_fst).
  assert (Hother : forall n vd' b, cm_vectors m !! n = Some vd' -> n ≠ name -> b ∈ vd_bits vd' -> b ∉ l.*1).
  { intros n vd' b Hvd' Hne Hb Hl. apply Hin in Hl. destruct (vector_bits_some m n vd' b) as (sig & -> & _); [by apply T|done|].
    apply list_elem_of_lookup in Hb as [p1 H1]. apply list_elem_of_lookup in Hl as [p2 H2].
    by destruct (vector_bits_distinct m n vd' p1 name vd p2 sig T Hvd' Hvd H1 H2) as [? _]. }
  rewrite M2. split; cbn; rewrite ?Hloc.
  - intros n. rewrite !lookup_insert_is_Some. pose proof (po_dom _ P n). naive_solver.
  - destruct loc; [apply P|]. apply NoDup_app. split_and!; [apply P| |apply NoDup_singleton].
    intros n Hn ->%list_elem_of_singleton. apply (po_order _ P) in Hn. congruence.
  - intros n. rewrite lookup_insert_Some. pose proof (po_order _ P n) as Ho. destruct loc.
    + rewrite Ho. split; [|naive_solver]. intros Hn. right. split; [|done]. intros ->. congruence.
    + rewrite elem_of_app, list_elem_of_singleton, Ho. split; [|naive_solver]. intros [Hn| ->]; [right|by left].
      split; [|done]. intros ->. congruence.
  - intros n v loc'. rewrite !lookup_insert_Some. intros [[<- <-]|[Hne Hv]] [[E <-]|[Hne' Hl]]; try congruence.
    + exists vd. split; [done|]. intros pos sig. by apply define_param_bits_lookup.
    + destruct (po_bits _ P n v loc' Hv Hl) as (vd' & Hvd' & Hbits). exists vd'. split; [done|].
      intros pos sig Hb. destruct (Hbits pos sig Hb) as (i & [= <-] & Hc & Hf & Hd).
      assert (Hn : Some sig ∉ l.*1) by (apply (Hother n vd'); [done|done|]; by apply list_elem_of_lookup_2 with pos).
      exists sig. cbn. destruct (O2 sig Hn) as (-> & -> & ->). done.
  - intros i Hi. destruct (decide (Some i ∈ l.*1)) as [Hl|Hl].
    + exists name, vd. rewrite lookup_insert_eq. split_and!; [by eexists|done|by apply Hin].
    + destruct (O2 i Hl) as (E & _ & _). rewrite E in Hi. destruct (po_only _ P i Hi) as (n & vd' & Hd & Hvd' & Hb).
      exists n, vd'. split_and!; [|done..]. apply lookup_insert_is_Some'. by right.
Qed.

(** What holds of every declaration: the symbol tables stay in order and no
    signal is renumbered. *)
Definition symbol_step (m m' : compiled_module) : Prop :=
  symbols_ok m' /\ exists l, cm_signal_names m' = cm_signal_names m ++ l.

Lemma table_symbol_step m m' : symbols_ok m -> table_step m m' -> symbol_step m m'.
Proof.
  intros (T & P & Q) [G HT]. split; [|apply G]. split_and!; [by apply HT|by eapply params_grow|by eapply ports_grow].
Qed.

Lemma define_param_returns m p name value loc :
  symbols_ok m ->
  returns (define_param p name value loc) m (fun _ m' => symbol_step m m'
    /\ (name ≠ ""%string -> cm_param_default_values m !! name = None ->
        cm_param_default_values m' !! name = Some value /\ cm_param_is_local m' !! name = Some loc)).
Proof.
  intros S. assert (Hsame : symbol_step m m) by (apply table_symbol_step; done). unfold define_param.
  case_bool_decide as Hname; [by apply returns_ret|]. apply bind_get.
  destruct (cm_param_default_values m !! name) as [v|] eqn:Hv.
  { destruct p; [apply returns_report|apply returns_ret]; split; [done|congruence|done|congruence]. }
  eapply returns_then; [apply declare_vector_range_returns; [apply S|done|done|by eexists]|]. intros vd m1 [S1 Hvd].
  destruct (table_symbol_step m m1 S S1) as [(T1 & P1 & Q1) [l El]].
  pose proof (gr_params _ _ (proj1 S1)) as (_ & Ed & _).
  eapply returns_then; [apply param_loop_returns; [done| |]|].
  - rewrite param_bits_fst. by eapply vector_bits_nodup.
  - apply Forall_forall. intros b Hb. apply (vector_bits_some m1 name vd); [by apply T1|].
    rewrite <- (param_bits_fst _ value). by apply list_elem_of_fmap_2.
  - intros ? m2 C2. eapply returns_update; [done|]. assert (Hnew : cm_param_default_values m1 !! name = None) by congruence.
    pose proof (cs_module _ _ _ _ C2) as M2. split; [|intros _ _; split].
    + split; [split_and!|].
      * destruct (cs_tables _ _ _ _ C2). by split.
      * by eapply add_param_ok.
      * rewrite M2. destruct Q1. by split.
      * exists l. rewrite M2. exact El.
    + cbn. apply lookup_insert_eq.
    + cbn. rewrite M2. cbn. destruct (cm_param_is_local m1 !! name) eqn:E; [|apply lookup_insert_eq].
      destruct (proj2 (po_dom _ P1 name)) as [x Hx]; [by eexists|]. congruence.
Qed.

(** ** Any sequence of declarations *)

Inductive declaration :=
| d_signal (name : string)
| d_vector (with_parser : bool) (base : string) (msb lsb : Z) (is_reg is_signed : bool)
| d_vector_bit (base : string) (idx : Z) (is_reg : bool)
| d_port (base : string)
| d_param (with_parser : bool) (name : string) (value : Z) (is_local : bool)
| d_local (visible : string).

Definition declare (d : declaration) : L () :=
  match d with
  | d_signal name => _ ← get_or_create_signal name; mret ()
  | d_vector p base msb lsb is_reg is_signed => _ ← declare_vector_range p base msb lsb is_reg is_signed; mret ()
  | d_vector_bit base idx is_reg => _ ← get_or_create_vector_bit base idx is_reg; mret ()
  | d_port base => _ ← ensure_port_decl base; mret ()
  | d_param p name value is_local => define_param p name value is_local
  | d_local visible => _ ← make_scoped_local_name visible; mret ()
  end.

(** The indices are [int]s and so is the width. *)
Definition declaration_ok (d : declaration) : Prop :=
  match d with
  | d_vector _ _ msb lsb _ _ => int_ok msb = true /\ int_ok lsb = true /\ is_Some (vector_width msb lsb)
  | _ => True
  end.

Lemma declare_returns m d : symbols_ok m -> declaration_ok d -> returns (declare d) m (fun _ m' => symbol_step m m').
Proof.
  intros S Hd. assert (Hdone : forall A (c : L A) Q, returns c m Q -> (forall a m', Q a m' -> symbol_step m m') ->
    returns (_ ← c; mret ()) m (fun _ m' => symbol_step m m')).
  { intros A c Q Hc HQ. eapply returns_then; [done|]. intros a m' Ha. apply returns_ret. eauto. }
  pose proof (proj1 S) as T. destruct d as [name|p base msb lsb is_reg is_signed|base idx is_reg|base|p name value loc|visible].
  - eapply Hdone; [by apply get_or_create_signal_returns|]. intros a m' [[? _ _] _]. by apply table_symbol_step.
  - destruct Hd as (? & ? & ?). eapply Hdone; [by apply declare_vector_range_returns|]. intros a m' [? _]. by apply table_symbol_step.
  - eapply Hdone; [by apply get_or_create_vector_bit_returns|]. intros a m' [? _]. by apply table_symbol_step.
  - apply (Hdone _ _ (fun _ m' => symbol_step m m')); [|auto]. intros errs. unfold ensure_port_decl. cbn [ps_m ps_errors].
    destruct (cm_port_decls m !! base) as [pd|] eqn:Hpd; do 3 eexists; (split; [done|]); [by apply table_symbol_step|].
    destruct S as (_ & P & Q). split; [|exists []; by rewrite app_nil_r]. split_and!; [by destruct T|by destruct P|]. split; cbn.
    + apply NoDup_app. split_and!; [apply Q| |apply NoDup_singleton]. intros n Hn ->%list_elem_of_singleton.
      apply (pt_order _ Q) in Hn as [? ?]. congruence.
    + intros n. rewrite elem_of_app, list_elem_of_singleton, lookup_insert_is_Some', (pt_order _ Q). naive_solver.
  - eapply returns_weaken; [by apply define_param_returns|]. by intros a m' [? _].
  - apply (Hdone _ _ (fun _ m' => symbol_step m m')); [|auto]. intros errs. do 3 eexists. split; [done|].
    destruct S as (_ & P & Q). split; [|exists []; by rewrite app_nil_r]. split_and!; [by destruct T|by destruct P|by destruct Q].
Qed.

Lemma empty_symbols_ok : symbols_ok compiled_module_default.
Proof.
  split_and!; split; cbn; try done; try apply NoDup_nil_2.
  - intros name. rewrite !lookup_empty. by split; intros [? ?].
  - intros name. by rewrite elem_of_nil, lookup_empty.
  - intros name. rewrite elem_of_nil, lookup_empty. by split; [|intros [? ?]].
Qed.

Lemma declarations_return m ds :
  symbols_ok m -> Forall declaration_ok ds -> returns (lmap declare ds) m (fun _ m' => symbol_step m m').
Proof.
  intros S Hds. revert m S. induction Hds as [|d ds Hd _ IH]; intros m S; cbn [lmap]; [apply returns_ret; by apply table_symbol_step|].
  eapply returns_then; [by apply declare_returns|]. intros ? m1 [S1 [l1 E1]].
  eapply returns_then; [by apply IH|]. intros ? m2 [S2 [l2 E2]]. apply returns_ret. split; [done|].
  exists (l1 ++ l2). by rewrite E2, E1, app_assoc.
Qed.

(** The tables after [reg [7:0] v; wire [0:3] u]. *)
Definition example_symbols : compiled_module :=
  match lmap declare [d_vector true "v" 7 0 true false; d_vector true "u" 0 3 false false]
    (mk_pstate compiled_module_default []) with
  | Some (_, s) => ps_m s
  | None => compiled_module_default
  end.

Lemma example_symbols_ok : symbols_ok example_symbols.
Proof.
  destruct (declarations_return compiled_module_default
    [d_vector true "v" 7 0 true false; d_vector true "u" 0 3 false false] empty_symbols_ok) with (errs := @nil string)
    as (a & m & e & E & S & _).
  - constructor; [split_and!; [done|done|by eexists]|]. constructor; [split_and!; [done|done|by eexists]|]. constructor.
  - unfold example_symbols. by rewrite E.
Qed.

(** ** Theorems *)



(** Every bit of a declared vector has a signal of its own.  In tables that are in order, asking for an index in the
    range of a vector returns the signal declared for it and changes nothing, and two bits with different bases or
    indices never have the same signal. *)
Lemma vector_bits_resolve (m : compiled_module) (errs : list string) (b1 b2 : string) (vd1 vd2 : vector_desc)
  (i1 i2 : Z) (p1 p2 : nat) :
  symbols_ok m -> cm_vectors m !! b1 = Some vd1 -> cm_vectors m !! b2 = Some vd2 ->
  vector_pos (vd_msb vd1) (vd_lsb vd1) i1 = Some p1 -> vector_pos (vd_msb vd2) (vd_lsb vd2) i2 = Some p2 ->
  exists s1 s2,
    get_or_create_vector_bit b1 i1 false (mk_pstate m errs) = Some (Some s1, mk_pstate m errs)
    /\ get_or_create_vector_bit b2 i2 false (mk_pstate m errs) = Some (Some s2, mk_pstate m errs)
    /\ cm_signal_names m !! s1 = Some (make_bit_name b1 i1)
    /\ cm_signal_names m !! s2 = Some (make_bit_name b2 i2)
    /\ (s1 = s2 <-> b1 = b2 /\ i1 = i2).
Proof.
  intros (T & _ & _) H1 H2 P1 P2.
  assert (Hbit : forall b vd i p, cm_vectors m !! b = Some vd -> vector_pos (vd_msb vd) (vd_lsb vd) i = Some p ->
    exists s, vd_bits vd !! p = Some (Some s) /\ cm_signal_names m !! s = Some (make_bit_name b i)
      /\ get_or_create_vector_bit b i false (mk_pstate m errs) = Some (Some s, mk_pstate m errs)
      /\ vector_index_at (vd_msb vd) (vd_lsb vd) p = i).
  { intros b vd i p Hvd Hp. destruct (to_vectors _ T _ _ Hvd) as (_ & _ & Hw & Hbits).
    destruct (vector_pos_index_at _ _ _ _ _ Hw Hp) as [Hlt Hi]. destruct (Hbits p Hlt) as (s & Hs & Hn & _).
    exists s. rewrite Hi in Hn. split_and!; [done|done| |done]. 
    assert (E : (vd ← cm_vectors m !! b; pos ← vector_pos (vd_msb vd) (vd_lsb vd) i; Some (vd, pos)) = Some (vd, p))
      by (rewrite Hvd; cbn [mbind option_bind]; by rewrite Hp).
    unfold get_or_create_vector_bit. unfold mbind at 1, L_bind, get_module. cbn [mbind option_bind ps_m] in E |- *.
    rewrite E. unfold unchecked. by rewrite Hs. }
  destruct (Hbit b1 vd1 i1 p1 H1 P1) as (s1 & B1 & N1 & E1 & I1). destruct (Hbit b2 vd2 i2 p2 H2 P2) as (s2 & B2 & N2 & E2 & I2).
  exists s1, s2. split_and!; [done..|]. split.
  - intros <-. destruct (vector_bits_distinct m b1 vd1 p1 b2 vd2 p2 s1 T H1 H2 B1 B2) as [<- <-]. split; [done|].
    rewrite H1 in H2. injection H2 as <-. congruence.
  - intros [<- <-]. rewrite E1 in E2. congruence.
Qed.

(** [v[5]] and [u[2]]. *)
Lemma vector_bits_resolve_witness :
  exists s1 s2,
    get_or_create_vector_bit "v" 5 false (mk_pstate example_symbols []) = Some (Some s1, mk_pstate example_symbols [])
    /\ get_or_create_vector_bit "u" 2 false (mk_pstate example_symbols []) = Some (Some s2, mk_pstate example_symbols [])
    /\ s1 ≠ s2.
Proof.
  assert (Hv : cm_vectors example_symbols !! "v"%string = Some (mk_vector 7 0 true false (Some <$> seq 0 8))) by (vm_compute; reflexivity).
  assert (Hu : cm_vectors example_symbols !! "u"%string = Some (mk_vector 0 3 false false (Some <$> seq 8 4))) by (vm_compute; reflexivity).
  destruct (vector_bits_resolve example_symbols [] "v" "u" _ _ 5 2 2 2 example_symbols_ok Hv Hu eq_refl eq_refl)
    as (s1 & s2 & E1 & E2 & _ & _ & Hne).
  exists s1, s2. split; [exact E1|]. split; [exact E2|]. intros E. apply Hne in E as [E _]. discriminate E.
Defined.

(** Leaving a block restores the names visible before it.  Whatever a block binds, and whatever the blocks inside it
    bind and leave, entering it and leaving it gives back the aliases, the substitutions, the undo log and the frames. *)
Lemma scope_restored (sc : proc_scope) (ops : list scope_op) :
  block_ops ops -> foldl scope_step sc (so_push :: ops ++ [so_pop]) = sc.
Proof.
  intros Hops. cbn [foldl scope_step]. rewrite foldl_app. cbn [foldl scope_step].
  destruct (block_undoes ops (push_frame sc) Hops) as [log Hlog]. by apply (pop_undoes sc _ log).
Qed.

(** A block that binds [i] and, in an inner block, [i] and [j]. *)
Lemma nested_scope_restored :
  let v := mk_value false false (Some 0%nat) [] 0 0 in
  let sc := bind scope_default "i" "$blk0__i" v in
  foldl scope_step sc [so_push; so_bind "i" "$blk1__i" v; so_push; so_bind "i" "$blk2__i" v; so_bind "j" "$blk3__j" v;
    so_pop; so_pop] = sc.
Proof.
  intros v sc.
  apply (scope_restored sc [so_bind "i" "$blk1__i" v; so_push; so_bind "i" "$blk2__i" v; so_bind "j" "$blk3__j" v; so_pop]).
  apply bo_bind. apply (bo_block [so_bind "i" "$blk2__i" v; so_bind "j" "$blk3__j" v] []).
  - apply bo_bind, bo_bind, bo_nil.
  - apply bo_nil.
Qed.
