(* ===== verification/VParse.v ===== *)
(** * Verilog: the expression parser

    The recursive-descent parser of expressions of verilog/digital/digital.h
    ([parser] and the methods of [expr_parser] that consume tokens).  It builds
    the value of an expression while it reads it, with the operations of
    [VLower].

    The parser holds the tokens from its position on; [accept_symbol] is
    [accept_sym], [accept_sym2] and [accept_sym3] in one.  A step runs in the
    monad [P]: it returns, is undefined (an unchecked access), runs out of the
    fuel that stands for the unbounded loops and recursion over tokens of the
    code ([OutOfFuel]), or meets a call that is nested deeper in inlined bodies
    than a bound allows ([TooDeep]; the code has no bound).  The inlining of a
    user-defined function parses its body as a statement; here it is an
    argument, [inline_call], which VStmt gives. *)

From S2P Require Import Prelude Logic4 VModule VLower VBits VLiteral VLex VSignals.
From Stdlib Require Import ZArith Lia Ascii.

(** ** The monad *)

Inductive res (A : Type) := Ok (a : A) | Undefined | OutOfFuel | TooDeep.
Arguments Ok {A} a.
Arguments Undefined {A}.
Arguments OutOfFuel {A}.
Arguments TooDeep {A}.

Definition P (A : Type) : Type := list token -> pstate -> res (A * list token * pstate).

#[global] Instance P_ret : MRet P := fun A a ts s => Ok (a, ts, s).

#[global] Instance P_bind : MBind P := fun A B f c ts s =>
  match c ts s with
  | Ok (a, ts, s) => f a ts s
  | Undefined => Undefined
  | OutOfFuel => OutOfFuel
  | TooDeep => TooDeep
  end.

(** A step of the builder. *)
Definition lift {A} (c : L A) : P A := fun ts s =>
  match c s with Some (a, s) => Ok (a, ts, s) | None => Undefined end.

Definition out_of_fuel {A} : P A := fun _ _ => OutOfFuel.

Definition undefined {A} : P A := fun _ _ => Undefined.

Definition too_deep {A} : P A := fun _ _ => TooDeep.

(** A branch on what a step returns. *)
Definition branch {A} (c : P bool) (yes no : P A) : P A := mbind (fun b : bool => if b then yes else no) c.

Notation "'when' c 'then' a 'else' b" := (branch c a b) (at level 10, c at level 99, a at level 200, b at level 200).

(** ** Tokens *)

Definition peek : P token := fun ts s => match ts with t :: _ => Ok (t, ts, s) | [] => Undefined end.

Definition is_eof (t : token) : bool := bool_decide (tok_kind t = tk_eof).

Definition eof : P bool := t ← peek; mret (is_eof t).

Definition consume : P token := fun ts s =>
  match ts with t :: rest => Ok (t, if is_eof t then ts else rest, s) | [] => Undefined end.

Definition err (msg : string) : P () := lift (report msg).

Definition is_symbol (sym : string) (t : token) : bool :=
  bool_decide (tok_kind t = tk_symbol) && bool_decide (tok_text t = sym).

Definition accept_symbol (sym : string) : P bool :=
  t ← peek; if is_symbol sym t then _ ← consume; mret true else mret false.

Definition accept_kw (kw : string) : P bool :=
  t ← peek;
  if bool_decide (tok_kind t = tk_identifier) && bool_decide (tok_text t = kw) then _ ← consume; mret true else mret false.

Definition expect_ident (what : string) : P string :=
  t ← peek;
  if negb (bool_decide (tok_kind t = tk_identifier)) then _ ← err what; mret ""%string%string
  else _ ← consume; mret (tok_text t).

(** [if(!accept_sym(sym)) err(msg)] *)
Definition expect_symbol (sym msg : string) : P () :=
  when accept_symbol sym then mret () else err msg.

(** The tokens left, the end token apart: every loop and every recursion takes
    one of them. *)
Definition remaining (ts : list token) : nat := length ts - 1.

(** [while(!eof() && !accept_sym(sym)) consume()] *)
Fixpoint skip_loop (fuel : nat) (sym : string) : P () :=
  match fuel with
  | O => out_of_fuel
  | S fuel =>
      when eof then mret ()
      else when accept_symbol sym then mret ()
      else _ ← consume; skip_loop fuel sym
  end.

Definition skip_until (sym : string) : P () := fun ts s => skip_loop (S (remaining ts)) sym ts s.

Definition skip_until_semicolon : P () := skip_until ";".

(** ** Identifiers that are looked up *)

(** [const_idents] and [subst_idents]; a null pointer is the empty map. *)
Record parse_env := mk_env { pe_const_idents : gmap string Z; pe_subst_idents : gmap string expr_value }.

Definition no_env : parse_env := mk_env ∅ ∅.

Definition expr_value_default : expr_value := mk_value false false SIZE_MAX [] 0 0.

(** [base.scalar_root == SIZE_MAX && !base.is_vector] *)
Definition unresolved (base : expr_value) : bool :=
  bool_decide (xv_scalar_root base = SIZE_MAX) && negb (xv_is_vector base).

Definition x_scalar : L expr_value := x ← make_literal indeterminate_state; mret (make_scalar x 0 0 false).

(** The value of a vector, or [None] where there is no such vector. *)
Definition vector_value (base : string) : L (option expr_value) :=
  m ← get_module;
  match cm_vectors m !! base with
  | Some vd =>
      match vd_bits vd with
      | [] => mret None
      | front :: _ =>
          w ← unchecked (vector_width (vd_msb vd) (vd_lsb vd));
          if bool_decide (w <= 1) then
            r ← make_signal_root front; mret (Some (make_scalar r (vd_msb vd) (vd_lsb vd) (vd_is_signed vd)))
          else
            bits ← lmap make_signal_root (vd_bits vd);
            v ← make_vector_with_range bits (vd_msb vd) (vd_lsb vd) (vd_is_signed vd);
            mret (Some v)
      end
  | None => mret None
  end.

Definition signal_value (name : string) : L expr_value :=
  sig ← get_or_create_signal name;
  m ← get_module;
  let sgn := default false (cm_signal_is_signed m !! sig) in
  r ← make_signal_root (Some sig);
  mret (make_scalar r 0 0 sgn).

(** A name that is no constant and no call: a vector or else a signal. *)
Definition name_value (name : string) : L expr_value :=
  v ← vector_value name;
  match v with Some v => mret v | None => signal_value name end.

Definition literal_roots (bits : list dns) : L (list index) := lmap make_literal bits.

(** What the parent connects to a port of an instance. *)
Definition connection_value (ref : connection_ref) : L expr_value :=
  match cr_kind ref with
  | cn_scalar =>
      m ← get_module;
      let sgn := default false (vget (cm_signal_is_signed m) (cr_scalar_signal ref)) in
      r ← make_signal_root (cr_scalar_signal ref);
      mret (make_scalar r 0 0 sgn)
  | cn_literal => r ← make_literal (cr_literal ref); mret (make_scalar r 0 0 false)
  | cn_literal_vector => roots ← literal_roots (cr_literal_bits ref); make_vector roots (cr_is_signed ref)
  | cn_expr =>
      match cr_expr_roots ref with
      | [] => x ← make_literal indeterminate_state; mret (make_scalar x 0 0 (cr_is_signed ref))
      | [r] => mret (make_scalar r 0 0 (cr_is_signed ref))
      | roots => make_vector roots (cr_is_signed ref)
      end
  | cn_vector => v ← vector_value (cr_vector_base ref); match v with Some v => mret v | None => x_scalar end
  | cn_bit_list =>
      bits ← lmap (fun b => if cb_is_literal b then make_literal (cb_literal b) else make_signal_root (cb_signal b)) (cr_bit_list ref);
      make_vector bits (cr_is_signed ref)
  | cn_unconnected => x_scalar
  end.

(** [try_resolve_inst_port]: only the first instance of that name counts. *)
Definition try_resolve_inst_port (head_name first_dot_member : string) : L (option expr_value) :=
  if bool_decide (first_dot_member = ""%string) then mret None
  else
    m ← get_module;
    match list_find (fun inst => inst_instance_name inst = head_name) (cm_instances m) with
    | None => mret None
    | Some (_, inst) =>
        match list_find (fun ic => ic_port_name ic ≠ ""%string /\ ic_port_name ic = first_dot_member) (inst_connections inst) with
        | None => mret None
        | Some (_, ic) => v ← connection_value (ic_ref ic); mret (Some v)
        end
    end.

(** ** Numbers *)

(** The value of a number token; [None]: the text is no number. *)
Definition number_value (t : string) : L (option expr_value) :=
  match parse_literal_bits (String.list_ascii_of_string t) with
  | None =>
      _ ← report "invalid number literal";
      mret None
  | Some (lit_bits, lit_signed) =>
      match lit_bits with
      | [] => r ← make_literal indeterminate_state; mret (Some (make_scalar r 0 0 lit_signed))
      | [b] => r ← make_literal b; mret (Some (make_scalar r 0 0 lit_signed))
      | _ => roots ← literal_roots lit_bits; v ← make_vector roots lit_signed; mret (Some v)
      end
  end.

(** ** Reductions *)

Definition reduce (neutral : dns) (op : index -> index -> L index) (a : expr_value) : L index :=
  if negb (xv_is_vector a) then mret (xv_scalar_root a)
  else r ← make_literal neutral; lfold op r (xv_vector_roots a).

Definition reduce_and_root : expr_value -> L index := reduce true_state make_and.

Definition reduce_or_root : expr_value -> L index := reduce false_state make_or.

Definition reduce_xor_root : expr_value -> L index := reduce false_state make_xor.

(** A one-bit result. *)
Definition scalar_of (c : L index) : L expr_value := r ← c; mret (make_scalar r 0 0 false).

Definition negated (c : L index) : L index := r ← c; make_not r.

(** Unary minus keeps the width of its operand. *)
Definition negate (a : expr_value) : L expr_value :=
  z ← (if xv_is_signed a then make_int_literal 0 (width a) else make_uint_literal 0 (width a));
  r ← arith_sub z a;
  resize r (width a) (xv_is_signed a).

(** The unary operators in the order they are tried. *)
Definition unary_ops : list (string * (expr_value -> L expr_value)) :=
  [("!", fun a => scalar_of (negated (to_bool_root a)));
   ("~&", fun a => scalar_of (negated (reduce_and_root a)));
   ("~|", fun a => scalar_of (negated (reduce_or_root a)));
   ("~^", fun a => scalar_of (negated (reduce_xor_root a)));
   ("^~", fun a => scalar_of (negated (reduce_xor_root a)));
   ("&", fun a => scalar_of (reduce_and_root a));
   ("|", fun a => scalar_of (reduce_or_root a));
   ("^", fun a => scalar_of (reduce_xor_root a));
   ("+", fun a => mret a);
   ("-", negate);
   ("~", fun a => bitwise_unary a ek_unary_not)].

(** ** Binary operators, by level *)

Definition binary_op : Type := expr_value -> expr_value -> L expr_value.

Definition xnor (a b : expr_value) : L expr_value :=
  x ← bitwise_binary a b ek_binary_xor; bitwise_unary x ek_unary_not.

Definition logical (k : expr_kind) (a b : expr_value) : L expr_value :=
  scalar_of (ra ← to_bool_root a; rb ← to_bool_root b; add_node (op2_node k ra rb)).

Definition mul_ops : list (string * binary_op) := [("*", arith_mul); ("/", arith_div); ("%", arith_mod)].

Definition add_ops : list (string * binary_op) := [("+", arith_add); ("-", arith_sub)].

Definition shift_ops : list (string * binary_op) := [("<<", shift_left); (">>", shift_right)].

Definition and_ops : list (string * binary_op) := [("&", fun a b => bitwise_binary a b ek_binary_and)].

Definition xor_ops : list (string * binary_op) :=
  [("^", fun a b => bitwise_binary a b ek_binary_xor); ("~^", xnor); ("^~", xnor)].

Definition or_ops : list (string * binary_op) := [("|", fun a b => bitwise_binary a b ek_binary_or)].

Definition rel_ops : list (string * binary_op) :=
  [("<", fun a b => scalar_of (compare_lt a b)); ("<=", fun a b => scalar_of (compare_le a b));
   (">", fun a b => scalar_of (compare_gt a b)); (">=", fun a b => scalar_of (compare_ge a b))].

Definition eq_ops : list (string * binary_op) :=
  [("===", fun a b => scalar_of (compare_case_eq a b)); ("!==", fun a b => scalar_of (negated (compare_case_eq a b)));
   ("==", fun a b => scalar_of (compare_eq a b)); ("!=", fun a b => scalar_of (negated (compare_eq a b)))].

Definition land_ops : list (string * binary_op) := [("&&", logical ek_binary_and)].

Definition lor_ops : list (string * binary_op) := [("||", logical ek_binary_or)].

(** The first of the symbols that the next token is. *)
Fixpoint accept_first {A} (ops : list (string * A)) : P (option A) :=
  match ops with
  | [] => mret None
  | (sym, a) :: ops => when accept_symbol sym then mret (Some a) else accept_first ops
  end.

(** [for(;;)] over left-associative operators. *)
Fixpoint binary_loop (fuel : nat) (ops : list (string * binary_op)) (operand : P expr_value) (lhs : expr_value) : P expr_value :=
  match fuel with
  | O => out_of_fuel
  | S fuel =>
      op ← accept_first ops;
      match op : option binary_op with
      | Some f => rhs ← operand; lhs ← lift (f lhs rhs); binary_loop fuel ops operand lhs
      | None => mret lhs
      end
  end.

(** ** The parser *)

Section Parser.
(** Lowers a call of a user-defined function with its arguments. *)
Context (inline_call : string -> function_def -> list expr_value -> P expr_value).

(** One level of the recursion: [n] bounds the loops, [parse_expr] is the
    recursive call. *)
Section Levels.
Context (n : nat) (parse_expr : parse_env -> P expr_value).

Record range_desc := mk_range { rd_has_range : bool; rd_msb : Z; rd_lsb : Z }.

(** A bound of a range; [None]: it is no constant. *)
Definition range_bound (msg : string) : P (option Z) :=
  e ← parse_expr no_env;
  a ← lift (try_eval_const_int e);
  match a : option Z with
  | Some a => mret (Some a)
  | None => _ ← err msg; _ ← skip_until "]"; mret None
  end.

Definition accept_range : P (option range_desc) :=
  when accept_symbol "[" then
    a ← range_bound "expected constant integer in range";
    match a : option Z with
    | None => mret None
    | Some a =>
        b ← (when accept_symbol ":" then range_bound "expected constant integer after ':'" else mret (Some a));
        match b : option Z with
        | None => mret None
        | Some b => _ ← expect_symbol "]" "expected ']'"; mret (Some (mk_range true a b))
        end
    end
  else mret None.

(** ** Casts *)

Definition cast_types : list string :=
  ["int"; "integer"; "logic"; "reg"; "wire"; "bit"; "byte"; "shortint"; "longint"; "void"]%string.

Definition signed_types : list string := ["int"; "integer"; "byte"; "shortint"; "longint"]%string.

(** [while(accept_kw("signed") || accept_kw("unsigned"))] *)
Fixpoint signed_loop (fuel : nat) (cast_signed : bool) : P bool :=
  match fuel with
  | O => out_of_fuel
  | S fuel =>
      when accept_kw "signed" then signed_loop fuel true
      else when accept_kw "unsigned" then signed_loop fuel false
      else mret cast_signed
  end.

Definition type_width (type_kw : string) : nat :=
  if bool_decide (type_kw = "byte"%string) then 8
  else if bool_decide (type_kw = "shortint"%string) then 16
  else if bool_decide (type_kw = "longint"%string) then 64
  else if bool_decide (type_kw ∈ ["int"; "integer"]%string) then 32
  else 1.

(** A cast, or [None] with the position restored. *)
Definition parse_cast (env : parse_env) (type_kw : string) : P (option expr_value) := fun saved s =>
  (_ ← consume;
   cast_signed ← signed_loop n (bool_decide (type_kw ∈ signed_types));
   tr ← accept_range;
   cast_signed ← signed_loop n cast_signed;
   cast_w ← lift (unchecked (match tr : option range_desc with
                             | Some tr => vector_width (rd_msb tr) (rd_lsb tr)
                             | None => Some (type_width type_kw)
                             end));
   when accept_symbol "'" then
     _ ← expect_symbol "(" "expected '(' after cast";
     v ← parse_expr env;
     _ ← expect_symbol ")" "expected ')' after cast";
     roots ← lift (resize_to_vector v cast_w cast_signed);
     v ← lift (if bool_decide (cast_w <= 1)
               then r ← (match last roots with Some r => mret r | None => make_literal indeterminate_state end);
                    mret (make_scalar r 0 0 cast_signed)
               else match tr with
                    | Some tr => make_vector_with_range roots (rd_msb tr) (rd_lsb tr) cast_signed
                    | None => make_vector_with_range roots (Z.of_nat cast_w - 1) 0 cast_signed
                    end);
     mret (Some v)
   else (fun _ s => Ok (None, saved, s))) saved s.

(** ** System functions *)

(** The arguments of a call after [(]: expressions up to [)]; [msg] is
    reported when neither [,] nor [)] follows one. *)
Fixpoint args_loop (fuel : nat) (env : parse_env) (msg : option string) (args : list expr_value) : P (list expr_value) :=
  match fuel with
  | O => out_of_fuel
  | S fuel =>
      e ← parse_expr env;
      let args := args ++ [e] in
      when accept_symbol ")" then mret args
      else when accept_symbol "," then args_loop fuel env msg args
      else
        _ ← (match msg with Some msg => err msg | None => mret () end);
        _ ← skip_until ")";
        mret args
  end.

Definition parse_args (env : parse_env) (msg : option string) : P (list expr_value) :=
  when accept_symbol ")" then mret [] else args_loop n env msg [].

Definition urandom_value : L expr_value :=
  vd ← declare_vector_range true "$urandom" 3 0 false false;
  roots ← lmap make_signal_root (vd_bits vd);
  make_vector_with_range roots (vd_msb vd) (vd_lsb vd) false.

(** [$clog2] of a constant. *)
Fixpoint bit_length (fuel : nat) (x : Z) : Z :=
  match fuel with O => 0 | S fuel => if bool_decide (x = 0)%Z then 0 else 1 + bit_length fuel (Z.shiftr x 1) end.

Definition clog2 (v : Z) : Z := if bool_decide (v <= 1)%Z then 0 else bit_length 64 (v - 1).

(** One parenthesised argument of a system function. *)
Definition sys_arg (env : parse_env) (name : string) : P expr_value :=
  _ ← expect_symbol "(" ("expected '(' after " +:+ name);
  arg ← parse_expr env;
  _ ← (when accept_symbol ")" then mret () else _ ← err ("expected ')' after " +:+ name); skip_until ")");
  mret arg.

Definition system_function (env : parse_env) (name : string) : option (P expr_value) :=
  if bool_decide (name ∈ ["$urandom"; "$random"]%string) then
    Some (_ ← (when accept_symbol "("
               then parse_args env (Some "expected ',' or ')' in $urandom/$random argument list"%string)
               else mret []);
          lift urandom_value)
  else if bool_decide (name = "$clog2"%string) then
    Some (arg ← sys_arg env "$clog2";
          v ← lift (try_eval_const_uint64 arg);
          match v : option Z with
          | Some v => lift (make_uint_literal (clog2 v) 32)
          | None => _ ← err "$clog2 argument must be a constant integer expression in this subset";
                    lift (make_uint_literal 0 32)
          end)
  else if bool_decide (name = "$bits"%string) then
    Some (arg ← sys_arg env "$bits"; lift (make_uint_literal (Z.of_nat (width arg)) 32))
  else if bool_decide (name ∈ ["$signed"; "$unsigned"]%string) then
    Some (v ← sys_arg env "$signed/$unsigned";
          mret (mk_value (xv_is_vector v) (bool_decide (name = "$signed"%string)) (xv_scalar_root v) (xv_vector_roots v)
                  (xv_msb v) (xv_lsb v)))
  else None.

(** ** Identifiers *)

(** [::], two tokens. *)
Definition accept_scope_resolution : P bool := fun ts s =>
  match ts with
  | c0 :: c1 :: _ =>
      if is_symbol ":" c0 && is_symbol ":" c1 then (_ ← consume; _ ← consume; mret true) ts s else Ok (false, ts, s)
  | _ => Ok (false, ts, s)
  end.

(** A name with the parts added by [::] and [.]. *)
Record qualified := mk_qualified {
  q_name : string;
  q_scope : bool;
  q_dot : bool;
  q_dot_count : nat;
  q_first_dot_member : string;
}.

Fixpoint qualified_loop (fuel : nat) (q : qualified) : P qualified :=
  match fuel with
  | O => out_of_fuel
  | S fuel =>
      when accept_scope_resolution then
        seg ← expect_ident "expected identifier after '::'";
        let q := mk_qualified (q_name q) true (q_dot q) (q_dot_count q) (q_first_dot_member q) in
        if bool_decide (seg = ""%string) then mret q
        else qualified_loop fuel
               (mk_qualified (q_name q +:+ "__" +:+ seg) true (q_dot q) (q_dot_count q) (q_first_dot_member q))
      else when accept_symbol "." then
        seg ← expect_ident "expected identifier after '.'";
        let count := S (q_dot_count q) in
        if bool_decide (seg = ""%string) then mret (mk_qualified (q_name q) (q_scope q) true count (q_first_dot_member q))
        else
          let member := if bool_decide (count = 1) && negb (q_scope q) then seg else q_first_dot_member q in
          qualified_loop fuel (mk_qualified (q_name q +:+ "__" +:+ seg) (q_scope q) true count member)
      else mret q
  end.

(** A name after [subst_idents]: its qualification, and the port of an
    instance it may stand for. *)
Definition parse_qualified (name : string) (base : expr_value) : P (qualified * expr_value) :=
  let q := mk_qualified name false false 0 "" in
  if negb (unresolved base) then mret (q, base)
  else
    q ← qualified_loop n q;
    if q_dot q && negb (q_scope q) && bool_decide (q_dot_count q = 1) then
      tn ← peek;
      if is_symbol "(" tn then mret (q, base)
      else v ← lift (try_resolve_inst_port name (q_first_dot_member q)); mret (q, default base v)
    else mret (q, base).

(** A call, after its [(]. *)
Definition parse_call (env : parse_env) (q : qualified) : P expr_value :=
  m ← lift get_module;
  match cm_functions m !! q_name q with
  | None =>
      let allow_foreign_call :=
        q_scope q || q_dot q || bool_decide (String.get 0 (q_name q) = Some "$"%char) || bool_decide (q_name q = "new"%string) in
      _ ← (if negb allow_foreign_call
           then _ ← err "unknown function (only user-defined functions in this module are supported)"; skip_until ")"
           else _ ← parse_args env None; mret ());
      lift x_scalar
  | Some fd =>
      args ← parse_args env (Some "expected ',' or ')' in function call"%string);
      _ ← (if bool_decide (length args = length (fd_params fd)) then mret () else err "function argument count mismatch");
      inline_call (q_name q) fd args
  end.

(** A name that is neither a cast nor a system function. *)
Definition parse_name (env : parse_env) (name : string) : P expr_value :=
  '(q, base) ← parse_qualified name (default expr_value_default (pe_subst_idents env !! name));
  base ← (if unresolved base
          then match pe_const_idents env !! q_name q with
               | Some v => lift (make_uint_literal v 32)
               | None => mret base
               end
          else mret base);
  if negb (unresolved base) then mret base
  else when accept_symbol "(" then parse_call env q else lift (name_value (q_name q)).

(** ** Concatenations *)

Definition append_bits (dst : list index) (e : expr_value) : list index := dst ++ roots_of e.

(** Expressions separated by commas. *)
Fixpoint items_loop (fuel : nat) (env : parse_env) (bits : list index) : P (list index) :=
  match fuel with
  | O => out_of_fuel
  | S fuel =>
      e ← parse_expr env;
      let bits := append_bits bits e in
      when accept_symbol "," then items_loop fuel env bits else mret bits
  end.

Definition parse_concat_items_until_rbrace (env : parse_env) : P (list index) :=
  when accept_symbol "}" then
    _ ← err "empty concatenation is not supported";
    x ← lift (make_literal indeterminate_state);
    mret [x]
  else
    bits ← items_loop n env [];
    _ ← expect_symbol "}" "expected '}'";
    mret bits.

(** [{<<8{...}}] after the arrow: the order of the bits is kept. *)
Definition parse_streaming (env : parse_env) : P expr_value :=
  _ ← (when accept_symbol "{" then mret ()
       else _ ← parse_expr env; expect_symbol "{" "expected '{' in streaming concatenation");
  bits ← parse_concat_items_until_rbrace env;
  _ ← expect_symbol "}" "expected '}'";
  match take max_concat_bits bits with
  | [] => lift x_scalar
  | [r] => mret (make_scalar r 0 0 false)
  | bits => lift (make_vector bits false)
  end.

(** [{count{...}}] after the inner [{]. *)
Definition parse_replication (env : parse_env) (count : expr_value) : P expr_value :=
  rep ← lift (try_eval_const_int count);
  rep_count ← (match rep : option Z with
               | Some r => if bool_decide (r < 0)%Z
                           then _ ← err "expected non-negative constant integer replication count"; mret 0%Z
                           else mret r
               | None => _ ← err "expected non-negative constant integer replication count"; mret 0%Z
               end);
  inner_bits ← parse_concat_items_until_rbrace env;
  _ ← expect_symbol "}" "expected '}'";
  if bool_decide (rep_count <= 0)%Z || bool_decide (inner_bits = []) then lift x_scalar
  else
    let want := (Z.of_nat (length inner_bits) * rep_count)%Z in
    if bool_decide (Z.of_nat max_concat_bits < want)%Z
    then _ ← err "concatenation/replication too wide (limit exceeded)"; lift (make_unknown_vector max_concat_bits false)
    else lift (make_vector (mjoin (replicate (Z.to_nat rep_count) inner_bits)) false).

(** The items of a concatenation after the first one. *)
Fixpoint more_items (fuel : nat) (env : parse_env) (bits : list index) : P (list index) :=
  match fuel with
  | O => out_of_fuel
  | S fuel =>
      when accept_symbol "," then e ← parse_expr env; more_items fuel env (append_bits bits e)
      else mret bits
  end.

Definition parse_concat (env : parse_env) : P expr_value :=
  when accept_symbol "}" then _ ← err "empty concatenation is not supported"; lift x_scalar
  else when accept_symbol "<<" then parse_streaming env
  else when accept_symbol ">>" then parse_streaming env
  else
    first_expr ← parse_expr env;
    when accept_symbol "{" then parse_replication env first_expr
    else
      bits ← more_items n env (append_bits [] first_expr);
      _ ← expect_symbol "}" "expected '}'";
      bits ← (if bool_decide (max_concat_bits < length bits)
              then _ ← err "concatenation too wide (limit exceeded)"; mret (take max_concat_bits bits)
              else mret bits);
      lift (make_vector bits false).

(** ** Primaries *)

(** [expr[...]], [expr[msb:lsb]], [expr[i +: w]], [expr[i -: w]]. *)
Fixpoint postfix_loop (fuel : nat) (env : parse_env) (base : expr_value) : P expr_value :=
  match fuel with
  | O => out_of_fuel
  | S fuel =>
      when accept_symbol "[" then
        first_e ← parse_expr env;
        base ← (when accept_symbol "+:" then
                  w_e ← parse_expr env;
                  _ ← expect_symbol "]" "expected ']'";
                  lift (apply_indexed_part_select base first_e w_e true)
                else when accept_symbol "-:" then
                  w_e ← parse_expr env;
                  _ ← expect_symbol "]" "expected ']'";
                  lift (apply_indexed_part_select base first_e w_e false)
                else when accept_symbol ":" then
                  lsb_e ← parse_expr env;
                  _ ← expect_symbol "]" "expected ']'";
                  lift (apply_part_select base first_e lsb_e)
                else
                  _ ← expect_symbol "]" "expected ']'";
                  lift (apply_bit_select base first_e));
        postfix_loop fuel env base
      else mret base
  end.

(** The primary without selects; [true]: it is returned at once. *)
Definition primary_base (env : parse_env) (t0 : token) : P (expr_value * bool) :=
  match tok_kind t0 with
  | tk_identifier =>
      cast ← (if bool_decide (tok_text t0 ∈ cast_types) then parse_cast env (tok_text t0) else mret None);
      match cast : option expr_value with
      | Some v => mret (v, true)
      | None =>
          _ ← consume;
          match system_function env (tok_text t0) with
          | Some f => v ← f; mret (v, true)
          | None => v ← parse_name env (tok_text t0); mret (v, false)
          end
      end
  | tk_number =>
      v ← lift (number_value (tok_text t0));
      _ ← consume;
      match v : option expr_value with
      | Some v => mret (v, false)
      | None => v ← lift x_scalar; mret (v, true)
      end
  | _ =>
      if bool_decide (tok_kind t0 = tk_symbol) && bool_decide (String.get 0 (tok_text t0) = Some quote)
      then _ ← consume; v ← lift x_scalar; mret (v, false)
      else if is_symbol "{" t0 then _ ← consume; v ← parse_concat env; mret (v, false)
      else if is_symbol "(" t0 then
        _ ← consume; v ← parse_expr env; _ ← expect_symbol ")" "expected ')'"; mret (v, false)
      else _ ← err "expected expression"; _ ← consume; v ← lift x_scalar; mret (v, false)
  end.

Definition parse_primary (env : parse_env) : P expr_value :=
  t0 ← peek;
  '(base, finished) ← primary_base env t0;
  if finished : bool then mret base else postfix_loop n env base.

(** ** Precedence *)

Fixpoint power_loop (fuel : nat) (env : parse_env) : P expr_value :=
  match fuel with
  | O => out_of_fuel
  | S fuel =>
      lhs ← parse_primary env;
      when accept_symbol "**" then rhs ← power_loop fuel env; lift (arith_pow lhs rhs) else mret lhs
  end.

Definition parse_power (env : parse_env) : P expr_value := power_loop n env.

Fixpoint unary_loop (fuel : nat) (env : parse_env) : P expr_value :=
  match fuel with
  | O => out_of_fuel
  | S fuel =>
      op ← accept_first unary_ops;
      match op : option (expr_value -> L expr_value) with
      | Some f => a ← unary_loop fuel env; lift (f a)
      | None => parse_power env
      end
  end.

Definition parse_unary (env : parse_env) : P expr_value := unary_loop n env.

(** A level of left-associative operators over the next one. *)
Definition level (ops : list (string * binary_op)) (next : parse_env -> P expr_value) (env : parse_env) : P expr_value :=
  lhs ← next env; binary_loop n ops (next env) lhs.

Definition parse_mul : parse_env -> P expr_value := level mul_ops parse_unary.
Definition parse_add : parse_env -> P expr_value := level add_ops parse_mul.
Definition parse_shift : parse_env -> P expr_value := level shift_ops parse_add.
Definition parse_and : parse_env -> P expr_value := level and_ops parse_shift.
Definition parse_xor : parse_env -> P expr_value := level xor_ops parse_and.
Definition parse_or : parse_env -> P expr_value := level or_ops parse_xor.
Definition parse_rel : parse_env -> P expr_value := level rel_ops parse_or.
Definition parse_eq : parse_env -> P expr_value := level eq_ops parse_rel.
Definition parse_land : parse_env -> P expr_value := level land_ops parse_eq.
Definition parse_lor : parse_env -> P expr_value := level lor_ops parse_land.

Definition parse_cond (env : parse_env) : P expr_value :=
  cond ← parse_lor env;
  when accept_symbol "?" then
    t ← parse_expr env;
    _ ← expect_symbol ":" "expected ':' in conditional operator";
    f ← parse_expr env;
    lift (make_conditional cond t f)
  else mret cond.
End Levels.

(** [parse_expr] is [parse_cond]. *)
Fixpoint parse_fuel (fuel : nat) (env : parse_env) : P expr_value :=
  match fuel with O => out_of_fuel | S fuel => parse_cond (S fuel) (parse_fuel fuel) env end.

(** As much fuel as there are tokens. *)
Definition parse_expr (env : parse_env) : P expr_value := fun ts s => parse_fuel (S (remaining ts)) env ts s.
End Parser.
