(* ===== verification/VParseOk.v ===== *)
(** * Verilog: the expression parser terminates

    Every loop and every recursive call of the parser is entered after a token
    was taken, so fuel for the number of tokens is enough on any input; and the
    parser never moves past the end token.  [safe] says so of a step; VStmtOk
    carries it to statements and to the bodies of inlined calls. *)

From S2P Require Import Prelude Logic4 VModule VLower VBits VLiteral VLex VLexOk VSignals VParse.
From Stdlib Require Import ZArith Lia Ascii.

(** ** Token lists *)

(** The tokens end with an end token. *)
Definition valid (ts : list token) : Prop := exists t, last ts = Some t /\ is_eof t = true.

Lemma valid_cons t ts : valid (t :: ts) -> is_eof t = false -> valid ts.
Proof.
  intros (e & He & Heof) Ht. destruct ts as [|u ts]; [|by exists e]. simpl in He. injection He as ->. congruence.
Qed.

Lemma valid_nonempty ts : valid ts -> exists t ts', ts = t :: ts'.
Proof. intros (e & He & _). destruct ts as [|t ts]; [done|by do 2 eexists]. Qed.

Lemma remaining_cons t ts : valid (t :: ts) -> is_eof t = false -> remaining (t :: ts) = S (remaining ts).
Proof.
  intros Hv Ht. destruct (valid_nonempty ts) as (u & ts' & ->); [by eapply valid_cons|]. unfold remaining. simpl. lia.
Qed.

(** ** Steps that stay inside the tokens *)

(** With at most [n] tokens left the step does not run out of fuel and leaves a
    rest of the tokens. *)
Definition inside {A} (r : res (A * list token * pstate)) (ts : list token) : Prop :=
  match r with
  | Ok (_, ts', _) => valid ts' /\ ts' `suffix_of` ts /\ remaining ts' <= remaining ts
  | Undefined | TooDeep => True
  | OutOfFuel => False
  end.

Definition safe {A} (n : nat) (c : P A) : Prop :=
  forall ts s, valid ts -> remaining ts <= n -> inside (c ts s) ts.

(** The same when the next token is [t]. *)
Definition safe_at {A} (n : nat) (t : token) (c : P A) : Prop :=
  forall ts s, valid ts -> remaining ts <= n -> head ts = Some t -> inside (c ts s) ts.

Create HintDb parse discriminated.

Lemma inside_trans {A} (r : res (A * list token * pstate)) ts ts' :
  inside r ts' -> ts' `suffix_of` ts -> remaining ts' <= remaining ts -> inside r ts.
Proof.
  destruct r as [[[a t] s]| | |]; [|done..]. intros (Hv & Hs & Hr) Hs' Hr'. split_and!; [done|by etransitivity|lia].
Qed.

Lemma safe_mono {A} n n' (c : P A) : n' <= n -> safe n c -> safe n' c.
Proof. intros Hn Hc ts s Hv Hr. apply Hc; [done|lia]. Qed.

Lemma safe_bind {A B} n (c : P A) (f : A -> P B) : safe n c -> (forall a, safe n (f a)) -> safe n (c ≫= f).
Proof.
  intros Hc Hf ts s Hv Hr. unfold mbind, P_bind. pose proof (Hc ts s Hv Hr) as Hi. destruct (c ts s) as [[[a ts'] s']| | |]; [|done..].
  destruct Hi as (Hv' & Hs' & Hr'). eapply inside_trans; [apply Hf; [done|lia]|done|done].
Qed.

Lemma safe_ret {A} n (a : A) : safe n (mret a).
Proof. intros ts s Hv Hr. by split_and!. Qed.

Lemma safe_lift {A} n (c : L A) : safe n (lift c).
Proof. intros ts s Hv Hr. unfold lift. by destruct (c s) as [[a s']|]. Qed.

Lemma safe_branch {A} n c (a b : P A) : safe n c -> safe n a -> safe n b -> safe n (branch c a b).
Proof. intros Hc Ha Hb. apply safe_bind; [done|]. by intros []. Qed.

Lemma safe_peek {A} n (f : token -> P A) : (forall t, safe_at n t (f t)) -> safe n (peek ≫= f).
Proof.
  intros Hf ts s Hv Hr. destruct (valid_nonempty ts Hv) as (t & ts' & ->). unfold mbind, P_bind. simpl. by apply (Hf t).
Qed.

Lemma safe_safe_at {A} n t (c : P A) : safe n c -> safe_at n t c.
Proof. intros Hc ts s Hv Hr _. by apply Hc. Qed.

(** A token was taken: one less is left. *)
Lemma safe_at_consume {A} n t (f : token -> P A) :
  is_eof t = false -> (forall n', n = S n' -> safe n' (f t)) -> safe_at n t (consume ≫= f).
Proof.
  intros Ht Hf ts s Hv Hr Hhead. destruct ts as [|u ts]; [done|]. injection Hhead as ->. unfold mbind, P_bind, consume.
  rewrite Ht. pose proof (remaining_cons t ts Hv Ht) as Hrem. destruct n as [|n']; [lia|].
  eapply inside_trans; [apply (Hf n'); [done|by eapply valid_cons|lia]|by apply suffix_cons_r|lia].
Qed.

Lemma safe_consume n : safe n consume.
Proof.
  intros ts s Hv Hr. destruct (valid_nonempty ts Hv) as (t & ts' & ->). unfold consume. destruct (is_eof t) eqn:Ht; [done|].
  split_and!; [by eapply valid_cons|by apply suffix_cons_r|]. rewrite (remaining_cons t ts') by done. lia.
Qed.

Lemma is_symbol_eof sym t : is_symbol sym t = true -> is_eof t = false.
Proof.
  unfold is_symbol, is_eof. rewrite andb_true_iff, !bool_decide_eq_true. intros [-> _]. by apply bool_decide_eq_false.
Qed.

(** A symbol was accepted: one token less is left for what follows. *)
Lemma safe_at_accept {A} n t sym (a b : P A) :
  (forall n', n = S n' -> safe n' a) -> safe_at n t b -> safe_at n t (branch (accept_symbol sym) a b).
Proof.
  intros Ha Hb ts s Hv Hr Hhead. destruct ts as [|u ts']; [done|]. injection Hhead as ->.
  destruct (is_symbol sym t) eqn:Hsym.
  - assert (E : branch (accept_symbol sym) a b (t :: ts') s = a ts' s).
    { unfold branch, accept_symbol, mbind, P_bind, peek, consume. rewrite Hsym, (is_symbol_eof _ _ Hsym). done. }
    rewrite E. pose proof (is_symbol_eof _ _ Hsym) as Ht. pose proof (remaining_cons t ts' Hv Ht) as Hrem. destruct n as [|n']; [lia|].
    eapply inside_trans; [apply (Ha n'); [done|by eapply valid_cons|lia]|by apply suffix_cons_r|lia].
  - assert (E : branch (accept_symbol sym) a b (t :: ts') s = b (t :: ts') s).
    { unfold branch, accept_symbol, mbind, P_bind, peek. by rewrite Hsym. }
    rewrite E. by apply Hb.
Qed.

Lemma safe_by_head {A} n (c : P A) : (forall t, safe_at n t c) -> safe n c.
Proof. intros Hc ts s Hv Hr. destruct (valid_nonempty ts Hv) as (t & ts' & ->). by apply (Hc t). Qed.

Lemma safe_accept {A} n sym (a b : P A) :
  (forall n', n = S n' -> safe n' a) -> safe n b -> safe n (branch (accept_symbol sym) a b).
Proof. intros Ha Hb. apply safe_by_head. intros t. apply safe_at_accept; [done|]. by apply safe_safe_at. Qed.

Lemma safe_accept_symbol n sym : safe n (accept_symbol sym).
Proof.
  unfold accept_symbol. apply safe_peek. intros t. destruct (is_symbol sym t) eqn:Ht; [|apply safe_safe_at, safe_ret].
  apply safe_at_consume; [by eapply is_symbol_eof|]. intros n' _. apply safe_ret.
Qed.

Lemma safe_err n msg : safe n (err msg).
Proof. apply safe_lift. Qed.

Lemma safe_expect n sym msg : safe n (expect_symbol sym msg).
Proof. apply safe_accept; [intros; apply safe_ret|apply safe_err]. Qed.

#[export] Hint Resolve safe_ret safe_lift safe_err safe_expect safe_consume safe_accept_symbol safe_safe_at : parse.

Lemma is_ident_eof t : tok_kind t = tk_identifier -> is_eof t = false.
Proof. unfold is_eof. intros ->. by apply bool_decide_eq_false. Qed.

Lemma safe_expect_ident n what : safe n (expect_ident what).
Proof.
  unfold expect_ident. apply safe_peek. intros t. case_bool_decide as Ht; cbn [negb].
  - apply safe_at_consume; [by apply is_ident_eof|]. auto with parse.
  - apply safe_safe_at, safe_bind; auto with parse.
Qed.

Lemma safe_accept_kw {A} n kw (a b : P A) :
  (forall n', n = S n' -> safe n' a) -> safe n b -> safe n (branch (accept_kw kw) a b).
Proof.
  intros Ha Hb ts s Hv Hr. destruct (valid_nonempty ts Hv) as (t & ts' & ->).
  destruct (bool_decide (tok_kind t = tk_identifier) && bool_decide (tok_text t = kw)) eqn:Hkw.
  - pose proof Hkw as [Hk _]%andb_true_iff. apply bool_decide_eq_true in Hk. pose proof (is_ident_eof t Hk) as Ht.
    assert (E : branch (accept_kw kw) a b (t :: ts') s = a ts' s).
    { unfold branch, accept_kw, mbind, P_bind, peek, consume. by rewrite Hkw, Ht. }
    rewrite E. pose proof (remaining_cons t ts' Hv Ht) as Hrem. destruct n as [|n']; [lia|].
    eapply inside_trans; [apply (Ha n'); [done|by eapply valid_cons|lia]|by apply suffix_cons_r|lia].
  - assert (E : branch (accept_kw kw) a b (t :: ts') s = b (t :: ts') s).
    { unfold branch, accept_kw, mbind, P_bind, peek. by rewrite Hkw. }
    rewrite E. by apply Hb.
Qed.

(** ** Loops *)

Lemma branch_eof {A} (a b : P A) ts s : branch eof a b ts s = (t ← peek; if is_eof t then a else b) ts s.
Proof. unfold branch, eof, mbind, P_bind, peek. by destruct ts. Qed.

Lemma safe_skip_loop f sym n : n < f -> safe n (skip_loop f sym).
Proof.
  revert n. induction f as [|f IH]; intros n Hn; [lia|]. cbn [skip_loop].
  intros ts s Hv Hr. rewrite branch_eof. revert ts s Hv Hr. apply safe_peek. intros t. destruct (is_eof t) eqn:Ht; [auto with parse|]. apply safe_at_accept; [auto with parse|].
  apply safe_at_consume; [done|]. intros n' ->. apply IH. lia.
Qed.

Lemma safe_skip_until n sym : safe n (skip_until sym).
Proof. intros ts s Hv Hr. unfold skip_until. apply (safe_skip_loop _ _ (remaining ts)); [lia|done|done]. Qed.

#[export] Hint Resolve safe_expect_ident safe_skip_until : parse.

Lemma safe_accept_first {A B} n (ops : list (string * A)) (f : option A -> P B) :
  (forall a n', n = S n' -> safe n' (f (Some a))) -> safe n (f None) -> safe n (accept_first ops ≫= f).
Proof.
  intros Hs Hn. induction ops as [|[sym a] ops IH]; [done|].
  assert (E : forall ts s, (accept_first ((sym, a) :: ops) ≫= f) ts s
    = branch (accept_symbol sym) (f (Some a)) (accept_first ops ≫= f) ts s).
  { intros ts s. cbn [accept_first]. unfold branch, mbind, P_bind. by destruct (accept_symbol sym ts s) as [[[[] ?] ?]| | |]. }
  intros ts s Hv Hr. rewrite E. apply (safe_accept n); [auto|done|done|done].
Qed.

Lemma safe_binary_loop f ops operand lhs n :
  n < f -> (forall n', n' < n -> safe n' operand) -> safe n (binary_loop f ops operand lhs).
Proof.
  revert n lhs. induction f as [|f IH]; intros n lhs Hn Hop; [lia|]. cbn [binary_loop]. apply safe_accept_first; [|auto with parse].
  intros g n' ->. apply safe_bind; [apply Hop; lia|]. intros rhs. apply safe_bind; [auto with parse|]. intros v. apply IH; [lia|].
  intros n'' Hn''. apply Hop. lia.
Qed.

Lemma safe_signed_loop f b n : n < f -> safe n (signed_loop f b).
Proof.
  revert b n. induction f as [|f IH]; intros b n Hn; [lia|]. cbn [signed_loop].
  apply safe_accept_kw; [intros n' ->; apply IH; lia|]. apply safe_accept_kw; [intros n' ->; apply IH; lia|]. auto with parse.
Qed.

Lemma safe_scope_resolution {A} n (a b : P A) :
  (forall n', n = S n' -> safe n' a) -> safe n b -> safe n (branch accept_scope_resolution a b).
Proof.
  intros Ha Hb ts s Hv Hr. destruct ts as [|c0 [|c1 ts]]; [by apply Hb..|].
  destruct (is_symbol ":" c0 && is_symbol ":" c1) eqn:Hc.
  - pose proof Hc as [H0%is_symbol_eof H1%is_symbol_eof]%andb_true_iff.
    assert (E : branch accept_scope_resolution a b (c0 :: c1 :: ts) s = a ts s).
    { unfold branch, accept_scope_resolution, mbind, P_bind, consume. by rewrite Hc, H0, H1. }
    rewrite E. pose proof (remaining_cons c0 (c1 :: ts) Hv H0) as R0. pose proof (valid_cons _ _ Hv H0) as V0.
    pose proof (remaining_cons c1 ts V0 H1) as R1. destruct n as [|n']; [lia|].
    eapply inside_trans; [apply (Ha n'); [done|by eapply valid_cons|lia]|by do 2 apply suffix_cons_r|lia].
  - assert (E : branch accept_scope_resolution a b (c0 :: c1 :: ts) s = b (c0 :: c1 :: ts) s).
    { unfold branch, accept_scope_resolution, mbind, P_bind. by rewrite Hc. }
    rewrite E. by apply Hb.
Qed.

Lemma safe_qualified_loop f q n : n < f -> safe n (qualified_loop f q).
Proof.
  revert q n. induction f as [|f IH]; intros q n Hn; [lia|]. cbn [qualified_loop].
  apply safe_scope_resolution; [|apply safe_accept; [|auto with parse]]; intros n' ->;
    (apply safe_bind; [auto with parse|]); intros seg; case_bool_decide; auto with parse; apply IH; lia.
Qed.

(** ** The levels *)

Section Levels.
Context (inline_call : string -> function_def -> list expr_value -> P expr_value).
Context (Hinline : forall name fd args n, safe n (inline_call name fd args)).
(** [f] is the fuel of the recursive call; it is enough for fewer tokens. *)
Context (f : nat) (self : parse_env -> P expr_value).
Context (Hself : forall n env, n < f -> safe n (self env)).

Lemma safe_range_bound n msg : n < f -> safe n (range_bound self msg).
Proof.
  intros Hn. unfold range_bound. apply safe_bind; [by apply Hself|]. intros e. apply safe_bind; [auto with parse|]. intros [a|]; [auto with parse|].
  apply safe_bind; [auto with parse|]. intros _. apply safe_bind; auto with parse.
Qed.

Lemma safe_accept_range n : n <= f -> safe n (accept_range self).
Proof.
  intros Hn. unfold accept_range. apply safe_accept; [|auto with parse]. intros n' ->.
  apply safe_bind; [apply safe_range_bound; lia|]. intros [a|]; [|auto with parse].
  apply safe_bind. { apply safe_accept; [intros n'' ->; apply safe_range_bound; lia|auto with parse]. }
  intros [b|]; [|auto with parse]. apply safe_bind; auto with parse.
Qed.

Lemma safe_args_loop g env msg args n : n < g -> n < f -> safe n (args_loop self g env msg args).
Proof.
  revert args n. induction g as [|g IH]; intros args n Hg Hf; [lia|]. cbn [args_loop]. apply safe_bind; [by apply Hself|]. intros e.
  apply safe_accept; [auto with parse|]. apply safe_accept; [intros n' ->; apply IH; lia|].
  apply safe_bind; [destruct msg; auto with parse|]. intros _. apply safe_bind; auto with parse.
Qed.

Lemma safe_parse_args g env msg n : n < g -> n < f -> safe n (parse_args g self env msg).
Proof. intros Hg Hf. apply safe_accept; [auto with parse|]. by apply safe_args_loop. Qed.

Lemma safe_sys_arg env name n : n < f -> safe n (sys_arg self env name).
Proof.
  intros Hf. unfold sys_arg. apply safe_bind; [auto with parse|]. intros _. apply safe_bind; [by apply Hself|]. intros arg.
  apply safe_bind; [|auto with parse]. apply safe_accept; [auto with parse|]. apply safe_bind; auto with parse.
Qed.

Lemma safe_system_function g env name c n : n < g -> n < f -> system_function g self env name = Some c -> safe n c.
Proof.
  intros Hg Hf. unfold system_function.
  destruct (bool_decide (name ∈ ["$urandom"; "$random"]%string)).
  { intros [= <-]. apply safe_bind; [|auto with parse]. apply safe_accept; [intros n' ->; apply safe_parse_args; lia|auto with parse]. }
  destruct (bool_decide (name = "$clog2"%string)).
  { intros [= <-]. apply safe_bind; [by apply safe_sys_arg|]. intros arg. apply safe_bind; [auto with parse|].
    intros [v|]; [auto with parse|]. apply safe_bind; auto with parse. }
  destruct (bool_decide (name = "$bits"%string)).
  { intros [= <-]. apply safe_bind; [by apply safe_sys_arg|auto with parse]. }
  destruct (bool_decide (name ∈ ["$signed"; "$unsigned"]%string)); [|done].
  intros [= <-]. apply safe_bind; [by apply safe_sys_arg|auto with parse].
Qed.

Lemma safe_items_loop g env bits n : n < g -> n < f -> safe n (items_loop self g env bits).
Proof.
  revert bits n. induction g as [|g IH]; intros bits n Hg Hf; [lia|]. cbn [items_loop]. apply safe_bind; [by apply Hself|]. intros e.
  apply safe_accept; [intros n' ->; apply IH; lia|auto with parse].
Qed.

Lemma safe_more_items g env bits n : n < g -> n <= f -> safe n (more_items self g env bits).
Proof.
  revert bits n. induction g as [|g IH]; intros bits n Hg Hf; [lia|]. cbn [more_items].
  apply safe_accept; [|auto with parse]. intros n' ->. apply safe_bind; [apply Hself; lia|]. intros e. apply IH; lia.
Qed.

Lemma safe_concat_items g env n : n < g -> n < f -> safe n (parse_concat_items_until_rbrace g self env).
Proof.
  intros Hg Hf. apply safe_accept.
  - intros n' ->. apply safe_bind; [auto with parse|]. intros _. apply safe_bind; auto with parse.
  - apply safe_bind; [by apply safe_items_loop|]. intros bits. apply safe_bind; auto with parse.
Qed.

Lemma safe_streaming g env n : n < g -> n < f -> safe n (parse_streaming g self env).
Proof.
  intros Hg Hf. unfold parse_streaming. apply safe_bind.
  { apply safe_accept; [auto with parse|]. apply safe_bind; [by apply Hself|auto with parse]. }
  intros _. apply safe_bind; [by apply safe_concat_items|]. intros bits. apply safe_bind; [auto with parse|]. intros _.
  destruct (take max_concat_bits bits) as [|r [|r' l]]; auto with parse.
Qed.

Lemma safe_replication g env count n : n < g -> n < f -> safe n (parse_replication g self env count).
Proof.
  intros Hg Hf. unfold parse_replication. apply safe_bind; [auto with parse|]. intros rep. apply safe_bind.
  { destruct rep as [r|]; [case_bool_decide; [|auto with parse]|]; (apply safe_bind; auto with parse). }
  intros rep_count. apply safe_bind; [by apply safe_concat_items|]. intros bits. apply safe_bind; [auto with parse|]. intros _.
  destruct (_ || _); [auto with parse|]. case_bool_decide; [apply safe_bind; auto with parse|auto with parse].
Qed.

Lemma safe_concat g env n : n < g -> n < f -> safe n (parse_concat g self env).
Proof.
  intros Hg Hf. unfold parse_concat.
  apply safe_accept; [intros n' ->; apply safe_bind; auto with parse|].
  apply safe_accept; [intros n' ->; apply safe_streaming; lia|].
  apply safe_accept; [intros n' ->; apply safe_streaming; lia|].
  apply safe_bind; [by apply Hself|]. intros e. apply safe_accept; [intros n' ->; apply safe_replication; lia|].
  apply safe_bind; [apply safe_more_items; lia|]. intros bits. apply safe_bind; [auto with parse|]. intros _.
  apply safe_bind; [|auto with parse]. case_bool_decide; [apply safe_bind; auto with parse|auto with parse].
Qed.

Lemma safe_postfix_loop g env base n : n < g -> n <= f -> safe n (postfix_loop self g env base).
Proof.
  revert base n. induction g as [|g IH]; intros base n Hg Hf; [lia|]. cbn [postfix_loop]. apply safe_accept; [|auto with parse].
  intros n' ->. apply safe_bind; [apply Hself; lia|]. intros e. apply safe_bind; [|intros v; apply IH; lia].
  assert (Hsel : forall n'' (g : expr_value -> L expr_value), S n'' <= n' ->
    safe n'' (w_e ← self env; _ ← expect_symbol "]" "expected ']'"; lift (g w_e))).
  { intros n'' h Hn''. apply safe_bind; [apply Hself; lia|]. intros w. apply safe_bind; auto with parse. }
  do 3 (apply safe_accept; [intros n'' ->; apply Hsel; lia|]). apply safe_bind; auto with parse.
Qed.

(** A step that may go back to the tokens [saved]. *)
Definition safe_back {A} (saved : list token) (n : nat) (c : P A) : Prop :=
  forall ts s, valid ts -> remaining ts <= n -> ts `suffix_of` saved -> remaining ts <= remaining saved -> inside (c ts s) saved.

Lemma safe_back_bind {A B} saved n (c : P A) (g : A -> P B) :
  safe n c -> (forall a, safe_back saved n (g a)) -> safe_back saved n (c ≫= g).
Proof.
  intros Hc Hg ts s Hv Hr Hsuf Hrem. unfold mbind, P_bind. pose proof (Hc ts s Hv Hr) as Hi.
  destruct (c ts s) as [[[a ts'] s']| | |]; [|done..]. destruct Hi as (Hv' & Hs' & Hr'). apply Hg; [done|lia|by etransitivity|lia].
Qed.

Lemma safe_safe_back {A} saved n (c : P A) : safe n c -> safe_back saved n c.
Proof. intros Hc ts s Hv Hr Hsuf Hrem. by eapply inside_trans; [apply Hc|..]. Qed.

Lemma safe_parse_cast g env kw n t : n < g -> n <= f -> is_eof t = false -> safe_at n t (parse_cast g self env kw).
Proof.
  intros Hg Hf Ht ts s Hv Hr Hhead. destruct n as [|n'].
  { destruct ts as [|u ts]; [done|]. injection Hhead as ->. pose proof (remaining_cons t ts Hv Ht). lia. }
  unfold parse_cast. destruct ts as [|u ts]; [done|]. injection Hhead as ->. unfold mbind at 1, P_bind, consume. rewrite Ht.
  pose proof (remaining_cons t ts Hv Ht) as Hrem.
  assert (Hback : forall c : P (option expr_value), safe_back (t :: ts) n' c -> inside (c ts s) (t :: ts)).
  { intros c Hc. apply Hc; [by eapply valid_cons|lia|by apply suffix_cons_r|lia]. }
  apply Hback. apply safe_back_bind; [apply safe_signed_loop; lia|]. intros b1. apply safe_back_bind; [apply safe_accept_range; lia|].
  intros tr. apply safe_back_bind; [apply safe_signed_loop; lia|]. intros b2. apply safe_back_bind; [auto with parse|]. intros w.
  apply safe_back_bind; [auto with parse|]. intros [|]; [|by intros ts' s' _ _ _ _; split_and!].
  apply safe_safe_back. apply safe_bind; [auto with parse|]. intros _. apply safe_bind; [apply Hself; lia|]. intros v.
  apply safe_bind; [auto with parse|]. intros _. apply safe_bind; [auto with parse|]. intros roots. apply safe_bind; auto with parse.
Qed.

Lemma safe_parse_call g env q n : n < g -> n < f -> safe n (parse_call inline_call g self env q).
Proof.
  intros Hg Hf. unfold parse_call. apply safe_bind; [auto with parse|]. intros m. destruct (cm_functions m !! q_name q).
  - apply safe_bind; [by apply safe_parse_args|]. intros args. apply safe_bind; [case_bool_decide; auto with parse|auto with parse].
  - apply safe_bind; [|auto with parse]. destruct (negb _); apply safe_bind; auto with parse. by apply safe_parse_args.
Qed.

Lemma safe_parse_qualified g name base n : n < g -> safe n (parse_qualified g name base).
Proof.
  intros Hg. unfold parse_qualified. destruct (negb _); [auto with parse|]. apply safe_bind; [by apply safe_qualified_loop|].
  intros q. destruct (q_dot q && _ && _); [|auto with parse]. apply safe_peek. intros t.
  destruct (is_symbol "(" t); [auto with parse|]. apply safe_safe_at, safe_bind; auto with parse.
Qed.

Lemma safe_parse_name g env name n : n < g -> n <= f -> safe n (parse_name inline_call g self env name).
Proof.
  intros Hg Hf. unfold parse_name. apply safe_bind; [by apply safe_parse_qualified|]. intros [q base]. apply safe_bind.
  { destruct (unresolved base); [|auto with parse]. destruct (pe_const_idents env !! q_name q); auto with parse. }
  intros base'. destruct (negb _); [auto with parse|]. apply safe_accept; [|auto with parse]. intros n' ->. apply safe_parse_call; lia.
Qed.

Lemma safe_at_bind {A B} n t (c : P A) (h : A -> P B) : safe_at n t c -> (forall a, safe n (h a)) -> safe_at n t (c ≫= h).
Proof.
  intros Hc Hh ts s Hv Hr Hhead. unfold mbind, P_bind. pose proof (Hc ts s Hv Hr Hhead) as Hi.
  destruct (c ts s) as [[[a ts'] s']| | |]; [|done..]. destruct Hi as (? & ? & ?). eapply inside_trans; [apply Hh; [done|lia]|done|done].
Qed.

Lemma cast_no_system g env name : name ∈ cast_types -> system_function g self env name = None.
Proof.
  unfold cast_types. rewrite !elem_of_cons, elem_of_nil. intros Hn. repeat destruct Hn as [->|Hn]; done.
Qed.

Lemma safe_primary_base g env t n : n < g -> n <= f -> safe_at n t (primary_base inline_call g self env t).
Proof.
  intros Hg Hf. unfold primary_base. destruct (tok_kind t) eqn:Hk.
  - unfold is_symbol. rewrite Hk, !(bool_decide_eq_false_2 (tk_eof = tk_symbol)) by done. cbn [andb]. apply safe_safe_at. apply safe_bind; [auto with parse|]. intros _. apply safe_bind; [auto with parse|]. intros _.
    apply safe_bind; auto with parse.
  - pose proof (is_ident_eof t Hk) as Ht. case_bool_decide as Hc.
    + apply safe_at_bind; [by apply safe_parse_cast|]. intros [v|]; [auto with parse|]. apply safe_bind; [auto with parse|].
      intros _. rewrite cast_no_system by done. apply safe_bind; [by apply safe_parse_name|auto with parse].
    + apply (safe_at_consume n t); [done|]. intros n' ->. destruct (system_function g self env (tok_text t)) as [c|] eqn:Hs.
      * apply safe_bind; [by eapply safe_system_function; [| |exact Hs]; lia|auto with parse].
      * apply safe_bind; [apply safe_parse_name; lia|auto with parse].
  - apply safe_safe_at. apply safe_bind; [auto with parse|]. intros v. apply safe_bind; [auto with parse|]. intros _.
    destruct v; [auto with parse|]. apply safe_bind; auto with parse.
  - assert (Ht : is_eof t = false) by (unfold is_eof; rewrite Hk; by apply bool_decide_eq_false).
    destruct (bool_decide _ && _); [apply safe_safe_at; apply safe_bind; [auto with parse|]; intros _; apply safe_bind; auto with parse|].
    destruct (is_symbol "{" t); [|destruct (is_symbol "(" t)].
    + apply safe_at_consume; [done|]. intros n' ->. apply safe_bind; [apply safe_concat; lia|auto with parse].
    + apply safe_at_consume; [done|]. intros n' ->. apply safe_bind; [apply Hself; lia|]. intros v. apply safe_bind; auto with parse.
    + apply safe_safe_at. apply safe_bind; [auto with parse|]. intros _. apply safe_bind; [auto with parse|]. intros _.
      apply safe_bind; auto with parse.
Qed.

Lemma safe_parse_primary g env n : n < g -> n <= f -> safe n (parse_primary inline_call g self env).
Proof.
  intros Hg Hf. unfold parse_primary. apply safe_peek. intros t. apply safe_at_bind; [by apply safe_primary_base|].
  intros [base []]; [auto with parse|]. by apply safe_postfix_loop.
Qed.

Lemma safe_power_loop g h env n : n < g -> n < h -> n <= f -> safe n (power_loop inline_call g self h env).
Proof.
  intros Hg. revert n Hg. induction h as [|h IH]; intros n Hg Hh Hf; [lia|]. cbn [power_loop].
  apply safe_bind; [by apply safe_parse_primary|]. intros lhs. apply safe_accept; [|auto with parse]. intros n' ->.
  apply safe_bind; [apply IH; lia|auto with parse].
Qed.

Lemma safe_unary_loop g h env n : n < g -> n < h -> n <= f -> safe n (unary_loop inline_call g self h env).
Proof.
  revert n. induction h as [|h IH]; intros n Hg Hh Hf; [lia|]. cbn [unary_loop].
  apply safe_accept_first; [|by apply safe_power_loop]. intros op n' ->. apply safe_bind; [apply IH; lia|auto with parse].
Qed.

Lemma safe_level g ops next env :
  f < g -> (forall n, n <= f -> safe n (next env)) -> forall n, n <= f -> safe n (level g ops next env).
Proof.
  intros Hg Hnext n Hn. unfold level. apply safe_bind; [by apply Hnext|]. intros lhs. apply safe_binary_loop; [lia|].
  intros n' Hn'. apply Hnext. lia.
Qed.

Lemma safe_parse_cond g env n : f < g -> n <= f -> safe n (parse_cond inline_call g self env).
Proof.
  intros Hg Hf. unfold parse_cond. apply safe_bind.
  { revert n Hf. do 10 (apply safe_level; [done|]). intros n Hn. apply safe_unary_loop; lia. }
  intros cond. apply safe_accept; [|auto with parse]. intros n' ->. apply safe_bind; [apply Hself; lia|]. intros t.
  apply safe_bind; [auto with parse|]. intros _. apply safe_bind; [apply Hself; lia|auto with parse].
Qed.
End Levels.

Lemma safe_parse_fuel inline_call f env n :
  (forall name fd args n, safe n (inline_call name fd args)) -> n < f -> safe n (parse_fuel inline_call f env).
Proof.
  intros Hinline. revert env n. induction f as [|f IH]; intros env n Hn; [lia|]. cbn [parse_fuel].
  apply (safe_parse_cond inline_call Hinline f); [|lia|lia]. intros m env' Hm. by apply IH.
Qed.

(** Expressions are parsed in finite time inside the tokens, as far as calls are inlined in finite time. *)
Lemma safe_parse_expr inline_call env n :
  (forall name fd args n, safe n (inline_call name fd args)) -> safe n (parse_expr inline_call env).
Proof. intros Hinline ts s Hv Hr. unfold parse_expr. apply (safe_parse_fuel _ _ _ (remaining ts)); [done|lia|done|done]. Qed.

(** ** The tokens of the lexer *)

Lemma placed_valid smap off lc pieces : valid (placed smap off lc pieces).
Proof.
  revert off lc. induction pieces as [|[b o] pieces IH]; intros off lc; cbn [placed]; [by eexists|].
  destruct (IH (off + length b) (bumps lc b)) as (t & Ht & He). exists t. split; [|done]. rewrite last_app, Ht. done.
Qed.

Lemma lex_valid src smap : valid (lr_tokens (lex src smap)).
Proof.
  destruct (lex_loop_cut (length src) smap 0 (1, 1)%Z src (mk_lex [] [])) as (pieces & _ & Ht & _); [done|].
  unfold lex. rewrite Ht. apply placed_valid.
Qed.
