(* ===== verification/VPrint.v ===== *)
(** * Verilog: precedence and associativity of the expression parser

    Expression trees, the builder step a tree stands for ([lower]), and their
    printing with as few parentheses as the levels of the parser allow.  The
    parser reads the printed tokens as the tree: the value and the state of the
    builder are those of [lower], and nothing after the expression is taken. *)

From S2P Require Import Prelude Logic4 VModule VEval VLower VBits VLiteral VLex VSignals VParse VParseOk.
From Stdlib Require Import ZArith Lia Ascii.

(** ** Trees *)

#[warnings="-register-all"]
Inductive vexpr :=
| v_number (t : string)
| v_name (x : string)
| v_unary (op : string) (e : vexpr)
| v_power (a b : vexpr)
| v_binary (k : nat) (op : string) (a b : vexpr)
| v_cond (c t f : vexpr)
| v_bit (base idx : vexpr)
| v_part (base msb lsb : vexpr)
| v_indexed (plus : bool) (base start w : vexpr)
| v_concat (first : vexpr) (items : list vexpr).

(** Induction with the items of a concatenation. *)
Lemma vexpr_nested_ind (Q : vexpr -> Prop)
  (Hnum : forall t, Q (v_number t)) (Hname : forall x, Q (v_name x)) (Hun : forall op e, Q e -> Q (v_unary op e))
  (Hpow : forall a b, Q a -> Q b -> Q (v_power a b)) (Hbin : forall k op a b, Q a -> Q b -> Q (v_binary k op a b))
  (Hcond : forall c t f, Q c -> Q t -> Q f -> Q (v_cond c t f)) (Hbit : forall b i, Q b -> Q i -> Q (v_bit b i))
  (Hpart : forall b m l, Q b -> Q m -> Q l -> Q (v_part b m l))
  (Hidx : forall p b st w, Q b -> Q st -> Q w -> Q (v_indexed p b st w))
  (Hcat : forall e l, Q e -> Forall Q l -> Q (v_concat e l)) : forall e, Q e.
Proof.
  fix rec 1. intros [t|x|op e|a b|k op a b|c t f|b i|b m l|p b st w|e l].
  - apply Hnum.
  - apply Hname.
  - apply Hun, rec.
  - apply Hpow; apply rec.
  - apply Hbin; apply rec.
  - apply Hcond; apply rec.
  - apply Hbit; apply rec.
  - apply Hpart; apply rec.
  - apply Hidx; apply rec.
  - apply Hcat; [apply rec|]. induction l as [|x l IH]; constructor; [apply rec|exact IH].
Qed.

(** The operators of a level: 1 is [||], 10 is multiplication. *)
Definition table (k : nat) : list (string * binary_op) :=
  match k with
  | 1 => lor_ops | 2 => land_ops | 3 => eq_ops | 4 => rel_ops | 5 => or_ops | 6 => xor_ops | 7 => and_ops
  | 8 => shift_ops | 9 => add_ops | 10 => mul_ops | _ => []
  end.

(** The first entry for a symbol. *)
Fixpoint assoc {A} (sym : string) (ops : list (string * A)) : option A :=
  match ops with [] => None | (x, a) :: ops => if bool_decide (sym = x) then Some a else assoc sym ops end.

(** ** What a tree stands for *)

Definition lower_name (env : parse_env) (x : string) : L expr_value :=
  let base := default expr_value_default (pe_subst_idents env !! x) in
  base ← (if unresolved base
          then match pe_const_idents env !! x with Some v => make_uint_literal v 32 | None => mret base end
          else mret base);
  if negb (unresolved base) then mret base else name_value x.

Definition lower_number (t : string) : L expr_value :=
  v ← number_value t; match v with Some v => mret v | None => x_scalar end.

Definition lower_concat (bits : list index) : L expr_value :=
  bits ← (if bool_decide (max_concat_bits < length bits)
          then _ ← report "concatenation too wide (limit exceeded)"; mret (take max_concat_bits bits)
          else mret bits);
  make_vector bits false.

Fixpoint lower (env : parse_env) (e : vexpr) : L expr_value :=
  match e with
  | v_number t => lower_number t
  | v_name x => lower_name env x
  | v_unary op e => a ← lower env e; match assoc op unary_ops with Some f => f a | None => mret a end
  | v_power a b => lhs ← lower env a; rhs ← lower env b; arith_pow lhs rhs
  | v_binary k op a b =>
      lhs ← lower env a; rhs ← lower env b; match assoc op (table k) with Some f => f lhs rhs | None => mret lhs end
  | v_cond c t f => c ← lower env c; t ← lower env t; f ← lower env f; make_conditional c t f
  | v_bit b i => base ← lower env b; i ← lower env i; apply_bit_select base i
  | v_part b m l => base ← lower env b; m ← lower env m; l ← lower env l; apply_part_select base m l
  | v_indexed p b st w => base ← lower env b; st ← lower env st; w ← lower env w; apply_indexed_part_select base st w p
  | v_concat e l =>
      v ← lower env e;
      bits ← lfold (fun bits c => v ← c; mret (append_bits bits v)) (append_bits [] v) (lower env <$> l);
      lower_concat bits
  end.

(** ** Printing *)

Definition sym (t : string) : token_kind * string := (tk_symbol, t).

(** The level at which the parser reads the outermost construct. *)
Definition prec (e : vexpr) : nat :=
  match e with
  | v_cond _ _ _ => 0
  | v_binary k _ _ _ => k
  | v_unary _ _ => 11
  | v_power _ _ => 12
  | _ => 13
  end.

Definition parens (body : list (token_kind * string)) : list (token_kind * string) := sym "(" :: body ++ [sym ")"].

Fixpoint print (k : nat) (e : vexpr) : list (token_kind * string) :=
  let body :=
    match e with
    | v_number t => [(tk_number, t)]
    | v_name x => [(tk_identifier, x)]
    | v_unary op e => sym op :: print 11 e
    | v_power a b => print 13 a ++ sym "**" :: print 12 b
    | v_binary j op a b => print j a ++ sym op :: print (S j) b
    | v_cond c t f => print 1 c ++ sym "?" :: print 0 t ++ sym ":" :: print 0 f
    | v_bit b i => print 13 b ++ sym "[" :: print 0 i ++ [sym "]"]
    | v_part b m l => print 13 b ++ sym "[" :: print 0 m ++ sym ":" :: print 0 l ++ [sym "]"]
    | v_indexed p b st w =>
        print 13 b ++ sym "[" :: print 0 st ++ sym (if p then "+:" else "-:") :: print 0 w ++ [sym "]"]
    | v_concat e l => sym "{" :: print 0 e ++ mjoin ((fun x => sym "," :: print 0 x) <$> l) ++ [sym "}"]
    end in
  if bool_decide (prec e < k) then parens body else body.

(** The print without outer parentheses. *)
Definition body (e : vexpr) : list (token_kind * string) := print (prec e) e.

(** ** Trees that can be printed *)

Definition system_names : list string :=
  ["$urandom"; "$random"; "$clog2"; "$bits"; "$signed"; "$unsigned"]%string.

Fixpoint printable (e : vexpr) : Prop :=
  match e with
  | v_number t => is_Some (parse_literal_bits (String.list_ascii_of_string t)) /\ lexable tk_number (String.list_ascii_of_string t)
  | v_name x => (x ∉ cast_types) /\ (x ∉ system_names) /\ lexable tk_identifier (String.list_ascii_of_string x)
  | v_unary op e => is_Some (assoc op unary_ops) /\ printable e
  | v_power a b => printable a /\ printable b
  | v_binary k op a b => is_Some (assoc op (table k)) /\ printable a /\ printable b
  | v_cond c t f => printable c /\ printable t /\ printable f
  | v_bit b i => printable b /\ printable i
  | v_part b m l => printable b /\ printable m /\ printable l
  | v_indexed _ b st w => printable b /\ printable st /\ printable w
  | v_concat e l => printable e /\ foldr (fun x Q => printable x /\ Q) True l
  end.

(** ** Tokens that end an expression *)

(** The symbols that continue an expression read at level [k]. *)
Definition continues (k : nat) : list string :=
  (if bool_decide (k = 0) then ["?"%string] else [])
  ++ (j ← seq k (11 - k); (table j).*1)
  ++ (if bool_decide (k <= 12) then ["**"%string] else [])
  ++ (if bool_decide (k <= 13) then ["["%string] else [])
  ++ ["("; "."]%string.

(** Neither the next token nor [::] continues the expression. *)
Definition stop (k : nat) (rest : list token) : Prop :=
  match rest with
  | [] => False
  | t :: rest' =>
      Forall (fun c => is_symbol c t = false) (continues k)
      /\ (is_symbol ":" t = true -> match rest' with [] => True | t' :: _ => is_symbol ":" t' = false end)
  end.

Lemma continues_mono k : continues (S k) ⊆ continues k.
Proof.
  destruct (decide (k < 14)) as [Hk|Hk].
  - assert (Hall : forall j, j ∈ seq 0 14 -> continues (S j) ⊆ continues j).
    { apply Forall_forall. apply (bool_decide_unpack _). by vm_compute. }
    apply Hall. apply elem_of_seq. lia.
  - assert (Hc : forall j, 14 <= j -> continues j = ["("; "."]%string).
    { intros j Hj. unfold continues. rewrite !bool_decide_eq_false_2 by lia. replace (11 - j) with 0 by lia. done. }
    by rewrite !Hc by lia.
Qed.

Lemma stop_mono k rest : stop k rest -> stop (S k) rest.
Proof.
  destruct rest as [|t rest]; [done|]. intros [Hc H2]. split; [|done]. rewrite Forall_forall in *. intros c Hin.
  by apply Hc, continues_mono.
Qed.

Lemma stop_le k j rest : k <= j -> stop k rest -> stop j rest.
Proof. induction 1 as [|j _ IH]; [done|]. intros Hs. by apply stop_mono, IH. Qed.

Lemma stop_not k c rest : stop k rest -> c ∈ continues k -> exists t rest', rest = t :: rest' /\ is_symbol c t = false.
Proof. destruct rest as [|t rest]; [done|]. intros [Hc _] Hin. rewrite Forall_forall in Hc. exists t, rest. split; [done|by apply Hc]. Qed.

(** A printed symbol ends an expression of level [k]. *)
Lemma stop_sym k t c rest :
  kind_text t = sym c -> c ∉ continues k ->
  (c = ":"%string -> match rest with [] => True | t' :: _ => is_symbol ":" t' = false end) -> stop k (t :: rest).
Proof.
  intros [= Hk Ht] Hc H2. split.
  - apply Forall_forall. intros c' Hin. unfold is_symbol. rewrite Hk, Ht. rewrite bool_decide_eq_true_2 by done. cbn [andb].
    apply bool_decide_eq_false. intros ->. done.
  - unfold is_symbol at 1. rewrite Ht. rewrite andb_true_iff, !bool_decide_eq_true. intros [_ ->]. by apply H2.
Qed.

Lemma stop_eof k t : tok_kind t = tk_eof -> stop k [t].
Proof.
  intros Hk. assert (Hs : forall c, is_symbol c t = false) by (intros c; unfold is_symbol; by rewrite Hk).
  split; [|done]. apply Forall_forall. auto.
Qed.

(** ** Steps of the parser on known tokens *)

Lemma is_symbol_spelled c c' t : kind_text t = sym c -> is_symbol c' t = bool_decide (c = c').
Proof. intros [= Hk Ht]. unfold is_symbol. rewrite Hk, Ht. by rewrite bool_decide_eq_true_2. Qed.

Lemma branch_symbol {A} (a b : P A) c t ts s :
  branch (accept_symbol c) a b (t :: ts) s = if is_symbol c t then a ts s else b (t :: ts) s.
Proof.
  unfold branch, accept_symbol, mbind, P_bind, peek, consume. destruct (is_symbol c t) eqn:E; [|done].
  by rewrite (is_symbol_eof _ _ E).
Qed.

Lemma branch_stop {A} (a b : P A) k c rest s :
  stop k rest -> c ∈ continues k -> branch (accept_symbol c) a b rest s = b rest s.
Proof. intros Hs Hc. destruct (stop_not k c rest Hs Hc) as (t & ts & -> & E). by rewrite branch_symbol, E. Qed.

Lemma expect_spelled {B} c msg (f : () -> P B) t ts s :
  kind_text t = sym c -> (expect_symbol c msg ≫= f) (t :: ts) s = f () ts s.
Proof.
  intros Ht. unfold expect_symbol, mbind, P_bind. rewrite branch_symbol, (is_symbol_spelled c) by done.
  by rewrite bool_decide_eq_true_2.
Qed.

Lemma accept_first_eq {A} (ops : list (string * A)) t ts s :
  accept_first ops (t :: ts) s
  = match (if bool_decide (tok_kind t = tk_symbol) then assoc (tok_text t) ops else None) with
    | Some a => Ok (Some a, ts, s)
    | None => Ok (None, t :: ts, s)
    end.
Proof.
  induction ops as [|[c a] ops IH]; [by destruct (bool_decide _)|]. cbn [accept_first assoc]. rewrite branch_symbol. unfold is_symbol.
  destruct (bool_decide (tok_kind t = tk_symbol)); cbn [andb]; [|exact IH]. case_bool_decide; [done|exact IH].
Qed.

Lemma assoc_none {A} c (ops : list (string * A)) : c ∉ ops.*1 -> assoc c ops = None.
Proof.
  induction ops as [|[x a] ops IH]; [done|]. rewrite fmap_cons, not_elem_of_cons. intros [Hne Hin]. cbn [assoc fst] in *.
  rewrite bool_decide_eq_false_2 by done. auto.
Qed.

Lemma assoc_in {A} c (ops : list (string * A)) : is_Some (assoc c ops) -> c ∈ ops.*1.
Proof.
  intros [a Ha]. destruct (decide (c ∈ ops.*1)) as [|Hn]; [done|]. rewrite assoc_none in Ha by done. done.
Qed.

(** No operator of a level the expression could continue with. *)
Lemma accept_first_stop k rest s :
  1 <= k <= 10 -> stop k rest -> accept_first (table k) rest s = Ok (None, rest, s).
Proof.
  intros Hk Hs. destruct rest as [|t ts]; [done|]. rewrite accept_first_eq. case_bool_decide as Hkind; [|done].
  rewrite assoc_none; [done|]. intros Hin. destruct Hs as [Hc _]. rewrite Forall_forall in Hc.
  assert (Hsym : is_symbol (tok_text t) t = false).
  { apply Hc. unfold continues. rewrite !elem_of_app. right; left. apply list_elem_of_bind. exists k. split; [done|]. apply elem_of_seq. lia. }
  unfold is_symbol in Hsym. by rewrite !bool_decide_eq_true_2 in Hsym by done.
Qed.

Lemma accept_first_spelled {A} c a (ops : list (string * A)) t ts s :
  kind_text t = sym c -> assoc c ops = Some a -> accept_first ops (t :: ts) s = Ok (Some a, ts, s).
Proof. intros [= Hk Ht] Ha. rewrite accept_first_eq, Hk, Ht, Ha. by rewrite bool_decide_eq_true_2. Qed.

(** Steps of the builder run one after the other. *)
Lemma lift_bind {A B} (c : L A) (g : A -> L B) ts s : lift (c ≫= g) ts s = (lift c ≫= fun a => lift (g a)) ts s.
Proof. unfold lift, mbind, P_bind, L_bind. by destruct (c s) as [[a s']|]. Qed.

(** A step of the parser that is known to be one of the builder. *)
Lemma bind_known {A B} (c : P A) (d : L A) (g : A -> P B) ts ts' s :
  c ts s = lift d ts' s -> (c ≫= g) ts s = (lift d ≫= g) ts' s.
Proof. intros E. unfold mbind, P_bind. by rewrite E. Qed.

Lemma lift_cong {A B} (c : L A) (g g' : A -> P B) ts ts' s :
  (forall a s', c s = Some (a, s') -> g a ts s' = g' a ts' s') -> (lift c ≫= g) ts s = (lift c ≫= g') ts' s.
Proof. intros Hg. unfold mbind, P_bind, lift. destruct (c s) as [[a s']|]; [by apply Hg|done]. Qed.

Lemma lift_bind_bind {A B C} (c : L A) (g : A -> L B) (k : B -> P C) ts s :
  (lift (c ≫= g) ≫= k) ts s = (lift c ≫= fun a => lift (g a) ≫= k) ts s.
Proof. unfold mbind, P_bind, lift, L_bind. by destruct (c s) as [[a s']|]. Qed.

Lemma bind_bind {A B C} (c : P A) (g : A -> P B) (k : B -> P C) ts s :
  ((c ≫= g) ≫= k) ts s = (c ≫= fun a => g a ≫= k) ts s.
Proof. unfold mbind, P_bind. by destruct (c ts s) as [[[a ts'] s']| | |]. Qed.

(** ** First tokens *)

(** The token starts a primary. *)
Definition starts_primary (pr : list (token_kind * string)) : Prop :=
  exists x l, pr = x :: l /\ (x.1 ≠ tk_symbol \/ x.2 ∈ ["("; "{"]%string).

Lemma app_starts_primary pr l : starts_primary pr -> starts_primary (pr ++ l).
Proof. intros (x & l' & -> & Hx). by exists x, (l' ++ l). Qed.

Lemma print_primary e k : 12 <= k -> starts_primary (print k e).
Proof.
  assert (Hp : forall l, starts_primary (parens l)) by (intros l; do 2 eexists; split; [done|]; right; set_solver).
  revert k. induction e as [t|x|op e _|a b IHa _|j op a b IHa _|c t f _ _ _|b i IHb _|b m l IHb _ _|p b st w IHb _ _|e l _ _]
    using vexpr_nested_ind; intros k Hk; cbn [print]; case_bool_decide as Hlt; cbn [prec] in Hlt; try apply Hp; try lia.
  - do 2 eexists; split; [done|]; by left.
  - do 2 eexists; split; [done|]; by left.
  - by apply app_starts_primary, IHa; lia.
  - apply app_starts_primary, IHa; lia.
  - apply app_starts_primary, IHb; lia.
  - apply app_starts_primary, IHb; lia.
  - apply app_starts_primary, IHb; lia.
  - do 2 eexists; split; [done|]; right; set_solver.
Qed.

(** An expression does not start with a symbol that ends or separates
    expressions. *)
Definition starts_expr (pr : list (token_kind * string)) : Prop :=
  exists x l, pr = x :: l /\ Forall (fun c => x ≠ sym c) [":"; "}"; "<<"; ">>"; ";"]%string.

Lemma app_starts_expr pr l : starts_expr pr -> starts_expr (pr ++ l).
Proof. intros (x & l' & -> & Hx). by exists x, (l' ++ l). Qed.

Lemma unary_starts op l : is_Some (assoc op unary_ops) -> starts_expr (sym op :: l).
Proof.
  intros Hop%assoc_in. do 2 eexists. split; [done|]. apply Forall_forall. intros c Hc [= ->].
  assert (Hd : Forall (fun c => c ∉ unary_ops.*1) [":"; "}"; "<<"; ">>"; ";"]%string) by (repeat constructor; set_solver).
  by apply (proj1 (Forall_forall _ _) Hd c).
Qed.

Lemma print_starts e k : printable e -> starts_expr (print k e).
Proof.
  assert (Hp : forall l, starts_expr (parens l)) by (intros l; do 2 eexists; split; [done|]; by repeat constructor).
  revert k. induction e as [t|x|op e _|a b IHa _|j op a b IHa _|c t f IHc _ _|b i IHb _|b m l IHb _ _|p b st w IHb _ _|e l _ _]
    using vexpr_nested_ind; intros k Hpr; cbn [print]; (case_bool_decide; [apply Hp|]); cbn [printable] in Hpr.
  - do 2 eexists; split; [done|]; by repeat constructor.
  - do 2 eexists; split; [done|]; by repeat constructor.
  - apply unary_starts. by destruct Hpr.
  - apply app_starts_expr, IHa. tauto.
  - apply app_starts_expr, IHa. tauto.
  - apply app_starts_expr, IHc. tauto.
  - apply app_starts_expr, IHb. tauto.
  - apply app_starts_expr, IHb. tauto.
  - apply app_starts_expr, IHb. tauto.
  - do 2 eexists; split; [done|]; by repeat constructor.
Qed.

(** ** Reading a printed expression *)

Section Roundtrip.
Context (inline_call : string -> function_def -> list expr_value -> P expr_value) (env : parse_env).

(** The parser at level [k] with fuel [f], and [h] for the recursion of the
    unary and power levels. *)
Definition at_level (f h k : nat) : P expr_value :=
  let self := parse_fuel inline_call f in
  match k with
  | 0 => parse_cond inline_call (S f) self env
  | 1 => parse_lor inline_call (S f) self env
  | 2 => parse_land inline_call (S f) self env
  | 3 => parse_eq inline_call (S f) self env
  | 4 => parse_rel inline_call (S f) self env
  | 5 => parse_or inline_call (S f) self env
  | 6 => parse_xor inline_call (S f) self env
  | 7 => parse_and inline_call (S f) self env
  | 8 => parse_shift inline_call (S f) self env
  | 9 => parse_add inline_call (S f) self env
  | 10 => parse_mul inline_call (S f) self env
  | 11 => unary_loop inline_call (S f) self h env
  | 12 => power_loop inline_call (S f) self h env
  | _ => parse_primary inline_call (S f) self env
  end.

Lemma at_level_table f h k :
  1 <= k <= 10 ->
  at_level f h k = (lhs ← at_level f (S f) (S k); binary_loop (S f) (table k) (at_level f (S f) (S k)) lhs).
Proof. intros Hk. do 11 (destruct k as [|k]; [try lia; done|]). lia. Qed.

Definition spells (ts : list token) (pr : list (token_kind * string)) : Prop := kind_text <$> ts = pr.

Lemma spells_app ts p1 p2 : spells ts (p1 ++ p2) -> exists t1 t2, ts = t1 ++ t2 /\ spells t1 p1 /\ spells t2 p2.
Proof. intros H. apply fmap_app_inv in H as (t1 & t2 & -> & -> & ->). by exists t1, t2. Qed.

Lemma spells_cons ts x p : spells ts (x :: p) -> exists t ts', ts = t :: ts' /\ kind_text t = x /\ spells ts' p.
Proof. intros H. apply fmap_cons_inv in H as (t & ts' & -> & -> & ->). by exists t, ts'. Qed.

Lemma spells_length ts p : spells ts p -> length ts = length p.
Proof. intros <-. by rewrite length_fmap. Qed.

(** Level [k] reads [pr] as [c], whatever ends it. *)
Definition reads (f k : nat) (pr : list (token_kind * string)) (c : L expr_value) : Prop :=
  forall h ts rest s, length pr < h -> spells ts pr -> stop k rest -> at_level f h k (ts ++ rest) s = lift c rest s.

(** A level of binary operators reads [pr] as [c] and goes on with its loop. *)
Definition reads_loop (f k : nat) (pr : list (token_kind * string)) (c : L expr_value) (n : nat) : Prop :=
  forall h ts rest s, spells ts pr -> stop (S k) rest ->
    at_level f h k (ts ++ rest) s = (v ← lift c; binary_loop n (table k) (at_level f (S f) (S k)) v) rest s.

(** The same for primaries and selects. *)
Definition reads_select (f : nat) (pr : list (token_kind * string)) (c : L expr_value) (n : nat) : Prop :=
  forall h ts rest s, spells ts pr -> stop 14 rest ->
    at_level f h 13 (ts ++ rest) s = (v ← lift c; postfix_loop (parse_fuel inline_call f) n env v) rest s.

Lemma reads_loop_reads f k pr c n : 1 <= k <= 10 -> reads_loop f k pr c (S n) -> reads f k pr c.
Proof.
  intros Hk Hr h ts rest s _ Hts Hs. rewrite (Hr h ts rest s Hts (stop_mono _ _ Hs)). unfold lift, mbind, P_bind.
  destruct (c s) as [[v s']|]; [|done]. cbn [binary_loop]. unfold mbind, P_bind. by rewrite (accept_first_stop k) by done.
Qed.

Lemma reads_select_reads f pr c n : reads_select f pr c (S n) -> reads f 13 pr c.
Proof.
  intros Hr h ts rest s _ Hts Hs. rewrite (Hr h ts rest s Hts (stop_mono _ _ Hs)). unfold lift, mbind, P_bind.
  destruct (c s) as [[v s']|]; [|done]. cbn [postfix_loop]. rewrite (branch_stop _ _ 13) by (done || (vm_compute; set_solver)). done.
Qed.

Lemma reads_down_loop f k pr c :
  1 <= k <= 10 -> length pr <= f -> reads f (S k) pr c -> reads_loop f k pr c (S f).
Proof.
  intros Hk Hlen Hr h ts rest s Hts Hs. rewrite at_level_table by done. unfold mbind, P_bind at 1. rewrite (Hr (S f)) by (done || lia).
  done.
Qed.

(** One level down, where the level adds nothing. *)
Lemma reads_down f k pr c :
  k <= 12 -> length pr <= f -> (k = 11 -> starts_primary pr) -> reads f (S k) pr c -> reads f k pr c.
Proof.
  intros Hk Hlen Hstart Hr. destruct (decide (1 <= k <= 10)) as [Hk'|Hk'].
  { by apply (reads_loop_reads f k pr c f), reads_down_loop. }
  intros h ts rest s Hh Hts Hs. pose proof (stop_mono _ _ Hs) as Hs'.
  assert (k = 0 \/ k = 11 \/ k = 12) as [->|[->| ->]] by lia; cbn [at_level].
  - unfold parse_cond, mbind, P_bind. pose proof (Hr (S f) ts rest s ltac:(lia) Hts Hs') as E. cbn [at_level] in E. rewrite E. unfold lift. destruct (c s) as [[v s']|]; [|done].
    by rewrite (branch_stop _ _ 0) by (done || (vm_compute; set_solver)).
  - destruct h as [|h]; [lia|]. cbn [unary_loop]. unfold mbind, P_bind.
    destruct (Hstart eq_refl) as (x & l & -> & Hx). apply spells_cons in Hts as (t & ts' & -> & Ht & Hts'). cbn [app].
    rewrite accept_first_eq. replace (if bool_decide (tok_kind t = tk_symbol) then _ else _) with (@None (expr_value -> L expr_value)).
    + apply (Hr (S f) (t :: ts') rest s); [lia|unfold spells in *; by rewrite fmap_cons, Ht, Hts'|done].
    + case_bool_decide as Hsym; [|done]. rewrite assoc_none; [done|]. rewrite <- Ht in Hx. cbn [kind_text fst snd] in Hx.
      destruct Hx as [Hx|Hx]; [done|]. intros Hin. assert (Hd : Forall (fun c => c ∉ unary_ops.*1) ["("; "{"]%string)
        by (repeat constructor; set_solver). by apply (proj1 (Forall_forall _ _) Hd _ Hx).
  - destruct h as [|h]; [lia|]. cbn [power_loop]. unfold mbind, P_bind.
    pose proof (Hr (S (length pr)) ts rest s ltac:(lia) Hts Hs') as E. cbn [at_level] in E. rewrite E. unfold lift. destruct (c s) as [[v s']|]; [|done]. by rewrite (branch_stop _ _ 12) by (done || (vm_compute; set_solver)).
Qed.

Lemma reads_to f k j pr c :
  k <= j -> j <= 13 -> length pr <= f -> (k <= 11 < j -> starts_primary pr) -> reads f j pr c -> reads f k pr c.
Proof.
  intros Hk. induction Hk as [|j Hk IH]; [done|]. intros Hj Hlen Hstart Hr. apply IH; [lia|done|intros; apply Hstart; lia|].
  apply reads_down; [lia|done| |done]. intros ->. apply Hstart. lia.
Qed.

(** A primary is its base and the selects after it. *)
Lemma at_primary f h t ts s :
  at_level f h 13 (t :: ts) s
  = ('(base, finished) ← primary_base inline_call (S f) (parse_fuel inline_call f) env t;
     if finished : bool then mret base else postfix_loop (parse_fuel inline_call f) (S f) env base) (t :: ts) s.
Proof. done. Qed.

Lemma symbol_primary f c t ts s :
  kind_text t = sym c -> String.get 0 c ≠ Some quote ->
  primary_base inline_call (S f) (parse_fuel inline_call f) env t (t :: ts) s
  = (if bool_decide (c = "{"%string) then v ← parse_concat (S f) (parse_fuel inline_call f) env; mret (v, false)
     else if bool_decide (c = "("%string) then
       v ← parse_fuel inline_call f env; _ ← expect_symbol ")" "expected ')'"; mret (v, false)
     else _ ← err "expected expression"; v ← lift x_scalar; mret (v, false)) ts s.
Proof.
  intros Hc Hq. assert (Heof : is_eof t = false) by (injection Hc as Hk _; unfold is_eof; by rewrite Hk).
  unfold primary_base. pose proof Hc as [= Hk Ht]. rewrite Hk, Ht.
  rewrite (bool_decide_eq_true_2 (tk_symbol = tk_symbol)), (bool_decide_eq_false_2 (String.get 0 c = _)) by done. cbn [andb].
  rewrite !(is_symbol_spelled c _ t Hc). case_bool_decide; [|case_bool_decide]; unfold mbind, P_bind, consume; rewrite ?Heof; try done.
  unfold err, lift, report. cbn. by rewrite Heof.
Qed.

Lemma reads_parens f pr c : reads f 0 pr c -> length pr <= f -> reads_select (S f) (parens pr) c (S (S f)).
Proof.
  intros Hr Hlen h ts rest s Hts Hs. unfold parens in Hts. apply spells_cons in Hts as (t & ts' & -> & Ht & Hts).
  apply spells_app in Hts as (tb & tc & -> & Hb & Hc). apply spells_cons in Hc as (t2 & ts2 & -> & Ht2 & Hnil).
  apply fmap_nil_inv in Hnil as ->. cbn [app]. rewrite <- app_assoc. cbn [app]. rewrite at_primary. unfold mbind at 1, P_bind.
  rewrite (symbol_primary _ "(" t) by done. rewrite bool_decide_eq_false_2, bool_decide_eq_true_2 by done.
  unfold mbind at 1 2, P_bind. cbn [parse_fuel].
  pose proof (Hr (S f) tb (t2 :: rest) s ltac:(lia) Hb) as E. cbn [at_level] in E. rewrite E; clear E.
  - unfold lift, mbind, P_bind. destruct (c s) as [[v s']|]; [|done].
    unfold expect_symbol. rewrite branch_symbol, (is_symbol_spelled ")") by done. by rewrite bool_decide_eq_true_2.
  - apply (stop_sym _ _ ")"); [done| |done]. apply (bool_decide_unpack _). by vm_compute.
Qed.

(** ** Names and numbers *)

Lemma scope_stop {A} k (a b : P A) rest s : stop k rest -> branch accept_scope_resolution a b rest s = b rest s.
Proof.
  destruct rest as [|t [|t' rest]]; [done|done|]. intros [_ H2]. unfold branch, accept_scope_resolution, mbind, P_bind.
  destruct (is_symbol ":" t); cbn [andb]; [|done]. by rewrite H2.
Qed.

Lemma qualified_stop f name base rest s :
  stop 14 rest -> parse_qualified (S f) name base rest s = Ok (mk_qualified name false false 0 "", base, rest, s).
Proof.
  intros Hs. unfold parse_qualified. destruct (negb (unresolved base)); [done|]. unfold mbind, P_bind. cbn [qualified_loop].
  rewrite (scope_stop 14), (branch_stop _ _ 14) by (done || (vm_compute; set_solver)). done.
Qed.

Lemma parse_name_stop f x rest s :
  stop 14 rest -> parse_name inline_call (S f) (parse_fuel inline_call f) env x rest s = lift (lower_name env x) rest s.
Proof.
  intros Hs. unfold parse_name, lower_name. unfold mbind at 1, P_bind at 1. rewrite qualified_stop by done. cbn [q_name].
  set (base := default expr_value_default (pe_subst_idents env !! x)). rewrite lift_bind. unfold mbind, P_bind.
  destruct (unresolved base) eqn:Hu.
  - destruct (pe_const_idents env !! x) as [v|].
    + unfold lift. destruct (make_uint_literal v 32 s) as [[u s']|]; [|done]. destruct (negb (unresolved u)); [done|].
      by rewrite (branch_stop _ _ 14) by (done || (vm_compute; set_solver)).
    + unfold lift, mret, P_ret, L_ret. rewrite !Hu. cbn [negb]. by rewrite (branch_stop _ _ 14) by (done || (vm_compute; set_solver)).
  - unfold lift, mret, P_ret, L_ret. by rewrite !Hu.
Qed.

Lemma no_system f self x : x ∉ system_names -> system_function f self env x = None.
Proof.
  unfold system_names. rewrite !not_elem_of_cons. intros Hx. unfold system_function.
  by rewrite !bool_decide_eq_false_2 by (rewrite ?elem_of_cons, ?elem_of_nil; tauto).
Qed.

Lemma reads_name f x : x ∉ cast_types -> x ∉ system_names -> reads_select f [(tk_identifier, x)] (lower_name env x) (S f).
Proof.
  intros Hc Hsys h ts rest s Hts Hs. apply spells_cons in Hts as (t & ts' & -> & [= Hk Ht] & Hnil). apply fmap_nil_inv in Hnil as ->.
  cbn [app]. rewrite at_primary. unfold mbind at 1, P_bind at 1. unfold primary_base. rewrite Hk, Ht.
  rewrite bool_decide_eq_false_2 by done. unfold mbind at 1 2 3, P_bind at 1 2 3. cbn [mret P_ret]. unfold consume.
  rewrite (is_ident_eof t Hk), no_system by done. unfold mbind at 1, P_bind at 1. rewrite parse_name_stop by done.
  unfold mbind, P_bind, lift. by destruct (lower_name env x s) as [[v s']|].
Qed.

Lemma number_value_some t s r s' :
  is_Some (parse_literal_bits (String.list_ascii_of_string t)) -> number_value t s = Some (r, s') -> is_Some r.
Proof.
  unfold number_value. intros [[bits sg] ->]. destruct bits as [|b [|b' bits]]; unfold mbind, L_bind; cbn [option_bind].
  - destruct (make_literal _ s) as [[? ?]|]; [|done]. intros [= <- _]. by eexists.
  - destruct (make_literal _ s) as [[? ?]|]; [|done]. intros [= <- _]. by eexists.
  - destruct (literal_roots _ s) as [[roots s1]|]; [|done]. simpl. destruct (make_vector roots sg s1) as [[? ?]|]; simpl; [|done].
    intros [= <- _]. by eexists.
Qed.

Lemma reads_number f t :
  is_Some (parse_literal_bits (String.list_ascii_of_string t)) -> reads_select f [(tk_number, t)] (lower_number t) (S f).
Proof.
  intros Hlit h ts rest s Hts Hs. apply spells_cons in Hts as (tok & ts' & -> & [= Hk Ht] & Hnil). apply fmap_nil_inv in Hnil as ->.
  assert (Heof : is_eof tok = false) by (unfold is_eof; by rewrite Hk).
  cbn [app]. rewrite at_primary. unfold primary_base, lower_number. rewrite Hk, Ht. unfold mbind, P_bind, L_bind, lift, consume.
  pose proof (number_value_some t s) as Hv. destruct (number_value t s) as [[r s']|]; [|done].
  destruct (Hv r s' Hlit eq_refl) as [v ->]. simpl. by rewrite Heof.
Qed.

(** ** Putting the levels together *)

(** How often the loop of level [k] runs for [e], and the loop of selects. *)
Fixpoint spine (k : nat) (e : vexpr) : nat :=
  match e with v_binary j _ a _ => if bool_decide (j = k) then S (spine k a) else 0 | _ => 0 end.

Fixpoint selects (e : vexpr) : nat :=
  match e with v_bit b _ | v_part b _ _ | v_indexed _ b _ _ => S (selects b) | _ => 0 end.

Lemma print_body e k : print k e = if bool_decide (prec e < k) then parens (body e) else body e.
Proof. unfold body. destruct e; cbn [print]; rewrite (bool_decide_eq_false_2 (prec _ < prec _)) by lia; done. Qed.

Lemma print_length e k : length (body e) <= length (print k e).
Proof. rewrite print_body. case_bool_decide; [|done]. unfold parens. cbn [length]. rewrite length_app. lia. Qed.

Lemma spine_length k e : spine k e < length (body e).
Proof.
  induction e as [t|x|op e _|a b _ _|j op a b IHa _|c t f _ _ _|b i _ _|b m l _ _ _|p b st w _ _ _|e l _ _] using vexpr_nested_ind;
    unfold body; cbn [spine]; cbn [print prec]; rewrite (bool_decide_eq_false_2 (_ < _)) by (cbn [prec]; lia); rewrite ?length_app; cbn [length]; try lia.
  case_bool_decide; [|lia]. subst. pose proof (print_length a k). lia.
Qed.

Lemma selects_length e : selects e < length (body e).
Proof.
  induction e as [t|x|op e _|a b _ _|j op a b _ _|c t f _ _ _|b i IHb _|b m l IHb _ _|p b st w IHb _ _|e l _ _] using vexpr_nested_ind;
    unfold body; cbn [selects]; cbn [print prec]; rewrite (bool_decide_eq_false_2 (_ < _)) by (cbn [prec]; lia); rewrite ?length_app; cbn [length]; try lia.
  all: pose proof (print_length b 13); lia.
Qed.

(** What is proved of a tree: every level reads its print at that level. *)
Definition good (e : vexpr) : Prop :=
  forall f k, k <= 13 -> length (print k e) <= f ->
    reads f k (print k e) (lower env e)
    /\ (1 <= k <= 10 -> reads_loop f k (print k e) (lower env e) (S f - spine k e))
    /\ (k = 13 -> reads_select f (print k e) (lower env e) (S f - selects e)).

(** It is enough to read the print without parentheses at its own level. *)
Definition native (e : vexpr) : Prop :=
  forall f, length (body e) <= f ->
    (prec e = 0 \/ prec e = 11 \/ prec e = 12 -> reads f (prec e) (body e) (lower env e))
    /\ (1 <= prec e <= 10 -> reads_loop f (prec e) (body e) (lower env e) (S f - spine (prec e) e))
    /\ (prec e = 13 -> reads_select f (body e) (lower env e) (S f - selects e)).

Lemma spine_other k e : prec e ≠ k -> spine k e = 0.
Proof. destruct e; try done. cbn [prec spine]. intros Hne. by rewrite bool_decide_eq_false_2. Qed.

Lemma selects_other e : prec e < 13 -> selects e = 0.
Proof. destruct e; try done; cbn [prec]; lia. Qed.

Lemma native_reads e f : prec e <= 13 -> native e -> length (body e) <= f -> reads f (prec e) (body e) (lower env e).
Proof.
  intros Hp Hn Hlen. destruct (Hn f Hlen) as (H0 & Hl & Hs). destruct (decide (1 <= prec e <= 10)) as [Hk|Hk].
  - pose proof (spine_length (prec e) e). specialize (Hl Hk). replace (S f - spine (prec e) e) with (S (f - spine (prec e) e)) in Hl by lia.
    by eapply reads_loop_reads.
  - destruct (decide (prec e = 13)) as [E|E]; [|apply H0; lia]. rewrite E. specialize (Hs E). pose proof (selects_length e).
    replace (S f - selects e) with (S (f - selects e)) in Hs by lia. by eapply reads_select_reads.
Qed.

Lemma body_starts e : 12 <= prec e -> starts_primary (body e).
Proof. apply print_primary. Qed.

Lemma native_good e : prec e <= 13 -> native e -> good e.
Proof.
  intros Hp Hn f k Hk Hlen. rewrite print_body in *. case_bool_decide as Hlt.
  - assert (Hf : exists f', f = S f' /\ length (body e) <= f').
    { unfold parens in Hlen. cbn [length] in Hlen. rewrite length_app in Hlen. cbn [length] in Hlen. exists (f - 1). lia. }
    destruct Hf as (f' & -> & Hlen').
    assert (Hsel : reads_select (S f') (parens (body e)) (lower env e) (S (S f'))).
    { apply reads_parens; [|done]. apply (reads_to _ _ (prec e)); [lia|done|done|intros [_ ?]; apply body_starts; lia|].
      by apply native_reads. }
    assert (Hall : forall j, j <= 13 -> reads (S f') j (parens (body e)) (lower env e)).
    { intros j Hj. apply (reads_to _ _ 13); [done|done|done| |by eapply reads_select_reads]. intros _.
      do 2 eexists. split; [done|]. right. set_solver. }
    split_and!.
    + by apply Hall.
    + intros Hk'. rewrite (spine_other k e), Nat.sub_0_r by lia. apply reads_down_loop; [done|done|]. apply Hall. lia.
    + intros ->. by rewrite selects_other, Nat.sub_0_r by lia.
  - assert (Hall : forall j, j <= prec e -> reads f j (body e) (lower env e)).
    { intros j Hj. apply (reads_to _ _ (prec e)); [done|done|done|intros [_ ?]; apply body_starts; lia|by apply native_reads]. }
    destruct (Hn f Hlen) as (_ & Hl & Hs). split_and!.
    + apply Hall. lia.
    + intros Hk'. destruct (decide (prec e = k)) as [<-|Hne]; [by apply Hl|].
      rewrite (spine_other k e), Nat.sub_0_r by done. apply reads_down_loop; [done|done|]. apply Hall. lia.
    + intros ->. apply Hs. lia.
Qed.

(** ** Operators *)

Lemma good_unary op e : is_Some (assoc op unary_ops) -> good e -> native (v_unary op e).
Proof.
  intros [g Hop] He f Hlen. split_and!; [|cbn [prec]; lia|cbn [prec]; lia]. intros _. cbn [prec].
  assert (Hb : body (v_unary op e) = sym op :: print 11 e) by done. rewrite Hb in *. cbn [length] in Hlen.
  intros h ts rest s Hh Hts Hs. cbn [length] in Hh. apply spells_cons in Hts as (t & ts' & -> & Ht & Hts). destruct h as [|h]; [lia|].
  cbn [at_level unary_loop app]. unfold mbind at 1, P_bind at 1. rewrite (accept_first_spelled op g) by done.
  destruct (He f 11) as (Hr & _ & _); [lia|lia|]. unfold mbind, P_bind.
  pose proof (Hr h ts' rest s ltac:(lia) Hts Hs) as E. cbn [at_level] in E. rewrite E. cbn [lower]. rewrite Hop, lift_bind. done.
Qed.

Lemma good_power a b : good a -> good b -> native (v_power a b).
Proof.
  intros Ha Hb f Hlen. split_and!; [|cbn [prec]; lia|cbn [prec]; lia]. intros _. cbn [prec].
  assert (E : body (v_power a b) = print 13 a ++ sym "**" :: print 12 b) by done. rewrite E in *.
  rewrite length_app in Hlen. cbn [length] in Hlen. intros h ts rest s Hh Hts Hs. rewrite length_app in Hh. cbn [length] in Hh.
  apply spells_app in Hts as (ta & tb & -> & Hta & Htb). apply spells_cons in Htb as (t & tb' & -> & Ht & Htb).
  destruct h as [|h]; [lia|]. rewrite <- app_assoc. cbn [app at_level power_loop]. unfold mbind at 1, P_bind at 1.
  destruct (Ha f 13) as (Hra & _ & _); [lia|lia|]. destruct (Hb f 12) as (Hrb & _ & _); [lia|lia|].
  pose proof (Hra (S (length (print 13 a))) ta (t :: tb' ++ rest) s ltac:(lia) Hta) as Ea. cbn [at_level] in Ea.
  rewrite Ea by (apply (stop_sym _ _ "**"); [done|apply (bool_decide_unpack _); by vm_compute|done]).
  cbn [lower]. unfold lift, mbind, P_bind, L_bind. destruct (lower env a s) as [[va s1]|]; [|done].
  rewrite branch_symbol, (is_symbol_spelled "**"), bool_decide_eq_true_2 by done.
  pose proof (Hrb h tb' rest s1 ltac:(lia) Htb Hs) as Eb. cbn [at_level] in Eb. rewrite Eb. unfold lift. simpl.
  by destruct (lower env b s1) as [[vb s2]|].
Qed.

(** The operators of a level do not continue the levels above it. *)
Lemma table_stop k op t rest :
  1 <= k <= 10 -> is_Some (assoc op (table k)) -> kind_text t = sym op -> stop (S k) (t :: rest).
Proof.
  intros Hk Hop%assoc_in Ht.
  assert (Hall : Forall (fun j => Forall (fun op => (op ∉ continues (S j)) /\ op ≠ ":"%string) (table j).*1) (seq 1 10))
    by (apply (bool_decide_unpack _); by vm_compute).
  rewrite Forall_forall in Hall. specialize (Hall k). rewrite elem_of_seq in Hall. specialize (Hall ltac:(lia)).
  rewrite Forall_forall in Hall. destruct (Hall op Hop) as [Hc Hne]. by apply (stop_sym _ _ op).
Qed.

Lemma good_binary k op a b : 1 <= k <= 10 -> is_Some (assoc op (table k)) -> good a -> good b -> native (v_binary k op a b).
Proof.
  intros Hk Hop Ha Hb f Hlen. cbn [prec]. split_and!; [lia| |lia]. intros _.
  assert (E : body (v_binary k op a b) = print k a ++ sym op :: print (S k) b).
  { unfold body. cbn [print prec]. by rewrite bool_decide_eq_false_2 by lia. }
  pose proof (spine_length k (v_binary k op a b)) as Hspine. cbn [spine] in *. rewrite bool_decide_eq_true_2 in * by done.
  rewrite E in *. rewrite length_app in *. cbn [length] in *. intros h ts rest s Hts Hs.
  apply spells_app in Hts as (ta & tb & -> & Hta & Htb). apply spells_cons in Htb as (t & tb' & -> & Ht & Htb).
  destruct (Ha f k) as (_ & Hla & _); [lia|lia|]. destruct (Hb f (S k)) as (Hrb & _ & _); [lia|lia|]. rewrite <- app_assoc. cbn [app].
  rewrite (Hla Hk h ta (t :: tb' ++ rest) s Hta) by (by eapply table_stop).
  destruct Hop as [g Hop]. cbn [lower]. unfold mbind, P_bind, lift, L_bind. destruct (lower env a s) as [[va s1]|]; [|done].
  replace (S f - spine k a) with (S (S f - S (spine k a))) by lia. cbn [binary_loop]. unfold mbind, P_bind.
  rewrite (accept_first_spelled op g) by done. rewrite (Hrb (S f) tb' rest s1) by (done || lia). unfold lift. simpl.
  destruct (lower env b s1) as [[vb s2]|]; [|done]. simpl. by rewrite Hop.
Qed.

(** ** Recursive calls *)

Lemma self_reads e f ts rest s :
  good e -> length (print 0 e) < f -> spells ts (print 0 e) -> stop 0 rest ->
  parse_fuel inline_call f env (ts ++ rest) s = lift (lower env e) rest s.
Proof.
  intros He Hlen Hts Hs. destruct f as [|f]; [lia|]. destruct (He f 0) as (Hr & _ & _); [lia|lia|].
  apply (Hr (S (length (print 0 e)))); [lia|done|done].
Qed.

(** A call ended by a printed symbol. *)
Lemma self_reads_sym e f ts c t rest s :
  good e -> length (print 0 e) < f -> spells ts (print 0 e) -> kind_text t = sym c -> c ∉ continues 0 -> c ≠ ":"%string ->
  parse_fuel inline_call f env (ts ++ t :: rest) s = lift (lower env e) (t :: rest) s.
Proof. intros He Hlen Hts Ht Hc Hne. apply self_reads; [done..|]. by apply (stop_sym _ _ c). Qed.

(** A call ended by a colon, with an expression after it. *)
Lemma self_reads_colon e e' f ts t ts' rest s :
  good e -> length (print 0 e) < f -> spells ts (print 0 e) -> kind_text t = sym ":" -> printable e' -> spells ts' (print 0 e') ->
  parse_fuel inline_call f env (ts ++ t :: ts' ++ rest) s = lift (lower env e) (t :: ts' ++ rest) s.
Proof.
  intros He Hlen Hts Ht Hp Hts'. apply self_reads; [done..|]. apply (stop_sym _ _ ":").
  - done.
  - apply (bool_decide_unpack _). by vm_compute.
  - intros _. destruct (print_starts e' 0 Hp) as (x & l & E & Hx). rewrite E in Hts'. apply spells_cons in Hts' as (t' & tl & -> & Ht' & _).
    cbn [app]. inversion Hx as [|? ? Hcol _]; subst. unfold is_symbol. apply andb_false_iff.
    destruct (decide (tok_kind t' = tk_symbol)) as [Hk|Hk]; [right|left]; apply bool_decide_eq_false; [|done].
    intros Htext. apply Hcol. unfold kind_text. by rewrite Hk, Htext.
Qed.

Lemma good_cond c t e : printable e -> good c -> good t -> good e -> native (v_cond c t e).
Proof.
  intros Hpr Hc Ht He f Hlen. split_and!; [|cbn [prec]; lia|cbn [prec]; lia]. intros _. cbn [prec].
  assert (E : body (v_cond c t e) = print 1 c ++ sym "?" :: print 0 t ++ sym ":" :: print 0 e) by done. rewrite E in *.
  rewrite !length_app in Hlen. cbn [length] in Hlen. rewrite !length_app in Hlen. cbn [length] in Hlen. intros h ts rest s _ Hts Hs.
  apply spells_app in Hts as (tc & tl & -> & Htc & Htl). apply spells_cons in Htl as (q & tl' & -> & Hq & Htl).
  apply spells_app in Htl as (tt & tl2 & -> & Htt & Htl). apply spells_cons in Htl as (col & te & -> & Hcol & Hte).
  rewrite <- app_assoc. cbn [app]. rewrite <- app_assoc. cbn [app at_level lower]. unfold parse_cond.
  destruct (Hc f 1) as (Hrc & _ & _); [lia|lia|].
  erewrite bind_known by (apply (Hrc (S (length (print 1 c)))); [lia|done|];
    apply (stop_sym _ _ "?"); [done|apply (bool_decide_unpack _); by vm_compute|done]).
  rewrite lift_bind. apply lift_cong. intros vc s1 _.
  rewrite branch_symbol, (is_symbol_spelled "?"), bool_decide_eq_true_2 by done.
  erewrite bind_known by (apply (self_reads_colon t e); (done || lia)). rewrite lift_bind. apply lift_cong. intros vt s2 _.
  rewrite expect_spelled by done. erewrite bind_known by (apply (self_reads e); (done || lia)). rewrite lift_bind. by apply lift_cong.
Qed.

(** ** Selects *)

(** A select is read by one round of the loop after its base. *)
Lemma good_select b e sel (g : expr_value -> L expr_value) :
  prec e = 13 -> body e = print 13 b ++ sym "[" :: sel -> selects e = S (selects b) ->
  lower env e = (v ← lower env b; g v) -> good b ->
  (forall f n base t ts rest s, length sel < f -> kind_text t = sym "[" -> spells ts sel ->
     postfix_loop (parse_fuel inline_call f) (S n) env base (t :: ts ++ rest) s
     = (v ← lift (g base); postfix_loop (parse_fuel inline_call f) n env v) rest s) ->
  native e.
Proof.
  intros Hp Hbody Hsel Hlow Hb Hround f Hlen. split_and!; [lia|lia|]. intros _ h ts rest s Hts Hs.
  pose proof (selects_length e) as Hbound. rewrite Hsel, Hbody, Hlow in *. rewrite length_app in *. cbn [length] in *.
  apply spells_app in Hts as (tb & tl & -> & Htb & Htl). apply spells_cons in Htl as (t & tl' & -> & Ht & Htl).
  destruct (Hb f 13) as (_ & _ & Hsb); [lia|lia|]. rewrite <- app_assoc. cbn [app].
  rewrite (Hsb eq_refl h tb (t :: tl' ++ rest) s Htb) by (apply (stop_sym _ _ "["); [done|apply (bool_decide_unpack _); by vm_compute|done]).
  replace (S f - selects b) with (S (S f - S (selects b))) by lia.
  rewrite lift_bind_bind. apply lift_cong. intros vb s1 _. apply Hround; [lia|done|done].
Qed.

(** The step after the index and what follows it. *)
Lemma bind_branch {A B} c (a b : P A) (k : A -> P B) t ts s :
  kind_text t = sym c -> forall c',
  (branch (accept_symbol c') a b ≫= k) (t :: ts) s = if bool_decide (c = c') then (a ≫= k) ts s else (b ≫= k) (t :: ts) s.
Proof.
  intros Ht c'. unfold mbind, P_bind. rewrite branch_symbol, (is_symbol_spelled c) by done. by case_bool_decide.
Qed.

Lemma expect_lift {A B} c msg (d : L A) (k : A -> P B) t ts s :
  kind_text t = sym c -> ((_ ← expect_symbol c msg; lift d) ≫= k) (t :: ts) s = (lift d ≫= k) ts s.
Proof. intros Ht. rewrite bind_bind. by rewrite expect_spelled. Qed.

Lemma good_bit b i : good b -> good i -> native (v_bit b i).
Proof.
  intros Hb Hi. apply (good_select b (v_bit b i) (print 0 i ++ [sym "]"]) (fun v => i ← lower env i; apply_bit_select v i)); try done.
  intros f n base t ts rest s Hlen Ht Hts. rewrite length_app in Hlen. cbn [length] in Hlen.
  apply spells_app in Hts as (ti & tl & -> & Hti & Htl). apply spells_cons in Htl as (r & tl' & -> & Hr & Hnil). apply fmap_nil_inv in Hnil as ->.
  cbn [postfix_loop]. rewrite branch_symbol, (is_symbol_spelled "["), bool_decide_eq_true_2 by done. rewrite <- app_assoc. cbn [app].
  erewrite bind_known by (apply (self_reads_sym i _ _ "]"); [done|lia|done|done|apply (bool_decide_unpack _); by vm_compute|done]).
  rewrite lift_bind_bind. apply lift_cong. intros vi s1 _.
  rewrite !(bind_branch "]") by done. rewrite !bool_decide_eq_false_2 by done. by rewrite expect_lift.
Qed.

Lemma good_part b m l : printable l -> good b -> good m -> good l -> native (v_part b m l).
Proof.
  intros Hp Hb Hm Hl. apply (good_select b (v_part b m l) (print 0 m ++ sym ":" :: print 0 l ++ [sym "]"])
    (fun v => m ← lower env m; l ← lower env l; apply_part_select v m l)); try done.
  intros f n base t ts rest s Hlen Ht Hts. rewrite length_app in Hlen. cbn [length] in Hlen. rewrite length_app in Hlen. cbn [length] in Hlen.
  apply spells_app in Hts as (tm & tl & -> & Htm & Htl). apply spells_cons in Htl as (c & tl' & -> & Hc & Htl).
  apply spells_app in Htl as (tll & tr & -> & Htll & Htr). apply spells_cons in Htr as (r & tr' & -> & Hr & Hnil). apply fmap_nil_inv in Hnil as ->.
  cbn [postfix_loop]. rewrite branch_symbol, (is_symbol_spelled "["), bool_decide_eq_true_2 by done. rewrite <- app_assoc. cbn [app].
  rewrite <- app_assoc. cbn [app]. erewrite bind_known by (apply (self_reads_colon m l); (done || lia)).
  rewrite lift_bind_bind. apply lift_cong. intros vm s1 _.
  rewrite !(bind_branch ":") by done. rewrite !(bool_decide_eq_false_2 (":"%string = _)) by done. rewrite bool_decide_eq_true_2 by done.
  rewrite bind_bind. erewrite bind_known by (apply (self_reads_sym l _ _ "]"); [done|lia|done|done|apply (bool_decide_unpack _); by vm_compute|done]).
  rewrite lift_bind_bind. apply lift_cong. intros vl s2 _. by rewrite expect_lift.
Qed.

Lemma good_indexed p b st w : good b -> good st -> good w -> native (v_indexed p b st w).
Proof.
  intros Hb Hst Hw. set (c := if p then "+:"%string else "-:"%string).
  apply (good_select b (v_indexed p b st w) (print 0 st ++ sym c :: print 0 w ++ [sym "]"])
    (fun v => st ← lower env st; w ← lower env w; apply_indexed_part_select v st w p)); try done.
  intros f n base t ts rest s Hlen Ht Hts. rewrite length_app in Hlen. cbn [length] in Hlen. rewrite length_app in Hlen. cbn [length] in Hlen.
  apply spells_app in Hts as (tm & tl & -> & Htm & Htl). apply spells_cons in Htl as (q & tl' & -> & Hq & Htl).
  apply spells_app in Htl as (tw & tr & -> & Htw & Htr). apply spells_cons in Htr as (r & tr' & -> & Hr & Hnil). apply fmap_nil_inv in Hnil as ->.
  cbn [postfix_loop]. rewrite branch_symbol, (is_symbol_spelled "["), bool_decide_eq_true_2 by done. rewrite <- app_assoc. cbn [app].
  rewrite <- app_assoc. cbn [app].
  erewrite bind_known by (apply (self_reads_sym st _ _ c); [done|lia|done|done|destruct p; apply (bool_decide_unpack _); by vm_compute|by destruct p]).
  rewrite lift_bind_bind. apply lift_cong. intros vst s1 _.
  assert (Hrest : forall plus, ((w_e ← parse_fuel inline_call f env; _ ← expect_symbol "]" "expected ']'";
      lift (apply_indexed_part_select base vst w_e plus)) ≫= fun base => postfix_loop (parse_fuel inline_call f) n env base)
      (tw ++ r :: rest) s1
    = (lift (w ← lower env w; apply_indexed_part_select base vst w plus) ≫= fun v => postfix_loop (parse_fuel inline_call f) n env v) rest s1).
  { intros plus. rewrite bind_bind. erewrite bind_known by (apply (self_reads_sym w _ _ "]"); [done|lia|done|done|apply (bool_decide_unpack _); by vm_compute|done]).
    rewrite lift_bind_bind. apply lift_cong. intros vw s2 _. by rewrite expect_lift. }
  rewrite !(bind_branch c) by done. unfold c. destruct p.
  - rewrite bool_decide_eq_true_2 by done. apply Hrest.
  - rewrite (bool_decide_eq_false_2 ("-:"%string = "+:"%string)), bool_decide_eq_true_2 by done. apply Hrest.
Qed.

(** ** Concatenations *)

Definition items (l : list vexpr) : list (token_kind * string) := mjoin ((fun x => sym "," :: print 0 x) <$> l).

Lemma items_cons x l : items (x :: l) = sym "," :: print 0 x ++ items l.
Proof. done. Qed.

(** After an item comes a comma or the closing brace. *)
Lemma items_next l ts r rest :
  spells ts (items l) -> kind_text r = sym "}" ->
  exists t tl c, ts ++ r :: rest = t :: tl /\ kind_text t = sym c /\ c ∈ [","; "}"]%string.
Proof.
  intros Hts Hr. destruct l as [|x l].
  - apply fmap_nil_inv in Hts as ->. exists r, rest, "}"%string. split_and!; [done|done|set_solver].
  - rewrite items_cons in Hts. apply spells_cons in Hts as (t & tl & -> & Ht & _). exists t, (tl ++ r :: rest), ","%string.
    split_and!; [done|done|set_solver].
Qed.

Lemma item_reads e l f te ts r rest s :
  good e -> length (print 0 e) < f -> spells te (print 0 e) -> spells ts (items l) -> kind_text r = sym "}" ->
  parse_fuel inline_call f env (te ++ ts ++ r :: rest) s = lift (lower env e) (ts ++ r :: rest) s.
Proof.
  intros He Hlen Hte Hts Hr. destruct (items_next l ts r rest Hts Hr) as (t & tl & c & E & Ht & Hc). rewrite E.
  apply (self_reads_sym e f te c); [done|done|done|done| |].
  - assert (Hd : Forall (fun c => c ∉ continues 0) [","; "}"]%string) by (apply (bool_decide_unpack _); by vm_compute).
    by apply (proj1 (Forall_forall _ _) Hd).
  - intros ->. rewrite !elem_of_cons, elem_of_nil in Hc. naive_solver.
Qed.

Lemma more_items_reads l f h bits ts r rest s :
  Forall good l -> spells ts (items l) -> kind_text r = sym "}" -> length (items l) < f -> length l < h ->
  more_items (parse_fuel inline_call f) h env bits (ts ++ r :: rest) s
  = lift (lfold (fun bits c => v ← c; mret (append_bits bits v)) bits (lower env <$> l)) (r :: rest) s.
Proof.
  intros Hl. revert h bits ts s. induction Hl as [|x l Hx _ IH]; intros h bits ts s Hts Hr Hlen Hh; (destruct h as [|h]; [simpl in Hh; lia|]).
  - apply fmap_nil_inv in Hts as ->. cbn [more_items app]. by rewrite branch_symbol, (is_symbol_spelled "}"), bool_decide_eq_false_2 by done.
  - rewrite items_cons in *. cbn [length] in *. rewrite length_app in Hlen. apply spells_cons in Hts as (t & tl & -> & Ht & Htl).
    apply spells_app in Htl as (tx & tl' & -> & Htx & Htl). cbn [more_items app].
    rewrite branch_symbol, (is_symbol_spelled ","), bool_decide_eq_true_2 by done. rewrite <- app_assoc.
    erewrite bind_known by (apply (item_reads x l); (done || lia)). rewrite fmap_cons. cbn [lfold].
    unfold mbind at 2, L_bind. unfold lift at 2. unfold mbind, P_bind, lift at 1, L_bind. destruct (lower env x s) as [[v s1]|]; [|done].
    simpl. rewrite (IH h (append_bits bits v) tl' s1) by (done || lia). done.
Qed.

Lemma good_concat e l : printable e -> good e -> Forall good l -> native (v_concat e l).
Proof.
  intros Hp He Hl f Hlen. split_and!; [cbn [prec]; lia|cbn [prec]; lia|]. intros _. cbn [selects]. rewrite Nat.sub_0_r.
  assert (E : body (v_concat e l) = sym "{" :: print 0 e ++ items l ++ [sym "}"]) by done. rewrite E in *.
  cbn [length] in Hlen. rewrite !length_app in Hlen. cbn [length] in Hlen. intros h ts rest s Hts Hs.
  apply spells_cons in Hts as (t & tl & -> & Ht & Htl). apply spells_app in Htl as (te & tl' & -> & Hte & Htl).
  apply spells_app in Htl as (ti & tr & -> & Hti & Htr). apply spells_cons in Htr as (r & tr' & -> & Hr & Hnil). apply fmap_nil_inv in Hnil as ->.
  cbn [app]. rewrite <- !app_assoc. cbn [app]. rewrite at_primary. unfold mbind at 1, P_bind at 1. rewrite (symbol_primary _ "{") by done.
  rewrite bool_decide_eq_true_2 by done.
  assert (Hcat : parse_concat (S f) (parse_fuel inline_call f) env (te ++ ti ++ r :: rest) s = lift (lower env (v_concat e l)) rest s).
  { unfold parse_concat. destruct (print_starts e 0 Hp) as (x & pl & Epr & Hx). pose proof Hte as Hte'. rewrite Epr in Hte'.
    apply spells_cons in Hte' as (t' & tl & Ete & Ht' & _).
    assert (Hno : forall c (a b : P expr_value), x ≠ sym c -> branch (accept_symbol c) a b (te ++ ti ++ r :: rest) s = b (te ++ ti ++ r :: rest) s).
    { intros c a b Hne. rewrite Ete. cbn [app]. rewrite branch_symbol. destruct (is_symbol c t') eqn:Hsym; [|done]. exfalso. apply Hne.
      unfold is_symbol in Hsym. rewrite andb_true_iff, !bool_decide_eq_true in Hsym. destruct Hsym as [Hk Htext]. rewrite <- Ht'.
      unfold kind_text. by rewrite Hk, Htext. }
    rewrite !Forall_cons in Hx. destruct Hx as (_ & H1 & H2 & H3 & _). rewrite !Hno by done.
    erewrite bind_known by (apply (item_reads e l); (done || lia)). cbn [lower]. rewrite lift_bind. apply lift_cong. intros v s1 _.
    destruct (items_next l ti r rest Hti Hr) as (tn & tln & c & En & Htn & Hc). rewrite En at 1. rewrite branch_symbol, (is_symbol_spelled c) by done.
    rewrite bool_decide_eq_false_2 by (intros ->; rewrite !elem_of_cons, elem_of_nil in Hc; naive_solver). rewrite <- En.
    assert (Hcount : length l <= length (items l)).
    { clear. induction l as [|x l IH]; [done|]. rewrite items_cons. cbn [length]. rewrite length_app. lia. }
    erewrite bind_known by (apply more_items_reads; [done|done|done|lia|lia]). rewrite lift_bind. apply lift_cong. intros bits s2 _.
    rewrite expect_spelled by done. unfold lower_concat. rewrite lift_bind. generalize max_concat_bits. intros limit.
    by case_bool_decide. }
  unfold mbind at 1, P_bind at 1. rewrite Hcat. unfold mbind, P_bind, lift. by destruct (lower env (v_concat e l) s) as [[v s1]|].
Qed.

(** ** All trees *)

Lemma printable_good e : printable e -> good e.
Proof.
  assert (Hsel : forall e c, prec e = 13 -> selects e = 0 -> lower env e = c -> (forall f, reads_select f (body e) c (S f)) -> native e).
  { intros e' c Hp Hs <- Hr f _. split_and!; [lia|lia|]. intros _. by rewrite Hs, Nat.sub_0_r. }
  induction e as [t|x|op e IHe|a b IHa IHb|j op a b IHa IHb|c t f IHc IHt IHf|b i IHb IHi|b m l IHb IHm IHl|p b st w IHb IHst IHw|e l IHe IHl]
    using vexpr_nested_ind; cbn [printable]; intros Hp.
  - apply native_good; [done|]. eapply Hsel; [done..|]. intros f. apply reads_number. tauto.
  - apply native_good; [done|]. eapply Hsel; [done..|]. intros f. apply reads_name; tauto.
  - apply native_good; [simpl; lia|]. apply good_unary; tauto.
  - apply native_good; [simpl; lia|]. apply good_power; tauto.
  - assert (Hj : 1 <= j <= 10) by (destruct Hp as [[g Hg] _]; do 11 (destruct j as [|j]; [try done; lia|]); done).
    apply native_good; [simpl; lia|]. apply good_binary; tauto.
  - apply native_good; [simpl; lia|]. apply good_cond; tauto.
  - apply native_good; [done|]. apply good_bit; tauto.
  - apply native_good; [done|]. apply good_part; tauto.
  - apply native_good; [done|]. apply good_indexed; tauto.
  - apply native_good; [done|]. destruct Hp as [Hp Hl]. apply good_concat; [done|by apply IHe|].
    clear -IHl Hl. induction IHl as [|x l Hx _ IH]; [constructor|]. cbn [foldr] in Hl. constructor; tauto.
Qed.
End Roundtrip.

(** ** Theorems *)

Lemma symbols_lexable :
  Forall (fun c => lexable tk_symbol (String.list_ascii_of_string c))
    (["("; ")"; "?"; ":"; "["; "]"; "+:"; "-:"; "{"; "}"; ","; "**"]%string ++ unary_ops.*1 ++ (j ← seq 1 10; (table j).*1)).
Proof. apply (bool_decide_unpack _). by vm_compute. Qed.

(** The parts of a printed tree. *)
Ltac lexable_parts Hsym :=
  repeat match goal with
  | H : Forall _ ?l |- Forall _ ?l => exact H
  | H : forall k, printable ?e -> _ |- Forall _ (print _ ?e) => apply H; tauto
  | |- Forall _ (_ ++ _) => apply Forall_app_2
  | |- Forall _ (_ :: _) => constructor
  | |- Forall _ [] => constructor
  | |- lexable _ _ => apply Hsym; set_solver
  end.

Lemma print_lexable e k :
  printable e -> Forall (fun t => lexable t.1 (String.list_ascii_of_string t.2)) (print k e).
Proof.
  assert (Hsym : forall c, c ∈ ["("; ")"; "?"; ":"; "["; "]"; "+:"; "-:"; "{"; "}"; ","; "**"]%string ->
    lexable tk_symbol (String.list_ascii_of_string c)).
  { intros c Hc. apply (proj1 (Forall_forall _ _) symbols_lexable). apply elem_of_app. by left. }
  assert (Hun : forall c, is_Some (assoc c unary_ops) -> lexable tk_symbol (String.list_ascii_of_string c)).
  { intros c Hc%assoc_in. apply (proj1 (Forall_forall _ _) symbols_lexable). rewrite !elem_of_app. by right; left. }
  assert (Hbin : forall j c, is_Some (assoc c (table j)) -> lexable tk_symbol (String.list_ascii_of_string c)).
  { intros j c Hc. apply (proj1 (Forall_forall _ _) symbols_lexable). rewrite !elem_of_app. right; right.
    apply list_elem_of_bind. exists j. split; [by apply assoc_in|]. apply elem_of_seq. destruct Hc as [g Hg].
    do 11 (destruct j as [|j]; [try done; lia|]). done. }
  assert (Hpar : forall (p : bool) b, Forall (fun t => lexable t.1 (String.list_ascii_of_string t.2)) b ->
    Forall (fun t => lexable t.1 (String.list_ascii_of_string t.2)) (if p then parens b else b)).
  { intros [] b Hb; [|done]. constructor; [apply Hsym; set_solver|]. apply Forall_app_2; [done|].
    constructor; [apply Hsym; set_solver|constructor]. }
  revert k. induction e as [t|x|op e IHe|a b IHa IHb|j op a b IHa IHb|c t f IHc IHt IHf|b i IHb IHi|b m l IHb IHm IHl|p b st w IHb IHst IHw|e l IHe IHl]
    using vexpr_nested_ind; intros k Hp; cbn [print]; cbn [printable] in Hp; apply Hpar.
  1, 2: constructor; [tauto|constructor].
  1: constructor; [apply Hun; tauto|apply IHe; tauto].
  2: apply Forall_app_2; [apply IHa; tauto|]; constructor; [apply (Hbin j); tauto|apply IHb; tauto].
  1, 2, 3, 4: lexable_parts Hsym.
  - destruct p; lexable_parts Hsym.
  - destruct Hp as [He Hl]. change (mjoin _) with (items l).
    assert (Hi : Forall (fun t => lexable t.1 (String.list_ascii_of_string t.2)) (items l)); [|lexable_parts Hsym].
    clear -IHl Hl Hsym. induction IHl as [|x l Hx _ IH]; [constructor|]. cbn [foldr] in Hl. rewrite items_cons.
    destruct Hl as [Hp Hl]. specialize (IH Hl). lexable_parts Hsym.
Qed.

(** The tokens of a printed tree, and the end of the text. *)
Lemma lex_printed e smap :
  printable e -> exists ts last, lr_tokens (lex (spaced (print 0 e)) smap) = ts ++ [last] /\ spells ts (print 0 e) /\ tok_kind last = tk_eof.
Proof.
  intros Hp. destruct (lex_loop_spaced (length (spaced (print 0 e))) smap 0 (1, 1)%Z (print 0 e) (mk_lex [] [])) as [Ht _];
    [by apply print_lexable|done|]. cbn [lr_tokens fmap list_fmap app] in Ht. fold (lex (spaced (print 0 e)) smap) in Ht.
  apply fmap_app_inv in Ht as (ts & tl & Hts & Htl & E). symmetry in Htl. apply fmap_cons_inv in Htl as (last & nil & Hlast & Hnil & ->).
  symmetry in Hnil. apply fmap_nil_inv in Hnil as ->. exists ts, last. by injection Hlast as Hk _.
Qed.

Lemma parse_tokens inline_call env e ts last s :
  printable e -> spells ts (print 0 e) -> tok_kind last = tk_eof ->
  parse_expr inline_call env (ts ++ [last]) s = lift (lower env e) [last] s.
Proof.
  intros Hp Hts Hk. unfold parse_expr. apply (self_reads inline_call env e); [by apply printable_good| |done|by apply stop_eof].
  unfold remaining. rewrite length_app. apply (f_equal length) in Hts. rewrite length_fmap in Hts. simpl. lia.
Qed.

(** C8. Expressions are read as they are printed.  For every tree of names, numbers, selects, concatenations, unary, power,
    binary and conditional operators, the text printed with as few parentheses as the precedence levels of the parser
    allow is lexed and parsed without taking anything after it, and the parser has then built the value, the nodes and
    the errors that lowering the tree builds: left-associative binary operators, right-associative power and
    conditional, from [||] (loosest) to selects (tightest). *)
Theorem parse_print_roundtrip (inline_call : string -> function_def -> list expr_value -> P expr_value) (env : parse_env)
  (e : vexpr) (smap : option (list (Z * Z))) (s : pstate) :
  printable e ->
  exists last, tok_kind last = tk_eof
    /\ parse_expr inline_call env (lr_tokens (lex (spaced (print 0 e)) smap)) s = lift (lower env e) [last] s.
Proof.
  intros Hp. destruct (lex_printed e smap Hp) as (ts & last & -> & Hts & Hk). exists last. split; [done|]. by apply parse_tokens.
Qed.

(** [a + 4'd3 * b ? { a , b [ 1 : 0 ] } : - ( a | c ) ** 2] *)
Definition example_tree : vexpr :=
  v_cond (v_binary 9 "+" (v_name "a") (v_binary 10 "*" (v_number "4'd3") (v_name "b")))
    (v_concat (v_name "a") [v_part (v_name "b") (v_number "1") (v_number "0")])
    (v_unary "-" (v_power (v_binary 5 "|" (v_name "a") (v_name "c")) (v_number "2"))).

Lemma parse_print_roundtrip_witness :
  exists last, tok_kind last = tk_eof
    /\ parse_expr (fun _ _ _ => lift x_scalar) no_env (lr_tokens (lex (spaced (print 0 example_tree)) None))
         (mk_pstate compiled_module_default [])
       = lift (lower no_env example_tree) [last] (mk_pstate compiled_module_default []).
Proof.
  apply (parse_print_roundtrip (fun _ _ _ => lift x_scalar) no_env example_tree None). unfold example_tree. cbn [printable foldr].
  assert (Hname : forall x, bool_decide ((x ∉ cast_types) /\ (x ∉ system_names) /\ lexable tk_identifier (String.list_ascii_of_string x)) = true ->
    (x ∉ cast_types) /\ (x ∉ system_names) /\ lexable tk_identifier (String.list_ascii_of_string x)) by (intros x; apply bool_decide_eq_true_1).
  assert (Hnum : forall t, bool_decide (is_Some (parse_literal_bits (String.list_ascii_of_string t)) /\ lexable tk_number (String.list_ascii_of_string t)) = true ->
    is_Some (parse_literal_bits (String.list_ascii_of_string t)) /\ lexable tk_number (String.list_ascii_of_string t))
    by (intros t; apply bool_decide_eq_true_1).
  split_and!; try exact I; try (by eexists); try (apply Hname; by vm_compute); try (apply Hnum; by vm_compute).
Defined.

(** The value of a parsed one-bit expression over signals of known level. *)
Definition parsed_level (src : string) (values : list dns) : option dns :=
  match parse_expr (fun _ _ _ => lift x_scalar) no_env (lr_tokens (lex (String.list_ascii_of_string src) None))
          (mk_pstate compiled_module_default []) with
  | Ok (v, _, s) => Some (ev values (cm_expr_nodes (ps_m s)) (xv_scalar_root v))
  | _ => None
  end.

(** Comparisons bind more loosely than the bitwise operators.  With [a], [b] and [c] low, [a & b == c] is read as
    [(a & b) == c], which is high; the language reads it as [a & (b == c)], which is low.  The same holds of [<] and
    [|]. *)
Lemma comparison_binds_loosely :
  let low := [false_state; false_state; false_state] in
  parsed_level "a & b == c" low = parsed_level "(a & b) == c" low
  /\ parsed_level "a & b == c" low = Some true_state
  /\ parsed_level "a & (b == c)" low = Some false_state
  /\ parsed_level "a | b < c" [true_state; false_state; true_state] = Some false_state
  /\ parsed_level "a | (b < c)" [true_state; false_state; true_state] = Some true_state.
Proof. by vm_compute. Qed.
