(* ===== verification/VMeaning.v ===== *)
(** * Verilog: what the text of an expression computes

    The lexer, the parser and the lowering of verilog/digital/digital.h together:
    the text of an expression over declared names, with arithmetic, comparisons,
    bitwise, logical and conditional operators, is compiled to nodes that compute
    its value.  The value is defined on integers ([meaning]); the proof puts the
    lowering of each operator ([VArithOk], [VCompareOk], [VShiftOk], and the
    bitwise operators here) under the reading of the printed text ([VPrint]). *)

From S2P Require Import Prelude Logic4 VModule VEval VExec VLower VBits VLowerOk VArithOk VCompareOk VShiftOk VExpr VLiteral VLex VSignals VParse VParseOk VPrint.
From Stdlib Require Import ZArith Lia Ascii.

(** ** Values *)

(** A value without unknown bits: its sign, its width, and an integer whose lowest bits it has. *)
Record known_value := mk_known { k_signed : bool; k_width : nat; k_bits : Z }.

(** The integer at a sign: two's complement or not. *)
Definition int_at (sx : bool) (k : known_value) : Z :=
  let u := (k_bits k mod 2 ^ Z.of_nat (k_width k))%Z in
  if sx && Z.testbit u (Z.of_nat (k_width k) - 1) then (u - 2 ^ Z.of_nat (k_width k))%Z else u.

(** Both operands are signed. *)
Definition both_signed (a b : known_value) : bool := k_signed a && k_signed b.

Definition wider (a b : known_value) : nat := Nat.max (k_width a) (k_width b).

(** An operation on the integers, at a width within the limit. *)
Definition at_width (w : nat) (f : Z -> Z -> Z) (a b : known_value) : option known_value :=
  if decide (w <= max_concat_bits)
  then Some (mk_known (both_signed a b) w (f (int_at (both_signed a b) a) (int_at (both_signed a b) b))) else None.

Definition one_bit (b : bool) : known_value := mk_known false 1 (Z.b2z b).

Definition compared (f : Z -> Z -> bool) (a b : known_value) : option known_value :=
  Some (one_bit (f (int_at (both_signed a b) a) (int_at (both_signed a b) b))).

Definition holds (a : known_value) : bool := negb (int_at false a =? 0)%Z.

(** The binary operators. *)
Definition binary_meaning (op : string) (a b : known_value) : option known_value :=
  match assoc op
    [("+", at_width (wider a b) Z.add); ("-", at_width (wider a b) Z.sub); ("*", at_width (k_width a + k_width b) Z.mul);
     ("&", at_width (wider a b) Z.land); ("|", at_width (wider a b) Z.lor); ("^", at_width (wider a b) Z.lxor);
     ("<", compared Z.ltb); ("<=", compared Z.leb); (">", compared Z.gtb); (">=", compared Z.geb);
     ("==", compared Z.eqb); ("!=", compared (fun x y => negb (x =? y)%Z));
     ("&&", fun a b => Some (one_bit (holds a && holds b))); ("||", fun a b => Some (one_bit (holds a || holds b)))]%string
  with Some f => f a b | None => None end.

(** The unary operators; the negative of one bit is unsigned. *)
Definition unary_meaning (op : string) (a : known_value) : option known_value :=
  match assoc op
    [("+", a); ("-", mk_known (k_signed a && bool_decide (1 < k_width a)) (k_width a) (- k_bits a));
     ("~", mk_known (k_signed a) (k_width a) (Z.lnot (k_bits a))); ("!", one_bit (negb (holds a)))]%string
  with Some v => if decide (k_width a <= max_concat_bits) then Some v else None | None => None end.

(** The branch that is chosen, at the width and sign of both. *)
Definition cond_meaning (c t f : known_value) : option known_value :=
  if decide (wider t f <= max_concat_bits)
  then Some (mk_known (both_signed t f) (wider t f) (int_at (both_signed t f) (if holds c then t else f))) else None.

(** A literal without unknown digits. *)
Definition number_meaning (t : string) : option known_value :=
  '(bs, sg) ← parse_literal_bits (String.list_ascii_of_string t);
  u ← as_Z false bs;
  if decide (bs <> [] /\ length bs <= max_concat_bits) then Some (mk_known sg (length bs) u) else None.

(** The value of a tree; the other operators have none here. *)
Fixpoint meaning (rho : gmap string known_value) (e : vexpr) : option known_value :=
  match e with
  | v_number t => number_meaning t
  | v_name x => rho !! x
  | v_unary op e => a ← meaning rho e; unary_meaning op a
  | v_binary _ op a b => a ← meaning rho a; b ← meaning rho b; binary_meaning op a b
  | v_cond c t f => c ← meaning rho c; t ← meaning rho t; f ← meaning rho f; cond_meaning c t f
  | _ => None
  end.

(** What a known value is as a vector. *)
Definition vector_of (k : known_value) : bitval := mk_bitval (k_signed k) (bits (k_width k) (k_bits k)).

(** A name is a vector or a signal of the module, and its signals have the bits of the value. *)
Definition declared (m : compiled_module) (values : list dns) (x : string) (k : known_value) : Prop :=
  1 <= k_width k
  /\ match cm_vectors m !! x with
     | Some vd =>
         vector_width (vd_msb vd) (vd_lsb vd) = Some (k_width k) /\ vd_is_signed vd = k_signed k
         /\ (read_signal values <$> vd_bits vd) = bits (k_width k) (k_bits k)
     | None =>
         exists i, cm_signal_index m !! x = Some i /\ default false (cm_signal_is_signed m !! i) = k_signed k
           /\ [read_signal values (Some i)] = bits (k_width k) (k_bits k)
     end.

(** ** Integers of vectors *)

Lemma as_Z_vector sx k : 1 <= k_width k -> as_Z sx (bv_bits (vector_of k)) = Some (int_at sx k).
Proof.
  intros Hw. unfold as_Z. cbn [vector_of bv_bits]. rewrite known_bits. cbn [fmap option_fmap option_map]. f_equal.
  rewrite rev_involutive. unfold int_at. rewrite uval_lbits. destruct sx; [|done]. unfold sval. rewrite uval_lbits, length_lbits. cbn [andb].
  assert (Hl : default false (last (lbits (k_width k) (k_bits k))) = Z.testbit (k_bits k mod 2 ^ Z.of_nat (k_width k)) (Z.of_nat (k_width k) - 1)).
  { rewrite last_lookup, length_lbits, lbits_lookup by lia. cbn [default]. rewrite Z.mod_pow2_bits_low by lia. unfold id. f_equal. lia. }
  rewrite Hl. destruct (Z.testbit _ _); lia.
Qed.

Lemma vector_nonempty k : 1 <= k_width k -> bv_bits (vector_of k) <> [].
Proof. intros Hw E. apply (f_equal length) in E. cbn in E. rewrite length_bits in E. simpl in E. lia. Qed.

(** Bits of one integer to the right of another. *)
Lemma zip_bits (g : dns -> dns -> dns) (h : bool -> bool -> bool) (f : Z -> Z -> Z) w x y :
  (forall b c, g (dns_of_bool b) (dns_of_bool c) = dns_of_bool (h b c)) ->
  (forall k, Z.testbit (f x y) k = h (Z.testbit x k) (Z.testbit y k)) ->
  zip_with g (bits w x) (bits w y) = bits w (f x y).
Proof.
  intros Hg Hf. apply list_eq. intros i. rewrite lookup_zip_with. unfold bits. rewrite !list_lookup_fmap.
  destruct (decide (i < w)) as [Hi|Hi].
  - rewrite !lookup_rev, !length_lbits, !lbits_lookup by (rewrite ?length_lbits; lia). cbn. by rewrite Hg, Hf.
  - rewrite !(lookup_ge_None_2 (rev _)) by (rewrite length_rev, length_lbits; lia). done.
Qed.

Lemma fmap_bits_not w x : logic_not <$> bits w x = bits w (Z.lnot x).
Proof.
  apply list_eq. intros i. unfold bits. rewrite !list_lookup_fmap. destruct (decide (i < w)) as [Hi|Hi].
  - rewrite !lookup_rev, !length_lbits, !lbits_lookup by (rewrite ?length_lbits; lia). cbn. rewrite Z.lnot_spec by lia. by destruct (Z.testbit x _).
  - rewrite !(lookup_ge_None_2 (rev _)) by (rewrite length_rev, length_lbits; lia). done.
Qed.

(** Known bits are determined by their normal form. *)
Lemma norm_bits l w x : norm l = norm (bits w x) -> l = bits w x.
Proof.
  unfold bits. generalize (rev (lbits w x)) as bs. intros bs. revert l. induction bs as [|b bs IH]; intros [|d l]; try done.
  cbn [fmap list_fmap]. intros [= Hd Hl]. f_equal; [by destruct d, b|by apply IH].
Qed.

(** ** The other operators *)

Section Operators.
Context `{values : Valuation}.

Lemma bitwise_binary_lowers s k a b va vb :
  let w := Nat.max (length (bv_bits va)) (length (bv_bits vb)) in
  let sx := bv_signed va && bv_signed vb in
  builder s -> is_op2 k -> denotes s a va -> denotes s b vb -> bv_bits va <> [] -> bv_bits vb <> [] -> w <= max_concat_bits ->
  lowers s (bitwise_binary a b k) (mk_bitval sx (zip_with (eval_op2 k) (resize_bits_to w sx (bv_bits va)) (resize_bits_to w sx (bv_bits vb)))).
Proof.
  intros w sx Hb Hk Ha Hb' Hna Hnb Hw. unfold bitwise_binary.
  rewrite (denotes_width s a va), (denotes_width s b vb), (denotes_signed s a va), (denotes_signed s b vb) by done. fold w sx.
  assert (Hw1 : 1 <= w) by (unfold w; destruct (bv_bits va); [done|simpl; lia]).
  lstep resize_to_vector_lowers as Hav. lstep resize_to_vector_lowers as Hbv.
  pose proof (length_resize_bits_to w sx (bv_bits va)) as La. pose proof (length_resize_bits_to w sx (bv_bits vb)) as Lb.
  revert Hav Hbv La Lb. generalize (resize_bits_to w sx (bv_bits va)), (resize_bits_to w sx (bv_bits vb)). intros xs ys Hav Hbv La Lb.
  case_bool_decide as Hone.
  - destruct xs as [|x [|]], ys as [|y [|]]; simpl in La, Lb; try lia.
    lstep unchecked_head_lowers. lstep unchecked_head_lowers. lstep op2_lowers. apply leads_ret; [done|]. by apply make_scalar_denotes.
  - lstep (lmap_lowers _ (fun p : dns * dns => eval_op2 k p.1 p.2)) as Hm; [by apply denotes_zip| |].
    + intros s' [ra rb] [x y] He' Hb2 [H1 H2]. by apply op2_lowers.
    + assert (Ez : (fun p : dns * dns => eval_op2 k p.1 p.2) <$> zip xs ys = zip_with (eval_op2 k) xs ys).
      { clear. revert ys. induction xs as [|x xs IH]; intros [|y ys]; try done. cbn [zip zip_with fmap list_fmap]. by rewrite <- IH. }
      rewrite Ez in Hm. assert (Hz : length (zip_with (eval_op2 k) xs ys) = w) by (rewrite length_zip_with; lia).
      apply make_vector_lowers; [done|done| |lia]. intros E. rewrite E in Hz. simpl in Hz. lia.
Qed.

Lemma bitwise_not_lowers s a va :
  builder s -> denotes s a va -> bv_bits va <> [] -> length (bv_bits va) <= max_concat_bits ->
  lowers s (bitwise_unary a ek_unary_not) (mk_bitval (bv_signed va) (logic_not <$> bv_bits va)).
Proof.
  intros Hb Ha Hne Hw. pose proof (denotes_signed _ _ _ Ha) as Hsg. apply denotes_roots in Ha. unfold bitwise_unary, roots_of in *.
  destruct (xv_is_vector a); cbn [negb].
  - lstep (lmap_lowers _ logic_not) as Hm; [intros; by apply make_not_lowers|]. rewrite Hsg. apply make_vector_lowers; [done|done| |by rewrite length_fmap].
    by intros ?%fmap_nil_inv.
  - destruct (bv_bits va) as [|x [|]]; [done| |by inversion Ha as [|? ? ? ? ? Hn]; inversion Hn]. inversion Ha as [|? ? ? ? Hx _]; subst.
    change (denotes s (xv_scalar_root a) x) in Hx. lstep make_not_lowers. apply leads_ret; [done|]. rewrite Hsg. by apply make_scalar_denotes.
Qed.

Lemma resize_lowers s a v w sx :
  builder s -> denotes s a v -> bv_bits v <> [] -> 1 <= w <= max_concat_bits ->
  lowers s (resize a w sx) (mk_bitval (bv_signed v) (resize_bits_to w sx (bv_bits v))).
Proof.
  intros Hb Ha Hne [Hw Hmax]. unfold resize. rewrite (denotes_signed s a v) by done. case_bool_decide as Hw1.
  - assert (w = 1) as -> by lia. apply leads_assoc. lstep resize_head_lowers. apply leads_ret; [done|]. rewrite resize_bits_one by done.
    by apply make_scalar_denotes.
  - lstep resize_to_vector_lowers as Hr. pose proof (length_resize_bits_to w sx (bv_bits v)) as Hl.
    apply make_vector_lowers; [done|done| |lia]. intros E. rewrite E in Hl. simpl in Hl. lia.
Qed.

(** ** Each operator on known values *)

Definition computes (s : pstate) (c : L expr_value) (k : known_value) : Prop := lowers s c (vector_of k).

Lemma scalar_computes s (c : L index) b : lowers s c (dns_of_bool b) -> computes s (scalar_of c) (one_bit b).
Proof.
  intros Hc. unfold computes, scalar_of. lstep Hc. apply leads_ret; [done|]. replace (vector_of (one_bit b)) with (mk_bitval false [dns_of_bool b]) by (by destruct b).
  by apply make_scalar_denotes.
Qed.

Lemma negated_lowers s (c : L index) b : lowers s c (dns_of_bool b) -> lowers s (negated c) (dns_of_bool (negb b)).
Proof. intros Hc. unfold negated. lstep Hc. replace (dns_of_bool (negb b)) with (logic_not (dns_of_bool b)) by (by destruct b). by apply make_not_lowers. Qed.

Section Binary.
Context (s : pstate) (a b : expr_value) (ka kb : known_value).
Context (Hs : builder s) (Ha : denotes s a (vector_of ka)) (Hb : denotes s b (vector_of kb)) (Wa : 1 <= k_width ka) (Wb : 1 <= k_width kb).

Lemma arithmetic_computes op wf f k :
  (op, wf, f) ∈ arithmetic -> at_width (wf (k_width ka) (k_width kb)) f ka kb = Some k -> computes s (op a b) k.
Proof.
  intros Hop Hk. unfold at_width in Hk. destruct (decide _) as [Hw|]; [|done]. injection Hk as <-.
  pose proof (arithmetic_lowers s op wf f a b _ _ Hop Hs Ha Hb (vector_nonempty _ Wa) (vector_nonempty _ Wb)) as Hl.
  cbn zeta in Hl. cbn [vector_of bv_bits] in Hl. rewrite !length_bits in Hl. specialize (Hl Hw). unfold ref_arith in Hl.
  change (bits (k_width ka) (k_bits ka)) with (bv_bits (vector_of ka)) in Hl. change (bits (k_width kb) (k_bits kb)) with (bv_bits (vector_of kb)) in Hl.
  by rewrite !as_Z_vector in Hl.
Qed.

Lemma bitwise_computes kd h f k :
  is_op2 kd -> (forall b c, eval_op2 kd (dns_of_bool b) (dns_of_bool c) = dns_of_bool (h b c)) ->
  (forall x y k, Z.testbit (f x y) k = h (Z.testbit x k) (Z.testbit y k)) ->
  at_width (wider ka kb) f ka kb = Some k -> computes s (bitwise_binary a b kd) k.
Proof.
  intros Hkd Hg Hf Hk. unfold at_width in Hk. destruct (decide _) as [Hw|]; [|done]. injection Hk as <-.
  pose proof (bitwise_binary_lowers s kd a b _ _ Hs Hkd Ha Hb (vector_nonempty _ Wa) (vector_nonempty _ Wb)) as Hl.
  rewrite (resize_as_Z _ _ (bv_bits (vector_of ka)) (int_at (both_signed ka kb) ka)), (resize_as_Z _ _ (bv_bits (vector_of kb)) (int_at (both_signed ka kb) kb)) in Hl
    by (by apply vector_nonempty || by apply as_Z_vector).
  rewrite (zip_bits _ h f) in Hl by auto. cbn [vector_of bv_bits] in Hl. rewrite !length_bits in Hl. by apply Hl.
Qed.

Lemma compared_lowers op f :
  (op, f) ∈ comparisons -> lowers s (op a b) (dns_of_bool (f (int_at (both_signed ka kb) ka) (int_at (both_signed ka kb) kb))).
Proof.
  intros Hop. destruct (comparison_lowers s op f a b _ _ Hop Hs Ha Hb (vector_nonempty _ Wa) (vector_nonempty _ Wb)) as (g & [_ Hg] & Hl).
  rewrite (Hg _ _ (int_at (both_signed ka kb) ka) (int_at (both_signed ka kb) kb)) in Hl; [done|by apply vector_nonempty..|by apply as_Z_vector|by apply as_Z_vector].
Qed.

Lemma holds_lowers s' v k : builder s' -> denotes s' v (vector_of k) -> 1 <= k_width k -> lowers s' (to_bool_root v) (dns_of_bool (holds k)).
Proof. intros Hs' Hv Hw. apply (to_bool_root_lowers s' v (vector_of k)); [done|done|by apply vector_nonempty|by apply as_Z_vector]. Qed.

Lemma logical_computes kd h :
  is_op2 kd -> (forall b c, eval_op2 kd (dns_of_bool b) (dns_of_bool c) = dns_of_bool (h b c)) ->
  computes s (logical kd a b) (one_bit (h (holds ka) (holds kb))).
Proof.
  intros Hkd Hg. apply scalar_computes. lstep (holds_lowers s a ka). lstep (holds_lowers _ b kb). rewrite <- Hg. by apply op2_lowers.
Qed.
End Binary.

Lemma conditional_computes s c t f kc kt kf k :
  builder s -> denotes s c (vector_of kc) -> denotes s t (vector_of kt) -> denotes s f (vector_of kf) ->
  1 <= k_width kc -> 1 <= k_width kt -> 1 <= k_width kf -> cond_meaning kc kt kf = Some k -> computes s (make_conditional c t f) k.
Proof.
  intros Hs Hc Ht Hf Wc Wt Wf Hk. unfold cond_meaning in Hk. destruct (decide _) as [Hw|]; [|done]. injection Hk as <-.
  destruct (make_conditional_lowers s c t f _ _ _ (int_at false kc) Hs Hc Ht Hf) as (l & Hl & Hn);
    [by apply vector_nonempty..|cbn; by rewrite !length_bits|by apply as_Z_vector|].
  rewrite (resize_as_Z _ _ _ (int_at (both_signed kt kf) (if holds kc then kt else kf))) in Hn.
  - apply norm_bits in Hn as ->. cbn [vector_of bv_bits] in Hl. by rewrite !length_bits in Hl.
  - destruct (_ =? _)%Z; by apply vector_nonempty.
  - unfold holds. destruct (_ =? _)%Z; cbn [negb]; by apply as_Z_vector.
Qed.

Lemma negate_computes s a ka :
  builder s -> denotes s a (vector_of ka) -> 1 <= k_width ka <= max_concat_bits ->
  computes s (negate a) (mk_known (k_signed ka && bool_decide (1 < k_width ka)) (k_width ka) (- k_bits ka)).
Proof.
  intros Hs Ha Hw. set (sg := k_signed ka && bool_decide (1 < k_width ka)). set (kz := mk_known sg (k_width ka) 0).
  assert (Hz : lowers s (if xv_is_signed a then make_int_literal 0 (width a) else make_uint_literal 0 (width a)) (vector_of kz)).
  { rewrite (denotes_width s a (vector_of ka)), (denotes_signed s a (vector_of ka)) by done. cbn [vector_of bv_bits bv_signed]. rewrite length_bits.
    unfold kz, vector_of, sg. cbn [k_signed k_width k_bits]. destruct (k_signed ka); cbn [andb];
      [by apply make_int_literal_lowers|by apply make_uint_literal_lowers]. }
  unfold computes, negate. lstep Hz as Hd. assert (Wz : 1 <= k_width kz) by (cbn; lia).
  assert (Wk : 1 <= k_width ka) by lia. assert (Ew : wider kz ka = k_width ka) by (unfold wider; cbn; lia).
  assert (Hsub : computes s0 (arith_sub r a) (mk_known (both_signed kz ka) (wider kz ka) (int_at (both_signed kz ka) kz - int_at (both_signed kz ka) ka))).
  { apply (arithmetic_computes s0 r a kz ka Hb Hd Ha Wz Wk arith_sub Nat.max Z.sub); [unfold arithmetic; set_solver|].
    unfold at_width. fold (wider kz ka). rewrite decide_True; [done|lia]. }
  unfold computes in Hsub. eapply leads_bind; [exact Hsub|]. cbv beta. intros s2 r2 He2 Hb2 Hd2. lift He2.
  rewrite (denotes_width s2 a (vector_of ka)), (denotes_signed s2 a (vector_of ka)) by done. cbn [vector_of bv_bits bv_signed]. rewrite length_bits.
  rewrite Ew in Hd2. eapply leads_weaken; [apply resize_lowers; [done|exact Hd2|by apply vector_nonempty|done]|].
  intros s3 r3 _ Hr. cbv beta in Hr |- *. cbn [vector_of bv_bits bv_signed k_signed k_width k_bits] in Hr.
  pose proof (resize_bits_same (k_signed ka) (bits (k_width ka) (int_at (both_signed kz ka) kz - int_at (both_signed kz ka) ka))) as Hsame.
  rewrite length_bits in Hsame. rewrite Hsame in Hr. clear Hsame. unfold vector_of. cbn [k_signed k_width k_bits].
  replace (both_signed kz ka) with sg in Hr by (unfold both_signed, kz, sg; cbn; destruct (k_signed ka), (bool_decide _); done).
  rewrite (bits_mod (k_width ka) (- k_bits ka) (int_at sg kz - int_at sg ka)); [done|].
  assert (Hmod : forall k, k_width k = k_width ka -> (int_at sg k mod 2 ^ Z.of_nat (k_width ka) = k_bits k mod 2 ^ Z.of_nat (k_width ka))%Z).
  { intros k Hk. unfold int_at. cbv zeta. rewrite Hk. set (p := (2 ^ Z.of_nat (k_width ka))%Z). assert (0 < p)%Z by (apply Z.pow_pos_nonneg; lia).
    destruct (sg && Z.testbit (k_bits k mod p) (Z.of_nat (k_width ka) - 1)); [|by rewrite Zmod_mod]. rewrite <- Zminus_mod_idemp_r, Z.mod_same, Z.sub_0_r, Zmod_mod by lia. done. }
  rewrite Zminus_mod, !Hmod by done. cbn [kz k_bits]. rewrite <- Zminus_mod. done.
Qed.

Lemma assoc_elem {A} c (ops : list (string * A)) a : assoc c ops = Some a -> (c, a) ∈ ops.
Proof.
  induction ops as [|[x y] ops IH]; [done|]. cbn [assoc]. case_bool_decide; [intros [= <-]; subst; by left|]. intros Hin%IH. by right.
Qed.
(** The entry of a table for a concrete symbol. *)
Ltac pick_op H :=
  cbn [assoc] in H; repeat (rewrite bool_decide_eq_false_2 in H by done); rewrite bool_decide_eq_true_2 in H by done; injection H as <-.

Lemma unary_computes s op g a ka k :
  builder s -> denotes s a (vector_of ka) -> 1 <= k_width ka ->
  assoc op unary_ops = Some g -> unary_meaning op ka = Some k -> computes s (g a) k /\ 1 <= k_width k.
Proof.
  intros Hs Ha Wa Hg Hk. unfold unary_meaning in Hk. pose proof (vector_nonempty ka Wa) as Hne.
  destruct (assoc op [_; _; _; _]) as [v|] eqn:Hv; [|done]. destruct (decide _) as [Hw|]; [|done]. injection Hk as ->.
  apply assoc_elem in Hv. rewrite !elem_of_cons in Hv. unfold unary_ops in Hg.
  destruct Hv as [[= -> ->]|[[= -> ->]|[[= -> ->]|[[= -> ->]|Hv%elem_of_nil]]]]; [pick_op Hg; (split; [|cbn; lia])..|done].
  - by apply leads_ret.
  - by apply negate_computes.
  - eapply leads_weaken; [apply (bitwise_not_lowers s a (vector_of ka)); [done|done|done|cbn; by rewrite length_bits]|].
    intros s1 r _ Hr. cbv beta in Hr |- *. cbn [vector_of bv_bits bv_signed] in Hr. by rewrite fmap_bits_not in Hr.
  - apply scalar_computes, negated_lowers. by apply holds_lowers.
Qed.

(** The operators of all levels. *)
Definition all_ops : list (string * binary_op) :=
  lor_ops ++ land_ops ++ eq_ops ++ rel_ops ++ or_ops ++ xor_ops ++ and_ops ++ shift_ops ++ add_ops ++ mul_ops.

Lemma elem_assoc {A} c a (ops : list (string * A)) : NoDup ops.*1 -> (c, a) ∈ ops -> assoc c ops = Some a.
Proof.
  induction ops as [|[x y] ops IH]; [by intros _ ?%elem_of_nil|]. rewrite fmap_cons, NoDup_cons. intros [Hx Hnd] [[= -> ->]|Hin]%elem_of_cons; cbn [assoc].
  - by rewrite bool_decide_eq_true_2.
  - rewrite bool_decide_eq_false_2; [by apply IH|]. intros ->. apply Hx. by apply (list_elem_of_fmap_2 fst) in Hin.
Qed.

(** A symbol is an operator of one level. *)
Lemma assoc_all k op g : assoc op (table k) = Some g -> assoc op all_ops = Some g.
Proof.
  intros Hg%assoc_elem. apply elem_assoc; [apply (bool_decide_unpack _); by vm_compute|]. unfold all_ops. rewrite !elem_of_app.
  do 11 (destruct k as [|k]; [cbn [table] in Hg; tauto || by apply elem_of_nil in Hg|]). by apply elem_of_nil in Hg.
Qed.

Lemma is_op2_eq k : bool_decide (k ∈ [ek_literal; ek_signal; ek_unary_not; ek_is_unknown]) = false -> is_op2 k.
Proof. by intros ?%bool_decide_eq_false. Qed.

Lemma at_width_width w f ka kb k : at_width w f ka kb = Some k -> k_width k = w.
Proof. unfold at_width. destruct (decide _); [by intros [= <-]|done]. Qed.

Lemma binary_computes s j op g a b ka kb k :
  builder s -> denotes s a (vector_of ka) -> denotes s b (vector_of kb) -> 1 <= k_width ka -> 1 <= k_width kb ->
  assoc op (table j) = Some g -> binary_meaning op ka kb = Some k -> computes s (g a b) k /\ 1 <= k_width k.
Proof.
  intros Hs Ha Hb Wa Wb Hg%assoc_all Hk. unfold binary_meaning in Hk. destruct (assoc op (_ :: _)) as [f|] eqn:Hf; [|done].
  apply assoc_elem in Hf. rewrite !elem_of_cons in Hf.
  unfold all_ops, lor_ops, land_ops, eq_ops, rel_ops, or_ops, xor_ops, and_ops, shift_ops, add_ops, mul_ops in Hg. cbn [app] in Hg.
  assert (Hcmp : forall cmp f, (cmp, f) ∈ comparisons -> compared f ka kb = Some k -> computes s (scalar_of (cmp a b)) k /\ 1 <= k_width k).
  { intros cmp f0 Hc [= <-]. split; [|done]. apply scalar_computes. by apply compared_lowers. }
  assert (Hwide : forall w f, 1 <= w -> at_width w f ka kb = Some k -> 1 <= k_width k) by (intros w f0 Hw ->%at_width_width; done).
  assert (Ww : 1 <= wider ka kb) by (unfold wider; lia).
  repeat match type of Hf with _ \/ _ => destruct Hf as [[= -> ->]|Hf]; [pick_op Hg|] end; [..|by apply elem_of_nil in Hf].
  - split; [|by eapply Hwide]. eapply arithmetic_computes; [done..| |exact Hk]. unfold arithmetic. set_solver.
  - split; [|by eapply Hwide]. eapply arithmetic_computes; [done..| |exact Hk]. unfold arithmetic. set_solver.
  - split; [|by eapply (Hwide (k_width ka + k_width kb)); [lia|]]. eapply arithmetic_computes; [done..| |exact Hk]. unfold arithmetic. set_solver.
  - split; [|by eapply Hwide]. apply (bitwise_computes s a b ka kb Hs Ha Hb Wa Wb ek_binary_and andb Z.land); [by apply is_op2_eq|by intros [] []|apply Z.land_spec|done].
  - split; [|by eapply Hwide]. apply (bitwise_computes s a b ka kb Hs Ha Hb Wa Wb ek_binary_or orb Z.lor); [by apply is_op2_eq|by intros [] []|apply Z.lor_spec|done].
  - split; [|by eapply Hwide]. apply (bitwise_computes s a b ka kb Hs Ha Hb Wa Wb ek_binary_xor xorb Z.lxor); [by apply is_op2_eq|by intros [] []|apply Z.lxor_spec|done].
  - eapply Hcmp; [|exact Hk]. unfold comparisons. set_solver.
  - eapply Hcmp; [|exact Hk]. unfold comparisons. set_solver.
  - eapply Hcmp; [|exact Hk]. unfold comparisons. set_solver.
  - eapply Hcmp; [|exact Hk]. unfold comparisons. set_solver.
  - eapply Hcmp; [|exact Hk]. unfold comparisons. set_solver.
  - injection Hk as <-. split; [|done]. apply scalar_computes, negated_lowers. apply (compared_lowers s a b ka kb Hs Ha Hb Wa Wb compare_eq Z.eqb).
    unfold comparisons. set_solver.
  - injection Hk as <-. split; [|done]. apply (logical_computes s a b ka kb Hs Ha Hb Wa Wb ek_binary_and andb); [by apply is_op2_eq|by intros [] []].
  - injection Hk as <-. split; [|done]. apply (logical_computes s a b ka kb Hs Ha Hb Wa Wb ek_binary_or orb); [by apply is_op2_eq|by intros [] []].
Qed.

(** ** Literals and names *)

Lemma lmap_each `{Denotes B W} {A} (f : A -> L B) (g : A -> W) s l :
  builder s -> (forall s' a, builder s' -> lowers s' (f a) (g a)) -> lowers s (lmap f l) (g <$> l).
Proof.
  intros Hb Hf. revert s Hb. induction l as [|a l IH]; intros s Hb; [apply leads_ret; [done|constructor]|].
  cbn [lmap]. lstep Hf. lstep IH. apply leads_ret; [done|]. by constructor.
Qed.

Lemma signal_root_lowers s sig : builder s -> lowers s (make_signal_root sig) (read_signal values sig).
Proof. intros Hb. apply add_node_lowers; [done|constructor|done]. Qed.

(** A step that finds a value, and what is done with it. *)
Definition finds (s : pstate) (c : L (option expr_value)) (v : bitval) : Prop :=
  leads s c (fun s' r => exists e, r = Some e /\ denotes s' e v).

Lemma finds_some s c v : lowers s c v -> finds s (e ← c; mret (Some e)) v.
Proof. intros Hc. unfold finds. lstep Hc. apply leads_ret; [done|]. by exists r. Qed.

Lemma found_lowers s c (d : L expr_value) v : finds s c v -> lowers s (r ← c; match r with Some e => mret e | None => d end) v.
Proof. intros Hc. eapply leads_bind; [exact Hc|]. cbv beta. intros s' r He Hb (e & -> & Hd). by apply leads_ret. Qed.

Lemma number_computes s t k : builder s -> number_meaning t = Some k -> computes s (lower_number t) k /\ 1 <= k_width k.
Proof.
  intros Hb Hk. unfold number_meaning in Hk. unfold computes, lower_number.
  destruct (parse_literal_bits _) as [[bs sg]|] eqn:Hp; [|done]. cbn [mbind option_bind] in Hk.
  destruct (as_Z false bs) as [u|] eqn:Hu; [|done]. cbn [mbind option_bind] in Hk. destruct (decide _) as [[Hne Hw]|]; [|done]. injection Hk as <-.
  apply as_Z_unsigned in Hu as [Hbs _]. split; [|cbn; destruct bs; [done|simpl; lia]].
  apply found_lowers. unfold number_value. rewrite Hp. unfold vector_of. cbn [k_signed k_width k_bits]. rewrite <- Hbs. clear Hbs Hp.
  destruct bs as [|b [|b' bs]]; [done| |]; unfold finds.
  - lstep make_literal_lowers. apply leads_ret; [done|]. eexists. split; [done|]. by apply make_scalar_denotes.
  - unfold literal_roots. lstep (lmap_each make_literal id) as Hr; [intros; by apply make_literal_lowers|]. rewrite list_fmap_id in Hr.
    apply finds_some. by apply make_vector_lowers.
Qed.

Lemma declared_ext s s' x k : ext s s' -> declared (ps_m s) values x k -> declared (ps_m s') values x k.
Proof. intros [(more & intern & ->) _]. done. Qed.

Lemma vector_with_range_lowers s roots vs msb lsb sg :
  builder s -> denotes s roots vs -> vs ≠ [] -> lowers s (make_vector_with_range roots msb lsb sg) (mk_bitval sg vs).
Proof.
  intros Hb Hl Hne. destruct Hl as [|r v roots vs Hv Hl]; [done|]. destruct Hl as [|r' v' roots vs Hv' Hl]; (apply leads_ret; [done|]).
  - by apply make_scalar_denotes.
  - split; [done|]. by do 2 (apply denotes_cons; [done|]).
Qed.

Lemma vector_computes s x vd k :
  builder s -> 1 <= k_width k -> cm_vectors (ps_m s) !! x = Some vd -> vector_width (vd_msb vd) (vd_lsb vd) = Some (k_width k) ->
  vd_is_signed vd = k_signed k -> (read_signal values <$> vd_bits vd) = bits (k_width k) (k_bits k) -> finds s (vector_value x) (vector_of k).
Proof.
  intros Hb Hw Hx Hwd Hsg Hbits. unfold finds, vector_value. apply (leads_bind _ _ _ (fun s' m => s' = s /\ m = ps_m s)); [by exists (ps_m s), s|].
  intros ? ? _ _ [-> ->]. rewrite Hx. pose proof (f_equal length Hbits) as Hlen. rewrite length_fmap, length_bits in Hlen. rewrite Hwd, Hsg.
  unfold vector_of. rewrite <- Hbits. destruct (vd_bits vd) as [|front rest]; [simpl in Hlen; lia|].
  apply (leads_bind _ _ _ (fun s' w => s' = s /\ w = k_width k)); [by eapply leads_unchecked|]. intros ? ? _ _ [-> ->]. case_bool_decide as Hone.
  - destruct rest; [|simpl in Hlen; lia]. lstep signal_root_lowers. apply leads_ret; [done|]. eexists. split; [done|]. by apply make_scalar_denotes.
  - lstep (lmap_each make_signal_root (read_signal values)) as Hr; [intros; by apply signal_root_lowers|].
    apply finds_some. by apply vector_with_range_lowers.
Qed.

Lemma name_computes s x k : builder s -> declared (ps_m s) values x k -> computes s (lower_name no_env x) k.
Proof.
  intros Hb [Hw Hx]. unfold computes, lower_name. cbn [no_env pe_subst_idents pe_const_idents]. rewrite !lookup_empty. cbn [default].
  change (lowers s (name_value x) (vector_of k)). unfold name_value. destruct (cm_vectors (ps_m s) !! x) as [vd|] eqn:Hv.
  - apply found_lowers. destruct Hx as (? & ? & ?). by eapply vector_computes.
  - destruct Hx as (i & Hi & Hsg & Hbit). apply (leads_bind _ _ _ (fun s' r => s' = s /\ r = None)).
    { exists None, s. unfold vector_value, get_module, mbind, L_bind. cbn. rewrite Hv. split_and!; done. }
    intros ? ? _ _ [-> ->]. unfold signal_value. apply (leads_bind _ _ _ (fun s' r => s' = s /\ r = i)).
    { exists i, s. unfold get_or_create_signal. rewrite Hi. split_and!; done. }
    intros ? ? _ _ [-> ->]. apply (leads_bind _ _ _ (fun s' m => s' = s /\ m = ps_m s)); [by exists (ps_m s), s|].
    intros ? ? _ _ [-> ->]. cbv zeta. rewrite Hsg. lstep signal_root_lowers. apply leads_ret; [done|]. unfold vector_of. rewrite <- Hbit.
    by apply make_scalar_denotes.
Qed.

(** ** Trees *)

Definition names_declared (s : pstate) (rho : gmap string known_value) : Prop :=
  map_Forall (declared (ps_m s) values) rho.

Lemma names_declared_ext s s' rho : ext s s' -> names_declared s rho -> names_declared s' rho.
Proof. intros He Hd x k Hx. eapply declared_ext; [done|]. by apply Hd. Qed.

(** A first step that is known. *)
Lemma leads_step {A B} s s1 (c : L A) (f : A -> L B) a (Q : pstate -> B -> Prop) :
  c s = Some (a, s1) -> ext s s1 -> leads s1 (f a) Q -> leads s (c ≫= f) Q.
Proof.
  intros Hc He (b & s2 & Hf & He2 & Hb & HQ). exists b, s2. split_and!; [|by etrans|done|done]. unfold mbind, L_bind. by rewrite Hc.
Qed.

Lemma tree_computes rho e k s :
  builder s -> names_declared s rho -> printable e -> meaning rho e = Some k -> computes s (lower no_env e) k /\ 1 <= k_width k.
Proof.
  revert k s. induction e as [t|x|op e IHe|a b _ _|j op a b IHa IHb|c t f IHc IHt IHf|b i _ _|b m l _ _ _|p b st w _ _ _|e l _ _]
    using vexpr_nested_ind; intros k s Hs Hd Hp Hk; cbn [meaning printable lower] in *; try done.
  - by apply number_computes.
  - split; [by apply name_computes, Hd|]. by apply (Hd x k).
  - destruct (meaning rho e) as [ka|] eqn:Ea; [|done]. destruct Hp as [[g Hg] Hp]. cbn [mbind option_bind] in Hk. rewrite Hg.
    destruct (IHe ka s Hs Hd Hp eq_refl) as [(a & s1 & Ca & He & Hs1 & Ha) Wa].
    destruct (unary_computes s1 op g a ka k) as [Hc Wk]; [done..|]. split; [|done]. by eapply leads_step.
  - destruct (meaning rho a) as [ka|] eqn:Ea; [|done]. destruct (meaning rho b) as [kb|] eqn:Eb; [|done].
    destruct Hp as ([g Hg] & Hpa & Hpb). cbn [mbind option_bind] in Hk. rewrite Hg.
    destruct (IHa ka s Hs Hd Hpa eq_refl) as [(ra & s1 & Ca & He & Hs1 & Ha) Wa].
    destruct (IHb kb s1 Hs1) as [(rb & s2 & Cb & He2 & Hs2 & Hb) Wb]; [by eapply names_declared_ext|done..|]. lift He2.
    destruct (binary_computes s2 j op g ra rb ka kb k) as [Hc Wk]; [done..|]. split; [|done]. do 2 (eapply leads_step; [done..|]). done.
  - destruct (meaning rho c) as [kc|] eqn:Ec; [|done]. destruct (meaning rho t) as [kt|] eqn:Et; [|done].
    destruct (meaning rho f) as [kf|] eqn:Ef; [|done]. destruct Hp as (Hpc & Hpt & Hpf). cbn [mbind option_bind] in Hk.
    destruct (IHc kc s Hs Hd Hpc eq_refl) as [(rc & s1 & Cc & He & Hs1 & Hc) Wc].
    destruct (IHt kt s1 Hs1) as [(rt & s2 & Ct & He2 & Hs2 & Ht) Wt]; [by eapply names_declared_ext|done..|]. lift He2.
    destruct (IHf kf s2 Hs2) as [(rf & s3 & Cf & He3 & Hs3 & Hf) Wf]; [by do 2 (eapply names_declared_ext; [done|])|done..|]. lift He3.
    pose proof (conditional_computes s3 rc rt rf kc kt kf k Hs3 Hc Ht Hf Wc Wt Wf Hk) as Hcond.
    split; [do 3 (eapply leads_step; [done..|]); done|]. unfold cond_meaning in Hk. destruct (decide _); [|done]. injection Hk as <-. cbn. unfold wider. lia.
Qed.
End Operators.

(** ** Theorem *)

(** C26. The text of an expression compiles to nodes that compute its value.  Take a tree of names, literals without unknown
    digits, [+], [-], [*], [&], [|], [^], the six comparisons, [&&], [||], unary [+], [-], [~], [!] and the conditional,
    whose names are vectors or signals of the module with known bits, and whose operations are at most 4096 bits wide.  Its
    text, printed with as few parentheses as the parser allows, is lexed and parsed to the end, nothing but nodes is
    added to the module, and under the given signal values the bits of the result are those of the value the tree has on
    the integers ([meaning]): the operation on the integers of the operands, two's complement if both are signed, cut to
    the width of the result, with that sign.  No error is reported and every bit is right unless the arena has reached
    its node limit. *)
Theorem expression_text_computes (values : Valuation) (inline_call : string -> function_def -> list expr_value -> P expr_value)
  (rho : gmap string known_value) (e : vexpr) (k : known_value) (smap : option (list (Z * Z))) (s : pstate) :
  printable e -> builder s -> names_declared s rho -> meaning rho e = Some k ->
  exists r s' last,
    parse_expr inline_call no_env (lr_tokens (lex (spaced (print 0 e)) smap)) s = Ok (r, [last], s') /\ tok_kind last = tk_eof
    /\ ext s s' /\ builder s' /\ denotes s' r (mk_bitval (k_signed k) (bits (k_width k) (k_bits k))).
Proof.
  intros Hp Hs Hd Hk. destruct (lex_printed e smap Hp) as (ts & last & -> & Hts & Hlast).
  destruct (tree_computes rho e k s Hs Hd Hp Hk) as [(r & s' & Hc & He & Hs' & Hr) _]. exists r, s', last.
  rewrite (parse_tokens inline_call no_env e ts last s Hp Hts Hlast). unfold lift. rewrite Hc. by split_and!.
Qed.

(** [input [3:0] a; input signed [3:0] b; input c] *)
Definition three_inputs : pstate :=
  match (_ ← declare_vector_range true "a" 3 0 false false; _ ← declare_vector_range true "b" 3 0 false true;
         get_or_create_signal "c") (mk_pstate compiled_module_default []) with
  | Some (_, s) => s
  | None => mk_pstate compiled_module_default []
  end.

Lemma three_inputs_builder `{values : Valuation} : builder three_inputs.
Proof.
  assert (nodes_of three_inputs = [] /\ cm_expr_intern (ps_m three_inputs) = ∅ /\ cm_signal_is_const (ps_m three_inputs) = replicate 9 false)
    as (Hn & Hi & Hc) by (by vm_compute).
  revert Hn Hi Hc. generalize three_inputs. intros s Hn Hi Hc. split; [split; [rewrite Hn|rewrite Hi]|].
  - intros i n j Hl. by rewrite lookup_nil in Hl.
  - intros n i Hl. by rewrite lookup_empty in Hl.
  - intros [i|] v; unfold foldable_const; [|done].
    unfold vget. rewrite Hc. cbn [mbind option_bind]. destruct (replicate 9 false !! i) as [x|] eqn:Hx; [|done]. by apply lookup_replicate in Hx as [-> _].
Qed.

(** [b < a - 4'd3 ? a + b * 2'd2 : ~ c] *)
Definition three_inputs_tree : vexpr :=
  v_cond (v_binary 4 "<" (v_name "b") (v_binary 9 "-" (v_name "a") (v_number "4'd3")))
    (v_binary 9 "+" (v_name "a") (v_binary 10 "*" (v_name "b") (v_number "2'd2"))) (v_unary "~" (v_name "c")).

(** With 9, 5 and 1 on the inputs the expression is 19, in six bits. *)
Lemma expression_text_computes_witness :
  let values : Valuation := bits 4 9 ++ bits 4 5 ++ [true_state] in
  let rho := {[ "a"%string := mk_known false 4 9; "b"%string := mk_known true 4 5; "c"%string := mk_known false 1 1 ]} in
  meaning rho three_inputs_tree = Some (mk_known false 6 19)
  /\ exists r s' last,
       parse_expr (fun _ _ _ => lift x_scalar) no_env (lr_tokens (lex (spaced (print 0 three_inputs_tree)) None)) three_inputs = Ok (r, [last], s')
       /\ tok_kind last = tk_eof /\ ext three_inputs s' /\ builder s' /\ denotes s' r (mk_bitval false (bits 6 19)).
Proof.
  intros values rho. assert (Hk : meaning rho three_inputs_tree = Some (mk_known false 6 19)) by (by vm_compute). split; [done|].
  apply (expression_text_computes values (fun _ _ _ => lift x_scalar) rho three_inputs_tree (mk_known false 6 19) None three_inputs); [| | |done].
  - unfold three_inputs_tree. cbn [printable].
    split_and!; try (apply (bool_decide_unpack _); by vm_compute).
  - apply three_inputs_builder.
  - unfold names_declared, rho. repeat apply map_Forall_insert_2; [..|apply map_Forall_empty]; (split; [cbn; lia|]); vm_compute;
      first [by split_and!|by exists 8].
Defined.
