(* ===== verification/VStmt.v ===== *)
(** * Verilog: the statement parser

    [parse_lvalue_ref], [parse_proc_stmt] with the declarations of procedural
    blocks, the inlining of tasks at their call and, since a function body is
    parsed as a statement, the inlining of functions, of
    verilog/digital/digital.h.

    A step runs in the monad [Q]: a step of the expression parser ([P]) over the
    arena of statements and the scope of the block (a null scope is [None]),
    which the code passes by reference.  A call parses the body of its task or
    function; [proc_at d] allows calls to nest [d] deep in each other and is
    [TooDeep] beyond, where the code goes on without a bound.

    References into [m.vectors] that the code keeps while it parses are the
    values they had: the fields that are read never change. *)

From S2P Require Import Prelude Logic4 VModule VLower VBits VLiteral VLex VSignals VParse.
From Stdlib Require Import ZArith Lia Ascii.

(** ** The monad *)

Record work := mk_work { wk_arena : list stmt_node; wk_scope : option proc_scope }.

Definition Q (A : Type) : Type := work -> P (A * work).

#[global] Instance Q_ret : MRet Q := fun A a w => mret (a, w).

#[global] Instance Q_bind : MBind Q := fun A B f c w => mbind (M := P) (fun '(a, w) => f a w) (c w).

(** A step that leaves arena and scope alone. *)
Definition lp {A} (c : P A) : Q A := fun w => mbind (M := P) (fun a => mret (a, w)) c.

Definition ll {A} (c : L A) : Q A := lp (lift c).

Definition qbranch {A} (c : P bool) (yes no : Q A) : Q A := fun w => branch c (yes w) (no w).

Notation "'whenq' c 'then' a 'else' b" := (qbranch c a b) (at level 10, c at level 99, a at level 200, b at level 200).

(** Fuel for a loop that takes a token per round. *)
Definition fueled {A} (f : nat -> P A) : P A := fun ts s => f (S (remaining ts)) ts s.

Definition fueled_q {A} (f : nat -> Q A) : Q A := fun w ts s => f (S (remaining ts)) w ts s.

(** A step that looks at the tokens from the position on. *)
Definition looking {A} (f : list token -> P A) : P A := fun ts s => f ts ts s.

Definition add_stmt (n : stmt_node) : Q index := fun w =>
  mret (Some (length (wk_arena w)), mk_work (wk_arena w ++ [n]) (wk_scope w)).

(** [if(scope) { ... }] *)
Definition modify_scope (f : proc_scope -> proc_scope) : Q () := fun w => mret ((), mk_work (wk_arena w) (f <$> wk_scope w)).

(** [scope ? &scope->subst : nullptr], as the environment of an expression. *)
Definition scope_env : Q parse_env := fun w =>
  mret (mk_env ∅ match wk_scope w with Some sc => ps_subst sc | None => ∅ end, w).

Definition scope_aliases : Q (gmap string string) := fun w =>
  mret (match wk_scope w with Some sc => ps_aliases sc | None => ∅ end, w).

Definition has_scope : Q bool := fun w => mret (match wk_scope w with Some _ => true | None => false end, w).

(** ** Statements *)

Definition st_empty : stmt_node := stmt_node_default.

Definition st_of (k : stmt_kind) (stmts : list index) : stmt_node :=
  mk_stmt k ck_normal 0 SIZE_MAX SIZE_MAX [] [] stmts [] [] [] SIZE_MAX SIZE_MAX SIZE_MAX.

Definition st_block (stmts : list index) : stmt_node := st_of sk_block stmts.

Definition st_assign (nonblocking : bool) (delay : Z) (lhs root : index) : stmt_node :=
  mk_stmt (if nonblocking then sk_nonblocking_assign else sk_blocking_assign) ck_normal delay lhs root
    [] [] [] [] [] [] SIZE_MAX SIZE_MAX SIZE_MAX.

Definition st_assign_vec (nonblocking : bool) (delay : Z) (lhs roots : list index) : stmt_node :=
  mk_stmt (if nonblocking then sk_nonblocking_assign_vec else sk_blocking_assign_vec) ck_normal delay SIZE_MAX SIZE_MAX
    lhs roots [] [] [] [] SIZE_MAX SIZE_MAX SIZE_MAX.

Definition st_if (cond : index) (stmts else_stmts : list index) : stmt_node :=
  mk_stmt sk_if_stmt ck_normal 0 SIZE_MAX cond [] [] stmts else_stmts [] [] SIZE_MAX SIZE_MAX SIZE_MAX.

Definition st_case (ck : case_kind) (roots : list index) (items : list case_item) : stmt_node :=
  mk_stmt sk_case_stmt ck 0 SIZE_MAX SIZE_MAX [] [] [] [] roots items SIZE_MAX SIZE_MAX SIZE_MAX.

Definition st_loop (k : stmt_kind) (cond init step body : index) : stmt_node :=
  mk_stmt k ck_normal 0 SIZE_MAX cond [] [] [] [] [] [] init step body.

(** [for(sig : sigs) if(sig < signal_is_reg.size()) signal_is_reg[sig] = true] *)
Definition mark_regs (sigs : list index) : L () :=
  update_module (fun m => Some (with_is_reg m
    (foldl (fun l sig => match sig with Some i => <[i := true]> l | None => l end) (cm_signal_is_reg m) sigs))).

(** The same for signal_is_signed. *)
Definition mark_signed (sigs : list index) : L () :=
  update_module (fun m => Some (with_is_signed m
    (foldl (fun l sig => match sig with Some i => <[i := true]> l | None => l end) (cm_signal_is_signed m) sigs))).

(** A signal with its flags, each set only where asked for. *)
Definition declare_scalar (name : string) (is_reg is_signed : bool) : L index :=
  sig ← get_or_create_signal name;
  _ ← (if is_reg then mark_regs [Some sig] else mret ());
  _ ← (if is_signed then mark_signed [Some sig] else mret ());
  mret (Some sig).

(** The assignment of a value to one signal or to the signals of a vector. *)
Definition assign_scalar (nonblocking : bool) (delay : Z) (sig : index) (v : expr_value) : Q index :=
  rhs1 ← ll (resize v 1 false);
  _ ← ll (mark_regs [sig]);
  add_stmt (st_assign nonblocking delay sig (xv_scalar_root rhs1)).

Definition assign_vector (nonblocking : bool) (delay : Z) (sigs : list index) (v : expr_value) : Q index :=
  rhs_bits ← ll (resize_to_vector v (length sigs) (xv_is_signed v));
  _ ← ll (mark_regs sigs);
  add_stmt (st_assign_vec nonblocking delay sigs rhs_bits).

(** ** Tokens that are skipped *)

(** [while(!eof() && depth > 0)] over opening and closing symbols. *)
Fixpoint balanced_loop (fuel : nat) (opening closing : string) (depth : nat) : P () :=
  match fuel with
  | O => out_of_fuel
  | S fuel =>
      if bool_decide (depth = 0) then mret ()
      else when eof then mret ()
      else
        t ← consume;
        balanced_loop fuel opening closing
          (if is_symbol opening t then S depth else if is_symbol closing t then pred depth else depth)
  end.

(** What follows an opening parenthesis, up to the one that closes it. *)
Definition skip_parens : P () := fueled (fun n => balanced_loop n "(" ")" 1).

(** [if(!accept_sym(';')) { err(msg); skip_until_semicolon(); }] *)
Definition expect_semicolon (msg : string) : P () :=
  when accept_symbol ";" then mret () else _ ← err msg; skip_until_semicolon.

(** ** Left-hand sides *)

Inductive lvalue_kind :=
  lk_scalar | lk_vector | lk_dynamic_bit_select | lk_dynamic_indexed_part_select | lk_dynamic_part_select.

#[global] Instance lvalue_kind_eq_dec : EqDecision lvalue_kind.
Proof. solve_decision. Defined.

(** [lv_base_msb] and [lv_base_lsb] are [base_desc]. *)
Record lvalue_ref := mk_lvalue {
  lv_k : lvalue_kind;
  lv_scalar_signal : index;
  lv_vector_signals : list index;
  lv_base_msb : Z;
  lv_base_lsb : Z;
  lv_index_expr : expr_value;
  lv_indexed_plus : bool;
  lv_indexed_width : nat;
  lv_msb_expr : expr_value;
  lv_lsb_expr : expr_value;
}.

Definition lvalue_default : lvalue_ref :=
  mk_lvalue lk_scalar SIZE_MAX [] 0 0 expr_value_default true 0 expr_value_default expr_value_default.

Definition lv_scalar (sig : index) : lvalue_ref :=
  mk_lvalue lk_scalar sig [] 0 0 expr_value_default true 0 expr_value_default expr_value_default.

Definition lv_vector (sigs : list index) : lvalue_ref :=
  mk_lvalue lk_vector SIZE_MAX sigs 0 0 expr_value_default true 0 expr_value_default expr_value_default.

(** An [int] result; [None] is a signed overflow. *)
Definition int_result (z : Z) : option Z := if int_ok z then Some z else None.

(** [for(idx = msb; ...)] from [msb] to [lsb], up or down: the loop variable
    runs one past the last index. *)
Definition select_indices (msb lsb : Z) : option (list Z) :=
  if bool_decide (lsb <= msb)%Z
  then _ ← int_result (lsb - 1); Some ((fun k => msb - Z.of_nat k)%Z <$> seq 0 (Z.to_nat (msb - lsb + 1)))
  else _ ← int_result (lsb + 1); Some ((fun k => msb + Z.of_nat k)%Z <$> seq 0 (Z.to_nat (lsb - msb + 1))).

(** The signals of a selection with constant bounds. *)
Definition select_signals (base : string) (msb lsb : Z) (mark_reg : bool) : L (list index) :=
  indices ← unchecked (select_indices msb lsb);
  sigs ← lmap (fun idx => get_or_create_vector_bit base idx mark_reg) indices;
  _ ← (if mark_reg then mark_regs sigs else mret ());
  mret sigs.

(** The bounds of [start +: w] and [start -: w]. *)
Definition indexed_bounds (plus desc : bool) (start w : Z) : option (Z * Z) :=
  if plus then
    e ← int_result (start + (w - 1));
    Some (if desc then (e, start) else (start, e))
  else
    e ← int_result (start - (w - 1));
    Some (if desc then (start, e) else (e, start)).

(** The declared vector of a dynamic selection: [None] if there is none with
    more than one bit. *)
Definition dynamic_base (base : string) : L (option vector_desc) :=
  m ← get_module;
  match cm_vectors m !! base with
  | None => mret None
  | Some vd =>
      w ← unchecked (vector_width (vd_msb vd) (vd_lsb vd));
      mret (if bool_decide (w <= 1) then None else Some vd)
  end.

(** A dynamic selection in the vector [base], or else the signal [base]. *)
Definition dynamic_lvalue (base msg : string) (mark_reg mark_fallback : bool) (mk : vector_desc -> lvalue_ref) : P lvalue_ref :=
  vd ← lift (dynamic_base base);
  match vd : option vector_desc with
  | None =>
      _ ← err msg;
      sig ← lift (get_or_create_signal base);
      _ ← lift (if mark_fallback then mark_regs [Some sig] else mret ());
      mret (lv_scalar (Some sig))
  | Some vd =>
      _ ← lift (if mark_reg then mark_regs (vd_bits vd) else mret ());
      mret (mk vd)
  end.

Section Parser.
Context (inline_call : string -> function_def -> list expr_value -> P expr_value).

Abbreviation parse_expr := (parse_expr inline_call).

Section Lvalue.
Context (mark_reg allow_vector : bool) (aliases : gmap string string) (env : parse_env).

(** [base[start +: w]] and [base[start -: w]] after the operator. *)
Definition lvalue_indexed (base : string) (first_e : expr_value) (plus : bool) : P lvalue_ref :=
  _ ← (if allow_vector then mret () else err "indexed part-select lvalue is not allowed here");
  w_e ← parse_expr env;
  w ← lift (try_eval_const_int w_e);
  let w := match w : option Z with Some w => if bool_decide (0 < w)%Z then w else 0%Z | None => 0%Z end in
  _ ← (if bool_decide (0 < w)%Z then mret ()
       else err "indexed part-select width must be a positive constant integer expression in this subset");
  _ ← expect_symbol "]" "expected ']'";
  start ← (if bool_decide (0 < w)%Z then lift (try_eval_const_int first_e) else mret None);
  match start : option Z with
  | Some start =>
      m ← lift get_module;
      let desc := match cm_vectors m !! base with Some vd => bool_decide (vd_lsb vd <= vd_msb vd)%Z | None => true end in
      '(msb, lsb) ← lift (unchecked (indexed_bounds plus desc start w));
      sigs ← lift (select_signals base msb lsb mark_reg);
      mret (lv_vector sigs)
  | None =>
      dynamic_lvalue base "indexed part-select requires a declared vector" mark_reg false (fun vd =>
        mk_lvalue lk_dynamic_indexed_part_select SIZE_MAX (vd_bits vd) (vd_msb vd) (vd_lsb vd) first_e plus (Z.to_nat w)
          expr_value_default expr_value_default)
  end.

(** [base[msb:lsb]] after the colon. *)
Definition lvalue_part (base : string) (first_e : expr_value) : P lvalue_ref :=
  _ ← (if allow_vector then mret () else err "part-select lvalue is not allowed here");
  lsb_e ← parse_expr env;
  _ ← expect_symbol "]" "expected ']'";
  msb ← lift (try_eval_const_int first_e);
  lsb ← lift (try_eval_const_int lsb_e);
  match msb : option Z, lsb : option Z with
  | Some msb, Some lsb =>
      _ ← lift (unchecked (vector_width msb lsb));
      sigs ← lift (select_signals base msb lsb mark_reg);
      mret (lv_vector sigs)
  | _, _ =>
      dynamic_lvalue base "dynamic part-select requires a declared vector" mark_reg mark_reg (fun vd =>
        mk_lvalue lk_dynamic_part_select SIZE_MAX (vd_bits vd) (vd_msb vd) (vd_lsb vd) expr_value_default true 0 first_e lsb_e)
  end.

(** [base[idx]] *)
Definition lvalue_bit (base : string) (first_e : expr_value) : P lvalue_ref :=
  _ ← expect_symbol "]" "expected ']'";
  idx ← lift (try_eval_const_int first_e);
  match idx : option Z with
  | Some idx =>
      sig ← lift (get_or_create_vector_bit base idx mark_reg);
      _ ← lift (if mark_reg then mark_regs [sig] else mret ());
      mret (lv_scalar sig)
  | None =>
      dynamic_lvalue base "dynamic bit-select requires a declared vector" mark_reg mark_reg (fun vd =>
        mk_lvalue lk_dynamic_bit_select SIZE_MAX (vd_bits vd) (vd_msb vd) (vd_lsb vd) first_e true 0
          expr_value_default expr_value_default)
  end.

(** A name without selection: a whole vector where allowed, or a signal. *)
Definition lvalue_whole (base : string) : L lvalue_ref :=
  m ← get_module;
  vd ← match (if allow_vector then cm_vectors m !! base else None) with
       | Some vd =>
           if bool_decide (vd_bits vd = []) then mret None
           else w ← unchecked (vector_width (vd_msb vd) (vd_lsb vd)); mret (if bool_decide (1 < w) then Some vd else None)
       | None => mret None
       end;
  match vd : option vector_desc with
  | Some vd => _ ← (if mark_reg then mark_regs (vd_bits vd) else mret ()); mret (lv_vector (vd_bits vd))
  | None =>
      sig ← get_or_create_signal base;
      _ ← (if mark_reg then mark_regs [Some sig] else mret ());
      mret (lv_scalar (Some sig))
  end.

(** A name with its qualification and selection. *)
Definition lvalue_named : P (bool * lvalue_ref) :=
  name ← expect_ident "expected identifier";
  if bool_decide (name = ""%string) then mret (false, lvalue_default)
  else
    q ← fueled (fun n => qualified_loop n (mk_qualified (default name (aliases !! name)) false false 0 ""));
    let base := q_name q in
    lv ← (when accept_symbol "[" then
            first_e ← parse_expr env;
            when accept_symbol "+:" then lvalue_indexed base first_e true
            else when accept_symbol "-:" then lvalue_indexed base first_e false
            else when accept_symbol ":" then lvalue_part base first_e
            else lvalue_bit base first_e
          else lift (lvalue_whole base));
    mret (true, lv).
End Lvalue.

(** [while(!eof() && !accept_sym(',') && !accept_sym('}')) consume()] *)
Fixpoint skip_item_loop (fuel : nat) : P () :=
  match fuel with
  | O => out_of_fuel
  | S fuel =>
      when eof then mret ()
      else when accept_symbol "," then mret ()
      else when accept_symbol "}" then mret ()
      else _ ← consume; skip_item_loop fuel
  end.

(** The loop over the parts of [{a, b, ...}]: whether all were right, whether
    there was one, and the signals. *)
Fixpoint lvalue_parts_loop (part : P (bool * lvalue_ref)) (fuel : nat) (ok any : bool) (sigs : list index)
  : P (bool * bool * list index) :=
  match fuel with
  | O => out_of_fuel
  | S fuel =>
      when eof then mret (ok, any, sigs)
      else when accept_symbol "}" then mret (ok, any, sigs)
      else
        '(found, lv) ← part;
        if negb found then
          _ ← fueled skip_item_loop;
          when accept_symbol "}" then mret (false, any, sigs) else lvalue_parts_loop part fuel false any sigs
        else
          '(ok, sigs) ← (match lv_k lv with
                         | lk_scalar =>
                             mret (ok, match lv_scalar_signal lv with Some _ => sigs ++ [lv_scalar_signal lv] | None => sigs end)
                         | lk_vector => mret (ok, sigs ++ lv_vector_signals lv)
                         | _ => _ ← err "unsupported lvalue kind inside concatenation in this subset"; mret (false, sigs)
                         end);
          when accept_symbol "}" then mret (ok, true, sigs)
          else when accept_symbol "," then lvalue_parts_loop part fuel ok true sigs
          else
            _ ← err "expected ',' or '}' in concatenation lvalue";
            _ ← skip_until "}";
            mret (ok, true, sigs)
  end.

(** The recursion takes a brace; the result is kept when it is [false], too. *)
Fixpoint lvalue_fuel (fuel : nat) (mark_reg allow_vector : bool) (aliases : gmap string string) (env : parse_env)
  : P (bool * lvalue_ref) :=
  match fuel with
  | O => out_of_fuel
  | S fuel =>
      when accept_symbol "{" then
        _ ← (if allow_vector then mret () else err "concatenation lvalue is not allowed here");
        '(ok, any, sigs) ← fueled (fun n => lvalue_parts_loop (lvalue_fuel fuel mark_reg true aliases env) n true false []);
        if negb any then _ ← err "empty concatenation lvalue is not allowed"; mret (false, lv_vector sigs)
        else if bool_decide (sigs = []) then _ ← err "concatenation lvalue has no bits"; mret (false, lv_vector sigs)
        else mret (ok, lv_vector sigs)
      else lvalue_named mark_reg allow_vector aliases env
  end.

Definition parse_lvalue_ref (mark_reg allow_vector : bool) (aliases : gmap string string) (env : parse_env)
  : P (bool * lvalue_ref) :=
  fueled (fun n => lvalue_fuel n mark_reg allow_vector aliases env).

(** The left-hand side of a statement, under its scope. *)
Definition stmt_lvalue : Q (bool * lvalue_ref) :=
  aliases ← scope_aliases;
  env ← scope_env;
  lp (parse_lvalue_ref true true aliases env).

(** An expression under the scope of the statement. *)
Definition stmt_expr : Q expr_value := env ← scope_env; lp (parse_expr env).

(** ** Delays *)

Definition parse_delay_ticks : P Z :=
  when accept_symbol "(" then
    v ← parse_expr no_env;
    _ ← expect_symbol ")" "expected ')' after delay expression";
    out ← lift (try_eval_const_uint64 v);
    match out : option Z with
    | Some out => mret out
    | None => _ ← err "delay expression must be a constant non-negative integer in this subset"; mret 0%Z
    end
  else
    t ← peek;
    if negb (bool_decide (tok_kind t = tk_number)) then _ ← err "expected integer delay after '#'"; mret 0%Z
    else
      match parse_dec_int (String.list_ascii_of_string (tok_text t)) with
      | Some v =>
          if bool_decide (v < 0)%Z then _ ← err "expected non-negative integer delay after '#'"; _ ← consume; mret 0%Z
          else _ ← consume; mret v
      | None => _ ← err "expected non-negative integer delay after '#'"; _ ← consume; mret 0%Z
      end.

(** [if(delay != 0) err(msg)] *)
Definition no_delay (delay : Z) (msg : string) : P () := if bool_decide (delay = 0)%Z then mret () else err msg.

(** ** Declarations in procedural blocks *)

(** [signed] and [unsigned], once. *)
Definition accept_sign (is_signed : bool) : P bool :=
  when accept_kw "signed" then mret true else when accept_kw "unsigned" then mret false else mret is_signed.

(** A block of the statements that initialise the names of a declaration. *)
Definition declaration_block (init_stmts : list index) : Q index :=
  if bool_decide (init_stmts = []) then add_stmt st_empty else add_stmt (st_block init_stmts).

(** The names of a declaration, separated by commas: [declare] is told the name
    and returns the statement that initialises it, if it has one. *)
Fixpoint names_loop (fuel : nat) (what : string) (declare : string -> Q (option index)) (init_stmts : list index) : Q index :=
  match fuel with
  | O => lp out_of_fuel
  | S fuel =>
      name ← lp (expect_ident what);
      if bool_decide (name = ""%string) then add_stmt st_empty
      else
        init ← declare name;
        let init_stmts := match init : option index with Some i => init_stmts ++ [i] | None => init_stmts end in
        whenq accept_symbol "," then names_loop fuel what declare init_stmts
        else
          _ ← lp (expect_semicolon "expected ';'");
          declaration_block init_stmts
  end.

(** [name = expr]: the assignment of the initial value. *)
Definition initializer (env : Q parse_env) (assign : expr_value -> Q index) : Q (option index) :=
  whenq accept_symbol "=" then
    env ← env;
    rhs ← lp (parse_expr env);
    i ← assign rhs;
    mret (Some i)
  else mret None.

(** The signals of a declared name: its vector where there is a range. *)
Definition declare_bits (r : option range_desc) (name : string) (is_reg is_signed : bool) : L (list index) :=
  match r with
  | Some r => vd ← declare_vector_range true name (rd_msb r) (rd_lsb r) is_reg is_signed; mret (vd_bits vd)
  | None => sig ← declare_scalar name is_reg is_signed; mret [sig]
  end.

(** The assignment to declared signals. *)
Definition assign_declared (r : option range_desc) (bits : list index) (v : expr_value) : Q index :=
  match r with
  | Some _ => assign_vector false 0 bits v
  | None => sig ← ll (unchecked (head bits)); assign_scalar false 0 sig v
  end.

(** The range of a type, or [None]. *)
Definition type_range : P (option range_desc) := accept_range parse_expr.

Definition parse_wire_list_stmt (is_reg : bool) : Q index :=
  is_signed ← lp (accept_sign false);
  r ← lp type_range;
  fueled_q (fun n => names_loop n "expected identifier in declaration" (fun name =>
    bits ← ll (declare_bits r name is_reg is_signed);
    whenq accept_symbol "=" then
      if negb is_reg then
        _ ← lp (err "wire declaration initializer is not supported in this subset");
        _ ← lp (parse_expr no_env);
        mret None
      else
        rhs ← lp (parse_expr no_env);
        i ← assign_declared r bits rhs;
        mret (Some i)
    else mret None) []).

(** The value of declared signals. *)
Definition declared_value (r : option range_desc) (bits : list index) (is_signed : bool) : L expr_value :=
  match r with
  | Some r => roots ← lmap make_signal_root bits; make_vector_with_range roots (rd_msb r) (rd_lsb r) is_signed
  | None => sig ← unchecked (head bits); root ← make_signal_root sig; mret (make_scalar root 0 0 is_signed)
  end.

(** A name of a block: it is declared under a name of its own and bound. *)
Definition declare_scoped (r : option range_desc) (visible : string) (is_reg is_signed : bool) : Q (list index) :=
  internal ← ll (make_scoped_local_name visible);
  bits ← ll (declare_bits r internal is_reg is_signed);
  ev ← ll (declared_value r bits is_signed);
  _ ← modify_scope (fun sc => bind sc visible internal ev);
  mret bits.

Definition parse_wire_list_scoped (is_reg : bool) : Q index :=
  is_signed ← lp (accept_sign false);
  r ← lp type_range;
  fueled_q (fun n => names_loop n "expected identifier in declaration" (fun visible =>
    bits ← declare_scoped r visible is_reg is_signed;
    initializer scope_env (assign_declared r bits)) []).

Definition parse_packed_int_list_stmt (msb lsb : Z) (is_signed_default : bool) : Q index :=
  is_signed ← lp (accept_sign is_signed_default);
  let r := Some (mk_range true msb lsb) in
  fueled_q (fun n => names_loop n "expected identifier in integer declaration" (fun name =>
    bits ← ll (declare_bits r name true is_signed);
    initializer (mret no_env) (assign_declared r bits)) []).

Definition parse_packed_int_list_scoped (msb lsb : Z) (is_signed_default : bool) : Q index :=
  is_signed ← lp (accept_sign is_signed_default);
  let r := Some (mk_range true msb lsb) in
  fueled_q (fun n => names_loop n "expected identifier in integer declaration" (fun visible =>
    bits ← declare_scoped r visible true is_signed;
    initializer scope_env (assign_declared r bits)) []).

Definition parse_integer_list_scoped : Q index := parse_packed_int_list_scoped 31 0 true.

(** With or without a scope. *)
Definition wire_declaration (delay : Z) (is_reg : bool) : Q index :=
  _ ← lp (no_delay delay "delay before declaration is not supported");
  scoped ← has_scope;
  if scoped : bool then parse_wire_list_scoped is_reg else parse_wire_list_stmt is_reg.

Definition int_declaration (delay : Z) (msb : Z) : Q index :=
  _ ← lp (no_delay delay "delay before declaration is not supported");
  scoped ← has_scope;
  if scoped : bool then parse_packed_int_list_scoped msb 0 true else parse_packed_int_list_stmt msb 0 true.

(** ** Assignments *)

Inductive compound_kind :=
  cp_assign | cp_or_assign | cp_and_assign | cp_xor_assign | cp_add_assign | cp_sub_assign | cp_mul_assign
| cp_div_assign | cp_mod_assign | cp_shl_assign | cp_shr_assign.

#[global] Instance compound_kind_eq_dec : EqDecision compound_kind.
Proof. solve_decision. Defined.

Definition apply_compound (op : compound_kind) (cur arg : expr_value) : L expr_value :=
  match op with
  | cp_assign => mret arg
  | cp_or_assign => bitwise_binary cur arg ek_binary_or
  | cp_and_assign => bitwise_binary cur arg ek_binary_and
  | cp_xor_assign => bitwise_binary cur arg ek_binary_xor
  | cp_add_assign => arith_add cur arg
  | cp_sub_assign => arith_sub cur arg
  | cp_mul_assign => arith_mul cur arg
  | cp_div_assign => arith_div cur arg
  | cp_mod_assign => arith_mod cur arg
  | cp_shl_assign => shift_left cur arg
  | cp_shr_assign => shift_right cur arg
  end.

(** The value of one signal. *)
Definition signal_of (sig : index) : L expr_value :=
  m ← get_module;
  let sgn := default false (vget (cm_signal_is_signed m) sig) in
  root ← make_signal_root sig;
  mret (make_scalar root 0 0 sgn).

Definition make_lhs_value (lhs : lvalue_ref) : L expr_value :=
  match lv_k lhs with
  | lk_vector =>
      roots ← lmap make_signal_root (lv_vector_signals lhs);
      m ← get_module;
      let sgn := match lv_vector_signals lhs with
                 | [] => false
                 | front :: _ => default false (vget (cm_signal_is_signed m) front)
                 end in
      make_vector_with_range roots (Z.of_nat (length (lv_vector_signals lhs)) - 1) 0 sgn
  | _ => signal_of (lv_scalar_signal lhs)
  end.

(** [cur op rhs]; [++] and [--] have no right-hand side and take 1. *)
Definition compound_value (lhs : lvalue_ref) (op : compound_kind) (rhs : option expr_value) : L expr_value :=
  cur ← make_lhs_value lhs;
  rhs ← (match rhs with Some rhs => mret rhs | None => make_uint_literal 1 (width cur) end);
  apply_compound op cur rhs.

(** The assignment to a signal or to a whole vector. *)
Definition assign_lvalue (lhs : lvalue_ref) (nonblocking : bool) (delay : Z) (res : expr_value) : Q index :=
  match lv_k lhs with
  | lk_vector => assign_vector nonblocking delay (lv_vector_signals lhs) res
  | _ => assign_scalar nonblocking delay (lv_scalar_signal lhs) res
  end.

(** Two equal one-character symbols next to each other. *)
Definition next_two (sym : string) : P bool := fun ts s =>
  match ts with
  | t0 :: t1 :: _ => Ok (is_symbol sym t0 && is_symbol sym t1, ts, s)
  | _ => Ok (false, ts, s)
  end.

Definition accept_two (sym : string) : P bool :=
  b ← next_two sym; if b : bool then _ ← consume; _ ← consume; mret true else mret false.

(** *** The clauses of a for loop *)

(** The operator and the right-hand side of a clause that is not [++] or
    [--]: the symbols in the order they are tried, each with its message. *)
Definition for_operators : list (string * (string * compound_kind)) :=
  [("|", ("expected '|='", cp_or_assign)); ("&", ("expected '&='", cp_and_assign)); ("^", ("expected '^='", cp_xor_assign))]%string.

Definition for_operators2 : list (string * (string * compound_kind)) :=
  [("*", ("expected '*='", cp_mul_assign)); ("/", ("expected '/='", cp_div_assign)); ("%", ("expected '%='", cp_mod_assign));
   ("<<", ("expected '<<='", cp_shl_assign)); (">>", ("expected '>>='", cp_shr_assign))]%string.

(** [+=] and [++], [-=] and [--] after their first character: [None] as the
    right-hand side is [rhs_is_present = false]; on an error it is the empty
    value with a plain assignment. *)
Definition for_step (sym msg : string) (op : compound_kind) (env : parse_env) : P (compound_kind * option expr_value) :=
  when accept_symbol "=" then rhs ← parse_expr env; mret (op, Some rhs)
  else when accept_symbol sym then mret (op, None)
  else _ ← err msg; mret (cp_assign, Some expr_value_default).

Definition for_operation (env : parse_env) : P (compound_kind * option expr_value) :=
  let operator (c : option (string * compound_kind)) (rest : P (compound_kind * option expr_value)) :=
    match c with
    | Some (msg, op) => _ ← expect_symbol "=" msg; rhs ← parse_expr env; mret (op, Some rhs)
    | None => rest
    end in
  when accept_two "+" then mret (cp_add_assign, None)
  else when accept_two "-" then mret (cp_sub_assign, None)
  else when accept_symbol "=" then rhs ← parse_expr env; mret (cp_assign, Some rhs)
  else
    c ← accept_first for_operators;
    operator c
      (when accept_symbol "+" then for_step "+" "expected '+=' or '++'" cp_add_assign env
       else when accept_symbol "-" then for_step "-" "expected '-=' or '--'" cp_sub_assign env
       else
         c ← accept_first for_operators2;
         operator c (_ ← err "expected assignment operator in for-loop clause"; mret (cp_assign, None))).

(** [++] or [--] in front of a clause. *)
Definition for_prefix : P (option compound_kind) :=
  when accept_symbol "+" then _ ← expect_symbol "+" "expected '++'"; mret (Some cp_add_assign)
  else when accept_symbol "-" then _ ← expect_symbol "-" "expected '--'"; mret (Some cp_sub_assign)
  else mret None.

(** The assignment of a clause. *)
Definition for_assign (lhs : lvalue_ref) (op : compound_kind) (rhs : option expr_value) : Q index :=
  if bool_decide (lv_k lhs = lk_scalar) || bool_decide (lv_k lhs = lk_vector) then
    res ← ll (compound_value lhs op rhs);
    assign_lvalue lhs false 0 res
  else
    _ ← lp (err "for-loop init/step must assign a scalar or whole vector in this subset");
    add_stmt st_empty.

(** [parse_for_stmt] after its own test for the terminator. *)
Definition parse_for_assignment (terminator : string) : Q index :=
  prefix ← lp for_prefix;
  '(found, lhs) ← stmt_lvalue;
  if negb found then _ ← lp (skip_until terminator); mret SIZE_MAX
  else
    env ← scope_env;
    '(op, rhs) ← lp (match prefix : option compound_kind with Some op => mret (op, None) | None => for_operation env end);
    _ ← lp (expect_symbol terminator "expected terminator in for-loop header");
    for_assign lhs op rhs.

Definition parse_for_stmt (terminator : string) : Q index :=
  whenq accept_symbol terminator then mret SIZE_MAX
  else
    scoped ← has_scope;
    if bool_decide (terminator = ";"%string) && scoped then
      whenq accept_kw "int" then parse_integer_list_scoped
      else whenq accept_kw "integer" then parse_integer_list_scoped
      else parse_for_assignment terminator
    else parse_for_assignment terminator.
(** ** Statements *)

(** What a statement is parsed under: [return_target] is the variable that the
    value of [return] is assigned to, empty if there is none. *)
Record stmt_env := mk_stmt_env { se_allow_nonblocking : bool; se_return_target : string }.

(** Parses the statements of an inlined task. *)
Context (task_body : stmt_env -> string -> Q (list index)).

Section Statement.
(** The recursive call. *)
Context (self : Q index) (env : stmt_env).

(** [(expr)] after a keyword. *)
Definition paren_expr (open_msg close_msg : string) : Q expr_value :=
  _ ← lp (expect_symbol "(" open_msg);
  v ← stmt_expr;
  _ ← lp (expect_symbol ")" close_msg);
  mret v.

(** A condition: its bit is built before the parenthesis is closed. *)
Definition paren_cond (open_msg close_msg : string) : Q index :=
  _ ← lp (expect_symbol "(" open_msg);
  v ← stmt_expr;
  cond ← ll (to_bool_root v);
  _ ← lp (expect_symbol ")" close_msg);
  mret cond.

(** *** return *)

Definition return_value (rv : expr_value) : Q index :=
  if bool_decide (se_return_target env = ""%string) then add_stmt (st_of sk_return_stmt [])
  else
    let rt_name := se_return_target env in
    m ← ll get_module;
    asn ← (match (vd ← cm_vectors m !! rt_name; if bool_decide (vd_bits vd = []) then None else Some vd) with
           | Some vd => assign_vector false 0 (vd_bits vd) rv
           | None => sig ← ll (get_or_create_signal rt_name); assign_scalar false 0 (Some sig) rv
           end);
    ret ← add_stmt (st_of sk_return_stmt []);
    add_stmt (st_block [asn; ret]).

Definition return_statement (delay : Z) : Q index :=
  _ ← lp (no_delay delay "delay before return is not supported");
  whenq accept_symbol ";" then add_stmt (st_of sk_return_stmt [])
  else
    rv ← stmt_expr;
    _ ← lp (expect_semicolon "expected ';' after return");
    return_value rv.

(** [break] and [continue]. *)
Definition jump_statement (delay : Z) (word : string) (k : stmt_kind) : Q index :=
  _ ← lp (no_delay delay ("delay before " +:+ word +:+ " is not supported"));
  _ ← lp (expect_semicolon ("expected ';' after " +:+ word));
  add_stmt (st_of k []).

(** *** Blocks and branches *)

(** [: label] *)
Definition optional_label (msg : string) : P () :=
  when accept_symbol ":" then _ ← expect_ident msg; mret () else mret ().

Fixpoint block_loop (fuel : nat) (stmts : list index) : Q (list index) :=
  match fuel with
  | O => lp out_of_fuel
  | S fuel =>
      whenq eof then mret stmts
      else whenq accept_kw "end" then mret stmts
      else i ← self; block_loop fuel (stmts ++ [i])
  end.

Definition block_statement (delay : Z) : Q index :=
  _ ← lp (no_delay delay "delay before begin/end block is not supported");
  _ ← modify_scope push_frame;
  _ ← lp (optional_label "expected block label after ':'");
  stmts ← fueled_q (fun n => block_loop n []);
  _ ← lp (optional_label "expected block label after end ':'");
  _ ← modify_scope pop_frame;
  add_stmt (st_block stmts).

Definition if_statement (delay : Z) : Q index :=
  _ ← lp (no_delay delay "delay before if is not supported");
  cond ← paren_cond "expected '(' after if" "expected ')' after if condition";
  t ← self;
  e ← (whenq accept_kw "else" then e ← self; mret [e] else mret []);
  add_stmt (st_if cond [t] e).

(** *** Loops *)

Definition repeat_statement (delay : Z) : Q index :=
  _ ← lp (no_delay delay "delay before repeat is not supported");
  count_v ← paren_expr "expected '(' after repeat" "expected ')' after repeat count";
  count ← ll (try_eval_const_uint64 count_v);
  count ← lp (match count : option Z with
              | Some c => mret c
              | None => _ ← err "repeat count must be a constant integer expression in this subset"; mret 0%Z
              end);
  let count := if bool_decide (4096 < count)%Z then 4096%Z else count in
  body ← self;
  if bool_decide (count = 0)%Z then add_stmt st_empty
  else add_stmt (st_block (replicate (Z.to_nat count) body)).

Definition foreach_statement (delay : Z) : Q index :=
  _ ← lp (no_delay delay "delay before foreach is not supported");
  _ ← lp (expect_symbol "(" "expected '(' after foreach");
  _ ← lp skip_parens;
  self.

Definition do_while_statement (delay : Z) : Q index :=
  _ ← lp (no_delay delay "delay before do-while is not supported");
  body ← self;
  _ ← lp (when accept_kw "while" then mret () else err "expected 'while' after do body");
  cond ← paren_cond "expected '(' after while" "expected ')' after while condition";
  _ ← lp (expect_symbol ";" "expected ';' after do-while");
  add_stmt (st_loop sk_do_while_stmt cond SIZE_MAX SIZE_MAX body).

Definition while_statement (delay : Z) : Q index :=
  _ ← lp (no_delay delay "delay before while is not supported");
  cond ← paren_cond "expected '(' after while" "expected ')' after while condition";
  body ← self;
  add_stmt (st_loop sk_while_stmt cond SIZE_MAX SIZE_MAX body).

Definition for_condition : Q index :=
  whenq accept_symbol ";" then ll (make_literal true_state)
  else
    v ← stmt_expr;
    cond ← ll (to_bool_root v);
    _ ← lp (expect_symbol ";" "expected ';' after for-loop condition");
    mret cond.

Definition for_statement (delay : Z) : Q index :=
  _ ← lp (no_delay delay "delay before for is not supported");
  _ ← lp (expect_symbol "(" "expected '(' after for");
  _ ← modify_scope push_frame;
  init ← (whenq accept_symbol ";" then mret SIZE_MAX else parse_for_stmt ";");
  cond ← for_condition;
  step ← (whenq accept_symbol ")" then mret SIZE_MAX else parse_for_stmt ")");
  body ← self;
  _ ← modify_scope pop_frame;
  add_stmt (st_loop sk_for_stmt cond init step body).

(** *** case *)

Fixpoint matches_loop (fuel : nat) (matches : list expr_value) : Q (list expr_value) :=
  match fuel with
  | O => lp out_of_fuel
  | S fuel =>
      v ← stmt_expr;
      whenq accept_symbol "," then matches_loop fuel (matches ++ [v]) else mret (matches ++ [v])
  end.

(** An item for each value that is matched. *)
Definition match_items (w : nat) (body : index) (matches : list expr_value) : L (list case_item) :=
  lmap (fun mv => roots ← resize_to_vector mv w (xv_is_signed mv); mret (mk_case_item false roots [body])) matches.

Fixpoint case_loop (fuel : nat) (w : nat) (items : list case_item) : Q (list case_item) :=
  match fuel with
  | O => lp out_of_fuel
  | S fuel =>
      whenq eof then mret items
      else whenq accept_kw "endcase" then mret items
      else whenq accept_kw "default" then
        _ ← lp (expect_symbol ":" "expected ':' after default");
        body ← self;
        case_loop fuel w (items ++ [mk_case_item true [] [body]])
      else
        matches ← fueled_q (fun n => matches_loop n []);
        _ ← lp (expect_symbol ":" "expected ':' after case item");
        body ← self;
        its ← ll (match_items w body matches);
        case_loop fuel w (items ++ its)
  end.

Definition case_statement (delay : Z) (ck : case_kind) : Q index :=
  _ ← lp (no_delay delay "delay before case is not supported");
  key_v ← paren_expr "expected '(' after case" "expected ')' after case expression";
  roots ← ll (match roots_of key_v with [] => x ← make_literal indeterminate_state; mret [x] | roots => mret roots end);
  items ← fueled_q (fun n => case_loop n (length roots) []);
  add_stmt (st_case ck roots items).

(** *** Calls *)

Record task_actual := mk_actual { ta_is_lvalue : bool; ta_lv : lvalue_ref; ta_ev : expr_value }.

Definition actual_default : task_actual := mk_actual false lvalue_default expr_value_default.

Definition is_out (d : param_dir) : bool := match d with pdir_output | pdir_inout => true | pdir_input => false end.

Definition is_in (d : param_dir) : bool := match d with pdir_input | pdir_inout => true | pdir_output => false end.

(** One argument of a call. *)
Definition parse_actual (pd : task_param) : Q task_actual :=
  if is_out (tp_dir pd) then
    '(found, lv) ← stmt_lvalue;
    _ ← lp (if found : bool then mret () else err "expected lvalue for task output/inout argument");
    _ ← lp (if bool_decide (lv_k lv = lk_scalar) || bool_decide (lv_k lv = lk_vector) then mret ()
            else err "task output/inout argument must be a scalar or whole vector in this subset");
    mret (mk_actual true lv expr_value_default)
  else
    ev ← stmt_expr;
    mret (mk_actual false lvalue_default ev).

(** The arguments of the parameters that are left; where a comma is missing the
    rest have none. *)
Fixpoint parse_actuals (first : bool) (params : list task_param) : Q (list task_actual) :=
  match params with
  | [] => mret []
  | pd :: params' =>
      whenq (if first then mret true else accept_symbol ",") then
        a ← parse_actual pd;
        l ← parse_actuals false params';
        mret (a :: l)
      else
        _ ← lp (err "expected ',' in task call");
        mret (replicate (length params) actual_default)
  end.

(** [$taskcall<n>__<task>__<visible>] with a number of its own. *)
Definition make_taskcall_name (task_name visible : string) : L string := fun s =>
  let m := ps_m s in
  let n := cm_inline_counter m in
  Some (("$taskcall" +:+ String.string_of_list_ascii (decimal n) +:+ "__" +:+ task_name +:+ "__" +:+ visible)%string,
        mk_pstate (with_decls m (cm_port_order m) (cm_port_decls m) (cm_param_order m) (cm_param_default_values m)
          (cm_param_is_local m) ((n + 1) mod 2 ^ 64)) (ps_errors s)).

(** The signals of a parameter of a call. *)
Record param_bind := mk_bind { pb_is_vector : bool; pb_sigs : list index }.

Definition declare_parameter (task_name : string) (pd : task_param) : L (string * param_bind * expr_value) :=
  internal ← make_taskcall_name task_name (tp_name pd);
  let w := if bool_decide (tp_width pd = 0) then 1 else tp_width pd in
  if bool_decide (w <= 1) then
    sig ← declare_scalar internal true (tp_is_signed pd);
    root ← make_signal_root sig;
    mret (internal, mk_bind false [sig], make_scalar root 0 0 (tp_is_signed pd))
  else
    let msb := if tp_has_range pd then tp_msb pd else (Z.of_nat w - 1)%Z in
    let lsb := if tp_has_range pd then tp_lsb pd else 0%Z in
    vd ← declare_vector_range true internal msb lsb true (tp_is_signed pd);
    roots ← lmap make_signal_root (vd_bits vd);
    v ← make_vector_with_range roots msb lsb (tp_is_signed pd);
    mret (internal, mk_bind true (vd_bits vd), v).

(** What an input or inout parameter starts with. *)
Definition actual_value (pd : task_param) (a : task_actual) : L expr_value :=
  match tp_dir pd with
  | pdir_input => mret (ta_ev a)
  | _ =>
      match lv_k (ta_lv a) with
      | lk_vector =>
          roots ← lmap make_signal_root (lv_vector_signals (ta_lv a));
          make_vector_with_range roots (Z.of_nat (length (lv_vector_signals (ta_lv a))) - 1) 0 false
      | _ => signal_of (lv_scalar_signal (ta_lv a))
      end
  end.

(** The parameters are declared, bound in the scope of the call and, where they
    are inputs, assigned: the statements that do so. *)
Fixpoint bind_parameters (task_name : string) (delay : Z) (params : list (task_param * task_actual)) (stmts : list index)
  : Q (list index) :=
  match params with
  | [] => mret stmts
  | (pd, a) :: params =>
      '(internal, b, pev) ← ll (declare_parameter task_name pd);
      _ ← modify_scope (fun sc => bind sc (tp_name pd) internal pev);
      if negb (is_in (tp_dir pd)) then bind_parameters task_name delay params stmts
      else
        rhs ← ll (actual_value pd a);
        i ← (if pb_is_vector b then
               rhs_bits ← ll (resize_to_vector rhs (length (pb_sigs b)) (xv_is_signed rhs));
               add_stmt (st_assign_vec false delay (pb_sigs b) rhs_bits)
             else
               sig ← ll (unchecked (head (pb_sigs b)));
               rhs1 ← ll (resize rhs 1 false);
               add_stmt (st_assign false delay sig (xv_scalar_root rhs1)));
        bind_parameters task_name delay params (stmts ++ [i])
  end.

(** Output and inout parameters are copied back. *)
Fixpoint copy_out (params : list (task_param * task_actual)) (stmts : list index) : Q (list index) :=
  match params with
  | [] => mret stmts
  | (pd, a) :: params =>
      env ← scope_env;
      match (if is_out (tp_dir pd) && (bool_decide (lv_k (ta_lv a) = lk_scalar) || bool_decide (lv_k (ta_lv a) = lk_vector))
             then pe_subst_idents env !! tp_name pd else None) with
      | None => copy_out params stmts
      | Some rhs_v => i ← assign_lvalue (ta_lv a) false 0 rhs_v; copy_out params (stmts ++ [i])
      end
  end.

(** Runs in the scope of a call, which starts with the names of the caller. *)
Definition in_call_scope {A} (c : Q A) : Q A := fun w =>
  let sc := match wk_scope w with
            | Some sc => mk_scope (ps_aliases sc) (ps_subst sc) [] []
            | None => scope_default
            end in
  '(a, w') ← c (mk_work (wk_arena w) (Some (push_frame sc)));
  mret (a, mk_work (wk_arena w') (wk_scope w)).

Definition task_call (delay : Z) (task_name : string) (td : task_def) : Q index :=
  _ ← lp consume;
  _ ← lp (accept_symbol "(");
  actuals ← parse_actuals true (td_params td);
  _ ← lp (when accept_symbol ")" then mret () else skip_until ")");
  _ ← lp (expect_semicolon "expected ';' after task call");
  let params := zip (td_params td) actuals in
  stmts ← in_call_scope (
    stmts ← bind_parameters task_name delay params [];
    body_stmts ← task_body (mk_stmt_env (se_allow_nonblocking env) "") (td_body_text td);
    body ← add_stmt (st_of sk_subprogram_block body_stmts);
    copy_out params (stmts ++ [body]));
  add_stmt (st_block stmts).

(** The next two tokens are a name and this symbol. *)
Definition name_then (sym : string) : P (option string) := fun ts s =>
  match ts with
  | t0 :: t1 :: _ =>
      Ok (if bool_decide (tok_kind t0 = tk_identifier) && is_symbol sym t1 then Some (tok_text t0) else None, ts, s)
  | _ => Ok (None, ts, s)
  end.

(** A call of a task of the module. *)
Definition find_task : Q (option (string * task_def)) :=
  name ← lp (name_then "(");
  m ← ll get_module;
  mret (name ← name; td ← cm_tasks m !! name; Some (name, td)).

(** [$finish;] *)
Definition system_task : P bool :=
  name ← name_then ";";
  match name : option string with
  | Some name =>
      if bool_decide (String.get 0 name = Some "$"%char) then _ ← consume; _ ← consume; mret true else mret false
  | None => mret false
  end.

(** [type'(expr);] *)
Definition cast_statement : P bool := looking (fun ts =>
  match ts with
  | t0 :: t1 :: t2 :: _ =>
      if bool_decide (tok_kind t0 = tk_identifier) && is_symbol "'" t1 && is_symbol "(" t2 then
        _ ← consume; _ ← consume; _ ← consume;
        _ ← skip_parens;
        _ ← expect_semicolon "expected ';' after cast statement";
        mret true
      else mret false
  | _ => mret false
  end).

(** The name of a call with [::] and [.]; [false] where no name follows. *)
Fixpoint call_name_loop (fuel : nat) : P bool :=
  match fuel with
  | O => out_of_fuel
  | S fuel =>
      let segment := t ← peek; if bool_decide (tok_kind t = tk_identifier) then _ ← consume; call_name_loop fuel else mret false in
      when accept_scope_resolution then segment
      else when accept_symbol "." then segment
      else mret true
  end.

(** [pos = saved] *)
Definition go_back (saved : list token) : P bool := fun _ s => Ok (false, saved, s).

(** A call after the first part of its name. *)
Definition call_rest (saved : list token) : P bool :=
  ok ← fueled call_name_loop;
  if ok : bool then
    when accept_symbol "(" then
      _ ← skip_parens;
      _ ← expect_semicolon "expected ';' after call statement";
      mret true
    else go_back saved
  else go_back saved.

(** A call of anything else, which is skipped; where it is none the position is
    restored. *)
Definition call_statement : P bool := looking (fun saved =>
  t ← peek;
  if negb (bool_decide (tok_kind t = tk_identifier)) then mret false else _ ← consume; call_rest saved).

(** *** Assignments *)

(** [|=] and the like: each symbol with its message and operator. *)
Definition assign_operators : list (string * (string * compound_kind)) :=
  [("|", ("expected '=' after '|'", cp_or_assign)); ("&", ("expected '=' after '&'", cp_and_assign));
   ("^", ("expected '=' after '^'", cp_xor_assign)); ("+", ("expected '=' after '+'", cp_add_assign));
   ("-", ("expected '=' after '-'", cp_sub_assign)); ("*", ("expected '=' after '*'", cp_mul_assign));
   ("/", ("expected '=' after '/'", cp_div_assign)); ("%", ("expected '=' after '%'", cp_mod_assign))]%string.

(** [accept_sym3(...) || (accept_sym2(...) && accept_sym('='))] *)
Definition accept_shift (sym : string) : P bool :=
  when accept_symbol (sym +:+ "=") then mret true
  else when accept_symbol sym then accept_symbol "="
  else mret false.

(** The operator of an assignment and whether it is nonblocking; [None] after
    an error. *)
Definition assign_operator : P (option (bool * compound_kind)) :=
  when accept_symbol "<=" then
    _ ← (if se_allow_nonblocking env then mret () else err "nonblocking assignments are not supported here");
    mret (Some (true, cp_assign))
  else when accept_shift "<<" then mret (Some (false, cp_shl_assign))
  else when accept_shift ">>" then mret (Some (false, cp_shr_assign))
  else
    c ← accept_first assign_operators;
    match c : option (string * compound_kind) with
    | Some (msg, op) =>
        when accept_symbol "=" then mret (Some (false, op)) else _ ← err msg; _ ← skip_until_semicolon; mret None
    | None =>
        when accept_symbol "=" then mret (Some (false, cp_assign))
        else _ ← err "expected assignment operator"; _ ← skip_until_semicolon; mret None
    end.

(** [++] or [--] at the position, without taking it. *)
Definition next_step : P (option compound_kind) :=
  plus ← next_two "+";
  if plus : bool then mret (Some cp_add_assign)
  else minus ← next_two "-"; mret (if minus : bool then Some cp_sub_assign else None).

(** What is assigned: nonblocking or not, the operator, the right-hand side. *)
Definition assign_rhs (prefix : option compound_kind) : Q (option (bool * compound_kind * option expr_value)) :=
  postfix ← lp next_step;
  match (match prefix, postfix with
         | Some cp_add_assign, _ | _, Some cp_add_assign => Some cp_add_assign
         | Some _, _ | _, Some _ => Some cp_sub_assign
         | None, None => None
         end) with
  | Some op =>
      _ ← lp (match postfix : option compound_kind with Some _ => _ ← consume; _ ← consume; mret () | None => mret () end);
      mret (Some (false, op, None))
  | None =>
      c ← lp assign_operator;
      match c : option (bool * compound_kind) with
      | None => mret None
      | Some (nonblocking, op) => rhs ← stmt_expr; mret (Some (nonblocking, op, Some rhs))
      end
  end.

(** *** Assignments to a selection that is not constant *)

(** The bits an index of the vector is compared at. *)
Definition index_width (e : expr_value) (msb lsb : Z) : L nat :=
  let max_idx := Z.max msb lsb in
  need ← unchecked (need_bits 63 (if bool_decide (0 <= max_idx)%Z then max_idx else 0%Z) 1);
  mret (Nat.max (width e) need).

(** [if(index == value) { stmts }] *)
Definition index_is (norm : expr_value) (cmp_w : nat) (value : Z) : L index :=
  lit ← make_uint_literal value cmp_w; compare_eq norm lit.

(** [a[idx] op= arg]: a test for every bit. *)
Definition dynamic_bit_stmt (lhs : lvalue_ref) (nonblocking : bool) (delay : Z) (op : compound_kind) (arg1 idx_norm : expr_value)
  (cmp_w : nat) (pos : nat) (sig : index) : Q (list index) :=
  let idx_val := vector_index_at (lv_base_msb lhs) (lv_base_lsb lhs) pos in
  if bool_decide (idx_val < 0)%Z then mret []
  else
    cond ← ll (index_is idx_norm cmp_w idx_val);
    cur ← ll (signal_of sig);
    res ← ll (apply_compound op cur arg1);
    res1 ← ll (resize res 1 false);
    asn ← add_stmt (st_assign nonblocking delay sig (xv_scalar_root res1));
    i ← add_stmt (st_if cond [asn] []);
    _ ← ll (mark_regs [sig]);
    mret [i].

(** [for(x : l) out.append(f(x))] *)
Fixpoint qmap {A B} (f : A -> Q (list B)) (l : list A) : Q (list B) :=
  match l with
  | [] => mret []
  | x :: l => ys ← f x; zs ← qmap f l; mret (ys ++ zs)
  end.

Definition assign_dynamic_bit (lhs : lvalue_ref) (nonblocking : bool) (delay : Z) (op : compound_kind) (rhs : option expr_value)
  : Q index :=
  arg ← ll (match rhs with Some rhs => mret rhs | None => make_uint_literal 1 1 end);
  arg1 ← ll (resize arg 1 false);
  cmp_w ← ll (index_width (lv_index_expr lhs) (lv_base_msb lhs) (lv_base_lsb lhs));
  idx_norm ← ll (resize (lv_index_expr lhs) cmp_w false);
  stmts ← qmap (fun '(pos, sig) => dynamic_bit_stmt lhs nonblocking delay op arg1 idx_norm cmp_w pos sig)
            (imap pair (lv_vector_signals lhs));
  add_stmt (st_block stmts).

(** The assignments of [rhs_bits] to the bits from [msb] to [lsb]; bits outside
    of the vector are left out. *)
Definition assign_bits (lhs : lvalue_ref) (nonblocking : bool) (delay : Z) (msb lsb : Z) (rhs_bits : list index) : Q (list index) :=
  indices ← ll (unchecked (select_indices msb lsb));
  qmap (fun '(idx, root) =>
    match (pos ← vector_pos (lv_base_msb lhs) (lv_base_lsb lhs) idx; lv_vector_signals lhs !! pos) with
    | None => mret []
    | Some sig =>
        i ← add_stmt (st_assign nonblocking delay sig root);
        _ ← ll (mark_regs [sig]);
        mret [i]
    end) (zip indices rhs_bits).

(** [for(s = lo; s <= hi; ++s)] over the values that are not negative. *)
Definition int_range (lo hi : Z) : option (list Z) :=
  _ ← int_result (hi + 1);
  Some (filter (fun s => 0 <= s)%Z ((fun k => lo + Z.of_nat k)%Z <$> seq 0 (Z.to_nat (hi - lo + 1)))).

Definition assign_dynamic_indexed (lhs : lvalue_ref) (nonblocking : bool) (delay : Z) (rhs : expr_value) : Q index :=
  if bool_decide (lv_indexed_width lhs = 0) then
    _ ← lp (err "indexed part-select lvalue width must be positive");
    add_stmt st_empty
  else
    rhs_bits ← ll (resize_to_vector rhs (lv_indexed_width lhs) (xv_is_signed rhs));
    let '(msb, lsb) := (lv_base_msb lhs, lv_base_lsb lhs) in
    let w_int := Z.of_nat (lv_indexed_width lhs) in
    start_min ← ll (unchecked (if lv_indexed_plus lhs then Some (Z.min msb lsb) else int_result (Z.min msb lsb + (w_int - 1))));
    start_max ← ll (unchecked (if lv_indexed_plus lhs then int_result (Z.max msb lsb - (w_int - 1)) else Some (Z.max msb lsb)));
    if bool_decide (start_max < start_min)%Z then
      _ ← lp (err "indexed part-select out of range");
      add_stmt st_empty
    else
      cmp_w ← ll (index_width (lv_index_expr lhs) msb lsb);
      idx_norm ← ll (resize (lv_index_expr lhs) cmp_w false);
      starts ← ll (unchecked (int_range start_min start_max));
      stmts ← qmap (fun s =>
        cond ← ll (index_is idx_norm cmp_w s);
        '(sel_msb, sel_lsb) ← ll (unchecked (indexed_bounds (lv_indexed_plus lhs) (bool_decide (lsb <= msb)%Z) s w_int));
        asns ← assign_bits lhs nonblocking delay sel_msb sel_lsb rhs_bits;
        i ← add_stmt (st_if cond asns []);
        mret [i]) starts;
      add_stmt (st_block stmts).

Definition assign_dynamic_part (lhs : lvalue_ref) (nonblocking : bool) (delay : Z) (rhs : expr_value) : Q index :=
  let '(min_idx, max_idx) := (Z.min (lv_base_msb lhs) (lv_base_lsb lhs), Z.max (lv_base_msb lhs) (lv_base_lsb lhs)) in
  span ← ll (unchecked (int_result (max_idx - min_idx + 1)));
  if bool_decide (span <= 0)%Z then _ ← lp (err "dynamic part-select out of range"); add_stmt st_empty
  else if bool_decide (4096 < span * span)%Z then
    _ ← lp (err "dynamic part-select is too large to elaborate in this subset");
    add_stmt st_empty
  else
    cmp_w_msb ← ll (index_width (lv_msb_expr lhs) (lv_base_msb lhs) (lv_base_lsb lhs));
    cmp_w_lsb ← ll (index_width (lv_lsb_expr lhs) (lv_base_msb lhs) (lv_base_lsb lhs));
    msb_norm ← ll (resize (lv_msb_expr lhs) cmp_w_msb false);
    lsb_norm ← ll (resize (lv_lsb_expr lhs) cmp_w_lsb false);
    values ← ll (unchecked (int_range min_idx max_idx));
    stmts ← qmap (fun msb =>
      msb_eq ← ll (index_is msb_norm cmp_w_msb msb);
      qmap (fun lsb =>
        rhs_bits ← ll (resize_to_vector rhs (Z.to_nat (Z.abs (msb - lsb) + 1)) (xv_is_signed rhs));
        lsb_eq ← ll (index_is lsb_norm cmp_w_lsb lsb);
        cond ← ll (make_and msb_eq lsb_eq);
        asns ← assign_bits lhs nonblocking delay msb lsb rhs_bits;
        i ← add_stmt (st_if cond asns []);
        mret [i]) values) values;
    add_stmt (st_block stmts).

(** The assignment to any left-hand side. *)
Definition emit_assignment (lhs : lvalue_ref) (nonblocking : bool) (delay : Z) (op : compound_kind) (rhs : option expr_value) : Q index :=
  let dynamic_part := bool_decide (lv_k lhs = lk_dynamic_indexed_part_select) || bool_decide (lv_k lhs = lk_dynamic_part_select) in
  if dynamic_part && negb (bool_decide (op = cp_assign)) then
    _ ← lp (err "compound assignment on dynamic part-select is not supported");
    add_stmt st_empty
  else
    match lv_k lhs with
    | lk_dynamic_bit_select => assign_dynamic_bit lhs nonblocking delay op rhs
    | lk_dynamic_indexed_part_select => assign_dynamic_indexed lhs nonblocking delay (default expr_value_default rhs)
    | lk_dynamic_part_select => assign_dynamic_part lhs nonblocking delay (default expr_value_default rhs)
    | _ => res ← ll (compound_value lhs op rhs); assign_lvalue lhs nonblocking delay res
    end.

Definition assignment_statement (delay : Z) : Q index :=
  prefix ← lp (when accept_two "+" then mret (Some cp_add_assign)
               else when accept_two "-" then mret (Some cp_sub_assign) else mret None);
  '(found, lhs) ← stmt_lvalue;
  if negb found then _ ← lp skip_until_semicolon; add_stmt st_empty
  else
    c ← assign_rhs prefix;
    match c : option (bool * compound_kind * option expr_value) with
    | None => add_stmt st_empty
    | Some (nonblocking, op, rhs) =>
        _ ← lp (expect_semicolon "expected ';' after assignment");
        if nonblocking && negb (bool_decide (op = cp_assign)) then
          _ ← lp (err "compound assignments with '<=' are not supported");
          add_stmt st_empty
        else emit_assignment lhs nonblocking delay op rhs
    end.

(** *** All statements *)

(** Statements that are parsed and ignored. *)
Definition ignored (c : P bool) (rest : Q index) : Q index := whenq c then add_stmt st_empty else rest.

(** A call or an assignment. *)
Definition call_or_assignment (delay : Z) : Q index :=
  task ← find_task;
  match task : option (string * task_def) with
  | Some (name, td) => task_call delay name td
  | None => ignored system_task (ignored cast_statement (ignored call_statement (assignment_statement delay)))
  end.

(** [@*] and [@(event)], which are ignored. *)
Definition event_control : Q index :=
  _ ← lp (when accept_symbol "*" then mret ()
          else _ ← expect_symbol "(" "expected '(' after '@'"; skip_parens);
  whenq accept_symbol ";" then add_stmt st_empty else self.

(** [-> event;] *)
Definition event_trigger : P bool := looking (fun ts =>
  match ts with
  | t0 :: t1 :: _ =>
      if is_symbol "-" t0 && is_symbol ">" t1 then
        _ ← consume; _ ← consume;
        _ ← expect_ident "expected event identifier after '->'";
        _ ← expect_semicolon "expected ';' after event trigger";
        mret true
      else mret false
  | _ => mret false
  end).

(** The statements that start with a keyword, in the order they are tried. *)
Definition keyword_statements (delay : Z) : list (string * Q index) :=
  [("return", return_statement delay); ("break", jump_statement delay "break" sk_break_stmt);
   ("continue", jump_statement delay "continue" sk_continue_stmt);
   ("logic", wire_declaration delay true); ("bit", wire_declaration delay true); ("reg", wire_declaration delay true);
   ("wire", wire_declaration delay false); ("int", int_declaration delay 31); ("integer", int_declaration delay 31);
   ("byte", int_declaration delay 7); ("shortint", int_declaration delay 15); ("longint", int_declaration delay 63);
   ("begin", block_statement delay); ("if", if_statement delay); ("repeat", repeat_statement delay);
   ("foreach", foreach_statement delay); ("do", do_while_statement delay); ("while", while_statement delay);
   ("for", for_statement delay); ("case", case_statement delay ck_normal); ("casez", case_statement delay ck_casez);
   ("casex", case_statement delay ck_casex)]%string.

Fixpoint first_keyword (l : list (string * Q index)) (rest : Q index) : Q index :=
  match l with [] => rest | (kw, c) :: l => whenq accept_kw kw then c else first_keyword l rest end.

(** [unique], [unique0] and [priority] are ignored. *)
Definition qualifier : P () :=
  when accept_kw "unique" then mret () else when accept_kw "unique0" then mret ()
  else when accept_kw "priority" then mret () else mret ().

(** A statement after its delay. *)
Definition delayed_statement (delay : Z) : Q index :=
  _ ← lp qualifier;
  whenq accept_symbol "@" then event_control
  else ignored event_trigger (first_keyword (keyword_statements delay) (call_or_assignment delay)).

Definition statement : Q index :=
  whenq accept_symbol ";" then add_stmt st_empty
  else whenq accept_symbol "#" then
    delay ← lp parse_delay_ticks;
    whenq accept_symbol ";" then add_stmt st_empty else delayed_statement delay
  else delayed_statement 0.
End Statement.

(** The recursion takes a token; [parse_proc_stmt] has one round per token. *)
Fixpoint proc_fuel (fuel : nat) (env : stmt_env) : Q index :=
  match fuel with O => lp out_of_fuel | S fuel => statement (proc_fuel fuel env) env end.

Definition parse_proc_stmt (env : stmt_env) : Q index := fueled_q (fun n => proc_fuel n env).
End Parser.

(** ** Bodies of tasks and functions *)

(** A parser of its own over other tokens. *)
Definition on_tokens {A} (toks : list token) (c : P A) : P A := fun ts s =>
  match c toks s with
  | Ok (a, _, s) => Ok (a, ts, s)
  | Undefined => Undefined
  | OutOfFuel => OutOfFuel
  | TooDeep => TooDeep
  end.

Definition lex_string (t : string) : list token := lr_tokens (lex (String.list_ascii_of_string t) None).

Section Inline.
(** Parses a statement of the body. *)
Context (proc : stmt_env -> Q index).

(** [if(pos == before) consume()]: positions are told apart by the tokens left. *)
Definition consume_if_stuck (before : nat) : P () := fun ts s =>
  if bool_decide (length ts = before) then (_ ← consume; mret ()) ts s else Ok ((), ts, s).

Definition body_statement (env : stmt_env) : Q index := fun w ts s =>
  (proc env ≫= fun i => _ ← lp (consume_if_stuck (length ts)); mret i) w ts s.

Fixpoint body_loop (fuel : nat) (env : stmt_env) (stmts : list index) : Q (list index) :=
  match fuel with
  | O => lp out_of_fuel
  | S fuel => whenq eof then mret stmts else i ← body_statement env; body_loop fuel env (stmts ++ [i])
  end.

Definition task_body (env : stmt_env) (body_text : string) : Q (list index) := fun w =>
  on_tokens (lex_string body_text) (fueled_q (fun n => body_loop n env []) w).

(** *** Functions *)

(** [m->inline_counter++] *)
Definition next_call_id : L Z := fun s =>
  let m := ps_m s in
  let n := cm_inline_counter m in
  Some (n, mk_pstate (with_decls m (cm_port_order m) (cm_port_decls m) (cm_param_order m) (cm_param_default_values m)
             (cm_param_is_local m) ((n + 1) mod 2 ^ 64)) (ps_errors s)).

Definition mangle (call_id : Z) (name : string) : string :=
  ("$fncall" +:+ String.string_of_list_ascii (decimal call_id) +:+ "__" +:+ name)%string.

(** The names that are renamed in the body: the function, its parameters, its
    local variables. *)
Definition function_renames (call_id : Z) (name : string) (fd : function_def) : list (string * string) :=
  let rename nm := (nm, mangle call_id nm) in
  rename name
  :: (rename <$> filter (fun nm => nm ≠ ""%string) (fp_name <$> fd_params fd))
  ++ (rename <$> filter (fun nm => nm ≠ ""%string /\ nm ≠ name) (fd_locals fd)).

Definition lookup_rename (renames : list (string * string)) (id : string) : string :=
  match list_find (fun rp => rp.1 = id) renames with Some (_, rp) => rp.2 | None => id end.

(** The text of the renamed body and whether it ends with a word. *)
Definition emit_word (st : string * bool) (txt : string) (is_word : bool) : string * bool :=
  (((if negb (bool_decide (st.1 = ""%string)) && st.2 && is_word then st.1 +:+ " " else st.1) +:+ txt)%string, is_word).

Definition emit_token (renames : list (string * string)) (st : string * bool) (tk : token) : string * bool :=
  match tok_kind tk with
  | tk_identifier => emit_word st (lookup_rename renames (tok_text tk)) true
  | k => emit_word st (tok_text tk) (bool_decide (k = tk_number))
  end.

(** [return expr;] becomes an assignment to the return variable and [return;];
    [in_return]: inside that expression. *)
Fixpoint rename_body (renames : list (string * string)) (ret : string) (in_return : bool) (toks : list token) (st : string * bool)
  : string * bool :=
  match toks with
  | [] => st
  | tk :: rest =>
      if is_eof tk then st
      else if in_return then
        if is_symbol ";" tk
        then rename_body renames ret false rest (emit_word (emit_word (emit_word st ";" false) "return" true) ";" false)
        else rename_body renames ret true rest (emit_token renames st tk)
      else if bool_decide (tok_kind tk = tk_identifier) && bool_decide (tok_text tk = "return"%string) then
        if match rest with t1 :: _ => is_symbol ";" t1 | [] => false end
        then rename_body renames ret false rest (emit_word st (tok_text tk) true)
        else rename_body renames ret true rest (emit_word (emit_word st ret true) "=" false)
      else rename_body renames ret false rest (emit_token renames st tk)
  end.

Definition declare_vector_like (name : string) (is_reg is_signed has_range : bool) (msb lsb : Z) (w : nat) : L (option vector_desc) :=
  if bool_decide (w <= 1) && negb has_range then _ ← declare_scalar name is_reg is_signed; mret None
  else
    vd ← declare_vector_range true name (if has_range then msb else Z.of_nat w - 1)%Z (if has_range then lsb else 0%Z) is_reg is_signed;
    mret (Some vd).

Definition with_assigns (m : compiled_module) (assigns : list continuous_assign) (combs : list always_comb) : compiled_module :=
  mk_module (cm_name m) (cm_ports m) (cm_port_order m) (cm_port_decls m) (cm_vectors m) (cm_signal_names m)
    (cm_signal_is_reg m) (cm_signal_is_signed m) (cm_signal_is_const m) (cm_signal_is_const_foldable m)
    (cm_signal_const_value m) (cm_signal_index m) (cm_param_order m) (cm_param_default_values m) (cm_param_is_local m)
    (cm_expr_nodes m) (cm_expr_intern m) assigns (cm_always_ffs m) combs (cm_initials m) (cm_instances m) (cm_functions m)
    (cm_tasks m) (cm_inline_counter m).

Definition add_assigns (l : list (index * index)) : L () :=
  update_module (fun m =>
    Some (with_assigns m (cm_assigns m ++ ((fun '(lhs, root) => mk_assign lhs root SIZE_MAX) <$> l)) (cm_always_combs m))).

Definition add_always_comb (ac : always_comb) : L () :=
  update_module (fun m => Some (with_assigns m (cm_assigns m) (cm_always_combs m ++ [ac]))).

Definition nonzero_width (w : nat) : nat := if bool_decide (w = 0) then 1 else w.

(** A parameter is declared and driven by its argument. *)
Definition connect_parameter (call_id : Z) (pa : function_param * expr_value) : L () :=
  let '(pd, arg) := pa in
  if bool_decide (fp_name pd = ""%string) then mret ()
  else
    let mn := mangle call_id (fp_name pd) in
    let w := nonzero_width (fp_width pd) in
    vd ← declare_vector_like mn false (fp_is_signed pd) (fp_has_range pd) (fp_msb pd) (fp_lsb pd) w;
    rhs_bits ← resize_to_vector arg w (fp_is_signed pd);
    match vd with
    | Some vd => if bool_decide (length (vd_bits vd) = length rhs_bits) then add_assigns (zip (vd_bits vd) rhs_bits) else mret ()
    | None =>
        sig ← get_or_create_signal mn;
        match last rhs_bits with Some r => add_assigns [(Some sig, r)] | None => mret () end
    end.

(** The value of the return variable. *)
Definition function_result (ret : string) (fd : function_def) (ret_vd : option vector_desc) : L expr_value :=
  match (vd ← ret_vd; if bool_decide (vd_bits vd = []) then None else Some vd) with
  | Some vd =>
      bits ← lmap make_signal_root (vd_bits vd);
      make_vector_with_range bits (vd_msb vd) (vd_lsb vd) (fd_ret_is_signed fd)
  | None =>
      sig ← get_or_create_signal ret;
      root ← make_signal_root (Some sig);
      mret (make_scalar root 0 0 (fd_ret_is_signed fd))
  end.

(** [k = subprogram_block] for a root that is a block. *)
Definition as_subprogram (arena : list stmt_node) (root : index) : list stmt_node :=
  match root with
  | Some i =>
      match arena !! i with
      | Some n =>
          match sn_k n with
          | sk_block =>
              <[i := mk_stmt sk_subprogram_block (sn_ck n) (sn_delay_ticks n) (sn_lhs_signal n) (sn_expr_root n) (sn_lhs_signals n)
                       (sn_rhs_roots n) (sn_stmts n) (sn_else_stmts n) (sn_case_expr_roots n) (sn_case_items n) (sn_init_stmt n)
                       (sn_step_stmt n) (sn_body_stmt n)]> arena
          | _ => arena
          end
      | None => arena
      end
  | None => arena
  end.

(** A call is a combinational block of its own that drives its return variable. *)
Definition inline_function (name : string) (fd : function_def) (args : list expr_value) : P expr_value :=
  call_id ← lift next_call_id;
  let ret := mangle call_id name in
  _ ← lift (lmap (connect_parameter call_id) (zip (fd_params fd) args));
  ret_vd ← lift (declare_vector_like ret true (fd_ret_is_signed fd) (fd_ret_has_range fd) (fd_ret_msb fd) (fd_ret_lsb fd)
                   (nonzero_width (fd_ret_width fd)));
  _ ← lift (match ret_vd with
            | None => if bool_decide (1 < fd_ret_width fd) then _ ← declare_scalar ret true (fd_ret_is_signed fd); mret () else mret ()
            | Some _ => mret ()
            end);
  let body := (rename_body (function_renames call_id name fd) ret false (lex_string (fd_body_text fd)) ("", false)%string).1 in
  '(root, w) ← on_tokens (lex_string ("begin " +:+ body +:+ " end")) (proc (mk_stmt_env true ret) (mk_work [] None));
  _ ← lift (add_always_comb (mk_always_comb true [] (as_subprogram (wk_arena w) root) [root]));
  lift (function_result ret fd ret_vd).
End Inline.

(** Statements and expressions in which calls are nested at most [d] deep. *)
Fixpoint proc_at (d : nat) : stmt_env -> Q index :=
  parse_proc_stmt
    (match d with O => fun _ _ _ => too_deep | S d => inline_function (proc_at d) end)
    (match d with O => fun _ _ => lp too_deep | S d => task_body (proc_at d) end).

Definition expr_at (d : nat) (env : parse_env) : P expr_value :=
  parse_expr (match d with O => fun _ _ _ => too_deep | S d => inline_function (proc_at d) end) env.
