(* ===== verification/VStmtOk.v ===== *)
(** * Verilog: the statement parser terminates and builds what can be run

    The loops of the statement parser end because a statement takes a token
    ([takes]); with that and [safe] of VParseOk, parsing a statement returns on
    any input, calls being nested as deep as the bound says.

    What it builds is an arena in which a statement only mentions statements in
    front of it ([builds]), which is what VExec needs to run it. *)

From S2P Require Import Prelude Logic4 VModule VEval VExec VLower VBits VLiteral VLex VSignals VParse VParseOk VStmt.
From Stdlib Require Import ZArith Lia Ascii.

(** ** Steps that take a token *)

(** The next token is not the end token. *)
Definition more (ts : list token) : Prop := exists t, head ts = Some t /\ is_eof t = false.

Lemma more_remaining ts : valid ts -> more ts -> 0 < remaining ts.
Proof.
  intros Hv (t & Ht & He). destruct ts as [|u ts]; [done|]. injection Ht as ->. rewrite (remaining_cons t ts) by done. lia.
Qed.

(** Unless the tokens are at their end, the step takes one where its result
    satisfies [p]. *)
Definition takes_if {A} (p : A -> bool) (n : nat) (c : P A) : Prop :=
  forall ts s, valid ts -> remaining ts <= n -> more ts ->
  inside (c ts s) ts /\ match c ts s with Ok (a, ts', _) => p a = true -> remaining ts' < remaining ts | _ => True end.

Abbreviation takes := (takes_if (fun _ => true)).

(** A suffix with as many tokens left is the same. *)
Lemma suffix_same (ts ts' : list token) :
  valid ts' -> ts' `suffix_of` ts -> remaining ts' <= remaining ts -> ~ remaining ts' < remaining ts -> ts' = ts.
Proof.
  intros Hv [k ->] _ Hn. destruct (valid_nonempty _ Hv) as (t & l & ->). destruct k as [|x k]; [done|].
  exfalso. apply Hn. unfold remaining. rewrite length_app. simpl. lia.
Qed.

Lemma takes_if_safe {A} p n (c : P A) : safe n c -> (forall a, p a = false) -> takes_if p n c.
Proof. intros Hc Hp ts s Hv Hr Hm. split; [by apply Hc|]. destruct (c ts s) as [[[a ts'] s']| | |]; [|done..]. by rewrite Hp. Qed.

Lemma takes_if_ret {A} (p : A -> bool) n a : p a = false -> takes_if p n (mret a).
Proof. intros Hp ts s Hv Hr Hm. split; [by split_and!|]. simpl. by rewrite Hp. Qed.

(** What follows a step: it has a token less where one was taken. *)
Lemma takes_bind_if {A B} (p : A -> bool) (q : B -> bool) n (c : P A) (f : A -> P B) :
  takes_if p n c ->
  (forall a n', p a = true -> n = S n' -> safe n' (f a)) ->
  (forall a, p a = false -> (forall n', n' < n -> safe n' (f a)) /\ takes_if q n (f a)) -> takes_if q n (c ≫= f).
Proof.
  intros Hc Ht Hf ts s Hv Hr Hm. pose proof (more_remaining ts Hv Hm) as Hpos. unfold mbind, P_bind.
  destruct (Hc ts s Hv Hr Hm) as [Hi Hlt]. destruct (c ts s) as [[[a ts'] s']| | |]; [|done..]. destruct Hi as (Hv' & Hs' & Hr').
  assert (Hlift : forall r : res (B * list token * pstate), inside r ts' -> remaining ts' < remaining ts ->
    inside r ts /\ match r with Ok (b, ts'', _) => q b = true -> remaining ts'' < remaining ts | _ => True end).
  { intros r Hin Hlt'. split; [by eapply inside_trans|]. destruct r as [[[b ts''] s'']| | |]; [|done..]. destruct Hin as (_ & _ & ?). lia. }
  destruct (p a) eqn:Hp.
  - specialize (Hlt eq_refl). destruct n as [|n']; [lia|]. apply Hlift; [|done]. apply (Ht a n'); [done|done|done|lia].
  - destruct (Hf a Hp) as [Hsafe Htakes]. destruct (decide (remaining ts' < remaining ts)) as [Hlt'|Hge].
    + apply Hlift; [|done]. apply (Hsafe (remaining ts')); [lia|done|done].
    + pose proof (suffix_same _ _ Hv' Hs' Hr' Hge) as ->. by apply Htakes.
Qed.

Lemma takes_bind_l {A B} (q : B -> bool) n (c : P A) (f : A -> P B) :
  takes n c -> (forall a n', n = S n' -> safe n' (f a)) -> takes_if q n (c ≫= f).
Proof. intros Hc Hf. by eapply takes_bind_if; [exact Hc|intros; by eapply Hf|]. Qed.

Lemma takes_bind_r {A B} (q : B -> bool) n (c : P A) (f : A -> P B) :
  safe n c -> (forall a n', n' < n -> safe n' (f a)) -> (forall a, takes_if q n (f a)) -> takes_if q n (c ≫= f).
Proof.
  intros Hc Hs Hf. eapply (takes_bind_if (fun _ => false)); [by apply takes_if_safe|done|]. intros a _. split; [|done].
  intros n' Hn'. by apply Hs.
Qed.

(** The same for a step of a loop, which is entered before the end. *)
Definition safe_more {A} (n : nat) (c : P A) : Prop :=
  forall ts s, valid ts -> remaining ts <= n -> more ts -> inside (c ts s) ts.

Lemma safe_more_takes {A} p n (c : P A) : takes_if p n c -> safe_more n c.
Proof. intros Hc ts s Hv Hr Hm. by apply Hc. Qed.

Lemma safe_more_bind {A B} n (c : P A) (f : A -> P B) :
  takes n c -> (forall a n', n = S n' -> safe n' (f a)) -> safe_more n (c ≫= f).
Proof. intros Hc Hf. eapply (safe_more_takes (fun _ => false)). by apply takes_bind_l. Qed.

(** [while(!eof())] *)
Lemma safe_until_eof {A} n (a b : P A) : safe n a -> safe_more n b -> safe n (branch eof a b).
Proof.
  intros Ha Hb ts s Hv Hr. rewrite branch_eof. destruct (valid_nonempty ts Hv) as (t & ts' & ->).
  unfold mbind, P_bind. cbn [peek]. destruct (is_eof t) eqn:Ht; [by apply Ha|]. apply Hb; [done|done|]. by exists t.
Qed.

Lemma takes_consume n : takes n consume.
Proof.
  intros ts s Hv Hr (t & Ht & He). split; [by eapply safe_consume|]. destruct ts as [|u ts]; [done|]. injection Ht as ->.
  unfold consume. rewrite He. intros _. rewrite (remaining_cons t ts) by done. lia.
Qed.

Lemma takes_if_accept_symbol n sym : takes_if id n (accept_symbol sym).
Proof.
  intros ts s Hv Hr Hm. split; [by eapply safe_accept_symbol|]. destruct (valid_nonempty ts Hv) as (t & ts' & ->).
  unfold accept_symbol, mbind, P_bind, peek, consume. destruct (is_symbol sym t) eqn:Ht; [|done].
  pose proof (is_symbol_eof _ _ Ht) as He. rewrite He. intros _. rewrite (remaining_cons t ts') by done. lia.
Qed.

Lemma safe_peek_only n : safe n peek.
Proof. intros ts s Hv Hr. destruct (valid_nonempty ts Hv) as (t & ts' & ->). by split_and!. Qed.

Lemma safe_accept_keyword n kw : safe n (accept_kw kw).
Proof.
  unfold accept_kw. apply safe_peek. intros t. destruct (bool_decide (tok_kind t = tk_identifier)) eqn:Hk; [|apply safe_safe_at, safe_ret].
  apply bool_decide_eq_true in Hk. cbn [andb]. case_bool_decide; [|apply safe_safe_at, safe_ret].
  apply safe_at_consume; [by apply is_ident_eof|]. auto with parse.
Qed.

Lemma takes_if_accept_kw n kw : takes_if id n (accept_kw kw).
Proof.
  intros ts s Hv Hr Hm. split; [by eapply safe_accept_keyword|]. destruct (valid_nonempty ts Hv) as (t & ts' & ->).
  unfold accept_kw, mbind, P_bind, peek, consume. destruct (bool_decide (tok_kind t = tk_identifier) && _) eqn:Ht; [|done].
  apply andb_true_iff in Ht as [Hk%bool_decide_eq_true _]. pose proof (is_ident_eof _ Hk) as He. rewrite He. intros _.
  rewrite (remaining_cons t ts') by done. lia.
Qed.

Lemma takes_branch {A} (q : A -> bool) n (c : P bool) (a b : P A) :
  takes_if id n c -> (forall n', n = S n' -> safe n' a) -> (forall n', n' < n -> safe n' b) -> takes_if q n b ->
  takes_if q n (branch c a b).
Proof. intros Hc Ha Hs Hb. eapply takes_bind_if; [done|by intros [] ? ? ?; [apply Ha|]|]. by intros [] ?. Qed.

#[export] Hint Resolve safe_peek_only takes_consume takes_if_accept_symbol takes_if_accept_kw safe_accept_keyword : parse.
#[export] Hint Extern 4 (_ < _) => lia : parse.
#[export] Hint Extern 4 (_ <= _) => lia : parse.

Lemma takes_not_eof {A} (q : A -> bool) n (a b : P A) : takes_if q n b -> takes_if q n (branch eof a b).
Proof.
  intros Hb ts s Hv Hr Hm. rewrite branch_eof. destruct (valid_nonempty ts Hv) as (t & ts' & ->).
  unfold mbind, P_bind. cbn [peek]. destruct Hm as (t' & [= <-] & He). rewrite He. apply Hb; [done|done|]. by exists t.
Qed.

Lemma safe_more_safe {A} n (c : P A) : safe n c -> safe_more n c.
Proof. intros Hc ts s Hv Hr _. by apply Hc. Qed.

Lemma safe_more_branch {A} n (c : P bool) (a b : P A) :
  takes_if id n c -> (forall n', n = S n' -> safe n' a) -> (forall n', n' < n -> safe n' b) -> safe_more n b ->
  safe_more n (branch c a b).
Proof.
  intros Hc Ha Hs Hb. eapply (safe_more_takes (fun _ => false)). apply takes_branch; [done..|].
  intros ts s Hv Hr Hm. split; [by apply Hb|]. by destruct (b ts s) as [[[? ?] ?]| | |].
Qed.

Lemma takes_skip_until n sym : takes n (skip_until sym).
Proof.
  intros ts s Hv Hr Hm. unfold skip_until. cut (takes (remaining ts) (skip_loop (S (remaining ts)) sym)); [intros H; by apply H|].
  cbn [skip_loop]. apply takes_not_eof. apply takes_branch; [auto with parse..| |].
  - intros n' Hn'. apply safe_bind; [auto with parse|]. intros _. by apply safe_skip_loop.
  - apply takes_bind_l; [auto with parse|]. intros _ n' ->. apply safe_skip_loop. lia.
Qed.

#[export] Hint Resolve takes_skip_until : parse.

(** ** Steps over arena and scope *)

Definition safeQ {A} (n : nat) (c : Q A) : Prop := forall w, safe n (c w).

Definition takes_ifQ {A} (p : A -> bool) (n : nat) (c : Q A) : Prop := forall w, takes_if (fun x => p (fst x)) n (c w).

Abbreviation takesQ := (takes_ifQ (fun _ => true)).

Lemma safeQ_bind {A B} n (c : Q A) (f : A -> Q B) : safeQ n c -> (forall a, safeQ n (f a)) -> safeQ n (c ≫= f).
Proof. intros Hc Hf w. unfold mbind, Q_bind. apply safe_bind; [apply Hc|]. intros [a w']. apply Hf. Qed.

Lemma safeQ_ret {A} n (a : A) : safeQ n (mret a).
Proof. intros w. apply safe_ret. Qed.

Lemma safeQ_lp {A} n (c : P A) : safe n c -> safeQ n (lp c).
Proof. intros Hc w. unfold lp. apply safe_bind; [done|]. intros a. apply safe_ret. Qed.

Lemma safeQ_ll {A} n (c : L A) : safeQ n (ll c).
Proof. apply safeQ_lp, safe_lift. Qed.

Lemma safeQ_branch {A} n c (a b : Q A) : safe n c -> safeQ n a -> safeQ n b -> safeQ n (qbranch c a b).
Proof. intros Hc Ha Hb w. unfold qbranch. by apply safe_branch. Qed.

Lemma safeQ_accept {A} n sym (a b : Q A) :
  (forall n', n = S n' -> safeQ n' a) -> safeQ n b -> safeQ n (qbranch (accept_symbol sym) a b).
Proof. intros Ha Hb w. apply safe_accept; [intros n' Hn'; by apply Ha|apply Hb]. Qed.

Lemma safeQ_accept_kw {A} n kw (a b : Q A) :
  (forall n', n = S n' -> safeQ n' a) -> safeQ n b -> safeQ n (qbranch (accept_kw kw) a b).
Proof. intros Ha Hb w. apply safe_accept_kw; [intros n' Hn'; by apply Ha|apply Hb]. Qed.

Lemma safe_fueled {A} n (f : nat -> P A) : (forall m, m <= n -> safe m (f (S m))) -> safe n (fueled f).
Proof. intros Hf ts s Hv Hr. unfold fueled. by apply (Hf (remaining ts)). Qed.

Lemma safeQ_fueled {A} n (f : nat -> Q A) : (forall m, m <= n -> safeQ m (f (S m))) -> safeQ n (fueled_q f).
Proof. intros Hf w ts s Hv Hr. unfold fueled_q. by apply (Hf (remaining ts)). Qed.

Lemma takesQ_fueled {A} n (f : nat -> Q A) : (forall m, m <= n -> takesQ m (f (S m))) -> takesQ n (fueled_q f).
Proof. intros Hf w ts s Hv Hr. unfold fueled_q. by apply (Hf (remaining ts)). Qed.

Lemma takesQ_bind_l {A B} n (c : Q A) (f : A -> Q B) : takesQ n c -> (forall a n', n' < n -> safeQ n' (f a)) -> takesQ n (c ≫= f).
Proof. intros Hc Hf w. unfold mbind, Q_bind. apply takes_bind_l; [apply Hc|]. intros [a w'] n' ->. apply Hf. lia. Qed.

Lemma takesQ_bind_r {A B} (q : B -> bool) n (c : Q A) (f : A -> Q B) :
  safeQ n c -> (forall a n', n' < n -> safeQ n' (f a)) -> (forall a, takes_ifQ q n (f a)) -> takes_ifQ q n (c ≫= f).
Proof.
  intros Hc Hs Hf w. unfold mbind, Q_bind. apply takes_bind_r; [apply Hc|intros [a w'] n' Hn'; by apply Hs|intros [a w']; apply Hf].
Qed.

Lemma takesQ_bind_if {A B} (p : A -> bool) n (c : Q A) (f : A -> Q B) :
  takes_ifQ p n c -> (forall a n', n' < n -> safeQ n' (f a)) -> (forall a, p a = false -> takesQ n (f a)) -> takesQ n (c ≫= f).
Proof.
  intros Hc Hs Hf w. unfold mbind, Q_bind. eapply takes_bind_if; [apply Hc|intros [a w'] n' _ ->; apply Hs; lia|].
  intros [a w'] Hp. split; [intros n' Hn'; by apply Hs|by apply Hf].
Qed.

Lemma takesQ_lp {A} (p : A -> bool) n (c : P A) : takes_if p n c -> safe n c -> takes_ifQ p n (lp c).
Proof.
  intros Hc Hs w. unfold lp. eapply takes_bind_if; [exact Hc|auto with parse|]. intros a Hp. split; [auto with parse|]. by apply takes_if_ret.
Qed.

Lemma takesQ_branch {A} n (c : P bool) (a b : Q A) :
  takes_if id n c -> (forall n', n = S n' -> safeQ n' a) -> (forall n', n' < n -> safeQ n' b) -> takesQ n b -> takesQ n (qbranch c a b).
Proof.
  intros Hc Ha Hs Hb w. unfold qbranch. apply takes_branch; [done|intros n' Hn'; by apply Ha|intros n' Hn'; by apply Hs|apply Hb].
Qed.

Lemma safeQ_rounds {A} n (a b : Q A) : safeQ n a -> takesQ n b -> safeQ n (qbranch eof a b).
Proof. intros Ha Hb w. apply safe_until_eof; [apply Ha|]. eapply safe_more_takes, Hb. Qed.

Lemma safeQ_add_stmt n x : safeQ n (add_stmt x).
Proof. intros w. apply safe_ret. Qed.

Lemma safeQ_modify_scope n f : safeQ n (modify_scope f).
Proof. intros w. apply safe_ret. Qed.

Lemma safeQ_scope_env n : safeQ n scope_env.
Proof. intros w. apply safe_ret. Qed.

Lemma safeQ_scope_aliases n : safeQ n scope_aliases.
Proof. intros w. apply safe_ret. Qed.

Lemma safeQ_has_scope n : safeQ n has_scope.
Proof. intros w. apply safe_ret. Qed.

#[export] Hint Resolve safeQ_ret safeQ_ll safeQ_add_stmt safeQ_modify_scope safeQ_scope_env safeQ_scope_aliases safeQ_has_scope : parse.

(** One step of a proof that a step of the parser is safe: by its head. *)
Ltac safe_step :=
  match goal with
  | |- forall _, _ => intro
  | |- safe _ (lift _) => apply safe_lift
  | |- safeQ _ (lp _) => apply safeQ_lp
  | |- safeQ _ (fueled_q _) => apply safeQ_fueled
  | |- safe _ (fueled _) => apply safe_fueled
  | |- safeQ _ (qbranch (accept_symbol _) _ _) => apply safeQ_accept; [intros ? ->|]
  | |- safeQ _ (qbranch (accept_kw _) _ _) => apply safeQ_accept_kw; [intros ? ->|]
  | |- safeQ _ (qbranch _ _ _) => apply safeQ_branch
  | |- safe _ (branch (accept_symbol _) _ _) => apply safe_accept; [intros ? ->|]
  | |- safe _ (branch (accept_kw _) _ _) => apply safe_accept_kw; [intros ? ->|]
  | |- safe _ (branch accept_scope_resolution _ _) => apply safe_scope_resolution; [intros ? ->|]
  | |- safe _ (branch _ _ _) => apply safe_branch
  | |- safe _ (accept_first _ ≫= _) => apply safe_accept_first; [intros ? ? ->|]
  | |- safeQ _ (mbind _ _) => apply safeQ_bind
  | |- safe _ (mbind _ _) => apply safe_bind
  | |- safe _ (match ?x with _ => _ end) => destruct x
  | |- safeQ _ (match ?x with _ => _ end) => destruct x
  | H : context [safe _ ?c] |- safe _ ?c => apply H; lia
  | H : context [safeQ _ ?c] |- safeQ _ ?c => apply H; lia
  end.

Ltac safe_auto := repeat first [solve [auto with parse] | safe_step].

(** ** Loops that skip tokens *)

Lemma safe_balanced_loop f opening closing depth n : n < f -> safe n (balanced_loop f opening closing depth).
Proof.
  revert depth n. induction f as [|f IH]; intros depth n Hn; [lia|]. cbn [balanced_loop]. case_bool_decide; [auto with parse|].
  apply safe_until_eof; [auto with parse|]. apply safe_more_bind; [auto with parse|]. intros t n' ->. apply IH. lia.
Qed.

Lemma safe_skip_parens n : safe n skip_parens.
Proof. apply safe_fueled. intros m _. apply safe_balanced_loop. lia. Qed.

Lemma safe_expect_semicolon n msg : safe n (expect_semicolon msg).
Proof. unfold expect_semicolon, skip_until_semicolon. safe_auto. Qed.

Lemma safe_skip_item_loop f n : n < f -> safe n (skip_item_loop f).
Proof.
  revert n. induction f as [|f IH]; intros n Hn; [lia|]. cbn [skip_item_loop]. apply safe_until_eof; [auto with parse|].
  do 2 (apply safe_more_branch; [auto with parse..|intros n' Hn'; safe_auto; apply IH; lia|]).
  apply safe_more_bind; [auto with parse|]. intros _ n' ->. apply IH. lia.
Qed.

Lemma takes_skip_item n : takes n (fueled skip_item_loop).
Proof.
  intros ts s Hv Hr Hm. cut (takes (remaining ts) (skip_item_loop (S (remaining ts)))); [intros H; by apply H|].
  cbn [skip_item_loop]. apply takes_not_eof.
  do 2 (apply takes_branch; [auto with parse..|intros n' Hn'; safe_auto; apply safe_skip_item_loop; lia|]).
  apply takes_bind_l; [auto with parse|]. intros _ n' ->. apply safe_skip_item_loop. lia.
Qed.

Lemma safe_skip_item n : safe n (fueled skip_item_loop).
Proof. apply safe_fueled. intros m _. apply safe_skip_item_loop. lia. Qed.

Lemma safe_next_two n sym : safe n (next_two sym).
Proof. intros ts s Hv Hr. destruct ts as [|t0 [|t1 ts]]; by split_and!. Qed.

Lemma safe_accept_two n sym : safe n (accept_two sym).
Proof. unfold accept_two. pose proof (safe_next_two n sym). safe_auto. Qed.

Lemma safe_accept_list {A} n (ops : list (string * A)) : safe n (accept_first ops).
Proof. induction ops as [|[sym a] ops IH]; cbn [accept_first]; safe_auto. Qed.

#[export] Hint Resolve safe_skip_parens safe_expect_semicolon safe_skip_item takes_skip_item safe_next_two safe_accept_two safe_accept_list : parse.

(** ** Steps without recursion *)

Lemma safe_dynamic_lvalue n base msg mark_reg mark_fallback mk : safe n (dynamic_lvalue base msg mark_reg mark_fallback mk).
Proof. unfold dynamic_lvalue. safe_auto. Qed.

Lemma safeQ_assign_scalar n nb delay sig v : safeQ n (assign_scalar nb delay sig v).
Proof. unfold assign_scalar. safe_auto. Qed.

Lemma safeQ_assign_vector n nb delay sigs v : safeQ n (assign_vector nb delay sigs v).
Proof. unfold assign_vector. safe_auto. Qed.

#[export] Hint Resolve safe_dynamic_lvalue safeQ_assign_scalar safeQ_assign_vector : parse.

Lemma safeQ_assign_declared n r bits v : safeQ n (assign_declared r bits v).
Proof. unfold assign_declared. safe_auto. Qed.

Lemma safeQ_assign_lvalue n lhs nb delay v : safeQ n (assign_lvalue lhs nb delay v).
Proof. unfold assign_lvalue. safe_auto. Qed.

Lemma safeQ_declaration_block n l : safeQ n (declaration_block l).
Proof. unfold declaration_block. safe_auto. Qed.

Lemma safeQ_declare_scoped n r visible is_reg is_signed : safeQ n (declare_scoped r visible is_reg is_signed).
Proof. unfold declare_scoped. safe_auto. Qed.

Lemma safe_no_delay n delay msg : safe n (no_delay delay msg).
Proof. unfold no_delay. safe_auto. Qed.

Lemma safe_accept_sign n b : safe n (accept_sign b).
Proof. unfold accept_sign. safe_auto. Qed.

Lemma safe_for_prefix n : safe n for_prefix.
Proof. unfold for_prefix. safe_auto. Qed.

Lemma safe_optional_label n msg : safe n (optional_label msg).
Proof. unfold optional_label. safe_auto. Qed.

Lemma safe_qualifier n : safe n qualifier.
Proof. unfold qualifier. safe_auto. Qed.

Lemma safe_name_then n sym : safe n (name_then sym).
Proof. intros ts s Hv Hr. destruct ts as [|t0 [|t1 ts]]; by split_and!. Qed.

Lemma safe_accept_shift n sym : safe n (accept_shift sym).
Proof. unfold accept_shift. safe_auto. Qed.

Lemma safe_next_step n : safe n next_step.
Proof. unfold next_step. safe_auto. Qed.

#[export] Hint Resolve safeQ_assign_declared safeQ_assign_lvalue safeQ_declaration_block safeQ_declare_scoped safe_no_delay
  safe_accept_sign safe_for_prefix safe_optional_label safe_qualifier safe_name_then safe_accept_shift safe_next_step : parse.

Lemma safe_assign_operator n env : safe n (assign_operator env).
Proof. unfold assign_operator, skip_until_semicolon. safe_auto. Qed.

Lemma safeQ_qmap {A B} n (f : A -> Q (list B)) l : (forall x, safeQ n (f x)) -> safeQ n (qmap f l).
Proof. intros Hf. induction l as [|x l IH]; cbn [qmap]; safe_auto. Qed.

Lemma safeQ_assign_bits n lhs nb delay msb lsb rhs : safeQ n (assign_bits lhs nb delay msb lsb rhs).
Proof. unfold assign_bits. apply safeQ_bind; [auto with parse|]. intros l. apply safeQ_qmap. safe_auto. Qed.

#[export] Hint Resolve safe_assign_operator safeQ_assign_bits safeQ_qmap : parse.

Lemma safeQ_emit_assignment n lhs nb delay op rhs : safeQ n (emit_assignment lhs nb delay op rhs).
Proof.
  unfold emit_assignment. destruct (_ && _); [safe_auto|].
  destruct (lv_k lhs); [safe_auto..|unfold assign_dynamic_bit|unfold assign_dynamic_indexed|unfold assign_dynamic_part].
  - repeat (apply safeQ_bind; [|intro]); try solve [safe_auto]. apply safeQ_qmap. intros []. unfold dynamic_bit_stmt. safe_auto.
  - safe_auto. apply safeQ_qmap. safe_auto.
  - safe_auto. apply safeQ_qmap. safe_auto. apply safeQ_qmap. safe_auto.
Qed.

Lemma safeQ_find_task n : safeQ n find_task.
Proof. unfold find_task. safe_auto. Qed.

Lemma safeQ_bind_parameters n task_name delay params stmts : safeQ n (bind_parameters task_name delay params stmts).
Proof. revert stmts. induction params as [|[pd a] params IH]; intros stmts; cbn [bind_parameters]; safe_auto. Qed.

Lemma safeQ_copy_out n params stmts : safeQ n (copy_out params stmts).
Proof. revert stmts. induction params as [|[pd a] params IH]; intros stmts; cbn [copy_out]; safe_auto. Qed.

Lemma safeQ_in_call_scope {A} n (c : Q A) : safeQ n c -> safeQ n (in_call_scope c).
Proof. intros Hc w. unfold in_call_scope. apply safe_bind; [apply Hc|]. intros [a w']. apply safe_ret. Qed.

#[export] Hint Resolve safeQ_emit_assignment safeQ_find_task safeQ_bind_parameters safeQ_copy_out : parse.

(** ** Statements that are skipped *)

Lemma safe_looking {A} n (f : list token -> P A) : (forall ts, safe n (f ts)) -> safe n (looking f).
Proof. intros Hf ts s Hv Hr. by apply Hf. Qed.

Lemma takes_if_looking {A} (p : A -> bool) n (f : list token -> P A) : (forall ts, takes_if p n (f ts)) -> takes_if p n (looking f).
Proof. intros Hf ts s Hv Hr Hm. by apply Hf. Qed.

(** A test that fails takes nothing. *)
Lemma takes_if_ret_false n : takes_if id n (mret false).
Proof. by apply takes_if_ret. Qed.

Lemma takes_if_consume {A} (q : A -> bool) n (f : token -> P A) : (forall t n', safe n' (f t)) -> takes_if q n (consume ≫= f).
Proof. intros Hf. apply takes_bind_l; [auto with parse|]. intros t n' _. apply Hf. Qed.

#[export] Hint Resolve takes_if_ret_false : parse.

Lemma safe_system_task n : safe n system_task.
Proof. unfold system_task. safe_auto. Qed.

Lemma takes_if_system_task n : takes_if id n system_task.
Proof.
  unfold system_task. apply takes_bind_r; [auto with parse|safe_auto|]. intros [name|]; [|auto with parse].
  case_bool_decide; [|auto with parse]. apply takes_if_consume. safe_auto.
Qed.

Lemma safe_cast_statement n : safe n cast_statement.
Proof. apply safe_looking. safe_auto. Qed.

Lemma takes_if_cast_statement n : takes_if id n cast_statement.
Proof.
  apply takes_if_looking. intros [|t0 [|t1 [|t2 ts]]]; auto with parse. destruct (_ && _ && _); [|auto with parse].
  apply takes_if_consume. safe_auto.
Qed.

Lemma safe_event_trigger n : safe n event_trigger.
Proof. apply safe_looking. safe_auto. Qed.

Lemma takes_if_event_trigger n : takes_if id n event_trigger.
Proof.
  apply takes_if_looking. intros [|t0 [|t1 ts]]; auto with parse. destruct (_ && _); [|auto with parse].
  apply takes_if_consume. safe_auto.
Qed.

Lemma safe_call_name_loop f n : n < f -> safe n (call_name_loop f).
Proof.
  revert n. induction f as [|f IH]; intros n Hn; [lia|]. cbn [call_name_loop].
  assert (Hseg : forall n', n' < f -> safe n' (t ← peek; if bool_decide (tok_kind t = tk_identifier) then _ ← consume; call_name_loop f else mret false)).
  { intros n' Hn'. apply safe_peek. intros t. case_bool_decide as Hk; [|auto with parse].
    apply safe_at_consume; [by apply is_ident_eof|]. intros n'' ->. apply IH. lia. }
  safe_auto.
Qed.

(** A test after a token was taken that may go back to the tokens [saved]. *)
Definition test_back (saved : list token) (n : nat) (c : P bool) : Prop :=
  forall ts s, valid ts -> remaining ts <= n -> ts `suffix_of` saved -> remaining ts < remaining saved ->
  inside (c ts s) saved /\ match c ts s with Ok (b, ts', _) => b = true -> remaining ts' < remaining saved | _ => True end.

Lemma test_back_safe saved n c : safe n c -> test_back saved n c.
Proof.
  intros Hc ts s Hv Hr Hs Hlt. pose proof (Hc ts s Hv Hr) as Hi. split; [eapply inside_trans; [done|done|lia]|].
  destruct (c ts s) as [[[b ts'] s']| | |]; [|done..]. destruct Hi as (_ & _ & ?). lia.
Qed.

Lemma test_back_bind {A} saved n (c : P A) f : safe n c -> (forall a, test_back saved n (f a)) -> test_back saved n (c ≫= f).
Proof.
  intros Hc Hf ts s Hv Hr Hs Hlt. unfold mbind, P_bind. pose proof (Hc ts s Hv Hr) as Hi.
  destruct (c ts s) as [[[a ts'] s']| | |]; [|done..]. destruct Hi as (Hv' & Hs' & Hr').
  apply Hf; [done|lia|by etransitivity|lia].
Qed.

Lemma test_back_rest saved n : valid saved -> test_back saved n (call_rest saved).
Proof.
  intros Hv. assert (Hback : test_back saved n (go_back saved)) by (intros l s' _ _ _ _; by split_and!).
  unfold call_rest. apply test_back_bind; [apply safe_fueled; intros; apply safe_call_name_loop; lia|]. intros []; [|done].
  apply test_back_bind; [auto with parse|]. intros []; [|done]. apply test_back_safe. safe_auto.
Qed.

Lemma call_statement_test ts s : valid ts ->
  inside (call_statement ts s) ts /\ match call_statement ts s with Ok (b, ts', _) => b = true -> remaining ts' < remaining ts | _ => True end.
Proof.
  intros Hv. destruct (valid_nonempty ts Hv) as (t & ts' & ->). unfold call_statement, looking, mbind, P_bind. cbn [peek].
  case_bool_decide as Hk; cbn [negb]; [|by split_and!]. pose proof (is_ident_eof t Hk) as Ht. unfold consume. rewrite Ht.
  pose proof (remaining_cons t ts' Hv Ht) as Hrem.
  apply (test_back_rest (t :: ts') (remaining ts')); [done|by eapply valid_cons|lia|by apply suffix_cons_r|lia].
Qed.

Lemma safe_call_statement n : safe n call_statement.
Proof. intros ts s Hv _. by apply call_statement_test. Qed.

Lemma takes_if_call_statement n : takes_if id n call_statement.
Proof. intros ts s Hv _ _. by apply call_statement_test. Qed.

#[export] Hint Resolve safe_system_task takes_if_system_task safe_cast_statement takes_if_cast_statement safe_event_trigger
  takes_if_event_trigger safe_call_statement takes_if_call_statement : parse.

(** ** Left-hand sides *)

Section Statements.
Context (inline_call : string -> function_def -> list expr_value -> P expr_value).
Context (Hinline : forall name fd args n, safe n (inline_call name fd args)).

Lemma safe_expr env n : safe n (parse_expr inline_call env).
Proof. by apply safe_parse_expr. Qed.

#[local] Hint Resolve safe_expr : parse.

Lemma safe_lvalue_indexed n mark_reg allow_vector env base e plus :
  safe n (lvalue_indexed inline_call mark_reg allow_vector env base e plus).
Proof. unfold lvalue_indexed. safe_auto. Qed.

Lemma safe_lvalue_part n mark_reg allow_vector env base e : safe n (lvalue_part inline_call mark_reg allow_vector env base e).
Proof. unfold lvalue_part. safe_auto. Qed.

Lemma safe_lvalue_bit n mark_reg base e : safe n (lvalue_bit mark_reg base e).
Proof. unfold lvalue_bit. safe_auto. Qed.

#[local] Hint Resolve safe_lvalue_indexed safe_lvalue_part safe_lvalue_bit : parse.

Lemma safe_lvalue_named n mark_reg allow_vector aliases env : safe n (lvalue_named inline_call mark_reg allow_vector aliases env).
Proof. unfold lvalue_named. safe_auto. apply safe_qualified_loop. lia. Qed.
(** A name was found: a token was taken. *)
Lemma takes_if_expect_ident n what : takes_if (fun name => negb (bool_decide (name = ""%string))) n (expect_ident what).
Proof.
  intros ts s Hv Hr Hm. split; [by eapply safe_expect_ident|]. destruct (valid_nonempty ts Hv) as (t & ts' & ->).
  unfold expect_ident, mbind, P_bind. cbn [peek]. case_bool_decide as Hk; cbn [negb].
  - pose proof (is_ident_eof t Hk) as Ht. unfold consume. rewrite Ht. intros _. rewrite (remaining_cons t ts') by done. lia.
  - unfold err, lift. by destruct (report what s) as [[? ?]|].
Qed.

Lemma takes_if_lvalue_named n mark_reg allow_vector aliases env :
  takes_if fst n (lvalue_named inline_call mark_reg allow_vector aliases env).
Proof.
  unfold lvalue_named. eapply takes_bind_if; [apply takes_if_expect_ident| |].
  - intros name n' Hn ->. apply negb_true_iff in Hn. rewrite Hn. safe_auto. apply safe_qualified_loop. lia.
  - intros name Hn. apply negb_false_iff in Hn. rewrite Hn. split; [auto with parse|by apply takes_if_ret].
Qed.

#[local] Hint Resolve safe_lvalue_named takes_if_lvalue_named : parse.

Lemma safe_parts_loop part g ok any sigs n :
  n < g -> (forall n', n' <= n -> safe n' part) -> (forall n', n' <= n -> takes_if fst n' part) ->
  safe n (lvalue_parts_loop part g ok any sigs).
Proof.
  revert ok any sigs n. induction g as [|g IH]; intros ok any sigs n Hg Hs Ht; [lia|]. cbn [lvalue_parts_loop].
  assert (Hrec : forall ok any sigs n', n' < n -> safe n' (lvalue_parts_loop part g ok any sigs)).
  { intros. apply IH; [lia|intros; apply Hs; lia|intros; apply Ht; lia]. }
  assert (Hfound : forall lv n', n' < n -> safe n' (
    '(ok, sigs) ← (match lv_k lv with
                   | lk_scalar => mret (ok, match lv_scalar_signal lv with Some _ => sigs ++ [lv_scalar_signal lv] | None => sigs end)
                   | lk_vector => mret (ok, sigs ++ lv_vector_signals lv)
                   | _ => _ ← err "unsupported lvalue kind inside concatenation in this subset"; mret (false, sigs)
                   end);
    when accept_symbol "}" then mret (ok, true, sigs)
    else when accept_symbol "," then lvalue_parts_loop part g ok true sigs
    else
      _ ← err "expected ',' or '}' in concatenation lvalue";
      _ ← skip_until "}";
      mret (ok, true, sigs))).
  { intros lv n' Hn'. apply safe_bind; [safe_auto|]. intros [ok' sigs']. safe_auto. }
  assert (Hround : forall n', n' < n -> safe n' (_ ← fueled skip_item_loop;
    when accept_symbol "}" then mret (false, any, sigs) else lvalue_parts_loop part g false any sigs)).
  { intros n' Hn'. safe_auto. }
  apply safe_until_eof; [auto with parse|].
  apply safe_more_branch; [auto with parse..| |].
  - intros n' Hn'. apply safe_bind; [apply Hs; lia|]. intros [[] lv]; cbn [negb]; [apply Hfound; lia|apply Hround; lia].
  - apply (safe_more_takes (fun _ => false)). eapply takes_bind_if; [apply Ht; lia| |].
    + intros [[] lv] n' Hf ->; [|done]. cbn [negb]. apply Hfound. lia.
    + intros [[] lv] Hf; [done|]. cbn [negb]. split; [apply Hround|].
      apply takes_bind_l; [auto with parse|]. intros _ n' ->. safe_auto.
Qed.

Lemma lvalue_fuel_ok f mark_reg allow_vector aliases env n :
  n < f -> safe n (lvalue_fuel inline_call f mark_reg allow_vector aliases env)
    /\ takes_if fst n (lvalue_fuel inline_call f mark_reg allow_vector aliases env).
Proof.
  revert allow_vector n. induction f as [|f IH]; intros allow_vector n Hn; [lia|]. cbn [lvalue_fuel].
  match goal with |- safe _ (branch _ ?c _) /\ _ => assert (Hc : forall n', n = S n' -> safe n' c) end.
  { intros n' ->. apply safe_bind; [safe_auto|]. intros _. apply safe_bind; [|safe_auto]. apply safe_fueled. intros m Hm.
    apply safe_parts_loop; [lia|intros; apply IH; lia..]. }
  split; [apply safe_accept; [done|auto with parse]|apply takes_branch; auto with parse].
Qed.

Lemma safe_parse_lvalue_ref n mark_reg allow_vector aliases env : safe n (parse_lvalue_ref inline_call mark_reg allow_vector aliases env).
Proof. apply safe_fueled. intros m _. apply lvalue_fuel_ok. lia. Qed.

Lemma takes_if_parse_lvalue_ref n mark_reg allow_vector aliases env :
  takes_if fst n (parse_lvalue_ref inline_call mark_reg allow_vector aliases env).
Proof. intros ts s Hv Hr Hm. unfold parse_lvalue_ref, fueled. apply (lvalue_fuel_ok _ _ _ _ _ (remaining ts)); [lia|done..]. Qed.

#[local] Hint Resolve safe_parse_lvalue_ref takes_if_parse_lvalue_ref : parse.

Lemma safeQ_stmt_lvalue n : safeQ n (stmt_lvalue inline_call).
Proof. unfold stmt_lvalue. safe_auto. Qed.

Lemma safeQ_stmt_expr n : safeQ n (stmt_expr inline_call).
Proof. unfold stmt_expr. safe_auto. Qed.

#[local] Hint Resolve safeQ_stmt_lvalue safeQ_stmt_expr : parse.

(** ** Delays and declarations *)

Lemma safe_parse_delay_ticks n : safe n (parse_delay_ticks inline_call).
Proof. unfold parse_delay_ticks. safe_auto. Qed.

Lemma safeQ_names_loop g what declare init n :
  n < g -> (forall name n', n' <= n -> safeQ n' (declare name)) -> safeQ n (names_loop g what declare init).
Proof.
  revert init n. induction g as [|g IH]; intros init n Hn Hd; [lia|]. cbn [names_loop]. apply safeQ_bind; [safe_auto|]. intros name.
  case_bool_decide; [auto with parse|]. apply safeQ_bind; [by apply Hd|]. intros i. apply safeQ_accept; [|safe_auto].
  intros n' ->. apply IH; [lia|]. intros. apply Hd. lia.
Qed.

Lemma safeQ_initializer n env assign :
  safeQ n env -> (forall n' v, n' <= n -> safeQ n' (assign v)) -> (forall n', n' <= n -> safeQ n' env) -> safeQ n (initializer inline_call env assign).
Proof. intros He Ha Hn. unfold initializer. safe_auto. Qed.
Lemma safe_type_range n : safe n (type_range inline_call).
Proof. apply (safe_accept_range n); [|done]. auto with parse. Qed.

#[local] Hint Resolve safe_parse_delay_ticks safe_type_range : parse.

Lemma safeQ_parse_wire_list_stmt n is_reg : safeQ n (parse_wire_list_stmt inline_call is_reg).
Proof. unfold parse_wire_list_stmt. safe_auto. apply safeQ_names_loop; [lia|]. safe_auto. Qed.

Lemma safeQ_parse_wire_list_scoped n is_reg : safeQ n (parse_wire_list_scoped inline_call is_reg).
Proof. unfold parse_wire_list_scoped. safe_auto. apply safeQ_names_loop; [lia|]. safe_auto. apply safeQ_initializer; safe_auto. Qed.

Lemma safeQ_parse_packed_int_list_stmt n msb lsb b : safeQ n (parse_packed_int_list_stmt inline_call msb lsb b).
Proof. unfold parse_packed_int_list_stmt. safe_auto. apply safeQ_names_loop; [lia|]. safe_auto. apply safeQ_initializer; safe_auto. Qed.

Lemma safeQ_parse_packed_int_list_scoped n msb lsb b : safeQ n (parse_packed_int_list_scoped inline_call msb lsb b).
Proof. unfold parse_packed_int_list_scoped. safe_auto. apply safeQ_names_loop; [lia|]. safe_auto. apply safeQ_initializer; safe_auto. Qed.

#[local] Hint Resolve safeQ_parse_wire_list_stmt safeQ_parse_wire_list_scoped safeQ_parse_packed_int_list_stmt safeQ_parse_packed_int_list_scoped : parse.

Lemma safeQ_wire_declaration n delay is_reg : safeQ n (wire_declaration inline_call delay is_reg).
Proof. unfold wire_declaration. safe_auto. Qed.

Lemma safeQ_int_declaration n delay msb : safeQ n (int_declaration inline_call delay msb).
Proof. unfold int_declaration. safe_auto. Qed.

(** ** Loop headers, calls and assignments *)

Lemma safe_for_step n sym msg op env : safe n (for_step inline_call sym msg op env).
Proof. unfold for_step. safe_auto. Qed.

#[local] Hint Resolve safeQ_wire_declaration safeQ_int_declaration safe_for_step : parse.

Lemma safe_for_operation n env : safe n (for_operation inline_call env).
Proof. unfold for_operation. safe_auto. Qed.

#[local] Hint Resolve safe_for_operation : parse.

Lemma safeQ_parse_for_stmt n terminator : safeQ n (parse_for_stmt inline_call terminator).
Proof. unfold parse_for_stmt, parse_integer_list_scoped, parse_for_assignment, for_assign. safe_auto. Qed.

Lemma safeQ_parse_actuals n first params : safeQ n (parse_actuals inline_call first params).
Proof.
  revert first n. induction params as [|pd params IH]; intros first n; cbn [parse_actuals]; [auto with parse|].
  apply safeQ_branch; [destruct first; auto with parse| |]; unfold parse_actual; safe_auto.
Qed.

Lemma safeQ_assign_rhs n env prefix : safeQ n (assign_rhs inline_call env prefix).
Proof. unfold assign_rhs. safe_auto. Qed.

#[local] Hint Resolve safeQ_parse_for_stmt safeQ_parse_actuals safeQ_assign_rhs : parse.

Lemma safeQ_assignment_statement n env delay : safeQ n (assignment_statement inline_call env delay).
Proof. unfold assignment_statement, skip_until_semicolon. safe_auto. Qed.

Lemma safeQ_return_statement n env delay : safeQ n (return_statement inline_call env delay).
Proof. unfold return_statement, return_value. safe_auto. Qed.

Lemma safeQ_matches_loop g l n : n < g -> safeQ n (matches_loop inline_call g l).
Proof. revert l n. induction g as [|g IH]; intros l n Hn; [lia|]. cbn [matches_loop]. safe_auto. Qed.
#[local] Hint Resolve safeQ_assignment_statement safeQ_return_statement safeQ_matches_loop : parse.

(** ** Statements *)

Section Statement.
Context (task_body : stmt_env -> string -> Q (list index)).
Context (Htask : forall env txt n, safeQ n (task_body env txt)).
(** [f] is the fuel of the recursive call; it is enough for fewer tokens. *)
Context (f : nat) (self : Q index) (env : stmt_env).
Context (Hself : forall n, n < f -> safeQ n self) (Htakes : forall n, n < f -> takesQ n self).

Lemma safeQ_block_loop g stmts n : n < g -> n < f -> safeQ n (block_loop self g stmts).
Proof.
  revert stmts n. induction g as [|g IH]; intros stmts n Hg Hf; [lia|]. cbn [block_loop].
  apply safeQ_rounds; [auto with parse|]. apply takesQ_branch; [auto with parse..|safe_auto|].
  apply takesQ_bind_l; [by apply Htakes|]. safe_auto.
Qed.

Lemma safeQ_case_loop g w items n : n < g -> n < f -> safeQ n (case_loop inline_call self g w items).
Proof.
  revert items n. induction g as [|g IH]; intros items n Hg Hf; [lia|]. cbn [case_loop].
  apply safeQ_rounds; [auto with parse|]. do 2 (apply takesQ_branch; [safe_auto..|]).
  apply takesQ_bind_r; [safe_auto..|]. intros matches. apply takesQ_bind_r; [safe_auto..|]. intros _.
  apply takesQ_bind_l; [by apply Htakes|]. safe_auto.
Qed.

#[local] Hint Resolve safeQ_block_loop safeQ_case_loop : parse.

Lemma safeQ_keyword_statements delay n kw c : n < f -> (kw, c) ∈ keyword_statements inline_call self env delay -> safeQ n c.
Proof.
  intros Hf. unfold keyword_statements. rewrite !elem_of_cons, elem_of_nil.
  intros Hc. repeat destruct Hc as [[= _ ->]|Hc]; [..|done];
    unfold jump_statement, block_statement, if_statement, repeat_statement, foreach_statement, do_while_statement, while_statement,
      for_statement, for_condition, case_statement, paren_cond, paren_expr; safe_auto.
Qed.

Lemma first_keyword_ok n l rest : (forall kw c n', (kw, c) ∈ l -> n = S n' -> safeQ n' c) -> safeQ n rest -> takesQ n rest ->
  safeQ n (first_keyword l rest) /\ takesQ n (first_keyword l rest).
Proof.
  intros Hl Hs Ht. induction l as [|[kw c] l IH]; cbn [first_keyword]; [done|].
  assert (Hc : forall n', n = S n' -> safeQ n' c) by (intros; by eapply Hl; [left|]).
  destruct IH as [IHs IHt]. { intros. by eapply Hl; [right|]. }
  split; [by apply safeQ_accept_kw|]. apply takesQ_branch; [auto with parse|done| |done]. intros n' Hn' wk.
  eapply safe_mono; [|apply IHs]. lia.
Qed.

(** An ignored statement. *)
Lemma ignored_ok n c rest : safe n c -> takes_if id n c -> safeQ n rest /\ takesQ n rest ->
  safeQ n (ignored c rest) /\ takesQ n (ignored c rest).
Proof.
  intros Hc Ht [Hs Hr]. unfold ignored. split; [by apply safeQ_branch; [|auto with parse|]|].
  apply takesQ_branch; [done|auto with parse| |done]. intros n' Hn' wk. eapply safe_mono; [|apply Hs]. lia.
Qed.

Lemma takes_ifQ_stmt_lvalue n : takes_ifQ fst n (stmt_lvalue inline_call).
Proof. unfold stmt_lvalue. do 2 (apply takesQ_bind_r; [safe_auto..|intro]). apply takesQ_lp; auto with parse. Qed.

Lemma takesQ_assignment n delay : takesQ n (assignment_statement inline_call env delay).
Proof.
  unfold assignment_statement, skip_until_semicolon. apply takesQ_bind_r; [safe_auto..|]. intros prefix.
  eapply takesQ_bind_if; [apply takes_ifQ_stmt_lvalue|safe_auto|]. intros [[] lhs] Hf; [done|]. cbn [negb].
  apply takesQ_bind_l; [|safe_auto]. apply takesQ_lp; auto with parse.
Qed.

Lemma safeQ_task_call n delay name td : safeQ n (task_call inline_call task_body env delay name td).
Proof. unfold task_call. safe_auto. apply safeQ_in_call_scope. safe_auto. Qed.

Lemma takesQ_task_call n delay name td : takesQ n (task_call inline_call task_body env delay name td).
Proof.
  unfold task_call. apply takesQ_bind_l; [apply takesQ_lp; auto with parse|]. intros _ n' _. safe_auto. apply safeQ_in_call_scope. safe_auto.
Qed.

Lemma call_or_assignment_ok n delay :
  safeQ n (call_or_assignment inline_call task_body env delay) /\ takesQ n (call_or_assignment inline_call task_body env delay).
Proof.
  set (rest := ignored system_task (ignored cast_statement (ignored call_statement (assignment_statement inline_call env delay)))).
  assert (Hrest : forall n, safeQ n rest /\ takesQ n rest).
  { intros m. unfold rest. do 3 (apply ignored_ok; [auto with parse..|]). split; [auto with parse|apply takesQ_assignment]. }
  unfold call_or_assignment. fold rest.
  assert (Hs : forall m, safeQ m (call_or_assignment inline_call task_body env delay)).
  { intros m. unfold call_or_assignment. apply safeQ_bind; [auto with parse|]. intros [[name td]|]; [apply safeQ_task_call|apply Hrest]. }
  split; [apply Hs|]. apply takesQ_bind_r; [auto with parse| |]; intros [[name td]|]; intros; [apply safeQ_task_call|apply Hrest|apply takesQ_task_call|apply Hrest].
Qed.

Lemma event_control_ok n : n < f -> safeQ n (event_control self).
Proof. intros Hn. unfold event_control. safe_auto. Qed.

Lemma delayed_statement_ok n delay : n <= f ->
  safeQ n (delayed_statement inline_call task_body self env delay) /\ takesQ n (delayed_statement inline_call task_body self env delay).
Proof.
  intros Hn. set (rest := ignored event_trigger (first_keyword (keyword_statements inline_call self env delay)
    (call_or_assignment inline_call task_body env delay))).
  assert (Hrest : forall m, m <= n -> safeQ m rest /\ takesQ m rest).
  { intros m Hm. destruct (first_keyword_ok m (keyword_statements inline_call self env delay)
      (call_or_assignment inline_call task_body env delay)) as [Hs Ht]; [|apply call_or_assignment_ok..|].
    - intros kw c n' Hin ->. eapply safeQ_keyword_statements; [|done]. lia.
    - apply ignored_ok; auto with parse. }
  assert (Htail : forall m, m <= n -> safeQ m (whenq accept_symbol "@" then event_control self else rest)).
  { intros m Hm. apply safeQ_accept; [|by apply Hrest]. intros n' ->. apply event_control_ok. lia. }
  unfold delayed_statement. fold rest. split; [apply safeQ_bind; [safe_auto|]; intros _; by apply Htail|].
  apply takesQ_bind_r; [safe_auto|intros; apply Htail; lia|]. intros _.
  apply takesQ_branch; [auto with parse|intros n' ->; apply event_control_ok; lia|intros; apply Hrest; lia|by apply Hrest].
Qed.

Lemma statement_ok n : n <= f ->
  safeQ n (statement inline_call task_body self env) /\ takesQ n (statement inline_call task_body self env).
Proof.
  intros Hn. assert (Hd : forall m delay, m <= n -> safeQ m (delayed_statement inline_call task_body self env delay)).
  { intros. apply delayed_statement_ok. lia. }
  unfold statement. split; [safe_auto|]. do 2 (apply takesQ_branch; [safe_auto..|]). by apply delayed_statement_ok.
Qed.
End Statement.

Lemma proc_fuel_ok task_body f env n :
  (forall env txt n, safeQ n (task_body env txt)) -> n < f ->
  safeQ n (proc_fuel inline_call task_body f env) /\ takesQ n (proc_fuel inline_call task_body f env).
Proof.
  intros Htask. revert n. induction f as [|f IH]; intros n Hn; [lia|]. cbn [proc_fuel].
  apply (statement_ok task_body Htask f); [intros; by apply IH..|lia].
Qed.

Lemma safeQ_parse_proc_stmt task_body env n :
  (forall env txt n, safeQ n (task_body env txt)) -> safeQ n (parse_proc_stmt inline_call task_body env).
Proof. intros Htask. apply safeQ_fueled. intros m Hm. apply proc_fuel_ok; [done|lia]. Qed.

Lemma takesQ_parse_proc_stmt task_body env n :
  (forall env txt n, safeQ n (task_body env txt)) -> takesQ n (parse_proc_stmt inline_call task_body env).
Proof. intros Htask. apply takesQ_fueled. intros m Hm. apply proc_fuel_ok; [done|lia]. Qed.
End Statements.

(** ** Bodies of tasks and functions *)

Lemma safe_on_tokens {A} n toks (c : P A) : valid toks -> safe (remaining toks) c -> safe n (on_tokens toks c).
Proof.
  intros Ht Hc ts s Hv Hr. unfold on_tokens. pose proof (Hc toks s Ht (le_n _)) as Hi. by destruct (c toks s) as [[[a ts'] s']| | |].
Qed.

Section Bodies.
Context (proc : stmt_env -> Q index).
Context (Hproc : forall env n, safeQ n (proc env)) (Htakes : forall env n, takesQ n (proc env)).

Lemma safe_consume_if_stuck n before : safe n (consume_if_stuck before).
Proof.
  intros ts s Hv Hr. unfold consume_if_stuck. case_bool_decide; [|by split_and!]. revert ts s Hv Hr H. intros ts s Hv Hr _.
  eapply (safe_bind n consume); [auto with parse..|done|done].
Qed.

#[local] Hint Resolve safe_consume_if_stuck : parse.

Lemma safeQ_body_statement env n : safeQ n (body_statement proc env).
Proof.
  intros w ts s Hv Hr. unfold body_statement. eapply (safeQ_bind n (proc env)); [done|safe_auto|done|done].
Qed.

Lemma takesQ_body_statement env n : takesQ n (body_statement proc env).
Proof.
  intros w ts s Hv Hr Hm. unfold body_statement. eapply (takesQ_bind_l n (proc env)); [done|safe_auto|done..].
Qed.

Lemma safeQ_body_loop g env stmts n : n < g -> safeQ n (body_loop proc g env stmts).
Proof.
  revert stmts n. induction g as [|g IH]; intros stmts n Hg; [lia|]. cbn [body_loop].
  apply safeQ_rounds; [auto with parse|]. apply takesQ_bind_l; [apply takesQ_body_statement|]. intros i n' Hn'. apply IH. lia.
Qed.

Lemma safeQ_task_body env txt n : safeQ n (task_body proc env txt).
Proof.
  intros w. unfold task_body. apply safe_on_tokens; [apply lex_valid|]. apply safeQ_fueled. intros m _. apply safeQ_body_loop. lia.
Qed.

Lemma safe_inline_function name fd args n : safe n (inline_function proc name fd args).
Proof.
  unfold inline_function. safe_auto. apply safe_on_tokens; [apply lex_valid|apply Hproc].
Qed.
End Bodies.

(** ** Nested calls *)

Lemma safe_too_deep {A} n : safe n (too_deep (A := A)).
Proof. by intros ts s Hv Hr. Qed.

Lemma proc_at_ok d env n : safeQ n (proc_at d env) /\ takesQ n (proc_at d env).
Proof.
  revert env n. induction d as [|d IH]; intros env n; cbn [proc_at].
  - split; [apply safeQ_parse_proc_stmt|apply takesQ_parse_proc_stmt]; intros; first [apply safe_too_deep|apply safeQ_lp, safe_too_deep].
  - split; [apply safeQ_parse_proc_stmt|apply takesQ_parse_proc_stmt]; intros;
      first [apply safe_inline_function|apply safeQ_task_body]; intros; apply IH.
Qed.

Lemma expr_at_ok d env n : safe n (expr_at d env).
Proof.
  apply safe_parse_expr. intros name fd args m. destruct d as [|d]; [apply safe_too_deep|]. apply safe_inline_function. intros. apply proc_at_ok.
Qed.

(** The parser of statements and the parser of expressions terminate on every source text.  With calls nested at
    most [d] deep in inlined tasks and functions, whatever the source, the scope and the module parsed so far, neither
    runs out of fuel - each loop and each recursion of the code takes a token - and where one returns, the tokens left
    are a rest of the tokens of the source with its end token, and a statement has taken at least one of them unless
    there was none.  (Undefined results are the unchecked accesses of the builder; calls that nest deeper than [d] are
    told apart as [TooDeep].) *)
Lemma parser_terminates (d : nat) (src : list ascii) (smap : option (list (Z * Z))) (env : stmt_env) (penv : parse_env)
  (w : work) (s : pstate) :
  let toks := lr_tokens (lex src smap) in
  match proc_at d env w toks s with
  | Ok (_, rest, _) => rest `suffix_of` toks /\ valid rest /\ (more toks -> length rest < length toks)
  | OutOfFuel => False
  | Undefined | TooDeep => True
  end
  /\ match expr_at d penv toks s with
     | Ok (_, rest, _) => rest `suffix_of` toks /\ valid rest
     | OutOfFuel => False
     | Undefined | TooDeep => True
     end.
Proof.
  intros toks. pose proof (lex_valid src smap) as Hv. fold toks in Hv. split.
  - destruct (proc_at_ok d env (remaining toks)) as [Hs Ht]. pose proof (Hs w toks s Hv (le_n _)) as Hi. pose proof (Ht w toks s Hv (le_n _)) as Hm.
    destruct (proc_at d env w toks s) as [[[a rest] s']| | |]; [|done..]. destruct Hi as (Hv' & Hs' & Hr').
    split_and!; [done|done|]. intros Hmore. destruct (Hm Hmore) as [_ Hlt]. specialize (Hlt eq_refl). unfold remaining in Hlt. lia.
  - pose proof (expr_at_ok d penv (remaining toks) toks s Hv (le_n _)) as Hi.
    destruct (expr_at d penv toks s) as [[[a rest] s']| | |]; [|done..]. by destruct Hi as (Hv' & Hs' & Hr').
Qed.

(** ** Calls without end *)

Lemma bindQ_ok {A B} (c : Q A) (f : A -> Q B) w ts s a w' ts' s' :
  c w ts s = Ok (a, w', ts', s') -> (c ≫= f) w ts s = f a w' ts' s'.
Proof. intros E. unfold mbind, Q_bind, mbind, P_bind. by rewrite E. Qed.

Lemma bind_too_deep {A B} (c : P A) (f : A -> P B) ts s : c ts s = TooDeep -> (c ≫= f) ts s = TooDeep.
Proof. intros E. unfold mbind, P_bind. by rewrite E. Qed.

Lemma bindQ_too_deep {A B} (c : Q A) (f : A -> Q B) w ts s : c w ts s = TooDeep -> (c ≫= f) w ts s = TooDeep.
Proof. apply bind_too_deep. Qed.

(** [task t; t(); endtask] *)
Definition endless : task_def := mk_task [] "t();".

Lemma endless_statement inline_call body env w s :
  cm_tasks (ps_m s) !! "t"%string = Some endless -> (forall env w ts, body env "t();"%string w ts s = TooDeep) ->
  parse_proc_stmt inline_call body env w (lex_string "t();") s = TooDeep.
Proof.
  intros Ht Hb. unfold parse_proc_stmt, fueled_q. cbn [proc_fuel].
  assert (Hcall : forall self, statement inline_call body self env w (lex_string "t();") s
    = call_or_assignment inline_call body env 0 w (lex_string "t();") s) by (intros self; lazy -[call_or_assignment]; reflexivity).
  rewrite Hcall. unfold call_or_assignment.
  assert (Hfind : find_task w (lex_string "t();") s = Ok (Some ("t"%string, endless), w, lex_string "t();", s)).
  { unfold find_task. erewrite bindQ_ok by reflexivity. erewrite bindQ_ok by reflexivity. unfold mret, Q_ret. simpl. by rewrite Ht. }
  rewrite (bindQ_ok _ _ _ _ _ _ _ _ _ Hfind). unfold task_call. do 5 (erewrite bindQ_ok by reflexivity).
  apply bindQ_too_deep. unfold in_call_scope. apply bind_too_deep. erewrite bindQ_ok by reflexivity. by apply bindQ_too_deep.
Qed.

(** C39. A task that calls itself is never parsed.  A call is parsed by parsing the body of the task in its place, and
    nothing bounds the depth: for the task [t] whose body is [t();], the call [t();] needs deeper nesting than any
    depth [d], so the code recurses until its stack ends.  (The language allows recursive tasks.) *)
Theorem recursive_task_not_parsed (d : nat) (env : stmt_env) (w : work) (s : pstate) :
  cm_tasks (ps_m s) !! "t"%string = Some endless -> proc_at d env w (lex_string "t();") s = TooDeep.
Proof.
  intros Ht. revert env w. induction d as [|d IH]; intros env w; cbn [proc_at]; apply endless_statement; try done.
  intros env' w' ts. unfold task_body, on_tokens, fueled_q. cbn [body_loop].
  assert (E : forall g, qbranch eof (mret []) (i ← body_statement (proc_at d) env'; body_loop (proc_at d) g env' ([] ++ [i])) w' (lex_string "t();") s
    = (i ← body_statement (proc_at d) env'; body_loop (proc_at d) g env' ([] ++ [i])) w' (lex_string "t();") s) by reflexivity.
  rewrite E, bindQ_too_deep; [done|]. unfold body_statement. by apply bindQ_too_deep.
Qed.

Definition endless_module : compiled_module :=
  mk_module "" [] [] ∅ ∅ [] [] [] [] [] [] ∅ [] ∅ ∅ [] ∅ [] [] [] [] [] ∅ {["t"%string := endless]} 0.

Lemma recursive_task_not_parsed_witness :
  proc_at 100 (mk_stmt_env true "") (mk_work [] None) (lex_string "t();") (mk_pstate endless_module []) = TooDeep.
Proof. apply (recursive_task_not_parsed 100). reflexivity. Defined.
