(* ===== verification/VStmtBuild.v ===== *)
(** * Verilog: what the statement parser builds can be run

    The parser adds a statement to the arena after the statements it mentions
    and never changes one that is there.  So the arena stays acyclic, which is
    what VExec needs to run any of its statements to an end. *)

From S2P Require Import Prelude Logic4 VModule VEval VExec VLower VBits VLiteral VLex VSignals VParse VStmt.
From Stdlib Require Import ZArith Lia Ascii.

(** What each result of a loop over a list satisfies. *)
Lemma lmap_Forall {A B} (Pr : B -> Prop) (f : A -> L B) l s ys s' :
  (forall x s y s', f x s = Some (y, s') -> Pr y) -> lmap f l s = Some (ys, s') -> Forall Pr ys.
Proof.
  intros Hf. revert s ys s'. induction l as [|x l IH]; intros s ys s'; [by intros [= <- <-]|]. cbn.
  unfold mbind, L_bind, mbind, option_bind. destruct (f x s) as [[y s1]|] eqn:Hx; [|done].
  destruct (lmap f l s1) as [[ys' s2]|] eqn:Hl; [|done]. intros [= <- <-]. constructor; [by eapply Hf|by eapply IH].
Qed.

(** ** Indices into an arena *)

(** The statements of [l] are among the first [k]; [SIZE_MAX] is no statement. *)
Definition below (k : nat) (l : list index) : Prop := forall j, Some j ∈ l -> j < k.

(** A statement among the first [k]. *)
Definition stored (k : nat) (i : index) : Prop := exists j, i = Some j /\ j < k.

Create HintDb build discriminated.

Lemma below_nil k : below k [].
Proof. intros j Hj. by apply elem_of_nil in Hj. Qed.

Lemma below_mono k k' l : k <= k' -> below k l -> below k' l.
Proof. intros Hk Hl j Hj. specialize (Hl j Hj). lia. Qed.

Lemma below_app k l1 l2 : below k l1 -> below k l2 -> below k (l1 ++ l2).
Proof. intros H1 H2 j [Hj|Hj]%elem_of_app; auto. Qed.

Lemma below_cons k i l : below k [i] -> below k l -> below k (i :: l).
Proof. intros Hi Hl. by apply (below_app k [i] l). Qed.

Lemma below_none k : below k [None].
Proof. by intros j [[=]|[]%elem_of_nil]%elem_of_cons. Qed.

Lemma below_replicate k i n : below k [i] -> below k (replicate n i).
Proof. intros Hi. induction n as [|n IH]; [apply below_nil|by apply below_cons]. Qed.

Lemma stored_mono k k' i : k <= k' -> stored k i -> stored k' i.
Proof. intros Hk (j & -> & Hj). exists j. split; [done|lia]. Qed.

Lemma below_stored k i : stored k i -> below k [i].
Proof. intros (j & -> & Hj) j' [[= ->]|[]%elem_of_nil]%elem_of_cons. done. Qed.

#[export] Hint Resolve below_nil below_none below_app below_replicate : build.
#[export] Hint Extern 1 (below _ (_ :: ?l)) => lazymatch l with [] => fail | _ => apply below_cons end : build.
#[export] Hint Extern 2 (below _ _) => eapply below_mono; [|eassumption]; lia : build.
#[export] Hint Extern 3 (below _ [_]) => apply below_stored; eapply stored_mono; [|eassumption]; lia : build.
#[export] Hint Extern 2 (stored _ _) => eapply stored_mono; [|eassumption]; lia : build.

(** ** Steps that build *)

(** From an acyclic arena of at least [k] statements the step leads to an
    acyclic one that continues it, and what it returns satisfies [R] there. *)
Definition builds {A} (R : nat -> A -> Prop) (k : nat) (c : Q A) : Prop :=
  forall w ts s, stmts_acyclic (wk_arena w) -> k <= length (wk_arena w) ->
  match c w ts s with
  | Ok ((a, w'), _, _) =>
      stmts_acyclic (wk_arena w') /\ wk_arena w `prefix_of` wk_arena w' /\ R (length (wk_arena w')) a
  | _ => True
  end.

Definition anything {A} (k : nat) (a : A) : Prop := True.

Lemma builds_bind {A B} (R : nat -> A -> Prop) (R' : nat -> B -> Prop) k (c : Q A) (f : A -> Q B) :
  builds R k c -> (forall a k', k <= k' -> R k' a -> builds R' k' (f a)) -> builds R' k (c ≫= f).
Proof.
  intros Hc Hf w ts s Ha Hk. unfold mbind, Q_bind, mbind, P_bind. specialize (Hc w ts s Ha Hk).
  destruct (c w ts s) as [[[[a w'] ts'] s']| | |]; [|done..]. destruct Hc as (Ha' & Hp & Hr).
  pose proof (prefix_length _ _ Hp) as Hl. specialize (Hf a (length (wk_arena w')) ltac:(lia) Hr w' ts' s' Ha' (le_n _)).
  destruct (f a w' ts' s') as [[[[b w''] ts''] s'']| | |]; [|done..]. destruct Hf as (Ha'' & Hp' & Hr'). split_and!; [done|by etransitivity|done].
Qed.

Lemma builds_ret {A} (R : nat -> A -> Prop) k a : (forall k', k <= k' -> R k' a) -> builds R k (mret a).
Proof. intros Hr w ts s Ha Hk. split_and!; [done|done|by apply Hr]. Qed.

Lemma builds_lp {A} k (c : P A) : builds anything k (lp c).
Proof.
  intros w ts s Ha Hk. unfold lp, mbind, P_bind. destruct (c ts s) as [[[a ts'] s']| | |]; [|done..]. by split_and!.
Qed.

Lemma builds_ll {A} k (c : L A) : builds anything k (ll c).
Proof. apply builds_lp. Qed.

Lemma builds_out_of_fuel {A} (R : nat -> A -> Prop) k : builds R k (lp out_of_fuel).
Proof. by intros w ts s Ha Hk. Qed.

Lemma builds_too_deep {A} (R : nat -> A -> Prop) k : builds R k (lp too_deep).
Proof. by intros w ts s Ha Hk. Qed.

Lemma builds_branch {A} (R : nat -> A -> Prop) k c (a b : Q A) : builds R k a -> builds R k b -> builds R k (qbranch c a b).
Proof.
  intros Ha Hb w ts s Hac Hk. unfold qbranch, branch, mbind, P_bind. destruct (c ts s) as [[[[] ts'] s']| | |]; [by apply Ha|by apply Hb|done..].
Qed.

Lemma builds_fueled {A} (R : nat -> A -> Prop) k (f : nat -> Q A) : (forall n, builds R k (f n)) -> builds R k (fueled_q f).
Proof. intros Hf w ts s Ha Hk. by apply Hf. Qed.

Lemma builds_mono {A} (R : nat -> A -> Prop) k k' (c : Q A) : k <= k' -> builds R k c -> builds R k' c.
Proof. intros Hk Hc w ts s Ha Hk'. apply Hc; [done|lia]. Qed.

Lemma builds_weaken {A} (R R' : nat -> A -> Prop) k (c : Q A) : (forall k a, R k a -> R' k a) -> builds R k c -> builds R' k c.
Proof.
  intros Hr Hc w ts s Ha Hk. specialize (Hc w ts s Ha Hk). destruct (c w ts s) as [[[[a w'] ts'] s']| | |]; [|done..].
  destruct Hc as (? & ? & ?). split_and!; auto.
Qed.

(** The statements it mentions are there: the arena stays acyclic. *)
Lemma builds_add k n : below k (stmt_children n) -> builds stored k (add_stmt n).
Proof.
  intros Hn w ts s Ha Hk. cbn. split_and!.
  - intros i n' j [Hi|[Hge Hi]]%lookup_app_Some Hj; [by eapply Ha|]. destruct (i - length (wk_arena w)) eqn:E; [|done].
    injection Hi as <-. specialize (Hn j Hj). lia.
  - by apply prefix_app_r.
  - exists (length (wk_arena w)). split; [done|]. rewrite length_app. simpl. lia.
Qed.

Lemma builds_same {A} k (f : work -> A) (g : work -> option proc_scope) :
  builds anything k (fun w => mret (f w, mk_work (wk_arena w) (g w))).
Proof. intros w ts s Ha Hk. by split_and!. Qed.

Lemma builds_ret_any {A} k (a : A) : builds anything k (mret a).
Proof. by apply builds_ret. Qed.

Lemma builds_modify_scope k f : builds anything k (modify_scope f).
Proof. apply (builds_same k (fun _ => ()) (fun w => f <$> wk_scope w)). Qed.

Lemma builds_scope_env k : builds anything k scope_env.
Proof. intros w ts s Ha Hk. by split_and!. Qed.

Lemma builds_scope_aliases k : builds anything k scope_aliases.
Proof. intros w ts s Ha Hk. by split_and!. Qed.

Lemma builds_has_scope k : builds anything k has_scope.
Proof. intros w ts s Ha Hk. by split_and!. Qed.

#[export] Hint Resolve builds_ret_any builds_ll builds_lp builds_out_of_fuel builds_modify_scope builds_scope_env builds_scope_aliases builds_has_scope : build.
#[export] Hint Extern 2 (anything _ _) => exact I : build.

(** One step of a proof that a step of the parser builds: by its head. *)
Ltac builds_step :=
  match goal with
  | |- forall _, _ => intro
  | |- builds _ _ (mret _) => apply builds_ret; intros
  | |- builds _ _ (fueled_q _) => apply builds_fueled
  | |- builds _ _ (qbranch _ _ _) => apply builds_branch
  | |- builds _ _ (add_stmt _) => apply builds_add; unfold stmt_children; cbn -[below]
  | |- builds _ _ (mbind _ _) => eapply builds_bind
  | |- builds _ _ (match ?x with _ => _ end) => destruct x
  | H : context [builds _ _ ?c] |- builds _ _ ?c => eapply H; solve [eauto with build | lia]
  end.

Ltac builds_auto := repeat first [solve [eauto with build] | builds_step].

Lemma builds_assign_scalar k nb delay sig v : builds stored k (assign_scalar nb delay sig v).
Proof. unfold assign_scalar. builds_auto. Qed.

Lemma builds_assign_vector k nb delay sigs v : builds stored k (assign_vector nb delay sigs v).
Proof. unfold assign_vector. builds_auto. Qed.

#[export] Hint Resolve builds_assign_scalar builds_assign_vector : build.

Lemma builds_assign_declared k r bits v : builds stored k (assign_declared r bits v).
Proof. unfold assign_declared. builds_auto. Qed.

Lemma builds_assign_lvalue k lhs nb delay v : builds stored k (assign_lvalue lhs nb delay v).
Proof. unfold assign_lvalue. builds_auto. Qed.

Lemma builds_declaration_block k l : below k l -> builds stored k (declaration_block l).
Proof. intros Hl. unfold declaration_block. builds_auto. Qed.

#[export] Hint Resolve builds_assign_declared builds_assign_lvalue builds_declaration_block : build.

(** An initial value, or none. *)
Definition maybe_stored (k : nat) (o : option index) : Prop := match o with Some i => below k [i] | None => True end.

Lemma maybe_stored_some k i : stored k i -> maybe_stored k (Some i).
Proof. apply below_stored. Qed.

Lemma maybe_stored_none k : maybe_stored k None.
Proof. done. Qed.

#[export] Hint Resolve maybe_stored_some maybe_stored_none : build.

Lemma builds_names_loop g what declare k init :
  below k init -> (forall name k', k <= k' -> builds maybe_stored k' (declare name)) -> builds stored k (names_loop g what declare init).
Proof.
  revert k init. induction g as [|g IH]; intros k init Hi Hd; cbn [names_loop]; [auto with build|].
  eapply builds_bind; [auto with build|]. intros name k' Hk' _. case_bool_decide; [builds_auto|].
  eapply builds_bind; [apply Hd; lia|]. intros o k'' Hk'' Ho.
  assert (Hl : below k'' (match o with Some i => init ++ [i] | None => init end)).
  { destruct o; [apply below_app; [|done]|]; (eapply below_mono; [|done]; lia). }
  apply builds_branch; [apply IH; [done|intros; apply Hd; lia]|]. builds_auto.
Qed.

Lemma builds_initializer inline_call k env assign :
  builds anything k env -> (forall k' v, builds stored k' (assign v)) -> builds maybe_stored k (initializer inline_call env assign).
Proof. intros He Ha. unfold initializer. builds_auto. Qed.

Lemma builds_declare_scoped k r visible is_reg is_signed : builds anything k (declare_scoped r visible is_reg is_signed).
Proof. unfold declare_scoped. builds_auto. Qed.

#[export] Hint Resolve builds_initializer builds_declare_scoped : build.

Section Parser.
Context (inline_call : string -> function_def -> list expr_value -> P expr_value).

Lemma builds_parse_wire_list_stmt k is_reg : builds stored k (parse_wire_list_stmt inline_call is_reg).
Proof. unfold parse_wire_list_stmt. builds_auto. apply builds_names_loop; [auto with build|]. builds_auto. Qed.

Lemma builds_parse_wire_list_scoped k is_reg : builds stored k (parse_wire_list_scoped inline_call is_reg).
Proof. unfold parse_wire_list_scoped. builds_auto. apply builds_names_loop; [auto with build|]. builds_auto. Qed.

Lemma builds_parse_packed_int_list_stmt k msb lsb b : builds stored k (parse_packed_int_list_stmt inline_call msb lsb b).
Proof. unfold parse_packed_int_list_stmt. builds_auto. apply builds_names_loop; [auto with build|]. builds_auto. Qed.

Lemma builds_parse_packed_int_list_scoped k msb lsb b : builds stored k (parse_packed_int_list_scoped inline_call msb lsb b).
Proof. unfold parse_packed_int_list_scoped. builds_auto. apply builds_names_loop; [auto with build|]. builds_auto. Qed.

Lemma builds_stmt_lvalue k : builds anything k (stmt_lvalue inline_call).
Proof. unfold stmt_lvalue. builds_auto. Qed.

Lemma builds_stmt_expr k : builds anything k (stmt_expr inline_call).
Proof. unfold stmt_expr. builds_auto. Qed.
#[local] Hint Resolve builds_parse_wire_list_stmt builds_parse_wire_list_scoped builds_parse_packed_int_list_stmt
  builds_parse_packed_int_list_scoped builds_stmt_lvalue builds_stmt_expr : build.

Lemma builds_wire_declaration k delay is_reg : builds stored k (wire_declaration inline_call delay is_reg).
Proof. unfold wire_declaration. builds_auto. Qed.

Lemma builds_int_declaration k delay msb : builds stored k (int_declaration inline_call delay msb).
Proof. unfold int_declaration. builds_auto. Qed.

(** ** Assignments *)

Lemma builds_qmap {A} k (f : A -> Q (list index)) l : (forall x k', k <= k' -> builds below k' (f x)) -> builds below k (qmap f l).
Proof.
  revert k. induction l as [|x l IH]; intros k Hf; cbn [qmap]; [builds_auto|].
  eapply builds_bind; [by apply Hf|]. intros ys k1 Hk1 Hys. eapply builds_bind; [apply IH; intros; apply Hf; lia|].
  intros zs k2 Hk2 Hzs. builds_auto.
Qed.

Lemma builds_assign_bits k lhs nb delay msb lsb rhs : builds below k (assign_bits lhs nb delay msb lsb rhs).
Proof. unfold assign_bits. eapply builds_bind; [auto with build|]. intros l k' Hk' _. apply builds_qmap. builds_auto. Qed.

#[local] Hint Resolve builds_assign_bits : build.

Lemma builds_emit_assignment k lhs nb delay op rhs : builds stored k (emit_assignment lhs nb delay op rhs).
Proof.
  unfold emit_assignment. destruct (_ && _); [builds_auto|].
  destruct (lv_k lhs); [builds_auto..|unfold assign_dynamic_bit|unfold assign_dynamic_indexed|unfold assign_dynamic_part].
  - do 4 (eapply builds_bind; [auto with build|intros]).
    eapply (builds_bind below); [|builds_auto]. apply builds_qmap. intros []. unfold dynamic_bit_stmt. builds_auto.
  - case_bool_decide; [builds_auto|]. do 3 (eapply builds_bind; [auto with build|intros]). case_bool_decide; [builds_auto|].
    do 3 (eapply builds_bind; [auto with build|intros]).
    eapply (builds_bind below); [|builds_auto]. apply builds_qmap. builds_auto.
  - do 1 (eapply builds_bind; [auto with build|intros]). do 2 (case_bool_decide; [builds_auto|]).
    do 5 (eapply builds_bind; [auto with build|intros]).
    eapply (builds_bind below); [|builds_auto]. apply builds_qmap. intros msb k1 Hk1. eapply builds_bind; [auto with build|intros].
    apply builds_qmap. builds_auto.
Qed.
#[local] Hint Resolve builds_wire_declaration builds_int_declaration builds_emit_assignment : build.

Lemma builds_assign_rhs k env prefix : builds anything k (assign_rhs inline_call env prefix).
Proof. unfold assign_rhs. builds_auto. Qed.

#[local] Hint Resolve builds_assign_rhs : build.

Lemma builds_assignment_statement k env delay : builds stored k (assignment_statement inline_call env delay).
Proof. unfold assignment_statement. builds_auto. Qed.

Lemma builds_return_statement k env delay : builds stored k (return_statement inline_call env delay).
Proof.
  unfold return_statement, return_value. builds_auto.
Qed.

(** ** Loop headers and calls *)

(** A statement or none. *)
Definition clause (k : nat) (i : index) : Prop := below k [i].

Lemma builds_clause k c : builds stored k c -> builds clause k c.
Proof. apply builds_weaken. intros k' a. apply below_stored. Qed.

Lemma builds_parse_for_stmt k terminator : builds clause k (parse_for_stmt inline_call terminator).
Proof.
  assert (Hf : forall k', builds clause k' (parse_for_assignment inline_call terminator)).
  { intros k'. unfold parse_for_assignment, for_assign. do 2 (eapply builds_bind; [auto with build|intros]). destruct a0 as [found lhs].
    destruct found; cbn [negb].
    - apply builds_clause. builds_auto.
    - eapply builds_bind; [auto with build|intros]. apply builds_ret. intros. apply below_none. }
  assert (Hi : forall k', builds clause k' (parse_integer_list_scoped inline_call)).
  { intros k'. apply builds_clause. unfold parse_integer_list_scoped. auto with build. }
  unfold parse_for_stmt. apply builds_branch; [apply builds_ret; intros; apply below_none|].
  eapply builds_bind; [auto with build|intros]. destruct (_ && _); [|done]. by repeat apply builds_branch.
Qed.

Lemma builds_parse_actuals k first params : builds anything k (parse_actuals inline_call first params).
Proof.
  revert first k. induction params as [|pd params IH]; intros first k; cbn [parse_actuals]; [auto with build|].
  unfold parse_actual. apply builds_branch; [|builds_auto]. eapply (builds_bind anything); builds_auto.
Qed.

Lemma builds_bind_parameters k task_name delay params stmts :
  below k stmts -> builds below k (bind_parameters task_name delay params stmts).
Proof.
  revert k stmts. induction params as [|[pd a] params IH]; intros k stmts Hs; cbn [bind_parameters]; [builds_auto|].
  eapply builds_bind; [auto with build|]. intros [[internal b] pev] k1 Hk1 _. eapply builds_bind; [auto with build|]. intros _ k2 Hk2 _.
  destruct (is_in (tp_dir pd)); cbn [negb]; [|apply IH; eapply below_mono; [|done]; lia].
  eapply builds_bind; [auto with build|]. intros rhs k3 Hk3 _. eapply (builds_bind stored); [builds_auto|].
  intros i k4 Hk4 Hi. apply IH. auto with build.
Qed.

Lemma builds_copy_out k params stmts : below k stmts -> builds below k (copy_out params stmts).
Proof.
  revert k stmts. induction params as [|[pd a] params IH]; intros k stmts Hs; cbn [copy_out]; [builds_auto|].
  eapply builds_bind; [auto with build|]. intros env k1 Hk1 _. builds_step; [|apply IH; auto with build].
  eapply builds_bind; [auto with build|]. intros i k2 Hk2 Hi. apply IH. auto with build.
Qed.

Lemma builds_in_call_scope {A} (R : nat -> A -> Prop) k (c : Q A) : builds R k c -> builds R k (in_call_scope c).
Proof.
  intros Hc w ts s Ha Hk. unfold in_call_scope, mbind, P_bind.
  match goal with |- context [c ?x ts s] => specialize (Hc x ts s Ha Hk); destruct (c x ts s) as [[[[a w'] ts'] s']| | |] end; [|done..].
  done.
Qed.
(** ** Statements *)

#[local] Hint Resolve builds_assignment_statement builds_return_statement builds_parse_for_stmt builds_parse_actuals
  builds_bind_parameters builds_copy_out : build.

Section Statement.
Context (task_body : stmt_env -> string -> Q (list index)).
Context (Htask : forall env txt k, builds below k (task_body env txt)).
Context (self : Q index) (env : stmt_env) (Hself : forall k, builds stored k self).

#[local] Hint Resolve Htask Hself : build.

Lemma builds_block_loop g stmts k : below k stmts -> builds below k (block_loop self g stmts).
Proof. revert stmts k. induction g as [|g IH]; intros stmts k Hs; cbn [block_loop]; builds_auto. Qed.

Lemma builds_matches_loop g l k : builds anything k (matches_loop inline_call g l).
Proof. revert l k. induction g as [|g IH]; intros l k; cbn [matches_loop]; builds_auto. Qed.

(** The bodies of the items of a case statement. *)
Definition case_bodies (k : nat) (items : list case_item) : Prop := below k (mjoin (ci_stmts <$> items)).

Lemma case_bodies_app k l1 l2 : case_bodies k l1 -> case_bodies k l2 -> case_bodies k (l1 ++ l2).
Proof. unfold case_bodies. rewrite fmap_app, join_app. apply below_app. Qed.

Lemma case_bodies_mono k k' l : k <= k' -> case_bodies k l -> case_bodies k' l.
Proof. apply below_mono. Qed.

(** Every value that is matched has the same body. *)
Lemma builds_match_items w body matches k : below k [body] -> builds case_bodies k (ll (match_items w body matches)).
Proof.
  intros Hb wk ts s Ha Hk. unfold ll, lp, lift, mbind, P_bind. destruct (match_items w body matches s) as [[its s']|] eqn:H; [|done].
  split_and!; [done|done|]. apply lmap_Forall with (Pr := fun ci => ci_stmts ci = [body]) in H.
  - unfold case_bodies. induction H as [|ci its Hci _ IH]; [apply below_nil|]. cbn. rewrite Hci. apply below_cons; [|done].
    eapply below_mono; [|done]. done.
  - intros mv s0 ci s1. unfold mbind, L_bind, mbind, option_bind. destruct (resize_to_vector mv w (xv_is_signed mv) s0) as [[roots s2]|]; [|done].
    by intros [= <- <-].
Qed.

Lemma builds_case_loop g w items k : case_bodies k items -> builds case_bodies k (case_loop inline_call self g w items).
Proof.
  revert items k. induction g as [|g IH]; intros items k Hi; cbn [case_loop]; [auto with build|].
  do 2 (apply builds_branch; [apply builds_ret; intros; by eapply case_bodies_mono|]). apply builds_branch.
  - eapply builds_bind; [auto with build|]. intros _ k1 Hk1 _. eapply builds_bind; [auto with build|]. intros body k2 Hk2 Hb.
    apply IH. apply case_bodies_app; [eapply case_bodies_mono; [|done]; lia|]. exact (below_stored _ _ Hb).
  - eapply builds_bind; [apply builds_fueled; intros; apply builds_matches_loop|]. intros matches k1 Hk1 _.
    eapply builds_bind; [auto with build|]. intros _ k2 Hk2 _. eapply builds_bind; [auto with build|]. intros body k3 Hk3 Hb.
    eapply builds_bind; [by apply builds_match_items, below_stored|]. intros its k4 Hk4 Hits.
    apply IH. apply case_bodies_app; [eapply case_bodies_mono; [|done]; lia|done].
Qed.

#[local] Hint Resolve builds_block_loop : build.

Lemma builds_case_statement k delay ck : builds stored k (case_statement inline_call self delay ck).
Proof.
  unfold case_statement, paren_expr. eapply builds_bind; [auto with build|]. intros _ k1 Hk1 _.
  eapply (builds_bind anything); [builds_auto|]. intros v k2 Hk2 _. eapply builds_bind; [auto with build|]. intros roots k3 Hk3 _.
  eapply builds_bind; [apply builds_fueled; intros; apply builds_case_loop, below_nil|]. intros items k4 Hk4 Hi.
  apply builds_add. unfold stmt_children. cbn -[below]. apply below_app; [done|]. builds_auto.
Qed.

Lemma builds_if_statement k delay : builds stored k (if_statement inline_call self delay).
Proof.
  unfold if_statement, paren_cond. eapply builds_bind; [auto with build|]. intros _ k1 Hk1 _.
  eapply (builds_bind anything); [builds_auto|]. intros c k2 Hk2 _. eapply builds_bind; [auto with build|]. intros t k3 Hk3 Ht.
  eapply (builds_bind below); builds_auto.
Qed.

Lemma builds_for_statement k delay : builds stored k (for_statement inline_call self delay).
Proof.
  unfold for_statement, for_condition. do 3 (eapply builds_bind; [auto with build|intros _ ? ? _]).
  eapply (builds_bind clause). { apply builds_branch; [apply builds_ret; intros; apply below_none|auto with build]. }
  intros init k1 Hk1 Hinit. eapply (builds_bind anything); [builds_auto|]. intros cond k2 Hk2 _.
  eapply (builds_bind clause). { apply builds_branch; [apply builds_ret; intros; apply below_none|auto with build]. }
  intros step k3 Hk3 Hstep. eapply builds_bind; [auto with build|]. intros body k4 Hk4 Hbody.
  eapply builds_bind; [auto with build|]. intros _ k5 Hk5 _. unfold clause in *. builds_auto.
Qed.

#[local] Hint Resolve builds_case_statement builds_if_statement builds_for_statement : build.

Lemma builds_keyword_statements delay k kw c : (kw, c) ∈ keyword_statements inline_call self env delay -> builds stored k c.
Proof.
  unfold keyword_statements. rewrite !elem_of_cons, elem_of_nil.
  intros Hc. repeat destruct Hc as [[= _ ->]|Hc]; [..|done]; try solve [auto with build];
    unfold jump_statement, block_statement, repeat_statement, foreach_statement, do_while_statement, while_statement, paren_cond, paren_expr;
    builds_auto.
Qed.

Lemma builds_task_call k delay name td : builds stored k (task_call inline_call task_body env delay name td).
Proof.
  unfold task_call. do 5 (eapply builds_bind; [auto with build|intros ? ? ? _]).
  eapply (builds_bind below); [|builds_auto]. apply builds_in_call_scope. builds_auto.
Qed.

Lemma builds_call_or_assignment k delay : builds stored k (call_or_assignment inline_call task_body env delay).
Proof.
  unfold call_or_assignment, ignored, find_task. eapply (builds_bind anything); [builds_auto|].
  intros [[name td]|] k' Hk' _; [apply builds_task_call|builds_auto].
Qed.

Lemma builds_first_keyword l rest k :
  (forall kw c, (kw, c) ∈ l -> builds stored k c) -> builds stored k rest -> builds stored k (first_keyword l rest).
Proof.
  intros Hl Hr. induction l as [|[kw c] l IH]; cbn [first_keyword]; [done|].
  apply builds_branch; [by eapply Hl; left|]. apply IH. intros. eapply Hl. by right.
Qed.

Lemma builds_delayed k delay : builds stored k (delayed_statement inline_call task_body self env delay).
Proof.
  unfold delayed_statement, event_control, ignored. eapply builds_bind; [auto with build|]. intros _ k1 Hk1 _.
  apply builds_branch; [builds_auto|]. apply builds_branch; [builds_auto|].
  apply builds_first_keyword; [intros; by eapply builds_keyword_statements|apply builds_call_or_assignment].
Qed.

Lemma builds_statement k : builds stored k (statement inline_call task_body self env).
Proof. unfold statement. pose proof builds_delayed. builds_auto. Qed.
End Statement.

Lemma builds_proc task_body env k :
  (forall env txt k, builds below k (task_body env txt)) -> builds stored k (parse_proc_stmt inline_call task_body env).
Proof.
  intros Htask. apply builds_fueled. intros n. revert k. induction n as [|n IH]; intros k; cbn [proc_fuel]; [auto with build|].
  by apply builds_statement.
Qed.
End Parser.

(** ** Bodies and nested calls *)

Lemma builds_task_body proc env txt k : (forall env k, builds stored k (proc env)) -> builds below k (task_body proc env txt).
Proof.
  intros Hp. assert (Hb : forall g stmts k, below k stmts -> builds below k (body_loop proc g env stmts)).
  { induction g as [|g IH]; intros stmts k' Hs; cbn [body_loop]; [auto with build|]. apply builds_branch; [builds_auto|].
    eapply (builds_bind stored); [|intros i k1 Hk1 Hi; apply IH; auto with build].
    intros w ts s Ha Hk. unfold body_statement. revert w ts s Ha Hk.
    intros w ts. revert w. generalize (length ts) as n. intros n w. revert w ts. change (builds stored k' (proc env ≫= fun i => _ ← lp (consume_if_stuck n); mret i)).
    builds_auto. }
  intros w ts s Ha Hk. unfold task_body, on_tokens.
  pose proof (builds_fueled below k (fun n => body_loop proc n env []) (fun n => Hb n [] k (below_nil k)) w (lex_string txt) s Ha Hk) as H.
  by destruct (fueled_q _ w (lex_string txt) s) as [[[[a w'] ts'] s']| | |].
Qed.

Lemma builds_proc_at d env k : builds stored k (proc_at d env).
Proof.
  revert env k. induction d as [|d IH]; intros env k; cbn [proc_at]; apply builds_proc; intros; [apply builds_too_deep|].
  by apply builds_task_body.
Qed.

(** ** The result can be run *)

(** C10. What the statement parser returns can be run.  Whatever the source, the scope, the tasks and functions of the
    module and the state of the parser, when a statement is parsed into an acyclic arena - the code starts each block
    with an empty one - then the statements that were there are unchanged, the index it returns is the index of a
    statement of the arena, and running that statement ([exec_stmt], from any state of the simulator that satisfies its
    invariant) returns, with fuel for the size of the arena, in a state that satisfies the invariant. *)
Theorem parsed_statement_runs (d : nat) (env : stmt_env) (w : work) (toks : list token) (s : pstate)
  (i : index) (w' : work) (rest : list token) (s' : pstate) (m : compiled_module) (st : module_state) (tick : Z) (nb : bool) (fs : flow) :
  stmts_acyclic (wk_arena w) -> state_inv st -> proc_at d env w toks s = Ok (i, w', rest, s') ->
  wk_arena w `prefix_of` wk_arena w' /\ stored (length (wk_arena w')) i
  /\ exists changed st' fs',
       exec_stmt (S (S (length (wk_arena w')))) m (wk_arena w') i st tick nb fs = Some (changed, st', fs')
       /\ state_inv st' /\ (changed = false -> st_values st' = st_values st).
Proof.
  intros Ha Hst Hp. pose proof (builds_proc_at d env 0 w toks s Ha (Nat.le_0_l _)) as H. rewrite Hp in H. destruct H as (Ha' & Hpre & Hi).
  split_and!; [done|done|].
  destruct (exec_stmt_returns (R := runs) (S (S (length (wk_arena w')))) m (wk_arena w') i st tick nb fs)
    as (c & st' & fs' & ? & ? & ? & Hc & _); [done|done|done|apply enough_fuel_arena|].
  exists c, st', fs'. split_and!; [done|done|naive_solver].
Qed.

(** [while (1) if (a) begin b = ~a; break; end else a = 1'b1;] *)
Definition example_source : string := "while (1) if (a) begin b = ~a; break; end else a = 1'b1;".

Abbreviation example_parse := (proc_at 1 (mk_stmt_env true "") (mk_work [] (Some scope_default)) (lex_string example_source)
  (mk_pstate compiled_module_default [])).

Lemma stmts_acyclic_nil : stmts_acyclic [].
Proof. by intros i n j Hn. Qed.

Lemma example_parses :
  exists i w rest s, example_parse = Ok (i, w, rest, s) /\ length (wk_arena w) = 6 /\ ps_errors s = [].
Proof.
  assert (Hok : match example_parse with Ok (i, w, _, s) => length (wk_arena w) = 6 /\ ps_errors s = [] | _ => False end)
    by (vm_compute; by split).
  destruct example_parse as [[[[i w] rest] s]| | |]; [|destruct Hok..]. by exists i, w, rest, s.
Qed.

Lemma parsed_statement_runs_witness :
  exists i w rest s, example_parse = Ok (i, w, rest, s) /\ length (wk_arena w) = 6 /\ ps_errors s = []
    /\ exists changed st' fs',
         exec_stmt (S (S (length (wk_arena w)))) (ps_m s) (wk_arena w) i (init_state (ps_m s)) 0 false (Some fl_none)
         = Some (changed, st', fs') /\ state_inv st'.
Proof.
  destruct example_parses as (i & w & rest & s & E & Hl & He). exists i, w, rest, s. split; [exact E|]. split; [exact Hl|]. split; [exact He|].
  destruct (parsed_statement_runs 1 (mk_stmt_env true "") (mk_work [] (Some scope_default)) (lex_string example_source)
    (mk_pstate compiled_module_default []) i w rest s (ps_m s) (init_state (ps_m s)) 0 false (Some fl_none)
    stmts_acyclic_nil (init_state_inv (ps_m s)) E) as (_ & _ & changed & st' & fs' & Hex & Hst & _).
  exists changed, st', fs'. split; [exact Hex|exact Hst].
Defined.

(** ** Statements that do not do what the language says *)

(** Parses a statement in an empty module, runs it from the initial state and
    returns the bits of a vector. *)
Definition run_source (src name : string) : option (list dns) :=
  match proc_at 1 (mk_stmt_env true "") (mk_work [] None) (lex_string src) (mk_pstate compiled_module_default []) with
  | Ok (i, w, _, s) =>
      vd ← cm_vectors (ps_m s) !! name;
      '(_, st, _) ← exec_stmt (S (S (length (wk_arena w)))) (ps_m s) (wk_arena w) i (init_state (ps_m s)) 0 false (Some fl_none);
      mapM (vget (st_values st)) (vd_bits vd)
  | _ => None
  end.

(** An assignment to a bit whose index is not constant is a sequence of tests,
    one for each bit, and each reads the index again: with an index that is part
    of the vector, the first bit assigned can change it and a second bit is
    assigned.  From [1110] the index 3 is taken, bit 3 is cleared, the index is
    then 1 and bit 1 is cleared as well; with a copy of the index it is not. *)
Lemma dynamic_index_read_again :
  run_source "begin reg [3:0] a; a = 4'b1110; a[a[3:2]] = 1'b0; end" "a" = Some (bits 4 4)
  /\ run_source "begin reg [3:0] a; reg [1:0] i; a = 4'b1110; i = a[3:2]; a[i] = 1'b0; end" "a" = Some (bits 4 6).
Proof. by vm_compute. Qed.

(** The width of a sum is that of its operands, not that of the variable it is
    assigned to: the carry is lost. *)
Lemma sum_loses_carry :
  run_source "begin reg [3:0] a; reg [4:0] s; a = 4'd15; s = a + 4'd1; end" "s" = Some (bits 5 0).
Proof. by vm_compute. Qed.

(** The values of a case statement are cut to the width of the expression:
    [4'b0100] is taken for 0. *)
Lemma case_value_truncated :
  run_source "begin reg [1:0] k; reg [1:0] r; k = 2'd0; case (k) 4'b0100: r = 2'd1; default: r = 2'd2; endcase end" "r" = Some (bits 2 1).
Proof. by vm_compute. Qed.

(** An indexed part-select that is partly outside of the vector assigns
    nothing, where the bits inside should be assigned. *)
Lemma partial_select_dropped :
  run_source "begin reg [3:0] r; reg [1:0] i; r = 4'd0; i = 2'd3; r[i +: 2] = 2'b11; end" "r" = Some (bits 4 0).
Proof. by vm_compute. Qed.
