(* ===== verification/VStmtPrint.v ===== *)
(** * Verilog: statements are read as they are printed

    Statement trees, the steps of the builder a tree stands for ([build]), and
    their printing.  The statement parser reads the printed text as the tree:
    the arena, the scope and the module are those of [build], and nothing after
    the statement is taken.  An [else] belongs to the nearest [if]: a tree in
    which it does not has to be printed with [begin] and [end]. *)

From S2P Require Import Prelude Logic4 VModule VEval VLower VBits VLiteral VLex VSignals VParse VParseOk VPrint VStmt VStmtOk.
From Stdlib Require Import ZArith Lia Ascii.

Set Default Proof Using "Type".

(** ** Trees *)

#[warnings="-register-all"]
Inductive vstmt :=
| vs_empty
| vs_assign (nonblocking : bool) (x : string) (e : vexpr)
| vs_jump (brk : bool)
| vs_block (l : list vstmt)
| vs_if (c : vexpr) (t : vstmt)
| vs_if_else (c : vexpr) (t e : vstmt)
| vs_while (c : vexpr) (b : vstmt)
| vs_do (b : vstmt) (c : vexpr)
| vs_for (x : string) (init : vexpr) (c : vexpr) (y : string) (step : vexpr) (b : vstmt).

(** Induction with the statements of a block. *)
Lemma vstmt_nested_ind (Q : vstmt -> Prop)
  (Hempty : Q vs_empty) (Hassign : forall nb x e, Q (vs_assign nb x e)) (Hjump : forall b, Q (vs_jump b))
  (Hblock : forall l, Forall Q l -> Q (vs_block l)) (Hif : forall c t, Q t -> Q (vs_if c t))
  (Helse : forall c t e, Q t -> Q e -> Q (vs_if_else c t e)) (Hwhile : forall c b, Q b -> Q (vs_while c b))
  (Hdo : forall b c, Q b -> Q (vs_do b c)) (Hfor : forall x i c y st b, Q b -> Q (vs_for x i c y st b)) : forall st, Q st.
Proof.
  fix rec 1. intros [|nb x e|b|l|c t|c t e|c b|b c|x i c y st b].
  - apply Hempty.
  - apply Hassign.
  - apply Hjump.
  - apply Hblock. induction l as [|st l IH]; constructor; [apply rec|exact IH].
  - apply Hif, rec.
  - apply Helse; apply rec.
  - apply Hwhile, rec.
  - apply Hdo, rec.
  - apply Hfor, rec.
Qed.

(** ** What a tree stands for *)

(** An expression under the scope. *)
Definition build_expr (e : vexpr) : Q expr_value := env ← scope_env; ll (lower env e).

Definition build_cond (c : vexpr) : Q index := v ← build_expr c; ll (to_bool_root v).

(** The variable that is assigned: the name is looked up in the scope. *)
Definition build_target (x : string) : Q lvalue_ref :=
  aliases ← scope_aliases; ll (lvalue_whole true true (default x (aliases !! x))).

(** A nonblocking assignment is reported where it is not allowed. *)
Definition build_rhs (se : stmt_env) (nonblocking : bool) (e : vexpr) : Q expr_value :=
  _ ← ll (if nonblocking && negb (se_allow_nonblocking se) then report "nonblocking assignments are not supported here" else mret ());
  build_expr e.

Definition build_assign (se : stmt_env) (nonblocking : bool) (x : string) (e : vexpr) : Q index :=
  lhs ← build_target x;
  rhs ← build_rhs se nonblocking e;
  emit_assignment lhs nonblocking 0 cp_assign (Some rhs).

(** A clause in the header of a for loop. *)
Definition build_clause (x : string) (e : vexpr) : Q index :=
  lhs ← build_target x;
  rhs ← build_expr e;
  for_assign lhs cp_assign (Some rhs).

(** One after the other. *)
Fixpoint in_order (l : list (Q index)) : Q (list index) :=
  match l with [] => mret [] | c :: l => i ← c; stmts ← in_order l; mret (i :: stmts) end.

Fixpoint build (se : stmt_env) (st : vstmt) : Q index :=
  match st with
  | vs_empty => add_stmt st_empty
  | vs_assign nb x e => build_assign se nb x e
  | vs_jump brk => add_stmt (st_of (if brk then sk_break_stmt else sk_continue_stmt) [])
  | vs_block l =>
      _ ← modify_scope push_frame;
      stmts ← in_order (build se <$> l);
      _ ← modify_scope pop_frame;
      add_stmt (st_block stmts)
  | vs_if c t => cond ← build_cond c; t ← build se t; add_stmt (st_if cond [t] [])
  | vs_if_else c t e => cond ← build_cond c; t ← build se t; e ← build se e; add_stmt (st_if cond [t] [e])
  | vs_while c b => cond ← build_cond c; b ← build se b; add_stmt (st_loop sk_while_stmt cond SIZE_MAX SIZE_MAX b)
  | vs_do b c => b ← build se b; cond ← build_cond c; add_stmt (st_loop sk_do_while_stmt cond SIZE_MAX SIZE_MAX b)
  | vs_for x i c y st b =>
      _ ← modify_scope push_frame;
      init ← build_clause x i;
      cond ← build_cond c;
      step ← build_clause y st;
      b ← build se b;
      _ ← modify_scope pop_frame;
      add_stmt (st_loop sk_for_stmt cond init step b)
  end.

(** ** Printing *)

Definition word (x : string) : token_kind * string := (tk_identifier, x).

Fixpoint print_stmt (st : vstmt) : list (token_kind * string) :=
  match st with
  | vs_empty => [sym ";"]
  | vs_assign nb x e => word x :: sym (if nb then "<=" else "=") :: print 0 e ++ [sym ";"]
  | vs_jump brk => [word (if brk then "break" else "continue"); sym ";"]
  | vs_block l => word "begin" :: mjoin (print_stmt <$> l) ++ [word "end"]
  | vs_if c t => word "if" :: sym "(" :: print 0 c ++ sym ")" :: print_stmt t
  | vs_if_else c t e => word "if" :: sym "(" :: print 0 c ++ sym ")" :: print_stmt t ++ word "else" :: print_stmt e
  | vs_while c b => word "while" :: sym "(" :: print 0 c ++ sym ")" :: print_stmt b
  | vs_do b c => word "do" :: print_stmt b ++ word "while" :: sym "(" :: print 0 c ++ [sym ")"; sym ";"]
  | vs_for x i c y st b =>
      word "for" :: sym "(" :: word x :: sym "=" :: print 0 i ++ sym ";" :: print 0 c ++ sym ";"
      :: word y :: sym "=" :: print 0 st ++ sym ")" :: print_stmt b
  end.

(** An [else] that followed would be taken: the statement ends with an [if]
    that has none. *)
Fixpoint open (st : vstmt) : bool :=
  match st with
  | vs_if _ _ => true
  | vs_if_else _ _ e => open e
  | vs_while _ b | vs_for _ _ _ _ _ b => open b
  | _ => false
  end.

(** The words that start a statement or end one. *)
Definition statement_words : list string :=
  ["unique"; "unique0"; "priority"; "end"; "else"; "return"; "break"; "continue"; "logic"; "bit"; "reg"; "wire"; "int"; "integer"; "byte";
   "shortint"; "longint"; "begin"; "if"; "repeat"; "foreach"; "do"; "while"; "for"; "case"; "casez"; "casex"]%string.

(** A name that can be assigned. *)
Definition target_name (x : string) : Prop :=
  (x ∉ statement_words) /\ x ≠ ""%string /\ lexable tk_identifier (String.list_ascii_of_string x).

Fixpoint printable_stmt (st : vstmt) : Prop :=
  match st with
  | vs_empty | vs_jump _ => True
  | vs_assign _ x e => target_name x /\ printable e
  | vs_block l => foldr (fun st Q => printable_stmt st /\ Q) True l
  | vs_if c t => printable c /\ printable_stmt t
  | vs_if_else c t e => printable c /\ printable_stmt t /\ printable_stmt e /\ open t = false
  | vs_while c b => printable c /\ printable_stmt b
  | vs_do b c => printable c /\ printable_stmt b
  | vs_for x i c y st b => target_name x /\ printable i /\ printable c /\ target_name y /\ printable st /\ printable_stmt b
  end.

(** ** Steps of the builder *)

Definition retoken {A} (ts : list token) (r : res (A * list token * pstate)) : res (A * list token * pstate) :=
  match r with Ok (a, _, s) => Ok (a, ts, s) | Undefined => Undefined | OutOfFuel => OutOfFuel | TooDeep => TooDeep end.

(** The step does not look at the tokens. *)
Definition tokenless {A} (c : Q A) : Prop := forall w ts ts' s, c w ts' s = retoken ts' (c w ts s).

Create HintDb tokenless discriminated.

Lemma tokenless_bind {A B} (c : Q A) (f : A -> Q B) : tokenless c -> (forall a, tokenless (f a)) -> tokenless (c ≫= f).
Proof.
  intros Hc Hf w ts ts' s. unfold mbind, Q_bind, mbind, P_bind. rewrite (Hc w ts ts' s). destruct (c w ts s) as [[[[a w'] ts1] s']| | |] eqn:E; [|done..].
  cbn [retoken]. apply Hf.
Qed.

Lemma tokenless_ret {A} (a : A) : tokenless (mret a).
Proof. by intros w ts ts' s. Qed.

Lemma tokenless_ll {A} (c : L A) : tokenless (ll c).
Proof. intros w ts ts' s. unfold ll, lp, mbind, P_bind, lift. by destruct (c s) as [[a s']|]. Qed.

Lemma tokenless_add_stmt n : tokenless (add_stmt n).
Proof. by intros w ts ts' s. Qed.

Lemma tokenless_modify_scope f : tokenless (modify_scope f).
Proof. by intros w ts ts' s. Qed.

Lemma tokenless_scope_env : tokenless scope_env.
Proof. by intros w ts ts' s. Qed.

Lemma tokenless_scope_aliases : tokenless scope_aliases.
Proof. by intros w ts ts' s. Qed.

Lemma tokenless_err msg : tokenless (lp (err msg)).
Proof. apply tokenless_ll. Qed.

#[export] Hint Resolve tokenless_ret tokenless_ll tokenless_add_stmt tokenless_modify_scope tokenless_scope_env tokenless_scope_aliases
  tokenless_err : tokenless.

Ltac tokenless_auto :=
  repeat first
    [ solve [auto with tokenless]
    | match goal with
      | |- forall _, _ => intro
      | |- tokenless (mbind _ _) => apply tokenless_bind
      | |- tokenless (match ?x with _ => _ end) => destruct x
      end ].

Lemma tokenless_assign_scalar nb delay sig v : tokenless (assign_scalar nb delay sig v).
Proof. unfold assign_scalar. tokenless_auto. Qed.

Lemma tokenless_assign_vector nb delay sigs v : tokenless (assign_vector nb delay sigs v).
Proof. unfold assign_vector. tokenless_auto. Qed.

#[export] Hint Resolve tokenless_assign_scalar tokenless_assign_vector : tokenless.

Lemma tokenless_assign_lvalue lhs nb delay v : tokenless (assign_lvalue lhs nb delay v).
Proof. unfold assign_lvalue. tokenless_auto. Qed.

Lemma tokenless_qmap {A B} (f : A -> Q (list B)) l : (forall x, tokenless (f x)) -> tokenless (qmap f l).
Proof. intros Hf. induction l as [|x l IH]; cbn [qmap]; tokenless_auto. Qed.

Lemma tokenless_assign_bits lhs nb delay msb lsb rhs : tokenless (assign_bits lhs nb delay msb lsb rhs).
Proof. unfold assign_bits. apply tokenless_bind; [auto with tokenless|]. intros l. apply tokenless_qmap. tokenless_auto. Qed.

#[export] Hint Resolve tokenless_assign_lvalue tokenless_qmap tokenless_assign_bits : tokenless.

Lemma tokenless_emit lhs nb delay op rhs : tokenless (emit_assignment lhs nb delay op rhs).
Proof.
  unfold emit_assignment. destruct (_ && _); [tokenless_auto|].
  destruct (lv_k lhs); [tokenless_auto..|unfold assign_dynamic_bit|unfold assign_dynamic_indexed|unfold assign_dynamic_part].
  - tokenless_auto. apply tokenless_qmap. intros []. unfold dynamic_bit_stmt. tokenless_auto.
  - tokenless_auto. apply tokenless_qmap. tokenless_auto.
  - tokenless_auto. apply tokenless_qmap. tokenless_auto. apply tokenless_qmap. tokenless_auto.
Qed.

Lemma tokenless_expr e : tokenless (build_expr e).
Proof. unfold build_expr. tokenless_auto. Qed.

Lemma tokenless_target x : tokenless (build_target x).
Proof. unfold build_target. tokenless_auto. Qed.

#[export] Hint Resolve tokenless_emit tokenless_expr tokenless_target : tokenless.

Lemma tokenless_cond c : tokenless (build_cond c).
Proof. unfold build_cond. tokenless_auto. Qed.

Lemma tokenless_clause x e : tokenless (build_clause x e).
Proof. unfold build_clause, for_assign. tokenless_auto. Qed.

Lemma tokenless_rhs se nb e : tokenless (build_rhs se nb e).
Proof. unfold build_rhs. tokenless_auto. Qed.

#[export] Hint Resolve tokenless_cond tokenless_clause tokenless_rhs : tokenless.

Lemma tokenless_in_order l : Forall tokenless l -> tokenless (in_order l).
Proof. induction 1 as [|c l Hc _ IH]; cbn [in_order]; tokenless_auto. Qed.

Lemma tokenless_build se st : tokenless (build se st).
Proof.
  induction st using vstmt_nested_ind; cbn [build]; try solve [unfold build_assign; tokenless_auto].
  apply tokenless_bind; [tokenless_auto|]. intros _. apply tokenless_bind; [|tokenless_auto].
  apply tokenless_in_order. by apply Forall_fmap.
Qed.

(** ** Reading tokens as steps of the builder *)

(** At the tokens [ts] the step [c] does what [d] does and leaves [rest]. *)
Definition reads_as {A} (c : Q A) (ts : list token) (d : Q A) (rest : list token) : Prop := forall w s, c w ts s = d w rest s.

Lemma reads_same {A} (c : Q A) ts : reads_as c ts c ts.
Proof. by intros w s. Qed.

Lemma reads_bind {A B C} (c : Q A) (f : A -> Q B) (h : C -> A) (d : Q C) (g : C -> Q B) ts ts1 rest :
  reads_as c ts (a ← d; mret (h a)) ts1 -> tokenless d -> (forall a, reads_as (f (h a)) ts1 (g a) rest) -> reads_as (c ≫= f) ts (d ≫= g) rest.
Proof.
  intros Hc Hd Hf w s. unfold mbind, Q_bind, mbind, P_bind. rewrite (Hc w s), (Hd w ts1 rest s).
  unfold mbind, Q_bind, mbind, P_bind. pose proof (Hd w ts1 ts1 s) as Hts.
  destruct (d w ts1 s) as [[[[a w'] ts2] s']| | |]; [|done..]. injection Hts as ->. cbn. apply Hf.
Qed.

(** The same where the step is one of the builder. *)
Lemma reads_step {A B} (c : Q A) (f : A -> Q B) (d : Q A) (g : A -> Q B) ts ts1 rest :
  reads_as c ts d ts1 -> tokenless d -> (forall a, reads_as (f a) ts1 (g a) rest) -> reads_as (c ≫= f) ts (d ≫= g) rest.
Proof.
  intros Hc Hd Hf. eapply (reads_bind c f id); [|done|done]. intros w s. rewrite (Hc w s). unfold mbind, Q_bind, mbind, P_bind.
  by destruct (d w ts1 s) as [[[[a w'] ts2] s']| | |].
Qed.

(** A step that only takes tokens. *)
Lemma reads_skip {A B} (c : Q A) (f : A -> Q B) (d : Q B) a ts ts1 rest :
  reads_as c ts (mret a) ts1 -> reads_as (f a) ts1 d rest -> reads_as (c ≫= f) ts d rest.
Proof. intros Hc Hf w s. unfold mbind, Q_bind, mbind, P_bind. rewrite (Hc w s). apply Hf. Qed.

Lemma reads_assoc {A B C} (c : Q C) (d : Q A) (g : A -> Q B) (h : B -> Q C) ts rest :
  reads_as c ts (d ≫= fun a => g a ≫= h) rest -> reads_as c ts ((d ≫= g) ≫= h) rest.
Proof.
  intros Hc w s. rewrite (Hc w s). unfold mbind, Q_bind, mbind, P_bind. by destruct (d w rest s) as [[[[a w'] ts'] s']| | |].
Qed.

Lemma reads_symbol {A} c t ts (a b d : Q A) rest :
  reads_as (if is_symbol c t then a else b) (if is_symbol c t then ts else t :: ts) d rest -> reads_as (qbranch (accept_symbol c) a b) (t :: ts) d rest.
Proof. intros H w s. unfold qbranch. rewrite branch_symbol. specialize (H w s). by destruct (is_symbol c t). Qed.

Definition word_like (x : string) (t : token) : bool := bool_decide (tok_kind t = tk_identifier) && bool_decide (tok_text t = x).

Lemma branch_word {A} x t ts (a b : P A) s : branch (accept_kw x) a b (t :: ts) s = if word_like x t then a ts s else b (t :: ts) s.
Proof.
  unfold branch, accept_kw, mbind, P_bind, peek, consume, word_like. destruct (bool_decide (tok_kind t = tk_identifier)) eqn:Hk; [|done].
  cbn [andb]. apply bool_decide_eq_true in Hk. case_bool_decide; [|done]. by rewrite (is_ident_eof t Hk).
Qed.

Lemma reads_word {A} x t ts (a b d : Q A) rest :
  reads_as (if word_like x t then a else b) (if word_like x t then ts else t :: ts) d rest -> reads_as (qbranch (accept_kw x) a b) (t :: ts) d rest.
Proof. intros H w s. unfold qbranch. rewrite branch_word. specialize (H w s). by destruct (word_like x t). Qed.

Lemma is_word_spelled x x' t : kind_text t = word x -> word_like x' t = bool_decide (x = x').
Proof. intros [= Hk Ht]. unfold word_like. rewrite Hk, Ht. by rewrite bool_decide_eq_true_2. Qed.

Lemma is_symbol_word x c t : kind_text t = word x -> is_symbol c t = false.
Proof. intros [= Hk _]. unfold is_symbol. rewrite Hk. done. Qed.

Lemma is_word_sym x c t : kind_text t = sym c -> word_like x t = false.
Proof. intros [= Hk _]. unfold word_like. rewrite Hk. done. Qed.

(** ** Expressions and left-hand sides *)

(** A known result. *)
Lemma bind_ok {A B} (c : P A) (f : A -> P B) a ts ts' s s' : c ts s = Ok (a, ts', s') -> (c ≫= f) ts s = f a ts' s'.
Proof. intros E. unfold mbind, P_bind. by rewrite E. Qed.

Lemma expect_ident_word what x t ts s : kind_text t = word x -> expect_ident what (t :: ts) s = Ok (x, ts, s).
Proof.
  intros [= Hk Ht]. unfold expect_ident, mbind, P_bind, peek. rewrite Hk, Ht. rewrite bool_decide_eq_true_2 by done. cbn [negb].
  unfold consume. by rewrite (is_ident_eof t Hk).
Qed.

Lemma qualified_end q rest s : stop 13 rest -> fueled (fun n => qualified_loop n q) rest s = Ok (q, rest, s).
Proof.
  intros Hs. unfold fueled. cbn [qualified_loop].
  rewrite (scope_stop 13) by done. by rewrite (branch_stop _ _ 13) by (done || (vm_compute; set_solver)).
Qed.

Lemma operator_stops c t ts : kind_text t = sym c -> c ∈ ["="; "<="]%string -> stop 13 (t :: ts).
Proof.
  intros Ht Hc. rewrite !elem_of_cons, elem_of_nil in Hc. apply (stop_sym _ _ c); [done| |]; destruct Hc as [->|[->|[]]]; try done;
    apply (bool_decide_unpack _); by vm_compute.
Qed.

Lemma call_statement_name x t rest s :
  kind_text t = word x -> stop 13 rest -> call_statement (t :: rest) s = Ok (false, t :: rest, s).
Proof.
  intros [= Hk _] Hs. unfold call_statement, looking, mbind, P_bind. cbn [peek]. rewrite Hk. rewrite bool_decide_eq_true_2 by done. cbn [negb].
  unfold consume. rewrite (is_ident_eof t Hk). unfold call_rest, fueled, mbind, P_bind. cbn [call_name_loop].
  rewrite (scope_stop 13), !(branch_stop _ _ 13) by (done || (vm_compute; set_solver)). unfold mret, P_ret.
  by rewrite !(branch_stop _ _ 13) by (done || (vm_compute; set_solver)).
Qed.

(** The operator of a printed assignment. *)
Definition operator (nb : bool) : string := if nb then "<=" else "=".

Lemma operator_in nb : operator nb ∈ ["="; "<="]%string.
Proof. destruct nb; set_solver. Qed.

Lemma next_two_no c t ts s : is_symbol c t = false -> next_two c (t :: ts) s = Ok (false, t :: ts, s).
Proof. intros Ht. unfold next_two. destruct ts as [|t1 ts]; [done|]. by rewrite Ht. Qed.

Lemma next_step_operator nb t ts s : kind_text t = sym (operator nb) -> next_step (t :: ts) s = Ok (None, t :: ts, s).
Proof.
  intros Ht. unfold next_step, mbind, P_bind.
  rewrite !next_two_no by (rewrite (is_symbol_spelled (operator nb)) by done; by destruct nb). done.
Qed.

Lemma branch_no {A} c (a b : P A) ts s : c ts s = Ok (false, ts, s) -> branch c a b ts s = b ts s.
Proof. intros Hc. unfold branch. by rewrite (bind_ok _ _ _ _ _ _ _ Hc). Qed.

Lemma accept_shift_no c sh t ts s :
  kind_text t = sym c -> c ≠ sh -> c ≠ (sh +:+ "=")%string -> accept_shift sh (t :: ts) s = Ok (false, t :: ts, s).
Proof.
  intros Ht H1 H2. unfold accept_shift. rewrite !branch_symbol, !(is_symbol_spelled c) by done.
  by rewrite !bool_decide_eq_false_2 by done.
Qed.

Section Statements.
Context (inline_call : string -> function_def -> list expr_value -> P expr_value).

Lemma reads_expr env e ts rest :
  printable e -> spells ts (print 0 e) -> stop 0 rest -> reads_as (lp (parse_expr inline_call env)) (ts ++ rest) (ll (lower env e)) rest.
Proof.
  intros Hp Hts Hs w s. unfold ll, lp, mbind, P_bind, parse_expr.
  rewrite (self_reads inline_call env e); [done|by apply printable_good| |done|done].
  destruct rest as [|t rest]; [done|]. unfold remaining. rewrite length_app, (spells_length ts _ Hts). simpl. lia.
Qed.

(** An expression of a statement that ends with a printed symbol. *)
Lemma reads_stmt_expr e ts c t rest :
  printable e -> spells ts (print 0 e) -> kind_text t = sym c -> c ∈ [")"; ";"]%string ->
  reads_as (stmt_expr inline_call) (ts ++ t :: rest) (build_expr e) (t :: rest).
Proof.
  intros Hp Hts Ht Hc. unfold stmt_expr, build_expr. eapply reads_step; [apply reads_same|auto with tokenless|]. intros env.
  apply reads_expr; [done|done|]. rewrite !elem_of_cons, elem_of_nil in Hc.
  apply (stop_sym _ _ c); [done| |]; destruct Hc as [->|[->|[]]]; try done; apply (bool_decide_unpack _); by vm_compute.
Qed.

Lemma reads_expect {A} c msg (f : () -> Q A) d t ts rest :
  kind_text t = sym c -> reads_as (f ()) ts d rest -> reads_as (lp (expect_symbol c msg) ≫= f) (t :: ts) d rest.
Proof.
  intros Ht Hf. eapply reads_skip; [|done]. intros w s. unfold lp, expect_symbol, mbind, P_bind. rewrite branch_symbol, (is_symbol_spelled c) by done.
  by rewrite bool_decide_eq_true_2.
Qed.

Lemma reads_semicolon {A} msg (f : () -> Q A) d t ts rest :
  kind_text t = sym ";" -> reads_as (f ()) ts d rest -> reads_as (lp (expect_semicolon msg) ≫= f) (t :: ts) d rest.
Proof.
  intros Ht Hf. eapply reads_skip; [|done]. intros w s. unfold lp, expect_semicolon, mbind, P_bind.
  rewrite branch_symbol, (is_symbol_spelled ";") by done. by rewrite bool_decide_eq_true_2.
Qed.

Lemma reads_cond {A} om cm c (f : index -> Q A) g ts t0 t rest rest' :
  printable c -> spells ts (print 0 c) -> kind_text t0 = sym "(" -> kind_text t = sym ")" ->
  (forall i, reads_as (f i) rest (g i) rest') ->
  reads_as (paren_cond inline_call om cm ≫= f) (t0 :: ts ++ t :: rest) (build_cond c ≫= g) rest'.
Proof.
  intros Hp Hts H0 Ht Hf. eapply reads_step; [|auto with tokenless|done]. unfold paren_cond, build_cond. apply reads_expect; [done|].
  eapply reads_step; [by eapply reads_stmt_expr; [..|left]|auto with tokenless|]. intros v w s.
  unfold mbind, Q_bind, ll, lp, lift, mbind, P_bind. destruct (to_bool_root v s) as [[i s']|]; [|done]. cbn.
  unfold expect_symbol. rewrite branch_symbol, (is_symbol_spelled ")") by done. by rewrite bool_decide_eq_true_2.
Qed.

Lemma named_reads mark allow aliases env x t rest s :
  x ≠ ""%string -> kind_text t = word x -> stop 13 rest ->
  lvalue_named inline_call mark allow aliases env (t :: rest) s
  = lift (lv ← lvalue_whole mark allow (default x (aliases !! x)); mret (true, lv)) rest s.
Proof.
  intros Hx Ht Hs. unfold lvalue_named. rewrite (bind_ok _ _ x _ rest s s) by (by apply expect_ident_word).
  rewrite bool_decide_eq_false_2 by done. erewrite bind_ok by (by apply qualified_end). cbn [q_name].
  rewrite lift_bind. unfold mbind at 1 3, P_bind at 1 3. by rewrite (branch_stop _ _ 13) by (done || (vm_compute; set_solver)).
Qed.
(** The variable in front of an assignment operator. *)
Lemma reads_target x t rest :
  x ≠ ""%string -> kind_text t = word x -> stop 13 rest ->
  reads_as (stmt_lvalue inline_call) (t :: rest) (lv ← build_target x; mret (true, lv)) rest.
Proof.
  intros Hx Ht Hs w s. set (aliases := match wk_scope w with Some sc => ps_aliases sc | None => ∅ end).
  change (lp (parse_lvalue_ref inline_call true true aliases (mk_env ∅ match wk_scope w with Some sc => ps_subst sc | None => ∅ end)) w (t :: rest) s
    = (lv ← ll (lvalue_whole true true (default x (aliases !! x))); mret (true, lv)) w rest s).
  unfold lp at 1, mbind at 1, P_bind. unfold parse_lvalue_ref, fueled. cbn [lvalue_fuel]. rewrite branch_symbol, (is_symbol_word x) by done.
  rewrite (named_reads _ _ _ _ x) by done. unfold lift, ll, lp, lift, mbind, L_bind, Q_bind, mbind, P_bind.
  by destruct (lvalue_whole true true (default x (aliases !! x)) s) as [[lv s']|].
Qed.

(** ** The start of a statement *)

Context (task_body : stmt_env -> string -> Q (list index)) (self : Q index) (se : stmt_env).

Lemma first_keyword_word x t ts l rest w s :
  kind_text t = word x ->
  first_keyword l rest w (t :: ts) s = match assoc x l with Some c => c w ts s | None => rest w (t :: ts) s end.
Proof.
  intros Ht. induction l as [|[kw c] l IH]; [done|]. cbn [first_keyword assoc]. unfold qbranch.
  rewrite branch_word, (is_word_spelled x) by done. by case_bool_decide.
Qed.

Lemma qualifier_word x t ts s :
  kind_text t = word x -> x ∉ ["unique"; "unique0"; "priority"]%string -> qualifier (t :: ts) s = Ok ((), t :: ts, s).
Proof.
  intros Ht Hx. rewrite !not_elem_of_cons in Hx. unfold qualifier. rewrite !branch_word, !(is_word_spelled x) by done.
  by rewrite !bool_decide_eq_false_2 by naive_solver.
Qed.

Lemma event_trigger_word x t ts s : kind_text t = word x -> event_trigger (t :: ts) s = Ok (false, t :: ts, s).
Proof. intros Ht. unfold event_trigger, looking. destruct ts as [|t1 ts]; [done|]. by rewrite (is_symbol_word x) by done. Qed.

(** A statement that starts with a word, after its delay. *)
Lemma statement_word x t ts w s :
  kind_text t = word x -> x ∉ ["unique"; "unique0"; "priority"]%string ->
  statement inline_call task_body self se w (t :: ts) s
  = match assoc x (keyword_statements inline_call self se 0) with
    | Some c => c w ts s
    | None => call_or_assignment inline_call task_body se 0 w (t :: ts) s
    end.
Proof.
  intros Ht Hx. unfold statement, qbranch. do 2 rewrite branch_symbol, (is_symbol_word x) by done.
  unfold delayed_statement, mbind, Q_bind, lp, mbind, P_bind. rewrite (qualifier_word x) by done. unfold mret, P_ret, qbranch.
  rewrite branch_symbol, (is_symbol_word x) by done. unfold ignored, qbranch, branch, mbind, P_bind. rewrite (event_trigger_word x) by done.
  by apply first_keyword_word.
Qed.

Lemma reads_keyword x c t ts d rest :
  kind_text t = word x -> x ∉ ["unique"; "unique0"; "priority"]%string -> assoc x (keyword_statements inline_call self se 0) = Some c ->
  reads_as c ts d rest -> reads_as (statement inline_call task_body self se) (t :: ts) d rest.
Proof. intros Ht Hx Hc Hd w s. rewrite (statement_word x) by done. rewrite Hc. apply Hd. Qed.
(** ** Assignments *)

Lemma ignored_no c (rest : Q index) w ts s : c ts s = Ok (false, ts, s) -> ignored c rest w ts s = rest w ts s.
Proof. intros Hc. unfold ignored, qbranch, branch. by rewrite (bind_ok _ _ _ _ _ _ _ Hc). Qed.

Lemma call_or_assignment_name x t t1 c ts w s :
  kind_text t = word x -> kind_text t1 = sym c -> c ∈ ["="; "<="]%string ->
  call_or_assignment inline_call task_body se 0 w (t :: t1 :: ts) s = assignment_statement inline_call se 0 w (t :: t1 :: ts) s.
Proof.
  intros Ht Ht1 Hc. pose proof (operator_stops c t1 ts Ht1 Hc) as Hs.
  assert (Hsym : Forall (fun c' => is_symbol c' t1 = false) ["("; ";"; "'"]%string).
  { rewrite !elem_of_cons, elem_of_nil in Hc. repeat constructor; rewrite (is_symbol_spelled c) by done;
      apply bool_decide_eq_false_2; destruct Hc as [->|[->|[]]]; done. }
  rewrite !Forall_cons in Hsym. destruct Hsym as (H1 & H2 & H3 & _).
  assert (Hn : forall sym, is_symbol sym t1 = false -> name_then sym (t :: t1 :: ts) s = Ok (None, t :: t1 :: ts, s)).
  { intros c' Hf. unfold name_then. by rewrite Hf, andb_false_r. }
  assert (Htask : find_task w (t :: t1 :: ts) s = Ok (None, w, t :: t1 :: ts, s)).
  { unfold find_task, lp. unfold mbind, Q_bind, mbind, P_bind. by rewrite (Hn _ H1). }
  assert (Hsys : system_task (t :: t1 :: ts) s = Ok (false, t :: t1 :: ts, s)).
  { unfold system_task. by rewrite (bind_ok _ _ None _ _ _ _ (Hn _ H2)). }
  assert (Hcast : cast_statement (t :: t1 :: ts) s = Ok (false, t :: t1 :: ts, s)).
  { unfold cast_statement, looking. destruct ts as [|t2 ts]; [done|]. by rewrite H3, andb_false_r. }
  unfold call_or_assignment. rewrite (bindQ_ok _ _ _ _ _ _ _ _ _ Htask).
  by rewrite !ignored_no by (done || by apply (call_statement_name x)).
Qed.
(** What the operator is read as. *)
Lemma assign_operator_reads nb t ts s :
  kind_text t = sym (operator nb) ->
  assign_operator se (t :: ts) s
  = lift (_ ← (if nb && negb (se_allow_nonblocking se) then report "nonblocking assignments are not supported here" else mret ());
          mret (Some (nb, cp_assign))) ts s.
Proof.
  intros Ht. pose proof Ht as [= Hk Hte]. unfold assign_operator. rewrite branch_symbol, (is_symbol_spelled (operator nb)) by done.
  destruct nb; cbn [operator].
  - rewrite bool_decide_eq_true_2 by done. cbn [andb]. by destruct (se_allow_nonblocking se).
  - rewrite bool_decide_eq_false_2 by done. rewrite !branch_no by (apply (accept_shift_no "="%string); done).
    erewrite bind_ok by (rewrite accept_first_eq, Hk, Hte; reflexivity). cbn beta iota.
    rewrite branch_symbol, (is_symbol_spelled "="%string) by done. by rewrite bool_decide_eq_true_2 by done.
Qed.

Lemma reads_rhs nb e t ts t2 rest :
  printable e -> spells ts (print 0 e) -> kind_text t = sym (operator nb) -> kind_text t2 = sym ";" ->
  reads_as (assign_rhs inline_call se None) (t :: ts ++ t2 :: rest) (rhs ← build_rhs se nb e; mret (Some (nb, cp_assign, Some rhs))) (t2 :: rest).
Proof.
  intros Hp Hts Ht Ht2. unfold assign_rhs. eapply reads_skip.
  { intros w s. unfold lp, mbind, P_bind. by rewrite (next_step_operator nb) by done. }
  cbn beta iota. unfold build_rhs. apply reads_assoc. eapply (reads_bind _ _ (fun _ => Some (nb, cp_assign))); [|auto with tokenless|].
  { intros w s. unfold lp at 1, mbind at 1, P_bind. rewrite (assign_operator_reads nb) by done.
    unfold ll, lp, lift, mbind, L_bind, Q_bind, mbind, P_bind. by destruct (nb && negb (se_allow_nonblocking se)). }
  intros _. cbn beta iota. eapply reads_step; [|auto with tokenless|intros; apply reads_same].
  eapply reads_stmt_expr; [done..|by do 2 constructor].
Qed.

Lemma reads_assignment nb x e t t1 ts t2 rest :
  x ≠ ""%string -> printable e -> kind_text t = word x -> kind_text t1 = sym (operator nb) -> spells ts (print 0 e) -> kind_text t2 = sym ";" ->
  reads_as (assignment_statement inline_call se 0) (t :: t1 :: ts ++ t2 :: rest) (build_assign se nb x e) rest.
Proof.
  intros Hx Hp Ht Ht1 Hts Ht2. unfold assignment_statement, build_assign. eapply reads_skip.
  { intros w s. unfold lp, mbind, P_bind, accept_two. rewrite !branch_no by (by rewrite (bind_ok _ _ _ _ _ _ _ (next_two_no _ _ _ _ (is_symbol_word x _ _ Ht)))).
    done. }
  eapply (reads_bind _ _ (pair true)); [apply reads_target; [done|done|]|auto with tokenless|].
  { eapply operator_stops; [done|apply operator_in]. }
  intros lv. cbn [negb]. eapply (reads_bind _ _ (fun rhs => Some (nb, cp_assign, Some rhs))); [by apply reads_rhs|auto with tokenless|].
  intros rhs. cbn beta iota. apply reads_semicolon; [done|]. rewrite bool_decide_eq_true_2 by done. rewrite andb_false_r. apply reads_same.
Qed.
(** ** Clauses of a for loop *)

Lemma for_operation_reads env e t ts t2 c rest :
  printable e -> kind_text t = sym "=" -> spells ts (print 0 e) -> kind_text t2 = sym c -> c ∈ [")"; ";"]%string ->
  reads_as (lp (for_operation inline_call env)) (t :: ts ++ t2 :: rest) (rhs ← ll (lower env e); mret (cp_assign, Some rhs)) (t2 :: rest).
Proof.
  intros Hp Ht Hts Ht2 Hc w s.
  assert (Hno : forall c', c' ≠ "="%string -> accept_two c' (t :: ts ++ t2 :: rest) s = Ok (false, t :: ts ++ t2 :: rest, s)).
  { intros c' Hne. unfold accept_two. rewrite (bind_ok _ _ false _ (t :: ts ++ t2 :: rest) s s); [done|]. apply next_two_no.
    rewrite (is_symbol_spelled "="%string) by done. by apply bool_decide_eq_false_2. }
  unfold lp, mbind at 1, P_bind at 1, for_operation. rewrite !branch_no by (by apply Hno). rewrite branch_symbol, (is_symbol_spelled "="%string) by done.
  rewrite bool_decide_eq_true_2 by done. pose proof (reads_expr env e ts (t2 :: rest) Hp Hts) as He.
  assert (Hs : stop 0 (t2 :: rest)).
  { rewrite !elem_of_cons, elem_of_nil in Hc. apply (stop_sym _ _ c); [done| |]; destruct Hc as [->|[->|[]]]; try done;
      apply (bool_decide_unpack _); by vm_compute. }
  specialize (He Hs w s). unfold lp, ll, lp, mbind, P_bind in He. unfold mbind, Q_bind, mbind, P_bind, ll, lp, mbind, P_bind.
  destruct (parse_expr inline_call env (ts ++ t2 :: rest) s) as [[[v ts'] s']| | |], (lift (lower env e) (t2 :: rest) s) as [[[v' ts''] s'']| | |];
    try done. unfold mret, P_ret, Q_ret, mret, P_ret in *. by injection He as -> -> ->.
Qed.

Lemma reads_clause x e c t t1 ts t2 rest :
  target_name x -> printable e -> kind_text t = word x -> kind_text t1 = sym "=" -> spells ts (print 0 e) -> kind_text t2 = sym c ->
  c ∈ [")"; ";"]%string ->
  reads_as (whenq accept_symbol c then mret SIZE_MAX else parse_for_stmt inline_call c) (t :: t1 :: ts ++ t2 :: rest) (build_clause x e) rest.
Proof.
  intros (Hw & Hx & _) Hp Ht Ht1 Hts Ht2 Hc. apply reads_symbol. rewrite (is_symbol_word x) by done.
  assert (Ha : reads_as (parse_for_assignment inline_call c) (t :: t1 :: ts ++ t2 :: rest) (build_clause x e) rest).
  { unfold parse_for_assignment, build_clause. eapply reads_skip.
    { intros w s. unfold lp, mbind, P_bind, for_prefix. by rewrite !branch_symbol, !(is_symbol_word x) by done. }
    eapply (reads_bind _ _ (pair true)); [apply reads_target; [done|done|]|auto with tokenless|].
    { eapply operator_stops; [done|by constructor]. }
    intros lv. cbn [negb]. unfold build_expr. apply reads_assoc. eapply reads_step; [apply reads_same|auto with tokenless|]. intros env.
    eapply (reads_bind _ _ (fun rhs => (cp_assign, Some rhs))); [by eapply for_operation_reads|auto with tokenless|].
    intros rhs. cbn beta iota. apply reads_expect; [done|]. apply reads_same. }
  unfold parse_for_stmt. apply reads_symbol. rewrite (is_symbol_word x) by done.
  intros w s. unfold mbind, Q_bind, has_scope, mbind, P_bind, mret, P_ret. destruct (_ && _); [|by apply Ha].
  assert (Hk : forall kw, kw ∈ statement_words -> word_like kw t = false).
  { intros kw Hkw. rewrite (is_word_spelled x) by done. apply bool_decide_eq_false_2. intros ->. done. }
  unfold qbranch. rewrite !branch_word. rewrite !Hk by (apply (bool_decide_unpack _); by vm_compute). apply Ha.
Qed.
End Statements.

(** ** Statements *)

(** What may follow a statement: no label, and no [else] that it would take. *)
Definition follows (st : vstmt) (rest : list token) : Prop :=
  match rest with
  | [] => False
  | t :: _ => is_symbol ":" t = false /\ (open st = true -> word_like "else" t = false)
  end.

(** The first token of a statement. *)
Definition starts_stmt (x : token_kind * string) : Prop :=
  x.1 ≠ tk_eof /\ x ≠ sym ":" /\ x ≠ word "end" /\ x ≠ word "else".

Lemma print_stmt_starts st : printable_stmt st -> exists x l, print_stmt st = x :: l /\ starts_stmt x.
Proof.
  intros Hp. destruct st as [|nb x e|b|l|c t|c t e|c b|b c|x i c y st b]; cbn [print_stmt]; do 2 eexists; (split; [done|]); try by split_and!.
  - destruct Hp as [(Hx & _ & _) _]. split_and!; try done; intros [= ->]; by apply Hx, (bool_decide_unpack _).
  - by destruct b.
Qed.

Lemma print_stmts_length l : Forall printable_stmt l -> length l <= length (mjoin (print_stmt <$> l)).
Proof.
  induction 1 as [|st l Hst _ IH]; [done|]. change (mjoin (print_stmt <$> st :: l)) with (print_stmt st ++ mjoin (print_stmt <$> l)).
  rewrite length_app. destruct (print_stmt_starts st Hst) as (x & pr & -> & _). cbn [length]. lia.
Qed.

Lemma print_stmt_in st l : st ∈ l -> length (print_stmt st) <= length (mjoin (print_stmt <$> l)).
Proof.
  induction 1 as [st l|st st' l _ IH]; [change (mjoin (print_stmt <$> st :: l)) with (print_stmt st ++ mjoin (print_stmt <$> l))
    |change (mjoin (print_stmt <$> st' :: l)) with (print_stmt st' ++ mjoin (print_stmt <$> l))]; rewrite length_app; lia.
Qed.

Lemma follows_start st x t rest : starts_stmt x -> kind_text t = x -> follows st (t :: rest).
Proof.
  intros (_ & H1 & _ & H2) <-. unfold kind_text, sym, word in *. split; [|intros _].
  - apply andb_false_iff. destruct (decide (tok_kind t = tk_symbol)) as [Hk|Hk]; [right|left]; apply bool_decide_eq_false; [|done].
    intros Ht. apply H1. by rewrite Hk, Ht.
  - apply andb_false_iff. destruct (decide (tok_kind t = tk_identifier)) as [Hk|Hk]; [right|left]; apply bool_decide_eq_false; [|done].
    intros Ht. apply H2. by rewrite Hk, Ht.
Qed.

Lemma follows_word st x t rest : kind_text t = word x -> (open st = true -> x ≠ "else"%string) -> follows st (t :: rest).
Proof.
  intros Ht Hx. split; [by apply (is_symbol_word x)|]. intros Ho. rewrite (is_word_spelled x) by done. apply bool_decide_eq_false_2. auto.
Qed.

Section Read.
Context (inline_call : string -> function_def -> list expr_value -> P expr_value) (task_body : stmt_env -> string -> Q (list index)).
Context (se : stmt_env).

(** The recursive call reads the statement as the tree. *)
Definition reads_stmt (self : Q index) (st : vstmt) : Prop :=
  forall ts rest, spells ts (print_stmt st) -> follows st rest -> reads_as self (ts ++ rest) (build se st) rest.

Lemma reads_block_loop self l g acc ts t rest :
  Forall (reads_stmt self) l -> Forall printable_stmt l -> length l < g -> spells ts (mjoin (print_stmt <$> l)) -> kind_text t = word "end" ->
  reads_as (block_loop self g acc) (ts ++ t :: rest) (stmts ← in_order (build se <$> l); mret (acc ++ stmts)) rest.
Proof.
  intros Hl. revert g acc ts. induction Hl as [|st l Hst Hl IH]; intros g acc ts Hp Hg Hts Ht; (destruct g as [|g]; [simpl in Hg; lia|]).
  - apply fmap_nil_inv in Hts as ->. intros w s. cbn [block_loop app fmap list_fmap in_order]. unfold qbranch.
    rewrite branch_eof. pose proof Ht as [= Hk _]. unfold mbind at 1, P_bind at 1. cbn [peek]. rewrite (is_ident_eof t Hk).
    rewrite branch_word, (is_word_spelled "end"%string) by done. rewrite bool_decide_eq_true_2 by done.
    change (mret (M := Q) acc w rest s = mret (M := Q) (acc ++ []) w rest s). by rewrite app_nil_r.
  - apply Forall_cons in Hp as [Hp Hps]. cbn [fmap list_fmap mjoin list_join] in Hts. apply spells_app in Hts as (ts1 & ts2 & -> & Hts1 & Hts2).
    rewrite <- app_assoc. intros w s. cbn [block_loop fmap list_fmap in_order].
    destruct (print_stmt_starts st Hp) as (x & pr & E & Hx & _ & Hend & _). pose proof Hts1 as Hts1'. rewrite E in Hts1'.
    apply spells_cons in Hts1' as (t1 & ts1' & -> & Ht1 & _). unfold qbranch. cbn [app]. rewrite branch_eof. unfold mbind at 1, P_bind at 1. cbn [peek].
    replace (is_eof t1) with false by (symmetry; apply bool_decide_eq_false; intros Hk; apply Hx; by rewrite <- Ht1).
    rewrite branch_word. replace (word_like "end" t1) with false.
    2:{ symmetry. apply andb_false_iff. destruct (decide (tok_kind t1 = tk_identifier)) as [Hk|Hk]; [right|left]; apply bool_decide_eq_false; [|done].
        intros Hte. apply Hend. rewrite <- Ht1. unfold kind_text, word. by rewrite Hk, Hte. }
    revert w s. match goal with |- forall w s, ?c w ?l s = ?d w rest s => change (reads_as c l d rest) end. apply reads_assoc.
    eapply reads_step; [apply (Hst (t1 :: ts1') (ts2 ++ t :: rest)); [done|]|apply tokenless_build|].
    + destruct l as [|st' l]; [apply fmap_nil_inv in Hts2 as ->; apply (follows_word _ "end"%string); [done|done]|].
      apply Forall_cons in Hps as [Hp' _]. destruct (print_stmt_starts st' Hp') as (x' & pr' & E' & Hx').
      cbn [fmap list_fmap mjoin list_join] in Hts2. rewrite E' in Hts2. apply spells_cons in Hts2 as (t2 & ts2' & -> & Ht2 & _).
      by eapply follows_start.
    + intros i. intros w s. rewrite (IH g (acc ++ [i]) ts2 Hps ltac:(simpl in Hg; lia) Hts2 Ht w s).
      unfold mbind, Q_bind, mbind, P_bind. destruct (in_order (build se <$> l) w rest s) as [[[[a w'] ts'] s']| | |]; [|done..].
      unfold mret, Q_ret, mret, P_ret. cbn. by rewrite <- app_assoc.
Qed.
(** No delay in front of a statement. *)
Lemma reads_no_delay {A} msg (f : () -> Q A) ts d rest : reads_as (f ()) ts d rest -> reads_as (lp (no_delay 0 msg) ≫= f) ts d rest.
Proof. intros Hf. by eapply reads_skip; [|exact Hf]. Qed.

Lemma reads_no_label {A} msg (f : () -> Q A) t ts d rest :
  is_symbol ":" t = false -> reads_as (f ()) (t :: ts) d rest -> reads_as (lp (optional_label msg) ≫= f) (t :: ts) d rest.
Proof.
  intros Ht Hf. eapply reads_skip; [|exact Hf]. intros w s. unfold lp, mbind, P_bind, optional_label. by rewrite branch_symbol, Ht.
Qed.

Section Cases.
(** The recursive call reads the parts of the statement. *)
Context (self : Q index).

Abbreviation stmt := (statement inline_call task_body self se).

Lemma reads_empty : reads_stmt stmt vs_empty.
Proof.
  intros ts rest Hts _. apply spells_cons in Hts as (t & ts' & -> & Ht & Hts'). apply fmap_nil_inv in Hts' as ->. cbn [app].
  unfold statement. apply reads_symbol. rewrite (is_symbol_spelled ";"%string) by done. rewrite bool_decide_eq_true_2 by done. apply reads_same.
Qed.

Lemma keywords_are_words x : x ∉ statement_words -> assoc x (keyword_statements inline_call self se 0) = None.
Proof. intros Hx. apply assoc_none. intros Hin. apply Hx. unfold statement_words. do 5 right. exact Hin. Qed.

Lemma reads_assign nb x e : target_name x -> printable e -> reads_stmt stmt (vs_assign nb x e).
Proof.
  intros (Hw & Hx & _) Hp ts rest Hts _. cbn [print_stmt] in Hts. apply spells_cons in Hts as (t & ts1 & -> & Ht & Hts).
  apply spells_cons in Hts as (t1 & ts2 & -> & Ht1 & Hts). apply spells_app in Hts as (tse & tsl & -> & Hte & Htl).
  apply spells_cons in Htl as (t2 & nil & -> & Ht2 & Hn). apply fmap_nil_inv in Hn as ->. cbn [app build]. rewrite <- app_assoc. cbn [app].
  intros w s. rewrite (statement_word _ _ _ _ x); [|done|].
  - rewrite keywords_are_words by done. rewrite (call_or_assignment_name _ _ _ x _ _ (operator nb)); [|done|done|apply operator_in]. by apply reads_assignment.
  - intros Hin. apply Hw. unfold statement_words. rewrite !elem_of_cons in *. naive_solver.
Qed.

Lemma reads_jump brk : reads_stmt stmt (vs_jump brk).
Proof.
  intros ts rest Hts _. cbn [print_stmt] in Hts. apply spells_cons in Hts as (t & ts1 & -> & Ht & Hts).
  apply spells_cons in Hts as (t2 & nil & -> & Ht2 & Hn). apply fmap_nil_inv in Hn as ->. cbn [app build].
  destruct brk; (eapply reads_keyword; [done|apply (bool_decide_unpack _); by vm_compute|reflexivity|]); unfold jump_statement;
    (apply reads_no_delay, reads_semicolon; [done|apply reads_same]).
Qed.

Lemma reads_block l : Forall (reads_stmt self) l -> Forall printable_stmt l -> reads_stmt stmt (vs_block l).
Proof.
  intros Hl Hp ts rest Hts Hf. cbn [print_stmt] in Hts. apply spells_cons in Hts as (t & ts1 & -> & Ht & Hts).
  apply spells_app in Hts as (tsl & tse & -> & Htl & Hte). apply spells_cons in Hte as (t2 & nil & -> & Ht2 & Hn).
  apply fmap_nil_inv in Hn as ->. cbn [app build]. rewrite <- app_assoc. cbn [app].
  eapply reads_keyword; [done|apply (bool_decide_unpack _); by vm_compute|reflexivity|]. unfold block_statement. apply reads_no_delay.
  eapply reads_step; [apply reads_same|auto with tokenless|]. intros _.
  assert (Hnext : exists t3 ts3, tsl ++ t2 :: rest = t3 :: ts3 /\ is_symbol ":" t3 = false).
  { destruct l as [|st l]; [apply fmap_nil_inv in Htl as ->; exists t2, rest; split; [done|exact (is_symbol_word "end" _ _ Ht2)]|].
    apply Forall_cons in Hp as [Hp _]. destruct (print_stmt_starts st Hp) as (x & pr & E & Hx).
    cbn [fmap list_fmap mjoin list_join] in Htl. rewrite E in Htl. apply spells_cons in Htl as (t3 & ts3 & -> & Ht3 & _).
    exists t3, (ts3 ++ t2 :: rest). split; [done|]. by apply (follows_start vs_empty x t3 []). }
  destruct Hnext as (t3 & ts3 & E & Hn3). rewrite E. apply reads_no_label; [done|]. rewrite <- E. clear E.
  apply (reads_step _ _ (in_order (build se <$> l)) _ _ rest); [|apply tokenless_in_order, Forall_fmap, Forall_true; intros; apply tokenless_build|].
  - intros w s. unfold fueled_q. rewrite (reads_block_loop self l _ [] tsl t2 rest Hl Hp); [|shelve|done|done].
    unfold mbind, Q_bind, mbind, P_bind. by destruct (in_order (build se <$> l) w rest s) as [[[[a w'] ts'] s']| | |].
  - intros stmts. destruct rest as [|t4 rest]; [done|]. destruct Hf as [Hf _]. apply reads_no_label; [done|].
    eapply reads_step; [apply reads_same|auto with tokenless|intros; apply reads_same].
  Unshelve. unfold remaining. rewrite length_app, (spells_length _ _ Htl). cbn [length].
  pose proof (print_stmts_length l Hp). lia.
Qed.
Ltac keyword :=
  eapply reads_keyword; [done|apply (bool_decide_unpack _); by vm_compute|reflexivity|].

Lemma reads_if c t : printable c -> reads_stmt self t -> reads_stmt stmt (vs_if c t).
Proof.
  intros Hc Ht ts rest Hts Hf. cbn [print_stmt] in Hts. apply spells_cons in Hts as (k & ts1 & -> & Hk & Hts).
  apply spells_cons in Hts as (t0 & ts2 & -> & H0 & Hts). apply spells_app in Hts as (tc & ts3 & -> & Htc & Hts).
  apply spells_cons in Hts as (t1 & tt & -> & H1 & Htt). cbn [app build]. rewrite <- app_assoc. cbn [app]. keyword.
  unfold if_statement. apply reads_no_delay. eapply reads_cond; [done..|]. intros i. destruct rest as [|t2 rest]; [done|]. destruct Hf as [Hcol Helse].
  eapply reads_step; [apply (Ht tt (t2 :: rest)); [done|split; [done|intros _; by apply Helse]]|apply tokenless_build|]. intros j.
  eapply reads_skip; [|apply reads_same]. apply reads_word. rewrite Helse by done. apply reads_same.
Qed.

Lemma reads_if_else c t e :
  printable c -> reads_stmt self t -> reads_stmt self e -> open t = false -> reads_stmt stmt (vs_if_else c t e).
Proof.
  intros Hc Ht He Ho ts rest Hts Hf. cbn [print_stmt] in Hts. apply spells_cons in Hts as (k & ts1 & -> & Hk & Hts).
  apply spells_cons in Hts as (t0 & ts2 & -> & H0 & Hts). apply spells_app in Hts as (tc & ts3 & -> & Htc & Hts).
  apply spells_cons in Hts as (t1 & ts4 & -> & H1 & Hts). apply spells_app in Hts as (tt & ts5 & -> & Htt & Hts).
  apply spells_cons in Hts as (t2 & te & -> & H2 & Hte). cbn [app build]. rewrite <- !app_assoc. cbn [app]. rewrite <- !app_assoc. cbn [app]. keyword.
  unfold if_statement. apply reads_no_delay. eapply reads_cond; [done..|]. intros i.
  eapply reads_step; [apply (Ht tt (t2 :: te ++ rest)); [done|]|apply tokenless_build|].
  { apply (follows_word _ "else"); [done|]. by rewrite Ho. }
  intros j. eapply (reads_bind _ _ (fun e => [e])); [|apply tokenless_build|intros; apply reads_same].
  apply reads_word. rewrite (is_word_spelled "else") by done. rewrite bool_decide_eq_true_2 by done.
  eapply reads_step; [by apply (He te rest)|apply tokenless_build|intros; apply reads_same].
Qed.

Lemma reads_while c b : printable c -> reads_stmt self b -> reads_stmt stmt (vs_while c b).
Proof.
  intros Hc Hb ts rest Hts Hf. cbn [print_stmt] in Hts. apply spells_cons in Hts as (k & ts1 & -> & Hk & Hts).
  apply spells_cons in Hts as (t0 & ts2 & -> & H0 & Hts). apply spells_app in Hts as (tc & ts3 & -> & Htc & Hts).
  apply spells_cons in Hts as (t1 & tb & -> & H1 & Htb). cbn [app build]. rewrite <- app_assoc. cbn [app]. keyword.
  unfold while_statement. apply reads_no_delay. eapply reads_cond; [done..|]. intros i.
  eapply reads_step; [by apply (Hb tb rest)|apply tokenless_build|intros; apply reads_same].
Qed.

Lemma reads_do b c : printable c -> reads_stmt self b -> reads_stmt stmt (vs_do b c).
Proof.
  intros Hc Hb ts rest Hts Hf. cbn [print_stmt] in Hts. apply spells_cons in Hts as (k & ts1 & -> & Hk & Hts).
  apply spells_app in Hts as (tb & ts2 & -> & Htb & Hts). apply spells_cons in Hts as (tw & ts3 & -> & Hw & Hts).
  apply spells_cons in Hts as (t0 & ts4 & -> & H0 & Hts). apply spells_app in Hts as (tc & ts5 & -> & Htc & Hts).
  apply spells_cons in Hts as (t1 & ts6 & -> & H1 & Hts). apply spells_cons in Hts as (t2 & nil & -> & H2 & Hn).
  apply fmap_nil_inv in Hn as ->. cbn [app build]. rewrite <- !app_assoc. cbn [app]. rewrite <- !app_assoc. cbn [app]. keyword.
  unfold do_while_statement. apply reads_no_delay.
  eapply reads_step; [apply (Hb tb); [done|by apply (follows_word _ "while")]|apply tokenless_build|]. intros i. eapply reads_skip.
  { intros w s. unfold lp, mbind, P_bind. rewrite branch_word, (is_word_spelled "while") by done. by rewrite bool_decide_eq_true_2 by done. }
  eapply reads_cond; [done..|]. intros j. apply reads_expect; [done|]. apply reads_same.
Qed.
Lemma reads_for_condition c tc t rest :
  printable c -> spells tc (print 0 c) -> kind_text t = sym ";" ->
  reads_as (for_condition inline_call) (tc ++ t :: rest) (build_cond c) rest.
Proof.
  intros Hc Htc Ht. unfold for_condition.
  assert (Hno : forall (a b : Q index), reads_as b (tc ++ t :: rest) (build_cond c) rest ->
    reads_as (qbranch (accept_symbol ";") a b) (tc ++ t :: rest) (build_cond c) rest).
  { intros a b Hb. destruct (print_starts c 0 Hc) as (x & l & E & Hx). pose proof Htc as Htc'. rewrite E in Htc'.
    apply spells_cons in Htc' as (t1 & tc' & -> & Ht1 & _). cbn [app] in *. apply reads_symbol.
    destruct (is_symbol ";" t1) eqn:Hs; [|done]. exfalso. apply andb_true_iff in Hs as [Hk%bool_decide_eq_true Hte%bool_decide_eq_true].
    assert (Hx1 : x = sym ";") by (rewrite <- Ht1; unfold kind_text, sym; by rewrite Hk, Hte). subst x.
    rewrite !Forall_cons in Hx. destruct Hx as (_ & _ & _ & _ & Hx & _). by apply Hx. }
  apply Hno. unfold build_cond. eapply reads_step; [eapply reads_stmt_expr; [done..|by do 2 constructor]|auto with tokenless|]. intros v w s.
  unfold mbind, Q_bind, ll, lp, lift, mbind, P_bind. destruct (to_bool_root v s) as [[i s']|]; [|done]. cbn.
  unfold expect_symbol. rewrite branch_symbol, (is_symbol_spelled ";") by done. by rewrite bool_decide_eq_true_2.
Qed.

Lemma reads_for x i c y st b :
  target_name x -> printable i -> printable c -> target_name y -> printable st -> reads_stmt self b -> reads_stmt stmt (vs_for x i c y st b).
Proof.
  intros Hx Hi Hc Hy Hst Hb ts rest Hts Hf. cbn [print_stmt] in Hts. apply spells_cons in Hts as (k & ts1 & -> & Hk & Hts).
  apply spells_cons in Hts as (t0 & ts2 & -> & H0 & Hts). apply spells_cons in Hts as (tx & ts3 & -> & Htx & Hts).
  apply spells_cons in Hts as (t1 & ts4 & -> & H1 & Hts). apply spells_app in Hts as (ti & ts5 & -> & Hti & Hts).
  apply spells_cons in Hts as (t2 & ts6 & -> & H2 & Hts). apply spells_app in Hts as (tc & ts7 & -> & Htc & Hts).
  apply spells_cons in Hts as (t3 & ts8 & -> & H3 & Hts). apply spells_cons in Hts as (ty & ts9 & -> & Hty & Hts).
  apply spells_cons in Hts as (t4 & ts10 & -> & H4 & Hts). apply spells_app in Hts as (tst & ts11 & -> & Htst & Hts).
  apply spells_cons in Hts as (t5 & tb & -> & H5 & Htb). cbn [app build]. do 3 (rewrite <- !app_assoc; cbn [app]). keyword.
  unfold for_statement. apply reads_no_delay, reads_expect; [done|].
  eapply reads_step; [apply reads_same|auto with tokenless|]. intros _.
  eapply reads_step; [eapply (reads_clause _ x i); [done..|by do 2 constructor]|auto with tokenless|]. intros init.
  eapply reads_step; [by apply reads_for_condition|auto with tokenless|]. intros cond.
  eapply reads_step; [eapply (reads_clause _ y st); [done..|by constructor]|auto with tokenless|]. intros step.
  eapply reads_step; [by apply (Hb tb rest)|apply tokenless_build|]. intros body.
  eapply reads_step; [apply reads_same|auto with tokenless|intros; apply reads_same].
Qed.
End Cases.

Lemma proc_reads st f : printable_stmt st -> length (print_stmt st) <= f -> reads_stmt (proc_fuel inline_call task_body f se) st.
Proof.
  revert f. induction st as [|nb x e|brk|l IH|c t IHt|c t e IHt IHe|c b IHb|b c IHb|x i c y st b IHb] using vstmt_nested_ind; intros f Hp Hf;
    (destruct f as [|f]; [cbn [print_stmt length] in Hf; lia|]); cbn [proc_fuel]; cbn [printable_stmt print_stmt length] in *;
    repeat (rewrite ?length_app in Hf; cbn [length] in Hf).
  - apply reads_empty.
  - destruct Hp. by apply reads_assign.
  - apply reads_jump.
  - assert (Hl : Forall printable_stmt l) by (clear -Hp; induction l; constructor; naive_solver). apply reads_block; [|done].
    apply Forall_forall. intros st Hin. rewrite Forall_forall in IH, Hl. apply IH; [done|by apply Hl|].
    assert (length (print_stmt st) <= length (mjoin (print_stmt <$> l))); [|lia]. by apply print_stmt_in.
  - destruct Hp. apply reads_if; [done|]. apply IHt; [done|lia].
  - destruct Hp as (? & ? & ? & ?). apply reads_if_else; [done|apply IHt; [done|lia]|apply IHe; [done|lia]|done].
  - destruct Hp. apply reads_while; [done|]. apply IHb; [done|lia].
  - destruct Hp. apply reads_do; [done|]. apply IHb; [done|lia].
  - destruct Hp as (? & ? & ? & ? & ? & ?). apply reads_for; [done..|]. apply IHb; [done|lia].
Qed.
End Read.

(** ** The text *)

Definition lexable_token (t : token_kind * string) : Prop := lexable t.1 (String.list_ascii_of_string t.2).

Lemma printed_tokens_lexable :
  Forall lexable_token (([";"; "("; ")"; "="; "<="]%string : list string) ≫= fun c => [sym c])
  /\ Forall lexable_token (statement_words ≫= fun x => [word x]).
Proof. split; repeat (constructor; [by vm_compute|]); constructor. Qed.

Lemma sym_lexable c : c ∈ [";"; "("; ")"; "="; "<="]%string -> lexable_token (sym c).
Proof.
  intros Hc. apply (proj1 (Forall_forall _ _) (proj1 printed_tokens_lexable)). apply list_elem_of_bind. exists c. split; [by left|done].
Qed.

Lemma word_lexable x : x ∈ statement_words -> lexable_token (word x).
Proof.
  intros Hx. apply (proj1 (Forall_forall _ _) (proj2 printed_tokens_lexable)). apply list_elem_of_bind. exists x. split; [by left|done].
Qed.

Ltac lexable_stmt :=
  repeat match goal with
  | |- Forall _ (_ ++ _) => apply Forall_app_2
  | |- Forall _ (_ :: _) => constructor
  | |- Forall _ [] => constructor
  | |- Forall _ (print 0 _) => apply print_lexable; tauto
  | |- lexable_token (sym _) => apply sym_lexable; set_solver
  | |- lexable_token (word ?x) => apply word_lexable; apply (bool_decide_unpack _); by vm_compute
  | H : printable_stmt ?st -> Forall _ (print_stmt ?st) |- Forall _ (print_stmt ?st) => apply H; tauto
  end.

Lemma print_stmt_lexable st : printable_stmt st -> Forall lexable_token (print_stmt st).
Proof.
  induction st as [|nb x e|brk|l IH|c t IHt|c t e IHt IHe|c b IHb|b c IHb|x i c y st b IHb] using vstmt_nested_ind; intros Hp;
    cbn [printable_stmt print_stmt] in *.
  - lexable_stmt.
  - destruct Hp as [(_ & _ & Hx) Hp]. constructor; [exact Hx|]. destruct nb; lexable_stmt.
  - destruct brk; lexable_stmt.
  - constructor; [apply word_lexable; apply (bool_decide_unpack _); by vm_compute|]. apply Forall_app_2; [|lexable_stmt].
    induction IH as [|st l Hst _ IHl]; [constructor|]. cbn [foldr] in Hp. destruct Hp as [Hp Hps].
    change (mjoin (print_stmt <$> st :: l)) with (print_stmt st ++ mjoin (print_stmt <$> l)). apply Forall_app_2; [by apply Hst|by apply IHl].
  - lexable_stmt.
  - lexable_stmt.
  - lexable_stmt.
  - lexable_stmt.
  - destruct Hp as ((_ & _ & Hx) & Hi & Hc & (_ & _ & Hy) & Hst & Hb). specialize (IHb Hb). lexable_stmt; done.
Qed.

Lemma follows_eof st t : tok_kind t = tk_eof -> follows st [t].
Proof. intros Hk. unfold follows, is_symbol, word_like. by rewrite Hk. Qed.

(** C9. Statements are read as they are printed.  For every tree of assignments, blocks, conditionals, [while], [do],
    [for], [break] and [continue] over expression trees, in which no [else] follows an [if] that already lacks one, the
    printed text is lexed and parsed completely, and parsing it has the effect of [build]: the same statements are added
    to the arena in the same order, the scope and the module change in the same way, the same index is returned and the
    same errors are reported.  In particular an [else] belongs to the nearest [if], and blocks and loop headers open and
    close a frame of the scope. *)
Theorem parse_print_stmt_roundtrip (d : nat) (se : stmt_env) (st : vstmt) (smap : option (list (Z * Z))) (w : work) (s : pstate) :
  printable_stmt st ->
  exists last, tok_kind last = tk_eof
    /\ proc_at d se w (lr_tokens (lex (spaced (print_stmt st)) smap)) s = build se st w [last] s.
Proof.
  intros Hp.
  destruct (lex_loop_spaced (length (spaced (print_stmt st))) smap 0 (1, 1)%Z (print_stmt st) (mk_lex [] [])) as [Ht _];
    [by apply print_stmt_lexable|done|]. cbn [lr_tokens fmap list_fmap app] in Ht. fold (lex (spaced (print_stmt st)) smap) in Ht.
  apply fmap_app_inv in Ht as (ts & tl & Hts & Htl & E). symmetry in Htl. apply fmap_cons_inv in Htl as (last & nil & Hlast & Hnil & ->).
  symmetry in Hnil. apply fmap_nil_inv in Hnil as ->. exists last. injection Hlast as Hk _. split; [done|]. rewrite E.
  assert (Hread : forall ic tb, parse_proc_stmt ic tb se w (ts ++ [last]) s = build se st w [last] s); [|by destruct d; apply Hread].
  intros ic tb. apply (proc_reads ic tb se st); [done| |done|by apply follows_eof].
  unfold remaining. rewrite length_app, Hts, length_fmap. simpl. lia.
Qed.

(** [while ( a < b ) if ( a ) begin if ( b ) a = b + 1 ; end else for ( i = 0 ; i < a ; i = i + 1 ) b <= a [ i ] ;] *)
Definition example_stmt : vstmt :=
  vs_while (v_binary 4 "<" (v_name "a") (v_name "b"))
    (vs_if_else (v_name "a")
      (vs_block [vs_if (v_name "b") (vs_assign false "a" (v_binary 9 "+" (v_name "b") (v_number "1")))])
      (vs_for "i" (v_number "0") (v_binary 4 "<" (v_name "i") (v_name "a")) "i" (v_binary 9 "+" (v_name "i") (v_number "1"))
        (vs_assign true "b" (v_bit (v_name "a") (v_name "i"))))).

Lemma parse_print_stmt_roundtrip_witness :
  exists last, tok_kind last = tk_eof
    /\ proc_at 1 (mk_stmt_env true "") (mk_work [] (Some scope_default)) (lr_tokens (lex (spaced (print_stmt example_stmt)) None))
         (mk_pstate compiled_module_default [])
       = build (mk_stmt_env true "") example_stmt (mk_work [] (Some scope_default)) [last] (mk_pstate compiled_module_default []).
Proof.
  apply (parse_print_stmt_roundtrip 1 (mk_stmt_env true "") example_stmt None).
  unfold example_stmt. cbn [printable_stmt printable foldr open].
  assert (Hname : forall x, bool_decide ((x ∉ cast_types) /\ (x ∉ system_names) /\ lexable tk_identifier (String.list_ascii_of_string x)) = true ->
    (x ∉ cast_types) /\ (x ∉ system_names) /\ lexable tk_identifier (String.list_ascii_of_string x)) by (intros x; apply bool_decide_eq_true_1).
  assert (Htarget : forall x, bool_decide ((x ∉ statement_words) /\ x ≠ ""%string /\ lexable tk_identifier (String.list_ascii_of_string x)) = true ->
    target_name x) by (intros x; apply bool_decide_eq_true_1).
  assert (Hnum : forall t, bool_decide (is_Some (parse_literal_bits (String.list_ascii_of_string t)) /\ lexable tk_number (String.list_ascii_of_string t)) = true ->
    is_Some (parse_literal_bits (String.list_ascii_of_string t)) /\ lexable tk_number (String.list_ascii_of_string t))
    by (intros t; apply bool_decide_eq_true_1).
  split_and!; try exact I; try (by eexists); try (apply Hname; by vm_compute); try (apply Htarget; by vm_compute); try (apply Hnum; by vm_compute); reflexivity.
Defined.
