(* ===== verification/VDecl.v ===== *)
(** * Verilog: the declarations of a module

    The parts of the module parser of verilog/digital/digital.h that declare:
    parameters, functions, tasks, ports, nets and variables.

    A declared name ends in the symbol tables (VSignals); functions and tasks are
    kept as text and parsed again at every call (VStmt).  The initial value of a
    net is a continuous assignment, that of a variable an initial block.

    Three counters of open brackets are [size_t] or [int] in the code and [nat]
    here: they count tokens. *)

From S2P Require Import Prelude Logic4 VModule VLower VBits VLiteral VLex VSignals VParse VStmt.
From Stdlib Require Import ZArith Lia Ascii.

(** ** Updates of the module *)

Definition with_bodies (m : compiled_module) (ffs : list always_ff) (combs : list always_comb) (initials : list initial_block)
  : compiled_module :=
  mk_module (cm_name m) (cm_ports m) (cm_port_order m) (cm_port_decls m) (cm_vectors m) (cm_signal_names m)
    (cm_signal_is_reg m) (cm_signal_is_signed m) (cm_signal_is_const m) (cm_signal_is_const_foldable m)
    (cm_signal_const_value m) (cm_signal_index m) (cm_param_order m) (cm_param_default_values m) (cm_param_is_local m)
    (cm_expr_nodes m) (cm_expr_intern m) (cm_assigns m) ffs combs initials (cm_instances m) (cm_functions m)
    (cm_tasks m) (cm_inline_counter m).

Definition with_subprograms (m : compiled_module) (functions : gmap string function_def) (tasks : gmap string task_def)
  : compiled_module :=
  mk_module (cm_name m) (cm_ports m) (cm_port_order m) (cm_port_decls m) (cm_vectors m) (cm_signal_names m)
    (cm_signal_is_reg m) (cm_signal_is_signed m) (cm_signal_is_const m) (cm_signal_is_const_foldable m)
    (cm_signal_const_value m) (cm_signal_index m) (cm_param_order m) (cm_param_default_values m) (cm_param_is_local m)
    (cm_expr_nodes m) (cm_expr_intern m) (cm_assigns m) (cm_always_ffs m) (cm_always_combs m) (cm_initials m)
    (cm_instances m) functions tasks (cm_inline_counter m).

(** [m.initials.push_back(ib)] *)
Definition add_initial (ib : initial_block) : L () :=
  update_module (fun m => Some (with_bodies m (cm_always_ffs m) (cm_always_combs m) (cm_initials m ++ [ib]))).

Definition add_function (name : string) (fd : function_def) : L () :=
  update_module (fun m => Some (with_subprograms m (<[name := fd]> (cm_functions m)) (cm_tasks m))).

Definition add_task (name : string) (td : task_def) : L () :=
  update_module (fun m => Some (with_subprograms m (cm_functions m) (<[name := td]> (cm_tasks m)))).

(** The declaration of a port, changed in place. *)
Definition update_port (name : string) (f : port_decl -> port_decl) : L () :=
  pd ← ensure_port_decl name;
  update_module (fun m => Some (with_decls m (cm_port_order m) (<[name := f pd]> (cm_port_decls m)) (cm_param_order m)
    (cm_param_default_values m) (cm_param_is_local m) (cm_inline_counter m))).

(** ** Words *)

Definition is_word (words : list string) (t : token) : bool :=
  bool_decide (tok_kind t = tk_identifier) && bool_decide (tok_text t ∈ words).

(** [accept_kw(w1) || accept_kw(w2) || ...]: the word that is taken. *)
Definition accept_word (words : list string) : P (option string) :=
  t ← peek; if is_word words t then _ ← consume; mret (Some (tok_text t)) else mret None.

Definition int_types : list string := ["int"; "integer"; "byte"; "shortint"; "longint"]%string.

Definition logic_types : list string := ["logic"; "reg"; "wire"; "bit"]%string.

(** [consume_signedness]: the last of the words [signed] and [unsigned]. *)
Fixpoint sign_loop (fuel : nat) (spec : option bool) : P (option bool) :=
  match fuel with
  | O => out_of_fuel
  | S fuel =>
      word ← accept_word ["signed"; "unsigned"]%string;
      match word : option string with
      | Some w => sign_loop fuel (Some (bool_decide (w = "signed"%string)))
      | None => mret spec
      end
  end.

Definition consume_signedness (spec : option bool) : P (option bool) := fueled (fun n => sign_loop n spec).

(** ** Tokens that are skipped *)

(** Brackets that are open: round, square, curly. *)
Definition open_brackets : Type := nat * nat * nat.

Definition no_brackets : open_brackets := (0, 0, 0).

Definition count_bracket (t : token) (d : open_brackets) : open_brackets :=
  let '(paren, brack, brace) := d in
  if is_symbol "(" t then (S paren, brack, brace)
  else if is_symbol ")" t then (pred paren, brack, brace)
  else if is_symbol "[" t then (paren, S brack, brace)
  else if is_symbol "]" t then (paren, pred brack, brace)
  else if is_symbol "{" t then (paren, brack, S brace)
  else if is_symbol "}" t then (paren, brack, pred brace)
  else d.

(** Up to one of the symbols outside of brackets. *)
Fixpoint skip_nested_loop (fuel : nat) (stops : list string) (d : open_brackets) : P () :=
  match fuel with
  | O => out_of_fuel
  | S fuel =>
      when eof then mret ()
      else
        t ← peek;
        if bool_decide (d = no_brackets) && existsb (fun sym => is_symbol sym t) stops then mret ()
        else _ ← consume; skip_nested_loop fuel stops (count_bracket t d)
  end.

Definition skip_nested (stops : list string) : P () := fueled (fun n => skip_nested_loop n stops no_brackets).

(** [while(!eof() && !accept_kw(kw)) consume()] *)
Fixpoint skip_kw_loop (fuel : nat) (kw : string) : P () :=
  match fuel with
  | O => out_of_fuel
  | S fuel =>
      when eof then mret ()
      else when accept_kw kw then mret ()
      else _ ← consume; skip_kw_loop fuel kw
  end.

Definition skip_through_kw (kw : string) : P () := fueled (fun n => skip_kw_loop n kw).

(** [while(!eof() && !(the next word is kw)) consume()] *)
Fixpoint skip_to_kw_loop (fuel : nat) (kw : string) : P () :=
  match fuel with
  | O => out_of_fuel
  | S fuel =>
      when eof then mret ()
      else t ← peek; if is_word [kw] t then mret () else _ ← consume; skip_to_kw_loop fuel kw
  end.

(** Unpacked dimensions after a name. *)
Fixpoint unpacked_loop (fuel : nat) : P () :=
  match fuel with
  | O => out_of_fuel
  | S fuel =>
      when accept_symbol "[" then _ ← fueled (fun n => balanced_loop n "[" "]" 1); unpacked_loop fuel else mret ()
  end.

Definition skip_unpacked_dims : P () := fueled unpacked_loop.

(** ** The text of tokens *)

Definition is_text_word (t : token) : bool := bool_decide (tok_kind t = tk_identifier) || bool_decide (tok_kind t = tk_number).

Fixpoint tokens_to_text_loop (toks : list token) (st : string * bool) : string :=
  match toks with
  | [] => st.1
  | t :: rest => if is_eof t then st.1 else tokens_to_text_loop rest (emit_word st (tok_text t) (is_text_word t))
  end.

(** The tokens from [b] up to [e], which is a tail of [b]. *)
Definition tokens_to_text (b e : list token) : string := tokens_to_text_loop (take (length b - length e) b) (""%string, false).

Section Parser.
Context (inline_call : string -> function_def -> list expr_value -> P expr_value).

Abbreviation parse_expr := (parse_expr inline_call).
Abbreviation type_range := (type_range inline_call).

(** ** Parameters *)

(** A constant expression; 0 after an error. *)
Definition const_value (env : parse_env) (msg : string) : P Z :=
  v ← parse_expr env;
  value ← lift (try_eval_const_uint64 v);
  match value : option Z with Some value => mret value | None => _ ← err msg; mret 0%Z end.

Definition param_decl (is_local : bool) : P () :=
  _ ← consume_signedness None;
  when accept_kw "type" then
    _ ← expect_ident "expected parameter identifier";
    when accept_symbol "=" then skip_nested [","; ")"; ";"]%string else mret ()
  else
    ty ← accept_word (int_types ++ logic_types);
    _ ← (match ty : option string with
         | Some _ => _ ← consume_signedness None; _ ← type_range; mret ()
         | None => mret ()
         end);
    pname ← expect_ident "expected parameter identifier";
    value ← (when accept_symbol "=" then
               const_value no_env "parameter value must be a constant integer expression in this subset"
             else _ ← err "expected '=' in parameter declaration"; mret 0%Z);
    lift (define_param true pname value is_local).

(** A comma, unless a new list starts after it. *)
Definition accept_param_comma (stop_on_param_kw_after_comma : bool) : P bool := looking (fun ts =>
  match ts with
  | sep :: rest =>
      if is_symbol "," sep then
        if stop_on_param_kw_after_comma && match rest with next :: _ => is_word ["parameter"; "localparam"]%string next | [] => false end
        then mret false
        else _ ← consume; mret true
      else mret false
  | [] => undefined
  end).

Fixpoint param_decl_loop (fuel : nat) (is_local stop : bool) : P () :=
  match fuel with
  | O => out_of_fuel
  | S fuel =>
      _ ← param_decl is_local;
      when accept_param_comma stop then param_decl_loop fuel is_local stop else mret ()
  end.

Definition parse_param_decl_list (is_local stop_on_param_kw_after_comma : bool) : P () :=
  fueled (fun n => param_decl_loop n is_local stop_on_param_kw_after_comma).

(** ** Functions *)

Record type_desc := mk_type {
  ty_has_range : bool;
  ty_msb : Z;
  ty_lsb : Z;
  ty_is_signed : bool;
  ty_width : nat;
}.

(** The base type: whether it is signed and its width.  A name in front of
    another name is a type of the user. *)
Definition base_type : P (bool * nat) := looking (fun ts =>
  match ts with
  | t0 :: rest =>
      if is_word (int_types ++ logic_types) t0 then _ ← consume; mret (is_word int_types t0, type_width (tok_text t0))
      else if bool_decide (tok_kind t0 = tk_identifier)
           && match rest with t1 :: _ => bool_decide (tok_kind t1 = tk_identifier) | [] => false end
      then _ ← consume; mret (false, 1)
      else mret (false, 1)
  | [] => undefined
  end).

(** The width of a range. *)
Definition range_width (r : range_desc) : L nat := unchecked (vector_width (rd_msb r) (rd_lsb r)).

Definition parse_type_and_range : P type_desc :=
  spec ← consume_signedness None;
  '(base_is_signed, base_width) ← base_type;
  spec ← consume_signedness spec;
  let is_signed := default base_is_signed spec in
  r ← type_range;
  match r : option range_desc with
  | Some r => w ← lift (range_width r); mret (mk_type (rd_has_range r) (rd_msb r) (rd_lsb r) is_signed w)
  | None => mret (mk_type false 0 0 is_signed base_width)
  end.

Fixpoint function_params_loop (fuel : nat) (params : list function_param) : P (list function_param) :=
  match fuel with
  | O => out_of_fuel
  | S fuel =>
      _ ← accept_kw "input";
      ty ← parse_type_and_range;
      pn ← expect_ident "expected function parameter identifier";
      let params := params ++ [mk_function_param pn (ty_has_range ty) (ty_msb ty) (ty_lsb ty) (ty_is_signed ty) (ty_width ty)] in
      when accept_symbol ")" then mret params
      else when accept_symbol "," then function_params_loop fuel params
      else _ ← err "expected ',' or ')' in function parameter list"; _ ← skip_until ")"; mret params
  end.

(** [(params)], if there is one. *)
Definition optional_params {A} (loop : nat -> list A -> P (list A)) : P (list A) :=
  when accept_symbol "(" then when accept_symbol ")" then mret [] else fueled (fun n => loop n [])
  else mret [].

(** The names of a local declaration. *)
Fixpoint local_names_loop (fuel : nat) (locals : list string) : P (list string) :=
  match fuel with
  | O => out_of_fuel
  | S fuel =>
      vn ← expect_ident "expected identifier in local declaration";
      let locals := if bool_decide (vn = ""%string) then locals else locals ++ [vn] in
      _ ← (when accept_symbol "=" then skip_nested [","; ";"]%string else mret ());
      when accept_symbol "," then local_names_loop fuel locals else mret locals
  end.

(** A local declaration at its type; a cast is none and only its first word is
    taken. *)
Definition local_decl (locals : list string) : P (list string) := looking (fun saved =>
  _ ← consume;
  _ ← consume_signedness None;
  _ ← type_range;
  t ← peek;
  if is_symbol "'" t then _ ← go_back saved; _ ← consume; mret locals
  else
    locals ← fueled (fun n => local_names_loop n locals);
    _ ← expect_symbol ";" "expected ';' after local declaration";
    mret locals).

(** The body of a function: its local variables. *)
Fixpoint locals_loop (fuel : nat) (locals : list string) : P (list string) :=
  match fuel with
  | O => out_of_fuel
  | S fuel =>
      when eof then mret locals
      else
        t ← peek;
        if is_word ["endfunction"%string] t then mret locals
        else if is_word (int_types ++ logic_types) t then locals ← local_decl locals; locals_loop fuel locals
        else _ ← consume; locals_loop fuel locals
  end.

(** [if(!accept_kw(kw)) err(msg)] *)
Definition expect_kw (kw msg : string) : P () := when accept_kw kw then mret () else err msg.

(** What a step returns with the text of the tokens it takes. *)
Definition with_text {A} (c : P A) : P (A * string) := looking (fun b => a ← c; looking (fun e => mret (a, tokens_to_text b e))).

Definition parse_function_def : P () :=
  _ ← accept_kw "automatic";
  ret ← parse_type_and_range;
  fname ← expect_ident "expected function name";
  if bool_decide (fname = ""%string) then skip_through_kw "endfunction"
  else
    params ← optional_params function_params_loop;
    _ ← expect_symbol ";" "expected ';' after function header";
    '(locals, body_text) ← with_text (fueled (fun n => locals_loop n [fname]));
    _ ← expect_kw "endfunction" "expected 'endfunction'";
    lift (add_function fname (mk_function (ty_has_range ret) (ty_msb ret) (ty_lsb ret) (ty_is_signed ret) (ty_width ret)
            params locals body_text)).

(** ** Tasks *)

(** The direction of the next parameter: it stays until another is named. *)
Definition task_direction (cur : param_dir) : P param_dir :=
  when accept_kw "input" then mret pdir_input
  else when accept_kw "output" then mret pdir_output
  else when accept_kw "inout" then mret pdir_inout
  else when accept_kw "ref" then mret pdir_inout
  else mret cur.

Definition task_param_of (name : string) (dir : param_dir) (r : option range_desc) (is_signed : bool) (base_w : nat) : L task_param :=
  match r with
  | Some r => w ← range_width r; mret (mk_task_param name dir (rd_has_range r) (rd_msb r) (rd_lsb r) is_signed (nonzero_width w))
  | None => mret (mk_task_param name dir false 0 0 is_signed (nonzero_width base_w))
  end.

Fixpoint task_params_loop (fuel : nat) (cur : param_dir) (params : list task_param) : P (list task_param) :=
  match fuel with
  | O => out_of_fuel
  | S fuel =>
      dir ← task_direction cur;
      base ← accept_word (int_types ++ logic_types);
      let is_signed := match base : option string with Some kw => bool_decide (kw ∈ int_types) | None => false end in
      let base_w := match base with Some kw => type_width kw | None => 1 end in
      is_signed ← accept_sign is_signed;
      r ← type_range;
      pn ← expect_ident "expected task parameter identifier";
      params ← (if bool_decide (pn = ""%string) then mret params
                else pd ← lift (task_param_of pn dir r is_signed base_w); mret (params ++ [pd]));
      _ ← (when accept_symbol "=" then _ ← parse_expr no_env; mret () else mret ());
      when accept_symbol ")" then mret params
      else when accept_symbol "," then task_params_loop fuel dir params
      else _ ← err "expected ',' or ')' in task parameter list"; _ ← skip_until ")"; mret params
  end.

Definition parse_task_def : P () :=
  _ ← accept_kw "automatic";
  tname ← expect_ident "expected task name";
  if bool_decide (tname = ""%string) then skip_through_kw "endtask"
  else
    params ← optional_params (fun n => task_params_loop n pdir_input);
    _ ← expect_symbol ";" "expected ';' after task header";
    '(_, body_text) ← with_text (fueled (fun n => skip_to_kw_loop n "endtask"));
    _ ← expect_kw "endtask" "expected 'endtask'";
    lift (add_task tname (mk_task params body_text)).

(** ** Ports *)

(** The type of a port: whether it is a variable, whether it is signed, its
    range.  [kinds] are the words that may name its kind. *)
Definition port_type (d : port_dir) (kinds : list string) : P (bool * bool * option range_desc) :=
  spec ← consume_signedness None;
  kind ← accept_word kinds;
  spec ← consume_signedness spec;
  int_type ← accept_word int_types;
  r ← (match int_type : option string with
       | Some kw => mret (Some (mk_range true (Z.of_nat (type_width kw) - 1) 0))
       | None => type_range
       end);
  spec ← consume_signedness spec;
  let integral := bool_decide (is_Some int_type) in
  let is_variable := match kind : option string with Some kw => negb (bool_decide (kw = "wire"%string)) | None => false end in
  mret (bool_decide (d = dir_output) && (is_variable || integral), default integral spec, r).

(** The declaration that is found or made is given the direction and the type. *)
Definition declare_port (d : port_dir) (is_reg is_signed : bool) (r : option range_desc) (pd : port_decl) : port_decl :=
  mk_port_decl d (match r with Some _ => true | None => pd_has_range pd end)
    (match r with Some r => rd_msb r | None => pd_msb pd end) (match r with Some r => rd_lsb r | None => pd_lsb pd end)
    (pd_is_reg pd || is_reg) is_signed.

Fixpoint port_names_loop (fuel : nat) (declare : string -> L ()) : P bool :=
  match fuel with
  | O => out_of_fuel
  | S fuel =>
      name ← expect_ident "expected identifier in declaration";
      if bool_decide (name = ""%string) then mret false
      else
        _ ← lift (declare name);
        when accept_symbol "," then port_names_loop fuel declare else mret true
  end.

Definition parse_decl_list (d : port_dir) : P () :=
  '(is_reg, is_signed, r) ← port_type d logic_types;
  complete ← fueled (fun n => port_names_loop n (fun name =>
    _ ← update_port name (declare_port d is_reg is_signed r);
    _ ← declare_bits r name is_reg is_signed;
    mret ()));
  if complete : bool then expect_semicolon "expected ';'" else mret ().

(** ** Nets and variables *)

Fixpoint dims_loop (fuel : nat) (dims : list range_desc) : P (list range_desc) :=
  match fuel with
  | O => out_of_fuel
  | S fuel =>
      r ← type_range;
      match r : option range_desc with Some r => dims_loop fuel (dims ++ [r]) | None => mret dims end
  end.

(** The number of bits of several packed dimensions, 4096 at most. *)
Fixpoint dims_width (w : Z) (dims : list range_desc) : L Z :=
  match dims with
  | [] => mret w
  | d :: dims =>
      dw ← range_width d;
      let dw := Z.of_nat dw in
      if bool_decide (dw = 0)%Z then dims_width w dims
      else if bool_decide ((2 ^ 64 - 1) / dw < w)%Z then mret 4096%Z
      else if bool_decide (4096 < w * dw)%Z then mret 4096%Z
      else dims_width (w * dw) dims
  end.

(** The range of all packed dimensions. *)
Definition packed_range (dims : list range_desc) : L (option range_desc) :=
  match dims with
  | [] => mret None
  | [r] => mret (Some r)
  | _ => w ← dims_width 1 dims; mret (Some (mk_range true (if bool_decide (w = 0)%Z then 0 else w - 1)%Z 0))
  end.

(** A step with an arena of its own and no scope. *)
Definition in_arena {A} (c : Q A) : P (A * list stmt_node) :=
  '(a, w) ← c (mk_work [] None); mret (a, wk_arena w).

(** The names of a declaration and the statements that initialise them; [None]:
    a name is missing. *)
Fixpoint inits_loop (fuel : nat) (what : string) (declare : string -> Q (option index)) (inits : list index) : Q (option (list index)) :=
  match fuel with
  | O => lp out_of_fuel
  | S fuel =>
      name ← lp (expect_ident what);
      if bool_decide (name = ""%string) then mret None
      else
        init ← declare name;
        let inits := match init : option index with Some i => inits ++ [i] | None => inits end in
        whenq accept_symbol "," then inits_loop fuel what declare inits else mret (Some inits)
  end.

(** The statement that runs the initial assignments; [None]: there is none. *)
Definition init_block (what : string) (declare : string -> Q (option index)) : Q (option index) :=
  inits ← fueled_q (fun n => inits_loop n what declare []);
  match inits : option (list index) with
  | None => mret None
  | Some inits =>
      _ ← lp (expect_semicolon "expected ';'");
      if bool_decide (inits = []) then mret None else i ← add_stmt (st_block inits); mret (Some i)
  end.

(** A declaration; its initial assignments are an initial block. *)
Definition declare_with_inits (what : string) (declare : string -> Q (option index)) : P () :=
  '(root, arena) ← in_arena (init_block what declare);
  match root : option index with
  | Some i => lift (add_initial (mk_initial arena [i]))
  | None => mret ()
  end.

(** [wire w = rhs] *)
Definition net_initializer (bits : list index) (rhs : expr_value) : L () :=
  if bool_decide (length bits <= 1) then
    rhs1 ← resize rhs 1 false;
    add_assigns [(default SIZE_MAX (head bits), xv_scalar_root rhs1)]
  else
    rhs_bits ← resize_to_vector rhs (length bits) (xv_is_signed rhs);
    add_assigns (zip bits rhs_bits).

(** [reg r = rhs] *)
Definition variable_initializer (bits : list index) (rhs : expr_value) : Q index :=
  if bool_decide (length bits <= 1) then assign_scalar false 0 (default SIZE_MAX (head bits)) rhs else assign_vector false 0 bits rhs.

Definition parse_wire_list (is_reg : bool) : P () :=
  is_signed ← accept_sign false;
  dims ← fueled (fun n => dims_loop n []);
  r ← lift (packed_range dims);
  declare_with_inits "expected identifier in declaration" (fun name =>
    bits ← ll (declare_bits r name is_reg is_signed);
    _ ← lp skip_unpacked_dims;
    whenq accept_symbol "=" then
      rhs ← lp (parse_expr no_env);
      if is_reg then i ← variable_initializer bits rhs; mret (Some i)
      else _ ← ll (net_initializer bits rhs); mret None
    else mret None).

Definition parse_packed_int_list (msb lsb : Z) (is_signed_default : bool) : P () :=
  is_signed ← accept_sign is_signed_default;
  declare_with_inits "expected identifier in integer declaration" (fun name =>
    vd ← ll (declare_vector_range true name msb lsb true is_signed);
    _ ← lp skip_unpacked_dims;
    whenq accept_symbol "=" then
      rhs ← lp (parse_expr no_env);
      i ← assign_vector false 0 (vd_bits vd) rhs;
      mret (Some i)
    else mret None).

Definition parse_integer_list (is_signed_default : bool) : P () := parse_packed_int_list 31 0 is_signed_default.
End Parser.
