(* ===== verification/VItems.v ===== *)
(** * Verilog: assignments, processes and instances of a module

    The parts of the module parser of verilog/digital/digital.h that describe
    behaviour: [assign], the [always] and [initial] processes, the instances of
    other modules and the generate blocks, which repeat instances. *)

From S2P Require Import Prelude Logic4 VModule VLower VBits VLiteral VLex VSignals VParse VStmt VDecl.
From Stdlib Require Import ZArith Lia Ascii.

(** ** Continuous assignments *)

(** [m.assigns.push_back({lhs, root, guard})] *)
Definition push_assigns (l : list continuous_assign) : L () :=
  update_module (fun m => Some (with_assigns m (cm_assigns m ++ l) (cm_always_combs m))).

(** [rhs_bits] to the bits from [msb] to [lsb], under a guard; bits outside of
    the vector are left out. *)
Definition guarded_bits (lhs : lvalue_ref) (msb lsb : Z) (rhs_bits : list index) (guard : index) : L () :=
  indices ← unchecked (select_indices msb lsb);
  push_assigns (omap (fun '(idx, root) =>
    pos ← vector_pos (lv_base_msb lhs) (lv_base_lsb lhs) idx;
    sig ← lv_vector_signals lhs !! pos;
    Some (mk_assign sig root guard)) (zip indices rhs_bits)).

(** [for(x : l) f(x)] *)
Definition lfor {A} (f : A -> L ()) (l : list A) : L () := _ ← lmap f l; mret ().

(** [assign a[idx] = rhs]: an assignment per bit, guarded by the index. *)
Definition net_dynamic_bit (lhs : lvalue_ref) (rhs : expr_value) : L () :=
  rhs1 ← resize rhs 1 false;
  cmp_w ← index_width (lv_index_expr lhs) (lv_base_msb lhs) (lv_base_lsb lhs);
  idx_norm ← resize (lv_index_expr lhs) cmp_w false;
  lfor (fun '(pos, sig) =>
    let idx_val := vector_index_at (lv_base_msb lhs) (lv_base_lsb lhs) pos in
    if bool_decide (idx_val < 0)%Z then mret ()
    else cond ← index_is idx_norm cmp_w idx_val; push_assigns [mk_assign sig (xv_scalar_root rhs1) cond])
    (imap pair (lv_vector_signals lhs)).

Definition net_dynamic_indexed (lhs : lvalue_ref) (rhs : expr_value) : L () :=
  if bool_decide (lv_indexed_width lhs = 0) then report "indexed part-select lvalue width must be positive"
  else
    rhs_bits ← resize_to_vector rhs (lv_indexed_width lhs) (xv_is_signed rhs);
    let '(msb, lsb) := (lv_base_msb lhs, lv_base_lsb lhs) in
    let w_int := Z.of_nat (lv_indexed_width lhs) in
    start_min ← unchecked (if lv_indexed_plus lhs then Some (Z.min msb lsb) else int_result (Z.min msb lsb + (w_int - 1)));
    start_max ← unchecked (if lv_indexed_plus lhs then int_result (Z.max msb lsb - (w_int - 1)) else Some (Z.max msb lsb));
    if bool_decide (start_max < start_min)%Z then report "indexed part-select out of range"
    else
      cmp_w ← index_width (lv_index_expr lhs) msb lsb;
      idx_norm ← resize (lv_index_expr lhs) cmp_w false;
      starts ← unchecked (int_range start_min start_max);
      lfor (fun s =>
        cond ← index_is idx_norm cmp_w s;
        '(sel_msb, sel_lsb) ← unchecked (indexed_bounds (lv_indexed_plus lhs) (bool_decide (lsb <= msb)%Z) s w_int);
        guarded_bits lhs sel_msb sel_lsb rhs_bits cond) starts.

Definition net_dynamic_part (lhs : lvalue_ref) (rhs : expr_value) : L () :=
  let '(min_idx, max_idx) := (Z.min (lv_base_msb lhs) (lv_base_lsb lhs), Z.max (lv_base_msb lhs) (lv_base_lsb lhs)) in
  span ← unchecked (int_result (max_idx - min_idx + 1));
  if bool_decide (span <= 0)%Z then report "dynamic part-select out of range"
  else if bool_decide (4096 < span * span)%Z then report "dynamic part-select is too large to elaborate in this subset"
  else
    cmp_w_msb ← index_width (lv_msb_expr lhs) (lv_base_msb lhs) (lv_base_lsb lhs);
    cmp_w_lsb ← index_width (lv_lsb_expr lhs) (lv_base_msb lhs) (lv_base_lsb lhs);
    msb_norm ← resize (lv_msb_expr lhs) cmp_w_msb false;
    lsb_norm ← resize (lv_lsb_expr lhs) cmp_w_lsb false;
    values ← unchecked (int_range min_idx max_idx);
    lfor (fun msb =>
      msb_eq ← index_is msb_norm cmp_w_msb msb;
      lfor (fun lsb =>
        rhs_bits ← resize_to_vector rhs (Z.to_nat (Z.abs (msb - lsb) + 1)) (xv_is_signed rhs);
        lsb_eq ← index_is lsb_norm cmp_w_lsb lsb;
        cond ← make_and msb_eq lsb_eq;
        guarded_bits lhs msb lsb rhs_bits cond) values) values.

(** The assignments of [rhs] to the left-hand side. *)
Definition net_assigns (lhs : lvalue_ref) (rhs : expr_value) : L () :=
  match lv_k lhs with
  | lk_vector =>
      rhs_bits ← resize_to_vector rhs (length (lv_vector_signals lhs)) (xv_is_signed rhs);
      roots ← unchecked (mapM (fun i => rhs_bits !! i) (seq 0 (length (lv_vector_signals lhs))));
      add_assigns (zip (lv_vector_signals lhs) roots)
  | lk_dynamic_bit_select => net_dynamic_bit lhs rhs
  | lk_dynamic_indexed_part_select => net_dynamic_indexed lhs rhs
  | lk_dynamic_part_select => net_dynamic_part lhs rhs
  | lk_scalar => rhs1 ← resize rhs 1 false; add_assigns [(lv_scalar_signal lhs, xv_scalar_root rhs1)]
  end.

(** ** Processes *)

(** [m.always_ffs.push_back(ff)] *)
Definition add_always_ff (ff : always_ff) : L () :=
  update_module (fun m => Some (with_bodies m (cm_always_ffs m ++ [ff]) (cm_always_combs m) (cm_initials m))).

(** What the sensitivity list says so far. *)
Record sensitivity := mk_sensitivity {
  sn_any_edge : bool;
  sn_comb_sens : list index;
  sn_events : list sensitivity_event;
}.

Definition no_sensitivity : sensitivity := mk_sensitivity false [] [].

Definition set_any_edge (sn : sensitivity) : sensitivity := mk_sensitivity true (sn_comb_sens sn) (sn_events sn).

Definition add_level_signals (sn : sensitivity) (sigs : list index) : sensitivity :=
  mk_sensitivity (sn_any_edge sn) (sn_comb_sens sn ++ sigs) (sn_events sn ++ (mk_sens sens_level <$> sigs)).

Definition add_edge (sn : sensitivity) (ek : sens_kind) (sig : index) : sensitivity :=
  mk_sensitivity (sn_any_edge sn) (sn_comb_sens sn) (sn_events sn ++ [mk_sens ek sig]).

Definition resolve_signal_list (base : string) (bit : option Z) : L (list index) :=
  match bit with
  | Some bit_idx => sig ← get_or_create_vector_bit base bit_idx false; mret [sig]
  | None =>
      m ← get_module;
      match (vd ← cm_vectors m !! base; if bool_decide (vd_bits vd = []) then None else Some vd) with
      | Some vd => mret (vd_bits vd)
      | None => sig ← get_or_create_signal base; mret [Some sig]
      end
  end.

(** [[index]] after a name; the index is 0 after an error. *)
Definition bit_select : P (option Z) :=
  when accept_symbol "[" then
    ti ← peek;
    bit_idx ← (match (if bool_decide (tok_kind ti = tk_number) then parse_dec_int (String.list_ascii_of_string (tok_text ti)) else None) with
               | Some v => _ ← consume; mret v
               | None => _ ← err "expected constant integer bit-select index"; mret 0%Z
               end);
    _ ← expect_symbol "]" "expected ']'";
    mret (Some bit_idx)
  else mret None.

(** The event an item is about: the state says whether there was an edge. *)
Definition event_kind (require_edge : bool) (sn : sensitivity) : P (sens_kind * sensitivity) :=
  when accept_kw "posedge" then mret (sens_posedge, set_any_edge sn)
  else when accept_kw "negedge" then mret (sens_negedge, set_any_edge sn)
  else
    _ ← (if require_edge then err "always_ff sensitivity list must use posedge/negedge events only" else mret ());
    mret (sens_level, sn).

Definition parse_one_item (require_edge : bool) (sn : sensitivity) : P sensitivity :=
  '(ek, sn) ← event_kind require_edge sn;
  name ← expect_ident "expected identifier in sensitivity list";
  if bool_decide (name = ""%string) then mret sn
  else
    bit ← bit_select;
    sigs ← lift (resolve_signal_list name bit);
    match ek with
    | sens_level => mret (add_level_signals sn sigs)
    | _ =>
        match sigs : list index with
        | [sig] => mret (add_edge sn ek sig)
        | _ => _ ← err "posedge/negedge event must reference a single bit in this subset"; mret sn
        end
    end.

Fixpoint sensitivity_loop (fuel : nat) (require_edge : bool) (sn : sensitivity) : P sensitivity :=
  match fuel with
  | O => out_of_fuel
  | S fuel =>
      when eof then mret sn
      else when accept_symbol ")" then mret sn
      else
        let next := sn ← parse_one_item require_edge sn; sensitivity_loop fuel require_edge sn in
        when accept_kw "or" then next
        else when accept_symbol "," then next
        else
          _ ← err "expected 'or', ',' or ')' in sensitivity list";
          _ ← consume;
          sensitivity_loop fuel require_edge sn
  end.

Definition is_blocking (n : stmt_node) : bool :=
  match sn_k n with sk_blocking_assign | sk_blocking_assign_vec => true | _ => false end.

(** The statements in a statement that are searched. *)
Definition searched (n : stmt_node) : list index :=
  match sn_k n with
  | sk_block | sk_subprogram_block => sn_stmts n
  | sk_if_stmt => sn_stmts n ++ sn_else_stmts n
  | sk_case_stmt => mjoin (ci_stmts <$> sn_case_items n)
  | sk_for_stmt | sk_while_stmt | sk_do_while_stmt => [sn_init_stmt n; sn_step_stmt n; sn_body_stmt n]
  | _ => []
  end.

(** [for(sub : l) if(f(sub)) return true; return false] *)
Fixpoint any_of (f : index -> option bool) (l : list index) : option bool :=
  match l with
  | [] => Some false
  | sub :: l => b ← f sub; if b : bool then Some true else any_of f l
  end.

(** Whether a statement has a blocking assignment in it; [None]: out of fuel. *)
Fixpoint contains_blocking_assign (fuel : nat) (arena : list stmt_node) (idx : index) : option bool :=
  match fuel with
  | O => None
  | S fuel =>
      match vget arena idx with
      | None => Some false
      | Some n => if is_blocking n then Some true else any_of (contains_blocking_assign fuel arena) (searched n)
      end
  end.

Definition blocking_inside (arena : list stmt_node) (root : index) : option bool :=
  contains_blocking_assign (S (S (length arena))) arena root.

(** ** Connections of instances *)

(** [classify_root] and [root_node]: the node of a root. *)
Definition classify_root (m : compiled_module) (root : index) : expr_kind :=
  match vget (cm_expr_nodes m) root with Some n => en_kind n | None => ek_is_unknown end.

Definition connection_of (k : connection_kind) (is_signed : bool) (sig : index) (lit : dns) (lits : list dns)
  (bits : list connection_bit) (roots : list index) : connection_ref := mk_connection k is_signed sig "" lit lits bits roots.

Definition connect_expr (is_signed : bool) (roots : list index) : connection_ref :=
  connection_of cn_expr is_signed SIZE_MAX indeterminate_state [] [] roots.

(** One root. *)
Definition connect_root (m : compiled_module) (is_signed : bool) (root : index) : connection_ref :=
  match vget (cm_expr_nodes m) root with
  | Some n =>
      match en_kind n with
      | ek_signal => connection_of cn_scalar is_signed (en_signal n) indeterminate_state [] [] []
      | ek_literal => connection_of cn_literal is_signed SIZE_MAX (en_literal n) [] [] []
      | _ => connect_expr is_signed [root]
      end
  | None => connect_expr is_signed [root]
  end.

Definition root_literal (m : compiled_module) (root : index) : dns :=
  match vget (cm_expr_nodes m) root with Some n => en_literal n | None => indeterminate_state end.

Definition root_bit (m : compiled_module) (root : index) : connection_bit :=
  match vget (cm_expr_nodes m) root with
  | None => mk_connection_bit true SIZE_MAX indeterminate_state
  | Some n =>
      match en_kind n with
      | ek_signal => mk_connection_bit false (en_signal n) dns_default
      | _ => mk_connection_bit true SIZE_MAX (en_literal n)
      end
  end.

(** Several roots: literals, literals and signals, or expressions. *)
Definition connect_roots (m : compiled_module) (is_signed : bool) (roots : list index) : connection_ref :=
  let is_literal root := bool_decide (classify_root m root = ek_literal) in
  let is_signal root := bool_decide (classify_root m root = ek_signal) in
  if forallb is_literal roots then
    connection_of cn_literal_vector is_signed SIZE_MAX indeterminate_state (root_literal m <$> roots) [] []
  else if forallb (fun root => is_literal root || is_signal root) roots then
    connection_of cn_bit_list is_signed SIZE_MAX indeterminate_state [] (root_bit m <$> roots) []
  else connect_expr is_signed roots.

(** What a value is connected as. *)
Definition connect_value (m : compiled_module) (v : expr_value) : connection_ref :=
  match roots_of v with
  | [] => connection_of cn_unconnected (xv_is_signed v) SIZE_MAX indeterminate_state [] [] []
  | [root] => connect_root m (xv_is_signed v) root
  | roots => connect_roots m (xv_is_signed v) roots
  end.

(** ** Instances *)

(** [insert_or_assign] into the entries of a map in key order. *)
Fixpoint insert_named (k : string) (v : Z) (l : list (string * Z)) : list (string * Z) :=
  match l with
  | [] => [(k, v)]
  | (k', v') :: l' =>
      if bool_decide (k = k') then (k, v) :: l'
      else if String.ltb k k' then (k, v) :: l
      else (k', v') :: insert_named k v l'
  end.

(** The overrides of parameters, by position and by name. *)
Record overrides := mk_overrides { ov_positional : list Z; ov_named : list (string * Z) }.

Definition type_spec_words : list string :=
  ["logic"; "bit"; "reg"; "wire"; "byte"; "shortint"; "int"; "integer"; "longint"; "unsigned"; "signed"; "struct"; "union";
   "enum"; "void"]%string.

Definition looks_like_type_spec : P bool := t ← peek; mret (is_word type_spec_words t).

(** The connections of an instance and whether there is a [.*]. *)
Record connections := mk_connections { cx_implicit : bool; cx_list : list instance_connection }.

Definition with_instances (m : compiled_module) (instances : list instance) : compiled_module :=
  mk_module (cm_name m) (cm_ports m) (cm_port_order m) (cm_port_decls m) (cm_vectors m) (cm_signal_names m)
    (cm_signal_is_reg m) (cm_signal_is_signed m) (cm_signal_is_const m) (cm_signal_is_const_foldable m)
    (cm_signal_const_value m) (cm_signal_index m) (cm_param_order m) (cm_param_default_values m) (cm_param_is_local m)
    (cm_expr_nodes m) (cm_expr_intern m) (cm_assigns m) (cm_always_ffs m) (cm_always_combs m) (cm_initials m)
    instances (cm_functions m) (cm_tasks m) (cm_inline_counter m).

Definition add_instance (i : instance) : L () :=
  update_module (fun m => Some (with_instances m (cm_instances m ++ [i]))).

(** Back to a position, with the errors there were: what was added to the module
    stays. *)
Definition rollback (pos0 : list token) (err0 : nat) : P bool := fun _ s =>
  Ok (false, pos0, mk_pstate (ps_m s) (take err0 (ps_errors s))).

(** A step that is told where it starts and how many errors there are. *)
Definition from_here {A} (f : list token -> nat -> P A) : P A := fun ts s => f ts (length (ps_errors s)) ts s.

(** ** Generate blocks *)

(** The [end] of a block whose [begin]s are open [depth] times. *)
Fixpoint matching_end (depth : nat) (toks : list token) : option (list token) :=
  match toks with
  | [] => None
  | t :: rest =>
      if is_word ["begin"%string] t then matching_end (S depth) rest
      else if is_word ["end"%string] t then
        match depth with O => None | S O => Some toks | S depth => matching_end depth rest end
      else matching_end depth rest
  end.

(** [name_g[i]] *)
Definition generated_name (name : string) (i : Z) : string :=
  (name +:+ "_g[" +:+ String.string_of_list_ascii (decimal i) +:+ "]")%string.

(** The last instance is renamed. *)
Definition rename_last (i : Z) (instances : list instance) : list instance :=
  match last instances with
  | Some inst =>
      removelast instances ++
        [mk_instance (inst_module_name inst) (generated_name (inst_instance_name inst) i)
           (inst_has_implicit_named_connections inst) (inst_param_positional_values inst) (inst_param_named_values inst)
           (inst_connections inst)]
  | None => instances
  end.

Definition rename_generated (before : nat) (i : Z) : L () :=
  update_module (fun m =>
    Some (if bool_decide (length (cm_instances m) = S before) then with_instances m (rename_last i (cm_instances m)) else m)).

Definition instance_count : L nat := m ← get_module; mret (length (cm_instances m)).

(** The header of a for-generate: first value, bound, whether the comparison is
    [<], [<=] or neither, direction and step. *)
Record generate_header := mk_generate {
  gh_var : string;
  gh_init : Z;
  gh_le : bool;
  gh_lt : bool;
  gh_limit : Z;
  gh_plus : bool;
  gh_step : Z;
}.

Definition generate_cond (h : generate_header) (i : Z) : bool :=
  if gh_lt h then bool_decide (i < gh_limit h)%Z else if gh_le h then bool_decide (i <= gh_limit h)%Z else false.

(** The next value of the variable; [None]: it would be negative. *)
Definition generate_next (h : generate_header) (i : Z) : option Z :=
  if gh_plus h then Some ((i + gh_step h) mod 2 ^ 64)%Z
  else if bool_decide (i < gh_step h)%Z then None else Some (i - gh_step h)%Z.

Definition generate_limit : nat := Z.to_nat 1000000.

(** [for(; pb.pos < end_pos && !pb.eof();)] up to a semicolon: [stop] tokens are
    left at the end of the block. *)
Fixpoint skip_item_in_block (fuel : nat) (stop : nat) : P () :=
  match fuel with
  | O => out_of_fuel
  | S fuel => looking (fun ts =>
      if bool_decide (length ts <= stop) then mret ()
      else when eof then mret ()
      else when accept_symbol ";" then mret ()
      else _ ← consume; skip_item_in_block fuel stop)
  end.

Section Parser.
Context (inline_call : string -> function_def -> list expr_value -> P expr_value).
Context (proc : stmt_env -> Q index).

Abbreviation parse_expr := (parse_expr inline_call).
Abbreviation const_value := (const_value inline_call).

Definition parse_assign_stmt : P () :=
  '(found, lhs) ← parse_lvalue_ref inline_call false true ∅ no_env;
  if negb found then skip_until_semicolon
  else when accept_symbol "=" then
    rhs ← parse_expr no_env;
    _ ← expect_semicolon "expected ';' after assign";
    lift (net_assigns lhs rhs)
  else _ ← err "expected '=' in assign"; skip_until_semicolon.

(** A statement with an arena and a scope of its own. *)
Definition process_body : P (index * list stmt_node) :=
  '(root, w) ← proc (mk_stmt_env true "") (mk_work [] (Some (push_frame scope_default)));
  mret (root, wk_arena w).

Definition comb_process (is_star : bool) (sens : list index) : P () :=
  '(root, arena) ← process_body;
  lift (add_always_comb (mk_always_comb is_star sens arena [root])).

Definition parse_always_comb : P () := comb_process true [].

Definition parse_always_latch : P () := parse_always_comb.

Definition parse_initial : P () :=
  '(root, arena) ← process_body;
  lift (add_initial (mk_initial arena [root])).

(** [always_ff] admits no blocking assignment. *)
Definition check_nonblocking (arena : list stmt_node) (root : index) : P () :=
  match blocking_inside arena root with
  | None => out_of_fuel
  | Some true => err "always_ff requires nonblocking '<=' assignments (blocking '=' is not allowed)"
  | Some false => mret ()
  end.

Definition ff_process (require_edge : bool) (sn : sensitivity) : P () :=
  _ ← (if require_edge && negb (sn_any_edge sn) then err "always_ff requires at least one posedge/negedge event" else mret ());
  '(root, arena) ← process_body;
  _ ← (if require_edge then check_nonblocking arena root else mret ());
  lift (add_always_ff (mk_always_ff (sn_events sn) arena [root])).

(** A process with a sensitivity list. *)
Definition sensitive_process (require_edge : bool) (sn : sensitivity) : P () :=
  if sn_any_edge sn || require_edge then ff_process require_edge sn else comb_process false (sn_comb_sens sn).

Definition sensitivity_list (require_edge : bool) : P sensitivity :=
  when accept_symbol ")" then mret no_sensitivity
  else
    sn ← parse_one_item require_edge no_sensitivity;
    fueled (fun n => sensitivity_loop n require_edge sn).

Definition parse_always_event (require_edge : bool) : P () :=
  when accept_symbol "@" then
    when accept_symbol "*" then comb_process true []
    else when accept_symbol "(" then
      when accept_symbol "*" then _ ← expect_symbol ")" "expected ')' after @*"; comb_process true []
      else sn ← sensitivity_list require_edge; sensitive_process require_edge sn
    else _ ← err "expected '(' after @"; skip_until_semicolon
  else when accept_symbol "#" then _ ← parse_delay_ticks inline_call; skip_until_semicolon
  else _ ← err "expected '@' after always"; skip_until_semicolon.

Definition parse_always : P () := parse_always_event false.

Definition parse_always_ff : P () := parse_always_event true.

(** *** Instances *)

Section Instance.
Context (env : parse_env).

Definition parse_connection_ref : P connection_ref :=
  t ← peek;
  if is_symbol ")" t || is_symbol "," t || is_symbol "}" t then mret connection_ref_default
  else
    v ← parse_expr env;
    m ← lift get_module;
    mret (connect_value m v).

Abbreviation override_value := (const_value env "parameter override must be a constant integer expression in this subset").

(** One override; a type is skipped. *)
Definition parse_override (ov : overrides) : P overrides :=
  when accept_symbol "." then
    pname ← expect_ident "expected parameter identifier after '.'";
    _ ← expect_symbol "(" "expected '(' after .PARAM";
    ty ← looks_like_type_spec;
    if ty : bool then _ ← skip_parens; mret ov
    else
      value ← override_value;
      _ ← expect_symbol ")" "expected ')' after parameter value";
      mret (mk_overrides (ov_positional ov) (insert_named pname value (ov_named ov)))
  else
    ty ← looks_like_type_spec;
    if ty : bool then _ ← skip_nested [","; ")"]%string; mret ov
    else value ← override_value; mret (mk_overrides (ov_positional ov ++ [value]) (ov_named ov)).

Fixpoint overrides_loop (fuel : nat) (ov : overrides) : P overrides :=
  match fuel with
  | O => out_of_fuel
  | S fuel =>
      ov ← parse_override ov;
      when accept_symbol ")" then mret ov
      else when accept_symbol "," then when accept_symbol ")" then mret ov else overrides_loop fuel ov
      else _ ← err "expected ',' or ')' in parameter override list"; _ ← skip_until ")"; mret ov
  end.

(** [#(...)]; [None]: there is no parenthesis. *)
Definition parse_overrides : P (option overrides) :=
  when accept_symbol "#" then
    when accept_symbol "(" then
      when accept_symbol ")" then mret (Some (mk_overrides [] []))
      else ov ← fueled (fun n => overrides_loop n (mk_overrides [] [])); mret (Some ov)
    else _ ← err "expected '(' after '#'"; mret None
  else mret (Some (mk_overrides [] [])).

Definition parse_connection (cx : connections) : P connections :=
  when accept_symbol "." then
    when accept_symbol "*" then mret (mk_connections true (cx_list cx))
    else
      name ← expect_ident "expected port identifier after '.'";
      _ ← expect_symbol "(" "expected '(' after .port";
      ref ← (when accept_symbol ")" then mret connection_ref_default
             else ref ← parse_connection_ref; _ ← expect_symbol ")" "expected ')' after connection"; mret ref);
      mret (mk_connections (cx_implicit cx) (cx_list cx ++ [mk_instance_connection name ref]))
  else
    ref ← parse_connection_ref;
    mret (mk_connections (cx_implicit cx) (cx_list cx ++ [mk_instance_connection "" ref])).

Fixpoint connections_loop (fuel : nat) (cx : connections) : P connections :=
  match fuel with
  | O => out_of_fuel
  | S fuel =>
      cx ← parse_connection cx;
      when accept_symbol ")" then mret cx
      else when accept_symbol "," then connections_loop fuel cx
      else _ ← err "expected ',' or ')' in instance connection list"; _ ← skip_until ")"; mret cx
  end.

Definition parse_connections : P connections :=
  when accept_symbol ")" then mret (mk_connections false [])
  else fueled (fun n => connections_loop n (mk_connections false [])).

(** An instance after the name of its module. *)
Definition instance_rest (module_name : string) (pos0 : list token) (err0 : nat) : P bool :=
  ov ← parse_overrides;
  match ov : option overrides with
  | None => rollback pos0 err0
  | Some ov =>
      inst_name ← expect_ident "expected instance identifier";
      if bool_decide (inst_name = ""%string) then rollback pos0 err0
      else when accept_symbol "(" then
        cx ← parse_connections;
        _ ← expect_semicolon "expected ';' after instance";
        _ ← lift (add_instance (mk_instance module_name inst_name (cx_implicit cx) (ov_positional ov) (ov_named ov) (cx_list cx)));
        mret true
      else rollback pos0 err0
  end.

Definition try_parse_instance : P bool := from_here (fun pos0 err0 =>
  t0 ← peek;
  if bool_decide (tok_kind t0 = tk_identifier) then _ ← consume; instance_rest (tok_text t0) pos0 err0 else mret false).
End Instance.

(** *** Generate blocks *)

Fixpoint generate_body_loop (fuel : nat) (env : parse_env) (i : Z) (stop : nat) : P () :=
  match fuel with
  | O => out_of_fuel
  | S fuel => looking (fun ts =>
      if bool_decide (length ts <= stop) then mret ()
      else when eof then mret ()
      else
        before ← lift instance_count;
        when try_parse_instance env then _ ← lift (rename_generated before i); generate_body_loop fuel env i stop
        else _ ← fueled (fun n => skip_item_in_block n stop); generate_body_loop fuel env i stop)
  end.

(** The body is parsed anew for every value of the variable; [stop] tokens are
    left at its end. *)
Fixpoint generate_rounds (guard : nat) (h : generate_header) (body : list token) (stop : nat) (i : Z) : P () :=
  match guard with
  | O => mret ()
  | S guard =>
      if generate_cond h i then
        _ ← on_tokens body (fueled (fun n => generate_body_loop n (mk_env {[ gh_var h := i ]} ∅) i stop));
        match generate_next h i with Some i => generate_rounds guard h body stop i | None => mret () end
      else mret ()
  end.

(** A bound of the header. *)
Definition generate_value (msg : string) : P Z := const_value no_env msg.

Definition parse_generate_header : P generate_header :=
  _ ← expect_symbol "(" "expected '(' after for";
  var ← expect_ident "expected genvar identifier in for-generate";
  _ ← expect_symbol "=" "expected '=' in for-generate init";
  init ← generate_value "for-generate init must be constant";
  _ ← expect_symbol ";" "expected ';' after for-generate init";
  _ ← expect_ident "expected loop variable in for-generate condition";
  '(le, lt) ← (when accept_symbol "<=" then mret (true, false)
               else when accept_symbol "<" then mret (false, true)
               else _ ← err "expected '<' or '<=' in for-generate condition"; mret (false, false));
  lim ← generate_value "for-generate bound must be constant";
  _ ← expect_symbol ";" "expected ';' after for-generate condition";
  _ ← expect_ident "expected loop variable in for-generate step";
  _ ← expect_symbol "=" "expected '=' in for-generate step";
  _ ← expect_ident "expected loop variable in for-generate step expression";
  plus ← (when accept_symbol "+" then mret true
          else when accept_symbol "-" then mret false
          else _ ← err "expected '+' or '-' in for-generate step"; mret true);
  step_v ← parse_expr no_env;
  step ← lift (try_eval_const_uint64 step_v);
  step ← (match (s ← step; if bool_decide (s = 0)%Z then None else Some s) : option Z with
          | Some s => mret s
          | None => _ ← err "for-generate step must be a positive constant"; mret 1%Z
          end);
  _ ← expect_symbol ")" "expected ')' after for-generate header";
  mret (mk_generate var init le lt lim plus step).

(** [p.pos = end_pos] *)
Definition jump (toks : list token) : P () := fun _ s => Ok ((), toks, s).

(** A for-generate after its keyword; [false] ends the generate block. *)
Definition generate_for : P bool :=
  h ← parse_generate_header;
  when accept_kw "begin" then
    _ ← optional_label "expected generate block label";
    looking (fun body =>
      match matching_end 1 body with
      | None => _ ← err "unterminated generate begin/end block"; mret false
      | Some end_pos =>
          _ ← generate_rounds generate_limit h body (length end_pos) (gh_init h);
          _ ← jump end_pos;
          _ ← accept_kw "end";
          _ ← optional_label "expected generate block label after end";
          mret true
      end)
  else _ ← err "expected 'begin' after for-generate header"; mret true.

Fixpoint generate_loop (fuel : nat) : P () :=
  match fuel with
  | O => out_of_fuel
  | S fuel =>
      when eof then mret ()
      else when accept_kw "endgenerate" then mret ()
      else when accept_kw "for" then when generate_for then generate_loop fuel else mret ()
      else _ ← consume; generate_loop fuel
  end.

Definition parse_generate_block : P () := fueled generate_loop.
End Parser.
