(* ===== verification/VItemsOk.v ===== *)
(** * Verilog: the items of a module are parsed to an end

    [safe] and [takes] of VParseOk and VStmtOk for the declarations of VDecl and
    the items of VItems: none of their loops runs out of fuel, and none moves
    past the end token. *)

From S2P Require Import Prelude Logic4 VModule VEval VExec VLower VBits VLiteral VLex VSignals VParse VParseOk VStmt VStmtOk VStmtBuild VDecl VItems.
From Stdlib Require Import ZArith Lia Ascii.

(** ** Steps at the next token *)

Lemma safe_undefined {A} n : safe n (undefined (A := A)).
Proof. by intros ts s Hv Hr. Qed.

Lemma is_word_eof words t : is_word words t = true -> is_eof t = false.
Proof. unfold is_word. rewrite andb_true_iff, bool_decide_eq_true. intros [H _]. by apply is_ident_eof. Qed.

(** What follows a word has a token less. *)
Lemma safe_accept_word {A} n words (f : option string -> P A) :
  (forall w n', n = S n' -> safe n' (f (Some w))) -> safe n (f None) -> safe n (accept_word words ≫= f).
Proof.
  intros Hs Hn ts s Hv Hr. destruct (valid_nonempty ts Hv) as (t & ts' & ->).
  unfold accept_word, mbind, P_bind. cbn [peek]. destruct (is_word words t) eqn:Hw; [|by apply Hn].
  pose proof (is_word_eof _ _ Hw) as Ht. unfold consume. rewrite Ht. cbn.
  pose proof (remaining_cons t ts' Hv Ht) as Hrem. destruct n as [|n']; [lia|].
  eapply inside_trans; [apply (Hs _ n'); [done|by eapply valid_cons|lia]|by apply suffix_cons_r|lia].
Qed.

(** Two steps of a loop that looks at a token before it takes it. *)
Lemma safe_more_peek {A} n (f : token -> P A) : (forall t, safe_more n (f t)) -> safe_more n (peek ≫= f).
Proof.
  intros Hf ts s Hv Hr Hm. destruct (valid_nonempty ts Hv) as (t & ts' & ->). unfold mbind, P_bind. cbn [peek]. by apply Hf.
Qed.

Lemma safe_skip_until_semicolon n : safe n skip_until_semicolon.
Proof. apply safe_skip_until. Qed.

#[export] Hint Resolve safe_undefined safe_more_safe safe_skip_until_semicolon : parse.

(** A step that takes a token where its result satisfies [p], also at the end. *)
Definition test_if {A} (p : A -> bool) (n : nat) (c : P A) : Prop :=
  forall ts s, valid ts -> remaining ts <= n ->
  inside (c ts s) ts /\ match c ts s with Ok (a, ts', _) => p a = true -> remaining ts' < remaining ts | _ => True end.

Abbreviation test := (test_if id).

Lemma safe_test {A} (p : A -> bool) n c : test_if p n c -> safe n c.
Proof. intros Hc ts s Hv Hr. by apply Hc. Qed.

Lemma safe_test_bind {A B} (p : A -> bool) n (c : P A) (f : A -> P B) :
  test_if p n c -> (forall a n', p a = true -> n' < n -> safe n' (f a)) -> (forall a, p a = false -> safe n (f a)) -> safe n (c ≫= f).
Proof.
  intros Hc Ha Hb ts s Hv Hr. destruct (Hc ts s Hv Hr) as [Hi Hlt]. unfold mbind, P_bind.
  destruct (c ts s) as [[[a ts'] s']| | |]; [|done..]. destruct Hi as (Hv' & Hs' & Hr'). destruct (p a) eqn:Hp.
  - specialize (Hlt eq_refl). eapply inside_trans; [apply (Ha a (remaining ts')); [done|lia|done|done]|done|done].
  - eapply inside_trans; [apply (Hb a Hp); [done|lia]|done|done].
Qed.

Lemma safe_test_branch {A} n c (a b : P A) :
  test n c -> (forall n', n' < n -> safe n' a) -> safe n b -> safe n (branch c a b).
Proof. intros Hc Ha Hb. eapply safe_test_bind; [done|by intros [] n' ? Hn'; [apply Ha|]|by intros [] ?]. Qed.

Lemma test_if_accept {A} (p : A -> bool) n sym (a : P A) x :
  p x = false -> (forall n', n = S n' -> safe n' a) -> test_if p n (branch (accept_symbol sym) a (mret x)).
Proof.
  intros Hp Ha ts s Hv Hr. destruct (valid_nonempty ts Hv) as (t & ts' & ->).
  unfold branch, accept_symbol, mbind, P_bind. cbn [peek]. destruct (is_symbol sym t) eqn:Hs; [|split; [by split_and!|cbn; congruence]].
  pose proof (is_symbol_eof _ _ Hs) as Ht. unfold consume. rewrite Ht. cbn -[remaining inside].
  pose proof (remaining_cons t ts' Hv Ht) as Hrem. destruct n as [|n']; [lia|].
  assert (Hi : inside (a ts' s) ts') by (apply (Ha n'); [done|by eapply valid_cons|lia]).
  split; [eapply inside_trans; [done|by apply suffix_cons_r|lia]|].
  destruct (a ts' s) as [[[x' ts''] s']| | |]; [|done..]. intros _. destruct Hi as (_ & _ & ?). lia.
Qed.

Lemma test_looking n (f : list token -> P bool) :
  (forall ts s, valid ts -> remaining ts <= n ->
   inside (f ts ts s) ts /\ match f ts ts s with Ok (b, ts', _) => b = true -> remaining ts' < remaining ts | _ => True end) ->
  test n (looking f).
Proof. intros Hf ts s Hv Hr. by apply Hf. Qed.

(** The loops that skip tokens: at the end or at a token they stop at, or else
    with a token less. *)
Ltac skip_tokens IH :=
  apply safe_until_eof; [auto with parse|]; try (apply safe_more_peek; intros ?t);
  repeat match goal with
  | |- safe_more _ (if ?b then _ else _) => destruct b
  | |- safe_more _ (mret _) => auto with parse
  | |- safe_more _ (branch (accept_symbol _) _ _) => apply safe_more_branch; [auto with parse..| |]
  | |- safe_more _ (branch (accept_kw _) _ _) => apply safe_more_branch; [auto with parse..| |]
  | |- forall n', _ < _ -> safe n' _ => intros n' Hn'; safe_auto; apply IH; lia
  | |- safe_more _ (consume ≫= _) => apply safe_more_bind; [auto with parse|]; intros ?x ?n' ->; apply IH; lia
  end.

Lemma safe_sign_loop g spec n : n < g -> safe n (sign_loop g spec).
Proof.
  revert spec n. induction g as [|g IH]; intros spec n Hn; [lia|]. cbn [sign_loop]. apply safe_accept_word; [|auto with parse].
  intros w n' ->. apply IH. lia.
Qed.

Lemma safe_consume_signedness n spec : safe n (consume_signedness spec).
Proof. apply safe_fueled. intros m _. apply safe_sign_loop. lia. Qed.

Lemma safe_skip_nested_loop g stops d n : n < g -> safe n (skip_nested_loop g stops d).
Proof. revert d n. induction g as [|g IH]; intros d n Hn; [lia|]. cbn [skip_nested_loop]. skip_tokens IH. Qed.

Lemma safe_skip_nested n stops : safe n (skip_nested stops).
Proof. apply safe_fueled. intros m _. apply safe_skip_nested_loop. lia. Qed.

Lemma safe_skip_kw_loop g kw n : n < g -> safe n (skip_kw_loop g kw).
Proof. revert n. induction g as [|g IH]; intros n Hn; [lia|]. cbn [skip_kw_loop]. skip_tokens IH. Qed.

Lemma safe_skip_through_kw n kw : safe n (skip_through_kw kw).
Proof. apply safe_fueled. intros m _. apply safe_skip_kw_loop. lia. Qed.

Lemma safe_skip_to_kw_loop g kw n : n < g -> safe n (skip_to_kw_loop g kw).
Proof. revert n. induction g as [|g IH]; intros n Hn; [lia|]. cbn [skip_to_kw_loop]. skip_tokens IH. Qed.

Lemma safe_unpacked_loop g n : n < g -> safe n (unpacked_loop g).
Proof.
  revert n. induction g as [|g IH]; intros n Hn; [lia|]. cbn [unpacked_loop]. apply safe_accept; [|auto with parse]. intros n' ->.
  apply safe_bind; [apply safe_fueled; intros m _; apply safe_balanced_loop; lia|]. intros _. apply IH. lia.
Qed.

Lemma safe_skip_unpacked_dims n : safe n skip_unpacked_dims.
Proof. apply safe_fueled. intros m _. apply safe_unpacked_loop. lia. Qed.

#[export] Hint Resolve safe_consume_signedness safe_skip_nested safe_skip_through_kw safe_skip_unpacked_dims : parse.

(** One step of a proof that a step is safe, for the heads of VDecl as well. *)
Ltac safe_item_step :=
  match goal with
  | |- safe _ (accept_word _ ≫= _) => apply safe_accept_word; [intros ? ? ->|]
  | |- safe _ (looking _) => apply safe_looking
  | |- _ => safe_step
  end.

Ltac safe_items := repeat first [solve [auto with parse] | safe_item_step].

(** A loop over its fuel. *)
Ltac loop_tac g n := revert n; induction g as [|g IH]; intros; [lia|].

Section Declarations.
Context (inline_call : string -> function_def -> list expr_value -> P expr_value).
Context (Hinline : forall name fd args n, safe n (inline_call name fd args)).

Lemma safe_value env n : safe n (parse_expr inline_call env).
Proof. by apply safe_expr. Qed.

Lemma safe_range n : safe n (type_range inline_call).
Proof. by apply safe_type_range. Qed.

#[local] Hint Resolve safe_value safe_range : parse.

Lemma safe_const_value n env msg : safe n (const_value inline_call env msg).
Proof. unfold const_value. safe_items. Qed.

#[local] Hint Resolve safe_const_value : parse.

Lemma safe_param_decl n is_local : safe n (param_decl inline_call is_local).
Proof. unfold param_decl. safe_items. Qed.

Lemma test_param_comma n stop : test n (accept_param_comma stop).
Proof.
  apply test_looking. intros [|sep rest] s Hv Hr; [by destruct Hv as (? & ? & _)|]. destruct (is_symbol "," sep) eqn:Hs; [|by split_and!].
  pose proof (is_symbol_eof _ _ Hs) as He. pose proof (remaining_cons sep rest Hv He) as Hrem.
  destruct (stop && _); [by split_and!|]. unfold mbind, P_bind, consume. rewrite He. cbn -[remaining].
  split_and!; [by eapply valid_cons|by apply suffix_cons_r|lia|lia].
Qed.

#[local] Hint Resolve safe_param_decl : parse.

Lemma safe_param_decl_loop g is_local stop n : n < g -> safe n (param_decl_loop inline_call g is_local stop).
Proof.
  revert n. induction g as [|g IH]; intros n Hn; [lia|]. cbn [param_decl_loop]. apply safe_bind; [auto with parse|]. intros _.
  apply safe_test_branch; [apply test_param_comma|intros n' Hn'; apply IH; lia|auto with parse].
Qed.

Lemma safe_parse_param_decl_list n is_local stop : safe n (parse_param_decl_list inline_call is_local stop).
Proof. apply safe_fueled. intros m _. apply safe_param_decl_loop. lia. Qed.

(** *** Functions and tasks *)

Lemma safe_base_type n : safe n base_type.
Proof. unfold base_type. safe_items. Qed.

#[local] Hint Resolve safe_base_type : parse.

Lemma safe_parse_type_and_range n : safe n (parse_type_and_range inline_call).
Proof. unfold parse_type_and_range. safe_items. Qed.

#[local] Hint Resolve safe_parse_type_and_range : parse.

Lemma safe_function_params_loop g params n : n < g -> safe n (function_params_loop inline_call g params).
Proof. revert params n. induction g as [|g IH]; intros params n Hn; [lia|]. cbn [function_params_loop]. safe_items. Qed.

Lemma safe_optional_params {A} (loop : nat -> list A -> P (list A)) n : (forall m l, safe m (loop (S m) l)) -> safe n (optional_params loop).
Proof. intros Hl. unfold optional_params. safe_items. Qed.

Lemma safe_local_names_loop g locals n : n < g -> safe n (local_names_loop g locals).
Proof. revert locals n. induction g as [|g IH]; intros locals n Hn; [lia|]. cbn [local_names_loop]. safe_items. Qed.

Lemma safe_expect_kw n kw msg : safe n (expect_kw kw msg).
Proof. unfold expect_kw. safe_items. Qed.

#[local] Hint Resolve safe_expect_kw : parse.

Lemma safe_with_text {A} n (c : P A) : safe n c -> safe n (with_text c).
Proof. intros Hc. unfold with_text. safe_items. Qed.
(** Inside the tokens from [saved] on and behind their first one. *)
Definition behind {A} (saved : list token) (n : nat) (c : P A) : Prop :=
  forall ts s, valid ts -> remaining ts <= n -> ts `suffix_of` saved -> remaining ts < remaining saved ->
  inside (c ts s) saved /\ match c ts s with Ok (_, ts', _) => remaining ts' < remaining saved | _ => True end.

Lemma behind_safe {A} saved n (c : P A) : safe n c -> behind saved n c.
Proof.
  intros Hc ts s Hv Hr Hs Hlt. pose proof (Hc ts s Hv Hr) as Hi. split; [eapply inside_trans; [done|done|lia]|].
  destruct (c ts s) as [[[b ts'] s']| | |]; [|done..]. destruct Hi as (_ & _ & ?). lia.
Qed.

Lemma behind_bind {A B} saved n (c : P A) (f : A -> P B) : safe n c -> (forall a, behind saved n (f a)) -> behind saved n (c ≫= f).
Proof.
  intros Hc Hf ts s Hv Hr Hs Hlt. unfold mbind, P_bind. pose proof (Hc ts s Hv Hr) as Hi.
  destruct (c ts s) as [[[a ts'] s']| | |]; [|done..]. destruct Hi as (Hv' & Hs' & Hr').
  apply Hf; [done|lia|by etransitivity|lia].
Qed.

Lemma takes_then_behind {A} n (f : list token -> token -> P A) :
  (forall t rest, valid (t :: rest) -> is_eof t = false -> behind (t :: rest) (remaining rest) (f (t :: rest) t)) ->
  takes n (looking (fun saved => consume ≫= f saved)).
Proof.
  intros Hf saved s Hv Hr (t & Ht & He). destruct saved as [|t' rest]; [done|]. injection Ht as ->.
  pose proof (remaining_cons t rest Hv He) as Hrem. pose proof (valid_cons _ _ Hv He) as Hv'.
  assert (E : looking (fun saved => consume ≫= f saved) (t :: rest) s = f (t :: rest) t rest s).
  { unfold looking, mbind, P_bind, consume. by rewrite He. }
  rewrite E. destruct (Hf t rest Hv He rest s) as [Hi Hlt]; [done|done|by apply suffix_cons_r|lia|]. split; [done|].
  destruct (f (t :: rest) t rest s) as [[[a ts'] s']| | |]; auto.
Qed.

Lemma takes_local_decl n locals : takes n (local_decl inline_call locals).
Proof.
  apply takes_then_behind. intros t rest Hv He. pose proof (remaining_cons t rest Hv He) as Hrem.
  do 3 (apply behind_bind; [safe_items|]; intros ?). destruct (is_symbol "'" _).
  - intros ts s' _ _ _ _. unfold mbind, P_bind, go_back, consume. rewrite He. cbn -[remaining].
    split_and!; [by eapply valid_cons|by apply suffix_cons_r|lia|lia].
  - apply behind_bind; [apply safe_fueled; intros m _; apply safe_local_names_loop; lia|]. intros l. apply behind_safe. safe_items.
Qed.

Lemma safe_locals_loop g locals n : n < g -> safe n (locals_loop inline_call g locals).
Proof.
  revert locals n. induction g as [|g IH]; intros locals n Hn; [lia|]. cbn [locals_loop]. apply safe_until_eof; [auto with parse|].
  apply safe_more_peek. intros t. destruct (is_word _ t); [auto with parse|].
  destruct (is_word _ t); apply safe_more_bind; [apply takes_local_decl|intros l n' ->; apply IH; lia|auto with parse|intros _ n' ->; apply IH; lia].
Qed.

Lemma safe_parse_function_def n : safe n (parse_function_def inline_call).
Proof.
  unfold parse_function_def. safe_items.
  - apply safe_optional_params. intros m l. apply safe_function_params_loop. lia.
  - apply safe_with_text, safe_fueled. intros m _. apply safe_locals_loop. lia.
Qed.

Lemma safe_task_direction n cur : safe n (task_direction cur).
Proof. unfold task_direction. safe_items. Qed.

#[local] Hint Resolve safe_task_direction : parse.

Lemma safe_task_params_loop g cur params n : n < g -> safe n (task_params_loop inline_call g cur params).
Proof. revert cur params n. induction g as [|g IH]; intros cur params n Hn; [lia|]. cbn [task_params_loop]. safe_items. Qed.

Lemma safe_parse_task_def n : safe n (parse_task_def inline_call).
Proof.
  unfold parse_task_def. safe_items.
  - apply safe_optional_params. intros m l. apply safe_task_params_loop. lia.
  - apply safe_with_text, safe_fueled. intros m _. apply safe_skip_to_kw_loop. lia.
Qed.

(** *** Ports, nets and variables *)

Lemma safe_port_type n d kinds : safe n (port_type inline_call d kinds).
Proof. unfold port_type. safe_items. Qed.

Lemma safe_port_names_loop g declare n : n < g -> safe n (port_names_loop g declare).
Proof. revert n. induction g as [|g IH]; intros n Hn; [lia|]. cbn [port_names_loop]. safe_items. Qed.

#[local] Hint Resolve safe_port_type : parse.

Lemma safe_parse_decl_list n d : safe n (parse_decl_list inline_call d).
Proof. unfold parse_decl_list. safe_items. apply safe_port_names_loop. lia. Qed.

Lemma test_range n : test_if (fun r => bool_decide (is_Some r)) n (type_range inline_call).
Proof.
  unfold type_range, accept_range. apply test_if_accept; [done|]. intros n' _. unfold range_bound. safe_items.
Qed.

Lemma safe_dims_loop g dims n : n < g -> safe n (dims_loop inline_call g dims).
Proof.
  revert dims n. induction g as [|g IH]; intros dims n Hn; [lia|]. cbn [dims_loop].
  eapply safe_test_bind; [apply test_range|intros [r|] n' Hr Hn'; [apply IH; lia|done]|intros [r|] Hr; [done|auto with parse]].
Qed.

Lemma safe_in_arena {A} n (c : Q A) : safeQ n c -> safe n (in_arena c).
Proof. intros Hc. unfold in_arena. apply safe_bind; [apply Hc|]. intros [a w]. auto with parse. Qed.

Lemma safeQ_inits_loop g what declare inits n :
  n < g -> (forall name n', n' <= n -> safeQ n' (declare name)) -> safeQ n (inits_loop g what declare inits).
Proof.
  revert inits n. induction g as [|g IH]; intros inits n Hn Hd; [lia|]. cbn [inits_loop]. apply safeQ_bind; [safe_auto|]. intros name.
  case_bool_decide; [auto with parse|]. apply safeQ_bind; [by apply Hd|]. intros i. apply safeQ_accept; [|safe_auto].
  intros n' ->. apply IH; [lia|]. intros. apply Hd. lia.
Qed.

Lemma safe_declare_with_inits n what declare :
  (forall name n', safeQ n' (declare name)) -> safe n (declare_with_inits what declare).
Proof.
  intros Hd. unfold declare_with_inits. apply safe_bind; [|intros [[i|] arena]; auto with parse].
  apply safe_in_arena. unfold init_block. safe_items. by apply safeQ_inits_loop; [lia|].
Qed.

Lemma safeQ_variable_initializer n bits rhs : safeQ n (variable_initializer bits rhs).
Proof. unfold variable_initializer. safe_items. Qed.

#[local] Hint Resolve safeQ_variable_initializer : parse.

Lemma safe_parse_wire_list n is_reg : safe n (parse_wire_list inline_call is_reg).
Proof.
  unfold parse_wire_list. safe_items; [apply safe_dims_loop; lia|]. apply safe_declare_with_inits. safe_items.
Qed.

Lemma safe_parse_packed_int_list n msb lsb b : safe n (parse_packed_int_list inline_call msb lsb b).
Proof. unfold parse_packed_int_list. safe_items. apply safe_declare_with_inits. safe_items. Qed.
End Declarations.

(** ** Sensitivity lists *)

Lemma safe_bit_select n : safe n bit_select.
Proof. unfold bit_select. safe_items. Qed.

Lemma safe_event_kind n require_edge sn : safe n (event_kind require_edge sn).
Proof. unfold event_kind. safe_items. Qed.

#[export] Hint Resolve safe_bit_select safe_event_kind : parse.

Lemma safe_parse_one_item n require_edge sn : safe n (parse_one_item require_edge sn).
Proof. unfold parse_one_item. safe_items. Qed.

#[export] Hint Resolve safe_parse_one_item : parse.

Lemma safe_sensitivity_loop g require_edge sn n : n < g -> safe n (sensitivity_loop g require_edge sn).
Proof.
  revert sn n. induction g as [|g IH]; intros sn n Hn; [lia|]. cbn [sensitivity_loop]. apply safe_until_eof; [auto with parse|].
  repeat (apply safe_more_branch; [auto with parse|intros n' ->; safe_items|intros n' Hn'; safe_items|]).
  intros ts s Hv Hr Hm. pose proof (takes_consume n ts (mk_pstate (ps_m s) (ps_errors s ++ ["expected 'or', ',' or ')' in sensitivity list"%string])) Hv Hr Hm) as [Hi Hlt].
  unfold mbind, P_bind, err, lift, report. destruct (consume ts _) as [[[t ts'] s']| | |]; [|done..]. specialize (Hlt eq_refl).
  destruct Hi as (Hv' & Hs' & Hr'). eapply inside_trans; [apply (IH sn (remaining ts')); [lia|done|done]|done|done].
Qed.

(** ** Blocking assignments in a process *)

(** A blocking assignment can be reached from the statement. *)
Inductive has_blocking (arena : list stmt_node) : index -> Prop :=
| hb_here i n : arena !! i = Some n -> is_blocking n = true -> has_blocking arena (Some i)
| hb_inside i n sub : arena !! i = Some n -> sub ∈ searched n -> has_blocking arena sub -> has_blocking arena (Some i).

Lemma searched_children n sub : sub ∈ searched n -> sub ∈ stmt_children n.
Proof.
  unfold searched, stmt_children. rewrite !elem_of_app. destruct (sn_k n); rewrite ?elem_of_app, ?elem_of_nil; tauto.
Qed.

(** More than there are statements in front of it. *)
Definition rank (idx : index) : nat := match idx with Some i => S i | None => 0 end.

Lemma any_of_spec f l :
  (forall sub, sub ∈ l -> is_Some (f sub)) ->
  exists b, any_of f l = Some b /\ (b = true <-> exists sub, sub ∈ l /\ f sub = Some true).
Proof.
  induction l as [|sub l IH]; intros Hf; [exists false; split; [done|]; split; [done|intros (? & ?%elem_of_nil & _); done]|].
  destruct (Hf sub) as [b Hb]; [by left|]. destruct IH as (b' & Hb' & Hiff); [intros; apply Hf; by right|].
  cbn. rewrite Hb. cbn. destruct b; [exists true; split; [done|]; split; [|done]; intros _; exists sub; split; [by left|done]|].
  exists b'. split; [done|]. rewrite Hiff. split; intros (x & Hx & Hfx); [exists x; split; [by right|done]|].
  apply elem_of_cons in Hx as [->|Hx]; [congruence|by exists x].
Qed.

Lemma contains_blocking_spec arena fuel idx :
  stmts_acyclic arena -> rank idx < fuel ->
  exists b, contains_blocking_assign fuel arena idx = Some b /\ (b = true <-> has_blocking arena idx).
Proof.
  intros Hac. revert idx. induction fuel as [|fuel IH]; intros idx Hi; [lia|]. cbn [contains_blocking_assign].
  destruct idx as [i|]; cbn [vget mbind option_bind rank] in *; [|exists false; split; [done|split; [done|by inversion 1]]].
  destruct (arena !! i) as [n|] eqn:Hn; [|exists false; split; [done|split; [done|inversion 1; congruence]]].
  destruct (is_blocking n) eqn:Hb; [exists true; split; [done|split; [intros _; by eapply hb_here|done]]|].
  assert (Hsub : forall sub, sub ∈ searched n -> rank sub < fuel).
  { intros [j|] Hj; [pose proof (Hac i n j Hn (searched_children _ _ Hj))|]; simpl in *; lia. }
  destruct (any_of_spec (contains_blocking_assign fuel arena) (searched n)) as (b & E & Hiff).
  { intros sub Hs. destruct (IH sub (Hsub sub Hs)) as (b & -> & _). done. }
  exists b. split; [done|]. rewrite Hiff. split.
  - intros (sub & Hs & Ht). destruct (IH sub (Hsub sub Hs)) as (b' & E' & Hb'). rewrite E' in Ht. injection Ht as ->.
    eapply hb_inside; [done|done|by apply Hb'].
  - inversion 1 as [? n' E' Hb'|? n' sub E' Hs Hh]; simplify_eq; [congruence|]. exists sub. split; [done|].
    destruct (IH sub (Hsub sub Hs)) as (b' & -> & Hb'). by rewrite (proj2 Hb').
Qed.

Lemma blocking_inside_spec arena root :
  stmts_acyclic arena -> stored (length arena) root -> exists b, blocking_inside arena root = Some b /\ (b = true <-> has_blocking arena root).
Proof. intros Hac (j & -> & Hj). apply contains_blocking_spec; [done|simpl; lia]. Qed.

Section Items.
Context (inline_call : string -> function_def -> list expr_value -> P expr_value).
Context (Hinline : forall name fd args n, safe n (inline_call name fd args)).
Context (proc : stmt_env -> Q index).
Context (Hproc : forall env n, safeQ n (proc env)) (Hbuilds : forall env k, builds stored k (proc env)).

#[local] Hint Resolve safe_value safe_range safe_const_value : parse.

Lemma safe_parse_assign_stmt n : safe n (parse_assign_stmt inline_call).
Proof. unfold parse_assign_stmt. safe_items. by apply safe_parse_lvalue_ref. Qed.

(** ** Processes *)

(** What is done with a process has its arena, which can be searched and run. *)
Lemma safe_process {A} n (f : index * list stmt_node -> P A) :
  (forall root arena, stmts_acyclic arena -> stored (length arena) root -> safe n (f (root, arena))) -> safe n (process_body proc ≫= f).
Proof.
  intros Hf ts s Hv Hr. unfold process_body. set (w0 := mk_work _ _).
  assert (Hb : match proc (mk_stmt_env true "") w0 ts s with
               | Ok ((a, w'), _, _) => stmts_acyclic (wk_arena w') /\ stored (length (wk_arena w')) a
               | _ => True
               end).
  { pose proof (Hbuilds (mk_stmt_env true "") 0 w0 ts s stmts_acyclic_nil (Nat.le_0_l _)) as Hb.
    destruct (proc _ w0 ts s) as [[[[a w'] ts'] s']| | |]; [|done..]. destruct Hb as (? & ? & ?). done. }
  pose proof (Hproc (mk_stmt_env true "") n w0 ts s Hv Hr) as Hi. unfold mbind, P_bind.
  destruct (proc (mk_stmt_env true "") w0 ts s) as [[[[a w'] ts'] s']| | |]; [|done..]. destruct Hi as (Hv' & Hs' & Hr'), Hb as [Hac Hst].
  cbn. eapply inside_trans; [apply (Hf a (wk_arena w') Hac Hst ts' s'); [done|lia]|done|done].
Qed.

Lemma safe_comb_process n is_star sens : safe n (comb_process proc is_star sens).
Proof. apply safe_process. auto with parse. Qed.

Lemma safe_parse_initial n : safe n (parse_initial proc).
Proof. apply safe_process. auto with parse. Qed.

Lemma safe_check_nonblocking n arena root :
  stmts_acyclic arena -> stored (length arena) root -> safe n (check_nonblocking arena root).
Proof.
  intros Hac Hst. unfold check_nonblocking. destruct (blocking_inside_spec arena root Hac Hst) as ([] & -> & _); auto with parse.
Qed.

Lemma safe_ff_process n require_edge sn : safe n (ff_process proc require_edge sn).
Proof.
  unfold ff_process. apply safe_bind; [safe_items|]. intros _. apply safe_process. intros root arena Hac Hst.
  apply safe_bind; [|auto with parse]. destruct require_edge; [by apply safe_check_nonblocking|auto with parse].
Qed.

#[local] Hint Resolve safe_comb_process safe_ff_process : parse.

Lemma safe_parse_always_event n require_edge : safe n (parse_always_event inline_call proc require_edge).
Proof.
  unfold parse_always_event, sensitivity_list, sensitive_process. safe_items; first [by apply safe_parse_delay_ticks|apply safe_sensitivity_loop; lia].
Qed.

(** ** Instances *)

Lemma safe_looks_like_type_spec n : safe n looks_like_type_spec.
Proof. unfold looks_like_type_spec. safe_items. Qed.

#[local] Hint Resolve safe_looks_like_type_spec : parse.

Lemma safe_parse_override n env ov : safe n (parse_override inline_call env ov).
Proof. unfold parse_override. safe_items. Qed.

#[local] Hint Resolve safe_parse_override : parse.

Lemma safe_overrides_loop g env ov n : n < g -> safe n (overrides_loop inline_call env g ov).
Proof. revert ov n. induction g as [|g IH]; intros ov n Hn; [lia|]. cbn [overrides_loop]. safe_items. Qed.

Lemma safe_parse_overrides n env : safe n (parse_overrides inline_call env).
Proof. unfold parse_overrides. safe_items. apply safe_overrides_loop. lia. Qed.

Lemma safe_parse_connection_ref n env : safe n (parse_connection_ref inline_call env).
Proof. unfold parse_connection_ref. safe_items. Qed.

#[local] Hint Resolve safe_parse_connection_ref : parse.

Lemma safe_parse_connection n env cx : safe n (parse_connection inline_call env cx).
Proof. unfold parse_connection. safe_items. Qed.

#[local] Hint Resolve safe_parse_connection : parse.

Lemma safe_connections_loop g env cx n : n < g -> safe n (connections_loop inline_call env g cx).
Proof. revert cx n. induction g as [|g IH]; intros cx n Hn; [lia|]. cbn [connections_loop]. safe_items. Qed.

Lemma safe_parse_connections n env : safe n (parse_connections inline_call env).
Proof. unfold parse_connections. safe_items. apply safe_connections_loop. lia. Qed.

#[local] Hint Resolve safe_parse_overrides safe_parse_connections : parse.

Lemma test_back_instance_rest saved err0 n env name : valid saved -> test_back saved n (instance_rest inline_call env name saved err0).
Proof.
  intros Hv. assert (Hback : test_back saved n (rollback saved err0)) by (intros l s' _ _ _ _; by split_and!).
  unfold instance_rest. apply test_back_bind; [auto with parse|]. intros [ov|]; [|done].
  apply test_back_bind; [auto with parse|]. intros name'. case_bool_decide; [done|].
  apply test_back_bind; [auto with parse|]. intros []; [|done]. apply test_back_safe. safe_items.
Qed.

(** An instance takes its tokens; what is none is left where it was. *)
Lemma try_parse_instance_eq env t ts s :
  try_parse_instance inline_call env (t :: ts) s
  = if bool_decide (tok_kind t = tk_identifier) then instance_rest inline_call env (tok_text t) (t :: ts) (length (ps_errors s)) ts s
    else Ok (false, t :: ts, s).
Proof.
  unfold try_parse_instance, from_here. unfold mbind at 1, P_bind at 1. cbn [peek]. case_bool_decide as Hk; [|done].
  unfold mbind, P_bind, consume. by rewrite (is_ident_eof t Hk).
Qed.

Lemma test_try_parse_instance n env : test n (try_parse_instance inline_call env).
Proof.
  intros ts s Hv Hr. destruct (valid_nonempty ts Hv) as (t & ts' & ->). rewrite try_parse_instance_eq.
  case_bool_decide as Hk; [|by split_and!]. pose proof (is_ident_eof t Hk) as Ht. pose proof (remaining_cons t ts' Hv Ht) as Hrem.
  apply (test_back_instance_rest (t :: ts') (length (ps_errors s)) (remaining ts')); [done|by eapply valid_cons|lia|by apply suffix_cons_r|lia].
Qed.

(** ** Generate blocks *)

Lemma safe_skip_item_in_block g stop n : n < g -> safe n (skip_item_in_block g stop).
Proof.
  revert n. induction g as [|g IH]; intros n Hn; [lia|]. cbn [skip_item_in_block]. apply safe_looking. intros ts.
  case_bool_decide; [auto with parse|]. skip_tokens IH.
Qed.

(** In front of the end of the block, the skipping takes a token. *)
Lemma skip_item_takes stop ts s : valid ts -> more ts -> stop < length ts ->
  let r := fueled (fun n => skip_item_in_block n stop) ts s in
  inside r ts /\ match r with Ok (_, ts', _) => remaining ts' < remaining ts | _ => True end.
Proof.
  intros Hv Hm Hstop r.
  assert (Ht : takes (remaining ts) (branch eof (mret ()) (branch (accept_symbol ";") (mret ())
                 (_ ← consume; skip_item_in_block (remaining ts) stop)))).
  { apply takes_not_eof. apply takes_branch; [auto with parse..| |].
    - intros n' Hn'. apply safe_bind; [auto with parse|]. intros _. by apply safe_skip_item_in_block.
    - apply takes_bind_l; [auto with parse|]. intros _ n' Hn'. apply safe_skip_item_in_block. lia. }
  assert (E : r = branch eof (mret ()) (branch (accept_symbol ";") (mret ()) (_ ← consume; skip_item_in_block (remaining ts) stop)) ts s).
  { unfold r, fueled. cbn [skip_item_in_block]. unfold looking. by rewrite bool_decide_false by lia. }
  rewrite E. destruct (Ht ts s Hv (le_n _) Hm) as [Hi Hlt]. split; [done|].
  match goal with |- match ?r with _ => _ end => destruct r as [[[a ts'] s']| | |] end; auto.
Qed.

Lemma branch_eof_cons {A} (a b : P A) t ts s : branch eof a b (t :: ts) s = (if is_eof t then a else b) (t :: ts) s.
Proof. unfold branch, eof, mbind, P_bind. cbn. by destruct (is_eof t). Qed.

(** A round of the body: an instance or tokens that are skipped. *)
Lemma safe_generate_body_loop g env i stop n : n < g -> safe n (generate_body_loop inline_call g env i stop).
Proof.
  revert n. induction g as [|g IH]; intros n Hn; [lia|]. cbn [generate_body_loop].
  intros ts s Hv Hr. unfold looking. case_bool_decide as Hstop; [by split_and!|].
  destruct (valid_nonempty ts Hv) as (t & tl & E). rewrite E, branch_eof_cons, <- E.
  destruct (is_eof t) eqn:Ht; [by split_and!|]. assert (Hm : more ts) by (exists t; by rewrite E).
  change (inside (branch (try_parse_instance inline_call env)
    (_ ← lift (rename_generated (length (cm_instances (ps_m s))) i); generate_body_loop inline_call g env i stop)
    (_ ← fueled (fun n => skip_item_in_block n stop); generate_body_loop inline_call g env i stop) ts s) ts).
  unfold branch. unfold mbind at 1, P_bind at 1. destruct (test_try_parse_instance n env ts s Hv Hr) as [Hi Hlt].
  destruct (try_parse_instance inline_call env ts s) as [[[[] ts'] s']| | |]; [| |done..]; destruct Hi as (Hv' & Hs' & Hr').
  - specialize (Hlt eq_refl). eapply inside_trans; [|done|done]. apply (safe_bind (remaining ts')); [auto with parse| |done|done].
    intros _. apply IH. lia.
  - destruct (decide (remaining ts' < remaining ts)) as [Hd|Hd].
    + eapply inside_trans; [|done|done]. apply (safe_bind (remaining ts')); [|intros _; apply IH; lia|done|done].
      apply safe_fueled. intros m _. apply safe_skip_item_in_block. lia.
    + pose proof (suffix_same _ _ Hv' Hs' Hr' Hd) as ->. destruct (skip_item_takes stop ts s' Hv Hm ltac:(lia)) as [Hi Hlt'].
      unfold mbind, P_bind. destruct (fueled _ ts s') as [[[a ts''] s'']| | |]; [|done..]. destruct Hi as (Hv'' & Hs'' & Hr'').
      eapply inside_trans; [apply (IH (remaining ts'')); [lia|done|done]|done|done].
Qed.

Lemma safe_generate_rounds guard h body stop i n : valid body -> safe n (generate_rounds inline_call guard h body stop i).
Proof.
  intros Hb. revert i. induction guard as [|guard IH]; intros i; cbn [generate_rounds]; [auto with parse|].
  destruct (generate_cond h i); [|auto with parse]. apply safe_bind.
  - apply safe_on_tokens; [done|]. apply safe_fueled. intros m _. apply safe_generate_body_loop. lia.
  - intros _. destruct (generate_next h i); [apply IH|auto with parse].
Qed.

Lemma matching_end_suffix depth toks e : matching_end depth toks = Some e -> e `suffix_of` toks /\ exists t rest, e = t :: rest /\ is_word ["end"%string] t = true.
Proof.
  revert depth. induction toks as [|t toks IH]; intros depth; cbn [matching_end]; [done|].
  assert (Hrec : forall depth, matching_end depth toks = Some e -> e `suffix_of` t :: toks /\ exists t rest, e = t :: rest /\ is_word ["end"%string] t = true).
  { intros d Hd. destruct (IH d Hd) as [? ?]. split; [by apply suffix_cons_r|done]. }
  destruct (is_word ["begin"%string] t); [apply Hrec|]. destruct (is_word ["end"%string] t) eqn:He; [|apply Hrec].
  destruct depth as [|[|depth]]; [done| |apply Hrec]. intros [= <-]. split; [done|]. by exists t, toks.
Qed.

Lemma valid_suffix (ts e : list token) : valid ts -> e `suffix_of` ts -> e <> [] -> valid e /\ remaining e <= remaining ts.
Proof.
  intros (x & Hx & He) [k ->] Hne. split.
  - exists x. split; [|done]. rewrite last_app in Hx. destruct e as [|y e]; [done|]. destruct (last (y :: e)) as [z|] eqn:Ez; [|by apply last_None in Ez].
    congruence.
  - unfold remaining. rewrite length_app. lia.
Qed.

Lemma safe_parse_generate_header n : safe n (parse_generate_header inline_call).
Proof. unfold parse_generate_header, generate_value. safe_items. Qed.

#[local] Hint Resolve safe_parse_generate_header : parse.

(** The body is parsed by a parser of its own: the position stays. *)
Lemma generate_rounds_stay guard h body stop i ts s ts' s' :
  generate_rounds inline_call guard h body stop i ts s = Ok ((), ts', s') -> ts' = ts.
Proof.
  revert i s. induction guard as [|guard IH]; intros i s; cbn [generate_rounds]; [by intros [=]|].
  destruct (generate_cond h i); [|by intros [=]]. unfold mbind, P_bind. unfold on_tokens at 1.
  destruct (fueled _ body s) as [[[a ts1] s1]| | |]; [|done..]. destruct (generate_next h i); [apply IH|by intros [=]].
Qed.

Lemma safe_generate_for n : safe n (generate_for inline_call).
Proof.
  unfold generate_for. apply safe_bind; [auto with parse|]. intros h. apply safe_accept_kw; [|safe_items]. intros n' ->.
  apply safe_bind; [auto with parse|]. intros _ ts s Hv Hr. unfold looking. destruct (matching_end 1 ts) as [e|] eqn:He.
  - destruct (matching_end_suffix _ _ _ He) as (Hsuf & t & rest & -> & _). destruct (valid_suffix ts (t :: rest) Hv Hsuf) as [Hve Hre]; [done|].
    unfold mbind at 1, P_bind at 1. pose proof (safe_generate_rounds generate_limit h ts (length (t :: rest)) (gh_init h) n' Hv ts s Hv Hr) as Hi.
    destruct (generate_rounds _ _ _ _ _ _ ts s) as [[[[] ts'] s']| | |] eqn:Hg; [|done..]. apply generate_rounds_stay in Hg as ->.
    change (inside ((_ ← accept_kw "end"; _ ← optional_label "expected generate block label after end"; mret true) (t :: rest) s') ts).
    eapply inside_trans; [|done|done]. revert Hve. generalize (t :: rest). intros e Hve.
    match goal with |- inside (?c e s') e => cut (safe (remaining e) c); [intros Hc; by apply Hc|] end. safe_items.
  - match goal with |- inside (?c ts s) ts => cut (safe n' c); [intros Hc; by apply Hc|] end. safe_items.
Qed.

Lemma safe_generate_loop g n : n < g -> safe n (generate_loop inline_call g).
Proof.
  revert n. induction g as [|g IH]; intros n Hn; [lia|]. cbn [generate_loop]. apply safe_until_eof; [auto with parse|].
  apply safe_more_branch; [auto with parse..|intros n' Hn'|].
  { safe_items; first [apply safe_generate_for|apply IH; lia]. }
  apply safe_more_branch; [auto with parse|intros n' ->|intros n' Hn'|apply safe_more_bind; [auto with parse|intros _ n' ->; apply IH; lia]].
  - apply safe_branch; [apply safe_generate_for|apply IH; lia|auto with parse].
  - safe_items.
Qed.

Lemma safe_parse_generate_block n : safe n (parse_generate_block inline_call).
Proof. apply safe_fueled. intros m _. apply safe_generate_loop. lia. Qed.
End Items.
