(* ===== verification/VCompile.v ===== *)
(** * Verilog: modules and the compiler

    [parse_module] and [compile] of verilog/digital/digital.h: the header of a
    module with its parameters and ports, the items of its body in the order they
    are tried, the expansion of its ports into bits, and the whole front end from
    the source text to the compiled modules.

    An error is its message: the positions of the errors of the parser are not
    kept.  [d] bounds how deep calls of functions and tasks nest (VStmt). *)

From S2P Require Import Prelude Logic4 VModule VElab VLower VBits VLiteral VLex VPre VSignals VParse VStmt VDecl VItems.
From Stdlib Require Import ZArith Lia Ascii.

(** ** Tokens of constructs that are skipped *)

Definition skip_balanced_parens : P () := when accept_symbol "(" then skip_parens else mret ().

(** From a [begin] to its [end]. *)
Fixpoint begin_end_loop (fuel : nat) (depth : nat) : P () :=
  match fuel with
  | O => out_of_fuel
  | S fuel =>
      if bool_decide (depth = 0) then mret ()
      else when eof then mret ()
      else
        word ← accept_word ["begin"; "end"]%string;
        match word : option string with
        | Some w => begin_end_loop fuel (if bool_decide (w = "begin"%string) then S depth else pred depth)
        | None => _ ← consume; begin_end_loop fuel depth
        end
  end.

Definition skip_generate_item : P () :=
  when accept_kw "begin" then
    _ ← optional_label "expected generate block label";
    _ ← fueled (fun n => begin_end_loop n 1);
    optional_label "expected generate block label after end"
  else skip_until_semicolon.

Definition skip_implicit_generate_for : P () := _ ← skip_balanced_parens; skip_generate_item.

Definition skip_implicit_generate_if : P () :=
  _ ← skip_balanced_parens;
  _ ← skip_generate_item;
  when accept_kw "else" then skip_generate_item else mret ().

Fixpoint genvar_loop (fuel : nat) : P () :=
  match fuel with
  | O => out_of_fuel
  | S fuel =>
      _ ← expect_ident "expected genvar identifier";
      when accept_symbol "," then genvar_loop fuel else mret ()
  end.

(** ** The ports of a module *)

Definition with_name (m : compiled_module) (name : string) (ports : list port) : compiled_module :=
  mk_module name ports (cm_port_order m) (cm_port_decls m) (cm_vectors m) (cm_signal_names m)
    (cm_signal_is_reg m) (cm_signal_is_signed m) (cm_signal_is_const m) (cm_signal_is_const_foldable m)
    (cm_signal_const_value m) (cm_signal_index m) (cm_param_order m) (cm_param_default_values m) (cm_param_is_local m)
    (cm_expr_nodes m) (cm_expr_intern m) (cm_assigns m) (cm_always_ffs m) (cm_always_combs m) (cm_initials m)
    (cm_instances m) (cm_functions m) (cm_tasks m) (cm_inline_counter m).

Definition set_name (name : string) : L () := update_module (fun m => Some (with_name m name (cm_ports m))).

Definition set_ports (ports : list port) : L () := update_module (fun m => Some (with_name m (cm_name m) ports)).

(** The direction and type that the next port has unless it names its own. *)
Record port_context := mk_port_context {
  pc_dir : port_dir;
  pc_is_reg : bool;
  pc_is_signed : bool;
  pc_range : option range_desc;
}.

Definition no_port_context : port_context := mk_port_context dir_unknown false false None.

Definition header_port (pc : port_context) (pd : port_decl) : port_decl :=
  let known := negb (bool_decide (pc_dir pc = dir_unknown)) in
  mk_port_decl (if known then pc_dir pc else pd_dir pd)
    (match pc_range pc with Some _ => true | None => pd_has_range pd end)
    (match pc_range pc with Some r => rd_msb r | None => pd_msb pd end)
    (match pc_range pc with Some r => rd_lsb r | None => pd_lsb pd end)
    (pd_is_reg pd || pc_is_reg pc) (if known then pc_is_signed pc else pd_is_signed pd).

(** A port of the header is declared; without a range it gets its signal only
    when the ports are expanded. *)
Definition declare_header_port (pc : port_context) (name : string) : L () :=
  if bool_decide (name = ""%string) then mret ()
  else
    _ ← update_port name (header_port pc);
    match pc_range pc with
    | Some r => _ ← declare_vector_range true name (rd_msb r) (rd_lsb r) (pc_is_reg pc) (pc_is_signed pc); mret ()
    | None => mret ()
    end.

(** [iface.modport] in front of a port: the port has no direction and no type. *)
Definition accept_interface (pc : port_context) : P port_context := looking (fun ts =>
  match ts with
  | t0 :: t1 :: t2 :: _ =>
      if bool_decide (tok_kind t0 = tk_identifier) && is_symbol "." t1 && bool_decide (tok_kind t2 = tk_identifier)
      then _ ← consume; _ ← consume; _ ← consume; mret no_port_context
      else mret pc
  | _ => mret pc
  end).

(** The recovery after a port: up to a separator, which is left. *)
Fixpoint recover_loop (fuel : nat) : P () :=
  match fuel with
  | O => out_of_fuel
  | S fuel =>
      when eof then mret ()
      else t ← peek; if is_symbol "," t || is_symbol ")" t then mret () else _ ← consume; recover_loop fuel
  end.

(** The ports that a declaration is expanded into. *)
Definition expand_port (base : string) : L (list port) :=
  m ← get_module;
  let pd := default port_decl_default (cm_port_decls m !! base) in
  if pd_has_range pd then
    vd ← declare_vector_range false base (pd_msb pd) (pd_lsb pd) (pd_is_reg pd) (pd_is_signed pd);
    w ← unchecked (vector_width (vd_msb vd) (vd_lsb vd));
    lmap (fun pos =>
      sig ← unchecked (vd_bits vd !! pos);
      mret (mk_port (make_bit_name base (vector_index_at (vd_msb vd) (vd_lsb vd) pos)) (pd_dir pd) sig)) (seq 0 w)
  else
    sig ← declare_scalar base (pd_is_reg pd) (pd_is_signed pd);
    mret [mk_port base (pd_dir pd) sig].

Definition finalize_ports : L () :=
  m ← get_module;
  ports ← lmap expand_port (cm_port_order m);
  set_ports (mjoin ports).

Section Parser.
Context (inline_call : string -> function_def -> list expr_value -> P expr_value).
Context (proc : stmt_env -> Q index).

Abbreviation parse_param_decl_list := (parse_param_decl_list inline_call).

(** ** The header *)

Fixpoint param_port_loop (fuel : nat) : P () :=
  match fuel with
  | O => out_of_fuel
  | S fuel =>
      let decls (is_local : bool) :=
        _ ← parse_param_decl_list is_local true;
        when accept_symbol ")" then mret ()
        else when accept_symbol "," then when accept_symbol ")" then mret () else param_port_loop fuel
        else _ ← err "expected ',' or ')' in parameter port list"; skip_until ")" in
      when accept_kw "parameter" then decls false
      else when accept_kw "localparam" then decls true
      else err "expected 'parameter' or 'localparam' in parameter port list"
  end.

Definition parse_param_ports : P () :=
  when accept_symbol "#" then
    when accept_symbol "(" then when accept_symbol ")" then mret () else fueled param_port_loop
    else err "expected '(' after '#'"
  else mret ().

(** The words that name the kind of a port. *)
Definition port_kinds (d : port_dir) : list string :=
  match d with dir_inout => ["wire"; "logic"; "bit"]%string | _ => logic_types end.

Definition port_context_of (d : port_dir) : P port_context :=
  '(is_reg, is_signed, r) ← port_type inline_call d (port_kinds d);
  mret (mk_port_context d is_reg is_signed r).

(** One port of the list: what the next one inherits. *)
Definition parse_port (pc : port_context) : P port_context :=
  pc ← (when accept_kw "input" then port_context_of dir_input
        else when accept_kw "output" then port_context_of dir_output
        else when accept_kw "inout" then port_context_of dir_inout
        else mret pc);
  pc ← accept_interface pc;
  name ← expect_ident "expected port identifier";
  _ ← lift (declare_header_port pc name);
  mret pc.

(** The loop over the ports: it has no other end than a closing parenthesis. *)
Fixpoint ports_loop (fuel : nat) (pc : port_context) : P () :=
  match fuel with
  | O => out_of_fuel
  | S fuel =>
      pc ← parse_port pc;
      when accept_symbol ")" then mret ()
      else when accept_symbol "," then ports_loop fuel pc
      else
        _ ← err "expected ',' or ')' in port list";
        _ ← fueled recover_loop;
        ports_loop fuel pc
  end.

Definition parse_port_list : P () :=
  when accept_symbol ")" then mret () else fueled (fun n => ports_loop n no_port_context).

(** The header after the parameters; [false]: the module ends with it. *)
Definition parse_ports : P bool :=
  when accept_symbol "(" then
    _ ← parse_port_list;
    _ ← expect_semicolon "expected ';' after module header";
    mret true
  else when accept_symbol ";" then mret true
  else
    _ ← err "expected '(' or ';' after module name";
    _ ← skip_until_semicolon;
    mret false.

(** ** The body *)

Definition param_item (is_local : bool) (msg : string) : P () := _ ← parse_param_decl_list is_local false; expect_semicolon msg.

Definition genvar_item : P () := _ ← fueled genvar_loop; expect_semicolon "expected ';' after genvar declaration".

(** The items that start with a word, in the order they are tried. *)
Definition keyword_items : list (string * P ()) :=
  [("parameter", param_item false "expected ';' after parameter declaration");
   ("localparam", param_item true "expected ';' after localparam declaration");
   ("genvar", genvar_item); ("generate", parse_generate_block inline_call);
   ("function", parse_function_def inline_call); ("task", parse_task_def inline_call);
   ("input", parse_decl_list inline_call dir_input); ("output", parse_decl_list inline_call dir_output);
   ("inout", parse_decl_list inline_call dir_inout);
   ("wire", parse_wire_list inline_call false); ("reg", parse_wire_list inline_call true);
   ("logic", parse_wire_list inline_call true); ("bit", parse_wire_list inline_call true);
   ("integer", parse_integer_list inline_call true); ("int", parse_integer_list inline_call true);
   ("byte", parse_packed_int_list inline_call 7 0 true); ("shortint", parse_packed_int_list inline_call 15 0 true);
   ("longint", parse_packed_int_list inline_call 63 0 true);
   ("assign", parse_assign_stmt inline_call); ("always", parse_always inline_call proc);
   ("always_comb", parse_always_comb proc); ("always_ff", parse_always_ff inline_call proc);
   ("always_latch", parse_always_latch proc); ("initial", parse_initial proc);
   ("for", skip_implicit_generate_for); ("if", skip_implicit_generate_if)]%string.

Fixpoint first_item (l : list (string * P ())) (rest : P ()) : P () :=
  match l with [] => rest | (kw, c) :: l => when accept_kw kw then c else first_item l rest end.

(** An item of the body: what is none of them is an instance or skipped. *)
Definition module_item : P () :=
  first_item keyword_items (when try_parse_instance inline_call no_env then mret () else skip_until_semicolon).

Fixpoint body_items_loop (fuel : nat) : P () :=
  match fuel with
  | O => out_of_fuel
  | S fuel =>
      when eof then mret ()
      else when accept_kw "endmodule" then mret ()
      else _ ← module_item; body_items_loop fuel
  end.

Definition module_body : P () := fueled body_items_loop.

(** A module after its keyword. *)
Definition module_steps : P () :=
  name ← expect_ident "expected module name";
  _ ← lift (set_name name);
  _ ← parse_param_ports;
  when parse_ports then _ ← module_body; lift finalize_ports else mret ().
End Parser.

(** ** The compiler *)

(** A module is built from nothing; the errors are those of the source. *)
Definition in_new_module (c : P ()) : P compiled_module := fun ts s =>
  match c ts (mk_pstate compiled_module_default (ps_errors s)) with
  | Ok (_, ts, s') => Ok (ps_m s', ts, mk_pstate (ps_m s) (ps_errors s'))
  | Undefined => Undefined
  | OutOfFuel => OutOfFuel
  | TooDeep => TooDeep
  end.

Definition inline_at (d : nat) : string -> function_def -> list expr_value -> P expr_value :=
  match d with O => fun _ _ _ => too_deep | S d => inline_function (proc_at d) end.

Definition parse_module (d : nat) : P compiled_module := in_new_module (module_steps (inline_at d) (proc_at d)).

Fixpoint modules_loop (fuel : nat) (d : nat) (modules : list compiled_module) : P (list compiled_module) :=
  match fuel with
  | O => out_of_fuel
  | S fuel =>
      when eof then mret modules
      else when accept_kw "module" then m ← parse_module d; modules_loop fuel d (modules ++ [m])
      else _ ← consume; modules_loop fuel d modules
  end.

Record compile_result := mk_result { cr_modules : list compiled_module; cr_errors : list string }.

Definition compile (d : nat) (src : text) (opt : preprocess_options) : res compile_result :=
  let pp := preprocess src opt in
  let lr := lex (pr_output pp) (Some (pr_source_map pp)) in
  let errors := ce_message <$> (pr_errors pp ++ lr_errors lr) in
  match fueled (fun n => modules_loop n d []) (lr_tokens lr) (mk_pstate compiled_module_default errors) with
  | Ok (modules, _, s) => Ok (mk_result modules (ps_errors s))
  | Undefined => Undefined
  | OutOfFuel => OutOfFuel
  | TooDeep => TooDeep
  end.

(** With the options of the second overload. *)
Definition compile_default (d : nat) (src : string) : res compile_result := compile d (String.list_ascii_of_string src) default_options.
