(* ===== verification/VCompileOk.v ===== *)
(** * Verilog: the compiler terminates but for a port list

    Every loop of the compiler takes a token per round, with one exception: the
    loop over the ports of a module header has no exit at the end of the source.
    So the compiler ends unless it
    comes to the port list of a module header that goes on without end
    ([compile_terminates]), which a list without a closing bracket does
    ([open_port_list_diverges]). *)

From S2P Require Import Prelude Logic4 VModule VEval VExec VLower VBits VLiteral VLex VPre VSignals VParse VParseOk VStmt VStmtOk VStmtBuild VDecl VItems VItemsOk VCompile.
From Stdlib Require Import ZArith Lia Ascii.

(** ** Constructs that are skipped *)

Lemma safe_begin_end_loop g depth n : n < g -> safe n (begin_end_loop g depth).
Proof.
  revert depth n. induction g as [|g IH]; intros depth n Hn; [lia|]. cbn [begin_end_loop]. case_bool_decide; [auto with parse|].
  apply safe_until_eof; [auto with parse|]. intros ts s Hv Hr Hm.
  destruct (valid_nonempty ts Hv) as (t & tl & ->). destruct Hm as (t' & [= <-] & He). pose proof (remaining_cons t tl Hv He) as Hrem.
  assert (Hloop : forall depth, inside (begin_end_loop g depth tl s) (t :: tl)).
  { intros d. eapply inside_trans; [apply (IH d (remaining tl)); [lia|by eapply valid_cons|done]|by apply suffix_cons_r|lia]. }
  unfold accept_word, mbind, P_bind, peek, consume. destruct (is_word _ t); cbn -[inside begin_end_loop]; rewrite He; apply Hloop.
Qed.

Lemma safe_skip_balanced_parens n : safe n skip_balanced_parens.
Proof. unfold skip_balanced_parens. safe_items. Qed.

Lemma safe_skip_generate_item n : safe n skip_generate_item.
Proof. unfold skip_generate_item. safe_items. apply safe_begin_end_loop. lia. Qed.

#[export] Hint Resolve safe_skip_balanced_parens safe_skip_generate_item : parse.

Lemma safe_skip_implicit_generate_for n : safe n skip_implicit_generate_for.
Proof. unfold skip_implicit_generate_for. safe_items. Qed.

Lemma safe_skip_implicit_generate_if n : safe n skip_implicit_generate_if.
Proof. unfold skip_implicit_generate_if. safe_items. Qed.

Lemma safe_genvar_loop g n : n < g -> safe n (genvar_loop g).
Proof. revert n. induction g as [|g IH]; intros n Hn; [lia|]. cbn [genvar_loop]. safe_items. Qed.

Lemma safe_accept_interface n pc : safe n (accept_interface pc).
Proof. unfold accept_interface. safe_items. Qed.

Lemma safe_recover_loop g n : n < g -> safe n (recover_loop g).
Proof. revert n. induction g as [|g IH]; intros n Hn; [lia|]. cbn [recover_loop]. skip_tokens IH. Qed.

#[export] Hint Resolve safe_skip_implicit_generate_for safe_skip_implicit_generate_if safe_accept_interface : parse.

Section Modules.
Context (inline_call : string -> function_def -> list expr_value -> P expr_value).
Context (Hinline : forall name fd args n, safe n (inline_call name fd args)).
Context (proc : stmt_env -> Q index).
Context (Hproc : forall env n, safeQ n (proc env)) (Hbuilds : forall env k, builds stored k (proc env)).

#[local] Hint Resolve safe_parse_param_decl_list : parse.

(** ** The body *)

Lemma safe_param_item n is_local msg : safe n (param_item inline_call is_local msg).
Proof. unfold param_item. safe_items. Qed.

Lemma safe_genvar_item n : safe n genvar_item.
Proof. unfold genvar_item. safe_items. apply safe_genvar_loop. lia. Qed.

#[local] Hint Resolve safe_param_item safe_genvar_item safe_parse_generate_block safe_parse_function_def safe_parse_task_def
  safe_parse_decl_list safe_parse_wire_list safe_parse_packed_int_list safe_parse_assign_stmt safe_parse_always_event
  safe_comb_process safe_parse_initial : parse.

Lemma safe_keyword_items n kw c : (kw, c) ∈ keyword_items inline_call proc -> safe n c.
Proof.
  unfold keyword_items, parse_integer_list, parse_always, parse_always_ff, parse_always_latch, parse_always_comb.
  repeat (intros [[= -> ->]|H]%elem_of_cons; [auto with parse|revert H]). by intros ?%elem_of_nil.
Qed.

Lemma first_item_ok n l rest :
  (forall kw c m, (kw, c) ∈ l -> safe m c) -> (forall m, m <= n -> safe m rest) -> takes n rest ->
  safe n (first_item l rest) /\ takes n (first_item l rest).
Proof.
  intros Hl Hs Ht. cut ((forall m, m <= n -> safe m (first_item l rest)) /\ takes n (first_item l rest)); [intros [H1 H2]; by split; [apply H1|]|].
  induction l as [|[kw c] l IH]; cbn [first_item]; [done|]. destruct IH as [IHs IHt]; [intros kw' c' m H; apply (Hl kw' c' m); by right|].
  assert (Hc : forall m, safe m c) by (intros m; apply (Hl kw c m); by left). split.
  - intros m Hm. apply safe_accept_kw; [auto|by apply IHs].
  - apply takes_branch; [auto with parse|auto|intros n' Hn'; apply IHs; lia|done].
Qed.

(** An item takes a token: what is no item is skipped up to a semicolon. *)
Lemma module_item_ok n : safe n (module_item inline_call proc) /\ takes n (module_item inline_call proc).
Proof.
  assert (Hs : forall m, safe m (branch (try_parse_instance inline_call no_env) (mret ()) skip_until_semicolon)).
  { intros m. apply safe_branch; [by eapply safe_test, test_try_parse_instance|auto with parse..]. }
  apply first_item_ok; [intros kw c m; apply safe_keyword_items|auto|].
  eapply (takes_bind_if id); [intros ts s Hv Hr _; by apply (test_try_parse_instance inline_call Hinline n no_env)|intros [] n' ? _; [auto with parse|done]|].
  intros [] Hb; [done|]. split; [auto with parse|]. apply takes_skip_until.
Qed.

Lemma safe_body_items_loop g n : n < g -> safe n (body_items_loop inline_call proc g).
Proof.
  revert n. induction g as [|g IH]; intros n Hn; [lia|]. cbn [body_items_loop]. apply safe_until_eof; [auto with parse|].
  apply safe_more_branch; [auto with parse..|intros n' Hn'|].
  - apply safe_bind; [apply module_item_ok|]. intros _. apply IH. lia.
  - apply safe_more_bind; [apply module_item_ok|]. intros _ n' ->. apply IH. lia.
Qed.

Lemma safe_module_body n : safe n (module_body inline_call proc).
Proof. apply safe_fueled. intros m _. apply safe_body_items_loop. lia. Qed.

(** ** The header *)

Lemma safe_param_port_loop g n : n < g -> safe n (param_port_loop inline_call g).
Proof. revert n. induction g as [|g IH]; intros n Hn; [lia|]. cbn [param_port_loop]. safe_items. Qed.

Lemma safe_parse_param_ports n : safe n (parse_param_ports inline_call).
Proof. unfold parse_param_ports. safe_items. apply safe_param_port_loop. lia. Qed.

Lemma safe_parse_port n pc : safe n (parse_port inline_call pc).
Proof. unfold parse_port, port_context_of. safe_items; by apply safe_port_type. Qed.

(** ** The loop over the ports *)

Lemma branch_symbol_cons {A} sym (a b : P A) t ts s :
  branch (accept_symbol sym) a b (t :: ts) s = if is_symbol sym t then a ts s else b (t :: ts) s.
Proof.
  unfold branch, accept_symbol, mbind, P_bind. cbn [peek]. destruct (is_symbol sym t) eqn:Hs; [|done].
  unfold consume. by rewrite (is_symbol_eof _ _ Hs).
Qed.

(** At the end of the source a round changes nothing but the errors. *)
Lemma ports_loop_eof f pc t ts s : is_eof t = true -> ports_loop inline_call f pc (t :: ts) s = OutOfFuel.
Proof.
  intros Ht. revert s. induction f as [|f IH]; intros s; [done|]. cbn [ports_loop].
  assert (Hk : bool_decide (tok_kind t = tk_identifier) = false) by (apply bool_decide_eq_false; intros Hk; apply is_ident_eof in Hk; congruence).
  assert (Hs : forall sym, is_symbol sym t = false) by (intros sym; destruct (is_symbol sym t) eqn:E; [apply is_symbol_eof in E; congruence|done]).
  assert (Hp : parse_port inline_call pc (t :: ts) s = Ok (pc, t :: ts, mk_pstate (ps_m s) (ps_errors s ++ ["expected port identifier"%string]))).
  { assert (Hkw : forall kw s, accept_kw kw (t :: ts) s = Ok (false, t :: ts, s)).
    { intros kw s'. unfold accept_kw, mbind, P_bind. cbn [peek]. by rewrite Hk. }
    assert (Hif : forall pc s, accept_interface pc (t :: ts) s = Ok (pc, t :: ts, s)).
    { intros pc' s'. unfold accept_interface, looking. destruct ts as [|t1 [|t2 ts]]; [done..|]. by rewrite Hk. }
    unfold parse_port, branch, mbind, P_bind, mret, P_ret. rewrite !Hkw, Hif. unfold expect_ident, mbind, P_bind. cbn [peek]. by rewrite Hk. }
  unfold mbind at 1, P_bind at 1. rewrite Hp, !branch_symbol_cons, !Hs.
  assert (Hr : forall s, fueled recover_loop (t :: ts) s = Ok ((), t :: ts, s)).
  { intros s'. unfold fueled. cbn [recover_loop]. rewrite branch_eof_cons, Ht. done. }
  unfold mbind, P_bind. cbn [err lift report]. rewrite Hr. apply IH.
Qed.

(** Where the next token is no separator, the recovery takes it. *)
Lemma recover_takes t ts s : valid (t :: ts) -> is_eof t = false -> is_symbol "," t = false -> is_symbol ")" t = false ->
  let r := fueled recover_loop (t :: ts) s in
  inside r (t :: ts) /\ match r with Ok (_, ts', _) => remaining ts' < remaining (t :: ts) | _ => True end.
Proof.
  intros Hv He Hc Hp r. pose proof (remaining_cons t ts Hv He) as Hrem.
  assert (E : r = recover_loop (remaining (t :: ts)) ts s).
  { unfold r, fueled. cbn [recover_loop]. rewrite branch_eof_cons, He. unfold mbind, P_bind. cbn [peek]. rewrite Hc, Hp. cbn [orb].
    unfold consume. by rewrite He. }
  rewrite E. pose proof (safe_recover_loop (remaining (t :: ts)) (remaining ts) ltac:(lia) ts s (valid_cons _ _ Hv He) (le_n _)) as Hi.
  split; [eapply inside_trans; [done|by apply suffix_cons_r|lia]|].
  destruct (recover_loop _ ts s) as [[[a ts'] s']| | |]; [|done..]. destruct Hi as (_ & _ & ?). lia.
Qed.

(** A round in front of the end ends the loop, or it takes a token. *)
Lemma ports_round pc t ts s : valid (t :: ts) -> is_eof t = false ->
  (exists r, inside r (t :: ts) /\ forall f, ports_loop inline_call (S f) pc (t :: ts) s = r)
  \/ exists pc' ts' s', valid ts' /\ ts' `suffix_of` t :: ts /\ remaining ts' < remaining (t :: ts)
       /\ forall f, ports_loop inline_call (S f) pc (t :: ts) s = ports_loop inline_call f pc' ts' s'.
Proof.
  intros Hv He. pose proof (safe_parse_port (remaining (t :: ts)) pc (t :: ts) s Hv (le_n _)) as Hi.
  assert (E : forall f, ports_loop inline_call (S f) pc (t :: ts) s
    = match parse_port inline_call pc (t :: ts) s with
      | Ok (pc1, ts1, s1) => branch (accept_symbol ")") (mret ()) (branch (accept_symbol ",") (ports_loop inline_call f pc1)
          (_ ← err "expected ',' or ')' in port list"; _ ← fueled recover_loop; ports_loop inline_call f pc1)) ts1 s1
      | Undefined => Undefined | OutOfFuel => OutOfFuel | TooDeep => TooDeep
      end) by done.
  destruct (parse_port inline_call pc (t :: ts) s) as [[[pc1 ts1] s1]| | |]; [|left; by exists Undefined|done|left; by exists TooDeep].
  destruct Hi as (Hv1 & Hs1 & Hr1). destruct (valid_nonempty ts1 Hv1) as (t1 & ts1' & ->).
  assert (Hsep : forall sym, is_symbol sym t1 = true -> valid ts1' /\ ts1' `suffix_of` t :: ts /\ remaining ts1' < remaining (t :: ts)).
  { intros sym Hp. pose proof (is_symbol_eof _ _ Hp) as He1. pose proof (remaining_cons t1 ts1' Hv1 He1).
    split_and!; [by eapply valid_cons|etransitivity; [by apply suffix_cons_r|done]|lia]. }
  destruct (is_symbol ")" t1) eqn:Hp.
  { left. destruct (Hsep _ Hp) as (? & ? & ?). exists (Ok ((), ts1', s1)). split; [split_and!; [done|done|lia]|].
    intros f. by rewrite E, branch_symbol_cons, Hp. }
  destruct (is_symbol "," t1) eqn:Hc.
  { right. destruct (Hsep _ Hc) as (? & ? & ?). exists pc1, ts1', s1. split_and!; [done|done|done|].
    intros f. by rewrite E, !branch_symbol_cons, Hp, Hc. }
  set (s2 := mk_pstate (ps_m s1) (ps_errors s1 ++ ["expected ',' or ')' in port list"%string])).
  assert (Hrec : inside (fueled recover_loop (t1 :: ts1') s2) (t1 :: ts1')
    /\ match fueled recover_loop (t1 :: ts1') s2 with Ok (_, ts', _) => remaining ts' < remaining (t :: ts) | _ => True end).
  { destruct (decide (remaining (t1 :: ts1') < remaining (t :: ts))) as [Hd|Hd].
    - assert (Hi : inside (fueled recover_loop (t1 :: ts1') s2) (t1 :: ts1')).
      { apply (safe_fueled (remaining (t1 :: ts1'))); [|done|done]. intros m _. apply safe_recover_loop. lia. }
      split; [done|]. destruct (fueled _ _ s2) as [[[a ts'] s']| | |]; [|done..]. destruct Hi as (_ & _ & ?). lia.
    - pose proof (suffix_same _ _ Hv1 Hs1 Hr1 Hd) as [= -> ->]. by apply recover_takes. }
  assert (E' : forall f, ports_loop inline_call (S f) pc (t :: ts) s = (_ ← fueled recover_loop; ports_loop inline_call f pc1) (t1 :: ts1') s2).
  { intros f. by rewrite E, !branch_symbol_cons, Hp, Hc. }
  clear E. unfold mbind, P_bind in E'.
  destruct Hrec as [Hi Hlt]. destruct (fueled recover_loop (t1 :: ts1') s2) as [[[a ts'] s']| | |]; [|left; by exists Undefined|done|left; by exists TooDeep].
  destruct Hi as (Hv' & Hs' & Hr'). right. exists pc1, ts', s'. split_and!; [done|by etransitivity|done|done].
Qed.

(** The loop ends within as many rounds as there are tokens or never. *)
Lemma ports_loop_spec pc ts s : valid ts ->
  (exists r, inside r ts /\ forall f, remaining ts < f -> ports_loop inline_call f pc ts s = r)
  \/ forall f, ports_loop inline_call f pc ts s = OutOfFuel.
Proof.
  remember (remaining ts) as n eqn:Hn. revert pc ts s Hn. induction (lt_wf n) as [n _ IH]. intros pc ts s -> Hv.
  destruct (valid_nonempty ts Hv) as (t & ts' & ->). destruct (is_eof t) eqn:He; [right; intros f; by apply ports_loop_eof|].
  destruct (ports_round pc t ts' s Hv He) as [(r & Hr & Hf)|(pc' & ts1 & s1 & Hv1 & Hs1 & Hlt & Hf)].
  - left. exists r. split; [done|]. intros [|f] Hlt; [lia|]. apply Hf.
  - destruct (IH (remaining ts1) Hlt pc' ts1 s1 eq_refl Hv1) as [(r & Hr & Hf1)|Hf1].
    + left. exists r. split; [eapply inside_trans; [done|done|lia]|]. intros [|f] Hf'; [lia|]. rewrite Hf. apply Hf1. lia.
    + right. intros [|f]; [done|]. by rewrite Hf.
Qed.

Lemma parse_port_list_spec ts s : valid ts ->
  inside (parse_port_list inline_call ts s) ts
  \/ parse_port_list inline_call ts s = OutOfFuel /\ forall f, ports_loop inline_call f no_port_context ts s = OutOfFuel.
Proof.
  intros Hv. destruct (valid_nonempty ts Hv) as (t & ts' & ->). unfold parse_port_list. rewrite branch_symbol_cons.
  destruct (is_symbol ")" t) eqn:Hs.
  - left. pose proof (is_symbol_eof _ _ Hs) as He. pose proof (remaining_cons t ts' Hv He).
    split_and!; [by eapply valid_cons|by apply suffix_cons_r|lia].
  - unfold fueled. destruct (ports_loop_spec no_port_context (t :: ts') s Hv) as [(r & Hr & Hf)|Hf].
    + left. by rewrite Hf by lia.
    + right. by split.
Qed.

(** ** Headers *)

(** A module up to the list of its ports. *)
Definition module_header : P () :=
  name ← expect_ident "expected module name";
  _ ← lift (set_name name);
  parse_param_ports inline_call.

(** The port list after these tokens is never left, however many rounds its loop is given. *)
Definition endless_ports (ts : list token) (s : pstate) : Prop :=
  exists t rest, ts = t :: rest /\ is_symbol "(" t = true
    /\ forall fuel, ports_loop inline_call fuel no_port_context rest s = OutOfFuel.

Lemma safe_module_header n : safe n module_header.
Proof. unfold module_header. do 2 (apply safe_bind; [auto with parse|intros]). apply safe_parse_param_ports. Qed.

Lemma parse_ports_spec ts s : valid ts -> inside (parse_ports inline_call ts s) ts \/ endless_ports ts s.
Proof.
  intros Hv. destruct (valid_nonempty ts Hv) as (t & ts' & ->). unfold parse_ports. rewrite branch_symbol_cons.
  destruct (is_symbol "(" t) eqn:Hp.
  - pose proof (is_symbol_eof _ _ Hp) as He. pose proof (remaining_cons t ts' Hv He) as Hrem. pose proof (valid_cons _ _ Hv He) as Hv'.
    destruct (parse_port_list_spec ts' s Hv') as [Hi|[_ Hf]]; [left|right; by exists t, ts'].
    eapply inside_trans; [|by apply suffix_cons_r|lia]. unfold mbind at 1, P_bind at 1.
    destruct (parse_port_list inline_call ts' s) as [[[a ts1] s1]| | |]; [|done..]. destruct Hi as (Hv1 & Hs1 & Hr1).
    eapply inside_trans; [|done|done].
    match goal with |- inside (?c ts1 s1) ts1 => cut (safe (remaining ts1) c); [intros Hc; by apply Hc|] end. safe_items.
  - left. match goal with |- inside (?c ?l ?s) _ => cut (safe (remaining l) c); [intros Hc; by apply Hc|] end. safe_items.
Qed.

Lemma module_steps_eq ts s :
  module_steps inline_call proc ts s
  = (module_header ≫= fun _ => when parse_ports inline_call then _ ← module_body inline_call proc; lift finalize_ports else mret ()) ts s.
Proof.
  unfold module_steps, module_header, mbind, P_bind. destruct (expect_ident _ ts s) as [[[name ts1] s1]| | |]; [|done..].
  by destruct (lift (set_name name) ts1 s1) as [[[? ?] ?]| | |].
Qed.

(** A module is parsed in finite time, unless its port list is endless. *)
Lemma module_steps_spec ts s : valid ts ->
  inside (module_steps inline_call proc ts s) ts
  \/ exists ts' s', module_header ts s = Ok ((), ts', s') /\ endless_ports ts' s'.
Proof.
  intros Hv. rewrite module_steps_eq. unfold mbind at 1, P_bind at 1.
  pose proof (safe_module_header (remaining ts) ts s Hv (le_n _)) as Hi.
  destruct (module_header ts s) as [[[[] ts1] s1]| | |]; [|by left..]. destruct Hi as (Hv1 & Hs1 & Hr1).
  destruct (parse_ports_spec ts1 s1 Hv1) as [Hi|Hf]; [left|right; by exists ts1, s1]. eapply inside_trans; [|done|done].
  unfold branch, mbind at 1, P_bind at 1. destruct (parse_ports inline_call ts1 s1) as [[[b ts2] s2]| | |]; [|done..].
  destruct Hi as (Hv2 & Hs2 & Hr2). eapply inside_trans; [|done|done]. destruct b; [|done].
  apply (safe_bind (remaining ts2)); [apply safe_module_body|intros; auto with parse|done|done].
Qed.
End Modules.

(** ** The compiler *)

Lemma branch_kw_cons {A} kw (a b : P A) t ts s :
  branch (accept_kw kw) a b (t :: ts) s
  = if bool_decide (tok_kind t = tk_identifier) && bool_decide (tok_text t = kw) then a ts s else b (t :: ts) s.
Proof.
  unfold branch, accept_kw, mbind, P_bind. cbn [peek]. destruct (bool_decide (tok_kind t = tk_identifier)) eqn:Hk; [|done].
  apply bool_decide_eq_true in Hk. cbn [andb]. case_bool_decide; [|done]. unfold consume. by rewrite (is_ident_eof t Hk).
Qed.

Lemma inline_at_safe d name fd args n : safe n (inline_at d name fd args).
Proof. destruct d as [|d]; [apply safe_too_deep|]. apply safe_inline_function. intros. apply proc_at_ok. Qed.

(** A header of the source whose port list is never left: the keyword, and what its header is read to. *)
Definition endless_header (d : nat) (toks : list token) : Prop :=
  exists t ts errs ts' s', t :: ts `suffix_of` toks /\ tok_kind t = tk_identifier /\ tok_text t = "module"%string
    /\ module_header (inline_at d) ts (mk_pstate compiled_module_default errs) = Ok ((), ts', s')
    /\ endless_ports (inline_at d) ts' s'.

Lemma modules_loop_spec d toks g modules ts s :
  ts `suffix_of` toks -> valid ts -> remaining ts < g -> inside (modules_loop g d modules ts s) ts \/ endless_header d toks.
Proof.
  revert modules ts s. induction g as [|g IH]; intros modules ts s Hs Hv Hg; [lia|]. cbn [modules_loop].
  destruct (valid_nonempty ts Hv) as (t & ts' & ->). rewrite branch_eof_cons. destruct (is_eof t) eqn:He; [left; by split_and!|].
  pose proof (remaining_cons t ts' Hv He) as Hrem. pose proof (valid_cons _ _ Hv He) as Hv'.
  assert (Hs' : ts' `suffix_of` toks) by (etransitivity; [by apply suffix_cons_r|done]).
  assert (Hup : forall r : res (list compiled_module * list token * pstate), inside r ts' -> inside r (t :: ts')).
  { intros r Hr. eapply inside_trans; [done|by apply suffix_cons_r|lia]. }
  rewrite branch_kw_cons. destruct (_ && _) eqn:Hkw.
  - apply andb_true_iff in Hkw as [Hk%bool_decide_eq_true Ht%bool_decide_eq_true].
    unfold mbind at 1, P_bind at 1, parse_module, in_new_module.
    destruct (module_steps_spec (inline_at d) (inline_at_safe d) (proc_at d) (fun env n => proj1 (proc_at_ok d env n)) (builds_proc_at d)
      ts' (mk_pstate compiled_module_default (ps_errors s)) Hv') as [Hi|(ts1 & s1 & Hh & Hf)];
      [|right; by exists t, ts', (ps_errors s), ts1, s1].
    destruct (module_steps _ _ ts' _) as [[[a ts1] s1]| | |]; [|by left..]. destruct Hi as (Hv1 & Hs1 & Hr1).
    destruct (IH (modules ++ [ps_m s1]) ts1 (mk_pstate (ps_m s) (ps_errors s1))) as [Hi|Hf];
      [by etransitivity|done|lia|left; by apply Hup; eapply inside_trans|by right].
  - unfold mbind, P_bind, consume. rewrite He. destruct (IH modules ts' s) as [Hi|Hf]; [done|done|lia|left; by apply Hup|by right].
Qed.

(** The tokens of a source after its preprocessing. *)
Definition source_tokens (src : text) (opt : preprocess_options) : list token :=
  lr_tokens (lex (pr_output (preprocess src opt)) (Some (pr_source_map (preprocess src opt)))).

(** C12. Only one loop of the compiler can go on forever.  For every source and every bound [d] on the nesting of calls,
    either no loop of [compile] runs out of the rounds that the tokens of the source give it - those of the parser of
    declarations, functions, tasks, processes, instances, generate blocks, statements and expressions each take a token
    per round or end - so that [compile] ends: with a result, at an undefined step of the code (such as the division of
    the smallest 64-bit integer by -1), or at calls that nest deeper than [d]; or the source has a module header
    [module name #(...) (] whose port list is never left, however many rounds its loop is given (see
    [open_port_list_diverges] for when that is). *)
Theorem compile_terminates (d : nat) (src : text) (opt : preprocess_options) :
  compile d src opt <> OutOfFuel \/ endless_header d (source_tokens src opt).
Proof.
  unfold compile, fueled. fold (source_tokens src opt). set (s := mk_pstate _ _).
  destruct (modules_loop_spec d (source_tokens src opt) (S (remaining (source_tokens src opt))) [] (source_tokens src opt) s)
    as [Hi|Hf]; [done|apply lex_valid|lia|left|by right].
  by destruct (modules_loop _ _ _ _ s) as [[[a ts'] s']| | |].
Qed.

(** ** Port lists without an end *)

(** C40. A port list that no later parenthesis closes is never left.  If none of the tokens that follow, up to the end of
    the source, is a closing parenthesis, then however many rounds the loop over the ports of a module header is given,
    it does not return: at the end of the source it reports two errors per round and starts over, although a comment at
    its recovery says that a token is always consumed.  The compiler hangs on such a source, for instance on
    [module m(a]. *)
Theorem open_port_list_diverges (d fuel : nat) (pc : port_context) (ts : list token) (s : pstate) :
  valid ts -> Forall (fun t => is_symbol ")" t = false) ts ->
  match ports_loop (inline_at d) fuel pc ts s with Ok _ => False | _ => True end.
Proof.
  revert pc ts s. induction fuel as [|fuel IH]; intros pc ts s Hv Hts; [done|].
  destruct (valid_nonempty ts Hv) as (t & ts' & ->). destruct (is_eof t) eqn:He; [by rewrite ports_loop_eof|].
  cbn [ports_loop]. unfold mbind at 1, P_bind at 1.
  pose proof (safe_parse_port (inline_at d) (inline_at_safe d) (remaining (t :: ts')) pc (t :: ts') s Hv (le_n _)) as Hi.
  destruct (parse_port (inline_at d) pc (t :: ts') s) as [[[pc1 ts1] s1]| | |]; [|done..]. destruct Hi as (Hv1 & Hs1 & _).
  assert (Hsuf : forall l, l `suffix_of` t :: ts' -> Forall (fun t => is_symbol ")" t = false) l).
  { intros l [k E]. rewrite E in Hts. by apply Forall_app in Hts as [_ ?]. }
  pose proof (Hsuf _ Hs1) as Hts1. destruct (valid_nonempty ts1 Hv1) as (t1 & ts1' & ->). apply Forall_cons in Hts1 as [Hp Hts1].
  rewrite !branch_symbol_cons, Hp. destruct (is_symbol "," t1) eqn:Hc.
  { apply IH; [|done]. eapply valid_cons; [done|]. by eapply is_symbol_eof. }
  unfold mbind, P_bind. cbn [err lift report]. set (s2 := mk_pstate _ _).
  assert (Hi : inside (fueled recover_loop (t1 :: ts1') s2) (t1 :: ts1')).
  { apply (safe_fueled (remaining (t1 :: ts1'))); [|done|done]. intros m _. apply safe_recover_loop. lia. }
  destruct (fueled recover_loop (t1 :: ts1') s2) as [[[a ts2] s3]| | |]; [|done..]. destruct Hi as (Hv2 & Hs2 & _).
  apply IH; [done|]. apply Hsuf. by etransitivity.
Qed.

Definition open_source : text := String.list_ascii_of_string "module m(a".

Lemma open_port_list_diverges_witness :
  match ports_loop (inline_at 1) 100 no_port_context (drop 3 (source_tokens open_source default_options))
          (mk_pstate compiled_module_default []) with Ok _ => False | _ => True end
  /\ compile 1 open_source default_options = OutOfFuel.
Proof.
  split; [|vm_compute; reflexivity]. apply (open_port_list_diverges 1 100).
  - exists (mk_token tk_eof "" 2 1). split; vm_compute; reflexivity.
  - vm_compute. repeat constructor.
Defined.
