(* ===== verification/VInv.v ===== *)
(** * Verilog: the parser keeps the processes of a module in order

    The statements of every process of a module under construction refer
    backwards ([module_ok] of VSim): each process is parsed into an arena of its
    own (VStmtBuild), and no other step of the parser touches the processes.
    Here for the steps of the builder, for expressions and for statements; VRun
    goes on with declarations, items and modules.

    [kept] says of a step of the builder, [keptP] and [keptQ] of a step of the
    parser, that it preserves [module_ok]; the tactic [keep] goes through the
    steps of a definition. *)

From S2P Require Import Prelude Logic4 VModule VEval VExec VSim VSettle VElab VLower VBits VLiteral VLex VPre VSignals VParse VStmt VStmtOk VStmtBuild VDecl VItems VItemsOk VCompile VCompileOk.
From Stdlib Require Import ZArith Lia Ascii.

(** ** Steps of the builder *)

Definition processes (m : compiled_module) := (cm_always_ffs m, cm_always_combs m, cm_initials m).

Lemma processes_same m m' : processes m' = processes m -> module_ok m -> module_ok m'.
Proof. intros [= E1 E2 E3] [F C I]. by split; rewrite ?E1, ?E2, ?E3. Qed.

Definition kept {A} (c : L A) : Prop := forall s a s', c s = Some (a, s') -> module_ok (ps_m s) -> module_ok (ps_m s').

Create HintDb keep discriminated.

Lemma kept_bind {A B} (c : L A) (f : A -> L B) : kept c -> (forall a, kept (f a)) -> kept (c ≫= f).
Proof.
  intros Hc Hf s b s' E Hi. unfold mbind, L_bind in E. destruct (c s) as [[a s1]|] eqn:E1; [|done]. by eapply (Hf a), Hc.
Qed.

Lemma kept_ret {A} (a : A) : kept (mret a).
Proof. by intros s a' s' [= <- <-]. Qed.

Lemma kept_get : kept get_module.
Proof. by intros s a s' [= <- <-]. Qed.

Lemma kept_report msg : kept (report msg).
Proof. by intros s a s' [= <- <-]. Qed.

Lemma kept_unchecked {A} (x : option A) : kept (unchecked x).
Proof. intros s a s' E Hi. unfold unchecked in E. destruct x; [|done]. by injection E as -> <-. Qed.

Lemma kept_update f : (forall m m', f m = Some m' -> module_ok m -> module_ok m') -> kept (update_module f).
Proof. intros Hf s a s' E Hi. unfold update_module in E. destruct (f (ps_m s)) as [m'|] eqn:Ef; [|done]. injection E as <- <-. by eapply Hf. Qed.

Lemma kept_lmap {A B} (f : A -> L B) l : (forall x, kept (f x)) -> kept (lmap f l).
Proof. intros Hf. induction l as [|x l IH]; cbn [lmap]; repeat first [apply kept_ret|apply kept_bind; [done|]; intros ?]; done. Qed.

Lemma kept_lfold {A B} (f : B -> A -> L B) b l : (forall b x, kept (f b x)) -> kept (lfold f b l).
Proof. intros Hf. revert b. induction l as [|x l IH]; intros b; cbn [lfold]; [apply kept_ret|]. apply kept_bind; auto. Qed.

Lemma kept_intern_node n : kept (intern_node n).
Proof.
  intros s a s' E Hi. unfold intern_node in E. destruct (cm_expr_intern (ps_m s) !! n); [by injection E as <- <-|].
  case_bool_decide; injection E as <- <-; [done|]. by eapply processes_same; [|done].
Qed.

#[export] Hint Resolve kept_ret kept_get kept_report kept_intern_node kept_unchecked : keep.

Ltac head_of t := match t with ?f _ => head_of f | _ => t end.

(** One step of a proof that a step keeps the processes: by its shape, or by
    unfolding it. *)
Ltac kept_step :=
  lazymatch goal with
  | |- forall _, _ => intro
  | |- kept (lmap _ _) => apply kept_lmap
  | |- kept (lfold _ _ _) => apply kept_lfold
  | |- kept (update_module _) => apply kept_update; let m := fresh "m" in let m' := fresh "m'" in let E := fresh "E" in
      intros m m' E; eapply processes_same; cbn in E; try (by injection E as <-)
  | |- kept (mbind _ _) => apply kept_bind
  | |- kept (match ?x with _ => _ end) => destruct x
  | |- kept ?c => let h := head_of c in unfold h
  end.

Ltac keep_l := repeat first [progress auto with keep | kept_step].

Lemma kept_ripple invert_b l carry : kept (ripple invert_b l carry).
Proof. revert carry. induction l as [|[a b] l IH]; intros carry; cbn [ripple]; keep_l. Qed.

#[export] Hint Resolve kept_ripple : keep.

Lemma kept_resize_to_vector v w sign : kept (resize_to_vector v w sign).
Proof. keep_l. Qed.

Lemma kept_resize v w sign : kept (resize v w sign).
Proof. keep_l. Qed.

Lemma kept_make_vector roots sgn : kept (make_vector roots sgn).
Proof. keep_l. Qed.

Lemma kept_compare_bits k a b : kept (compare_bits k a b).
Proof. keep_l. Qed.

Lemma kept_unknown_either a b : kept (unknown_either a b).
Proof. keep_l. Qed.

Lemma kept_mask_unknown sel out : kept (mask_unknown sel out).
Proof. keep_l. Qed.

#[export] Hint Resolve kept_resize_to_vector kept_resize kept_make_vector kept_compare_bits kept_unknown_either kept_mask_unknown : keep.

Lemma kept_arith_add_sub sub msg a b : kept (arith_add_sub sub msg a b).
Proof. keep_l. Qed.

#[export] Hint Resolve kept_arith_add_sub : keep.

Lemma kept_mul_loop z av signed_op bs k acc : kept (mul_loop z av signed_op bs k acc).
Proof. revert k acc. induction bs as [|b bs IH]; intros k acc; cbn [mul_loop]; keep_l. Qed.

Lemma kept_shift_stages shifted z sels k cur : kept (shift_stages shifted z sels k cur).
Proof. revert k cur. induction sels as [|b sels IH]; intros k cur; cbn [shift_stages]; keep_l. Qed.

Lemma kept_lt_loop l eq_prefix lt : kept (lt_loop l eq_prefix lt).
Proof. revert eq_prefix lt. induction l as [|[a b] l IH]; intros eq_prefix lt; cbn [lt_loop]; keep_l. Qed.

#[export] Hint Resolve kept_mul_loop kept_shift_stages kept_lt_loop : keep.

Lemma kept_try_eval_uint64 v : kept (try_eval_const_uint64 v).
Proof. keep_l. Qed.

Lemma kept_try_eval_int64 v sgn : kept (try_eval_const_int64 v sgn).
Proof. keep_l. Qed.

Lemma kept_arith_mul a b : kept (arith_mul a b).
Proof. keep_l. Qed.

Lemma kept_compare_lt a b : kept (compare_lt a b).
Proof. keep_l. Qed.

#[export] Hint Resolve kept_try_eval_uint64 kept_try_eval_int64 kept_arith_mul kept_compare_lt : keep.

(** *** Symbols *)

Lemma kept_changed {A} (c : L A) :
  (forall s a s', c s = Some (a, s') -> processes (ps_m s') = processes (ps_m s)) -> kept c.
Proof. intros Hc s a s' E. by eapply processes_same, Hc. Qed.

Lemma kept_get_or_create_signal name : kept (get_or_create_signal name).
Proof. apply kept_changed. intros s a s'. unfold get_or_create_signal. case_match; by intros [= <- <-]. Qed.

Lemma kept_make_scoped_local_name visible : kept (make_scoped_local_name visible).
Proof. apply kept_changed. by intros s a s' [= <- <-]. Qed.

Lemma kept_ensure_port_decl base : kept (ensure_port_decl base).
Proof. apply kept_changed. intros s a s'. unfold ensure_port_decl. case_match; by intros [= <- <-]. Qed.

Lemma kept_make_taskcall_name task_name visible : kept (make_taskcall_name task_name visible).
Proof. apply kept_changed. by intros s a s' [= <- <-]. Qed.

Lemma kept_next_call_id : kept next_call_id.
Proof. apply kept_changed. by intros s a s' [= <- <-]. Qed.

Lemma kept_fmap {B} f (x : compiled_module -> option B) g :
  (forall m, f m = g m <$> x m) -> (forall m y, processes (g m y) = processes m) -> kept (update_module f).
Proof.
  intros Hf Hg. apply kept_update. intros m m' E. rewrite Hf in E. apply fmap_Some in E as (y & _ & ->). by apply processes_same, Hg.
Qed.

Lemma kept_set_is_reg sig : kept (set_is_reg sig).
Proof. by eapply kept_fmap. Qed.

Lemma kept_set_is_signed sig : kept (set_is_signed sig).
Proof. by eapply kept_fmap. Qed.

Lemma kept_set_const_signal sig v : kept (set_const_signal sig v).
Proof.
  apply kept_update. intros m m'. destruct sig as [i|]; [|by intros [= <-]]. cbv zeta. case_bool_decide; [by intros [= <-]|].
  intros (is_const & _ & E)%bind_Some. apply bind_Some in E as (value & _ & [= <-]). by apply processes_same.
Qed.

#[export] Hint Resolve kept_get_or_create_signal kept_make_scoped_local_name kept_ensure_port_decl kept_make_taskcall_name
  kept_next_call_id kept_set_is_reg kept_set_is_signed kept_set_const_signal : keep.

Lemma kept_declare_vector_range with_parser base msb lsb is_reg is_signed :
  kept (declare_vector_range with_parser base msb lsb is_reg is_signed).
Proof. keep_l. Qed.

#[export] Hint Resolve kept_declare_vector_range : keep.

Lemma kept_define_param with_parser name value is_local : kept (define_param with_parser name value is_local).
Proof. keep_l. Qed.

#[export] Hint Resolve kept_define_param : keep.

(** ** Steps of the parser *)

Definition keptP {A} (c : P A) : Prop :=
  forall ts s a ts' s', c ts s = Ok (a, ts', s') -> module_ok (ps_m s) -> module_ok (ps_m s').

Definition keptQ {A} (c : Q A) : Prop := forall w, keptP (c w).

Lemma keptP_bind {A B} (c : P A) (f : A -> P B) : keptP c -> (forall a, keptP (f a)) -> keptP (c ≫= f).
Proof.
  intros Hc Hf ts s b ts' s' E Hi. unfold mbind, P_bind in E. destruct (c ts s) as [[[a ts1] s1]| | |] eqn:E1; [|done..].
  by eapply (Hf a), Hc.
Qed.

Lemma keptP_branch {A} c (a b : P A) : keptP c -> keptP a -> keptP b -> keptP (branch c a b).
Proof. intros Hc Ha Hb. apply keptP_bind; [done|]. by intros []. Qed.

Lemma keptP_lift {A} (c : L A) : kept c -> keptP (lift c).
Proof. intros Hc ts s a ts' s' E. unfold lift in E. destruct (c s) as [[a1 s1]|] eqn:E1; [|done]. injection E as <- <- <-. by eapply Hc. Qed.

(** Steps that leave the module alone. *)
Definition idle {A} (c : P A) : Prop := forall ts s a ts' s', c ts s = Ok (a, ts', s') -> ps_m s' = ps_m s.

Lemma keptP_idle {A} (c : P A) : idle c -> keptP c.
Proof. intros Hc ts s a ts' s' E. by rewrite (Hc _ _ _ _ _ E). Qed.

Lemma keptP_ret {A} (a : A) : keptP (mret a).
Proof. apply keptP_idle. by intros ? ? ? ? ? [= <- <- <-]. Qed.

Lemma keptP_out_of_fuel {A} : keptP (@out_of_fuel A).
Proof. done. Qed.

Lemma keptP_undefined {A} : keptP (@undefined A).
Proof. done. Qed.

Lemma keptP_too_deep {A} : keptP (@too_deep A).
Proof. done. Qed.

Lemma keptP_peek : keptP peek.
Proof. apply keptP_idle. by intros [|t ts] s a ts' s' [= <- <- <-]. Qed.

Lemma keptP_consume : keptP consume.
Proof. apply keptP_idle. by intros [|t ts] s a ts' s' [= <- <- <-]. Qed.

Lemma keptP_go_back saved : keptP (go_back saved).
Proof. apply keptP_idle. by intros ts s a ts' s' [= <- <- <-]. Qed.

Lemma keptP_jump saved : keptP (jump saved).
Proof. apply keptP_idle. by intros ts s a ts' s' [= <- <- <-]. Qed.

Lemma keptP_rollback pos0 err0 : keptP (rollback pos0 err0).
Proof. apply keptP_idle. by intros ts s a ts' s' [= <- <- <-]. Qed.

(** A step that depends on the tokens or on the errors. *)
Lemma keptP_at {A} (f : list token -> pstate -> P A) : (forall ts s, keptP (f ts s)) -> keptP (fun ts s => f ts s ts s).
Proof. intros Hf ts s. apply Hf. Qed.

Lemma keptP_looking {A} (f : list token -> P A) : (forall ts, keptP (f ts)) -> keptP (looking f).
Proof. intros Hf. by apply (keptP_at (fun ts _ => f ts)). Qed.

Lemma keptP_from_here {A} (f : list token -> nat -> P A) : (forall ts n, keptP (f ts n)) -> keptP (from_here f).
Proof. intros Hf. by apply (keptP_at (fun ts s => f ts (length (ps_errors s)))). Qed.

Lemma keptP_fueled {A} (f : nat -> P A) : (forall n, keptP (f n)) -> keptP (fueled f).
Proof. intros Hf. by apply (keptP_at (fun ts _ => f (S (remaining ts)))). Qed.

Lemma keptP_on_tokens {A} toks (c : P A) : keptP c -> keptP (on_tokens toks c).
Proof.
  intros Hc ts s a ts' s' E. unfold on_tokens in E. destruct (c toks s) as [[[a1 ts1] s1]| | |] eqn:E1; [|done..].
  injection E as <- <- <-. by eapply Hc.
Qed.

#[export] Hint Resolve keptP_ret keptP_out_of_fuel keptP_undefined keptP_too_deep keptP_peek keptP_consume keptP_go_back keptP_jump
  keptP_rollback : keep.

Lemma keptQ_bind {A B} (c : Q A) (f : A -> Q B) : keptQ c -> (forall a, keptQ (f a)) -> keptQ (c ≫= f).
Proof. intros Hc Hf w. apply keptP_bind; [apply Hc|]. intros [a w']. apply Hf. Qed.

Lemma keptQ_ret {A} (a : A) : keptQ (mret a).
Proof. intros w. apply keptP_ret. Qed.

Lemma keptQ_lp {A} (c : P A) : keptP c -> keptQ (lp c).
Proof. intros Hc w. apply keptP_bind; [done|]. intros a. apply keptP_ret. Qed.

Lemma keptQ_branch {A} c (a b : Q A) : keptP c -> keptQ a -> keptQ b -> keptQ (qbranch c a b).
Proof. intros Hc Ha Hb w. by apply keptP_branch. Qed.

Lemma keptQ_fueled {A} (f : nat -> Q A) : (forall n, keptQ (f n)) -> keptQ (fueled_q f).
Proof. intros Hf w. apply (keptP_at (fun ts _ => f (S (remaining ts)) w)). intros ts _. apply Hf. Qed.

(** A step on arena and scope only. *)
Lemma keptQ_work {A} (f : work -> A * work) : keptQ (fun w => mret (f w)).
Proof. intros w. apply keptP_ret. Qed.

Lemma keptQ_add_stmt n : keptQ (add_stmt n).
Proof. apply keptQ_work. Qed.

Lemma keptQ_modify_scope f : keptQ (modify_scope f).
Proof. apply keptQ_work. Qed.

Lemma keptQ_scope_env : keptQ scope_env.
Proof. apply keptQ_work. Qed.

Lemma keptQ_scope_aliases : keptQ scope_aliases.
Proof. apply keptQ_work. Qed.

Lemma keptQ_has_scope : keptQ has_scope.
Proof. apply keptQ_work. Qed.

#[export] Hint Resolve keptQ_ret keptQ_add_stmt keptQ_modify_scope keptQ_scope_env keptQ_scope_aliases keptQ_has_scope : keep.

Ltac keep_step :=
  lazymatch goal with
  | |- forall _, _ => intro
  | |- kept _ => kept_step
  | |- keptP (mbind _ _) => apply keptP_bind
  | |- keptP (branch _ _ _) => apply keptP_branch
  | |- keptP (lift _) => apply keptP_lift
  | |- keptP (looking _) => apply keptP_looking
  | |- keptP (from_here _) => apply keptP_from_here
  | |- keptP (fueled _) => apply keptP_fueled
  | |- keptP (on_tokens _ _) => apply keptP_on_tokens
  | |- keptP (match ?x with _ => _ end) => destruct x
  | |- keptQ (mbind _ _) => apply keptQ_bind
  | |- keptQ (qbranch _ _ _) => apply keptQ_branch
  | |- keptQ (lp _) => apply keptQ_lp
  | |- keptQ (fueled_q _) => apply keptQ_fueled
  | |- keptQ (match ?x with _ => _ end) => destruct x
  | |- keptP ?c => let h := head_of c in unfold h
  | |- keptQ ?c => let h := head_of c in unfold h
  end.

(** Loops with a body that is an argument; extended below. *)
Ltac keep_body := fail.

(** The invariant through every step of a definition. *)
Ltac keep := repeat first [progress auto with keep | keep_body | keep_step].

(** A step that is given as a function of tokens and state. *)
Ltac keep_at :=
  intros ts s a ts' s';
  match goal with |- ?c _ _ = _ -> _ => let H := fresh in assert (H : keptP c); [|exact (H _ _ _ _ _)] end.

(** The operators of a table. *)
Ltac keep_ops := repeat (apply Forall_cons_2; [cbn -[mbind mret]; keep|]); apply Forall_nil_2.

(** The same for a loop over [g] rounds. *)
Ltac keep_loop g := induction g as [|g IH]; intros; [keep|]; cbn -[branch qbranch]; keep.

Lemma keptP_skip_until sym : keptP (skip_until sym).
Proof.
  apply (keptP_at (fun ts _ => skip_loop (S (remaining ts)) sym)). intros ts _. generalize (S (remaining ts)) as g.
  intros g. keep_loop g.
Qed.

Lemma keptP_accept_symbol sym : keptP (accept_symbol sym).
Proof. keep. Qed.

Lemma keptP_accept_kw kw : keptP (accept_kw kw).
Proof. keep. Qed.

Lemma keptP_eof : keptP eof.
Proof. keep. Qed.

Lemma keptP_expect_ident what : keptP (expect_ident what).
Proof. keep. Qed.

Lemma keptP_expect_symbol sym msg : keptP (expect_symbol sym msg).
Proof. keep. Qed.

#[export] Hint Resolve keptP_skip_until keptP_accept_symbol keptP_accept_kw keptP_eof keptP_expect_ident keptP_expect_symbol : keep.

(** ** Expressions *)

(** What follows the choice of an operator. *)
Lemma keptP_operator {A B} (ops : list (string * A)) (f : option A -> P B) :
  Forall (fun op => keptP (f (Some op.2))) ops -> keptP (f None) -> keptP (accept_first ops ≫= f).
Proof.
  intros Hops Hnone. induction Hops as [|[sym b] ops Hb _ IH]; intros ts s a ts' s' E Hi; cbn [accept_first] in E; [exact (Hnone _ _ _ _ _ E Hi)|].
  unfold branch, mbind, P_bind in E, IH. destruct (accept_symbol sym ts s) as [[[[] ts1] s1]| | |] eqn:E1; [| |done..].
  - eapply Hb; [exact E|]. by eapply keptP_accept_symbol.
  - eapply IH; [exact E|]. by eapply keptP_accept_symbol.
Qed.

Lemma keptP_binary_loop g ops operand lhs :
  Forall (fun op => forall a b, kept (op.2 a b)) ops -> keptP operand -> keptP (binary_loop g ops operand lhs).
Proof.
  intros Hops Hop. revert lhs. induction g as [|g IH]; intros lhs; cbn [binary_loop]; [apply keptP_out_of_fuel|].
  apply keptP_operator; [|apply keptP_ret]. eapply Forall_impl; [exact Hops|]. intros op H. cbn match. keep.
Qed.

Lemma keptP_level ops n next env :
  Forall (fun op => forall a b, kept (op.2 a b)) ops -> (forall env, keptP (next env)) -> keptP (level n ops next env).
Proof. intros Hops Hn. apply keptP_bind; [done|]. intros lhs. by apply keptP_binary_loop. Qed.

Lemma keptP_signed_loop g b : keptP (signed_loop g b).
Proof. revert b. keep_loop g. Qed.

Lemma keptP_accept_scope_resolution : keptP accept_scope_resolution.
Proof.
  assert (Ht : forall b : bool, keptP (if b then (_ ← consume; _ ← consume; mret true) else mret false)) by keep.
  intros [|c0 [|c1 ts]] s a ts' s' E; [by injection E as <- <- <-|by injection E as <- <- <-|].
  unfold accept_scope_resolution in E. eapply (Ht (is_symbol ":" c0 && is_symbol ":" c1)). by case_match; [exact E|].
Qed.

#[export] Hint Resolve keptP_accept_scope_resolution : keep.

Lemma keptP_qualified_loop g q : keptP (qualified_loop g q).
Proof. revert q. keep_loop g. Qed.

#[export] Hint Resolve keptP_signed_loop keptP_qualified_loop : keep.

Section Expressions.
Context (inline_call : string -> function_def -> list expr_value -> P expr_value).
Hypothesis Hinline : forall name fd args, keptP (inline_call name fd args).

Section Levels.
Context (n : nat) (parse_expr : parse_env -> P expr_value).
Hypothesis Hexpr : forall env, keptP (parse_expr env).

Lemma keptP_accept_range : keptP (accept_range parse_expr).
Proof. keep. Qed.

Lemma keptP_parse_cast env kw : keptP (parse_cast n parse_expr env kw).
Proof.
  pose proof keptP_accept_range. unfold parse_cast. keep_at. keep. apply keptP_idle. by intros ? ? ? ? ? [= <- <- <-].
Qed.

Lemma keptP_args_loop g env msg args : keptP (args_loop parse_expr g env msg args).
Proof. revert args. keep_loop g. Qed.

Lemma keptP_items_loop g env bits : keptP (items_loop parse_expr g env bits).
Proof. revert bits. keep_loop g. Qed.

Lemma keptP_more_items g env bits : keptP (more_items parse_expr g env bits).
Proof. revert bits. keep_loop g. Qed.

Lemma keptP_postfix_loop g env base : keptP (postfix_loop parse_expr g env base).
Proof. revert base. keep_loop g. Qed.
Hint Resolve keptP_accept_range keptP_parse_cast keptP_args_loop keptP_items_loop keptP_more_items keptP_postfix_loop : keep.

Lemma keptP_system_function env name f : system_function n parse_expr env name = Some f -> keptP f.
Proof. unfold system_function. repeat case_bool_decide; intros [= <-]; keep. Qed.

Lemma keptP_parse_name env name : keptP (parse_name inline_call n parse_expr env name).
Proof. keep. Qed.

Lemma keptP_parse_concat env : keptP (parse_concat n parse_expr env).
Proof. keep. Qed.

Hint Resolve keptP_parse_name keptP_parse_concat : keep.

Lemma keptP_parse_primary env : keptP (parse_primary inline_call n parse_expr env).
Proof.
  unfold parse_primary, primary_base. apply keptP_bind; [auto with keep|]. intros t0.
  pose proof (keptP_system_function env (tok_text t0)) as Hsys. destruct (system_function _ _ _ _) as [f|]; [specialize (Hsys f eq_refl)|]; keep.
Qed.

Hint Resolve keptP_parse_primary : keep.

Lemma keptP_unary_loop g env : keptP (unary_loop inline_call n parse_expr g env).
Proof.
  assert (Hpow : forall g, keptP (power_loop inline_call n parse_expr g env)) by (intros h; keep_loop h).
  assert (Hops : Forall (fun op => forall a, kept (op.2 a)) unary_ops) by keep_ops.
  induction g as [|g IH]; cbn [unary_loop]; [auto with keep|]. apply keptP_operator; [|apply Hpow].
  eapply Forall_impl; [exact Hops|]. intros op H. cbn match. keep.
Qed.

Lemma keptP_parse_cond env : keptP (parse_cond inline_call n parse_expr env).
Proof.
  assert (keptP (parse_lor inline_call n parse_expr env)); [|keep].
  repeat (apply keptP_level; [keep_ops|intros]). apply keptP_unary_loop.
Qed.
End Levels.

Lemma keptP_parse_fuel g env : keptP (parse_fuel inline_call g env).
Proof. revert env. induction g as [|g IH]; intros env; cbn [parse_fuel]; [auto with keep|]. by apply keptP_parse_cond. Qed.

Lemma keptP_parse_expr env : keptP (parse_expr inline_call env).
Proof. apply (keptP_at (fun ts _ => parse_fuel inline_call (S (remaining ts)) env)). intros. apply keptP_parse_fuel. Qed.
End Expressions.

(** ** Statements *)

Lemma keptP_accept_first {A} (ops : list (string * A)) : keptP (accept_first ops).
Proof. induction ops as [|[sym a] ops IH]; cbn [accept_first]; keep. Qed.

Lemma keptP_balanced_loop g opening closing depth : keptP (balanced_loop g opening closing depth).
Proof. revert depth. keep_loop g. Qed.

Lemma keptP_skip_parens : keptP skip_parens.
Proof. apply keptP_fueled. intros. apply keptP_balanced_loop. Qed.

Lemma keptP_name_then sym : keptP (name_then sym).
Proof. apply keptP_idle. intros [|t0 [|t1 ts]] s a ts' s'; by intros [= <- <- <-]. Qed.

Lemma keptP_next_two sym : keptP (next_two sym).
Proof. apply keptP_idle. intros [|t0 [|t1 ts]] s a ts' s'; by intros [= <- <- <-]. Qed.

Lemma keptQ_qmap {A B} (f : A -> Q (list B)) l : (forall x, keptQ (f x)) -> keptQ (qmap f l).
Proof. intros Hf. induction l as [|x l IH]; cbn [qmap]; keep. Qed.

Lemma keptQ_names_loop g what declare l : (forall name, keptQ (declare name)) -> keptQ (names_loop g what declare l).
Proof. intros Hd. revert l. keep_loop g. Qed.

Ltac keep_body ::=
  lazymatch goal with
  | |- keptQ (qmap _ _) => apply keptQ_qmap
  | |- keptQ (names_loop _ _ _ _) => apply keptQ_names_loop
  end.

Lemma keptP_skip_item_loop g : keptP (skip_item_loop g).
Proof. keep_loop g. Qed.

Lemma keptP_call_name_loop g : keptP (call_name_loop g).
Proof. keep_loop g. Qed.

#[export] Hint Resolve keptP_accept_first keptP_balanced_loop keptP_skip_parens keptP_name_then keptP_next_two
  keptP_skip_item_loop keptP_call_name_loop : keep.

Section Statements.
Context (inline_call : string -> function_def -> list expr_value -> P expr_value).
Hypothesis Hinline : forall name fd args, keptP (inline_call name fd args).

Hint Resolve keptP_parse_expr : keep.

Lemma keptP_type_range : keptP (type_range inline_call).
Proof. apply keptP_accept_range. by apply keptP_parse_expr. Qed.

Hint Resolve keptP_type_range : keep.

Lemma keptP_lvalue_named mark_reg allow_vector aliases env : keptP (lvalue_named inline_call mark_reg allow_vector aliases env).
Proof. keep. Qed.

Hint Resolve keptP_lvalue_named : keep.

Lemma keptP_lvalue_parts_loop part g ok any sigs : keptP part -> keptP (lvalue_parts_loop part g ok any sigs).
Proof. intros Hp. revert ok any sigs. keep_loop g. Qed.

Lemma keptP_lvalue_fuel g mark_reg allow_vector aliases env : keptP (lvalue_fuel inline_call g mark_reg allow_vector aliases env).
Proof.
  revert allow_vector. induction g as [|g IH]; intros allow_vector; cbn [lvalue_fuel]; [keep|].
  apply keptP_branch; [keep| |keep]. apply keptP_bind; [keep|]. intros _. apply keptP_bind; [|keep].
  apply keptP_fueled. intros n. by apply keptP_lvalue_parts_loop.
Qed.

Hint Resolve keptP_lvalue_fuel : keep.

Lemma keptQ_stmt_lvalue : keptQ (stmt_lvalue inline_call).
Proof. keep. Qed.

Lemma keptQ_stmt_expr : keptQ (stmt_expr inline_call).
Proof. keep. Qed.

Hint Resolve keptQ_stmt_lvalue keptQ_stmt_expr : keep.

Lemma keptQ_parse_wire_list_scoped is_reg : keptQ (parse_wire_list_scoped inline_call is_reg).
Proof. keep. Qed.

Lemma keptQ_parse_packed_int_list_scoped msb lsb b : keptQ (parse_packed_int_list_scoped inline_call msb lsb b).
Proof. keep. Qed.

Lemma keptQ_parse_wire_list_stmt is_reg : keptQ (parse_wire_list_stmt inline_call is_reg).
Proof. keep. Qed.

Lemma keptQ_parse_packed_int_list_stmt msb lsb b : keptQ (parse_packed_int_list_stmt inline_call msb lsb b).
Proof. keep. Qed.

Lemma kept_apply_compound op cur arg : kept (apply_compound op cur arg).
Proof. keep. Qed.

Hint Resolve keptQ_parse_wire_list_scoped keptQ_parse_packed_int_list_scoped keptQ_parse_wire_list_stmt
  keptQ_parse_packed_int_list_stmt kept_apply_compound : keep.

Lemma keptQ_parse_for_stmt terminator : keptQ (parse_for_stmt inline_call terminator).
Proof. keep. Qed.

Lemma keptQ_emit_assignment lhs nb delay op rhs : keptQ (emit_assignment lhs nb delay op rhs).
Proof. keep. Qed.

Hint Resolve keptQ_parse_for_stmt keptQ_emit_assignment : keep.

Lemma keptQ_assignment_statement env delay : keptQ (assignment_statement inline_call env delay).
Proof. keep. Qed.

Hint Resolve keptQ_assignment_statement : keep.

Lemma keptQ_matches_loop g l : keptQ (matches_loop inline_call g l).
Proof. revert l. keep_loop g. Qed.

Lemma keptQ_parse_actuals first params : keptQ (parse_actuals inline_call first params).
Proof. revert first. induction params as [|pd params IH]; intros first; cbn [parse_actuals]; keep. Qed.

Lemma keptQ_bind_parameters task_name delay params stmts : keptQ (bind_parameters task_name delay params stmts).
Proof. revert stmts. induction params as [|[pd a] params IH]; intros stmts; cbn [bind_parameters]; keep. Qed.

Lemma keptQ_copy_out params stmts : keptQ (copy_out params stmts).
Proof. revert stmts. induction params as [|[pd a] params IH]; intros stmts; cbn [copy_out]; keep. Qed.

Lemma keptQ_in_call_scope {A} (c : Q A) : keptQ c -> keptQ (in_call_scope c).
Proof. intros Hc w. unfold in_call_scope. apply keptP_bind; [apply Hc|]. intros [a w']. apply keptP_ret. Qed.

Hint Resolve keptQ_matches_loop keptQ_parse_actuals keptQ_bind_parameters keptQ_copy_out : keep.

Context (task_body : stmt_env -> string -> Q (list index)).
Hypothesis Htask : forall env txt, keptQ (task_body env txt).

Lemma keptQ_task_call env delay name td : keptQ (task_call inline_call task_body env delay name td).
Proof. keep. apply keptQ_in_call_scope. keep. Qed.

Hint Resolve keptQ_task_call : keep.

Section Statement.
Context (self : Q index) (env : stmt_env).
Hypothesis Hself : keptQ self.

Lemma keptQ_block_loop g stmts : keptQ (block_loop self g stmts).
Proof. revert stmts. keep_loop g. Qed.

Lemma keptQ_case_loop g w items : keptQ (case_loop inline_call self g w items).
Proof. revert items. keep_loop g. Qed.

Hint Resolve keptQ_block_loop keptQ_case_loop : keep.

Lemma keptQ_keyword_statements delay : Forall (fun kc => keptQ kc.2) (keyword_statements inline_call self env delay).
Proof. unfold keyword_statements. repeat (apply Forall_cons_2; [cbn -[mbind mret]; keep|]). apply Forall_nil_2. Qed.

Lemma keptQ_first_keyword l rest : Forall (fun kc => keptQ kc.2) l -> keptQ rest -> keptQ (first_keyword l rest).
Proof. intros Hl Hr. induction Hl as [|[kw c] l Hc Hl IH]; cbn [first_keyword]; [done|]. by apply keptQ_branch; [apply keptP_accept_kw|..]. Qed.

Lemma keptQ_delayed_statement delay : keptQ (delayed_statement inline_call task_body self env delay).
Proof.
  assert (Hr : keptQ (call_or_assignment inline_call task_body env delay)) by keep.
  pose proof (keptQ_first_keyword _ _ (keptQ_keyword_statements delay) Hr) as Hk. unfold delayed_statement, ignored.
  apply keptQ_bind; [keep|]. intros _. apply keptQ_branch; [keep|keep|]. apply keptQ_branch; [keep|keep|exact Hk].
Qed.

Hint Resolve keptQ_delayed_statement : keep.

Lemma keptQ_statement : keptQ (statement inline_call task_body self env).
Proof. keep. Qed.
End Statement.

Lemma keptQ_parse_proc_stmt env : keptQ (parse_proc_stmt inline_call task_body env).
Proof.
  apply keptQ_fueled. intros n. induction n as [|n IH]; cbn [proc_fuel]; [keep|]. by apply keptQ_statement.
Qed.
End Statements.

(** ** Processes *)

(** A process is parsed by [proc] into an arena of its own. *)
Definition process_of (proc : stmt_env -> Q index) : Prop :=
  forall env, keptQ (proc env) /\ builds stored 0 (proc env).

Lemma kept_add_always_comb ac : stmts_acyclic (ac_stmt_nodes ac) -> kept (add_always_comb ac).
Proof. intros Ha. apply kept_update. intros m m' [= <-] [F C I]. split; [done|set_solver|done]. Qed.

Lemma kept_add_always_ff ff : stmts_acyclic (ff_stmt_nodes ff) -> kept (add_always_ff ff).
Proof. intros Ha. apply kept_update. intros m m' [= <-] [F C I]. split; [set_solver|done|done]. Qed.

Lemma kept_add_initial ib : stmts_acyclic (ib_stmt_nodes ib) -> kept (add_initial ib).
Proof. intros Ha. apply kept_update. intros m m' [= <-] [F C I]. split; [done|done|set_solver]. Qed.

Lemma as_subprogram_acyclic arena root : stmts_acyclic arena -> stmts_acyclic (as_subprogram arena root).
Proof.
  intros Ha. unfold as_subprogram. destruct root as [i|]; [|done]. destruct (arena !! i) as [n|] eqn:En; [|done].
  destruct (sn_k n); try done. intros j n' k Hj Hk. apply list_lookup_insert_Some in Hj as [(<- & <- & _)|(_ & Hj)]; by eapply Ha.
Qed.

(** Steps that return an acyclic arena, and what follows them. *)
Definition gives_arena {A} (c : P (A * work)) : Prop :=
  forall ts s a w ts' s', c ts s = Ok (a, w, ts', s') -> stmts_acyclic (wk_arena w).

Lemma gives_arena_builds {A} (R : nat -> A -> Prop) (c : Q A) sc : builds R 0 c -> gives_arena (c (mk_work [] sc)).
Proof. intros Hb ts s a w ts' s' E. specialize (Hb (mk_work [] sc) ts s stmts_acyclic_nil (le_n 0)). rewrite E in Hb. apply Hb. Qed.

Lemma gives_arena_on_tokens {A} toks (c : P (A * work)) : gives_arena c -> gives_arena (on_tokens toks c).
Proof.
  intros Hc ts s a w ts' s' E. unfold on_tokens in E. destruct (c toks s) as [[[[a1 w1] ts1] s1]| | |] eqn:E1; [|done..].
  injection E as -> -> _ _. by eapply Hc.
Qed.

Lemma keptP_arena {A B} (c : P (A * work)) (f : A * work -> P B) :
  keptP c -> gives_arena c -> (forall a w, stmts_acyclic (wk_arena w) -> keptP (f (a, w))) -> keptP (c ≫= f).
Proof.
  intros Hc Hg Hf ts s b ts' s' E Hi. unfold mbind, P_bind in E. destruct (c ts s) as [[[[a w] ts1] s1]| | |] eqn:E1; [|done..].
  eapply (Hf a w); [by eapply Hg|exact E|by eapply Hc].
Qed.

Lemma keptP_consume_if_stuck before : keptP (consume_if_stuck before).
Proof.
  assert (Hc : keptP (_ ← consume; mret ())) by keep. intros ts s a ts' s'. unfold consume_if_stuck.
  case_bool_decide; [apply Hc|by intros [= <- <- <-]].
Qed.

#[export] Hint Resolve keptP_consume_if_stuck : keep.

Section Bodies.
Context (proc : stmt_env -> Q index).
Hypothesis Hproc : process_of proc.

Lemma keptQ_body_loop g env stmts : keptQ (body_loop proc g env stmts).
Proof.
  assert (Hs : keptQ (body_statement proc env)).
  { intros w. unfold body_statement. keep_at. apply keptQ_bind; [apply Hproc|keep]. }
  revert stmts. keep_loop g.
Qed.

Lemma keptQ_task_body env txt : keptQ (task_body proc env txt).
Proof. intros w. apply keptP_on_tokens. apply keptQ_fueled. intros n. apply keptQ_body_loop. Qed.

Lemma keptP_inline_function name fd args : keptP (inline_function proc name fd args).
Proof.
  unfold inline_function. repeat (apply keptP_bind; [solve [keep]|intros ?]).
  apply keptP_arena; [apply keptP_on_tokens, Hproc|by eapply gives_arena_on_tokens, gives_arena_builds, Hproc|]. intros root w Hw.
  apply keptP_bind; [|keep]. apply keptP_lift, kept_add_always_comb. by apply as_subprogram_acyclic.
Qed.
End Bodies.

Lemma process_of_proc_at d : process_of (proc_at d).
Proof.
  induction d as [|d IH]; intros env; (split; [|apply builds_proc_at]); cbn [proc_at]; apply keptQ_parse_proc_stmt; intros.
  - apply keptP_too_deep.
  - apply keptQ_lp, keptP_too_deep.
  - by apply keptP_inline_function.
  - by apply keptQ_task_body.
Qed.

Lemma keptP_inline_at d name fd args : keptP (inline_at d name fd args).
Proof. destruct d as [|d]; [apply keptP_too_deep|]. apply keptP_inline_function, process_of_proc_at. Qed.
