(* ===== verification/VRun.v ===== *)
(** * Verilog: what the compiler produces can be simulated

    Every module that [compile] returns, whatever the source, has processes whose
    statements refer backwards ([compiled_modules_ok]).  So its designs are
    elaborated to trees of instances on which [simulate] returns at every tick. *)

From S2P Require Import Prelude Logic4 VModule VEval VExec VSim VSettle VElab VLower VBits VLiteral VLex VPre VSignals VParse VStmt VStmtOk VStmtBuild VDecl VItems VItemsOk VCompile VCompileOk VInv.
From Stdlib Require Import ZArith Lia Ascii.

(** ** Declarations *)

Lemma keptP_sign_loop g spec : keptP (sign_loop g spec).
Proof. revert spec. keep_loop g. Qed.

Lemma keptP_skip_nested_loop g stops d : keptP (skip_nested_loop g stops d).
Proof. revert d. keep_loop g. Qed.

Lemma keptP_skip_kw_loop g kw : keptP (skip_kw_loop g kw).
Proof. keep_loop g. Qed.

Lemma keptP_skip_to_kw_loop g kw : keptP (skip_to_kw_loop g kw).
Proof. keep_loop g. Qed.

Lemma keptP_unpacked_loop g : keptP (unpacked_loop g).
Proof. keep_loop g. Qed.

Lemma keptP_local_names_loop g locals : keptP (local_names_loop g locals).
Proof. pose proof keptP_skip_nested_loop. revert locals. keep_loop g. Qed.

Lemma keptP_port_names_loop g declare : (forall name, kept (declare name)) -> keptP (port_names_loop g declare).
Proof. intros Hd. keep_loop g. Qed.

Lemma kept_dims_width w dims : kept (dims_width w dims).
Proof. revert w. induction dims as [|d dims IH]; intros w; cbn [dims_width]; keep. Qed.

#[export] Hint Resolve keptP_sign_loop keptP_skip_nested_loop keptP_skip_kw_loop keptP_skip_to_kw_loop keptP_unpacked_loop
  keptP_local_names_loop kept_dims_width : keep.

Lemma keptQ_inits_loop g what declare inits : (forall name, keptQ (declare name)) -> keptQ (inits_loop g what declare inits).
Proof. intros Hd. revert inits. keep_loop g. Qed.

Lemma builds_inits_loop g what declare k inits :
  below k inits -> (forall name k', builds maybe_stored k' (declare name)) ->
  builds (fun k o => below k (default [] o)) k (inits_loop g what declare inits).
Proof.
  intros Hi Hd. revert k inits Hi. induction g as [|g IH]; intros k inits Hi; cbn [inits_loop]; [auto with build|].
  eapply builds_bind; [auto with build|]. intros name k1 Hk1 _. case_bool_decide; [apply builds_ret; intros; apply below_nil|].
  eapply builds_bind; [apply Hd|]. intros o k2 Hk2 Ho.
  assert (Hl : below k2 (match o with Some i => inits ++ [i] | None => inits end)).
  { destruct o; [apply below_app; [|done]|]; (eapply below_mono; [|done]; lia). }
  apply builds_branch; [by apply IH|]. apply builds_ret. intros k3 Hk3. by eapply below_mono.
Qed.

Lemma builds_init_block what declare : (forall name k', builds maybe_stored k' (declare name)) -> builds anything 0 (init_block what declare).
Proof.
  intros Hd. unfold init_block. eapply builds_bind.
  { apply builds_fueled. intros n. apply builds_inits_loop; [apply below_nil|done]. }
  intros [inits|] k Hk Hl; [|builds_auto]. cbn in Hl. builds_auto.
Qed.

(** What follows a step that is run in an arena of its own. *)
Lemma keptP_run_arena {A B} (R : nat -> A -> Prop) (c : Q A) sc (f : A * list stmt_node -> P B) :
  keptQ c -> builds R 0 c -> (forall a arena, stmts_acyclic arena -> keptP (f (a, arena))) ->
  keptP (('(a, w) ← c (mk_work [] sc); mret (a, wk_arena w)) ≫= f).
Proof.
  intros Hc Hb Hf ts s b ts' s' E Hi. unfold mbind, P_bind in E.
  pose proof (gives_arena_builds R c sc Hb ts s) as Hg. pose proof (Hc (mk_work [] sc) ts s) as Hk.
  destruct (c (mk_work [] sc) ts s) as [[[[a w] ts1] s1]| | |]; [|done..].
  eapply (Hf a (wk_arena w)); [by eapply Hg|exact E|by eapply Hk].
Qed.

Lemma keptP_declare_with_inits what declare :
  (forall name, keptQ (declare name)) -> (forall name k', builds maybe_stored k' (declare name)) -> keptP (declare_with_inits what declare).
Proof.
  intros Hk Hb. eapply keptP_run_arena; [|by apply builds_init_block|].
  - unfold init_block. apply keptQ_bind; [apply keptQ_fueled; intros; by apply keptQ_inits_loop|keep].
  - intros [i|] arena Ha; [|keep]. by apply keptP_lift, kept_add_initial.
Qed.

Section Declarations.
Context (inline_call : string -> function_def -> list expr_value -> P expr_value).
Hypothesis Hinline : forall name fd args, keptP (inline_call name fd args).

Hint Resolve keptP_parse_expr keptP_type_range : keep.

Lemma keptP_const_value env msg : keptP (const_value inline_call env msg).
Proof. keep. Qed.

Hint Resolve keptP_const_value : keep.

Lemma keptP_param_decl_loop g is_local stop : keptP (param_decl_loop inline_call g is_local stop).
Proof. keep_loop g. Qed.

Lemma keptP_parse_type_and_range : keptP (parse_type_and_range inline_call).
Proof. keep. Qed.

Hint Resolve keptP_param_decl_loop keptP_parse_type_and_range : keep.

Lemma keptP_function_params_loop g params : keptP (function_params_loop inline_call g params).
Proof. revert params. keep_loop g. Qed.

Lemma keptP_locals_loop g locals : keptP (locals_loop inline_call g locals).
Proof. revert locals. keep_loop g. Qed.

Lemma keptP_task_params_loop g cur params : keptP (task_params_loop inline_call g cur params).
Proof. revert cur params. keep_loop g. Qed.

Hint Resolve keptP_function_params_loop keptP_locals_loop keptP_task_params_loop : keep.

Lemma keptP_parse_function_def : keptP (parse_function_def inline_call).
Proof. keep. Qed.

Lemma keptP_parse_task_def : keptP (parse_task_def inline_call).
Proof. keep. Qed.

Lemma keptP_port_type d kinds : keptP (port_type inline_call d kinds).
Proof. keep. Qed.

Hint Resolve keptP_port_type : keep.

Lemma keptP_parse_decl_list d : keptP (parse_decl_list inline_call d).
Proof. keep. apply keptP_port_names_loop. keep. Qed.

Lemma keptP_dims_loop g dims : keptP (dims_loop inline_call g dims).
Proof. revert dims. keep_loop g. Qed.

Hint Resolve keptP_dims_loop : keep.

Lemma keptP_parse_wire_list is_reg : keptP (parse_wire_list inline_call is_reg).
Proof.
  unfold parse_wire_list. repeat (apply keptP_bind; [solve [keep]|intros ?]). apply keptP_declare_with_inits; [keep|].
  intros name k. unfold variable_initializer. builds_auto.
Qed.

Lemma keptP_parse_packed_int_list msb lsb b : keptP (parse_packed_int_list inline_call msb lsb b).
Proof. unfold parse_packed_int_list. apply keptP_bind; [keep|]. intros. apply keptP_declare_with_inits; [keep|builds_auto]. Qed.
End Declarations.

(** ** Items *)

Lemma kept_net_assigns lhs rhs : kept (net_assigns lhs rhs).
Proof. keep. Qed.

Lemma keptP_skip_item_in_block g stop : keptP (skip_item_in_block g stop).
Proof. keep_loop g. Qed.

Lemma kept_rename_generated before i : kept (rename_generated before i).
Proof. apply kept_update. intros m m' [= <-]. apply processes_same. by case_bool_decide. Qed.

#[export] Hint Resolve kept_net_assigns keptP_skip_item_in_block kept_rename_generated : keep.

Section Items.
Context (inline_call : string -> function_def -> list expr_value -> P expr_value) (proc : stmt_env -> Q index).
Hypothesis Hinline : forall name fd args, keptP (inline_call name fd args).
Hypothesis Hproc : process_of proc.

Hint Resolve keptP_parse_expr keptP_type_range keptP_const_value keptP_lvalue_fuel : keep.

Lemma keptP_parse_assign_stmt : keptP (parse_assign_stmt inline_call).
Proof. keep. Qed.

Lemma keptP_sensitivity_loop g require_edge sn : keptP (sensitivity_loop g require_edge sn).
Proof. revert sn. keep_loop g. Qed.

Hint Resolve keptP_sensitivity_loop : keep.

Lemma keptP_comb_process is_star sens : keptP (comb_process proc is_star sens).
Proof.
  eapply keptP_run_arena; [apply Hproc|apply Hproc|]. intros root arena Ha. by apply keptP_lift, kept_add_always_comb.
Qed.

Lemma keptP_parse_initial : keptP (parse_initial proc).
Proof. eapply keptP_run_arena; [apply Hproc|apply Hproc|]. intros root arena Ha. by apply keptP_lift, kept_add_initial. Qed.

Lemma keptP_ff_process require_edge sn : keptP (ff_process proc require_edge sn).
Proof.
  unfold ff_process. apply keptP_bind; [keep|]. intros _. eapply keptP_run_arena; [apply Hproc|apply Hproc|]. intros root arena Ha.
  apply keptP_bind; [keep|]. intros _. by apply keptP_lift, kept_add_always_ff.
Qed.

Hint Resolve keptP_comb_process keptP_ff_process : keep.

Lemma keptP_parse_always_event require_edge : keptP (parse_always_event inline_call proc require_edge).
Proof. keep. Qed.

Lemma keptP_overrides_loop g env ov : keptP (overrides_loop inline_call env g ov).
Proof. revert ov. keep_loop g. Qed.

Lemma keptP_connections_loop g env cx : keptP (connections_loop inline_call env g cx).
Proof. revert cx. keep_loop g. Qed.

Hint Resolve keptP_overrides_loop keptP_connections_loop : keep.

Lemma keptP_try_parse_instance env : keptP (try_parse_instance inline_call env).
Proof. keep. Qed.

Hint Resolve keptP_try_parse_instance : keep.

Lemma keptP_generate_body_loop g env i stop : keptP (generate_body_loop inline_call g env i stop).
Proof. keep_loop g. Qed.

Hint Resolve keptP_generate_body_loop : keep.

Lemma keptP_generate_rounds guard h body stop i : keptP (generate_rounds inline_call guard h body stop i).
Proof. revert i. keep_loop guard. Qed.

Hint Resolve keptP_generate_rounds : keep.

Lemma keptP_parse_generate_block : keptP (parse_generate_block inline_call).
Proof. apply keptP_fueled. intros g. keep_loop g. Qed.

(** ** Modules *)

Lemma keptP_ports_loop g pc : keptP (ports_loop inline_call g pc).
Proof.
  assert (Hr : forall g, keptP (recover_loop g)) by (intros h; keep_loop h). pose proof (keptP_port_type inline_call Hinline).
  revert pc. keep_loop g.
Qed.

Lemma keptP_parse_param_ports : keptP (parse_param_ports inline_call).
Proof.
  assert (Hr : forall g, keptP (param_port_loop inline_call g)); [|keep].
  pose proof (keptP_param_decl_loop inline_call Hinline). intros g. keep_loop g.
Qed.

Lemma kept_finalize_ports : kept finalize_ports.
Proof. keep. Qed.

Lemma keptP_keyword_items : Forall (fun kc => keptP kc.2) (keyword_items inline_call proc).
Proof.
  pose proof (keptP_param_decl_loop inline_call Hinline). assert (Hg : forall g, keptP (genvar_loop g)) by (intros g; keep_loop g).
  assert (Hb : forall g depth, keptP (begin_end_loop g depth)) by (intros g; keep_loop g).
  unfold keyword_items. repeat (apply Forall_cons_2; [cbn -[mbind mret]|]); [..|apply Forall_nil_2];
    unfold parse_integer_list, parse_always_latch, parse_always_comb;
    auto using keptP_parse_generate_block, keptP_parse_function_def, keptP_parse_task_def, keptP_parse_decl_list, keptP_parse_wire_list,
      keptP_parse_packed_int_list, keptP_parse_assign_stmt, keptP_parse_always_event, keptP_comb_process, keptP_parse_initial;
    keep.
Qed.
End Items.

Lemma keptP_first_item l rest : Forall (fun kc => keptP kc.2) l -> keptP rest -> keptP (first_item l rest).
Proof. intros Hl Hr. induction Hl as [|[kw c] l Hc Hl IH]; cbn [first_item]; [done|]. by apply keptP_branch; [apply keptP_accept_kw|..]. Qed.

Lemma keptP_module_steps inline_call proc :
  (forall name fd args, keptP (inline_call name fd args)) -> process_of proc -> keptP (module_steps inline_call proc).
Proof.
  intros Hi Hp. assert (Hitem : keptP (module_item inline_call proc)).
  { apply keptP_first_item; [by apply keptP_keyword_items|]. pose proof (keptP_try_parse_instance inline_call Hi). keep. }
  assert (Hbody : keptP (module_body inline_call proc)).
  { apply keptP_fueled. intros g. induction g as [|g IH]; cbn [body_items_loop]; keep. }
  assert (Hports : keptP (parse_ports inline_call)).
  { pose proof (keptP_ports_loop inline_call Hi). keep. }
  unfold module_steps. repeat (apply keptP_bind; [first [by apply keptP_parse_param_ports|solve [keep]]|intros ?]).
  case_match; [|keep]. apply keptP_bind; [done|]. intros _. apply keptP_lift, kept_finalize_ports.
Qed.

(** ** The compiler *)

Lemma module_ok_default : module_ok compiled_module_default.
Proof. split; cbn; intros x Hx; by apply elem_of_nil in Hx. Qed.

Lemma parse_module_ok d ts s m ts' s' : parse_module d ts s = Ok (m, ts', s') -> module_ok m.
Proof.
  unfold parse_module, in_new_module. destruct (module_steps _ _ _ _) as [[[[] ts1] s1]| | |] eqn:E; [|done..]. intros [= <- <- <-].
  eapply keptP_module_steps; [intros; apply keptP_inline_at|apply process_of_proc_at|exact E|apply module_ok_default].
Qed.

Lemma modules_loop_ok g d modules ts s l ts' s' :
  Forall module_ok modules -> modules_loop g d modules ts s = Ok (l, ts', s') -> Forall module_ok l.
Proof.
  revert modules ts s. induction g as [|g IH]; intros modules ts s Hm; cbn [modules_loop]; [done|].
  unfold branch, mbind, P_bind. destruct (eof ts s) as [[[[] ts1] s1]| | |]; [by intros [= <- <- <-]| |done..].
  destruct (accept_kw "module" ts1 s1) as [[[[] ts2] s2]| | |]; [| |done..].
  - destruct (parse_module d ts2 s2) as [[[m ts3] s3]| | |] eqn:E; [|done..]. apply IH. apply Forall_app. split; [done|].
    constructor; [by eapply parse_module_ok|done].
  - destruct (consume ts2 s2) as [[[t ts3] s3]| | |]; [|done..]. by apply IH.
Qed.

Lemma compiled_modules_ok d src opt r : compile d src opt = Ok r -> Forall module_ok (cr_modules r).
Proof.
  unfold compile, fueled. destruct (modules_loop _ _ _ _ _) as [[[l ts'] s']| | |] eqn:E; [|done..]. intros [= <-].
  by eapply modules_loop_ok in E.
Qed.

(** ** Elaboration and simulation *)

(** The parent with its outputs marked is the same instance otherwise. *)
Lemma mark_outputs_same pm parent child :
  is_mod (mark_outputs pm parent child) = is_mod parent /\ is_state (mark_outputs pm parent child) = is_state parent
  /\ is_children (mark_outputs pm parent child) = is_children parent.
Proof.
  unfold mark_outputs, init_driven_nets_from_assigns. cbn. case_bool_decide; [|done]. by destruct parent as [[]].
Qed.

Lemma tree_ok_leaf m name st dr b o n : module_ok m -> state_inv st -> tree_ok (S n) (mk_inst (Some m) name st dr b o []).
Proof. intros Hm Hi. split; [|by constructor]. split; [done|]. by intros m' [= <-]. Qed.

(** Elaboration needs no more of the modules than that they can be run. *)
Lemma elaborate_children_runs fuel d parent :
  Forall module_ok (cd_modules d) -> tree_ok (S fuel) parent -> tree_ok (S fuel) (elaborate_children fuel d parent).
Proof.
  intros Hd. revert parent. induction fuel as [|fuel IH]; intros parent Hp; cbn [elaborate_children].
  { by destruct (is_mod parent). }
  destruct (is_mod parent) as [pm|] eqn:Em; [|done]. clear Em. generalize (cm_instances pm) as l. intros l. revert parent Hp.
  induction l as [|idef l IHl]; intros parent Hp; cbn [foldl]; [done|]. apply IHl.
  destruct (find_module d _) as [cm|] eqn:Ef; [|done]. apply find_module_elem in Ef. rewrite Forall_forall in Hd.
  assert (Hc : tree_ok (S fuel) (new_child pm cm idef)).
  { unfold new_child. destruct (fill_bindings _ _ _ _). apply tree_ok_leaf; [by apply Hd|]. apply apply_params_ok, init_state_inv. }
  destruct (mark_outputs_same pm parent (new_child pm cm idef)) as (Em & Es & Ec). destruct Hp as [[Hi Hm] Hch].
  cbv zeta. set (p1 := mark_outputs _ _ _) in *. clearbody p1.
  split; [split; cbn; [by rewrite Es|intros m; rewrite Em; apply Hm]|]. cbn. rewrite Ec. apply Forall_app. split; [done|].
  constructor; [by apply IH|done].
Qed.

Lemma elaborate_runs d top : Forall module_ok (cd_modules d) -> module_ok top -> tree_ok (S max_depth) (elaborate d top).
Proof. intros Hd Ht. apply elaborate_children_runs; [done|]. apply tree_ok_leaf; [done|apply init_state_inv]. Qed.

Lemma reachable_runs d top inst :
  Forall module_ok (cd_modules d) -> module_ok top -> reachable d top inst -> tree_ok (height inst) inst.
Proof.
  intros Hd Ht Hr. assert (Hn : exists n, tree_ok n inst).
  { induction Hr as [|inst sig v _ [n Hok]|inst inst' tick ps _ [n Hok] Hs].
    - exists (S max_depth). by apply elaborate_runs.
    - exists n. apply tree_ok_state; [done|]. apply with_values_inv; [apply length_set_value|by eapply tree_ok_inv].
    - destruct (simulate_returns inst tick ps (tree_all_height _ _ _ Hok)) as (i2 & He & Hok2 & _). rewrite He in Hs. injection Hs as <-. eauto. }
  destruct Hn as [n Hok]. by eapply tree_all_height.
Qed.

(** ** Theorems *)

(** C6. What is compiled can be simulated.  Whatever the source text, whenever the compiler returns - with errors or
    without - every design made of its modules can be elaborated from any of them and run: in every state that is
    reached by setting signals from outside and simulating ticks, in any order, the next tick returns.  No statement
    of a parsed process, no function or task that was inlined, no loop of the source and no instance, recursive or
    not, makes the simulator run forever or leave a vector. *)
Theorem compiled_source_simulates (d : nat) (src : text) (opt : preprocess_options) (r : compile_result)
  (top : compiled_module) (inst : instance_state) (tick : Z) (process_sequential : bool) :
  compile d src opt = Ok r -> top ∈ cr_modules r -> reachable (build_design (cr_modules r)) top inst ->
  exists inst', simulate inst tick process_sequential = Some inst' /\ reachable (build_design (cr_modules r)) top inst'.
Proof.
  intros Hc Ht Hr. pose proof (compiled_modules_ok d src opt r Hc) as Hm.
  assert (Hok : tree_ok (height inst) inst).
  { apply (reachable_runs (build_design (cr_modules r)) top); [exact Hm| |exact Hr]. rewrite Forall_forall in Hm. by apply Hm. }
  destruct (simulate_returns inst tick process_sequential Hok) as (inst' & E & _). exists inst'. split; [done|].
  by eapply reach_tick.
Qed.

(** *** A source, compiled and run *)

Definition flop_source : text := String.list_ascii_of_string
  "module inv(input a, output y); assign y = ~a; endmodule
module top(input clk, input d, output reg q);
  wire n;
  inv u(.a(d), .y(n));
  always_ff @(posedge clk) q <= n;
endmodule".

(** What the top module of a source shows on a signal after the given levels of its inputs, one tick each. *)
Definition run_source (src : text) (top : string) (ticks : list (list (string * dns))) (out : string) : option dns :=
  match compile 1 src default_options with
  | Ok r =>
      m ← find_module (build_design (cr_modules r)) top;
      inst ← foldl (fun o levels => inst ← o;
        simulate (foldl (fun inst '(name, v) => set_input inst (cm_signal_index m !! name) v) inst levels) 0 true)
        (Some (elaborate (build_design (cr_modules r)) m)) ticks;
      i ← cm_signal_index m !! out; st_values (is_state inst) !! i
  | _ => None
  end.

(** The flip-flop takes the inverted input at the rising edge and holds it. *)
Lemma flop_source_runs :
  run_source flop_source "top" [[("clk", false_state); ("d", false_state)]; [("clk", true_state)]; [("d", true_state)]]%string "q"
    = Some true_state
  /\ run_source flop_source "top" [[("clk", false_state); ("d", true_state)]; [("clk", true_state)]; [("d", false_state)]]%string "q"
    = Some false_state.
Proof. split; vm_compute; reflexivity. Qed.

Lemma compiled_source_simulates_witness : exists r top inst',
  compile 1 flop_source default_options = Ok r /\ cr_errors r = [] /\ cm_name top = "top"%string /\ top ∈ cr_modules r
  /\ simulate (elaborate (build_design (cr_modules r)) top) 0 true = Some inst'.
Proof.
  assert (He : match compile 1 flop_source default_options with Ok r => (cr_errors r, map cm_name (cr_modules r)) | _ => ([], []) end
    = ([], ["inv"; "top"]%string)) by (vm_compute; reflexivity).
  destruct (compile 1 flop_source default_options) as [r| | |] eqn:Hc; [|discriminate He..].
  destruct (cr_modules r) as [|m1 [|top [|]]] eqn:Hm; try discriminate He. injection He as He _ Hn.
  assert (Ht : top ∈ cr_modules r) by (rewrite Hm; right; left).
  destruct (compiled_source_simulates 1 flop_source default_options r top _ 0 true Hc Ht (reach_elaborate _ _)) as (inst' & Hs & _).
  exists r, top, inst'. split; [reflexivity|]. split; [exact He|]. split; [exact Hn|]. split; [exact Ht|exact Hs].
Defined.
