(* ===== verification/VDevice.v ===== *)
(** * Verilog: a compiled design as a model of the circuit

    VERILOG_MODULE of model/models/digital/verilog_module.h: a design that is
    compiled from source, elaborated, and run by the event loop of the circuit
    through its pins, one for every bit of the ports of its top module; and
    VERILOG_PORTS of verilog_ports.h, the pins alone.

    The pins are passed beside the model, as for the other digital models
    (Device); the names they show are kept here.  The shared pointer to the design
    is the design, which never changes.  A pointer to a child instance is never
    null in a tree that elaboration or a copy made, and is the child. *)

From S2P Require Import Prelude Double Logic4 Variant Node Device VModule VEval VExec VSim VSettle VElab VLower VBits VLiteral VLex VPre VParse VCompile VInv VRun.
From Stdlib Require Import ZArith Lia Ascii.

(** ** Data *)

Record VERILOG_MODULE := mk_verilog {
  vm_Ll : double;
  vm_Hl : double;
  vm_source : text;
  vm_top : string;
  vm_design : option compiled_design;
  vm_top_instance : instance_state;
  vm_tick : Z;
  vm_pin_names : list string;
  vm_analog_emit_cursor : nat;
}.

(** [instance_state{}] *)
Definition instance_state_default : instance_state := mk_inst None "" module_state_default [] [] [] [].

Definition VERILOG_MODULE_init : VERILOG_MODULE := mk_verilog d0 d5 [] "" None instance_state_default 0 [] 0.

(** ** Copies *)

(** The members that [deep_copy_module_state] names; the others are those of [dst]. *)
Definition deep_copy_module_state (dst src : module_state) : module_state :=
  mk_state (st_mod src) (st_values src) (st_prev_values src) (st_comb_prev_values src)
    (st_comb_initialized dst) (st_initial_ran dst) (st_initial_base_tick dst) (st_events src)
    (st_nba_queue src) (st_next_net_values src) (st_change_mark src) (st_changed_signals src)
    (st_change_token src) (st_expr_eval_cache src) (st_expr_eval_mark src) (st_expr_eval_token src).

Fixpoint deep_copy_instance_state (dst src : instance_state) {struct src} : instance_state :=
  let 'mk_inst m name st driven bindings drives children := src in
  mk_inst m name (deep_copy_module_state (is_state dst) st) driven bindings drives
    (map (deep_copy_instance_state instance_state_default) children).

(** The names of the pins: the bits of the ports. *)
Definition port_names (inst : instance_state) : list string :=
  match is_mod inst with Some cm => port_name <$> cm_ports cm | None => [] end.

(** [operator=] from another object. *)
Definition assign_verilog (this other : VERILOG_MODULE) : VERILOG_MODULE :=
  let inst := deep_copy_instance_state (vm_top_instance this) (vm_top_instance other) in
  mk_verilog (vm_Ll other) (vm_Hl other) (vm_source other) (vm_top other) (vm_design other) inst (vm_tick other)
    (port_names inst) (vm_analog_emit_cursor other).

(** The copy constructor. *)
Definition copy_verilog (other : VERILOG_MODULE) : VERILOG_MODULE := assign_verilog VERILOG_MODULE_init other.

(** ** Attributes *)


Definition VERILOG_MODULE_get_attribute_define (m : VERILOG_MODULE) (idx : nat) : variant :=
  match idx with 0 => v_d (vm_Ll m) | 1 => v_d (vm_Hl m) | _ => v_invalid end.

Definition VERILOG_MODULE_get_attribute_name_define (idx : nat) : string :=
  match idx with 0 => "Ll" | 1 => "Hl" | _ => "" end%string.

(** ** One update *)

(** Ports that are sampled, and ports that are driven. *)
Definition samples_port (d : port_dir) : bool := match d with dir_input | dir_inout | dir_unknown => true | dir_output => false end.

Definition drives_port (d : port_dir) : bool := match d with dir_output | dir_inout => true | _ => false end.

(** The node of an input port is read into its signal. *)
Definition sample_port (Ll Hl : double) (w : world) (values : list dns) (pp : port * pin) : option (list dns) :=
  match (if samples_port (port_direction pp.1) then pin_nodes pp.2 else None) with
  | None => Some values
  | Some n =>
      match vget values (port_signal pp.1) with
      | None => Some values
      | Some _ => v ← read_dn_raw Ll Hl w n; Some (set_value values (port_signal pp.1) v)
      end
  end.

Definition sample_ports (Ll Hl : double) (w : world) (l : list (port * pin)) (values : list dns) : option (list dns) :=
  fold_option (sample_port Ll Hl w) l values.

(** The signal of an output port is written to its node, if that is digital. *)
Definition drive_port (values : list dns) (w : world) (pp : port * pin) : option world :=
  match (if drives_port (port_direction pp.1) then pin_nodes pp.2 else None), vget values (port_signal pp.1) with
  | Some n, Some v =>
      nd ← w_nodes w !! n;
      if is_analog nd then Some w
      else
        cur ← dn_state nd;
        if bool_decide (cur ≠ v) then w ← set_state w n v; Some (table_insert w n) else Some w
  | _, _ => Some w
  end.

Definition drive_ports (values : list dns) (l : list (port * pin)) (w : world) : option world :=
  fold_option (drive_port values) l w.

(** The drive of port [i]; [None] inside: it drives no analog node. *)
Definition analog_drive (Ll Hl : double) (ports : list port) (pins : list pin) (values : list dns) (w : world) (i : nat)
  : option (option need_operate_analog_node_t) :=
  p ← ports !! i;
  if negb (drives_port (port_direction p)) then Some None
  else
    pn ← pins !! i;
    match pin_nodes pn with
    | None => Some None
    | Some n =>
        nd ← w_nodes w !! n;
        if negb (is_analog nd) then Some None
        else
          match vget values (port_signal p) with
          | None | Some high_impedence_state => Some None
          | Some v => Some (Some (drive_default Ll Hl v n))
          end
    end.

(** The loop over [k]: one drive per call, in turn; with the new cursor. *)
Fixpoint emit_loop (drive : nat -> option (option need_operate_analog_node_t)) (nports cursor : nat) (ks : list nat)
  : option (need_operate_analog_node_t * nat) :=
  match ks with
  | [] => Some (no_drive, cursor)
  | k :: ks =>
      let i := (cursor + k) mod nports in
      r ← drive i;
      match r : option need_operate_analog_node_t with
      | Some d => Some (d, (i + 1) mod nports)
      | None => emit_loop drive nports cursor ks
      end
  end.

Definition VERILOG_MODULE_update_digital_clk_define (pins : list pin) (m : VERILOG_MODULE) (w : world) (tr_duration : double)
  (method : digital_update_method_t) : option (need_operate_analog_node_t * VERILOG_MODULE * world) :=
  match vm_design m, is_mod (vm_top_instance m) with
  | Some _, Some cm =>
      let first := bool_decide (method = before_all_clk) in
      let tick := if first then ((vm_tick m + 1) mod 2 ^ 64)%Z else vm_tick m in
      let top := vm_top_instance m in
      values ← sample_ports (vm_Ll m) (vm_Hl m) w (zip (cm_ports cm) pins) (st_values (is_state top));
      top ← simulate (with_inst_state top (with_values (is_state top) values)) tick first;
      w ← drive_ports (st_values (is_state top)) (zip (cm_ports cm) pins) w;
      let nports := length (cm_ports cm) in
      '(drive, cursor) ← emit_loop (analog_drive (vm_Ll m) (vm_Hl m) (cm_ports cm) pins (st_values (is_state top)) w)
                           nports (vm_analog_emit_cursor m) (seq 0 nports);
      Some (drive, mk_verilog (vm_Ll m) (vm_Hl m) (vm_source m) (vm_top m) (vm_design m) top tick (vm_pin_names m) cursor, w)
  | _, _ => Some (no_drive, m, w)
  end.

#[global] Instance verilog_device : DigitalDevice VERILOG_MODULE := {
  update_digital_clk := VERILOG_MODULE_update_digital_clk_define;
  digital_update_method _ := before_all_clk;
  num_pins m := length (vm_pin_names m);
}.

(** ** Construction *)

(** The module with this name, or else the first one. *)
Definition make_verilog_module (d : nat) (source : text) (top_name : string) (opt : preprocess_options) : res VERILOG_MODULE :=
  match compile d source opt with
  | Ok cr =>
      match cr_modules cr with
      | [] => Ok (mk_verilog d0 d5 source top_name None instance_state_default 0 [] 0)
      | front :: _ =>
          let design := build_design (cr_modules cr) in
          let top := elaborate design (default front (find_module design top_name)) in
          Ok (mk_verilog d0 d5 source top_name (Some design) top 0 (port_names top) 0)
      end
  | Undefined => Undefined
  | OutOfFuel => OutOfFuel
  | TooDeep => TooDeep
  end.

(** ** VERILOG_PORTS *)

Record VERILOG_PORTS := mk_ports { vp_pin_names : list string }.

Definition set_pins (names : list string) : VERILOG_PORTS := mk_ports names.

Definition VERILOG_PORTS_set_attribute_define (m : VERILOG_PORTS) (idx : nat) (vi : variant) : bool * VERILOG_PORTS := (false, m).

Definition VERILOG_PORTS_update_digital_clk_define (pins : list pin) (m : VERILOG_PORTS) (w : world) (tr_duration : double)
  (method : digital_update_method_t) : option (need_operate_analog_node_t * VERILOG_PORTS * world) := Some (no_drive, m, w).

#[global] Instance verilog_ports_device : DigitalDevice VERILOG_PORTS := {
  update_digital_clk := VERILOG_PORTS_update_digital_clk_define;
  digital_update_method _ := update_table;
  num_pins m := length (vp_pin_names m);
}.

(** ** The invariant *)


(** The union of a node holds what its number of analog pins says. *)
Definition node_coherent (nd : node_t) : Prop := if is_analog nd then is_Some (an_real nd) else is_Some (dn_state nd).




(** *** Sampling *)

(** The node of an input or inout port, or of one without a direction. *)
Definition sampled (pp : port * pin) : option nat :=
  match port_direction pp.1 with dir_input | dir_inout | dir_unknown => pin_nodes pp.2 | dir_output => None end.

(** The node of an output or inout port. *)
Definition driven (pp : port * pin) : option nat :=
  match port_direction pp.1 with dir_output | dir_inout => pin_nodes pp.2 | dir_input | dir_unknown => None end.

Lemma samples_sampled pp : (if samples_port (port_direction pp.1) then pin_nodes pp.2 else None) = sampled pp.
Proof. unfold sampled. by destruct (port_direction pp.1). Qed.

Lemma drives_driven pp : (if drives_port (port_direction pp.1) then pin_nodes pp.2 else None) = driven pp.
Proof. unfold driven. by destruct (port_direction pp.1). Qed.




(** *** Driving *)

(** Nodes stay coherent, and only their state changes. *)
Definition coherent_step (w w' : world) : Prop :=
  forall n nd, w_nodes w !! n = Some nd -> node_coherent nd ->
    exists nd', w_nodes w' !! n = Some nd' /\ node_coherent nd' /\ is_analog nd' = is_analog nd.

#[global] Instance coherent_step_preorder : PreOrder coherent_step.
Proof.
  split; [intros w n nd; eauto|]. intros w1 w2 w3 H1 H2 n nd Hn Hc. destruct (H1 n nd Hn Hc) as (nd2 & Hn2 & Hc2 & E2).
  destruct (H2 n nd2 Hn2 Hc2) as (nd3 & ? & ? & ?). exists nd3. split_and!; [done|done|congruence].
Qed.




(** *** One update *)








(** *** Construction and copies *)







(** ** What the ports carry *)

(** A signal that no connected input port has keeps its value. *)
Lemma sample_ports_other lo hi w l values values' k :
  sample_ports lo hi w l values = Some values' ->
  (forall pp, pp ∈ l -> is_Some (sampled pp) -> port_signal pp.1 <> Some k) -> values' !! k = values !! k.
Proof.
  revert values. induction l as [|pp l IH]; intros values; cbn [sample_ports fold_option]; [by intros [= <-]|].
  intros (v1 & E1 & E)%bind_Some Hk. rewrite (IH v1 E) by (intros; apply Hk; [by right|done]).
  unfold sample_port in E1. rewrite samples_sampled in E1. destruct (sampled pp) as [n|] eqn:Es; [|by injection E1 as <-].
  destruct (vget values _); [|by injection E1 as <-]. apply bind_Some in E1 as (v & _ & [= <-]).
  assert (Hne : port_signal pp.1 <> Some k) by (apply Hk; [by left|by rewrite Es]).
  destruct (port_signal pp.1) as [j|]; [|done]. cbn. rewrite list_lookup_insert_ne by congruence. done.
Qed.

(** The last connected input port of a signal gives it the level of its node. *)
Lemma sample_ports_last lo hi w l1 pp l2 values values' n k v :
  sample_ports lo hi w (l1 ++ pp :: l2) values = Some values' -> sampled pp = Some n -> port_signal pp.1 = Some k ->
  k < length values -> read_dn_raw lo hi w n = Some v ->
  (forall pp', pp' ∈ l2 -> is_Some (sampled pp') -> port_signal pp'.1 <> Some k) -> values' !! k = Some v.
Proof.
  intros E Hs Hp Hk Hv Hl. revert values Hk E. induction l1 as [|p1 l1 IH]; intros values Hk; cbn [app sample_ports fold_option].
  - intros (v1 & E1 & E)%bind_Some. rewrite (sample_ports_other _ _ _ _ _ _ _ E Hl).
    unfold sample_port in E1. rewrite samples_sampled in E1. rewrite Hs, Hp in E1. cbn in E1.
    destruct (lookup_lt_is_Some_2 values k Hk) as [x Hx]. rewrite Hx, Hv in E1. cbn in E1. injection E1 as <-.
    by rewrite list_lookup_insert_eq.
  - intros (v1 & E1 & E)%bind_Some. apply (IH v1); [|done].
    unfold sample_port in E1. destruct (if samples_port _ then _ else _); [|by injection E1 as <-].
    destruct (vget values _); [|by injection E1 as <-]. apply bind_Some in E1 as (x & _ & [= <-]). by rewrite length_set_value.
Qed.

(** A digital node keeps its state unless a driven port is on it, and stays digital. *)
Lemma drive_port_state values w pp w' n s :
  drive_port values w pp = Some w' -> digital_at w n -> state_at w n = Some s ->
  digital_at w' n /\ state_at w' n = Some (if bool_decide (driven pp = Some n) then default s (vget values (port_signal pp.1)) else s).
Proof.
  unfold drive_port. rewrite drives_driven. intros E Hd Hs.
  destruct (driven pp) as [n'|]; [|injection E as <-; by rewrite bool_decide_false].
  destruct (vget values _) as [v|]; [|injection E as <-; split; [done|by case_bool_decide]].
  apply bind_Some in E as (nd & End & E).
  destruct (decide (n' = n)) as [->|Hne].
  - rewrite bool_decide_true by done. cbn [default]. destruct Hd as (nd' & Hnd & Hdig). assert (nd' = nd) as -> by congruence.
    rewrite (digital_not_analog nd Hdig) in E. apply bind_Some in E as (cur & Ecur & E).
    case_bool_decide as Hcv; [|injection E as <-; subst cur; split; [by exists nd|]; unfold state_at; by rewrite End].
    apply bind_Some in E as (w1 & Ew & [= <-]). rewrite (set_state_some _ _ _ _ End) in Ew. injection Ew as <-.
    unfold digital_at, state_at. cbn. rewrite lookup_insert_eq. split; [|done]. eauto with phy.
  - rewrite bool_decide_false by congruence. destruct (is_analog nd); [by injection E as <-|]. apply bind_Some in E as (cur & _ & E).
    case_bool_decide; [|by injection E as <-]. apply bind_Some in E as (w1 & Ew & [= <-]).
    rewrite (set_state_some _ _ _ _ End) in Ew. injection Ew as <-. unfold digital_at, state_at in *. cbn. by rewrite lookup_insert_ne.
Qed.

Lemma drive_ports_other values l w w' n s :
  drive_ports values l w = Some w' -> digital_at w n -> state_at w n = Some s -> (forall pp, pp ∈ l -> driven pp <> Some n) ->
  digital_at w' n /\ state_at w' n = Some s.
Proof.
  revert w. induction l as [|pp l IH]; intros w; cbn [drive_ports fold_option]; [by intros [= <-]|].
  intros (w1 & E1 & E)%bind_Some Hd Hs Hl. destruct (drive_port_state _ _ _ _ n s E1 Hd Hs) as [Hd1 Hs1].
  rewrite bool_decide_false in Hs1 by (apply Hl; by left). apply (IH w1); [done|done|done|]. intros; apply Hl; by right.
Qed.

(** The last driven port on a digital node gives it the value of its signal. *)
Lemma drive_ports_last values l1 pp l2 w w' n v :
  drive_ports values (l1 ++ pp :: l2) w = Some w' -> digital_at w n -> driven pp = Some n ->
  vget values (port_signal pp.1) = Some v -> (forall pp', pp' ∈ l2 -> driven pp' <> Some n) -> state_at w' n = Some v.
Proof.
  intros E Hd Hp Hv Hl. revert w Hd E. induction l1 as [|p1 l1 IH]; intros w Hd; cbn [app drive_ports fold_option];
    intros (w1 & E1 & E)%bind_Some; destruct (digital_at_state w n Hd) as [s Hs];
    destruct (drive_port_state _ _ _ _ n s E1 Hd Hs) as [Hd1 Hs1]; [|by apply (IH w1)].
  rewrite bool_decide_true, Hv in Hs1 by done. by destruct (drive_ports_other _ _ _ _ n v E Hd1 Hs1 Hl).
Qed.

(** ** Theorems *)




(** C13. The ports carry the levels of the nodes.  An update that returns, of a model with a design, samples, simulates
    and drives: the simulator runs one tick on the instance in which the signal of every connected port that is an input,
    an inout or without a direction has the level of the node of the port (of the last one, where ports share a signal)
    and every other signal the value it had; afterwards every digital node under an output or inout port shows the value
    of the signal of the port (of the last one, where ports share a node). *)
Theorem verilog_ports_carry_values (pins : list pin) (m : VERILOG_MODULE) (w : world) (t : double)
  (method : digital_update_method_t) (dr : need_operate_analog_node_t) (m' : VERILOG_MODULE) (w' : world) (cm : compiled_module) :
  update_digital_clk pins m w t method = Some (dr, m', w') -> is_Some (vm_design m) -> is_mod (vm_top_instance m) = Some cm ->
  let ports := zip (cm_ports cm) pins in
  let old := st_values (is_state (vm_top_instance m)) in
  let new := st_values (is_state (vm_top_instance m')) in
  exists values,
    simulate (with_inst_state (vm_top_instance m) (with_values (is_state (vm_top_instance m)) values))
      (vm_tick m') (bool_decide (method = before_all_clk)) = Some (vm_top_instance m')
    /\ (forall l1 pp l2 n k v, ports = l1 ++ pp :: l2 -> sampled pp = Some n -> port_signal pp.1 = Some k -> k < length old ->
         read_dn_raw (vm_Ll m) (vm_Hl m) w n = Some v ->
         (forall pp', pp' ∈ l2 -> is_Some (sampled pp') -> port_signal pp'.1 <> Some k) -> values !! k = Some v)
    /\ (forall k, (forall pp, pp ∈ ports -> is_Some (sampled pp) -> port_signal pp.1 <> Some k) -> values !! k = old !! k)
    /\ (forall l1 pp l2 n v, ports = l1 ++ pp :: l2 -> driven pp = Some n -> digital_at w n -> vget new (port_signal pp.1) = Some v ->
         (forall pp', pp' ∈ l2 -> driven pp' <> Some n) -> state_at w' n = Some v).
Proof.
  intros Hu [d Hd] Hm ports old new. cbn [update_digital_clk verilog_device] in Hu. unfold VERILOG_MODULE_update_digital_clk_define in Hu.
  rewrite Hd, Hm in Hu. fold ports old in Hu. apply bind_Some in Hu as (values & Es & Hu). apply bind_Some in Hu as (top & Et & Hu).
  apply bind_Some in Hu as (w1 & Ew & Hu). apply bind_Some in Hu as ([drive cursor] & _ & Hu). injection Hu as _ <- <-.
  exists values. split_and!; [exact Et|..].
  - intros l1 pp l2 n k v El Hs Hp Hk Hv Hl. rewrite El in Es. by eapply sample_ports_last.
  - intros k. by eapply sample_ports_other.
  - intros l1 pp l2 n v El Hdr Hdig Hv. rewrite El in Ew. by eapply drive_ports_last.
Qed.

(** *** A register with an initial value *)

Definition register_source : text := String.list_ascii_of_string
  "module top(input clk, output reg q); initial q = 0; always_ff @(posedge clk) q <= 1; endmodule".

Definition register_model : VERILOG_MODULE :=
  match make_verilog_module 1 register_source "top" default_options with Ok m => m | _ => VERILOG_MODULE_init end.


(** The clock on node 0, the output on node 1. *)
Definition register_pins : list pin := [mk_pin (Some 0) None; mk_pin (Some 1) None].

Definition register_world (clk q : dns) : world :=
  mk_world {[ 0 := Node.mk_node (dn clk) ∅ 0 0; 1 := Node.mk_node (dn q) ∅ 0 1 ]} (mk_table ∅ ∅).



(** One tick of a model with the clock at a level. *)
Definition clock_register (x : option (VERILOG_MODULE * world)) (clk : dns) : option (VERILOG_MODULE * world) :=
  '(m, w) ← x; w ← set_state w 0 clk; '(_, m, w) ← update_digital_clk register_pins m w d0 before_all_clk; Some (m, w).

Definition shown (x : option (VERILOG_MODULE * world)) : option dns := '(_, w) ← x; state_at w 1.

(** *** A copy runs its initial blocks again *)

(** The register is 1 after a rising edge and stays so, but a copy that is taken there goes back to its initial value:
    [deep_copy_module_state] does not copy [initial_ran]. *)
Lemma copy_runs_initial_again :
  let started := clock_register (Some (register_model, register_world false_state indeterminate_state)) false_state in
  let run := clock_register started true_state in
  shown started = Some false_state /\ shown run = Some true_state /\ shown (clock_register run true_state) = Some true_state
  /\ shown (clock_register ('(m, w) ← run; Some (copy_verilog m, w)) true_state) = Some false_state.
Proof. vm_compute. split_and!; reflexivity. Qed.

(** *** A top module that does not exist *)

(** The first module is taken where the name is unknown, and errors of the compiler are not looked at. *)
Lemma unknown_top_takes_first :
  match make_verilog_module 1 register_source "nothing" default_options with Ok m => cm_name <$> is_mod (vm_top_instance m) | _ => None end
    = Some "top"%string
  /\ match make_verilog_module 1 (String.list_ascii_of_string "module m(input a) endmodule") "m" default_options with
     | Ok m => is_Some (is_mod (vm_top_instance m)) | _ => False end.
Proof. split; [vm_compute; reflexivity|]. vm_compute. by eexists. Qed.

Lemma verilog_ports_carry_values_witness : exists dr m' w',
  update_digital_clk register_pins register_model (register_world false_state indeterminate_state) d0 before_all_clk = Some (dr, m', w')
  /\ vget (st_values (is_state (vm_top_instance m'))) (Some 0) = Some false_state /\ state_at w' 1 = Some false_state.
Proof.
  assert (Hv : (r ← update_digital_clk register_pins register_model (register_world false_state indeterminate_state) d0 before_all_clk;
    vget (st_values (is_state (vm_top_instance r.1.2))) (Some 0)) = Some false_state) by (vm_compute; reflexivity).
  destruct (update_digital_clk register_pins register_model (register_world false_state indeterminate_state) d0 before_all_clk)
    as [[[dr m'] w']|] eqn:E; [|discriminate Hv].
  cbn in Hv. exists dr, m', w'. split; [reflexivity|]. split; [exact Hv|].
  assert (Hp : cm_ports <$> is_mod (vm_top_instance register_model)
    = Some [mk_port "clk" dir_input (Some 1); mk_port "q" dir_output (Some 0)]) by (vm_compute; reflexivity).
  destruct (is_mod (vm_top_instance register_model)) as [cm|] eqn:Em; [|discriminate Hp]. injection Hp as Hp.
  assert (Hd : is_Some (vm_design register_model)) by (apply (bool_decide_unpack _); vm_compute; exact I).
  destruct (verilog_ports_carry_values _ _ _ _ _ _ _ _ cm E Hd Em) as (values & _ & _ & _ & Hout).
  rewrite Hp in Hout. clear E Em Hd Hp. apply (Hout [(mk_port "clk" dir_input (Some 1), mk_pin (Some 0) None)] (mk_port "q" dir_output (Some 0), mk_pin (Some 1) None) [] 1 false_state);
    [reflexivity|reflexivity| |exact Hv|by intros pp Hpp%elem_of_nil].
  eexists. split; [reflexivity|]. split; [reflexivity|by eexists].
Defined.
